(* ===== verification/_CoqProject ===== *)
-Q . S2P
Prelude.v
ViewHistory.v
TxStatus.v
CommitCallbacks.v
LedgerEntries.v
Champ.v
ChampSpec.v
RbMap.v
RbMapSpec.v
RaftTypes.v
Raft.v
RaftHandlers.v
RaftExample.v
RaftInv.v
RaftLog.v
RaftSafe.v
RaftSend.v
RaftCommit.v
RaftElection.v
RaftAppend.v
RaftRun.v
RaftBatch.v
Network.v
KvMap.v
KvRoll.v
KvHandle.v
KvIsolation.v
KvSerialise.v
KvRoundTrip.v
KvEntry.v
KvStore.v
KvTx.v
KvApply.v
KvExample.v
KvWorld.v
KvCommit.v
KvSerial.v
KvReplicate.v
KvSnapshot.v
RingBuffer.v
RingBufferInv.v
RingBufferSafe.v
RingBufferLive.v
Writers.v
NonBlocking.v
Oversized.v
OversizedSpec.v
LedgerFile.v
LedgerFileSpec.v
LedgerNames.v
HostLedger.v
HostLedgerSpec.v
HostLedgerOps.v
HostLedgerRead.v
HostLedgerRecover.v
HostLedgerLog.v
Channels.v
ChannelsSpec.v
ChannelsAgree.v
ChannelsDeliver.v
ChannelManager.v
PrimeField.v
Sharing.v
SharingSpec.v
LedgerSecrets.v
LedgerSecretsSpec.v
Encryptor.v
EncryptorSpec.v
GovTables.v
GovTablesSpec.v
ShareManager.v
NodeRecovery.v
Constitution.v
ShareManagerSpec.v
RecoverySpec.v
NodeRecoverySpec.v
RecoveryRun.v
GovernanceRun.v
DisasterRecovery.v
ServiceLife.v
