(* ===== verification/Prelude.v ===== *)
(** * Verification of the Confidential Consortium Framework (CCF)

    CCF runs a replicated key-value store inside trusted execution
    environments. A transaction runs optimistically over the store of the
    primary (src/kv). When it commits it takes the next version, its write set
    is serialised, and the entry is handed to consensus (src/consensus/aft),
    which appends it to the ledger of the host, through the ring buffer between
    enclave and host (src/ds), and sends it to the backups. A backup appends
    the entry and applies it to its own store. When a quorum of every active
    configuration holds an entry that ends in a signature, the primary commits:
    the stores are compacted up to it, callbacks waiting for transactions up to
    it are called, and snapshots of the store may be taken for nodes that join
    later. The private part of an entry is encrypted with a ledger secret. The
    latest ledger secret is wrapped with a key that is shared among the members
    of the consortium and sealed by nodes (src/node/share_manager.h), so that a
    service that is lost can be recovered from its ledger; proposals of the
    members, under the default constitution, change who they are.

    The development is a shallow embedding: one definition per operation, with
    the names of the source. Stateful C++ is in the state and exception monad
    of this file (a thrown exception keeps the writes made before it), machine
    integers are [N] or [Z] with wrap-around written out where the code can
    reach it, and objects the code reaches through an interface are type
    classes whose instances the clients' theorems range over.

    ** Files

    Shared: this file (record updates, 64-bit arithmetic, exceptions, the monad
    with its [keeps] and [wp] rules and the hint database [ccf], list and map
    lemmas).

    Consensus, src/consensus/aft:
    - [ViewHistory]: [aft::ViewHistory] of impl/state.h, all operations.
    - [TxStatus]: [TxID] and [evaluate_tx_status] (include/ccf/tx_id.h,
      include/ccf/tx_status.h).
    - [CommitCallbacks]: src/node/commit_callback_subsystem.h.
    - [LedgerEntries]: the framing of entries (src/ds/serialized.h,
      src/kv/serialised_entry_format.h, src/consensus/ledger_enclave.h).
    - [RaftTypes], [Raft], [RaftHandlers]: [aft::Aft] (raft.h). The object is
      the record [Aft]; [Raft] has its private operations, [RaftHandlers] the
      entry points. The store, the channels and the random number generator
      are the classes of [RaftTypes]; [RaftExample] has concrete ones.
    - [RaftInv], [RaftLog], [RaftSafe], [RaftAppend], [RaftRun]: the invariant of
      the log (and, in [RaftLog], what leaves the view alone), kept by every
      operation; in every run of a node the commit index and the view only grow,
      the views of committed entries never change, and a transaction whose status
      is final keeps it. A node that becomes primary has counted the vote of one
      that acknowledged what was committed ([RaftRun]). A message with a malformed
      entry is not answered ([RaftAppend]).
    - [RaftSend], [RaftBatch]: the loops that cut entries into messages end,
      send every entry, and never overflow.
    - [RaftCommit], [RaftElection]: a primary commits exactly what
      a quorum of each configuration has acknowledged and has been signed in
      its own view; quorums overlap; votes are counted in the configurations of
      the voter and a candidate wins with a quorum of each; a node votes once per
      view as long as it does not return to following in the view in which it
      stood for election.
    - [Network]: several nodes and the messages between them. Because of the
      case just named, two primaries can be elected in one view and commit
      different entries; the run is exhibited.

    Key-value store, src/kv and src/ds/champ_map.h:
    - [Champ], [ChampSpec]: the persistent hash tree is a finite map.
    - [KvMap], [KvRoll]: a map and its roll of local commits, shown to refine
      the history of its write sets (untyped_map.h, untyped_change_set.h).
    - [KvHandle], [KvIsolation]: handles (untyped_map_handle.cpp) and the check
      of read dependencies.
    - [KvSerialise], [KvRoundTrip], [KvEntry]: writing and reading entries
      (raw_serialise.h, generic_serialise_wrapper.h).
    - [KvStore], [KvTx], [KvApply]: store.h, apply_changes.h, tx.cpp,
      committable_tx.h, deserialise.h, snapshot.h. [KvExample] has a concrete
      environment.
    - [KvWorld], [KvCommit], [KvSerial]: one store with any number of open
      transactions; a transaction whose commit takes a version gives the results
      it would give if it ran alone at that moment (if it did not iterate over a
      map that had no commit yet), and a commit makes all writes or none.
    - [KvReplicate]: a backup that applies the entry of a transaction ends in
      the state of the primary.
    - [KvSnapshot]: a snapshot read by an empty store restores every map.

    Ring buffer, src/ds:
    - [RingBuffer]: ring_buffer.h, ring_buffer_types.h and the read loops of
      messaging.h, one step per access to shared memory.
    - [RingBufferInv], [RingBufferSafe], [RingBufferLive]: for all interleavings
      of any number of writers and a reader, messages are delivered whole, once
      and in the order of each writer, no access leaves the buffer, reading
      empties it and an empty buffer accepts every message of a legal size.
    - [Writers]: the interface [AbstractWriter], with the laws a writer keeps.
    - [NonBlocking]: non_blocking.h over any writer: every message that is not
      empty is taken and the order is kept; two empty ones that are queued stop
      the queue. [Oversized], [OversizedSpec]: oversized.h over any writer:
      messages are cut into fragments that fit and put together again, however
      the fragments of several writers are interleaved.

    Ledger of the host, src/host:
    - [LedgerFile], [LedgerFileSpec], [LedgerNames]: ledger_filenames.h and the
      class [LedgerFile] of ledger.h, over a disk with files and a directory.
    - [HostLedger]: the class [Ledger] of ledger.h and its message handlers.
    - [HostLedgerSpec], [HostLedgerOps], [HostLedgerRead],
      [HostLedgerRecover], [HostLedgerLog]: the chunk files, open, complete and
      committed, hold a log; each operation does to it what the operation of a
      log does, reads return its bytes, and recovery from a crash gives the
      entries whose bytes were written out.

    Node-to-node channels, src/node/channels.h, key_exchange.h:
    - [Channels]: a channel with its key exchange. [ChannelsSpec],
      [ChannelsAgree]: two nodes that run the exchange agree on their keys; a
      replayed first message makes a node use a nonce twice.
      [ChannelsDeliver]: what is accepted under a key that nobody forges messages
      for is what was sent under it, in order and at most once.
      [ChannelManager]: node_to_node_channel_manager.h; calls for one peer leave
      the channels of the others alone.

    Red-black tree, src/ds/rb_map.h: [RbMap], and [RbMapSpec]: it is a finite map
    and stays balanced.

    Ledger secrets and recovery:
    - [PrimeField], [Sharing], [SharingSpec]: src/crypto/sharing.cpp. The 64-bit
      arithmetic is that of the field, a threshold of shares gives the secret
      back, and fewer say nothing of it.
    - [LedgerSecrets], [LedgerSecretsSpec]: src/node/ledger_secrets.h over
      [std::map] as an ordered list ([OrderedMap]). [Encryptor], [EncryptorSpec]:
      src/kv/encryptor.h, src/node/encryptor.h and the AES-GCM keys and headers
      of src/crypto: no initialisation vector is used twice, what one node
      encrypts another decrypts, and the secret found from the one used last is
      the one a search finds. An encryptor that searches ([searching_encryptor])
      is the specification, and an instance of the interface of the store model.
    - [GovTables], [GovTablesSpec]: src/service/internal_tables_access.h. Its
      operations keep the active recovery members enough for the threshold.
    - [ShareManager], [ShareManagerSpec], [RecoverySpec]: src/node/share_manager.h
      and src/node/local_sealing.cpp. [World] is what a node and its tables hold;
      the shares that are issued are good for the ledger secret they were issued
      for, and the entries of the ledger are a chain from which all the secrets
      before it are restored.
    - [NodeRecovery], [NodeRecoverySpec]: what src/node/node_state.h,
      secret_broadcast.h, rpc/node_frontend.h and gov/handlers do in the creation,
      opening, rekey and recovery of a service, with the reading of the private
      ledger, and when nodes join and retire, and the hooks of the tables.
    - [Constitution]: samples/constitutions/default, the actions of proposals,
      their validation, application and resolution.
    - [RecoveryRun], [GovernanceRun], [DisasterRecovery], [ServiceLife]: runs of a
      service. A transaction runs an operation and the hooks ([run_tx]). Proposals
      are applied, members acknowledge, nodes join, are trusted and retire, and
      the service is opened, rekeyed, lost and recovered. As long as proposals are
      [careful], an open service has a share for each active recovery member,
      and a service that is lost is recovered with all its ledger secrets, and
      its private ledger read with them, by a quorum of shares, by an owner, or
      by a node that sealed its key. A careful proposal sets no active recovery
      member again while the service is open, issues no shares after a rekey in
      the same transaction, does not remove the node that is followed, and an
      opening is a proposal of its own. The constitution does not enforce this:
      [ServiceLife] also shows what the proposals that are excluded do.

    ** Bounds

    Loops of the source that are not structural take fuel, and theorems show
    that the fuel given is enough: the send loop of consensus has one round per
    entry, [find_highest_possible_match] one per view, [add_vote_for_me] and
    [become_candidate] call each other at most twice, reading a counted list or
    the maps of an entry or of a snapshot takes at most one round per byte,
    [take_contiguous] one per pending transaction, the hash tree has the height
    fixed by the source, one call of the reader of the ring buffer takes at
    most one step per byte, reading the private ledger one per entry, cutting a
    message into fragments one round per byte, flushing a queue one per message,
    recovering a ledger file one per byte, reading a range of the ledger or
    halving it to fit a limit one per entry. A double black of the red-black
    tree is moved up with fuel 2, since a red sibling is met once. Sampling an
    element of the field draws at most [tries] numbers; the laws of the entropy
    say that one of them is an element.

    ** Simplifications

    - Operations of consensus and of the store run to completion: the locks of
      the source are held for their whole length and are left out. The ring
      buffer has no locks and is modelled access by access, with sequentially
      consistent memory, fewer than [2 ^ 63] bytes written in the life of a
      buffer, and handlers that do not throw.
    - The iteration order of a persistent map is a function of its contents
      (class [StateOrder]).
    - Reading and writing files does not fail, a chunk file stays below 4 GiB
      (its offsets are 32-bit), and a crash leaves a prefix of the file that was
      being written to. The order of a directory listing is a parameter.
    - Logging and tracing are left out.
    - Encryption, hashing and signatures are interfaces with the laws the code
      relies on. Entropy is a sequence of numbered draws.
    - In the runs of a service one node is followed, the other nodes are in its
      tables, and a transaction is committed at once. Certificates are PEM
      strings and JSON data are strings. What reading an entry of the private
      ledger does with a key, and the roots of the stores, are parameters.
    - The sizes of the red-black tree have no bound.

    ** Not modelled

    The Merkle tree, OpenSSL, QuickJS, libuv, llhttp and the CBOR library are
    third-party code; the parts of CCF that only wrap them (src/crypto/openssl
    apart from the choice of an AES-GCM cipher, src/js, src/host networking,
    src/tls, src/http) are left out. So are the HTTP front ends over the store
    (src/node/rpc, src/node/gov, src/endpoints) apart from the handlers named
    above, and of src/node/node_state.h the start of nodes and what a node that
    joins does itself, attestation, node certificates, recovery from a snapshot,
    the private maps that are swapped in at the end of a recovery and the
    protocol by which nodes decide to open a service by themselves. Historical
    queries, indexing, the snapshotter, the ledger chunker, signatures of the
    Merkle history and the task system are independent parts that are not yet
    modelled. *)

From stdpp Require Export base tactics numbers list sorting gmap strings.
From Stdlib Require Export NArith ZArith Lia.
From Stdlib Require Import Init.Byte Strings.Byte.

(** ** Record updates

    A record [R] declares [eta_R r := Build_R (f1 r) ... (fn r)];
    [ltac:(set_field eta_R (f r) v r)] is [r] with the field [f] set to [v]. *)

Ltac replace_arg old v t :=
  lazymatch t with
  | ?g old => let g' := replace_arg old v g in constr:(g' v)
  | ?g ?x => let g' := replace_arg old v g in constr:(g' x)
  | _ => constr:(t)
  end.

Ltac set_field eta old v r :=
  let b := eval cbv beta delta [eta] in (eta r) in
  let b' := replace_arg old v b in
  exact b'.

(** ** Machine integers *)

(** Subtraction of [uint64_t]/[size_t]: wraps below zero. *)
Definition u64_sub (a b : N) : N := (if b <=? a then a - b else 2 ^ 64 - (b - a))%N.

(** Conversion of an exact integer to [int] (32-bit two's complement). *)
Definition to_int32 (z : Z) : Z := ((z + 2 ^ 31) mod 2 ^ 32 - 2 ^ 31)%Z.

Lemma u64_sub_exact a b : (b <= a)%N -> u64_sub a b = (a - b)%N.
Proof. intros Hle. unfold u64_sub. by destruct (N.leb_spec b a); [|lia]. Qed.

Lemma u64_sub_mod a b : (a < 2 ^ 64)%N -> (b < 2 ^ 64)%N ->
  Z.of_N (u64_sub a b) = ((Z.of_N a - Z.of_N b) mod 2 ^ 64)%Z.
Proof.
  intros Ha Hb. unfold u64_sub. destruct (N.leb_spec b a).
  - rewrite Z.mod_small; lia.
  - apply (Z.mod_unique_pos _ _ (-1)); lia.
Qed.

Lemma to_int32_id z : (- 2 ^ 31 <= z < 2 ^ 31)%Z -> to_int32 z = z.
Proof. intros H. unfold to_int32. rewrite Z.mod_small; lia. Qed.

(** ** Exceptions and stateful code

    A C++ member function that may throw is a function of the object's state
    to a result and the state it leaves behind. An exception does not undo the
    writes made before it was thrown. *)

Inductive exn :=
| LogicError (what : string)   (* std::logic_error *)
| OutOfRange                   (* std::out_of_range, from at() *)
| InsufficientSpace            (* serialized::InsufficientSpaceException *)
| DroppedMessage               (* ccf::NodeToNode::DroppedMessageException *)
| RuntimeError (what : string) (* std::runtime_error *)
| KvSerialiserException        (* ccf::kv::KvSerialiserException *)
| CompactedVersionConflict     (* ccf::kv::CompactedVersionConflict *)
| AssertionFailure             (* assert() or CCF_ASSERT in a debug build *)
| OutOfBounds                  (* no exception of the code: a read outside of a buffer or object *)
| OutOfFuel.                   (* no exception of the code: a loop bound of the model *)

Inductive result (A : Type) :=
| Ok (a : A)
| Throw (e : exn).
Arguments Ok {A} a.
Arguments Throw {A} e.

Definition M (S A : Type) : Type := S -> result A * S.

Section monad.
Context {S : Type}.

Definition ret {A} (a : A) : M S A := fun s => (Ok a, s).
Definition bind {A B} (m : M S A) (k : A -> M S B) : M S B := fun s =>
  match m s with
  | (Ok a, s') => k a s'
  | (Throw e, s') => (Throw e, s')
  end.
Definition throw {A} (e : exn) : M S A := fun s => (Throw e, s).
Definition gets {A} (f : S -> A) : M S A := fun s => (Ok (f s), s).
Definition modify (f : S -> S) : M S unit := fun s => (Ok tt, f s).
Definition when (b : bool) (m : M S unit) : M S unit := if b then m else ret tt.
Definition lift {A} (r : result A) : M S A := fun s => (r, s).

Fixpoint for_each {A} (f : A -> M S unit) (l : list A) : M S unit :=
  match l with
  | [] => ret tt
  | x :: l => bind (f x) (fun _ => for_each f l)
  end.
End monad.

Declare Scope m_scope.
Delimit Scope m_scope with M.
Notation "x '<-' m ';;;' k" := (bind m (fun x => k))
  (at level 100, m at next level, right associativity) : m_scope.
Notation "m ';;;' k" := (bind m (fun _ => k))
  (at level 100, right associativity) : m_scope.

(** Code that may throw and has no state. *)
Definition rbind {A B} (r : result A) (k : A -> result B) : result B :=
  match r with
  | Ok a => k a
  | Throw e => Throw e
  end.
Notation "x '<~' r ';;;' k" := (rbind r (fun x => k))
  (at level 100, r at next level, right associativity) : m_scope.

(** ** Reasoning about stateful code *)

Lemma bind_ok {S A B} (m : M S A) (k : A -> M S B) s a s' : m s = (Ok a, s') -> bind m k s = k a s'.
Proof. unfold bind. by intros ->. Qed.

(** [keeps R m]: every run of [m], normal or exceptional, relates the state
    before to the state after by [R]. *)
Definition keeps {S A} (R : S -> S -> Prop) (m : M S A) : Prop :=
  forall s, R s (snd (m s)).

(** [wp m Q E s]: run from [s], [m] returns with [Q] or throws with [E]. *)
Definition wp {S A} (m : M S A) (Q : A -> S -> Prop) (E : exn -> S -> Prop) (s : S) : Prop :=
  match m s with
  | (Ok a, s') => Q a s'
  | (Throw e, s') => E e s'
  end.

Section keeps.
Context {S : Type} (R : S -> S -> Prop) `{HR : !PreOrder R}.

Lemma keeps_ret {A} (a : A) : keeps R (ret a).
Proof. intros s. reflexivity. Qed.

Lemma keeps_throw {A} e : keeps R (@throw S A e).
Proof. intros s. reflexivity. Qed.

Lemma keeps_gets {A} (f : S -> A) : keeps R (gets f).
Proof. intros s. reflexivity. Qed.

Lemma keeps_lift {A} (r : result A) : keeps R (lift r).
Proof. intros s. reflexivity. Qed.

Lemma keeps_bind {A B} (m : M S A) (k : A -> M S B) :
  keeps R m -> (forall a, keeps R (k a)) -> keeps R (bind m k).
Proof.
  intros Hm Hk s. unfold bind. specialize (Hm s).
  destruct (m s) as [[a|e] s']; simpl in *; [|done].
  etrans; [exact Hm|apply Hk].
Qed.

Lemma keeps_when b m : keeps R m -> keeps R (when b m).
Proof. destruct b; [done|]. intros _. apply keeps_ret. Qed.

Lemma keeps_for_each {A} (f : A -> M S unit) l :
  (forall x, keeps R (f x)) -> keeps R (for_each f l).
Proof.
  intros Hf. induction l as [|x l IH]; simpl; [apply keeps_ret|].
  apply keeps_bind; auto.
Qed.

Lemma keeps_modify f : (forall s, R s (f s)) -> keeps R (modify f).
Proof. intros H s. apply H. Qed.
End keeps.

Section wp.
Context {S : Type}.
Implicit Types s : S.

Lemma wp_ret {A} (a : A) Q E s : Q a s -> wp (ret a) Q E s.
Proof. done. Qed.

Lemma wp_throw {A} e (Q : A -> S -> Prop) E s : E e s -> wp (throw e) Q E s.
Proof. done. Qed.

Lemma wp_gets {A} (f : S -> A) Q E s : Q (f s) s -> wp (gets f) Q E s.
Proof. done. Qed.

Lemma wp_modify f Q E s : Q tt (f s) -> wp (modify f) Q E s.
Proof. done. Qed.

Lemma wp_bind {A B} (m : M S A) (k : A -> M S B) Q E s :
  wp m (fun a s' => wp (k a) Q E s') E s -> wp (bind m k) Q E s.
Proof. unfold wp, bind. by destruct (m s) as [[a|e] s']. Qed.

Lemma wp_when b m (Q : unit -> S -> Prop) E s :
  (b = true -> wp m Q E s) -> (b = false -> Q tt s) -> wp (when b m) Q E s.
Proof. destruct b; simpl; intros; [auto|apply wp_ret; auto]. Qed.

Lemma wp_mono {A} (m : M S A) (Q Q' : A -> S -> Prop) (E E' : exn -> S -> Prop) s :
  wp m Q E s -> (forall a s', Q a s' -> Q' a s') -> (forall e s', E e s' -> E' e s') ->
  wp m Q' E' s.
Proof. unfold wp. destruct (m s) as [[a|e] s']; eauto. Qed.

Lemma wp_conj {A} (m : M S A) (Q Q' : A -> S -> Prop) (E E' : exn -> S -> Prop) s :
  wp m Q E s -> wp m Q' E' s ->
  wp m (fun a s' => Q a s' /\ Q' a s') (fun e s' => E e s' /\ E' e s') s.
Proof. unfold wp. destruct (m s) as [[a|e] s']; eauto. Qed.

Lemma wp_for_each {A} (I : S -> Prop) (f : A -> M S unit) l (E : exn -> S -> Prop) s :
  I s -> (forall x s', x ∈ l -> I s' -> wp (f x) (fun _ => I) E s') ->
  wp (for_each f l) (fun _ => I) E s.
Proof.
  revert s. induction l as [|x l IH]; intros s Hs Hf; simpl; [by apply wp_ret|].
  apply wp_bind. eapply wp_mono; [apply Hf; [left|done]| |done].
  intros ? s' Hs'. apply IH; [done|]. intros y s'' Hy. apply Hf. by right.
Qed.

Lemma wp_keeps {A} (R : S -> S -> Prop) (m : M S A) s :
  keeps R m -> wp m (fun _ => R s) (fun _ => R s) s.
Proof. intros H. specialize (H s). unfold wp. by destruct (m s) as [[a|e] s']. Qed.

Lemma wp_state {A} (m : M S A) (P : S -> Prop) s :
  wp m (fun _ => P) (fun _ => P) s <-> P (snd (m s)).
Proof. unfold wp. by destruct (m s) as [[a|e] s']. Qed.
End wp.

Create HintDb ccf.
#[export] Hint Constants Opaque : ccf.

(** Decomposes a [keeps] goal along the program text. *)
Ltac keeps_step :=
  lazymatch goal with
  | |- keeps _ (bind _ _) => refine (keeps_bind _ _ _ _ _); [| intros ?]
  | |- keeps _ (when _ _) => refine (keeps_when _ _ _ _)
  | |- keeps _ (for_each _ _) => refine (keeps_for_each _ _ _ _); intros ?
  | |- keeps _ (ret _) => refine (keeps_ret _ _)
  | |- keeps _ (throw _) => refine (keeps_throw _ _)
  | |- keeps _ (gets _) => refine (keeps_gets _ _)
  | |- keeps _ (lift _) => refine (keeps_lift _ _)
  | |- keeps _ (if ?b then _ else _) => destruct b
  | |- keeps _ (match ?o with _ => _ end) => destruct o
  end.
Ltac keeps_auto := repeat first [solve [eauto with ccf] | keeps_step].

(** An equation, or a strict inequality, between closed terms, by evaluation. *)
Ltac vm_eq :=
  match goal with
  | |- _ = ?b => vm_cast_no_check (eq_refl b)
  | |- (_ < _)%N => vm_cast_no_check (eq_refl Lt)
  end.

(** ** Lists *)

(** [while (!l.empty() && p(l.back())) l.pop_back();] *)
Definition pop_back_while {A} (p : A -> bool) : list A -> list A :=
  fix go (l : list A) : list A :=
    match l with
    | [] => []
    | x :: l' =>
        match go l' with
        | [] => if p x then [] else [x]
        | l'' => x :: l''
        end
    end.

(** [std::upper_bound] on a sorted range: the position of the first element
    greater than [x], [length l] when there is none. *)
Fixpoint upper_bound (x : N) (l : list N) : nat :=
  match l with
  | [] => 0
  | y :: l => if (x <? y)%N then 0 else S (upper_bound x l)
  end.

Abbreviation sorted := (StronglySorted N.le).

Lemma upper_bound_le_length x l : upper_bound x l <= length l.
Proof. induction l as [|y l IH]; simpl; [lia|]. case_match; lia. Qed.

Lemma upper_bound_before x l i y :
  i < upper_bound x l -> l !! i = Some y -> (y <= x)%N.
Proof.
  revert i. induction l as [|z l IH]; intros i; simpl; [lia|].
  destruct (N.ltb_spec x z); [lia|].
  destruct i as [|i]; simpl; intros Hi Hy; [by simplify_eq|].
  apply (IH i); [lia|done].
Qed.

Lemma upper_bound_at x l y : l !! upper_bound x l = Some y -> (x < y)%N.
Proof.
  induction l as [|z l IH]; simpl; [done|].
  destruct (N.ltb_spec x z); simpl; [|done]. intros. by simplify_eq.
Qed.

Lemma sorted_lookup_le l i j x y :
  sorted l -> l !! i = Some x -> l !! j = Some y -> i <= j -> (x <= y)%N.
Proof.
  intros Hs. revert i j. induction Hs as [|z l Hs IH Hall]; intros [|i] [|j]; simpl;
    intros Hi Hj Hij; simplify_eq; try lia.
  - rewrite Forall_lookup in Hall. by eapply Hall.
  - apply (IH i j); [done|done|lia].
Qed.

Lemma upper_bound_after x l i y :
  sorted l -> upper_bound x l <= i -> l !! i = Some y -> (x < y)%N.
Proof.
  intros Hs Hi Hy.
  destruct (lookup_lt_is_Some_2 l (upper_bound x l)) as [z Hz].
  { apply lookup_lt_Some in Hy. lia. }
  pose proof (upper_bound_at _ _ _ Hz).
  pose proof (sorted_lookup_le _ _ _ _ _ Hs Hz Hy Hi). lia.
Qed.

(** The characterisation used to compute positions. *)
Lemma upper_bound_unique x l n :
  n <= length l ->
  (forall i y, i < n -> l !! i = Some y -> (y <= x)%N) ->
  (forall y, l !! n = Some y -> (x < y)%N) ->
  upper_bound x l = n.
Proof.
  revert n. induction l as [|z l IH]; intros n Hn Hb Ha; simpl in *; [lia|].
  destruct (N.ltb_spec x z).
  - destruct n as [|n]; [done|]. specialize (Hb 0 z). simpl in Hb. lia || (assert (z <= x)%N by (apply Hb; [lia|done]); lia).
  - destruct n as [|n].
    + specialize (Ha z eq_refl). lia.
    + f_equal. apply IH; [lia| |].
      * intros i y Hi Hy. apply (Hb (S i)); [lia|done].
      * intros y Hy. by apply Ha.
Qed.

Lemma upper_bound_mono x y l : (x <= y)%N -> upper_bound x l <= upper_bound y l.
Proof.
  intros Hxy. induction l as [|z l IH]; simpl; [lia|].
  destruct (N.ltb_spec x z), (N.ltb_spec y z); lia.
Qed.

Lemma upper_bound_app_small x l l' :
  Forall (fun y => x < y)%N l' -> upper_bound x (l ++ l') = upper_bound x l.
Proof.
  intros Hl'. induction l as [|z l IH]; simpl.
  - destruct Hl' as [|y l' Hy _]; simpl; [done|].
    by destruct (N.ltb_spec x y); [|lia].
  - by rewrite IH.
Qed.

Lemma upper_bound_app_all x l l' :
  Forall (fun y => y <= x)%N l -> upper_bound x (l ++ l') = length l + upper_bound x l'.
Proof.
  induction 1 as [|z l Hz Hl IH]; simpl; [done|].
  destruct (N.ltb_spec x z); [lia|]. by rewrite IH.
Qed.

Lemma upper_bound_take x l i : i <= length l ->
  (forall y, l !! i = Some y -> (x < y)%N) -> sorted l ->
  upper_bound x (take i l) = upper_bound x l.
Proof.
  intros Hi Hx Hs. rewrite <- (take_drop i l) at 2. symmetry.
  apply upper_bound_app_small. apply Forall_lookup. intros j y Hy.
  rewrite lookup_drop in Hy.
  destruct (lookup_lt_is_Some_2 l i) as [z Hz]; [apply lookup_lt_Some in Hy; lia|].
  pose proof (sorted_lookup_le _ i (i + j) _ _ Hs Hz Hy). specialize (Hx _ Hz). lia.
Qed.

Lemma sorted_snoc l x : sorted l -> Forall (fun y => y <= x)%N l -> sorted (l ++ [x]).
Proof.
  induction 1 as [|y l Hs IH Hall]; simpl; intros Hx; [by repeat constructor|].
  inversion Hx; subst. constructor; [by apply IH|].
  apply Forall_app. split; [done|]. by constructor.
Qed.

Lemma sorted_take l n : sorted l -> sorted (take n l).
Proof.
  intros Hs. revert n. induction Hs as [|y l Hs IH Hall]; intros [|n]; simpl; constructor; auto.
  by apply Forall_take.
Qed.

Lemma last_Forall_le l x : sorted l -> last l = Some x -> Forall (fun y => y <= x)%N l.
Proof.
  intros Hs Hlast. rewrite last_lookup in Hlast. apply Forall_lookup. intros i y Hy.
  eapply sorted_lookup_le; [done|exact Hy|exact Hlast|].
  apply lookup_lt_Some in Hy. lia.
Qed.

Lemma filter_none {A} (P : A -> Prop) `{!forall x, Decision (P x)} l :
  Forall (fun x => ~ P x) l -> filter P l = [].
Proof. induction 1 as [|x l Hx Hl IH]; [done|]. by rewrite filter_cons, decide_False. Qed.

Lemma filter_all {A} (P : A -> Prop) `{!forall x, Decision (P x)} l : Forall P l -> filter P l = l.
Proof. induction 1 as [|x l Hx Hl IH]; [done|]. rewrite filter_cons, decide_True by done. by rewrite IH. Qed.

Lemma filter_fmap {A B} (f : A -> B) (P : B -> Prop) `{!forall x, Decision (P x)} (l : list A) :
  filter P (f <$> l) = f <$> filter (fun x => P (f x)) l.
Proof.
  induction l as [|x l IH]; [done|]. rewrite fmap_cons, !filter_cons.
  case_decide; [|done]. by rewrite fmap_cons, IH.
Qed.

Lemma filter_Permutation {A} (P : A -> Prop) `{!forall x, Decision (P x)} l l' :
  l ≡ₚ l' -> filter P l ≡ₚ filter P l'.
Proof. by intros ->. Qed.

Lemma pop_back_while_snoc {A} (p : A -> bool) l x :
  pop_back_while p (l ++ [x]) = if p x then pop_back_while p l else (l ++ [x])%list.
Proof.
  induction l as [|y l IH]; simpl; [by destruct (p x)|].
  rewrite IH. destruct (p x); [done|]. by destruct l.
Qed.

Lemma pop_back_while_app {A} (p : A -> bool) l l' :
  Forall (fun x => p x = true) l' -> pop_back_while p (l ++ l') = pop_back_while p l.
Proof.
  induction l' as [|x l' IH] using rev_ind; intros Hl'; [by rewrite app_nil_r|].
  apply Forall_app in Hl' as [Hl' Hx]. inversion Hx as [|?? Hpx _]; subst.
  rewrite app_assoc, pop_back_while_snoc, Hpx. by apply IH.
Qed.

Lemma pop_back_while_prefix {A} (p : A -> bool) l : exists l', l = (pop_back_while p l ++ l')%list.
Proof.
  induction l as [|x l IH] using rev_ind; [by exists []|].
  rewrite pop_back_while_snoc. destruct (p x); [|exists []; by rewrite app_nil_r].
  destruct IH as [l' IH]. exists (l' ++ [x])%list. by rewrite app_assoc, <- IH.
Qed.

Lemma pop_back_while_keep {A} (p : A -> bool) l :
  Forall (fun x => p x = false) l -> pop_back_while p l = l.
Proof.
  intros H. destruct l as [|x l _] using rev_ind; [done|].
  apply Forall_app in H as [_ H]. inversion H as [|?? Hx _]; subst.
  by rewrite pop_back_while_snoc, Hx.
Qed.

(** Strictly increasing sequences. *)
Abbreviation ssorted := (StronglySorted N.lt) (only parsing).

Lemma pop_back_while_filter {A} (f : A -> N) idx l :
  ssorted (f <$> l) -> pop_back_while (fun x => idx <? f x)%N l = filter (fun x => f x <= idx)%N l.
Proof.
  induction l as [|x l IH]; simpl; [done|]. intros Hs. inversion Hs as [|?? Hs' Hall]; subst.
  rewrite IH by done. rewrite filter_cons. destruct (decide (f x <= idx)%N).
  - destruct (filter (fun x0 => f x0 <= idx)%N l); [|done].
    by destruct (N.ltb_spec idx (f x)); [lia|].
  - rewrite filter_none; [by destruct (N.ltb_spec idx (f x)); [|lia]|].
    apply (Forall_fmap f) in Hall. eapply Forall_impl; [exact Hall|]. simpl. lia.
Qed.

Lemma ssorted_filter (P : N -> Prop) `{!forall x, Decision (P x)} l : ssorted l -> ssorted (filter P l).
Proof.
  induction 1 as [|x l Hs IH Hall]; [constructor|]. rewrite filter_cons. case_decide; [|done].
  constructor; [done|]. apply Forall_forall. intros y [_ Hy]%list_elem_of_filter.
  rewrite Forall_forall in Hall. by apply Hall.
Qed.

Lemma ssorted_snoc l x : ssorted l -> Forall (fun y => y < x)%N l -> ssorted (l ++ [x]).
Proof.
  induction 1 as [|y l Hs IH Hall]; simpl; intros Hx; [by repeat constructor|].
  inversion Hx; subst. constructor; [by apply IH|]. apply Forall_app. split; [done|].
  by constructor.
Qed.

Lemma ssorted_app l l' :
  ssorted (l ++ l') <-> ssorted l /\ ssorted l' /\ forall x y, x ∈ l -> y ∈ l' -> (x < y)%N.
Proof.
  split.
  - induction l as [|x l IH]; simpl; intros Hs.
    + split_and!; [constructor|done|]. intros x y Hx. by apply elem_of_nil in Hx.
    + inversion Hs as [|?? Hs' Hall]; subst. apply IH in Hs' as (H1 & H2 & H3).
      apply Forall_app in Hall as [Ha Hb]. rewrite Forall_forall in Hb.
      split_and!; [by constructor|done|]. intros a b [->|Ha']%elem_of_cons Hb'; auto.
  - intros (H1 & H2 & H3). induction H1 as [|x l Hs IH Hall]; simpl; [done|].
    constructor; [apply IH; intros; apply H3; [by right|done]|].
    apply Forall_app. split; [done|]. apply Forall_forall. intros y Hy. apply H3; [left|done].
Qed.

(** The last element, from a reversed search. *)
Lemma find_reverse {A} (p : A -> bool) l :
  List.find p (reverse l) = last (filter (fun x => p x = true) l).
Proof.
  induction l as [|x l IH] using rev_ind; [done|].
  rewrite reverse_app, filter_app. simpl. rewrite filter_cons, filter_nil.
  destruct (p x) eqn:Hp.
  - rewrite decide_True by done. by rewrite last_snoc.
  - rewrite decide_False by congruence. by rewrite app_nil_r.
Qed.

Lemma last_cons_default {A} (x : A) l d : List.last (x :: l) d = List.last l x.
Proof.
  revert x d. induction l as [|y l IH]; intros x d; [done|].
  change (List.last (y :: l) d = List.last (y :: l) x). by rewrite !IH.
Qed.

(** [operator<=] of [std::string]. *)
Definition string_le (a b : string) : Prop := String.leb a b = true.
#[export] Instance string_le_dec : RelDecision string_le.
Proof. unfold string_le. solve_decision. Defined.

(** The entries of a [std::map] with string keys, in its order. *)
Definition name_le {A} (p q : string * A) : Prop := string_le p.1 q.1.
#[export] Instance name_le_dec {A} : RelDecision (@name_le A).
Proof. unfold name_le. intros p q. apply string_le_dec. Defined.
Definition by_name {A} (m : gmap string A) : list (string * A) := merge_sort name_le (map_to_list m).

Lemma by_name_permutation {A} (m : gmap string A) : by_name m ≡ₚ map_to_list m.
Proof. apply merge_sort_Permutation. Qed.

Lemma elem_of_by_name {A} (m : gmap string A) k x : (k, x) ∈ by_name m <-> m !! k = Some x.
Proof. by rewrite by_name_permutation, elem_of_map_to_list. Qed.

(** ** Bytes and byte strings *)

Abbreviation bytes := (list Byte.byte) (only parsing).

#[export] Instance byte_eq_dec : EqDecision Byte.byte.
Proof. intros a b. apply Byte.byte_eq_dec. Defined.

#[export] Instance byte_countable : Countable Byte.byte :=
  inj_countable Byte.to_N Byte.of_N Byte.of_to_N.

(** The lexicographic order of [std::vector<uint8_t>] and [std::string]. *)
Fixpoint bytes_leb (a b : bytes) : bool :=
  match a, b with
  | [], _ => true
  | _ :: _, [] => false
  | x :: a, y :: b =>
      if (Byte.to_N x <? Byte.to_N y)%N then true
      else if (Byte.to_N y <? Byte.to_N x)%N then false else bytes_leb a b
  end.
Definition bytes_le (a b : bytes) : Prop := bytes_leb a b = true.
#[export] Instance bytes_le_dec : RelDecision bytes_le.
Proof. unfold bytes_le. solve_decision. Defined.

Lemma bytes_leb_refl a : bytes_leb a a = true.
Proof. induction a as [|x a IH]; simpl; [done|]. by rewrite !N.ltb_irrefl. Qed.

Lemma bytes_leb_total a b : bytes_leb a b = true \/ bytes_leb b a = true.
Proof.
  revert b. induction a as [|x a IH]; intros [|y b]; simpl; auto.
  destruct (N.ltb_spec (Byte.to_N x) (Byte.to_N y)); [by left|].
  destruct (N.ltb_spec (Byte.to_N y) (Byte.to_N x)); [by right|]. apply IH.
Qed.

Lemma to_N_inj x y : Byte.to_N x = Byte.to_N y -> x = y.
Proof. intros H. apply (f_equal Byte.of_N) in H. rewrite !Byte.of_to_N in H. by simplify_eq. Qed.

Lemma bytes_leb_antisym a b : bytes_leb a b = true -> bytes_leb b a = true -> a = b.
Proof.
  revert b. induction a as [|x a IH]; intros [|y b]; simpl; try done.
  destruct (N.ltb_spec (Byte.to_N x) (Byte.to_N y)), (N.ltb_spec (Byte.to_N y) (Byte.to_N x));
    try (done || lia).
  intros H1 H2. f_equal; [apply to_N_inj; lia|by apply IH].
Qed.

Lemma bytes_leb_trans a b c : bytes_leb a b = true -> bytes_leb b c = true -> bytes_leb a c = true.
Proof.
  revert b c. induction a as [|x a IH]; intros [|y b] [|z c]; simpl; try done.
  destruct (N.ltb_spec (Byte.to_N x) (Byte.to_N y)), (N.ltb_spec (Byte.to_N y) (Byte.to_N x)),
    (N.ltb_spec (Byte.to_N y) (Byte.to_N z)), (N.ltb_spec (Byte.to_N z) (Byte.to_N y)),
    (N.ltb_spec (Byte.to_N x) (Byte.to_N z)), (N.ltb_spec (Byte.to_N z) (Byte.to_N x));
    try (done || lia).
  apply IH.
Qed.
