(* ===== verification/ViewHistory.v ===== *)
(** * View history

    [aft::ViewHistory] (src/consensus/aft/impl/state.h): entry [i] of the
    vector holds the first version of view [i + 1]. The constants of
    include/ccf/tx_id.h and include/ccf/kv/version.h it uses come first. *)

From S2P Require Import Prelude.

Open Scope N_scope.

Abbreviation View := N (only parsing).
Abbreviation SeqNo := N (only parsing).
Abbreviation Version := N (only parsing).

Definition VIEW_UNKNOWN : View := 0.
Definition SEQNO_UNKNOWN : SeqNo := 0.
Definition NoVersion : Version := 0.

Module ViewHistory.

Definition InvalidView : View := VIEW_UNKNOWN.

(** Throws when [idx] is below the start of the latest view, otherwise pushes
    [idx] until there are [view] entries. *)
Definition update (idx : Version) (view : View) (views : list Version) : result (list Version) :=
  let pushed := (views ++ replicate (N.to_nat view - length views) idx)%list in
  match last views with
  | Some current_latest_index =>
      if idx <? current_latest_index
      then Throw (LogicError "version must not move backwards")
      else Ok pushed
  | None => Ok pushed
  end.

(** [update] as a member function: a throw leaves the vector as it was. *)
Definition update_m (idx : Version) (view : View) : M (list Version) unit := fun views =>
  match update idx view views with
  | Ok views' => (Ok tt, views')
  | Throw e => (Throw e, views)
  end.

Definition initialise (terms_ : list Version) : M (list Version) unit :=
  (modify (fun _ => []) ;;;
   for_each (fun '(i, t) => update_m t (N.of_nat i + 1)) (imap pair terms_))%M.

Definition view_at (idx : Version) (views : list Version) : View :=
  let it := upper_bound idx views in
  if (it =? 0)%nat then InvalidView else N.of_nat it.

Definition start_of_view (view : View) (views : list Version) : Version :=
  if (N.of_nat (length views) <? view) || (view =? InvalidView) then NoVersion
  else
    let tentative := views !!! N.to_nat (view - 1) in
    if (view + 1 <=? N.of_nat (length views)) && (views !!! N.to_nat view =? tentative)
    then NoVersion
    else tentative.

Definition end_of_view (view : View) (views : list Version) : Version :=
  if start_of_view view views =? NoVersion then NoVersion
  else if (N.of_nat (length views) <=? view) || (view =? InvalidView) then NoVersion
  else u64_sub (views !!! N.to_nat view) 1.

Definition get_history_until (idx : Version) (views : list Version) : list Version :=
  take (upper_bound idx views) views.

(** The source requires [view] to be non-zero. *)
Definition get_history_since (view : View) (views : list Version) : list Version :=
  if N.of_nat (length views) <? view then [] else drop (N.to_nat (view - 1)) views.

Definition rollback (idx : Version) (views : list Version) : list Version :=
  take (upper_bound idx views) views.

(** ** Reading the history *)

Lemma view_at_upper_bound idx views : view_at idx views = N.of_nat (upper_bound idx views).
Proof. unfold view_at. by destruct (upper_bound idx views). Qed.

Lemma view_at_le_length idx views : view_at idx views <= N.of_nat (length views).
Proof. rewrite view_at_upper_bound. pose proof (upper_bound_le_length idx views). lia. Qed.

Lemma view_at_mono i j views : i <= j -> view_at i views <= view_at j views.
Proof. intros H. rewrite !view_at_upper_bound. pose proof (upper_bound_mono i j views H). lia. Qed.

Lemma view_at_last idx views x :
  sorted views -> last views = Some x -> x <= idx -> view_at idx views = N.of_nat (length views).
Proof.
  intros Hs Hl Hx. rewrite view_at_upper_bound. f_equal.
  apply upper_bound_unique; [lia| |].
  - intros i y _ Hy. pose proof (last_Forall_le _ _ Hs Hl) as Hall.
    rewrite Forall_lookup in Hall. specialize (Hall _ _ Hy). lia.
  - intros y Hy. apply lookup_lt_Some in Hy. lia.
Qed.

Lemma view_at_nil idx : view_at idx [] = 0.
Proof. done. Qed.

(** ** Updates *)

Lemma update_ok idx view views :
  (forall x, last views = Some x -> x <= idx) ->
  update idx view views = Ok (views ++ replicate (N.to_nat view - length views) idx)%list.
Proof.
  intros H. unfold update. destruct (last views) as [x|]; [|done].
  specialize (H x eq_refl). by destruct (N.ltb_spec idx x); [lia|].
Qed.

Lemma update_inv idx view views views' :
  update idx view views = Ok views' ->
  (forall x, last views = Some x -> x <= idx) /\
  views' = (views ++ replicate (N.to_nat view - length views) idx)%list.
Proof.
  unfold update. destruct (last views) as [x|].
  - destruct (N.ltb_spec idx x); [done|]. intros. simplify_eq. split; [|done]. intros. by simplify_eq.
  - intros. simplify_eq. by split.
Qed.

Lemma sorted_replicate n x : sorted (replicate n x).
Proof.
  induction n; simpl; constructor; [done|]. apply Forall_replicate. lia.
Qed.

Lemma sorted_app l l' :
  sorted l -> sorted l' -> (forall x y, x ∈ l -> y ∈ l' -> x <= y) -> sorted (l ++ l').
Proof.
  induction 1 as [|z l Hs IH Hall]; simpl; intros Hl' H; [done|].
  constructor; [apply IH; [done|]; intros x y ? ?; apply H; [by right|done]|].
  apply Forall_app. split; [done|]. apply Forall_forall. intros y Hy. apply H; [by left|done].
Qed.

Lemma update_sorted idx view views views' :
  sorted views -> update idx view views = Ok views' -> sorted views'.
Proof.
  intros Hs [Hidx ->]%update_inv. apply sorted_app; [done|apply sorted_replicate|].
  intros x y Hx [-> _]%elem_of_replicate.
  destruct (last views) as [z|] eqn:Hl.
  - pose proof (last_Forall_le _ _ Hs Hl) as Hall. rewrite Forall_forall in Hall.
    specialize (Hall _ Hx). specialize (Hidx _ eq_refl). lia.
  - apply last_None in Hl. subst. by apply elem_of_nil in Hx.
Qed.

Lemma rollback_sorted idx views : sorted views -> sorted (rollback idx views).
Proof. apply sorted_take. Qed.

Lemma upper_bound_replicate idx n x :
  upper_bound idx (replicate n x) = if idx <? x then 0%nat else n.
Proof.
  induction n; simpl; [by case_match|]. rewrite IHn. by destruct (N.ltb_spec idx x).
Qed.

(** How an update changes the view of every version: those below [idx] keep
    theirs, those from [idx] on move to [view] unless already later. *)
Lemma view_at_update idx view views views' j :
  sorted views -> update idx view views = Ok views' ->
  view_at j views' = if j <? idx then view_at j views else N.max (view_at j views) view.
Proof.
  intros Hs Hu. pose proof Hu as [Hidx ->]%update_inv.
  rewrite !view_at_upper_bound. destruct (N.ltb_spec j idx).
  - f_equal. apply upper_bound_app_small. by apply Forall_replicate.
  - assert (Forall (fun y => y <= j) views) as Hall.
    { destruct (last views) as [z|] eqn:Hl.
      - eapply Forall_impl; [by apply last_Forall_le|]. intros y Hy.
        simpl in Hy. specialize (Hidx _ eq_refl). lia.
      - apply last_None in Hl. by subst. }
    rewrite upper_bound_app_all by done. rewrite upper_bound_replicate.
    destruct (N.ltb_spec j idx); [lia|].
    pose proof (upper_bound_app_all j views [] Hall) as Hub.
    rewrite app_nil_r in Hub. simpl in Hub. lia.
Qed.

(** After a rollback to [idx] versions above it are in the view of [idx]. *)
Lemma view_at_rollback idx views j :
  sorted views -> view_at j (rollback idx views) = view_at (N.min j idx) views.
Proof.
  intros Hs. rewrite !view_at_upper_bound. f_equal. unfold rollback.
  destruct (N.le_gt_cases j idx).
  - rewrite N.min_l by done. apply upper_bound_take; [apply upper_bound_le_length| |done].
    intros y Hy%upper_bound_at. lia.
  - rewrite N.min_r by lia. apply upper_bound_unique.
    + rewrite length_take. pose proof (upper_bound_le_length idx views). lia.
    + intros i y Hi Hy. rewrite lookup_take_lt in Hy by done.
      pose proof (upper_bound_before _ _ _ _ Hi Hy). lia.
    + intros y Hy. rewrite lookup_take_ge in Hy by lia. done.
Qed.

(** ** Intervals of versions *)

Lemma view_at_iff views idx v :
  sorted views -> v <> 0 ->
  view_at idx views = v <->
  exists x, views !! N.to_nat (v - 1) = Some x /\ x <= idx /\
            (forall y, views !! N.to_nat v = Some y -> idx < y).
Proof.
  intros Hs Hv. rewrite view_at_upper_bound. split.
  - intros <-. destruct (lookup_lt_is_Some_2 views (upper_bound idx views - 1)) as [x Hx].
    { pose proof (upper_bound_le_length idx views). lia. }
    exists x. replace (N.to_nat (N.of_nat (upper_bound idx views) - 1))
      with (upper_bound idx views - 1)%nat by lia.
    rewrite Nat2N.id. split_and!; [done| |].
    + apply (upper_bound_before idx views (upper_bound idx views - 1)); [lia|done].
    + intros y. apply upper_bound_at.
  - intros (x & Hx & Hle & Hy). rewrite <- (N2Nat.id v). f_equal.
    apply upper_bound_unique.
    + apply lookup_lt_Some in Hx. lia.
    + intros i y Hi Hyi. pose proof (sorted_lookup_le _ _ _ _ _ Hs Hyi Hx). lia.
    + done.
Qed.

Lemma start_of_view_iff v views s :
  v <> 0 -> s <> NoVersion ->
  start_of_view v views = s <->
  views !! N.to_nat (v - 1) = Some s /\ views !! N.to_nat v <> Some s.
Proof.
  intros Hv Hs. unfold start_of_view.
  destruct (N.ltb_spec (N.of_nat (length views)) v); simpl.
  { split; [intros <-; done|]. intros [Hl%lookup_lt_Some _]. lia. }
  replace (v =? InvalidView) with false by (symmetry; by apply N.eqb_neq).
  destruct (lookup_lt_is_Some_2 views (N.to_nat (v - 1))) as [x Hx]; [lia|].
  rewrite (list_lookup_total_correct _ _ _ Hx), Hx.
  destruct (N.leb_spec (v + 1) (N.of_nat (length views))) as [Hlen|Hlen]; simpl.
  - destruct (lookup_lt_is_Some_2 views (N.to_nat v)) as [y Hy]; [lia|].
    rewrite (list_lookup_total_correct _ _ _ Hy), Hy.
    destruct (N.eqb_spec y x) as [->|Hne].
    + split; [intros <-; done|]. intros [[= ->] Hn]. done.
    + split; [intros ->; split; [done|congruence]|]. by intros [[= ->] _].
  - rewrite (lookup_ge_None_2 views (N.to_nat v)) by lia.
    split; [by intros ->|]. by intros [[= ->] _].
Qed.

Lemma end_of_view_next v views x y :
  v <> 0 -> views !! N.to_nat (v - 1) = Some x -> views !! N.to_nat v = Some y ->
  1 <= x -> x < y -> end_of_view v views = y - 1.
Proof.
  intros Hv Hx Hy H1 Hxy. unfold end_of_view.
  assert (start_of_view v views = x) as ->.
  { apply start_of_view_iff; [done|unfold NoVersion; lia|]. split; [done|]. rewrite Hy. intros [= ->]. lia. }
  destruct (N.eqb_spec x NoVersion); [unfold NoVersion in *; lia|].
  destruct (N.leb_spec (N.of_nat (length views)) v) as [Hl|Hl].
  { apply lookup_lt_Some in Hy. lia. }
  simpl. replace (v =? InvalidView) with false by (symmetry; by apply N.eqb_neq).
  rewrite (list_lookup_total_correct _ _ _ Hy). apply u64_sub_exact; lia.
Qed.

Lemma end_of_view_latest v views : views !! N.to_nat v = None -> end_of_view v views = NoVersion.
Proof.
  intros Hn%lookup_ge_None. unfold end_of_view. case_match; [done|].
  destruct (N.leb_spec (N.of_nat (length views)) v); [done|lia].
Qed.

(** The versions of a view are exactly the interval between
    [start_of_view] and [end_of_view] (unbounded for the latest view); a view
    without a start holds no version. *)
Lemma view_interval (views : list Version) (v : View) (idx : Version)
  (Hs : sorted views) (Hpos : Forall (fun x => 1 <= x) views) (Hv : v <> InvalidView) :
  view_at idx views = v <->
  start_of_view v views <> NoVersion /\ start_of_view v views <= idx /\
  (end_of_view v views = NoVersion \/ idx <= end_of_view v views).
Proof.
  rewrite Forall_lookup in Hpos. rewrite view_at_iff by done. split.
  - intros (x & Hx & Hle & Hnext). pose proof (Hpos _ _ Hx).
    assert (start_of_view v views = x) as ->.
    { apply start_of_view_iff; [done|unfold NoVersion; lia|]. split; [done|].
      intros Hy%Hnext. lia. }
    split_and!; [unfold NoVersion; lia|done|].
    destruct (views !! N.to_nat v) as [y|] eqn:Hy; [right|left; by apply end_of_view_latest].
    specialize (Hnext _ eq_refl). pose proof (Hpos _ _ Hy).
    rewrite (end_of_view_next _ _ _ _ Hv Hx Hy); lia.
  - intros (Hns & Hle & Hend).
    pose proof (proj1 (start_of_view_iff _ _ _ Hv Hns) eq_refl) as [Hx Hne].
    exists (start_of_view v views). split_and!; [done|done|]. intros y Hy.
    pose proof (Hpos _ _ Hx). pose proof (Hpos _ _ Hy).
    pose proof (sorted_lookup_le _ _ _ _ _ Hs Hx Hy).
    assert (start_of_view v views <> y) by congruence.
    rewrite (end_of_view_next _ _ _ _ Hv Hx Hy) in Hend by lia. unfold NoVersion in Hend. lia.
Qed.

(** ** Restoring a history *)

Lemma update_m_next x views :
  sorted (views ++ [x]) -> update_m x (N.of_nat (length views) + 1) views = (Ok tt, (views ++ [x])%list).
Proof.
  intros Hs. unfold update_m. rewrite update_ok.
  - by replace (N.to_nat (N.of_nat (length views) + 1) - length views)%nat with 1%nat by lia.
  - intros z Hz. rewrite last_lookup in Hz.
    eapply sorted_lookup_le; [exact Hs| | |].
    + rewrite lookup_app_l; [exact Hz|]. apply lookup_lt_Some in Hz. done.
    + by apply list_lookup_middle.
    + lia.
Qed.

Lemma initialise_loop pre l :
  sorted (pre ++ l) ->
  for_each (fun '(i, t) => update_m t (N.of_nat i + 1)) (imap (fun i => pair (length pre + i)%nat) l) pre
  = (Ok tt, (pre ++ l)%list).
Proof.
  revert pre. induction l as [|x l IH]; intros pre Hs; simpl; [by rewrite app_nil_r|].
  unfold bind. rewrite Nat.add_0_r, update_m_next.
  2: { replace (pre ++ x :: l)%list with ((pre ++ [x]) ++ l)%list in Hs by (by rewrite <- app_assoc).
       rewrite <- (take_app_length (pre ++ [x]) l). by apply sorted_take. }
  replace (pre ++ x :: l)%list with ((pre ++ [x]) ++ l)%list by (by rewrite <- app_assoc).
  rewrite <- IH by (by rewrite <- app_assoc).
  f_equal. apply imap_ext. intros i y _. simpl. rewrite length_app. simpl. f_equal. lia.
Qed.

Lemma initialise_sorted_ok l views : sorted l -> initialise l views = (Ok tt, l).
Proof. intros Hs. apply (initialise_loop [] l Hs). Qed.

(** A node restarted from the history another node reports up to [idx]
    reads the same view as that node for every version up to [idx]. *)
Theorem initialise_history_until (views old : list Version) (idx j : Version)
  (Hs : sorted views) (Hj : j <= idx) :
  exists views', initialise (get_history_until idx views) old = (Ok tt, views') /\
    sorted views' /\ view_at j views' = view_at j views.
Proof.
  exists (rollback idx views). split_and!.
  - apply initialise_sorted_ok. by apply sorted_take.
  - by apply rollback_sorted.
  - rewrite view_at_rollback by done. by rewrite N.min_l.
Qed.

Lemma initialise_history_until_witness :
  exists views', initialise (get_history_until 12 [1; 10; 15; 15]) [3] = (Ok tt, views') /\
    sorted views' /\ view_at 11 views' = view_at 11 [1; 10; 15; 15].
Proof. apply initialise_history_until; [repeat constructor; lia|lia]. Defined.

End ViewHistory.
