(* ===== verification/TxStatus.v ===== *)
(** * Transaction identifiers and statuses

    [ccf::TxID] with its string form (include/ccf/tx_id.h) and
    [ccf::evaluate_tx_status] (include/ccf/tx_status.h). *)

From S2P Require Import Prelude ViewHistory.
From Stdlib Require Import Ascii String.

Open Scope N_scope.

(** ** Decimal conversions of the C++ standard library *)

Definition digit (d : N) : ascii := ascii_of_N (48 + d).
Definition digit_value (c : ascii) : option N :=
  let n := N_of_ascii c in if (48 <=? n) && (n <=? 57) then Some (n - 48) else None.

(** [std::to_string] of a [uint64_t]: 20 digits are enough below [2 ^ 64]. *)
Fixpoint to_string_aux (fuel : nat) (n : N) (acc : string) : string :=
  match fuel with
  | O => acc
  | S fuel =>
      let acc := String (digit (n mod 10)) acc in
      if n <? 10 then acc else to_string_aux fuel (n / 10) acc
  end.
Definition to_string (n : N) : string := to_string_aux 20 n EmptyString.

Inductive errc := errc_ok | invalid_argument | result_out_of_range.

(** [std::from_chars] for [uint64_t]: consumes the longest prefix of digits;
    [value] is [None] when the number did not fit. *)
Fixpoint from_chars_aux (s : string) (value : option N) : string * option N :=
  match s with
  | EmptyString => (s, value)
  | String c s' =>
      match digit_value c with
      | None => (s, value)
      | Some d =>
          from_chars_aux s'
            (v ← value; let v' := v * 10 + d in if v' <? 2 ^ 64 then Some v' else None)
      end
  end.

Definition from_chars (s : string) : string * errc * N :=
  match s with
  | String c _ =>
      match digit_value c with
      | None => (s, invalid_argument, 0)
      | Some _ =>
          match from_chars_aux s (Some 0) with
          | (p, Some v) => (p, errc_ok, v)
          | (p, None) => (p, result_out_of_range, 0)
          end
      end
  | EmptyString => (s, invalid_argument, 0)
  end.

(** [sv.find('.')], with the two [substr] calls around the separator. *)
Fixpoint split_at_dot (s : string) : option (string * string) :=
  match s with
  | EmptyString => None
  | String c s' =>
      if Ascii.eqb c "."%char then Some (EmptyString, s')
      else '(a, b) ← split_at_dot s'; Some (String c a, b)
  end.

Module TxID.

Record t := mk { view : View; seqno : SeqNo }.

#[export] Instance t_eq_dec : EqDecision t.
Proof. solve_decision. Defined.

Definition to_str (tx_id : t) : string :=
  String.append (to_string (view tx_id)) (String.append "." (to_string (seqno tx_id))).

(** One of the two fields: the whole substring is a number other than [unknown]. *)
Definition parse_field (sv : string) (unknown : N) : option N :=
  match from_chars sv with
  | (EmptyString, errc_ok, v) => if v =? unknown then None else Some v
  | _ => None
  end.

Definition from_str (sv : string) : option t :=
  '(view_sv, seqno_sv) ← split_at_dot sv;
  v ← parse_field view_sv VIEW_UNKNOWN;
  n ← parse_field seqno_sv SEQNO_UNKNOWN;
  Some (mk v n).

Lemma digit_value_digit d : d < 10 -> digit_value (digit d) = Some d.
Proof.
  intros H. unfold digit_value, digit. rewrite N_ascii_embedding by lia.
  replace (48 <=? 48 + d) with true by (symmetry; apply N.leb_le; lia).
  replace (48 + d <=? 57) with true by (symmetry; apply N.leb_le; lia).
  simpl. f_equal. lia.
Qed.

Lemma from_chars_aux_to_string f n rest :
  n < 10 ^ N.of_nat f -> n < 2 ^ 64 ->
  from_chars_aux (to_string_aux f n rest) (Some 0) = from_chars_aux rest (Some n).
Proof.
  revert n rest. induction f as [|f IH]; intros n rest Hf H64.
  { simpl in *. by assert (n = 0) as -> by lia. }
  assert (n mod 10 < 10) by (by apply N.mod_lt).
  pose proof (N.div_mod' n 10) as Hdm.
  cbn [to_string_aux]. destruct (N.ltb_spec n 10).
  - cbn [from_chars_aux]. rewrite digit_value_digit by done. rewrite N.mod_small by done.
    cbn [mbind option_bind]. replace (0 * 10 + n) with n by lia.
    by destruct (N.ltb_spec n (2 ^ 64)); [|lia].
  - rewrite Nat2N.inj_succ, N.pow_succ_r' in Hf.
    rewrite IH; [|by apply N.Div0.div_lt_upper_bound|].
    2: { eapply N.le_lt_trans; [|exact H64]. apply N.Div0.div_le_upper_bound. clear. lia. }
    cbn [from_chars_aux]. rewrite digit_value_digit by done. cbn [mbind option_bind].
    replace (n / 10 * 10 + n mod 10) with n by (rewrite Hdm at 1; ring).
    by destruct (N.ltb_spec n (2 ^ 64)); [|lia].
Qed.

Lemma to_string_aux_head f n rest :
  exists d s, to_string_aux (S f) n rest = String (digit d) s /\ d < 10.
Proof.
  revert n rest. induction f as [|f IH]; intros n rest; cbn [to_string_aux].
  - case_match; eexists _, _; split; try done; by apply N.mod_lt.
  - destruct (n <? 10); [eexists _, _; split; [done|]; by apply N.mod_lt|].
    destruct (IH (n / 10) (String (digit (n mod 10)) rest)) as (d & s & Hs & ?).
    cbn [to_string_aux] in Hs. by exists d, s.
Qed.

Lemma from_chars_to_string n : n < 2 ^ 64 -> from_chars (to_string n) = (EmptyString, errc_ok, n).
Proof.
  intros H64. pose proof (from_chars_aux_to_string 20 n EmptyString) as Haux.
  unfold to_string. destruct (to_string_aux_head 19 n EmptyString) as (d & s & Hs & Hd).
  rewrite Hs in *. unfold from_chars. rewrite digit_value_digit by done.
  rewrite Haux; [done| |exact H64].
  eapply N.lt_trans; [exact H64|]. vm_compute. reflexivity.
Qed.

Fixpoint no_dot (s : string) : bool :=
  match s with
  | EmptyString => true
  | String c s => negb (Ascii.eqb c "."%char) && no_dot s
  end.

Lemma split_at_dot_app a b :
  no_dot a = true -> split_at_dot (String.append a (String "."%char b)) = Some (a, b).
Proof.
  induction a as [|c a IH]; simpl; [done|]. intros [Hc Ha]%andb_true_iff.
  apply negb_true_iff in Hc. by rewrite Hc, IH.
Qed.

Lemma digit_not_dot d : d < 10 -> Ascii.eqb (digit d) "."%char = false.
Proof.
  intros Hd. apply Ascii.eqb_neq. intros Heq.
  pose proof (digit_value_digit d Hd) as Hv. rewrite Heq in Hv. by vm_compute in Hv.
Qed.

Lemma to_string_no_dot f n rest : no_dot rest = true -> no_dot (to_string_aux f n rest) = true.
Proof.
  revert n rest. induction f as [|f IH]; intros n rest Hr; cbn [to_string_aux]; [done|].
  assert (no_dot (String (digit (n mod 10)) rest) = true) as Hd.
  { cbn [no_dot]. rewrite digit_not_dot by (by apply N.mod_lt). by rewrite Hr. }
  destruct (n <? 10); [done|]. by apply IH.
Qed.

(** Printing a transaction ID and parsing it gives it back, for every ID
    with both fields known. *)
Theorem from_str_to_str (tx_id : t)
  (Hv : view tx_id <> VIEW_UNKNOWN) (Hn : seqno tx_id <> SEQNO_UNKNOWN)
  (Hv64 : view tx_id < 2 ^ 64) (Hn64 : seqno tx_id < 2 ^ 64) :
  from_str (to_str tx_id) = Some tx_id.
Proof.
  unfold from_str, to_str.
  change (String.append "." ?x) with (String "."%char x).
  rewrite split_at_dot_app by (by apply to_string_no_dot). cbn [mbind option_bind].
  unfold parse_field. rewrite !from_chars_to_string by done.
  apply N.eqb_neq in Hv, Hn. rewrite Hv, Hn. by destruct tx_id.
Qed.

Example from_str_to_str_witness :
  from_str (to_str (mk 2 1357)) = Some (mk 2 1357).
Proof. apply (from_str_to_str (mk 2 1357)); done. Defined.

(** The number a string of decimal digits denotes, of any size. *)
Fixpoint decimal_from (s : string) (acc : N) : option N :=
  match s with
  | EmptyString => Some acc
  | String c s => d ← digit_value c; decimal_from s (acc * 10 + d)
  end.
Definition decimal (s : string) : option N :=
  match s with EmptyString => None | _ => decimal_from s 0 end.

Lemma decimal_from_grows s acc n : decimal_from s acc = Some n -> acc <= n.
Proof.
  revert acc. induction s as [|c s IH]; intros acc; cbn [decimal_from]; [intros [= ->]; lia|].
  destruct (digit_value c) as [d|]; [|done]. cbn [mbind option_bind]. intros Hn%IH. lia.
Qed.

Lemma from_chars_aux_None s : (from_chars_aux s None).2 = None.
Proof.
  induction s as [|c s IH]; cbn [from_chars_aux]; [done|]. by destruct (digit_value c).
Qed.

Lemma from_chars_aux_decimal s acc n :
  acc < 2 ^ 64 -> from_chars_aux s (Some acc) = (EmptyString, Some n) <-> decimal_from s acc = Some n /\ n < 2 ^ 64.
Proof.
  revert acc. induction s as [|c s IH]; intros acc Hacc; cbn [from_chars_aux decimal_from].
  { split; [by intros [= <-]|by intros [[= ->] _]]. }
  destruct (digit_value c) as [d|]; [|by split; [|intros []]]. cbn [mbind option_bind].
  destruct (N.ltb_spec (acc * 10 + d) (2 ^ 64)) as [?|Hover]; [by apply IH|]. split.
  - intros Heq. pose proof (from_chars_aux_None s) as Hnone. by rewrite Heq in Hnone.
  - intros [Hn%decimal_from_grows Hlt]. exfalso. apply (N.lt_irrefl n).
    eapply N.lt_le_trans; [exact Hlt|]. by etrans.
Qed.

Lemma parse_field_decimal s unknown n :
  parse_field s unknown = Some n <-> decimal s = Some n /\ n < 2 ^ 64 /\ n <> unknown.
Proof.
  unfold parse_field, from_chars, decimal. destruct s as [|c s]; [by split; [|intros []]|].
  pose proof (from_chars_aux_decimal (String c s) 0 n) as Hiff.
  destruct (digit_value c) as [d|] eqn:Hc; [|cbn [decimal_from]; rewrite Hc; by split; [|intros []]].
  destruct (from_chars_aux (String c s) (Some 0)) as [p v] eqn:Haux.
  assert ((p, v) = (EmptyString, Some n) <-> decimal_from (String c s) 0 = Some n /\ n < 2 ^ 64) as Hiff'
    by (by apply Hiff). clear Hiff. rewrite (and_assoc _ (n < 2 ^ 64)), <-Hiff'.
  destruct v as [v|]; destruct p as [|c' p]; try by split; [|intros []].
  destruct (N.eqb_spec v unknown) as [->|Hne].
  - split; [done|]. intros [[= ->] []]. done.
  - split; [by intros [= ->]|by intros [[= ->] _]].
Qed.

Lemma split_at_dot_spec s a b : split_at_dot s = Some (a, b) -> s = String.append a (String "."%char b).
Proof.
  revert a. induction s as [|c s IH]; intros a; cbn [split_at_dot]; [done|].
  destruct (Ascii.eqb_spec c "."%char) as [->|]; [by intros [= <- <-]|].
  destruct (split_at_dot s) as [[a' b']|]; [|done]. cbn [mbind option_bind].
  intros [= <- <-]. cbn [String.append]. by rewrite (IH a' eq_refl).
Qed.

Lemma decimal_no_dot s n : decimal s = Some n -> no_dot s = true.
Proof.
  assert (forall s acc, is_Some (decimal_from s acc) -> no_dot s = true) as Hgen.
  { clear. induction s as [|c s IH]; intros acc; cbn [decimal_from no_dot]; [done|].
    destruct (digit_value c) as [d|] eqn:Hc; [|by intros []]. cbn [mbind option_bind].
    intros Hs%IH. rewrite Hs. destruct (Ascii.eqb_spec c "."%char) as [->|]; [|done].
    by vm_compute in Hc. }
  intros Hd. apply (Hgen s 0). destruct s; [done|]. by exists n.
Qed.

(** C36. The strings that are accepted are exactly two decimal numbers around a
    dot, with nothing before, after or between, both below 2^64 and neither
    the unknown view or sequence number; the first is the view of the ID that
    is returned and the second its sequence number. Every other string is
    rejected. *)
Theorem from_str_iff (sv : string) (tx_id : t) :
  from_str sv = Some tx_id <->
  exists view_sv seqno_sv,
    sv = String.append view_sv (String.append "." seqno_sv) /\
    decimal view_sv = Some (view tx_id) /\ decimal seqno_sv = Some (seqno tx_id) /\
    view tx_id < 2 ^ 64 /\ seqno tx_id < 2 ^ 64 /\
    view tx_id <> VIEW_UNKNOWN /\ seqno tx_id <> SEQNO_UNKNOWN.
Proof.
  unfold from_str. split.
  - destruct (split_at_dot sv) as [[a b]|] eqn:Hs; [|done]. cbn [mbind option_bind].
    destruct (parse_field a VIEW_UNKNOWN) as [v|] eqn:Hv; [|done]. cbn [mbind option_bind].
    destruct (parse_field b SEQNO_UNKNOWN) as [n|] eqn:Hn; [|done]. intros [= <-].
    apply parse_field_decimal in Hv as (? & ? & ?), Hn as (? & ? & ?).
    exists a, b. split; [by apply split_at_dot_spec|done].
  - intros (a & b & -> & Hv & Hn & ? & ? & ? & ?).
    change (String.append "." b) with (String "."%char b).
    rewrite split_at_dot_app by (by eapply decimal_no_dot). cbn [mbind option_bind].
    rewrite (proj2 (parse_field_decimal a VIEW_UNKNOWN (view tx_id))) by done. cbn [mbind option_bind].
    rewrite (proj2 (parse_field_decimal b SEQNO_UNKNOWN (seqno tx_id))) by done. by destruct tx_id.
Qed.

Example from_str_rejects :
  from_str "0.5" = None /\ from_str "2.3x" = None /\ from_str "12" = None /\
  from_str "1.99999999999999999999" = None /\ from_str "-1.2" = None.
Proof. vm_compute. done. Qed.

End TxID.

(** ** Transaction status *)

Inductive TxStatus := Unknown | Pending | Committed | Invalid.

#[export] Instance TxStatus_eq_dec : EqDecision TxStatus.
Proof. solve_decision. Defined.

Definition evaluate_tx_status (target_view : View) (target_seqno : SeqNo) (local_view : View)
    (committed_view : View) (committed_seqno : SeqNo) : result TxStatus :=
  let is_committed := target_seqno <=? committed_seqno in
  let views_match := local_view =? target_view in
  let view_known := negb (local_view =? VIEW_UNKNOWN) in
  if is_committed && negb view_known
  then Throw (LogicError "Should know local view for seqnos up to committed")
  else if is_committed then Ok (if views_match then Committed else Invalid)
  else if views_match then Ok Pending
  else if target_view <? committed_view then Ok Invalid
  else Ok Unknown.

(** The statuses of [ccf::FinalTxStatus]. *)
Definition is_final (status : TxStatus) : bool :=
  match status with Committed | Invalid => true | _ => false end.
