(* ===== verification/CommitCallbacks.v ===== *)
(** * Commit callbacks

    [ccf::CommitCallbackSubsystem] (src/node/commit_callback_subsystem.h):
    callbacks waiting for the final status of a transaction. Consensus calls
    [trigger_callbacks] whenever its commit index advances. A callback is an
    opaque function of the caller, modelled by an identifier; the calls made
    are recorded in order. *)

From S2P Require Import Prelude ViewHistory TxStatus.

Open Scope N_scope.

Module CommitCallbacks.

Abbreviation Callback := nat (only parsing).
Abbreviation Callbacks := (list (TxID.t * nat)) (only parsing).

Record t := mk {
  pending_callbacks : list (SeqNo * Callbacks);   (* std::map, in key order *)
  known_commit : option TxID.t;
  known_view_history : list Version;
  consensus : bool;                               (* whether set_consensus was called *)
  called : list (TxID.t * TxStatus * Callback);   (* the callbacks run so far *)
}.

Definition eta_t (s : t) : t :=
  mk (pending_callbacks s) (known_commit s) (known_view_history s) (consensus s) (called s).
Definition set_pending_callbacks (v : list (SeqNo * Callbacks)) (s : t) : t :=
  ltac:(set_field eta_t (pending_callbacks s) v s).
Definition set_known_commit (v : option TxID.t) (s : t) : t :=
  ltac:(set_field eta_t (known_commit s) v s).
Definition set_known_view_history (v : list Version) (s : t) : t :=
  ltac:(set_field eta_t (known_view_history s) v s).
Definition set_consensus_ptr (v : bool) (s : t) : t :=
  ltac:(set_field eta_t (consensus s) v s).
Definition set_called (v : list (TxID.t * TxStatus * Callback)) (s : t) : t :=
  ltac:(set_field eta_t (called s) v s).

Definition init : t := mk [] None [] false [].

Definition set_consensus : M t unit := modify (set_consensus_ptr true).

Definition call (tx_id : TxID.t) (status : TxStatus) (callback : Callback) : M t unit :=
  modify (fun s => set_called (called s ++ [(tx_id, status, callback)])%list s).

(** [pending_callbacks[seqno].emplace_back(...)] *)
Fixpoint emplace (seqno : SeqNo) (cb : TxID.t * Callback) (m : list (SeqNo * Callbacks))
  : list (SeqNo * Callbacks) :=
  match m with
  | [] => [(seqno, [cb])]
  | (k, cbs) :: m' =>
      if seqno <? k then (seqno, [cb]) :: m
      else if seqno =? k then (k, cbs ++ [cb])%list :: m'
      else (k, cbs) :: emplace seqno cb m'
  end.

Definition add_callback (tx_id : TxID.t) (callback : Callback) : M t unit :=
  (known <- gets known_commit ;;;
   views <- gets known_view_history ;;;
   immediate_status <-
     match known with
     | Some kc =>
         status <- lift (evaluate_tx_status (TxID.view tx_id) (TxID.seqno tx_id)
                           (ViewHistory.view_at (TxID.seqno tx_id) views)
                           (TxID.view kc) (TxID.seqno kc)) ;;;
         ret (if is_final status then Some status else None)
     | None => ret None
     end ;;;
   match immediate_status with
   | None => modify (fun s =>
       set_pending_callbacks (emplace (TxID.seqno tx_id) (tx_id, callback) (pending_callbacks s)) s)
   | Some status => call tx_id status callback
   end)%M.

(** The callbacks of one sequence number, appended to [ready]. *)
Fixpoint collect_at (committed : TxID.t) (view_history : list Version)
    (callbacks : Callbacks) (ready : list (TxID.t * TxStatus * Callback))
  : result (list (TxID.t * TxStatus * Callback)) :=
  match callbacks with
  | [] => Ok ready
  | (tx_id, callback) :: callbacks' =>
      match evaluate_tx_status (TxID.view tx_id) (TxID.seqno tx_id)
              (ViewHistory.view_at (TxID.seqno tx_id) view_history)
              (TxID.view committed) (TxID.seqno committed) with
      | Throw e => Throw e
      | Ok status =>
          if is_final status
          then collect_at committed view_history callbacks' (ready ++ [(tx_id, status, callback)])%list
          else Throw (LogicError "Expected terminal TxStatus")
      end
  end.

(** The loop over [pending_callbacks]: also returns the map it leaves. *)
Fixpoint collect (committed : TxID.t) (view_history : list Version)
    (pending : list (SeqNo * Callbacks)) (ready : list (TxID.t * TxStatus * Callback))
  : result (list (TxID.t * TxStatus * Callback)) * list (SeqNo * Callbacks) :=
  match pending with
  | [] => (Ok ready, [])
  | (seqno, callbacks) :: pending' =>
      if TxID.seqno committed <? seqno then (Ok ready, pending)
      else
        match collect_at committed view_history callbacks ready with
        | Throw e => (Throw e, pending)
        | Ok ready' => collect committed view_history pending' ready'
        end
  end.

Definition trigger_callbacks (committed : TxID.t) (view_history : list Version) : M t unit :=
  (c <- gets consensus ;;;
   if negb c then throw (LogicError "trigger_callbacks() called before set_consensus()")
   else
     modify (set_known_commit (Some committed)) ;;;
     modify (set_known_view_history view_history) ;;;
     pending <- gets pending_callbacks ;;;
     let '(ready, pending') := collect committed view_history pending [] in
     modify (set_pending_callbacks pending') ;;;
     ready <- lift ready ;;;
     for_each (fun '(tx_id, status, callback) => call tx_id status callback) ready)%M.

(** ** Well-formedness: keys in strictly increasing order, each callback filed
    under its own sequence number. *)

Definition keys_sorted (m : list (SeqNo * Callbacks)) : Prop := StronglySorted N.lt m.*1.
Definition filed (m : list (SeqNo * Callbacks)) : Prop :=
  Forall (fun '(k, cbs) => Forall (fun '(tx_id, _) => TxID.seqno tx_id = k) cbs) m.
Definition wf (s : t) : Prop := keys_sorted (pending_callbacks s) /\ filed (pending_callbacks s).

(** All pending callbacks, in the order they would be run. *)
Definition waiting (m : list (SeqNo * Callbacks)) : Callbacks := concat m.*2.

Lemma emplace_keys seqno cb m k : k ∈ (emplace seqno cb m).*1 -> k = seqno \/ k ∈ m.*1.
Proof.
  induction m as [|[k' cbs] m IH]; simpl.
  - rewrite list_elem_of_singleton. naive_solver.
  - destruct (N.ltb_spec seqno k'); simpl; [set_solver|].
    destruct (N.eqb_spec seqno k'); simpl; set_solver.
Qed.

Lemma emplace_wf seqno cb m :
  keys_sorted m -> filed m -> TxID.seqno cb.1 = seqno ->
  keys_sorted (emplace seqno cb m) /\ filed (emplace seqno cb m).
Proof.
  unfold keys_sorted, filed. destruct cb as [tx c]. simpl. intros Hs Hf <-.
  induction m as [|[k cbs] m IH]; simpl in *.
  { split; repeat constructor. }
  inversion Hs as [|? ? Hs' Hk]; subst. inversion Hf as [|? ? Hf1 Hf2]; subst.
  destruct (N.ltb_spec (TxID.seqno tx) k) as [Hlt|Hge]; simpl.
  { split; [|constructor; [by repeat constructor|done]].
    constructor; [done|]. constructor; [done|].
    eapply Forall_impl; [exact Hk|]. simpl. intros. lia. }
  destruct (N.eqb_spec (TxID.seqno tx) k) as [Heq|Hne]; simpl.
  { split; [done|]. constructor; [|done]. apply Forall_app. split; [done|]. by constructor. }
  destruct (IH Hs' Hf2) as [IH1 IH2]. split; [|by constructor].
  constructor; [done|]. rewrite Forall_forall in Hk |- *. intros x Hx.
  apply emplace_keys in Hx as [->|Hx]; [lia|by apply Hk].
Qed.

Lemma waiting_emplace seqno cb m : waiting (emplace seqno cb m) ≡ₚ cb :: waiting m.
Proof.
  unfold waiting. induction m as [|[k cbs] m IH]; simpl; [done|].
  destruct (seqno <? k); simpl; [done|]. destruct (seqno =? k); simpl.
  - rewrite <- app_assoc. simpl. by rewrite Permutation_middle.
  - rewrite IH. by rewrite Permutation_middle.
Qed.

(** ** Running the callbacks *)

Definition final_status (views : list Version) (tx_id : TxID.t) : TxStatus :=
  if ViewHistory.view_at (TxID.seqno tx_id) views =? TxID.view tx_id then Committed else Invalid.
Definition outcome (views : list Version) (cb : TxID.t * Callback) : TxID.t * TxStatus * Callback :=
  (cb.1, final_status views cb.1, cb.2).

Lemma collect_at_ok committed views cbs ready :
  Forall (fun '(tx_id, _) => TxID.seqno tx_id <= TxID.seqno committed /\
                             ViewHistory.view_at (TxID.seqno tx_id) views <> VIEW_UNKNOWN) cbs ->
  collect_at committed views cbs ready = Ok (ready ++ map (outcome views) cbs)%list.
Proof.
  intros H. revert ready. induction H as [|[tx c] cbs [Hle Hv] H IH]; intros ready; simpl.
  { by rewrite app_nil_r. }
  unfold evaluate_tx_status.
  replace (TxID.seqno tx <=? TxID.seqno committed) with true by (symmetry; by apply N.leb_le).
  apply N.eqb_neq in Hv. rewrite Hv. simpl.
  replace (is_final _) with true by (by case_match).
  rewrite IH, <- app_assoc. done.
Qed.

Lemma collect_ok committed views pending ready :
  keys_sorted pending -> filed pending ->
  (forall n, n ∈ pending.*1 -> n <= TxID.seqno committed ->
     ViewHistory.view_at n views <> VIEW_UNKNOWN) ->
  collect committed views pending ready =
  (Ok (ready ++ map (outcome views)
         (waiting (filter (fun p => p.1 <= TxID.seqno committed) pending)))%list,
   filter (fun p => ~ p.1 <= TxID.seqno committed) pending).
Proof.
  unfold keys_sorted, filed, waiting. intros Hs Hf Hv. revert ready.
  induction pending as [|[k cbs] m IH]; intros ready; simpl; [by rewrite app_nil_r|].
  simpl in *. inversion Hs as [|? ? Hs' Hk]; subst. inversion Hf as [|? ? Hf1 Hf2]; subst.
  destruct (N.ltb_spec (TxID.seqno committed) k) as [Hlt|Hle].
  - assert (forall p, p ∈ m -> ~ p.1 <= TxID.seqno committed) as Hm.
    { intros p Hp. rewrite Forall_forall in Hk. specialize (Hk p.1).
      assert (p.1 ∈ m.*1) by (by apply list_elem_of_fmap_2). specialize (Hk H). simpl in Hk. lia. }
    rewrite !filter_cons. simpl. rewrite decide_False by lia. rewrite decide_True by lia.
    assert (filter (fun p : SeqNo * Callbacks => p.1 <= TxID.seqno committed) m = []) as Hnil.
    { clear -Hm. induction m as [|p m IH]; [done|]. rewrite filter_cons, decide_False.
      - apply IH. intros q Hq. apply Hm. by right.
      - apply Hm. by left. }
    assert (filter (fun p : SeqNo * Callbacks => ~ p.1 <= TxID.seqno committed) m = m) as Hall.
    { clear -Hm. induction m as [|p m IH]; [done|]. rewrite filter_cons, decide_True.
      - f_equal. apply IH. intros q Hq. apply Hm. by right.
      - apply Hm. by left. }
    rewrite Hnil, Hall. simpl. by rewrite app_nil_r.
  - rewrite !filter_cons. simpl. rewrite decide_True by lia. rewrite decide_False by (intros ?; lia).
    rewrite collect_at_ok.
    + rewrite IH; [|done|done|]. 2: { intros n Hn. apply Hv. set_solver. }
      simpl. by rewrite map_app, <- app_assoc.
    + eapply Forall_impl; [exact Hf1|]. intros [tx c] Heq. rewrite Heq. split; [done|].
      apply Hv; [set_solver|done].
Qed.

Lemma run_callbacks l s :
  for_each (fun '(tx_id, status, callback) => call tx_id status callback) l s =
  (Ok tt, set_called (called s ++ l)%list s).
Proof.
  revert s. induction l as [|[[tx st] c] l IH]; intros s; simpl.
  { rewrite app_nil_r. by destruct s. }
  unfold bind. simpl. rewrite IH. simpl. by rewrite <- app_assoc.
Qed.

Lemma filter_wf (P : SeqNo * Callbacks -> Prop) `{!forall x, Decision (P x)} m :
  keys_sorted m -> filed m -> keys_sorted (filter P m) /\ filed (filter P m).
Proof.
  unfold keys_sorted, filed. induction m as [|[k cbs] m IH]; simpl; [done|].
  intros Hs Hf. inversion Hs as [|? ? Hs' Hk]; subst. inversion Hf as [|? ? Hf1 Hf2]; subst.
  destruct (IH Hs' Hf2) as [IH1 IH2]. rewrite filter_cons. case_decide; [|done]. simpl.
  split; [|by constructor]. constructor; [done|].
  rewrite Forall_forall in Hk |- *. intros x Hx. apply Hk.
  apply list_elem_of_fmap in Hx as (p & -> & Hp). apply list_elem_of_filter in Hp as [_ Hp].
  by apply list_elem_of_fmap_2.
Qed.

Lemma waiting_split (P : SeqNo * Callbacks -> Prop) `{!forall x, Decision (P x)} m :
  waiting m ≡ₚ (waiting (filter P m) ++ waiting (filter (fun x => ~ P x) m))%list.
Proof.
  unfold waiting. induction m as [|[k cbs] m IH]; simpl; [done|].
  rewrite !filter_cons. destruct (decide (P (k, cbs))).
  - rewrite decide_False by naive_solver. simpl. rewrite IH. by rewrite app_assoc.
  - rewrite decide_True by done. simpl. rewrite IH.
    rewrite !app_assoc. apply Permutation_app_tail, Permutation_app_comm.
Qed.

(** When consensus reports a commit, every callback waiting for a
    sequence number it covers is run once with the final status the history
    determines, and exactly the others keep waiting. *)
Theorem trigger_callbacks_runs (s : t) (committed : TxID.t) (views : list Version)
  (Hwf : wf s) (Hc : consensus s = true)
  (Hv : forall n, n ∈ (pending_callbacks s).*1 -> n <= TxID.seqno committed ->
        ViewHistory.view_at n views <> VIEW_UNKNOWN) :
  exists ready s',
    trigger_callbacks committed views s = (Ok tt, s') /\
    called s' = (called s ++ map (outcome views) ready)%list /\
    waiting (pending_callbacks s) ≡ₚ (ready ++ waiting (pending_callbacks s'))%list /\
    Forall (fun cb => TxID.seqno cb.1 <= TxID.seqno committed) ready /\
    Forall (fun cb => TxID.seqno committed < TxID.seqno cb.1) (waiting (pending_callbacks s')) /\
    known_commit s' = Some committed /\ wf s'.
Proof.
  destruct Hwf as [Hs Hf]. unfold trigger_callbacks, bind. simpl. rewrite Hc. simpl.
  rewrite collect_ok by done. simpl. rewrite run_callbacks.
  eexists _, _. split; [reflexivity|]. simpl. split_and!.
  - reflexivity.
  - apply waiting_split.
  - apply Forall_concat, Forall_fmap, Forall_forall. intros [k cbs] [Hk Hin]%list_elem_of_filter.
    unfold filed in Hf. rewrite Forall_forall in Hf. specialize (Hf _ Hin). simpl in *.
    eapply Forall_impl; [exact Hf|]. intros [tx c]. simpl. by intros ->.
  - apply Forall_concat, Forall_fmap, Forall_forall. intros [k cbs] [Hk Hin]%list_elem_of_filter.
    unfold filed in Hf. rewrite Forall_forall in Hf. specialize (Hf _ Hin). simpl in *.
    eapply Forall_impl; [exact Hf|]. intros [tx c]. simpl. intros ->. lia.
  - reflexivity.
  - by apply filter_wf.
Qed.

(** A callback waiting for 2.3 and one for 2.9; the commit is at 2.5. *)
Definition example_state : t :=
  mk [(3, [(TxID.mk 2 3, 0%nat); (TxID.mk 1 3, 1%nat)]); (9, [(TxID.mk 2 9, 2%nat)])] None [] true [].

Example trigger_callbacks_runs_witness :
  exists ready s',
    trigger_callbacks (TxID.mk 2 5) [1; 2] example_state = (Ok tt, s') /\
    called s' = (called example_state ++ map (outcome [1; 2]) ready)%list /\
    waiting (pending_callbacks example_state) ≡ₚ (ready ++ waiting (pending_callbacks s'))%list /\
    Forall (fun cb => TxID.seqno cb.1 <= 5) ready /\
    Forall (fun cb => 5 < TxID.seqno cb.1) (waiting (pending_callbacks s')) /\
    known_commit s' = Some (TxID.mk 2 5) /\ wf s'.
Proof.
  apply (trigger_callbacks_runs example_state (TxID.mk 2 5) [1; 2]).
  - split; repeat constructor; simpl; lia.
  - reflexivity.
  - simpl. intros n Hn Hle. rewrite !elem_of_cons in Hn.
    destruct Hn as [->|[->|Hn]]; [done|lia|by apply elem_of_nil in Hn].
Defined.

(** Registering a callback either runs it at once, with a final status
    the known commit determines, or files it; nothing else changes, and the
    map of pending callbacks stays well formed. *)
Theorem add_callback_spec (s s' : t) (tx_id : TxID.t) (cb : Callback)
  (Hwf : wf s) (Hadd : add_callback tx_id cb s = (Ok tt, s')) :
  wf s' /\ known_commit s' = known_commit s /\
  ((called s' = called s /\
    waiting (pending_callbacks s') ≡ₚ (tx_id, cb) :: waiting (pending_callbacks s)) \/
   (exists status kc, known_commit s = Some kc /\ is_final status = true /\
      evaluate_tx_status (TxID.view tx_id) (TxID.seqno tx_id)
        (ViewHistory.view_at (TxID.seqno tx_id) (known_view_history s))
        (TxID.view kc) (TxID.seqno kc) = Ok status /\
      called s' = (called s ++ [(tx_id, status, cb)])%list /\
      pending_callbacks s' = pending_callbacks s)).
Proof.
  destruct Hwf as [Hs Hf].
  assert (forall s0, modify (fun s =>
      set_pending_callbacks (emplace (TxID.seqno tx_id) (tx_id, cb) (pending_callbacks s)) s) s = (Ok tt, s0) ->
    wf s0 /\ known_commit s0 = known_commit s /\ called s0 = called s /\
    waiting (pending_callbacks s0) ≡ₚ (tx_id, cb) :: waiting (pending_callbacks s)) as Hfile.
  { intros s0 [= <-]. simpl. split_and!; [|done|done|apply waiting_emplace].
    by apply emplace_wf. }
  unfold add_callback, bind in Hadd. simpl in Hadd.
  destruct (known_commit s) as [kc|] eqn:Hkc; simpl in Hadd.
  2: { destruct (Hfile _ Hadd) as (? & ? & ? & ?). by repeat (split; [done|]); left. }
  destruct (evaluate_tx_status _ _ _ _ _) as [status|] eqn:Hst; simpl in Hadd; [|done].
  destruct (is_final status) eqn:Hfin; simpl in Hadd.
  - injection Hadd as <-. simpl. split_and!; [done|done|]. right. eauto 10.
  - destruct (Hfile _ Hadd) as (? & ? & ? & ?). by repeat (split; [done|]); left.
Qed.

Example add_callback_spec_witness :
  add_callback (TxID.mk 2 4) 7%nat example_state =
    (Ok tt, set_pending_callbacks
       (emplace 4 (TxID.mk 2 4, 7%nat) (pending_callbacks example_state)) example_state) /\
  wf (set_pending_callbacks
       (emplace 4 (TxID.mk 2 4, 7%nat) (pending_callbacks example_state)) example_state).
Proof.
  split; [reflexivity|].
  eapply (add_callback_spec example_state _ (TxID.mk 2 4) 7%nat); [|reflexivity].
  split; repeat constructor; simpl; lia.
Defined.

End CommitCallbacks.
