(* ===== verification/LedgerEntries.v ===== *)
(** * Framing of ledger entries

    The entries that follow an AppendEntries header, and the chunks of the
    ledger, are a sequence of [SerialisedEntryHeader]-prefixed blobs. This file
    models the readers of src/ds/serialized.h on a byte buffer, the header of
    src/kv/serialised_entry_format.h and the static functions of
    [consensus::LedgerEnclave] (src/consensus/ledger_enclave.h). *)

From S2P Require Import Prelude.
From Stdlib Require Import Init.Byte Strings.Byte.

Open Scope N_scope.
Open Scope m_scope.

(** ** serialized.h: a buffer is the bytes left to read *)

(** [serialized::read(data, size, block_size)] *)
Definition read_block (block_size : N) (data : bytes) : result (bytes * bytes) :=
  if N.of_nat (length data) <? block_size then Throw InsufficientSpace
  else Ok (take (N.to_nat block_size) data, drop (N.to_nat block_size) data).

(** [serialized::skip] *)
Definition skip (n : N) (data : bytes) : result bytes :=
  if N.of_nat (length data) <? n then Throw InsufficientSpace
  else Ok (drop (N.to_nat n) data).

(** Little-endian integers. *)
Fixpoint le_combine (l : bytes) : N :=
  match l with
  | [] => 0
  | b :: l => Byte.to_N b + 256 * le_combine l
  end.

Definition byte_of (n : N) : byte := default Byte.x00 (Byte.of_N (n mod 256)).

Fixpoint le_split (n : nat) (v : N) : bytes :=
  match n with
  | O => []
  | S n => byte_of v :: le_split n (v / 256)
  end.

(** [serialized::read<T>] of an integer of [n] bytes. *)
Definition read_int (n : nat) (data : bytes) : result (N * bytes) :=
  r <~ read_block (N.of_nat n) data ;;; Ok (le_combine r.1, r.2).

(** ** serialised_entry_format.h *)

Definition entry_format_v1 : N := 1.
Definition FORCE_LEDGER_CHUNK_AFTER : N := 1.
Definition FORCE_LEDGER_CHUNK_BEFORE : N := 2.

Record SerialisedEntryHeader := mkHeader {
  header_version : N;
  header_flags : N;
  header_size : N;
}.

Definition serialised_entry_header_size : N := 8.
Definition BITS_FOR_SIZE : N := 48.

(** The assertion of [set_size], active in debug builds. *)
Definition set_size (size : N) (h : SerialisedEntryHeader) : result SerialisedEntryHeader :=
  if size <? N.shiftl 1 BITS_FOR_SIZE
  then Ok (mkHeader (header_version h) (header_flags h) size)
  else Throw AssertionFailure.

(** The in-memory layout: one byte of version, one of flags, 48 bits of size. *)
Definition encode_header (h : SerialisedEntryHeader) : bytes :=
  (le_split 1 (header_version h) ++ le_split 1 (header_flags h) ++ le_split 6 (header_size h))%list.

Definition decode_header (b : bytes) : SerialisedEntryHeader :=
  mkHeader (le_combine (take 1 b)) (le_combine (take 1 (drop 1 b))) (le_combine (take 6 (drop 2 b))).

(** [serialized::peek<SerialisedEntryHeader>] *)
Definition peek_header (data : bytes) : result SerialisedEntryHeader :=
  if N.of_nat (length data) <? serialised_entry_header_size then Throw InsufficientSpace
  else Ok (decode_header (take 8 data)).

(** [serialized::read<SerialisedEntryHeader>] *)
Definition read_header (data : bytes) : result (SerialisedEntryHeader * bytes) :=
  match read_block serialised_entry_header_size data with
  | Ok (b, rest) => Ok (decode_header b, rest)
  | Throw e => Throw e
  end.

(** ** ledger_enclave.h *)

(** The entry, header included, and the rest of the buffer. The source copies
    [entry_size] bytes before [skip] compares [entry_size] with what is left:
    when the header says more than the buffer holds, the copy reads out of
    bounds, and the check of [skip] comes too late. *)
Definition copy_entry (entry_size : N) (data : bytes) : result bytes :=
  if N.of_nat (length data) <? entry_size then Throw OutOfBounds else Ok (take (N.to_nat entry_size) data).
Definition get_entry (data : bytes) : result (bytes * bytes) :=
  match peek_header data with
  | Throw e => Throw e
  | Ok header =>
      let entry_size := serialised_entry_header_size + header_size header in
      match copy_entry entry_size data with
      | Throw e => Throw e
      | Ok entry =>
          match skip entry_size data with
          | Throw e => Throw e
          | Ok rest => Ok (entry, rest)
          end
      end
  end.

Definition skip_entry (data : bytes) : result bytes :=
  match read_header data with
  | Throw e => Throw e
  | Ok (header, rest) => skip (header_size header) rest
  end.

(** A serialised entry: a header for [payload] followed by it. *)
Definition make_entry (flags : N) (payload : bytes) : bytes :=
  (encode_header (mkHeader entry_format_v1 flags (N.of_nat (length payload))) ++ payload)%list.

(** ** Round trips *)

Lemma byte_of_to_N n : Byte.to_N (byte_of n) = n mod 256.
Proof.
  unfold byte_of. assert (n mod 256 < 256) as H by (by apply N.mod_lt).
  destruct (Byte.of_N (n mod 256)) eqn:E; simpl.
  - by apply Byte.to_of_N in E.
  - apply Byte.of_N_None_iff in E. lia.
Qed.

Lemma length_le_split n v : length (le_split n v) = n.
Proof. revert v. induction n; intros; simpl; auto. Qed.

Lemma le_combine_split n v : le_combine (le_split n v) = v mod 256 ^ N.of_nat n.
Proof.
  revert v. induction n as [|n IH]; intros v.
  { simpl. by rewrite N.mod_1_r. }
  cbn [le_split le_combine]. rewrite byte_of_to_N, IH.
  rewrite Nat2N.inj_succ, N.pow_succ_r', N.Div0.mod_mul_r. done.
Qed.

Lemma read_int_app n v rest : v < 256 ^ N.of_nat n -> read_int n (le_split n v ++ rest) = Ok (v, rest).
Proof.
  intros Hv. unfold read_int, rbind, read_block. rewrite length_app, length_le_split.
  destruct (N.ltb_spec (N.of_nat (n + length rest)) (N.of_nat n)); [lia|]. rewrite Nat2N.id.
  rewrite take_app_length', drop_app_length' by (by rewrite length_le_split). simpl.
  by rewrite le_combine_split, N.mod_small.
Qed.

Lemma decode_encode_header h :
  header_version h < 256 -> header_flags h < 256 -> header_size h < 2 ^ BITS_FOR_SIZE ->
  decode_header (encode_header h) = h.
Proof.
  intros Hv Hf Hs. unfold decode_header, encode_header. destruct h as [v f z]. simpl header_version in *.
  simpl header_flags in *. simpl header_size in *.
  cbn [le_split app take drop].
  change [byte_of v] with (le_split 1 v). change [byte_of f] with (le_split 1 f).
  change (byte_of z :: _) with (le_split 6 z).
  rewrite !le_combine_split. simpl N.of_nat.
  by rewrite !N.mod_small by done.
Qed.

Lemma length_encode_header h : length (encode_header h) = 8%nat.
Proof. unfold encode_header. by rewrite !length_app, !length_le_split. Qed.

Lemma peek_header_app h rest :
  header_version h < 256 -> header_flags h < 256 -> header_size h < 2 ^ BITS_FOR_SIZE ->
  peek_header (encode_header h ++ rest) = Ok h.
Proof.
  intros. unfold peek_header, serialised_entry_header_size.
  rewrite length_app, length_encode_header.
  destruct (N.ltb_spec (N.of_nat (8 + length rest)) 8); [lia|].
  rewrite take_app_le by (by rewrite length_encode_header).
  rewrite take_ge by (by rewrite length_encode_header). by rewrite decode_encode_header.
Qed.

(** Reading back an entry that was framed returns exactly it, header
    included, and leaves the bytes that follow it. *)
Theorem get_entry_make_entry (flags : N) (payload rest : bytes)
  (Hf : flags < 256) (Hp : N.of_nat (length payload) < 2 ^ BITS_FOR_SIZE) :
  get_entry (make_entry flags payload ++ rest) = Ok (make_entry flags payload, rest).
Proof.
  unfold get_entry, make_entry. rewrite <- app_assoc, peek_header_app by done.
  simpl header_size. unfold serialised_entry_header_size, copy_entry, skip.
  set (h := encode_header _).
  assert (length h = 8%nat) as Hh by apply length_encode_header.
  destruct (N.ltb_spec (N.of_nat (length (h ++ payload ++ rest))) (8 + N.of_nat (length payload)))
    as [Hlt|_]; [rewrite !length_app in Hlt; lia|].
  replace (N.to_nat (8 + N.of_nat (length payload))) with (length (h ++ payload))
    by (rewrite length_app; lia).
  by rewrite app_assoc, take_app_length, drop_app_length.
Qed.

Example get_entry_make_entry_witness :
  get_entry (make_entry 1 [x41; x42] ++ [x07]) = Ok (make_entry 1 [x41; x42], [x07]).
Proof. apply (get_entry_make_entry 1 [x41; x42] [x07]); done. Defined.

(** On every buffer, skipping an entry consumes the bytes that reading it
    would consume, and fails exactly when reading it fails; where reading it
    goes out of bounds, skipping it throws. *)
Theorem skip_entry_get_entry (data : bytes) :
  skip_entry data = match get_entry data with Ok (_, rest) => Ok rest | Throw _ => Throw InsufficientSpace end.
Proof.
  unfold skip_entry, read_header, get_entry, peek_header, read_block, copy_entry, skip, serialised_entry_header_size.
  destruct (N.ltb_spec (N.of_nat (length data)) 8); [done|].
  change (N.to_nat 8) with 8%nat. set (n := header_size (decode_header (take 8 data))).
  rewrite length_drop.
  destruct (N.ltb_spec (N.of_nat (length data - 8)) n), (N.ltb_spec (N.of_nat (length data)) (8 + n));
    try lia; [done|]. rewrite drop_drop. do 2 f_equal. lia.
Qed.

(** The failures of [get_entry]: a buffer shorter than a header throws, one
    shorter than the entry is read out of bounds. *)
Lemma get_entry_throws data e :
  get_entry data = Throw e -> e = if N.of_nat (length data) <? 8 then InsufficientSpace else OutOfBounds.
Proof.
  unfold get_entry, peek_header, copy_entry, skip, serialised_entry_header_size.
  destruct (N.of_nat (length data) <? 8); [by intros [= <-]|].
  by destruct (_ <? _); [intros [= <-]|].
Qed.

Lemma skip_entry_throws data e : skip_entry data = Throw e -> e = InsufficientSpace.
Proof.
  unfold skip_entry, read_header, read_block, skip. repeat case_match; intros; simplify_eq; done.
Qed.
