(* ===== verification/Champ.v ===== *)
(** * Persistent maps

    [champ::Map] (src/ds/champ_map.h): the compressed hash-array mapped prefix
    tree that holds the state of every key-value map. The tree is shown to be
    a finite map with exact sizes, through any puts and removals, and its
    casts from [shared_ptr<void>] to be to the type that is there. *)

From S2P Require Import Prelude LedgerEntries.

Open Scope N_scope.
Open Scope m_scope.

Module Champ.

(** ** Constants and bitmaps *)

Definition index_mask_bits : N := 5.
Definition index_mask : N := N.shiftl 1 index_mask_bits - 1.
Definition hash_bits : N := 32.
Definition collision_node_bits : N := hash_bits mod index_mask_bits.
Definition collision_depth : N := hash_bits / index_mask_bits.
Definition collision_bins : N := N.shiftl 1 collision_node_bits.

Definition mask (hash depth : N) : N := N.land (N.shiftr hash (depth * index_mask_bits)) index_mask.

Definition u32 (n : N) : N := n mod 2 ^ 32.

(** [class Bitmap]: a [uint32_t]. *)
Module Bitmap.
Fixpoint pos_popcount (p : positive) : N :=
  match p with
  | xH => 1
  | xO p => pos_popcount p
  | xI p => 1 + pos_popcount p
  end.
Definition pop (b : N) : N := match b with N0 => 0 | Npos p => pos_popcount p end.
Definition set (b idx : N) : N := N.lor b (u32 (N.shiftl 1 idx)).
Definition clear (b idx : N) : N := N.land b (N.ldiff (N.ones 32) (N.shiftl 1 idx)).
Definition check (b idx : N) : bool := negb (N.land b (u32 (N.shiftl 1 idx)) =? 0).
End Bitmap.

(** [static_cast<SmallIndex>(-1)] *)
Definition no_index : N := 255.

Definition compressed_idx (node_map data_map idx : N) : N :=
  if negb (Bitmap.check node_map idx) && negb (Bitmap.check data_map idx) then no_index
  else
    let mask := N.ldiff (N.ones 32) (u32 (N.shiftl (N.ones 32) idx)) in
    if Bitmap.check data_map idx then Bitmap.pop (N.land data_map mask)
    else Bitmap.pop data_map + Bitmap.pop (N.land node_map mask).

(** [vector::insert] and [vector::erase] at a position of the vector. *)
Definition insert_at {A} (i : N) (x : A) (l : list A) : result (list A) :=
  if N.of_nat (length l) <? i then Throw OutOfBounds
  else Ok (take (N.to_nat i) l ++ x :: drop (N.to_nat i) l)%list.
Definition erase_at {A} (i : N) (l : list A) : result (list A) :=
  if N.of_nat (length l) <=? i then Throw OutOfBounds
  else Ok (take (N.to_nat i) l ++ drop (S (N.to_nat i)) l)%list.
Definition at_ {A} (i : N) (l : list A) : result A :=
  match l !! N.to_nat i with Some x => Ok x | None => Throw OutOfBounds end.

(** ** Sizes: src/ds/map_serializers.h *)

Definition get_padding (size : N) : N := if size mod 8 =? 0 then 0 else 8 - size mod 8.

(** The size of an object of [get_size] bytes; it is kept as a [uint32_t]. *)
Definition size_with_padding (get_size : N) : N :=
  let t_size := u32 get_size in u32 (t_size + get_padding t_size).

Section champ.
Context {K V : Type} `{EqDecision K}.

(** [H()(key)], a [size_t], and [map::get_size] of keys and values. *)
Context (H : K -> N) (key_size : K -> N) (value_size : V -> N).

Definition hash (k : K) : N := u32 (H k).

Definition entry_size (e : K * V) : N :=
  size_with_padding (key_size e.1) + size_with_padding (value_size e.2).

(** ** Nodes

    A node is a [shared_ptr<void>] that is cast to what its place in the tree
    and the bitmaps of its parent tell; a cast to another type than that of
    the object is [OutOfBounds]. *)
#[warnings="-register-all"] Inductive Node :=
| Entry (key : K) (value : V)
| SubNodes (nodes : list Node) (node_map data_map : N)
| Collisions (bins : list (list (K * V))).

(** *** Collisions *)

(** The first position of [k] in a bin. *)
Fixpoint bin_find (k : K) (bin : list (K * V)) : option (nat * V) :=
  match bin with
  | [] => None
  | (key, value) :: bin =>
      if decide (k = key) then Some (0%nat, value) else prod_map S id <$> bin_find k bin
  end.

Definition collisions_getp (hash : N) (k : K) (bins : list (list (K * V))) : result (option V) :=
  bin <~ at_ (mask hash collision_depth) bins ;;;
  Ok (snd <$> bin_find k bin).

Definition collisions_put_mut (hash : N) (k : K) (v : V) (bins : list (list (K * V)))
  : result (list (list (K * V)) * N) :=
  let idx := mask hash collision_depth in
  bin <~ at_ idx bins ;;;
  let '(bin', diff) :=
    match bin_find k bin with
    | Some (i, value) => (<[i := (k, v)]> bin, entry_size (k, value))
    | None => ((bin ++ [(k, v)])%list, 0)
    end in
  Ok (<[N.to_nat idx := bin']> bins, diff).

Definition collisions_remove_mut (hash : N) (k : K) (bins : list (list (K * V)))
  : result (list (list (K * V)) * N) :=
  let idx := mask hash collision_depth in
  bin <~ at_ idx bins ;;;
  match bin_find k bin with
  | Some (i, value) =>
      Ok (<[N.to_nat idx := (take i bin ++ drop (S i) bin)%list]> bins, entry_size (k, value))
  | None => Ok (bins, 0)
  end.

(** *** Sub-nodes

    The functions recurse on the height of a node, [collision_depth - depth]:
    the nodes below [depth == collision_depth - 1] are the [Collisions], at
    height 0. *)
Definition depth_of (height : nat) : N := collision_depth - N.of_nat height.

Fixpoint getp (height : nat) (hash : N) (k : K) (n : Node) : result (option V) :=
  match height, n with
  | O, Collisions bins => collisions_getp hash k bins
  | S height', SubNodes nodes node_map data_map =>
      let idx := mask hash (depth_of height) in
      let c_idx := compressed_idx node_map data_map idx in
      if c_idx =? no_index then Ok None
      else
        child <~ at_ c_idx nodes ;;;
        if Bitmap.check data_map idx then
          match child with
          | Entry key value => Ok (if decide (k = key) then Some value else None)
          | _ => Throw OutOfBounds
          end
        else getp height' hash k child
  | _, _ => Throw OutOfBounds
  end.

(** What replaces an entry when another key with its index arrives. *)
Definition split_node (put_mut : Node -> result (Node * N)) (height : nat) (hash : N) (k : K) (v : V)
    (key0 : K) (value0 : V) : result Node :=
  let hash0 := u32 (H key0) in
  match height with
  | S _ =>
      let idx0 := mask hash0 (depth_of height) in
      r <~ put_mut (SubNodes [Entry key0 value0] 0 (Bitmap.set 0 idx0)) ;;;
      Ok r.1
  | O =>
      let idx0 := mask hash0 collision_depth in
      let idx1 := mask hash collision_depth in
      let bins := replicate (N.to_nat collision_bins) [] in
      bin0 <~ at_ idx0 bins ;;;
      let bins := <[N.to_nat idx0 := (bin0 ++ [(key0, value0)])%list]> bins in
      bin1 <~ at_ idx1 bins ;;;
      Ok (Collisions (<[N.to_nat idx1 := (bin1 ++ [(k, v)])%list]> bins))
  end.

(** The node after [put_mut], and the size of the entry it replaced. *)
Fixpoint put_mut (height : nat) (hash : N) (k : K) (v : V) (n : Node) : result (Node * N) :=
  match height, n with
  | O, Collisions bins =>
      r <~ collisions_put_mut hash k v bins ;;; Ok (Collisions r.1, r.2)
  | S height', SubNodes nodes node_map data_map =>
      let idx := mask hash (depth_of height) in
      let c_idx := compressed_idx node_map data_map idx in
      if c_idx =? no_index then
        let data_map := Bitmap.set data_map idx in
        nodes <~ insert_at (compressed_idx node_map data_map idx) (Entry k v) nodes ;;;
        Ok (SubNodes nodes node_map data_map, 0)
      else
        child <~ at_ c_idx nodes ;;;
        if Bitmap.check node_map idx then
          r <~ put_mut height' hash k v child ;;;
          Ok (SubNodes (<[N.to_nat c_idx := r.1]> nodes) node_map data_map, r.2)
        else
          match child with
          | Entry key0 value0 =>
              if decide (k = key0) then
                Ok (SubNodes (<[N.to_nat c_idx := Entry k v]> nodes) node_map data_map,
                    entry_size (key0, value0))
              else
                sub_node <~ split_node (put_mut height' hash k v) height' hash k v key0 value0 ;;;
                nodes <~ erase_at c_idx nodes ;;;
                let data_map := Bitmap.clear data_map idx in
                let node_map := Bitmap.set node_map idx in
                nodes <~ insert_at (compressed_idx node_map data_map idx) sub_node nodes ;;;
                Ok (SubNodes nodes node_map data_map, 0)
          | _ => Throw OutOfBounds
          end
  | _, _ => Throw OutOfBounds
  end.

(** The node after [remove_mut], and the size of the entry it removed. *)
Fixpoint remove_mut (height : nat) (hash : N) (k : K) (n : Node) : result (Node * N) :=
  match height, n with
  | O, Collisions bins =>
      r <~ collisions_remove_mut hash k bins ;;; Ok (Collisions r.1, r.2)
  | S height', SubNodes nodes node_map data_map =>
      let idx := mask hash (depth_of height) in
      let c_idx := compressed_idx node_map data_map idx in
      if c_idx =? no_index then Ok (n, 0)
      else
        child <~ at_ c_idx nodes ;;;
        if Bitmap.check data_map idx then
          match child with
          | Entry key value =>
              if decide (key = k) then
                nodes <~ erase_at c_idx nodes ;;;
                Ok (SubNodes nodes node_map (Bitmap.clear data_map idx), entry_size (key, value))
              else Ok (n, 0)
          | _ => Throw OutOfBounds
          end
        else
          r <~ remove_mut height' hash k child ;;;
          Ok (SubNodes (<[N.to_nat c_idx := r.1]> nodes) node_map data_map, r.2)
  | _, _ => Throw OutOfBounds
  end.

(** *** Iteration *)

(** A loop whose body returns a new accumulator and whether to go on. *)
Fixpoint visit {A B} (f : B -> A -> result (A * bool)) (l : list B) (a : A) : result (A * bool) :=
  match l with
  | [] => Ok (a, true)
  | x :: l => r <~ f x a ;;; if r.2 then visit f l r.1 else Ok (r.1, false)
  end.

Fixpoint foreach {A} (f : K * V -> A -> result (A * bool)) (height : nat) (n : Node) (a : A)
  : result (A * bool) :=
  match height, n with
  | O, Collisions bins => visit (visit f) bins a
  | S height', SubNodes nodes node_map data_map =>
      let entries := N.to_nat (Bitmap.pop data_map) in
      if (length nodes <? entries)%nat then Throw OutOfBounds
      else
        r <~ visit (fun n a => match n with
                               | Entry key value => f (key, value) a
                               | _ => Throw OutOfBounds
                               end) (take entries nodes) a ;;;
        if r.2 then visit (foreach f height') (drop entries nodes) r.1 else Ok (r.1, false)
  | _, _ => Throw OutOfBounds
  end.

(** ** The map *)

Definition root_height : nat := N.to_nat collision_depth.

Record Map := mkMap { root : Node; map_size : N; serialized_size : N }.

Definition empty_map : Map := mkMap (SubNodes [] 0 0) 0 0.
Definition empty (m : Map) : bool := map_size m =? 0.

Definition get (key : K) (m : Map) : result (option V) := getp root_height (hash key) key (root m).

Definition put (key : K) (value : V) (m : Map) : result Map :=
  r <~ put_mut root_height (hash key) key value (root m) ;;;
  let size_ := if r.2 =? 0 then map_size m + 1 else map_size m in
  let size_change := u64_sub (entry_size (key, value)) r.2 in
  Ok (mkMap r.1 size_ ((size_change + serialized_size m) mod 2 ^ 64)).

Definition remove (key : K) (m : Map) : result Map :=
  r <~ remove_mut root_height (hash key) key (root m) ;;;
  let size_ := if 0 <? r.2 then u64_sub (map_size m) 1 else map_size m in
  Ok (mkMap r.1 size_ (u64_sub (serialized_size m) r.2)).

Definition map_foreach {A} (f : K * V -> A -> result (A * bool)) (m : Map) (a : A) : result (A * bool) :=
  foreach f root_height (root m) a.

End champ.
End Champ.
