(* ===== verification/ChampSpec.v ===== *)
(** * Persistent maps: proofs

    The map of src/ds/champ_map.h is a finite map. Bitmaps stand for sorted
    lists of indices, the nodes of a [SubNodes] for its entries and children
    in the order of their indices. *)

From S2P Require Import Prelude LedgerEntries Champ.

Open Scope N_scope.
Open Scope m_scope.

Module ChampSpec.
Import Champ.

(** ** Bitmaps *)

Definition is_set (b i : N) : Prop := N.testbit b i = true.
#[export] Instance is_set_dec b i : Decision (is_set b i).
Proof. unfold is_set. apply _. Defined.

Definition indices (from n : nat) : list N := N.of_nat <$> seq from n.
Definition bits (b : N) : list N := filter (is_set b) (indices 0 32).

Lemma elem_of_indices from n i : i ∈ indices from n <-> N.of_nat from <= i < N.of_nat (from + n).
Proof.
  unfold indices. rewrite list_elem_of_fmap. setoid_rewrite elem_of_seq. split.
  - intros (j & -> & Hj). lia.
  - intros Hi. exists (N.to_nat i). lia.
Qed.

Lemma filter_ext_in {A} (P Q : A -> Prop) `{!forall x, Decision (P x), !forall x, Decision (Q x)} (l : list A) :
  (forall x, x ∈ l -> P x <-> Q x) -> filter P l = filter Q l.
Proof.
  induction l as [|x l IH]; intros Hl; [done|]. rewrite !filter_cons.
  rewrite (IH (fun y Hy => Hl y (list_elem_of_further _ _ _ Hy))).
  destruct (decide (P x)) as [Hp|Hp], (decide (Q x)) as [Hq|Hq]; [done| | |done];
    exfalso; apply Hq || apply Hp; apply (Hl x); [left|done|left|done].
Qed.

Lemma pop_bits n k : n < 2 ^ N.of_nat k -> Bitmap.pop n = N.of_nat (length (filter (is_set n) (indices 0 k))).
Proof.
  revert n. induction k as [|k IH]; intros n Hn; [destruct n; [done|simpl in Hn; lia]|].
  assert (indices 0 (S k) = 0 :: (N.succ <$> indices 0 k)) as ->.
  { unfold indices. cbn [seq fmap list_fmap]. f_equal. rewrite <- fmap_S_seq, <- !list_fmap_compose.
    apply list_fmap_ext. intros i j _. simpl. lia. }
  assert (Bitmap.pop n = N.b2n (N.testbit n 0) + Bitmap.pop (N.div2 n)) as -> by (by destruct n as [|[]]).
  rewrite IH.
  2:{ rewrite N.div2_div. apply N.Div0.div_lt_upper_bound. rewrite Nat2N.inj_succ, N.pow_succ_r' in Hn. lia. }
  rewrite filter_cons, filter_fmap.
  rewrite (filter_ext_in (is_set (N.div2 n)) (fun x => is_set n (N.succ x))).
  2:{ intros i _. unfold is_set. by rewrite N.testbit_div2. }
  case_decide as Hd; unfold is_set in Hd.
  - rewrite Hd. cbn [length]. rewrite length_fmap. simpl N.b2n. lia.
  - apply not_true_is_false in Hd. rewrite Hd, length_fmap. simpl N.b2n. lia.
Qed.

Lemma testbit_above b i j : b < 2 ^ j -> j <= i -> N.testbit b i = false.
Proof.
  intros Hb Hi. destruct (decide (b = 0)) as [->|]; [apply N.bits_0|].
  apply N.bits_above_log2. apply N.log2_lt_pow2; [lia|].
  eapply N.lt_le_trans; [exact Hb|]. by apply N.pow_le_mono_r.
Qed.

Lemma lt_pow2_testbit b k : (forall i, k <= i -> N.testbit b i = false) -> b < 2 ^ k.
Proof.
  intros Hb. assert (b = b mod 2 ^ k) as ->; [|apply N.mod_lt; by apply N.pow_nonzero].
  apply N.bits_inj. intros i. destruct (N.lt_ge_cases i k).
  - by rewrite N.mod_pow2_bits_low.
  - by rewrite Hb, N.mod_pow2_bits_high.
Qed.

Lemma u32_bit idx : idx < 32 -> u32 (N.shiftl 1 idx) = 2 ^ idx.
Proof.
  intros Hi. rewrite N.shiftl_1_l. apply N.mod_small. by apply N.pow_lt_mono_r.
Qed.

Lemma check_testbit b idx : idx < 32 -> Bitmap.check b idx = N.testbit b idx.
Proof.
  intros Hi. unfold Bitmap.check. rewrite u32_bit by done.
  destruct (N.eqb_spec (N.land b (2 ^ idx)) 0) as [H|H]; simpl.
  - assert (N.testbit (N.land b (2 ^ idx)) idx = false) as Hb by (by rewrite H, N.bits_0).
    rewrite N.land_spec, N.pow2_bits_true in Hb. by rewrite andb_true_r in Hb.
  - destruct (N.testbit b idx) eqn:Hb; [done|]. destruct H. apply N.bits_inj_0. intros j.
    rewrite N.land_spec, N.pow2_bits_eqb. destruct (N.eqb_spec idx j) as [->|]; [by rewrite Hb|].
    apply andb_false_r.
Qed.

Lemma set_testbit b idx j : idx < 32 -> N.testbit (Bitmap.set b idx) j = N.testbit b j || (idx =? j).
Proof. intros Hi. unfold Bitmap.set. by rewrite u32_bit, N.lor_spec, N.pow2_bits_eqb by done. Qed.

Lemma clear_testbit b idx j : b < 2 ^ 32 -> N.testbit (Bitmap.clear b idx) j = N.testbit b j && negb (idx =? j).
Proof.
  intros Hb. unfold Bitmap.clear. rewrite N.land_spec, N.ldiff_spec, N.shiftl_1_l, N.pow2_bits_eqb.
  destruct (N.lt_ge_cases j 32).
  - rewrite N.ones_spec_low by done. done.
  - by rewrite (testbit_above b j 32).
Qed.

Lemma set_bound b idx : b < 2 ^ 32 -> idx < 32 -> Bitmap.set b idx < 2 ^ 32.
Proof.
  intros Hb Hi. apply lt_pow2_testbit. intros j Hj. rewrite set_testbit by done.
  rewrite (testbit_above b j 32) by done. simpl. apply N.eqb_neq. lia.
Qed.

Lemma clear_bound b idx : b < 2 ^ 32 -> Bitmap.clear b idx < 2 ^ 32.
Proof.
  intros Hb. apply lt_pow2_testbit. intros j Hj. rewrite clear_testbit by done.
  by rewrite (testbit_above b j 32).
Qed.

Lemma low_mask idx : idx < 32 -> N.ldiff (N.ones 32) (u32 (N.shiftl (N.ones 32) idx)) = N.ones idx.
Proof.
  intros Hi. apply N.bits_inj. intros j. rewrite N.ldiff_spec. unfold u32.
  destruct (N.lt_ge_cases j 32).
  - rewrite N.mod_pow2_bits_low, N.ones_spec_low, andb_true_l by done. destruct (N.lt_ge_cases j idx).
    + by rewrite N.shiftl_spec_low, N.ones_spec_low.
    + rewrite N.shiftl_spec_high', N.ones_spec_low by lia. by rewrite N.ones_spec_high.
  - rewrite !N.ones_spec_high by lia. done.
Qed.

(** A bitmap as a list of indices, around one of them. *)
Lemma bits_at b idx : b < 2 ^ 32 -> idx < 32 -> exists bl br,
  N.of_nat (length bl) = Bitmap.pop (N.land b (N.ones idx)) /\ (idx ∉ bl) /\ (idx ∉ br) /\
  bits b = (bl ++ (if N.testbit b idx then [idx] else []) ++ br)%list /\
  bits (Bitmap.set b idx) = (bl ++ idx :: br)%list /\ bits (Bitmap.clear b idx) = (bl ++ br)%list.
Proof.
  intros Hb Hi. set (i := N.to_nat idx).
  assert (indices 0 32 = indices 0 i ++ idx :: indices (S i) (31 - i))%list as Hsplit.
  { unfold indices. replace 32%nat with (i + S (31 - i))%nat by lia. rewrite seq_app, fmap_app. f_equal.
    cbn [seq fmap list_fmap Nat.add]. f_equal. lia. }
  exists (filter (is_set b) (indices 0 i)), (filter (is_set b) (indices (S i) (31 - i))).
  assert (forall from n c, (forall j, j ∈ indices from n -> is_set c j <-> is_set b j) ->
    filter (is_set c) (indices from n) = filter (is_set b) (indices from n)) as Hext
    by (intros; by apply filter_ext_in).
  split_and!.
  - rewrite (pop_bits _ i).
    + rewrite (Hext _ _ (N.land b (N.ones idx))); [done|]. intros j [_ Hj]%elem_of_indices. unfold is_set.
      rewrite N.land_spec, N.ones_spec_low by lia. by rewrite andb_true_r.
    + apply lt_pow2_testbit. intros j Hj. rewrite N.land_spec, N.ones_spec_high by lia. apply andb_false_r.
  - intros [_ [_ Hj]%elem_of_indices]%list_elem_of_filter. lia.
  - intros [_ [Hj _]%elem_of_indices]%list_elem_of_filter. lia.
  - unfold bits. rewrite Hsplit, filter_app, filter_cons. f_equal.
    case_decide as Hd; unfold is_set in Hd; [by rewrite Hd|]. by apply not_true_is_false in Hd as ->.
  - unfold bits. rewrite Hsplit, filter_app, filter_cons, decide_True.
    2:{ unfold is_set. rewrite set_testbit, N.eqb_refl by done. by rewrite orb_true_r. }
    rewrite !(Hext _ _ (Bitmap.set b idx)); [done|..]; intros j Hj%elem_of_indices; unfold is_set; rewrite set_testbit by done;
      (destruct (N.eqb_spec idx j); [lia|]); by rewrite orb_false_r.
  - unfold bits. rewrite Hsplit, filter_app, filter_cons, decide_False.
    2:{ unfold is_set. rewrite clear_testbit, N.eqb_refl by done. by rewrite andb_false_r. }
    rewrite !(Hext _ _ (Bitmap.clear b idx)); [done|..]; intros j Hj%elem_of_indices; unfold is_set; rewrite clear_testbit by done;
      (destruct (N.eqb_spec idx j); [lia|]); by rewrite andb_true_r.
Qed.

Lemma length_bits b : b < 2 ^ 32 -> N.of_nat (length (bits b)) = Bitmap.pop b.
Proof. intros Hb. symmetry. by apply pop_bits. Qed.

Lemma pop_le b : b < 2 ^ 32 -> Bitmap.pop b <= 32.
Proof.
  intros Hb. rewrite (pop_bits _ 32) by done.
  pose proof (length_filter (is_set b) (indices 0 32)) as Hl.
  unfold indices in Hl at 2. rewrite length_fmap, length_seq in Hl. lia.
Qed.

Lemma land_bound a b : a < 2 ^ 32 -> N.land a b < 2 ^ 32.
Proof.
  intros Ha. apply lt_pow2_testbit. intros i Hi. by rewrite N.land_spec, (testbit_above a i 32).
Qed.

Lemma compressed_idx_some nm dm idx : nm < 2 ^ 32 -> dm < 2 ^ 32 -> idx < 32 ->
  N.testbit nm idx || N.testbit dm idx = true -> (compressed_idx nm dm idx =? no_index) = false.
Proof.
  intros Hn Hd Hi Hb. apply N.eqb_neq. unfold compressed_idx. rewrite !check_testbit by done.
  destruct (N.testbit nm idx), (N.testbit dm idx); try done; cbn [negb andb]; unfold no_index;
    match goal with |- context [N.land _ ?m] =>
      pose proof (pop_le _ (land_bound nm m Hn)); pose proof (pop_le _ (land_bound dm m Hd)) end;
    pose proof (pop_le _ Hd); lia.
Qed.

Lemma compressed_idx_none nm dm idx : idx < 32 -> N.testbit nm idx = false -> N.testbit dm idx = false ->
  compressed_idx nm dm idx = no_index.
Proof. intros Hi Hn Hd. unfold compressed_idx. by rewrite !check_testbit, Hn, Hd. Qed.

Lemma compressed_idx_data nm dm idx (bl : list N) : idx < 32 -> N.testbit dm idx = true ->
  N.of_nat (length bl) = Bitmap.pop (N.land dm (N.ones idx)) ->
  compressed_idx nm dm idx = N.of_nat (length bl).
Proof.
  intros Hi Hd Hl. unfold compressed_idx. rewrite !check_testbit, Hd, low_mask by done.
  by rewrite andb_false_r.
Qed.

Lemma compressed_idx_node nm dm idx (bl : list N) : idx < 32 -> dm < 2 ^ 32 -> N.testbit dm idx = false ->
  N.testbit nm idx = true -> N.of_nat (length bl) = Bitmap.pop (N.land nm (N.ones idx)) ->
  compressed_idx nm dm idx = N.of_nat (length (bits dm) + length bl).
Proof.
  intros Hi Hb Hd Hn Hl. unfold compressed_idx. rewrite !check_testbit, Hd, Hn, low_mask by done. simpl.
  rewrite <- Hl, <- length_bits by done. lia.
Qed.

Lemma land_set_low b idx : idx < 32 -> N.land (Bitmap.set b idx) (N.ones idx) = N.land b (N.ones idx).
Proof.
  intros Hi. apply N.bits_inj. intros j. rewrite !N.land_spec, set_testbit by done.
  destruct (N.lt_ge_cases j idx).
  - destruct (N.eqb_spec idx j); [lia|]. by rewrite orb_false_r.
  - by rewrite N.ones_spec_high, !andb_false_r.
Qed.

Lemma disjoint_bit nm dm idx : N.land nm dm = 0 -> N.testbit dm idx = true -> N.testbit nm idx = false.
Proof.
  intros Hl Hd. assert (N.testbit (N.land nm dm) idx = false) as H by (by rewrite Hl, N.bits_0).
  rewrite N.land_spec, Hd in H. by rewrite andb_true_r in H.
Qed.

Lemma disjoint_intro nm dm : (forall i, N.testbit nm i = true -> N.testbit dm i = false) -> N.land nm dm = 0.
Proof.
  intros H. apply N.bits_inj_0. intros i. rewrite N.land_spec. specialize (H i).
  destruct (N.testbit nm i); [by rewrite H|done].
Qed.

(** ** Vectors *)

Lemma at_middle {A} (l1 l2 : list A) x : at_ (N.of_nat (length l1)) (l1 ++ x :: l2) = Ok x.
Proof. unfold at_. by rewrite Nat2N.id, list_lookup_middle. Qed.

Lemma insert_at_middle {A} (l1 l2 : list A) x :
  insert_at (N.of_nat (length l1)) x (l1 ++ l2) = Ok (l1 ++ x :: l2)%list.
Proof.
  unfold insert_at. rewrite length_app, Nat2N.id, take_app_length, drop_app_length.
  by destruct (N.ltb_spec (N.of_nat (length l1 + length l2)) (N.of_nat (length l1))); [lia|].
Qed.

Lemma erase_at_middle {A} (l1 l2 : list A) x :
  erase_at (N.of_nat (length l1)) (l1 ++ x :: l2) = Ok (l1 ++ l2)%list.
Proof.
  unfold erase_at. rewrite length_app, Nat2N.id, take_app_length. simpl length.
  destruct (N.leb_spec (N.of_nat (length l1 + S (length l2))) (N.of_nat (length l1))); [lia|].
  replace (S (length l1)) with (length (l1 ++ [x])) by (rewrite length_app; simpl; lia).
  change (x :: l2) with ([x] ++ l2)%list. by rewrite app_assoc, drop_app_length.
Qed.

Lemma insert_length {A} (l1 l2 : list A) x y : <[length l1 := y]> (l1 ++ x :: l2)%list = (l1 ++ y :: l2)%list.
Proof. by rewrite insert_app_r_alt, Nat.sub_diag. Qed.

Lemma insert_middle {A} (l1 l2 : list A) x y :
  <[N.to_nat (N.of_nat (length l1)) := y]> (l1 ++ x :: l2)%list = (l1 ++ y :: l2)%list.
Proof. rewrite Nat2N.id. apply insert_length. Qed.

(** ** Hashes *)

(** The bits of a hash that lead to a node at [depth]. *)
Definition path (depth h : N) : N := h mod 2 ^ (5 * depth).

Lemma mask_eq h d : mask h d = (h / 2 ^ (5 * d)) mod 32.
Proof.
  unfold mask. change index_mask with (N.ones 5). rewrite N.land_ones, N.shiftr_div_pow2.
  by rewrite (N.mul_comm d).
Qed.

Lemma mask_bound h d : mask h d < 32.
Proof. rewrite mask_eq. by apply N.mod_lt. Qed.

Lemma path_succ d h : path (d + 1) h = path d h + 2 ^ (5 * d) * mask h d.
Proof.
  unfold path. rewrite mask_eq. replace (5 * (d + 1)) with (5 * d + 5) by lia.
  rewrite N.pow_add_r. apply N.Div0.mod_mul_r.
Qed.

Lemma path_child d h p i :
  p < 2 ^ (5 * d) -> path (d + 1) h = p + 2 ^ (5 * d) * i -> path d h = p /\ mask h d = i.
Proof.
  intros Hp. rewrite path_succ. intros Heq.
  assert (path d h < 2 ^ (5 * d)) as Hq by (apply N.mod_lt; by apply N.pow_nonzero).
  assert (2 ^ (5 * d) <> 0) by (by apply N.pow_nonzero).
  destruct (N.lt_trichotomy (mask h d) i) as [Hlt|[<-|Hlt]]; [nia|lia|nia].
Qed.

Lemma child_bound d p i : p < 2 ^ (5 * d) -> i < 32 -> p + 2 ^ (5 * d) * i < 2 ^ (5 * (d + 1)).
Proof.
  intros Hp Hi. replace (5 * (d + 1)) with (5 * d + 5) by lia. rewrite N.pow_add_r.
  change (2 ^ 5) with 32. nia.
Qed.

Lemma depth_of_succ h : (S h <= root_height)%nat -> depth_of h = depth_of (S h) + 1.
Proof. intros Hh. unfold depth_of. change root_height with 6%nat in Hh. change collision_depth with 6. lia. Qed.

Lemma elem_of_concat {A} (x : A) ls : x ∈ concat ls <-> exists l, x ∈ l /\ l ∈ ls.
Proof. rewrite list_elem_of_In, in_concat. setoid_rewrite list_elem_of_In. naive_solver. Qed.

Section spec.
Context {K V : Type} `{EqDecision K} (H : K -> N) (key_size : K -> N) (value_size : V -> N).

Abbreviation Node := (@Node K V).
Abbreviation hash := (hash H).
Abbreviation entry_size := (entry_size key_size value_size).
Abbreviation put_mut := (put_mut H key_size value_size).
Abbreviation remove_mut := (remove_mut key_size value_size).
Implicit Types (k : K) (v : V) (n : Node).

(** ** The contents of a node and when it is well formed *)

Fixpoint elems (height : nat) (n : Node) : list (K * V) :=
  match height, n with
  | _, Entry k v => [(k, v)]
  | O, Collisions bins => concat bins
  | S height, SubNodes nodes _ _ => concat (elems height <$> nodes)
  | _, _ => []
  end.

Definition child_path (height : nat) (p i : N) : N := p + 2 ^ (5 * depth_of height) * i.

(** An entry at index [i] of a node reached by [p]. *)
Definition entry_at (height : nat) (p i : N) (n : Node) : Prop :=
  exists k v, n = Entry k v /\ path (depth_of height) (hash k) = p /\ mask (hash k) (depth_of height) = i.

Definition bin_ok (p : N) (j : nat) (bin : list (K * V)) : Prop :=
  NoDup bin.*1 /\
  Forall (fun e => path collision_depth (hash e.1) = p /\ mask (hash e.1) collision_depth = N.of_nat j) bin.

Fixpoint wf (height : nat) (p : N) (n : Node) : Prop :=
  match height, n with
  | O, Collisions bins => length bins = N.to_nat collision_bins /\ forall j bin, bins !! j = Some bin -> bin_ok p j bin
  | S height', SubNodes nodes node_map data_map =>
      node_map < 2 ^ 32 /\ data_map < 2 ^ 32 /\ N.land node_map data_map = 0 /\
      exists ens subs, nodes = (ens ++ subs)%list /\
        Forall2 (entry_at height p) (bits data_map) ens /\
        Forall2 (fun i => wf height' (child_path height p i)) (bits node_map) subs
  | _, _ => False
  end.

Definition path_ok (height : nat) (p : N) : Prop :=
  (height <= root_height)%nat /\ p < 2 ^ (5 * depth_of height).

Lemma path_ok_child h p i : path_ok (S h) p -> i < 32 -> path_ok h (child_path (S h) p i).
Proof.
  intros [Hh Hp] Hi. split; [lia|]. rewrite (depth_of_succ h) by done. by apply child_bound.
Qed.

Lemma bits_bound b i : i ∈ bits b -> i < 32.
Proof. intros [_ [_ Hi]%elem_of_indices]%list_elem_of_filter. lia. Qed.

(** Every key of a node is reached through it. *)
Lemma elems_path h p n e : path_ok h p -> wf h p n -> e ∈ elems h n -> path (depth_of h) (hash e.1) = p.
Proof.
  revert p n. induction h as [|h IH]; intros p [k v|nodes nm dm|bins] Hp; try done.
  - intros [_ Hb] (bin & He & [j Hj]%list_elem_of_lookup)%elem_of_concat.
    destruct (Hb j bin Hj) as [_ Hall]. rewrite Forall_forall in Hall. by apply (Hall e).
  - intros (_ & _ & _ & ens & subs & -> & He & Hs). cbn [elems].
    intros (l & Hl & (n & -> & Hn)%list_elem_of_fmap)%elem_of_concat.
    apply elem_of_app in Hn as [[j Hj]%list_elem_of_lookup|[j Hj]%list_elem_of_lookup].
    + destruct (Forall2_lookup_r _ _ _ _ _ He Hj) as (i & Hi & k & v & -> & Hk & _).
      destruct h; simpl in Hl; by apply list_elem_of_singleton in Hl as ->.
    + destruct (Forall2_lookup_r _ _ _ _ _ Hs Hj) as (i & Hi & Hw).
      apply list_elem_of_lookup_2, bits_bound in Hi.
      pose proof (IH _ _ (path_ok_child h p i Hp Hi) Hw Hl) as Heq.
      rewrite (depth_of_succ h) in Heq by apply Hp. by apply path_child in Heq as [? _]; [|apply Hp].
Qed.

Lemma entry_mask h p i n e :
  entry_at (S h) p i n -> e ∈ elems h n -> mask (hash e.1) (depth_of (S h)) = i.
Proof.
  intros (k & v & -> & _ & Hm) He. destruct h; simpl in He; by apply list_elem_of_singleton in He as ->.
Qed.

Lemma sub_mask h p i n e : path_ok (S h) p -> i < 32 ->
  wf h (child_path (S h) p i) n -> e ∈ elems h n -> mask (hash e.1) (depth_of (S h)) = i.
Proof.
  intros Hp Hi Hw He. pose proof (elems_path _ _ _ _ (path_ok_child h p i Hp Hi) Hw He) as Heq.
  rewrite (depth_of_succ h) in Heq by apply Hp. by apply path_child in Heq as [_ ?]; [|apply Hp].
Qed.

(** A key is not under the children at other indices. *)
Definition absent (h : nat) (k : K) (l : list Node) : Prop := k ∉ (concat (elems h <$> l)).*1.

Lemma absent_others h (P : N -> Node -> Prop) il l k :
  Forall2 P il l -> (forall i n e, i ∈ il -> P i n -> e ∈ elems h n -> mask (hash e.1) (depth_of (S h)) = i) ->
  mask (hash k) (depth_of (S h)) ∉ il -> absent h k l.
Proof.
  intros HP Hm Hk ([k' v] & -> & (x & Hx & (n & -> & Hn)%list_elem_of_fmap)%elem_of_concat)%list_elem_of_fmap.
  apply list_elem_of_lookup in Hn as [j Hj]. destruct (Forall2_lookup_r _ _ _ _ _ HP Hj) as (i & Hi & Hin).
  apply list_elem_of_lookup_2 in Hi. apply Hk. by rewrite <- (Hm i n (k', v) Hi Hin Hx) in Hi.
Qed.

Definition opt_idx (b : N) (idx : N) : list N := if N.testbit b idx then [idx] else [].

(** A node around the index of a key. *)
Record view (h : nat) (p : N) (k : K) (nodes : list Node) (nm dm : N) (bl br bl' br' : list N)
    (e1 x e2 s1 y s2 : list Node) : Prop := mkView {
  view_nodes : nodes = ((e1 ++ x ++ e2) ++ s1 ++ y ++ s2)%list;
  view_e1 : Forall2 (entry_at (S h) p) bl e1;
  view_x : Forall2 (entry_at (S h) p) (opt_idx dm (mask (hash k) (depth_of (S h)))) x;
  view_e2 : Forall2 (entry_at (S h) p) br e2;
  view_s1 : Forall2 (fun i => wf h (child_path (S h) p i)) bl' s1;
  view_y : Forall2 (fun i => wf h (child_path (S h) p i)) (opt_idx nm (mask (hash k) (depth_of (S h)))) y;
  view_s2 : Forall2 (fun i => wf h (child_path (S h) p i)) br' s2;
  view_absent : absent h k e1 /\ absent h k e2 /\ absent h k s1 /\ absent h k s2;
}.

Lemma node_view h p k nodes nm dm :
  path_ok (S h) p -> wf (S h) p (SubNodes nodes nm dm) ->
  let idx := mask (hash k) (depth_of (S h)) in
  exists bl br bl' br' e1 x e2 s1 y s2, view h p k nodes nm dm bl br bl' br' e1 x e2 s1 y s2 /\
    N.of_nat (length bl) = Bitmap.pop (N.land dm (N.ones idx)) /\
    bits dm = (bl ++ opt_idx dm idx ++ br)%list /\
    bits (Bitmap.set dm idx) = (bl ++ idx :: br)%list /\ bits (Bitmap.clear dm idx) = (bl ++ br)%list /\
    N.of_nat (length bl') = Bitmap.pop (N.land nm (N.ones idx)) /\
    bits nm = (bl' ++ opt_idx nm idx ++ br')%list /\ bits (Bitmap.set nm idx) = (bl' ++ idx :: br')%list.
Proof.
  intros Hp (Hn & Hd & Hdis & ens & subs & -> & He & Hs) idx.
  assert (idx < 32) as Hi by apply mask_bound.
  destruct (bits_at dm idx Hd Hi) as (bl & br & L & N1 & N2 & B & Bs & Bc).
  destruct (bits_at nm idx Hn Hi) as (bl' & br' & L' & N1' & N2' & B' & Bs' & _).
  change (if N.testbit dm idx then [idx] else []) with (opt_idx dm idx) in B.
  change (if N.testbit nm idx then [idx] else []) with (opt_idx nm idx) in B'.
  pose proof He as He0. pose proof Hs as Hs0. rewrite B in He. rewrite B' in Hs.
  apply Forall2_app_inv_l in He as (e1 & l & H1 & (x & e2 & H2 & H3 & ->)%Forall2_app_inv_l & ->).
  apply Forall2_app_inv_l in Hs as (s1 & l & H4 & (y & s2 & H5 & H6 & ->)%Forall2_app_inv_l & ->).
  exists bl, br, bl', br', e1, x, e2, s1, y, s2. split_and!; try done. split; try done.
  assert (forall i, i ∈ bl' \/ i ∈ br' -> i < 32) as Hb.
  { intros i Hi'. apply (bits_bound nm). rewrite B', !elem_of_app. naive_solver. }
  split_and!; (eapply absent_others; [eassumption| |eassumption]); intros i n e Hil;
    (eapply entry_mask || (eapply sub_mask; [done|apply Hb; eauto])).
Qed.

(** ** What the operations do to a node *)

Definition olds (k : K) (old : option V) : list (K * V) :=
  match old with Some v => [(k, v)] | None => [] end.
Definition old_size (k : K) (old : option V) : N :=
  match old with Some v => entry_size (k, v) | None => 0 end.

(** [es] holds [old] for [k], and [l] for the other keys. *)
Definition splits (k : K) (old : option V) (l es : list (K * V)) : Prop :=
  es ≡ₚ olds k old ++ l /\ k ∉ l.*1.

Record node_ops (h : nat) (p : N) (n : Node) (k : K) (old : option V) (l : list (K * V)) : Prop := mkNodeOps {
  no_splits : splits k old l (elems h n);
  no_get : getp h (hash k) k n = Ok old;
  no_put : forall v, exists n', put_mut h (hash k) k v n = Ok (n', old_size k old) /\
    wf h p n' /\ elems h n' ≡ₚ (k, v) :: l;
  no_remove : exists n', remove_mut h (hash k) k n = Ok (n', old_size k old) /\
    wf h p n' /\ elems h n' ≡ₚ l;
}.

(** *** Collisions *)

Lemma bin_find_Some k bin i v : bin_find k bin = Some (i, v) ->
  exists l1 l2, bin = (l1 ++ (k, v) :: l2)%list /\ length l1 = i.
Proof.
  revert i. induction bin as [|[k' v'] bin IH]; intros i; simpl; [done|].
  case_decide as Hk; [intros [= <- <-]; subst k'; by exists [], bin|].
  destruct (bin_find k bin) as [[j w]|]; simpl; [|done]. intros [= <- <-].
  destruct (IH j eq_refl) as (l1 & l2 & -> & <-). by exists ((k', v') :: l1), l2.
Qed.

Lemma bin_find_None k bin : bin_find (V := V) k bin = None -> k ∉ bin.*1.
Proof.
  induction bin as [|[k' v'] bin IH]; simpl; [intros _; apply not_elem_of_nil|].
  case_decide as Hk; [done|]. destruct (bin_find k bin) as [[j w]|]; simpl; [done|].
  intros _. apply not_elem_of_cons. auto.
Qed.

Lemma collisions_mask k : mask (hash k) collision_depth < collision_bins.
Proof.
  rewrite mask_eq. change collision_depth with 6. change collision_bins with 4.
  assert (hash k < 2 ^ 32) as Hk by (apply N.mod_lt; done).
  assert (hash k / 2 ^ (5 * 6) < 4) as Hd by (apply N.Div0.div_lt_upper_bound; simpl; simpl in Hk; lia).
  rewrite N.mod_small by lia. done.
Qed.

Lemma bins_around p bins k :
  wf 0 p (Collisions bins) -> let j := N.to_nat (mask (hash k) collision_depth) in
  exists b1 bin b2, bins = (b1 ++ bin :: b2)%list /\ length b1 = j /\ bin_ok p j bin /\
    (k ∉ (concat b1).*1) /\ (k ∉ (concat b2).*1).
Proof.
  intros [Hl Hb]. cbn zeta. pose proof (collisions_mask k) as Hm.
  remember (N.to_nat (mask (hash k) collision_depth)) as j eqn:Ej.
  destruct (lookup_lt_is_Some_2 bins j) as [bin Hj]; [lia|].
  exists (take j bins), bin, (drop (S j) bins). rewrite (take_drop_middle _ _ _ Hj).
  split_and!; [done|rewrite length_take; lia|by apply Hb|..];
    intros ([k' v] & -> & (b & Hbin & [i Hi]%list_elem_of_lookup)%elem_of_concat)%list_elem_of_fmap; simpl in Ej.
  - apply lookup_take_Some in Hi as [Hi Hij]. destruct (Hb i b Hi) as [_ Hall].
    rewrite Forall_forall in Hall. destruct (Hall _ Hbin) as [_ Hx]. simpl in Hx. lia.
  - rewrite lookup_drop in Hi. destruct (Hb _ b Hi) as [_ Hall].
    rewrite Forall_forall in Hall. destruct (Hall _ Hbin) as [_ Hx]. simpl in Hx. lia.
Qed.

Lemma wf_bins p b1 bin bin' b2 : wf 0 p (Collisions (b1 ++ bin :: b2)) -> bin_ok p (length b1) bin' ->
  wf 0 p (Collisions (b1 ++ bin' :: b2)).
Proof.
  intros [Hl Hb] Hbin. split; [by rewrite length_app in *|]. intros j b Hj.
  destruct (decide (j = length b1)) as [->|Hne].
  - by rewrite list_lookup_middle in Hj by done; simplify_eq.
  - apply Hb. apply lookup_app_Some in Hj as [Hj|[Hge Hj]]; [by apply lookup_app_l_Some|].
    rewrite lookup_app_r by done. destruct (j - length b1)%nat eqn:E; [lia|done].
Qed.

Lemma elems_bins b1 b b2 : elems 0 (Collisions (b1 ++ b :: b2)) ≡ₚ b ++ concat b1 ++ concat b2.
Proof. simpl. rewrite concat_app. simpl. solve_Permutation. Qed.

Lemma collisions_found p b1 b2 l1 l2 k v0 : wf 0 p (Collisions (b1 ++ (l1 ++ (k, v0) :: l2) :: b2)) ->
  mask (hash k) collision_depth = N.of_nat (length b1) ->
  bin_find k (l1 ++ (k, v0) :: l2) = Some (length l1, v0) ->
  bin_ok p (length b1) (l1 ++ (k, v0) :: l2) -> k ∉ (concat b1).*1 -> k ∉ (concat b2).*1 ->
  node_ops 0 p (Collisions (b1 ++ (l1 ++ (k, v0) :: l2) :: b2)) k (Some v0) (l1 ++ l2 ++ concat b1 ++ concat b2).
Proof.
  intros Hw Hm Hf [Hnd Hall] A1 A2.
  rewrite fmap_app, fmap_cons, NoDup_app in Hnd. destruct Hnd as (Hn1 & Hn2 & [Hn3 Hn4]%NoDup_cons).
  assert (k ∉ l1.*1) as Hk1 by (intros Hk; apply (Hn2 k Hk); left).
  apply Forall_app in Hall as [F1 F2]. inversion F2 as [|?? F3 F4]; subst. split.
  - split; [rewrite elems_bins; simpl; solve_Permutation|]. rewrite !fmap_app, !not_elem_of_app. done.
  - cbn [getp]. unfold collisions_getp. rewrite Hm, at_middle. cbn [rbind]. by rewrite Hf.
  - intros v. exists (Collisions (b1 ++ (l1 ++ (k, v) :: l2) :: b2)). split_and!.
    + cbn [Champ.put_mut]. unfold collisions_put_mut. rewrite Hm, at_middle. cbn [rbind]. rewrite Hf.
      cbn [rbind fst snd]. by rewrite insert_middle, (insert_length l1).
    + eapply wf_bins; [exact Hw|]. split.
      * rewrite fmap_app, fmap_cons, NoDup_app. split_and!; [done|done|]. by apply NoDup_cons.
      * apply Forall_app. split; [done|]. by constructor.
    + rewrite elems_bins. solve_Permutation.
  - exists (Collisions (b1 ++ (l1 ++ l2) :: b2)). split_and!.
    + cbn [Champ.remove_mut]. unfold collisions_remove_mut. rewrite Hm, at_middle. cbn [rbind]. rewrite Hf.
      cbn [rbind fst snd]. rewrite insert_middle, take_app_length.
      change ((k, v0) :: l2) with ([(k, v0)] ++ l2)%list. rewrite app_assoc.
      replace (S (length l1)) with (length (l1 ++ [(k, v0)])) by (rewrite length_app; simpl; lia).
      by rewrite drop_app_length.
    + eapply wf_bins; [exact Hw|]. split; [|by apply Forall_app].
      rewrite fmap_app, NoDup_app. split_and!; [done| |done].
      intros x Hx Hx'. apply (Hn2 x Hx). by right.
    + rewrite elems_bins. solve_Permutation.
Qed.

Lemma collisions_not_found p b1 bin b2 k : path collision_depth (hash k) = p ->
  wf 0 p (Collisions (b1 ++ bin :: b2)) -> mask (hash k) collision_depth = N.of_nat (length b1) ->
  bin_find k bin = None -> bin_ok p (length b1) bin -> k ∉ (concat b1).*1 -> k ∉ (concat b2).*1 ->
  node_ops 0 p (Collisions (b1 ++ bin :: b2)) k None (bin ++ concat b1 ++ concat b2).
Proof.
  intros Hp Hw Hm Hf [Hnd Hall] A1 A2. pose proof (bin_find_None _ _ Hf) as Hk. split.
  - split; [by rewrite elems_bins|]. rewrite !fmap_app, !not_elem_of_app. done.
  - cbn [getp]. unfold collisions_getp. rewrite Hm, at_middle. cbn [rbind]. by rewrite Hf.
  - intros v. exists (Collisions (b1 ++ (bin ++ [(k, v)]) :: b2)). split_and!.
    + cbn [Champ.put_mut]. unfold collisions_put_mut. rewrite Hm, at_middle. cbn [rbind]. rewrite Hf.
      cbn [rbind fst snd]. by rewrite insert_middle.
    + eapply wf_bins; [exact Hw|]. split.
      * rewrite fmap_app, NoDup_app. split_and!; [done| |apply NoDup_singleton].
        intros x Hx ->%list_elem_of_singleton. done.
      * apply Forall_app. split; [done|]. by repeat constructor.
    + rewrite elems_bins. solve_Permutation.
  - exists (Collisions (b1 ++ bin :: b2)). split_and!; [|done|by rewrite elems_bins].
    cbn [Champ.remove_mut]. unfold collisions_remove_mut. rewrite Hm, at_middle. cbn [rbind]. by rewrite Hf.
Qed.

Lemma collisions_ops p bins k : path collision_depth (hash k) = p -> wf 0 p (Collisions bins) ->
  exists old l, node_ops 0 p (Collisions bins) k old l.
Proof.
  intros Hp Hw. destruct (bins_around p bins k Hw) as (b1 & bin & b2 & -> & Hj & Hbin & A1 & A2).
  assert (mask (hash k) collision_depth = N.of_nat (length b1)) as Hm by lia. rewrite <- Hj in Hbin.
  destruct (bin_find k bin) as [[i v0]|] eqn:Hf.
  - destruct (bin_find_Some _ _ _ _ Hf) as (l1 & l2 & -> & <-). do 2 eexists. by apply collisions_found.
  - do 2 eexists. by apply collisions_not_found.
Qed.

(** *** Sub-nodes *)

Abbreviation contents h l := (concat (elems h <$> l)).

Lemma contents_app h l1 l2 : contents h (l1 ++ l2) = (contents h l1 ++ contents h l2)%list.
Proof. by rewrite fmap_app, concat_app. Qed.

Lemma elems_sub h nodes nm dm : elems (S h) (SubNodes nodes nm dm) = contents h nodes.
Proof. done. Qed.

Lemma elems_entry h k v : elems h (Entry k v) = [(k, v)].
Proof. by destruct h. Qed.

Lemma contents_cons h n l : contents h (n :: l) = (elems h n ++ contents h l)%list.
Proof. done. Qed.

Lemma splits_none k l : k ∉ l.*1 -> splits k None l l.
Proof. done. Qed.

(** No child at the index of the key. *)
Lemma absent_ops h p k nodes nm dm : path_ok (S h) p -> path (depth_of (S h)) (hash k) = p ->
  wf (S h) p (SubNodes nodes nm dm) ->
  N.testbit nm (mask (hash k) (depth_of (S h))) = false -> N.testbit dm (mask (hash k) (depth_of (S h))) = false ->
  node_ops (S h) p (SubNodes nodes nm dm) k None (contents h nodes).
Proof.
  intros Hok Hp Hw Hn Hd. pose proof (mask_bound (hash k) (depth_of (S h))) as Hi.
  destruct (node_view h p k nodes nm dm Hok Hw)
    as (bl & br & bl' & br' & e1 & x & e2 & s1 & y & s2 & Hv & L & B & Bs & _ & L' & B' & _).
  set (idx := mask (hash k) (depth_of (S h))) in *.
  destruct Hv as [-> E1 X E2 S1 Y S2 (A1 & A2 & A3 & A4)].
  unfold opt_idx in X, Y, B, B'. fold idx in X, Y. rewrite Hd in X, B. rewrite Hn in Y, B'.
  inversion X; inversion Y; subst x y. cbn [app] in B, B', Hw |- *.
  pose proof (compressed_idx_none nm dm idx Hi Hn Hd) as Hc. split.
  - rewrite elems_sub. apply splits_none. unfold absent in *. rewrite !contents_app, !fmap_app, !not_elem_of_app. done.
  - cbn [getp]. fold idx. by rewrite Hc.
  - intros v. exists (SubNodes ((e1 ++ Entry k v :: e2) ++ s1 ++ s2) nm (Bitmap.set dm idx)). split_and!.
    + cbn [Champ.put_mut]. fold idx. rewrite Hc, N.eqb_refl.
      rewrite (compressed_idx_data nm _ idx bl); [|done|rewrite set_testbit, N.eqb_refl by done; apply orb_true_r|
                                                   by rewrite land_set_low].
      rewrite (Forall2_length _ _ _ E1), <- !app_assoc, insert_at_middle. done.
    + destruct Hw as (Hnb & Hdb & Hdis & _). split_and!; [done|by apply set_bound| |].
      * apply disjoint_intro. intros i Hni. rewrite set_testbit by done.
        destruct (N.eqb_spec idx i) as [<-|]; [congruence|].
        rewrite orb_false_r. destruct (N.testbit dm i) eqn:Hdi; [|done].
        by rewrite (disjoint_bit nm dm i) in Hni.
      * exists (e1 ++ Entry k v :: e2)%list, (s1 ++ s2)%list. split_and!; [done| |].
        -- rewrite Bs. apply Forall2_app; [done|]. constructor; [by exists k, v|done].
        -- rewrite B'. by apply Forall2_app.
    + rewrite elems_sub, !contents_app, contents_cons, elems_entry. solve_Permutation.
  - exists (SubNodes ((e1 ++ e2) ++ s1 ++ s2) nm dm). split_and!; [|exact Hw|done].
    cbn [Champ.remove_mut]. fold idx. by rewrite Hc.
Qed.

(** A sub-node at the index of the key. *)
Lemma sub_node_ops h p k nodes nm dm : path_ok (S h) p ->
  wf (S h) p (SubNodes nodes nm dm) -> N.testbit nm (mask (hash k) (depth_of (S h))) = true ->
  (forall n, wf h (child_path (S h) p (mask (hash k) (depth_of (S h)))) n ->
     exists old l, node_ops h (child_path (S h) p (mask (hash k) (depth_of (S h)))) n k old l) ->
  exists old l, node_ops (S h) p (SubNodes nodes nm dm) k old l.
Proof.
  intros Hok Hw Hn IH. pose proof (mask_bound (hash k) (depth_of (S h))) as Hi.
  destruct (node_view h p k nodes nm dm Hok Hw)
    as (bl & br & bl' & br' & e1 & x & e2 & s1 & y & s2 & Hv & L & B & _ & _ & L' & B' & _).
  set (idx := mask (hash k) (depth_of (S h))) in *.
  destruct Hv as [-> E1 X E2 S1 Y S2 (A1 & A2 & A3 & A4)].
  unfold opt_idx in X, Y, B, B'. fold idx in X, Y.
  assert (N.testbit dm idx = false) as Hd.
  { destruct Hw as (_ & _ & Hdis & _). apply (disjoint_bit dm nm); [by rewrite N.land_comm|done]. }
  rewrite Hd in X, B. rewrite Hn in Y, B'. inversion X; subst x. cbn [app] in B, B', Hw |- *.
  inversion Y as [|?? ? ? Hsub Y']; inversion Y'; subst. fold idx in Hsub. rename y0 into n. clear X Y Y'. cbn [app] in *.
  destruct (IH n Hsub) as (old & l & [[Hs Hl] Hg Hput Hrem]). exists old, (contents h (e1 ++ e2 ++ s1 ++ s2) ++ l)%list.
  destruct Hw as (Hnb & Hdb & Hdis & _).
  pose proof (compressed_idx_node nm dm idx bl' Hi Hdb Hd Hn L') as Hc.
  rewrite B, length_app, (Forall2_length _ _ _ E1), (Forall2_length _ _ _ E2), (Forall2_length _ _ _ S1) in Hc.
  assert (compressed_idx nm dm idx = N.of_nat (length ((e1 ++ e2) ++ s1))) as Hc' by (rewrite Hc, !length_app; done).
  assert ((compressed_idx nm dm idx =? no_index) = false) as Hne by (by apply compressed_idx_some; rewrite ?Hn).
  assert (((e1 ++ e2) ++ s1 ++ n :: s2) = (((e1 ++ e2) ++ s1) ++ n :: s2))%list as Eq by apply app_assoc.
  assert (forall n', wf h (child_path (S h) p idx) n' ->
    wf (S h) p (SubNodes (((e1 ++ e2) ++ s1) ++ n' :: s2) nm dm)) as Hwf.
  { intros n' Hn'. split_and!; try done. exists (e1 ++ e2)%list, (s1 ++ n' :: s2)%list.
    split_and!; [symmetry; apply app_assoc|rewrite B; by apply Forall2_app|rewrite B'].
    apply Forall2_app; [done|by constructor]. }
  split.
  - split.
    + rewrite elems_sub, !contents_app, contents_cons, Hs. solve_Permutation.
    + unfold absent in *. rewrite !contents_app, !fmap_app, !not_elem_of_app. done.
  - cbn [getp]. fold idx. rewrite Hne, Eq, Hc', at_middle. cbn [rbind]. by rewrite check_testbit, Hd.
  - intros v. destruct (Hput v) as (n' & Hpm & Hw' & He'). eexists. split_and!; [| |].
    + cbn [Champ.put_mut]. fold idx. rewrite Hne, Eq, Hc', at_middle. cbn [rbind].
      rewrite check_testbit, Hn, Hpm by done. cbn [rbind fst snd]. rewrite insert_middle. done.
    + by apply Hwf.
    + rewrite elems_sub, !contents_app, contents_cons, He'. solve_Permutation.
  - destruct Hrem as (n' & Hrm & Hw' & He'). eexists. split_and!; [| |].
    + cbn [Champ.remove_mut]. fold idx. rewrite Hne, Eq, Hc', at_middle. cbn [rbind].
      rewrite check_testbit, Hd, Hrm by done. cbn [rbind fst snd]. rewrite insert_middle. done.
    + by apply Hwf.
    + rewrite elems_sub, !contents_app, contents_cons, He'. solve_Permutation.
Qed.

(** The node that an entry and a new key with its index become. *)
Definition splits_entry (h : nat) (p : N) (k : K) (key0 : K) (v0 : V) : Prop :=
  forall v, exists n', split_node H (put_mut h (hash k) k v) h (hash k) k v key0 v0 = Ok n' /\
    wf h p n' /\ elems h n' ≡ₚ [(key0, v0); (k, v)].

(** An entry at the index of the key: what the node holds around it, and the
    nodes that the operations turn it into. *)
Record entry_view (h : nat) (p idx : N) (k : K) (nm dm : N) (e1 e2 s1 s2 : list Node) (key0 : K) (v0 : V)
    : Prop := mkEntryView {
  ev_path : path (depth_of (S h)) (hash key0) = p;
  ev_mask : mask (hash key0) (depth_of (S h)) = idx;
  ev_bits : N.testbit dm idx = true /\ N.testbit nm idx = false;
  ev_some : (compressed_idx nm dm idx =? no_index) = false;
  ev_pos : compressed_idx nm dm idx = N.of_nat (length e1);
  ev_absent : k ∉ (contents h ((e1 ++ e2) ++ s1 ++ s2)).*1;
  ev_put : forall k1 v1, path (depth_of (S h)) (hash k1) = p -> mask (hash k1) (depth_of (S h)) = idx ->
    wf (S h) p (SubNodes ((e1 ++ Entry k1 v1 :: e2) ++ s1 ++ s2) nm dm);
  ev_clear : wf (S h) p (SubNodes ((e1 ++ e2) ++ s1 ++ s2) nm (Bitmap.clear dm idx));
  ev_sub : forall n, wf h (child_path (S h) p idx) n ->
    wf (S h) p (SubNodes ((e1 ++ e2) ++ s1 ++ n :: s2) (Bitmap.set nm idx) (Bitmap.clear dm idx));
  ev_sub_pos : compressed_idx (Bitmap.set nm idx) (Bitmap.clear dm idx) idx =
    N.of_nat (length ((e1 ++ e2) ++ s1));
}.

Lemma entry_node_view h p k nodes nm dm : path_ok (S h) p -> wf (S h) p (SubNodes nodes nm dm) ->
  N.testbit dm (mask (hash k) (depth_of (S h))) = true ->
  exists e1 e2 s1 s2 key0 v0, nodes = ((e1 ++ Entry key0 v0 :: e2) ++ s1 ++ s2)%list /\
    entry_view h p (mask (hash k) (depth_of (S h))) k nm dm e1 e2 s1 s2 key0 v0.
Proof.
  intros Hok Hw Hd. pose proof (mask_bound (hash k) (depth_of (S h))) as Hi.
  destruct (node_view h p k nodes nm dm Hok Hw)
    as (bl & br & bl' & br' & e1 & x & e2 & s1 & y & s2 & Hv & L & B & _ & Bc & L' & B' & Bs').
  set (idx := mask (hash k) (depth_of (S h))) in *.
  destruct Hv as [-> E1 X E2 S1 Y S2 (A1 & A2 & A3 & A4)].
  unfold opt_idx in X, Y, B, B'. fold idx in X, Y.
  destruct Hw as (Hnb & Hdb & Hdis & _).
  assert (N.testbit nm idx = false) as Hn by (by apply (disjoint_bit nm dm)).
  rewrite Hd in X, B. rewrite Hn in Y, B'. inversion Y; subst y. clear Y.
  inversion X as [|? n ? ? Hent X']; inversion X'; subst x. clear X X'. cbn [app] in *.
  destruct Hent as (key0 & v0 & -> & Hp0 & Hm0).
  exists e1, e2, s1, s2, key0, v0. split; [done|]. split; try done.
  - apply compressed_idx_some; [done..|rewrite Hd; apply orb_true_r].
  - rewrite (compressed_idx_data nm dm idx bl Hi Hd L). by rewrite (Forall2_length _ _ _ E1).
  - unfold absent in *. rewrite !contents_app, !fmap_app, !not_elem_of_app. done.
  - intros k1 v1 Hp1 Hm1. split_and!; try done. exists (e1 ++ Entry k1 v1 :: e2)%list, (s1 ++ s2)%list.
    split_and!; [done|rewrite B|rewrite B'; by apply Forall2_app].
    apply Forall2_app; [done|]. constructor; [by exists k1, v1|done].
  - split_and!; [done|by apply clear_bound| |].
    + apply disjoint_intro. intros i Hni. rewrite clear_testbit by done.
      destruct (N.testbit dm i) eqn:Hdi; [|done]. by rewrite (disjoint_bit nm dm i) in Hni.
    + exists (e1 ++ e2)%list, (s1 ++ s2)%list. rewrite Bc, B'. split_and!; [done|by apply Forall2_app..].
  - intros n Hn'. split_and!; [by apply set_bound|by apply clear_bound| |].
    + apply disjoint_intro. intros i. rewrite set_testbit, clear_testbit by done.
      destruct (N.eqb_spec idx i) as [|]; [by rewrite andb_false_r|]. rewrite orb_false_r, andb_true_r.
      intros Hni. destruct (N.testbit dm i) eqn:Hdi; [|done]. by rewrite (disjoint_bit nm dm i) in Hni.
    + exists (e1 ++ e2)%list, (s1 ++ n :: s2)%list. rewrite Bc, Bs'.
      split_and!; [done|by apply Forall2_app|]. apply Forall2_app; [done|by constructor].
  - rewrite (compressed_idx_node _ _ idx bl');
      [|done|by apply clear_bound|rewrite clear_testbit, N.eqb_refl by done; apply andb_false_r|
       rewrite set_testbit, N.eqb_refl by done; apply orb_true_r|by rewrite land_set_low].
    by rewrite Bc, !length_app, (Forall2_length _ _ _ E1), (Forall2_length _ _ _ E2), (Forall2_length _ _ _ S1).
Qed.

(** The entry is that of the key. *)
Lemma entry_same_ops h p k nm dm e1 e2 s1 s2 v0 : path (depth_of (S h)) (hash k) = p ->
  entry_view h p (mask (hash k) (depth_of (S h))) k nm dm e1 e2 s1 s2 k v0 ->
  node_ops (S h) p (SubNodes ((e1 ++ Entry k v0 :: e2) ++ s1 ++ s2) nm dm) k (Some v0)
    (contents h ((e1 ++ e2) ++ s1 ++ s2)).
Proof.
  intros Hp [_ _ [Hd Hn] Hne Hc Habs Hput Hclear _ _]. pose proof (mask_bound (hash k) (depth_of (S h))) as Hi.
  set (idx := mask (hash k) (depth_of (S h))) in *.
  assert (forall n', (e1 ++ n' :: e2) ++ s1 ++ s2 = e1 ++ n' :: e2 ++ s1 ++ s2)%list as Eq
    by (intros n'; by rewrite <- app_assoc).
  split.
  - split; [|done]. rewrite elems_sub, !contents_app, contents_cons, elems_entry. simpl. solve_Permutation.
  - cbn [getp]. fold idx. rewrite Hne, Eq, Hc, at_middle. cbn [rbind]. by rewrite check_testbit, Hd, decide_True.
  - intros v. eexists. split_and!; [|exact (Hput k v Hp eq_refl)|].
    + cbn [Champ.put_mut]. fold idx. rewrite Hne, !Eq, Hc, at_middle. cbn [rbind].
      by rewrite check_testbit, Hn, decide_True, insert_middle by done.
    + rewrite elems_sub, !contents_app, contents_cons, elems_entry. solve_Permutation.
  - eexists. split_and!; [|exact Hclear|done].
    cbn [Champ.remove_mut]. fold idx. rewrite Hne, Eq, Hc, at_middle. cbn [rbind].
    rewrite check_testbit, Hd, decide_True, erase_at_middle by done. cbn [rbind]. by rewrite <- app_assoc.
Qed.

(** The entry is of another key. *)
Lemma entry_other_ops h p k nm dm e1 e2 s1 s2 key0 v0 : k <> key0 ->
  entry_view h p (mask (hash k) (depth_of (S h))) k nm dm e1 e2 s1 s2 key0 v0 ->
  splits_entry h (child_path (S h) p (mask (hash k) (depth_of (S h)))) k key0 v0 ->
  node_ops (S h) p (SubNodes ((e1 ++ Entry key0 v0 :: e2) ++ s1 ++ s2) nm dm) k None
    (contents h ((e1 ++ Entry key0 v0 :: e2) ++ s1 ++ s2)).
Proof.
  intros Hk [Hp0 Hm0 [Hd Hn] Hne Hc Habs Hput _ Hsub Hpos] Hsp. pose proof (mask_bound (hash k) (depth_of (S h))) as Hi.
  set (idx := mask (hash k) (depth_of (S h))) in *.
  assert ((e1 ++ Entry key0 v0 :: e2) ++ s1 ++ s2 = e1 ++ Entry key0 v0 :: e2 ++ s1 ++ s2)%list as Eq
    by (by rewrite <- app_assoc).
  split.
  - rewrite elems_sub. apply splits_none. revert Habs. rewrite !contents_app, contents_cons, elems_entry.
    rewrite !fmap_app, !not_elem_of_app. simpl. rewrite not_elem_of_cons. pose proof (not_elem_of_nil k). tauto.
  - cbn [getp]. fold idx. rewrite Hne, Eq, Hc, at_middle. cbn [rbind]. by rewrite check_testbit, Hd, decide_False.
  - intros v. destruct (Hsp v) as (n' & Hsn & Hw' & He'). eexists. split_and!; [|exact (Hsub n' Hw')|].
    + cbn [Champ.put_mut]. fold idx. rewrite Hne, Eq, Hc, at_middle. cbn [rbind].
      rewrite check_testbit, Hn, decide_False, Hsn, erase_at_middle by done. cbn [rbind]. rewrite Hpos.
      assert (e1 ++ e2 ++ s1 ++ s2 = ((e1 ++ e2) ++ s1) ++ s2)%list as -> by (by rewrite <- !app_assoc).
      rewrite insert_at_middle. cbn [rbind]. by rewrite <- !app_assoc.
    + rewrite elems_sub, !contents_app, !contents_cons, elems_entry, He'. solve_Permutation.
  - eexists. split_and!; [|exact (Hput key0 v0 Hp0 Hm0)|done].
    cbn [Champ.remove_mut]. fold idx. rewrite Hne, Eq, Hc, at_middle. cbn [rbind].
    by rewrite check_testbit, Hd, decide_False by done.
Qed.

(** *** Any node *)

Lemma split_sub h p k key0 v0 : path_ok (S h) p -> k <> key0 -> path (depth_of (S h)) (hash key0) = p ->
  (forall n, wf (S h) p n -> exists old l, node_ops (S h) p n k old l) ->
  splits_entry (S h) p k key0 v0.
Proof.
  intros Hok Hk Hp IH v. pose proof (mask_bound (hash key0) (depth_of (S h))) as Hi.
  set (idx0 := mask (hash key0) (depth_of (S h))) in *.
  destruct (IH (SubNodes [Entry key0 v0] 0 (Bitmap.set 0 idx0))) as (old & l & [[Hs Hl] _ Hput _]).
  { split_and!; [done|by apply set_bound|done|]. exists [Entry key0 v0], []. split_and!; [done| |by constructor].
    destruct (bits_at 0 idx0 eq_refl Hi) as (bl & br & _ & _ & _ & B & -> & _).
    rewrite N.bits_0 in B. assert (bl = [] /\ br = []) as [-> ->] by (by apply app_eq_nil).
    constructor; [by exists key0, v0|constructor]. }
  destruct (Hput v) as (n' & Hpm & Hw & He). exists n'. rewrite elems_sub, contents_cons, elems_entry in Hs.
  simpl in Hs. destruct old as [v1|]; simpl in Hs.
  - assert ((k, v1) ∈ [(key0, v0)]) as Hin by (rewrite Hs; left). apply list_elem_of_singleton in Hin. congruence.
  - split_and!; [|done|by rewrite He, <- Hs; solve_Permutation].
    unfold split_node. fold (hash key0). fold idx0. by rewrite Hpm.
Qed.

Lemma new_bins_wf p : wf 0 p (Collisions (replicate (N.to_nat collision_bins) [])).
Proof.
  split; [by rewrite length_replicate|]. intros j bin [-> _]%lookup_replicate. split; constructor.
Qed.

(** Adding an entry to the bin of its key, when the key is not there. *)
Lemma bins_add p bins k v : wf 0 p (Collisions bins) -> path collision_depth (hash k) = p ->
  k ∉ (concat bins).*1 -> exists bin, at_ (mask (hash k) collision_depth) bins = Ok bin /\
    let bins' := <[N.to_nat (mask (hash k) collision_depth) := (bin ++ [(k, v)])%list]> bins in
    wf 0 p (Collisions bins') /\ concat bins' ≡ₚ (k, v) :: concat bins.
Proof.
  intros Hw Hp Hk. destruct (bins_around p bins k Hw) as (b1 & bin & b2 & -> & Hj & [Hnd Hall] & _ & _).
  assert (mask (hash k) collision_depth = N.of_nat (length b1)) as -> by lia. rewrite <- Hj in Hall.
  exists bin. rewrite at_middle, insert_middle. split; [done|]. cbn zeta. split.
  - eapply wf_bins; [exact Hw|]. split.
    + rewrite fmap_app, NoDup_app. split_and!; [done| |apply NoDup_singleton].
      intros x Hx ->%list_elem_of_singleton. apply Hk. rewrite concat_app. simpl. rewrite !fmap_app, !elem_of_app. tauto.
    + apply Forall_app. split; [done|]. repeat constructor; simpl; [done|]. rewrite Hj. lia.
  - rewrite !concat_app. simpl. solve_Permutation.
Qed.

Lemma split_collisions p k key0 v0 : k <> key0 -> path collision_depth (hash key0) = p ->
  path collision_depth (hash k) = p -> splits_entry 0 p k key0 v0.
Proof.
  intros Hk Hp0 Hp v.
  assert (concat (replicate (N.to_nat collision_bins) ([] : list (K * V))) = []) as Hnil by done.
  destruct (bins_add p (replicate (N.to_nat collision_bins) []) key0 v0 (new_bins_wf p) Hp0)
    as (bin0 & Hat & Hw0 & He0); [rewrite Hnil; apply not_elem_of_nil|]. rewrite Hnil in He0.
  destruct (bins_add p _ k v Hw0 Hp) as (bin1 & Hat1 & Hw1 & He1).
  { rewrite He0. simpl. by rewrite list_elem_of_singleton. }
  eexists. split_and!; [|exact Hw1|].
  - unfold split_node. fold (hash key0). rewrite Hat. cbn [rbind]. rewrite Hat1. done.
  - etrans; [exact He1|]. rewrite He0. solve_Permutation.
Qed.

Lemma path_down h k p : path_ok (S h) p -> path (depth_of (S h)) (hash k) = p ->
  path (depth_of h) (hash k) = child_path (S h) p (mask (hash k) (depth_of (S h))).
Proof. intros [Hh _] Hp. rewrite (depth_of_succ h) by done. rewrite path_succ, Hp. done. Qed.

Lemma wf_ops h p n k : path_ok h p -> path (depth_of h) (hash k) = p -> wf h p n ->
  exists old l, node_ops h p n k old l.
Proof.
  revert p n. induction h as [|h IH]; intros p n Hok Hp Hw.
  { destruct n as [| |bins]; try done. by apply collisions_ops. }
  destruct n as [|nodes nm dm|]; try done.
  set (idx := mask (hash k) (depth_of (S h))).
  pose proof (path_down h k p Hok Hp) as Hd. pose proof (path_ok_child h p idx Hok (mask_bound _ _)) as Hok'.
  destruct (N.testbit nm idx) eqn:En; [|destruct (N.testbit dm idx) eqn:Ed].
  - apply sub_node_ops; [done..|]. intros n Hn. by apply IH.
  - destruct (entry_node_view h p k nodes nm dm Hok Hw Ed) as (e1 & e2 & s1 & s2 & key0 & v0 & -> & Hv).
    destruct (decide (k = key0)) as [<-|Hk]; [do 2 eexists; by apply entry_same_ops|].
    do 2 eexists. apply entry_other_ops; [done..|].
    pose proof (path_down h key0 p Hok (ev_path _ _ _ _ _ _ _ _ _ _ _ _ Hv)) as Hd0.
    rewrite (ev_mask _ _ _ _ _ _ _ _ _ _ _ _ Hv) in Hd0.
    destruct h as [|h]; [by apply split_collisions|]. apply split_sub; [done..|]. intros n Hn. by apply IH.
  - do 2 eexists. by apply absent_ops.
Qed.

(** ** Iteration *)

Lemma visit_app {A B} (f : B -> A -> result (A * bool)) l1 l2 a :
  visit f (l1 ++ l2) a = rbind (visit f l1 a) (fun r => if r.2 then visit f l2 r.1 else Ok (r.1, false)).
Proof.
  revert a. induction l1 as [|x l1 IH]; intros a; simpl; [done|].
  destruct (f x a) as [[a' [|]]|e]; simpl; [apply IH|done..].
Qed.

Lemma visit_concat {A B C} (f : B -> A -> result (A * bool)) (g : C -> A -> result (A * bool))
    (els : C -> list B) l a :
  (forall x a, x ∈ l -> g x a = visit f (els x) a) -> visit g l a = visit f (concat (els <$> l)) a.
Proof.
  revert a. induction l as [|x l IH]; intros a Hg; [done|]. cbn [fmap list_fmap concat visit].
  rewrite visit_app, (Hg x a) by left. destruct (visit f (els x) a) as [[a' [|]]|e]; [|done..].
  apply IH. intros y b Hy. apply Hg. by right.
Qed.

Lemma foreach_elems {A} (f : K * V -> A -> result (A * bool)) h p n a :
  wf h p n -> foreach f h n a = visit f (elems h n) a.
Proof.
  revert p n a. induction h as [|h IH]; intros p [k v|nodes nm dm|bins] a; try done.
  - intros _. cbn [foreach elems]. rewrite (visit_concat f _ id); [|done]. by rewrite list_fmap_id.
  - intros (Hnb & Hdb & _ & ens & subs & -> & He & Hs). cbn [foreach]. rewrite elems_sub, contents_app, visit_app.
    rewrite <- length_bits, Nat2N.id, (Forall2_length _ _ _ He) by done.
    rewrite length_app, take_app_length, drop_app_length.
    destruct (Nat.ltb_spec (length ens + length subs) (length ens)); [lia|].
    rewrite (visit_concat f _ (elems h) ens).
    2:{ intros n b [j Hj]%list_elem_of_lookup.
        destruct (Forall2_lookup_r _ _ _ _ _ He Hj) as (i & _ & k & v & -> & _).
        rewrite elems_entry. simpl. by destruct (f (k, v) b) as [[b' [|]]|]. }
    destruct (visit f (contents h ens) a) as [[a' [|]]|e]; [|done..]. cbn [rbind fst snd].
    apply visit_concat. intros n b [j Hj]%list_elem_of_lookup.
    destruct (Forall2_lookup_r _ _ _ _ _ Hs Hj) as (i & _ & Hw). by eapply IH.
Qed.

(** ** The map *)

Context `{!Countable K}.

Definition total (l : list (K * V)) : N := foldr (fun e => N.add (entry_size e)) 0 l.

#[local] Instance total_proper : Proper ((≡ₚ) ==> eq) total.
Proof.
  intros l l' Hl. induction Hl as [|x l l' _ IH|x y l|l1 l2 l3 _ IH1 _ IH2]; simpl; [done| | |congruence].
  - by rewrite IH.
  - lia.
Qed.

Record map_inv (m : Map) (s : gmap K V) : Prop := mkMapInv {
  mi_wf : wf root_height 0 (root m);
  mi_elems : elems root_height (root m) ≡ₚ map_to_list s;
  mi_size : map_size m = N.of_nat (size s);
  mi_total : serialized_size m = total (map_to_list s);
  mi_positive : Forall (fun e => 0 < entry_size e) (map_to_list s);
  mi_bound : total (map_to_list s) < 2 ^ 64;
}.

Lemma splits_map k old l (s : gmap K V) : splits k old l (map_to_list s) ->
  s !! k = old /\ l ≡ₚ map_to_list (delete k s).
Proof.
  intros [Hp Hk].
  assert (NoDup (olds k old ++ l).*1) as Hnd by (rewrite <- Hp; apply NoDup_fst_map_to_list).
  assert (s = list_to_map (olds k old ++ l)) as Hs.
  { rewrite <- (list_to_map_to_list s). by apply list_to_map_proper; [apply NoDup_fst_map_to_list|]. }
  assert (list_to_map l !! k = (None : option V)) as Hl by (by apply not_elem_of_list_to_map_1).
  assert (NoDup l.*1) as Hnd' by (rewrite fmap_app, NoDup_app in Hnd; naive_solver).
  destruct old as [v|]; simpl in Hs; rewrite Hs.
  - rewrite lookup_insert_eq, delete_insert_id by done. split; [done|]. by rewrite map_to_list_to_map.
  - rewrite delete_id by done. split; [done|]. by rewrite map_to_list_to_map.
Qed.

Lemma map_inv_ops m s k : map_inv m s -> exists l,
  node_ops root_height 0 (root m) k (s !! k) l /\ l ≡ₚ map_to_list (delete k s) /\
  map_to_list s ≡ₚ olds k (s !! k) ++ l.
Proof.
  intros [Hw He _ _ _ _].
  destruct (wf_ops root_height 0 (root m) k) as (old & l & Hops); [by split| |done|].
  { unfold path, depth_of, root_height. by rewrite N2Nat.id, N.sub_diag, N.mod_1_r. }
  pose proof (no_splits _ _ _ _ _ _ Hops) as [Hs Hk]. rewrite He in Hs.
  destruct (splits_map k old l s) as [<- Hl]; [done|]. by exists l.
Qed.

Lemma size_delete_ok (s : gmap K V) k : size s = (length (olds k (s !! k)) + size (delete k s))%nat.
Proof.
  rewrite map_size_delete. destruct (s !! k) eqn:Hk; simpl; [|lia].
  assert (size s <> 0%nat) by (intros Hz%map_size_empty_inv; by rewrite Hz in Hk). lia.
Qed.

Lemma total_cons e l : total (e :: l) = entry_size e + total l.
Proof. done. Qed.

Lemma old_positive m s k : map_inv m s ->
  (old_size k (s !! k) =? 0) = match s !! k with Some _ => false | None => true end.
Proof.
  intros Hm. pose proof (mi_positive _ _ Hm) as Hp. rewrite Forall_forall in Hp.
  destruct (s !! k) as [v|] eqn:Hk; [|done]. apply N.eqb_neq.
  specialize (Hp (k, v)). rewrite elem_of_map_to_list in Hp. specialize (Hp Hk). simpl. lia.
Qed.

Lemma put_inv m s k v : map_inv m s -> 0 < entry_size (k, v) ->
  total (map_to_list s) + entry_size (k, v) < 2 ^ 64 ->
  exists m', put H key_size value_size k v m = Ok m' /\ map_inv m' (<[k := v]> s).
Proof.
  intros Hm Hpos Hb. destruct (map_inv_ops m s k Hm) as (l & Hops & Hl & Hs).
  destruct (no_put _ _ _ _ _ _ Hops v) as (n' & Hput & Hw & He).
  unfold put. rewrite Hput. cbn [rbind fst snd]. rewrite (old_positive m s k Hm). eexists. split; [done|].
  assert (map_to_list (<[k := v]> s) ≡ₚ (k, v) :: l) as Hl'.
  { rewrite <- insert_delete_eq, map_to_list_insert by apply lookup_delete_eq. by rewrite Hl. }
  assert (total (map_to_list s) = old_size k (s !! k) + total l) as Ht
    by (rewrite Hs; destruct (s !! k); simpl; lia).
  split; cbn [root map_size serialized_size].
  - done.
  - by rewrite Hl'.
  - rewrite (mi_size _ _ Hm), map_size_insert. destruct (s !! k); unfold id; lia.
  - rewrite (mi_total _ _ Hm), Hl', Ht, total_cons. rewrite Ht in Hb. unfold u64_sub.
    destruct (N.leb_spec (old_size k (s !! k)) (entry_size (k, v))).
    + rewrite N.mod_small; lia.
    + replace (2 ^ 64 - _ + _) with (entry_size (k, v) + total l + 1 * 2 ^ 64)
        by (pose proof (mi_bound _ _ Hm); lia).
      rewrite N.Div0.mod_add. apply N.mod_small. lia.
  - rewrite Hl'. constructor; [done|]. rewrite Hl. apply Forall_forall. intros e He'.
    destruct e as [k' v']. apply elem_of_map_to_list, lookup_delete_Some in He' as [_ He'].
    pose proof (mi_positive _ _ Hm) as Hp. rewrite Forall_forall in Hp. apply Hp. by apply elem_of_map_to_list.
  - rewrite Hl', total_cons. lia.
Qed.

Lemma remove_inv m s k : map_inv m s ->
  exists m', remove H key_size value_size k m = Ok m' /\ map_inv m' (delete k s).
Proof.
  intros Hm. destruct (map_inv_ops m s k Hm) as (l & Hops & Hl & Hs).
  destruct (no_remove _ _ _ _ _ _ Hops) as (n' & Hrem & Hw & He).
  unfold remove. rewrite Hrem. cbn [rbind fst snd]. eexists. split; [done|].
  assert (total (map_to_list s) = old_size k (s !! k) + total l) as Ht
    by (rewrite Hs; destruct (s !! k); simpl; lia).
  pose proof (old_positive m s k Hm) as Hold. pose proof (mi_bound _ _ Hm) as Hb.
  split; cbn [root map_size serialized_size].
  - done.
  - by rewrite He, Hl.
  - rewrite (mi_size _ _ Hm), (size_delete_ok s k). destruct (s !! k) as [v|]; cbn [olds length old_size].
    + apply N.eqb_neq in Hold. cbn [old_size] in Hold. destruct (N.ltb_spec 0 (entry_size (k, v))); [|lia].
      rewrite u64_sub_exact; lia.
    + done.
  - rewrite (mi_total _ _ Hm), Ht, <- Hl, u64_sub_exact; lia.
  - rewrite <- Hl. pose proof (mi_positive _ _ Hm) as Hp.
    rewrite Hs in Hp. by apply Forall_app in Hp as [_ Hp].
  - rewrite <- Hl. lia.
Qed.

(** ** Sequences of updates *)

Inductive ChampOp := Put (k : K) (v : V) | Remove (k : K).

Definition champ_step (op : ChampOp) (m : Map) : result Map :=
  match op with
  | Put k v => put H key_size value_size k v m
  | Remove k => remove H key_size value_size k m
  end.

Fixpoint champ_run (ops : list ChampOp) (m : Map) : result Map :=
  match ops with
  | [] => Ok m
  | op :: ops => m' <~ champ_step op m ;;; champ_run ops m'
  end.

Definition spec_step (s : gmap K V) (op : ChampOp) : gmap K V :=
  match op with
  | Put k v => <[k := v]> s
  | Remove k => delete k s
  end.

Definition written (ops : list ChampOp) : list (K * V) :=
  omap (fun op => match op with Put k v => Some (k, v) | Remove _ => None end) ops.

Lemma champ_run_inv ops m s : map_inv m s -> Forall (fun e => 0 < entry_size e) (written ops) ->
  total (map_to_list s) + total (written ops) < 2 ^ 64 ->
  exists m', champ_run ops m = Ok m' /\ map_inv m' (foldl spec_step s ops).
Proof.
  revert m s. induction ops as [|[k v|k] ops IH]; intros m s Hm Hp Hb; cbn [champ_run champ_step foldl spec_step].
  - by exists m.
  - inversion Hp as [|?? Hp1 Hp2]; subst. change (written (Put k v :: ops)) with ((k, v) :: written ops) in Hb.
    rewrite total_cons in Hb. destruct (put_inv m s k v Hm Hp1) as (m' & -> & Hm'); [lia|].
    cbn [rbind]. apply IH; [done|done|].
    destruct (map_inv_ops m s k Hm) as (l & _ & Hl & Hs).
    rewrite <- insert_delete_eq, map_to_list_insert, <- Hl, total_cons by apply lookup_delete_eq.
    rewrite Hs in Hb. destruct (s !! k); simpl in Hb; lia.
  - destruct (remove_inv m s k Hm) as (m' & -> & Hm'). cbn [rbind]. apply IH; [done|done|].
    destruct (map_inv_ops m s k Hm) as (l & _ & Hl & Hs). rewrite <- Hl. rewrite Hs in Hb.
    change (written (Remove k :: ops)) with (written ops) in Hb. destruct (s !! k); simpl in Hb; lia.
Qed.

Lemma empty_inv : map_inv empty_map ∅.
Proof.
  split; try done; rewrite ?map_to_list_empty; try done.
  split_and!; try done. exists [], []. split_and!; [done|constructor..].
Qed.

(** C12. The persistent map is a finite map. Whatever puts and removals it has
    been through, and however the hashes of its keys collide, no operation
    fails, a lookup finds the last value put under a key that has not been
    removed since, the size is the number of keys, the serialised size is the
    sum of the sizes of the entries, and iteration visits every entry once.
    Entries have a size other than 0, which a multiple of 4 GB truncates to,
    and all that is put fits in 64 bits. *)
Theorem champ_is_a_map (ops : list ChampOp) :
  Forall (fun e => 0 < entry_size e) (written ops) -> total (written ops) < 2 ^ 64 ->
  let s := foldl spec_step ∅ ops in
  exists m, champ_run ops empty_map = Ok m /\
    (forall k, get H k m = Ok (s !! k)) /\
    map_size m = N.of_nat (size s) /\ serialized_size m = total (map_to_list s) /\
    exists l, l ≡ₚ map_to_list s /\
      forall A (f : K * V -> A -> result (A * bool)) a, map_foreach f m a = visit f l a.
Proof.
  intros Hp Hb s. destruct (champ_run_inv ops empty_map ∅ empty_inv Hp) as (m & Hrun & Hm); [done|].
  exists m. split_and!; [done| |apply Hm|apply Hm|].
  - intros k. destruct (map_inv_ops m s k Hm) as (l & Hops & _). apply Hops.
  - exists (elems root_height (root m)). split; [apply Hm|].
    intros A f a. apply (foreach_elems f root_height 0). apply Hm.
Qed.
End spec.

(** Keys with one hash: the entries are in a bin at the bottom of the tree. *)
Lemma champ_is_a_map_witness :
  exists m, champ_run (fun _ => 7) (fun _ => 8) (fun _ => 8)
      [Put 1 10; Put 2 20; Put 1 30; Remove 2] empty_map = Ok m /\
    get (fun _ => 7) 1 m = Ok (Some 30) /\ get (fun _ => 7) 2 m = Ok None /\ map_size m = 1 /\ serialized_size m = 16.
Proof.
  destruct (champ_is_a_map (fun _ : N => 7) (fun _ => 8) (fun _ : N => 8) [Put 1 10; Put 2 20; Put 1 30; Remove 2])
    as (m & Hrun & Hget & Hsize & Htot & _).
  - repeat constructor.
  - done.
  - exists m. split_and!; [exact Hrun|rewrite Hget; vm_eq|rewrite Hget; vm_eq|rewrite Hsize; vm_eq|rewrite Htot; vm_eq].
Defined.
End ChampSpec.
