(* ===== verification/RbMap.v ===== *)
(** * The red-black tree

    [rb::Map] and its [Snapshot] (src/ds/rb_map.h), the persistent map of the
    store when it is built without the hash tree. A node keeps the size of its
    tree; sizes are [size_t] in the source and have no bound here, and the
    assertions of a debug build are left out. Reading a part of an empty tree is
    a null pointer in the source and [None] here. *)

From S2P Require Import Prelude LedgerEntries Champ.
From Stdlib Require Strings.Byte.

Module RbMap.
Open Scope N_scope.

Inductive Color := R | B.
#[global] Instance Color_eq_dec : EqDecision Color.
Proof. solve_decision. Defined.

Inductive Map (K V : Type) :=
| Empty
| Node (_c : Color) (_lft : Map K V) (_key : K) (_val : V) (_rgt : Map K V) (total_size total_serialized_size : N).
Arguments Empty {K V}.
Arguments Node {K V} _ _ _ _ _ _ _.

(** The order of keys, [operator<]. *)
Class KeyOrder (K : Type) := key_lt : K -> K -> bool.

Section map.
Context {K V : Type} `{EqDecision K} `{KeyOrder K}.
(** [map::get_size] of a key and of a value. *)
Context (key_size : K -> N) (value_size : V -> N).

Implicit Types m l r : Map K V.

Definition is_empty m : bool := match m with Empty => true | _ => false end.
Definition size m : N := match m with Empty => 0 | Node _ _ _ _ _ s _ => s end.
Definition get_serialized_size m : N := match m with Empty => 0 | Node _ _ _ _ _ _ s => s end.

(** The constructor of a node. *)
Definition mk (c : Color) (lft : Map K V) (key : K) (val : V) (rgt : Map K V) : Map K V :=
  Node c lft key val rgt (1 + size lft + size rgt)
    (Champ.size_with_padding (key_size key) + Champ.size_with_padding (value_size val) + get_serialized_size lft + get_serialized_size rgt).

Definition rootColor m : Color := match m with Empty => B | Node c _ _ _ _ _ _ => c end.
Definition rootKey m : option K := match m with Empty => None | Node _ _ k _ _ _ _ => Some k end.
Definition rootValue m : option V := match m with Empty => None | Node _ _ _ v _ _ _ => Some v end.
Definition left m : option (Map K V) := match m with Empty => None | Node _ l _ _ _ _ _ => Some l end.
Definition right m : option (Map K V) := match m with Empty => None | Node _ _ _ _ r _ _ => Some r end.

Fixpoint getp (key : K) m : option V :=
  match m with
  | Empty => None
  | Node _ lft y yv rgt _ _ => if key_lt key y then getp key lft else if key_lt y key then getp key rgt else Some yv
  end.
Definition get (key : K) m : option V := getp key m.

(** A tree with the root of another, in a color and with the given parts. *)
Definition remake (c : Color) (lft : Map K V) m (rgt : Map K V) : option (Map K V) :=
  k ← rootKey m; v ← rootValue m; Some (mk c lft k v rgt).

Definition paint (c : Color) m : option (Map K V) := l ← left m; r ← right m; remake c l m r.

Definition doubledLeft m : bool :=
  match m with
  | Node R l _ _ _ _ _ => negb (is_empty l) && bool_decide (rootColor l = R)
  | _ => false
  end.
Definition doubledRight m : bool :=
  match m with
  | Node R _ _ _ r _ _ => negb (is_empty r) && bool_decide (rootColor r = R)
  | _ => false
  end.

Definition balance (lft : Map K V) (x : K) (v : V) (rgt : Map K V) : option (Map K V) :=
  if doubledLeft lft then
    ll ← left lft; ll' ← paint B ll; lr ← right lft;
    remake R ll' lft (mk B lr x v rgt)
  else if doubledRight lft then
    ll ← left lft; lr ← right lft; lrl ← left lr; lrr ← right lr;
    a ← remake B ll lft lrl;
    remake R a lr (mk B lrr x v rgt)
  else if doubledLeft rgt then
    rl ← left rgt; rr ← right rgt; rll ← left rl; rlr ← right rl;
    b ← remake B rlr rgt rr;
    remake R (mk B lft x v rll) rl b
  else if doubledRight rgt then
    rl ← left rgt; rr ← right rgt; rr' ← paint B rr;
    remake R (mk B lft x v rl) rgt rr'
  else Some (mk B lft x v rgt).

Fixpoint insert (x : K) (v : V) m : option (Map K V) :=
  match m with
  | Empty => Some (mk R Empty x v Empty)
  | Node c lft y yv rgt _ _ =>
      match c with
      | B =>
          if key_lt x y then l' ← insert x v lft; balance l' y yv rgt
          else if key_lt y x then r' ← insert x v rgt; balance lft y yv r'
          else Some (mk c lft y v rgt)
      | R =>
          if key_lt x y then l' ← insert x v lft; Some (mk c l' y yv rgt)
          else if key_lt y x then r' ← insert x v rgt; Some (mk c lft y yv r')
          else Some (mk c lft y v rgt)
      end
  end.

Definition put (key : K) (value : V) m : option (Map K V) := t ← insert key value m; l ← left t; r ← right t; remake B l t r.

Definition rotateRight m : option (Map K V) :=
  x ← left m; xr ← right x; r ← right m; y ← remake (rootColor m) xr m r;
  xl ← left x; remake (rootColor x) xl x y.
Definition rotateLeft m : option (Map K V) :=
  y ← right m; l ← left m; yl ← left y; x ← remake (rootColor m) l m yl;
  yr ← right y; remake (rootColor y) x y yr.

(** The part after a red sibling has been dealt with. *)
Definition fixLeft_black (root sibling : Map K V) : option (Map K V * bool) :=
  rl ← left root; sl ← left sibling; sr ← right sibling;
  if bool_decide (rootColor sl = B) && bool_decide (rootColor sr = B) then
    sibling ← paint R sibling;
    root' ← remake B rl root sibling;
    Some (root', bool_decide (rootColor root = B))
  else
    p ← (if bool_decide (rootColor sr = B) then
           siblingLeft ← paint B sl;
           sibling ← remake R siblingLeft sibling sr;
           sibling ← rotateRight sibling;
           root ← remake (rootColor root) rl root sibling;
           Some (root, sibling)
         else Some (root, sibling));
    let '(root, sibling) := p in
    sl ← left sibling; sr ← right sibling; sr' ← paint B sr;
    recoloredSibling ← remake (rootColor root) sl sibling sr';
    rl ← left root;
    root ← remake B rl root recoloredSibling;
    root ← rotateLeft root;
    Some (root, false).

Definition fixRight_black (root sibling : Map K V) : option (Map K V * bool) :=
  rr ← right root; sl ← left sibling; sr ← right sibling;
  if bool_decide (rootColor sl = B) && bool_decide (rootColor sr = B) then
    sibling ← paint R sibling;
    root' ← remake B sibling root rr;
    Some (root', bool_decide (rootColor root = B))
  else
    p ← (if bool_decide (rootColor sl = B) then
           siblingRight ← paint B sr;
           sibling ← remake R sl sibling siblingRight;
           sibling ← rotateLeft sibling;
           root ← remake (rootColor root) sibling root rr;
           Some (root, sibling)
         else Some (root, sibling));
    let '(root, sibling) := p in
    sl ← left sibling; sr ← right sibling; sl' ← paint B sl;
    recoloredSibling ← remake (rootColor root) sl' sibling sr;
    rr ← right root;
    root ← remake B recoloredSibling root rr;
    root ← rotateRight root;
    Some (root, false).

(** A red sibling: the tree below is fixed first. *)
Fixpoint fixDoubleBlackLeft (fuel : nat) m : option (Map K V * bool) :=
  match fuel with
  | O => None
  | S fuel =>
      sibling ← right m;
      if bool_decide (rootColor sibling = R) then
        l ← left m; sibling ← paint B sibling;
        root ← remake R l m sibling;
        root ← rotateLeft root;
        rl ← left root;
        fixedLeft ← fixDoubleBlackLeft fuel rl;
        rr ← right root;
        root ← remake (rootColor root) fixedLeft.1 root rr;
        if negb fixedLeft.2 then Some (root, false)
        else sibling ← right root; fixLeft_black root sibling
      else fixLeft_black m sibling
  end.

Fixpoint fixDoubleBlackRight (fuel : nat) m : option (Map K V * bool) :=
  match fuel with
  | O => None
  | S fuel =>
      sibling ← left m;
      if bool_decide (rootColor sibling = R) then
        r ← right m; sibling ← paint B sibling;
        root ← remake R sibling m r;
        root ← rotateRight root;
        rr ← right root;
        fixedRight ← fixDoubleBlackRight fuel rr;
        rl ← left root;
        root ← remake (rootColor root) rl root fixedRight.1;
        if negb fixedRight.2 then Some (root, false)
        else sibling ← left root; fixRight_black root sibling
      else fixRight_black m sibling
  end.

(** A red sibling has a black one below it, so there is one more round. *)
Definition fix_fuel : nat := 2.

Fixpoint minimum m : option (K * V) :=
  match m with
  | Empty => None
  | Node _ lft k v _ _ _ => if is_empty lft then Some (k, v) else minimum lft
  end.

(** A tree with a new left or right subtree, fixed if that is short of a black
    node. *)
Definition with_left (c : Color) (k : K) (v : V) (rgt : Map K V) (left_without : Map K V * bool) : option (Map K V * bool) :=
  let newMap := mk c left_without.1 k v rgt in
  if left_without.2 then fixDoubleBlackLeft fix_fuel newMap else Some (newMap, false).
Definition with_right (c : Color) (lft : Map K V) (k : K) (v : V) (right_without : Map K V * bool) : option (Map K V * bool) :=
  let newMap := mk c lft k v right_without.1 in
  if right_without.2 then fixDoubleBlackRight fix_fuel newMap else Some (newMap, false).

Fixpoint _remove (key : K) m : option (Map K V * bool) :=
  match m with
  | Empty => Some (Empty, false)
  | Node c lft rootk rootv rgt _ _ =>
      if key_lt key rootk then _remove key lft ≫= with_left c rootk rootv rgt
      else if key_lt rootk key then _remove key rgt ≫= with_right c lft rootk rootv
      else if bool_decide (key = rootk) then
        if is_empty lft && is_empty rgt then Some (Empty, bool_decide (c = B))
        else if is_empty lft then r ← paint B rgt; Some (r, false)
        else if is_empty rgt then l ← paint B lft; Some (l, false)
        else
          successor ← minimum rgt;
          _remove (fst successor) rgt ≫= with_right c lft (fst successor) (snd successor)
      else Some (m, false)
  end.

Definition remove (key : K) m : option (Map K V) :=
  res ← _remove key m;
  if res.2 && bool_decide (rootColor res.1 = R) then paint B res.1 else Some res.1.

(** [foreach] with a state; the function says whether to go on. *)
Fixpoint foreach {A} (f : K -> V -> A -> A * bool) m (a : A) : A * bool :=
  match m with
  | Empty => (a, true)
  | Node _ lft k v rgt _ _ =>
      let '(a, go) := foreach f lft a in
      if negb go then (a, false)
      else let '(a, go) := f k v a in
           if negb go then (a, false) else foreach f rgt a
  end.

(** [Snapshot::serialize], for the given [map::serialize] of keys and values. *)
Definition add_padding (b : bytes) : bytes := (b ++ replicate (N.to_nat (Champ.get_padding (N.of_nat (length b)))) Byte.x00)%list.
Definition serialize (serialize_key : K -> bytes) (serialize_value : V -> bytes) m : bytes :=
  (foreach (fun k v data => ((data ++ add_padding (serialize_key k) ++ add_padding (serialize_value v))%list, true)) m []).1.

(** [_check]: no red node has a red child, and the counts of black nodes are
    the same to the left and to the right. *)
Fixpoint _check m (blackCount : N) : option N :=
  match m with
  | Empty => Some (blackCount + 1)
  | Node c lft _ _ rgt _ _ =>
      if bool_decide (c = R) && (negb (is_empty lft) && bool_decide (rootColor lft = R) || negb (is_empty rgt) && bool_decide (rootColor rgt = R))
      then None
      else
        let black := if bool_decide (c = B) then 1 else 0 in
        leftBlackCount ← _check lft (blackCount + black);
        rightBlackCount ← _check rgt (blackCount + black);
        if leftBlackCount =? rightBlackCount then Some (leftBlackCount + black) else None
  end.
Definition check m : bool := bool_decide (is_Some (_check m 0)).
End map.
End RbMap.
