(* ===== verification/RbMapSpec.v ===== *)
(** * The red-black tree: proofs

    Through any puts and removals the tree stays balanced, reads no part of an
    empty tree, and holds the entries of a finite map in the order of the
    keys. *)

From S2P Require Import Prelude LedgerEntries Champ RbMap.
From Stdlib Require Strings.Byte.

Module RbMapSpec.
Import RbMap.
Open Scope N_scope.

#[local] Arguments mk : simpl never.

(** [operator<] is a strict total order. *)
Class KeyOrderLaws (K : Type) `{KeyOrder K} := {
  key_lt_irrefl x : key_lt x x = false;
  key_lt_trans x y z : key_lt x y = true -> key_lt y z = true -> key_lt x z = true;
  key_lt_total x y : key_lt x y = false -> key_lt y x = false -> x = y;
}.

Create HintDb rb.
Create Rewrite HintDb rb.

Section spec.
Context {K V : Type} `{Countable K} `{!KeyOrder K} `{!KeyOrderLaws K}.
Context (key_size : K -> N) (value_size : V -> N).
#[local] Abbreviation Map := (Map K V).
#[local] Abbreviation mk := (mk key_size value_size).
#[local] Abbreviation remake := (remake key_size value_size).
#[local] Abbreviation paint := (paint key_size value_size).
#[local] Abbreviation balance := (balance key_size value_size).
#[local] Abbreviation rotateLeft := (rotateLeft key_size value_size).
#[local] Abbreviation rotateRight := (rotateRight key_size value_size).
#[local] Abbreviation fixDoubleBlackLeft := (fixDoubleBlackLeft key_size value_size).
#[local] Abbreviation fixDoubleBlackRight := (fixDoubleBlackRight key_size value_size).
#[local] Abbreviation fixLeft_black := (fixLeft_black key_size value_size).
#[local] Abbreviation fixRight_black := (fixRight_black key_size value_size).

(** ** Parts of a node *)

Lemma left_mk c l k v r : left (mk c l k v r) = Some l.
Proof. done. Qed.
Lemma right_mk c l k v r : right (mk c l k v r) = Some r.
Proof. done. Qed.
Lemma rootColor_mk c l k v r : rootColor (mk c l k v r) = c.
Proof. done. Qed.
Lemma remake_mk c l c' l' k v r' r : remake c l (mk c' l' k v r') r = Some (mk c l k v r).
Proof. done. Qed.
Lemma paint_mk c c' l k v r : paint c (mk c' l k v r) = Some (mk c l k v r).
Proof. done. Qed.
Lemma rotateLeft_mk c l k v c' yl k' v' yr :
  rotateLeft (mk c l k v (mk c' yl k' v' yr)) = Some (mk c' (mk c l k v yl) k' v' yr).
Proof. done. Qed.
Lemma rotateRight_mk c c' xl k' v' xr k v r :
  rotateRight (mk c (mk c' xl k' v' xr) k v r) = Some (mk c' xl k' v' (mk c xr k v r)).
Proof. done. Qed.
Lemma option_bind_some {A B} (a : A) (f : A -> option B) : Some a ≫= f = f a.
Proof. done. Qed.
#[local] Hint Rewrite left_mk right_mk rootColor_mk remake_mk paint_mk rotateLeft_mk rotateRight_mk @option_bind_some : rb.

(** The entries, in the order of the tree. *)
Fixpoint flatten (m : Map) : list (K * V) :=
  match m with
  | Empty => []
  | Node _ l k v r _ _ => (flatten l ++ (k, v) :: flatten r)%list
  end.
Lemma flatten_mk c l k v r : flatten (mk c l k v r) = (flatten l ++ (k, v) :: flatten r)%list.
Proof. done. Qed.
#[local] Hint Rewrite flatten_mk : rb.

(** ** Red-black trees *)

(** A tree of [n] black nodes on every path, with a root of color [c]. Its
    nodes have their sizes right. *)
Inductive isrb : nat -> Color -> Map -> Prop :=
| rb_empty : isrb 0 B Empty
| rb_red n l k v r : isrb n B l -> isrb n B r -> isrb n R (mk R l k v r)
| rb_black n cl cr l k v r : isrb n cl l -> isrb n cr r -> isrb (S n) B (mk B l k v r).
#[local] Hint Constructors isrb : rb.

(** A red root may have red children. *)
Definition near (n : nat) (m : Map) : Prop := exists ca cb a k v b, m = mk R a k v b /\ isrb n ca a /\ isrb n cb b.

Lemma isrb_color n c m : isrb n c m -> rootColor m = c.
Proof. by destruct 1. Qed.

Lemma isrb_red_inv n m : isrb n R m -> exists l k v r, m = mk R l k v r /\ isrb n B l /\ isrb n B r.
Proof. inversion 1; subst; eauto 10. Qed.
Lemma isrb_black_inv n m : isrb (S n) B m -> exists cl cr l k v r, m = mk B l k v r /\ isrb n cl l /\ isrb n cr r.
Proof. inversion 1; subst; eauto 10. Qed.
Lemma isrb_zero_inv m : isrb 0 B m -> m = Empty.
Proof. by inversion 1. Qed.

Lemma doubled_none n c m : isrb n c m -> doubledLeft m = false /\ doubledRight m = false.
Proof.
  destruct 1 as [|n l k v r Hl Hr|]; [done| |done]. apply isrb_color in Hl, Hr. unfold doubledLeft, doubledRight, mk. rewrite Hl, Hr.
  by rewrite bool_decide_eq_false_2, !andb_false_r by done.
Qed.

Lemma doubledLeft_mk a k v b : rootColor a = R -> doubledLeft (mk R a k v b) = true.
Proof. intros Ha. unfold doubledLeft, mk. destruct a; [done|]. rewrite Ha. by rewrite bool_decide_eq_true_2. Qed.
Lemma doubledRight_mk a k v b : rootColor b = R -> doubledRight (mk R a k v b) = true.
Proof. intros Ha. unfold doubledRight, mk. destruct b; [done|]. rewrite Ha. by rewrite bool_decide_eq_true_2. Qed.
Lemma doubledLeft_black a k v b : rootColor a = B -> doubledLeft (mk R a k v b) = false.
Proof. intros Ha. unfold doubledLeft, mk. rewrite Ha. by rewrite bool_decide_eq_false_2, andb_false_r by done. Qed.
Lemma doubledRight_black a k v b : rootColor b = B -> doubledRight (mk R a k v b) = false.
Proof. intros Ha. unfold doubledRight, mk. rewrite Ha. by rewrite bool_decide_eq_false_2, andb_false_r by done. Qed.

(** ** Insertion *)

Definition balanced_to (n : nat) (content : list (K * V)) (res : option Map) : Prop :=
  exists c m, res = Some m /\ isrb n c m /\ flatten m = content.

Ltac flat := autorewrite with rb; rewrite <- ?app_assoc; cbn [app]; rewrite <- ?app_assoc; reflexivity.
Ltac rb := autorewrite with rb; cbn [fst snd negb andb orb].

Lemma balance_none l x v r : doubledLeft l = false -> doubledRight l = false -> doubledLeft r = false -> doubledRight r = false ->
  balance l x v r = Some (mk B l x v r).
Proof. unfold balance. by intros -> -> -> ->. Qed.

Lemma balance_left n l x v r cr : near n l \/ (exists c, isrb n c l) -> isrb n cr r ->
  balanced_to (S n) (flatten l ++ (x, v) :: flatten r) (balance l x v r).
Proof.
  intros Hl Hr. destruct (doubled_none _ _ _ Hr) as [Hr1 Hr2].
  assert (doubledLeft l = false -> doubledRight l = false -> (exists c, isrb n c l) -> balanced_to (S n) (flatten l ++ (x, v) :: flatten r) (balance l x v r)) as Hplain.
  { intros H1 H2 [c Hc]. exists B, (mk B l x v r). rewrite balance_none by done. split_and!; eauto with rb. }
  destruct Hl as [(ca & cb & a & k & w & b & -> & Ha & Hb)|[c Hc]]; [|destruct (doubled_none _ _ _ Hc); eauto].
  destruct ca.
  - destruct (isrb_red_inv _ _ Ha) as (a1 & ka & va & a2 & -> & Ha1 & Ha2). unfold balance. rewrite doubledLeft_mk by done. rb.
    eexists R, _. split_and!; [done|eauto with rb|flat].
  - destruct cb.
    + destruct (isrb_red_inv _ _ Hb) as (b1 & kb & vb & b2 & -> & Hb1 & Hb2). unfold balance.
      rewrite doubledLeft_black, doubledRight_mk by (done || by eapply isrb_color). rb.
      eexists R, _. split_and!; [done|eauto with rb|flat].
    + apply Hplain; [apply doubledLeft_black; by eapply isrb_color|apply doubledRight_black; by eapply isrb_color|eauto with rb].
Qed.

Lemma balance_right n l x v r cl : isrb n cl l -> near n r \/ (exists c, isrb n c r) ->
  balanced_to (S n) (flatten l ++ (x, v) :: flatten r) (balance l x v r).
Proof.
  intros Hl Hr. destruct (doubled_none _ _ _ Hl) as [Hl1 Hl2].
  assert (doubledLeft r = false -> doubledRight r = false -> (exists c, isrb n c r) -> balanced_to (S n) (flatten l ++ (x, v) :: flatten r) (balance l x v r)) as Hplain.
  { intros H1 H2 [c Hc]. exists B, (mk B l x v r). rewrite balance_none by done. split_and!; eauto with rb. }
  destruct Hr as [(ca & cb & a & k & w & b & -> & Ha & Hb)|[c Hc]]; [|destruct (doubled_none _ _ _ Hc); eauto].
  destruct ca.
  - destruct (isrb_red_inv _ _ Ha) as (a1 & ka & va & a2 & -> & Ha1 & Ha2). unfold balance. rewrite Hl1, Hl2, doubledLeft_mk by done. rb.
    eexists R, _. split_and!; [done|eauto with rb|flat].
  - destruct cb.
    + destruct (isrb_red_inv _ _ Hb) as (b1 & kb & vb & b2 & -> & Hb1 & Hb2). unfold balance.
      rewrite Hl1, Hl2, doubledLeft_black, doubledRight_mk by (done || by eapply isrb_color). rb.
      eexists R, _. split_and!; [done|eauto with rb|flat].
    + apply Hplain; [apply doubledLeft_black; by eapply isrb_color|apply doubledRight_black; by eapply isrb_color|eauto with rb].
Qed.

(** The list with an entry put in, in the order of the keys. *)
Fixpoint linsert (x : K) (v : V) (l : list (K * V)) : list (K * V) :=
  match l with
  | [] => [(x, v)]
  | (y, w) :: l => if key_lt x y then (x, v) :: (y, w) :: l else if key_lt y x then (y, w) :: linsert x v l else (y, v) :: l
  end.

(** Keys in order. *)
Definition before (e e' : K * V) : Prop := key_lt e.1 e'.1 = true.
Definition ordered (l : list (K * V)) : Prop := StronglySorted before l.

Lemma rb_ordered_app l1 e l2 : ordered (l1 ++ e :: l2) <-> ordered l1 /\ ordered l2 /\ Forall (fun x => before x e) l1 /\ Forall (before e) l2.
Proof.
  unfold ordered. induction l1 as [|x l1 IH]; cbn [app].
  - rewrite StronglySorted_cons. split; [intros [??]; split_and!; [constructor|done|constructor|done]|naive_solver].
  - rewrite !StronglySorted_cons, IH, Forall_app, !Forall_cons. split.
    + intros [(Hx1 & Hxe & Hx2) (? & ? & ? & ?)]. naive_solver.
    + intros ((Hx & H1) & H2 & (Hxe & H3) & H4). split_and!; try done. eapply Forall_impl; [exact H4|]. intros y Hy. unfold before in *. by eapply key_lt_trans.
Qed.

Lemma key_lt_asym x y : key_lt x y = true -> key_lt y x = false.
Proof. intros Hxy. destruct (key_lt y x) eqn:E; [|done]. pose proof (key_lt_trans _ _ _ Hxy E). by rewrite key_lt_irrefl in *. Qed.

Lemma linsert_left x v l y w r : key_lt x y = true -> linsert x v (l ++ (y, w) :: r) = (linsert x v l ++ (y, w) :: r)%list.
Proof.
  intros Hx. induction l as [|[z u] l IH]; cbn [app linsert]; [by rewrite Hx|]. rewrite IH. by repeat case_match.
Qed.

Lemma linsert_right x v l y w r : key_lt y x = true -> Forall (fun e => before e (y, w)) l ->
  linsert x v (l ++ (y, w) :: r) = (l ++ (y, w) :: linsert x v r)%list.
Proof.
  intros Hx Hl. induction Hl as [|[z u] l Hz Hl IH]; cbn [app linsert].
  - by rewrite (key_lt_asym _ _ Hx), Hx.
  - unfold before in Hz. cbn in Hz. pose proof (key_lt_trans _ _ _ Hz Hx) as Hzx. by rewrite (key_lt_asym _ _ Hzx), Hzx, IH.
Qed.

Lemma linsert_same x v l w r : Forall (fun e => before e (x, w)) l -> linsert x v (l ++ (x, w) :: r) = (l ++ (x, v) :: r)%list.
Proof.
  intros Hl. induction Hl as [|[z u] l Hz Hl IH]; cbn [app linsert]; [by rewrite key_lt_irrefl|]. unfold before in Hz. cbn in Hz.
  by rewrite (key_lt_asym _ _ Hz), Hz, IH.
Qed.

Lemma insert_mk x v c l y yv r : insert key_size value_size x v (mk c l y yv r) =
  match c with
  | B => if key_lt x y then l' ← insert key_size value_size x v l; balance l' y yv r
         else if key_lt y x then r' ← insert key_size value_size x v r; balance l y yv r'
         else Some (mk c l y v r)
  | R => if key_lt x y then l' ← insert key_size value_size x v l; Some (mk c l' y yv r)
         else if key_lt y x then r' ← insert key_size value_size x v r; Some (mk c l y yv r')
         else Some (mk c l y v r)
  end.
Proof. done. Qed.

Lemma insert_ok x v m n c : isrb n c m -> ordered (flatten m) ->
  exists m', insert key_size value_size x v m = Some m' /\ flatten m' = linsert x v (flatten m) /\
    (c = B -> exists c', isrb n c' m') /\ (c = R -> near n m').
Proof.
  intros Hm. induction Hm as [|n l k w r Hl IHl Hr IHr|n cl cr l k w r Hl IHl Hr IHr]; rewrite ?flatten_mk.
  - intros _. eexists. split_and!; [done|done| |done]. exists R. repeat constructor.
  - intros Ho. apply rb_ordered_app in Ho as (Ho1 & Ho2 & Hb1 & Hb2). rewrite insert_mk. destruct (key_lt x k) eqn:Hx; [|destruct (key_lt k x) eqn:Hx'].
    + destruct (IHl Ho1) as (l' & -> & Hf & Hc & _). destruct (Hc eq_refl) as [c' Hc']. eexists. split_and!; [done|by rewrite flatten_mk, linsert_left, Hf|done|].
      intros _. repeat eexists; eauto.
    + destruct (IHr Ho2) as (r' & -> & Hf & Hc & _). destruct (Hc eq_refl) as [c' Hc']. eexists. split_and!; [done|by rewrite flatten_mk, linsert_right, Hf|done|].
      intros _. repeat eexists; eauto.
    + pose proof (key_lt_total _ _ Hx Hx') as ->. eexists. split_and!; [done|by rewrite flatten_mk, linsert_same|done|]. intros _. repeat eexists; eauto.
  - intros Ho. apply rb_ordered_app in Ho as (Ho1 & Ho2 & Hb1 & Hb2). rewrite insert_mk.
    assert (forall m', balanced_to (S n) (linsert x v (flatten l ++ (k, w) :: flatten r)) m' -> exists m'', m' = Some m'' /\
      flatten m'' = linsert x v (flatten l ++ (k, w) :: flatten r) /\ (B = B -> exists c', isrb (S n) c' m'') /\ (B = R -> near (S n) m'')) as Hdone.
    { intros m' (c' & m'' & -> & Hc & Hf). eexists. split_and!; eauto. done. }
    destruct (key_lt x k) eqn:Hx; [|destruct (key_lt k x) eqn:Hx'].
    + destruct (IHl Ho1) as (l' & -> & Hf & Hc & Hn). apply Hdone. rewrite linsert_left, <- Hf by done. cbn [mbind option_bind].
      eapply balance_left; [|done]. destruct cl; [left; auto|right; auto].
    + destruct (IHr Ho2) as (r' & -> & Hf & Hc & Hn). apply Hdone. rewrite linsert_right, <- Hf by done. cbn [mbind option_bind].
      eapply balance_right; [done|]. destruct cr; [left; auto|right; auto].
    + pose proof (key_lt_total _ _ Hx Hx') as ->. apply Hdone. rewrite linsert_same by done. exists B. eexists. split_and!; [done|eauto with rb|done].
Qed.

Lemma put_ok x v m n : isrb n B m -> ordered (flatten m) ->
  exists n' m', put key_size value_size x v m = Some m' /\ isrb n' B m' /\ flatten m' = linsert x v (flatten m).
Proof.
  intros Hm Ho. destruct (insert_ok x v m n B Hm Ho) as (m' & Hi & Hf & Hc & _). destruct (Hc eq_refl) as [c Hc']. unfold put. rewrite Hi, option_bind_some.
  destruct Hc' as [|n' l k w r Hl Hr|n' cl cr l k w r Hl Hr].
  - exfalso. destruct (flatten m) as [|[y u] t]; cbn in Hf; [done|]. by repeat case_match.
  - rb. eexists _, _. split_and!; [done|eauto with rb|]. by rewrite <- Hf.
  - rb. eexists _, _. split_and!; [done|eauto with rb|]. by rewrite <- Hf.
Qed.

(** ** Removal *)

(** What removing below a node of color [c] and height [n] gives: as high as
    before, or one less and black. *)
Definition fixed (n : nat) (c : Color) (content : list (K * V)) (res : option (Map * bool)) : Prop :=
  exists m db, res = Some (m, db) /\ flatten m = content /\
    if db : bool then c = B /\ exists n', n = S n' /\ isrb n' B m
    else exists c', isrb n c' m /\ (c = B -> c' = B).

(** The height of a node of color [c] above trees of height [n]. *)
Definition height_above (c : Color) (n : nat) : nat := match c with R => n | B => S n end.

Lemma fixLeft_black_ok n c l k v s : isrb n B l -> isrb (S n) B s ->
  fixed (height_above c (S n)) c (flatten l ++ (k, v) :: flatten s) (fixLeft_black (mk c l k v s) s).
Proof.
  intros Hl Hs. destruct (isrb_black_inv _ _ Hs) as (cl & cr & sl & k' & v' & sr & -> & Hsl & Hsr). unfold fixLeft_black. rb.
  rewrite (isrb_color _ _ _ Hsl), (isrb_color _ _ _ Hsr). destruct cr; [|destruct cl].
  - destruct (isrb_red_inv _ _ Hsr) as (a & ka & va & b & -> & Ha & Hb). rewrite (bool_decide_eq_false_2 (R = B)), andb_false_r by done. rb.
    eexists _, false. split_and!; [done|flat|]. destruct c; eauto 6 with rb.
  - destruct (isrb_red_inv _ _ Hsl) as (a & ka & va & b & -> & Ha & Hb). rewrite (bool_decide_eq_false_2 (R = B)) by done. cbn [andb]. rb.
    rewrite (bool_decide_eq_true_2 (B = B)) by done. rb. eexists _, false. split_and!; [done|flat|]. destruct c; eauto 8 with rb.
  - rewrite (bool_decide_eq_true_2 (B = B)) by done. cbn [andb]. rb. eexists _, _. split_and!; [done|flat|]. destruct c.
    + rewrite bool_decide_eq_false_2 by done. eauto 6 with rb.
    + rewrite bool_decide_eq_true_2 by done. eauto 6 with rb.
Qed.

Lemma fixRight_black_ok n c r k v s : isrb n B r -> isrb (S n) B s ->
  fixed (height_above c (S n)) c (flatten s ++ (k, v) :: flatten r) (fixRight_black (mk c s k v r) s).
Proof.
  intros Hr Hs. destruct (isrb_black_inv _ _ Hs) as (cl & cr & sl & k' & v' & sr & -> & Hsl & Hsr). unfold fixRight_black. rb.
  rewrite (isrb_color _ _ _ Hsl), (isrb_color _ _ _ Hsr). destruct cl; [|destruct cr].
  - destruct (isrb_red_inv _ _ Hsl) as (a & ka & va & b & -> & Ha & Hb). rewrite (bool_decide_eq_false_2 (R = B)) by done. cbn [andb]. rb.
    eexists _, false. split_and!; [done|flat|]. destruct c; eauto 6 with rb.
  - destruct (isrb_red_inv _ _ Hsr) as (a & ka & va & b & -> & Ha & Hb). rewrite (bool_decide_eq_false_2 (R = B)), andb_false_r by done. rb.
    rewrite (bool_decide_eq_true_2 (B = B)) by done. rb. eexists _, false. split_and!; [done|flat|]. destruct c; eauto 8 with rb.
  - rewrite (bool_decide_eq_true_2 (B = B)) by done. cbn [andb]. rb. eexists _, _. split_and!; [done|flat|]. destruct c.
    + rewrite bool_decide_eq_false_2 by done. eauto 6 with rb.
    + rewrite bool_decide_eq_true_2 by done. eauto 6 with rb.
Qed.

Lemma fixLeft_unfold fuel c l k v s cs : rootColor s = cs ->
  fixDoubleBlackLeft (S fuel) (mk c l k v s) =
    match cs with
    | R => sibling ← paint B s; root ← rotateLeft (mk R l k v sibling); rl ← left root; fixedLeft ← fixDoubleBlackLeft fuel rl;
           rr ← right root; root ← remake (rootColor root) (fst fixedLeft) root rr;
           if negb (snd fixedLeft) then Some (root, false) else sibling ← right root; fixLeft_black root sibling
    | B => fixLeft_black (mk c l k v s) s
    end.
Proof. intros Hs. cbn [RbMap.fixDoubleBlackLeft]. rb. rewrite Hs. by destruct cs. Qed.

Lemma fixRight_unfold fuel c r k v s cs : rootColor s = cs ->
  fixDoubleBlackRight (S fuel) (mk c s k v r) =
    match cs with
    | R => sibling ← paint B s; root ← rotateRight (mk R sibling k v r); rr ← right root; fixedRight ← fixDoubleBlackRight fuel rr;
           rl ← left root; root ← remake (rootColor root) rl root (fst fixedRight);
           if negb (snd fixedRight) then Some (root, false) else sibling ← left root; fixRight_black root sibling
    | B => fixRight_black (mk c s k v r) s
    end.
Proof. intros Hs. cbn [RbMap.fixDoubleBlackRight]. rb. rewrite Hs. by destruct cs. Qed.

Lemma fixLeft_ok n c l k v s cs : isrb n B l -> isrb (S n) cs s -> (c = R -> cs = B) ->
  fixed (height_above c (S n)) c (flatten l ++ (k, v) :: flatten s) (fixDoubleBlackLeft fix_fuel (mk c l k v s)).
Proof.
  intros Hl Hs Hc. unfold fix_fuel. rewrite (fixLeft_unfold 1 c l k v s cs) by by eapply isrb_color.
  destruct cs; [|by apply fixLeft_black_ok]. destruct c; [by specialize (Hc eq_refl)|].
  destruct (isrb_red_inv _ _ Hs) as (sl & k' & v' & sr & -> & Hsl & Hsr). rb.
  rewrite (fixLeft_unfold 0 R l k v sl B) by by eapply isrb_color.
  destruct (fixLeft_black_ok n R l k v sl Hl Hsl) as (m & db & -> & Hf & Hdb). rb. destruct db; [by destruct Hdb|]. destruct Hdb as (c' & Hm & _). cbn [negb].
  eexists _, false. split_and!; [done|rewrite flatten_mk, Hf; flat|]. exists B. split; [|done]. cbn [height_above]. eauto with rb.
Qed.

Lemma fixRight_ok n c r k v s cs : isrb n B r -> isrb (S n) cs s -> (c = R -> cs = B) ->
  fixed (height_above c (S n)) c (flatten s ++ (k, v) :: flatten r) (fixDoubleBlackRight fix_fuel (mk c s k v r)).
Proof.
  intros Hr Hs Hc. unfold fix_fuel. rewrite (fixRight_unfold 1 c r k v s cs) by by eapply isrb_color.
  destruct cs; [|by apply fixRight_black_ok]. destruct c; [by specialize (Hc eq_refl)|].
  destruct (isrb_red_inv _ _ Hs) as (sl & k' & v' & sr & -> & Hsl & Hsr). rb.
  rewrite (fixRight_unfold 0 R r k v sr B) by by eapply isrb_color.
  destruct (fixRight_black_ok n R r k v sr Hr Hsr) as (m & db & -> & Hf & Hdb). rb. destruct db; [by destruct Hdb|]. destruct Hdb as (c' & Hm & _). cbn [negb].
  eexists _, false. split_and!; [done|rewrite flatten_mk, Hf; flat|]. exists B. split; [|done]. cbn [height_above]. eauto with rb.
Qed.

Lemma with_left_ok n c cl cr content k v r res : fixed n cl content (Some res) -> isrb n cr r -> (c = R -> cl = B /\ cr = B) ->
  fixed (height_above c n) c (content ++ (k, v) :: flatten r) (with_left key_size value_size c k v r res).
Proof.
  intros (l' & db & [= ->] & <- & Hdb) Hr Hc. unfold with_left. cbn [fst snd]. destruct db.
  - destruct Hdb as (-> & n' & -> & Hl'). eapply fixLeft_ok; [done|done|]. intros ->. by destruct Hc.
  - destruct Hdb as (c' & Hl' & Hb). eexists _, false. split_and!; [done|done|]. destruct c.
    + destruct (Hc eq_refl) as [-> ->]. rewrite Hb in Hl' by done. eauto with rb.
    + eauto with rb.
Qed.

Lemma with_right_ok n c cl cr content k v l res : fixed n cr content (Some res) -> isrb n cl l -> (c = R -> cl = B /\ cr = B) ->
  fixed (height_above c n) c (flatten l ++ (k, v) :: content) (with_right key_size value_size c l k v res).
Proof.
  intros (r' & db & [= ->] & <- & Hdb) Hl Hc. unfold with_right. cbn [fst snd]. destruct db.
  - destruct Hdb as (-> & n' & -> & Hr'). eapply fixRight_ok; [done|done|]. intros ->. by destruct Hc.
  - destruct Hdb as (c' & Hr' & Hb). eexists _, false. split_and!; [done|done|]. destruct c.
    + destruct (Hc eq_refl) as [-> ->]. rewrite Hb in Hr' by done. eauto with rb.
    + eauto with rb.
Qed.

Lemma minimum_ok c l k v r : exists e rest, minimum (mk c l k v r) = Some e /\ flatten (mk c l k v r) = e :: rest.
Proof.
  change (exists e rest, (if is_empty l then Some (k, v) else minimum l) = Some e /\ (flatten l ++ (k, v) :: flatten r)%list = e :: rest).
  revert k v r. induction l as [|c' l IH k' v' r' _ s ss]; intros k v r; cbn [is_empty]; [by exists (k, v), (flatten r)|].
  destruct (IH k' v' r') as (e & rest & He & Hf). cbn [minimum flatten]. rewrite He, Hf. by eexists _, _.
Qed.

(** The list without a key. *)
Definition without (key : K) (l : list (K * V)) : list (K * V) := filter (fun e => e.1 <> key) l.

Lemma without_none key l : Forall (fun e => e.1 <> key) l -> without key l = l.
Proof. induction 1 as [|e l He _ IH]; [done|]. unfold without in *. rewrite filter_cons_True by done. by rewrite IH. Qed.

Lemma without_before key v l : Forall (fun e => before e (key, v)) l -> without key l = l.
Proof. intros Hl. apply without_none. eapply Forall_impl; [exact Hl|]. intros [z u] Hz E. unfold before in Hz. cbn in Hz, E. subst z. by rewrite key_lt_irrefl in Hz. Qed.

Lemma without_after key v l : Forall (before (key, v)) l -> without key l = l.
Proof. intros Hl. apply without_none. eapply Forall_impl; [exact Hl|]. intros [z u] Hz E. unfold before in Hz. cbn in Hz, E. subst z. by rewrite key_lt_irrefl in Hz. Qed.

Lemma without_mid key l y w r : without key (l ++ (y, w) :: r) = (without key l ++ (if decide (y = key) then [] else [(y, w)]) ++ without key r)%list.
Proof. unfold without. rewrite filter_app, filter_cons. cbn. by case_decide; case_decide. Qed.

Lemma remove_mk key c l k v r : _remove key_size value_size key (mk c l k v r) =
  if key_lt key k then _remove key_size value_size key l ≫= with_left key_size value_size c k v r
  else if key_lt k key then _remove key_size value_size key r ≫= with_right key_size value_size c l k v
  else if bool_decide (key = k) then
    if is_empty l && is_empty r then Some (Empty, bool_decide (c = B))
    else if is_empty l then r' ← paint B r; Some (r', false)
    else if is_empty r then l' ← paint B l; Some (l', false)
    else e ← minimum r; _remove key_size value_size (fst e) r ≫= with_right key_size value_size c l (fst e) (snd e)
  else Some (mk c l k v r, false).
Proof. done. Qed.

Lemma fixed_bind n c content (res : option (Map * bool)) (f : Map * bool -> option (Map * bool)) n' c' content' :
  fixed n c content res -> (forall p, fixed n c content (Some p) -> fixed n' c' content' (f p)) -> fixed n' c' content' (res ≫= f).
Proof. intros (m & db & -> & Hf & Hd) Hk. apply Hk. by exists m, db. Qed.

Lemma is_empty_inv n c m : isrb n c m -> is_empty m = true -> m = Empty /\ n = 0%nat /\ c = B.
Proof. by destruct 1. Qed.

Lemma nonempty_inv n c m : isrb n c m -> is_empty m = false -> exists l k v r, m = mk c l k v r.
Proof. destruct 1; [done| |]; eauto. Qed.

(** A tree without black nodes that is not empty is a red node. *)
Lemma flat_inv c m : isrb 0 c m -> is_empty m = false -> c = R /\ exists l k v r, m = mk R l k v r /\ isrb 0 B l /\ isrb 0 B r.
Proof. intros Hm. inversion Hm as [| |]; subst; [done|]. intros _. split; [done|]. eauto 10. Qed.

Lemma remove_root n c cl cr l r : isrb n cl l -> isrb n cr r -> (c = R -> cl = B /\ cr = B) ->
  (forall key, fixed n cr (without key (flatten r)) (_remove key_size value_size key r)) -> ordered (flatten r) ->
  fixed (height_above c n) c (flatten l ++ flatten r)
    (if is_empty l && is_empty r then Some (Empty, bool_decide (c = B))
     else if is_empty l then r' ← paint B r; Some (r', false)
     else if is_empty r then l' ← paint B l; Some (l', false)
     else e ← minimum r; _remove key_size value_size (fst e) r ≫= with_right key_size value_size c l (fst e) (snd e)).
Proof.
  intros Hl Hr Hc IH Ho. destruct (is_empty l) eqn:El; [|destruct (is_empty r) eqn:Er]; cbn [andb].
  - destruct (is_empty_inv _ _ _ Hl El) as (-> & -> & ->). destruct (is_empty r) eqn:Er; cbn [flatten app].
    + destruct (is_empty_inv _ _ _ Hr Er) as (-> & _ & ->). eexists _, _. split_and!; [done|done|]. destruct c.
      * rewrite bool_decide_eq_false_2 by done. eauto with rb.
      * rewrite bool_decide_eq_true_2 by done. eauto with rb.
    + destruct (flat_inv _ _ Hr Er) as (-> & a & ka & va & b & -> & Ha & Hb). rb. eexists _, false. split_and!; [done|done|]. destruct c; [by destruct Hc|]. eauto with rb.
  - destruct (is_empty_inv _ _ _ Hr Er) as (-> & -> & ->). cbn [flatten]. rewrite app_nil_r.
    destruct (flat_inv _ _ Hl El) as (-> & a & ka & va & b & -> & Ha & Hb). rb. eexists _, false. split_and!; [done|done|]. destruct c; [by destruct Hc|]. eauto with rb.
  - destruct (nonempty_inv _ _ _ Hr Er) as (a & ka & va & b & E). destruct (minimum_ok cr a ka va b) as ([k' v'] & rest & Hmin & Hf). rewrite <- E in Hmin, Hf.
    rewrite Hmin, option_bind_some, Hf. cbn [fst snd]. eapply fixed_bind; [apply IH|]. intros p Hp. eapply with_right_ok; [|done|done].
    rewrite Hf in Hp, Ho. apply StronglySorted_cons in Ho as [Ho _]. unfold without in Hp. rewrite filter_cons_False in Hp by (by intros []).
    fold (without k' rest) in Hp. by rewrite (without_after k' v' rest) in Hp.
Qed.

Lemma remove_node n c cl cr l k v r key : isrb n cl l -> isrb n cr r -> (c = R -> cl = B /\ cr = B) ->
  (forall key, fixed n cl (without key (flatten l)) (_remove key_size value_size key l)) ->
  (forall key, fixed n cr (without key (flatten r)) (_remove key_size value_size key r)) ->
  ordered (flatten l ++ (k, v) :: flatten r) ->
  fixed (height_above c n) c (without key (flatten l ++ (k, v) :: flatten r)) (_remove key_size value_size key (mk c l k v r)).
Proof.
  intros Hl Hr Hc IHl IHr Ho. apply rb_ordered_app in Ho as (Ho1 & Ho2 & Hb1 & Hb2). rewrite remove_mk, without_mid.
  destruct (key_lt key k) eqn:Hk; [|destruct (key_lt k key) eqn:Hk'].
  - rewrite decide_False by (intros ->; by rewrite key_lt_irrefl in Hk). rewrite (without_after key v (flatten r)).
    + eapply fixed_bind; [apply IHl|]. intros p Hp. by eapply with_left_ok.
    + eapply Forall_impl; [exact Hb2|]. intros [z u] Hz. unfold before in *. by eapply key_lt_trans.
  - rewrite decide_False by (intros ->; by rewrite key_lt_irrefl in Hk'). rewrite (without_before key v (flatten l)).
    + eapply fixed_bind; [apply IHr|]. intros p Hp. by eapply with_right_ok.
    + eapply Forall_impl; [exact Hb1|]. intros [z u] Hz. unfold before in *. by eapply key_lt_trans.
  - pose proof (key_lt_total _ _ Hk Hk') as ->. rewrite decide_True, bool_decide_eq_true_2 by done. cbn [app].
    rewrite (without_before k v), (without_after k v) by done. by eapply remove_root.
Qed.

Lemma remove_inner_ok m n c key : isrb n c m -> ordered (flatten m) -> fixed n c (without key (flatten m)) (_remove key_size value_size key m).
Proof.
  intros Hm. revert key. induction Hm as [|n l k w r Hl IHl Hr IHr|n cl cr l k w r Hl IHl Hr IHr]; intros key Ho; rewrite ?flatten_mk in *.
  - exists Empty, false. split_and!; [done|done|]. eauto with rb.
  - pose proof (proj1 (rb_ordered_app _ _ _) Ho) as (Ho1 & Ho2 & _). apply (remove_node n R B B); auto.
  - pose proof (proj1 (rb_ordered_app _ _ _) Ho) as (Ho1 & Ho2 & _). apply (remove_node n B cl cr); auto. done.
Qed.

Lemma remove_ok m n key : isrb n B m -> ordered (flatten m) ->
  exists n' m', remove key_size value_size key m = Some m' /\ isrb n' B m' /\ flatten m' = without key (flatten m).
Proof.
  intros Hm Ho. destruct (remove_inner_ok m n B key Hm Ho) as (m' & db & Hr & Hf & Hd). unfold remove. rewrite Hr, option_bind_some. cbn [fst snd].
  destruct db.
  - destruct Hd as (_ & n' & -> & Hm'). rewrite (isrb_color _ _ _ Hm'), bool_decide_eq_false_2 by done. by exists n', m'.
  - destruct Hd as (c' & Hm' & Hc). rewrite Hc in Hm' by done. by exists n, m'.
Qed.

(** ** The finite map *)

Lemma ordered_linsert x v l : ordered l -> ordered (linsert x v l).
Proof.
  unfold ordered. induction l as [|[y w] l IH]; intros Ho; cbn [linsert]; [by repeat constructor|]. apply StronglySorted_cons in Ho as [Hy Ho].
  destruct (key_lt x y) eqn:Hx; [|destruct (key_lt y x) eqn:Hx'].
  - apply StronglySorted_cons. split; [|by apply StronglySorted_cons]. constructor; [done|]. eapply Forall_impl; [exact Hy|]. intros [z u] Hz. unfold before in *. by eapply key_lt_trans.
  - apply StronglySorted_cons. split; [|by apply IH]. clear IH Ho. induction Hy as [|[z u] l Hz Hy IH]; cbn [linsert]; [by repeat constructor|]. by repeat case_match; repeat constructor.
  - by apply StronglySorted_cons.
Qed.

Lemma ordered_without key l : ordered l -> ordered (without key l).
Proof.
  unfold ordered, without. induction 1 as [|e l Ho IH He]; [constructor|]. rewrite filter_cons. case_decide; [|done].
  apply StronglySorted_cons. split; [|done]. apply Forall_forall. intros x [_ Hx]%list_elem_of_filter. rewrite Forall_forall in He. by apply He.
Qed.

Lemma linsert_map x v l : ordered l -> list_to_map (linsert x v l) = <[x := v]> (list_to_map l : gmap K V).
Proof.
  unfold ordered. induction l as [|[y w] l IH]; intros Ho; cbn [linsert]; [done|]. apply StronglySorted_cons in Ho as [Hy Ho].
  destruct (key_lt x y) eqn:Hx; [done|destruct (key_lt y x) eqn:Hx']; cbn [list_to_map foldr fst snd].
  - rewrite IH by done. apply insert_insert_ne. intros ->. by rewrite key_lt_irrefl in Hx'.
  - pose proof (key_lt_total _ _ Hx Hx') as ->. by rewrite insert_insert_eq.
Qed.

Lemma without_map key l : list_to_map (without key l) = delete key (list_to_map l : gmap K V).
Proof.
  unfold without. induction l as [|[y w] l IH]; [cbn; by rewrite (delete_empty key)|]. rewrite filter_cons. case_decide as E; cbn [list_to_map foldr fst snd] in *.
  - rewrite IH. by rewrite delete_insert_ne.
  - assert (y = key) as -> by (destruct (decide (y = key)); tauto). by rewrite delete_insert_eq.
Qed.

Lemma ordered_nodup l : ordered l -> NoDup l.*1.
Proof.
  unfold ordered. induction 1 as [|[y w] l Hs IH Hy]; cbn; constructor; [|done]. intros ([z u] & -> & Hin)%list_elem_of_fmap.
  rewrite Forall_forall in Hy. specialize (Hy _ Hin). unfold before in Hy. cbn in Hy. by rewrite key_lt_irrefl in Hy.
Qed.

Lemma absent key (l : list (K * V)) : Forall (fun e => e.1 <> key) l -> (list_to_map l : gmap K V) !! key = None.
Proof. intros Hl. apply not_elem_of_list_to_map_1. intros (e & -> & Hin)%list_elem_of_fmap. rewrite Forall_forall in Hl. by apply (Hl e). Qed.

Lemma after_absent key k v (l : list (K * V)) : key_lt key k = true -> Forall (before (k, v)) l -> Forall (fun e => e.1 <> key) l.
Proof.
  intros Hk Hl. eapply Forall_impl; [exact Hl|]. intros [z u] Hz E. unfold before in Hz. cbn in Hz, E. subst z.
  pose proof (key_lt_trans _ _ _ Hk Hz) as E. by rewrite key_lt_irrefl in E.
Qed.

Lemma before_absent key k v (l : list (K * V)) : key_lt k key = true -> Forall (fun e => before e (k, v)) l -> Forall (fun e => e.1 <> key) l.
Proof.
  intros Hk Hl. eapply Forall_impl; [exact Hl|]. intros [z u] Hz E. unfold before in Hz. cbn in Hz, E. subst z.
  pose proof (key_lt_trans _ _ _ Hz Hk) as E. by rewrite key_lt_irrefl in E.
Qed.

Lemma getp_ok m key : ordered (flatten m) -> getp key m = (list_to_map (flatten m) : gmap K V) !! key.
Proof.
  induction m as [|c l IHl k v r IHr s ss]; intros Ho; [done|]. cbn [getp flatten] in *. apply rb_ordered_app in Ho as (Ho1 & Ho2 & Hb1 & Hb2).
  rewrite list_to_map_app, lookup_union. cbn [list_to_map foldr fst snd]. destruct (key_lt key k) eqn:Hk; [|destruct (key_lt k key) eqn:Hk'].
  - rewrite IHl by done. rewrite lookup_insert_ne by (intros ->; by rewrite key_lt_irrefl in Hk). rewrite (absent key (flatten r)) by by eapply after_absent.
    by rewrite (right_id_L None union).
  - rewrite IHr by done. rewrite lookup_insert_ne by (intros ->; by rewrite key_lt_irrefl in Hk'). rewrite (absent key (flatten l)) by by eapply before_absent.
    by rewrite (left_id_L None union).
  - pose proof (key_lt_total _ _ Hk Hk') as ->. rewrite lookup_insert_eq, (absent k (flatten l)); [done|].
    eapply Forall_impl; [exact Hb1|]. intros [z u] Hz E. unfold before in Hz. cbn in Hz, E. subst z. by rewrite key_lt_irrefl in Hz.
Qed.

(** ** Sizes and balance *)

Definition entry_size (e : K * V) : N := Champ.size_with_padding (key_size e.1) + Champ.size_with_padding (value_size e.2).
Definition entries_size (l : list (K * V)) : N := foldr (fun e n => entry_size e + n) 0 l.

Lemma entries_size_app l1 l2 : entries_size (l1 ++ l2) = entries_size l1 + entries_size l2.
Proof. unfold entries_size. induction l1 as [|e l1 IH]; cbn [app foldr]; [done|]. rewrite IH. lia. Qed.

Lemma sizes_ok n c m : isrb n c m -> RbMap.size m = N.of_nat (length (flatten m)) /\ get_serialized_size m = entries_size (flatten m).
Proof.
  induction 1 as [|n l k v r Hl [IHl1 IHl2] Hr [IHr1 IHr2]|n cl cr l k v r Hl [IHl1 IHl2] Hr [IHr1 IHr2]]; [done| |];
    rewrite flatten_mk, length_app, entries_size_app; unfold RbMap.mk; cbn [RbMap.size get_serialized_size length entries_size foldr]; fold (entries_size (flatten r));
    rewrite IHl1, IHl2, IHr1, IHr2; unfold entry_size; cbn [fst snd]; lia.
Qed.

Lemma check_ok n c m bc : isrb n c m -> _check m bc = Some (bc + 1 + 2 * N.of_nat n).
Proof.
  intros Hm. revert bc. induction Hm as [|n l k v r Hl IHl Hr IHr|n cl cr l k v r Hl IHl Hr IHr]; intros bc; unfold RbMap.mk; cbn [_check].
  - f_equal. lia.
  - rewrite (isrb_color _ _ _ Hl), (isrb_color _ _ _ Hr), (bool_decide_eq_false_2 (B = R)), !andb_false_r by done. cbn [orb andb].
    rewrite ?andb_false_r, (bool_decide_eq_false_2 (R = B)) by done. rewrite IHl, IHr. cbn [mbind option_bind]. rewrite N.eqb_refl. f_equal. lia.
  - rewrite (bool_decide_eq_false_2 (B = R)) by done. cbn [andb]. rewrite (bool_decide_eq_true_2 (B = B)) by done.
    rewrite IHl, IHr. cbn [mbind option_bind]. rewrite N.eqb_refl. f_equal. lia.
Qed.

Fixpoint depth (m : Map) : nat := match m with Empty => 0 | Node _ l _ _ r _ _ => S (Nat.max (depth l) (depth r)) end.

Lemma depth_ok n c m : isrb n c m -> (depth m <= 2 * n + match c with R => 1 | B => 0 end)%nat /\ (2 ^ n <= length (flatten m) + 1)%nat.
Proof.
  induction 1 as [|n l k v r Hl [IHl1 IHl2] Hr [IHr1 IHr2]|n cl cr l k v r Hl [IHl1 IHl2] Hr [IHr1 IHr2]]; [cbn; lia| |];
    rewrite flatten_mk, length_app; unfold RbMap.mk; cbn [depth length].
  - split; lia.
  - split; [destruct cl, cr; lia|]. rewrite Nat.pow_succ_r'. lia.
Qed.

(** [foreach] visits the entries in order, until it is told to stop. *)
Fixpoint visit {A} (f : K -> V -> A -> A * bool) (l : list (K * V)) (a : A) : A * bool :=
  match l with
  | [] => (a, true)
  | (k, v) :: l => let '(a, go) := f k v a in if negb go then (a, false) else visit f l a
  end.

Lemma rb_visit_app {A} (f : K -> V -> A -> A * bool) l1 l2 a :
  visit f (l1 ++ l2) a = let '(a, go) := visit f l1 a in if negb go then (a, false) else visit f l2 a.
Proof. revert a. induction l1 as [|[k v] l1 IH]; intros a; cbn [app visit]; [done|]. destruct (f k v a) as [a' []]; cbn [negb]; [apply IH|done]. Qed.

Lemma foreach_ok {A} (f : K -> V -> A -> A * bool) m a : foreach f m a = visit f (flatten m) a.
Proof.
  revert a. induction m as [|c l IHl k v r IHr s ss]; intros a; [done|]. cbn [foreach flatten]. rewrite rb_visit_app, IHl. destruct (visit f (flatten l) a) as [a' []]; cbn [negb]; [|done].
  cbn [visit]. destruct (f k v a') as [a'' []]; cbn [negb]; [apply IHr|done].
Qed.

(** A snapshot fills its buffer. *)
Section serialize.
Context (serialize_key : K -> bytes) (serialize_value : V -> bytes).
Definition serialize_entry (e : K * V) : bytes := (add_padding (serialize_key e.1) ++ add_padding (serialize_value e.2))%list.

Lemma serialize_flatten m : serialize serialize_key serialize_value m = concat (serialize_entry <$> flatten m).
Proof.
  unfold serialize. rewrite foreach_ok. rewrite <- (app_nil_l (concat _)). generalize (@nil Byte.byte) as data. induction (flatten m) as [|[k v] l IH]; intros data; cbn [visit negb fmap list_fmap concat fst].
  - by rewrite app_nil_r.
  - rewrite IH. unfold serialize_entry. cbn [fst snd]. by rewrite !app_assoc.
Qed.

Lemma length_add_padding b n : n = N.of_nat (length b) -> n < 2 ^ 32 - 8 -> N.of_nat (length (add_padding b)) = Champ.size_with_padding n.
Proof.
  intros -> Hb. unfold add_padding, Champ.size_with_padding. rewrite length_app, length_replicate, Nat2N.inj_add, N2Nat.id.
  unfold Champ.u32. rewrite (N.mod_small (N.of_nat (length b))) by lia. rewrite (N.mod_small (_ + _)); [done|].
  assert (Champ.get_padding (N.of_nat (length b)) <= 8) by (unfold Champ.get_padding; destruct (_ =? 0); [done|apply N.le_sub_l]). lia.
Qed.

Lemma serialize_fills n c m : isrb n c m ->
  Forall (fun e => key_size e.1 = N.of_nat (length (serialize_key e.1)) /\ value_size e.2 = N.of_nat (length (serialize_value e.2)) /\
    key_size e.1 < 2 ^ 32 - 8 /\ value_size e.2 < 2 ^ 32 - 8) (flatten m) ->
  N.of_nat (length (serialize serialize_key serialize_value m)) = get_serialized_size m.
Proof.
  intros Hm Hs. destruct (sizes_ok _ _ _ Hm) as [_ ->]. rewrite serialize_flatten. induction Hs as [|e l (Hk & Hv & Hk' & Hv') Hs IH]; [done|].
  cbn [fmap list_fmap concat entries_size foldr]. rewrite length_app, Nat2N.inj_add, IH. fold (entries_size l). unfold serialize_entry, entry_size.
  by rewrite length_app, Nat2N.inj_add, (length_add_padding _ _ Hk Hk'), (length_add_padding _ _ Hv Hv').
Qed.
End serialize.

(** ** Runs *)

Inductive RbOp := Put (k : K) (v : V) | Remove (k : K).
Definition rb_step (m : Map) (op : RbOp) : option Map :=
  match op with Put k v => put key_size value_size k v m | Remove k => remove key_size value_size k m end.
Fixpoint rb_run (ops : list RbOp) (m : Map) : option Map :=
  match ops with
  | [] => Some m
  | op :: ops => m' ← rb_step m op; rb_run ops m'
  end.
Definition spec_step (s : gmap K V) (op : RbOp) : gmap K V := match op with Put k v => <[k := v]> s | Remove k => delete k s end.

Record rb_inv (m : Map) (s : gmap K V) : Prop := {
  ri_tree : exists n, isrb n B m;
  ri_order : ordered (flatten m);
  ri_map : list_to_map (flatten m) = s;
}.

Lemma rb_step_inv m s op : rb_inv m s -> exists m', rb_step m op = Some m' /\ rb_inv m' (spec_step s op).
Proof.
  intros [[n Hn] Ho Hs]. destruct op as [k v|k]; cbn [rb_step spec_step].
  - destruct (put_ok k v m n Hn Ho) as (n' & m' & -> & Hm' & Hf). exists m'. split; [done|]. split; rewrite ?Hf; [by exists n'|by apply ordered_linsert|by rewrite linsert_map, Hs].
  - destruct (remove_ok m n k Hn Ho) as (n' & m' & -> & Hm' & Hf). exists m'. split; [done|]. split; rewrite ?Hf; [by exists n'|by apply ordered_without|by rewrite without_map, Hs].
Qed.

Lemma rb_run_inv ops m s : rb_inv m s -> exists m', rb_run ops m = Some m' /\ rb_inv m' (foldl spec_step s ops).
Proof.
  revert m s. induction ops as [|op ops IH]; intros m s Hm; [by exists m|]. cbn [rb_run foldl].
  destruct (rb_step_inv m s op Hm) as (m' & -> & Hm'). rewrite option_bind_some. by apply IH.
Qed.

(** C26. The red-black tree is a finite map. Whatever puts and removals it has
    been through, no operation reads a part of an empty tree, a lookup finds
    the last value put under a key that has not been removed since, iteration
    visits every entry once in the order of the keys, the sizes are those of
    the entries, the check of the source accepts the tree, and its depth is at
    most twice the logarithm of its size. *)
Theorem rb_is_a_map (ops : list RbOp) (s := foldl spec_step ∅ ops) :
  exists m, rb_run ops Empty = Some m /\
    (forall k, get k m = s !! k) /\
    (exists l, l ≡ₚ map_to_list s /\ ordered l /\ get_serialized_size m = entries_size l /\
       forall A (f : K -> V -> A -> A * bool) a, foreach f m a = visit f l a) /\
    RbMap.size m = N.of_nat (base.size s) /\ check m = true /\ N.of_nat (depth m) <= 2 * N.log2 (RbMap.size m + 1).
Proof.
  destruct (rb_run_inv ops Empty ∅) as (m & Hrun & [[n Hn] Ho Hs]); [split; [exists 0%nat; constructor|constructor|done]|]. fold s in Hs.
  assert (flatten m ≡ₚ map_to_list s) as Hperm by (rewrite <- Hs; symmetry; apply map_to_list_to_map; by apply ordered_nodup).
  destruct (sizes_ok _ _ _ Hn) as [Hsize Hser]. exists m. split_and!; [done| | | | |].
  - intros k. unfold get. by rewrite getp_ok, Hs.
  - exists (flatten m). split_and!; [done|done|done|]. intros A f a. apply foreach_ok.
  - rewrite Hsize, Hperm. by rewrite length_map_to_list.
  - unfold check. by rewrite (check_ok n B m 0 Hn), bool_decide_eq_true_2.
  - rewrite Hsize. destruct (depth_ok _ _ _ Hn) as [Hd Hp]. assert (N.of_nat n <= N.log2 (N.of_nat (length (flatten m)) + 1)); [|lia].
    apply N.log2_le_pow2; [lia|]. change 2 with (N.of_nat 2). rewrite <- Nat2N.inj_pow. lia.
Qed.
End spec.

#[local] Instance N_order : KeyOrder N := N.ltb.
#[local] Instance N_order_laws : KeyOrderLaws N.
Proof. split; unfold key_lt, N_order; [apply N.ltb_irrefl|intros x y z; rewrite !N.ltb_lt; lia|intros x y; rewrite !N.ltb_ge; lia]. Qed.

Lemma rb_is_a_map_witness :
  exists m, rb_run (fun _ => 8) (fun _ => 8) [Put 1 10; Put 2 20; Put 3 30; Remove 2; Put 1 40] Empty = Some m /\
    get 1 m = Some 40 /\ get 2 m = None /\ RbMap.size m = 2 /\ check m = true.
Proof.
  destruct (rb_is_a_map (fun _ : N => 8) (fun _ : N => 8) [Put 1 10; Put 2 20; Put 3 30; Remove 2; Put 1 40]) as (m & Hrun & Hget & _ & Hsize & Hcheck & _).
  exists m. split_and!; [exact Hrun|rewrite Hget; vm_eq|rewrite Hget; vm_eq|rewrite Hsize; vm_eq|exact Hcheck].
Defined.
End RbMapSpec.
