(* ===== verification/RaftTypes.v ===== *)
(** * Consensus: data

    The types of src/consensus/aft/raft_types.h, [aft::State]
    (src/consensus/aft/impl/state.h), the configuration types of
    src/kv/kv_types.h, the consensus hook of src/node/hooks.h and the object
    state of [aft::Aft] (src/consensus/aft/raft.h), with the interfaces it is
    written against: [aft::Store], the node-to-node channels and the random
    number generator. *)

From S2P Require Import Prelude ViewHistory TxStatus CommitCallbacks LedgerEntries.
From Stdlib Require Import Init.Byte Strings.Byte.

Open Scope N_scope.

Abbreviation Index := N (only parsing).
Abbreviation Term := N (only parsing).
Abbreviation NodeId := string (only parsing).

Definition starting_view_change : N := 2.

(** ** kv_types.h *)

Record NodeInfo := mkNodeInfo { hostname : string; port : string }.

#[export] Instance NodeInfo_eq_dec : EqDecision NodeInfo.
Proof. solve_decision. Defined.

Abbreviation Nodes := (gmap string NodeInfo) (only parsing).

Record Configuration := mkConfiguration { conf_idx : SeqNo; conf_nodes : Nodes; conf_rid : N }.

Inductive LeadershipState := LSNone | Leader | Follower | PreVoteCandidate | Candidate.
Inductive MembershipState := Active | Retired.
Inductive RetirementPhase := Ordered | Signed | Completed | RetiredCommitted.
Inductive SignatureDisposition := CANT_REPLICATE | CAN_SIGN | SHOULD_SIGN.

#[export] Instance LeadershipState_eq_dec : EqDecision LeadershipState.
Proof. solve_decision. Defined.
#[export] Instance MembershipState_eq_dec : EqDecision MembershipState.
Proof. solve_decision. Defined.
#[export] Instance RetirementPhase_eq_dec : EqDecision RetirementPhase.
Proof. solve_decision. Defined.

Inductive ApplyResult :=
| PASS | PASS_SIGNATURE | PASS_BACKUP_SIGNATURE | PASS_BACKUP_SIGNATURE_SEND_ACK
| PASS_NONCES | PASS_NEW_VIEW | PASS_ENCRYPTED_PAST_LEDGER_SECRET | PASS_APPLY | FAIL.

#[export] Instance ApplyResult_eq_dec : EqDecision ApplyResult.
Proof. solve_decision. Defined.

(** Keys in the iteration order of [std::map<NodeId, _>]. *)
Definition ordered_keys {A} (m : gmap string A) : list NodeId :=
  merge_sort string_le (map_to_list m).*1.

(** ** hooks.h *)

Inductive NodeStatus := NodePENDING | NodeTRUSTED | NodeRETIRED.

Record ConfigurationChangeHook := mkHook {
  hook_version : Version;
  cfg_delta : gmap string (option NodeInfo);
}.

(** The constructor: a write to the nodes table maps a node to its status and
    address, or to [None] when the row is deleted. *)
Definition make_hook (version : Version) (w : gmap string (option (NodeStatus * NodeInfo)))
  : ConfigurationChangeHook :=
  mkHook version
    (omap (fun opt_ni =>
       match opt_ni with
       | None => None
       | Some (NodePENDING, _) => None
       | Some (NodeTRUSTED, addr) => Some (Some addr)
       | Some (NodeRETIRED, _) => Some None
       end) w).

(** The loop of [call]: [try_emplace] keeps the address of a known node. *)
Definition apply_delta (delta : gmap string (option NodeInfo)) (configuration : Nodes) : Nodes :=
  foldl (fun configuration '(node_id, opt_ni) =>
    match opt_ni with
    | Some ni =>
        match configuration !! node_id with
        | Some _ => configuration
        | None => <[node_id := ni]> configuration
        end
    | None => delete node_id configuration
    end) configuration (map_to_list delta).

(** ** raft_types.h *)

Inductive RaftMsgType :=
| raft_append_entries | raft_append_entries_response | raft_append_entries_signed_response
| raft_request_vote | raft_request_vote_response | raft_propose_request_vote
| raft_request_pre_vote | raft_request_pre_vote_response.

(** The message type on the wire, [None] for a value outside the enumeration. *)
Definition msg_type_of_N (n : N) : option RaftMsgType :=
  match n with
  | 0 => Some raft_append_entries
  | 1 => Some raft_append_entries_response
  | 2 => Some raft_append_entries_signed_response
  | 3 => Some raft_request_vote
  | 4 => Some raft_request_vote_response
  | 5 => Some raft_propose_request_vote
  | 6 => Some raft_request_pre_vote
  | 7 => Some raft_request_pre_vote_response
  | _ => None
  end.

Record AppendEntries := mkAppendEntries {
  ae_idx : Index;
  ae_prev_idx : Index;
  ae_term : Term;
  ae_prev_term : Term;
  ae_leader_commit_idx : Index;
  ae_term_of_idx : Term;
}.

Inductive AppendEntriesResponseType := AE_OK | AE_FAIL.
#[export] Instance AppendEntriesResponseType_eq_dec : EqDecision AppendEntriesResponseType.
Proof. solve_decision. Defined.

Record AppendEntriesResponse := mkAppendEntriesResponse {
  aer_term : Term;
  aer_last_log_idx : Index;
  aer_success : AppendEntriesResponseType;
}.

Inductive ElectionType := PreVote | RegularVote.
#[export] Instance ElectionType_eq_dec : EqDecision ElectionType.
Proof. solve_decision. Defined.

(** [RequestVote] and [RequestPreVote] have the same fields. *)
Record RequestVote := mkRequestVote {
  rv_term : Term;
  rv_last_committable_idx : Index;
  rv_term_of_last_committable_idx : Term;
}.

(** [RequestVoteResponse] and [RequestPreVoteResponse]. *)
Record RequestVoteResponse := mkRequestVoteResponse { rvr_term : Term; rvr_vote_granted : bool }.

Record ProposeRequestVote := mkProposeRequestVote { prv_term : Term }.

Inductive RaftMsg :=
| MsgAppendEntries (r : AppendEntries)
| MsgAppendEntriesResponse (r : AppendEntriesResponse)
| MsgRequestVote (r : RequestVote)
| MsgRequestPreVote (r : RequestVote)
| MsgRequestVoteResponse (r : RequestVoteResponse)
| MsgRequestPreVoteResponse (r : RequestVoteResponse)
| MsgProposeRequestVote (r : ProposeRequestVote).

(** The struct a message of each type is decoded to. *)
Definition msg_struct (type : RaftMsgType) : Type :=
  match type with
  | raft_append_entries => AppendEntries
  | raft_append_entries_response => AppendEntriesResponse
  | raft_append_entries_signed_response => unit
  | raft_request_vote => RequestVote
  | raft_request_vote_response => RequestVoteResponse
  | raft_propose_request_vote => ProposeRequestVote
  | raft_request_pre_vote => RequestVote
  | raft_request_pre_vote_response => RequestVoteResponse
  end.

(** ** state.h *)

Record State := mkState {
  node_id : NodeId;
  current_view : View;
  last_idx : Version;
  commit_idx : Version;
  view_history : list Version;
  committable_indices : list Index;       (* std::deque, front first *)
  leadership_state : LeadershipState;
  membership_state : MembershipState;
  retirement_phase : option RetirementPhase;
  retirement_idx : option SeqNo;
  retirement_committable_idx : option SeqNo;
  retired_committed_idx : option SeqNo;
  pre_vote_enabled : bool;
}.

Definition eta_State (s : State) : State :=
  mkState (node_id s) (current_view s) (last_idx s) (commit_idx s) (view_history s)
    (committable_indices s) (leadership_state s) (membership_state s) (retirement_phase s)
    (retirement_idx s) (retirement_committable_idx s) (retired_committed_idx s)
    (pre_vote_enabled s).
Definition set_current_view (v : View) (s : State) : State :=
  ltac:(set_field eta_State (current_view s) v s).
Definition set_last_idx (v : Version) (s : State) : State :=
  ltac:(set_field eta_State (last_idx s) v s).
Definition set_commit_idx (v : Version) (s : State) : State :=
  ltac:(set_field eta_State (commit_idx s) v s).
Definition set_view_history (v : list Version) (s : State) : State :=
  ltac:(set_field eta_State (view_history s) v s).
Definition set_committable_indices (v : list Index) (s : State) : State :=
  ltac:(set_field eta_State (committable_indices s) v s).
Definition set_leadership_state (v : LeadershipState) (s : State) : State :=
  ltac:(set_field eta_State (leadership_state s) v s).
Definition set_membership_state (v : MembershipState) (s : State) : State :=
  ltac:(set_field eta_State (membership_state s) v s).
Definition set_retirement_phase (v : option RetirementPhase) (s : State) : State :=
  ltac:(set_field eta_State (retirement_phase s) v s).
Definition set_retirement_idx (v : option SeqNo) (s : State) : State :=
  ltac:(set_field eta_State (retirement_idx s) v s).
Definition set_retirement_committable_idx (v : option SeqNo) (s : State) : State :=
  ltac:(set_field eta_State (retirement_committable_idx s) v s).
Definition set_retired_committed_idx (v : option SeqNo) (s : State) : State :=
  ltac:(set_field eta_State (retired_committed_idx s) v s).

(** The constructor [State(node_id_, pre_vote_enabled_)]. *)
Definition init_State (id : NodeId) (pre_vote : bool) : State :=
  mkState id 0 0 0 [] [] LSNone Active None None None None pre_vote.

(** ** The interface of the key-value store *)

(** What [AbstractExecutionWrapper] gives after [apply]. *)
Record Applied := mkApplied {
  applied_result : ApplyResult;
  applied_hooks : list ConfigurationChangeHook;
  applied_entry : bytes;
  applied_term : Term;
  applied_index : Version;
}.

(** [aft::Store]. [K] is the state behind the interface; [compact] also
    gives the calls to [set_retired_committed] its global hooks make
    (src/node/node_state.h, [setup_basic_hooks]). *)
Class Store (K : Type) := {
  ExecutionWrapper : Type;
  store_compact : Index -> M K (list (SeqNo * list NodeId));
  store_rollback : TxID.t -> Term -> M K unit;
  store_initialise_term : Term -> M K unit;
  store_deserialize : bytes -> bool -> option TxID.t -> M K (option ExecutionWrapper);
  wrapper_apply : ExecutionWrapper -> M K Applied;
}.

(** ** What a node sends out *)

Inductive ChannelOp :=
| Send (to : NodeId) (msg : RaftMsg)
| AssociateNodeAddress (node : NodeId) (info : NodeInfo).

Inductive LedgerOp :=
| LedgerPutEntry (entry : bytes) (globally_committable : bool) (term : Term) (index : Version)
| LedgerTruncate (idx : Index)
| LedgerCommit (idx : Index)
| LedgerInit (idx : Index) (recovery_start_idx : Index).

(** ** raft.h: the object *)

Record NodeState := mkNodeState {
  node_info : NodeInfo;
  sent_idx : Index;
  match_idx : Index;
  last_ack_timeout : N;
}.

Definition eta_NodeState (s : NodeState) : NodeState :=
  mkNodeState (node_info s) (sent_idx s) (match_idx s) (last_ack_timeout s).
Definition set_sent_idx (v : Index) (s : NodeState) : NodeState :=
  ltac:(set_field eta_NodeState (sent_idx s) v s).
Definition set_match_idx (v : Index) (s : NodeState) : NodeState :=
  ltac:(set_field eta_NodeState (match_idx s) v s).
Definition set_last_ack_timeout (v : N) (s : NodeState) : NodeState :=
  ltac:(set_field eta_NodeState (last_ack_timeout s) v s).

Record Votes := mkVotes { votes : gset string; quorum : N }.

(** [channels] and [ledger] are the messages handed to them, oldest first;
    [cleanups] counts the calls to [retired_node_cleanup->cleanup()]; [rand]
    counts the draws from the generator. *)
Record Aft (K : Type) := mkAft {
  store : K;
  voted_for : option NodeId;
  leader_id : option NodeId;
  votes_for_me : gmap N Votes;
  timeout_elapsed : N;
  is_new_follower : bool;
  should_sign : bool;
  state : State;
  request_timeout : N;
  election_timeout : N;
  max_uncommitted_tx_count : N;
  ticking : bool;
  configurations : list Configuration;
  all_other_nodes : gmap string NodeState;
  cleanups : nat;
  commit_callbacks : option CommitCallbacks.t;
  entry_size_not_limited : N;
  entry_count : N;
  entries_batch_size : N;
  batch_window_sum : Z;
  public_only : bool;
  rand : nat;
  ledger : list LedgerOp;
  channels : list ChannelOp;
}.
Arguments mkAft {K}.
Arguments store {K}. Arguments voted_for {K}. Arguments leader_id {K}.
Arguments votes_for_me {K}. Arguments timeout_elapsed {K}. Arguments is_new_follower {K}.
Arguments should_sign {K}. Arguments state {K}. Arguments request_timeout {K}.
Arguments election_timeout {K}. Arguments max_uncommitted_tx_count {K}. Arguments ticking {K}.
Arguments configurations {K}. Arguments all_other_nodes {K}. Arguments cleanups {K}.
Arguments commit_callbacks {K}. Arguments entry_size_not_limited {K}. Arguments entry_count {K}.
Arguments entries_batch_size {K}. Arguments batch_window_sum {K}. Arguments public_only {K}.
Arguments rand {K}. Arguments ledger {K}. Arguments channels {K}.

Section setters.
Context {K : Type}.

Definition eta_Aft (s : Aft K) : Aft K :=
  mkAft (store s) (voted_for s) (leader_id s) (votes_for_me s) (timeout_elapsed s)
    (is_new_follower s) (should_sign s) (state s) (request_timeout s) (election_timeout s)
    (max_uncommitted_tx_count s) (ticking s) (configurations s) (all_other_nodes s) (cleanups s)
    (commit_callbacks s) (entry_size_not_limited s) (entry_count s) (entries_batch_size s)
    (batch_window_sum s) (public_only s) (rand s) (ledger s) (channels s).

Definition set_store (v : K) (s : Aft K) : Aft K := ltac:(set_field eta_Aft (store s) v s).
Definition set_voted_for (v : option NodeId) (s : Aft K) : Aft K :=
  ltac:(set_field eta_Aft (voted_for s) v s).
Definition set_leader_id (v : option NodeId) (s : Aft K) : Aft K :=
  ltac:(set_field eta_Aft (leader_id s) v s).
Definition set_votes_for_me (v : gmap N Votes) (s : Aft K) : Aft K :=
  ltac:(set_field eta_Aft (votes_for_me s) v s).
Definition set_timeout_elapsed (v : N) (s : Aft K) : Aft K :=
  ltac:(set_field eta_Aft (timeout_elapsed s) v s).
Definition set_is_new_follower (v : bool) (s : Aft K) : Aft K :=
  ltac:(set_field eta_Aft (is_new_follower s) v s).
Definition set_should_sign (v : bool) (s : Aft K) : Aft K :=
  ltac:(set_field eta_Aft (should_sign s) v s).
Definition set_state (v : State) (s : Aft K) : Aft K := ltac:(set_field eta_Aft (state s) v s).
Definition set_ticking (v : bool) (s : Aft K) : Aft K := ltac:(set_field eta_Aft (ticking s) v s).
Definition set_configurations (v : list Configuration) (s : Aft K) : Aft K :=
  ltac:(set_field eta_Aft (configurations s) v s).
Definition set_all_other_nodes (v : gmap string NodeState) (s : Aft K) : Aft K :=
  ltac:(set_field eta_Aft (all_other_nodes s) v s).
Definition set_cleanups (v : nat) (s : Aft K) : Aft K := ltac:(set_field eta_Aft (cleanups s) v s).
Definition set_commit_callbacks (v : option CommitCallbacks.t) (s : Aft K) : Aft K :=
  ltac:(set_field eta_Aft (commit_callbacks s) v s).
Definition set_entry_size_not_limited (v : N) (s : Aft K) : Aft K :=
  ltac:(set_field eta_Aft (entry_size_not_limited s) v s).
Definition set_entry_count (v : N) (s : Aft K) : Aft K :=
  ltac:(set_field eta_Aft (entry_count s) v s).
Definition set_entries_batch_size (v : N) (s : Aft K) : Aft K :=
  ltac:(set_field eta_Aft (entries_batch_size s) v s).
Definition set_batch_window_sum (v : Z) (s : Aft K) : Aft K :=
  ltac:(set_field eta_Aft (batch_window_sum s) v s).
Definition set_public_only (v : bool) (s : Aft K) : Aft K :=
  ltac:(set_field eta_Aft (public_only s) v s).
Definition set_rand (v : nat) (s : Aft K) : Aft K := ltac:(set_field eta_Aft (rand s) v s).
Definition set_ledger (v : list LedgerOp) (s : Aft K) : Aft K :=
  ltac:(set_field eta_Aft (ledger s) v s).
Definition set_channels (v : list ChannelOp) (s : Aft K) : Aft K :=
  ltac:(set_field eta_Aft (channels s) v s).

(** [state->f = v] *)
Definition upd_state (f : State -> State) (s : Aft K) : Aft K := set_state (f (state s)) s.
End setters.

(** The constructor of [Aft]: the object before any operation. *)
Definition init_Aft {K} (k : K) (id : NodeId) (pre_vote : bool)
    (message_timeout election_timeout_ max_uncommitted : N)
    (callbacks : option CommitCallbacks.t) (public_only_ : bool) : Aft K :=
  mkAft k None None ∅ 0 false false (init_State id pre_vote) message_timeout election_timeout_
    max_uncommitted false [] ∅ 0
    (match callbacks with
     | Some c => Some (CommitCallbacks.set_consensus_ptr true c)
     | None => None
     end) 0 0 20 0%Z public_only_ 0 [] [].

(** ** The environment of a node

    [send_authenticated] answers whether the channel accepted a message given
    what was sent before; [recv_authenticated] checks and decodes a received
    message and leaves the bytes that follow its header; [distrib] is the
    sequence of random draws; [unordered_keys] is the iteration order of an
    [std::unordered_map]; [NDEBUG] tells a release build. *)
Class AftEnv := {
  send_authenticated : list ChannelOp -> NodeId -> RaftMsg -> bool;
  recv_authenticated : forall type : RaftMsgType, NodeId -> bytes -> result (msg_struct type * bytes);
  have_channel : list ChannelOp -> NodeId -> bool;
  distrib : nat -> N;
  unordered_keys : gmap string NodeState -> list NodeId;
  NDEBUG : bool;
}.
