(* ===== verification/Raft.v ===== *)
(** * Consensus: operations

    [aft::Aft] (src/consensus/aft/raft.h), one definition per member function,
    in the state and exception monad of the prelude. Log lines and the
    tracing under [CCF_RAFT_TRACING] are left out; locks are left out, since
    every operation runs to completion under [state->lock]. *)

From S2P Require Import Prelude ViewHistory TxStatus CommitCallbacks LedgerEntries RaftTypes.
From Stdlib Require Import Init.Byte.

Open Scope N_scope.
Open Scope m_scope.

Section aft.
Context {K : Type} `{HST : !Store K} `{HEN : !AftEnv}.

Abbreviation AftM := (M (Aft K)).

(** ** Access to the parts of the object *)

Definition upd (f : State -> State) : AftM unit := modify (upd_state f).

Definition on_store {A} (m : M K A) : AftM A := fun s =>
  let '(r, k) := m (store s) in (r, set_store k s).

Definition on_view_history (m : M (list Version) unit) : AftM unit := fun s =>
  let '(r, v) := m (view_history (state s)) in (r, upd_state (set_view_history v) s).

Definition ledger_write (op : LedgerOp) : AftM unit :=
  modify (fun s => set_ledger (ledger s ++ [op])%list s).

Definition channel_send (to : NodeId) (msg : RaftMsg) : AftM bool :=
  sent <- gets channels ;;;
  modify (set_channels (sent ++ [Send to msg])%list) ;;;
  ret (send_authenticated sent to msg).

(** [assert] and [CCF_ASSERT]: no check in a release build. *)
Definition ccf_assert (b : bool) : AftM unit :=
  if negb NDEBUG && negb b then throw AssertionFailure else ret tt.

Definition is_logic_error (e : exn) : bool :=
  match e with LogicError _ | OutOfRange | AssertionFailure => true | _ => false end.

(** ** Reading the state *)

Definition is_primary (s : Aft K) : bool := bool_decide (leadership_state (state s) = Leader).
Definition is_candidate (s : Aft K) : bool := bool_decide (leadership_state (state s) = Candidate).
Definition is_backup (s : Aft K) : bool := bool_decide (leadership_state (state s) = Follower).
Definition is_retired (s : Aft K) : bool := bool_decide (membership_state (state s) = Retired).
Definition is_retired_committed (s : Aft K) : bool :=
  bool_decide (membership_state (state s) = Retired) &&
  bool_decide (retirement_phase (state s) = Some RetiredCommitted).
Definition is_retired_completed (s : Aft K) : bool :=
  bool_decide (membership_state (state s) = Retired) &&
  bool_decide (retirement_phase (state s) = Some Completed).

Definition can_replicate_unsafe (s : Aft K) : bool :=
  bool_decide (leadership_state (state s) = Leader) && negb (is_retired_committed s).
Definition can_sign_unsafe (s : Aft K) : bool :=
  bool_decide (leadership_state (state s) = Leader) && negb (is_retired_committed s).

Definition is_at_max_capacity (s : Aft K) : bool :=
  if max_uncommitted_tx_count s =? 0 then false
  else bool_decide (leadership_state (state s) = Leader) &&
       (max_uncommitted_tx_count s <=? u64_sub (last_idx (state s)) (commit_idx (state s))).

Definition get_signature_disposition (s : Aft K) : SignatureDisposition :=
  if can_sign_unsafe s then (if should_sign s then SHOULD_SIGN else CAN_SIGN)
  else CANT_REPLICATE.

Definition last_committable_index (st : State) : Index :=
  match last (committable_indices st) with
  | Some i => i
  | None => commit_idx st
  end.

(** [std::upper_bound] over the reversed deque with [>=]: the first element
    from the back that is not greater than [idx]. *)
Definition find_highest_possible_committable_index (idx : Index) (st : State) : option Index :=
  List.find (fun x => x <=? idx) (reverse (committable_indices st)).

Fixpoint pop_front_while (p : Index -> bool) (l : list Index) : list Index :=
  match l with
  | [] => []
  | x :: l' => if p x then pop_front_while p l' else l
  end.

Definition compact_committable_indices (idx : Index) : AftM unit :=
  upd (fun st => set_committable_indices
                   (pop_front_while (fun x => x <=? idx) (committable_indices st)) st).

Definition get_term_internal (idx : Index) (st : State) : Term :=
  if last_idx st <? idx then VIEW_UNKNOWN else ViewHistory.view_at idx (view_history st).

Definition get_commit_idx_unsafe (s : Aft K) : Index := commit_idx (state s).

Definition get_committed_txid (s : Aft K) : TxID.t :=
  let commit_idx := get_commit_idx_unsafe s in
  TxID.mk (get_term_internal commit_idx (state s)) commit_idx.

Definition get_view_history (idx : Index) (s : Aft K) : list Index :=
  ViewHistory.get_history_until idx (view_history (state s)).
Definition get_view_history_since (idx : Index) (s : Aft K) : list Index :=
  ViewHistory.get_history_since idx (view_history (state s)).

(** [Consensus::evaluate_tx_status] (src/kv/kv_types.h). *)
Definition evaluate_status (target_view : View) (target_seqno : SeqNo) (s : Aft K) : result TxStatus :=
  let local_view := get_term_internal target_seqno (state s) in
  let committed := get_committed_txid s in
  evaluate_tx_status target_view target_seqno local_view (TxID.view committed) (TxID.seqno committed).

Definition get_latest_configuration_unsafe (s : Aft K) : Nodes :=
  match last (configurations s) with
  | Some c => conf_nodes c
  | None => ∅
  end.

Definition is_self_in_latest_config (s : Aft K) : bool :=
  match last (configurations s) with
  | Some c => bool_decide (is_Some (conf_nodes c !! node_id (state s)))
  | None => false
  end.

(** A [std::set]: the order in which vote requests are sent. *)
Definition other_nodes_in_active_configs (s : Aft K) : gset string :=
  foldr (fun conf acc => dom (conf_nodes conf) ∪ acc) ∅ (configurations s) ∖ {[node_id (state s)]}.
Definition ordered_elements (x : gset string) : list NodeId := merge_sort string_le (elements x).

Definition get_quorum (n : N) : N := n / 2 + 1.
Definition num_nodes (c : Configuration) : N := N.of_nat (size (conf_nodes c)).

(** ** Timers *)

Definition restart_election_timeout : AftM unit :=
  n <- gets rand ;;;
  modify (set_rand (n + 1)%nat) ;;;
  modify (set_timeout_elapsed (distrib n)).

Definition start_ticking : AftM unit :=
  modify (set_ticking true) ;;;
  modify (set_timeout_elapsed 0).

Definition start_ticking_if_necessary : AftM unit :=
  t <- gets ticking ;;;
  self <- gets is_self_in_latest_config ;;;
  when (negb t && self) start_ticking.

Definition reset_last_ack_timeouts : AftM unit :=
  modify (fun s => set_all_other_nodes (set_last_ack_timeout 0 <$> all_other_nodes s) s).

(** ** Batch sizes *)

Definition append_entries_size_limit : N := 20000.
Definition batch_window_size : Z := 100.

(** [batch_window_sum / batch_window_size] truncates towards zero; the new sum
    is computed in [size_t] and converted back to [int]. *)
Definition update_batch_size : AftM unit :=
  modify (fun s =>
    let avg_entry_size :=
      if entry_count s =? 0 then append_entries_size_limit
      else entry_size_not_limited s / entry_count s in
    let batch_size :=
      if avg_entry_size =? 0 then append_entries_size_limit / 2
      else append_entries_size_limit / avg_entry_size in
    let batch_avg := Z.quot (batch_window_sum s) batch_window_size in
    let sum := to_int32 (batch_window_sum s + (Z.of_N batch_size - batch_avg)) in
    set_entries_batch_size (Z.to_N (Z.max (Z.quot sum batch_window_size) 1))
      (set_batch_window_sum sum s)).

(** ** Sending entries *)

(** The loop of [find_highest_possible_match]: each round moves to an earlier
    view, so the number of views bounds it. *)
Fixpoint find_match_loop (fuel : nat) (views : list Version) (view : Term) (probe_index : Index)
  : result Index :=
  match fuel with
  | O => Throw OutOfFuel
  | S fuel =>
      let term_of_probe := ViewHistory.view_at probe_index views in
      if view <? term_of_probe then
        let start := ViewHistory.start_of_view term_of_probe views in
        find_match_loop fuel views view (if 0 <? start then u64_sub start 1 else start)
      else Ok probe_index
  end.

Definition find_highest_possible_match (tx_id : TxID.t) (st : State) : result Index :=
  find_match_loop (S (length (view_history st))) (view_history st) (TxID.view tx_id)
    (N.min (TxID.seqno tx_id) (last_idx st)).

Definition calculate_end_index (start : Index) (s : Aft K) : Index :=
  let st := state s in
  let term_of_ae := ViewHistory.view_at start (view_history st) in
  let index_at_end_of_term := ViewHistory.end_of_view term_of_ae (view_history st) in
  let max_idx := if index_at_end_of_term =? NoVersion then last_idx st else index_at_end_of_term in
  N.min (u64_sub (start + entries_batch_size s) 1) max_idx.

Definition make_append_entries (start_idx end_idx : Index) (st : State) : AppendEntries :=
  let prev_idx := u64_sub start_idx 1 in
  mkAppendEntries end_idx prev_idx (current_view st) (get_term_internal prev_idx st)
    (commit_idx st) (get_term_internal end_idx st).

Definition send_append_entries_range (to : NodeId) (start_idx end_idx : Index) : AftM unit :=
  rc <- gets is_retired_committed ;;;
  if rc && (end_idx <=? start_idx) then ret tt
  else
    st <- gets state ;;;
    nodes <- gets all_other_nodes ;;;
    match nodes !! to with
    | None => throw OutOfRange
    | Some node =>
        sent <- channel_send to (MsgAppendEntries (make_append_entries start_idx end_idx st)) ;;;
        if sent
        then modify (set_all_other_nodes (<[to := set_sent_idx end_idx node]> nodes))
        else ret tt
    end.

Fixpoint send_append_entries_loop (fuel : nat) (to : NodeId) (start_idx : Index) : AftM unit :=
  match fuel with
  | O => throw OutOfFuel
  | S fuel =>
      end_idx <- gets (calculate_end_index start_idx) ;;;
      send_append_entries_range to start_idx end_idx ;;;
      last <- gets (fun s => last_idx (state s)) ;;;
      if end_idx =? last then ret tt
      else send_append_entries_loop fuel to (N.min (end_idx + 1) last)
  end.

Definition send_append_entries (to : NodeId) (start_idx : Index) : AftM unit :=
  last <- gets (fun s => last_idx (state s)) ;;;
  send_append_entries_loop (S (N.to_nat (last - start_idx))) to start_idx.

(** Sends the entries after [sent_idx] to every other node. *)
Definition send_to_all : AftM unit :=
  nodes <- gets all_other_nodes ;;;
  for_each (fun to =>
    nodes <- gets all_other_nodes ;;;
    match nodes !! to with
    | Some node => send_append_entries to (sent_idx node + 1)
    | None => ret tt
    end) (unordered_keys nodes).

(** ** Configurations *)

Definition create_and_remove_node_state : AftM unit :=
  confs <- gets configurations ;;;
  (* emplace: the first configuration that names a node gives its address *)
  let active_nodes : Nodes := foldl (fun acc c => acc ∪ conf_nodes c) ∅ confs in
  for_each (fun id =>
    self <- gets (fun s => node_id (state s)) ;;;
    nodes <- gets all_other_nodes ;;;
    match active_nodes !! id with
    | None => ret tt
    | Some info =>
        if bool_decide (id = self) || bool_decide (is_Some (nodes !! id)) then ret tt
        else
          ops <- gets channels ;;;
          when (negb (have_channel ops id))
            (modify (set_channels (ops ++ [AssociateNodeAddress id info])%list)) ;;;
          last <- gets (fun s => last_idx (state s)) ;;;
          let index := last + 1 in
          modify (set_all_other_nodes (<[id := mkNodeState info index 0 0]> nodes)) ;;;
          leader <- gets is_primary ;;;
          when leader (send_append_entries id index)
    end) (ordered_keys active_nodes).

(** ** Leadership *)

Definition reset_votes_for_me : AftM unit :=
  modify (fun s => set_votes_for_me
    (foldl (fun m conf => <[conf_idx conf := mkVotes ∅ (get_quorum (num_nodes conf))]> m)
       ∅ (configurations s)) s).

Definition become_follower : AftM unit :=
  modify (set_leader_id None) ;;;
  restart_election_timeout ;;;
  reset_last_ack_timeouts ;;;
  upd (set_leadership_state Follower).

Definition become_aware_of_new_term (term : Term) : AftM unit :=
  upd (set_current_view term) ;;;
  modify (set_voted_for None) ;;;
  reset_votes_for_me ;;;
  become_follower ;;;
  modify (set_is_new_follower true).

(** The latest configuration a node is part of, by its index. *)
Definition latest_reconf_id (node : NodeId) (confs : list Configuration) : N :=
  match List.find (fun c => bool_decide (is_Some (conf_nodes c !! node))) (reverse confs) with
  | Some c => conf_idx c
  | None => 0
  end.

(** The loop of [send_propose_request_vote]: the best candidate so far, its
    match index and its reconfiguration ID. *)
Definition pick_successor (confs : list Configuration) (nodes : gmap string NodeState)
    (order : list NodeId) : option NodeId * Index * N :=
  foldl (fun '(successor, max_match_idx, reconf_id_of_max_match) node =>
    match nodes !! node with
    | None => (successor, max_match_idx, reconf_id_of_max_match)
    | Some node_state =>
        if max_match_idx <=? match_idx node_state then
          let latest := latest_reconf_id node confs in
          if negb ((match_idx node_state =? max_match_idx) && (latest <? reconf_id_of_max_match))
          then (Some node, match_idx node_state, latest)
          else (successor, max_match_idx, reconf_id_of_max_match)
        else (successor, max_match_idx, reconf_id_of_max_match)
    end) (None, 0, 0) order.

Definition send_propose_request_vote : AftM unit :=
  s <- gets id ;;;
  let prv := mkProposeRequestVote (current_view (state s)) in
  match pick_successor (configurations s) (all_other_nodes s) (unordered_keys (all_other_nodes s)) with
  | (Some successor, _, _) =>
      channel_send successor (MsgProposeRequestVote prv) ;;; ret tt
  | (None, _, _) => ret tt
  end.

Definition become_retired (idx : Index) (phase : RetirementPhase) : AftM unit :=
  st <- gets state ;;;
  match phase with
  | Ordered =>
      ccf_assert (bool_decide (retirement_idx st = None)) ;;;
      upd (set_retirement_idx (Some idx))
  | Signed =>
      ccf_assert (match retirement_idx st with Some i => i <=? idx | None => false end) ;;;
      upd (set_retirement_committable_idx (Some idx))
  | Completed => ret tt
  | RetiredCommitted =>
      when (bool_decide (leadership_state st = Leader)) send_propose_request_vote ;;;
      modify (set_leader_id None) ;;;
      upd (set_leadership_state LSNone)
  end ;;;
  upd (set_membership_state Retired) ;;;
  upd (set_retirement_phase (Some phase)).

Definition set_retired_committed (seqno : SeqNo) (node_ids : list NodeId) : AftM unit :=
  for_each (fun id =>
    st <- gets state ;;;
    if bool_decide (node_id st = id) then
      ccf_assert (bool_decide (membership_state st = Retired)) ;;;
      ccf_assert (bool_decide (retirement_phase st = Some Completed)) ;;;
      upd (set_retired_committed_idx (Some seqno)) ;;;
      become_retired seqno RetiredCommitted
    else modify (fun s => set_all_other_nodes (delete id (all_other_nodes s)) s)) node_ids.

(** ** Commit and rollback *)

(** Discards each configuration followed by a committed one. *)
Fixpoint discard_configurations (idx : Index) (confs : list Configuration) : list Configuration :=
  match confs with
  | conf :: ((next :: _) as rest) =>
      if idx <? conf_idx next then confs else discard_configurations idx rest
  | _ => confs
  end.

Definition run_commit_callbacks (idx : Index) : AftM unit := fun s =>
  match commit_callbacks s with
  | None => (Ok tt, s)
  | Some c =>
      let '(r, c') := CommitCallbacks.trigger_callbacks
                        (TxID.mk (get_term_internal idx (state s)) idx) (view_history (state s)) c in
      (r, set_commit_callbacks (Some c') s)
  end.

Definition retire_if_committed (idx : Index) : AftM unit :=
  st <- gets state ;;;
  if bool_decide (membership_state st = Retired) && bool_decide (retirement_phase st = Some Signed)
  then match retirement_committable_idx st with
       | Some retirement_committable =>
           when (retirement_committable <=? idx) (become_retired idx Completed)
       | None => ret tt
       end
  else ret tt.

Definition commit (idx : Index) : AftM unit :=
  st <- gets state ;;;
  if last_idx st <? idx then throw (LogicError "Tried to commit beyond last_idx")
  else if idx <=? commit_idx st then ret tt
  else
    compact_committable_indices idx ;;;
    upd (set_commit_idx idx) ;;;
    retire_if_committed idx ;;;
    retired <- on_store (store_compact idx) ;;;
    for_each (fun '(seqno, node_ids) => set_retired_committed seqno node_ids) retired ;;;
    ledger_write (LedgerCommit idx) ;;;
    run_commit_callbacks idx ;;;
    confs <- gets configurations ;;;
    let confs' := discard_configurations idx confs in
    modify (set_configurations confs') ;;;
    when (length confs' <? length confs)%nat
      (create_and_remove_node_state ;;;
       primary <- gets is_primary ;;;
       when primary (modify (fun s => set_cleanups (S (cleanups s)) s))).

(** The retirement state after a rollback to [idx]. *)
Definition rollback_retirement_signed (idx : Index) : AftM unit :=
  st <- gets state ;;;
  if bool_decide (membership_state st = Retired) && bool_decide (retirement_phase st = Some Signed)
  then ccf_assert (bool_decide (is_Some (retirement_committable_idx st))) ;;;
       match retirement_committable_idx st with
       | Some retirement_committable =>
           when (idx <? retirement_committable)
             (upd (set_retirement_committable_idx None) ;;;
              upd (set_retirement_phase (Some Ordered)))
       | None => ret tt
       end
  else ret tt.

Definition rollback_retirement_ordered (idx : Index) : AftM unit :=
  st <- gets state ;;;
  if bool_decide (membership_state st = Retired) && bool_decide (retirement_phase st = Some Ordered)
  then ccf_assert (bool_decide (is_Some (retirement_idx st))) ;;;
       match retirement_idx st with
       | Some retirement =>
           when (idx <? retirement)
             (upd (set_retirement_idx None) ;;;
              upd (set_retirement_phase None) ;;;
              upd (set_membership_state Active))
       | None => ret tt
       end
  else ret tt.

Definition rollback (idx : Index) : AftM unit :=
  st <- gets state ;;;
  if idx <? commit_idx st then ret tt
  else
    on_store (store_rollback (TxID.mk (get_term_internal idx st) idx) (current_view st)) ;;;
    ledger_write (LedgerTruncate idx) ;;;
    upd (set_last_idx idx) ;;;
    upd (fun st => set_view_history (ViewHistory.rollback idx (view_history st)) st) ;;;
    upd (fun st => set_committable_indices
                     (pop_back_while (fun x => idx <? x) (committable_indices st)) st) ;;;
    rollback_retirement_signed idx ;;;
    rollback_retirement_ordered idx ;;;
    confs <- gets configurations ;;;
    let confs' := pop_back_while (fun c => idx <? conf_idx c) confs in
    modify (set_configurations confs') ;;;
    when (length confs' <? length confs)%nat create_and_remove_node_state.

(** The match indices of one configuration's nodes; [at()] throws for a node
    without state. *)
Fixpoint match_indices (s : Aft K) (ids : list NodeId) : result (list Index) :=
  match ids with
  | [] => Ok []
  | id :: ids =>
      match (if bool_decide (id = node_id (state s)) then Some (last_idx (state s))
             else match_idx <$> all_other_nodes s !! id), match_indices s ids with
      | None, _ => Throw OutOfRange
      | Some m, Ok ms => Ok (m :: ms)
      | Some _, Throw e => Throw e
      end
  end.

Definition confirmed_index (s : Aft K) (c : Configuration) : result Index :=
  match match_indices s (ordered_keys (conf_nodes c)) with
  | Throw e => Throw e
  | Ok m =>
      let sorted := merge_sort N.le m in
      match sorted !! N.to_nat (u64_sub (N.of_nat (length m)) 1 / 2) with
      | Some confirmed => Ok confirmed
      | None => Throw OutOfRange
      end
  end.

Fixpoint agreement_index (s : Aft K) (confs : list Configuration) (new_agreement_index : option Index)
  : result (option Index) :=
  match confs with
  | [] => Ok new_agreement_index
  | c :: confs =>
      match confirmed_index s c with
      | Throw e => Throw e
      | Ok confirmed =>
          agreement_index s confs
            (match new_agreement_index with
             | None => Some confirmed
             | Some i => if confirmed <? i then Some confirmed else Some i
             end)
      end
  end.

Definition update_commit : AftM unit :=
  s <- gets id ;;;
  if negb (bool_decide (leadership_state (state s) = Leader))
  then throw (LogicError "update_commit() must only be called while this node is leader")
  else
    new_agreement_index <- lift (agreement_index s (configurations s) None) ;;;
    match new_agreement_index with
    | None => ret tt
    | Some agreed =>
        if last_idx (state s) <? agreed
        then throw (LogicError "Followers appear to have later match indices than leader")
        else
          match find_highest_possible_committable_index agreed (state s) with
          | None => ret tt
          | Some new_commit_idx =>
              if get_term_internal new_commit_idx (state s) =? current_view (state s)
              then commit new_commit_idx
              else ret tt
          end
    end.

Definition commit_if_possible (idx : Index) : AftM unit :=
  st <- gets state ;;;
  if (commit_idx st <? idx) && (get_term_internal idx st <=? current_view st)
  then match find_highest_possible_committable_index idx st with
       | Some highest_committable => commit highest_committable
       | None => ret tt
       end
  else ret tt.

(** ** Elections *)

Definition make_request_vote (st : State) : RequestVote :=
  let last_committable_idx := last_committable_index st in
  mkRequestVote (current_view st) last_committable_idx
    (get_term_internal last_committable_idx st).

Definition send_request_vote (to : NodeId) : AftM unit :=
  st <- gets state ;;;
  ccf_assert (commit_idx st <=? last_committable_index st) ;;;
  channel_send to (MsgRequestVote (make_request_vote st)) ;;; ret tt.

Definition send_request_pre_vote (to : NodeId) : AftM unit :=
  st <- gets state ;;;
  ccf_assert (commit_idx st <=? last_committable_index st) ;;;
  channel_send to (MsgRequestPreVote (make_request_vote st)) ;;; ret tt.

Definition become_leader : AftM unit :=
  rc <- gets is_retired_committed ;;;
  if rc then ret tt
  else
    st <- gets state ;;;
    let election_index := last_committable_index st in
    (if 0 <? commit_idx st then rollback election_index
     else on_store (store_initialise_term (current_view st))) ;;;
    upd (set_leadership_state Leader) ;;;
    modify (fun s => set_leader_id (Some (node_id (state s))) s) ;;;
    modify (set_should_sign true) ;;;
    modify (set_timeout_elapsed 0) ;;;
    reset_last_ack_timeouts ;;;
    others <- gets other_nodes_in_active_configs ;;;
    when (bool_decide (others = ∅)) update_commit ;;;
    last <- gets (fun s => last_idx (state s)) ;;;
    let next := last + 1 in
    nodes <- gets all_other_nodes ;;;
    for_each (fun to =>
      modify (fun s => set_all_other_nodes
        (alter (fun n => set_sent_idx (next - 1) (set_match_idx 0 n)) to (all_other_nodes s)) s) ;;;
      send_append_entries to next) (unordered_keys nodes) ;;;
    modify (fun s => set_cleanups (S (cleanups s)) s).

(** [votes_for_me[idx]] default-constructs a missing entry. *)
Definition insert_vote (from : NodeId) (idx : Index) (m : gmap N Votes) : gmap N Votes :=
  let v := default (mkVotes ∅ 0) (m !! idx) in
  <[idx := mkVotes ({[from]} ∪ votes v) (quorum v)]> m.

Definition tally_vote (from : NodeId) (confs : list Configuration) (m : gmap N Votes) : gmap N Votes :=
  foldl (fun m conf =>
    if bool_decide (is_Some (conf_nodes conf !! from)) then insert_vote from (conf_idx conf) m else m)
    m confs.

Definition is_elected (m : gmap N Votes) : bool :=
  forallb (fun '(_, v) => quorum v <=? N.of_nat (size (votes v))) (map_to_list m).

(** [become_candidate], given the [add_vote_for_me] it calls. *)
Definition become_candidate_with (add_vote : NodeId -> AftM unit) : AftM unit :=
  confs <- gets configurations ;;;
  if bool_decide (confs = []) then ret tt
  else
    upd (set_leadership_state Candidate) ;;;
    modify (set_leader_id None) ;;;
    modify (fun s => set_voted_for (Some (node_id (state s))) s) ;;;
    reset_votes_for_me ;;;
    upd (fun st => set_current_view (current_view st + 1) st) ;;;
    restart_election_timeout ;;;
    reset_last_ack_timeouts ;;;
    self <- gets (fun s => node_id (state s)) ;;;
    add_vote self ;;;
    others <- gets other_nodes_in_active_configs ;;;
    for_each send_request_vote (ordered_elements others).

(** [add_vote_for_me] and [become_candidate] call each other, to depth two:
    the vote that completes a pre-vote starts a candidacy, whose own vote can
    only complete the election. *)
Fixpoint add_vote_for_me_fuel (fuel : nat) (from : NodeId) : AftM unit :=
  match fuel with
  | O => throw OutOfFuel
  | S fuel =>
      confs <- gets configurations ;;;
      if bool_decide (confs = []) then ret tt
      else
        modify (fun s => set_votes_for_me (tally_vote from confs (votes_for_me s)) s) ;;;
        v <- gets votes_for_me ;;;
        if is_elected v then
          st <- gets state ;;;
          match leadership_state st with
          | PreVoteCandidate => become_candidate_with (add_vote_for_me_fuel fuel)
          | Candidate => become_leader
          | LSNone | Leader | Follower =>
              throw (LogicError "add_vote_for_me() called while not a candidate")
          end
        else ret tt
  end.

Definition add_vote_for_me : NodeId -> AftM unit := add_vote_for_me_fuel 2.
Definition become_candidate : AftM unit := become_candidate_with (add_vote_for_me_fuel 1).

Definition become_pre_vote_candidate : AftM unit :=
  confs <- gets configurations ;;;
  if bool_decide (confs = []) then ret tt
  else
    upd (set_leadership_state PreVoteCandidate) ;;;
    modify (set_leader_id None) ;;;
    reset_votes_for_me ;;;
    restart_election_timeout ;;;
    self <- gets (fun s => node_id (state s)) ;;;
    add_vote_for_me self ;;;
    others <- gets other_nodes_in_active_configs ;;;
    for_each send_request_pre_vote (ordered_elements others).

End aft.
