(* ===== verification/RaftHandlers.v ===== *)
(** * Consensus: entry points

    The operations of [aft::Aft] (src/consensus/aft/raft.h) called from
    outside: replication, received messages, the periodic tick, startup. *)

From S2P Require Import Prelude ViewHistory TxStatus CommitCallbacks LedgerEntries RaftTypes Raft.
From Stdlib Require Import Init.Byte.

Open Scope N_scope.
Open Scope m_scope.

Section handlers.
Context {K : Type} `{HST : !Store K} `{HEN : !AftEnv}.

Abbreviation AftM := (M (Aft K)).

(** ** Configurations and hooks *)

Definition add_configuration (idx : Index) (conf : Nodes) : AftM unit :=
  s <- gets id ;;;
  let self := node_id (state s) in
  when (match last (configurations s) with
        | Some c => bool_decide (is_Some (conf_nodes c !! self)) &&
                    bool_decide (conf !! self = None)
        | None => false
        end) (become_retired idx Ordered) ;;;
  when (match last (configurations s) with
        | Some c => negb (bool_decide (conf = conf_nodes c))
        | None => true
        end)
    (modify (fun s => set_configurations (configurations s ++ [mkConfiguration idx conf idx])%list s) ;;;
     create_and_remove_node_state).

(** [ConfigurationChangeHook::call] (src/node/hooks.h). *)
Definition call_hook (hook : ConfigurationChangeHook) : AftM unit :=
  configuration <- gets get_latest_configuration_unsafe ;;;
  when (negb (bool_decide (cfg_delta hook = ∅)))
    (add_configuration (hook_version hook) (apply_delta (cfg_delta hook) configuration)).

(** ** Replication by the primary *)

Record BatchEntry := mkBatchEntry {
  be_index : Version;
  be_data : bytes;
  be_globally_committable : bool;
  be_hooks : list ConfigurationChangeHook;
}.

(** [become_retired(index, Signed)] when this node's retirement is ordered. *)
Definition sign_retirement (index : Index) : AftM unit :=
  st <- gets state ;;;
  when (bool_decide (membership_state st = Retired) && bool_decide (retirement_phase st = Some Ordered))
    (become_retired index Signed).

Definition push_committable (index : Index) : AftM unit :=
  upd (fun st => set_committable_indices (committable_indices st ++ [index])%list st).

(** What a globally committable entry does, before it is appended. *)
Definition mark_committable (index : Index) : AftM unit :=
  sign_retirement index ;;;
  push_committable index ;;;
  start_ticking_if_necessary ;;;
  modify (set_should_sign false).

Definition append_entry (e : BatchEntry) : AftM unit :=
  upd (set_last_idx (be_index e)) ;;;
  view <- gets (fun s => current_view (state s)) ;;;
  ledger_write (LedgerPutEntry (be_data e) (be_globally_committable e) view (be_index e)) ;;;
  modify (fun s => set_entry_size_not_limited
                     (entry_size_not_limited s + N.of_nat (length (be_data e))) s) ;;;
  modify (fun s => set_entry_count (entry_count s + 1) s) ;;;
  on_view_history (ViewHistory.update_m (be_index e) view) ;;;
  size <- gets entry_size_not_limited ;;;
  when (append_entries_size_limit <=? size)
    (update_batch_size ;;;
     modify (set_entry_count 0) ;;;
     modify (set_entry_size_not_limited 0) ;;;
     send_to_all).

Definition replicate_one (e : BatchEntry) : AftM unit :=
  for_each call_hook (be_hooks e) ;;;
  when (be_globally_committable e) (mark_committable (be_index e)) ;;;
  append_entry e.

(** The loop over the batch, [false] at the first entry out of sequence. *)
Fixpoint replicate_entries (entries : list BatchEntry) : AftM bool :=
  match entries with
  | [] => ret true
  | e :: entries =>
      last <- gets (fun s => last_idx (state s)) ;;;
      if negb (be_index e =? last + 1) then ret false
      else replicate_one e ;;; replicate_entries entries
  end.

Definition replicate (entries : list BatchEntry) (term : Term) : AftM bool :=
  s <- gets id ;;;
  if negb (bool_decide (leadership_state (state s) = Leader))
  then rollback (last_idx (state s)) ;;; ret false
  else if negb (term =? current_view (state s)) then ret false
  else if is_retired_committed s then rollback (last_idx (state s)) ;;; ret false
  else
    all <- replicate_entries entries ;;;
    if negb all then ret false
    else
      others <- gets other_nodes_in_active_configs ;;;
      when (bool_decide (others = ∅)) update_commit ;;;
      ret true.

(** ** Append entries, received by a backup *)

Definition send_append_entries_response (to : NodeId) (answer : AppendEntriesResponseType)
    (response_term : Term) (response_idx : Index) : AftM unit :=
  channel_send to (MsgAppendEntriesResponse
                     (mkAppendEntriesResponse response_term response_idx answer)) ;;;
  ret tt.

Definition send_append_entries_response_ack (to : NodeId) (ae : AppendEntries) : AftM unit :=
  view <- gets (fun s => current_view (state s)) ;;;
  send_append_entries_response to AE_OK view (ae_idx ae).

(** The overload that names the rejected transaction. *)
Definition send_append_entries_response_nack_tx (to : NodeId) (rejected : TxID.t) : AftM unit :=
  st <- gets state ;;;
  response_idx <- lift (find_highest_possible_match rejected st) ;;;
  send_append_entries_response to AE_FAIL (get_term_internal response_idx st) response_idx.

Definition send_append_entries_response_nack (to : NodeId) : AftM unit :=
  st <- gets state ;;;
  send_append_entries_response to AE_FAIL (current_view st) (last_idx st).

Definition execute_append_entries_finish (r : AppendEntries) (from : NodeId) : AftM unit :=
  commit_if_possible (ae_leader_commit_idx r) ;;;
  lci <- gets (fun s => last_committable_index (state s)) ;;;
  (if ae_term_of_idx r =? ViewHistory.InvalidView
   then on_view_history (ViewHistory.update_m 1 (ae_term r))
   else when (lci <? ae_idx r)
          (on_view_history (ViewHistory.update_m (lci + 1) (ae_term_of_idx r)))) ;;;
  send_append_entries_response_ack from r.

(** The signature branch of the switch in [execute_append_entries_sync]. *)
Definition apply_signature (r : AppendEntries) (i : Index) (ds_term : Term) : AftM unit :=
  sign_retirement i ;;;
  push_committable i ;;;
  when (negb (ds_term =? 0))
    ((if ae_term_of_idx r =? ViewHistory.InvalidView
      then on_view_history (ViewHistory.update_m 1 (ae_term r))
      else on_view_history (ViewHistory.update_m (ae_prev_idx r + 1) ds_term)) ;;;
     commit_if_possible (ae_leader_commit_idx r)).

(** The switch on the result of applying entry [i]. *)
Definition finish_entry (r : AppendEntries) (from : NodeId) (i : Index) (apply_success : ApplyResult)
    (ds_term : Term) : AftM unit :=
  match apply_success with
  | FAIL =>
      upd (fun st => set_last_idx (u64_sub (last_idx st) 1) st) ;;;
      last <- gets (fun s => last_idx (state s)) ;;;
      ledger_write (LedgerTruncate last) ;;;
      send_append_entries_response_nack from
  | PASS_SIGNATURE => apply_signature r i ds_term
  | PASS | PASS_ENCRYPTED_PAST_LEDGER_SECRET => ret tt
  | PASS_BACKUP_SIGNATURE | PASS_BACKUP_SIGNATURE_SEND_ACK | PASS_NONCES
  | PASS_NEW_VIEW | PASS_APPLY => throw (LogicError "Unknown ApplyResult value")
  end.

(** The body of the loop; [false] when the function returns early. *)
Definition execute_entry (ds : ExecutionWrapper) (i : Index) (from : NodeId) (r : AppendEntries)
  : AftM bool :=
  applied <- on_store (wrapper_apply ds) ;;;
  let apply_success := applied_result applied in
  if bool_decide (apply_success = FAIL) then
    ledger_write (LedgerTruncate (u64_sub i 1)) ;;;
    send_append_entries_response_nack from ;;;
    ret false
  else
    upd (set_last_idx i) ;;;
    for_each call_hook (applied_hooks applied) ;;;
    let globally_committable := bool_decide (apply_success = PASS_SIGNATURE) in
    when globally_committable start_ticking_if_necessary ;;;
    ledger_write (LedgerPutEntry (applied_entry applied) globally_committable
                    (applied_term applied) (applied_index applied)) ;;;
    finish_entry r from i apply_success (applied_term applied) ;;;
    ret true.

Fixpoint execute_append_entries_sync (append_entries : list (ExecutionWrapper * Version))
    (from : NodeId) (r : AppendEntries) : AftM unit :=
  match append_entries with
  | [] => execute_append_entries_finish r from
  | (ds, i) :: append_entries =>
      continue <- execute_entry ds i from r ;;;
      if continue then execute_append_entries_sync append_entries from r else ret tt
  end.

(** One round of the deserialisation loop, once the entry is to be read:
    [None] when the function returns early. *)
Definition deserialise_entry (from : NodeId) (r : AppendEntries) (i : Index) (data : bytes)
  : AftM (option (ExecutionWrapper * bytes)) :=
  match get_entry data with
  | Throw e =>
      if is_logic_error e then send_append_entries_response_nack from ;;; ret None
      else throw e
  | Ok (entry, data) =>
      po <- gets public_only ;;;
      ds <- on_store (store_deserialize entry po (Some (TxID.mk (ae_term_of_idx r) i))) ;;;
      match ds with
      | None => send_append_entries_response_nack from ;;; ret None
      | Some ds => ret (Some (ds, data))
      end
  end.

(** What the loop does with index [i]. *)
Inductive EntryAction := SkipEntry | ReadEntry | IgnoreMessage.

Definition entry_action (r : AppendEntries) (i : Index) : AftM EntryAction :=
  st <- gets state ;;;
  if i <=? last_idx st then
    if negb (ae_term_of_idx r =? ViewHistory.view_at i (view_history st)) then
      new_follower <- gets is_new_follower ;;;
      if new_follower then
        rollback (u64_sub i 1) ;;;
        modify (set_is_new_follower false) ;;;
        ret ReadEntry
      else ret IgnoreMessage
    else ret SkipEntry
  else ret ReadEntry.

(** [n] entries are left, the first at index [i]. *)
Fixpoint deserialise_entries (n : nat) (from : NodeId) (r : AppendEntries) (i : Index) (data : bytes)
    (append_entries : list (ExecutionWrapper * Version))
  : AftM (option (list (ExecutionWrapper * Version))) :=
  match n with
  | O => ret (Some append_entries)
  | S n =>
      action <- entry_action r i ;;;
      match action with
      | IgnoreMessage => ret None
      | SkipEntry =>
          data <- lift (skip_entry data) ;;;
          deserialise_entries n from r (i + 1) data append_entries
      | ReadEntry =>
          ds <- deserialise_entry from r i data ;;;
          match ds with
          | None => ret None
          | Some (ds, data) =>
              deserialise_entries n from r (i + 1) data (append_entries ++ [(ds, i)])%list
          end
      end
  end.

(** From the third check on: the previous entry is known to match. *)
Definition recv_append_entries_matched (from : NodeId) (r : AppendEntries) (data : bytes) : AftM unit :=
  restart_election_timeout ;;;
  modify (set_leader_id (Some from)) ;;;
  st <- gets state ;;;
  if ae_prev_idx r <? commit_idx st then ret tt
  else if last_idx st <? ae_prev_idx r then ret tt
  else
    entries <- deserialise_entries (N.to_nat (ae_idx r - ae_prev_idx r)) from r
                 (ae_prev_idx r + 1) data [] ;;;
    match entries with
    | None => ret tt
    | Some append_entries => execute_append_entries_sync append_entries from r
    end.

(** From the second check on: the message is of the current term. *)
Definition recv_append_entries_current (from : NodeId) (r : AppendEntries) (data : bytes) : AftM unit :=
  st <- gets state ;;;
  let prev_term := get_term_internal (ae_prev_idx r) st in
  if negb (prev_term =? ae_prev_term r) then
    if prev_term =? VIEW_UNKNOWN then send_append_entries_response_nack from
    else send_append_entries_response_nack_tx from (TxID.mk (ae_prev_term r) (ae_prev_idx r))
  else recv_append_entries_matched from r data.

Definition recv_append_entries (from : NodeId) (r : AppendEntries) (data : bytes) : AftM unit :=
  st <- gets state ;;;
  if (current_view st =? ae_term r) &&
     (bool_decide (leadership_state st = Candidate) ||
      bool_decide (leadership_state st = PreVoteCandidate))
  then become_aware_of_new_term (ae_term r) ;;; recv_append_entries_current from r data
  else if current_view st <? ae_term r
  then become_aware_of_new_term (ae_term r) ;;; recv_append_entries_current from r data
  else if ae_term r <? current_view st then send_append_entries_response_nack from
  else recv_append_entries_current from r data.

(** ** Append entries responses, received by the primary *)

Definition recv_append_entries_response (from : NodeId) (r : AppendEntriesResponse) : AftM unit :=
  s <- gets id ;;;
  let st := state s in
  match all_other_nodes s !! from with
  | None => ret tt
  | Some node =>
      if negb (bool_decide (leadership_state st = Leader)) then ret tt
      else
        let set_node f := modify (fun s => set_all_other_nodes (alter f from (all_other_nodes s)) s) in
        set_node (set_last_ack_timeout 0) ;;;
        if current_view st <? aer_term r then become_aware_of_new_term (aer_term r)
        else if negb (current_view st =? aer_term r) && bool_decide (aer_success r = AE_OK) then ret tt
        else if (current_view st =? aer_term r) && (aer_last_log_idx r <? match_idx node) &&
                bool_decide (aer_success r = AE_OK) then ret tt
        else if bool_decide (aer_success r = AE_FAIL) then
          this_match <- lift (find_highest_possible_match
                                (TxID.mk (aer_term r) (aer_last_log_idx r)) st) ;;;
          set_node (set_sent_idx (N.max (N.min this_match (sent_idx node)) (match_idx node)))
        else
          set_node (set_match_idx (N.max (match_idx node) (aer_last_log_idx r))) ;;;
          update_commit
  end.

(** ** Votes *)

Definition send_request_vote_response (to : NodeId) (answer : bool) (election_type : ElectionType)
  : AftM unit :=
  view <- gets (fun s => current_view (state s)) ;;;
  let response := mkRequestVoteResponse view answer in
  channel_send to (match election_type with
                   | RegularVote => MsgRequestVoteResponse response
                   | PreVote => MsgRequestPreVoteResponse response
                   end) ;;;
  ret tt.

Definition log_up_to_date (r : RequestVote) (st : State) : bool :=
  let last_committable_idx := last_committable_index st in
  let term_of_last_committable_idx := get_term_internal last_committable_idx st in
  (term_of_last_committable_idx <? rv_term_of_last_committable_idx r) ||
  ((rv_term_of_last_committable_idx r =? term_of_last_committable_idx) &&
   (last_committable_idx <=? rv_last_committable_idx r)).

(** The conditions under which the vote is granted. *)
Definition grant_vote (from : NodeId) (r : RequestVote) (election_type : ElectionType) (s : Aft K) : bool :=
  let regular := bool_decide (election_type = RegularVote) in
  negb (regular && bool_decide (is_Some (leader_id s))) &&
  negb (regular && match voted_for s with
                   | Some v => negb (bool_decide (v = from))
                   | None => false
                   end) &&
  log_up_to_date r (state s).

Definition recv_request_vote_unsafe (from : NodeId) (r : RequestVote) (election_type : ElectionType)
  : AftM unit :=
  st <- gets state ;;;
  if rv_term r <? current_view st then send_request_vote_response from false election_type
  else
    when (current_view st <? rv_term r) (become_aware_of_new_term (rv_term r)) ;;;
    grant <- gets (grant_vote from r election_type) ;;;
    when (grant && bool_decide (election_type = RegularVote))
      (restart_election_timeout ;;;
       modify (set_leader_id None) ;;;
       modify (set_voted_for (Some from))) ;;;
    send_request_vote_response from grant election_type.

Definition recv_request_vote (from : NodeId) (r : RequestVote) : AftM unit :=
  recv_request_vote_unsafe from r RegularVote.

Definition recv_request_pre_vote (from : NodeId) (r : RequestVote) : AftM unit :=
  recv_request_vote_unsafe from r PreVote.

Definition recv_vote_response (from : NodeId) (r : RequestVoteResponse) (election_type : ElectionType)
  : AftM unit :=
  s <- gets id ;;;
  let st := state s in
  match all_other_nodes s !! from with
  | None => ret tt
  | Some _ =>
      if current_view st <? rvr_term r then become_aware_of_new_term (rvr_term r)
      else if negb (current_view st =? rvr_term r) then ret tt
      else if negb (bool_decide (leadership_state st = PreVoteCandidate)) &&
              negb (bool_decide (leadership_state st = Candidate)) then ret tt
      else if bool_decide (election_type = RegularVote) &&
              negb (bool_decide (leadership_state st = Candidate)) then ret tt
      else if bool_decide (election_type = PreVote) &&
              negb (bool_decide (leadership_state st = PreVoteCandidate)) then ret tt
      else if negb (rvr_vote_granted r) then ret tt
      else add_vote_for_me from
  end.

Definition recv_request_vote_response (from : NodeId) (r : RequestVoteResponse) : AftM unit :=
  recv_vote_response from r RegularVote.

Definition recv_request_pre_vote_response (from : NodeId) (r : RequestVoteResponse) : AftM unit :=
  recv_vote_response from r PreVote.

Definition recv_propose_request_vote (from : NodeId) (r : ProposeRequestVote) : AftM unit :=
  s <- gets id ;;;
  when (negb (is_retired_committed s) && ticking s && (prv_term r =? current_view (state s)))
    become_candidate.

(** ** Message dispatch *)

(** Runs a handler; every exception is logged and dropped. A read out of bounds
    is not an exception. *)
Definition catch_all (m : AftM unit) : AftM unit := fun s =>
  match m s with
  | (Throw OutOfBounds, s') => (Throw OutOfBounds, s')
  | (_, s') => (Ok tt, s')
  end.

(** The handler of a decoded message; [data] is what follows its header. *)
Definition handle_message (from : NodeId) (msg : RaftMsg) (data : bytes) : AftM unit :=
  match msg with
  | MsgAppendEntries r => recv_append_entries from r data
  | MsgAppendEntriesResponse r => recv_append_entries_response from r
  | MsgRequestPreVote r => recv_request_pre_vote from r
  | MsgRequestVote r => recv_request_vote from r
  | MsgRequestPreVoteResponse r => recv_request_pre_vote_response from r
  | MsgRequestVoteResponse r => recv_request_vote_response from r
  | MsgProposeRequestVote r => recv_propose_request_vote from r
  end.

Definition recv_and_handle (type : RaftMsgType) (wrap : msg_struct type -> RaftMsg) (from : NodeId)
    (data : bytes) : AftM unit :=
  m <- lift (recv_authenticated type from data) ;;;
  handle_message from (wrap m.1) m.2.

(** [serialized::peek<RaftMsgType>] is outside the [try] block. *)
Definition recv_message (from : NodeId) (data : bytes) : AftM unit :=
  if N.of_nat (length data) <? 8 then throw InsufficientSpace
  else
    catch_all
      match msg_type_of_N (le_combine (take 8 data)) with
      | Some raft_append_entries => recv_and_handle raft_append_entries MsgAppendEntries from data
      | Some raft_append_entries_response =>
          recv_and_handle raft_append_entries_response MsgAppendEntriesResponse from data
      | Some raft_request_pre_vote => recv_and_handle raft_request_pre_vote MsgRequestPreVote from data
      | Some raft_request_vote => recv_and_handle raft_request_vote MsgRequestVote from data
      | Some raft_request_pre_vote_response =>
          recv_and_handle raft_request_pre_vote_response MsgRequestPreVoteResponse from data
      | Some raft_request_vote_response =>
          recv_and_handle raft_request_vote_response MsgRequestVoteResponse from data
      | Some raft_propose_request_vote =>
          recv_and_handle raft_propose_request_vote MsgProposeRequestVote from data
      | Some raft_append_entries_signed_response | None => ret tt
      end.

(** ** The periodic tick *)

(** The nodes of a configuration that acknowledged a message within an
    election timeout; a node without state is this one. *)
Definition live_nodes_in_config (s : Aft K) (conf : Configuration) : N :=
  N.of_nat (length (List.filter (fun id =>
    match all_other_nodes s !! id with
    | None => true
    | Some n => last_ack_timeout n <? election_timeout s
    end) (ordered_keys (conf_nodes conf)))).

Definition every_active_config_has_a_quorum (s : Aft K) : bool :=
  forallb (fun conf => get_quorum (num_nodes conf) <=? live_nodes_in_config s conf) (configurations s).

Definition periodic (elapsed : N) : AftM unit :=
  modify (fun s => set_timeout_elapsed (timeout_elapsed s + elapsed) s) ;;;
  s <- gets id ;;;
  if bool_decide (leadership_state (state s) = Leader) then
    when (request_timeout s <=? timeout_elapsed s)
      (modify (set_timeout_elapsed 0) ;;;
       update_batch_size ;;;
       send_to_all) ;;;
    modify (fun s => set_all_other_nodes
      ((fun n => set_last_ack_timeout (last_ack_timeout n + elapsed) n) <$> all_other_nodes s) s) ;;;
    quorate <- gets every_active_config_has_a_quorum ;;;
    when (negb quorate) become_follower
  else
    when (negb (is_retired_committed s) && ticking s && (election_timeout s <=? timeout_elapsed s))
      (if pre_vote_enabled (state s) then become_pre_vote_candidate else become_candidate).

(** ** Startup and administration *)

Definition force_become_primary : AftM unit :=
  leader <- gets leader_id ;;;
  if bool_decide (is_Some leader)
  then throw (LogicError "Can't force leadership if there is already a leader")
  else
    upd (fun st => set_current_view (current_view st + starting_view_change) st) ;;;
    become_leader.

Definition force_become_primary_at (index : Index) (term : Term) (terms : list Index)
    (commit_idx_ : Index) : AftM unit :=
  leader <- gets leader_id ;;;
  if bool_decide (is_Some leader)
  then throw (LogicError "Can't force leadership if there is already a leader")
  else
    upd (set_current_view term) ;;;
    upd (set_last_idx index) ;;;
    upd (set_commit_idx commit_idx_) ;;;
    on_view_history (ViewHistory.initialise terms) ;;;
    on_view_history (ViewHistory.update_m index term) ;;;
    upd (fun st => set_current_view (current_view st + starting_view_change) st) ;;;
    become_leader.

Definition init_as_backup (index : Index) (term : Term) (term_history : list Index)
    (recovery_start_index : Index) : AftM unit :=
  upd (set_last_idx index) ;;;
  upd (set_commit_idx index) ;;;
  on_view_history (ViewHistory.initialise term_history) ;;;
  ledger_write (LedgerInit index recovery_start_index) ;;;
  become_aware_of_new_term term.

Definition enable_all_domains : AftM unit := modify (set_public_only false).

Definition nominate_successor : AftM unit :=
  st <- gets state ;;;
  when (bool_decide (leadership_state st = Leader)) send_propose_request_vote.

End handlers.
