(* ===== verification/RaftExample.v ===== *)
(** * Consensus: a concrete store and environment

    Instances of the interfaces of [RaftTypes.v] that evaluate: a store whose
    entries say by their last byte what they are, and channels that accept
    every message. *)

From S2P Require Import Prelude ViewHistory TxStatus CommitCallbacks LedgerEntries RaftTypes Raft.
From S2P Require Import RaftHandlers.
From Stdlib Require Import Init.Byte.

Open Scope N_scope.
Open Scope m_scope.

Definition ex_info : NodeInfo := mkNodeInfo "127.0.0.1" "8000".
Definition ex_nodes : gmap string NodeInfo :=
  list_to_map [("n0"%string, ex_info); ("n1"%string, ex_info); ("n2"%string, ex_info)].

Definition ex_conf : Configuration := mkConfiguration 1 ex_nodes 1.

(** The hook of an entry that makes all three nodes trusted. *)
Definition ex_hook (version : Version) : ConfigurationChangeHook :=
  make_hook version ((fun info => Some (NodeTRUSTED, info)) <$> ex_nodes).

Inductive ex_kind := Plain | Signature | Config.
Definition ex_entry (kind : ex_kind) : bytes :=
  make_entry 0 [match kind with Plain => x00 | Signature => x01 | Config => x02 end].
Definition ex_kind_of (entry : bytes) : ex_kind :=
  match last entry with Some x01 => Signature | Some x02 => Config | _ => Plain end.

#[export] Instance ex_store : Store unit := {
  ExecutionWrapper := bytes * TxID.t;
  store_compact := fun _ => ret [];
  store_rollback := fun _ _ => ret tt;
  store_initialise_term := fun _ => ret tt;
  store_deserialize := fun entry _ expected => ret (pair entry <$> expected);
  wrapper_apply := fun '(entry, tx) =>
    ret (mkApplied (match ex_kind_of entry with Signature => PASS_SIGNATURE | _ => PASS end)
           (match ex_kind_of entry with Config => [ex_hook (TxID.seqno tx)] | _ => [] end)
           entry (TxID.view tx) (TxID.seqno tx));
}.

(** The batch a primary replicates for an entry of each kind. *)
Definition ex_batch (kind : ex_kind) (index : Version) : BatchEntry :=
  mkBatchEntry index (ex_entry kind) (match kind with Signature => true | _ => false end)
    (match kind with Config => [ex_hook index] | _ => [] end).

(** The header on the wire: the message type and six fields of eight bytes. *)
Definition ex_field (i : nat) (data : bytes) : N := le_combine (take 8 (drop (8 * i) data)).
Definition ex_encode (r : AppendEntries) : bytes :=
  concat (map (le_split 8) [0; ae_idx r; ae_prev_idx r; ae_term r; ae_prev_term r;
                            ae_leader_commit_idx r; ae_term_of_idx r]).
Definition ex_decode (data : bytes) : AppendEntries :=
  mkAppendEntries (ex_field 1 data) (ex_field 2 data) (ex_field 3 data) (ex_field 4 data)
    (ex_field 5 data) (ex_field 6 data).

#[export] Instance ex_env : AftEnv := {
  send_authenticated := fun _ _ _ => true;
  recv_authenticated := fun type =>
    match type with
    | raft_append_entries => fun _ data =>
        let r := ex_decode data in
        if (ae_term_of_idx r =? 0) && negb (ae_prev_idx r =? 0) then Throw DroppedMessage
        else Ok (r, drop 56 data)
    | raft_request_vote_response | raft_request_pre_vote_response => fun _ data =>
        Ok (mkRequestVoteResponse (ex_field 1 data) (0 <? ex_field 2 data), [])
    | _ => fun _ _ => Throw DroppedMessage
    end;
  have_channel := fun _ _ => false;
  distrib := fun _ => 0;
  unordered_keys := ordered_keys;
  NDEBUG := true;
}.

(** A fresh node: message timeout 10, election timeout 100. *)
Definition ex_node (id : NodeId) : Aft unit := init_Aft tt id true 10 100 0 None false.

(** [n0] started the service in view 2, committed its configuration and
    appended an entry of its own. *)
Definition ex_primary : Aft unit :=
  snd ((force_become_primary ;;;
        replicate [ex_batch Config 1; ex_batch Signature 2; ex_batch Plain 3] 2 ;;; ret tt)
         (ex_node "n0")).

(** [n0] as a candidate in view 3, and [n1] after voting for [n0] in view 3. *)
Definition ex_candidate : Aft unit := snd (become_candidate ex_primary).
Definition ex_voter : Aft unit := snd (recv_request_vote "n0" (mkRequestVote 3 4 2) (ex_node "n1")).
