(* ===== verification/RaftInv.v ===== *)
(** * Consensus: the log invariant

    The part of the consensus state that describes the log, the invariant
    every operation of [Raft.v] and [RaftHandlers.v] keeps, and the relation
    between the logs before and after an operation: views and commit indices
    only grow, and the views of committed entries never change. *)

From S2P Require Import Prelude ViewHistory TxStatus CommitCallbacks LedgerEntries RaftTypes Raft.
From S2P Require Import RaftHandlers.
From Stdlib Require Import Init.Byte.

Open Scope N_scope.
Open Scope m_scope.

(** ** The log part of the state *)

Definition log_of (st : State) :=
  (node_id st, current_view st, last_idx st, commit_idx st, view_history st, committable_indices st).

Record wf_log (st : State) : Prop := {
  wf_commit : commit_idx st <= last_idx st;
  wf_committable_sorted : StronglySorted N.lt (committable_indices st);
  wf_committable : Forall (fun i => commit_idx st < i <= last_idx st) (committable_indices st);
  wf_views_sorted : sorted (view_history st);
  wf_views : Forall (fun v => 1 <= v <= N.max 1 (last_idx st)) (view_history st);
}.

(** [evolves st st']: what an operation may do to the log. *)
Record evolves (st st' : State) : Prop := {
  ev_id : node_id st' = node_id st;
  ev_view : current_view st <= current_view st';
  ev_commit : commit_idx st <= commit_idx st';
  ev_committed : forall j, j <= commit_idx st ->
    ViewHistory.view_at j (view_history st') = ViewHistory.view_at j (view_history st);
}.

#[export] Instance evolves_preorder : PreOrder evolves.
Proof.
  split.
  - intros st. by split.
  - intros st1 st2 st3 [] []. split; [congruence|lia|lia|].
    intros j Hj. rewrite ev_committed1 by lia. by apply ev_committed0.
Qed.

Lemma wf_log_ext st st' : log_of st' = log_of st -> wf_log st -> wf_log st'.
Proof. intros [= H1 H2 H3 H4 H5 H6] []. split; rewrite ?H3, ?H4, ?H5, ?H6; done. Qed.

Lemma evolves_ext st st' : log_of st' = log_of st -> evolves st st'.
Proof. intros [= H1 H2 H3 H4 H5 H6]. split; [congruence|lia|lia|]. by rewrite H5. Qed.

(** A node may give up its role, and takes no new one. *)
Definition settles (st st' : State) : Prop :=
  leadership_state st' = leadership_state st \/
  leadership_state st' = LSNone \/ leadership_state st' = Follower.

#[export] Instance settles_preorder : PreOrder settles.
Proof.
  split; [by left|]. intros st1 st2 st3 [H12|[H12|H12]] [H23|[H23|H23]]; unfold settles; rewrite ?H23, ?H12; auto.
Qed.

Section inv.
Context {K : Type} `{HST : !Store K} `{HEN : !AftEnv}.
Implicit Types s : Aft K.

Definition same_log s s' : Prop := log_of (state s') = log_of (state s).
Definition safe s s' : Prop := wf_log (state s) -> wf_log (state s') /\ evolves (state s) (state s').

(** The log, the vote, the votes received and the batch size are as before,
    and no candidacy or leadership began. *)
Definition same_core s s' : Prop :=
  same_log s s' /\ voted_for s' = voted_for s /\
  (entries_batch_size s', batch_window_sum s', votes_for_me s') =
    (entries_batch_size s, batch_window_sum s, votes_for_me s) /\
  settles (state s) (state s').

#[global] Instance same_log_preorder : PreOrder same_log.
Proof. split; [done|]. intros s1 s2 s3. unfold same_log. congruence. Qed.

#[global] Instance same_core_preorder : PreOrder same_core.
Proof.
  split; [intros s; by split_and!|].
  intros s1 s2 s3 (? & ? & ? & ?) (? & ? & ? & ?). split_and!; [by etrans|congruence|congruence|by etrans].
Qed.

#[global] Instance safe_preorder : PreOrder safe.
Proof.
  split.
  - intros s Hs. by split.
  - intros s1 s2 s3 H12 H23 H1. destruct (H12 H1) as [H2 E12]. destruct (H23 H2) as [H3 E23].
    split; [done|]. by etrans.
Qed.

Lemma same_log_safe s s' : same_log s s' -> safe s s'.
Proof. intros H Hwf. split; [by eapply wf_log_ext|by apply evolves_ext]. Qed.

Lemma keeps_safe {A} (m : M (Aft K) A) : keeps same_log m -> keeps safe m.
Proof. intros H s. apply same_log_safe, H. Qed.

Lemma keeps_same_log {A} (m : M (Aft K) A) : keeps same_core m -> keeps same_log m.
Proof. intros H s. apply H. Qed.

Lemma catch_all_state m s : snd (@catch_all K m s) = snd (m s).
Proof. unfold catch_all. by destruct (m s) as [[|[]] s']. Qed.

(** ** Operations that leave the log alone *)

Ltac frame := apply keeps_modify; intros ?; split_and!;
  first [reflexivity|left; reflexivity|right; left; reflexivity|right; right; reflexivity].

Lemma keeps_on_store {A} (m : M K A) : keeps same_core (on_store m).
Proof. intros s. unfold on_store. by destruct (m (store s)). Qed.

Lemma keeps_ledger_write op : keeps same_core (@ledger_write K op).
Proof. frame. Qed.

Lemma keeps_channel_send to msg : keeps same_core (@channel_send K _ to msg).
Proof. unfold channel_send. keeps_auto; frame. Qed.

Lemma keeps_ccf_assert b : keeps same_core (@ccf_assert K _ b).
Proof. unfold ccf_assert. keeps_auto. Qed.

#[local] Hint Resolve keeps_on_store keeps_ledger_write keeps_channel_send keeps_ccf_assert : ccf.

Ltac frame_auto := keeps_auto; try frame.

Lemma keeps_restart_election_timeout : keeps same_core (@restart_election_timeout K _).
Proof. unfold restart_election_timeout. frame_auto. Qed.

Lemma keeps_start_ticking_if_necessary : keeps same_core (@start_ticking_if_necessary K).
Proof. unfold start_ticking_if_necessary, start_ticking. frame_auto. Qed.

Lemma keeps_reset_last_ack_timeouts : keeps same_core (@reset_last_ack_timeouts K).
Proof. frame. Qed.

Lemma keeps_update_batch_size : keeps same_log (@update_batch_size K).
Proof. by apply keeps_modify. Qed.

Lemma keeps_reset_votes_for_me : keeps same_log (@reset_votes_for_me K).
Proof. by apply keeps_modify. Qed.

#[local] Hint Resolve keeps_restart_election_timeout keeps_start_ticking_if_necessary
  keeps_reset_last_ack_timeouts keeps_update_batch_size keeps_reset_votes_for_me : ccf.

Lemma keeps_send_append_entries_range to i j : keeps same_core (@send_append_entries_range K _ to i j).
Proof. unfold send_append_entries_range. frame_auto. Qed.
#[local] Hint Resolve keeps_send_append_entries_range : ccf.

Lemma keeps_send_append_entries_loop fuel to i : keeps same_core (@send_append_entries_loop K _ fuel to i).
Proof. revert i. induction fuel; intros i; simpl; keeps_auto. Qed.
#[local] Hint Resolve keeps_send_append_entries_loop : ccf.

Lemma keeps_send_append_entries to i : keeps same_core (@send_append_entries K _ to i).
Proof. unfold send_append_entries. keeps_auto. Qed.
#[local] Hint Resolve keeps_send_append_entries : ccf.

Lemma keeps_send_to_all : keeps same_core (@send_to_all K _).
Proof. unfold send_to_all. keeps_auto. Qed.

Lemma keeps_create_and_remove_node_state : keeps same_core (@create_and_remove_node_state K _).
Proof. unfold create_and_remove_node_state. frame_auto. Qed.

Lemma keeps_send_propose_request_vote : keeps same_core (@send_propose_request_vote K _).
Proof. unfold send_propose_request_vote. frame_auto. Qed.
#[local] Hint Resolve keeps_send_to_all keeps_create_and_remove_node_state
  keeps_send_propose_request_vote : ccf.

Lemma keeps_become_follower : keeps same_core (@become_follower K _).
Proof. unfold become_follower. frame_auto. Qed.

Lemma keeps_become_retired idx phase : keeps same_core (@become_retired K _ idx phase).
Proof. unfold become_retired. frame_auto. Qed.
#[local] Hint Resolve keeps_become_follower keeps_become_retired : ccf.

Lemma keeps_set_retired_committed n ids : keeps same_core (@set_retired_committed K _ n ids).
Proof. unfold set_retired_committed. frame_auto. Qed.

Lemma keeps_run_commit_callbacks idx : keeps same_core (@run_commit_callbacks K idx).
Proof.
  intros s. unfold run_commit_callbacks. destruct (commit_callbacks s); [|done].
  by destruct (CommitCallbacks.trigger_callbacks _ _ _).
Qed.

Lemma keeps_retire_if_committed idx : keeps same_core (@retire_if_committed K _ idx).
Proof. unfold retire_if_committed. frame_auto. Qed.

Lemma keeps_rollback_retirement_signed idx : keeps same_core (@rollback_retirement_signed K _ idx).
Proof. unfold rollback_retirement_signed. frame_auto. Qed.

Lemma keeps_rollback_retirement_ordered idx : keeps same_core (@rollback_retirement_ordered K _ idx).
Proof. unfold rollback_retirement_ordered. frame_auto. Qed.

Lemma keeps_send_request_vote to : keeps same_core (@send_request_vote K _ to).
Proof. unfold send_request_vote. frame_auto. Qed.

Lemma keeps_send_request_pre_vote to : keeps same_core (@send_request_pre_vote K _ to).
Proof. unfold send_request_pre_vote. frame_auto. Qed.

Lemma keeps_add_configuration idx conf : keeps same_core (@add_configuration K _ idx conf).
Proof. unfold add_configuration. frame_auto. Qed.
#[local] Hint Resolve keeps_add_configuration : ccf.

Lemma keeps_call_hook h : keeps same_core (@call_hook K _ h).
Proof. unfold call_hook. frame_auto. Qed.

Lemma keeps_sign_retirement idx : keeps same_core (@sign_retirement K _ idx).
Proof. unfold sign_retirement. frame_auto. Qed.

Lemma keeps_send_append_entries_response to a t i :
  keeps same_core (@send_append_entries_response K _ to a t i).
Proof. unfold send_append_entries_response. frame_auto. Qed.
#[local] Hint Resolve keeps_send_append_entries_response : ccf.

Lemma keeps_send_append_entries_response_ack to r :
  keeps same_core (@send_append_entries_response_ack K _ to r).
Proof. unfold send_append_entries_response_ack. frame_auto. Qed.

Lemma keeps_send_append_entries_response_nack_tx to tx :
  keeps same_core (@send_append_entries_response_nack_tx K _ to tx).
Proof. unfold send_append_entries_response_nack_tx. frame_auto. Qed.

Lemma keeps_send_append_entries_response_nack to :
  keeps same_core (@send_append_entries_response_nack K _ to).
Proof. unfold send_append_entries_response_nack. frame_auto. Qed.

Lemma keeps_send_request_vote_response to b e :
  keeps same_core (@send_request_vote_response K _ to b e).
Proof. unfold send_request_vote_response. frame_auto. Qed.

End inv.

#[export] Hint Resolve keeps_same_log keeps_on_store keeps_ledger_write keeps_channel_send keeps_ccf_assert
  keeps_restart_election_timeout keeps_start_ticking_if_necessary keeps_reset_last_ack_timeouts
  keeps_update_batch_size keeps_reset_votes_for_me keeps_send_append_entries keeps_send_to_all
  keeps_create_and_remove_node_state keeps_send_propose_request_vote keeps_become_follower
  keeps_become_retired keeps_set_retired_committed keeps_run_commit_callbacks
  keeps_retire_if_committed keeps_rollback_retirement_signed keeps_rollback_retirement_ordered
  keeps_send_request_vote keeps_send_request_pre_vote keeps_add_configuration keeps_call_hook
  keeps_sign_retirement keeps_send_append_entries_response keeps_send_append_entries_response_ack
  keeps_send_append_entries_response_nack_tx keeps_send_append_entries_response_nack
  keeps_send_request_vote_response : ccf.
