(* ===== verification/RaftLog.v ===== *)
(** * Consensus: operations that change the log keep its invariant

    They also leave the view and the vote of a node alone. *)

From S2P Require Import Prelude ViewHistory TxStatus CommitCallbacks LedgerEntries RaftTypes Raft.
From S2P Require Import RaftHandlers RaftInv.
From Stdlib Require Import Init.Byte.

Open Scope N_scope.
Open Scope m_scope.

#[export] Hint Resolve keeps_safe : ccf.

(** ** Deques of indices *)

Lemma pop_front_while_filter idx l :
  ssorted l -> pop_front_while (fun x => x <=? idx) l = filter (fun x => idx < x) l.
Proof.
  induction 1 as [|x l Hs IH Hall]; simpl; [done|].
  destruct (N.leb_spec x idx).
  - rewrite filter_cons, decide_False by lia. done.
  - rewrite filter_cons, decide_True by done. f_equal.
    clear -Hall H. induction Hall as [|y l Hy Hall IH]; [done|].
    rewrite filter_cons, decide_True by lia. by f_equal.
Qed.

(** The highest committable index up to [idx] is the largest such element. *)
Lemma find_committable_spec idx st i :
  find_highest_possible_committable_index idx st = Some i ->
  i ∈ committable_indices st /\ i <= idx.
Proof.
  unfold find_highest_possible_committable_index. intros H%List.find_some.
  destruct H as [Hin Hle]. apply N.leb_le in Hle. split; [|done].
  rewrite <- elem_of_reverse. by apply list_elem_of_In.
Qed.

Lemma find_committable_max idx st i j :
  ssorted (committable_indices st) ->
  find_highest_possible_committable_index idx st = Some i ->
  j ∈ committable_indices st -> j <= idx -> j <= i.
Proof.
  unfold find_highest_possible_committable_index. generalize (committable_indices st) as l.
  intros l Hs Hf Hj Hle. induction l as [|x l IH] using rev_ind; [by apply elem_of_nil in Hj|].
  rewrite reverse_snoc in Hf. simpl in Hf.
  assert (ssorted l /\ Forall (fun y => y < x) l) as [Hl Hlt].
  { clear -Hs. induction l as [|y l IH]; simpl in *; [by repeat constructor|].
    inversion Hs as [|? ? Hs' Hall]; subst. destruct (IH Hs') as [? ?].
    apply Forall_app in Hall as [? Hx]. inversion Hx; subst.
    split; constructor; done. }
  destruct (N.leb_spec x idx).
  - injection Hf as <-. apply elem_of_app in Hj as [Hj|Hj].
    + rewrite Forall_forall in Hlt. specialize (Hlt _ Hj). lia.
    + apply list_elem_of_singleton in Hj. lia.
  - apply elem_of_app in Hj as [Hj|Hj]; [by apply IH|].
    apply list_elem_of_singleton in Hj. lia.
Qed.

Lemma find_committable_None idx st j :
  find_highest_possible_committable_index idx st = None ->
  j ∈ committable_indices st -> idx < j.
Proof.
  unfold find_highest_possible_committable_index. intros Hf Hj.
  apply (List.find_none _ _ ) with (x := j) in Hf.
  - by apply N.leb_gt in Hf.
  - apply list_elem_of_In. by rewrite elem_of_reverse.
Qed.

Lemma last_committable_index_bounds st :
  wf_log st -> commit_idx st <= last_committable_index st <= last_idx st.
Proof.
  intros Hwf. unfold last_committable_index. pose proof (wf_commit _ Hwf).
  destruct (last (committable_indices st)) as [i|] eqn:Hl; [|lia].
  pose proof (wf_committable _ Hwf) as Hall. rewrite Forall_forall in Hall.
  rewrite last_lookup in Hl. apply list_elem_of_lookup_2 in Hl. specialize (Hall _ Hl). lia.
Qed.

(** ** Steps on the state *)

Lemma commit_step_safe idx st :
  wf_log st -> commit_idx st < idx <= last_idx st ->
  let st' := set_commit_idx idx (set_committable_indices
               (pop_front_while (fun x => x <=? idx) (committable_indices st)) st) in
  wf_log st' /\ evolves st st'.
Proof.
  intros Hwf Hidx. destruct Hwf as [Hc Hcs Hcr Hvs Hv]. simpl.
  rewrite pop_front_while_filter by done. split.
  - split; simpl; [lia|by apply ssorted_filter| |done|done].
    apply Forall_forall. intros x [Hx Hin]%list_elem_of_filter.
    rewrite Forall_forall in Hcr. specialize (Hcr _ Hin). lia.
  - split; simpl; [done|lia|lia|done].
Qed.

Lemma rollback_step_safe idx st :
  wf_log st -> commit_idx st <= idx <= last_idx st ->
  let st' := set_committable_indices (pop_back_while (fun x => idx <? x) (committable_indices st))
               (set_view_history (ViewHistory.rollback idx (view_history st)) (set_last_idx idx st)) in
  wf_log st' /\ evolves st st'.
Proof.
  intros Hwf Hidx. destruct Hwf as [Hc Hcs Hcr Hvs Hv]. simpl.
  rewrite (pop_back_while_filter id) by by rewrite list_fmap_id. split.
  - split; simpl; [lia|by apply ssorted_filter| |by apply ViewHistory.rollback_sorted|].
    + apply Forall_forall. intros x [Hx Hin]%list_elem_of_filter.
      rewrite Forall_forall in Hcr. specialize (Hcr _ Hin). lia.
    + unfold ViewHistory.rollback. apply Forall_lookup. intros i v Hi.
      pose proof (lookup_lt_Some _ _ _ Hi) as Hlt. rewrite length_take in Hlt.
      rewrite lookup_take_lt in Hi by lia. rewrite Forall_lookup in Hv. pose proof (Hv _ _ Hi).
      pose proof (upper_bound_before idx (view_history st) i v ltac:(lia) Hi). lia.
  - split; simpl; [done|lia|lia|]. intros j Hj.
    rewrite ViewHistory.view_at_rollback by done. by rewrite N.min_l by lia.
Qed.

(** The state after a rollback to [idx], up to its retirement fields. *)
Definition rolled_back (idx : Index) (st : State) : State :=
  set_committable_indices (pop_back_while (fun x => idx <? x) (committable_indices st))
    (set_view_history (ViewHistory.rollback idx (view_history st)) (set_last_idx idx st)).

(** Recording views from [from] on, where nothing at or after [from] is committed. *)
Lemma update_step_safe from view st views' :
  wf_log st -> 1 <= from <= N.max 1 (last_idx st) -> commit_idx st < from ->
  ViewHistory.update from view (view_history st) = Ok views' ->
  wf_log (set_view_history views' st) /\ evolves st (set_view_history views' st).
Proof.
  intros Hwf Hfrom Hcommit Hu. destruct Hwf as [Hc Hcs Hcr Hvs Hv]. split.
  - split; simpl; try done; [by eapply ViewHistory.update_sorted|].
    apply ViewHistory.update_inv in Hu as [_ ->]. apply Forall_app. split; [done|].
    by apply Forall_replicate.
  - split; simpl; [done|lia|lia|]. intros j Hj.
    rewrite (ViewHistory.view_at_update _ _ _ _ _ Hvs Hu).
    by destruct (N.ltb_spec j from); [|lia].
Qed.

(** Appending entry [last_idx + 1], a signature when [sig] holds. *)
Lemma append_step_safe (sig : bool) st :
  wf_log st ->
  let i := last_idx st + 1 in
  let st' := set_last_idx i (if sig then set_committable_indices (committable_indices st ++ [i])%list st
                             else st) in
  wf_log st' /\ evolves st st'.
Proof.
  intros Hwf. destruct Hwf as [Hc Hcs Hcr Hvs Hv]. simpl. split.
  - assert (Forall (fun i => commit_idx st < i <= last_idx st + 1) (committable_indices st)) as Hcr'.
    { eapply Forall_impl; [exact Hcr|]. simpl. lia. }
    assert (Forall (fun v => 1 <= v <= N.max 1 (last_idx st + 1)) (view_history st)) as Hv'.
    { eapply Forall_impl; [exact Hv|]. simpl. lia. }
    destruct sig; split; simpl; try done; try lia.
    + apply ssorted_snoc; [done|]. eapply Forall_impl; [exact Hcr|]. simpl. lia.
    + apply Forall_app. split; [done|]. repeat constructor; lia.
  - destruct sig; split; simpl; try done; lia.
Qed.

Section log.
Context {K : Type} `{HST : !Store K} `{HEN : !AftEnv}.
Implicit Types s : Aft K.

(** ** Composition *)

Lemma safe_then {A} (m : M (Aft K) A) s s' : safe s s' -> keeps safe m -> safe s (snd (m s')).
Proof. intros H Hm. etrans; [exact H|apply Hm]. Qed.

Lemma safe_bind_frame {A B} (m : M (Aft K) A) (k : A -> M (Aft K) B) s :
  keeps same_log m -> (forall a s', same_log s s' -> safe s' (snd (k a s'))) ->
  safe s (snd (bind m k s)).
Proof.
  intros Hm Hk. specialize (Hm s). unfold bind. destruct (m s) as [[a|e] s']; simpl in *.
  - etrans; [by apply same_log_safe|by apply Hk].
  - by apply same_log_safe.
Qed.

Lemma safe_bind_gets {A B} (f : Aft K -> A) (k : A -> M (Aft K) B) s :
  safe s (snd (k (f s) s)) -> safe s (snd (bind (gets f) k s)).
Proof. done. Qed.

Lemma keeps_bind_gets {A B} (f : Aft K -> A) (k : A -> M (Aft K) B) :
  (forall s, safe s (snd (k (f s) s))) -> keeps safe (bind (gets f) k).
Proof. intros H s. apply H. Qed.

Lemma same_log_last s s' : same_log s s' -> last_idx (state s') = last_idx (state s).
Proof. by intros [=]. Qed.
Lemma same_log_commit s s' : same_log s s' -> commit_idx (state s') = commit_idx (state s).
Proof. by intros [=]. Qed.

(** ** Commit *)

Lemma commit_safe idx : keeps safe (@commit K _ _ idx).
Proof.
  unfold commit. apply keeps_bind_gets. intros s.
  destruct (N.ltb_spec (last_idx (state s)) idx); [done|].
  destruct (N.leb_spec idx (commit_idx (state s))); [done|].
  unfold compact_committable_indices, upd.
  match goal with |- safe s (snd (bind (modify ?f) (fun _ => bind (modify ?g) ?k) s)) =>
    change (safe s (snd (k tt (g (f s))))) end.
  apply safe_then.
  - intros Hwf. by apply commit_step_safe.
  - keeps_auto; apply keeps_safe, keeps_modify; done.
Qed.

Lemma commit_if_possible_safe idx : keeps safe (@commit_if_possible K _ _ idx).
Proof. unfold commit_if_possible. keeps_auto. apply commit_safe. Qed.

Lemma update_commit_safe : keeps safe (@update_commit K _ _).
Proof. unfold update_commit. keeps_auto; apply commit_safe. Qed.

(** ** Rollback *)

Lemma rollback_safe idx s : idx <= last_idx (state s) -> safe s (snd (@rollback K _ _ idx s)).
Proof.
  intros Hidx. unfold rollback. apply safe_bind_gets.
  destruct (N.ltb_spec idx (commit_idx (state s))); [done|].
  apply safe_bind_frame; [auto with ccf|]. intros _ s1 Hs1.
  apply safe_bind_frame; [auto with ccf|]. intros _ s2 Hs2. unfold upd.
  match goal with |- safe s2 (snd (bind (modify ?f) (fun _ => bind (modify ?g) (fun _ => bind (modify ?h) ?k)) s2)) =>
    change (safe s2 (snd (k tt (h (g (f s2)))))) end.
  assert (same_log s s2) as Hs by (by etrans).
  apply same_log_last in Hs as Hl. apply same_log_commit in Hs as Hc.
  apply safe_then.
  - intros Hwf. exact (rollback_step_safe idx (state s2) Hwf ltac:(lia)).
  - keeps_auto; apply keeps_safe, keeps_modify; done.
Qed.

Lemma rollback_log idx s :
  commit_idx (state s) <= idx ->
  wp (@rollback K _ _ idx) (fun _ s' => log_of (state s') = log_of (rolled_back idx (state s)))
    (fun _ _ => True) s.
Proof.
  intros Hidx. unfold rollback. apply wp_bind, wp_gets.
  destruct (N.ltb_spec idx (commit_idx (state s))); [lia|].
  apply wp_bind. eapply wp_mono; [apply (wp_keeps same_log), keeps_same_log, keeps_on_store| |done].
  intros a s1 Hs1; cbv beta in Hs1.
  apply wp_bind, wp_modify, wp_bind, wp_modify, wp_bind, wp_modify, wp_bind, wp_modify.
  match goal with |- wp ?m _ _ ?x =>
    assert (keeps same_log m) as Hm by (keeps_auto; by apply keeps_modify);
    eapply wp_mono; [exact (wp_keeps same_log m x Hm)| |done] end.
  intros a2 s2 Hs2; cbv beta in Hs2. etrans; [exact Hs2|]. unfold log_of. simpl.
  injection Hs1. intros. congruence.
Qed.

End log.
#[export] Hint Resolve commit_safe commit_if_possible_safe update_commit_safe : ccf.

(** ** Operations within a view

    Committing, rolling back, appending and sending leave the view and the
    vote of a node alone. A relation that allows for everything else those
    operations do is kept by all of them. *)

Class Framed {K : Type} (R : Aft K -> Aft K -> Prop) := {
  framed_core : forall s s', same_core s s' -> R s s';
  framed_state : forall f s, current_view (f (state s)) = current_view (state s) ->
    settles (state s) (f (state s)) -> R s (upd_state f s);
  framed_batch : keeps R update_batch_size;
}.

Section framed.
Context {K : Type} `{HST : !Store K} `{HEN : !AftEnv}.
Context (R : Aft K -> Aft K -> Prop) `{HR : !PreOrder R} `{HF : !Framed R}.

Lemma keeps_framed {A} (m : M (Aft K) A) : keeps same_core m -> keeps R m.
Proof. intros H s. apply framed_core, H. Qed.

Lemma upd_framed f :
  (forall st, current_view (f st) = current_view st /\ settles st (f st)) -> keeps R (upd f).
Proof. intros H. apply keeps_modify. intros s. apply framed_state; apply H. Qed.

Lemma modify_framed f : (forall s, same_core s (f s)) -> keeps R (modify f).
Proof. intros H. apply keeps_modify. intros s. apply framed_core, H. Qed.

Lemma on_view_history_framed m : keeps R (@on_view_history K m).
Proof. intros s. unfold on_view_history. destruct (m _). apply framed_state; [done|by left]. Qed.

Lemma update_batch_size_framed : keeps R update_batch_size.
Proof. apply framed_batch. Qed.

#[local] Hint Resolve keeps_framed on_view_history_framed update_batch_size_framed : ccf.

Ltac framed :=
  keeps_auto;
  first [ apply upd_framed; intros ?; split; [reflexivity|by left]
        | apply modify_framed; intros ?; split_and!; [reflexivity..|by left] ].

Lemma commit_framed idx : keeps R (@commit K _ _ idx).
Proof. unfold commit, compact_committable_indices. framed. Qed.
#[local] Hint Resolve commit_framed : ccf.

Lemma update_commit_framed : keeps R (@update_commit K _ _).
Proof. unfold update_commit. keeps_auto. Qed.

Lemma commit_if_possible_framed idx : keeps R (@commit_if_possible K _ _ idx).
Proof. unfold commit_if_possible. keeps_auto. Qed.

Lemma rollback_framed idx : keeps R (@rollback K _ _ idx).
Proof. unfold rollback. framed. Qed.
#[local] Hint Resolve update_commit_framed commit_if_possible_framed rollback_framed : ccf.

Lemma become_leader_framed :
  (forall s, R s (upd_state (set_leadership_state Leader) s)) -> keeps R (@become_leader K _ _).
Proof. intros Hlead. unfold become_leader. keeps_auto; try (apply keeps_modify; apply Hlead). all: framed. Qed.

Lemma replicate_entries_framed entries : keeps R (@replicate_entries K _ entries).
Proof.
  induction entries as [|e entries IH]; simpl; [keeps_auto|].
  unfold replicate_one, mark_committable, push_committable, append_entry. framed.
Qed.
#[local] Hint Resolve replicate_entries_framed : ccf.

Lemma replicate_framed entries term : keeps R (@replicate K _ _ entries term).
Proof. unfold replicate. keeps_auto. Qed.

Lemma execute_append_entries_sync_framed l from r :
  keeps R (@execute_append_entries_sync K _ _ l from r).
Proof.
  induction l as [|[ds i] l IH]; simpl.
  - unfold execute_append_entries_finish. keeps_auto.
  - unfold execute_entry, finish_entry, apply_signature, push_committable. framed.
Qed.
#[local] Hint Resolve execute_append_entries_sync_framed : ccf.

Lemma deserialise_entries_framed n from r i data l :
  keeps R (@deserialise_entries K _ _ n from r i data l).
Proof.
  revert i data l. induction n as [|n IH]; intros i data l; simpl; [keeps_auto|].
  unfold entry_action, deserialise_entry. framed.
Qed.
#[local] Hint Resolve deserialise_entries_framed : ccf.

Lemma recv_append_entries_current_framed from r data :
  keeps R (@recv_append_entries_current K _ _ from r data).
Proof. unfold recv_append_entries_current, recv_append_entries_matched. framed. Qed.

End framed.

#[export] Hint Resolve keeps_framed on_view_history_framed update_batch_size_framed commit_framed
  update_commit_framed commit_if_possible_framed rollback_framed replicate_framed
  recv_append_entries_current_framed : ccf.
