(* ===== verification/RaftSafe.v ===== *)
(** * Consensus: every entry point keeps the log invariant *)

From S2P Require Import Prelude ViewHistory TxStatus CommitCallbacks LedgerEntries RaftTypes Raft.
From S2P Require Import RaftHandlers RaftInv RaftLog.
From Stdlib Require Import Init.Byte.

Open Scope N_scope.
Open Scope m_scope.

(** An AppendEntries message names an unknown view only in a heartbeat from an
    empty log. *)
Definition wf_append_entries (r : AppendEntries) : Prop :=
  ae_term_of_idx r = VIEW_UNKNOWN -> ae_prev_idx r = 0.

Section safe.
Context {K : Type} `{HST : !Store K} `{HEN : !AftEnv}.
Implicit Types s : Aft K.

(** [safe] relative to a bound [b] on the committed entries that are looked
    at, which lets a handler advance the commit index on its way. *)
Definition safe_at (b : Index) s s' : Prop :=
  wf_log (state s) /\ b <= commit_idx (state s) ->
  wf_log (state s') /\
  (node_id (state s') = node_id (state s) /\
   current_view (state s) <= current_view (state s') /\
   commit_idx (state s) <= commit_idx (state s') /\
   forall j, j <= b ->
     ViewHistory.view_at j (view_history (state s')) = ViewHistory.view_at j (view_history (state s))).

#[global] Instance safe_at_preorder b : PreOrder (safe_at b).
Proof.
  split.
  - intros s [Hs Hb]. done.
  - intros s1 s2 s3 H12 H23 [H1 Hb].
    destruct (H12 (conj H1 Hb)) as (H2 & Hi & Hv & Hc & Hj).
    assert (b <= commit_idx (state s2)) as Hb2 by lia.
    destruct (H23 (conj H2 Hb2)) as (H3 & Hi' & Hv' & Hc' & Hj').
    split_and!; [done|congruence|lia|lia|]. intros j Hjb. rewrite Hj' by done. by apply Hj.
Qed.

Lemma safe_safe_at b s s' : safe s s' -> safe_at b s s'.
Proof.
  intros H [Hwf Hb]. destruct (H Hwf) as [Hwf' []]. split_and!; try done.
  intros j Hj. apply ev_committed. lia.
Qed.

Lemma safe_at_safe s s' : safe_at (commit_idx (state s)) s s' -> safe s s'.
Proof.
  intros H Hwf. destruct H as (Hwf' & ? & ? & ? & ?); [done|]. split; [done|]. by split.
Qed.

Lemma keeps_safe_at {A} b (m : M (Aft K) A) : keeps safe m -> keeps (safe_at b) m.
Proof. intros H s. apply safe_safe_at, H. Qed.
#[local] Hint Resolve keeps_safe_at : ccf.

Lemma safe_with_wf s s' : (wf_log (state s) -> safe s s') -> safe s s'.
Proof. intros H Hwf. by apply H. Qed.

Lemma safe_bind {A B} (m : M (Aft K) A) (k : A -> M (Aft K) B) s :
  safe s (snd (m s)) -> (forall a, keeps safe (k a)) -> safe s (snd (bind m k s)).
Proof.
  intros Hm Hk. unfold bind. destruct (m s) as [[a|e] s']; simpl in *; [|done].
  etrans; [exact Hm|apply Hk].
Qed.

Ltac frame := apply keeps_safe, keeps_modify; done.

(** ** Terms and elections *)

Lemma view_step_safe v s :
  current_view (state s) <= v -> safe s (upd_state (set_current_view v) s).
Proof. intros Hv Hwf. split; [by destruct Hwf; split|]. split; simpl; done. Qed.

Lemma become_aware_of_new_term_safe term s :
  current_view (state s) <= term -> safe s (snd (@become_aware_of_new_term K _ term s)).
Proof.
  intros Hterm. unfold become_aware_of_new_term. apply safe_bind.
  - by apply view_step_safe.
  - intros _. keeps_auto; frame.
Qed.

Lemma become_leader_safe : keeps safe (@become_leader K _ _).
Proof.
  unfold become_leader. apply keeps_bind_gets. intros s.
  destruct (is_retired_committed s); [done|]. apply safe_bind_gets.
  apply safe_with_wf. intros Hwf. apply safe_bind.
  - destruct (0 <? commit_idx (state s)).
    + apply rollback_safe. by apply last_committable_index_bounds.
    + apply keeps_safe. auto with ccf.
  - intros _. keeps_auto; frame.
Qed.
#[local] Hint Resolve become_leader_safe : ccf.

Lemma become_candidate_with_safe (add_vote : NodeId -> M (Aft K) unit) :
  (forall id, keeps safe (add_vote id)) -> keeps safe (become_candidate_with add_vote).
Proof.
  intros Hadd. unfold become_candidate_with. keeps_auto; try frame; try apply Hadd.
  apply keeps_modify. intros s. apply view_step_safe. lia.
Qed.

Lemma add_vote_for_me_fuel_safe fuel from : keeps safe (@add_vote_for_me_fuel K _ _ fuel from).
Proof.
  revert from. induction fuel as [|fuel IH]; intros from; simpl; keeps_auto; try frame.
  by apply become_candidate_with_safe.
Qed.
#[local] Hint Resolve add_vote_for_me_fuel_safe : ccf.

Lemma become_candidate_safe : keeps safe (@become_candidate K _ _).
Proof. apply become_candidate_with_safe. auto with ccf. Qed.
#[local] Hint Resolve become_candidate_safe : ccf.

Lemma become_pre_vote_candidate_safe : keeps safe (@become_pre_vote_candidate K _ _).
Proof.
  unfold become_pre_vote_candidate, add_vote_for_me. keeps_auto; frame.
Qed.
#[local] Hint Resolve become_pre_vote_candidate_safe : ccf.

(** ** Appending entries *)

Lemma bind_assoc {A B C} (m : M (Aft K) A) (f : A -> M (Aft K) B) (g : B -> M (Aft K) C) s :
  bind (bind m f) g s = bind m (fun a => bind (f a) g) s.
Proof. unfold bind. by destruct (m s) as [[a|e] s']. Qed.

Lemma start_ticking_if_necessary_runs s :
  exists s', @start_ticking_if_necessary K s = (Ok tt, s') /\ same_log s s'.
Proof.
  unfold start_ticking_if_necessary, start_ticking, bind. simpl.
  destruct (_ && _); simpl; eexists; split; done.
Qed.

Lemma on_update_safe_at b from view s :
  (wf_log (state s) -> b <= commit_idx (state s) ->
   1 <= from <= N.max 1 (last_idx (state s)) /\ b < from) ->
  safe_at b s (snd (@on_view_history K (ViewHistory.update_m from view) s)).
Proof.
  intros H [Hwf Hb]. destruct (H Hwf Hb) as [Hfrom Hbf]. unfold on_view_history, ViewHistory.update_m.
  destruct (ViewHistory.update from view (view_history (state s))) as [views|] eqn:Hu; simpl.
  - destruct Hwf as [Hc Hcs Hcr Hvs Hv]. split_and!; simpl; [|done|lia|lia|].
    + split; simpl; try done; [by eapply ViewHistory.update_sorted|].
      apply ViewHistory.update_inv in Hu as [_ ->]. apply Forall_app. split; [done|].
      by apply Forall_replicate.
    + intros j Hj. rewrite (ViewHistory.view_at_update _ _ _ _ _ Hvs Hu).
      by destruct (N.ltb_spec j from); [|lia].
  - split; [exact (wf_log_ext (state s) (set_view_history _ _) eq_refl Hwf)|]. split_and!; simpl; done.
Qed.

(** The log after a step that appends [last_idx + 1]. *)
Lemma append_log_safe (sig : bool) s s' :
  log_of (state s') =
    log_of (set_last_idx (last_idx (state s) + 1)
              (if sig then set_committable_indices
                             (committable_indices (state s) ++ [last_idx (state s) + 1])%list (state s)
               else state s)) ->
  safe s s'.
Proof.
  intros Hlog Hwf. destruct (append_step_safe sig (state s) Hwf) as [Hwf' Hev].
  split; [by eapply wf_log_ext|]. etrans; [exact Hev|]. by apply evolves_ext.
Qed.

Lemma mark_committable_log idx s :
  wp (mark_committable idx)
    (fun _ s' => log_of (state s') =
       log_of (set_committable_indices (committable_indices (state s) ++ [idx])%list (state s)))
    (fun _ s' => same_log s s') s.
Proof.
  unfold mark_committable. apply wp_bind.
  eapply wp_mono; [apply (wp_keeps same_log), keeps_same_log, keeps_sign_retirement| |done]. intros a s1 Hs1.
  apply wp_bind, wp_modify, wp_bind. unfold wp.
  match goal with |- context [start_ticking_if_necessary ?x] =>
    destruct (start_ticking_if_necessary_runs x) as (s3 & -> & Hs3) end.
  simpl. etrans; [exact Hs3|]. unfold log_of. simpl. injection Hs1. intros. congruence.
Qed.

Lemma append_entry_safe e s s' :
  be_index e = last_idx (state s) + 1 ->
  log_of (state s') =
    log_of (if be_globally_committable e
            then set_committable_indices (committable_indices (state s) ++ [be_index e])%list (state s)
            else state s) ->
  safe s (snd (append_entry e s')).
Proof.
  intros Hidx Hlog. unfold append_entry, upd.
  match goal with |- safe s (snd (bind (modify ?f) ?k s')) => change (safe s (snd (k tt (f s')))) end.
  set (s1 := upd_state _ s').
  assert (safe s s1) as H01.
  { apply (append_log_safe (be_globally_committable e)). subst s1. rewrite <- Hidx.
    unfold log_of in *. simpl. destruct (be_globally_committable e); simpl in *; congruence. }
  apply safe_with_wf. intros Hwf. pose proof (H01 Hwf) as [Hwf1 He1].
  assert (last_idx (state s1) = be_index e /\ commit_idx (state s1) < be_index e) as [Hl1 Hc1].
  { pose proof (wf_commit _ Hwf). split; [done|]. subst s1. simpl.
    assert (commit_idx (state s') = commit_idx (state s)) as ->; [|lia].
    unfold log_of in Hlog. destruct (be_globally_committable e); simpl in Hlog; congruence. }
  clearbody s1. etrans; [exact H01|].
  apply safe_bind_gets.
  apply safe_bind_frame; [auto with ccf|]. intros _ s4 Hs4.
  apply safe_bind_frame; [by apply keeps_modify|]. intros _ s5 Hs5.
  apply safe_bind_frame; [by apply keeps_modify|]. intros _ s6 Hs6.
  assert (same_log s1 s6) as H16 by (etrans; [|exact Hs6]; by etrans).
  apply safe_bind; [|intros _; keeps_auto; frame].
  apply safe_at_safe, on_update_safe_at. intros _ _.
  rewrite (same_log_last _ _ H16), (same_log_commit _ _ H16). lia.
Qed.

Lemma replicate_one_safe e s :
  be_index e = last_idx (state s) + 1 -> safe s (snd (@replicate_one K _ e s)).
Proof.
  intros Hidx. unfold replicate_one.
  apply safe_bind_frame; [keeps_auto|]. intros _ s1 Hs1.
  rewrite <- (same_log_last _ _ Hs1) in Hidx.
  pose proof (append_entry_safe e s1) as Happend.
  destruct (be_globally_committable e); cbn [when].
  - pose proof (mark_committable_log (be_index e) s1) as Hm. unfold wp in Hm. unfold bind.
    destruct (mark_committable (be_index e) s1) as [[a|e'] s2].
    + by apply Happend.
    + by apply same_log_safe.
  - by apply Happend.
Qed.

Lemma replicate_entries_safe entries : keeps safe (@replicate_entries K _ entries).
Proof.
  induction entries as [|e entries IH]; simpl; [keeps_auto|].
  apply keeps_bind_gets. intros s.
  destruct (N.eqb_spec (be_index e) (last_idx (state s) + 1)); simpl; [|done].
  apply safe_bind; [by apply replicate_one_safe|]. intros _. exact IH.
Qed.

Lemma replicate_safe entries term : keeps safe (@replicate K _ _ entries term).
Proof.
  unfold replicate. apply keeps_bind_gets. intros s. change (id s) with s.
  assert (forall b : bool, safe s (snd (bind (rollback (last_idx (state s))) (fun _ => ret b) s))) as Hrb.
  { intros b. apply safe_bind; [by apply rollback_safe|]. intros _. keeps_auto. }
  destruct (negb _); [apply Hrb|]. destruct (negb _); [done|].
  destruct (is_retired_committed s); [apply Hrb|].
  assert (keeps safe (@replicate_entries K _ entries)) by apply replicate_entries_safe.
  match goal with |- safe s (snd (?m s)) => enough (keeps safe m) as Hk by apply Hk end.
  keeps_auto.
Qed.

End safe.
#[export] Hint Resolve become_leader_safe add_vote_for_me_fuel_safe become_candidate_safe
  become_pre_vote_candidate_safe replicate_safe : ccf.
