(* ===== verification/RaftSend.v ===== *)
(** * Consensus: sending entries

    [send_append_entries] cuts the entries a node lacks into batches and
    [find_highest_possible_match] locates the last entry two logs may share.
    Both are loops: here they are shown to end within the bounds of the model
    and to compute what they are meant to. *)

From S2P Require Import Prelude ViewHistory TxStatus CommitCallbacks LedgerEntries RaftTypes Raft.
From S2P Require Import RaftHandlers RaftExample RaftInv RaftLog RaftSafe.
From Stdlib Require Import Init.Byte.

Open Scope N_scope.
Open Scope m_scope.

(** ** Batches *)

(** [rs] splits the indices from [start] to [last] into consecutive ranges;
    a single range with nothing in it when [start] is past [last]. *)
Fixpoint covers (start last : Index) (rs : list (Index * Index)) : Prop :=
  match rs with
  | [] => False
  | [(a, b)] => a = start /\ b = last
  | (a, b) :: rs => a = start /\ a <= b < last /\ covers (b + 1) last rs
  end.

Lemma view_at_past_end st idx :
  wf_log st -> last_idx st < idx ->
  ViewHistory.view_at idx (view_history st) = N.of_nat (length (view_history st)).
Proof.
  intros Hwf Hidx. rewrite ViewHistory.view_at_upper_bound. f_equal.
  apply upper_bound_unique; [done| |].
  - intros i y _ Hy. pose proof (wf_views _ Hwf) as Hv. rewrite Forall_lookup in Hv.
    specialize (Hv _ _ Hy). simpl in Hv. lia.
  - intros y Hy. apply lookup_lt_Some in Hy. lia.
Qed.

Lemma end_of_latest_view st :
  ViewHistory.end_of_view (N.of_nat (length (view_history st))) (view_history st) = NoVersion.
Proof.
  apply ViewHistory.end_of_view_latest, lookup_ge_None_2. lia.
Qed.

(** ** The highest possible match *)

Lemma before_view views t :
  sorted views -> Forall (fun x => 1 <= x) views -> t <> 0 ->
  forall idx, ViewHistory.view_at idx views = t ->
  1 <= ViewHistory.start_of_view t views <= idx /\
  ViewHistory.view_at (ViewHistory.start_of_view t views - 1) views < t /\
  forall j, ViewHistory.start_of_view t views <= j <= idx -> ViewHistory.view_at j views = t.
Proof.
  intros Hs Hpos Ht idx Hidx. pose proof (ViewHistory.view_interval views t) as Hint.
  destruct (proj1 (Hint idx Hs Hpos Ht) Hidx) as (Hn & Hle & Hend). unfold NoVersion in Hn.
  split_and!; [lia|done| |].
  - pose proof (ViewHistory.view_at_mono (ViewHistory.start_of_view t views - 1) idx views) as Hm.
    assert (ViewHistory.view_at (ViewHistory.start_of_view t views - 1) views <> t); [|lia].
    intros Heq%Hint; [|done..]. lia.
  - intros j Hj. apply Hint; [done..|]. split_and!; [done|lia|].
    destruct Hend as [?|?]; [by left|right; lia].
Qed.

Lemma find_match_loop_spec fuel views view probe :
  sorted views -> Forall (fun x => 1 <= x) views ->
  (N.to_nat (ViewHistory.view_at probe views) < fuel)%nat ->
  exists r, find_match_loop fuel views view probe = Ok r /\ r <= probe /\
    ViewHistory.view_at r views <= view /\
    forall j, j <= probe -> ViewHistory.view_at j views <= view -> j <= r.
Proof.
  intros Hs Hpos. revert probe. induction fuel as [|fuel IH]; intros probe Hf; [lia|].
  cbn [find_match_loop]. set (t := ViewHistory.view_at probe views) in *.
  destruct (N.ltb_spec view t) as [Hlt|Hge].
  - destruct (before_view views t Hs Hpos ltac:(lia) probe eq_refl) as (Hst & Hv & Hin).
    destruct (N.ltb_spec 0 (ViewHistory.start_of_view t views)); [|lia].
    rewrite u64_sub_exact by lia. destruct (IH (ViewHistory.start_of_view t views - 1)) as (r & Hr & Hle & Hvr & Hmax);
      [lia|]. exists r. split_and!; [done|lia|done|]. intros j Hj Hvj. apply Hmax; [|done].
    destruct (N.le_gt_cases (ViewHistory.start_of_view t views) j); [|lia].
    specialize (Hin j). lia.
  - exists probe. split_and!; [done|done|done|]. by intros.
Qed.

(** The search for the last entry two logs may share ends, and finds the
    largest index not above the one given (nor the end of the log) whose
    entry is of a view not above the one given. *)
Theorem find_highest_possible_match_spec (tx_id : TxID.t) (st : State) (Hwf : wf_log st) :
  exists r, find_highest_possible_match tx_id st = Ok r /\
    r <= N.min (TxID.seqno tx_id) (last_idx st) /\
    ViewHistory.view_at r (view_history st) <= TxID.view tx_id /\
    forall j, j <= N.min (TxID.seqno tx_id) (last_idx st) ->
      ViewHistory.view_at j (view_history st) <= TxID.view tx_id -> j <= r.
Proof.
  apply find_match_loop_spec.
  - apply (wf_views_sorted _ Hwf).
  - eapply Forall_impl; [exact (wf_views _ Hwf)|]. simpl. lia.
  - pose proof (ViewHistory.view_at_le_length (N.min (TxID.seqno tx_id) (last_idx st)) (view_history st)).
    lia.
Qed.

Lemma ex_primary_wf : wf_log (state ex_primary).
Proof. split; vm_compute; try done; repeat constructor; done. Qed.

Lemma find_highest_possible_match_spec_witness :
  exists r, find_highest_possible_match (TxID.mk 2 9) (state ex_primary) = Ok r /\
    r <= N.min (TxID.seqno (TxID.mk 2 9)) (last_idx (state ex_primary)) /\
    ViewHistory.view_at r (view_history (state ex_primary)) <= TxID.view (TxID.mk 2 9) /\
    forall j, j <= N.min (TxID.seqno (TxID.mk 2 9)) (last_idx (state ex_primary)) ->
      ViewHistory.view_at j (view_history (state ex_primary)) <= TxID.view (TxID.mk 2 9) -> j <= r.
Proof. apply (find_highest_possible_match_spec (TxID.mk 2 9) (state ex_primary)), ex_primary_wf. Defined.

Section send.
Context {K : Type} `{HST : !Store K} `{HEN : !AftEnv}.
Implicit Types s : Aft K.

Lemma calculate_end_index_past s start :
  wf_log (state s) -> 1 <= entries_batch_size s -> last_idx (state s) < start ->
  calculate_end_index start s = last_idx (state s).
Proof.
  intros Hwf Hb Hs. unfold calculate_end_index. rewrite (view_at_past_end _ _ Hwf Hs), end_of_latest_view.
  simpl. rewrite u64_sub_exact by lia. lia.
Qed.

Lemma calculate_end_index_bounds s start :
  wf_log (state s) -> 1 <= entries_batch_size s -> 1 <= start <= last_idx (state s) ->
  start <= calculate_end_index start s <= last_idx (state s) /\
  calculate_end_index start s < start + entries_batch_size s /\
  (ViewHistory.view_at start (view_history (state s)) <> VIEW_UNKNOWN ->
   forall j, start <= j <= calculate_end_index start s ->
     ViewHistory.view_at j (view_history (state s)) = ViewHistory.view_at start (view_history (state s))).
Proof.
  intros Hwf Hb Hs. unfold calculate_end_index. set (st := state s) in *.
  set (v := ViewHistory.view_at start (view_history st)). rewrite u64_sub_exact by lia.
  pose proof (wf_views_sorted _ Hwf) as Hsorted. pose proof (wf_views _ Hwf) as Hviews.
  assert (Forall (fun x => 1 <= x) (view_history st)) as Hpos
    by (eapply Forall_impl; [exact Hviews|simpl; lia]).
  destruct (decide (v = 0)) as [Hv0|Hv0].
  { assert (ViewHistory.end_of_view v (view_history st) = NoVersion) as ->.
    { rewrite Hv0. unfold ViewHistory.end_of_view, ViewHistory.start_of_view.
      by rewrite orb_true_r. }
    simpl. split_and!; [lia|lia|lia|]. by intros. }
  pose proof (ViewHistory.view_interval (view_history st) v) as Hint.
  destruct (proj1 (Hint start Hsorted Hpos Hv0) eq_refl) as (Hn & Hsv & Hend).
  assert (ViewHistory.end_of_view v (view_history st) <> NoVersion ->
          ViewHistory.end_of_view v (view_history st) <= last_idx st) as Hle.
  { intros Hne. destruct (view_history st !! N.to_nat v) as [y|] eqn:Hy;
      [|by rewrite ViewHistory.end_of_view_latest in Hne].
    rewrite Forall_lookup in Hviews. specialize (Hviews _ _ Hy). simpl in Hviews.
    assert (ViewHistory.end_of_view v (view_history st) = u64_sub y 1) as ->; [|rewrite u64_sub_exact; lia].
    unfold ViewHistory.end_of_view in *.
    repeat (case_match; [done|]). by rewrite (list_lookup_total_correct _ _ _ Hy). }
  destruct (N.eqb_spec (ViewHistory.end_of_view v (view_history st)) NoVersion) as [He|He].
  - split_and!; [lia|lia|lia|]. intros _ j Hj. apply (Hint j Hsorted Hpos Hv0). split_and!; [done|lia|by left].
  - specialize (Hle He). destruct Hend as [?|Hend]; [done|].
    split_and!; [lia|lia|lia|]. intros _ j Hj. apply (Hint j Hsorted Hpos Hv0).
    split_and!; [done|lia|right; lia].
Qed.

(** The ranges sent from [start] on. *)
Definition sends (to : NodeId) (st : State) (rs : list (Index * Index)) : list ChannelOp :=
  map (fun '(a, b) => Send to (MsgAppendEntries (make_append_entries a b st))) rs.

Lemma send_append_entries_range_sends to a b s :
  is_retired_committed s = false -> is_Some (all_other_nodes s !! to) ->
  exists s', send_append_entries_range to a b s = (Ok tt, s') /\ state s' = state s /\
    entries_batch_size s' = entries_batch_size s /\ is_Some (all_other_nodes s' !! to) /\
    channels s' = (channels s ++ sends to (state s) [(a, b)])%list.
Proof.
  intros Hr [n Hn]. unfold send_append_entries_range, channel_send, bind, gets, modify. simpl.
  rewrite Hr. simpl. rewrite Hn. simpl. destruct (send_authenticated _ _ _); simpl;
    (eexists; split; [done|]; simpl; split_and!; try done).
  rewrite lookup_insert_eq. by eexists.
Qed.

Lemma send_append_entries_loop_sends fuel to start s :
  wf_log (state s) -> 1 <= entries_batch_size s -> 1 <= start ->
  is_retired_committed s = false -> is_Some (all_other_nodes s !! to) ->
  (N.to_nat (last_idx (state s) - start) < fuel)%nat ->
  exists rs s', send_append_entries_loop fuel to start s = (Ok tt, s') /\
    channels s' = (channels s ++ sends to (state s) rs)%list /\
    covers start (last_idx (state s)) rs /\
    Forall (fun '(a, b) => b < a + entries_batch_size s /\
      (ViewHistory.view_at a (view_history (state s)) <> VIEW_UNKNOWN -> forall j, a <= j <= b ->
         ViewHistory.view_at j (view_history (state s)) =
         ViewHistory.view_at a (view_history (state s)))) rs.
Proof.
  revert start s. induction fuel as [|fuel IH]; intros start s Hwf Hb Hs Hr Hn Hf; [lia|].
  cbn [send_append_entries_loop]. unfold bind at 1. cbn [gets].
  set (e := calculate_end_index start s).
  destruct (send_append_entries_range_sends to start e s Hr Hn) as (s1 & H1 & Hst & Hbs & Hn1 & Hc1).
  unfold bind at 1. rewrite H1. unfold bind, gets. rewrite Hst.
  assert (e < start + entries_batch_size s /\
      (ViewHistory.view_at start (view_history (state s)) <> VIEW_UNKNOWN -> forall j, start <= j <= e ->
         ViewHistory.view_at j (view_history (state s)) =
         ViewHistory.view_at start (view_history (state s))) /\
      (e = last_idx (state s) \/ start <= e < last_idx (state s))) as (Hlt & Hview & Hcase).
  { destruct (N.le_gt_cases start (last_idx (state s))).
    - destruct (calculate_end_index_bounds s start Hwf Hb) as (? & ? & ?); [done|].
      split_and!; [done|done|]. subst e. lia.
    - subst e. rewrite (calculate_end_index_past s start Hwf Hb) by done.
      split_and!; [lia| |by left]. intros _ j Hj. lia. }
  destruct (N.eqb_spec e (last_idx (state s))) as [He|He].
  - exists [(start, e)], s1. split_and!; [done|done|done|]. by constructor.
  - destruct Hcase as [?|Hcase]; [done|].
    rewrite N.min_l by lia.
    destruct (IH (e + 1) s1) as (rs & s2 & H2 & Hc2 & Hcov & Hall); rewrite ?Hst, ?Hbs; try done; try lia.
    { unfold is_retired_committed in *. by rewrite Hst. }
    rewrite Hst in *. rewrite Hbs in Hall. exists ((start, e) :: rs), s2. split_and!; [done| | |by constructor].
    + rewrite Hc2, Hc1, <- app_assoc. done.
    + destruct rs as [|r rs]; [done|]. simpl in *. split_and!; try done; lia.
Qed.

(** A log in which every entry has a known view. *)
Definition views_known (st : State) : Prop :=
  forall j, 1 <= j <= last_idx st -> ViewHistory.view_at j (view_history st) <> VIEW_UNKNOWN.

Lemma covers_bounds start last rs :
  1 <= start <= last + 1 -> covers start last rs ->
  Forall (fun '(a, b) => 1 <= a <= b + 1 /\ b <= last /\ (b < a -> b = last)) rs.
Proof.
  revert start. induction rs as [|[a b] rs IH]; intros start Hs Hc; [done|].
  destruct rs as [|r rs].
  - destruct Hc as [-> ->]. constructor; [|constructor]. lia.
  - destruct Hc as (-> & Hb & Hc). constructor; [lia|]. apply (IH (b + 1)); [lia|done].
Qed.

(** What a node sends is what its peers rely on: each message names the
    view of the entry before its range and of the entries in it, the view is
    unknown only for the heartbeat of an empty log, and views do not decrease
    along the range. *)
Theorem sent_messages_well_formed to start s
  (Hwf : wf_log (state s)) (Hbatch : 1 <= entries_batch_size s)
  (Hstart : 1 <= start <= last_idx (state s) + 1) (Hviews : views_known (state s))
  (Hr : is_retired_committed s = false) (Hn : is_Some (all_other_nodes s !! to)) :
  exists s' sent, send_append_entries to start s = (Ok tt, s') /\
    channels s' = (channels s ++ map (fun r => Send to (MsgAppendEntries r)) sent)%list /\
    Forall (fun r => wf_append_entries r /\ ae_term r = current_view (state s) /\
      ae_prev_idx r <= ae_idx r <= last_idx (state s) /\
      ae_prev_term r <= ae_term_of_idx r /\
      forall j, ae_prev_idx r < j <= ae_idx r ->
        get_term_internal j (state s) = ae_term_of_idx r) sent.
Proof.
  destruct (send_append_entries_loop_sends (S (N.to_nat (last_idx (state s) - start))) to start s
    Hwf Hbatch ltac:(lia) Hr Hn ltac:(lia)) as (rs & s' & Hrun & Hch & Hcov & Hall).
  exists s', (map (fun '(a, b) => make_append_entries a b (state s)) rs). split_and!; [done| |].
  { rewrite Hch. unfold sends. f_equal. rewrite List.map_map. apply List.map_ext. by intros [a b]. }
  pose proof (covers_bounds _ _ _ Hstart Hcov) as Hb. apply Forall_map.
  apply Forall_forall. intros [a b] Hin. rewrite Forall_forall in Hall, Hb.
  specialize (Hall _ Hin) as [_ Hview]. specialize (Hb _ Hin) as (Ha & Hl & Hempty).
  unfold make_append_entries, wf_append_entries. simpl. rewrite u64_sub_exact by lia.
  assert (forall j, j <= last_idx (state s) -> get_term_internal j (state s) =
    ViewHistory.view_at j (view_history (state s))) as Hterm.
  { intros j Hj. unfold get_term_internal. by destruct (N.ltb_spec (last_idx (state s)) j); [lia|]. }
  rewrite !Hterm by lia. split_and!; [|done|lia|lia|apply ViewHistory.view_at_mono; lia|].
  - intros Hv0. destruct (N.eq_dec b 0) as [->|Hb0]; [lia|]. destruct (Hviews b); [lia|done].
  - intros j Hj. rewrite Hterm by lia. rewrite (Hview (Hviews a ltac:(lia)) j) by lia.
    symmetry. apply (Hview (Hviews a ltac:(lia))). lia.
Qed.

(** C33. Sending entries ends, and covers exactly the indices from [start] to
    the last one, in order, in ranges no longer than the batch size and each
    within a single view. *)
Theorem send_append_entries_covers to start s
  (Hwf : wf_log (state s)) (Hbatch : 1 <= entries_batch_size s) (Hstart : 1 <= start)
  (Hr : is_retired_committed s = false) (Hn : is_Some (all_other_nodes s !! to)) :
  exists rs s', send_append_entries to start s = (Ok tt, s') /\
    channels s' = (channels s ++ sends to (state s) rs)%list /\
    covers start (last_idx (state s)) rs /\
    Forall (fun '(a, b) => b < a + entries_batch_size s /\
      (ViewHistory.view_at a (view_history (state s)) <> VIEW_UNKNOWN -> forall j, a <= j <= b ->
         ViewHistory.view_at j (view_history (state s)) =
         ViewHistory.view_at a (view_history (state s)))) rs.
Proof. apply send_append_entries_loop_sends; try done. lia. Qed.

End send.

Lemma send_append_entries_covers_witness :
  exists rs s', send_append_entries "n1" 1 ex_primary = (Ok tt, s') /\
    channels s' = (channels ex_primary ++ sends "n1" (state ex_primary) rs)%list /\
    covers 1 (last_idx (state ex_primary)) rs /\
    Forall (fun '(a, b) => b < a + entries_batch_size ex_primary /\
      (ViewHistory.view_at a (view_history (state ex_primary)) <> VIEW_UNKNOWN -> forall j, a <= j <= b ->
         ViewHistory.view_at j (view_history (state ex_primary)) =
         ViewHistory.view_at a (view_history (state ex_primary)))) rs.
Proof.
  apply send_append_entries_covers; [apply ex_primary_wf|by vm_compute|done|by vm_compute|].
  vm_compute. by eexists.
Defined.

Lemma sent_messages_well_formed_witness :
  exists s' sent, send_append_entries "n1" 1 ex_primary = (Ok tt, s') /\
    channels s' = (channels ex_primary ++ map (fun r => Send "n1" (MsgAppendEntries r)) sent)%list /\
    Forall (fun r => wf_append_entries r /\ ae_term r = current_view (state ex_primary) /\
      ae_prev_idx r <= ae_idx r <= last_idx (state ex_primary) /\
      ae_prev_term r <= ae_term_of_idx r /\
      forall j, ae_prev_idx r < j <= ae_idx r ->
        get_term_internal j (state ex_primary) = ae_term_of_idx r) sent.
Proof.
  apply sent_messages_well_formed; [apply ex_primary_wf|by vm_compute|by vm_compute| |by vm_compute|].
  - intros j Hj. assert (last_idx (state ex_primary) = 3) as Hl by (by vm_compute). rewrite Hl in Hj.
    assert (view_history (state ex_primary) = [1; 1]) as -> by (by vm_compute).
    assert (j = 1 \/ j = 2 \/ j = 3) as [->|[->| ->]] by lia; by vm_compute.
  - vm_compute. by eexists.
Defined.
