(* ===== verification/RaftCommit.v ===== *)
(** * Consensus: agreement and commit

    When a primary commits an entry: exactly when a quorum of every active
    configuration has acknowledged it. Any two quorums of a configuration
    share a node. *)

From S2P Require Import Prelude ViewHistory TxStatus CommitCallbacks LedgerEntries RaftTypes Raft.
From S2P Require Import RaftHandlers RaftExample RaftInv RaftLog RaftSafe.
From Stdlib Require Import Init.Byte.

Open Scope N_scope.
Open Scope m_scope.

(** ** Counting in a sorted list *)

(** The elements from the position of [x] on are the ones not below it. *)
Lemma count_above_sorted (l : list N) (p : nat) (x idx : N) :
  sorted l -> l !! p = Some x ->
  (length l - p <= length (filter (fun y => (idx <= y)%N) l))%nat <-> idx <= x.
Proof.
  intros Hs Hp. pose proof (lookup_lt_Some _ _ _ Hp) as Hlt. split.
  - intros Hc. destruct (N.le_gt_cases idx x) as [|Hx]; [done|exfalso].
    replace (filter (fun y => idx <= y) l)
      with (filter (fun y => idx <= y) (take (S p) l) ++ filter (fun y => idx <= y) (drop (S p) l))%list
      in Hc by (by rewrite <- filter_app, take_drop).
    rewrite length_app in Hc.
    assert (filter (fun y => idx <= y) (take (S p) l) = []) as Hnil.
    { apply filter_none, Forall_lookup. intros i y Hy.
      pose proof (lookup_lt_Some _ _ _ Hy) as Hi. rewrite length_take in Hi.
      rewrite lookup_take_lt in Hy by lia. pose proof (sorted_lookup_le _ _ _ _ _ Hs Hy Hp). lia. }
    rewrite Hnil in Hc. pose proof (length_filter (fun y => idx <= y) (drop (S p) l)) as Hle.
    rewrite length_drop in Hle. simpl in Hc. lia.
  - intros Hx.
    replace (filter (fun y => idx <= y) l)
      with (filter (fun y => idx <= y) (take p l) ++ filter (fun y => idx <= y) (drop p l))%list
      by (by rewrite <- filter_app, take_drop).
    rewrite length_app.
    assert (filter (fun y => idx <= y) (drop p l) = drop p l) as ->; [|rewrite length_drop; lia].
    apply filter_all, Forall_lookup. intros i y Hy. rewrite lookup_drop in Hy.
    pose proof (sorted_lookup_le _ _ _ _ _ Hs Hp Hy). lia.
Qed.

(** The elements from the middle position on make up a quorum. *)
Lemma quorum_eq n : (0 < n)%nat -> N.of_nat n / 2 + 1 = N.of_nat (n - (n - 1) / 2).
Proof.
  intros Hn. destruct (Nat.Even_or_Odd n) as [[k ->]|[k ->]].
  - replace (2 * k - 1)%nat with (1 + (k - 1) * 2)%nat by lia. rewrite Nat.div_add by lia.
    replace (N.of_nat (2 * k)) with (N.of_nat k * 2) by lia. rewrite N.div_mul by lia. simpl. lia.
  - replace (2 * k + 1 - 1)%nat with (k * 2)%nat by lia. rewrite Nat.div_mul by lia.
    replace (N.of_nat (2 * k + 1)) with (1 + N.of_nat k * 2) by lia. rewrite N.div_add by lia.
    change (1 / 2) with 0. lia.
Qed.

Section commit.
Context {K : Type} `{HST : !Store K} `{HEN : !AftEnv}.
Implicit Types s : Aft K.

(** ** Acknowledgements *)

(** The last index known to be in the log of a node. *)
Definition match_of s (id : NodeId) : option Index :=
  if bool_decide (id = node_id (state s)) then Some (last_idx (state s))
  else match_idx <$> all_other_nodes s !! id.

Definition acked s (idx : Index) (id : NodeId) : Prop :=
  match match_of s id with Some m => idx <= m | None => False end.
#[global] Instance acked_dec s idx id : Decision (acked s idx id).
Proof. unfold acked. destruct (match_of s id); apply _. Defined.

(** The nodes of a configuration that have acknowledged [idx]. *)
Definition acked_nodes s (idx : Index) (c : Configuration) : gset string :=
  list_to_set (filter (acked s idx) (ordered_keys (conf_nodes c))).

(** A quorum of every active configuration has acknowledged [idx]. *)
Definition agreed s (idx : Index) : Prop :=
  forall c, c ∈ configurations s ->
    get_quorum (num_nodes c) <= N.of_nat (size (acked_nodes s idx c)).

Lemma ordered_keys_NoDup {A} (m : gmap string A) : NoDup (ordered_keys m).
Proof. unfold ordered_keys. rewrite merge_sort_Permutation. apply NoDup_fst_map_to_list. Qed.

Lemma length_ordered_keys {A} (m : gmap string A) : length (ordered_keys m) = size m.
Proof.
  unfold ordered_keys. rewrite merge_sort_Permutation, length_fmap. by rewrite length_map_to_list.
Qed.

Lemma elem_of_ordered_keys {A} (m : gmap string A) id : id ∈ ordered_keys m <-> id ∈ dom m.
Proof.
  unfold ordered_keys. rewrite merge_sort_Permutation, list_elem_of_fmap, elem_of_dom. split.
  - intros ([i x] & -> & Hx%elem_of_map_to_list). by eexists.
  - intros [x Hx]. exists (id, x). split; [done|]. by apply elem_of_map_to_list.
Qed.

Lemma match_indices_spec s ids m :
  match_indices s ids = Ok m -> Forall2 (fun id x => match_of s id = Some x) ids m.
Proof.
  revert m. induction ids as [|id ids IH]; intros m; simpl; [by intros [= <-]; constructor|].
  fold (match_of s id). destruct (match_of s id) eqn:E; [|done].
  destruct (match_indices s ids); [|done]. intros [= <-]. constructor; auto.
Qed.

Lemma acked_count s ids m idx :
  Forall2 (fun id x => match_of s id = Some x) ids m ->
  length (filter (acked s idx) ids) = length (filter (fun y => idx <= y) m).
Proof.
  induction 1 as [|id x ids m Hx Hall IH]; [done|]. rewrite !filter_cons.
  assert (acked s idx id <-> idx <= x) as Hiff by (unfold acked; by rewrite Hx).
  destruct (decide (acked s idx id)), (decide (idx <= x)); simpl; try (exfalso; tauto); by rewrite IH.
Qed.

Lemma size_acked_nodes s idx c :
  size (acked_nodes s idx c) = length (filter (acked s idx) (ordered_keys (conf_nodes c))).
Proof. unfold acked_nodes. apply size_list_to_set, NoDup_filter, ordered_keys_NoDup. Qed.

Lemma confirmed_index_spec s c x idx :
  confirmed_index s c = Ok x ->
  get_quorum (num_nodes c) <= N.of_nat (size (acked_nodes s idx c)) <-> idx <= x.
Proof.
  unfold confirmed_index. destruct (match_indices s _) as [m|] eqn:Hm; [|done].
  apply match_indices_spec in Hm. rewrite size_acked_nodes, (acked_count _ _ _ _ Hm).
  apply Forall2_length in Hm. rewrite length_ordered_keys in Hm.
  set (p := N.to_nat _). destruct (merge_sort N.le m !! p) as [y|] eqn:Hp; [|done]. intros [= <-].
  assert (sorted (merge_sort N.le m)) as Hs.
  { apply StronglySorted_merge_sort; [apply _|]. intros a b. lia. }
  rewrite <- (count_above_sorted _ _ _ idx Hs Hp), merge_sort_Permutation.
  assert (length (merge_sort N.le m) = length m) as Hl by (by rewrite merge_sort_Permutation).
  pose proof (lookup_lt_Some _ _ _ Hp) as Hlt. rewrite Hl in Hlt.
  assert (p = (length m - 1) / 2)%nat as ->.
  { subst p. destruct m as [|z m]; [by apply Nat.nlt_0_r in Hlt|]. rewrite u64_sub_exact by (simpl; lia).
    by rewrite N2Nat.inj_div, N2Nat.inj_sub, Nat2N.id. }
  unfold get_quorum, num_nodes. revert Hlt. rewrite <- Hm.
  generalize (size (conf_nodes c)). intros n Hlt.
  rewrite (quorum_eq n) by lia.
  split; lia.
Qed.

(** The indices up to the result are those agreed on by every configuration. *)
Lemma agreement_index_spec s confs acc a :
  agreement_index s confs acc = Ok (Some a) ->
  forall idx, idx <= a <->
    (forall x, acc = Some x -> idx <= x) /\
    (forall c, c ∈ confs -> get_quorum (num_nodes c) <= N.of_nat (size (acked_nodes s idx c))).
Proof.
  revert acc. induction confs as [|c confs IH]; intros acc; simpl.
  - intros [= ->] idx. split.
    + intros Hle. split; [by intros x [= <-]|]. intros c Hc. by apply elem_of_nil in Hc.
    + intros [H _]. by apply H.
  - destruct (confirmed_index s c) as [x|] eqn:Hx; [|done]. intros Ha idx.
    rewrite (IH _ Ha idx). setoid_rewrite elem_of_cons.
    pose proof (confirmed_index_spec s c x idx Hx) as Hq. split.
    + intros [Hacc Hall].
      assert (idx <= x /\ forall y, acc = Some y -> idx <= y) as [Hix Hiy].
      { destruct acc as [y|]; [|split; [by apply Hacc|done]].
        destruct (N.ltb_spec x y); specialize (Hacc _ eq_refl); (split; [lia|]); intros ? [= <-]; lia. }
      split; [done|]. intros c' [->|Hc']; [by apply Hq|by apply Hall].
    + intros [Hacc Hall]. assert (idx <= x) by (apply Hq, Hall; by left). split; [|auto].
      intros z Hz. destruct acc as [y|]; [|by simplify_eq]. specialize (Hacc _ eq_refl).
      destruct (N.ltb_spec x y); by simplify_eq.
Qed.

Lemma agreement_index_agreed s a :
  agreement_index s (configurations s) None = Ok (Some a) -> forall idx, idx <= a <-> agreed s idx.
Proof.
  intros Ha idx. rewrite (agreement_index_spec _ _ _ _ Ha idx). split; [by intros [_ H]|by split].
Qed.

(** ** The commit index *)

Definition same_commit s s' : Prop := commit_idx (state s') = commit_idx (state s).

#[global] Instance same_commit_preorder : PreOrder same_commit.
Proof. split; [done|]. intros s1 s2 s3. unfold same_commit. congruence. Qed.

Lemma keeps_same_commit {A} (m : M (Aft K) A) : keeps same_log m -> keeps same_commit m.
Proof. intros H s. apply same_log_commit, H. Qed.
#[local] Hint Resolve keeps_same_commit : ccf.

Lemma commit_commit_idx idx s :
  commit_idx (state (snd (commit idx s))) =
    if (commit_idx (state s) <? idx) && (idx <=? last_idx (state s)) then idx
    else commit_idx (state s).
Proof.
  unfold commit. cbn [bind gets].
  destruct (N.ltb_spec (last_idx (state s)) idx) as [Hl|Hl].
  { destruct (N.leb_spec idx (last_idx (state s))); [lia|]. by rewrite andb_false_r. }
  destruct (N.leb_spec idx (commit_idx (state s))) as [Hc|Hc].
  { by destruct (N.ltb_spec (commit_idx (state s)) idx); [lia|]. }
  destruct (N.ltb_spec (commit_idx (state s)) idx); [|lia].
  destruct (N.leb_spec idx (last_idx (state s))); [|lia].
  unfold compact_committable_indices, upd.
  match goal with |- commit_idx (state (snd (bind (modify ?f) (fun _ => bind (modify ?g) ?k) s))) = _ =>
    change (commit_idx (state (snd (k tt (g (f s))))) = idx);
    assert (keeps same_commit (k tt)) as Hk; [|exact (Hk (g (f s)))] end.
  keeps_auto; by apply keeps_modify.
Qed.

Lemma update_commit_advances s :
  commit_idx (state (snd (update_commit s))) <> commit_idx (state s) ->
  let idx := commit_idx (state (snd (update_commit s))) in
  leadership_state (state s) = Leader /\ agreed s idx /\ idx ∈ committable_indices (state s) /\
  commit_idx (state s) < idx <= last_idx (state s) /\
  get_term_internal idx (state s) = current_view (state s).
Proof.
  unfold update_commit. cbn [bind gets]. unfold id.
  case_bool_decide as Hlead; [|done]. cbn [negb]. unfold bind, lift.
  destruct (agreement_index s _ None) as [[a|]|] eqn:Ha; [|done..].
  destruct (last_idx (state s) <? a); [done|].
  destruct (find_highest_possible_committable_index a (state s)) as [i|] eqn:Hf; [|done].
  destruct (N.eqb_spec (get_term_internal i (state s)) (current_view (state s))) as [Ht|]; [|done].
  rewrite commit_commit_idx. destruct (find_committable_spec _ _ _ Hf) as [Hi Hle].
  destruct (N.ltb_spec (commit_idx (state s)) i); [|done].
  destruct (N.leb_spec i (last_idx (state s))); [|done]. intros _. cbn [andb].
  split_and!; try done. by apply (agreement_index_agreed _ _ Ha).
Qed.

(** C16. A primary advances its commit index only to an entry that a quorum of
    every active configuration has acknowledged, that is a signature, and
    that is of the primary's own view. *)
Theorem update_commit_agreed s
  (Hadv : commit_idx (state (snd (update_commit s))) <> commit_idx (state s)) :
  let idx := commit_idx (state (snd (update_commit s))) in
  leadership_state (state s) = Leader /\ agreed s idx /\ idx ∈ committable_indices (state s) /\
  commit_idx (state s) < idx <= last_idx (state s) /\
  get_term_internal idx (state s) = current_view (state s).
Proof. by apply update_commit_advances. Qed.

(** Every node of every configuration has state here, not ahead of this node. *)
Definition followers_known s : Prop :=
  forall c, c ∈ configurations s -> conf_nodes c <> ∅ /\
    forall id, id ∈ dom (conf_nodes c) -> exists m, match_of s id = Some m /\ m <= last_idx (state s).

Lemma match_indices_ok s ids :
  (forall id, id ∈ ids -> is_Some (match_of s id)) -> exists m, match_indices s ids = Ok m.
Proof.
  induction ids as [|id ids IH]; intros Hall; simpl; [by eexists|]. fold (match_of s id).
  destruct (Hall id) as [x ->]; [left|]. destruct IH as [m ->]; [|by eexists].
  intros id' Hid'. apply Hall. by right.
Qed.

Lemma confirmed_index_ok s c :
  conf_nodes c <> ∅ -> (forall id, id ∈ dom (conf_nodes c) -> is_Some (match_of s id)) ->
  exists x, confirmed_index s c = Ok x.
Proof.
  intros Hne Hall. unfold confirmed_index.
  destruct (match_indices_ok s (ordered_keys (conf_nodes c))) as [m Hm].
  { intros id Hid%elem_of_ordered_keys. by apply Hall. }
  rewrite Hm. apply match_indices_spec, Forall2_length in Hm. rewrite length_ordered_keys in Hm.
  assert (size (conf_nodes c) <> 0%nat) as Hs by (by rewrite map_size_empty_iff).
  rewrite u64_sub_exact by lia.
  destruct (lookup_lt_is_Some_2 (merge_sort N.le m) (N.to_nat ((N.of_nat (length m) - 1) / 2))) as [x ->];
    [|by eexists].
  rewrite merge_sort_Permutation.
  pose proof (N.Div0.div_le_upper_bound (N.of_nat (length m) - 1) 2 (N.of_nat (length m) - 1)). lia.
Qed.

Lemma agreement_index_ok s confs acc :
  (forall c, c ∈ confs -> exists x, confirmed_index s c = Ok x) -> (confs <> [] \/ is_Some acc) ->
  exists a, agreement_index s confs acc = Ok (Some a).
Proof.
  revert acc. induction confs as [|c confs IH]; intros acc Hall Hne; simpl.
  - destruct Hne as [?|[a ->]]; [done|by eexists].
  - destruct (Hall c) as [x ->]; [left|]. apply IH.
    + intros c' Hc'. apply Hall. by right.
    + right. destruct acc; [destruct (_ <? _)|]; by eexists.
Qed.

Lemma agreed_bounded s idx :
  configurations s <> [] -> followers_known s -> agreed s idx -> idx <= last_idx (state s).
Proof.
  intros Hne Hk Ha. destruct (configurations s) as [|c confs] eqn:Hc; [done|].
  destruct (Hk c) as [_ Hm]; [rewrite Hc; left|]. specialize (Ha c). rewrite Hc in Ha.
  assert (acked_nodes s idx c <> ∅) as [id Hid]%set_choose_L.
  { intros H0. rewrite H0, size_empty in Ha. specialize (Ha ltac:(left)). unfold get_quorum in Ha. revert Ha. generalize (num_nodes c / 2). lia. }
  unfold acked_nodes in Hid. apply elem_of_list_to_set, list_elem_of_filter in Hid as [Hack Hid].
  destruct (Hm id) as (m & Hmm & Hle); [by apply elem_of_ordered_keys|].
  unfold acked in Hack. rewrite Hmm in Hack. lia.
Qed.

(** The commit index does advance: the last signature acknowledged by a
    quorum of every active configuration is committed, if it is of the
    primary's own view. *)
Theorem update_commit_progress s idx
  (Hwf : wf_log (state s)) (Hlead : leadership_state (state s) = Leader)
  (Hconf : configurations s <> []) (Hknown : followers_known s)
  (Hin : idx ∈ committable_indices (state s)) (Hagreed : agreed s idx)
  (Hmax : forall j, j ∈ committable_indices (state s) -> agreed s j -> j <= idx)
  (Hterm : get_term_internal idx (state s) = current_view (state s)) :
  commit_idx (state (snd (update_commit s))) = idx.
Proof.
  unfold update_commit. cbn [bind gets]. unfold id. rewrite bool_decide_true by done. cbn [negb].
  destruct (agreement_index_ok s (configurations s) None) as [a Ha]; [|by left|].
  { intros c Hc. destruct (Hknown c Hc) as [Hne Hm]. apply confirmed_index_ok; [done|].
    intros i Hi. destruct (Hm i Hi) as (m & -> & _). by eexists. }
  pose proof (agreement_index_agreed _ _ Ha) as Hagr. unfold bind, lift. rewrite Ha.
  pose proof (agreed_bounded s a Hconf Hknown (proj1 (Hagr a) (N.le_refl a))) as Hal.
  destruct (N.ltb_spec (last_idx (state s)) a); [lia|].
  destruct (find_highest_possible_committable_index a (state s)) as [i|] eqn:Hf.
  - destruct (find_committable_spec _ _ _ Hf) as [Hi Hia].
    assert (i = idx) as ->.
    { pose proof (find_committable_max _ _ _ _ (wf_committable_sorted _ Hwf) Hf Hin).
      apply N.le_antisymm; [|by apply H0, Hagr]. apply Hmax; [done|by apply Hagr]. }
    rewrite (proj2 (N.eqb_eq _ _) Hterm), commit_commit_idx.
    pose proof (wf_committable _ Hwf) as Hall. rewrite Forall_forall in Hall. specialize (Hall _ Hin).
    destruct (N.ltb_spec (commit_idx (state s)) idx); [|lia].
    by destruct (N.leb_spec idx (last_idx (state s))); [|lia].
  - pose proof (find_committable_None _ _ _ Hf Hin). apply Hagr in Hagreed. lia.
Qed.

(** Votes of a quorum of an active configuration include that of a node which
    acknowledged what the configuration agreed on. *)
Lemma quorums_overlap s idx c (vs : gset string) :
  agreed s idx -> c ∈ configurations s ->
  get_quorum (num_nodes c) <= N.of_nat (size vs) -> vs ⊆ dom (conf_nodes c) ->
  exists id, id ∈ vs /\ acked s idx id.
Proof.
  intros Hagreed Hc Hsize Hnodes. specialize (Hagreed c Hc). set (A := acked_nodes s idx c) in *.
  assert (A ⊆ dom (conf_nodes c)) as HA.
  { intros id. unfold A, acked_nodes. rewrite elem_of_list_to_set, list_elem_of_filter.
    rewrite elem_of_ordered_keys. by intros [_ ?]. }
  assert (vs ∩ A <> ∅) as [id [Hid1 Hid2]%elem_of_intersection]%set_choose_L.
  { intros Hdisj. assert (size (vs ∪ A) <= size (conf_nodes c))%nat as Hu.
    { rewrite <- (size_dom (D := gset string)). apply subseteq_size. set_solver. }
    rewrite size_union in Hu by set_solver. unfold get_quorum, num_nodes in *.
    pose proof (N.div_mod' (N.of_nat (size (conf_nodes c))) 2).
    pose proof (N.mod_lt (N.of_nat (size (conf_nodes c))) 2 ltac:(lia)). lia. }
  exists id. split; [done|]. unfold A, acked_nodes in Hid2.
  by apply elem_of_list_to_set, list_elem_of_filter in Hid2 as [? _].
Qed.

End commit.

(** [n1] has acknowledged the signature at 2. *)
Definition ex_acked : Aft unit :=
  set_all_other_nodes (alter (set_match_idx 2) "n1"%string (all_other_nodes ex_primary)) ex_primary.

Lemma update_commit_agreed_witness :
  let idx := commit_idx (state (snd (update_commit ex_acked))) in
  leadership_state (state ex_acked) = Leader /\ agreed ex_acked idx /\
  idx ∈ committable_indices (state ex_acked) /\
  commit_idx (state ex_acked) < idx <= last_idx (state ex_acked) /\
  get_term_internal idx (state ex_acked) = current_view (state ex_acked).
Proof. apply (update_commit_agreed ex_acked). by vm_compute. Defined.

Lemma ex_acked_configurations : configurations ex_acked = [ex_conf].
Proof. vm_compute. reflexivity. Qed.

Lemma ex_acked_wf : wf_log (state ex_acked).
Proof. split; vm_compute; try done; repeat constructor; done. Qed.

Lemma ex_acked_known : followers_known ex_acked.
Proof.
  intros c Hc. rewrite ex_acked_configurations in Hc. apply list_elem_of_singleton in Hc as ->.
  split; [by vm_compute|]. intros id Hid%elem_of_ordered_keys.
  assert (ordered_keys (conf_nodes ex_conf) = ["n0"; "n1"; "n2"]%string) as Hk by (by vm_compute).
  rewrite Hk in Hid. rewrite !elem_of_cons, elem_of_nil in Hid.
  destruct Hid as [->|[->|[->|[]]]]; (eexists; split; [vm_compute; reflexivity|by vm_compute]).
Qed.

Lemma ex_acked_agreed : agreed ex_acked 2.
Proof.
  intros c Hc. rewrite ex_acked_configurations in Hc. apply list_elem_of_singleton in Hc as ->.
  by vm_compute.
Qed.

Lemma update_commit_progress_witness : commit_idx (state (snd (update_commit ex_acked))) = 2.
Proof.
  assert (committable_indices (state ex_acked) = [2]) as Hcs by (by vm_compute).
  apply (update_commit_progress ex_acked 2);
    [apply ex_acked_wf|by vm_compute|by rewrite ex_acked_configurations|apply ex_acked_known
    | rewrite Hcs; left|apply ex_acked_agreed| |by vm_compute].
  rewrite Hcs. intros j Hj%list_elem_of_singleton _. lia.
Defined.
