(* ===== verification/RaftElection.v ===== *)
(** * Consensus: votes and elections *)

From S2P Require Import Prelude ViewHistory TxStatus CommitCallbacks LedgerEntries RaftTypes Raft.
From S2P Require Import RaftHandlers RaftExample RaftInv RaftLog RaftSafe.
From Stdlib Require Import Init.Byte.

Open Scope N_scope.
Open Scope m_scope.

Section election.
Context {K : Type} `{HST : !Store K} `{HEN : !AftEnv}.
Implicit Types s : Aft K.

(** ** One vote per view *)

(** Views do not decrease, and a vote given in a view stands in that view. *)
Definition vote_step s s' : Prop :=
  current_view (state s) <= current_view (state s') /\
  (current_view (state s') = current_view (state s) ->
   forall v, voted_for s = Some v -> voted_for s' = Some v).

#[global] Instance vote_step_preorder : PreOrder vote_step.
Proof.
  split; [by split|]. intros s1 s2 s3 [Hv12 H12] [Hv23 H23]. split; [lia|].
  intros Heq v Hv. apply H23; [lia|]. apply H12; [lia|done].
Qed.

Lemma keeps_vote_modify f :
  (forall s, current_view (state (f s)) = current_view (state s) /\ voted_for (f s) = voted_for s) ->
  keeps vote_step (modify f).
Proof.
  intros H. apply keeps_modify. intros s. destruct (H s) as [Hv Hvote].
  split; [lia|]. intros _ v. by rewrite Hvote.
Qed.

Ltac votes := keeps_auto; try (apply keeps_vote_modify; intros ?; split; reflexivity).

#[global] Instance vote_step_framed : Framed vote_step.
Proof.
  split.
  - intros s s' [Hlog [Hvote _]]. injection Hlog as _ Hv _ _ _ _. split; [lia|]. intros _ v. by rewrite Hvote.
  - intros f s Hv _. split; [simpl; lia|]. by intros _ v.
  - by apply keeps_vote_modify.
Qed.

#[local] Hint Resolve vote_step_preorder vote_step_framed : ccf.

Lemma become_leader_vote : keeps vote_step (@become_leader K _ _).
Proof. apply become_leader_framed; [apply _..|]. intros s. by split. Qed.
Lemma reset_votes_for_me_vote : keeps vote_step (@reset_votes_for_me K).
Proof. by apply keeps_vote_modify. Qed.
#[local] Hint Resolve become_leader_vote reset_votes_for_me_vote : ccf.

Lemma later_view s1 s2 s3 :
  current_view (state s1) < current_view (state s2) -> vote_step s2 s3 -> vote_step s1 s3.
Proof. intros Hv [Hv23 _]. split; [lia|]. intros Heq. lia. Qed.

Lemma become_aware_of_new_term_vote term s :
  current_view (state s) < term -> vote_step s (snd (@become_aware_of_new_term K _ term s)).
Proof.
  intros Hterm. unfold become_aware_of_new_term, upd.
  match goal with |- vote_step s (snd (bind (modify ?f) (fun _ => bind (modify ?g) ?k) s)) =>
    change (vote_step s (snd (k tt (g (f s)))));
    assert (keeps vote_step (k tt)) as Hk by votes; apply (later_view _ (g (f s))); [done|apply Hk] end.
Qed.

Lemma become_candidate_with_vote (add_vote : NodeId -> M (Aft K) unit) :
  (forall id, keeps vote_step (add_vote id)) -> keeps vote_step (become_candidate_with add_vote).
Proof.
  intros Hadd s. unfold become_candidate_with. cbn [bind gets]. case_bool_decide; [done|].
  unfold upd, reset_votes_for_me.
  match goal with |- vote_step s (snd (bind (modify ?f1) (fun _ => bind (modify ?f2) (fun _ =>
      bind (modify ?f3) (fun _ => bind (modify ?f4) (fun _ => bind (modify ?f5) ?k)))) s)) =>
    change (vote_step s (snd (k tt (f5 (f4 (f3 (f2 (f1 s))))))));
    assert (keeps vote_step (k tt)) as Hk by votes;
    apply (later_view _ (f5 (f4 (f3 (f2 (f1 s)))))); [simpl; lia|apply Hk] end.
Qed.

Lemma add_vote_for_me_fuel_vote fuel from : keeps vote_step (@add_vote_for_me_fuel K _ _ fuel from).
Proof.
  revert from. induction fuel as [|fuel IH]; intros from; simpl; votes.
  by apply become_candidate_with_vote.
Qed.
#[local] Hint Resolve add_vote_for_me_fuel_vote : ccf.

Lemma become_candidate_vote : keeps vote_step (@become_candidate K _ _).
Proof. apply become_candidate_with_vote. auto with ccf. Qed.

Lemma become_pre_vote_candidate_vote : keeps vote_step (@become_pre_vote_candidate K _ _).
Proof. unfold become_pre_vote_candidate, add_vote_for_me. votes. Qed.
#[local] Hint Resolve become_candidate_vote become_pre_vote_candidate_vote : ccf.

(** The one message that makes a node forget its vote: entries from a primary
    of the node's own view, received by a (pre-vote) candidate. *)
Definition steps_down (msg : RaftMsg) s : Prop :=
  match msg with
  | MsgAppendEntries r =>
      ae_term r = current_view (state s) /\
      (leadership_state (state s) = Candidate \/ leadership_state (state s) = PreVoteCandidate)
  | _ => False
  end.

Lemma recv_append_entries_vote from r data s :
  ~ steps_down (MsgAppendEntries r) s -> vote_step s (snd (@recv_append_entries K _ _ from r data s)).
Proof.
  intros Hn. unfold recv_append_entries. cbn [bind gets].
  assert (forall s', vote_step s' (snd (@recv_append_entries_current K _ _ from r data s'))) as Hcur
    by exact (recv_append_entries_current_framed vote_step from r data).
  destruct (N.eqb_spec (current_view (state s)) (ae_term r)) as [Heq|Hne]; cbn [andb].
  - do 2 case_bool_decide; try (exfalso; apply Hn; simpl; by auto). cbn [orb].
    destruct (N.ltb_spec (current_view (state s)) (ae_term r)); [lia|].
    destruct (N.ltb_spec (ae_term r) (current_view (state s))); [lia|]. apply Hcur.
  - destruct (N.ltb_spec (current_view (state s)) (ae_term r)) as [Hlt|].
    + pose proof (become_aware_of_new_term_vote _ _ Hlt) as H. unfold bind.
      destruct (become_aware_of_new_term (ae_term r) s) as [[a|e] s']; [|exact H].
      etrans; [exact H|apply Hcur].
    + destruct (N.ltb_spec (ae_term r) (current_view (state s))); [|lia].
      assert (keeps vote_step (@send_append_entries_response_nack K _ from)) as Hk by votes. apply Hk.
Qed.

Lemma recv_append_entries_response_vote from r :
  keeps vote_step (@recv_append_entries_response K _ _ from r).
Proof.
  intros s. unfold recv_append_entries_response. cbn [bind gets]. unfold id.
  destruct (all_other_nodes s !! from) as [node|]; [|done]. destruct (negb _); [done|].
  cbn [bind modify]. destruct (N.ltb_spec (current_view (state s)) (aer_term r)) as [Hlt|].
  - match goal with |- vote_step s (snd (_ ?x)) =>
      pose proof (become_aware_of_new_term_vote (aer_term r) x Hlt) as H end.
    etrans; [|exact H]. done.
  - match goal with |- vote_step s (snd (?m ?x)) =>
      assert (keeps vote_step m) as Hk by votes; etrans; [|exact (Hk x)]; done end.
Qed.

(** A vote is given only by a node that has not voted for another in this view. *)
Lemma recv_request_vote_unsafe_vote from r t : keeps vote_step (@recv_request_vote_unsafe K _ from r t).
Proof.
  intros s. unfold recv_request_vote_unsafe. cbn [bind gets].
  destruct (N.ltb_spec (rv_term r) (current_view (state s))) as [Hlt|Hge].
  { assert (keeps vote_step (@send_request_vote_response K _ from false t)) as H by votes. apply H. }
  set (m := when _ _). assert (vote_step s (snd (m s))) as Hm.
  { subst m. destruct (N.ltb_spec (current_view (state s)) (rv_term r)); cbn [when]; [|done].
    by apply become_aware_of_new_term_vote. }
  clearbody m. unfold bind at 1. destruct (m s) as [[a|e] s1]; [|exact Hm].
  etrans; [exact Hm|]. clear Hm. cbn [bind gets].
  destruct (grant_vote from r t s1) eqn:Hg; cbn [andb when].
  - case_bool_decide as Ht; cbn [when].
    + assert (forall v, voted_for s1 = Some v -> v = from) as Hvote.
      { intros v Hv. unfold grant_vote in Hg. rewrite (bool_decide_true _ Ht), Hv in Hg. simpl in Hg.
        destruct (decide (v = from)) as [|Hf]; [done|]. rewrite (bool_decide_false _ Hf) in Hg. simpl in Hg. by rewrite andb_false_r in Hg. }
      unfold restart_election_timeout, send_request_vote_response, channel_send, bind, gets, modify. simpl.
      split; [done|]. intros _ v Hv. simpl. by rewrite (Hvote v Hv).
    + assert (keeps vote_step (@send_request_vote_response K _ from true t)) as H by votes. apply H.
  - assert (keeps vote_step (@send_request_vote_response K _ from false t)) as H by votes. apply H.
Qed.

Lemma recv_vote_response_vote from r t : keeps vote_step (@recv_vote_response K _ _ from r t).
Proof.
  intros s. unfold recv_vote_response. cbn [bind gets]. unfold id.
  destruct (all_other_nodes s !! from); [|done].
  destruct (N.ltb_spec (current_view (state s)) (rvr_term r)).
  - by apply become_aware_of_new_term_vote.
  - repeat (match goal with |- context [if ?c then ret tt else _] => destruct c end; [done|]).
    apply add_vote_for_me_fuel_vote.
Qed.

Lemma handle_message_vote from msg data s :
  ~ steps_down msg s -> vote_step s (snd (handle_message from msg data s)).
Proof.
  destruct msg; intros Hn; simpl.
  - by apply recv_append_entries_vote.
  - apply recv_append_entries_response_vote.
  - apply recv_request_vote_unsafe_vote.
  - apply recv_request_vote_unsafe_vote.
  - apply recv_vote_response_vote.
  - apply recv_vote_response_vote.
  - assert (keeps vote_step (recv_propose_request_vote from r)) as H
      by (unfold recv_propose_request_vote; votes). apply H.
Qed.

(** C15. A node votes at most once per view: whatever message arrives, it keeps
    the vote it has given until it moves to a later view, except for the
    case of [steps_down]. *)
Theorem vote_stands from msg data s v
  (Hvoted : voted_for s = Some v) (Hdown : ~ steps_down msg s)
  (Hview : current_view (state (snd (handle_message from msg data s))) = current_view (state s)) :
  voted_for (snd (handle_message from msg data s)) = Some v.
Proof. by apply (handle_message_vote from msg data s). Qed.

(** Ticks and local replication never touch a vote within a view. *)
Theorem vote_stands_locally elapsed entries term s v (Hvoted : voted_for s = Some v) :
  let s1 := snd (periodic elapsed s) in
  let s2 := snd (replicate entries term s) in
  (current_view (state s1) = current_view (state s) -> voted_for s1 = Some v) /\
  (current_view (state s2) = current_view (state s) -> voted_for s2 = Some v).
Proof.
  split.
  - intros Hv. assert (keeps vote_step (@periodic K _ _ elapsed)) as H by (unfold periodic; votes).
    by apply H.
  - intros Hv. by apply (replicate_framed vote_step).
Qed.

(** ** Granting a vote *)

(** The state after learning of the term of a request, if it is later. *)
Definition caught_up (term : Term) s : Aft K :=
  if current_view (state s) <? term then snd (become_aware_of_new_term term s) else s.

Lemma become_aware_of_new_term_runs term s :
  exists s', become_aware_of_new_term term s = (Ok tt, s') /\
    current_view (state s') = term /\ voted_for s' = None /\ leader_id s' = None /\
    leadership_state (state s') = Follower /\ channels s' = channels s /\
    last_committable_index (state s') = last_committable_index (state s) /\
    (forall idx, get_term_internal idx (state s') = get_term_internal idx (state s)).
Proof. eexists. split; [done|]. simpl. by split_and!. Qed.

Lemma caught_up_runs (m : M (Aft K) unit) term s :
  bind (when (current_view (state s) <? term) (become_aware_of_new_term term)) (fun _ => m) s =
  m (caught_up term s).
Proof.
  unfold caught_up, bind. destruct (_ <? _); [|done]. cbn [when].
  by destruct (become_aware_of_new_term_runs term s) as (s' & -> & _).
Qed.

(** The conditions of the vote, read in the state before the request. *)
Lemma grant_vote_caught_up from r s :
  current_view (state s) <= rv_term r ->
  grant_vote from r RegularVote (caught_up (rv_term r) s) =
    (if current_view (state s) <? rv_term r then true
     else bool_decide (leader_id s = None) &&
          bool_decide (voted_for s = None \/ voted_for s = Some from)) &&
    log_up_to_date r (state s).
Proof.
  intros Hle. unfold caught_up. destruct (N.ltb_spec (current_view (state s)) (rv_term r)) as [Hlt|Heq].
  - destruct (become_aware_of_new_term_runs (rv_term r) s)
      as (s1 & -> & Hv & Hvote & Hlead & _ & Hch & Hlci & Hterm). simpl.
    unfold grant_vote, log_up_to_date. rewrite Hlead, Hvote, Hlci, Hterm. done.
  - unfold grant_vote. f_equal. f_equal.
    + destruct (leader_id s); [|done]. rewrite bool_decide_true by (by eexists). done.
    + destruct (voted_for s) as [v|]; [|by rewrite (bool_decide_true (_ \/ _)) by (by left)].
      simpl. destruct (decide (v = from)) as [->|Hne].
      * by rewrite !bool_decide_true by (by auto).
      * rewrite !bool_decide_false; [done| |done]. intros [?|[= ?]]; done.
Qed.

(** A node that answers a vote request answers once, with its view after
    the request. It grants its vote exactly when it knows of no primary in
    the view of the request, has not voted for another node in it, and has
    no later signature in its log than the candidate; then, and only then,
    the vote is recorded. *)
Theorem recv_request_vote_spec from r s :
  let s' := snd (recv_request_vote from r s) in
  let granted :=
    bool_decide (current_view (state s) <= rv_term r) &&
    ((if current_view (state s) <? rv_term r then true
      else bool_decide (leader_id s = None) &&
           bool_decide (voted_for s = None \/ voted_for s = Some from)) &&
     log_up_to_date r (state s)) in
  fst (recv_request_vote from r s) = Ok tt /\
  channels s' = (channels s ++
    [Send from (MsgRequestVoteResponse (mkRequestVoteResponse (current_view (state s')) granted))])%list /\
  current_view (state s') = N.max (current_view (state s)) (rv_term r) /\
  voted_for s' = (if granted then Some from else voted_for (caught_up (rv_term r) s)).
Proof.
  unfold recv_request_vote, recv_request_vote_unsafe. cbn [bind gets].
  destruct (N.ltb_spec (rv_term r) (current_view (state s))) as [Hlt|Hge].
  { rewrite (bool_decide_false (current_view (state s) <= rv_term r)) by lia. unfold caught_up.
    destruct (N.ltb_spec (current_view (state s)) (rv_term r)); [lia|].
    simpl. split_and!; [done|done|lia|done]. }
  rewrite (bool_decide_true (current_view (state s) <= rv_term r)) by lia. cbn [andb].
  rewrite <- (grant_vote_caught_up from r s Hge).
  assert (current_view (state (caught_up (rv_term r) s)) = N.max (current_view (state s)) (rv_term r) /\
          channels (caught_up (rv_term r) s) = channels s) as [Hv Hch].
  { unfold caught_up. destruct (N.ltb_spec (current_view (state s)) (rv_term r)); simpl; split; try done; lia. }
  rewrite !caught_up_runs. generalize dependent (caught_up (rv_term r) s). intros s1 Hv Hch.
  cbn [bind gets]. rewrite <- Hv, <- Hch.
  destruct (grant_vote from r RegularVote s1); simpl; split_and!; done.
Qed.

(** ** Counting votes *)

Definition cleared_votes (confs : list Configuration) : gmap N Votes :=
  foldl (fun m conf => <[conf_idx conf := mkVotes ∅ (get_quorum (num_nodes conf))]> m) ∅ confs.

(** The tally after votes from [froms], in the order they arrived. *)
Definition tally (froms : list NodeId) (confs : list Configuration) : gmap N Votes :=
  foldl (fun m from => tally_vote from confs m) (cleared_votes confs) froms.

Definition votes_from (froms : list NodeId) (c : Configuration) : gset string :=
  list_to_set (filter (fun id => is_Some (conf_nodes c !! id)) froms).

Lemma cleared_votes_lookup confs c (m : gmap N Votes) :
  c ∈ confs -> NoDup (conf_idx <$> confs) ->
  foldl (fun m conf => <[conf_idx conf := mkVotes ∅ (get_quorum (num_nodes conf))]> m) m confs
    !! conf_idx c = Some (mkVotes ∅ (get_quorum (num_nodes c))).
Proof.
  revert m. induction confs as [|c' confs IH]; intros m Hc Hnd; [by apply elem_of_nil in Hc|].
  rewrite fmap_cons, NoDup_cons in Hnd. destruct Hnd as [Hn Hnd]. simpl.
  apply elem_of_cons in Hc as [->|Hc]; [|by apply IH].
  assert (forall m' : gmap N Votes,
    m' !! conf_idx c' = Some (mkVotes ∅ (get_quorum (num_nodes c'))) ->
    foldl (fun m conf => <[conf_idx conf := mkVotes ∅ (get_quorum (num_nodes conf))]> m) m' confs
      !! conf_idx c' = Some (mkVotes ∅ (get_quorum (num_nodes c')))) as Hkeep.
  { clear -Hn. induction confs as [|c confs IH]; intros m' Hm'; simpl; [done|].
    rewrite fmap_cons, not_elem_of_cons in Hn. destruct Hn as [Hne Hn].
    apply IH; [done|]. by rewrite lookup_insert_ne by done. }
  apply Hkeep. by rewrite lookup_insert_eq.
Qed.

Lemma tally_vote_lookup from confs (m : gmap N Votes) c v :
  c ∈ confs -> NoDup (conf_idx <$> confs) -> m !! conf_idx c = Some v ->
  tally_vote from confs m !! conf_idx c =
    Some (if decide (is_Some (conf_nodes c !! from)) then mkVotes ({[from]} ∪ votes v) (quorum v) else v).
Proof.
  assert (forall confs (m : gmap N Votes), conf_idx c ∉ conf_idx <$> confs ->
    tally_vote from confs m !! conf_idx c = m !! conf_idx c) as Hother.
  { clear confs m. intros confs. induction confs as [|c' confs IH]; intros m Hn; [done|].
    rewrite fmap_cons, not_elem_of_cons in Hn. destruct Hn as [Hne Hn]. unfold tally_vote in *. simpl.
    rewrite IH by done. case_bool_decide; [|done]. unfold insert_vote. by rewrite lookup_insert_ne. }
  revert m. induction confs as [|c' confs IH]; intros m Hc Hnd Hm; [by apply elem_of_nil in Hc|].
  rewrite fmap_cons, NoDup_cons in Hnd. destruct Hnd as [Hn Hnd].
  apply elem_of_cons in Hc as [->|Hc].
  - transitivity ((if bool_decide (is_Some (conf_nodes c' !! from)) then insert_vote from (conf_idx c') m
                   else m) !! conf_idx c'); [by apply (Hother confs)|].
    case_bool_decide; [|by rewrite decide_False].
    rewrite decide_True by done. unfold insert_vote. rewrite Hm. by rewrite lookup_insert_eq.
  - unfold tally_vote in *. simpl. apply IH; [done|done|]. case_bool_decide; [|done].
    unfold insert_vote. rewrite lookup_insert_ne; [done|].
    intros Heq. apply Hn. rewrite Heq. by apply list_elem_of_fmap_2.
Qed.

(** The tally of an active configuration holds exactly the nodes of that
    configuration among those that voted, and its quorum is a strict
    majority of its nodes. *)
Theorem tally_spec froms confs c (Hc : c ∈ confs) (Hidx : NoDup (conf_idx <$> confs)) :
  tally froms confs !! conf_idx c =
    Some (mkVotes (votes_from froms c) (N.of_nat (size (conf_nodes c)) / 2 + 1)).
Proof.
  unfold tally. induction froms as [|from froms IH] using rev_ind.
  - by apply cleared_votes_lookup.
  - rewrite foldl_app. simpl. rewrite (tally_vote_lookup _ _ _ _ _ Hc Hidx IH). simpl. f_equal.
    unfold votes_from. rewrite filter_app, list_to_set_app_L, filter_cons. simpl.
    destruct (decide (is_Some (conf_nodes c !! from))); f_equal; set_solver.
Qed.

(** ** What a tally holds *)

(** No other active configuration has the index of [c], which is at most
    that of the last one. *)
Definition distinct (c : Configuration) (confs : list Configuration) : Prop :=
  c ∈ confs /\ (forall c', c' ∈ confs -> conf_idx c' = conf_idx c -> c' = c) /\
  (forall c', last confs = Some c' -> conf_idx c <= conf_idx c').

(** The votes counted for [c] are of its nodes, against a majority of them. *)
Definition counted (c : Configuration) (m : gmap N Votes) : Prop :=
  exists v, m !! conf_idx c = Some v /\ quorum v = get_quorum (num_nodes c) /\ votes v ⊆ dom (conf_nodes c).
Definition fair (confs : list Configuration) (m : gmap N Votes) : Prop :=
  forall c, distinct c confs -> counted c m.
(** A candidate, or a node that asks for pre-votes. *)
Definition seeks_votes s : bool :=
  match leadership_state (state s) with Candidate | PreVoteCandidate => true | _ => false end.
Definition tallied s : Prop := seeks_votes s = true -> fair (configurations s) (votes_for_me s).

Lemma ssorted_distinct c confs :
  StronglySorted N.lt (conf_idx <$> confs) -> c ∈ confs -> distinct c confs.
Proof.
  intros Hs Hc. split; [done|]. revert Hs Hc. induction confs as [|c0 confs IH]; intros Hs Hc; [by apply elem_of_nil in Hc|].
  rewrite fmap_cons in Hs. inversion Hs as [|? ? Hs' Hall]; subst. rewrite Forall_fmap, Forall_forall in Hall.
  cbn [compose] in Hall. unfold compose in Hall.
  rewrite elem_of_cons in Hc. split.
  - intros c' Hc' Heq. rewrite elem_of_cons in Hc'. destruct Hc as [->|Hc], Hc' as [->|Hc']; [done| | |].
    + specialize (Hall _ Hc'). lia.
    + specialize (Hall _ Hc). lia.
    + by apply (IH Hs' Hc).
  - intros c' Hl. destruct confs as [|c1 confs]; [simpl in Hl; destruct Hc as [->|Hc]; [by injection Hl as ->|by apply elem_of_nil in Hc]|].
    change (last (c1 :: confs) = Some c') in Hl. destruct Hc as [->|Hc]; [|by apply (IH Hs' Hc)].
    rewrite last_lookup in Hl. apply list_elem_of_lookup_2, Hall in Hl. lia.
Qed.

Lemma reset_fair confs (m : gmap N Votes) :
  fair confs (foldl (fun m conf => <[conf_idx conf := mkVotes ∅ (get_quorum (num_nodes conf))]> m) m confs).
Proof.
  intros c (Hc & Hu & _). exists (mkVotes ∅ (get_quorum (num_nodes c))). split; [|split; [done|apply empty_subseteq]].
  induction confs as [|c' confs IH] using rev_ind; [by apply elem_of_nil in Hc|].
  rewrite foldl_app. simpl. destruct (decide (conf_idx c' = conf_idx c)) as [Heq|Hne].
  - rewrite (Hu c') by (rewrite ?elem_of_app; set_solver). by rewrite lookup_insert_eq.
  - rewrite lookup_insert_ne by done. apply IH; [set_solver|]. intros c'' Hc''. apply Hu. set_solver.
Qed.

Lemma tally_vote_fair from confs m : fair confs m -> fair confs (tally_vote from confs m).
Proof.
  intros Hm c Hd. specialize (Hm c Hd). destruct Hd as (_ & Hu & _). revert Hu Hm. unfold tally_vote.
  generalize m. clear m. induction confs as [|c' confs IH]; intros m Hu Hm; simpl; [done|].
  apply IH; [intros c'' Hc''; apply Hu; set_solver|]. case_bool_decide as Hin; [|done].
  destruct Hm as (v & Hv & Hq & Hsub). unfold counted, insert_vote.
  destruct (decide (conf_idx c' = conf_idx c)) as [Heq|Hne].
  - assert (c' = c) as -> by (apply Hu; set_solver). rewrite Hv. simpl. rewrite lookup_insert_eq.
    eexists. split; [done|]. split; [done|]. apply elem_of_dom in Hin. simpl. set_solver.
  - rewrite lookup_insert_ne by done. by exists v.
Qed.

Lemma distinct_pop idx c confs :
  distinct c (pop_back_while (fun c => idx <? conf_idx c) confs) -> distinct c confs.
Proof.
  induction confs as [|c' confs IH] using rev_ind; [done|]. rewrite pop_back_while_snoc.
  destruct (N.ltb_spec idx (conf_idx c')) as [Hlt|]; [|done]. intros Hd.
  assert (conf_idx c < conf_idx c') as Hcc.
  { destruct Hd as (Hc & _ & Hl). clear IH. induction confs as [|c0 confs IH] using rev_ind; [by apply elem_of_nil in Hc|].
    rewrite pop_back_while_snoc in Hc, Hl. destruct (N.ltb_spec idx (conf_idx c0)); [by apply IH|].
    rewrite last_snoc in Hl. specialize (Hl c0 eq_refl). lia. }
  apply IH in Hd as (Hc & Hu & _). split_and!.
  - set_solver.
  - intros c'' Hc''. rewrite elem_of_app, list_elem_of_singleton in Hc''. destruct Hc'' as [?| ->]; [by apply Hu|]. lia.
  - intros c''. rewrite last_snoc. intros [= <-]. lia.
Qed.

(** The votes of an election: a majority of each configuration. *)
Definition won (confs : list Configuration) (m : gmap N Votes) : Prop :=
  forall c, distinct c confs -> exists v, m !! conf_idx c = Some v /\
    get_quorum (num_nodes c) <= N.of_nat (size (votes v)) /\ votes v ⊆ dom (conf_nodes c).

Lemma is_elected_won confs m : is_elected m = true -> fair confs m -> won confs m.
Proof.
  intros He Hf c Hc. destruct (Hf c Hc) as (v & Hv & Hq & Hsub). exists v. split; [done|]. split; [|done].
  unfold is_elected in He. rewrite List.forallb_forall in He. rewrite <-Hq. apply N.leb_le.
  apply (He (conf_idx c, v)), list_elem_of_In. by apply elem_of_map_to_list.
Qed.

(** ** Operations on candidates *)

Definition same_tally s s' : Prop :=
  configurations s' = configurations s /\ votes_for_me s' = votes_for_me s /\ settles (state s) (state s').
Definition tally_step s s' : Prop := tallied s -> tallied s'.
Definition settled s s' : Prop := settles (state s) (state s').

#[global] Instance same_tally_preorder : PreOrder same_tally.
Proof.
  split; [intros s; by split_and!|]. intros s1 s2 s3 (? & ? & ?) (? & ? & ?). split_and!; [congruence..|by etrans].
Qed.
#[global] Instance tally_step_preorder : PreOrder tally_step.
Proof. split; [by intros s H|]. intros s1 s2 s3 H12 H23 H. auto. Qed.
#[global] Instance settled_preorder : PreOrder settled.
Proof. split; [by left|]. intros s1 s2 s3. apply settles_preorder. Qed.
#[global] Instance settled_framed : Framed settled.
Proof. split; [by intros s s' (_ & _ & _ & H)|by intros f s _ H|]. apply keeps_modify. by left. Qed.

Lemma same_tally_step s s' : same_tally s s' -> tally_step s s'.
Proof.
  unfold tally_step, tallied, seeks_votes. intros (-> & -> & [->|[->| ->]]); done.
Qed.
Lemma keeps_tally_step {A} (m : M (Aft K) A) : keeps same_tally m -> keeps tally_step m.
Proof. intros H s. apply same_tally_step, H. Qed.
Lemma settled_calm s s' : settled s s' -> seeks_votes s = false -> seeks_votes s' = false.
Proof. unfold settled, seeks_votes. by intros [->|[->| ->]]. Qed.

Ltac tally := keeps_auto; try (apply keeps_modify; intros ?; split_and!; [reflexivity..|by left]).

Lemma on_store_tally {A} (m : M K A) : keeps same_tally (on_store m).
Proof. intros s. unfold on_store. destruct (m (store s)). by split_and!; [| |left]. Qed.
Lemma channel_send_tally to msg : keeps same_tally (@channel_send K _ to msg).
Proof. unfold channel_send. tally. Qed.
Lemma ccf_assert_tally b : keeps same_tally (@ccf_assert K _ b).
Proof. unfold ccf_assert. tally. Qed.
Lemma restart_election_timeout_tally : keeps same_tally (@restart_election_timeout K _).
Proof. unfold restart_election_timeout. tally. Qed.
#[local] Hint Resolve on_store_tally channel_send_tally ccf_assert_tally restart_election_timeout_tally : ccf.

Lemma send_append_entries_range_tally to i j : keeps same_tally (@send_append_entries_range K _ to i j).
Proof. unfold send_append_entries_range. tally. Qed.
#[local] Hint Resolve send_append_entries_range_tally : ccf.
Lemma send_append_entries_loop_tally fuel to i : keeps same_tally (@send_append_entries_loop K _ fuel to i).
Proof. revert i. induction fuel; intros i; simpl; tally. Qed.
#[local] Hint Resolve send_append_entries_loop_tally : ccf.
Lemma create_and_remove_node_state_tally : keeps same_tally (@create_and_remove_node_state K _).
Proof. unfold create_and_remove_node_state, send_append_entries. tally. Qed.
Lemma send_request_vote_tally to : keeps same_tally (@send_request_vote K _ to).
Proof. unfold send_request_vote. tally. Qed.
Lemma send_request_pre_vote_tally to : keeps same_tally (@send_request_pre_vote K _ to).
Proof. unfold send_request_pre_vote. tally. Qed.
#[local] Hint Resolve create_and_remove_node_state_tally send_request_vote_tally send_request_pre_vote_tally : ccf.

Lemma rollback_tally idx : keeps tally_step (@rollback K _ _ idx).
Proof.
  unfold rollback. apply keeps_bind; [apply _|apply keeps_gets; apply _|]. intros st.
  destruct (idx <? commit_idx st); [apply keeps_ret; apply _|].
  apply keeps_bind; [apply _|apply keeps_tally_step; auto with ccf|]. intros _.
  do 6 (apply keeps_bind; [apply _|apply keeps_tally_step; unfold ledger_write, upd, rollback_retirement_signed,
    rollback_retirement_ordered; tally|]; intros []).
  intros s. cbn [bind gets modify]. set (s1 := set_configurations _ s).
  match goal with |- tally_step s (snd (?m s1)) => assert (keeps tally_step m) as Hm
    by (apply keeps_tally_step; tally) end.
  etrans; [|apply Hm]. intros Ht Hcand c Hc. simpl in Hc. by apply Ht, (distinct_pop idx).
Qed.

#[local] Hint Resolve settled_preorder settled_framed : ccf.

(** What an operation on [s] does to the tally: it stays fair, and a node
    that has become primary has won in the configurations it had. *)
Definition wins s s' : Prop :=
  tallied s' /\ (leadership_state (state s') = Leader ->
    leadership_state (state s) = Leader \/ won (configurations s) (votes_for_me s')).

Lemma calm_wins s s' : seeks_votes s = false -> settled s s' -> wins s s'.
Proof.
  intros Hc Hs. split; [intros Hc'; by rewrite (settled_calm _ _ Hs Hc) in Hc'|].
  destruct Hs as [->|[->| ->]]; [by left|done|done].
Qed.
Lemma same_tally_wins s s' : tallied s -> same_tally s s' -> wins s s'.
Proof.
  intros Ht Hs. split; [by apply (same_tally_step s)|]. destruct Hs as (_ & _ & [->|[->| ->]]); [by left|done|done].
Qed.
Lemma wins_same_tally s s1 s2 : wins s s1 -> same_tally s1 s2 -> wins s s2.
Proof.
  intros [Ht Hw] Hs. split; [by apply (same_tally_step s1)|].
  destruct Hs as (_ & -> & [->|[->| ->]]); done.
Qed.
Lemma same_tally_wins_l s s1 s2 : same_tally s s1 -> wins s1 s2 -> wins s s2.
Proof.
  intros (Hc & _ & Hs) [Ht Hw]. split; [done|]. intros Hl. rewrite <-Hc. destruct (Hw Hl) as [Hl1|]; [|by right].
  left. destruct Hs as [<-|[Hs|Hs]]; congruence.
Qed.

Lemma become_leader_tally s :
  tallied s -> tallied (snd (@become_leader K _ _ s)) /\
  votes_for_me (snd (@become_leader K _ _ s)) = votes_for_me s.
Proof.
  assert (keeps (fun s s' : Aft K => votes_for_me s' = votes_for_me s) (@become_leader K _ _)) as Hv.
  { assert (PreOrder (fun s s' : Aft K => votes_for_me s' = votes_for_me s)) as Hp by (split; [done|intros ? ? ?; congruence]).
    apply become_leader_framed; [apply _| |done]. split; [|done|by apply keeps_modify].
    by intros s1 s2 (_ & _ & [= _ _ Heq] & _). }
  intros Ht. split; [|apply Hv]. apply wp_state. unfold become_leader.
  apply wp_bind, wp_gets. destruct (is_retired_committed s); [by apply wp_ret|]. apply wp_bind, wp_gets.
  apply wp_bind. eapply (wp_mono _ (fun _ s1 => tallied s1) _ (fun _ s1 => tallied s1)); [|intros [] s1 Ht1|done].
  { destruct (0 <? _); apply wp_state; [by apply rollback_tally|].
    by apply (keeps_tally_step _ (on_store_tally _)). }
  apply wp_bind, wp_modify.
  match goal with |- wp ?m _ _ ?x => assert (keeps settled m) as Hm; [|apply wp_state; intros Hc;
    by rewrite (settled_calm x _ (Hm x) eq_refl) in Hc] end.
  keeps_auto; apply keeps_modify; intros ?; by left.
Qed.

(** A candidate or pre-vote candidate before it has voted for itself. *)
Definition fresh s s1 : Prop :=
  configurations s1 = configurations s /\ fair (configurations s1) (votes_for_me s1) /\
  leadership_state (state s1) <> Leader.

Lemma fresh_wins s s1 : fresh s s1 -> wins s s1.
Proof. intros (_ & Hf & Hl). split; [by intros _|done]. Qed.

Lemma fresh_same_tally s s1 s2 : fresh s s1 -> same_tally s1 s2 -> fresh s s2.
Proof.
  intros (Hc & Hf & Hl) (Hc' & Hv' & Hs). unfold fresh. rewrite Hc', Hv'. split_and!; [done..|].
  by destruct Hs as [->|[->| ->]].
Qed.

Lemma campaign_step {A} (m : M (Aft K) A) (k : A -> M (Aft K) unit) s s1 :
  fresh s s1 -> keeps same_tally m -> (forall a s2, fresh s s2 -> wins s (snd (k a s2))) ->
  wins s (snd (bind m k s1)).
Proof.
  intros Hs1 Hm Hk. specialize (Hm s1). unfold bind. destruct (m s1) as [[a|e] s2]; simpl in Hm.
  - by eapply Hk, fresh_same_tally.
  - by eapply fresh_wins, fresh_same_tally.
Qed.

(** The vote of a candidate for itself, and its requests to the others. *)
Lemma campaign_wins (add_vote send : NodeId -> M (Aft K) unit) s s1 :
  (forall id s1, fair (configurations s1) (votes_for_me s1) -> wins s1 (snd (add_vote id s1))) ->
  (forall id, keeps same_tally (send id)) -> fresh s s1 ->
  wins s (snd ((self <- gets (fun s => node_id (state s)) ;;; add_vote self ;;;
    others <- gets other_nodes_in_active_configs ;;; for_each send (ordered_elements others)) s1)).
Proof.
  intros Hadd Hsend (Hc & Hf & Hl). cbn [bind gets]. unfold bind at 1.
  assert (wins s (snd (add_vote (node_id (state s1)) s1))) as Hw.
  { destruct (Hadd (node_id (state s1)) s1 Hf) as [Ht Hw]. split; [done|]. intros Hlead.
    right. destruct (Hw Hlead) as [|Hwon]; [done|]. by rewrite <-Hc. }
  destruct (add_vote _ s1) as [[[]|e] s2]; [|exact Hw]. cbn [bind gets].
  eapply wins_same_tally; [exact Hw|]. assert (forall l, keeps same_tally (for_each send l)) as Hall by (intros l; tally).
  apply Hall.
Qed.

Lemma become_candidate_with_wins (add_vote : NodeId -> M (Aft K) unit) s :
  (forall id s1, fair (configurations s1) (votes_for_me s1) -> wins s1 (snd (add_vote id s1))) ->
  tallied s -> wins s (snd (become_candidate_with add_vote s)).
Proof.
  intros Hadd Ht. unfold become_candidate_with. cbn [bind gets]. case_bool_decide; [by apply same_tally_wins|].
  unfold upd, reset_votes_for_me. cbn [bind modify].
  match goal with |- wins s (snd (_ ?x)) => assert (fresh s x) as Hf by (split_and!; [done|apply reset_fair|done]) end.
  apply campaign_step; [exact Hf|auto with ccf|]. intros [] s2 Hs2.
  apply campaign_step; [exact Hs2|unfold reset_last_ack_timeouts; tally|]. intros [] s3 Hs3.
  by apply campaign_wins; [|auto with ccf|].
Qed.

Lemma add_vote_for_me_fuel_wins n from s :
  fair (configurations s) (votes_for_me s) -> wins s (snd (@add_vote_for_me_fuel K _ _ n from s)).
Proof.
  revert from s. induction n as [|n IH]; intros from s Hf; [by apply same_tally_wins; [intros _|]|].
  cbn [add_vote_for_me_fuel]. cbn [bind gets]. case_bool_decide; [by apply same_tally_wins; [intros _|]|].
  cbn [bind modify gets]. set (s1 := set_votes_for_me _ s).
  assert (fair (configurations s1) (votes_for_me s1)) as Hf1 by (by apply tally_vote_fair).
  assert (tallied s1) as Ht1 by (by intros _). assert (wins s s1) as Hs1 by (split; [done|by left]).
  destruct (is_elected (votes_for_me s1)) eqn:He; [|done]. cbn [bind gets].
  destruct (leadership_state (state s1)) eqn:Hl; try done.
  - destruct (become_candidate_with_wins (@add_vote_for_me_fuel K _ _ n) s1 IH) as [Ht Hw]; [done|].
    split; [done|]. intros Hlead. right. destruct (Hw Hlead) as [|Hwon]; [congruence|exact Hwon].
  - destruct (become_leader_tally s1) as [Ht Hv]; [done|]. split; [done|]. intros _. right. rewrite Hv.
    by apply is_elected_won.
Qed.

Lemma become_candidate_wins s : tallied s -> wins s (snd (@become_candidate K _ _ s)).
Proof. apply become_candidate_with_wins. intros id s1. apply add_vote_for_me_fuel_wins. Qed.

Lemma become_pre_vote_candidate_wins s : tallied s -> wins s (snd (@become_pre_vote_candidate K _ _ s)).
Proof.
  intros Ht. unfold become_pre_vote_candidate. cbn [bind gets]. case_bool_decide; [by apply same_tally_wins|].
  unfold upd, reset_votes_for_me. cbn [bind modify].
  match goal with |- wins s (snd (_ ?x)) => assert (fresh s x) as Hf by (split_and!; [done|apply reset_fair|done]) end.
  apply campaign_step; [exact Hf|auto with ccf|]. intros [] s2 Hs2.
  apply campaign_wins; [|auto with ccf|done]. intros id s3. apply add_vote_for_me_fuel_wins.
Qed.

(** ** Messages and ticks *)

Ltac settle := keeps_auto; try (apply keeps_modify; intros ?; by left).

Lemma become_aware_of_new_term_settles term : keeps settled (@become_aware_of_new_term K _ term).
Proof. unfold become_aware_of_new_term, reset_votes_for_me. settle. Qed.
#[local] Hint Resolve become_aware_of_new_term_settles : ccf.

(** A node that learns of a new term is a follower, and stays one. *)
Lemma new_term_wins term (m : M (Aft K) unit) s :
  keeps settled m -> wins s (snd (bind (become_aware_of_new_term term) (fun _ => m) s)).
Proof.
  intros Hm. unfold bind. destruct (become_aware_of_new_term_runs term s) as (s1 & -> & _ & _ & _ & Hl & _).
  specialize (Hm s1). split.
  - intros Hc. rewrite (settled_calm _ _ Hm) in Hc; [done|]. unfold seeks_votes. by rewrite Hl.
  - destruct Hm as [->|[->| ->]]; congruence.
Qed.

Lemma keeps_wins (m : M (Aft K) unit) s : tallied s -> keeps same_tally m -> wins s (snd (m s)).
Proof. intros Ht Hm. by apply same_tally_wins. Qed.

Lemma recv_append_entries_wins from r data s :
  tallied s -> wins s (snd (@recv_append_entries K _ _ from r data s)).
Proof.
  intros Ht. unfold recv_append_entries. cbn [bind gets].
  assert (keeps settled (@recv_append_entries_current K _ _ from r data)) as Hcur by auto with ccf.
  destruct (N.eqb_spec (current_view (state s)) (ae_term r)) as [Heq|Hne]; cbn [andb].
  - destruct (bool_decide (leadership_state (state s) = Candidate) || _) eqn:Hl; [by apply new_term_wins|].
    destruct (N.ltb_spec (current_view (state s)) (ae_term r)); [lia|].
    destruct (N.ltb_spec (ae_term r) (current_view (state s))); [lia|]. apply calm_wins; [|apply Hcur].
    apply orb_false_iff in Hl as [H1%bool_decide_eq_false H2%bool_decide_eq_false].
    unfold seeks_votes. by destruct (leadership_state (state s)).
  - destruct (N.ltb_spec (current_view (state s)) (ae_term r)); [by apply new_term_wins|].
    destruct (N.ltb_spec (ae_term r) (current_view (state s))); [|lia]. apply keeps_wins; [done|].
    unfold send_append_entries_response_nack, send_append_entries_response. tally.
Qed.

Lemma recv_append_entries_response_wins from r s :
  tallied s -> wins s (snd (@recv_append_entries_response K _ _ from r s)).
Proof.
  intros Ht. unfold recv_append_entries_response. cbn [bind gets]. unfold id.
  destruct (all_other_nodes s !! from) as [node|]; [|by apply same_tally_wins].
  case_bool_decide as Hl; cbn [negb]; [|by apply same_tally_wins].
  apply calm_wins; [unfold seeks_votes; by rewrite Hl|].
  match goal with |- settled s (snd (?m s)) => assert (keeps settled m) as Hm by settle end. apply Hm.
Qed.

Lemma recv_request_vote_unsafe_wins from r t s :
  tallied s -> wins s (snd (@recv_request_vote_unsafe K _ from r t s)).
Proof.
  intros Ht. unfold recv_request_vote_unsafe. cbn [bind gets].
  assert (forall b, keeps same_tally (@send_request_vote_response K _ from b t)) as Hsend
    by (intros b; unfold send_request_vote_response; tally).
  destruct (rv_term r <? current_view (state s)); [by apply keeps_wins|].
  destruct (current_view (state s) <? rv_term r); cbn [when].
  - apply new_term_wins. settle.
  - apply (keeps_wins _ s Ht). tally.
Qed.

Lemma recv_vote_response_wins from r t s :
  tallied s -> wins s (snd (@recv_vote_response K _ _ from r t s)).
Proof.
  intros Ht. unfold recv_vote_response. cbn [bind gets]. unfold id.
  destruct (all_other_nodes s !! from); [|by apply same_tally_wins].
  destruct (current_view (state s) <? rvr_term r).
  { pose proof (new_term_wins (rvr_term r) (ret tt) s (keeps_ret _ _)) as H.
    destruct (become_aware_of_new_term_runs (rvr_term r) s) as (s1 & Heq & _). revert H. unfold bind.
    by rewrite Heq. }
  destruct (negb (current_view (state s) =? rvr_term r)); [by apply same_tally_wins|].
  destruct (negb _ && negb _) eqn:Hc; [by apply same_tally_wins|].
  repeat (match goal with |- context [if ?c then ret tt else _] => destruct c end; [by apply same_tally_wins|]).
  apply add_vote_for_me_fuel_wins, Ht. unfold seeks_votes.
  destruct (leadership_state (state s)); (reflexivity || by vm_compute in Hc).
Qed.

Lemma handle_message_wins from msg data s : tallied s -> wins s (snd (handle_message from msg data s)).
Proof.
  intros Ht. destruct msg; simpl.
  - by apply recv_append_entries_wins.
  - by apply recv_append_entries_response_wins.
  - by apply recv_request_vote_unsafe_wins.
  - by apply recv_request_vote_unsafe_wins.
  - by apply recv_vote_response_wins.
  - by apply recv_vote_response_wins.
  - unfold recv_propose_request_vote. cbn [bind gets]. destruct (_ && _); simpl; [|by apply same_tally_wins].
    by apply become_candidate_wins.
Qed.

Lemma recv_message_wins from data s : tallied s -> wins s (snd (@recv_message K _ _ from data s)).
Proof.
  intros Ht. unfold recv_message. destruct (_ <? 8); [by apply same_tally_wins|]. rewrite catch_all_state.
  assert (forall type wrap, wins s (snd (@recv_and_handle K _ _ type wrap from data s))) as Hr.
  { intros type wrap. unfold recv_and_handle, bind, lift.
    destruct (recv_authenticated type from data) as [m|e]; [by apply handle_message_wins|by apply same_tally_wins]. }
  destruct (msg_type_of_N _) as [[]|]; simpl; try apply Hr; by apply same_tally_wins.
Qed.

Lemma periodic_wins elapsed s : tallied s -> wins s (snd (@periodic K _ _ elapsed s)).
Proof.
  intros Ht. unfold periodic. cbn [bind modify gets]. unfold id. set (s1 := set_timeout_elapsed _ s).
  assert (same_tally s s1) as Hs1 by (split_and!; [done..|by left]).
  assert (tallied s1) as Ht1 by (by apply (same_tally_step s)).
  apply (same_tally_wins_l s s1); [done|]. case_bool_decide as Hl.
  - apply calm_wins; [unfold seeks_votes; by rewrite Hl|].
    match goal with |- settled s1 (snd (?m s1)) => assert (keeps settled m) as Hm by settle end. apply Hm.
  - destruct (negb _ && _ && _); cbn [when]; [|by apply same_tally_wins].
    destruct (pre_vote_enabled _); [by apply become_pre_vote_candidate_wins|by apply become_candidate_wins].
Qed.

Lemma nominate_successor_wins s : tallied s -> wins s (snd (@nominate_successor K _ s)).
Proof. intros Ht. apply keeps_wins; [done|]. unfold nominate_successor, send_propose_request_vote. tally. Qed.

Lemma force_become_primary_tally : keeps tally_step (@force_become_primary K _ _).
Proof.
  unfold force_become_primary. keeps_auto.
  - apply keeps_tally_step. tally.
  - intros s Ht. by apply become_leader_tally.
Qed.

Lemma force_become_primary_at_tally index term terms commit :
  keeps tally_step (@force_become_primary_at K _ _ index term terms commit).
Proof.
  assert (forall m, keeps tally_step (@on_view_history K m)) as Hviews.
  { intros m s. apply same_tally_step. unfold on_view_history. destruct (m _). by split_and!; [| |left]. }
  assert (keeps tally_step (@become_leader K _ _)) as Hlead by (intros s Ht; by apply become_leader_tally).
  unfold force_become_primary_at. keeps_auto; apply keeps_tally_step; tally.
Qed.

Lemma init_as_backup_settles index term terms start :
  keeps settled (@init_as_backup K _ index term terms start).
Proof. unfold init_as_backup. settle. Qed.

Lemma replicate_wins entries term s : tallied s -> wins s (snd (@replicate K _ _ entries term s)).
Proof.
  intros Ht. assert (settled s (snd (@replicate K _ _ entries term s))) as Hs by (by apply replicate_framed; try apply _).
  destruct (seeks_votes s) eqn:Hc; [|by apply calm_wins]. split.
  - unfold replicate. cbn [bind gets]. unfold id. rewrite bool_decide_false; cbn [negb].
    + pose proof (rollback_tally (last_idx (state s)) s Ht) as Hr. unfold bind. by destruct (rollback _ s) as [[[]|e] s'].
    + intros Hl. unfold seeks_votes in Hc. by rewrite Hl in Hc.
  - destruct Hs as [->|[->| ->]]; [by left|done|done].
Qed.

(** A vote response makes a node primary only if it grants a vote, in the
    node's own view, to a node that is a candidate, and the votes then make a
    quorum of every active configuration. *)
Theorem elected_by_quorum from r t s
  (Hbefore : leadership_state (state s) <> Leader)
  (Hafter : leadership_state (state (snd (recv_vote_response from r t s))) = Leader) :
  rvr_vote_granted r = true /\ rvr_term r = current_view (state s) /\
  leadership_state (state s) = match t with RegularVote => Candidate | PreVote => PreVoteCandidate end /\
  is_elected (tally_vote from (configurations s) (votes_for_me s)) = true.
Proof.
  revert Hafter. unfold recv_vote_response. cbn [bind gets]. unfold id.
  destruct (all_other_nodes s !! from); [|done].
  destruct (N.ltb_spec (current_view (state s)) (rvr_term r)) as [Hlt|Hge].
  { destruct (become_aware_of_new_term_runs (rvr_term r) s) as (s' & -> & _ & _ & _ & Hf & _). simpl. congruence. }
  destruct (N.eqb_spec (current_view (state s)) (rvr_term r)) as [Heq|]; [|done]. cbn [negb].
  unfold add_vote_for_me.
  destruct (leadership_state (state s)) eqn:Hl, t, (rvr_vote_granted r) eqn:Hgr; simpl; try congruence.
  all: cbn [bind gets]; case_bool_decide as Hc; [simpl; congruence|]; cbn [bind modify gets].
  all: cbn [votes_for_me set_votes_for_me];
    destruct (is_elected (tally_vote from (configurations s) (votes_for_me s))) eqn:He; [done|].
  all: simpl; congruence.
Qed.

(** ** The recursion between [add_vote_for_me] and [become_candidate] *)

Lemma become_candidate_with_ext (f g : NodeId -> M (Aft K) unit) s :
  (forall id s', leadership_state (state s') = Candidate -> f id s' = g id s') ->
  become_candidate_with f s = become_candidate_with g s.
Proof.
  intros Hfg. unfold become_candidate_with. cbn [bind gets]. case_bool_decide; [done|].
  unfold restart_election_timeout, reset_votes_for_me, reset_last_ack_timeouts, upd, bind, gets, modify.
  cbv beta iota. by rewrite Hfg.
Qed.

Lemma add_vote_for_me_candidate n from s :
  leadership_state (state s) = Candidate ->
  add_vote_for_me_fuel (S n) from s = add_vote_for_me_fuel 1 from s.
Proof.
  intros Hl. cbn [add_vote_for_me_fuel]. cbn [bind gets]. case_bool_decide; [done|].
  cbn [bind modify gets]. destruct (is_elected _); [|done]. cbn [bind gets]. simpl. by rewrite Hl.
Qed.

(** The depth the model allows the two mutually recursive functions is
    enough: any larger depth gives the same result. *)
Theorem add_vote_for_me_depth n from s :
  add_vote_for_me_fuel (2 + n) from s = add_vote_for_me from s.
Proof.
  unfold add_vote_for_me. change (2 + n)%nat with (S (S n)).
  remember (S n) as m eqn:Hm. cbn [add_vote_for_me_fuel]. cbn [bind gets]. case_bool_decide; [done|].
  cbn [bind modify gets]. destruct (is_elected _); [|done]. cbn [bind gets].
  destruct (leadership_state _); try done.
  apply become_candidate_with_ext. intros id s' Hl. subst m. by apply add_vote_for_me_candidate.
Qed.

End election.

(** [n2] asks for a vote in view 3, when [n1] has voted for [n0]. *)
Lemma vote_stands_witness :
  voted_for (snd (handle_message "n2" (MsgRequestVote (mkRequestVote 3 9 2)) [] ex_voter)) =
    Some "n0"%string.
Proof. apply vote_stands; [by vm_compute|by intros []|by vm_compute]. Defined.

Lemma vote_stands_locally_witness :
  let s1 := snd (periodic 10 ex_voter) in
  let s2 := snd (replicate [ex_batch Plain 1] 3 ex_voter) in
  (current_view (state s1) = current_view (state ex_voter) -> voted_for s1 = Some "n0"%string) /\
  (current_view (state s2) = current_view (state ex_voter) -> voted_for s2 = Some "n0"%string).
Proof. apply (vote_stands_locally 10 [ex_batch Plain 1] 3 ex_voter). by vm_compute. Defined.

Lemma tally_spec_witness :
  tally ["n0"; "n7"; "n1"]%string [ex_conf] !! conf_idx ex_conf =
    Some (mkVotes (votes_from ["n0"; "n7"; "n1"]%string ex_conf)
            (N.of_nat (size (conf_nodes ex_conf)) / 2 + 1)).
Proof. apply tally_spec; [left|]. apply NoDup_singleton. Defined.

Lemma elected_by_quorum_witness :
  let r := mkRequestVoteResponse 3 true in
  rvr_vote_granted r = true /\ rvr_term r = current_view (state ex_candidate) /\
  leadership_state (state ex_candidate) = Candidate /\
  is_elected (tally_vote "n1" (configurations ex_candidate) (votes_for_me ex_candidate)) = true.
Proof.
  apply (elected_by_quorum "n1" (mkRequestVoteResponse 3 true) RegularVote ex_candidate); by vm_compute.
Defined.
