(* ===== verification/RaftAppend.v ===== *)
(** * Consensus: received entries keep the log invariant *)

From S2P Require Import Prelude ViewHistory TxStatus CommitCallbacks LedgerEntries RaftTypes Raft.
From S2P Require Import RaftHandlers RaftExample RaftInv RaftLog RaftSafe.
From Stdlib Require Import Init.Byte.

Open Scope N_scope.
Open Scope m_scope.

(** Entries at the indices [k], [k + 1], ... *)
Fixpoint consecutive {A} (k : Index) (l : list (A * Index)) : Prop :=
  match l with
  | [] => True
  | (_, i) :: l => i = k /\ consecutive (k + 1) l
  end.

Lemma consecutive_snoc {A} k (l : list (A * Index)) x :
  consecutive k l -> consecutive k (l ++ [(x, k + N.of_nat (length l))]).
Proof.
  revert k. induction l as [|[y i] l IH]; intros k; [split; [simpl; lia|done]|].
  intros [-> Hl]. split; [done|].
  replace (k + N.of_nat (length ((y, k) :: l))) with (k + 1 + N.of_nat (length l)) by (simpl; lia).
  by apply IH.
Qed.

Section append.
Context {K : Type} `{HST : !Store K} `{HEN : !AftEnv}.
Implicit Types s : Aft K.

(** From a well-formed [s], [m] is safe up to the bound [b] and returns with [Q]. *)
Definition appends {A} (b : Index) (m : M (Aft K) A) (Q : A -> Aft K -> Prop) s : Prop :=
  wf_log (state s) -> b <= commit_idx (state s) ->
  wp m (fun a s' => safe_at b s s' /\ Q a s') (fun _ s' => safe_at b s s') s.

Lemma appends_bind {A B} b (m : M (Aft K) A) (k : A -> M (Aft K) B) Q s :
  appends b m (fun a s' => appends b (k a) Q s') s -> appends b (bind m k) Q s.
Proof.
  intros H Hs Hb. apply wp_bind. eapply wp_mono; [by apply H| |done].
  intros a s' [Hs' Hk]. destruct (Hs' (conj Hs Hb)) as (Hwf' & _ & _ & Hc & _).
  assert (b <= commit_idx (state s')) as Hb' by lia.
  eapply wp_mono; [exact (Hk Hwf' Hb')| |].
  - intros a' s'' [Hs'' HQ]. split; [by etrans|done].
  - intros e s'' Hs''. by etrans.
Qed.

Lemma appends_ret {A} b (a : A) (Q : A -> Aft K -> Prop) s : Q a s -> appends b (ret a) Q s.
Proof. intros H _ _. by apply wp_ret. Qed.

Lemma appends_gets {A B} b (f : Aft K -> A) (k : A -> M (Aft K) B) Q s :
  (wf_log (state s) -> b <= commit_idx (state s) -> appends b (k (f s)) Q s) ->
  appends b (bind (gets f) k) Q s.
Proof. intros H Hs Hb. by apply H. Qed.

Lemma appends_keeps {A} b (R : Aft K -> Aft K -> Prop) (m : M (Aft K) A) s :
  keeps safe m -> keeps R m -> appends b m (fun _ s' => R s s') s.
Proof.
  intros Hsafe HR _ _. eapply wp_mono.
  - exact (wp_conj _ _ _ _ _ _ (wp_keeps _ _ s Hsafe) (wp_keeps _ _ s HR)).
  - intros a s' [H1 H2]. split; [by apply safe_safe_at|exact H2].
  - intros e s' [H1 _]. by apply safe_safe_at.
Qed.

Lemma appends_frame {A} b (m : M (Aft K) A) s :
  keeps same_log m -> appends b m (fun _ s' => same_log s s') s.
Proof. intros H. apply appends_keeps; [by apply keeps_safe|done]. Qed.

Lemma appends_mono {A} b (m : M (Aft K) A) (Q Q' : A -> Aft K -> Prop) s :
  appends b m Q s -> (forall a s', Q a s' -> Q' a s') -> appends b m Q' s.
Proof.
  intros H HQ Hs Hb. eapply wp_mono; [by apply H| |done].
  intros a s' [? ?]. split; [done|by apply HQ].
Qed.

Lemma appends_state {A} b (m : M (Aft K) A) Q s : appends b m Q s -> safe_at b s (snd (m s)).
Proof.
  intros H [Hs Hb]. specialize (H Hs Hb). unfold wp in H.
  destruct (m s) as [[a|e] s']; [destruct H as [H _]|]; by apply H.
Qed.

(** ** Operations that keep the last index *)

Definition same_last s s' : Prop := last_idx (state s') = last_idx (state s).

#[global] Instance same_last_preorder : PreOrder same_last.
Proof. split; [done|]. intros s1 s2 s3. unfold same_last. congruence. Qed.

Lemma keeps_same_last {A} (m : M (Aft K) A) : keeps same_log m -> keeps same_last m.
Proof. intros H s. apply same_log_last, H. Qed.
#[local] Hint Resolve keeps_same_last : ccf.

Lemma commit_same_last idx : keeps same_last (@commit K _ _ idx).
Proof. unfold commit, compact_committable_indices. keeps_auto; by apply keeps_modify. Qed.
#[local] Hint Resolve commit_same_last : ccf.

Lemma commit_if_possible_same_last idx : keeps same_last (@commit_if_possible K _ _ idx).
Proof. unfold commit_if_possible. keeps_auto. Qed.

Lemma on_view_history_same_last m : keeps same_last (@on_view_history K m).
Proof. intros s. unfold on_view_history. by destruct (m _). Qed.

Lemma appends_commit_if_possible b idx s :
  appends b (commit_if_possible idx) (fun _ s' => same_last s s') s.
Proof. apply appends_keeps; [auto with ccf|apply commit_if_possible_same_last]. Qed.

Lemma appends_update b from view s :
  1 <= from <= N.max 1 (last_idx (state s)) -> b < from ->
  appends b (on_view_history (ViewHistory.update_m from view)) (fun _ s' => same_last s s') s.
Proof.
  intros Hfrom Hb. pose proof (on_update_safe_at b from view s (fun _ _ => conj Hfrom Hb)) as Hs.
  pose proof (on_view_history_same_last (ViewHistory.update_m from view) s) as Hl.
  intros _ _. unfold wp. by destruct (on_view_history _ s) as [[a|e] s'].
Qed.

(** ** Executing entries *)

Context (b : Index) (r : AppendEntries) (from : NodeId).
Context (Hwf : wf_append_entries r) (Hprev : b <= ae_prev_idx r).

Lemma invalid_view_at_start : (ae_term_of_idx r =? ViewHistory.InvalidView) = true -> b < 1.
Proof. intros H%N.eqb_eq. apply Hwf in H. lia. Qed.

Lemma execute_append_entries_finish_safe s :
  ae_idx r <= last_idx (state s) ->
  appends b (execute_append_entries_finish r from) (fun _ _ => True) s.
Proof.
  intros Hidx. unfold execute_append_entries_finish.
  apply appends_bind. eapply appends_mono; [apply appends_commit_if_possible|]. intros a s1 Hs1; cbv beta in Hs1.
  apply appends_gets. intros Hwf1 Hb1. pose proof (last_committable_index_bounds _ Hwf1).
  apply appends_bind.
  assert (appends b (send_append_entries_response_ack from r) (fun _ _ => True) s1) as Hack.
  { eapply appends_mono; [apply appends_frame; auto with ccf|done]. }
  assert (forall from' view, 1 <= from' <= N.max 1 (last_idx (state s1)) -> b < from' ->
    appends b (on_view_history (ViewHistory.update_m from' view))
      (fun _ s' => appends b (send_append_entries_response_ack from r) (fun _ _ => True) s') s1) as Hup.
  { intros from' view Hf Hb. eapply appends_mono; [by apply appends_update|]. intros a' s2 _.
    eapply appends_mono; [apply appends_frame; auto with ccf|done]. }
  unfold same_last in Hs1.
  destruct (ae_term_of_idx r =? ViewHistory.InvalidView) eqn:Hinv.
  - apply Hup; [lia|by apply invalid_view_at_start].
  - destruct (N.ltb_spec (last_committable_index (state s1)) (ae_idx r)); cbn [when].
    + apply Hup; lia.
    + by apply appends_ret.
Qed.

(** Entry [i] is the last one, and not yet marked as committable. *)
Definition fresh (i : Index) s : Prop :=
  last_idx (state s) = i /\ commit_idx (state s) < i /\
  Forall (fun x => x < i) (committable_indices (state s)).

Lemma fresh_frame {A} i (m : M (Aft K) A) s :
  keeps same_log m -> fresh i s -> appends b m (fun _ s' => fresh i s') s.
Proof.
  intros Hm Hs. eapply appends_mono; [by apply appends_frame|]. intros a s' [= H1 H2 H3 H4 H5 H6].
  unfold fresh. by rewrite H3, H4, H6.
Qed.

Lemma append_fresh i s :
  i = last_idx (state s) + 1 -> appends b (upd (set_last_idx i)) (fun _ s' => fresh i s') s.
Proof.
  intros -> Hs Hb. apply wp_modify. split.
  - by apply safe_safe_at, (append_log_safe false).
  - pose proof (wf_commit _ Hs). split_and!; simpl; [done|lia|].
    eapply Forall_impl; [exact (wf_committable _ Hs)|]. simpl. lia.
Qed.

Lemma push_fresh i s :
  fresh i s -> appends b (push_committable i) (fun _ s' => last_idx (state s') = i) s.
Proof.
  intros (Hl & Hc & Hcs) Hs Hb. apply wp_modify. split; [|done].
  intros _. split_and!; simpl; try done. destruct Hs as [Hcl Hss Hcr Hvs Hv].
  split; simpl; try done; [by apply ssorted_snoc|].
  apply Forall_app. split; [done|]. repeat constructor; lia.
Qed.

Lemma apply_signature_safe i ds_term s :
  fresh i s -> ae_prev_idx r < i ->
  appends b (apply_signature r i ds_term) (fun _ s' => last_idx (state s') = i) s.
Proof.
  intros Hs Hi. unfold apply_signature.
  apply appends_bind. eapply appends_mono; [apply (fresh_frame i); [auto with ccf|done]|]. intros a s1 Hs1; cbv beta in Hs1.
  apply appends_bind. eapply appends_mono; [by apply push_fresh|]. intros a' s2 Hs2; cbv beta in Hs2.
  destruct (negb _); cbn [when]; [|by apply appends_ret]. apply appends_bind.
  apply (appends_mono _ _ (fun _ s' => same_last s2 s')).
  - destruct (ae_term_of_idx r =? ViewHistory.InvalidView) eqn:Hinv; apply appends_update; try lia.
    by apply invalid_view_at_start.
  - intros ? s3 Hs3; cbv beta in Hs3. eapply appends_mono; [apply appends_commit_if_possible|]. intros ? s4 Hs4; cbv beta in Hs4.
    unfold same_last in *. congruence.
Qed.

Lemma execute_entry_safe ds i s :
  i = last_idx (state s) + 1 -> ae_prev_idx r < i ->
  appends b (execute_entry ds i from r)
    (fun continue s' => continue = true -> last_idx (state s') = i) s.
Proof.
  intros Hi Hri. unfold execute_entry.
  apply appends_bind. eapply appends_mono; [apply appends_frame; auto with ccf|]. intros x s1 Hs1; cbv beta in Hs1.
  rewrite <- (same_log_last _ _ Hs1) in Hi. case_bool_decide as Hres.
  - apply appends_bind. eapply appends_mono; [apply appends_frame; auto with ccf|]. intros ? s2 _.
    apply appends_bind. eapply appends_mono; [apply appends_frame; auto with ccf|]. intros ? s3 _.
    by apply appends_ret.
  - apply appends_bind. eapply appends_mono; [by apply append_fresh|]. intros ? s2 Hs2; cbv beta in Hs2.
    apply appends_bind. eapply appends_mono; [apply (fresh_frame i); [keeps_auto|done]|]. intros ? s3 Hs3; cbv beta in Hs3.
    apply appends_bind. eapply appends_mono; [apply (fresh_frame i); [keeps_auto|done]|]. intros ? s4 Hs4; cbv beta in Hs4.
    apply appends_bind. eapply appends_mono; [apply (fresh_frame i); [keeps_auto|done]|]. intros ? s5 Hs5; cbv beta in Hs5.
    apply appends_bind. apply (appends_mono _ _ (fun _ s' => last_idx (state s') = i)).
    + destruct (applied_result x); cbn [finish_entry]; try done.
      all: first [by apply apply_signature_safe|apply appends_ret; apply Hs5|idtac].
      all: by intros _ _; apply wp_throw.
    + intros ? s6 Hs6; cbv beta in Hs6. by apply appends_ret.
Qed.

Lemma execute_append_entries_sync_safe l s :
  consecutive (last_idx (state s) + 1) l ->
  ae_prev_idx r <= last_idx (state s) ->
  ae_idx r <= last_idx (state s) + N.of_nat (length l) ->
  appends b (execute_append_entries_sync l from r) (fun _ _ => True) s.
Proof.
  revert s. induction l as [|[ds i] l IH]; intros s Hl Hp Hidx; cbn [execute_append_entries_sync].
  - apply execute_append_entries_finish_safe. simpl in Hidx. lia.
  - destruct Hl as [Hi Hl]. apply appends_bind.
    eapply appends_mono; [apply execute_entry_safe; lia|]. intros continue s1 Hs1; cbv beta in Hs1.
    destruct continue; [|by apply appends_ret]. specialize (Hs1 eq_refl).
    apply IH; rewrite Hs1; [by rewrite Hi|lia|]. simpl in Hidx. lia.
Qed.

(** ** Reading entries *)

(** What holds when [append_entries] was read and [i] is next. *)
Definition read_up_to (i : Index) (append_entries : list (ExecutionWrapper * Version)) s : Prop :=
  commit_idx (state s) = b /\ ae_prev_idx r <= last_idx (state s) /\
  consecutive (last_idx (state s) + 1) append_entries /\
  (append_entries = [] /\ i <= last_idx (state s) + 1 \/
   i = last_idx (state s) + 1 + N.of_nat (length append_entries)).

Lemma read_up_to_frame {A} i l (m : M (Aft K) A) s :
  keeps same_log m -> read_up_to i l s -> appends b m (fun _ s' => read_up_to i l s') s.
Proof.
  intros Hm Hs. eapply appends_mono; [by apply appends_frame|]. intros a s' Hs'.
  unfold read_up_to. by rewrite (same_log_last _ _ Hs'), (same_log_commit _ _ Hs').
Qed.

Lemma appends_rollback idx s :
  commit_idx (state s) <= idx <= last_idx (state s) ->
  appends b (rollback idx)
    (fun _ s' => last_idx (state s') = idx /\ commit_idx (state s') = commit_idx (state s)) s.
Proof.
  intros [Hc Hl] Hs Hb. pose proof (rollback_safe idx s Hl) as Hsafe.
  pose proof (rollback_log idx s Hc) as Hlog. unfold wp in *.
  destruct (rollback idx s) as [[a|e] s']; simpl in *; [|by apply safe_safe_at].
  split; [by apply safe_safe_at|]. injection Hlog. by intros.
Qed.

Lemma entry_action_safe i l s :
  ae_prev_idx r < i -> read_up_to i l s ->
  appends b (entry_action r i)
    (fun action s' => match action with
       | SkipEntry => read_up_to (i + 1) l s'
       | ReadEntry => read_up_to i l s' /\ i = last_idx (state s') + 1 + N.of_nat (length l)
       | IgnoreMessage => True
       end) s.
Proof.
  intros Hi (Hc & Hp & Hl & Hn). unfold entry_action. apply appends_gets. intros _ _.
  destruct (N.leb_spec i (last_idx (state s))) as [Hle|Hlt].
  - assert (l = []) as -> by (destruct Hn as [[-> _]|Hn]; [done|lia]).
    destruct (negb _).
    + apply appends_gets. intros _ _. destruct (is_new_follower s); [|by apply appends_ret].
      rewrite u64_sub_exact by lia. apply appends_bind.
      eapply appends_mono; [apply appends_rollback; lia|]. intros a s1 [Hl1 Hc1].
      apply appends_bind. eapply appends_mono; [apply appends_frame; by apply keeps_modify|].
      intros a2 s2 Hs2. apply appends_ret. unfold read_up_to. simpl.
      rewrite (same_log_last _ _ Hs2), (same_log_commit _ _ Hs2), Hl1, Hc1.
      split_and!; try done; lia.
    + apply appends_ret. split_and!; try done. left. split; [done|lia].
  - apply appends_ret.
    assert (i = last_idx (state s) + 1 + N.of_nat (length l)) as Hi'.
    { destruct Hn as [[-> Hn]|Hn]; [simpl; lia|done]. }
    split; [|done]. split_and!; auto.
Qed.

Lemma deserialise_entries_safe n i data l s :
  ae_prev_idx r < i -> read_up_to i l s ->
  appends b (deserialise_entries n from r i data l)
    (fun res s' => forall l', res = Some l' -> read_up_to (i + N.of_nat n) l' s') s.
Proof.
  revert i data l s. induction n as [|n IH]; intros i data l s Hi Hs; cbn [deserialise_entries].
  - apply appends_ret. intros l' [= <-]. by rewrite N.add_0_r.
  - apply appends_bind. eapply appends_mono; [by apply entry_action_safe|].
    replace (i + N.of_nat (S n)) with (i + 1 + N.of_nat n) by lia.
    intros action s1 Hs1. destruct action; cbv beta iota in Hs1.
    + apply appends_bind. eapply appends_mono; [by apply (read_up_to_frame (i + 1) l); [keeps_auto|]|].
      intros data' s2 Hs2. apply IH; [lia|done].
    + destruct Hs1 as [Hs1 Hi1]. apply appends_bind.
      eapply appends_mono; [apply (appends_frame b); unfold deserialise_entry; keeps_auto|].
      intros [[ds data']|] s2 Hs2; cbv beta in Hs2; [|by apply appends_ret].
      apply IH; [lia|]. destruct Hs1 as (Hc & Hp & Hl & _). unfold read_up_to.
      rewrite (same_log_last _ _ Hs2), (same_log_commit _ _ Hs2), length_app. simpl.
      split_and!; [done|done| |right; lia].
      replace i with (last_idx (state s1) + 1 + N.of_nat (length l)) at 1 by lia.
      by apply consecutive_snoc.
    + by apply appends_ret.
Qed.
End append.

(** ** The handlers *)

Section handlers.
Context {K : Type} `{HST : !Store K} `{HEN : !AftEnv}.
Implicit Types s : Aft K.

Lemma recv_append_entries_matched_safe from r data s :
  wf_append_entries r -> safe s (snd (@recv_append_entries_matched K _ _ from r data s)).
Proof.
  intros Hwf. unfold recv_append_entries_matched.
  apply safe_bind_frame; [auto with ccf|]. intros _ s1 _.
  apply safe_bind_frame; [by apply keeps_modify|]. intros _ s2 _.
  apply safe_bind_gets. destruct (N.ltb_spec (ae_prev_idx r) (commit_idx (state s2))); [done|].
  destruct (N.ltb_spec (last_idx (state s2)) (ae_prev_idx r)); [done|].
  apply safe_at_safe. apply (appends_state _ _ (fun _ _ => True)), appends_bind.
  eapply appends_mono.
  - apply (deserialise_entries_safe _ r from H); [lia|].
    split_and!; [done|lia|done|]. left. split; [done|lia].
  - intros [l|] s3 Hl; cbv beta in Hl; [|by apply appends_ret].
    destruct (Hl _ eq_refl) as (Hc & Hp & Hcs & Hn).
    apply (execute_append_entries_sync_safe _ r from Hwf H); [done|done|].
    destruct Hn as [[-> Hn]|Hn]; [simpl|]; lia.
Qed.

Lemma recv_append_entries_current_safe from r data s :
  wf_append_entries r -> safe s (snd (@recv_append_entries_current K _ _ from r data s)).
Proof.
  intros Hwf. unfold recv_append_entries_current. apply safe_bind_gets.
  destruct (negb _); [|by apply recv_append_entries_matched_safe].
  destruct (_ =? _); apply keeps_safe; auto with ccf.
Qed.

Lemma recv_append_entries_safe from r data :
  wf_append_entries r -> keeps safe (@recv_append_entries K _ _ from r data).
Proof.
  intros Hwf. unfold recv_append_entries. apply keeps_bind_gets. intros s.
  assert (forall t, current_view (state s) <= t ->
    safe s (snd ((become_aware_of_new_term t ;;; recv_append_entries_current from r data) s))) as Hnew.
  { intros t Ht. apply safe_bind; [by apply become_aware_of_new_term_safe|].
    intros _ s'. by apply recv_append_entries_current_safe. }
  destruct (N.eqb_spec (current_view (state s)) (ae_term r)) as [Heq|Hne]; simpl.
  - destruct (_ || _); [apply Hnew; lia|].
    destruct (N.ltb_spec (current_view (state s)) (ae_term r)); [lia|].
    destruct (N.ltb_spec (ae_term r) (current_view (state s))); [lia|].
    by apply recv_append_entries_current_safe.
  - destruct (N.ltb_spec (current_view (state s)) (ae_term r)); [apply Hnew; lia|].
    destruct (N.ltb_spec (ae_term r) (current_view (state s))); [|lia].
    apply keeps_safe. auto with ccf.
Qed.

Ltac frame := apply keeps_safe, keeps_modify; done.

Lemma recv_append_entries_response_safe from r :
  keeps safe (@recv_append_entries_response K _ _ from r).
Proof.
  unfold recv_append_entries_response. apply keeps_bind_gets. intros s. change (id s) with s.
  destruct (all_other_nodes s !! from); [|done].
  destruct (negb _); [done|]. apply safe_bind_frame; [by apply keeps_modify|]. intros _ s1 Hs1.
  assert (current_view (state s1) = current_view (state s)) as Hv by (by injection Hs1).
  destruct (N.ltb_spec (current_view (state s)) (aer_term r)).
  - apply become_aware_of_new_term_safe. lia.
  - match goal with |- safe s1 (snd (?m s1)) => enough (keeps safe m) as Hk by apply Hk end.
    keeps_auto; frame.
Qed.

Lemma recv_request_vote_unsafe_safe from r t : keeps safe (@recv_request_vote_unsafe K _ from r t).
Proof.
  unfold recv_request_vote_unsafe. apply keeps_bind_gets. intros s.
  destruct (N.ltb_spec (rv_term r) (current_view (state s))).
  - apply keeps_safe. auto with ccf.
  - apply safe_bind; [|intros _; keeps_auto; frame].
    destruct (N.ltb_spec (current_view (state s)) (rv_term r)); cbn [when]; [|done].
    by apply become_aware_of_new_term_safe.
Qed.

Lemma recv_vote_response_safe from r t : keeps safe (@recv_vote_response K _ _ from r t).
Proof.
  unfold recv_vote_response. apply keeps_bind_gets. intros s. change (id s) with s.
  destruct (all_other_nodes s !! from); [|done].
  destruct (N.ltb_spec (current_view (state s)) (rvr_term r)).
  - apply become_aware_of_new_term_safe. lia.
  - repeat (match goal with |- context [if ?c then ret tt else _] => destruct c end; [done|]).
    apply add_vote_for_me_fuel_safe.
Qed.

Lemma recv_propose_request_vote_safe from r : keeps safe (@recv_propose_request_vote K _ _ from r).
Proof. unfold recv_propose_request_vote. keeps_auto. Qed.

Lemma keeps_catch_all (R : Aft K -> Aft K -> Prop) m : keeps R m -> keeps R (@catch_all K m).
Proof. intros H s. rewrite catch_all_state. apply H. Qed.

Definition wf_msg (msg : RaftMsg) : Prop :=
  match msg with MsgAppendEntries r => wf_append_entries r | _ => True end.

Lemma handle_message_safe from msg data :
  wf_msg msg -> keeps safe (@handle_message K _ _ from msg data).
Proof.
  destruct msg; intros Hwf; simpl.
  - by apply recv_append_entries_safe.
  - apply recv_append_entries_response_safe.
  - apply recv_request_vote_unsafe_safe.
  - apply recv_request_vote_unsafe_safe.
  - apply recv_vote_response_safe.
  - apply recv_vote_response_safe.
  - apply recv_propose_request_vote_safe.
Qed.

Lemma recv_and_handle_safe type (wrap : msg_struct type -> RaftMsg) from data :
  (forall r rest, recv_authenticated type from data = Ok (r, rest) -> wf_msg (wrap r)) ->
  keeps safe (@recv_and_handle K _ _ type wrap from data).
Proof.
  intros Hwf s. unfold recv_and_handle, bind, lift.
  destruct (recv_authenticated type from data) as [[r rest]|e]; [|done].
  apply handle_message_safe. by eapply Hwf.
Qed.

Lemma recv_message_safe from data :
  (forall r rest, recv_authenticated raft_append_entries from data = Ok (r, rest) ->
                  wf_append_entries r) ->
  keeps safe (@recv_message K _ _ from data).
Proof.
  intros Hwf. unfold recv_message. destruct (_ <? _); [keeps_auto|]. apply keeps_catch_all.
  destruct (msg_type_of_N _) as [[]|]; try done; apply recv_and_handle_safe; done.
Qed.

Lemma periodic_safe elapsed : keeps safe (@periodic K _ _ elapsed).
Proof.
  unfold periodic.
  keeps_auto; frame.
Qed.

Lemma force_become_primary_safe : keeps safe (@force_become_primary K _ _).
Proof.
  unfold force_become_primary. keeps_auto.
  apply keeps_modify. intros s. apply view_step_safe. lia.
Qed.

Lemma nominate_successor_safe : keeps safe (@nominate_successor K _).
Proof. unfold nominate_successor. keeps_auto. Qed.

Lemma enable_all_domains_safe : keeps safe (@enable_all_domains K).
Proof. frame. Qed.

(** ** Malformed entries *)

Definition framed_entry (entry : bytes) : Prop :=
  exists flags payload, entry = make_entry flags payload /\ flags < 256 /\ N.of_nat (length payload) < 2 ^ BITS_FOR_SIZE.
(** The store accepts each of these entries. *)
Definition deserialisable (entries : list bytes) : Prop :=
  forall entry po tx k, entry ∈ entries -> exists ds k', store_deserialize entry po (Some tx) k = (Ok (Some ds), k').
(** Nothing is appended, committed, written or sent. *)
Definition unanswered s s' : Prop := state s' = state s /\ channels s' = channels s /\ ledger s' = ledger s.

Lemma entry_action_new r i s : last_idx (state s) < i -> entry_action r i s = (Ok ReadEntry, s).
Proof. intros Hi. unfold entry_action, bind, gets. by destruct (N.leb_spec i (last_idx (state s))); [lia|]. Qed.

Lemma deserialise_entries_malformed from r frames bad e i l n s :
  Forall framed_entry frames -> deserialisable frames -> (length frames < n)%nat -> get_entry bad = Throw e ->
  last_idx (state s) < i ->
  exists s', deserialise_entries n from r i (concat frames ++ bad) l s = (Throw e, s') /\ unanswered s s'.
Proof.
  intros Hf. revert i l n s. induction Hf as [|x frames Hx Hf IH]; intros i l n s Hds Hn Hbad Hi.
  all: destruct n as [|n]; [simpl in Hn; lia|]; cbn [deserialise_entries]; unfold bind at 1;
    rewrite entry_action_new by done.
  - unfold deserialise_entry, bind. simpl. rewrite Hbad.
    assert (is_logic_error e = false) as -> by (rewrite (get_entry_throws _ _ Hbad); by destruct (_ <? _)).
    exists s. by split_and!.
  - destruct Hx as (flags & payload & -> & Hfl & Hp). cbn [concat]. rewrite <-app_assoc.
    unfold deserialise_entry, bind. rewrite get_entry_make_entry by done. cbn [gets]. unfold on_store.
    destruct (Hds (make_entry flags payload) (public_only s) (TxID.mk (ae_term_of_idx r) i) (store s))
      as (ds & k' & ->); [left|]. cbn [ret].
    destruct (IH (i + 1) (l ++ [(ds, i)])%list n (set_store k' s)) as (s' & -> & Hs'); try done.
    { intros entry po tx k Hin. apply Hds. by right. }
    { simpl in Hn. lia. }
    { simpl. lia. }
    by exists s'.
Qed.

(** C35. A message with a malformed entry is not answered. A backup receives an
    AppendEntries message of its view that continues its log, with some
    well-formed entries and then one whose bytes are too few: the handler
    throws an exception that the code which answers malformed data does not
    catch. Nothing is sent and nothing is appended, not even the entries
    before the malformed one. If there are not even the eight bytes of a
    header, the exception is dropped by [recv_message]; if there are, but
    fewer bytes than the header says, the entry is read out of bounds. *)
Theorem malformed_entry_unanswered from data r frames bad e s
  (Htype : msg_type_of_N (le_combine (take 8 data)) = Some raft_append_entries)
  (Hlen : 8 <= N.of_nat (length data))
  (Hauth : recv_authenticated raft_append_entries from data = Ok (r, concat frames ++ bad)%list)
  (Hrole : leadership_state (state s) = Follower) (Hview : ae_term r = current_view (state s))
  (Hprev : get_term_internal (ae_prev_idx r) (state s) = ae_prev_term r)
  (Hnext : ae_prev_idx r = last_idx (state s)) (Hcommit : commit_idx (state s) <= last_idx (state s))
  (Hframes : Forall framed_entry frames) (Hds : deserialisable frames)
  (Hcount : (length frames < N.to_nat (ae_idx r - ae_prev_idx r))%nat) (Hbad : get_entry bad = Throw e) :
  exists s', recv_message from data s =
      (if N.of_nat (length bad) <? 8 then Ok tt else Throw OutOfBounds, s') /\ unanswered s s'.
Proof.
  unfold recv_message. destruct (N.ltb_spec (N.of_nat (length data)) 8); [lia|]. rewrite Htype.
  unfold recv_and_handle, catch_all. unfold bind at 1. unfold lift. rewrite Hauth. cbn [fst snd handle_message].
  unfold recv_append_entries. cbn [bind gets]. rewrite Hview, N.eqb_refl, Hrole, N.ltb_irrefl.
  cbn [bool_decide andb orb]. rewrite !bool_decide_false by done. cbn [orb].
  unfold recv_append_entries_current. cbn [bind gets]. rewrite Hprev, N.eqb_refl. cbn [negb].
  unfold recv_append_entries_matched, restart_election_timeout, bind, gets, modify.
  set (s1 := set_leader_id _ _). change (state s1) with (state s).
  destruct (N.ltb_spec (ae_prev_idx r) (commit_idx (state s))); [lia|].
  destruct (N.ltb_spec (last_idx (state s)) (ae_prev_idx r)); [lia|].
  destruct (deserialise_entries_malformed from r frames bad e (ae_prev_idx r + 1) []
    (N.to_nat (ae_idx r - ae_prev_idx r)) s1) as (s' & -> & Hs'); try done.
  { change (state s1) with (state s). lia. }
  exists s'. split; [|exact Hs']. rewrite (get_entry_throws _ _ Hbad). by destruct (_ <? 8).
Qed.

End handlers.

(** Two well-formed entries and two bytes of a third. *)
Definition ex_truncated : bytes :=
  (ex_encode (mkAppendEntries 3 0 0 0 0 0) ++ concat [ex_entry Plain; ex_entry Signature] ++ [x01; x02])%list.
Definition ex_follower : Aft unit := upd_state (set_leadership_state Follower) (ex_node "n1").

Lemma malformed_entry_unanswered_witness :
  exists s', recv_message "n0" ex_truncated ex_follower = (Ok tt, s') /\ unanswered ex_follower s'.
Proof.
  apply (malformed_entry_unanswered "n0" ex_truncated (mkAppendEntries 3 0 0 0 0 0)
    [ex_entry Plain; ex_entry Signature] [x01; x02] InsufficientSpace ex_follower).
  - vm_eq.
  - apply N.lt_le_incl. vm_eq.
  - vm_eq.
  - vm_eq.
  - vm_eq.
  - vm_eq.
  - vm_eq.
  - apply N.le_refl.
  - constructor; [|constructor; [|constructor]]; eexists 0, _; (split; [reflexivity|]); (split; vm_eq).
  - intros entry po tx k _. by eexists _, _.
  - simpl. lia.
  - vm_eq.
Defined.
