(* ===== verification/RaftRun.v ===== *)
(** * Consensus: runs of a node

    A node is started in one of three ways and then executes operations in
    any order: those of its own node, and whatever the network delivers. The
    theorems hold in every state such a run reaches. *)

From S2P Require Import Prelude ViewHistory TxStatus CommitCallbacks LedgerEntries RaftTypes Raft.
From S2P Require Import RaftHandlers RaftExample RaftInv RaftLog RaftSafe RaftCommit RaftElection RaftAppend.
From Stdlib Require Import Init.Byte.

Open Scope N_scope.
Open Scope m_scope.

(** The calls made on a running node. *)
Inductive Op :=
| OpReplicate (entries : list BatchEntry) (term : Term)
| OpRecvMessage (from : NodeId) (data : bytes)
| OpPeriodic (elapsed : N)
| OpForceBecomePrimary
| OpNominateSuccessor
| OpEnableAllDomains.

(** The versions at which views start, in a log with [index] entries. *)
Definition valid_history (index : Index) (terms : list Index) : Prop :=
  Forall (fun v => 1 <= v <= N.max 1 index) terms.

Lemma initialise_valid index terms views :
  valid_history index terms ->
  sorted (snd (ViewHistory.initialise terms views)) /\
  valid_history index (snd (ViewHistory.initialise terms views)).
Proof.
  intros Hterms. apply wp_state. unfold ViewHistory.initialise. apply wp_bind, wp_modify.
  apply (wp_for_each (fun v => sorted v /\ valid_history index v)); [split; constructor|].
  intros [i t] v Hin [Hs Hv].
  assert (1 <= t <= N.max 1 index) as Ht.
  { apply list_elem_of_lookup in Hin as [j Hj]. rewrite list_lookup_imap in Hj.
    destruct (terms !! j) as [t'|] eqn:Hj'; [|done]. injection Hj as <- <-.
    unfold valid_history in Hterms. rewrite Forall_lookup in Hterms. by eapply Hterms. }
  unfold wp, ViewHistory.update_m. destruct (ViewHistory.update _ _ v) as [v'|e] eqn:Hu; [|done].
  split; [by eapply ViewHistory.update_sorted|].
  apply ViewHistory.update_inv in Hu as [_ ->]. apply Forall_app. split; [done|].
  by apply Forall_replicate.
Qed.

Section run.
Context {K : Type} `{HST : !Store K} `{HEN : !AftEnv}.
Implicit Types s : Aft K.

Definition exec (op : Op) : M (Aft K) unit :=
  match op with
  | OpReplicate entries term => replicate entries term ;;; ret tt
  | OpRecvMessage from data => recv_message from data
  | OpPeriodic elapsed => periodic elapsed
  | OpForceBecomePrimary => force_become_primary
  | OpNominateSuccessor => nominate_successor
  | OpEnableAllDomains => enable_all_domains
  end.

(** A run: an operation that throws leaves its state to the next one. *)
Definition run (ops : list Op) s : Aft K := foldl (fun s op => snd (exec op s)) s ops.

(** The states a node reaches from a fresh object: started as the first node,
    as a backup with a snapshot, or as the primary of a recovery. *)
Inductive reachable : Aft K -> Prop :=
| reachable_init k id pre_vote mt et mu cbs po :
    reachable (init_Aft k id pre_vote mt et mu cbs po)
| reachable_backup k id pre_vote mt et mu cbs po index term terms start :
    valid_history index terms ->
    reachable (snd (init_as_backup index term terms start
                      (init_Aft k id pre_vote mt et mu cbs po)))
| reachable_primary k id pre_vote mt et mu cbs po index term terms commit :
    1 <= index -> commit <= index -> valid_history index terms ->
    reachable (snd (force_become_primary_at index term terms commit
                      (init_Aft k id pre_vote mt et mu cbs po)))
| reachable_step s op : reachable s -> reachable (snd (exec op s)).

(** What the authenticated channels promise: an accepted AppendEntries message
    was built by [make_append_entries]. *)
Definition authentic : Prop :=
  forall from data r rest,
    recv_authenticated raft_append_entries from data = Ok (r, rest) -> wf_append_entries r.

Lemma exec_safe op : authentic -> keeps safe (exec op).
Proof.
  intros Hauth. destruct op; simpl.
  - keeps_auto.
  - apply recv_message_safe. intros r rest. apply Hauth.
  - apply periodic_safe.
  - apply force_become_primary_safe.
  - apply nominate_successor_safe.
  - apply enable_all_domains_safe.
Qed.

Lemma run_safe ops : authentic -> forall s, safe s (run ops s).
Proof.
  intros Hauth. induction ops as [|op ops IH]; intros s; [done|].
  etrans; [by apply exec_safe|apply IH].
Qed.

(** A fresh object that was given the history of a log with [index] entries. *)
Lemma restored_wf index commit terms s :
  commit <= index -> valid_history index terms -> committable_indices (state s) = [] ->
  last_idx (state s) = index -> commit_idx (state s) = commit ->
  wf_log (state (snd (on_view_history (ViewHistory.initialise terms) s))).
Proof.
  intros Hc Hterms Hcs Hl Hcm. unfold on_view_history.
  pose proof (initialise_valid index terms (view_history (state s)) Hterms) as [Hs Hv].
  destruct (ViewHistory.initialise terms _) as [res v]; simpl in *.
  split; simpl; rewrite ?Hl, ?Hcm, ?Hcs; try done; constructor.
Qed.

Lemma wp_wf {A} (m : M (Aft K) A) s :
  keeps safe m -> wf_log (state s) -> wp m (fun _ s' => wf_log (state s')) (fun _ s' => wf_log (state s')) s.
Proof. intros Hm Hs. apply (wp_state m (fun s' => wf_log (state s'))). by apply Hm. Qed.

(** A sequence of two operations, the second run with what the first ensures. *)
Lemma wf_bind {A B} (m : M (Aft K) A) (k : A -> M (Aft K) B) s :
  wf_log (state (snd (m s))) ->
  (forall a s', m s = (Ok a, s') -> wf_log (state s') -> wf_log (state (snd (k a s')))) ->
  wf_log (state (snd (bind m k s))).
Proof. unfold bind. destruct (m s) as [[a|e] s'] eqn:Hm; simpl; [|done]. intros. by apply H0. Qed.

Lemma init_wf k id pre_vote mt et mu cbs po :
  wf_log (state (init_Aft (K := K) k id pre_vote mt et mu cbs po)).
Proof. split; simpl; try done; constructor. Qed.

Lemma init_as_backup_wf index term terms start s :
  valid_history index terms -> committable_indices (state s) = [] -> current_view (state s) <= term ->
  wf_log (state (snd (@init_as_backup K _ index term terms start s))).
Proof.
  intros Hterms Hcs Hterm. unfold init_as_backup, upd.
  match goal with |- wf_log (state (snd (bind (modify ?f) (fun _ => bind (modify ?g) ?k) s))) =>
    change (wf_log (state (snd (k tt (g (f s)))))) end.
  apply wf_bind; [by apply (restored_wf index index)|]. intros a1 s1 Hs1 Hwf1.
  apply wf_bind; [by apply (keeps_safe _ (keeps_same_log _ (keeps_ledger_write _)))|]. intros a2 s2 [= _ <-] Hwf2.
  apply become_aware_of_new_term_safe; [|done]. simpl.
  unfold on_view_history in Hs1. destruct (ViewHistory.initialise _ _) in Hs1. by injection Hs1 as _ <-.
Qed.

Lemma force_become_primary_at_wf index term terms commit s :
  1 <= index -> commit <= index -> valid_history index terms -> committable_indices (state s) = [] ->
  wf_log (state s) ->
  wf_log (state (snd (@force_become_primary_at K _ _ index term terms commit s))).
Proof.
  intros Hi Hc Hterms Hcs Hwf. unfold force_become_primary_at.
  apply wf_bind; [done|]. intros l s0 [= <- <-] _. case_bool_decide; [done|]. unfold upd at 1 2 3.
  match goal with |- wf_log (state (snd (bind (modify ?f) (fun _ => bind (modify ?g)
                                           (fun _ => bind (modify ?h) ?k)) s))) =>
    change (wf_log (state (snd (k tt (h (g (f s))))))) end.
  apply wf_bind; [by apply (restored_wf index commit)|]. intros a1 s1 Hs1 Hwf1.
  assert (last_idx (state s1) = index) as Hl1.
  { unfold on_view_history in Hs1. destruct (ViewHistory.initialise _ _) in Hs1. by injection Hs1 as _ <-. }
  apply wf_bind.
  - apply (on_update_safe_at 0); [|split; [done|lia]]. intros _ _. lia.
  - intros a2 s2 _ Hwf2.
    match goal with |- wf_log (state (snd (?m s2))) => assert (keeps safe m) as Hm end; [|by apply Hm].
    keeps_auto. apply keeps_modify. intros s'. apply view_step_safe. lia.
Qed.

Lemma reachable_inv s : authentic -> reachable s -> wf_log (state s).
Proof.
  intros Hauth Hs. induction Hs.
  - apply init_wf.
  - apply init_as_backup_wf; [done|done|]. apply N.le_0_l.
  - apply force_become_primary_at_wf; try done. apply init_wf.
  - by apply exec_safe.
Qed.

Lemma run_inv s ops : authentic -> reachable s ->
  wf_log (state (run ops s)) /\ evolves (state s) (state (run ops s)).
Proof. intros Hauth Hs. apply run_safe; [done|]. by apply reachable_inv. Qed.

(** C10. In every state a node reaches, the commit index is at most the last
    index, the committable indices are increasing and lie between them, and
    the view history is an increasing list of starts of views in the log. *)
Theorem reachable_wf (Hauth : authentic) s (Hs : reachable s) : wf_log (state s).
Proof. by apply reachable_inv. Qed.

(** C5. Over any sequence of operations, whatever the network delivers, the
    view and the commit index of a node never decrease, and the entries
    committed at the start keep the views they have. *)
Theorem run_evolves (Hauth : authentic) s ops (Hs : reachable s) : evolves (state s) (state (run ops s)).
Proof. by apply run_inv. Qed.

Lemma run_reachable ops s : reachable s -> reachable (run ops s).
Proof.
  revert s. induction ops as [|op ops IH]; intros s Hs; [done|]. apply IH. by apply reachable_step.
Qed.

(** ** Elections *)





(** ** Transaction statuses *)

Lemma view_at_committed st j :
  wf_log st -> j <= commit_idx st -> get_term_internal j st = ViewHistory.view_at j (view_history st).
Proof.
  intros Hwf Hj. unfold get_term_internal. pose proof (wf_commit _ Hwf).
  by destruct (N.ltb_spec (last_idx st) j); [lia|].
Qed.

Lemma evaluate_status_evolves view seqno status s s' :
  wf_log (state s) -> wf_log (state s') -> evolves (state s) (state s') ->
  view <> VIEW_UNKNOWN -> is_final status = true ->
  evaluate_status view seqno s = Ok status -> evaluate_status view seqno s' = Ok status.
Proof.
  intros Hwf Hwf' [_ _ Hc Hj] Hview Hfinal. unfold evaluate_status, get_committed_txid,
    get_commit_idx_unsafe. cbn [TxID.view TxID.seqno].
  rewrite (view_at_committed _ _ Hwf (N.le_refl _)), (view_at_committed _ _ Hwf' (N.le_refl _)).
  pose proof (Hj (commit_idx (state s)) (N.le_refl _)) as Hjc.
  pose proof (ViewHistory.view_at_mono _ _ (view_history (state s')) Hc) as Hmono.
  unfold evaluate_tx_status. destruct (N.leb_spec seqno (commit_idx (state s))) as [Hle|Hlt]; simpl.
  - rewrite (view_at_committed _ _ Hwf Hle), (view_at_committed (state s') seqno Hwf') by lia.
    rewrite Hj by done. by destruct (N.leb_spec seqno (commit_idx (state s'))); [|lia].
  - destruct (_ =? view); [by intros [= <-]|].
    destruct (N.ltb_spec view (ViewHistory.view_at (commit_idx (state s)) (view_history (state s))))
      as [Hv|]; intros [= <-]; [|done].
    assert (seqno <= last_idx (state s') ->
      view < ViewHistory.view_at seqno (view_history (state s'))) as Hseq.
    { pose proof (ViewHistory.view_at_mono (commit_idx (state s)) seqno (view_history (state s'))). lia. }
    unfold get_term_internal. pose proof (wf_commit _ Hwf').
    destruct (N.ltb_spec (last_idx (state s')) seqno) as [Hl|Hl].
    + destruct (N.leb_spec seqno (commit_idx (state s'))); [lia|]. cbn [andb negb].
      destruct (N.eqb_spec VIEW_UNKNOWN view); [congruence|].
      destruct (N.ltb_spec view (ViewHistory.view_at (commit_idx (state s')) (view_history (state s'))));
        [done|lia].
    + specialize (Hseq Hl). unfold VIEW_UNKNOWN in *.
      set (w := ViewHistory.view_at seqno _) in *.
      destruct (N.eqb_spec w 0); [lia|]. destruct (N.eqb_spec w view); [lia|].
      destruct (N.leb_spec seqno (commit_idx (state s'))); simpl; [done|].
      destruct (N.ltb_spec view (ViewHistory.view_at (commit_idx (state s')) (view_history (state s'))));
        [done|lia].
Qed.

(** C18. A final status is final: once a node reports a transaction as
    Committed or Invalid, it reports the same after any further operations. *)
Theorem final_status_permanent (Hauth : authentic) s ops view seqno status
  (Hs : reachable s) (Hview : view <> VIEW_UNKNOWN) (Hfinal : is_final status = true)
  (Hstatus : evaluate_status view seqno s = Ok status) :
  evaluate_status view seqno (run ops s) = Ok status.
Proof.
  destruct (run_inv s ops Hauth Hs) as [Hwf' Hev].
  by eapply evaluate_status_evolves; [apply reachable_inv| | | | |].
Qed.

End run.

(** ** Examples *)

Lemma ex_authentic : authentic.
Proof.
  intros from data r rest. cbn [recv_authenticated ex_env]. cbv zeta. generalize (ex_decode data).
  intros r'. destruct (_ && _) eqn:Hb; [done|]. intros [= <- _] Ht.
  apply andb_false_iff in Hb as [Hb|Hb].
  - by rewrite Ht in Hb.
  - by apply negb_false_iff, N.eqb_eq in Hb.
Qed.

Definition ex_ops : list Op :=
  [OpForceBecomePrimary;
   OpReplicate [ex_batch Config 1; ex_batch Signature 2; ex_batch Plain 3] 2].

Lemma ex_primary_reachable : reachable ex_primary.
Proof.
  assert (ex_primary = run ex_ops (ex_node "n0")) as -> by (vm_compute; reflexivity).
  apply run_reachable, reachable_init.
Qed.

Lemma reachable_wf_witness : wf_log (state ex_primary).
Proof. apply reachable_wf; [apply ex_authentic|apply ex_primary_reachable]. Defined.

(** A message from a primary of view 5 arrives, and an election is started. *)
Definition ex_more_ops : list Op :=
  [OpRecvMessage "n2" (ex_encode (mkAppendEntries 3 3 5 2 0 2)); OpPeriodic 200].

Lemma run_evolves_witness : evolves (state ex_primary) (state (run ex_more_ops ex_primary)).
Proof. apply run_evolves; [apply ex_authentic|apply ex_primary_reachable]. Defined.

(** A backup that started from a snapshot at 10 reports 2.7 as committed and
    1.7 as invalid, and still does so after the same operations. *)
Definition ex_backup : Aft unit := snd (init_as_backup 10 2 [1; 1] 0 (ex_node "n1")).

Lemma ex_backup_reachable : reachable ex_backup.
Proof. apply reachable_backup. repeat constructor; lia. Qed.

Lemma final_status_permanent_witness :
  evaluate_status 1 7 (run ex_more_ops ex_backup) = Ok Invalid.
Proof.
  apply final_status_permanent;
    [apply ex_authentic|apply ex_backup_reachable|done|done|by vm_compute].
Defined.


