(* ===== verification/RaftBatch.v ===== *)
(** * Consensus: batch sizes

    The number of entries per message follows a moving average kept in an
    [int]. It stays positive and the average never overflows. *)

From S2P Require Import Prelude ViewHistory TxStatus CommitCallbacks LedgerEntries RaftTypes Raft.
From S2P Require Import RaftHandlers RaftExample RaftInv RaftLog RaftSafe RaftAppend.
From S2P Require Import RaftRun.
From Stdlib Require Import Init.Byte.

Open Scope N_scope.
Open Scope m_scope.

Section batch.
Context {K : Type} `{HST : !Store K} `{HEN : !AftEnv}.
Implicit Types s : Aft K.

Definition batch_ok s : Prop :=
  1 <= entries_batch_size s <= append_entries_size_limit /\
  (0 <= batch_window_sum s <= 2000099)%Z.

(** The size the last entries ask for. *)
Definition requested_batch s : N :=
  let avg := if entry_count s =? 0 then append_entries_size_limit
             else entry_size_not_limited s / entry_count s in
  if avg =? 0 then append_entries_size_limit / 2 else append_entries_size_limit / avg.

Lemma requested_batch_bound s : requested_batch s <= append_entries_size_limit.
Proof.
  unfold requested_batch. cbv zeta.
  generalize (if entry_count s =? 0 then append_entries_size_limit
              else entry_size_not_limited s / entry_count s). intros avg.
  destruct (avg =? 0); [done|]. destruct (N.eq_dec avg 0) as [->|Hne]; [done|].
  apply N.Div0.div_le_upper_bound. nia.
Qed.

Lemma update_batch_size_ok s : batch_ok s -> batch_ok (snd (update_batch_size s)).
Proof.
  intros [Hb Hsum]. pose proof (requested_batch_bound s) as Hreq. unfold append_entries_size_limit in Hreq.
  unfold update_batch_size. cbn [modify snd]. unfold batch_ok, batch_window_size. simpl.
  change (if (if entry_count s =? 0 then _ else _) =? 0 then _ else _) with (requested_batch s).
  rewrite !(Z.quot_div_nonneg (batch_window_sum s) 100) by lia.
  pose proof (Z.div_mod (batch_window_sum s) 100 ltac:(lia)).
  pose proof (Z.mod_pos_bound (batch_window_sum s) 100 ltac:(lia)).
  set (sum := (batch_window_sum s + (Z.of_N (requested_batch s) - batch_window_sum s / 100))%Z).
  assert (0 <= sum <= 2000099)%Z as Hs by lia.
  rewrite to_int32_id by lia. split; [|done]. rewrite Z.quot_div_nonneg by lia.
  pose proof (Z.div_mod sum 100 ltac:(lia)). pose proof (Z.mod_pos_bound sum 100 ltac:(lia)).
  unfold append_entries_size_limit. lia.
Qed.

Definition batch_step s s' : Prop := batch_ok s -> batch_ok s'.

#[global] Instance batch_step_preorder : PreOrder batch_step.
Proof. split; [by intros s H|]. intros s1 s2 s3 H12 H23 H. auto. Qed.

#[global] Instance batch_step_framed : Framed batch_step.
Proof.
  split.
  - intros s s' (_ & _ & [= Hb Hs _] & _) Hok. unfold batch_ok. by rewrite Hb, Hs.
  - intros f s _ _ Hok. exact Hok.
  - intros s Hok. by apply update_batch_size_ok.
Qed.
#[local] Hint Resolve batch_step_preorder batch_step_framed : ccf.

Lemma become_leader_batch : keeps batch_step (@become_leader K _ _).
Proof. apply become_leader_framed; [apply _..|]. by intros s Hok. Qed.
Lemma reset_votes_for_me_batch : keeps batch_step (@reset_votes_for_me K).
Proof. apply keeps_modify. by intros s Hok. Qed.
#[local] Hint Resolve become_leader_batch reset_votes_for_me_batch : ccf.

Ltac batch := keeps_auto; try (apply keeps_modify; intros ? ?; assumption).

Lemma become_aware_of_new_term_batch term : keeps batch_step (@become_aware_of_new_term K _ term).
Proof. unfold become_aware_of_new_term. batch. Qed.
#[local] Hint Resolve become_aware_of_new_term_batch : ccf.

Lemma become_candidate_with_batch (add_vote : NodeId -> M (Aft K) unit) :
  (forall id, keeps batch_step (add_vote id)) -> keeps batch_step (become_candidate_with add_vote).
Proof. intros Hadd. unfold become_candidate_with. batch. Qed.

Lemma add_vote_for_me_fuel_batch fuel from : keeps batch_step (@add_vote_for_me_fuel K _ _ fuel from).
Proof.
  revert from. induction fuel as [|fuel IH]; intros from; simpl; batch.
  by apply become_candidate_with_batch.
Qed.
#[local] Hint Resolve add_vote_for_me_fuel_batch : ccf.

Lemma become_candidate_batch : keeps batch_step (@become_candidate K _ _).
Proof. apply become_candidate_with_batch. auto with ccf. Qed.

Lemma become_pre_vote_candidate_batch : keeps batch_step (@become_pre_vote_candidate K _ _).
Proof. unfold become_pre_vote_candidate, add_vote_for_me. batch. Qed.
#[local] Hint Resolve become_candidate_batch become_pre_vote_candidate_batch : ccf.

Lemma handle_message_batch from msg data : keeps batch_step (handle_message from msg data).
Proof.
  destruct msg; simpl.
  - unfold recv_append_entries. batch.
  - unfold recv_append_entries_response. batch.
  - unfold recv_request_vote, recv_request_vote_unsafe. batch.
  - unfold recv_request_pre_vote, recv_request_vote_unsafe. batch.
  - unfold recv_request_vote_response, recv_vote_response, add_vote_for_me. batch.
  - unfold recv_request_pre_vote_response, recv_vote_response, add_vote_for_me. batch.
  - unfold recv_propose_request_vote. batch.
Qed.

Lemma exec_batch op : keeps batch_step (exec op).
Proof.
  destruct op; simpl.
  - batch.
  - unfold recv_message. destruct (_ <? _); [batch|]. apply keeps_catch_all.
    pose proof handle_message_batch. destruct (msg_type_of_N _) as [[]|]; try done;
      unfold recv_and_handle; batch.
  - unfold periodic. batch.
  - unfold force_become_primary. batch.
  - unfold nominate_successor. batch.
  - unfold enable_all_domains. batch.
Qed.

(** C34. In every state a node reaches, it sends between 1 and 20000 entries
    per message, and the sum behind the moving average stays in a range where
    no [int] operation on it overflows. *)
Theorem reachable_batch_ok s (Hs : reachable s) : batch_ok s.
Proof.
  assert (forall k id pre_vote mt et mu cbs po,
    batch_ok (init_Aft (K := K) k id pre_vote mt et mu cbs po)) as Hinit by (by split).
  induction Hs.
  - apply Hinit.
  - assert (keeps batch_step (@init_as_backup K _ index term terms start)) as H0
      by (unfold init_as_backup; batch). by apply H0.
  - assert (keeps batch_step (@force_become_primary_at K _ _ index term terms commit)) as H2
      by (unfold force_become_primary_at; batch). by apply H2.
  - by apply exec_batch.
Qed.

End batch.

Lemma reachable_batch_ok_witness : batch_ok ex_primary.
Proof. apply reachable_batch_ok, ex_primary_reachable. Defined.
