(* ===== verification/Network.v ===== *)
(** * Consensus: a network of nodes

    Nodes exchange the messages they hand to their channels. The network may
    delay and drop messages; from one node to another they arrive in the order
    in which they were sent, and once at most, since the channels reject a
    message that is older than one already received. The entries of an
    AppendEntries message are those the sender's ledger holds when it is sent. *)

From S2P Require Import Prelude ViewHistory TxStatus CommitCallbacks LedgerEntries RaftTypes Raft.
From S2P Require Import RaftHandlers RaftExample RaftInv RaftLog RaftSafe RaftAppend RaftRun.
From Stdlib Require Import Init.Byte.

Open Scope N_scope.
Open Scope m_scope.

Record Packet := mkPacket { p_from : NodeId; p_to : NodeId; p_msg : RaftMsg; p_payload : bytes }.

(** The entries a ledger holds after the given writes. *)
Definition ledger_entries (ops : list LedgerOp) : gmap N bytes :=
  foldl (fun m op =>
    match op with
    | LedgerPutEntry entry _ _ index => <[index := entry]> m
    | LedgerTruncate idx => filter (fun '(i, _) => i <= idx) m
    | LedgerCommit _ => m
    | LedgerInit _ _ => m
    end) ∅ ops.

Definition entries_between (from : Index) (n : nat) (m : gmap N bytes) : bytes :=
  concat (map (fun i => default [] (m !! (from + N.of_nat i))) (seq 0 n)).

Definition payload_of (msg : RaftMsg) (ops : list LedgerOp) : bytes :=
  match msg with
  | MsgAppendEntries r =>
      entries_between (ae_prev_idx r + 1) (N.to_nat (ae_idx r - ae_prev_idx r)) (ledger_entries ops)
  | _ => []
  end.

Section network.
Context {K : Type} `{HST : !Store K} `{HEN : !AftEnv}.

(** [received] gives, for a sender and a receiver, the packets that can still
    be delivered: those from the given position on. *)
Record Net := mkNet {
  nodes : gmap string (Aft K);
  sent : list Packet;
  received : gmap (string * string) nat;
}.

Inductive Action :=
| Tick (node : NodeId) (elapsed : N)
| Replicate (node : NodeId) (entries : list BatchEntry) (term : Term)
| Deliver (packet : nat).

(** The messages a node sent between two of its states. *)
Definition new_packets (id : NodeId) (s s' : Aft K) : list Packet :=
  omap (fun op => match op with
                  | Send to msg => Some (mkPacket id to msg (payload_of msg (ledger s')))
                  | AssociateNodeAddress _ _ => None
                  end) (drop (length (channels s)) (channels s')).

Definition at_node (id : NodeId) (m : M (Aft K) unit) (net : Net) : Net :=
  match nodes net !! id with
  | None => net
  | Some s =>
      let s' := snd (m s) in
      mkNet (<[id := s']> (nodes net)) (sent net ++ new_packets id s s') (received net)
  end.

Definition act (net : Net) (a : Action) : Net :=
  match a with
  | Tick id elapsed => at_node id (periodic elapsed) net
  | Replicate id entries term => at_node id (replicate entries term ;;; ret tt) net
  | Deliver k =>
      match sent net !! k with
      | None => net
      | Some p =>
          let link := (p_from p, p_to p) in
          if (k <? default 0 (received net !! link))%nat then net
          else at_node (p_to p) (catch_all (handle_message (p_from p) (p_msg p) (p_payload p)))
                 (mkNet (nodes net) (sent net) (<[link := S k]> (received net)))
      end
  end.

(** Networks reached from [net]. *)
Inductive net_reachable (net : Net) : Net -> Prop :=
| net_start : net_reachable net net
| net_step net' a : net_reachable net net' -> net_reachable net (act net' a).

Lemma run_net_reachable net net' actions :
  net_reachable net net' -> net_reachable net (foldl act net' actions).
Proof. revert net'. induction actions as [|a l IH]; intros net' H; simpl; [done|]. apply IH. by constructor. Qed.

Definition leader_of (view : View) (id : NodeId) (net : Net) : Prop :=
  exists s, nodes net !! id = Some s /\
    leadership_state (state s) = Leader /\ current_view (state s) = view.

End network.
Arguments Net : clear implicits.

(** The network of the example: [n0] starts the service, [n1] and [n2] join. *)
Definition ex_net : Net unit :=
  mkNet (list_to_map
    [("n0"%string, snd (force_become_primary (ex_node "n0")));
     ("n1"%string, snd (init_as_backup 0 2 [] 0 (ex_node "n1")));
     ("n2"%string, snd (init_as_backup 0 2 [] 0 (ex_node "n2")))]) [] ∅.

(** All nodes hold the entries up to 4, in view 2; [n0] committed them and
    appended 5 and 6. It then stops hearing from the others. *)
Definition up_to_6 : list Action :=
  [Replicate "n0" [ex_batch Config 1; ex_batch Signature 2; ex_batch Plain 3; ex_batch Signature 4] 2;
   Tick "n0" 10; Deliver 2; Deliver 3; Deliver 4; Deliver 5;
   Replicate "n0" [ex_batch Plain 5; ex_batch Signature 6] 2; Tick "n0" 100].

(** [n0] and [n2] get the pre-vote of [n1] and become candidates in view 3;
    [n1] votes for [n0]. *)
Definition first_election : list Action :=
  [Tick "n0" 100; Tick "n2" 100; Deliver 8; Deliver 11; Deliver 12; Deliver 13; Deliver 14; Deliver 18].

(** [n1] times out and becomes a pre-vote candidate, still in view 3. The first
    message of the new primary makes it a follower that has not voted, so
    the delayed request of [n2] gets its vote as well. *)
Definition second_election : list Action := [Tick "n1" 100; Deliver 19; Deliver 17].

(** Each primary replicates to [n1], which drops the entries of [n0] again. *)
Definition both_commit : list Action :=
  [Deliver 23; Replicate "n0" [ex_batch Signature 7] 3; Tick "n0" 10; Deliver 25; Deliver 26;
   Deliver 24; Deliver 29;
   Replicate "n2" [ex_batch Signature 5] 3; Tick "n2" 10; Deliver 33; Deliver 34].

(** Two primaries in one view: [become_aware_of_new_term] also forgets the
    vote of a (pre-vote) candidate that learns of a primary of its own view. *)
Theorem two_primaries_in_one_view :
  exists net, net_reachable ex_net net /\ leader_of 3 "n0" net /\ leader_of 3 "n2" net.
Proof.
  exists (foldl act ex_net (up_to_6 ++ first_election ++ second_election ++ [Deliver 24])).
  split; [apply run_net_reachable; constructor|].
  split; (eexists; split; [vm_compute; reflexivity|]; vm_compute; split; reflexivity).
Qed.

(** C30. The two primaries then commit different entries: [n0] reports
    transaction 2.5 as committed and [n2] as invalid. *)
Theorem committed_entries_diverge :
  exists net s0 s2, net_reachable ex_net net /\
    nodes net !! "n0"%string = Some s0 /\ nodes net !! "n2"%string = Some s2 /\
    evaluate_status 2 5 s0 = Ok Committed /\ evaluate_status 2 5 s2 = Ok Invalid.
Proof.
  set (net := foldl act ex_net (up_to_6 ++ first_election ++ second_election ++ both_commit)).
  destruct (nodes net !! "n0"%string) as [s0|] eqn:H0; [|by vm_compute in H0].
  destruct (nodes net !! "n2"%string) as [s2|] eqn:H2; [|by vm_compute in H2].
  exists net, s0, s2. split_and!; [apply run_net_reachable; constructor|done|done| |].
  - vm_compute in H0. injection H0 as <-. vm_compute. reflexivity.
  - vm_compute in H2. injection H2 as <-. vm_compute. reflexivity.
Qed.

