(* ===== verification/KvMap.v ===== *)
(** * Key-value store: maps

    [ccf::kv::untyped::Map] (src/kv/untyped_map.h) with its roll of local
    commits, and the change sets of src/kv/untyped_change_set.h that
    transactions build over it. The persistent map behind a state
    ([champ::Map]) is a finite map here. *)

From S2P Require Import Prelude ViewHistory.

Open Scope N_scope.

Module Untyped.

(** ** untyped_change_set.h, version_v.h *)

Record VersionV := mkVersionV { vv_version : Version; vv_read_version : Version; vv_value : bytes }.

Abbreviation State := (gmap bytes VersionV) (only parsing).
Abbreviation Read := (gmap bytes (Version * Version)) (only parsing).
Abbreviation Write := (gmap bytes (option bytes)) (only parsing).

(** The elements of a [std::map] keyed by byte strings, in its order. *)
Definition key_le {A} (p q : bytes * A) : Prop := bytes_le p.1 q.1.
#[export] Instance key_le_dec {A} : RelDecision (@key_le A).
Proof. unfold key_le. intros p q. apply bytes_le_dec. Defined.
Definition in_order {A} (m : gmap bytes A) : list (bytes * A) := merge_sort key_le (map_to_list m).

Record ChangeSet := mkChangeSet {
  cs_rollback_counter : N;
  cs_state : State;
  cs_committed : State;
  cs_start_version : Version;
  cs_read_version : Version;
  cs_reads : Read;
  cs_writes : Write;
}.

Definition eta_ChangeSet (c : ChangeSet) : ChangeSet :=
  mkChangeSet (cs_rollback_counter c) (cs_state c) (cs_committed c) (cs_start_version c)
    (cs_read_version c) (cs_reads c) (cs_writes c).
Definition set_cs_read_version (v : Version) (c : ChangeSet) : ChangeSet :=
  ltac:(set_field eta_ChangeSet (cs_read_version c) v c).
Definition set_cs_reads (v : Read) (c : ChangeSet) : ChangeSet :=
  ltac:(set_field eta_ChangeSet (cs_reads c) v c).
Definition set_cs_writes (v : Write) (c : ChangeSet) : ChangeSet :=
  ltac:(set_field eta_ChangeSet (cs_writes c) v c).

(** A change set is a [ChangeSet] or the derived [SnapshotChangeSet]. *)
Inductive AnyChangeSet :=
| Changes (c : ChangeSet)
| SnapshotChanges (state : State) (version : Version).

Definition has_writes (c : AnyChangeSet) : bool :=
  match c with
  | Changes c => negb (bool_decide (cs_writes c = ∅))
  | SnapshotChanges _ _ => true
  end.

(** ** The roll *)

Record LocalCommit := mkLocalCommit { lc_version : Version; lc_state : State; lc_writes : Write }.

Definition clear_writes (c : LocalCommit) : LocalCommit := mkLocalCommit (lc_version c) (lc_state c) ∅.

(** The list of commits is never empty: its head (the oldest) and the rest,
    oldest first. *)
Record Roll := mkRoll {
  roll_head : LocalCommit;
  roll_rest : list LocalCommit;
  rollback_counter : N;
}.

Definition commits (r : Roll) : list LocalCommit := roll_head r :: roll_rest r.
Definition get_tail (r : Roll) : LocalCommit := List.last (roll_rest r) (roll_head r).

Definition initial_commit : LocalCommit := mkLocalCommit 0 ∅ ∅.
Definition reset_commits (r : Roll) : Roll := mkRoll initial_commit [] (rollback_counter r).
Definition insert_back (c : LocalCommit) (r : Roll) : Roll :=
  mkRoll (roll_head r) (roll_rest r ++ [c]) (rollback_counter r).

(** ** The map *)

Inductive SecurityDomain := PUBLIC | PRIVATE.
#[export] Instance SecurityDomain_eq_dec : EqDecision SecurityDomain.
Proof. solve_decision. Defined.

Section map.
(** [ConsensusHookPtr]: what a map hook makes of a write set. *)
Context {Hook : Type}.

Abbreviation MapHook := (Version -> Write -> option Hook) (only parsing).

(** [global_hook] tells whether one is set; the calls [post_compact] makes to
    it are its result. *)
Record Map := mkMap {
  map_name : string;
  security_domain : SecurityDomain;
  roll : Roll;
  global_hook : bool;
  map_hook : option MapHook;
  commit_deltas : list (Version * Write);
}.

Definition eta_Map (m : Map) : Map :=
  mkMap (map_name m) (security_domain m) (roll m) (global_hook m) (map_hook m) (commit_deltas m).
Definition set_roll (v : Roll) (m : Map) : Map := ltac:(set_field eta_Map (roll m) v m).
Definition set_global_hook (v : bool) (m : Map) : Map := ltac:(set_field eta_Map (global_hook m) v m).
Definition set_map_hook (v : option MapHook) (m : Map) : Map :=
  ltac:(set_field eta_Map (map_hook m) v m).
Definition set_commit_deltas (v : list (Version * Write)) (m : Map) : Map :=
  ltac:(set_field eta_Map (commit_deltas m) v m).

(** The constructor. *)
Definition new_map (name : string) (domain : SecurityDomain) : Map :=
  mkMap name domain (mkRoll initial_commit [] 0) false None [].

Definition clone (m : Map) : Map := new_map (map_name m) (security_domain m).

(** The last entry committed at or before [version], searched from the tail. *)
Definition find_commit (version : Version) (r : Roll) : option LocalCommit :=
  List.find (fun c => lc_version c <=? version) (reverse (commits r)).

Definition create_change_set (version : Version) (track_deletes_on_missing_keys : bool) (m : Map)
  : option ChangeSet :=
  match find_commit version (roll m) with
  | Some current =>
      Some (mkChangeSet (rollback_counter (roll m)) (lc_state current) (lc_state (roll_head (roll m)))
              (lc_version current) NoVersion ∅
              (if track_deletes_on_missing_keys then lc_writes current else ∅))
  | None => None
  end.

(** *** Committers *)

(** One entry of the read set against the current state. *)
Definition read_valid (current : State) (key : bytes) (value : Version * Version) : bool :=
  match current !! key with
  | None => value.1 =? NoVersion
  | Some found => negb (value.1 =? NoVersion) && (value.1 =? vv_version found)
  end.

(** [HandleCommitter::prepare] *)
Definition prepare_changes (c : ChangeSet) (m : Map) : bool :=
  if negb (cs_rollback_counter c =? rollback_counter (roll m)) then false
  else
    let current := get_tail (roll m) in
    if negb (cs_read_version c =? NoVersion) && negb (cs_read_version c =? lc_version current)
    then false
    else forallb (fun '(key, value) => read_valid (lc_state current) key value) (in_order (cs_reads c)).

(** The loop of [HandleCommitter::commit]: the new state and [changes]. *)
Definition write_one (v : Version) (track_deletes_on_missing_keys : bool) (acc : State * bool)
    (kv : bytes * option bytes) : State * bool :=
  let '(state, changes) := acc in
  let '(key, maybe_value) := kv in
  match maybe_value with
  | Some value => (<[key := mkVersionV v v value]> state, true)
  | None =>
      match state !! key with
      | Some _ => (delete key state, true)
      | None => (state, changes || track_deletes_on_missing_keys)
      end
  end.

(** [HandleCommitter::commit]; the second component is [commit_version]. *)
Definition commit_changes (v : Version) (track_deletes_on_missing_keys : bool) (c : ChangeSet) (m : Map)
  : Map * Version :=
  if bool_decide (cs_writes c = ∅) then (m, cs_start_version c)
  else
    let '(state, changes) :=
      foldl (write_one v track_deletes_on_missing_keys) (lc_state (get_tail (roll m)), false)
        (in_order (cs_writes c)) in
    (if changes then set_roll (insert_back (mkLocalCommit v state (cs_writes c)) (roll m)) m else m, v).

(** [SnapshotHandleCommitter::commit] *)
Definition commit_snapshot (state : State) (version : Version) (m : Map) : Map :=
  let writes : Write :=
    if global_hook m || bool_decide (is_Some (map_hook m))
    then (fun v => Some (vv_value v)) <$> state else ∅ in
  set_roll (mkRoll (mkLocalCommit version state writes) [] (rollback_counter (roll m) + 1)) m.

Definition trigger_map_hook (version : Version) (writes : Write) (m : Map) : option Hook :=
  match map_hook m with
  | Some hook => if bool_decide (writes = ∅) then None else hook version writes
  | None => None
  end.

(** [create_committer] picks the committer of the change set. *)
Definition prepare (c : AnyChangeSet) (m : Map) : bool :=
  match c with
  | Changes c => prepare_changes c m
  | SnapshotChanges _ _ => true
  end.

Definition commit (v : Version) (track_deletes_on_missing_keys : bool) (c : AnyChangeSet) (m : Map)
  : Map * Version :=
  match c with
  | Changes c => commit_changes v track_deletes_on_missing_keys c m
  | SnapshotChanges state version => (commit_snapshot state version m, version)
  end.

Definition post_commit (commit_version : Version) (c : AnyChangeSet) (m : Map) : option Hook :=
  match c with
  | Changes c => trigger_map_hook commit_version (cs_writes c) m
  | SnapshotChanges _ version => trigger_map_hook version (lc_writes (roll_head (roll m))) m
  end.

(** *** Snapshot, compaction and rollback *)

(** [snapshot]: the version and state serialised for the map. *)
Definition snapshot (v : Version) (m : Map) : Version * State :=
  let r := default (roll_head (roll m)) (find_commit v (roll m)) in
  (lc_version r, lc_state r).

(** The loop of [compact]; a write set that is handed to the global hook is
    moved out of its commit. *)
Fixpoint compact_loop (v : Version) (global_hook : bool) (r : LocalCommit) (rest : list LocalCommit)
    (deltas : list (Version * Write)) : LocalCommit * list LocalCommit * list (Version * Write) :=
  let move := (clear_writes r, (deltas ++ [(lc_version r, lc_writes r)])%list) in
  let '(r', deltas') :=
    if global_hook && negb (bool_decide (lc_writes r = ∅)) then move else (r, deltas) in
  match rest with
  | [] => (r', [], deltas')
  | next :: rest' =>
      if lc_version r =? v then
        let '(r', deltas') := if global_hook then move else (r, deltas) in (r', rest, deltas')
      else if v <? lc_version next then (r', rest, deltas')
      else compact_loop v global_hook next rest' deltas'
  end.

Definition compact (v : Version) (m : Map) : Map :=
  let '(r, rest, deltas) :=
    compact_loop v (global_hook m) (roll_head (roll m)) (roll_rest (roll m)) (commit_deltas m) in
  set_commit_deltas deltas (set_roll (mkRoll r rest (rollback_counter (roll m))) m).

(** [post_compact]: the calls to the global hook, and the map after them. *)
Definition post_compact (m : Map) : list (Version * Write) * Map :=
  (if global_hook m then commit_deltas m else [], set_commit_deltas [] m).

Definition rollback (v : Version) (m : Map) : Map :=
  let rest := pop_back_while (fun c => v <? lc_version c) (roll_rest (roll m)) in
  let advance := (length rest <? length (roll_rest (roll m)))%nat in
  set_roll (mkRoll (roll_head (roll m)) rest
              (if advance then rollback_counter (roll m) + 1 else rollback_counter (roll m))) m.

Definition clear (m : Map) : Map := set_roll (mkRoll initial_commit [] 0) m.

(** [swap] exchanges the rolls only. *)
Definition swap (a b : Map) : Map * Map := (set_roll (roll b) a, set_roll (roll a) b).

(** [operator==]: the loop counts the entries of the first state found with
    the same version and value in the second. *)
Definition same_entry (that : State) (kv : bytes * VersionV) : bool :=
  match that !! kv.1 with
  | Some found => (vv_version found =? vv_version kv.2) && bool_decide (vv_value found = vv_value kv.2)
  | None => false
  end.

Definition map_eqb (a b : Map) : bool :=
  if negb (bool_decide (map_name a = map_name b)) then false
  else
    let state1 := get_tail (roll a) in
    let state2 := get_tail (roll b) in
    if negb (lc_version state1 =? lc_version state2) then false
    else forallb (same_entry (lc_state state2)) (map_to_list (lc_state state1)) &&
         (size (lc_state state1) =? size (lc_state state2))%nat.

End map.
#[global] Arguments Map Hook : clear implicits.

(** ** Write sets *)

Implicit Types (v : Version) (k : bytes) (b t : bool).

Lemma in_order_permutation {A} (m : gmap bytes A) : in_order m ≡ₚ map_to_list m.
Proof. apply merge_sort_Permutation. Qed.

(** A write set applied to a state, key by key. *)
Definition written (v : Version) (w : option (option bytes)) (s : option VersionV) : option VersionV :=
  match w with
  | Some (Some value) => Some (mkVersionV v v value)
  | Some None => None
  | None => s
  end.
Definition apply_writes (v : Version) (w : Write) (s : State) : State :=
  merge (written v) w s.

Lemma lookup_apply_writes v w s k : apply_writes v w s !! k = written v (w !! k) (s !! k).
Proof. unfold apply_writes. rewrite lookup_merge. by destruct (w !! k) as [[]|], (s !! k). Qed.

Lemma apply_writes_insert v w s k x :
  w !! k = None ->
  apply_writes v (<[k := x]> w) s = apply_writes v w (write_one v false (s, false) (k, x)).1.
Proof.
  intros Hk. apply map_eq. intros k'. rewrite !lookup_apply_writes.
  destruct (decide (k = k')) as [<-|Hne].
  - rewrite lookup_insert_eq, Hk. destruct x as [x|]; simpl; [by rewrite lookup_insert_eq|].
    destruct (s !! k) eqn:Hs; simpl; [by rewrite lookup_delete_eq|done].
  - rewrite lookup_insert_ne by done. f_equal. destruct x as [x|]; simpl.
    + by rewrite lookup_insert_ne.
    + destruct (s !! k); simpl; [by rewrite lookup_delete_ne|done].
Qed.

Lemma write_one_state v t acc kv : (write_one v t acc kv).1 = (write_one v false (acc.1, false) kv).1.
Proof. destruct acc as [s b], kv as [k [x|]]; simpl; [done|]. by destruct (s !! k). Qed.

Lemma foldl_write_one_state v t (l : list (bytes * option bytes)) acc :
  (foldl (write_one v t) acc l).1 =
  foldl (fun s kv => (write_one v false (s, false) kv).1) acc.1 l.
Proof.
  revert acc. induction l as [|kv l IH]; intros acc; simpl; [done|].
  by rewrite IH, write_one_state.
Qed.

Lemma write_list_apply v (l : list (bytes * option bytes)) (s : State) :
  NoDup l.*1 ->
  foldl (fun s kv => (write_one v false (s, false) kv).1) s l = apply_writes v (list_to_map l) s.
Proof.
  revert s. induction l as [|[k x] l IH]; intros s; cbn [fmap list_fmap foldl fst]; intros Hnd.
  - apply map_eq. intros k. rewrite lookup_apply_writes. simpl. by rewrite lookup_empty.
  - inversion Hnd as [|?? Hk Hnd']; subst. rewrite IH by done.
    cbn [list_to_map foldr]. rewrite apply_writes_insert; [done|].
    by apply not_elem_of_list_to_map_1.
Qed.

(** The loop of a commit applies the write set. *)
Lemma foldl_write_one v t (w : Write) (s : State) b :
  (foldl (write_one v t) (s, b) (in_order w)).1 = apply_writes v w s.
Proof.
  rewrite foldl_write_one_state, write_list_apply.
  - f_equal. rewrite <- (list_to_map_to_list w) at 2. apply list_to_map_proper.
    + rewrite (in_order_permutation w). apply NoDup_fst_map_to_list.
    + apply in_order_permutation.
  - rewrite (in_order_permutation w). apply NoDup_fst_map_to_list.
Qed.

(** When the loop records no change, the state is as it was and every write
    was the removal of a missing key. *)
Lemma write_one_unchanged v (l : list (bytes * option bytes)) (s s' : State) b :
  foldl (write_one v false) (s, b) l = (s', false) ->
  s' = s /\ b = false /\ forall k x, (k, x) ∈ l -> x = None /\ s !! k = None.
Proof.
  revert s b. induction l as [|[k x] l IH]; intros s b; simpl; intros Hf.
  - simplify_eq. split_and!; [done..|]. intros ?? Hin. by apply elem_of_nil in Hin.
  - destruct x as [x|]; [by apply IH in Hf as (_ & ? & _)|].
    destruct (s !! k) eqn:Hs; [by apply IH in Hf as (_ & ? & _)|].
    apply IH in Hf as (-> & Hb & Hl). rewrite orb_false_r in Hb. split_and!; [done..|].
    intros k' x' [Heq|Hin]%elem_of_cons; [by simplify_eq|by eapply Hl].
Qed.

End Untyped.
