(* ===== verification/KvRoll.v ===== *)
(** * Key-value store: the roll of a map refines a history of write sets

    A map is specified by the write sets committed to it and not rolled back,
    in order, and the version up to which it is compacted. The roll keeps only
    part of that history: here it is shown to give the same states, and the
    global hook to receive every compacted write set once. *)

From S2P Require Import Prelude ViewHistory KvMap.
From Stdlib Require Import Init.Byte.

Open Scope N_scope.

Module RollSpec.
Import Untyped.

(** ** The specification *)

Record History := mkHistory { past : list (Version * Write); compacted : Version }.

(** The state after a sequence of write sets. *)
Definition replay (l : list (Version * Write)) : State :=
  foldl (fun s '(v, w) => apply_writes v w s) ∅ l.

Definition latest (l : list (Version * Write)) : Version := List.last l.*1 0.

(** The write sets at or before a version. *)
Definition up_to (v : Version) (l : list (Version * Write)) : list (Version * Write) :=
  filter (fun p => p.1 <= v) l.

(** Whether a write set leaves a trace: the removal of a missing key does not,
    unless such removals are tracked. *)
Definition effective (track : bool) (w : Write) (s : State) : bool :=
  existsb (fun '(k, x) => match x with
                          | Some _ => true
                          | None => bool_decide (is_Some (s !! k)) || track
                          end) (in_order w).

Inductive MapOp :=
| DoCommit (v : Version) (track : bool) (c : ChangeSet)
| DoRollback (v : Version)
| DoCompact (v : Version).

Definition spec_step (op : MapOp) (h : History) : History :=
  match op with
  | DoCommit v track c =>
      if effective track (cs_writes c) (replay (past h))
      then mkHistory (past h ++ [(v, cs_writes c)]) (compacted h) else h
  | DoRollback v => mkHistory (up_to v (past h)) (compacted h)
  | DoCompact v => mkHistory (past h) v
  end.

(** What the store guarantees: versions are assigned in order, compaction
    advances, and compacted writes are not rolled back. *)
Definition allowed (op : MapOp) (h : History) : Prop :=
  match op with
  | DoCommit v _ _ => latest (past h) < v /\ compacted h < v
  | DoRollback v => compacted h <= v
  | DoCompact v => compacted h < v
  end.

Fixpoint all_allowed (ops : list MapOp) (h : History) : Prop :=
  match ops with
  | [] => True
  | op :: ops => allowed op h /\ all_allowed ops (spec_step op h)
  end.

(** ** The implementation *)

Section roll.
Context {Hook : Type}.
Implicit Types (m : Map Hook) (v : Version) (t b : bool).

(** One operation on the map; the second component collects the calls to the
    global hook. *)
Definition map_step (op : MapOp) (s : Map Hook * list (Version * Write))
  : Map Hook * list (Version * Write) :=
  let '(m, calls) := s in
  match op with
  | DoCommit v track c => ((commit_changes v track c m).1, calls)
  | DoRollback v => (rollback v m, calls)
  | DoCompact v =>
      let '(new_calls, m') := post_compact (compact v m) in (m', (calls ++ new_calls)%list)
  end.

Definition map_run (ops : list MapOp) (s : Map Hook * list (Version * Write)) :=
  foldl (fun s op => map_step op s) s ops.
Definition spec_run (ops : list MapOp) (h : History) : History :=
  foldl (fun h op => spec_step op h) h ops.

(** ** The loops *)

Lemma existsb_write_one_changes v t (l : list (bytes * option bytes)) (s : State) b :
  NoDup l.*1 ->
  (foldl (write_one v t) (s, b) l).2 =
  b || existsb (fun '(k, x) => match x with
                               | Some _ => true
                               | None => bool_decide (is_Some (s !! k)) || t
                               end) l.
Proof.
  revert s b. induction l as [|[k x] l IH]; intros s b Hnd; simpl; [by rewrite orb_false_r|].
  inversion Hnd as [|?? Hk Hnd']; subst.
  destruct x as [x|].
  - rewrite IH by done. simpl. by rewrite orb_true_r.
  - destruct (s !! k) as [y|] eqn:Hs.
    + rewrite IH by done. rewrite bool_decide_eq_true_2 by done. simpl. by rewrite orb_true_r.
    + rewrite IH by done. by rewrite !orb_assoc, orb_false_r.
Qed.

Lemma commit_changes_step v t c m :
  commit_changes v t c m =
  if bool_decide (cs_writes c = ∅) then (m, cs_start_version c)
  else if effective t (cs_writes c) (lc_state (get_tail (roll m)))
  then (set_roll (insert_back (mkLocalCommit v
          (apply_writes v (cs_writes c) (lc_state (get_tail (roll m)))) (cs_writes c)) (roll m)) m, v)
  else (m, v).
Proof.
  unfold commit_changes. case_bool_decide; [done|].
  pose proof (foldl_write_one v t (cs_writes c) (lc_state (get_tail (roll m))) false) as H1.
  pose proof (existsb_write_one_changes v t (in_order (cs_writes c))
                (lc_state (get_tail (roll m))) false) as H2.
  destruct (foldl _ _ _) as [s b]. simpl in *. subst s.
  rewrite H2 by (rewrite in_order_permutation; apply NoDup_fst_map_to_list).
  by destruct (effective t (cs_writes c) (lc_state (get_tail (roll m)))) eqn:He;
    unfold effective in He; rewrite He.
Qed.

Lemma effective_empty t s : effective t ∅ s = false.
Proof. unfold effective, in_order. by rewrite map_to_list_empty. Qed.

(** What one run of the compaction loop removes and hands over. *)
Lemma compact_loop_spec v hook r rest d :
  StronglySorted N.lt (lc_version <$> (r :: rest)) ->
  lc_version r <= v ->
  (hook = true -> lc_version r = v -> lc_writes r <> ∅) ->
  (hook = true -> Forall (fun c => lc_writes c <> ∅) rest) ->
  exists pre rest',
    rest = (pre ++ rest')%list /\ Forall (fun c => lc_version c <= v) pre /\
    Forall (fun c => v < lc_version c) rest' /\
    compact_loop v hook r rest d =
      ((if hook then clear_writes (List.last pre r) else List.last pre r), rest',
       (d ++ if hook then
               (if bool_decide (lc_writes r = ∅) then [] else [(lc_version r, lc_writes r)]) ++
               ((fun c => (lc_version c, lc_writes c)) <$> pre)
             else [])%list).
Proof.
  revert r d. induction rest as [|next rest IH]; intros r d Hs Hr Hv Hw.
  - exists [], []. split_and!; [done|constructor..|]. simpl.
    destruct hook; simpl; [|by rewrite app_nil_r].
    case_bool_decide as Hb; simpl; [|done].
    rewrite app_nil_r. do 2 f_equal. unfold clear_writes. rewrite <- Hb. by destruct r.
  - inversion Hs as [|?? Hs' Hall]; subst. inversion Hall as [|?? Hlt Hall']; subst.
    inversion Hs' as [|?? Hs'' Hall'']; subst.
    assert (Forall (fun c => lc_version next < lc_version c) rest) as Hrest
      by exact (proj1 (Forall_fmap _ _ _) Hall'').
    cbn [compact_loop]. destruct (N.eqb_spec (lc_version r) v) as [Heq|Hne].
    + exists [], (next :: rest). split_and!; [done|constructor|..].
      * constructor; [lia|]. eapply Forall_impl; [exact Hrest|]. simpl. lia.
      * destruct hook; simpl; [|by rewrite app_nil_r].
        rewrite bool_decide_eq_false_2 by auto. done.
    + destruct (N.ltb_spec v (lc_version next)) as [Hnv|Hnv].
      * exists [], (next :: rest). split_and!; [done|constructor|..].
        -- constructor; [lia|]. eapply Forall_impl; [exact Hrest|]. simpl. lia.
        -- destruct hook; simpl; [|by rewrite app_nil_r].
           case_bool_decide as Hb; simpl; [|done].
           rewrite app_nil_r. do 2 f_equal. unfold clear_writes. rewrite <- Hb. by destruct r.
      * assert (hook = true -> lc_writes next <> ∅ /\ Forall (fun c => lc_writes c <> ∅) rest)
          as Hw' by (intros Hh; exact (proj1 (Forall_cons _ _ _) (Hw Hh))).
        set (d' := if hook && negb (bool_decide (lc_writes r = ∅))
                   then (d ++ [(lc_version r, lc_writes r)])%list else d).
        destruct (IH next d') as (pre & rest' & -> & Hpre & Hpost & Heq); [done|done|..].
        { intros Hh _. by apply Hw'. }
        { intros Hh. by apply Hw'. }
        exists (next :: pre), rest'. split_and!; [done|by constructor|done|].
        rewrite last_cons_default. subst d'. destruct hook; simpl in *; [|done].
        rewrite (bool_decide_eq_false_2 (lc_writes next = ∅)) in Heq by by apply Hw'.
        case_bool_decide; simpl in *; rewrite Heq; simpl; [done|]. by rewrite <- app_assoc.
Qed.

(** ** The simulation *)

Definition local_write (c : LocalCommit) : Version * Write := (lc_version c, lc_writes c).

(** [l] is the commits that follow the write sets [a], each with the state
    its write set leads to. *)
Fixpoint replays (a : list (Version * Write)) (l : list LocalCommit) : Prop :=
  match l with
  | [] => True
  | c :: l => lc_state c = replay (a ++ [local_write c]) /\ replays (a ++ [local_write c]) l
  end.

(** The compacted write sets [a] have become the head of the roll; the others
    are its rest. *)
Record refines (m : Map Hook) (calls : list (Version * Write)) (h : History) : Prop := mkRefines {
  ref_sorted : StronglySorted N.lt (0 :: (past h).*1);
  ref_past : exists a,
    past h = (a ++ (local_write <$> roll_rest (roll m)))%list /\
    lc_version (roll_head (roll m)) = latest a /\
    lc_state (roll_head (roll m)) = replay a /\
    replays a (roll_rest (roll m)) /\
    Forall (fun p => p.1 <= compacted h) a /\
    (global_hook m = true -> calls = a);
  ref_uncompacted : Forall (fun c => compacted h < lc_version c) (roll_rest (roll m));
  ref_writes : Forall (fun c => lc_writes c <> ∅) (roll_rest (roll m));
  ref_head_writes : global_hook m = true -> lc_writes (roll_head (roll m)) = ∅;
  ref_deltas : commit_deltas m = [];
}.

Lemma replays_snoc a l c :
  replays a l -> lc_state c = replay (a ++ (local_write <$> (l ++ [c]))) -> replays a (l ++ [c]).
Proof.
  revert a. induction l as [|x l IH]; intros a; simpl; [done|].
  intros [Hx Hl] Hc. split; [done|]. apply IH; [done|].
  by rewrite <- app_assoc.
Qed.

Lemma replays_app a l l' :
  replays a (l ++ l') <-> replays a l /\ replays (a ++ (local_write <$> l)) l'.
Proof.
  revert a. induction l as [|x l IH]; intros a; simpl.
  - rewrite app_nil_r. naive_solver.
  - rewrite IH, <- app_assoc. simpl. naive_solver.
Qed.

Lemma replays_last a l c :
  replays a l -> last l = Some c -> lc_state c = replay (a ++ (local_write <$> l)).
Proof.
  intros Hl Hc. destruct l as [|x l _] using rev_ind; [done|].
  rewrite last_snoc in Hc. simplify_eq. apply replays_app in Hl as [_ [Hc _]].
  by rewrite fmap_app, app_assoc.
Qed.

Lemma get_tail_cases r :
  (roll_rest r = [] /\ get_tail r = roll_head r) \/
  (exists l c, roll_rest r = (l ++ [c])%list /\ get_tail r = c).
Proof.
  unfold get_tail. destruct (roll_rest r) as [|c l _] using rev_ind; [by left|].
  right. exists l, c. split; [done|]. apply List.last_last.
Qed.

Lemma latest_snoc l p : latest (l ++ [p]) = p.1.
Proof. unfold latest. rewrite fmap_app. apply List.last_last. Qed.

Lemma refines_tail m calls h : refines m calls h ->
  lc_state (get_tail (roll m)) = replay (past h) /\ lc_version (get_tail (roll m)) = latest (past h).
Proof.
  intros [_ (a & Ha & Hv & Hs & Hr & _) _ _ _ _].
  destruct (get_tail_cases (roll m)) as [[Hnil ->]|(l & c & Hl & ->)].
  - rewrite Ha, Hnil. simpl. by rewrite app_nil_r.
  - rewrite Ha, Hl in *. split.
    + apply (replays_last a (l ++ [c])); [done|]. apply last_snoc.
    + rewrite fmap_app, app_assoc. simpl. by rewrite latest_snoc.
Qed.

Lemma fst_local_write (l : list LocalCommit) : (local_write <$> l).*1 = lc_version <$> l.
Proof. rewrite <- list_fmap_compose. by apply list_fmap_ext. Qed.

Lemma fst_up_to v (l : list (Version * Write)) : (up_to v l).*1 = filter (fun x => x <= v) l.*1.
Proof. symmetry. apply filter_fmap. Qed.

Lemma latest_le a n : Forall (fun p : Version * Write => p.1 <= n) a -> latest a <= n.
Proof.
  intros Ha. destruct a as [|p a _] using rev_ind; [unfold latest; simpl; lia|].
  rewrite latest_snoc. apply Forall_app in Ha as [_ Ha]. by inversion Ha.
Qed.

Lemma ssorted_latest l : ssorted (0 :: l.*1) -> Forall (fun x => x <= latest l) (0 :: l.*1).
Proof.
  intros Hs. destruct l as [|p l _] using rev_ind; [repeat constructor; unfold latest; simpl; lia|].
  rewrite latest_snoc. rewrite fmap_app in *. simpl in *.
  change (ssorted ((0 :: l.*1) ++ [p.1])) in Hs. apply ssorted_app in Hs as (_ & _ & Hlt).
  change (Forall (fun x => x <= p.1) ((0 :: l.*1) ++ [p.1])). apply Forall_app. split.
  - apply Forall_forall. intros x Hx. specialize (Hlt x p.1 Hx ltac:(by left)). lia.
  - repeat constructor. lia.
Qed.

Lemma refines_new name dom hook :
  refines (set_global_hook hook (new_map name dom)) [] (mkHistory [] 0).
Proof. split; simpl; try by repeat constructor. exists []. by repeat constructor. Qed.

Lemma refines_commit m calls h v t c :
  refines m calls h -> allowed (DoCommit v t c) h ->
  refines (commit_changes v t c m).1 calls (spec_step (DoCommit v t c) h).
Proof.
  intros Hm [Hv Hc]. pose proof (refines_tail _ _ _ Hm) as [Hst _].
  rewrite commit_changes_step, Hst. simpl.
  case_bool_decide as Hw; [by rewrite Hw, effective_empty|].
  destruct (effective t (cs_writes c) (replay (past h))); [|done].
  destruct Hm as [Hs (a & Ha & Hhv & Hhs & Hr & Hac & Hcalls) Hu Hws Hhw Hd]. split; simpl; try done.
  - pose proof (ssorted_latest _ Hs) as Hle. rewrite fmap_app.
    apply (ssorted_snoc (0 :: (past h).*1)); [done|].
    eapply Forall_impl; [exact Hle|]. simpl. lia.
  - exists a. split_and!; try done.
    + rewrite fmap_app, app_assoc. by rewrite <- Ha.
    + apply replays_snoc; [done|]. simpl. rewrite fmap_app, app_assoc, <- Ha.
      unfold replay. by rewrite foldl_app.
  - apply Forall_app. split; [done|]. by repeat constructor.
  - apply Forall_app. split; [done|]. by repeat constructor.
Qed.

Lemma refines_versions m calls h :
  refines m calls h ->
  ssorted (lc_version <$> commits (roll m)) /\ lc_version (roll_head (roll m)) <= compacted h.
Proof.
  intros [Hs (a & Ha & Hv & _ & _ & Hac & _) Hu _ _ _]. apply latest_le in Hac.
  rewrite Ha, fmap_app, fst_local_write in Hs.
  change (ssorted ((0 :: a.*1) ++ (lc_version <$> roll_rest (roll m)))) in Hs.
  apply ssorted_app in Hs as (_ & Hs & _). split; [|lia].
  cbn. constructor; [done|]. apply Forall_fmap. eapply Forall_impl; [exact Hu|]. simpl. lia.
Qed.

Lemma refines_rollback m calls h v :
  refines m calls h -> compacted h <= v ->
  refines (rollback v m) calls (spec_step (DoRollback v) h).
Proof.
  intros Hm Hv. destruct (refines_versions _ _ _ Hm) as [Hvs _].
  destruct Hm as [Hs (a & Ha & Hhv & Hhs & Hr & Hac & Hcalls) Hu Hws Hhw Hd].
  assert (up_to v (past h) =
          (a ++ (local_write <$> roll_rest (roll (rollback v m))))%list) as Hup.
  { rewrite Ha. unfold up_to. rewrite filter_app. f_equal.
    - apply filter_all. eapply Forall_impl; [exact Hac|]. simpl. lia.
    - simpl. rewrite (pop_back_while_filter lc_version) by by inversion Hvs.
      by rewrite filter_fmap. }
  destruct (pop_back_while_prefix (fun c => v <? lc_version c) (roll_rest (roll m))) as [l' Hl'].
  split; simpl; try done.
  - rewrite fst_up_to.
    assert (0 :: filter (fun x => x <= v) (past h).*1 =
            filter (fun x => x <= v) (0 :: (past h).*1)) as ->
      by (rewrite filter_cons, decide_True by lia; done).
    by apply ssorted_filter.
  - exists a. split_and!; try done. rewrite Hl' in Hr. by apply replays_app in Hr as [Hr _].
  - rewrite Hl' in Hu. by apply Forall_app in Hu as [Hu _].
  - rewrite Hl' in Hws. by apply Forall_app in Hws as [Hws _].
Qed.

Lemma last_replays a pre r :
  lc_version r = latest a -> lc_state r = replay a -> replays a pre ->
  lc_version (List.last pre r) = latest (a ++ (local_write <$> pre)) /\
  lc_state (List.last pre r) = replay (a ++ (local_write <$> pre)).
Proof.
  intros Hv Hs Hr. destruct pre as [|c pre _] using rev_ind; [by rewrite app_nil_r|].
  rewrite List.last_last. split.
  - rewrite fmap_app, app_assoc. simpl. by rewrite latest_snoc.
  - apply (replays_last a (pre ++ [c])); [done|]. apply last_snoc.
Qed.

Lemma refines_compact m calls h v :
  refines m calls h -> compacted h < v ->
  refines (map_step (DoCompact v) (m, calls)).1 (map_step (DoCompact v) (m, calls)).2
    (spec_step (DoCompact v) h).
Proof.
  intros Hm Hv. destruct (refines_versions _ _ _ Hm) as [Hvs Hhead].
  destruct Hm as [Hs (a & Ha & Hhv & Hhs & Hr & Hac & Hcalls) Hu Hws Hhw Hd].
  destruct (compact_loop_spec v (global_hook m) (roll_head (roll m)) (roll_rest (roll m)) [])
    as (pre & rest' & Hrest & Hpre & Hpost & Heq); [done|lia|lia|done|].
  unfold map_step, post_compact, compact. rewrite Hd, Heq. simpl.
  rewrite Hrest in Hr, Ha, Hws. apply replays_app in Hr as [Hr1 Hr2].
  apply Forall_app in Hws as [_ Hws].
  pose proof (last_replays _ _ _ Hhv Hhs Hr1) as [Hlv Hls].
  split; simpl; try done.
  - exists (a ++ (local_write <$> pre))%list. split_and!.
    + by rewrite Ha, fmap_app, app_assoc.
    + by destruct (global_hook m).
    + by destruct (global_hook m).
    + done.
    + apply Forall_app. split; [eapply Forall_impl; [exact Hac|]; simpl; lia|].
      by apply Forall_fmap.
    + intros Hh. rewrite Hh. rewrite Hcalls by done.
      by rewrite bool_decide_eq_true_2 by auto.
  - by intros ->.
Qed.

Lemma refines_step op m calls h :
  refines m calls h -> allowed op h ->
  refines (map_step op (m, calls)).1 (map_step op (m, calls)).2 (spec_step op h).
Proof.
  destruct op; intros Hm Hop.
  - by apply refines_commit.
  - by apply refines_rollback.
  - by apply refines_compact.
Qed.

Lemma refines_run ops m calls h :
  refines m calls h -> all_allowed ops h ->
  refines (map_run ops (m, calls)).1 (map_run ops (m, calls)).2 (spec_run ops h).
Proof.
  revert m calls h. induction ops as [|op ops IH]; intros m calls h Hm; [done|].
  intros [Hop Hops]. pose proof (refines_step op m calls h Hm Hop) as Hstep.
  unfold map_run, spec_run. cbn [foldl].
  destruct (map_step op (m, calls)) as [m' calls']. by apply IH.
Qed.

(** A search at or after the head finds the tail of the roll rolled back. *)
Lemma find_commit_rollback w m :
  ssorted (lc_version <$> commits (roll m)) -> lc_version (roll_head (roll m)) <= w ->
  find_commit w (roll m) = Some (get_tail (roll (rollback w m))).
Proof.
  intros Hs Hw. unfold find_commit. rewrite find_reverse. unfold commits.
  rewrite filter_cons, decide_True by by apply N.leb_le.
  assert (filter (fun x => (lc_version x <=? w) = true) (roll_rest (roll m)) =
          roll_rest (roll (rollback w m))) as ->.
  { simpl. rewrite (pop_back_while_filter lc_version) by by inversion Hs.
    apply list_filter_iff. intros c. apply N.leb_le. }
  unfold get_tail.
  destruct (roll_rest (roll (rollback w m))) as [|c l _] using rev_ind; [done|].
  rewrite List.last_last, app_comm_cons. by rewrite last_snoc.
Qed.

Lemma refines_reads m calls h w :
  refines m calls h -> compacted h <= w ->
  exists c, find_commit w (roll m) = Some c /\
    lc_state c = replay (up_to w (past h)) /\ lc_version c = latest (up_to w (past h)).
Proof.
  intros Hm Hw. destruct (refines_versions _ _ _ Hm) as [Hvs Hhead].
  eexists. split; [apply find_commit_rollback; [done|lia]|].
  apply (refines_tail _ _ _ (refines_rollback _ _ _ _ Hm Hw)).
Qed.

Lemma refines_calls m calls h :
  refines m calls h -> global_hook m = true -> calls = up_to (compacted h) (past h).
Proof.
  intros [_ (a & Ha & _ & _ & _ & Hac & Hcalls) Hu _ _ _] Hh.
  rewrite Hcalls by done. rewrite Ha. unfold up_to. rewrite filter_app, filter_all by done.
  rewrite filter_none; [by rewrite app_nil_r|]. apply Forall_fmap.
  eapply Forall_impl; [exact Hu|]. simpl. lia.
Qed.

Lemma map_step_hook op s : global_hook (map_step op s).1 = global_hook s.1.
Proof.
  destruct s as [m calls], op; simpl; [|done|].
  - rewrite commit_changes_step. by repeat case_match.
  - unfold compact. by destruct (compact_loop _ _ _ _ _) as [[??]?].
Qed.

Lemma map_run_hook ops s : global_hook (map_run ops s).1 = global_hook s.1.
Proof.
  revert s. induction ops as [|op ops IH]; intros s; [done|].
  unfold map_run. cbn [foldl]. rewrite <- (map_step_hook op s). apply IH.
Qed.

(** ** Theorems *)

(** C38. A change set created at any version that is not compacted away reads
    the state that results from the write sets committed up to that version
    and not rolled back, whatever commits, rollbacks and compactions came in
    between. *)
Theorem change_set_reads_history name dom hook ops w :
  all_allowed ops (mkHistory [] 0) ->
  compacted (spec_run ops (mkHistory [] 0)) <= w ->
  exists c,
    create_change_set w false (map_run ops (set_global_hook hook (new_map name dom), [])).1 = Some c /\
    cs_state c = replay (up_to w (past (spec_run ops (mkHistory [] 0)))) /\
    cs_start_version c = latest (up_to w (past (spec_run ops (mkHistory [] 0)))).
Proof.
  intros Hops Hw.
  pose proof (refines_run _ _ _ _ (refines_new name dom hook) Hops) as Hm.
  destruct (refines_reads _ _ _ _ Hm Hw) as (c & Hc & Hs & Hv).
  unfold create_change_set. rewrite Hc. by eexists.
Qed.

(** The global hook of a map is called once for each write set that is
    compacted, in order, and for no other. *)
Theorem global_hook_calls name dom ops :
  all_allowed ops (mkHistory [] 0) ->
  (map_run ops (set_global_hook true (new_map name dom), [])).2 =
  up_to (compacted (spec_run ops (mkHistory [] 0))) (past (spec_run ops (mkHistory [] 0))).
Proof.
  intros Hops. pose proof (refines_run _ _ _ _ (refines_new name dom true) Hops) as Hm.
  apply (refines_calls _ _ _ Hm). by rewrite map_run_hook.
Qed.
End roll.

(** Commits at 2, 3 and 5, a rollback to 3, another commit at 4, and
    compaction to 3. *)
Definition ex_changes (w : Write) : ChangeSet := mkChangeSet 0 ∅ ∅ 0 0 ∅ w.
Definition ex_ops : list MapOp :=
  [DoCommit 2 false (ex_changes {[ [Byte.x01] := Some [Byte.x61] ]});
   DoCommit 3 false (ex_changes {[ [Byte.x02] := Some [Byte.x62] ]});
   DoCommit 5 false (ex_changes {[ [Byte.x01] := None ]});
   DoRollback 3;
   DoCommit 4 false (ex_changes {[ [Byte.x02] := None ]});
   DoCompact 3].

Lemma ex_ops_allowed : all_allowed ex_ops (mkHistory [] 0).
Proof. vm_compute. repeat split; congruence. Qed.

Lemma change_set_reads_history_witness :
  all_allowed ex_ops (mkHistory [] 0) /\
  exists c,
    create_change_set 3 false
      (map_run ex_ops (set_global_hook true (new_map (Hook:=unit) "m" PUBLIC), [])).1 = Some c /\
    size (cs_state c) = 2%nat /\ cs_start_version c = 3.
Proof.
  split; [exact ex_ops_allowed|].
  destruct (change_set_reads_history (Hook:=unit) "m" PUBLIC true ex_ops 3 ex_ops_allowed
              ltac:(by vm_compute)) as (c & Hc & Hs & Hv).
  exists c. split; [exact Hc|]. rewrite Hs, Hv. by vm_compute.
Defined.

Lemma global_hook_calls_witness :
  all_allowed ex_ops (mkHistory [] 0) /\
  (map_run ex_ops (set_global_hook true (new_map (Hook:=unit) "m" PUBLIC), [])).2.*1 = [2; 3].
Proof.
  split; [exact ex_ops_allowed|].
  rewrite (global_hook_calls (Hook:=unit) "m" PUBLIC ex_ops ex_ops_allowed). by vm_compute.
Defined.
End RollSpec.
