(* ===== verification/KvHandle.v ===== *)
(** * Key-value store: handles

    [ccf::kv::untyped::MapHandle] (src/kv/untyped_map_handle.cpp): what a
    transaction does to the change set of one map. The handle is shown to be a
    finite map: its contents are the state the transaction started from,
    overlaid with its own writes. *)

From S2P Require Import Prelude ViewHistory KvMap.

Open Scope N_scope.
Open Scope m_scope.

(** [State::foreach] of the persistent map visits its entries in an order of
    its own, and its [Snapshot] writes them in the order of their hashes. *)
Class StateOrder := {
  state_entries : Untyped.State -> list (bytes * Untyped.VersionV);
  state_entries_permutation s : state_entries s ≡ₚ map_to_list s;
  snapshot_entries : Untyped.State -> list (bytes * Untyped.VersionV);
  snapshot_entries_permutation s : snapshot_entries s ≡ₚ map_to_list s;
}.

Module MapHandle.
Import Untyped.

Section handle.
Context `{!StateOrder}.

Abbreviation HandleM := (M ChangeSet).

(** [std::map::insert] keeps an entry that is present. *)
Definition insert_read (key : bytes) (value : Version * Version) : HandleM unit :=
  modify (fun c => set_cs_reads (match cs_reads c !! key with
                                 | Some _ => cs_reads c
                                 | None => <[key := value]> (cs_reads c)
                                 end) c).

Definition read_key (key : bytes) : HandleM (option bytes) :=
  c <- gets id ;;;
  match cs_writes c !! key with
  | Some value_opt => ret value_opt
  | None =>
      match cs_state c !! key with
      | None => insert_read key (NoVersion, NoVersion) ;;; ret None
      | Some search =>
          insert_read key (vv_version search, vv_read_version search) ;;; ret (Some (vv_value search))
      end
  end.

Definition get (key : bytes) : HandleM (option bytes) := read_key key.

Definition has (key : bytes) : HandleM bool :=
  value_p <- read_key key ;;; ret (bool_decide (is_Some value_p)).

Definition get_version_of_previous_write (key : bytes) : HandleM (option Version) :=
  c <- gets id ;;;
  match cs_state c !! key with
  | None => insert_read key (NoVersion, NoVersion) ;;; ret None
  | Some search =>
      insert_read key (vv_version search, vv_read_version search) ;;; ret (Some (vv_version search))
  end.

Definition get_globally_committed (key : bytes) : HandleM (option bytes) :=
  gets (fun c => vv_value <$> cs_committed c !! key).
Definition has_globally_committed (key : bytes) : HandleM bool :=
  gets (fun c => bool_decide (is_Some (cs_committed c !! key))).

Definition put (key value : bytes) : HandleM unit :=
  modify (fun c => set_cs_writes (<[key := Some value]> (cs_writes c)) c).
Definition remove (key : bytes) : HandleM unit :=
  modify (fun c => set_cs_writes (<[key := None]> (cs_writes c)) c).

(** A visitor reads and updates a value [a] of its own (the variables its
    lambda captures) and tells whether to go on; it may use the handle. *)
Section foreach.
Context {A : Type} (f : bytes -> bytes -> A -> HandleM (A * bool)).

Fixpoint visit_state (w : Write) (l : list (bytes * VersionV)) (a : A) : HandleM (A * bool) :=
  match l with
  | [] => ret (a, true)
  | (k, v) :: l =>
      match w !! k with
      | Some _ => visit_state w l a
      | None =>
          r <- f k (vv_value v) a ;;;
          let '(a, should_continue) := r in
          if should_continue then visit_state w l a else ret (a, false)
      end
  end.

Fixpoint visit_writes (w : list (bytes * option bytes)) (a : A) (should_continue : bool) : HandleM A :=
  match w with
  | [] => ret a
  | (k, value) :: w =>
      r <- match value with
           | Some v => f k v a
           | None => ret (a, should_continue)
           end ;;;
      let '(a, should_continue) := r in
      if should_continue then visit_writes w a should_continue else ret a
  end.

Definition foreach_state_and_writes (always_consider_writes : bool) (a : A) : HandleM A :=
  modify (fun c => set_cs_read_version (cs_start_version c) c) ;;;
  w <- gets cs_writes ;;;
  state <- gets cs_state ;;;
  r <- visit_state w (state_entries state) a ;;;
  let '(a, should_continue) := r in
  if always_consider_writes || should_continue
  then visit_writes (in_order w) a should_continue else ret a.

Definition foreach (a : A) : HandleM A := foreach_state_and_writes false a.
End foreach.

Definition clear : HandleM unit :=
  foreach (fun k _ _ => remove k ;;; ret (tt, true)) tt.

Definition size : HandleM N :=
  foreach (fun _ _ size_ => ret (size_ + 1, true)) 0.

Definition bytes_ltb (a b : bytes) : bool := negb (bytes_leb b a).

(** The lambda [g] of [range], with [continue_past_range_to] as for CHAMP maps. *)
Definition collect_range (from to : option bytes) (k v : bytes) (res : gmap bytes bytes)
  : HandleM (gmap bytes bytes * bool) :=
  if match from with Some from => bytes_ltb k from | None => false end then ret (res, true)
  else if match to with Some to => bool_decide (k = to) || bytes_ltb to k | None => false end
  then ret (res, true)
  else ret (<[k := v]> res, true).

(** The loop over the collected range. *)
Fixpoint visit_all {A} (f : bytes -> bytes -> A -> HandleM A) (l : list (bytes * bytes)) (a : A)
  : HandleM A :=
  match l with
  | [] => ret a
  | (k, v) :: l => a <- f k v a ;;; visit_all f l a
  end.

Definition range {A} (f : bytes -> bytes -> A -> HandleM A) (from to : option bytes) (a : A) : HandleM A :=
  if match from, to with
     | Some from, Some to => bool_decide (from = to) || bytes_ltb to from
     | _, _ => false
     end
  then ret a
  else
    res <- foreach_state_and_writes (collect_range from to) true ∅ ;;;
    visit_all f (in_order res) a.

(** ** The contents of a handle *)

Definition view (c : ChangeSet) : gmap bytes bytes :=
  merge (fun w s => match w with Some x => x | None => vv_value <$> s end) (cs_writes c) (cs_state c).

Lemma lookup_view c k :
  view c !! k = match cs_writes c !! k with Some x => x | None => vv_value <$> cs_state c !! k end.
Proof. unfold view. rewrite lookup_merge. by destruct (cs_writes c !! k), (cs_state c !! k). Qed.

(** What an iteration visits: entries of the state that are not overwritten,
    then written values. *)
Definition unwritten (w : Write) (l : list (bytes * VersionV)) : list (bytes * bytes) :=
  (fun '(k, v) => (k, vv_value v)) <$> filter (fun kv => w !! kv.1 = None) l.
Definition present (l : list (bytes * option bytes)) : list (bytes * bytes) :=
  omap (fun '(k, x) => (fun v => (k, v)) <$> x) l.
Definition visited (c : ChangeSet) : list (bytes * bytes) :=
  (unwritten (cs_writes c) (state_entries (cs_state c)) ++ present (in_order (cs_writes c)))%list.

Lemma elem_of_unwritten w l k x :
  (k, x) ∈ unwritten w l <-> w !! k = None /\ exists v, (k, v) ∈ l /\ vv_value v = x.
Proof.
  unfold unwritten. rewrite list_elem_of_fmap. split.
  - intros ([k' v] & Heq & [Hw Hl]%list_elem_of_filter). simplify_eq. eauto.
  - intros (Hw & v & Hl & <-). exists (k, v). split; [done|]. by apply list_elem_of_filter.
Qed.

Lemma elem_of_present l k x : (k, x) ∈ present l <-> (k, Some x) ∈ l.
Proof.
  unfold present. rewrite list_elem_of_omap. split.
  - intros ([k' [v|]] & Hl & Heq); simpl in Heq; by simplify_eq.
  - intros Hl. by exists (k, Some x).
Qed.

Lemma elem_of_state_entries s k v : (k, v) ∈ state_entries s <-> s !! k = Some v.
Proof. rewrite state_entries_permutation. apply elem_of_map_to_list. Qed.

Lemma elem_of_visited c k x : (k, x) ∈ visited c <-> view c !! k = Some x.
Proof.
  unfold visited. rewrite elem_of_app, elem_of_unwritten, elem_of_present, lookup_view.
  rewrite in_order_permutation, elem_of_map_to_list. split.
  - intros [(-> & v & Hv & <-)|Hw]; [|by rewrite Hw].
    apply elem_of_state_entries in Hv. by rewrite Hv.
  - destruct (cs_writes c !! k) as [y|]; [intros ->; by right|].
    intros (v & Hs & ->)%fmap_Some. left. split; [done|]. exists v. split; [|done].
    by apply elem_of_state_entries.
Qed.

Lemma NoDup_fst_filter {B C} (P : B * C -> Prop) `{!forall x, Decision (P x)} (l : list (B * C)) :
  NoDup l.*1 -> NoDup (filter P l).*1.
Proof.
  induction l as [|x l IH]; [done|]. rewrite fmap_cons, NoDup_cons. intros [Hx Hl].
  rewrite filter_cons. case_decide; [|by apply IH].
  rewrite fmap_cons, NoDup_cons. split; [|by apply IH].
  intros (y & Hxy & Hy)%list_elem_of_fmap. apply Hx. rewrite Hxy. apply list_elem_of_fmap_2.
  by apply list_elem_of_filter in Hy as [_ Hy].
Qed.

Lemma NoDup_fst_present l : NoDup l.*1 -> NoDup (present l).*1.
Proof.
  induction l as [|[k x] l IH]; [done|]. rewrite fmap_cons, NoDup_cons. intros [Hx Hl].
  destruct x as [x|]; [|by apply IH]. simpl. apply NoDup_cons. split; [|by apply IH].
  intros ([k' y] & -> & Hy)%list_elem_of_fmap. apply Hx. apply elem_of_present in Hy.
  by apply (list_elem_of_fmap_2 fst) in Hy.
Qed.

Lemma fst_unwritten w l : (unwritten w l).*1 = (filter (fun kv => w !! kv.1 = None) l).*1.
Proof. unfold unwritten. rewrite <- list_fmap_compose. apply list_fmap_ext. by intros ? [??]. Qed.

Lemma NoDup_visited c : NoDup (visited c).*1.
Proof.
  unfold visited. rewrite fmap_app. apply NoDup_app. split_and!.
  - rewrite fst_unwritten. apply NoDup_fst_filter.
    rewrite state_entries_permutation. apply NoDup_fst_map_to_list.
  - intros k ((k1 & x) & -> & Hx)%list_elem_of_fmap ((k2 & y) & Heq & Hy)%list_elem_of_fmap.
    simpl in Heq. subst k2. apply elem_of_unwritten in Hx as [Hw _].
    apply elem_of_present in Hy. rewrite in_order_permutation, elem_of_map_to_list in Hy.
    congruence.
  - apply NoDup_fst_present. rewrite in_order_permutation. apply NoDup_fst_map_to_list.
Qed.

Lemma visited_permutation c : visited c ≡ₚ map_to_list (view c).
Proof.
  apply NoDup_Permutation.
  - eapply NoDup_fmap_1, NoDup_visited.
  - apply NoDup_map_to_list.
  - intros [k x]. by rewrite elem_of_visited, elem_of_map_to_list.
Qed.

(** An iteration whose visitor never stops, as a fold. *)
Section fold.
Context {A : Type} (f : bytes -> bytes -> A -> HandleM (A * bool)).
Context (g : bytes -> bytes -> A -> A) (h : bytes -> ChangeSet -> ChangeSet).
Hypothesis f_continues : forall k v a c, f k v a c = (Ok (g k v a, true), h k c).

Lemma visit_state_fold w l a c :
  visit_state f w l a c =
  (Ok (foldl (fun a kv => g kv.1 kv.2 a) a (unwritten w l), true),
   foldl (fun c kv => h kv.1 c) c (unwritten w l)).
Proof.
  revert a c. induction l as [|[k v] l IH]; intros a c; [done|].
  cbn [visit_state]. unfold unwritten. rewrite filter_cons. simpl.
  destruct (w !! k); [by rewrite decide_False by done|]. rewrite decide_True by done.
  unfold bind. rewrite f_continues. apply IH.
Qed.

Lemma visit_writes_fold l a c :
  visit_writes f l a true c =
  (Ok (foldl (fun a kv => g kv.1 kv.2 a) a (present l)), foldl (fun c kv => h kv.1 c) c (present l)).
Proof.
  revert a c. induction l as [|[k [v|]] l IH]; intros a c; [done|..]; cbn [visit_writes]; unfold bind.
  - rewrite f_continues. apply IH.
  - apply IH.
Qed.

Lemma foreach_fold always a c :
  foreach_state_and_writes f always a c =
  (Ok (foldl (fun a kv => g kv.1 kv.2 a) a (visited c)),
   foldl (fun c kv => h kv.1 c) (set_cs_read_version (cs_start_version c) c) (visited c)).
Proof.
  unfold foreach_state_and_writes, bind, modify, gets. simpl.
  rewrite visit_state_fold, orb_true_r. simpl. rewrite visit_writes_fold.
  unfold visited. by rewrite !foldl_app.
Qed.
End fold.

Lemma foldl_const {B C} (c : C) (l : list B) : foldl (fun c _ => c) c l = c.
Proof. by induction l. Qed.

Lemma foldl_count (l : list (bytes * bytes)) n :
  foldl (fun a _ => a + 1) n l = n + N.of_nat (length l).
Proof. revert n. induction l as [|x l IH]; intros n; simpl; [lia|]. rewrite IH. lia. Qed.

Definition in_range (from to : option bytes) (k : bytes) : bool :=
  match from with Some from => bytes_leb from k | None => true end &&
  match to with Some to => bytes_ltb k to | None => true end.

(** ** Refinement *)

Inductive HandleOp :=
| HGet (k : bytes) | HHas (k : bytes) | HPut (k v : bytes) | HRemove (k : bytes)
| HClear | HSize | HForeach | HRange (from to : option bytes).

Inductive HandleResult :=
| RValue (v : option bytes) | RBool (b : bool) | RUnit | RSize (n : N)
| REntries (l : list (bytes * bytes)).

(** Visitors that record what they are given. *)
Definition run_op (op : HandleOp) : HandleM HandleResult :=
  match op with
  | HGet k => v <- get k ;;; ret (RValue v)
  | HHas k => b <- has k ;;; ret (RBool b)
  | HPut k v => put k v ;;; ret RUnit
  | HRemove k => remove k ;;; ret RUnit
  | HClear => clear ;;; ret RUnit
  | HSize => n <- size ;;; ret (RSize n)
  | HForeach => l <- foreach (fun k v l => ret ((l ++ [(k, v)])%list, true)) [] ;;; ret (REntries l)
  | HRange from to => l <- range (fun k v l => ret (l ++ [(k, v)])%list) from to [] ;;; ret (REntries l)
  end.

(** The same operations on a finite map. *)
Definition map_op (op : HandleOp) (m : gmap bytes bytes) (r : HandleResult) (m' : gmap bytes bytes) : Prop :=
  match op with
  | HGet k => r = RValue (m !! k) /\ m' = m
  | HHas k => r = RBool (bool_decide (is_Some (m !! k))) /\ m' = m
  | HPut k v => r = RUnit /\ m' = <[k := v]> m
  | HRemove k => r = RUnit /\ m' = delete k m
  | HClear => r = RUnit /\ m' = ∅
  | HSize => r = RSize (N.of_nat (base.size m)) /\ m' = m
  | HForeach => (exists l, r = REntries l /\ l ≡ₚ map_to_list m) /\ m' = m
  | HRange from to =>
      r = REntries (in_order (filter (fun kv => in_range from to kv.1 = true) m)) /\ m' = m
  end.

Lemma read_key_spec k c :
  exists c', read_key k c = (Ok (view c !! k), c') /\ view c' = view c.
Proof.
  unfold read_key, bind, gets, ret. simpl. rewrite lookup_view.
  destruct (cs_writes c !! k); [by eexists|].
  destruct (cs_state c !! k) as [v|]; simpl; by eexists.
Qed.

Lemma foldl_remove (l : list (bytes * bytes)) c :
  foldl (fun c kv => (remove kv.1 c).2) c l =
  set_cs_writes (foldl (fun w kv => <[kv.1 := None]> w) (cs_writes c) l) c.
Proof.
  revert c. induction l as [|kv l IH]; intros c; [by destruct c|]. simpl. by rewrite IH.
Qed.

Lemma lookup_removed (l : list (bytes * bytes)) (w : Write) k :
  foldl (fun w kv => <[kv.1 := None]> w) w l !! k = if decide (k ∈ l.*1) then Some None else w !! k.
Proof.
  revert w. induction l as [|[k' v] l IH]; intros w; cbn [foldl].
  - rewrite decide_False; [done|]. apply not_elem_of_nil.
  - rewrite IH, fmap_cons. cbn [fst]. destruct (decide (k ∈ l.*1)) as [Hin|Hin].
    + rewrite decide_True by by right. done.
    + destruct (decide (k = k')) as [->|Hne].
      * rewrite decide_True by by left. apply lookup_insert_eq.
      * rewrite decide_False by (rewrite elem_of_cons; naive_solver). by apply lookup_insert_ne.
Qed.

Lemma clear_spec c : exists c', clear c = (Ok tt, c') /\ view c' = ∅.
Proof.
  unfold clear, foreach.
  rewrite (foreach_fold _ (fun _ _ _ => tt) (fun k c => (remove k c).2)) by done.
  eexists. split; [by destruct (foldl _ tt _)|]. rewrite foldl_remove.
  apply map_eq. intros k. rewrite lookup_view, lookup_empty. simpl. rewrite lookup_removed.
  case_decide as Hk; [done|].
  destruct (view c !! k) as [x|] eqn:Hx.
  - apply elem_of_visited in Hx. by apply (list_elem_of_fmap_2 fst) in Hx.
  - by rewrite lookup_view in Hx.
Qed.

Lemma foldl_snoc (l acc : list (bytes * bytes)) :
  foldl (fun a kv => (a ++ [(kv.1, kv.2)])%list) acc l = (acc ++ l)%list.
Proof.
  revert acc. induction l as [|[k v] l IH]; intros acc; simpl; [by rewrite app_nil_r|].
  by rewrite IH, <- app_assoc.
Qed.

Lemma collect_range_fold from to k v res c :
  collect_range from to k v res c =
  (Ok (if in_range from to k then <[k := v]> res else res, true), c).
Proof.
  unfold collect_range, in_range, bytes_ltb.
  destruct from as [from|]; [destruct (bytes_leb from k); [|done]|]; simpl;
    (destruct to as [to|]; [|done]);
    pose proof (bytes_leb_total k to); pose proof (bytes_leb_antisym k to);
    destruct (bytes_leb to k) eqn:?, (bytes_leb k to) eqn:?; simpl;
    case_bool_decide; subst; simpl; try done; try (rewrite bytes_leb_refl in *; done); naive_solver.
Qed.

Lemma foldl_in_range (P : bytes -> bool) (l : list (bytes * bytes)) :
  NoDup l.*1 ->
  foldl (fun m kv => if P kv.1 then <[kv.1 := kv.2]> m else m) (∅ : gmap bytes bytes) l =
  filter (fun kv => P kv.1 = true) (list_to_map l).
Proof.
  induction l as [|[k x] l IH] using rev_ind; [done|].
  rewrite fmap_app, NoDup_app. intros (Hl & Hk & _). rewrite foldl_app. simpl.
  rewrite list_to_map_snoc; [|intros Hin; by apply (Hk k Hin), list_elem_of_here].
  rewrite IH by done. destruct (P k) eqn:HP.
  - by rewrite map_filter_insert_True.
  - rewrite map_filter_insert_False by (simpl; congruence).
    rewrite delete_id; [done|]. apply not_elem_of_list_to_map_1.
    intros Hin. by apply (Hk k Hin), list_elem_of_here.
Qed.

Lemma list_to_map_visited c : list_to_map (visited c) = view c.
Proof.
  rewrite <- (list_to_map_to_list (view c)).
  apply list_to_map_proper; [apply NoDup_visited|apply visited_permutation].
Qed.

Lemma empty_range (from to : bytes) (m : gmap bytes bytes) :
  bool_decide (from = to) || bytes_ltb to from = true ->
  filter (fun kv => in_range (Some from) (Some to) kv.1 = true) m = ∅.
Proof.
  intros Hft. apply map_empty. intros k. apply map_lookup_filter_None. right. intros x _.
  cbn [fst]. unfold in_range, bytes_ltb in *. intros [H1 H2]%andb_prop. apply negb_true_iff in H2.
  assert (bytes_leb to from = true) as H3.
  { apply orb_true_iff in Hft as [->%bool_decide_eq_true|Hb%negb_true_iff]; [apply bytes_leb_refl|].
    destruct (bytes_leb_total to from); congruence. }
  pose proof (bytes_leb_trans _ _ _ H3 H1). congruence.
Qed.

Lemma visit_all_snoc l acc c :
  visit_all (fun k v l => ret (l ++ [(k, v)])%list) l acc c = (Ok (acc ++ l)%list, c).
Proof.
  revert acc. induction l as [|[k v] l IH]; intros acc; simpl; [by rewrite app_nil_r|].
  unfold bind, ret. by rewrite IH, <- app_assoc.
Qed.

Lemma range_spec from to c :
  exists c', range (fun k v l => ret (l ++ [(k, v)])%list) from to [] c =
    (Ok (in_order (filter (fun kv => in_range from to kv.1 = true) (view c))), c') /\ view c' = view c.
Proof.
  unfold range. destruct (match from, to with Some _, Some _ => _ | _, _ => false end) eqn:Hft.
  - destruct from as [from|], to as [to|]; try done. exists c. split; [|done].
    rewrite empty_range by done. done.
  - unfold bind. rewrite (foreach_fold _ (fun k v m => if in_range from to k then <[k := v]> m else m)
      (fun _ c => c)) by (intros; apply collect_range_fold).
    rewrite foldl_const, (foldl_in_range (in_range from to)) by apply NoDup_visited.
    rewrite list_to_map_visited, visit_all_snoc. by eexists.
Qed.

(** C37. A handle behaves as a finite map: reads see the transaction's own
    writes over the state it started from, iteration visits every entry once,
    a range visits in order exactly the keys between its bounds, and clearing
    removes everything. Visitors do not stop early, and reads of committed state
    and of the version of the last write are not among the operations. *)
Theorem handle_is_a_map op c :
  exists r c', run_op op c = (Ok r, c') /\ map_op op (view c) r (view c').
Proof.
  destruct op as [k|k|k v|k| | | |from to]; unfold run_op, map_op.
  - destruct (read_key_spec k c) as (c' & Hr & Hv). unfold get, bind. rewrite Hr. by do 2 eexists.
  - destruct (read_key_spec k c) as (c' & Hr & Hv). unfold has, bind. rewrite Hr. by do 2 eexists.
  - do 2 eexists. split; [done|]. split; [done|]. apply map_eq. intros k'. rewrite lookup_view. simpl.
    destruct (decide (k = k')) as [<-|Hne]; [by rewrite !lookup_insert_eq|].
    by rewrite !lookup_insert_ne, lookup_view by done.
  - do 2 eexists. split; [done|]. split; [done|]. apply map_eq. intros k'. rewrite lookup_view. simpl.
    destruct (decide (k = k')) as [<-|Hne]; [by rewrite lookup_insert_eq, lookup_delete_eq|].
    by rewrite lookup_insert_ne, lookup_delete_ne, lookup_view by done.
  - destruct (clear_spec c) as (c' & Hr & Hv). unfold bind. rewrite Hr. by do 2 eexists.
  - unfold size, foreach, bind.
    rewrite (foreach_fold _ (fun _ _ n => n + 1) (fun _ c => c)) by done.
    rewrite foldl_const, foldl_count, (Permutation_length (visited_permutation c)), length_map_to_list.
    by do 2 eexists.
  - unfold foreach, bind.
    rewrite (foreach_fold _ (fun k v l => (l ++ [(k, v)])%list) (fun _ c => c)) by done.
    rewrite foldl_const. do 2 eexists. split; [done|]. split; [|done]. eexists. split; [done|].
    by rewrite foldl_snoc, visited_permutation.
  - destruct (range_spec from to c) as (c' & Hr & Hv). unfold bind. rewrite Hr. by do 2 eexists.
Qed.
End handle.
End MapHandle.
