(* ===== verification/KvIsolation.v ===== *)
(** * Key-value store: isolation

    A transaction reads from the state it was opened at and is checked against
    the current state when it commits. If the check passes, every operation it
    made gives the same result on the current state: the transaction might as
    well have run at the moment it commits. *)

From S2P Require Import Prelude ViewHistory KvMap KvHandle KvRoll.

Open Scope N_scope.
Open Scope m_scope.

Module Isolation.
Import Untyped MapHandle.

(** ** Well-formed maps *)

Section map.
Context {Hook : Type}.
Implicit Types m : Map Hook.

Definition entries_ok (c : LocalCommit) : Prop :=
  forall k vv, lc_state c !! k = Some vv -> 0 < vv_version vv /\ vv_version vv <= lc_version c.

Definition follows (c c' : LocalCommit) : Prop :=
  lc_state c' = apply_writes (lc_version c') (lc_writes c') (lc_state c).

Fixpoint linked (c : LocalCommit) (l : list LocalCommit) : Prop :=
  match l with
  | [] => True
  | c' :: l => follows c c' /\ linked c' l
  end.

Record map_wf m : Prop := mkMapWf {
  wf_increasing : ssorted (lc_version <$> commits (roll m));
  wf_entries : Forall entries_ok (commits (roll m));
  wf_linked : linked (roll_head (roll m)) (roll_rest (roll m));
}.

(** [later st v st']: [st'] is [st] after writes at versions above [v]. *)
Definition later (st : State) (v : Version) (st' : State) : Prop :=
  forall k, st' !! k = st !! k \/
    match st' !! k with Some vv => v < vv_version vv | None => is_Some (st !! k) end.

Lemma later_refl st v : later st v st.
Proof. intros k. by left. Qed.

Lemma later_writes st v st' v' w : later st v st' -> v < v' -> later st v (apply_writes v' w st').
Proof.
  intros Hl Hv k. rewrite lookup_apply_writes. destruct (w !! k) as [[x|]|]; simpl.
  - right. done.
  - destruct (st !! k) eqn:E; [right; by eexists|by left].
  - apply Hl.
Qed.

Lemma linked_later c l : ssorted (lc_version <$> c :: l) -> linked c l ->
  later (lc_state c) (lc_version c) (lc_state (List.last l c)).
Proof.
  intros Hs Hl. assert (forall d st v, ssorted (lc_version <$> d :: l) -> linked d l ->
    v <= lc_version d -> later st v (lc_state d) -> later st v (lc_state (List.last l d))) as H.
  { clear. induction l as [|c l IH]; intros d st v Hs Hl Hv Hd; [done|].
    rewrite last_cons_default. destruct Hl as [Hf Hl]. inversion Hs as [|?? Hs' Hall]; subst.
    inversion Hall as [|?? Hlt _]; subst. apply IH; [done|done|lia|].
    unfold follows in Hf. rewrite Hf. apply later_writes; [done|lia]. }
  apply H; [done|done|lia|apply later_refl].
Qed.

(** ** Change sets over a map *)

(** The map has moved on from the state the change set was created over only
    by writes at later versions, unless it was rolled back. *)
Definition tracks (c : ChangeSet) m : Prop :=
  cs_rollback_counter c <= rollback_counter (roll m) /\
  (cs_rollback_counter c = rollback_counter (roll m) ->
   cs_start_version c <= lc_version (get_tail (roll m)) /\
   (cs_start_version c = lc_version (get_tail (roll m)) -> lc_state (get_tail (roll m)) = cs_state c) /\
   later (cs_state c) (cs_start_version c) (lc_state (get_tail (roll m)))) /\
  (forall k vv, cs_state c !! k = Some vv -> 0 < vv_version vv /\ vv_version vv <= cs_start_version c).

Lemma get_tail_insert c r : get_tail (insert_back c r) = c.
Proof. unfold get_tail, insert_back. simpl. apply List.last_last. Qed.

Lemma commits_insert c r : commits (insert_back c r) = (commits r ++ [c])%list.
Proof. done. Qed.

Lemma elem_of_tail r : get_tail r ∈ commits r.
Proof.
  destruct (RollSpec.get_tail_cases r) as [[_ ->]|(l & c & Hl & ->)]; [by left|].
  right. rewrite Hl. apply elem_of_app. right. by left.
Qed.

Lemma ssorted_tail r c : ssorted (lc_version <$> commits r) -> c ∈ commits r ->
  lc_version c <= lc_version (get_tail r).
Proof.
  intros Hs Hc. destruct (RollSpec.get_tail_cases r) as [[Hn Ht]|(l & d & Hl & Ht)].
  - unfold commits in Hc. rewrite Hn in Hc. apply list_elem_of_singleton in Hc. rewrite Ht. by subst.
  - rewrite Ht. unfold commits in *. rewrite Hl in *. rewrite app_comm_cons in Hs, Hc.
    rewrite fmap_app in Hs. apply ssorted_app in Hs as (_ & _ & Hs).
    apply elem_of_app in Hc as [Hc| ->%list_elem_of_singleton]; [|lia].
    apply N.lt_le_incl, Hs; [by apply list_elem_of_fmap_2|by left].
Qed.

(** A commit at a new version. *)
Lemma map_wf_insert m v w :
  map_wf m -> lc_version (get_tail (roll m)) < v ->
  map_wf (set_roll (insert_back (mkLocalCommit v
    (apply_writes v w (lc_state (get_tail (roll m)))) w) (roll m)) m).
Proof.
  intros [Hs He Hl] Hv. split.
  - cbn [roll set_roll]. rewrite commits_insert, fmap_app. apply ssorted_snoc; [done|].
    apply Forall_fmap, Forall_forall. intros c Hc. simpl. pose proof (ssorted_tail _ _ Hs Hc). lia.
  - cbn [roll set_roll]. rewrite commits_insert. apply Forall_app. split; [done|].
    constructor; [|done]. intros k vv. simpl. rewrite lookup_apply_writes.
    destruct (w !! k) as [[x|]|]; simpl; intros Hk; simplify_eq; simpl; [lia|].
    rewrite Forall_forall in He. destruct (He _ (elem_of_tail (roll m)) k vv Hk). lia.
  - cbn [roll set_roll insert_back roll_head roll_rest]. clear Hs He. unfold get_tail in *. generalize dependent (roll_head (roll m)).
    induction (roll_rest (roll m)) as [|c l IH]; intros d Hl Hv; [by split|].
    rewrite last_cons_default in *. destruct Hl as [Hf Hl]. split; [done|]. by apply IH.
Qed.

Lemma map_wf_commit v t c m :
  map_wf m -> lc_version (get_tail (roll m)) < v -> map_wf (commit_changes v t c m).1.
Proof.
  intros Hm Hv. rewrite RollSpec.commit_changes_step. case_bool_decide; [done|].
  destruct (RollSpec.effective _ _ _); [|done]. by apply map_wf_insert.
Qed.

Lemma tracks_commit v t c c' m :
  tracks c m -> lc_version (get_tail (roll m)) < v -> tracks c (commit_changes v t c' m).1.
Proof.
  intros Hc Hv. rewrite RollSpec.commit_changes_step. case_bool_decide; [done|].
  destruct (RollSpec.effective _ _ _); [|done]. destruct Hc as (Hcnt & Hst & He).
  split_and!; [done| |done]. cbn [fst roll set_roll]. rewrite get_tail_insert.
  intros Heq. destruct (Hst Heq) as (Hle & _ & Hl). cbn [lc_version lc_state]. split_and!; [lia|lia|].
  apply later_writes; [done|lia].
Qed.

Lemma linked_app c l l' : linked c (l ++ l') <-> linked c l /\ linked (List.last l c) l'.
Proof.
  revert c. induction l as [|d l IH]; intros c; [simpl; tauto|].
  rewrite last_cons_default. change (follows c d /\ linked d (l ++ l') <->
    (follows c d /\ linked d l) /\ linked (List.last l d) l'). rewrite IH. tauto.
Qed.

Lemma rollback_commits v m : exists l,
  commits (roll m) = (commits (roll (rollback v m)) ++ l)%list /\
  (l = [] -> roll (rollback v m) = roll m) /\
  (l <> [] -> rollback_counter (roll (rollback v m)) = rollback_counter (roll m) + 1).
Proof.
  destruct (pop_back_while_prefix (fun c => v <? lc_version c) (roll_rest (roll m))) as [l Hl].
  exists l. unfold rollback, commits. cbn [roll set_roll roll_head roll_rest rollback_counter].
  split_and!.
  - by rewrite <- app_comm_cons, <- Hl.
  - intros ->. rewrite app_nil_r in Hl. rewrite <- Hl, Nat.ltb_irrefl. by destruct (roll m).
  - intros Hne. destruct (Nat.ltb_spec
      (length (pop_back_while (fun c => v <? lc_version c) (roll_rest (roll m))))
      (length (roll_rest (roll m)))) as [_|Hge]; [done|].
    rewrite Hl in Hge at 1. rewrite length_app in Hge. destruct l; [done|]. simpl in Hge. lia.
Qed.

Lemma map_wf_rollback v m : map_wf m -> map_wf (rollback v m).
Proof.
  intros [Hs He Hl]. destruct (rollback_commits v m) as (l & Hc & _ & _).
  split.
  - rewrite Hc, fmap_app in Hs. by apply ssorted_app in Hs as (Hs & _).
  - rewrite Hc in He. by apply Forall_app in He as [He _].
  - unfold commits in Hc. rewrite <- app_comm_cons in Hc. injection Hc as Hr.
    rewrite Hr in Hl. by apply linked_app in Hl as [Hl _].
Qed.

Lemma tracks_rollback c v m : tracks c m -> tracks c (rollback v m).
Proof.
  intros (Hcnt & Hst & He). destruct (rollback_commits v m) as (l & _ & Hn & Ha).
  destruct l as [|d l].
  - unfold tracks. rewrite Hn by done. done.
  - split_and!; [rewrite Ha by done; lia| |done].
    rewrite Ha by done. intros. exfalso. lia.
Qed.

(** Compaction drops commits before the head and clears write sets. *)
Lemma compact_loop_commits v hook r rest d :
  exists pre r' rest' d', compact_loop v hook r rest d = (r', rest', d') /\
    rest = (pre ++ rest')%list /\
    lc_version r' = lc_version (List.last pre r) /\ lc_state r' = lc_state (List.last pre r).
Proof.
  revert r d. induction rest as [|next rest IH]; intros r d.
  - exists []. simpl. destruct (hook && _); do 3 eexists; split_and!; reflexivity.
  - cbn [compact_loop]. destruct (hook && negb (bool_decide (lc_writes r = ∅)));
      (destruct (lc_version r =? v);
         [exists []; destruct hook; do 3 eexists; split_and!; reflexivity|];
       destruct (v <? lc_version next); [exists []; do 3 eexists; split_and!; reflexivity|];
       match goal with |- context [compact_loop v hook next rest ?d'] =>
         destruct (IH next d') as (pre & r' & rest' & d'' & Heq & -> & Hv & Hs) end;
       exists (next :: pre), r', rest', d''; rewrite last_cons_default; by split_and!).
Qed.

Lemma compact_commits v m : exists pre,
  roll_rest (roll m) = (pre ++ roll_rest (roll (compact v m)))%list /\
  lc_version (roll_head (roll (compact v m))) = lc_version (List.last pre (roll_head (roll m))) /\
  lc_state (roll_head (roll (compact v m))) = lc_state (List.last pre (roll_head (roll m))) /\
  rollback_counter (roll (compact v m)) = rollback_counter (roll m).
Proof.
  destruct (compact_loop_commits v (global_hook m) (roll_head (roll m)) (roll_rest (roll m))
              (commit_deltas m)) as (pre & r' & rest' & d' & Heq & Hr & Hv & Hs).
  exists pre. unfold compact. rewrite Heq. done.
Qed.

Lemma last_app_default {A} (l l' : list A) d : List.last (l ++ l') d = List.last l' (List.last l d).
Proof.
  revert d. induction l as [|x l IH]; intros d; [done|].
  rewrite <- app_comm_cons, !last_cons_default. apply IH.
Qed.

Lemma compact_tail v m :
  lc_version (get_tail (roll (compact v m))) = lc_version (get_tail (roll m)) /\
  lc_state (get_tail (roll (compact v m))) = lc_state (get_tail (roll m)).
Proof.
  destruct (compact_commits v m) as (pre & Hr & Hv & Hs & _). unfold get_tail. rewrite Hr.
  rewrite last_app_default.
  destruct (roll_rest (roll (compact v m))) as [|c l _] using rev_ind; [done|].
  by rewrite !List.last_last.
Qed.

Lemma map_wf_compact v m : map_wf m -> map_wf (compact v m).
Proof.
  intros [Hs He Hl]. destruct (compact_commits v m) as (pre & Hr & Hv & Hst & _).
  unfold commits in *. rewrite Hr in *.
  assert (roll_head (roll m) :: pre ++ roll_rest (roll (compact v m)) =
    ((roll_head (roll m) :: pre) ++ roll_rest (roll (compact v m)))%list) as Happ by done.
  rewrite Happ in Hs, He. rewrite fmap_app in Hs. apply ssorted_app in Hs as (Hs1 & Hs2 & Hs3).
  apply Forall_app in He as [He1 He2].
  assert (List.last pre (roll_head (roll m)) ∈ roll_head (roll m) :: pre) as Hin.
  { pose proof (elem_of_tail (mkRoll (roll_head (roll m)) pre 0)) as H. done. }
  split.
  - cbn. constructor; [done|]. apply Forall_forall. intros x Hx. rewrite Hv. apply Hs3; [|done].
    by apply list_elem_of_fmap_2.
  - constructor; [|done]. intros k vv. rewrite Hst, Hv. rewrite Forall_forall in He1. by apply He1.
  - apply linked_app in Hl as [_ Hl]. destruct (roll_rest (roll (compact v m))) as [|c l]; [done|].
    destruct Hl as [Hf Hl]. split; [|done]. unfold follows in *. by rewrite Hst.
Qed.

Lemma tracks_compact c v m : tracks c m -> tracks c (compact v m).
Proof.
  intros (Hcnt & Hst & He). destruct (compact_tail v m) as [Hv Hs].
  destruct (compact_commits v m) as (_ & _ & _ & _ & Hc).
  unfold tracks. rewrite Hv, Hs, Hc. done.
Qed.

(** A change set tracks the map it was created over. *)
Lemma tracks_create w t m c : map_wf m -> create_change_set w t m = Some c -> tracks c m.
Proof.
  intros [Hs He Hl]. unfold create_change_set, find_commit.
  destruct (List.find _ _) as [d|] eqn:Hf; [|done]. intros Hc. simplify_eq.
  apply List.find_some in Hf as [Hin _]. apply list_elem_of_In in Hin.
  rewrite elem_of_reverse in Hin.
  assert (later (lc_state d) (lc_version d) (lc_state (get_tail (roll m))) /\
          (lc_version d = lc_version (get_tail (roll m)) -> d = get_tail (roll m))) as [Hlat Huniq].
  { unfold commits, get_tail in *. apply list_elem_of_split in Hin as (l1 & l2 & Heq).
    rewrite Heq in Hs. rewrite fmap_app in Hs. apply ssorted_app in Hs as (_ & Hs & _).
    assert (List.last (roll_rest (roll m)) (roll_head (roll m)) = List.last l2 d /\ linked d l2) as [-> Hl2].
    { destruct l1 as [|x l1]; injection Heq as Hh Hr; [by rewrite Hh, Hr in *|].
      rewrite Hr in *. rewrite last_app_default, last_cons_default. split; [done|].
      apply linked_app in Hl as [_ [_ Hl]]. done. }
    split; [by apply linked_later|]. destruct l2 as [|y l2 _] using rev_ind; [done|].
    rewrite List.last_last. intros Heqv. exfalso. rewrite fmap_cons, fmap_app in Hs.
    inversion Hs as [|?? _ Hall]; subst. apply Forall_app in Hall as [_ Hall].
    inversion Hall; subst. lia. }
  split_and!; simpl.
  - lia.
  - intros _. split_and!; [by apply ssorted_tail| |done]. intros Heq. by rewrite Huniq.
  - rewrite Forall_forall in He. by apply He.
Qed.

(** ** The check at commit *)

Lemma prepare_sound c m :
  tracks c m -> prepare_changes c m = true ->
  (forall k r, cs_reads c !! k = Some r ->
     r.1 = match cs_state c !! k with Some vv => vv_version vv | None => NoVersion end) ->
  (forall k, is_Some (cs_reads c !! k) -> lc_state (get_tail (roll m)) !! k = cs_state c !! k) /\
  (cs_read_version c = cs_start_version c -> cs_start_version c <> NoVersion ->
   lc_state (get_tail (roll m)) = cs_state c).
Proof.
  intros (_ & Hst & He) Hp Hreads. unfold prepare_changes in Hp.
  destruct (N.eqb_spec (cs_rollback_counter c) (rollback_counter (roll m))) as [Hc|]; [|done].
  simpl in Hp. destruct (Hst Hc) as (Hle & Heq & Hlat).
  destruct (negb (cs_read_version c =? NoVersion) &&
            negb (cs_read_version c =? lc_version (get_tail (roll m)))) eqn:Hrv; [done|].
  split.
  - intros k [r Hr]. pose proof (Hreads k r Hr) as Hver. rewrite forallb_forall in Hp.
    specialize (Hp (k, r)). simpl in Hp. rewrite <- list_elem_of_In in Hp.
    rewrite in_order_permutation, elem_of_map_to_list in Hp. specialize (Hp Hr).
    unfold read_valid in Hp. rewrite Hver in Hp. specialize (Hlat k).
    destruct (lc_state (get_tail (roll m)) !! k) as [vv|] eqn:Hk.
    + apply andb_prop in Hp as [Hp1 Hp2]. apply N.eqb_eq in Hp2.
      destruct (cs_state c !! k) as [vv'|] eqn:Hk'; [|by rewrite N.eqb_refl in Hp1].
      destruct Hlat as [Hlat|Hlat]; [done|]. destruct (He k vv' Hk'). lia.
    + destruct (cs_state c !! k) as [vv'|] eqn:Hk'; [|done].
      destruct (He k vv' Hk'). apply N.eqb_eq in Hp. unfold NoVersion in Hp. lia.
  - intros Hrs Hne. apply Heq. rewrite Hrs in Hrv.
    apply andb_false_iff in Hrv as [H%negb_false_iff%N.eqb_eq|H%negb_false_iff%N.eqb_eq]; done.
Qed.
End map.

(** ** Operations of a transaction *)

Section trace.
Context `{!StateOrder}.

Inductive TxOp := Op (op : HandleOp) | PreviousVersion (k : bytes).
Inductive TxResult := Res (r : HandleResult) | ResVersion (v : option Version).

Definition run_tx_op (op : TxOp) : M ChangeSet TxResult :=
  match op with
  | Op op => r <- run_op op ;;; ret (Res r)
  | PreviousVersion k => v <- get_version_of_previous_write k ;;; ret (ResVersion v)
  end.

(** Whether an operation iterates over the map. *)
Definition iterates (op : TxOp) : bool :=
  match op with
  | Op (HClear | HSize | HForeach) => true
  | Op (HRange (Some from) (Some to)) => negb (bool_decide (from = to) || bytes_ltb to from)
  | Op (HRange _ _) => true
  | _ => false
  end.

(** What holds of the reads a change set has recorded. *)
Definition reads_ok (c : ChangeSet) : Prop :=
  forall k r, cs_reads c !! k = Some r ->
    r.1 = match cs_state c !! k with Some vv => vv_version vv | None => NoVersion end.

(** Two change sets over states that agree on what was read so far. *)
Record agree (c d : ChangeSet) : Prop := mkAgree {
  agree_writes : cs_writes d = cs_writes c;
  agree_reads : forall k, is_Some (cs_reads c !! k) -> cs_state d !! k = cs_state c !! k;
}.

(** How an operation changes a change set; [it] tells whether it iterates. *)
Record op_step (it : bool) (c c' : ChangeSet) : Prop := mkOpStep {
  step_state : cs_state c' = cs_state c;
  step_start : cs_start_version c' = cs_start_version c;
  step_counter : cs_rollback_counter c' = cs_rollback_counter c;
  step_reads : forall k, is_Some (cs_reads c !! k) -> is_Some (cs_reads c' !! k);
  step_ok : reads_ok c -> reads_ok c';
  step_iterated : it = true -> cs_read_version c' = cs_start_version c;
  step_read_version : cs_read_version c' = cs_read_version c \/ cs_read_version c' = cs_start_version c;
}.

(** [m] gives the same result, and makes the same writes, on any change set
    that agrees with what it reads. *)
Definition repeatable {R} (it : bool) (m : M ChangeSet R) : Prop :=
  forall c, exists r c', m c = (Ok r, c') /\ op_step it c c' /\
    forall d, agree c d ->
      (forall k, is_Some (cs_reads c' !! k) -> cs_state d !! k = cs_state c !! k) ->
      (it = true -> cs_state d = cs_state c) ->
      exists d', m d = (Ok r, d') /\ agree c' d' /\ cs_state d' = cs_state d.

Lemma repeatable_map {R R'} it (m : M ChangeSet R) (f : R -> R') :
  repeatable it m -> repeatable it (x <- m ;;; ret (f x)).
Proof.
  intros Hm c. destruct (Hm c) as (r & c' & Hr & Hs & Hd). exists (f r), c'.
  unfold bind, ret. rewrite Hr. split_and!; [done|done|]. intros d Ha Hk Hi.
  destruct (Hd d Ha Hk Hi) as (d' & Hr' & Ha' & Hs'). exists d'. by rewrite Hr'.
Qed.

Lemma insert_read_step c k vv :
  vv.1 = match cs_state c !! k with Some v => vv_version v | None => NoVersion end ->
  op_step false c (insert_read k vv c).2 /\ is_Some (cs_reads (insert_read k vv c).2 !! k).
Proof.
  intros Hv. unfold insert_read, modify. simpl.
  destruct (cs_reads c !! k) as [r|] eqn:Hk; simpl.
  - split; [|by rewrite Hk]. split; simpl; try done. by left.
  - split; [|by rewrite lookup_insert_eq].
    split; simpl; try done; [| |by left].
    + intros k' Hk'. destruct (decide (k = k')) as [<-|]; [by rewrite lookup_insert_eq|].
      by rewrite lookup_insert_ne.
    + intros Hok k' r'. simpl. destruct (decide (k = k')) as [<-|].
      * rewrite lookup_insert_eq. intros. by simplify_eq.
      * rewrite lookup_insert_ne by done. apply Hok.
Qed.

(** Reading the state at [k] and recording it. *)
Lemma repeatable_lookup {R} (f : option VersionV -> R) k :
  let m := c <- gets id ;;;
           match cs_state c !! k with
           | None => insert_read k (NoVersion, NoVersion) ;;; ret (f None)
           | Some v => insert_read k (vv_version v, vv_read_version v) ;;; ret (f (Some v))
           end in
  repeatable false m.
Proof.
  intros m c.
  set (vv := match cs_state c !! k with
             | Some v => (vv_version v, vv_read_version v) | None => (NoVersion, NoVersion) end).
  exists (f (cs_state c !! k)), (insert_read k vv c).2.
  destruct (insert_read_step c k vv) as [Hstep Hin]; [subst vv; by destruct (cs_state c !! k)|].
  split_and!; [|done|].
  - subst m vv. unfold bind, gets, ret, id. by destruct (cs_state c !! k).
  - intros d [Hw Ha] Hk _. exists (insert_read k vv d).2.
    assert (cs_state d !! k = cs_state c !! k) as Heq by by apply Hk.
    split_and!; [|split|done].
    + subst m vv. unfold bind, gets, ret, id. rewrite Heq. by destruct (cs_state c !! k).
    + done.
    + intros k' Hk'. apply Hk. done.
Qed.

Lemma op_step_refl c : op_step false c c.
Proof. split; try done. by left. Qed.

Lemma repeatable_read_key k : repeatable false (read_key k).
Proof.
  intros c. destruct (cs_writes c !! k) as [x|] eqn:Hw.
  - exists x, c. split_and!; [|apply op_step_refl|].
    + unfold read_key, bind, gets, ret, id. by rewrite Hw.
    + intros d [Hwd Ha] Hk _. exists d. split_and!; [|done|done].
      unfold read_key, bind, gets, ret, id. by rewrite Hwd, Hw.
  - destruct (repeatable_lookup (fun o => vv_value <$> o) k c) as (r & c' & Hr & Hs & Hd).
    assert (forall d, cs_writes d !! k = None -> read_key k d =
      (c <- gets id ;;;
       match cs_state c !! k with
       | None => insert_read k (NoVersion, NoVersion) ;;; ret (vv_value <$> None)
       | Some v => insert_read k (vv_version v, vv_read_version v) ;;; ret (vv_value <$> Some v)
       end) d) as Heq.
    { intros d Hd'. unfold read_key, bind, gets, ret, id. by rewrite Hd'. }
    exists r, c'. rewrite Heq by done. split_and!; [done|done|]. intros d Ha Hk Hi.
    rewrite Heq by by rewrite (agree_writes _ _ Ha). by apply Hd.
Qed.

Lemma repeatable_write k x :
  repeatable false (modify (fun c => set_cs_writes (<[k := x]> (cs_writes c)) c)).
Proof.
  intros c. do 2 eexists. split_and!; [done| |].
  - split; simpl; try done. by left.
  - intros d [Hw Ha] _ _. eexists. split_and!; [done| |done]. split; [|done]. simpl. by rewrite Hw.
Qed.

Lemma visited_agree c d : cs_writes d = cs_writes c -> cs_state d = cs_state c -> visited d = visited c.
Proof. unfold visited. by intros -> ->. Qed.

(** Iterations that do nothing to the change set but remove keys. *)
Lemma repeatable_foreach {A R} f (g : bytes -> bytes -> A -> A) (b always : bool) (a : A) (k : A -> R) :
  (forall k v a c, f k v a c = (Ok (g k v a, true), if b then (remove k c).2 else c)) ->
  repeatable true (x <- foreach_state_and_writes f always a ;;; ret (k x)).
Proof.
  intros Hf.
  assert (forall c, foreach_state_and_writes f always a c =
    (Ok (foldl (fun a kv => g kv.1 kv.2 a) a (visited c)),
     set_cs_writes (if b then foldl (fun w kv => <[kv.1 := None]> w) (cs_writes c) (visited c)
                    else cs_writes c) (set_cs_read_version (cs_start_version c) c))) as Heq.
  { intros c. rewrite (foreach_fold f g (fun k c => if b then (remove k c).2 else c)) by done. f_equal.
    destruct b; [by rewrite foldl_remove|]. rewrite foldl_const. by destruct c. }
  intros c. unfold bind, ret. rewrite Heq. do 2 eexists. split_and!; [done| |].
  - split; simpl; try done. by right.
  - intros d [Hw Ha] Hk Hi. rewrite Heq, (visited_agree c d), Hw by (done || by apply Hi).
    eexists. split_and!; [done| |done]. split; [done|]. done.
Qed.

Lemma repeatable_ext {R} it (m m' : M ChangeSet R) :
  (forall c, m c = m' c) -> repeatable it m' -> repeatable it m.
Proof.
  intros Heq Hm c. destruct (Hm c) as (r & c' & Hr & Hs & Hd). exists r, c'. rewrite Heq.
  split_and!; [done|done|]. intros d Ha Hk Hi. rewrite Heq. by apply Hd.
Qed.

Lemma repeatable_ret {R} it (m : M ChangeSet R) (r : R) :
  (forall c, m c = (Ok r, c)) -> it = false -> repeatable it m.
Proof.
  intros Hm -> c. exists r, c. rewrite Hm. split_and!; [done|apply op_step_refl|].
  intros d Ha _ _. exists d. by rewrite Hm.
Qed.

Lemma repeatable_range from to :
  repeatable (iterates (Op (HRange from to))) (run_op (HRange from to)).
Proof.
  destruct (match from, to with
            | Some from, Some to => bool_decide (from = to) || bytes_ltb to from
            | _, _ => false end) eqn:Hb.
  - apply (repeatable_ret _ _ (REntries [])).
    + intros c. unfold run_op, range. rewrite Hb. done.
    + destruct from, to; try done. simpl. by rewrite Hb.
  - assert (iterates (Op (HRange from to)) = true) as ->
      by (destruct from, to; try done; simpl; by rewrite Hb).
    eapply repeatable_ext; [|apply (repeatable_foreach (collect_range from to)
      (fun k v m => if in_range from to k then <[k := v]> m else m) false true ∅
      (fun res => REntries (in_order res))); intros; apply collect_range_fold].
    intros c. unfold run_op, range. rewrite Hb. unfold bind.
    destruct (foreach_state_and_writes _ _ _ _) as [[res|e] c']; [|done].
    by rewrite visit_all_snoc.
Qed.

Lemma repeatable_op op : repeatable (iterates op) (run_tx_op op).
Proof.
  destruct op as [op|k].
  - apply repeatable_map. destruct op as [k|k|k v|k| | | |from to].
    + apply repeatable_map, repeatable_read_key.
    + apply repeatable_map, repeatable_map, repeatable_read_key.
    + apply (repeatable_map _ _ (fun _ => RUnit)), repeatable_write.
    + apply (repeatable_map _ _ (fun _ => RUnit)), repeatable_write.
    + by apply (repeatable_foreach _ (fun _ _ _ => tt) true false tt (fun _ => RUnit)).
    + by apply (repeatable_foreach _ (fun _ _ n => n + 1) false false 0 RSize).
    + by apply (repeatable_foreach _ (fun k v l => (l ++ [(k, v)])%list) false false [] REntries).
    + apply repeatable_range.
  - apply repeatable_map. exact (repeatable_lookup (fun o : option VersionV => option_map vv_version o) k).
Qed.

(** ** Transactions over several maps *)

(** The change sets of a transaction by map name; an operation on a map that
    was not opened is [None]. *)
Fixpoint run_trace (ops : list (string * TxOp)) (css : gmap string ChangeSet)
  : option (list TxResult * gmap string ChangeSet) :=
  match ops with
  | [] => Some ([], css)
  | (name, op) :: ops =>
      match css !! name with
      | None => None
      | Some c =>
          match run_tx_op op c with
          | (Ok r, c') =>
              match run_trace ops (<[name := c']> css) with
              | Some (rs, css') => Some (r :: rs, css')
              | None => None
              end
          | (Throw _, _) => None
          end
      end
  end.

Definition iterated (name : string) (ops : list (string * TxOp)) : bool :=
  existsb (fun o => bool_decide (o.1 = name) && iterates o.2) ops.

Lemma op_step_trans i j c1 c2 c3 : op_step i c1 c2 -> op_step j c2 c3 -> op_step (i || j) c1 c3.
Proof.
  intros [A1 A2 A3 A4 A5 A6 A7] [B1 B2 B3 B4 B5 B6 B7].
  split; try congruence; [naive_solver|naive_solver| |].
  - intros [Hi|Hj]%orb_true_iff; [|rewrite <- A2; auto].
    destruct B7 as [B7|B7]; rewrite B7; [auto|congruence].
  - destruct B7 as [->| ->]; [done|]. by right.
Qed.

(** What a run leaves of each change set. *)
Lemma run_trace_steps ops css rs css' name :
  run_trace ops css = Some (rs, css') ->
  match css !! name, css' !! name with
  | Some c, Some c' => op_step (iterated name ops) c c'
  | None, None => True
  | _, _ => False
  end.
Proof.
  revert css rs. induction ops as [|[n op] ops IH]; intros css rs; simpl.
  - intros [= <- <-]. destruct (css !! name); [apply op_step_refl|done].
  - destruct (css !! n) as [c|] eqn:Hn; [|done].
    destruct (repeatable_op op c) as (r & c1 & Hr & Hs & _). rewrite Hr.
    destruct (run_trace ops (<[n := c1]> css)) as [[rs1 css1]|] eqn:Hrun; [|done].
    intros [= <- <-]. specialize (IH _ _ Hrun). case_bool_decide as Hne; simpl in *.
    + subst n. rewrite lookup_insert_eq in IH. rewrite Hn.
      destruct (css1 !! name); [|done]. by eapply op_step_trans.
    + by rewrite lookup_insert_ne in IH.
Qed.

(** A run on states that agree with everything it read has the same results
    and makes the same writes. *)
Lemma trace_repeats ops css rs css' css2 :
  run_trace ops css = Some (rs, css') ->
  (forall name c, css !! name = Some c -> exists d, css2 !! name = Some d /\ agree c d) ->
  (forall name c' d, css' !! name = Some c' -> css2 !! name = Some d ->
     (forall k, is_Some (cs_reads c' !! k) -> cs_state d !! k = cs_state c' !! k) /\
     (iterated name ops = true -> cs_state d = cs_state c')) ->
  exists css2', run_trace ops css2 = Some (rs, css2') /\
    forall name c', css' !! name = Some c' ->
      exists d', css2' !! name = Some d' /\ cs_writes d' = cs_writes c'.
Proof.
  revert css rs css2. induction ops as [|[n op] ops IH]; intros css rs css2; simpl.
  - intros [= <- <-] Ha _. exists css2. split; [done|]. intros name c' Hc.
    destruct (Ha _ _ Hc) as (d & Hd & [Hw _]). by exists d.
  - destruct (css !! n) as [c|] eqn:Hn; [|done].
    destruct (repeatable_op op c) as (r & c1 & Hr & Hs & Hrep). rewrite Hr.
    destruct (run_trace ops (<[n := c1]> css)) as [[rs1 css1]|] eqn:Hrun; [|done].
    intros [= <- <-] Ha Hag. destruct (Ha _ _ Hn) as (d & Hd & Had). rewrite Hd.
    pose proof (run_trace_steps _ _ _ _ n Hrun) as Hn1. rewrite lookup_insert_eq in Hn1.
    destruct (css1 !! n) as [c'|] eqn:Hc'; [|done]. destruct (Hag _ _ _ Hc' Hd) as [Hag1 Hag2].
    rewrite bool_decide_eq_true_2 in Hag2 by done. simpl in Hag2.
    pose proof (step_state _ _ _ Hs) as Hs1. pose proof (step_state _ _ _ Hn1) as Hs2.
    destruct (Hrep d Had) as (d1 & Hr1 & Ha1 & Hsd).
    { intros k Hk. rewrite <- Hs1, <- Hs2. apply Hag1, (step_reads _ _ _ Hn1), Hk. }
    { intros Hi. rewrite <- Hs1, <- Hs2. apply Hag2. by rewrite Hi. }
    rewrite Hr1. destruct (IH _ _ (<[n := d1]> css2) Hrun) as (css2' & Hrun2 & Hw2).
    { intros name c0. destruct (decide (n = name)) as [<-|Hne].
      - rewrite !lookup_insert_eq. intros [= <-]. by exists d1.
      - rewrite !lookup_insert_ne by done. apply Ha. }
    { intros name c0 d0 Hc0. destruct (decide (n = name)) as [<-|Hne].
      - rewrite lookup_insert_eq. intros [= <-]. simplify_eq. rewrite Hsd. split; [done|].
        intros Hi. apply Hag2. fold (iterated n ops). rewrite Hi. by rewrite orb_true_r.
      - rewrite lookup_insert_ne by done. intros Hd0. destruct (Hag _ _ _ Hc0 Hd0) as [H1 H2].
        split; [done|]. by rewrite bool_decide_eq_false_2 in H2 by done. }
    exists css2'. by rewrite Hrun2.
Qed.
End trace.

End Isolation.
