(* ===== verification/KvSerialise.v ===== *)
(** * Key-value store: serialised transactions

    The writer and reader of src/kv/raw_serialise.h, the wrappers of
    src/kv/generic_serialise_wrapper.h that split an entry into a public and an
    encrypted private domain, and the serialisation of change sets in
    src/kv/untyped_map.h. The encryptor is an interface. *)

From S2P Require Import Prelude ViewHistory TxStatus LedgerEntries KvMap.
From Stdlib Require Import Init.Byte Strings.Byte.

Open Scope N_scope.
Open Scope m_scope.

(** ** kv_types.h *)

Inductive EntryType :=
| WriteSet | Snapshot | WriteSetWithClaims | WriteSetWithCommitEvidence
| WriteSetWithCommitEvidenceAndClaims.

#[export] Instance EntryType_eq_dec : EqDecision EntryType.
Proof. solve_decision. Defined.

Definition entry_type_to_N (et : EntryType) : N :=
  match et with
  | WriteSet => 0 | Snapshot => 1 | WriteSetWithClaims => 2
  | WriteSetWithCommitEvidence => 3 | WriteSetWithCommitEvidenceAndClaims => 4
  end.
Definition entry_type_of_N (n : N) : option EntryType :=
  match n with
  | 0 => Some WriteSet | 1 => Some Snapshot | 2 => Some WriteSetWithClaims
  | 3 => Some WriteSetWithCommitEvidence | 4 => Some WriteSetWithCommitEvidenceAndClaims
  | _ => None
  end.

Definition has_claims (et : EntryType) : bool :=
  match et with WriteSetWithClaims | WriteSetWithCommitEvidenceAndClaims => true | _ => false end.
Definition has_commit_evidence (et : EntryType) : bool :=
  match et with WriteSetWithCommitEvidence | WriteSetWithCommitEvidenceAndClaims => true | _ => false end.

(** [AbstractTxEncryptor]: [encrypt] gives the serialised header and the
    cipher, or fails; [decrypt] gives the plain text, or fails, and in any case
    the term in the header. *)
Class TxEncryptor := {
  get_header_length : N;
  encrypt : bytes -> bytes -> TxID.t -> EntryType -> bool -> result (option (bytes * bytes));
  decrypt : bytes -> bytes -> bytes -> Version -> bool -> result (option bytes * N);
  get_term : bytes -> result N;
}.

Module Serialise.
Import Untyped.

(** ** raw_serialise.h: writing *)

Definition append_u64 (n : N) (buf : bytes) : bytes := (buf ++ le_split 8 n)%list.
Definition append_entry_type (et : EntryType) (buf : bytes) : bytes :=
  (buf ++ le_split 1 (entry_type_to_N et))%list.
(** [SerialisedEntry], [std::vector<uint8_t>] and [std::string]: the size in
    bytes, then the bytes. *)
Definition append_blob (b : bytes) (buf : bytes) : bytes :=
  (buf ++ le_split 8 (N.of_nat (length b)) ++ b)%list.
Definition append_versions (l : list Version) (buf : bytes) : bytes :=
  append_blob (concat (le_split 8 <$> l)) buf.
(** [Sha256Hash]: its bytes. *)
Definition append_hash (h : bytes) (buf : bytes) : bytes := (buf ++ h)%list.

(** ** raw_serialise.h: reading *)

(** [reader_mem] is the memory from [data_ptr] on. *)
Record RawReader := mkReader { reader_mem : bytes; data_size : N; data_offset : N }.

Definition init_reader (mem : bytes) (size : N) : RawReader := mkReader mem size 0.
Definition is_eos (r : RawReader) : bool := data_size r <=? data_offset r.
Definition set_offset (o : N) (r : RawReader) : RawReader := mkReader (reader_mem r) (data_size r) o.

(** A copy of [n] bytes from [data_ptr + offset]. *)
Definition memcpy (offset n : N) : M RawReader bytes := fun r =>
  if offset + n <=? N.of_nat (length (reader_mem r))
  then (Ok (take (N.to_nat n) (drop (N.to_nat offset) (reader_mem r))), r)
  else (Throw OutOfBounds, r).

(** [read_entry<T>] for a [T] of [n] bytes. *)
Definition read_entry (n : N) : M RawReader N :=
  r <- gets id ;;;
  let remainder := u64_sub (data_size r) (data_offset r) in
  if remainder <? n then throw InsufficientSpace
  else
    b <- memcpy (data_offset r) n ;;;
    modify (set_offset (data_offset r + n)) ;;;
    ret (le_combine b).

(** The size is checked against what was left before it was read. *)
Definition read_size_prefixed_entry : M RawReader (N * N) :=
  r <- gets id ;;;
  let remainder := u64_sub (data_size r) (data_offset r) in
  entry_size <- read_entry 8 ;;;
  if remainder <? entry_size then throw (RuntimeError "Expected larger entry")
  else
    start_offset <- gets data_offset ;;;
    modify (set_offset (start_offset + entry_size)) ;;;
    ret (start_offset, entry_size).

Definition read_u64 : M RawReader N := read_entry 8.

Definition read_blob : M RawReader bytes :=
  e <- read_size_prefixed_entry ;;;
  let '(entry_offset, entry_size) := e in
  memcpy entry_offset entry_size.

(** [std::array] of [n] bytes: no check. *)
Definition read_array (n : N) : M RawReader bytes :=
  o <- gets data_offset ;;;
  b <- memcpy o n ;;;
  modify (set_offset (o + n)) ;;;
  ret b.

Definition read_entry_type : M RawReader EntryType :=
  n <- read_entry 1 ;;;
  match entry_type_of_N n with
  | Some et => ret et
  | None => throw (LogicError "Invalid EntryType")
  end.

Definition name_bytes (name : string) : bytes := String.list_byte_of_string name.
Definition bytes_name (b : bytes) : string := String.string_of_list_byte b.

(** ** generic_serialise_wrapper.h: writing *)

Record Serialiser := mkSerialiser {
  public_writer : bytes;
  private_writer : bytes;
  current_domain : SecurityDomain;
}.

(** [serialise_internal] on the current writer. *)
Definition serialise_internal (f : bytes -> bytes) (s : Serialiser) : Serialiser :=
  match current_domain s with
  | PUBLIC => mkSerialiser (f (public_writer s)) (private_writer s) PUBLIC
  | PRIVATE => mkSerialiser (public_writer s) (f (private_writer s)) PRIVATE
  end.

Definition set_current_domain (d : SecurityDomain) (s : Serialiser) : Serialiser :=
  mkSerialiser (public_writer s) (private_writer s) d.

(** The constructor writes the header of the public domain. *)
Definition new_serialiser (tx_id : TxID.t) (entry_type : EntryType)
    (commit_evidence_digest claims_digest : bytes) : Serialiser :=
  let w := append_u64 (TxID.seqno tx_id) (append_entry_type entry_type []) in
  let w := if has_claims entry_type then append_hash claims_digest w else w in
  let w := if has_commit_evidence entry_type then append_hash commit_evidence_digest w else w in
  mkSerialiser (append_u64 0 w) [] PUBLIC.

Section wrapper.
(** [crypto_util], null only in unit tests. *)
Context (crypto_util : option TxEncryptor).

Definition start_map (name : string) (domain : SecurityDomain) : M Serialiser unit :=
  if bool_decide (domain = PRIVATE) && negb (bool_decide (is_Some crypto_util))
  then throw KvSerialiserException
  else
    modify (set_current_domain domain) ;;;
    modify (serialise_internal (append_blob (name_bytes name))).

Definition serialise_u64 (n : N) : M Serialiser unit := modify (serialise_internal (append_u64 n)).
Definition serialise_blob (b : bytes) : M Serialiser unit := modify (serialise_internal (append_blob b)).

(** [Map::serialise_changes] (src/kv/untyped_map.h). *)
Definition serialise_changes (name : string) (domain : SecurityDomain) (c : ChangeSet)
    (include_reads : bool) : M Serialiser unit :=
  start_map name domain ;;;
  (if include_reads then
     serialise_u64 (cs_read_version c) ;;;
     serialise_u64 (N.of_nat (base.size (cs_reads c))) ;;;
     for_each (fun '(key, value) => serialise_blob key ;;; serialise_u64 value.1) (in_order (cs_reads c))
   else
     serialise_u64 NoVersion ;;; serialise_u64 0) ;;;
  let writes := in_order (cs_writes c) in
  let write_ctr := length (filter (fun kv => is_Some kv.2) writes) in
  let remove_ctr := length (filter (fun kv => kv.2 = None) writes) in
  serialise_u64 (N.of_nat write_ctr) ;;;
  for_each (fun '(key, maybe_value) =>
    match maybe_value with
    | Some value => serialise_blob key ;;; serialise_blob value
    | None => ret tt
    end) writes ;;;
  serialise_u64 (N.of_nat remove_ctr) ;;;
  for_each (fun '(key, maybe_value) =>
    match maybe_value with
    | Some _ => ret tt
    | None => serialise_blob key
    end) writes.

(** Successive [serialized::write]s into a buffer of [size] zero bytes. *)
Fixpoint write_parts (size : nat) (parts : list bytes) : result bytes :=
  match parts with
  | [] => Ok (replicate size x00)
  | p :: parts =>
      if (size <? length p)%nat then Throw InsufficientSpace
      else match write_parts (size - length p) parts with
           | Ok b => Ok (p ++ b)%list
           | Throw e => Throw e
           end
  end.

Definition serialise_domains (tx_id : TxID.t) (entry_type : EntryType) (header_flags : N)
    (historical_hint : bool) (public private : bytes) : result bytes :=
  match crypto_util with
  | None =>
      match set_size (N.of_nat (length public)) (mkHeader entry_format_v1 header_flags 0) with
      | Throw e => Throw e
      | Ok entry_header =>
          if bool_decide (private = [])
          then write_parts (length public + 8) [encode_header entry_header; public]
          else Throw AssertionFailure
      end
  | Some e =>
      let size := N.of_nat (length public) + (@get_header_length e + 8 + N.of_nat (length private)) in
      match set_size size (mkHeader entry_format_v1 header_flags 0) with
      | Throw e => Throw e
      | Ok entry_header =>
          match @encrypt e private public tx_id entry_type historical_hint with
          | Throw e => Throw e
          | Ok None => Throw KvSerialiserException
          | Ok (Some (serialised_hdr, encrypted)) =>
              write_parts (N.to_nat (size + 8))
                [encode_header entry_header; serialised_hdr; le_split 8 (N.of_nat (length public));
                 public; encrypted]
          end
      end
  end.

(** ** generic_serialise_wrapper.h: reading *)

Record Deserialiser := mkDeserialiser {
  public_reader : RawReader;
  private_reader : RawReader;
  reading_private : bool;
}.

Definition empty_deserialiser : Deserialiser :=
  mkDeserialiser (init_reader [] 0) (init_reader [] 0) false.

(** What [init] finds besides the readers. *)
Record Header := mkTxHeader {
  hdr_version : Version;
  hdr_term : N;
  hdr_flags : N;
  hdr_claims_digest : option bytes;
  hdr_commit_evidence_digest : option bytes;
}.

Definition read_public_header : M RawReader (Version * option bytes * option bytes) :=
  entry_type <- read_entry_type ;;;
  version <- read_u64 ;;;
  claims <- (if has_claims entry_type then b <- read_array 32 ;;; ret (Some b) else ret None) ;;;
  evidence <- (if has_commit_evidence entry_type
               then b <- read_array 32 ;;; ret (Some b) else ret None) ;;;
  read_u64 ;;;
  ret (version, claims, evidence).

(** [init]; [None] when decryption fails, the term as it was given when it is
    not read. *)
Definition init (data : bytes) (term : N) (domain_restriction : option SecurityDomain)
    (historical_hint : bool) : result (option (Header * Deserialiser)) :=
  match read_header data with
  | Throw e => Throw e
  | Ok (tx_header, data_) =>
      if negb (header_size tx_header =? N.of_nat (length data_))
      then Throw (LogicError "Reported size in entry header does not match size of entry")
      else if negb (header_version tx_header =? entry_format_v1)
      then Throw (LogicError "Cannot deserialise entry format")
      else
        match crypto_util with
        | None =>
            match read_public_header (init_reader data_ (N.of_nat (length data_))) with
            | (Throw e, _) => Throw e
            | (Ok (version, claims, evidence), r) =>
                Ok (Some (mkTxHeader version term (header_flags tx_header) claims evidence,
                          mkDeserialiser r (init_reader [] 0) false))
            end
        | Some e =>
            match skip (@get_header_length e) data_ with
            | Throw e => Throw e
            | Ok data1 =>
                match read_block 8 data1 with
                | Throw e => Throw e
                | Ok (len, data_public) =>
                    let public_domain_length := le_combine len in
                    let gcm_hdr := take (N.to_nat (@get_header_length e)) data_ in
                    match read_public_header (init_reader data_public public_domain_length) with
                    | (Throw e, _) => Throw e
                    | (Ok (version, claims, evidence), r) =>
                        let header term :=
                          mkTxHeader version term (header_flags tx_header) claims evidence in
                        if bool_decide (domain_restriction = Some PUBLIC) then
                          match @get_term e gcm_hdr with
                          | Throw e => Throw e
                          | Ok term => Ok (Some (header term, mkDeserialiser r (init_reader [] 0) false))
                          end
                        else
                          match skip public_domain_length data_public with
                          | Throw e => Throw e
                          | Ok cipher =>
                              match @decrypt e cipher
                                      (take (N.to_nat public_domain_length) data_public)
                                      gcm_hdr version historical_hint with
                              | Throw e => Throw e
                              | Ok (None, _) => Ok None
                              | Ok (Some plain, term) =>
                                  Ok (Some (header term,
                                        mkDeserialiser r (init_reader plain (N.of_nat (length plain))) false))
                              end
                          end
                    end
                end
            end
        end
  end.
End wrapper.

Definition current_reader (d : Deserialiser) : RawReader :=
  if reading_private d then private_reader d else public_reader d.

Definition on_current {A} (m : M RawReader A) : M Deserialiser A := fun d =>
  let '(x, r) := m (current_reader d) in
  (x, if reading_private d then mkDeserialiser (public_reader d) r true
      else mkDeserialiser r (private_reader d) false).

(** [start_map] of the reader. *)
Definition next_map : M Deserialiser (option string) :=
  d <- gets id ;;;
  if is_eos (current_reader d) then
    if negb (reading_private d) && negb (is_eos (private_reader d)) then
      modify (fun d => mkDeserialiser (public_reader d) (private_reader d) true) ;;;
      b <- on_current read_blob ;;; ret (Some (bytes_name b))
    else ret None
  else b <- on_current read_blob ;;; ret (Some (bytes_name b)).

Definition end_ (d : Deserialiser) : bool := is_eos (current_reader d) && is_eos (public_reader d).

(** [for (i = 0; i < ctr; ++i)] over entries that each take at least one byte
    of the reader. *)
Fixpoint read_times {A} (fuel : nat) (ctr : N) (f : A -> M RawReader A) (a : A) : M RawReader A :=
  if ctr =? 0 then ret a
  else match fuel with
       | O => throw OutOfFuel
       | S fuel => a <- f a ;;; read_times fuel (ctr - 1) f a
       end.

Definition read_counted {A} (f : A -> M RawReader A) (a : A) : M RawReader A :=
  ctr <- read_u64 ;;;
  fuel <- gets (fun r => S (length (reader_mem r))) ;;;
  read_times fuel ctr f a.

(** [Map::deserialise_internal] after the change set was created. *)
Definition deserialise_internal (c : ChangeSet) : M RawReader ChangeSet :=
  rv <- read_u64 ;;;
  let c := if rv =? NoVersion then c else set_cs_read_version rv c in
  c <- read_counted (fun c =>
         k <- read_blob ;;; v <- read_u64 ;;;
         ret (set_cs_reads (<[k := (v, NoVersion)]> (cs_reads c)) c)) c ;;;
  c <- read_counted (fun c =>
         k <- read_blob ;;; v <- read_blob ;;;
         ret (set_cs_writes (<[k := Some v]> (cs_writes c)) c)) c ;;;
  read_counted (fun c =>
    k <- read_blob ;;; ret (set_cs_writes (<[k := None]> (cs_writes c)) c)) c.

(** [get_security_domain] (src/kv/kv_types.h). *)
Definition get_security_domain (name : string) : SecurityDomain :=
  if String.prefix "public:" name then PUBLIC else PRIVATE.

End Serialise.
