(* ===== verification/KvRoundTrip.v ===== *)
(** * Key-value store: serialised change sets read back

    What the writer appends the reader consumes: field by field, then change
    set by change set, then for the two domains of an entry. *)

From S2P Require Import Prelude ViewHistory TxStatus LedgerEntries KvMap KvSerialise.
From Stdlib Require Import Init.Byte Strings.Byte.

Open Scope N_scope.

Module RoundTrip.
Import Untyped Serialise.

(** A reader that has consumed [pre], has [rest] left and [extra] behind its
    end. *)
Definition rd (pre rest extra : bytes) : RawReader :=
  mkReader (pre ++ rest ++ extra) (N.of_nat (length (pre ++ rest))) (N.of_nat (length pre)).

Definition u64 (n : N) : bytes := le_split 8 n.
Definition blob (b : bytes) : bytes := (u64 (N.of_nat (length b)) ++ b)%list.
#[global] Arguments u64 : simpl never.
#[global] Arguments blob : simpl never.

Definition fits (b : bytes) : Prop := N.of_nat (length b) < 2 ^ 64.

Lemma length_u64 n : length (u64 n) = 8%nat.
Proof. apply length_le_split. Qed.

Lemma combine_u64 n : n < 2 ^ 64 -> le_combine (u64 n) = n.
Proof. intros. unfold u64. rewrite le_combine_split. by apply N.mod_small. Qed.

Lemma memcpy_at pre b rest extra :
  memcpy (N.of_nat (length pre)) (N.of_nat (length b)) (rd pre (b ++ rest) extra) =
  (Ok b, rd pre (b ++ rest) extra).
Proof.
  unfold memcpy, rd. simpl. rewrite <- !app_assoc.
  destruct (N.leb_spec (N.of_nat (length pre) + N.of_nat (length b))
              (N.of_nat (length (pre ++ b ++ rest ++ extra)))) as [_|H];
    [|rewrite !length_app in H; lia].
  rewrite !Nat2N.id, drop_app_length. by rewrite take_app_length.
Qed.

Lemma memcpy_before pre b rest extra :
  memcpy (N.of_nat (length pre)) (N.of_nat (length b)) (rd (pre ++ b) rest extra) =
  (Ok b, rd (pre ++ b) rest extra).
Proof.
  unfold memcpy, rd. simpl. rewrite <- !app_assoc.
  destruct (N.leb_spec (N.of_nat (length pre) + N.of_nat (length b))
              (N.of_nat (length (pre ++ b ++ rest ++ extra)))) as [_|H];
    [|rewrite !length_app in H; lia].
  rewrite !Nat2N.id, drop_app_length. by rewrite take_app_length.
Qed.

Lemma rd_advance pre b rest extra :
  set_offset (N.of_nat (length pre) + N.of_nat (length b)) (rd pre (b ++ rest) extra) =
  rd (pre ++ b) rest extra.
Proof.
  unfold set_offset, rd. simpl. rewrite <- !app_assoc. f_equal.
  rewrite length_app. lia.
Qed.

Lemma remainder_rd pre rest extra :
  u64_sub (data_size (rd pre rest extra)) (data_offset (rd pre rest extra)) = N.of_nat (length rest).
Proof. simpl. rewrite length_app, u64_sub_exact by lia. lia. Qed.

Lemma read_entry_at n pre b rest extra :
  length b = N.to_nat n ->
  read_entry n (rd pre (b ++ rest) extra) = (Ok (le_combine b), rd (pre ++ b) rest extra).
Proof.
  intros Hb. assert (n = N.of_nat (length b)) as -> by lia.
  unfold read_entry, bind, gets, id. rewrite remainder_rd.
  destruct (N.ltb_spec (N.of_nat (length (b ++ rest))) (N.of_nat (length b))) as [H|_];
    [rewrite length_app in H; lia|].
  change (data_offset (rd pre (b ++ rest) extra)) with (N.of_nat (length pre)).
  rewrite memcpy_at. unfold modify, ret. by rewrite rd_advance.
Qed.

Lemma read_u64_at n pre rest extra :
  n < 2 ^ 64 -> read_u64 (rd pre (u64 n ++ rest) extra) = (Ok n, rd (pre ++ u64 n) rest extra).
Proof. intros Hn. unfold read_u64. rewrite read_entry_at by done. by rewrite combine_u64. Qed.

Lemma read_array_at pre b rest extra :
  read_array (N.of_nat (length b)) (rd pre (b ++ rest) extra) = (Ok b, rd (pre ++ b) rest extra).
Proof.
  unfold read_array, bind, gets.
  change (data_offset (rd pre (b ++ rest) extra)) with (N.of_nat (length pre)).
  rewrite memcpy_at. unfold modify, ret. by rewrite rd_advance.
Qed.

Lemma read_blob_at pre b rest extra :
  fits b -> read_blob (rd pre (blob b ++ rest) extra) = (Ok b, rd (pre ++ blob b) rest extra).
Proof.
  intros Hb. unfold read_blob, read_size_prefixed_entry, blob, bind, gets, id.
  rewrite remainder_rd, <- app_assoc. fold read_u64. rewrite read_u64_at by done.
  destruct (N.ltb_spec (N.of_nat (length (u64 (N.of_nat (length b)) ++ b ++ rest)))
              (N.of_nat (length b))) as [H|_]; [rewrite !length_app in H; lia|].
  change (data_offset (rd (pre ++ u64 (N.of_nat (length b))) (b ++ rest) extra))
    with (N.of_nat (length (pre ++ u64 (N.of_nat (length b))))).
  unfold modify, ret. rewrite rd_advance, memcpy_before. by rewrite <- app_assoc.
Qed.

Lemma read_entry_type_at et pre rest extra :
  read_entry_type (rd pre (le_split 1 (entry_type_to_N et) ++ rest) extra) =
  (Ok et, rd (pre ++ le_split 1 (entry_type_to_N et)) rest extra).
Proof.
  unfold read_entry_type, bind. rewrite read_entry_at by done. by destruct et.
Qed.

(** ** Change sets *)

Definition puts (w : Write) : list (bytes * option bytes) := filter (fun kv => is_Some kv.2) (in_order w).
Definition removes (w : Write) : list (bytes * option bytes) := filter (fun kv => kv.2 = None) (in_order w).

Definition put_bytes (kv : bytes * option bytes) : bytes := (blob kv.1 ++ blob (default [] kv.2))%list.
Definition remove_bytes (kv : bytes * option bytes) : bytes := blob kv.1.

(** What [serialise_changes] writes after the name of the map. *)
Definition changes_bytes (w : Write) : bytes :=
  (u64 NoVersion ++ u64 0 ++
   u64 (N.of_nat (length (puts w))) ++ concat (put_bytes <$> puts w) ++
   u64 (N.of_nat (length (removes w))) ++ concat (remove_bytes <$> removes w))%list.

Definition fits_writes (w : Write) : Prop :=
  N.of_nat (base.size w) < 2 ^ 64 /\
  forall k x, w !! k = Some x -> fits k /\ fits (default [] x).

Definition emit (b : bytes) : Serialiser -> Serialiser := serialise_internal (fun buf => (buf ++ b)%list).

Lemma emit_emit a b s : emit b (emit a s) = emit (a ++ b) s.
Proof. unfold emit, serialise_internal. destruct (current_domain s); simpl; by rewrite app_assoc. Qed.

Lemma emit_nil s : emit [] s = s.
Proof. unfold emit, serialise_internal. destruct s as [? ? []]; simpl; by rewrite app_nil_r. Qed.

Lemma serialise_u64_emit n s : serialise_u64 n s = (Ok tt, emit (u64 n) s).
Proof. done. Qed.

Lemma serialise_blob_emit b s : serialise_blob b s = (Ok tt, emit (blob b) s).
Proof. done. Qed.

(** A loop that writes something for the elements that satisfy [P]. *)
Lemma for_each_emit {A} (P : A -> Prop) `{!forall x, Decision (P x)} (f : A -> bytes)
    (m : A -> M Serialiser unit) l s :
  (forall x s, P x -> m x s = (Ok tt, emit (f x) s)) -> (forall x s, ~ P x -> m x s = (Ok tt, s)) ->
  for_each m l s = (Ok tt, emit (concat (f <$> filter P l)) s).
Proof.
  intros HP Hn. revert s. induction l as [|x l IH]; intros s; simpl; [by rewrite emit_nil|].
  unfold bind. rewrite filter_cons. case_decide.
  - rewrite HP, IH by done. by rewrite emit_emit.
  - by rewrite Hn, IH by done.
Qed.

Lemma serialise_changes_emit crypto name dom c s :
  (dom = PRIVATE -> is_Some crypto) ->
  serialise_changes crypto name dom c false s =
  (Ok tt, emit (blob (name_bytes name) ++ changes_bytes (cs_writes c)) (set_current_domain dom s)).
Proof.
  intros Hd. unfold serialise_changes, start_map.
  replace (bool_decide (dom = PRIVATE) && negb (bool_decide (is_Some crypto))) with false.
  2:{ case_bool_decide; simpl; [|done]. by rewrite bool_decide_eq_true_2 by auto. }
  unfold bind at 1 2. unfold modify at 1 2.
  change (serialise_internal (append_blob (name_bytes name)) (set_current_domain dom s))
    with (emit (blob (name_bytes name)) (set_current_domain dom s)).
  unfold bind. rewrite !serialise_u64_emit, emit_emit.
  rewrite (for_each_emit (fun kv => is_Some kv.2) put_bytes).
  2:{ intros [k x] s' [y Hy]. simpl in Hy. subst x. unfold bind.
      rewrite !serialise_blob_emit, emit_emit. done. }
  2:{ intros [k [x|]] s' Hn; [|done]. destruct Hn. by eexists. }
  rewrite serialise_u64_emit.
  rewrite (for_each_emit (fun kv => kv.2 = None) remove_bytes).
  2:{ intros [k x] s' Hx. simpl in Hx. by subst x. }
  2:{ intros [k [x|]] s' Hn; [done|]. by destruct Hn. }
  rewrite !emit_emit. unfold changes_bytes, puts, removes. by rewrite <- !app_assoc.
Qed.

Lemma read_times_at {A B} (f : A -> bytes) (g : B -> A -> B) (step : B -> M RawReader B) (P : A -> Prop) :
  (forall b x pre rest extra, P x ->
     step b (rd pre (f x ++ rest) extra) = (Ok (g b x), rd (pre ++ f x) rest extra)) ->
  forall l fuel b pre rest extra, Forall P l -> (length l <= fuel)%nat ->
  read_times fuel (N.of_nat (length l)) step b (rd pre (concat (f <$> l) ++ rest) extra) =
  (Ok (foldl g b l), rd (pre ++ concat (f <$> l)) rest extra).
Proof.
  intros Hstep. induction l as [|x l IH]; intros fuel b pre rest extra Hl Hf; simpl in *.
  - destruct fuel; simpl; by rewrite app_nil_r.
  - inversion Hl; subst. destruct fuel as [|fuel]; [lia|]. cbn [read_times].
    destruct (N.eqb_spec (N.of_nat (S (length l))) 0); [lia|].
    unfold bind. rewrite <- app_assoc, Hstep by done.
    replace (N.of_nat (S (length l)) - 1) with (N.of_nat (length l)) by lia.
    rewrite IH by (done || lia). by rewrite <- app_assoc.
Qed.

Lemma concat_length_ge {A} (f : A -> bytes) l :
  (forall x, (1 <= length (f x))%nat) -> (length l <= length (concat (f <$> l)))%nat.
Proof.
  intros Hf. induction l as [|x l IH]; [simpl; lia|].
  rewrite fmap_cons. cbn [concat length]. rewrite length_app. specialize (Hf x). lia.
Qed.

Lemma read_counted_at {A B} (f : A -> bytes) (g : B -> A -> B) (step : B -> M RawReader B)
    (P : A -> Prop) l b pre rest extra :
  (forall b x pre rest extra, P x ->
     step b (rd pre (f x ++ rest) extra) = (Ok (g b x), rd (pre ++ f x) rest extra)) ->
  (forall x, (1 <= length (f x))%nat) -> Forall P l -> N.of_nat (length l) < 2 ^ 64 ->
  read_counted step b (rd pre (u64 (N.of_nat (length l)) ++ concat (f <$> l) ++ rest) extra) =
  (Ok (foldl g b l), rd (pre ++ u64 (N.of_nat (length l)) ++ concat (f <$> l)) rest extra).
Proof.
  intros Hstep Hf Hl Hlen. unfold read_counted, bind. rewrite read_u64_at by done. unfold gets.
  rewrite (read_times_at f g step P); [by rewrite <- app_assoc|done|done|].
  pose proof (concat_length_ge f l Hf). simpl. rewrite !length_app. lia.
Qed.

Lemma length_blob b : (8 <= length (blob b))%nat.
Proof. unfold blob. rewrite length_app, length_u64. lia. Qed.

(** Inserting the entries of a map in any order gives it back. *)
Lemma foldl_insert_perm {A} (m : gmap bytes A) (l : list (bytes * A)) :
  l ≡ₚ map_to_list m -> foldl (fun m kv => <[kv.1 := kv.2]> m) ∅ l = m.
Proof.
  intros Hl. assert (NoDup l.*1) as Hnd by (rewrite Hl; apply NoDup_fst_map_to_list).
  transitivity (list_to_map l : gmap bytes A).
  - clear Hl. induction l as [|[k x] l IH] using rev_ind; [done|].
    rewrite fmap_app, NoDup_app in Hnd. destruct Hnd as (Hnd & Hk & _).
    rewrite foldl_app, IH by done. simpl. symmetry. apply list_to_map_snoc.
    intros Hin. by apply (Hk k Hin), list_elem_of_here.
  - rewrite <- (list_to_map_to_list m). by apply list_to_map_proper.
Qed.

Lemma filter_split {A} (P Q : A -> Prop) `{!forall x, Decision (P x)} `{!forall x, Decision (Q x)} l :
  (forall x, P x <-> ~ Q x) -> (filter P l ++ filter Q l)%list ≡ₚ l.
Proof.
  intros HPQ. induction l as [|x l IH]; [done|]. rewrite !filter_cons.
  specialize (HPQ x). case_decide; case_decide; try tauto; simpl.
  - by rewrite IH.
  - rewrite <- Permutation_middle. by rewrite IH.
Qed.

Lemma puts_removes (w : Write) : (puts w ++ removes w)%list ≡ₚ map_to_list w.
Proof.
  unfold puts, removes. rewrite filter_split; [apply in_order_permutation|].
  intros [k [x|]]; simpl; split; try done; intros H; (try by eexists);
    destruct H as [? H]; done || by destruct H.
Qed.

Lemma foldl_set_writes (g : Write -> bytes * option bytes -> Write) l c :
  foldl (fun c kv => set_cs_writes (g (cs_writes c) kv) c) c l =
  set_cs_writes (foldl g (cs_writes c) l) c.
Proof. revert c. induction l as [|kv l IH]; intros c; [by destruct c|]. simpl. by rewrite IH. Qed.

Lemma elem_of_writes (w : Write) (P : bytes * option bytes -> Prop) `{!forall x, Decision (P x)} k x :
  (k, x) ∈ filter P (in_order w) -> w !! k = Some x.
Proof. intros [_ Hin]%list_elem_of_filter. by rewrite in_order_permutation, elem_of_map_to_list in Hin. Qed.

Lemma length_writes (w : Write) : (length (puts w) + length (removes w))%nat = base.size w.
Proof. by rewrite <- length_app, (Permutation_length (puts_removes w)), length_map_to_list. Qed.

(** A change set is read back from what was written for it. *)
Lemma deserialise_internal_at c w pre rest extra :
  cs_writes c = ∅ -> fits_writes w ->
  deserialise_internal c (rd pre (changes_bytes w ++ rest) extra) =
  (Ok (set_cs_writes w c), rd (pre ++ changes_bytes w) rest extra).
Proof.
  intros Hc [Hsize Hw]. pose proof (length_writes w) as Hlen.
  assert (Forall (fun kv => fits kv.1 /\ fits (default [] kv.2) /\ is_Some kv.2) (puts w)) as Hputs.
  { apply Forall_forall. intros [k x] Hin. pose proof Hin as [Hx _]%list_elem_of_filter.
    destruct (Hw k x) as [??]; [by eapply elem_of_writes|done]. }
  assert (Forall (fun kv => fits kv.1 /\ kv.2 = None) (removes w)) as Hrem.
  { apply Forall_forall. intros [k x] Hin. pose proof Hin as [Hx _]%list_elem_of_filter.
    destruct (Hw k x) as [??]; [by eapply elem_of_writes|done]. }
  unfold deserialise_internal, changes_bytes, bind. rewrite <- !app_assoc.
  rewrite read_u64_at by done. simpl (_ =? _).
  change (u64 0) with (u64 (N.of_nat (length (@nil (bytes * option bytes))))) at 1.
  change (u64 (N.of_nat (length (puts w))) ++ concat (put_bytes <$> puts w) ++
          u64 (N.of_nat (length (removes w))) ++ concat (remove_bytes <$> removes w) ++ rest)%list
    with (concat (put_bytes <$> @nil (bytes * option bytes)) ++
          u64 (N.of_nat (length (puts w))) ++ concat (put_bytes <$> puts w) ++
          u64 (N.of_nat (length (removes w))) ++ concat (remove_bytes <$> removes w) ++ rest)%list.
  rewrite (read_counted_at put_bytes (fun c _ => c) _ (fun _ => False)).
  2:{ done. } 2:{ intros x. unfold put_bytes. rewrite length_app. pose proof (length_blob x.1). lia. }
  2:{ constructor. } 2:{ done. }
  rewrite (read_counted_at put_bytes
             (fun c kv => set_cs_writes (<[kv.1 := kv.2]> (cs_writes c)) c) _
             (fun kv => fits kv.1 /\ fits (default [] kv.2) /\ is_Some kv.2)).
  2:{ intros b [k x] pre' rest' extra' (Hk & Hx & y & Hy). cbn [fst snd default] in *. subst x.
      change (put_bytes (k, Some y)) with (blob k ++ blob y)%list. rewrite <- app_assoc. cbv beta.
      rewrite read_blob_at by done. rewrite read_blob_at by done. unfold ret. simpl.
      by rewrite <- app_assoc. }
  2:{ intros x. unfold put_bytes. rewrite length_app. pose proof (length_blob x.1). lia. }
  2:{ done. } 2:{ lia. }
  rewrite (read_counted_at remove_bytes
             (fun c kv => set_cs_writes (<[kv.1 := kv.2]> (cs_writes c)) c) _
             (fun kv => fits kv.1 /\ kv.2 = None)).
  2:{ intros b [k x] pre' rest' extra' (Hk & Hx). cbn [fst snd] in *. subst x.
      change (remove_bytes (k, None)) with (blob k). cbv beta. by rewrite read_blob_at by done. }
  2:{ intros x. unfold remove_bytes. pose proof (length_blob x.1). lia. }
  2:{ done. } 2:{ lia. }
  change (foldl (fun c _ => c) c []) with c.
  rewrite <- foldl_app, (foldl_set_writes (fun m kv => <[kv.1 := kv.2]> m)), Hc.
  rewrite (foldl_insert_perm w) by apply puts_removes. by rewrite <- !app_assoc.
Qed.
End RoundTrip.
