(* ===== verification/KvEntry.v ===== *)
(** * Key-value store: the ledger entry of a transaction

    The layout of an entry with an encrypted private domain, and that [init]
    of the reader finds in it what the writer put there. *)

From S2P Require Import Prelude ViewHistory TxStatus LedgerEntries KvMap KvSerialise KvRoundTrip.
From Stdlib Require Import Init.Byte Strings.Byte.

Open Scope N_scope.

(** What an [AbstractTxEncryptor] promises: the header has its fixed length,
    the cipher has the length of the plain text, and decryption with the same
    additional data gives back the plain text and, for an entry that is not a
    snapshot, the view. *)
Class EncryptorLaws (e : TxEncryptor) : Prop := {
  encrypt_decrypt plain aad txid et hint header cipher :
    @encrypt e plain aad txid et hint = Ok (Some (header, cipher)) ->
    N.of_nat (length header) = @get_header_length e /\ length cipher = length plain /\
    forall hint', exists term, @decrypt e cipher aad header (TxID.seqno txid) hint' = Ok (Some plain, term) /\
      (et <> Snapshot -> term = TxID.view txid);
}.

Module Entry.
Import Untyped Serialise RoundTrip.

Lemma write_parts_exact parts :
  write_parts (length (concat parts)) parts = Ok (concat parts).
Proof.
  induction parts as [|p parts IH]; [done|]. cbn [write_parts concat]. rewrite length_app.
  destruct (Nat.ltb_spec (length p + length (concat parts)) (length p)); [lia|].
  replace (length p + length (concat parts) - length p)%nat with (length (concat parts)) by lia.
  by rewrite IH.
Qed.

Lemma read_block_app n b rest : n = N.of_nat (length b) -> read_block n (b ++ rest) = Ok (b, rest).
Proof.
  intros ->. unfold read_block. rewrite length_app.
  destruct (N.ltb_spec (N.of_nat (length b + length rest)) (N.of_nat (length b))); [lia|].
  by rewrite Nat2N.id, take_app_length, drop_app_length.
Qed.

Lemma skip_app n b rest : n = N.of_nat (length b) -> skip n (b ++ rest) = Ok rest.
Proof.
  intros ->. unfold skip. rewrite length_app.
  destruct (N.ltb_spec (N.of_nat (length b + length rest)) (N.of_nat (length b))); [lia|].
  by rewrite Nat2N.id, drop_app_length.
Qed.

Lemma read_header_make_entry flags payload :
  flags < 256 -> N.of_nat (length payload) < 2 ^ BITS_FOR_SIZE ->
  read_header (make_entry flags payload) =
  Ok (mkHeader entry_format_v1 flags (N.of_nat (length payload)), payload).
Proof.
  intros Hf Hp. unfold read_header, make_entry.
  rewrite read_block_app by (by rewrite length_encode_header). by rewrite decode_encode_header.
Qed.

(** The start of the public domain. *)
Definition public_header (v : Version) (claims digest : bytes) : bytes :=
  (le_split 1 (entry_type_to_N WriteSetWithCommitEvidenceAndClaims) ++ u64 v ++ claims ++ digest ++ u64 0)%list.

Lemma new_serialiser_header txid claims digest :
  new_serialiser txid WriteSetWithCommitEvidenceAndClaims digest claims =
  mkSerialiser (public_header (TxID.seqno txid) claims digest) [] PUBLIC.
Proof.
  unfold new_serialiser, public_header, append_hash, append_u64, append_entry_type, u64. simpl has_claims.
  simpl has_commit_evidence. cbv iota. by rewrite app_nil_l, <- !app_assoc.
Qed.

Lemma read_public_header_at v claims digest rest extra :
  v < 2 ^ 64 -> length claims = 32%nat -> length digest = 32%nat ->
  read_public_header (rd [] (public_header v claims digest ++ rest) extra) =
  (Ok (v, Some claims, Some digest), rd (public_header v claims digest) rest extra).
Proof.
  intros Hv Hc Hd. unfold read_public_header, public_header, bind. rewrite <- !app_assoc.
  rewrite read_entry_type_at. rewrite read_u64_at by done. cbn [has_claims has_commit_evidence].
  change 32 with (N.of_nat 32). rewrite <- Hc at 1. rewrite read_array_at. unfold ret.
  rewrite <- Hd at 1. rewrite read_array_at. rewrite read_u64_at by done.
  by rewrite app_nil_l, <- !app_assoc.
Qed.

Section entry.
Context (e : TxEncryptor) `{HL : !EncryptorLaws e}.

(** The bytes of an entry. *)
Lemma serialise_domains_layout txid et flags hint public private data :
  serialise_domains (Some e) txid et flags hint public private = Ok data ->
  exists header cipher,
    @encrypt e private public txid et hint = Ok (Some (header, cipher)) /\
    N.of_nat (length (header ++ u64 (N.of_nat (length public)) ++ public ++ cipher)) < 2 ^ BITS_FOR_SIZE /\
    data = make_entry flags (header ++ u64 (N.of_nat (length public)) ++ public ++ cipher)%list.
Proof.
  unfold serialise_domains. set (size := _ + _). unfold set_size.
  destruct (N.ltb_spec size (N.shiftl 1 BITS_FOR_SIZE)) as [Hs|]; [|done].
  destruct (encrypt private public txid et hint) as [[[header cipher]|]|] eqn:He; [|done..].
  destruct (encrypt_decrypt _ _ _ _ _ _ _ He) as (Hh & Hc & _). intros Hw.
  assert (size = N.of_nat (length (header ++ u64 (N.of_nat (length public)) ++ public ++ cipher))) as Hsize.
  { subst size. rewrite !length_app, length_u64, Hc. lia. }
  exists header, cipher. split; [done|]. rewrite <- Hsize. split; [done|].
  unfold make_entry. rewrite <- Hsize.
  set (parts := [_; header; _; public; cipher]) in Hw. simpl header_version in parts.
  simpl header_flags in parts.
  assert (N.to_nat (size + 8) = length (concat parts)) as Hlen.
  { rewrite Hsize. unfold parts. cbn [concat].
    rewrite !length_app, length_encode_header, length_le_split, length_u64. simpl. lia. }
  rewrite Hlen, write_parts_exact in Hw. injection Hw as <-. unfold parts. cbn [concat].
  by rewrite app_nil_r.
Qed.

(** Reading an entry back: the version, the view, the flags and digests, and
    readers after the header of the public domain and at the start of the
    private one. *)
Lemma init_layout txid et flags hint hint' term hdr v claims digest rest private data :
  flags < 256 -> v = TxID.seqno txid ->
  (forall extra, read_public_header (rd [] (hdr ++ rest) extra) = (Ok (v, claims, digest), rd hdr rest extra)) ->
  serialise_domains (Some e) txid et flags hint (hdr ++ rest) private = Ok data ->
  exists cipher term',
    init (Some e) data term None hint' =
    Ok (Some (mkTxHeader v term' flags claims digest, mkDeserialiser (rd hdr rest cipher) (rd [] private []) false)) /\
    (et <> Snapshot -> term' = TxID.view txid).
Proof.
  intros Hf -> Hhdr Hser. set (public := (hdr ++ rest)%list) in *.
  apply serialise_domains_layout in Hser as (header & cipher & He & Hsize & ->).
  pose proof He as Hlaw. apply encrypt_decrypt in Hlaw as (Hh & Hlen & Hdec).
  destruct (Hdec hint') as (term' & Hd & Hterm). exists cipher, term'. split; [|done].
  unfold init. rewrite read_header_make_entry by done.
  cbn [header_size header_version header_flags]. rewrite N.eqb_refl. cbn [negb N.eqb].
  rewrite skip_app by done. rewrite read_block_app by (by rewrite length_u64).
  replace (take (N.to_nat get_header_length) _) with header
    by (rewrite <- Hh, Nat2N.id; by rewrite take_app_length).
  assert (N.of_nat (length public) < 2 ^ BITS_FOR_SIZE) as Hpub by (rewrite !length_app in Hsize; lia).
  rewrite combine_u64 by (change (2 ^ 64) with (65536 * 2 ^ BITS_FOR_SIZE); lia).
  change (init_reader (public ++ cipher) (N.of_nat (length public))) with (rd [] public cipher).
  rewrite Hhdr. simpl (bool_decide _). cbv iota.
  rewrite skip_app, Nat2N.id, take_app_length, Hd by done. unfold rd at 3. by rewrite !app_nil_r.
Qed.

Lemma init_entry txid flags hint hint' term claims digest rest private data :
  flags < 256 -> TxID.seqno txid < 2 ^ 64 -> length claims = 32%nat -> length digest = 32%nat ->
  serialise_domains (Some e) txid WriteSetWithCommitEvidenceAndClaims flags hint
    (public_header (TxID.seqno txid) claims digest ++ rest) private = Ok data ->
  exists cipher,
    init (Some e) data term None hint' =
    Ok (Some (mkTxHeader (TxID.seqno txid) (TxID.view txid) flags (Some claims) (Some digest),
              mkDeserialiser (rd (public_header (TxID.seqno txid) claims digest) rest cipher)
                (rd [] private []) false)).
Proof.
  intros Hf Hv Hc Hd Hser.
  destruct (init_layout txid _ flags hint hint' term _ _ (Some claims) (Some digest) rest private data Hf eq_refl
              (fun extra => read_public_header_at _ _ _ rest extra Hv Hc Hd) Hser) as (cipher & term' & Hi & Ht).
  exists cipher. by rewrite <- Ht.
Qed.

(** The start of the public domain of a snapshot. *)
Definition snapshot_header (v : Version) : bytes :=
  (le_split 1 (entry_type_to_N Snapshot) ++ u64 v ++ u64 0)%list.

Lemma new_serialiser_snapshot v :
  new_serialiser (TxID.mk 0 v) Snapshot [] [] = mkSerialiser (snapshot_header v) [] PUBLIC.
Proof. unfold new_serialiser, snapshot_header, append_u64, append_entry_type. done. Qed.

Lemma read_snapshot_header v rest extra : v < 2 ^ 64 ->
  read_public_header (rd [] (snapshot_header v ++ rest) extra) =
  (Ok (v, None, None), rd (snapshot_header v) rest extra).
Proof.
  intros Hv. unfold read_public_header, snapshot_header, bind. rewrite <- !app_assoc.
  rewrite read_entry_type_at, read_u64_at by done. unfold ret. cbn [has_claims has_commit_evidence].
  rewrite read_u64_at by done. by rewrite app_nil_l, <- !app_assoc.
Qed.
End entry.
End Entry.
