(* ===== verification/KvStore.v ===== *)
(** * Key-value store: the store

    [ccf::kv::Store] (src/kv/store.h) and [apply_changes]
    (src/kv/apply_changes.h): versions and terms, the maps, conflict checks and
    commits, compaction and rollback. Locks are left out: each definition is a
    section of code that runs under the locks it takes. *)

From S2P Require Import Prelude ViewHistory TxStatus LedgerEntries KvMap KvSerialise.

Open Scope N_scope.
Open Scope m_scope.

Inductive CommitResult := SUCCESS | FAIL_CONFLICT | FAIL_NO_REPLICATE.
#[export] Instance CommitResult_eq_dec : EqDecision CommitResult.
Proof. solve_decision. Defined.

Module KvStore.
Import Untyped.

(** ** Data *)

Section data.
Context (Hook : Type).

(** A map object on the heap: what a [shared_ptr<Map>] points to. *)
Abbreviation MapPtr := N (only parsing).

Record PendingTxInfo := mkPendingTxInfo {
  info_success : CommitResult;
  info_data : bytes;
  info_claims_digest : option bytes;
  info_commit_evidence_digest : bytes;
  info_hooks : list Hook;
}.

(** [MovePendingTx], and the signature transaction of src/node/history.h that
    runs when its turn comes. *)
Inductive PendingTx :=
| MovePendingTx (info : PendingTxInfo)
| SignaturePendingTx (txid : TxID.t).

Record BatchEntry := mkBatchEntry {
  batch_version : Version;
  batch_data : bytes;
  batch_committable : bool;
  batch_hooks : list Hook;
}.

(** Calls to the objects the store is connected to, and to global hooks. *)
Inductive StoreCall :=
| HistoryAppend (data : bytes) (commit_evidence_digest claims_digest : option bytes) (term : option N)
| HistoryRollback (tx_id : TxID.t) (term_of_next_version : N)
| HistoryCompact (v : Version)
| HistorySetTerm (t : N)
| HistoryInitFromSnapshot (hash : bytes)
| SnapshotterCommit (v : Version) (generate_snapshot : bool)
| SnapshotterRollback (v : Version)
| SnapshotterRecordCommittable (v : Version)
| ChunkerAppendEntrySize (n : N)
| ChunkerForceEndOfChunk (v : Version)
| ChunkerRolledBackTo (v : Version)
| ChunkerCompactedTo (v : Version)
| ChunkerProducedChunkAt (v : Version)
| EncryptorRollback (v : Version)
| ConsensusReplicate (batch : list BatchEntry) (view : N)
| GlobalHook (map_name : string) (v : Version) (writes : Write).

Record Store := mkStore {
  heap : gmap N (Map Hook);
  maps : gmap string (Version * MapPtr);
  version : Version;
  last_new_map : Version;
  compacted : Version;
  term_of_next_version : N;
  term_of_last_version : N;
  last_replicated : Version;
  last_committable : Version;
  rollback_count : Version;
  pending_txs : gmap N (PendingTx * bool);
  snapshot_at_next_signature : bool;         (* flags *)
  global_hooks : gset string;
  map_hooks : gmap string (Version -> Write -> option Hook);
  calls : list StoreCall;                    (* oldest first *)
}.
End data.
#[global] Arguments mkPendingTxInfo {Hook}.
#[global] Arguments info_success {Hook}. #[global] Arguments info_data {Hook}.
#[global] Arguments info_claims_digest {Hook}. #[global] Arguments info_hooks {Hook}.
#[global] Arguments info_commit_evidence_digest {Hook}.
#[global] Arguments MovePendingTx {Hook}. #[global] Arguments SignaturePendingTx {Hook}.
#[global] Arguments mkBatchEntry {Hook}. #[global] Arguments batch_version {Hook}.
#[global] Arguments batch_data {Hook}. #[global] Arguments batch_committable {Hook}.
#[global] Arguments batch_hooks {Hook}.
#[global] Arguments HistoryAppend {Hook}. #[global] Arguments HistoryRollback {Hook}.
#[global] Arguments HistoryCompact {Hook}. #[global] Arguments HistorySetTerm {Hook}.
#[global] Arguments HistoryInitFromSnapshot {Hook}.
#[global] Arguments SnapshotterCommit {Hook}. #[global] Arguments SnapshotterRollback {Hook}.
#[global] Arguments SnapshotterRecordCommittable {Hook}.
#[global] Arguments ChunkerAppendEntrySize {Hook}. #[global] Arguments ChunkerForceEndOfChunk {Hook}.
#[global] Arguments ChunkerRolledBackTo {Hook}. #[global] Arguments ChunkerCompactedTo {Hook}.
#[global] Arguments ChunkerProducedChunkAt {Hook}. #[global] Arguments EncryptorRollback {Hook}.
#[global] Arguments ConsensusReplicate {Hook}. #[global] Arguments GlobalHook {Hook}.
#[global] Arguments mkStore {Hook}. #[global] Arguments heap {Hook}. #[global] Arguments maps {Hook}.
#[global] Arguments version {Hook}. #[global] Arguments last_new_map {Hook}.
#[global] Arguments compacted {Hook}. #[global] Arguments term_of_next_version {Hook}.
#[global] Arguments term_of_last_version {Hook}. #[global] Arguments last_replicated {Hook}.
#[global] Arguments last_committable {Hook}. #[global] Arguments rollback_count {Hook}.
#[global] Arguments pending_txs {Hook}. #[global] Arguments snapshot_at_next_signature {Hook}.
#[global] Arguments global_hooks {Hook}. #[global] Arguments map_hooks {Hook}.
#[global] Arguments calls {Hook}.

(** The flags a store is constructed with, and the answers of the objects it
    is connected to, given the calls made so far. [signature_writes] are the values [MerkleTreeHistoryPendingTx]
    puts. *)
Class KvEnv (Hook : Type) := {
  encryptor : option TxEncryptor;
  strict_versions : bool;
  is_historical : bool;
  has_consensus : bool;
  consensus_is_primary : list (StoreCall Hook) -> bool;
  consensus_replicate : list (StoreCall Hook) -> bool;
  consensus_get_view_history : list (StoreCall Hook) -> Version -> list Version;
  has_history : bool;
  history_verify_root_signatures : list (StoreCall Hook) -> Version -> bool;
  history_init_from_snapshot : list (StoreCall Hook) -> bool;
  history_get_raw_leaf : list (StoreCall Hook) -> Version -> bytes;
  has_chunker : bool;
  chunker_is_chunk_end_requested : list (StoreCall Hook) -> Version -> bool;
  has_snapshotter : bool;
  snapshotter_record_committable : list (StoreCall Hook) -> bool;
  commit_evidence : TxID.t -> bytes;
  sha256 : bytes -> bytes;
  signature_writes : list (StoreCall Hook) -> TxID.t -> list (string * bytes * bytes);
}.

Section store.
Context {Hook : Type} `{HE : !KvEnv Hook}.
Abbreviation MapPtr := N (only parsing).
Abbreviation Store := (Store Hook).
Abbreviation StoreM := (M Store).

Definition eta_Store (s : Store) : Store :=
  mkStore (heap s) (maps s) (version s) (last_new_map s) (compacted s) (term_of_next_version s)
    (term_of_last_version s) (last_replicated s) (last_committable s) (rollback_count s)
    (pending_txs s) (snapshot_at_next_signature s) (global_hooks s) (map_hooks s) (calls s).
Definition set_heap v (s : Store) : Store := ltac:(set_field eta_Store (heap s) v s).
Definition set_maps v (s : Store) : Store := ltac:(set_field eta_Store (maps s) v s).
Definition set_version v (s : Store) : Store := ltac:(set_field eta_Store (version s) v s).
Definition set_last_new_map v (s : Store) : Store := ltac:(set_field eta_Store (last_new_map s) v s).
Definition set_compacted v (s : Store) : Store := ltac:(set_field eta_Store (compacted s) v s).
Definition set_term_of_next_version v (s : Store) : Store :=
  ltac:(set_field eta_Store (term_of_next_version s) v s).
Definition set_term_of_last_version v (s : Store) : Store :=
  ltac:(set_field eta_Store (term_of_last_version s) v s).
Definition set_last_replicated v (s : Store) : Store :=
  ltac:(set_field eta_Store (last_replicated s) v s).
Definition set_last_committable v (s : Store) : Store :=
  ltac:(set_field eta_Store (last_committable s) v s).
Definition set_rollback_count v (s : Store) : Store :=
  ltac:(set_field eta_Store (rollback_count s) v s).
Definition set_pending_txs v (s : Store) : Store := ltac:(set_field eta_Store (pending_txs s) v s).
Definition set_snapshot_at_next_signature v (s : Store) : Store :=
  ltac:(set_field eta_Store (snapshot_at_next_signature s) v s).
Definition set_global_hooks v (s : Store) : Store := ltac:(set_field eta_Store (global_hooks s) v s).
Definition set_map_hooks v (s : Store) : Store := ltac:(set_field eta_Store (map_hooks s) v s).
Definition set_calls v (s : Store) : Store := ltac:(set_field eta_Store (calls s) v s).

Definition init_Store : Store := mkStore ∅ ∅ 0 NoVersion 0 0 0 0 0 0 ∅ false ∅ ∅ [].

(** [StoreState::clear] *)
Definition clear (s : Store) : Store :=
  mkStore (heap s) ∅ 0 NoVersion 0 0 0 0 0 0 ∅ (snapshot_at_next_signature s) (global_hooks s)
    (map_hooks s) (calls s).

Definition call (c : StoreCall Hook) : StoreM unit := modify (fun s => set_calls (calls s ++ [c])%list s).

(** ** Map objects *)

(** A pointer that no object has. *)
Definition fresh_ptr (s : Store) : MapPtr := fresh (dom (heap s)).

Definition make_map (name : string) (domain : SecurityDomain) : StoreM MapPtr :=
  p <- gets fresh_ptr ;;;
  modify (fun s => set_heap (<[p := new_map name domain]> (heap s)) s) ;;;
  ret p.

(** [map->f()] *)
Definition on_map (p : MapPtr) (f : Map Hook -> Map Hook) : StoreM unit :=
  modify (fun s => set_heap (alter f p (heap s)) s).

(** [f] on every map of the store, in order. *)
Definition on_all_maps (f : Map Hook -> Map Hook) : StoreM unit :=
  ms <- gets (fun s => by_name (maps s)) ;;;
  for_each (fun e => on_map e.2.2 f) ms.

Definition get_map_internal (v : Version) (name : string) (s : Store) : option MapPtr :=
  match maps s !! name with
  | Some (map_creation_version, p) =>
      if (map_creation_version <=? v) || (map_creation_version =? NoVersion) then Some p else None
  | None => None
  end.

Definition add_dynamic_map (v : Version) (name : string) (p : MapPtr) : StoreM unit :=
  s <- gets id ;;;
  match get_map_internal v name s with
  | Some _ => throw (LogicError "Can't add dynamic map - already have a map")
  | None =>
      modify (fun s => set_maps (<[name := (v, p)]> (maps s)) s) ;;;
      when (bool_decide (name ∈ global_hooks s)) (on_map p (Untyped.set_global_hook true)) ;;;
      match map_hooks s !! name with
      | Some hook => on_map p (Untyped.set_map_hook (Some hook))
      | None => ret tt
      end
  end.

Definition set_map_hook (name : string) (hook : Version -> Write -> option Hook) : StoreM unit :=
  modify (fun s => set_map_hooks (<[name := hook]> (map_hooks s)) s) ;;;
  s <- gets id ;;;
  match maps s !! name with
  | Some (_, p) => on_map p (Untyped.set_map_hook (Some hook))
  | None => ret tt
  end.

Definition set_global_hook (name : string) : StoreM unit :=
  modify (fun s => set_global_hooks ({[name]} ∪ global_hooks s) s) ;;;
  s <- gets id ;;;
  match maps s !! name with
  | Some (_, p) => on_map p (Untyped.set_global_hook true)
  | None => ret tt
  end.

Definition unset_map_hook (name : string) : StoreM unit :=
  modify (fun s => set_map_hooks (delete name (map_hooks s)) s) ;;;
  s <- gets id ;;;
  match maps s !! name with
  | Some (_, p) => on_map p (Untyped.set_map_hook None)
  | None => ret tt
  end.

Definition unset_global_hook (name : string) : StoreM unit :=
  modify (fun s => set_global_hooks (global_hooks s ∖ {[name]}) s) ;;;
  s <- gets id ;;;
  match maps s !! name with
  | Some (_, p) => on_map p (Untyped.set_global_hook false)
  | None => ret tt
  end.

(** ** Versions *)

Definition current_txid (s : Store) : TxID.t := TxID.mk (term_of_last_version s) (version s).
Definition current_txid_and_commit_term (s : Store) : TxID.t * N :=
  (current_txid s, term_of_next_version s).

Definition int64_max : N := 2 ^ 63 - 1.

Definition next_version_unsafe : StoreM Version :=
  modify (fun s => set_version (version s + 1) s) ;;;
  modify (fun s => if int64_max <? version s then set_version 0 s else s) ;;;
  modify (fun s => set_term_of_last_version (term_of_next_version s) s) ;;;
  gets version.

(** [next_version(commit_new_map)] *)
Definition next_version (commit_new_map : bool) : StoreM (Version * Version) :=
  v <- next_version_unsafe ;;;
  previous_last_new_map <- gets last_new_map ;;;
  when commit_new_map (modify (set_last_new_map v)) ;;;
  ret (v, previous_last_new_map).

Definition next_txid : StoreM TxID.t :=
  next_version_unsafe ;;;
  gets (fun s => TxID.mk (term_of_next_version s) (version s)).

Definition check_rollback_count (count : Version) (s : Store) : bool := rollback_count s =? count.
Definition committable_gap (s : Store) : N := u64_sub (version s) (last_committable s).

(** ** apply_changes.h *)

Abbreviation OrderedChanges := (gmap string (MapPtr * AnyChangeSet)) (only parsing).
Abbreviation MapCollection := (gmap string MapPtr) (only parsing).

Definition any_writes (changes : OrderedChanges) : bool :=
  existsb (fun e => has_writes e.2.2) (by_name changes).

Definition prepare_all (changes : OrderedChanges) (s : Store) : bool :=
  forallb (fun e => match heap s !! e.2.1 with
                    | Some m => prepare e.2.2 m
                    | None => false
                    end) (by_name changes).

(** One map's [commit], recording the version the committer keeps. *)
Definition commit_map (v : Version) (track : bool) (p : MapPtr) (c : AnyChangeSet) : StoreM Version :=
  s <- gets id ;;;
  match heap s !! p with
  | Some m =>
      let '(m', commit_version) := commit v track c m in
      modify (fun s => set_heap (<[p := m']> (heap s)) s) ;;; ret commit_version
  | None => throw OutOfBounds
  end.

Fixpoint commit_all (v : Version) (track : bool) (l : list (string * (MapPtr * AnyChangeSet)))
  : StoreM (list (Version * MapPtr * AnyChangeSet)) :=
  match l with
  | [] => ret []
  | (_, (p, c)) :: l =>
      cv <- commit_map v track p c ;;;
      rest <- commit_all v track l ;;;
      ret ((cv, p, c) :: rest)
  end.

Definition post_commit_hooks (l : list (Version * MapPtr * AnyChangeSet)) (s : Store) : list Hook :=
  omap (fun '(cv, p, c) => match heap s !! p with
                           | Some m => post_commit cv c m
                           | None => None
                           end) l.

Definition apply_changes (changes : OrderedChanges) (version_resolver_fn : bool -> StoreM (Version * Version))
    (new_maps : MapCollection) (new_maps_conflict_version : option Version)
    (track_deletes_on_missing_keys : bool) (expected_rollback_count : option Version)
  : StoreM (option Version * list Hook) :=
  s <- gets id ;;;
  let has_writes := any_writes changes in
  let ok := match expected_rollback_count with
            | Some count => if bool_decide (changes = ∅) then true else check_rollback_count count s
            | None => true
            end in
  let ok := if ok && has_writes then prepare_all changes s else ok in
  let current_v := default (version s) new_maps_conflict_version in
  let ok := ok && forallb (fun e => bool_decide (get_map_internal current_v e.1 s = None)) (by_name new_maps) in
  if ok && has_writes then
    r <- version_resolver_fn (negb (bool_decide (new_maps = ∅))) ;;;
    let '(v, _) := r in
    for_each (fun e => match changes !! e.1 with
                       | Some (_, c) => when (Untyped.has_writes c) (add_dynamic_map v e.1 e.2)
                       | None => ret tt
                       end) (by_name new_maps) ;;;
    committed <- commit_all v track_deletes_on_missing_keys (by_name changes) ;;;
    hooks <- gets (post_commit_hooks committed) ;;;
    ret (Some v, hooks)
  else ret (if ok then Some NoVersion else None, []).

(** ** Compaction and rollback *)

(** [post_compact] of one map: the global hook is called on each delta. *)
Definition post_compact_map (name : string) (p : MapPtr) : StoreM unit :=
  s <- gets id ;;;
  match heap s !! p with
  | Some m =>
      let '(deltas, m') := post_compact m in
      for_each (fun d => call (GlobalHook name d.1 d.2)) deltas ;;;
      modify (fun s => set_heap (<[p := m']> (heap s)) s)
  | None => ret tt
  end.

Definition compact (v : Version) : StoreM unit :=
  cs <- gets calls ;;;
  when has_snapshotter (call (SnapshotterCommit v (has_consensus && consensus_is_primary cs))) ;;;
  when has_chunker (call (ChunkerCompactedTo v)) ;;;
  current <- gets version ;;;
  if current <? v then ret tt
  else
    on_all_maps (Untyped.compact v) ;;;
    modify (set_compacted v) ;;;
    when has_history (call (HistoryCompact v)) ;;;
    ms <- gets (fun s => by_name (maps s)) ;;;
    for_each (fun e => post_compact_map e.1 e.2.2) ms.

Definition rollback (tx_id : TxID.t) (term_of_next_version_ : N) : StoreM unit :=
  when has_snapshotter (call (SnapshotterRollback (TxID.seqno tx_id))) ;;;
  when has_chunker (call (ChunkerRolledBackTo (TxID.seqno tx_id))) ;;;
  s <- gets id ;;;
  if TxID.seqno tx_id <? compacted s
  then throw (LogicError "Attempting rollback to earlier than commit version")
  else
    modify (set_term_of_next_version term_of_next_version_) ;;;
    modify (set_term_of_last_version (TxID.view tx_id)) ;;;
    when has_history (call (HistoryRollback tx_id term_of_next_version_)) ;;;
    if version s <=? TxID.seqno tx_id then ret tt
    else
      modify (fun s =>
        set_pending_txs ∅
          (set_rollback_count (rollback_count s + 1)
             (set_snapshot_at_next_signature false
                (set_last_committable (N.min (last_committable s) (TxID.seqno tx_id))
                   (set_last_replicated (TxID.seqno tx_id)
                      (set_version (TxID.seqno tx_id) s)))))) ;;;
      when (bool_decide (is_Some encryptor)) (call (EncryptorRollback (TxID.seqno tx_id))) ;;;
      on_all_maps (Untyped.rollback (TxID.seqno tx_id)) ;;;
      modify (fun s => set_maps (filter (fun e => e.2.1 <= TxID.seqno tx_id) (maps s)) s).

Definition initialise_term (t : N) : StoreM unit :=
  current <- gets term_of_next_version ;;;
  if negb (current =? 0) then throw (LogicError "term_of_next_version is already initialised")
  else
    modify (set_term_of_next_version t) ;;;
    when has_history (call (HistorySetTerm t)).

(** ** Ledger chunks and snapshots *)

Definition should_create_ledger_chunk_unsafe (v : Version) : StoreM bool :=
  cs <- gets calls ;;;
  let r := has_chunker && chunker_is_chunk_end_requested cs v in
  if has_snapshotter then
    call (SnapshotterRecordCommittable v) ;;;
    cs <- gets calls ;;;
    ret (r || snapshotter_record_committable cs)
  else
    flag <- gets snapshot_at_next_signature ;;;
    ret (r || flag).

(** [operator==] *)
Definition store_eqb (a b : Store) : bool :=
  (version a =? version b) && (base.size (maps a) =? base.size (maps b))%nat &&
  forallb (fun '(name, (this_v, this_p)) =>
    match maps b !! name with
    | Some (that_v, that_p) =>
        (this_v =? that_v) &&
        match heap a !! this_p, heap b !! that_p with
        | Some m1, Some m2 => map_eqb m1 m2
        | _, _ => false
        end
    | None => false
    end) (by_name (maps a)).

End store.
End KvStore.
