(* ===== verification/KvTx.v ===== *)
(** * Key-value store: transactions

    [BaseTx] (include/ccf/tx.h, src/kv/tx.cpp), [CommittableTx] and
    [ReservedTx] (src/kv/committable_tx.h) and [Store::commit]
    (src/kv/store.h), which hands contiguous transactions to consensus. *)

From S2P Require Import Prelude ViewHistory TxStatus LedgerEntries KvMap KvHandle KvSerialise KvStore.

Open Scope N_scope.
Open Scope m_scope.

Module KvTx.
Import Untyped Serialise KvStore.

(** [all_handles] is left out: every handle of a map refers to its one change
    set. The three flags are those of [TxFlag]. *)
Record Tx := mkTx {
  all_changes : gmap string (N * AnyChangeSet);
  read_txid : option TxID.t;
  commit_view : N;
  created_maps : gmap string N;
  committed : bool;
  success : bool;
  tx_version : Version;
  chunk_at_next_signature : bool;
  snapshot_at_next_signature_tx : bool;
  chunk_before_this_tx : bool;
  entry_flags : N;
}.

Definition eta_Tx (t : Tx) : Tx :=
  mkTx (all_changes t) (read_txid t) (commit_view t) (created_maps t) (committed t) (success t)
    (tx_version t) (chunk_at_next_signature t) (snapshot_at_next_signature_tx t)
    (chunk_before_this_tx t) (entry_flags t).
Definition set_all_changes v (t : Tx) : Tx := ltac:(set_field eta_Tx (all_changes t) v t).
Definition set_read_txid v (t : Tx) : Tx := ltac:(set_field eta_Tx (read_txid t) v t).
Definition set_commit_view v (t : Tx) : Tx := ltac:(set_field eta_Tx (commit_view t) v t).
Definition set_created_maps v (t : Tx) : Tx := ltac:(set_field eta_Tx (created_maps t) v t).
Definition set_committed v (t : Tx) : Tx := ltac:(set_field eta_Tx (committed t) v t).
Definition set_success v (t : Tx) : Tx := ltac:(set_field eta_Tx (success t) v t).
Definition set_tx_version v (t : Tx) : Tx := ltac:(set_field eta_Tx (tx_version t) v t).
Definition set_snapshot_at_next_signature_tx v (t : Tx) : Tx :=
  ltac:(set_field eta_Tx (snapshot_at_next_signature_tx t) v t).
Definition set_entry_flags v (t : Tx) : Tx := ltac:(set_field eta_Tx (entry_flags t) v t).

Definition new_tx : Tx := mkTx ∅ None VIEW_UNKNOWN ∅ false false NoVersion false false false 0.

(** The constructor of [ReservedTx]. *)
Definition reserved_tx (read_term : N) (reserved_tx_id : TxID.t) : Tx :=
  set_tx_version (TxID.seqno reserved_tx_id)
    (set_commit_view (TxID.view reserved_tx_id)
       (set_read_txid (Some (TxID.mk read_term (u64_sub (TxID.seqno reserved_tx_id) 1))) new_tx)).

Section tx.
Context {Hook : Type} `{HE : !KvEnv Hook}.
Abbreviation Store := (Store Hook).
Abbreviation StoreM := (M Store).
Abbreviation TxM := (M (Store * Tx)).

Definition on_store {A} (m : StoreM A) : TxM A := fun '(s, t) =>
  let '(r, s') := m s in (r, (s', t)).
Definition upd_tx (f : Tx -> Tx) : TxM unit := modify (fun '(s, t) => (s, f t)).
Definition get_tx {A} (f : Tx -> A) : TxM A := gets (fun st => f st.2).
Definition get_store {A} (f : Store -> A) : TxM A := gets (fun st => f st.1).

(** ** Handles *)

Definition get_map_and_change_set_by_name (name : string) (track : bool) : TxM (N * option ChangeSet) :=
  txid <- get_tx read_txid ;;;
  when (bool_decide (txid = None))
    (p <- get_store current_txid_and_commit_term ;;;
     upd_tx (set_read_txid (Some p.1)) ;;;
     upd_tx (set_commit_view p.2)) ;;;
  txid <- get_tx read_txid ;;;
  let seqno := match txid with Some i => TxID.seqno i | None => 0 end in
  found <- get_store (get_map_internal seqno name) ;;;
  p <- match found with
       | Some p => ret p
       | None =>
           created <- get_tx created_maps ;;;
           if bool_decide (is_Some (created !! name))
           then throw (LogicError "Created map without creating handle over it")
           else
             p <- on_store (make_map name (get_security_domain name)) ;;;
             upd_tx (set_created_maps (<[name := p]> created)) ;;;
             ret p
       end ;;;
  h <- get_store heap ;;;
  ret (p, h !! p ≫= create_change_set seqno track).

(** [get_handle_by_name]: the change set of the map is in [all_changes]
    afterwards. *)
Definition get_handle_by_name (name : string) (track : bool) : TxM unit :=
  changes <- get_tx all_changes ;;;
  if bool_decide (is_Some (changes !! name)) then ret tt
  else
    r <- get_map_and_change_set_by_name name track ;;;
    match r with
    | (_, None) => throw CompactedVersionConflict
    | (p, Some c) => upd_tx (set_all_changes (<[name := (p, Changes c)]> changes))
    end.

(** An operation of the handle over a map. *)
Definition use_handle {A} (name : string) (m : M ChangeSet A) : TxM A :=
  get_handle_by_name name false ;;;
  changes <- get_tx all_changes ;;;
  match changes !! name with
  | Some (p, Changes c) =>
      let '(r, c') := m c in
      upd_tx (set_all_changes (<[name := (p, Changes c')]> changes)) ;;;
      lift r
  | _ => throw OutOfBounds
  end.

(** ** Serialisation *)

(** The body of the loop over security domains. *)
Definition serialise_domain (domain : SecurityDomain)
    (changes : list (string * (N * AnyChangeSet))) (h : gmap N (Map Hook)) : M Serialiser unit :=
  for_each (fun '(name, (p, c)) =>
    match h !! p, c with
    | Some m, Changes cs =>
        when (bool_decide (security_domain m = domain) && has_writes c)
          (serialise_changes encryptor name (security_domain m) cs false)
    | _, _ => ret tt
    end) changes.

(** [serialise]: the entry (empty when nothing was written) and the digest of
    the commit evidence. *)
Definition serialise (claims_digest : option bytes) : TxM (bytes * bytes) :=
  t <- get_tx id ;;;
  h <- get_store heap ;;;
  if negb (committed t) then throw (LogicError "Transaction not yet committed")
  else if negb (success t) then throw (LogicError "Transaction aborted")
  else
    match claims_digest with
    | None => throw (LogicError "Missing claims")
    | Some claims =>
        if negb (any_writes (all_changes t)) then ret ([], [])
        else if negb (bool_decide (is_Some encryptor)) then throw KvSerialiserException
        else
          let txid := TxID.mk (commit_view t) (tx_version t) in
          let digest := sha256 (commit_evidence txid) in
          let entry_type := WriteSetWithCommitEvidenceAndClaims in
          when (chunk_before_this_tx t)
            (upd_tx (fun t => set_entry_flags (N.lor (entry_flags t) FORCE_LEDGER_CHUNK_BEFORE) t)) ;;;
          flags <- get_tx entry_flags ;;;
          let changes := by_name (all_changes t) in
          match (serialise_domain PUBLIC changes h ;;; serialise_domain PRIVATE changes h)
                  (new_serialiser txid entry_type digest claims) with
          | (Throw e, _) => throw e
          | (Ok _, s) =>
              data <- lift (serialise_domains encryptor txid entry_type flags false
                              (public_writer s) (private_writer s)) ;;;
              ret (data, digest)
          end
    end.

(** ** Reserved transactions *)

Definition empty_claims : option bytes := Some (replicate 32 Byte.x00).

Definition commit_reserved (reserved_rollback_count : Version) : TxM (PendingTxInfo Hook) :=
  t <- get_tx id ;;;
  if committed t then throw (LogicError "Transaction already committed")
  else if bool_decide (all_changes t = ∅)
  then throw (LogicError "Reserved transaction cannot be empty")
  else
    c <- on_store (apply_changes (all_changes t)
                     (fun _ => ret (tx_version t, u64_sub (tx_version t) 1)) (created_maps t)
                     (Some (tx_version t)) false (Some reserved_rollback_count)) ;;;
    let '(v, hooks) := c in
    upd_tx (set_success (bool_decide (is_Some v))) ;;;
    match v with
    | None =>
        same <- get_store (check_rollback_count reserved_rollback_count) ;;;
        if same : bool then throw (LogicError "Failed to commit reserved transaction")
        else
          upd_tx (set_committed true) ;;;
          ret (mkPendingTxInfo FAIL_NO_REPLICATE [] empty_claims [] [])
    | Some _ =>
        chunk <- on_store (should_create_ledger_chunk_unsafe (tx_version t)) ;;;
        when chunk
          (upd_tx (fun t => set_entry_flags (N.lor (entry_flags t) FORCE_LEDGER_CHUNK_AFTER) t) ;;;
           when has_chunker (on_store (call (ChunkerProducedChunkAt (tx_version t))))) ;;;
        upd_tx (set_committed true) ;;;
        r <- serialise empty_claims ;;;
        let '(data, digest) := r in
        ret (mkPendingTxInfo SUCCESS data empty_claims digest hooks)
    end.

(** [MerkleTreeHistoryPendingTx::call] (src/node/history.h): a reserved
    transaction with the signature over the tree. *)
Definition call_signature (txid : TxID.t) : StoreM (PendingTxInfo Hook) := fun s =>
  let t := reserved_tx (term_of_last_version s) txid in
  let count := rollback_count s in
  let '(r, (s', _)) :=
    (for_each (fun '(name, key, value) => use_handle name (MapHandle.put key value))
       (signature_writes (calls s) txid) ;;;
     commit_reserved count) (s, t) in
  (r, s').

Definition call_pending (p : PendingTx Hook) : StoreM (PendingTxInfo Hook) :=
  match p with
  | MovePendingTx info => ret info
  | SignaturePendingTx txid => call_signature txid
  end.

(** ** Store::commit *)

(** The transactions that follow [last_replicated] without a gap, and those
    left. *)
Fixpoint take_contiguous (fuel : nat) (next : Version) (pending : gmap N (PendingTx Hook * bool))
  : list (PendingTx Hook * bool) * gmap N (PendingTx Hook * bool) :=
  match fuel with
  | O => ([], pending)
  | S fuel =>
      match pending !! next with
      | None => ([], pending)
      | Some p =>
          let '(l, rest) := take_contiguous fuel (next + 1) (delete next pending) in (p :: l, rest)
      end
  end.

Record Dequeued := mkDequeued {
  contiguous_pending_txs : list (PendingTx Hook * bool);
  previous_last_replicated : Version;
  next_last_replicated : Version;
  previous_rollback_count : Version;
  replication_view : N;
}.

(** The first section of [commit] under the version lock. *)
Definition commit_dequeue (txid : TxID.t) (pending_tx : PendingTx Hook) (globally_committable : bool)
  : StoreM (option Dequeued) :=
  s <- gets id ;;;
  if negb (TxID.view txid =? term_of_next_version s) && consensus_is_primary (calls s) then ret None
  else
    when (globally_committable && (last_committable s <? TxID.seqno txid))
      (modify (set_last_committable (TxID.seqno txid))) ;;;
    (* unordered_map::insert keeps an entry that is present *)
    let pending := match pending_txs s !! TxID.seqno txid with
                   | Some _ => pending_txs s
                   | None => <[TxID.seqno txid := (pending_tx, globally_committable)]> (pending_txs s)
                   end in
    let '(l, rest) := take_contiguous (S (base.size pending)) (last_replicated s + 1) pending in
    modify (set_pending_txs rest) ;;;
    ret (Some (mkDequeued l (last_replicated s) (last_replicated s + N.of_nat (length l))
                 (rollback_count s) (term_of_next_version s))).

(** The loop that calls the pending transactions; [None] when one may not
    replicate. *)
Fixpoint execute_pending (view : N) (v : Version) (l : list (PendingTx Hook * bool)) (batch : list (BatchEntry Hook))
  : StoreM (option (list (BatchEntry Hook))) :=
  match l with
  | [] => ret (Some batch)
  | (pending_tx, committable) :: l =>
      info <- call_pending pending_tx ;;;
      if bool_decide (info_success info = FAIL_NO_REPLICATE) then ret None
      else
        when has_history
          (call (HistoryAppend (info_data info) (Some (info_commit_evidence_digest info))
                   (info_claims_digest info) (Some view))) ;;;
        when has_chunker (call (ChunkerAppendEntrySize (N.of_nat (length (info_data info))))) ;;;
        execute_pending view (v + 1) l
          (batch ++ [mkBatchEntry v (info_data info) committable (info_hooks info)])
  end.

Definition commit_replicate (d : Dequeued) (batch : list (BatchEntry Hook)) : StoreM CommitResult :=
  call (ConsensusReplicate batch (replication_view d)) ;;;
  s <- gets id ;;;
  if consensus_replicate (calls s) then
    when ((last_replicated s =? previous_last_replicated d) &&
          (previous_rollback_count d =? rollback_count s))
      (modify (set_last_replicated (next_last_replicated d))) ;;;
    ret SUCCESS
  else ret FAIL_NO_REPLICATE.

Definition store_commit (txid : TxID.t) (pending_tx : PendingTx Hook) (globally_committable : bool)
  : StoreM CommitResult :=
  if negb has_consensus then ret SUCCESS
  else
    d <- commit_dequeue txid pending_tx globally_committable ;;;
    match d with
    | None => ret FAIL_NO_REPLICATE
    | Some d =>
        match contiguous_pending_txs d with
        | [] => ret SUCCESS
        | _ =>
            batch <- execute_pending (replication_view d) (previous_last_replicated d + 1)
                       (contiguous_pending_txs d) [] ;;;
            match batch with
            | None => ret FAIL_NO_REPLICATE
            | Some batch => commit_replicate d batch
            end
        end
    end.

(** [HashedTxHistory::emit_signature] (src/node/history.h), given whether the
    history has been told of an endorsed certificate and of a signing
    identity. *)
Definition emit_signature (endorsed_cert signing_identity : bool) : StoreM unit :=
  if negb has_consensus then ret tt
  else if negb endorsed_cert then throw (LogicError "No endorsed certificate set to emit signature")
  else
    txid <- next_txid ;;;
    if negb signing_identity then throw (LogicError "No service key has been set yet to sign")
    else store_commit txid (SignaturePendingTx txid) true ;;; ret tt.

(** ** CommittableTx::commit *)

(** The part before the entry is serialised: [None] for a conflict. *)
Definition tx_applied (t : Tx) (c : option Version * list Hook) : TxM (option (list Hook)) :=
  let '(v, hooks) := c in
  upd_tx (set_success (bool_decide (is_Some v))) ;;;
  match v with
  | None => ret None
  | Some v =>
      upd_tx (set_committed true) ;;;
      upd_tx (set_tx_version v) ;;;
      when (chunk_at_next_signature t && has_chunker) (on_store (call (ChunkerForceEndOfChunk v))) ;;;
      when (snapshot_at_next_signature_tx t)
        (on_store (modify (set_snapshot_at_next_signature true)) ;;;
         upd_tx (set_snapshot_at_next_signature_tx false)) ;;;
      ret (Some hooks)
  end.

Definition tx_apply : TxM (option (list Hook)) :=
  t <- get_tx id ;;;
  c <- on_store (apply_changes (all_changes t) next_version (created_maps t) None false None) ;;;
  tx_applied t c.

(** The part that follows; any exception is rethrown as one type. *)
Definition tx_replicate (claims : option bytes) (hooks : list Hook) : TxM CommitResult := fun st =>
  match (r <- serialise claims ;;;
         let '(data, digest) := r in
         if bool_decide (data = []) then ret SUCCESS
         else
           t <- get_tx id ;;;
           on_store (store_commit (TxID.mk (commit_view t) (tx_version t))
                       (MovePendingTx (mkPendingTxInfo SUCCESS data claims digest hooks)) false)) st with
  | (Ok r, st') => (Ok r, st')
  | (Throw _, (s', t')) => (Throw KvSerialiserException, (s', set_committed false t'))
  end.

Definition tx_commit (claims : option bytes) : TxM CommitResult :=
  t <- get_tx id ;;;
  if committed t then throw (LogicError "Transaction already committed")
  else if bool_decide (all_changes t = ∅) then
    upd_tx (set_committed true) ;;; upd_tx (set_success true) ;;; ret SUCCESS
  else
    hooks <- tx_apply ;;;
    match hooks with
    | None => ret FAIL_CONFLICT
    | Some hooks =>
        v <- get_tx tx_version ;;;
        if v =? NoVersion then ret SUCCESS else tx_replicate claims hooks
    end.

Definition get_txid : TxM (option TxID.t) :=
  t <- get_tx id ;;;
  if negb (committed t) then throw (LogicError "Transaction not yet committed")
  else match read_txid t with
       | None => ret None
       | Some i => ret (Some (if tx_version t =? NoVersion then i
                              else TxID.mk (commit_view t) (tx_version t)))
       end.

End tx.
End KvTx.
