(* ===== verification/KvApply.v ===== *)
(** * Key-value store: applying serialised transactions and snapshots

    [fill_maps], [commit_deserialised], [snapshot_unsafe_maps],
    [deserialise_snapshot] and [swap_private_maps] of [ccf::kv::Store]
    (src/kv/store.h), [CFTExecutionWrapper] (src/kv/deserialise.h),
    [StoreSnapshot] (src/kv/snapshot.h) and the serialised form of a map's
    state (src/kv/untyped_map.h, src/kv/untyped_change_set.h,
    src/ds/champ_map.h). *)

From S2P Require Import Prelude ViewHistory TxStatus LedgerEntries Champ RaftTypes.
From S2P Require Import KvMap KvHandle KvSerialise KvStore.

Open Scope N_scope.
Open Scope m_scope.

Module KvApply.
Import Untyped Serialise KvStore.

(** ** The serialised state of a map *)


(** The bytes [data, data + n), and what follows them. *)
Definition append_range (n : N) (data : bytes) : result (bytes * bytes) :=
  if N.of_nat (length data) <? n then Throw OutOfBounds
  else Ok (take (N.to_nat n) data, drop (N.to_nat n) data).

(** [map::deserialize<SerialisedEntry>] with its padding. *)
Definition deserialize_key (data : bytes) : result (bytes * bytes) :=
  match read_block 8 data with
  | Throw e => Throw e
  | Ok (len, data) =>
      let data_size := le_combine len in
      match append_range data_size data with
      | Throw e => Throw e
      | Ok (key, data) =>
          match skip (Champ.get_padding (8 + data_size)) data with
          | Throw e => Throw e
          | Ok data => Ok (key, data)
          end
      end
  end.

(** [map::deserialize<VersionV>] with its padding; [read_version] is not part
    of the serialised form. *)
Definition deserialize_value (data : bytes) : result (VersionV * bytes) :=
  match read_block 8 data with
  | Throw e => Throw e
  | Ok (len, data) =>
      match read_block 8 data with
      | Throw e => Throw e
      | Ok (ver, data) =>
          let data_size := u64_sub (le_combine len) 8 in
          match append_range data_size data with
          | Throw e => Throw e
          | Ok (value, data) =>
              match skip (Champ.get_padding (16 + data_size)) data with
              | Throw e => Throw e
              | Ok data => Ok (mkVersionV (le_combine ver) 0 value, data)
              end
          end
      end
  end.

(** The loop of [deserialize_map_snapshot]; a version with the top bit set
    stands for a deletion in old snapshots. *)
Fixpoint deserialize_map_snapshot_loop (fuel : nat) (data : bytes) (map : State) : result State :=
  match data, fuel with
  | [], _ => Ok map
  | _, O => Throw OutOfFuel
  | _, S fuel =>
      match deserialize_key data with
      | Throw e => Throw e
      | Ok (key, data) =>
          match deserialize_value data with
          | Throw e => Throw e
          | Ok (value, data) =>
              deserialize_map_snapshot_loop fuel data
                (if vv_version value <? 2 ^ 63 then <[key := value]> map else map)
          end
      end
  end.

Definition deserialize_map_snapshot (data : bytes) : result State :=
  deserialize_map_snapshot_loop (length data) data ∅.

(** [map::serialize] of keys and of values. *)
Definition serialize_key (k : bytes) : bytes := (le_split 8 (N.of_nat (length k)) ++ k)%list.
Definition serialize_value (v : VersionV) : bytes :=
  (le_split 8 (8 + N.of_nat (length (vv_value v))) ++ le_split 8 (vv_version v) ++ vv_value v)%list.

(** [map::get_size] of keys and of values. *)
Definition key_size (k : bytes) : N := 8 + N.of_nat (length k).
Definition value_size (v : VersionV) : N := 16 + N.of_nat (length (vv_value v)).

(** [map::add_padding] after an object of [n] bytes. *)
Definition padding (n : nat) : bytes := replicate (N.to_nat (Champ.get_padding (Champ.u32 (N.of_nat n)))) Byte.x00.

(** [champ::Snapshot::serialize] of a state, into a buffer of the size the map
    has kept. The sizes of a key and of its value are added as 32-bit
    integers. *)
Definition serialize_state `{!StateOrder} (s : State) : result bytes :=
  let ordered_state := snapshot_entries s in
  let serialized_size :=
    foldl (fun n e => n + Champ.u32 (Champ.size_with_padding (key_size e.1) +
                                     Champ.size_with_padding (value_size e.2))) 0 ordered_state in
  let map_serialized_size :=
    foldl (fun n e => n + Champ.entry_size key_size value_size e) 0 ordered_state in
  if negb (serialized_size =? map_serialized_size) then Throw AssertionFailure
  else
    write_parts (N.to_nat serialized_size)
      (concat ((fun e => [serialize_key e.1; padding (length (serialize_key e.1));
                          serialize_value e.2; padding (length (serialize_value e.2))]) <$> ordered_state)).

Section apply.
Context {Hook : Type} `{HE : !KvEnv Hook} `{HO : !StateOrder}.
Abbreviation Store := (Store Hook).
Abbreviation StoreM := (M Store).
Abbreviation ReadM := (M (Store * Deserialiser)).

Definition of_store {A} (m : StoreM A) : ReadM A := fun '(s, d) =>
  let '(r, s') := m s in (r, (s', d)).
Definition of_reader {A} (m : M Deserialiser A) : ReadM A := fun '(s, d) =>
  let '(r, d') := m d in (r, (s, d')).

Definition readable (d : Deserialiser) : nat :=
  length (reader_mem (public_reader d)) + length (reader_mem (private_reader d)).

(** ** fill_maps *)

(** The loop over the maps of the entry; [None] for a second change to a map. *)
Fixpoint fill_maps_loop (fuel : nat) (v : Version) (changes : gmap string (N * AnyChangeSet))
    (new_maps : gmap string N) : ReadM (option (gmap string (N * AnyChangeSet) * gmap string N)) :=
  match fuel with
  | O => throw OutOfFuel
  | S fuel =>
      r <- of_reader next_map ;;;
      match r with
      | None => ret (Some (changes, new_maps))
      | Some name =>
          found <- gets (fun st => get_map_internal v name st.1) ;;;
          pn <- match found with
                | Some p => ret (p, new_maps)
                | None => p <- of_store (make_map name (get_security_domain name)) ;;;
                          ret (p, <[name := p]> new_maps)
                end ;;;
          let '(p, new_maps) := pn in
          if bool_decide (is_Some (changes !! name)) then ret None
          else
            h <- gets (fun st => heap st.1) ;;;
            match h !! p ≫= create_change_set v false with
            | None => throw (LogicError "Can't create change set")
            | Some c =>
                c <- of_reader (on_current (deserialise_internal c)) ;;;
                fill_maps_loop fuel v (<[name := (p, Changes c)]> changes) new_maps
            end
      end
  end.

(** What [fill_maps] leaves in its reference arguments. *)
Record Filled := mkFilled {
  filled_header : Header;
  filled_changes : gmap string (N * AnyChangeSet);
  filled_new_maps : gmap string N;
}.

Definition restriction (public_only : bool) : option SecurityDomain :=
  if public_only then Some PUBLIC else None.

Definition fill_maps (data : bytes) (public_only ignore_strict_versions : bool)
  : StoreM (option Filled) :=
  i <- lift (init encryptor data 0 (restriction public_only) is_historical) ;;;
  match i with
  | None => ret None
  | Some (hdr, d) =>
      let v := hdr_version hdr in
      s <- gets id ;;;
      KvStore.rollback (TxID.mk (term_of_last_version s) (u64_sub v 1)) (term_of_next_version s) ;;;
      current <- gets version ;;;
      if strict_versions && negb ignore_strict_versions && negb (current =? u64_sub v 1) then ret None
      else fun s =>
        let '(r, (s', d')) := fill_maps_loop (S (readable d)) v ∅ ∅ (s, d) in
        match r with
        | Throw e => (Throw e, s')
        | Ok None => (Ok None, s')
        | Ok (Some (changes, new_maps)) =>
            (Ok (if end_ d' then Some (mkFilled hdr changes new_maps) else None), s')
        end
  end.

Definition commit_deserialised (changes : gmap string (N * AnyChangeSet)) (v : Version) (term : N)
    (new_maps : gmap string N) (track_deletes_on_missing_keys : bool) : StoreM (option (list Hook)) :=
  c <- apply_changes changes (fun _ => ret (v, u64_sub v 1)) new_maps None
         track_deletes_on_missing_keys None ;;;
  match c with
  | (None, _) => ret None
  | (Some _, hooks) =>
      modify (set_version v) ;;;
      modify (fun s => set_last_replicated (version s) s) ;;;
      modify (set_term_of_last_version term) ;;;
      ret (Some hooks)
  end.

(** ** deserialise.h *)

Definition SIGNATURES : string := "public:ccf.internal.signatures".
Definition COSE_SIGNATURES : string := "public:ccf.internal.cose_signatures".
Definition SERIALISED_MERKLE_TREE : string := "public:ccf.internal.tree".
Definition ENCRYPTED_PAST_LEDGER_SECRET : string :=
  "public:ccf.internal.historical_encrypted_ledger_secret".

Definition written_to {A} (name : string) (changes : gmap string A) : bool :=
  bool_decide (is_Some (changes !! name)).

(** The [switch] over the number of tables a signature transaction writes. *)
Definition signature_contents_ok {A} (changes : gmap string A) : bool :=
  let signature_in := written_to SIGNATURES changes in
  let cose_signature_in := written_to COSE_SIGNATURES changes in
  let merkle_tree_in := written_to SERIALISED_MERKLE_TREE changes in
  let two := merkle_tree_in && negb (Bool.eqb cose_signature_in signature_in) in
  let three := merkle_tree_in && cose_signature_in && signature_in in
  match base.size changes with
  | 2%nat => two || three
  | 3%nat => three
  | _ => false
  end.

(** What [apply] returns, and the fields of the wrapper its callers read after
    it passes. *)
Record Applied := mkApplied {
  applied_result : ApplyResult;
  applied_term : N;
  applied_version : Version;
  applied_hooks : list Hook;
}.

Definition failed (term : N) (v : Version) (hooks : list Hook) : Applied := mkApplied FAIL term v hooks.

(** [CFTExecutionWrapper::apply] *)
Definition apply (data : bytes) (public_only : bool) (expected_txid : option TxID.t)
    (track_deletes_on_missing_keys : bool) : StoreM Applied :=
  f <- fill_maps data public_only true ;;;
  match f with
  | None => ret (failed 0 0 [])
  | Some f =>
      let v := hdr_version (filled_header f) in
      let term := hdr_term (filled_header f) in
      let changes := filled_changes f in
      if match expected_txid with
         | Some i => negb (term =? TxID.view i) || negb (v =? TxID.seqno i)
         | None => false
         end
      then ret (failed term v [])
      else
        c <- commit_deserialised changes v term (filled_new_maps f) track_deletes_on_missing_keys ;;;
        match c with
        | None => ret (failed term v [])
        | Some hooks =>
            let is_signature := written_to SIGNATURES changes || written_to COSE_SIGNATURES changes in
            cs <- gets calls ;;;
            if is_signature &&
               (negb (signature_contents_ok changes) ||
                (has_history && negb (history_verify_root_signatures cs v)))
            then ret (failed term v hooks)
            else
              let success :=
                if written_to ENCRYPTED_PAST_LEDGER_SECRET changes
                then PASS_ENCRYPTED_PAST_LEDGER_SECRET
                else if is_signature then PASS_SIGNATURE else PASS in
              when has_history
                (call (HistoryAppend data (hdr_commit_evidence_digest (filled_header f))
                         (hdr_claims_digest (filled_header f)) None)) ;;;
              when has_chunker
                (call (ChunkerAppendEntrySize (N.of_nat (length data))) ;;;
                 when (negb (N.land (hdr_flags (filled_header f)) FORCE_LEDGER_CHUNK_BEFORE =? 0))
                   (call (ChunkerProducedChunkAt (u64_sub v 1))) ;;;
                 when (negb (N.land (hdr_flags (filled_header f)) FORCE_LEDGER_CHUNK_AFTER =? 0))
                   (call (ChunkerProducedChunkAt v))) ;;;
              ret (mkApplied success term v hooks)
        end
  end.

(** ** Snapshots *)

Record StoreSnapshot := mkStoreSnapshot {
  snapshot_version : Version;
  snapshots : list (string * SecurityDomain * Version * State);
  hash_at_snapshot : option bytes;
  view_history : option (list Version);
}.

Definition snapshot_unsafe_maps (v : Version) : StoreM StoreSnapshot :=
  s <- gets id ;;;
  if v <? compacted s then throw (LogicError "Cannot snapshot at version earlier than last compacted")
  else if version s <? v then throw (LogicError "Cannot snapshot at version later than current version")
  else ret (mkStoreSnapshot v
         (omap (fun '(name, (_, p)) => (fun m => (name, security_domain m, (Untyped.snapshot v m).1,
                                                   (Untyped.snapshot v m).2)) <$> heap s !! p)
            (by_name (maps s)))
         (if has_history then Some (history_get_raw_leaf (calls s) v) else None)
         (if has_consensus then Some (consensus_get_view_history (calls s) v) else None)).

(** [Map::Snapshot::serialise] (src/kv/untyped_map.h) *)
Definition serialise_map_snapshot (name : string) (domain : SecurityDomain) (v : Version) (state : State)
  : M Serialiser unit :=
  start_map encryptor name domain ;;;
  serialise_u64 v ;;;
  raw <- lift (serialize_state state) ;;;
  serialise_blob raw.

(** The body of the loop over security domains of [StoreSnapshot::serialise]. *)
Definition serialise_snapshots (domain : SecurityDomain)
    (l : list (string * SecurityDomain * Version * State)) : M Serialiser unit :=
  for_each (fun '(name, dom, v, state) =>
    when (bool_decide (dom = domain)) (serialise_map_snapshot name dom v state)) l.

(** [StoreSnapshot::serialise] *)
Definition serialise_snapshot (snap : StoreSnapshot) : result bytes :=
  let txid := TxID.mk 0 (snapshot_version snap) in
  match (match hash_at_snapshot snap with Some h => serialise_blob h | None => ret tt end ;;;
         match view_history snap with
         | Some l => modify (serialise_internal (append_versions l))
         | None => ret tt
         end ;;;
         serialise_snapshots PUBLIC (snapshots snap) ;;;
         serialise_snapshots PRIVATE (snapshots snap)) (new_serialiser txid Snapshot [] []) with
  | (Throw e, _) => Throw e
  | (Ok _, s) => serialise_domains encryptor txid Snapshot 0 true (public_writer s) (private_writer s)
  end.

(** The loop of [deserialise_snapshot]. *)
Fixpoint snapshot_maps_loop (fuel : nat) (changes : gmap string (N * AnyChangeSet))
    (new_maps : gmap string N) : ReadM (option (gmap string (N * AnyChangeSet) * gmap string N)) :=
  match fuel with
  | O => throw OutOfFuel
  | S fuel =>
      r <- of_reader next_map ;;;
      match r with
      | None => ret (Some (changes, new_maps))
      | Some name =>
          ms <- gets (fun st => maps st.1) ;;;
          pn <- match ms !! name with
                | Some (_, p) => ret (p, new_maps)
                | None => p <- of_store (make_map name (get_security_domain name)) ;;;
                          ret (p, <[name := p]> new_maps)
                end ;;;
          let '(p, new_maps) := pn in
          if bool_decide (is_Some (changes !! name)) then ret None
          else
            v <- of_reader (on_current read_u64) ;;;
            raw <- of_reader (on_current read_blob) ;;;
            state <- lift (deserialize_map_snapshot raw) ;;;
            snapshot_maps_loop fuel (<[name := (p, SnapshotChanges state v)]> changes) new_maps
      end
  end.

(** The call to [apply_changes] has one argument too many before its last:
    [track_deletes_on_missing_keys], which is [false], arrives as the expected
    rollback count, and becomes 0. *)
Definition deserialise_snapshot (data : bytes) (public_only read_view_history : bool)
  : StoreM (ApplyResult * list Hook) :=
  i <- lift (init encryptor data 0 (restriction public_only) is_historical) ;;;
  match i with
  | None => ret (FAIL, [])
  | Some (hdr, d) => fun s =>
      let '(r, (s', d')) :=
        (hash <- (if has_history then of_reader (on_current read_blob) else ret []) ;;;
         when read_view_history (of_reader (on_current read_blob) ;;; ret tt) ;;;
         l <- snapshot_maps_loop (S (readable d)) ∅ ∅ ;;;
         ret (hash, l)) (s, d) in
      match r with
      | Throw e => (Throw e, s')
      | Ok (_, None) => (Ok (FAIL, []), s')
      | Ok (hash, Some (changes, new_maps)) =>
          if negb (end_ d') then (Ok (FAIL, []), s')
          else
            (c <- apply_changes changes (fun _ => ret (NoVersion, NoVersion)) new_maps None false (Some 0) ;;;
             match c with
             | (None, _) => ret (FAIL, [])
             | (Some _, hooks) =>
                 modify (set_version (hdr_version hdr)) ;;;
                 modify (set_last_replicated (hdr_version hdr)) ;;;
                 when has_history (call (HistoryInitFromSnapshot hash)) ;;;
                 cs <- gets calls ;;;
                 if has_history && negb (history_init_from_snapshot cs) then ret (FAIL, hooks)
                 else ret (PASS, hooks)
             end) s'
      end
  end.

(** ** swap_private_maps *)

(** The private maps of the source, in order. *)
Definition private_maps (source : Store) : list (string * N) :=
  omap (fun '(name, (_, p)) =>
    match heap source !! p with
    | Some m => if bool_decide (security_domain m = PRIVATE) then Some (name, p) else None
    | None => None
    end) (by_name (maps source)).

(** The second loop: the target's map for each of them, created if needed. *)
Fixpoint find_targets (l : list (string * N)) : StoreM (list (N * N)) :=
  match l with
  | [] => ret []
  | (name, their_map) :: l =>
      s <- gets id ;;;
      my_map <- match maps s !! name with
                | None =>
                    p <- make_map name PRIVATE ;;;
                    modify (fun s => set_maps (<[name := (NoVersion, p)]> (maps s)) s) ;;;
                    ret p
                | Some (_, p) =>
                    match security_domain <$> heap s !! p with
                    | Some PRIVATE => ret p
                    | _ => throw (LogicError "Swap mismatch - map is private in source but not in target")
                    end
                end ;;;
      rest <- find_targets l ;;;
      ret ((my_map, their_map) :: rest)
  end.

(** [lhs->swap(rhs)] of a map of the target and one of the source. *)
Definition swap_one (entry : N * N) (st : Store * Store) : Store * Store :=
  let '(target, source) := st in
  match heap target !! entry.1, heap source !! entry.2 with
  | Some lhs, Some rhs =>
      let '(lhs', rhs') := Untyped.swap lhs rhs in
      (set_heap (<[entry.1 := lhs']> (heap target)) target,
       set_heap (<[entry.2 := rhs']> (heap source)) source)
  | _, _ => st
  end.

(** The target and the source after the call. *)
Definition swap_private_maps : M (Store * Store) unit := fun '(target, source) =>
  if version target <? version source
  then (Throw (RuntimeError "Invalid call to swap_private_maps"), (target, source))
  else
    match find_targets (private_maps source) target with
    | (Throw e, target) => (Throw e, (target, source))
    | (Ok entries, target) => (Ok tt, foldl (fun st e => swap_one e st) (target, source) entries)
    end.
End apply.
End KvApply.
