(* ===== verification/KvExample.v ===== *)
(** * Key-value store: a concrete environment

    Answers for the objects a store is connected to, with which the
    definitions can be evaluated: an encryptor that does not encrypt, a node
    that is primary, and consensus that accepts every batch. *)

From S2P Require Import Prelude ViewHistory TxStatus LedgerEntries KvMap KvHandle KvIsolation.
From S2P Require Import KvSerialise KvStore KvTx.

Open Scope N_scope.

Module KvExample.
Import Untyped MapHandle Isolation KvStore KvTx.

#[export] Instance ex_order : StateOrder := {|
  state_entries s := map_to_list s;
  state_entries_permutation s := Permutation_refl _;
  snapshot_entries s := map_to_list s;
  snapshot_entries_permutation s := Permutation_refl _;
|}.

(** The header holds the view, which has to fit. *)
Definition ex_encryptor : TxEncryptor := {|
  get_header_length := 8;
  encrypt plain _ txid _ _ :=
    if TxID.view txid <? 2 ^ 31 then Ok (Some (le_split 8 (TxID.view txid), plain))
    else Throw (LogicError "term should fit in 31 bits of IV");
  decrypt cipher _ header _ _ := Ok (Some cipher, le_combine header);
  get_term header := Ok (le_combine header);
|}.

#[export] Instance ex_env : KvEnv N := {|
  encryptor := Some ex_encryptor;
  strict_versions := true;
  is_historical := false;
  has_consensus := true;
  consensus_is_primary _ := true;
  consensus_replicate _ := true;
  consensus_get_view_history _ _ := [1];
  has_history := true;
  history_verify_root_signatures _ _ := true;
  history_init_from_snapshot _ := true;
  history_get_raw_leaf _ _ := replicate 32 Byte.x00;
  has_chunker := true;
  chunker_is_chunk_end_requested _ _ := false;
  has_snapshotter := false;
  snapshotter_record_committable _ := false;
  commit_evidence _ := [];
  sha256 _ := replicate 32 Byte.x00;
  signature_writes _ _ := [];
|}.

(** Keys, and operations on them. *)
Definition key (n : N) : bytes := [byte_of n].
Definition put_op (k v : N) : TxOp := Op (HPut (key k) (key v)).
Definition get_op (k : N) : TxOp := Op (HGet (key k)).
Definition remove_op (k : N) : TxOp := Op (HRemove (key k)).
Definition size_op : TxOp := Op HSize.

Definition ex_claims : option bytes := Some (replicate 32 Byte.x00).

(** A handle over a map that holds one key. *)
Lemma handle_is_a_map_witness :
  exists r c', run_op HSize (mkChangeSet 0 {[key 1 := mkVersionV 1 1 (key 10)]} ∅ 1 NoVersion ∅ ∅) = (Ok r, c') /\
    r = RSize 1.
Proof.
  destruct (handle_is_a_map HSize (mkChangeSet 0 {[key 1 := mkVersionV 1 1 (key 10)]} ∅ 1 NoVersion ∅ ∅))
    as (r & c' & Hr & -> & _).
  do 2 eexists. split; [exact Hr|]. vm_eq.
Defined.
End KvExample.
