(* ===== verification/KvWorld.v ===== *)
(** * Key-value store: concurrent transactions

    One store and any number of open transactions. Operations of different
    transactions, commits, compaction and rollback interleave. The invariant
    ties every open change set to the map it was created over; from it, a
    transaction that commits is shown to be serialisable at its commit. *)

From S2P Require Import Prelude ViewHistory TxStatus LedgerEntries KvMap KvRoll KvHandle KvIsolation.
From S2P Require Import KvSerialise KvStore KvTx.

Open Scope N_scope.
Open Scope m_scope.

Module KvWorld.
Import Untyped MapHandle Isolation KvStore KvTx.

Section world.
Context {Hook : Type} `{HE : !KvEnv Hook} `{HO : !StateOrder}.
Abbreviation Store := (Store Hook).

(** ** Worlds *)

(** An open transaction with the operations it made and their results. *)
Record OpenTx := mkOpenTx { open_tx : Tx; open_ops : list (string * TxOp); open_results : list TxResult }.

Record World := mkWorld { w_store : Store; w_txs : gmap N OpenTx }.

Inductive WorldOp :=
| WBegin (i : N)
| WUse (i : N) (name : string) (op : TxOp)
| WCommit (i : N) (claims : option bytes)
| WCompact (v : Version)
| WRollback (tx_id : TxID.t) (term : N).

(** One step. A transaction is forgotten when it commits, or fails to. *)
Definition world_step (o : WorldOp) (w : World) : World :=
  match o with
  | WBegin i =>
      match w_txs w !! i with
      | Some _ => w
      | None => mkWorld (w_store w) (<[i := mkOpenTx new_tx [] []]> (w_txs w))
      end
  | WUse i name op =>
      match w_txs w !! i with
      | None => w
      | Some x =>
          match use_handle name (run_tx_op op) (w_store w, open_tx x) with
          | (Ok r, (s, t)) =>
              mkWorld s (<[i := mkOpenTx t (open_ops x ++ [(name, op)]) (open_results x ++ [r])]> (w_txs w))
          | (Throw _, (s, t)) => mkWorld s (delete i (w_txs w))
          end
      end
  | WCommit i claims =>
      match w_txs w !! i with
      | None => w
      | Some x => mkWorld (tx_commit claims (w_store w, open_tx x)).2.1 (delete i (w_txs w))
      end
  | WCompact v => mkWorld (KvStore.compact v (w_store w)).2 (w_txs w)
  | WRollback tx_id term => mkWorld (KvStore.rollback tx_id term (w_store w)).2 (w_txs w)
  end.

(** Compaction follows the commit index, and versions do not wrap. *)
Definition world_allowed (o : WorldOp) (w : World) : Prop :=
  match o with
  | WCompact v => compacted (w_store w) <= v
  | WCommit _ _ => version (w_store w) < int64_max
  | _ => True
  end.

Inductive world_reachable : World -> Prop :=
| world_init : world_reachable (mkWorld init_Store ∅)
| world_next o w : world_reachable w -> world_allowed o w -> world_reachable (world_step o w).

(** ** Invariants *)

Definition initial_roll : Roll := mkRoll initial_commit [] 0.

(** Name and domain of a map; a name determines its domain. *)
Definition ident (m : Map Hook) : string * SecurityDomain := (map_name m, security_domain m).
Definition ident_of (name : string) : string * SecurityDomain :=
  (name, Serialise.get_security_domain name).

Lemma ident_of_inj n n' : ident_of n = ident_of n' -> n = n'.
Proof. unfold ident_of. congruence. Qed.

Record store_inv (s : Store) : Prop := mkStoreInv {
  si_maps : forall name cv p, maps s !! name = Some (cv, p) ->
    exists m, heap s !! p = Some m /\ ident m = ident_of name /\ map_wf m /\
      cv <= version s /\ lc_version (get_tail (roll m)) <= version s /\ lc_version (roll_head (roll m)) <= compacted s;
  si_compacted : compacted s <= version s;
  si_pending : forall v x, pending_txs s !! v = Some x -> exists info, x.1 = MovePendingTx info;
}.

(** [p] is the store's map of that name. *)
Definition current (s : Store) (name : string) (p : N) : Prop := exists cv, maps s !! name = Some (cv, p).

Definition change_sets (t : Tx) : gmap string ChangeSet :=
  omap (fun x => match x.2 with Changes c => Some c | SnapshotChanges _ _ => None end) (all_changes t).

Definition unused (c : ChangeSet) : Prop :=
  cs_writes c = ∅ /\ cs_reads c = ∅ /\ cs_read_version c = NoVersion.

(** The maps of a transaction. *)
Record tx_maps (s : Store) (t : Tx) : Prop := mkTxMaps {
  tm_changes : forall n p a, all_changes t !! n = Some (p, a) ->
    exists c m, a = Changes c /\ heap s !! p = Some m /\ ident m = ident_of n /\
      (current s n p \/ created_maps t !! n = Some p -> tracks c m);
  tm_created : forall n p, created_maps t !! n = Some p ->
    (exists m, heap s !! p = Some m /\ ident m = ident_of n /\ roll m = initial_roll) /\
    forall n', ~ current s n' p;
}.

Record tx_inv (s : Store) (x : OpenTx) : Prop := mkTxInv {
  ti_open : committed (open_tx x) = false;
  ti_trace : exists css0, run_trace (open_ops x) css0 = Some (open_results x, change_sets (open_tx x)) /\
    forall n c, css0 !! n = Some c -> unused c;
  ti_maps : tx_maps s (open_tx x);
}.

Record world_inv (w : World) : Prop := mkWorldInv {
  wi_store : store_inv (w_store w);
  wi_txs : forall i x, w_txs w !! i = Some x -> tx_inv (w_store w) x;
  wi_created : forall i j x y n p, w_txs w !! i = Some x -> w_txs w !! j = Some y -> i <> j ->
    created_maps (open_tx x) !! n = Some p ->
    (forall n' a, all_changes (open_tx y) !! n' <> Some (p, a)) /\
    (forall n', created_maps (open_tx y) !! n' <> Some p);
}.

(** ** Changes to the heap *)

(** The parts of a map object the invariants are about. *)
Definition shape (m : Map Hook) : Roll * (string * SecurityDomain) := (roll m, ident m).

Lemma shape_roll (m m' : Map Hook) : shape m' = shape m -> roll m' = roll m.
Proof. unfold shape. congruence. Qed.
Lemma shape_ident (m m' : Map Hook) : shape m' = shape m -> ident m' = ident m.
Proof. unfold shape. congruence. Qed.

Lemma tracks_roll (c : ChangeSet) (m m' : Map Hook) : roll m' = roll m -> tracks c m -> tracks c m'.
Proof. unfold tracks. by intros ->. Qed.

Lemma map_wf_roll (m m' : Map Hook) : roll m' = roll m -> map_wf m -> map_wf m'.
Proof. intros Hr [H1 H2 H3]. split; by rewrite Hr. Qed.

(** What the invariants of transactions need of a step by someone else:
    objects stay, maps that are current evolve, and objects that are not do
    not change or become so. A commit changes the objects [touched] and makes
    those in [added] current. *)
Record step_with (touched added : N -> Prop) (s s' : Store) : Prop := mkStepWith {
  hs_heap : forall p m n, heap s !! p = Some m -> current s n p -> exists m', heap s' !! p = Some m' /\
    ident m' = ident m /\ (forall c, tracks c m -> tracks c m');
  hs_old : forall n p m, heap s !! p = Some m -> current s' n p -> current s n p \/ added p;
  hs_other : forall p m, heap s !! p = Some m -> (forall n, ~ current s n p) ->
    exists m', heap s' !! p = Some m' /\ ident m' = ident m /\ (~ touched p -> shape m' = shape m);
}.

Definition heap_step : Store -> Store -> Prop := step_with (fun _ => False) (fun _ => False).

Lemma current_dec s p : (exists n, current s n p) \/ (forall n, ~ current s n p).
Proof.
  destruct (decide (Exists (fun e : string * (Version * N) => e.2.2 = p) (map_to_list (maps s)))) as [H|H].
  - left. apply Exists_exists in H as ([n [cv p']] & Hin & Heq). simpl in Heq. subst p'.
    apply elem_of_map_to_list in Hin. by exists n, cv.
  - right. intros n [cv Hn]. apply H. apply Exists_exists. exists (n, (cv, p)).
    split; [by apply elem_of_map_to_list|done].
Qed.

Lemma tx_maps_step touched added s s' t :
  step_with touched added s s' ->
  (forall n p, created_maps t !! n = Some p -> ~ touched p /\ ~ added p) ->
  (forall n p a, all_changes t !! n = Some (p, a) -> ~ added p) ->
  tx_maps s t -> tx_maps s' t.
Proof.
  intros [Hh Ho Hn] Hcr Hch [H3 H4]. split.
  - intros n p a Ha. destruct (H3 n p a Ha) as (c & m & -> & Hm & Hname & Ht).
    destruct (current_dec s p) as [[n0 Hcur]|Hcur].
    + destruct (Hh p m n0 Hm Hcur) as (m' & Hm' & Hn' & Ht'). exists c, m'.
      split_and!; [done|done|congruence|]. intros [Hc|Hc].
      * apply Ht', Ht. left. destruct (Ho _ _ m Hm Hc) as [|Hadd]; [done|].
        destruct (Hch _ _ _ Ha Hadd).
      * destruct (H4 n p Hc) as [_ Hncur]. by destruct (Hncur n0).
    + destruct (Hn p m Hm Hcur) as (m' & Hm' & Hn' & Hr). exists c, m'.
      split_and!; [done|done|congruence|]. intros [Hc|Hc].
      * destruct (Ho _ _ m Hm Hc) as [Hc'|Hadd]; [by destruct (Hcur n)|]. destruct (Hch _ _ _ Ha Hadd).
      * apply (tracks_roll c m); [apply shape_roll, Hr, (Hcr n p Hc)|]. auto.
  - intros n p Hp. destruct (H4 n p Hp) as [(m & Hm & Hname & Hr) Hcur]. split.
    + destruct (Hn p m Hm Hcur) as (m' & Hm' & _ & Hr'). specialize (Hr' (proj1 (Hcr n p Hp))).
      exists m'. by rewrite (shape_roll _ _ Hr'), (shape_ident _ _ Hr').
    + intros n' Hc. destruct (Ho n' p m Hm Hc) as [Hc'|Hadd]; [by apply (Hcur n')|].
      by apply (Hcr n p Hp).
Qed.

Lemma tx_inv_heap s s' x : heap_step s s' -> tx_inv s x -> tx_inv s' x.
Proof. intros Hs [H1 H2 H3]. split; [done|done|]. apply (tx_maps_step _ _ _ _ _ Hs); tauto. Qed.

(** The same maps, with the same rolls. *)
Record same_rolls (s s' : Store) : Prop := mkSameRolls {
  sr_heap : forall p, shape <$> heap s' !! p = shape <$> heap s !! p;
  sr_maps : maps s' = maps s;
  sr_version : version s' = version s;
  sr_compacted : compacted s' = compacted s;
  sr_pending : pending_txs s' = pending_txs s;
}.

#[export] Instance same_rolls_preorder : PreOrder same_rolls.
Proof.
  split; [by intros s; split|]. intros s1 s2 s3 [] []. split; congruence.
Qed.

Lemma same_rolls_lookup s s' p m : same_rolls s s' -> heap s !! p = Some m ->
  exists m', heap s' !! p = Some m' /\ shape m' = shape m.
Proof.
  intros Hs Hm. pose proof (sr_heap _ _ Hs p) as H. rewrite Hm in H. simpl in H.
  apply fmap_Some in H as (m' & Hm' & Hr). by exists m'.
Qed.

Lemma same_rolls_step s s' : same_rolls s s' -> heap_step s s'.
Proof.
  intros Hs. split.
  - intros p m n Hm _. destruct (same_rolls_lookup _ _ _ _ Hs Hm) as (m' & Hm' & Hr).
    exists m'. split_and!; [done|by apply shape_ident|]. intros c. by apply tracks_roll, shape_roll.
  - intros n p m _. unfold current. rewrite (sr_maps _ _ Hs). by left.
  - intros p m Hm _. destruct (same_rolls_lookup _ _ _ _ Hs Hm) as (m' & Hm' & Hr).
    exists m'. split_and!; [done|by apply shape_ident|done].
Qed.

Lemma same_rolls_inv s s' : same_rolls s s' -> store_inv s -> store_inv s'.
Proof.
  intros Hs [H1 H2 H3]. pose proof Hs as [_ Em Ev Ec Ep].
  split; rewrite ?Em, ?Ev, ?Ec, ?Ep; try done.
  intros name cv p Hp. destruct (H1 name cv p Hp) as (m & Hm & Hn & Hw & Hcv & Ht & Hh).
  destruct (same_rolls_lookup _ _ _ _ Hs Hm) as (m' & Hm' & Hr). exists m'.
  rewrite (shape_roll _ _ Hr), (shape_ident _ _ Hr).
  split_and!; try done. by apply (map_wf_roll m), Hw; apply shape_roll.
Qed.

Lemma keeps_call c : keeps same_rolls (call c).
Proof. intros s. by split. Qed.

Lemma when_call_ok b c s : exists s', when b (call c) s = (Ok tt, s') /\ same_rolls s s'.
Proof. destruct b; eexists; (split; [done|]); [by split|done]. Qed.

Lemma keeps_post_compact name p : keeps same_rolls (post_compact_map name p).
Proof.
  intros s. unfold post_compact_map, bind, gets, id. destruct (heap s !! p) as [m|] eqn:Hm; [|by split].
  unfold post_compact. set (l := if global_hook m then commit_deltas m else []).
  pose proof (keeps_for_each same_rolls (fun d : Version * Write => call (GlobalHook name d.1 d.2)) l
                (fun d => keeps_call _) s) as Hk.
  assert (forall s1 : Store, (for_each (fun d : Version * Write => call (GlobalHook name d.1 d.2)) l s1).1 = Ok tt) as Hok.
  { clear. induction l as [|d l IH]; intros s1; [done|]. simpl. unfold bind. simpl. apply IH. }
  specialize (Hok s). destruct (for_each _ l s) as [r s1]. simpl in *. subst r.
  etrans; [exact Hk|]. split; try done. intros q. simpl.
  destruct (decide (p = q)) as [<-|Hne]; [|by rewrite lookup_insert_ne].
  rewrite lookup_insert_eq. simpl. pose proof (sr_heap _ _ Hk p) as Hp. by rewrite Hp, Hm.
Qed.

(** ** Compaction and rollback *)

Lemma foldl_alter (f : Map Hook -> Map Hook) (l : list N) (h : gmap N (Map Hook)) p :
  NoDup l ->
  foldl (fun h p => alter f p h) h l !! p = if decide (p ∈ l) then f <$> h !! p else h !! p.
Proof.
  revert h. induction l as [|q l IH]; intros h Hnd; cbn [foldl].
  - rewrite decide_False; [done|]. apply not_elem_of_nil.
  - inversion Hnd; subst. rewrite IH by done. destruct (decide (p = q)) as [->|Hne].
    + rewrite decide_False, decide_True by (done || by left). apply lookup_alter_eq.
    + rewrite lookup_alter_ne by done. destruct (decide (p ∈ l)).
      * by rewrite decide_True by by right.
      * rewrite decide_False; [done|]. rewrite elem_of_cons. naive_solver.
Qed.

Definition pointers (s : Store) : list N := (fun e => e.2.2) <$> by_name (maps s).

Lemma elem_of_pointers s p : p ∈ pointers s <-> exists n, current s n p.
Proof.
  unfold pointers. rewrite list_elem_of_fmap. split.
  - intros ([n [cv q]] & -> & Hin). apply elem_of_by_name in Hin. by exists n, cv.
  - intros (n & cv & Hn). exists (n, (cv, p)). split; [done|]. by apply elem_of_by_name.
Qed.

Definition inj_maps (s : Store) : Prop :=
  forall n n' cv cv' p, maps s !! n = Some (cv, p) -> maps s !! n' = Some (cv', p) -> n = n'.

Lemma store_inv_inj s : store_inv s -> inj_maps s.
Proof.
  intros Hs n n' cv cv' p Hn Hn'. destruct (si_maps _ Hs _ _ _ Hn) as (m & Hm & Hi & _).
  destruct (si_maps _ Hs _ _ _ Hn') as (m' & Hm' & Hi' & _). apply ident_of_inj. congruence.
Qed.

Lemma NoDup_pointers s : inj_maps s -> NoDup (pointers s).
Proof.
  intros Hs. unfold pointers. apply NoDup_fmap_2_strong.
  - intros [n [cv p]] [n' [cv' p']] H1 H2 Heq. simpl in Heq. subst p'.
    apply elem_of_by_name in H1, H2. assert (n = n') as <- by by eapply Hs. congruence.
  - rewrite by_name_permutation. apply NoDup_map_to_list.
Qed.

Lemma for_each_on_map (f : Map Hook -> Map Hook) (l : list (string * (Version * N))) (s : Store) :
  for_each (fun e => on_map e.2.2 f) l s =
  (Ok tt, set_heap (foldl (fun h p => alter f p h) (heap s) ((fun e => e.2.2) <$> l)) s).
Proof.
  revert s. induction l as [|e l IH]; intros s; [by destruct s|].
  cbn [for_each]. unfold bind at 1. cbn. by rewrite IH.
Qed.

(** All maps of the store changed by [f]. *)
Lemma on_all_maps_spec f s : inj_maps s -> exists h,
  on_all_maps f s = (Ok tt, set_heap h s) /\
  forall p, ((exists n, current s n p) -> h !! p = f <$> heap s !! p) /\
            ((forall n, ~ current s n p) -> h !! p = heap s !! p).
Proof.
  intros Hs. eexists. split; [apply for_each_on_map|].
  intros p. rewrite foldl_alter by by apply NoDup_pointers. split.
  - intros Hc. by rewrite decide_True by by apply elem_of_pointers.
  - intros Hc. rewrite decide_False; [done|]. fold (pointers s). rewrite elem_of_pointers. naive_solver.
Qed.

Lemma heap_step_trans s1 s2 s3 : heap_step s1 s2 -> heap_step s2 s3 -> heap_step s1 s3.
Proof.
  intros [A1 A2 A3] [B1 B2 B3]. split.
  - intros p m n Hm Hc. destruct (A1 p m n Hm Hc) as (m2 & Hm2 & Hn2 & Ht2).
    destruct (current_dec s2 p) as [[n2 Hc2]|Hc2].
    + destruct (B1 p m2 n2 Hm2 Hc2) as (m3 & Hm3 & Hn3 & Ht3). exists m3.
      split_and!; [done|congruence|auto].
    + destruct (B3 p m2 Hm2 Hc2) as (m3 & Hm3 & Hn3 & Hr). exists m3.
      split_and!; [done|congruence|].
      intros c Hc'. apply (tracks_roll c m2); [apply shape_roll, Hr; tauto|auto].
  - intros n p m Hm Hc. assert (is_Some (heap s2 !! p)) as [m2 Hm2].
    { destruct (current_dec s1 p) as [[n1 Hc1]|Hc1].
      - destruct (A1 p m n1 Hm Hc1) as (m2 & -> & _). by eexists.
      - destruct (A3 p m Hm Hc1) as (m2 & -> & _). by eexists. }
    destruct (B2 n p m2 Hm2 Hc) as [Hc2|[]]. eauto.
  - intros p m Hm Hc. destruct (A3 p m Hm Hc) as (m2 & Hm2 & Hn2 & Hr2).
    destruct (B3 p m2 Hm2) as (m3 & Hm3 & Hn3 & Hr3).
    { intros n Hc2. destruct (A2 n p m Hm Hc2) as [Hc1|[]]. by destruct (Hc n). }
    exists m3. split_and!; [done|congruence|]. intros Hf. rewrite (Hr3 Hf). by apply Hr2.
Qed.

(** A step that keeps the invariant of the store. *)
Definition good_step (s s' : Store) : Prop := store_inv s -> store_inv s' /\ heap_step s s'.

#[export] Instance good_step_preorder : PreOrder good_step.
Proof.
  split.
  - intros s Hs. split; [done|]. by apply same_rolls_step.
  - intros s1 s2 s3 H1 H2 Hs. destruct (H1 Hs) as [Hs2 Hh1]. destruct (H2 Hs2) as [Hs3 Hh2].
    split; [done|]. by eapply heap_step_trans.
Qed.

Lemma same_rolls_good s s' : same_rolls s s' -> good_step s s'.
Proof. intros Hs Hi. split; [by eapply same_rolls_inv|by apply same_rolls_step]. Qed.

Lemma keeps_good {A} (m : M Store A) : keeps same_rolls m -> keeps good_step m.
Proof. intros Hm s. apply same_rolls_good, Hm. Qed.

Hint Resolve keeps_good keeps_call keeps_post_compact : ccf.

(** Changing every map, and the versions. *)
Lemma good_step_all_maps f s h v c :
  (forall m, ident (f m) = ident m) ->
  (forall m, map_wf m -> map_wf (f m)) -> (forall c m, tracks c m -> tracks c (f m)) ->
  (forall m n p, current s n p -> heap s !! p = Some m -> map_wf m ->
     lc_version (get_tail (roll m)) <= version s -> lc_version (roll_head (roll m)) <= compacted s ->
     lc_version (get_tail (roll (f m))) <= v /\ lc_version (roll_head (roll (f m))) <= c) ->
  c <= v -> version s <= v ->
  (forall p, ((exists n, current s n p) -> h !! p = f <$> heap s !! p) /\
             ((forall n, ~ current s n p) -> h !! p = heap s !! p)) ->
  good_step s (set_compacted c (set_version v (set_heap h s))).
Proof.
  intros Hname Hwf Ht Hv Hcv Hvv Hh Hs. split.
  - destruct Hs as [H1 H2 H3]. split; simpl; try done. intros name cv p Hp.
    destruct (H1 name cv p Hp) as (m & Hm & Hn & Hw & Hcr & Htl & Hhd). exists (f m).
    assert (current s name p) as Hc by by exists cv.
    rewrite (proj1 (Hh p)) by by exists name. rewrite Hm, Hname.
    split_and!; [done|done|by apply Hwf|lia|..]; by eapply Hv.
  - split.
    + intros p m n Hm Hc. exists (f m). simpl. rewrite (proj1 (Hh p)) by by exists n. rewrite Hm. eauto.
    + intros n p m _ Hc. by left.
    + intros p m Hm Hc. exists m. simpl. by rewrite (proj2 (Hh p)) by done.
Qed.

Lemma compact_loop_head v hook r rest d :
  lc_version r <= v -> lc_version (compact_loop v hook r rest d).1.1 <= v.
Proof.
  revert r d. induction rest as [|next rest IH]; intros r d Hr; cbn [compact_loop].
  - by destruct (hook && _).
  - destruct (hook && negb _); (destruct (lc_version r =? v); [by destruct hook|]);
      (destruct (N.ltb_spec v (lc_version next)); [done|by apply IH]).
Qed.

Lemma compact_head v (m : Map Hook) :
  lc_version (roll_head (roll m)) <= v -> lc_version (roll_head (roll (Untyped.compact v m))) <= v.
Proof.
  intros Hm. unfold Untyped.compact.
  pose proof (compact_loop_head v (global_hook m) _ (roll_rest (roll m)) (commit_deltas m) Hm).
  by destruct (compact_loop _ _ _ _ _) as [[??]?].
Qed.

Lemma wp_good_bind {A B} (m : M Store A) (k : A -> M Store B) s0 :
  keeps same_rolls m ->
  (forall a s1, same_rolls s0 s1 -> wp (k a) (fun _ => good_step s1) (fun _ => good_step s1) s1) ->
  wp (bind m k) (fun _ => good_step s0) (fun _ => good_step s0) s0.
Proof.
  intros Hm Hk. apply wp_bind. eapply wp_mono; [apply wp_keeps, Hm|..]; simpl.
  - intros a s1 Hs. eapply wp_mono; [by apply Hk|..]; simpl; intros; (etrans; [by apply same_rolls_good|done]).
  - intros e s1 Hs. by apply same_rolls_good.
Qed.

Lemma compact_good v s : compacted s <= v -> good_step s (KvStore.compact v s).2.
Proof.
  intros Hv. apply wp_state. unfold KvStore.compact. apply wp_bind, wp_gets.
  apply wp_good_bind; [keeps_auto|]. intros _ s1 H1.
  apply wp_good_bind; [keeps_auto|]. intros _ s2 H2.
  apply wp_bind, wp_gets.
  assert (compacted s2 <= v) as Hv2 by (rewrite (sr_compacted _ _ H2), (sr_compacted _ _ H1); done).
  destruct (N.ltb_spec (version s2) v) as [Hlt|Hle]; [apply wp_ret; reflexivity|].
  apply wp_state. intros Hs2. destruct (on_all_maps_spec (Untyped.compact v) s2) as (h & Heq & Hh);
    [by apply store_inv_inj|].
  match goal with |- store_inv ?x /\ _ => enough (good_step s2 x) as Hfin by by apply Hfin end.
  erewrite bind_ok by exact Heq.
  assert (good_step s2 (set_compacted v (set_version (version s2) (set_heap h s2)))) as Hg.
  { apply (good_step_all_maps (Untyped.compact v)); try done.
    - intros m. unfold Untyped.compact. by destruct (compact_loop _ _ _ _ _) as [[??]?].
    - apply map_wf_compact.
    - intros. by apply tracks_compact.
    - intros m n p _ _ _ Ht Hd. rewrite (proj1 (compact_tail v m)). split; [done|].
      apply compact_head. lia. }
  etrans; [exact Hg|].
  match goal with |- good_step _ ((bind _ ?k) _).2 =>
    assert (keeps good_step (k tt)) as Hk by keeps_auto end.
  apply Hk.
Qed.

Lemma rollback_tail v (m : Map Hook) :
  lc_version (roll_head (roll m)) <= v -> lc_version (get_tail (roll (Untyped.rollback v m))) <= v.
Proof.
  intros Hh. unfold get_tail. cbn [Untyped.rollback roll set_roll roll_rest roll_head].
  set (l := roll_rest (roll m)).
  induction l as [|c l IH] using rev_ind; [done|].
  rewrite pop_back_while_snoc. destruct (N.ltb_spec v (lc_version c)); [done|].
  by rewrite List.last_last.
Qed.

Lemma rollback_shape v (m m' : Map Hook) :
  shape m = shape m' -> shape (Untyped.rollback v m) = shape (Untyped.rollback v m').
Proof.
  intros Hr. unfold shape, Untyped.rollback.
  change (ident (set_roll ?r m)) with (ident m). change (ident (set_roll ?r m')) with (ident m').
  by rewrite (shape_roll _ _ Hr), (shape_ident _ _ Hr).
Qed.

Lemma good_step_rollback s s' v :
  compacted s <= v ->
  maps s' = filter (fun e => e.2.1 <= v) (maps s) -> version s' = v -> compacted s' = compacted s ->
  pending_txs s' = ∅ ->
  (forall p, ((exists n, current s n p) -> shape <$> heap s' !! p = shape ∘ Untyped.rollback v <$> heap s !! p) /\
             ((forall n, ~ current s n p) -> shape <$> heap s' !! p = shape <$> heap s !! p)) ->
  good_step s s'.
Proof.
  intros Hv Em Ev Ec Ep Hh Hs.
  assert (forall n p, current s' n p -> current s n p) as Hcur.
  { intros n p [cv Hc]. rewrite Em in Hc. apply map_lookup_filter_Some in Hc as [Hc _]. by exists cv. }
  assert (forall n p m, current s n p -> heap s !! p = Some m -> exists m', heap s' !! p = Some m' /\
    shape (Untyped.rollback v m) = shape m') as Hlk.
  { intros n p m Hc Hm. destruct (Hh p) as [H1 _]. specialize (H1 ltac:(by exists n)).
    rewrite Hm in H1. simpl in H1. apply fmap_Some in H1 as (m' & Hm' & Hr). by exists m'. }
  split; [split|split].
  - intros n cv p Hp. rewrite Em in Hp. apply map_lookup_filter_Some in Hp as [Hp Hcv].
    destruct (si_maps _ Hs n cv p Hp) as (m & Hm & Hn & Hw & _ & Ht & Hd).
    destruct (Hlk n p m) as (m' & Hm' & Hr); [by exists cv|done|]. exists m'.
    rewrite <- (shape_roll _ _ Hr), <- (shape_ident _ _ Hr), Ev, Ec.
    split_and!; [done|done| |done|apply rollback_tail; lia|done].
    apply (map_wf_roll (Untyped.rollback v m)); [symmetry; by apply shape_roll|].
    by apply map_wf_rollback.
  - by rewrite Ev, Ec.
  - by rewrite Ep.
  - intros p m n Hm Hc. destruct (Hlk n p m Hc Hm) as (m' & Hm' & Hr). exists m'.
    split_and!; [done|by rewrite <- (shape_ident _ _ Hr)|]. intros c Ht.
    apply (tracks_roll c (Untyped.rollback v m)); [symmetry; by apply shape_roll|].
    by apply tracks_rollback.
  - intros n p m _ Hc. left. by apply Hcur.
  - intros p m Hm Hc. destruct (Hh p) as [_ H2]. specialize (H2 Hc). rewrite Hm in H2. simpl in H2.
    apply fmap_Some in H2 as (m' & Hm' & Hr). exists m'.
    split_and!; [done|symmetry; by apply shape_ident|done].
Qed.

Lemma rollback_good tx_id term s : good_step s (KvStore.rollback tx_id term s).2.
Proof.
  apply wp_state. unfold KvStore.rollback.
  apply wp_good_bind; [keeps_auto|]. intros _ s0 _.
  apply wp_good_bind; [keeps_auto|]. intros _ s1 _. apply wp_bind, wp_gets.
  destruct (N.ltb_spec (TxID.seqno tx_id) (compacted (id s1))) as [Hlt|Hge];
    [apply wp_throw; reflexivity|].
  apply wp_good_bind; [by apply keeps_modify|]. intros _ s2 H2.
  apply wp_good_bind; [by apply keeps_modify|]. intros _ s3 H3.
  apply wp_good_bind; [keeps_auto|]. intros _ s4 H4.
  assert (same_rolls s1 s4) as H14 by (do 2 (etrans; [eassumption|]); done).
  destruct (N.leb_spec (version (id s1)) (TxID.seqno tx_id)) as [Hle|Hgt];
    [apply wp_ret; reflexivity|].
  rewrite <- (sr_compacted _ _ H14 : _ = compacted (id s1)) in Hge. clear - Hge.
  set (v := TxID.seqno tx_id) in *.
  apply wp_state. intros Hs.
  match goal with |- store_inv ?x /\ _ => enough (good_step s4 x) as Hfin by by apply Hfin end.
  erewrite bind_ok by done. set (s5 := set_pending_txs _ _).
  match goal with |- context [when ?b (call ?c)] =>
    destruct (when_call_ok b c s5) as (s6 & Hw & H6) end.
  erewrite bind_ok by exact Hw.
  destruct (on_all_maps_spec (Untyped.rollback v) s6) as (h & Heq & Hh).
  { unfold inj_maps. rewrite (sr_maps _ _ H6). exact (store_inv_inj _ Hs). }
  erewrite bind_ok by exact Heq.
  apply (good_step_rollback _ _ v); simpl; try done.
  - by rewrite (sr_maps _ _ H6).
  - by rewrite (sr_version _ _ H6).
  - by rewrite (sr_compacted _ _ H6).
  - by rewrite (sr_pending _ _ H6).
  - intros p. unfold current in *. rewrite (sr_maps _ _ H6) in Hh. destruct (Hh p) as [H1 H2].
    pose proof (sr_heap _ _ H6 p) as Hp. simpl in Hp. split; intros Hc.
    + rewrite H1 by done. destruct (heap s6 !! p), (heap s4 !! p); simpl in *; try done.
      f_equal. apply rollback_shape. congruence.
    + by rewrite H2.
Qed.

(** ** Opening a map *)

(** The transaction once its read version is chosen, and that version. *)
Definition chosen (s : Store) (t : Tx) : Tx :=
  match read_txid t with
  | Some _ => t
  | None => set_commit_view (term_of_next_version s) (set_read_txid (Some (current_txid s)) t)
  end.

Definition read_seqno (s : Store) (t : Tx) : Version :=
  match read_txid t with Some i => TxID.seqno i | None => version s end.

Definition opened (name : string) (p : N) (c : ChangeSet) (t : Tx) : Tx :=
  set_all_changes (<[name := (p, Changes c)]> (all_changes t)) t.

Definition with_new_map (name : string) (s : Store) : Store :=
  set_heap (<[fresh_ptr s := new_map name (Serialise.get_security_domain name)]> (heap s)) s.

Definition open_map (name : string) (st : Store * Tx) : result unit * (Store * Tx) :=
  let '(s, t) := st in
  let t1 := chosen s t in
  match get_map_internal (read_seqno s t) name s with
  | Some p =>
      match heap s !! p ≫= create_change_set (read_seqno s t) false with
      | None => (Throw CompactedVersionConflict, (s, t1))
      | Some c => (Ok tt, (s, opened name p c t1))
      end
  | None =>
      match created_maps t !! name with
      | Some _ => (Throw (LogicError "Created map without creating handle over it"), (s, t1))
      | None =>
          let t2 := set_created_maps (<[name := fresh_ptr s]> (created_maps t)) t1 in
          match create_change_set (Hook := Hook) (read_seqno s t) false
                  (new_map name (Serialise.get_security_domain name)) with
          | None => (Throw CompactedVersionConflict, (with_new_map name s, t2))
          | Some c => (Ok tt, (with_new_map name s, opened name (fresh_ptr s) c t2))
          end
      end
  end.

Lemma get_handle_eq name s t :
  get_handle_by_name name false (s, t) =
  match all_changes t !! name with Some _ => (Ok tt, (s, t)) | None => open_map name (s, t) end.
Proof.
  unfold get_handle_by_name, get_tx, bind at 1, gets. cbn [snd].
  destruct (all_changes t !! name) as [a|] eqn:Ha; simpl; [done|].
  unfold open_map, chosen, read_seqno, get_map_and_change_set_by_name, bind, get_tx, get_store, gets, ret.
  destruct (read_txid t) as [i|] eqn:Hi; repeat progress (simpl; rewrite ?Hi).
  - destruct (get_map_internal _ _ _) as [p|]; repeat progress (simpl; rewrite ?Hi);
      [by destruct (heap s !! p ≫= _)|].
    destruct (created_maps t !! name) eqn:Hc; simpl; [done|]. rewrite lookup_insert_eq. simpl.
    by destruct (create_change_set _ _ _).
  - destruct (get_map_internal _ _ _) as [p|]; simpl; [by destruct (heap s !! p ≫= _)|].
    destruct (created_maps t !! name) eqn:Hc; simpl; [done|]. rewrite lookup_insert_eq. simpl.
    by destruct (create_change_set _ _ _).
Qed.

Lemma create_unused v (m : Map Hook) c : create_change_set v false m = Some c -> unused c.
Proof. unfold create_change_set. destruct (find_commit _ _); [|done]. by intros [= <-]. Qed.

Lemma new_map_wf name d : map_wf (new_map (Hook := Hook) name d).
Proof.
  split; cbn.
  - repeat constructor.
  - constructor; [|done]. intros k vv. simpl. by rewrite lookup_empty.
  - done.
Qed.

Lemma current_heap s n p : store_inv s -> current s n p -> exists m, heap s !! p = Some m /\ ident m = ident_of n /\ map_wf m.
Proof. intros Hs [cv Hc]. destruct (si_maps _ Hs _ _ _ Hc) as (m & ? & ? & ? & _). by exists m. Qed.

Lemma fresh_ptr_heap (s : Store) : heap s !! fresh_ptr s = None.
Proof. apply not_elem_of_dom, is_fresh. Qed.

Lemma with_new_map_lookup name s p m : heap s !! p = Some m -> heap (with_new_map name s) !! p = Some m.
Proof.
  intros Hm. simpl. rewrite lookup_insert_ne; [done|]. intros <-. by rewrite fresh_ptr_heap in Hm.
Qed.

Lemma with_new_map_good name s : good_step s (with_new_map name s).
Proof.
  intros Hs. split; [split; simpl; try apply Hs|split].
  - intros n cv p Hp. destruct (si_maps _ Hs _ _ _ Hp) as (m & Hm & Hrest). exists m.
    split; [by apply (with_new_map_lookup name)|done].
  - intros p m n Hm _. exists m. split_and!; [by apply with_new_map_lookup|done|done].
  - intros n p m _ Hc. by left.
  - intros p m Hm _. exists m. split_and!; [by apply with_new_map_lookup|done|done].
Qed.

(** *** Traces *)

Lemma run_trace_frame ops css rs css' n c :
  css !! n = None -> run_trace ops css = Some (rs, css') ->
  run_trace ops (<[n := c]> css) = Some (rs, <[n := c]> css').
Proof.
  revert css rs. induction ops as [|[m op] ops IH]; intros css rs Hn; simpl.
  - by intros [= <- <-].
  - destruct (css !! m) as [d|] eqn:Hm; [|done].
    assert (n <> m) as Hne by (intros ->; congruence). rewrite lookup_insert_ne, Hm by done.
    destruct (run_tx_op op d) as [[r|e] d']; [|done].
    destruct (run_trace ops (<[m := d']> css)) as [[rs1 css1]|] eqn:Hrun; [|done].
    intros [= <- <-]. rewrite insert_insert_ne by done.
    erewrite IH; [done| |exact Hrun]. by rewrite lookup_insert_ne.
Qed.

Lemma run_trace_snoc ops css rs css' n op c r c' :
  run_trace ops css = Some (rs, css') -> css' !! n = Some c -> run_tx_op op c = (Ok r, c') ->
  run_trace (ops ++ [(n, op)]) css = Some ((rs ++ [r])%list, <[n := c']> css').
Proof.
  intros Hrun Hn Hop. revert css rs Hrun. induction ops as [|[m o] ops IH]; intros css rs; simpl.
  - intros [= <- <-]. by rewrite Hn, Hop.
  - destruct (css !! m) as [d|] eqn:Hm; [|done].
    destruct (run_tx_op o d) as [[r1|e] d']; [|done].
    destruct (run_trace ops _) as [[rs1 css1]|] eqn:Hr; [|done].
    intros [= <- <-]. by rewrite (IH _ _ Hr).
Qed.

(** A transaction that has opened another map. *)
Lemma tx_maps_open s t t' name p c m :
  tx_maps s t -> heap s !! p = Some m -> ident m = ident_of name -> tracks c m ->
  all_changes t' = <[name := (p, Changes c)]> (all_changes t) ->
  created_maps t' = created_maps t \/
    created_maps t' = <[name := p]> (created_maps t) /\ roll m = initial_roll /\
    (forall n, ~ current s n p) ->
  tx_maps s t'.
Proof.
  intros [H3 H4] Hm Hname Ht Hch Hcr. split.
  - intros n q a. rewrite Hch. destruct (decide (name = n)) as [<-|Hne].
    + rewrite lookup_insert_eq. intros [= <- <-]. by exists c, m.
    + rewrite lookup_insert_ne by done. intros Ha. destruct (H3 n q a Ha) as (d & m' & -> & Hm' & Hn & Hd).
      exists d, m'. split_and!; [done..|]. intros [Hc|Hc]; apply Hd; [by left|right].
      destruct Hcr as [Hcr|[Hcr _]]; rewrite Hcr in Hc; [done|]. by rewrite lookup_insert_ne in Hc.
  - intros n q Hq. destruct Hcr as [Hcr|(Hcr & Hr & Hcur)]; rewrite Hcr in Hq; [by apply H4|].
    destruct (decide (name = n)) as [<-|Hne].
    + rewrite lookup_insert_eq in Hq. simplify_eq. split; [by exists m|done].
    + rewrite lookup_insert_ne in Hq by done. by apply H4.
Qed.

Lemma tx_inv_open s x t' name p c m :
  tx_inv s x -> all_changes (open_tx x) !! name = None ->
  heap s !! p = Some m -> ident m = ident_of name -> tracks c m -> unused c ->
  all_changes t' = <[name := (p, Changes c)]> (all_changes (open_tx x)) ->
  committed t' = committed (open_tx x) ->
  created_maps t' = created_maps (open_tx x) \/
    created_maps t' = <[name := p]> (created_maps (open_tx x)) /\ roll m = initial_roll /\
    (forall n, ~ current s n p) ->
  tx_inv s (mkOpenTx t' (open_ops x) (open_results x)).
Proof.
  intros [H1 (css0 & Hrun & Hun) H3] Hnone Hm Hname Ht Hu Hch Hco Hcr.
  assert (change_sets t' = <[name := c]> (change_sets (open_tx x))) as Hcs.
  { unfold change_sets. rewrite Hch. by erewrite omap_insert_Some. }
  split; simpl.
  - by rewrite Hco.
  - exists (<[name := c]> css0). rewrite Hcs. split.
    + apply run_trace_frame; [|done].
      pose proof (run_trace_steps _ _ _ _ name Hrun) as Hst.
      assert (change_sets (open_tx x) !! name = None) as Hno
        by (unfold change_sets; by rewrite lookup_omap, Hnone).
      rewrite Hno in Hst. by destruct (css0 !! name).
    + intros n d. destruct (decide (name = n)) as [<-|Hne].
      * rewrite lookup_insert_eq. by intros [= <-].
      * rewrite lookup_insert_ne by done. apply Hun.
  - by eapply tx_maps_open.
Qed.

(** A transaction that has made another operation on a map it had opened. *)
Lemma tx_inv_op s x name op p c r c' :
  tx_inv s x -> all_changes (open_tx x) !! name = Some (p, Changes c) -> run_tx_op op c = (Ok r, c') ->
  tx_inv s (mkOpenTx (opened name p c' (open_tx x)) (open_ops x ++ [(name, op)])
              (open_results x ++ [r])).
Proof.
  intros [H1 (css0 & Hrun & Hun) [H3 H4]] Hc Hop. split; simpl; [done| |split; simpl; [|done]].
  - exists css0. split; [|done]. unfold change_sets, opened. simpl.
    erewrite omap_insert_Some by done. eapply run_trace_snoc; [exact Hrun| |exact Hop].
    unfold change_sets. by rewrite lookup_omap, Hc.
  - intros n q a. destruct (decide (name = n)) as [<-|Hne].
    + rewrite lookup_insert_eq. intros [= <- <-]. destruct (H3 _ _ _ Hc) as (d & m & [= <-] & Hm & Hn & Ht).
      exists c', m. split_and!; [done..|]. intros Hcur. specialize (Ht Hcur).
      destruct (repeatable_op op c) as (r1 & c1 & Hop1 & Hst & _). rewrite Hop in Hop1. simplify_eq.
      unfold tracks in *. by rewrite (step_state _ _ _ Hst), (step_start _ _ _ Hst), (step_counter _ _ _ Hst).
    + rewrite lookup_insert_ne by done. apply H3.
Qed.

(** Pointers a transaction holds are those it held, new objects, or current
    maps. *)
Record tx_extends (s : Store) (t t' : Tx) : Prop := mkTxExtends {
  te_created : forall n p, created_maps t' !! n = Some p ->
    created_maps t !! n = Some p \/ heap s !! p = None;
  te_changes : forall n p a, all_changes t' !! n = Some (p, a) ->
    (exists a', all_changes t !! n = Some (p, a')) \/ heap s !! p = None \/ current s n p;
}.

Lemma chosen_fields s t :
  all_changes (chosen s t) = all_changes t /\ created_maps (chosen s t) = created_maps t /\
  committed (chosen s t) = committed t.
Proof. unfold chosen. by destruct (read_txid t). Qed.

Lemma open_map_inv name s x r s' t' :
  store_inv s -> tx_inv s x -> all_changes (open_tx x) !! name = None ->
  open_map name (s, open_tx x) = (r, (s', t')) ->
  good_step s s' /\
  (r = Ok tt -> tx_inv s' (mkOpenTx t' (open_ops x) (open_results x)) /\
    (exists p c, all_changes t' !! name = Some (p, Changes c)) /\ tx_extends s (open_tx x) t').
Proof.
  intros Hs Hx Hnone. unfold open_map. destruct (chosen_fields s (open_tx x)) as (Ech & Ecr & Eco).
  destruct (get_map_internal _ _ _) as [p|] eqn:Hg.
  - assert (current s name p) as Hcur.
    { unfold get_map_internal in Hg. destruct (maps s !! name) as [[cv q]|] eqn:Hq; [|done].
      destruct (_ || _); simplify_eq. by exists cv. }
    destruct (current_heap s name p Hs Hcur) as (m & Hm & Hn & Hw). rewrite Hm. simpl.
    destruct (create_change_set _ _ _) as [c|] eqn:Hc; intros [= <- <- <-]; (split; [done|]); [|done].
    intros _. split_and!.
    + eapply (tx_inv_open s x _ name p c m); try done;
        [by eapply tracks_create|by eapply create_unused|by rewrite <- Ech|by left].
    + exists p, c. simpl. by rewrite lookup_insert_eq.
    + split; simpl; rewrite ?Ecr; [by left|]. intros n q a. rewrite Ech.
      destruct (decide (name = n)) as [<-|Hne]; [|rewrite lookup_insert_ne by done; eauto].
      rewrite lookup_insert_eq. intros [= <- _]. by right; right.
  - destruct (created_maps _ !! name) eqn:Hcn; [by intros [= <- <- <-]|].
    pose proof (with_new_map_good name s Hs) as [Hs' Hh].
    destruct (create_change_set _ _ _) as [c|] eqn:Hc; intros [= <- <- <-];
      (split; [by apply with_new_map_good|]); [|done].
    intros _. split_and!.
    + eapply (tx_inv_open (with_new_map name s) x _ name (fresh_ptr s) c); try done.
      * by eapply tx_inv_heap.
      * simpl. apply lookup_insert_eq.
      * done.
      * eapply tracks_create; [apply new_map_wf|done].
      * by eapply create_unused.
      * by rewrite <- Ech.
      * right. split_and!; [done|done|]. intros n Hcur.
        destruct (current_heap s n _ Hs Hcur) as (m & Hm & _). by rewrite fresh_ptr_heap in Hm.
    + eexists _, c. simpl. by rewrite lookup_insert_eq.
    + split; simpl; intros n q.
      * destruct (decide (name = n)) as [<-|Hne]; [|rewrite lookup_insert_ne by done; eauto].
        rewrite lookup_insert_eq. intros [= <-]. right. apply fresh_ptr_heap.
      * intros a. rewrite Ech. destruct (decide (name = n)) as [<-|Hne]; [|rewrite lookup_insert_ne by done; eauto].
        rewrite lookup_insert_eq. intros [= <- _]. right; left. apply fresh_ptr_heap.
Qed.

Lemma use_handle_eq {A} name (m : M ChangeSet A) (s : Store) t :
  use_handle name m (s, t) =
  match get_handle_by_name name false (s, t) with
  | (Throw e, st) => (Throw e, st)
  | (Ok _, (s', t')) =>
      match all_changes t' !! name with
      | Some (p, Changes c) => let '(r, c') := m c in (r, (s', opened name p c' t'))
      | _ => (Throw OutOfBounds, (s', t'))
      end
  end.
Proof.
  unfold use_handle, bind at 1. destruct (get_handle_by_name _ _ _) as [[u|e] [s' t']]; [|done].
  unfold bind, get_tx, gets. simpl. destruct (all_changes t' !! name) as [[p [c|]]|]; [|done..].
  by destruct (m c) as [[r|e] c'].
Qed.

Lemma use_handle_inv name op s x r s' t' :
  store_inv s -> tx_inv s x ->
  use_handle name (run_tx_op op) (s, open_tx x) = (r, (s', t')) ->
  good_step s s' /\
  forall a, r = Ok a ->
    tx_inv s' (mkOpenTx t' (open_ops x ++ [(name, op)]) (open_results x ++ [a])) /\
    tx_extends s (open_tx x) t'.
Proof.
  intros Hs Hx. rewrite use_handle_eq, get_handle_eq.
  assert (forall s1 t1 p c a c', tx_inv s1 (mkOpenTx t1 (open_ops x) (open_results x)) ->
    tx_extends s (open_tx x) t1 -> all_changes t1 !! name = Some (p, Changes c) ->
    run_tx_op op c = (Ok a, c') ->
    tx_inv s1 (mkOpenTx (opened name p c' t1) (open_ops x ++ [(name, op)]) (open_results x ++ [a])) /\
    tx_extends s (open_tx x) (opened name p c' t1)) as Hop.
  { intros s1 t1 p c a c' Hi [E1 E2] Hc Hrun. split; [by apply (tx_inv_op s1 _ name op p c a c' Hi)|].
    split; simpl; [done|]. intros n q b. destruct (decide (name = n)) as [<-|Hne].
    - rewrite lookup_insert_eq. intros [= <- _]. by eapply E2.
    - rewrite lookup_insert_ne by done. apply E2. }
  destruct (all_changes (open_tx x) !! name) as [[p b]|] eqn:Hnone.
  - rewrite Hnone. destruct (tm_changes _ _ (ti_maps _ _ Hx) _ _ _ Hnone) as (c & m & -> & _).
    destruct (run_tx_op op c) as [r1 c'] eqn:Hrun. intros [= <- <- <-]. split; [done|].
    intros a ->. apply (Hop s _ p c a c'); try done; [by destruct x|]. split; eauto.
  - destruct (open_map name (s, open_tx x)) as [u [s1 t1]] eqn:Ho.
    destruct (open_map_inv _ _ _ _ _ _ Hs Hx Hnone Ho) as [Hg Hok].
    destruct u as [[]|e]; [|by intros [= <- <- <-]].
    destruct (Hok eq_refl) as (Hi & (p & c & Hc) & He). rewrite Hc.
    destruct (run_tx_op op c) as [r1 c'] eqn:Hrun. intros [= <- <- <-]. split; [done|].
    intros a ->. by apply (Hop s1 t1 p c a c').
Qed.

(** ** The invariant of the world *)

Lemma created_heap s x n p : tx_inv s x -> created_maps (open_tx x) !! n = Some p -> heap s !! p <> None.
Proof. intros Hx Hn. destruct (tm_created _ _ (ti_maps _ _ Hx) n p Hn) as [(m & Hm & _) _]. by rewrite Hm. Qed.

Lemma changes_heap s x n p a : tx_inv s x -> all_changes (open_tx x) !! n = Some (p, a) -> heap s !! p <> None.
Proof. intros Hx Hn. destruct (tm_changes _ _ (ti_maps _ _ Hx) n p a Hn) as (c & m & _ & Hm & _). by rewrite Hm. Qed.

Lemma world_inv_update w i x s' x' :
  world_inv w -> w_txs w !! i = Some x -> good_step (w_store w) s' -> tx_inv s' x' ->
  tx_extends (w_store w) (open_tx x) (open_tx x') ->
  world_inv (mkWorld s' (<[i := x']> (w_txs w))).
Proof.
  intros [Hs Ht Hc] Hi Hg Hx' [E1 E2]. destruct (Hg Hs) as [Hs' Hh]. split; simpl; [done|..].
  - intros j y. destruct (decide (i = j)) as [<-|Hne].
    + rewrite lookup_insert_eq. by intros [= <-].
    + rewrite lookup_insert_ne by done. intros Hy. by eapply tx_inv_heap, Ht.
  - intros j k y z n p. destruct (decide (i = j)) as [<-|Hj], (decide (i = k)) as [<-|Hk];
      rewrite ?lookup_insert_eq, ?lookup_insert_ne by done; intros Hy Hz Hne Hn; [done|..].
    + injection Hy as <-. destruct (E1 n p Hn) as [Hn'|Hnone]; [by apply (Hc i k x z n)|].
      pose proof (Ht k z Hz) as Hz'. split; intros; intros Hn';
        [by eapply (changes_heap _ z)|by eapply (created_heap _ z)].
    + injection Hz as <-. destruct (Hc j i y x n p Hy Hi Hne Hn) as [C1 C2].
      pose proof (created_heap _ _ _ _ (Ht j y Hy) Hn) as Hp.
      split; intros n'; [intros a Ha|intros Ha].
      * destruct (E2 n' p a Ha) as [[a' Ha']|[Hnone|Hcur]]; [by eapply C1|done|].
        by eapply (proj2 (tm_created _ _ (ti_maps _ _ (Ht j y Hy)) n p Hn)).
      * destruct (E1 n' p Ha) as [Ha'|Hnone]; [by eapply C2|done].
    + by apply (Hc j k y z n p).
Qed.

Lemma world_inv_delete w i s' :
  world_inv w -> good_step (w_store w) s' -> world_inv (mkWorld s' (delete i (w_txs w))).
Proof.
  intros [Hs Ht Hc] Hg. destruct (Hg Hs) as [Hs' Hh]. split; simpl; [done|..].
  - intros j y [Hj Hy]%lookup_delete_Some. by eapply tx_inv_heap, Ht.
  - intros j k y z n p [_ Hy]%lookup_delete_Some [_ Hz]%lookup_delete_Some. by apply Hc.
Qed.

Lemma world_inv_use i name op w : world_inv w -> world_inv (world_step (WUse i name op) w).
Proof.
  intros Hw. simpl. destruct (w_txs w !! i) as [x|] eqn:Hi; [|done].
  destruct (use_handle name (run_tx_op op) (w_store w, open_tx x)) as [r [s' t']] eqn:Hu.
  destruct (use_handle_inv _ _ _ _ _ _ _ (wi_store _ Hw) (wi_txs _ Hw i x Hi) Hu) as [Hg Hok].
  destruct r as [r|e]; [|by apply world_inv_delete].
  destruct (Hok r eq_refl) as [Hx He]. by eapply world_inv_update.
Qed.

Lemma world_inv_store s' w : world_inv w -> good_step (w_store w) s' -> world_inv (mkWorld s' (w_txs w)).
Proof.
  intros [Hs Ht Hc] Hg. destruct (Hg Hs) as [Hs' Hh]. split; simpl; [done| |done].
  intros j y Hy. by eapply tx_inv_heap, Ht.
Qed.

Lemma tx_inv_new s : tx_inv s (mkOpenTx new_tx [] []).
Proof.
  split; [done| |split].
  - exists ∅. split; [done|]. intros n c. by rewrite lookup_empty.
  - intros n p a. simpl. by rewrite lookup_empty.
  - intros n p. simpl. by rewrite lookup_empty.
Qed.

Lemma world_inv_begin i w : world_inv w -> world_inv (world_step (WBegin i) w).
Proof.
  intros [Hs Ht Hc]. simpl. destruct (w_txs w !! i) eqn:Hi; [by split|]. split; simpl; [done|..].
  - intros j y. destruct (decide (i = j)) as [<-|Hne].
    + rewrite lookup_insert_eq. intros [= <-]. apply tx_inv_new.
    + rewrite lookup_insert_ne by done. apply Ht.
  - intros j k y z n p. destruct (decide (i = j)) as [<-|Hj], (decide (i = k)) as [<-|Hk];
      rewrite ?lookup_insert_eq, ?lookup_insert_ne by done; intros Hy Hz Hne Hn; [done|..].
    + injection Hy as <-. simpl in Hn. by rewrite lookup_empty in Hn.
    + injection Hz as <-. simpl. split; intros; by rewrite lookup_empty.
    + by apply (Hc j k y z n p).
Qed.

End world.
End KvWorld.
