(* ===== verification/KvCommit.v ===== *)
(** * Key-value store: commits of concurrent transactions

    What [apply_changes] and [Store::commit] do to the maps, the invariant of
    every reachable world, and serialisability: a transaction whose commit
    succeeds might as well have run alone at that moment. *)

From S2P Require Import Prelude ViewHistory TxStatus LedgerEntries KvMap KvRoll KvHandle KvIsolation.
From S2P Require Import KvSerialise KvStore KvTx KvWorld.

Open Scope N_scope.
Open Scope m_scope.

Module KvCommit.
Import Untyped MapHandle Isolation KvStore KvTx KvWorld.

Section commit.
Context {Hook : Type} `{HE : !KvEnv Hook} `{HO : !StateOrder}.
Abbreviation Store := (Store Hook).

(** ** Adding maps *)

(** Maps with the same shape. *)
Definition same_heap (h h' : gmap N (Map Hook)) : Prop := forall p, shape <$> h' !! p = shape <$> h !! p.

#[export] Instance same_heap_preorder : PreOrder same_heap.
Proof. split; [done|]. intros h1 h2 h3 H1 H2 p. by rewrite H2, H1. Qed.

Lemma same_heap_alter f p (h : gmap N (Map Hook)) :
  (forall m, shape (f m) = shape m) -> same_heap h (alter f p h).
Proof.
  intros Hf q. destruct (decide (p = q)) as [<-|Hne].
  - rewrite lookup_alter_eq. destruct (h !! p); [|done]. simpl. by rewrite Hf.
  - by rewrite lookup_alter_ne.
Qed.

(** [maps] grown by the given maps at version [v]. *)
Record maps_added (v : Version) (l : list (string * N)) (s s' : Store) : Prop := mkMapsAdded {
  ma_heap : same_heap (heap s) (heap s');
  ma_maps : maps s' = foldl (fun ms e => <[e.1 := (v, e.2)]> ms) (maps s) l;
  ma_version : version s' = version s;
  ma_compacted : compacted s' = compacted s;
  ma_pending : pending_txs s' = pending_txs s;
}.

Lemma add_dynamic_map_spec v name p s :
  maps s !! name = None ->
  exists s', add_dynamic_map v name p s = (Ok tt, s') /\ maps_added v [(name, p)] s s'.
Proof.
  intros Hn. unfold add_dynamic_map, bind, gets, id, get_map_internal. rewrite Hn. simpl.
  assert (forall h : gmap N (Map Hook), same_heap h (alter (Untyped.set_global_hook true) p h)) as Hg
    by (intros; by apply same_heap_alter).
  assert (forall f (h : gmap N (Map Hook)), same_heap h (alter (Untyped.set_map_hook (Some f)) p h)) as Hm
    by (intros; by apply same_heap_alter).
  destruct (bool_decide _); simpl; destruct (map_hooks s !! name) as [f|]; simpl;
    eexists; (split; [done|]); split; simpl; try done;
    first [apply Hg|apply Hm|etrans; [apply Hg|apply Hm]].
Qed.

Definition writes_to (changes : gmap string (N * AnyChangeSet)) (name : string) : bool :=
  match changes !! name with Some (_, c) => has_writes c | None => false end.

(** The loop over the maps the transaction created. *)
Lemma add_dynamic_maps_spec v (changes : gmap string (N * AnyChangeSet)) (l : list (string * N)) s :
  NoDup l.*1 -> (forall e, e ∈ l -> maps s !! e.1 = None) ->
  exists s', for_each (fun e => match changes !! e.1 with
                                | Some (_, c) => when (has_writes c) (add_dynamic_map v e.1 e.2)
                                | None => ret tt
                                end) l s = (Ok tt, s') /\
    maps_added v (filter (fun e => writes_to changes e.1 = true) l) s s'.
Proof.
  revert s. induction l as [|[n p] l IH]; intros s Hnd Hnone.
  { exists s. split; [done|]. by split. }
  inversion Hnd as [|?? Hn Hnd']; subst. cbn [for_each]. unfold bind at 1.
  assert (exists s1, (match changes !! (n, p).1 with
      | Some (_, c) => when (has_writes c) (add_dynamic_map v (n, p).1 (n, p).2)
      | None => ret tt end) s = (Ok tt, s1) /\
    maps_added v (if writes_to changes n then [(n, p)] else []) s s1) as (s1 & Heq & H1).
  { cbn [fst snd]. unfold writes_to. destruct (changes !! n) as [[q c]|].
    - destruct (has_writes c); [apply add_dynamic_map_spec, (Hnone (n, p)); by left|].
      exists s. split; [done|]. by split.
    - exists s. split; [done|]. by split. }
  rewrite Heq. destruct (IH s1 Hnd') as (s2 & Heq2 & H2).
  { intros e He. rewrite (ma_maps _ _ _ _ H1). destruct (writes_to changes n); cbn [foldl fst snd];
      [rewrite lookup_insert_ne|]; try (apply Hnone; by right).
    intros ->. apply Hn. by apply list_elem_of_fmap_2. }
  exists s2. split; [done|]. destruct H1 as [A1 A2 A3 A4 A5], H2 as [B1 B2 B3 B4 B5].
  split; [by etrans| |congruence..]. rewrite B2, A2, filter_cons. cbn [fst].
  destruct (writes_to changes n); done.
Qed.

(** ** Committing the change sets *)

Lemma commit_all_spec v t (l : list (string * (N * AnyChangeSet))) (s : Store) :
  NoDup ((fun e => e.2.1) <$> l) -> (forall e, e ∈ l -> is_Some (heap s !! e.2.1)) ->
  exists out h, commit_all v t l s = (Ok out, set_heap h s) /\
    (forall p, p ∉ (fun e => e.2.1) <$> l -> h !! p = heap s !! p) /\
    (forall n p c m, (n, (p, c)) ∈ l -> heap s !! p = Some m -> h !! p = Some (commit v t c m).1).
Proof.
  revert s. induction l as [|[n [p c]] l IH]; intros s Hnd Hin.
  { exists [], (heap s). split_and!; [by destruct s|done|]. by intros ???? ?%not_elem_of_nil. }
  inversion Hnd as [|?? Hp Hnd']; subst. destruct (Hin (n, (p, c))) as [m Hm]; [by left|].
  simpl in Hm. cbn [commit_all]. unfold commit_map, bind, gets, id. rewrite Hm.
  destruct (commit v t c m) as [m' cv] eqn:Hc. cbn [modify ret].
  destruct (IH (set_heap (<[p := m']> (heap s)) s) Hnd') as (out & h & Heq & Ho & Hl).
  { intros e He. simpl. rewrite lookup_insert_ne; [apply Hin; by right|].
    intros ->. apply Hp. apply list_elem_of_fmap. by exists e. }
  unfold ret. simpl in Heq. rewrite Heq. eexists _, h. split_and!; [done|..].
  - intros q Hq. rewrite fmap_cons, not_elem_of_cons in Hq. destruct Hq as [Hq1 Hq2].
    rewrite Ho by done. simpl. by rewrite lookup_insert_ne.
  - intros n' q c' m0 [Hq|Hq]%elem_of_cons Hm0.
    + simplify_eq. rewrite Ho by done. simpl. by rewrite lookup_insert_eq, Hc.
    + apply (Hl n' q c'); [done|]. simpl. rewrite lookup_insert_ne; [done|]. intros ->.
      apply Hp. apply list_elem_of_fmap. by exists (n', (q, c')).
Qed.

Lemma commit_shape v t c (m m' : Map Hook) :
  shape m = shape m' -> shape (commit_changes v t c m).1 = shape (commit_changes v t c m').1.
Proof.
  intros Hs. pose proof (shape_roll _ _ Hs) as Hr. pose proof (shape_ident _ _ Hs) as Hn.
  rewrite !RollSpec.commit_changes_step, Hr. case_bool_decide; [done|].
  destruct (RollSpec.effective _ _ _); [|done]. unfold shape. cbn [fst].
  change (ident (set_roll ?r m)) with (ident m). change (ident (set_roll ?r m')) with (ident m').
  cbn [roll set_roll]. by rewrite Hn.
Qed.

(** What a successful [apply_changes] does to the store. *)
Record commit_step (t : Tx) (s s' : Store) : Prop := mkCommitStep {
  cs_version : version s' = version s + 1;
  cs_compacted : compacted s' = compacted s;
  cs_pending : pending_txs s' = pending_txs s;
  cs_maps : forall n cv p, maps s' !! n = Some (cv, p) <->
    maps s !! n = Some (cv, p) \/
    maps s !! n = None /\ cv = version s + 1 /\ created_maps t !! n = Some p /\
    writes_to (all_changes t) n = true;
  cs_changed : forall n p c m, all_changes t !! n = Some (p, Changes c) -> heap s !! p = Some m ->
    exists m', heap s' !! p = Some m' /\ shape m' = shape (commit_changes (version s + 1) false c m).1;
  cs_unchanged : forall p, (forall n c, all_changes t !! n <> Some (p, c)) ->
    shape <$> heap s' !! p = shape <$> heap s !! p;
}.

(** The checks of [apply_changes]. *)
Definition checks_pass (t : Tx) (s : Store) : bool :=
  (if any_writes (all_changes t) then prepare_all (all_changes t) s else true) &&
  forallb (fun e => bool_decide (get_map_internal (version s) e.1 s = None)) (by_name (created_maps t)).

Definition apply_tx (t : Tx) : M Store (option Version * list Hook) :=
  apply_changes (all_changes t) next_version (created_maps t) None false None.

Lemma foldl_maps v (l : list (string * N)) (ms : gmap string (Version * N)) n :
  NoDup l.*1 ->
  foldl (fun ms e => <[e.1 := (v, e.2)]> ms) ms l !! n =
  match (list_to_map l : gmap string N) !! n with Some p => Some (v, p) | None => ms !! n end.
Proof.
  revert ms. induction l as [|[k p] l IH]; intros ms Hnd; [done|].
  inversion Hnd as [|?? Hk Hnd']; subst. cbn [foldl list_to_map foldr fst snd]. rewrite IH by done.
  change (foldr (fun p => <[p.1 := p.2]>) ∅ l) with (list_to_map l : gmap string N).
  destruct (decide (k = n)) as [<-|Hne].
  - rewrite lookup_insert_eq.
    rewrite (not_elem_of_list_to_map_1 (M := gmap string)) by done. by rewrite lookup_insert_eq.
  - by rewrite !lookup_insert_ne.
Qed.

Lemma by_name_NoDup {A} (m : gmap string A) : NoDup (by_name m).*1.
Proof. rewrite by_name_permutation. apply NoDup_fst_map_to_list. Qed.

Lemma changes_pointers (s : Store) t :
  tx_maps s t ->
  NoDup ((fun e => e.2.1) <$> by_name (all_changes t)) /\
  forall e, e ∈ by_name (all_changes t) -> is_Some (heap s !! e.2.1).
Proof.
  intros Hx. split.
  - apply NoDup_fmap_2_strong.
    + intros [n [p a]] [n' [p' a']] H1 H2 Heq. simpl in Heq. subst p'. apply elem_of_by_name in H1, H2.
      destruct (tm_changes _ _ Hx _ _ _ H1) as (c & m & -> & Hm & Hn & _).
      destruct (tm_changes _ _ Hx _ _ _ H2) as (c' & m' & -> & Hm' & Hn' & _).
      assert (n = n') as <- by (apply ident_of_inj; congruence). congruence.
    + eapply NoDup_fmap_1, by_name_NoDup.
  - intros [n [p a]] He%elem_of_by_name.
    destruct (tm_changes _ _ Hx _ _ _ He) as (c & m & -> & Hm & _). simpl. by rewrite Hm.
Qed.

Lemma maps_added_lookup v (created : gmap string N) (f : string -> bool) (ms : gmap string (Version * N)) n cv p :
  (forall k q, created !! k = Some q -> ms !! k = None) ->
  foldl (fun ms e => <[e.1 := (v, e.2)]> ms) ms (filter (fun e => f e.1 = true) (by_name created)) !! n
    = Some (cv, p) <->
  ms !! n = Some (cv, p) \/ ms !! n = None /\ cv = v /\ created !! n = Some p /\ f n = true.
Proof.
  intros Hnone. set (l := filter _ _).
  assert (NoDup l.*1) as Hnd.
  { eapply sublist_NoDup; [apply (by_name_NoDup created)|]. apply fmap_sublist, sublist_filter. }
  assert (forall q, (list_to_map l : gmap string N) !! n = Some q <-> created !! n = Some q /\ f n = true) as Hl.
  { intros q. rewrite <- elem_of_list_to_map by done. unfold l.
    rewrite list_elem_of_filter, elem_of_by_name. simpl. tauto. }
  rewrite foldl_maps by done. destruct ((list_to_map l : gmap string N) !! n) as [q|] eqn:Hq.
  - destruct (proj1 (Hl q) eq_refl) as [Hc Hf]. rewrite (Hnone _ _ Hc). naive_solver.
  - split; [by left|]. intros [?|(_ & -> & Hc & Hf)]; [done|].
    by pose proof (proj2 (Hl p) (conj Hc Hf)).
Qed.

Lemma created_not_found t s n p :
  store_inv s -> checks_pass t s = true -> created_maps t !! n = Some p -> maps s !! n = None.
Proof.
  intros Hs Hc Hn. unfold checks_pass in Hc. apply andb_prop in Hc as [_ Hc].
  rewrite forallb_forall in Hc. specialize (Hc (n, p)). rewrite <- list_elem_of_In in Hc.
  rewrite elem_of_by_name in Hc. specialize (Hc Hn). apply bool_decide_eq_true in Hc. simpl in Hc.
  unfold get_map_internal in Hc. destruct (maps s !! n) as [[cv q]|] eqn:Hq; [|done].
  destruct (si_maps _ Hs _ _ _ Hq) as (m & _ & _ & _ & Hcv & _).
  destruct (N.leb_spec cv (version s)); [done|lia].
Qed.

Lemma apply_tx_fails t s :
  checks_pass t s = false -> apply_tx t s = (Ok (None, []), s).
Proof.
  unfold checks_pass, apply_tx, apply_changes, bind, gets, id. cbn [default].
  destruct (any_writes (all_changes t)); cbn [andb].
  - destruct (prepare_all _ _); cbn [andb]; [|done]. by intros ->.
  - by intros ->.
Qed.

Lemma apply_tx_reads t s :
  checks_pass t s = true -> any_writes (all_changes t) = false -> apply_tx t s = (Ok (Some NoVersion, []), s).
Proof.
  unfold checks_pass, apply_tx, apply_changes, bind, gets, id. cbn [default]. intros Hc Hw.
  rewrite Hw in *. cbn [andb] in *. by rewrite Hc.
Qed.

Lemma next_version_ok b (s : Store) :
  version s < int64_max ->
  exists s' w, next_version b s = (Ok (version s + 1, w), s') /\
    heap s' = heap s /\ maps s' = maps s /\ version s' = version s + 1 /\ compacted s' = compacted s /\
    pending_txs s' = pending_txs s.
Proof.
  intros Hv. unfold next_version, next_version_unsafe, bind, modify, gets. simpl.
  destruct (N.ltb_spec int64_max (version s + 1)); [lia|].
  destruct b; simpl; do 2 eexists; split_and!; reflexivity.
Qed.

(** [apply_changes] when the checks pass and there is something to write, for
    any way to choose the next version. *)
Lemma apply_changes_commits s t resolver s0 w :
  store_inv s -> tx_maps s t -> checks_pass t s = true -> any_writes (all_changes t) = true ->
  resolver (negb (bool_decide (created_maps t = ∅))) s = (Ok (version s + 1, w), s0) ->
  heap s0 = heap s -> maps s0 = maps s -> compacted s0 = compacted s -> pending_txs s0 = pending_txs s ->
  exists hooks s', apply_changes (all_changes t) resolver (created_maps t) None false None s =
      (Ok (Some (version s + 1), hooks), s') /\
    version s' = version s0 /\ commit_step t s (set_version (version s + 1) s').
Proof.
  intros Hs Hx Hc Hw Hnext Eh Em Ec Ep.
  destruct (add_dynamic_maps_spec (version s + 1) (all_changes t) (by_name (created_maps t)) s0)
    as (s2 & Hadd & [A1 A2 A3 A4 A5]).
  { apply by_name_NoDup. }
  { intros [n p] He%elem_of_by_name. rewrite Em. by eapply created_not_found. }
  destruct (changes_pointers s t Hx) as [Hnd Hin].
  assert (forall p m, heap s !! p = Some m -> exists m', heap s2 !! p = Some m' /\ shape m' = shape m) as Hs2.
  { intros p m Hm. pose proof (A1 p) as Hp. rewrite Eh, Hm in Hp. simpl in Hp.
    apply fmap_Some in Hp as (m' & Hm' & Hr). by exists m'. }
  destruct (commit_all_spec (version s + 1) false (by_name (all_changes t)) s2 Hnd)
    as (out & h & Hcom & Ho & Hl).
  { intros e He. destruct (Hin e He) as [m Hm]. destruct (Hs2 _ m Hm) as (m' & Hm' & _). by eexists. }
  do 2 eexists. split_and!.
  - unfold apply_changes, bind, gets, id. cbn [default]. unfold checks_pass in Hc.
    rewrite Hw in *. cbn [andb]. rewrite Hc. cbn [andb]. rewrite Hnext, Hadd, Hcom. done.
  - done.
  - split; simpl; try congruence.
    + intros n cv p. rewrite A2, Em. apply maps_added_lookup. intros k q. by eapply created_not_found.
    + intros n p c m Hn Hm. destruct (Hs2 p m Hm) as (m' & Hm' & Hr).
      exists (commit (version s + 1) false (Changes c) m').1. split; [|by apply commit_shape].
      apply (Hl n); [by apply elem_of_by_name|done].
    + intros p Hp. rewrite Ho, <- Eh; [apply A1|]. rewrite list_elem_of_fmap.
      intros ([n [q c]] & Heq & He%elem_of_by_name). simpl in Heq. subst q. by eapply Hp.
Qed.

Lemma apply_tx_commits s t :
  store_inv s -> tx_maps s t -> version s < int64_max ->
  checks_pass t s = true -> any_writes (all_changes t) = true ->
  exists hooks s', apply_tx t s = (Ok (Some (version s + 1), hooks), s') /\ commit_step t s s'.
Proof.
  intros Hs Hx Hv Hc Hw. destruct (next_version_ok (negb (bool_decide (created_maps t = ∅))) s Hv)
    as (s0 & w & Hnext & Eh & Em & Ev & Ec & Ep).
  destruct (apply_changes_commits s t next_version s0 w Hs Hx Hc Hw Hnext Eh Em Ec Ep)
    as (hooks & s' & Hap & Ev' & Hst).
  exists hooks, s'. split; [exact Hap|]. rewrite Ev in Ev'. rewrite <- Ev' in Hst. by destruct s'.
Qed.

(** ** The invariant after a commit *)

Definition touched (t : Tx) (p : N) : Prop := exists n c, all_changes t !! n = Some (p, c).
Definition added (t : Tx) (p : N) : Prop := exists n, created_maps t !! n = Some p.

Lemma touched_dec t p : touched t p \/ forall n c, all_changes t !! n <> Some (p, c).
Proof.
  destruct (decide (Exists (fun e => e.2.1 = p) (map_to_list (all_changes t)))) as [H|H].
  - left. apply Exists_exists in H as ([n [q c]] & He & Heq). simpl in Heq. subst q.
    apply elem_of_map_to_list in He. by exists n, c.
  - right. intros n c Hn. apply H, Exists_exists. exists (n, (p, c)).
    split; [by apply elem_of_map_to_list|done].
Qed.

Lemma commit_roll v c (m : Map Hook) :
  map_wf m -> lc_version (get_tail (roll m)) < v ->
  map_wf (commit_changes v false c m).1 /\
  lc_version (get_tail (roll (commit_changes v false c m).1)) <= v /\
  roll_head (roll (commit_changes v false c m).1) = roll_head (roll m) /\
  ident (commit_changes v false c m).1 = ident m /\
  forall d, tracks d m -> tracks d (commit_changes v false c m).1.
Proof.
  intros Hw Hv. split_and!; [by apply map_wf_commit| | | |intros; by apply tracks_commit];
    rewrite RollSpec.commit_changes_step; case_bool_decide; simpl; try lia; try done;
    destruct (RollSpec.effective _ _ _); simpl; try lia; try done.
  rewrite get_tail_insert. simpl. lia.
Qed.

(** An object of the heap after the commit. *)
Lemma commit_step_object t s s' p m :
  commit_step t s s' ->
  (forall n p a, all_changes t !! n = Some (p, a) -> exists c, a = Changes c) ->
  heap s !! p = Some m ->
  exists m', heap s' !! p = Some m' /\ ident m' = ident m /\
    (~ touched t p -> shape m' = shape m) /\
    (map_wf m -> lc_version (get_tail (roll m)) < version s + 1 ->
     map_wf m' /\ lc_version (get_tail (roll m')) <= version s + 1 /\
     roll_head (roll m') = roll_head (roll m) /\ forall d, tracks d m -> tracks d m').
Proof.
  intros Hstep Hch Hm. destruct (touched_dec t p) as [(n & a & Hn)|Hn].
  - destruct (Hch _ _ _ Hn) as [c ->]. destruct (cs_changed _ _ _ Hstep n p c m Hn Hm) as (m' & Hm' & Hr).
    exists m'. split_and!; [done| |intros []; by exists n, (Changes c)|].
    + rewrite (shape_ident _ _ Hr), RollSpec.commit_changes_step. case_bool_decide; [done|].
      by destruct (RollSpec.effective _ _ _).
    + intros Hw Hv. destruct (commit_roll (version s + 1) c m Hw Hv) as (C1 & C2 & C3 & C4 & C5).
      rewrite (shape_roll _ _ Hr). split_and!; [|done|done|].
      * by apply (map_wf_roll (commit_changes (version s + 1) false c m).1); [apply shape_roll|].
      * intros d Hd. by eapply tracks_roll; [by apply shape_roll|apply C5].
  - pose proof (cs_unchanged _ _ _ Hstep p Hn) as Hr. rewrite Hm in Hr. simpl in Hr.
    apply fmap_Some in Hr as (m' & Hm' & Hr). symmetry in Hr. exists m'.
    split_and!; [done|by apply shape_ident|done|]. intros Hw Hv. rewrite (shape_roll _ _ Hr).
    split_and!; [|lia|done|].
    + by apply (map_wf_roll m); [apply shape_roll|].
    + intros d. by apply tracks_roll, shape_roll.
Qed.

Lemma commit_step_inv s t s' :
  store_inv s -> tx_maps s t -> commit_step t s s' ->
  store_inv s' /\ step_with (touched t) (added t) s s'.
Proof.
  intros Hs Hx Hstep.
  assert (forall n p a, all_changes t !! n = Some (p, a) -> exists c, a = Changes c) as Hch.
  { intros n p a Ha. destruct (tm_changes _ _ Hx n p a Ha) as (c & _ & -> & _). by exists c. }
  pose proof (fun p m => commit_step_object t s s' p m Hstep Hch) as Hobj.
  split; split.
  - intros n cv p Hp. rewrite (cs_version _ _ _ Hstep), (cs_compacted _ _ _ Hstep).
    apply (cs_maps _ _ _ Hstep) in Hp as [Hp|(_ & -> & Hp & _)].
    + destruct (si_maps _ Hs _ _ _ Hp) as (m & Hm & Hn & Hw & Hcv & Ht & Hh).
      destruct (Hobj p m Hm) as (m' & Hm' & Hn' & _ & Hrest). destruct Hrest as (C1 & C2 & C3 & _); [done|lia|].
      exists m'. rewrite C3. split_and!; try done; try lia; congruence.
    + destruct (tm_created _ _ Hx _ _ Hp) as [(m & Hm & Hn & Hr) _].
      destruct (Hobj p m Hm) as (m' & Hm' & Hn' & _ & Hrest). destruct Hrest as (C1 & C2 & C3 & _).
      { apply (map_wf_roll (new_map n PUBLIC)); [done|apply new_map_wf]. }
      { rewrite Hr. simpl. lia. }
      exists m'. rewrite C3, Hr. simpl. split_and!; try done; try lia; congruence.
  - rewrite (cs_version _ _ _ Hstep), (cs_compacted _ _ _ Hstep). pose proof (si_compacted _ Hs). lia.
  - rewrite (cs_pending _ _ _ Hstep). apply Hs.
  - intros p m n Hm [cv Hc]. destruct (si_maps _ Hs _ _ _ Hc) as (m0 & Hm0 & _ & Hw & _ & Ht & _).
    simplify_eq. destruct (Hobj p m Hm) as (m' & Hm' & Hn' & _ & Hrest).
    destruct Hrest as (_ & _ & _ & C); [done|lia|]. by exists m'.
  - intros n p m _ [cv Hc]. apply (cs_maps _ _ _ Hstep) in Hc as [Hc|(_ & _ & Hc & _)]; [left; by exists cv|].
    right. by exists n.
  - intros p m Hm _. destruct (Hobj p m Hm) as (m' & Hm' & Hn' & Hr & _). by exists m'.
Qed.

(** ** Replication *)

Definition is_move (x : PendingTx Hook * bool) : Prop := exists info, x.1 = MovePendingTx info.
Definition pending_moves (s : Store) : Prop := forall v x, pending_txs s !! v = Some x -> is_move x.

(** Steps that leave the maps and versions alone. *)
Record quiet (s s' : Store) : Prop := mkQuiet {
  q_heap : heap s' = heap s;
  q_maps : maps s' = maps s;
  q_version : version s' = version s;
  q_compacted : compacted s' = compacted s;
  q_pending : pending_moves s -> pending_moves s';
}.

#[export] Instance quiet_preorder : PreOrder quiet.
Proof. split; [by intros s; split|]. intros s1 s2 s3 [] []. split; [congruence..|auto]. Qed.

Lemma quiet_good s s' : quiet s s' -> good_step s s'.
Proof.
  intros [Eh Em Ev Ec Ep] Hs. split; [split|split].
  - rewrite Eh, Em, Ev, Ec. apply Hs.
  - rewrite Ev, Ec. apply Hs.
  - apply Ep. exact (si_pending _ Hs).
  - intros p m n Hm _. exists m. by rewrite Eh.
  - intros n p m _ [cv Hc]. left. exists cv. by rewrite <- Em.
  - intros p m Hm _. exists m. by rewrite Eh.
Qed.

Lemma keeps_call_quiet c : keeps quiet (call c).
Proof. intros s. by split. Qed.
Hint Resolve keeps_call_quiet : ccf.

Lemma take_contiguous_moves fuel next pending :
  (forall v x, pending !! v = Some x -> is_move x) ->
  Forall is_move (take_contiguous fuel next pending).1 /\
  forall v x, (take_contiguous fuel next pending).2 !! v = Some x -> is_move x.
Proof.
  revert next pending. induction fuel as [|fuel IH]; intros next pending Hp; simpl; [done|].
  destruct (pending !! next) as [p|] eqn:Hn; [|done].
  destruct (IH (next + 1) (delete next pending)) as [H1 H2].
  { intros v x [_ Hx]%lookup_delete_Some. eauto. }
  destruct (take_contiguous _ _ _) as [l rest]. simpl in *. eauto.
Qed.

Lemma commit_dequeue_spec txid info b s : exists r s',
  commit_dequeue txid (MovePendingTx info) b s = (Ok r, s') /\ quiet s s' /\
  (pending_moves s -> forall d, r = Some d -> Forall is_move (contiguous_pending_txs d)).
Proof.
  unfold commit_dequeue, bind, gets, id. destruct (negb _ && _).
  { do 2 eexists. by split_and!. }
  set (pending := match pending_txs s !! TxID.seqno txid with
                  | Some _ => pending_txs s
                  | None => <[TxID.seqno txid := (MovePendingTx info, b)]> (pending_txs s) end).
  pose proof (take_contiguous_moves (S (base.size pending)) (last_replicated s + 1) pending) as Ht.
  destruct (take_contiguous _ _ _) as [l rest]. simpl in Ht.
  assert (pending_moves s -> forall v x, pending !! v = Some x -> is_move x) as Hp.
  { intros Hs v x. subst pending. destruct (pending_txs s !! TxID.seqno txid); [apply Hs|].
    intros [[<- <-]|[_ Hx]]%lookup_insert_Some; [by exists info|by eapply Hs]. }
  destruct (b && _); simpl; do 2 eexists; (split_and!; [done|split; simpl; try done|]);
    intros Hs; destruct (Ht (Hp Hs)) as [H1 H2]; solve [exact H2|by intros d [= <-]].
Qed.

Lemma keeps_execute_pending view v l batch :
  Forall is_move l -> keeps quiet (execute_pending view v l batch).
Proof.
  revert v batch. induction l as [|[p c] l IH]; intros v batch Hl; simpl; [keeps_auto|].
  inversion Hl as [|?? [info Hi] Hl']; subst. simpl in Hi. subst p. simpl.
  keeps_auto.
Qed.

Lemma keeps_commit_replicate d batch : keeps quiet (commit_replicate d batch).
Proof. unfold commit_replicate. keeps_auto; by split. Qed.

Lemma store_commit_good txid info b : keeps good_step (store_commit txid (MovePendingTx info) b).
Proof.
  intros s. unfold store_commit. destruct (negb has_consensus); [by apply same_rolls_good|].
  unfold bind at 1. destruct (commit_dequeue_spec txid info b s) as (r & s1 & -> & Hq & Hm).
  intros Hs. specialize (Hm (si_pending _ Hs)). apply quiet_good; [|done].
  destruct r as [d|]; [|done]. specialize (Hm d eq_refl).
  etrans; [exact Hq|]. destruct (contiguous_pending_txs d) as [|p l]; [by split|].
  pose proof (keeps_execute_pending (replication_view d) (previous_last_replicated d + 1) (p :: l) [] Hm s1) as He.
  unfold bind. destruct (execute_pending _ _ _ _ s1) as [[[batch|]|e] s2]; [|done..].
  etrans; [exact He|]. apply keeps_commit_replicate.
Qed.

(** ** Commits *)

Definition store_good (st st' : Store * Tx) : Prop := good_step st.1 st'.1.

#[export] Instance store_good_preorder : PreOrder store_good.
Proof. unfold store_good. split; [intros st; reflexivity|]. intros s1 s2 s3 H1 H2. by etrans. Qed.

Lemma keeps_store_on {A} (m : M Store A) : keeps good_step m -> keeps store_good (on_store m).
Proof. intros Hm [s t]. unfold on_store, store_good. specialize (Hm s). by destruct (m s). Qed.

Lemma keeps_upd_tx f : keeps store_good (upd_tx f).
Proof. intros [s t]. unfold store_good. reflexivity. Qed.

Lemma keeps_get_tx {A} (f : Tx -> A) : keeps store_good (get_tx f).
Proof. intros [s t]. unfold store_good. reflexivity. Qed.

Lemma keeps_get_store {A} (f : Store -> A) : keeps store_good (get_store f).
Proof. intros [s t]. unfold store_good. reflexivity. Qed.

Lemma keeps_set_snapshot b : keeps good_step (modify (set_snapshot_at_next_signature (Hook := Hook) b)).
Proof. intros s. by apply same_rolls_good. Qed.

Hint Resolve keeps_store_on keeps_upd_tx keeps_get_tx keeps_get_store store_commit_good
  keeps_set_snapshot : ccf.

Lemma keeps_serialise claims : keeps store_good (serialise claims).
Proof. unfold serialise. keeps_auto. Qed.
Hint Resolve keeps_serialise : ccf.

Lemma keeps_tx_replicate claims hooks : keeps store_good (tx_replicate claims hooks).
Proof.
  intros st. unfold tx_replicate.
  match goal with |- context [match ?m st with _ => _ end] => 
    assert (keeps store_good m) as Hk by keeps_auto; specialize (Hk st);
    destruct (m st) as [[r|e] [s t]] end; done.
Qed.

Lemma keeps_tx_applied t c : keeps store_good (tx_applied t c).
Proof. unfold tx_applied. keeps_auto; apply keeps_store_on, keeps_good, keeps_call. Qed.

(** The store after a commit: the changes are applied, and the rest leaves
    the maps alone. *)
Lemma tx_commit_store claims s x :
  store_inv s -> tx_inv s x -> version s < int64_max ->
  exists s1, (s1 = s \/ commit_step (open_tx x) s s1) /\
    good_step s1 (tx_commit claims (s, open_tx x)).2.1.
Proof.
  intros Hs Hx Hv. set (t := open_tx x).
  assert (exists r s1, apply_tx t s = (Ok r, s1) /\ (s1 = s \/ commit_step t s s1)) as (r & s1 & Hap & Hs1).
  { destruct (checks_pass t s) eqn:Hc; [|do 2 eexists; split; [by apply apply_tx_fails|by left]].
    destruct (any_writes (all_changes t)) eqn:Hw;
      [|do 2 eexists; split; [by apply apply_tx_reads|by left]].
    destruct (apply_tx_commits s t Hs (ti_maps _ _ Hx) Hv Hc Hw) as (hooks & s' & Heq & Hst).
    do 2 eexists. split; [exact Heq|by right]. }
  unfold tx_commit, bind at 1, get_tx at 1, gets. cbn [snd id]. rewrite (ti_open _ _ Hx : committed t = false).
  destruct (bool_decide (all_changes t = ∅)); [exists s; split; [by left|]; simpl; reflexivity|].
  exists s1. split; [done|].
  enough (store_good (s1, t) ((hooks <- tx_apply ;;;
    match hooks with
    | None => ret FAIL_CONFLICT
    | Some hooks => v <- get_tx tx_version ;;; if v =? NoVersion then ret SUCCESS else tx_replicate claims hooks
    end) (s, t)).2) as H by exact H.
  unfold bind at 1. assert (tx_apply (s, t) = tx_applied t r (s1, t)) as ->.
  { unfold tx_apply, bind, get_tx, gets, on_store. cbn [snd id]. unfold apply_tx in Hap. by rewrite Hap. }
  pose proof (keeps_tx_applied t r (s1, t)) as Hk.
  destruct (tx_applied t r (s1, t)) as [[[h|]|e] st']; [|done..].
  etrans; [exact Hk|]. pose proof (keeps_tx_replicate claims h) as Hr. unfold bind, get_tx, gets.
  destruct (_ =? _); [reflexivity|apply Hr].
Qed.

Lemma world_inv_commit i claims w :
  world_inv w -> version (w_store w) < int64_max -> world_inv (world_step (WCommit i claims) w).
Proof.
  intros Hw Hv. simpl. destruct (w_txs w !! i) as [x|] eqn:Hi; [|done].
  pose proof (wi_store _ Hw) as Hs. pose proof (wi_txs _ Hw i x Hi) as Hx.
  destruct (tx_commit_store claims _ x Hs Hx Hv) as (s1 & [->|Hst] & Hg); [by apply world_inv_delete|].
  destruct (commit_step_inv _ _ _ Hs (ti_maps _ _ Hx) Hst) as [Hs1 Hstep].
  apply (world_inv_delete (mkWorld s1 (delete i (w_txs w))) i) in Hg; simpl in Hg.
  { by rewrite delete_delete_eq in Hg. }
  split; simpl; [done|..].
  - intros j y [Hj Hy]%lookup_delete_Some. destruct (wi_txs _ Hw j y Hy) as [T1 T2 T3].
    split; [done|done|]. eapply tx_maps_step; [exact Hstep|..|exact T3].
    + intros n p Hn. destruct (wi_created _ Hw j i y x n p Hy Hi ltac:(congruence) Hn) as [H1 H2].
      split; [intros (n' & c & Hc); by eapply H1|intros (n' & Hc); by eapply H2].
    + intros n p a Hn (n' & Hc). by eapply (proj1 (wi_created _ Hw i j x y n' p Hi Hy Hj Hc)).
  - intros j k y z n p [_ Hy]%lookup_delete_Some [_ Hz]%lookup_delete_Some. by apply Hw.
Qed.

Lemma world_step_inv o w : world_inv w -> world_allowed o w -> world_inv (world_step o w).
Proof.
  destruct o; intros Hw Ha.
  - by apply world_inv_begin.
  - by apply world_inv_use.
  - by apply world_inv_commit.
  - by apply world_inv_store, compact_good.
  - by apply world_inv_store, rollback_good.
Qed.

Lemma world_reachable_inv w : world_reachable w -> world_inv w.
Proof.
  induction 1 as [|o w _ IH Ha]; [|by apply world_step_inv]. split; simpl.
  - split; simpl; [|lia|]; intros; by simplify_map_eq.
  - intros. by simplify_map_eq.
  - intros. by simplify_map_eq.
Qed.

End commit.
End KvCommit.
