(* ===== verification/KvSerial.v ===== *)
(** * Key-value store: serialisability

    A transaction that commits is compared with a new transaction that makes
    the same operations on the store as it is when the commit starts. *)

From S2P Require Import Prelude ViewHistory TxStatus LedgerEntries KvMap KvRoll KvHandle KvIsolation.
From S2P Require Import KvSerialise KvStore KvTx KvExample KvWorld KvCommit.

Open Scope N_scope.
Open Scope m_scope.

Module KvSerial.
Import Untyped MapHandle Isolation KvStore KvTx KvExample KvWorld KvCommit.

Section serial.
Context {Hook : Type} `{HE : !KvEnv Hook} `{HO : !StateOrder}.
Abbreviation Store := (Store Hook).
Abbreviation TxM := (M (Store * Tx)).

(** The operations of a transaction, one after the other. *)
Fixpoint run_tx (ops : list (string * TxOp)) : TxM (list TxResult) :=
  match ops with
  | [] => ret []
  | (name, op) :: ops =>
      r <- use_handle name (run_tx_op op) ;;;
      rs <- run_tx ops ;;;
      ret (r :: rs)
  end.

(** What a transaction writes to a map. *)
Definition writes_of (t : Tx) (name : string) : Write :=
  match change_sets t !! name with Some c => cs_writes c | None => ∅ end.

(** ** Opening maps at the current version *)

Lemma find_commit_tail v r : lc_version (get_tail r) <= v -> find_commit v r = Some (get_tail r).
Proof.
  intros Hv. unfold find_commit, commits.
  destruct (RollSpec.get_tail_cases r) as [[Hn Ht]|(l & c & Hl & Ht)].
  - rewrite Hn, Ht in *. simpl. by destruct (N.leb_spec (lc_version (roll_head r)) v); [|lia].
  - rewrite Hl, Ht in *. rewrite app_comm_cons, reverse_snoc. simpl.
    by destruct (N.leb_spec (lc_version c) v); [|lia].
Qed.

Definition current_state (s : Store) (name : string) : State :=
  match maps s !! name with
  | Some (_, p) => match heap s !! p with Some m => lc_state (get_tail (roll m)) | None => ∅ end
  | None => ∅
  end.

(** The change set of a transaction that opens the map now. *)
Definition fresh_changes (s : Store) (name : string) : option ChangeSet :=
  match maps s !! name with
  | Some (_, p) => heap s !! p ≫= create_change_set (version s) false
  | None => create_change_set (Hook := Hook) (version s) false (new_map name (Serialise.get_security_domain name))
  end.

Lemma fresh_changes_ok s name : store_inv s ->
  exists d, fresh_changes s name = Some d /\ unused d /\ cs_state d = current_state s name.
Proof.
  intros Hs. unfold fresh_changes, current_state. destruct (maps s !! name) as [[cv p]|] eqn:Hp.
  - destruct (si_maps _ Hs _ _ _ Hp) as (m & Hm & _ & _ & _ & Ht & _). rewrite Hm. simpl.
    unfold create_change_set. rewrite find_commit_tail by done. eexists. by split_and!.
  - unfold create_change_set. rewrite find_commit_tail by (simpl; lia). eexists. by split_and!.
Qed.

(** ** Running the operations again *)

(** A run over change sets [css], of which the maps opened so far are in the
    transaction. *)
Record running (s0 : Store) (css : gmap string ChangeSet) (st : Store * Tx) : Prop := mkRunning {
  rn_maps : maps st.1 = maps s0;
  rn_version : version st.1 = version s0;
  rn_heap : forall n cv p, maps s0 !! n = Some (cv, p) -> heap st.1 !! p = heap s0 !! p;
  rn_seqno : read_seqno st.1 st.2 = version s0;
  rn_opened : forall n p a, all_changes st.2 !! n = Some (p, a) ->
    exists c, a = Changes c /\ css !! n = Some c;
  rn_unopened : forall n c, all_changes st.2 !! n = None -> css !! n = Some c ->
    fresh_changes s0 n = Some c;
  rn_created : forall n p, created_maps st.2 !! n = Some p -> all_changes st.2 !! n <> None;
}.

Lemma read_seqno_chosen (s s' : Store) t : read_seqno s' (chosen s t) = read_seqno s t.
Proof. unfold chosen, read_seqno. by destruct (read_txid t) eqn:E; simpl; rewrite ?E. Qed.

Lemma get_map_current (s : Store) name : store_inv s ->
  get_map_internal (version s) name s = snd <$> maps s !! name.
Proof.
  intros Hs. unfold get_map_internal. destruct (maps s !! name) as [[cv p]|] eqn:Hp; [|done].
  destruct (si_maps _ Hs _ _ _ Hp) as (m & _ & _ & _ & Hcv & _).
  by destruct (N.leb_spec cv (version s)); [|lia].
Qed.

(** Adding a map to the transaction. *)
Lemma running_opened s0 css s t s' t' name p c :
  running s0 css (s, t) -> all_changes t !! name = None -> css !! name = Some c ->
  maps s' = maps s -> version s' = version s -> (forall q, heap s !! q <> None -> heap s' !! q = heap s !! q) ->
  (forall n cv q, maps s0 !! n = Some (cv, q) -> heap s0 !! q <> None) ->
  read_seqno s' t' = read_seqno s t ->
  all_changes t' = <[name := (p, Changes c)]> (all_changes t) ->
  (forall n q, created_maps t' !! n = Some q -> created_maps t !! n = Some q \/ n = name) ->
  running s0 css (s', t').
Proof.
  intros [R1 R2 R3 R4 R5 R6 R7] Hnone Hc Em Ev Eh Hin Er Ech Ecr. simpl in *. split; simpl.
  - congruence.
  - congruence.
  - intros n cv q Hq. rewrite Eh; [by eapply R3|]. erewrite R3 by done. by eapply Hin.
  - congruence.
  - intros n q a. rewrite Ech. intros [[<- [= <- <-]]|[_ Ha]]%lookup_insert_Some; [by exists c|by eapply R5].
  - intros n d. rewrite Ech. intros [Hn _]%lookup_insert_None. auto.
  - intros n q Hq. rewrite Ech. destruct (decide (name = n)) as [<-|Hne]; [by rewrite lookup_insert_eq|].
    rewrite lookup_insert_ne by done. destruct (Ecr n q Hq) as [Hq'| ->]; [by eapply R7|done].
Qed.

Lemma open_running s0 css s t name c :
  store_inv s0 -> running s0 css (s, t) -> css !! name = Some c ->
  exists s' t' p, get_handle_by_name name false (s, t) = (Ok tt, (s', t')) /\ running s0 css (s', t') /\
    all_changes t' !! name = Some (p, Changes c).
Proof.
  intros Hs R Hc. rewrite get_handle_eq. destruct (all_changes t !! name) as [[p a]|] eqn:Ha.
  { destruct (rn_opened _ _ _ R name p a Ha) as (d & -> & Hd). simplify_eq. by exists s, t, p. }
  pose proof (rn_unopened _ _ _ R name c Ha Hc) as Hf. unfold fresh_changes in Hf.
  assert (forall n cv q, maps s0 !! n = Some (cv, q) -> heap s0 !! q <> None) as Hin.
  { intros n cv q Hq. destruct (si_maps _ Hs _ _ _ Hq) as (m & Hm & _). by rewrite Hm. }
  destruct (chosen_fields s t) as (Ech & Ecr & _). pose proof (rn_seqno _ _ _ R) as Hq. simpl in Hq.
  unfold open_map. rewrite Hq.
  assert (get_map_internal (version s0) name s = snd <$> maps s0 !! name) as ->.
  { rewrite <- (get_map_current s0 name Hs). unfold get_map_internal. by rewrite (rn_maps _ _ _ R : maps s = _). }
  destruct (maps s0 !! name) as [[cv p]|] eqn:Hp; simpl.
  - rewrite (rn_heap _ _ _ R _ _ _ Hp : heap s !! p = heap s0 !! p), Hf.
    eexists _, _, p. split_and!; [done| |simpl; by rewrite lookup_insert_eq].
    eapply (running_opened s0 css s t s _ name p c); try done; [|by rewrite <- Ech|].
    + apply read_seqno_chosen.
    + simpl. rewrite Ecr. by left.
  - destruct (created_maps t !! name) as [q|] eqn:Hcr; [by destruct (rn_created _ _ _ R name q Hcr)|].
    rewrite Hf. eexists _, _, _. split_and!; [done| |simpl; by rewrite lookup_insert_eq].
    eapply (running_opened s0 css s t (with_new_map name s) _ name (fresh_ptr s) c); try done.
    + intros q Hh. destruct (heap s !! q) as [m|] eqn:Hm; [|done]. by apply with_new_map_lookup.
    + etrans; [apply (read_seqno_chosen s)|]. done.
    + by rewrite <- Ech.
    + simpl. intros n q [[<- _]|[_ Hn]]%lookup_insert_Some; [by right|by left].
Qed.

Lemma run_tx_runs s0 ops css rs css' st :
  store_inv s0 -> running s0 css st -> run_trace ops css = Some (rs, css') ->
  exists st', run_tx ops st = (Ok rs, st') /\ running s0 css' st'.
Proof.
  intros Hs. revert css rs st. induction ops as [|[name op] ops IH]; intros css rs [s t] R; simpl.
  { intros [= <- <-]. by exists (s, t). }
  destruct (css !! name) as [c|] eqn:Hc; [|done].
  destruct (run_tx_op op c) as [[r|e] c'] eqn:Hop; [|done].
  destruct (run_trace ops (<[name := c']> css)) as [[rs1 css1]|] eqn:Hrun; [|done]. intros [= <- <-].
  destruct (open_running s0 css s t name c Hs R Hc) as (s1 & t1 & p & Hg & R1 & H1).
  assert (running s0 (<[name := c']> css) (s1, opened name p c' t1)) as R2.
  { destruct R1 as [A1 A2 A3 A4 A5 A6 A7]. split; simpl in *; try done.
    - intros n q a [[<- [= <- <-]]|[Hne Ha]]%lookup_insert_Some.
      + exists c'. by rewrite lookup_insert_eq.
      + rewrite lookup_insert_ne by done. by eapply A5.
    - intros n d [Hn Hne]%lookup_insert_None. rewrite lookup_insert_ne by done. auto.
    - intros n q Hq. rewrite lookup_insert_None. intros [Hn _]. by eapply A7. }
  destruct (IH _ _ _ R2 Hrun) as (st' & Hr' & R'). exists st'. split; [|done].
  unfold bind. rewrite use_handle_eq, Hg, H1, Hop, Hr'. done.
Qed.

Lemma running_writes s0 css st name :
  store_inv s0 -> running s0 css st ->
  writes_of st.2 name = match css !! name with Some c => cs_writes c | None => ∅ end.
Proof.
  intros Hs R. unfold writes_of, change_sets. rewrite lookup_omap.
  destruct (all_changes st.2 !! name) as [[p a]|] eqn:Ha; simpl.
  - destruct (rn_opened _ _ _ R _ _ _ Ha) as (c & -> & ->). done.
  - destruct (css !! name) as [c|] eqn:Hc; [|done]. pose proof (rn_unopened _ _ _ R _ _ Ha Hc) as Hf.
    destruct (fresh_changes_ok s0 name Hs) as (d & Hd & [Hw _] & _). congruence.
Qed.

(** ** The theorem *)

(** The maps the transaction opened are still those of the store, or are the
    ones it created. *)
Definition maps_remain (s : Store) (t : Tx) : Prop :=
  forall n p a, all_changes t !! n = Some (p, a) -> created_maps t !! n = Some p \/ current s n p.

(** The transaction did not iterate over a map of the store that had no
    commit yet. *)
Definition iterates_versioned (x : OpenTx) : Prop :=
  forall n c, change_sets (open_tx x) !! n = Some c -> created_maps (open_tx x) !! n = None ->
    iterated n (open_ops x) = true -> cs_start_version c <> NoVersion.

Lemma prepared (s : Store) t n p c m :
  checks_pass t s = true -> any_writes (all_changes t) = true ->
  all_changes t !! n = Some (p, Changes c) -> heap s !! p = Some m -> prepare_changes c m = true.
Proof.
  intros Hc Hw Hn Hm. unfold checks_pass in Hc. rewrite Hw in Hc. apply andb_prop in Hc as [Hc _].
  unfold prepare_all in Hc. rewrite forallb_forall in Hc. specialize (Hc (n, (p, Changes c))).
  rewrite <- list_elem_of_In, elem_of_by_name in Hc. simpl in Hc. rewrite Hm in Hc. auto.
Qed.

Lemma prepared_initial c (m : Map Hook) :
  roll m = initial_roll -> tracks c m -> prepare_changes c m = true -> cs_state c = ∅.
Proof.
  intros Hr (_ & Ht & He) Hp. unfold prepare_changes in Hp. rewrite Hr in *.
  destruct (N.eqb_spec (cs_rollback_counter c) (rollback_counter initial_roll)) as [Heq|]; [|done].
  destruct (Ht Heq) as (Hle & Hst & _). symmetry. apply Hst. simpl in *. lia.
Qed.

(** What the checks of the commit say of a map: the keys that were read have
    not changed, and the map has not if it was iterated over. *)
Lemma checked_map (s : Store) x n c :
  store_inv s -> tx_inv s x -> checks_pass (open_tx x) s = true ->
  any_writes (all_changes (open_tx x)) = true -> maps_remain s (open_tx x) -> iterates_versioned x ->
  reads_ok c -> (iterated n (open_ops x) = true -> cs_read_version c = cs_start_version c) ->
  change_sets (open_tx x) !! n = Some c ->
  (forall k, is_Some (cs_reads c !! k) -> current_state s n !! k = cs_state c !! k) /\
  (iterated n (open_ops x) = true -> current_state s n = cs_state c).
Proof.
  intros Hs Hx Hc Hw Hm Hi Hok Hit Hn. pose proof Hn as Hn'. unfold change_sets in Hn'.
  apply lookup_omap_Some in Hn' as ([p a] & Ha & Hp).
  destruct a as [c'|]; [|done]. simpl in Ha. simplify_eq.
  destruct (tm_changes _ _ (ti_maps _ _ Hx) _ _ _ Hp) as (d & m & [= <-] & Hh & Hname & Htr).
  pose proof (prepared _ _ _ _ _ _ Hc Hw Hp Hh) as Hprep.
  destruct (created_maps (open_tx x) !! n) as [q|] eqn:Hcr.
  - assert (current_state s n = ∅) as ->.
    { unfold current_state. by rewrite (created_not_found _ _ _ _ Hs Hc Hcr). }
    destruct (Hm n p _ Hp) as [Hq|[cv Hq]]; [|by rewrite (created_not_found _ _ _ _ Hs Hc Hcr) in Hq].
    destruct (tm_created _ _ (ti_maps _ _ Hx) n p Hq) as [(m' & Hm' & _ & Hr) _]. simplify_eq.
    rewrite (prepared_initial c m); [done|done|auto|done].
  - destruct (Hm n p _ Hp) as [Hq|Hq]; [congruence|].
    assert (current_state s n = lc_state (get_tail (roll m))) as ->.
    { unfold current_state. destruct Hq as [cv ->]. by rewrite Hh. }
    destruct (prepare_sound c m) as [P1 P2]; [auto|done|done|]. split; [done|].
    intros Hit'. apply P2; [by apply Hit|]. by eapply Hi.
Qed.

Lemma rerun_trace (s : Store) x :
  store_inv s -> tx_inv s x -> checks_pass (open_tx x) s = true ->
  any_writes (all_changes (open_tx x)) = true -> maps_remain s (open_tx x) -> iterates_versioned x ->
  exists css css', run_trace (open_ops x) css = Some (open_results x, css') /\
    (forall n c, css !! n = Some c -> fresh_changes s n = Some c) /\
    forall n, match css' !! n with Some c => cs_writes c | None => ∅ end = writes_of (open_tx x) n.
Proof.
  intros Hs Hx Hc Hw Hm Hi. destruct (ti_trace _ _ Hx) as (css0 & Hrun & Hun).
  pose proof (fun n => run_trace_steps _ _ _ _ n Hrun) as Hsteps.
  set (css2 := map_imap (fun n _ => fresh_changes s n) (change_sets (open_tx x))).
  assert (forall n c, change_sets (open_tx x) !! n = Some c -> exists d, css2 !! n = Some d /\ unused d /\
    cs_state d = current_state s n) as H2.
  { intros n c Hn. destruct (fresh_changes_ok s n Hs) as (d & Hd & Hu). exists d. split; [|done].
    unfold css2. by rewrite map_lookup_imap, Hn. }
  destruct (trace_repeats _ _ _ _ css2 Hrun) as (css2' & Hrun2 & Hwr).
  - intros n c Hn. specialize (Hsteps n). rewrite Hn in Hsteps.
    destruct (change_sets (open_tx x) !! n) as [c'|] eqn:Hc'; [|done].
    destruct (H2 n c' Hc') as (d & Hd & [Hdw _] & _). destruct (Hun n c Hn) as (Hcw & Hcr & _).
    exists d. split; [done|]. split; [congruence|]. rewrite Hcr. intros k [? Hk]. by rewrite lookup_empty in Hk.
  - intros n c' d Hc' Hd. specialize (Hsteps n). rewrite Hc' in Hsteps.
    destruct (css0 !! n) as [c0|] eqn:Hc0; [|done]. destruct (Hun n c0 Hc0) as (_ & Hr0 & _).
    destruct (H2 n c' Hc') as (d' & Hd' & _ & Hst). simplify_eq. rewrite Hst.
    apply (checked_map s x n c'); try done.
    + apply (step_ok _ _ _ Hsteps). intros k r. by rewrite Hr0, lookup_empty.
    + intros Hit. rewrite (step_start _ _ _ Hsteps). by apply (step_iterated _ _ _ Hsteps).
  - exists css2, css2'. split_and!; [done| |].
    + intros n c. unfold css2. rewrite map_lookup_imap. by destruct (change_sets _ !! n).
    + intros n. unfold writes_of. destruct (change_sets (open_tx x) !! n) as [c|] eqn:Hn.
      * destruct (Hwr n c Hn) as (d & -> & Hd). done.
      * pose proof (run_trace_steps _ _ _ _ n Hrun2) as Hn2. unfold css2 in Hn2.
        rewrite map_lookup_imap, Hn in Hn2. simpl in Hn2. by destruct (css2' !! n).
Qed.

(** ** The state after the commit *)

Lemma ineffective v w st : RollSpec.effective false w st = false -> apply_writes v w st = st.
Proof.
  intros He. apply map_eq. intros k. rewrite lookup_apply_writes. destruct (w !! k) as [x|] eqn:Hk; [|done].
  apply not_true_iff_false in He. destruct x as [x|]; [destruct He|destruct (st !! k) eqn:Hs; [destruct He|done]];
    apply existsb_exists; [exists (k, Some x)|exists (k, None)];
    rewrite <- list_elem_of_In, in_order_permutation, elem_of_map_to_list; (split; [done|]); [done|].
  by rewrite Hs.
Qed.

Lemma apply_writes_empty v st : apply_writes v ∅ st = st.
Proof. apply map_eq. intros k. by rewrite lookup_apply_writes, lookup_empty. Qed.

Lemma commit_state v c (m : Map Hook) :
  lc_state (get_tail (roll (commit_changes v false c m).1)) =
  apply_writes v (cs_writes c) (lc_state (get_tail (roll m))).
Proof.
  rewrite RollSpec.commit_changes_step. case_bool_decide as Hw; [by rewrite Hw, apply_writes_empty|].
  destruct (RollSpec.effective _ _ _) eqn:He; simpl; [by rewrite get_tail_insert|].
  by rewrite ineffective.
Qed.

Lemma change_sets_lookup t n c :
  change_sets t !! n = Some c -> exists p, all_changes t !! n = Some (p, Changes c).
Proof.
  unfold change_sets. intros ([p a] & Ha & Hp)%lookup_omap_Some.
  destruct a; simpl in Ha; simplify_eq. by exists p.
Qed.

Lemma commit_step_state s t s1 n :
  store_inv s -> tx_maps s t -> checks_pass t s = true -> maps_remain s t -> commit_step t s s1 ->
  current_state s1 n = apply_writes (version s + 1) (writes_of t n) (current_state s n).
Proof.
  intros Hs Hx Hc Hm Hst.
  assert (forall p c m, all_changes t !! n = Some (p, Changes c) -> heap s !! p = Some m ->
    exists m1, heap s1 !! p = Some m1 /\ lc_state (get_tail (roll m1)) =
      apply_writes (version s + 1) (writes_of t n) (lc_state (get_tail (roll m)))) as Hcom.
  { intros p c m Hn Hh. destruct (cs_changed _ _ _ Hst n p c m Hn Hh) as (m1 & Hm1 & Hr).
    exists m1. split; [done|]. rewrite (shape_roll _ _ Hr), commit_state. unfold writes_of, change_sets.
    by rewrite lookup_omap, Hn. }
  destruct (maps s !! n) as [[cv p]|] eqn:Hp.
  - assert (maps s1 !! n = Some (cv, p)) as Hp1 by (apply (cs_maps _ _ _ Hst); by left).
    destruct (si_maps _ Hs _ _ _ Hp) as (m & Hh & Hname & _). unfold current_state. rewrite Hp, Hp1, Hh.
    destruct (touched_dec t p) as [(n' & a & Hn)|Hn].
    + destruct (tm_changes _ _ Hx _ _ _ Hn) as (c & m' & -> & Hm' & Hname' & _).
      assert (n' = n) as -> by (apply ident_of_inj; congruence). simplify_eq.
      destruct (Hcom p c m Hn Hh) as (m1 & -> & Heq). done.
    + pose proof (cs_unchanged _ _ _ Hst p Hn) as Hr. rewrite Hh in Hr. apply fmap_Some in Hr as (m1 & -> & Hr).
      symmetry in Hr. rewrite (shape_roll _ _ Hr). unfold writes_of.
      destruct (change_sets t !! n) as [c|] eqn:Hcs; [|by rewrite apply_writes_empty].
      apply change_sets_lookup in Hcs as [q Hq]. exfalso. destruct (Hm n q _ Hq) as [Hcr|[cv' Hcur]].
      * by rewrite (created_not_found _ _ _ _ Hs Hc Hcr) in Hp.
      * simplify_eq. by eapply Hn.
  - unfold current_state at 2. rewrite Hp. unfold current_state.
    destruct (maps s1 !! n) as [[cv p]|] eqn:Hp1.
    + apply (cs_maps _ _ _ Hst) in Hp1 as [Hp1|(_ & _ & Hcr & Hw)]; [congruence|].
      destruct (tm_created _ _ Hx n p Hcr) as [(m & Hh & _ & Hr) _].
      unfold writes_to in Hw. destruct (all_changes t !! n) as [[q a]|] eqn:Hq; [|done].
      destruct (tm_changes _ _ Hx _ _ _ Hq) as (c & m' & -> & Hm' & _).
      destruct (Hm n q _ Hq) as [Hcr'|[cv' Hcur]]; [|congruence]. simplify_eq.
      destruct (Hcom p c m) as (m1 & -> & Heq); [done|done|]. rewrite Heq, Hr. done.
    + unfold writes_of. destruct (change_sets t !! n) as [c|] eqn:Hcs; [|by rewrite apply_writes_empty].
      apply change_sets_lookup in Hcs as [q Hq]. destruct (Hm n q _ Hq) as [Hcr|[cv' Hcur]]; [|congruence].
      assert (cs_writes c = ∅) as ->; [|by rewrite apply_writes_empty].
      destruct (decide (cs_writes c = ∅)) as [|Hne]; [done|]. exfalso.
      assert (maps s1 !! n = Some (version s + 1, q)) as Hbad; [|by rewrite Hp1 in Hbad].
      apply (cs_maps _ _ _ Hst). right. split_and!; [done..|]. unfold writes_to. rewrite Hq. simpl.
      by rewrite bool_decide_eq_false_2.
Qed.

(** A commit that takes a version has passed the checks. *)
Lemma apply_tx_checked t (s : Store) v hooks :
  (apply_tx t s).1 = Ok (Some v, hooks) -> v <> NoVersion ->
  checks_pass t s = true /\ any_writes (all_changes t) = true.
Proof.
  intros Hap Hv. destruct (checks_pass t s) eqn:Hc; [|by rewrite apply_tx_fails in Hap].
  split; [done|]. destruct (any_writes (all_changes t)) eqn:Hw; [done|].
  rewrite apply_tx_reads in Hap by done. simpl in Hap. congruence.
Qed.

(** C1. Serialisability: if the commit of a transaction takes a version, a new
    transaction that makes the same operations on the store as it is then gets
    the same results and makes the same writes, and the state of every map
    after the commit is the state before it with these writes. Other
    transactions, commits, compactions and rollbacks may have happened since
    the transaction began. The maps it opened must still be in the store, and
    it must not have iterated over one that had no commit yet. *)
Theorem commit_serialisable (w : World) (i : N) (x : OpenTx) (v : Version) (hooks : list Hook) :
  world_reachable w -> w_txs w !! i = Some x -> version (w_store w) < int64_max ->
  (apply_tx (open_tx x) (w_store w)).1 = Ok (Some v, hooks) -> v <> NoVersion ->
  maps_remain (w_store w) (open_tx x) -> iterates_versioned x ->
  exists s' t', run_tx (open_ops x) (w_store w, new_tx) = (Ok (open_results x), (s', t')) /\
    (forall name, writes_of t' name = writes_of (open_tx x) name) /\
    forall name, current_state (apply_tx (open_tx x) (w_store w)).2 name =
      apply_writes v (writes_of t' name) (current_state (w_store w) name).
Proof.
  intros Hw Hi Hv Hap Hne Hm Hit. set (s := w_store w) in *.
  destruct (world_reachable_inv w Hw) as [Hs Ht _]. specialize (Ht i x Hi).
  destruct (apply_tx_checked _ _ _ _ Hap Hne) as [Hc Hwr].
  destruct (rerun_trace s x Hs Ht Hc Hwr Hm Hit) as (css & css' & Hrun & Hf & Heq).
  assert (running s css (s, new_tx)) as R.
  { split; simpl; try done. intros n c _. auto. }
  destruct (run_tx_runs s _ css _ _ (s, new_tx) Hs R Hrun) as ([s' t'] & Hrt & R').
  exists s', t'. assert (forall name, writes_of t' name = writes_of (open_tx x) name) as Hsame.
  { intros n. rewrite <- Heq. exact (running_writes s css' (s', t') n Hs R'). }
  split_and!; [done|done|]. intros n. rewrite Hsame.
  destruct (apply_tx_commits s _ Hs (ti_maps _ _ Ht) Hv Hc Hwr) as (hooks' & s1 & Hap' & Hst).
  rewrite Hap' in Hap |- *. simpl in Hap. injection Hap as <- _. apply commit_step_state; try done. apply Ht.
Qed.

(** C17. A commit is all or nothing: [apply_changes] does not throw; it leaves
    the store as it was on a conflict or when there is nothing to write, and
    otherwise takes the next version and makes every write of the transaction
    at that version and no other: each map object it opened gets the writes
    of its change set, every other map object keeps its commits, and, when the
    maps it opened are still in the store, the state of every map name is
    the one before with the transaction's writes to that name. *)
Theorem commit_atomic (w : World) (i : N) (x : OpenTx) :
  world_reachable w -> w_txs w !! i = Some x -> version (w_store w) < int64_max ->
  match apply_tx (open_tx x) (w_store w) with
  | (Ok (None, _), s') => s' = w_store w
  | (Ok (Some v, _), s') =>
      if any_writes (all_changes (open_tx x))
      then v = version (w_store w) + 1 /\ version s' = v /\
        (forall n p c m, all_changes (open_tx x) !! n = Some (p, Changes c) -> heap (w_store w) !! p = Some m ->
          exists m', heap s' !! p = Some m' /\
            lc_state (get_tail (roll m')) = apply_writes v (cs_writes c) (lc_state (get_tail (roll m)))) /\
        (forall p, (forall n a, all_changes (open_tx x) !! n <> Some (p, a)) ->
          roll <$> heap s' !! p = roll <$> heap (w_store w) !! p) /\
        (maps_remain (w_store w) (open_tx x) -> forall name,
          current_state s' name = apply_writes v (writes_of (open_tx x) name) (current_state (w_store w) name))
      else v = NoVersion /\ s' = w_store w
  | (Throw _, _) => False
  end.
Proof.
  intros Hw Hi Hv. destruct (world_reachable_inv w Hw) as [Hs Ht _]. specialize (Ht i x Hi).
  destruct (checks_pass (open_tx x) (w_store w)) eqn:Hc; [|by rewrite apply_tx_fails].
  destruct (any_writes (all_changes (open_tx x))) eqn:Hwr; [|by rewrite apply_tx_reads].
  destruct (apply_tx_commits _ _ Hs (ti_maps _ _ Ht) Hv Hc Hwr) as (hooks & s1 & -> & Hst).
  split_and!; [done|apply Hst| | |].
  - intros n p c m Hn Hh. destruct (cs_changed _ _ _ Hst n p c m Hn Hh) as (m1 & Hm1 & Hr).
    exists m1. split; [done|]. by rewrite (shape_roll _ _ Hr), commit_state.
  - intros p Hp. pose proof (cs_unchanged _ _ _ Hst p Hp) as Hr.
    apply (f_equal (fmap fst)) in Hr. by rewrite <-!option_fmap_compose in Hr.
  - intros Hm name. apply commit_step_state; try done. apply Ht.
Qed.

(** ** Evaluating worlds *)

#[export] Instance world_allowed_dec o (w : World (Hook := Hook)) : Decision (world_allowed o w).
Proof. destruct o; simpl; apply _. Defined.

Fixpoint world_run (ops : list WorldOp) (w : World) : option World :=
  match ops with
  | [] => Some w
  | o :: ops => if decide (world_allowed o w) then world_run ops (world_step o w) else None
  end.

Lemma world_run_reachable ops w :
  world_reachable w -> bool_decide (is_Some (world_run ops w)) = true ->
  world_reachable (default w (world_run ops w)).
Proof.
  intros Hw [w' Hr]%bool_decide_eq_true. rewrite Hr. simpl. revert w Hw Hr.
  induction ops as [|o ops IH]; intros w Hw; simpl; [by intros [= <-]|].
  destruct (decide (world_allowed o w)); [|done]. apply IH. by constructor.
Qed.

Definition maps_remain_b (s : Store) (t : Tx) : bool :=
  forallb (fun '(n, (p, _)) => bool_decide (created_maps t !! n = Some p) ||
             bool_decide (snd <$> maps s !! n = Some p)) (map_to_list (all_changes t)).

Lemma maps_remain_check (s : Store) t : maps_remain_b s t = true -> maps_remain s t.
Proof.
  unfold maps_remain_b. rewrite forallb_forall. intros H n p a Hn.
  specialize (H (n, (p, a))). rewrite <- list_elem_of_In, elem_of_map_to_list in H. specialize (H Hn).
  apply orb_prop in H as [H%bool_decide_eq_true|H%bool_decide_eq_true]; [by left|right].
  apply fmap_Some in H as ([cv q] & Hq & ->). by exists cv.
Qed.

Definition iterates_versioned_b (x : OpenTx) : bool :=
  forallb (fun '(n, c) => bool_decide (is_Some (created_maps (open_tx x) !! n)) ||
             negb (iterated n (open_ops x)) || negb (cs_start_version c =? NoVersion))
    (map_to_list (change_sets (open_tx x))).

Lemma iterates_versioned_check x : iterates_versioned_b x = true -> iterates_versioned x.
Proof.
  unfold iterates_versioned_b. rewrite forallb_forall. intros H n c Hn Hcr Hit.
  specialize (H (n, c)). rewrite <- list_elem_of_In, elem_of_map_to_list in H. specialize (H Hn).
  rewrite Hcr, Hit in H. simpl in H. by apply negb_true_iff, N.eqb_neq in H.
Qed.
End serial.

(** ** Examples *)

Definition ex_start : World (Hook := N) := mkWorld init_Store ∅.
Definition ex_open (i : N) (w : World (Hook := N)) : OpenTx := default (mkOpenTx new_tx [] []) (w_txs w !! i).

Lemma ex_open_lookup i w : bool_decide (is_Some (w_txs w !! i)) = true -> w_txs w !! i = Some (ex_open i w).
Proof. intros [x Hx]%bool_decide_eq_true. unfold ex_open. by rewrite Hx. Qed.

(** Two transactions over the same maps. The second commits first; it does
    not write what the first read. *)
Definition ex_ops : list WorldOp :=
  [WBegin 0; WUse 0 "m" (put_op 1 10); WCommit 0 ex_claims;
   WBegin 1; WUse 1 "m" (get_op 1); WUse 1 "public:n" size_op;
   WBegin 2; WUse 2 "m" (put_op 2 20); WCommit 2 ex_claims;
   WCompact 1;
   WUse 1 "m" (put_op 1 11)].

Definition ex_world : World (Hook := N) := default ex_start (world_run ex_ops ex_start).

Lemma ex_world_reachable : world_reachable ex_world.
Proof. apply world_run_reachable; [constructor|vm_eq]. Qed.

Lemma commit_serialisable_witness :
  exists s' t', run_tx (open_ops (ex_open 1 ex_world)) (w_store ex_world, new_tx) =
    (Ok [Res (RValue (Some (key 10))); Res (RSize 0); Res RUnit], (s', t')).
Proof.
  destruct (commit_serialisable ex_world 1 (ex_open 1 ex_world) 3 [] ex_world_reachable)
    as (s' & t' & H & _ & _).
  - apply ex_open_lookup. vm_eq.
  - vm_eq.
  - vm_eq.
  - done.
  - apply maps_remain_check; vm_eq.
  - apply iterates_versioned_check; vm_eq.
  - exists s', t'. by rewrite H.
Defined.

Lemma commit_atomic_witness :
  (apply_tx (open_tx (ex_open 1 ex_world)) (w_store ex_world)).1 = Ok (Some 3, []) /\
  version (apply_tx (open_tx (ex_open 1 ex_world)) (w_store ex_world)).2 = 3.
Proof.
  assert ((apply_tx (open_tx (ex_open 1 ex_world)) (w_store ex_world)).1 = Ok (Some 3, [])) as Heq by vm_eq.
  split; [exact Heq|].
  assert (any_writes (all_changes (open_tx (ex_open 1 ex_world))) = true) as Hw by vm_eq.
  pose proof (commit_atomic ex_world 1 (ex_open 1 ex_world) ex_world_reachable
                (ex_open_lookup 1 ex_world ltac:(vm_eq)) ltac:(vm_eq)) as H.
  destruct (apply_tx _ _) as [r s']. simpl in Heq. subst r. rewrite Hw in H. apply H.
Defined.

(** A map whose only commit removed a key that it did not hold is at version 0.
    The first transaction finds it empty and commits after the second has
    written to it. *)
Definition phantom_ops : list WorldOp :=
  [WBegin 0; WUse 0 "m" (remove_op 1); WCommit 0 ex_claims;
   WBegin 1; WUse 1 "m" size_op; WUse 1 "n" (put_op 1 1);
   WBegin 2; WUse 2 "m" (put_op 2 20); WCommit 2 ex_claims].

Definition phantom_world : World (Hook := N) := default ex_start (world_run phantom_ops ex_start).

(** Iteration over a map at version 0 is not checked at commit: the
    transaction commits although it would now find a key. *)
Theorem unversioned_iteration_not_checked :
  world_reachable phantom_world /\
  maps_remain (w_store phantom_world) (open_tx (ex_open 1 phantom_world)) /\
  (apply_tx (open_tx (ex_open 1 phantom_world)) (w_store phantom_world)).1 = Ok (Some 3, []) /\
  open_results (ex_open 1 phantom_world) = [Res (RSize 0); Res RUnit] /\
  (run_tx (open_ops (ex_open 1 phantom_world)) (w_store phantom_world, new_tx)).1 =
    Ok [Res (RSize 1); Res RUnit].
Proof.
  split_and!.
  - apply world_run_reachable; [constructor|vm_eq].
  - apply maps_remain_check. vm_eq.
  - vm_eq.
  - vm_eq.
  - vm_eq.
Qed.
End KvSerial.
