(* ===== verification/KvReplicate.v ===== *)
(** * Key-value store: replication

    A transaction that was committed and serialised on one node is applied on
    another: [serialise] on the primary against [apply] on a backup. *)

From S2P Require Import Prelude ViewHistory TxStatus LedgerEntries RaftTypes KvMap KvRoll KvHandle KvIsolation.
From S2P Require Import KvSerialise KvRoundTrip KvEntry KvStore KvTx KvApply KvExample KvWorld KvCommit KvSerial.
From Stdlib Require Import Init.Byte Strings.Byte.

Open Scope N_scope.
Open Scope m_scope.

Module KvReplicate.
Import Untyped MapHandle Isolation Serialise RoundTrip Entry KvStore KvTx KvApply KvWorld KvCommit KvSerial.

Section replicate.
Context {Hook : Type} `{HE : !KvEnv Hook} `{HO : !StateOrder}.
Context (e : TxEncryptor) (Henc : encryptor = Some e) `{HL : !EncryptorLaws e}.
Abbreviation Store := (Store Hook).

(** ** What is written *)

(** The maps of a domain that a transaction writes to, in order. *)
Definition domain_items (dom : SecurityDomain) (l : list (string * (N * AnyChangeSet)))
  : list (string * Write) :=
  omap (fun '(n, (_, a)) =>
          match a with
          | Changes c => if bool_decide (get_security_domain n = dom) && has_writes a
                         then Some (n, cs_writes c) else None
          | SnapshotChanges _ _ => None
          end) l.

Definition item_bytes (i : string * Write) : bytes := (blob (name_bytes i.1) ++ changes_bytes i.2)%list.
Definition items_bytes (l : list (string * Write)) : bytes := concat (item_bytes <$> l).

Definition writer (d : SecurityDomain) (s : Serialiser) : bytes :=
  match d with PUBLIC => public_writer s | PRIVATE => private_writer s end.

Lemma writer_emit d dom b s :
  writer d (emit b (set_current_domain dom s)) =
  if bool_decide (d = dom) then (writer d s ++ b)%list else writer d s.
Proof. by destruct d, dom. Qed.

Lemma serialise_domain_writes dom (l : list (string * (N * AnyChangeSet))) (h : gmap N (Map Hook)) s :
  (forall n p a, (n, (p, a)) ∈ l -> exists c m, a = Changes c /\ h !! p = Some m /\ ident m = ident_of n) ->
  exists s', serialise_domain dom l h s = (Ok tt, s') /\
    forall d, writer d s' =
      if bool_decide (d = dom) then (writer d s ++ items_bytes (domain_items dom l))%list else writer d s.
Proof.
  revert s. induction l as [|[n [p a]] l IH]; intros s Hl.
  { exists s. split; [done|]. intros d. case_bool_decide; [|done]. cbn. by rewrite app_nil_r. }
  destruct (Hl n p a) as (c & m & -> & Hm & Hi); [by left|].
  assert (security_domain m = get_security_domain n) as Hd by (unfold ident, ident_of in Hi; congruence).
  unfold serialise_domain. cbn [for_each]. unfold bind at 1. rewrite Hm, Hd.
  cbn [domain_items omap list_omap]. fold (domain_items dom l).
  destruct (bool_decide (get_security_domain n = dom)) eqn:Hdom; cbn [andb when].
  2:{ apply IH. intros. apply Hl. by right. }
  apply bool_decide_eq_true in Hdom. subst dom. destruct (has_writes (Changes c)) eqn:Hw.
  2:{ apply IH. intros. apply Hl. by right. }
  cbn [when]. rewrite serialise_changes_emit by (rewrite Henc; by eexists).
  destruct (IH (emit (blob (name_bytes n) ++ changes_bytes (cs_writes c))
                  (set_current_domain (get_security_domain n) s))) as (s' & Heq & Hwr).
  { intros. apply Hl. by right. }
  exists s'. split; [exact Heq|]. intros d. rewrite Hwr, writer_emit. case_bool_decide; [|done].
  unfold items_bytes. cbn [fmap list_fmap concat]. unfold item_bytes at 2. cbn [fst snd].
  by rewrite <- !app_assoc.
Qed.

Definition tx_flags (t : Tx) : N :=
  if chunk_before_this_tx t then N.lor (entry_flags t) FORCE_LEDGER_CHUNK_BEFORE else entry_flags t.

Definition tx_items (dom : SecurityDomain) (t : Tx) : list (string * Write) :=
  domain_items dom (by_name (all_changes t)).

Definition tx_id_of (t : Tx) : TxID.t := TxID.mk (commit_view t) (tx_version t).
Definition evidence_of (t : Tx) : bytes := sha256 (commit_evidence (tx_id_of t)).

Lemma serialise_writes s t claims data digest st' :
  serialise claims (s, t) = (Ok (data, digest), st') -> data <> [] -> any_writes (all_changes t) = true.
Proof.
  unfold serialise, bind at 1 2, get_tx at 1, get_store at 1, gets. cbn [snd fst id].
  destruct (negb (committed t)); [done|]. destruct (negb (success t)); [done|]. destruct claims; [|done].
  destruct (any_writes (all_changes t)); [done|]. by intros [= <- _ _].
Qed.

(** The entry of a transaction is the serialised form of its writes. *)
Lemma serialise_entry s t claims data digest st' :
  (forall n p a, all_changes t !! n = Some (p, a) ->
     exists c m, a = Changes c /\ heap s !! p = Some m /\ ident m = ident_of n) ->
  serialise (Some claims) (s, t) = (Ok (data, digest), st') -> data <> [] ->
  any_writes (all_changes t) = true /\ digest = evidence_of t /\
  serialise_domains (Some e) (tx_id_of t) WriteSetWithCommitEvidenceAndClaims (tx_flags t) false
    (public_header (tx_version t) claims digest ++ items_bytes (tx_items PUBLIC t))
    (items_bytes (tx_items PRIVATE t)) = Ok data.
Proof.
  intros Hmaps Hser Hne. unfold serialise, bind at 1 2, get_tx at 1, get_store at 1, gets in Hser.
  cbn [snd fst id] in Hser.
  destruct (negb (committed t)); [done|]. destruct (negb (success t)); [done|].
  destruct (any_writes (all_changes t)); cbn [negb] in Hser; [|by injection Hser as <- _ _].
  rewrite Henc in Hser. cbn [bool_decide] in Hser. simpl (negb _) in Hser. cbv iota in Hser.
  unfold bind at 1 in Hser.
  assert (exists t', when (chunk_before_this_tx t)
      (upd_tx (fun t0 => set_entry_flags (N.lor (entry_flags t0) FORCE_LEDGER_CHUNK_BEFORE) t0)) (s, t) =
    (Ok tt, (s, t')) /\ entry_flags t' = tx_flags t) as (t' & Hwhen & Hflags).
  { unfold tx_flags. destruct (chunk_before_this_tx t); eexists; split; reflexivity. }
  rewrite Hwhen in Hser. unfold bind at 1, get_tx, gets in Hser. cbn [snd] in Hser. rewrite Hflags in Hser.
  fold (tx_id_of t) in Hser. fold (evidence_of t) in Hser. rewrite new_serialiser_header in Hser.
  assert (forall n p a, (n, (p, a)) ∈ by_name (all_changes t) ->
    exists c m, a = Changes c /\ heap s !! p = Some m /\ ident m = ident_of n) as Hl.
  { intros n p a Hin%elem_of_by_name. eauto. }
  unfold bind at 1 in Hser.
  match type of Hser with context [serialise_domain PUBLIC _ _ ?s0] =>
    destruct (serialise_domain_writes PUBLIC _ _ s0 Hl) as (s1 & Heq1 & Hw1) end.
  rewrite Heq1 in Hser. destruct (serialise_domain_writes PRIVATE _ _ s1 Hl) as (s2 & Heq2 & Hw2).
  rewrite Heq2 in Hser. unfold bind, lift in Hser.
  assert (public_writer s2 = public_header (tx_version t) claims (evidence_of t) ++
            items_bytes (tx_items PUBLIC t))%list as P1.
  { pose proof (Hw2 PUBLIC) as P. rewrite Hw1 in P.
    by rewrite bool_decide_eq_false_2, bool_decide_eq_true_2 in P by done. }
  assert (private_writer s2 = items_bytes (tx_items PRIVATE t)) as P2.
  { pose proof (Hw2 PRIVATE) as P. rewrite Hw1 in P.
    by rewrite bool_decide_eq_true_2, bool_decide_eq_false_2 in P by done. }
  rewrite P1, P2 in Hser.
  destruct (serialise_domains _ _ _ _ _ _ _) as [d|] eqn:Hd; [|done].
  unfold ret in Hser. injection Hser as <- <- _. split_and!; [done|done|]. exact Hd.
Qed.

(** ** What is read *)

(** A deserialiser reading from [r], with [o] the reader of the other domain. *)
Definition reading (b : bool) (r o : RawReader) : Deserialiser :=
  if b then mkDeserialiser o r true else mkDeserialiser r o false.

Lemma current_reading b r o : current_reader (reading b r o) = r.
Proof. by destruct b. Qed.

Lemma on_current_reading {A} (m : M RawReader A) b r o :
  on_current m (reading b r o) = let '(x, r') := m r in (x, reading b r' o).
Proof. unfold on_current. rewrite current_reading. by destruct (m r), b. Qed.

Lemma is_eos_rd pre rest extra : is_eos (rd pre rest extra) = bool_decide (rest = []).
Proof.
  unfold is_eos, rd. simpl. rewrite length_app. destruct rest as [|x rest]; simpl.
  - destruct (N.leb_spec (N.of_nat (length pre + 0)) (N.of_nat (length pre))); [done|lia].
  - destruct (N.leb_spec (N.of_nat (length pre + S (length rest))) (N.of_nat (length pre))); [lia|done].
Qed.

Lemma name_bytes_name n : bytes_name (name_bytes n) = n.
Proof. apply String.string_of_list_byte_of_string. Qed.

Lemma blob_app_nonempty b rest : bool_decide ((blob b ++ rest)%list = []) = false.
Proof.
  apply bool_decide_eq_false_2. intros Heq%(f_equal length). rewrite length_app in Heq.
  pose proof (length_blob b). simpl in Heq. lia.
Qed.

Lemma next_map_at b o pre n rest extra :
  fits (name_bytes n) ->
  next_map (reading b (rd pre (blob (name_bytes n) ++ rest) extra) o) =
  (Ok (Some n), reading b (rd (pre ++ blob (name_bytes n)) rest extra) o).
Proof.
  intros Hn. unfold next_map, bind, gets, id.
  rewrite current_reading, is_eos_rd, blob_app_nonempty, on_current_reading, read_blob_at by done.
  unfold ret. by rewrite name_bytes_name.
Qed.

(** At the end of the public domain the private one is next. *)
Lemma next_map_switch pre extra n rest :
  next_map (reading false (rd pre [] extra) (rd [] (blob (name_bytes n) ++ rest) [])) =
  next_map (reading true (rd [] (blob (name_bytes n) ++ rest) []) (rd pre [] extra)).
Proof.
  unfold next_map at 1, bind, gets, id. rewrite current_reading, is_eos_rd. simpl (bool_decide _).
  cbv iota. cbn [reading reading_private private_reader]. rewrite is_eos_rd, blob_app_nonempty.
  cbn [negb andb]. unfold modify. cbn [public_reader private_reader].
  unfold next_map, bind, gets, id, current_reader. cbn [reading_private private_reader].
  by rewrite is_eos_rd, blob_app_nonempty.
Qed.

(** The end of both. *)
Lemma next_map_end b pre extra o :
  (b = false -> is_eos o = true) ->
  next_map (reading b (rd pre [] extra) o) = (Ok None, reading b (rd pre [] extra) o).
Proof.
  intros Ho. unfold next_map, bind, gets, id. rewrite current_reading, is_eos_rd. simpl (bool_decide _).
  cbv iota. destruct b; cbn [reading reading_private private_reader negb andb]; [done|].
  by rewrite Ho.
Qed.

(** ** The change sets a backup builds *)

Definition filled_tx (changes : gmap string (N * AnyChangeSet)) (new_maps : gmap string N) : Tx :=
  set_created_maps new_maps (set_all_changes changes new_tx).

(** The state of the loop of [fill_maps], started in [s0]. *)
Record filling (s0 s : Store) (t : Tx) : Prop := mkFilling {
  fl_inv : store_inv s;
  fl_maps : maps s = maps s0;
  fl_version : version s = version s0;
  fl_states : forall n, current_state s n = current_state s0 n;
  fl_tx : tx_maps s t;
  fl_remain : maps_remain s t;
  fl_created : forall n p, created_maps t !! n = Some p -> maps s !! n = None;
  fl_prepared : forall n p c m, all_changes t !! n = Some (p, Changes c) -> heap s !! p = Some m ->
    prepare_changes c m = true;
}.

Lemma get_map_later v (s : Store) name : store_inv s -> version s <= v ->
  get_map_internal v name s = snd <$> maps s !! name.
Proof.
  intros Hs Hv. unfold get_map_internal. destruct (maps s !! name) as [[cv p]|] eqn:Hp; [|done].
  destruct (si_maps _ Hs _ _ _ Hp) as (m & _ & _ & _ & Hcv & _).
  by destruct (N.leb_spec cv v); [|lia].
Qed.

Lemma prepare_unused (c : ChangeSet) (m : Map Hook) w :
  cs_rollback_counter c = rollback_counter (roll m) -> unused c -> prepare_changes (set_cs_writes w c) m = true.
Proof.
  intros Hc (_ & Hr & Hv). unfold prepare_changes. cbn [cs_rollback_counter cs_read_version cs_reads set_cs_writes].
  rewrite Hc, Hr, Hv, N.eqb_refl. cbn [negb andb]. unfold in_order. by rewrite map_to_list_empty.
Qed.

Lemma create_at v (m : Map Hook) : lc_version (get_tail (roll m)) <= v -> exists c,
  create_change_set v false m = Some c /\ unused c /\ cs_rollback_counter c = rollback_counter (roll m).
Proof.
  intros Hv. unfold create_change_set. rewrite find_commit_tail by done. eexists. by split_and!.
Qed.

(** Adding a change set over [p] to the transaction. *)
Lemma filling_add s0 s s' changes new_maps new_maps' n p c m w :
  filling s0 s (filled_tx changes new_maps) -> changes !! n = None ->
  s' = s \/ s' = with_new_map n s ->
  heap s' !! p = Some m -> ident m = ident_of n -> map_wf m ->
  unused c -> cs_rollback_counter c = rollback_counter (roll m) -> tracks c m ->
  (new_maps' = new_maps /\ current s n p) \/
  (new_maps' = <[n := p]> new_maps /\ roll m = initial_roll /\ maps s !! n = None /\ heap s !! p = None) ->
  filling s0 s' (filled_tx (<[n := (p, Changes (set_cs_writes w c))]> changes) new_maps').
Proof.
  intros [F1 F2 F3 F4 F5 F6 F7 F8] Hn Hs' Hm Hi Hwf Hu Hc Ht Hnew.
  assert (store_inv s' /\ heap_step s s' /\ maps s' = maps s /\ version s' = version s /\
    forall q m0, heap s !! q = Some m0 -> heap s' !! q = Some m0) as (I & St & Em & Ev & Eh).
  { destruct Hs' as [->| ->].
    - split_and!; try done. by apply same_rolls_step.
    - destruct (with_new_map_good n s F1). split_and!; try done. intros. by apply with_new_map_lookup. }
  assert (tx_maps s' (filled_tx changes new_maps)) as Htm by (eapply tx_maps_step; [exact St|tauto..]).
  assert (forall k q, current s' k q <-> current s k q) as Hcur by (intros; unfold current; by rewrite Em).
  split; try congruence.
  - intros k. rewrite <- F4. unfold current_state. rewrite Em.
    destruct (maps s !! k) as [[cv q]|] eqn:Hk; [|done].
    destruct (si_maps _ F1 _ _ _ Hk) as (m0 & Hm0 & _). by rewrite Hm0, (Eh _ _ Hm0).
  - eapply (tx_maps_open s' _ _ n p (set_cs_writes w c) m Htm); try done.
    destruct Hnew as [[-> _]|(-> & Hr & _ & Hh)]; [by left|right]. split_and!; [done|done|].
    intros k Hk%Hcur. destruct (current_heap s k p F1 Hk) as (m0 & Hm0 & _). congruence.
  - intros k q a. cbn [filled_tx all_changes created_maps set_created_maps set_all_changes].
    intros [[<- [= <- _]]|[Hne Hk]]%lookup_insert_Some.
    + destruct Hnew as [[-> Hcu]|(-> & _)]; [right; by apply Hcur|left; by rewrite lookup_insert_eq].
    + destruct (F6 k q a Hk) as [Hcr|Hcu]; [left|right; by apply Hcur]. simpl in Hcr.
      destruct Hnew as [[-> _]|(-> & _)]; [done|by rewrite lookup_insert_ne].
  - intros k q. cbn [filled_tx all_changes created_maps set_created_maps set_all_changes]. rewrite Em.
    destruct Hnew as [[-> _]|(-> & _ & Hnone & _)]; [apply F7|].
    intros [[<- _]|[_ Hk]]%lookup_insert_Some; [done|by eapply F7].
  - intros k q d m0. cbn [filled_tx all_changes created_maps set_created_maps set_all_changes].
    intros [[<- [= <- <-]]|[Hne Hk]]%lookup_insert_Some Hm0.
    + simplify_eq. by apply prepare_unused.
    + destruct (tm_changes _ _ F5 k q _ Hk) as (d' & m1 & _ & Hm1 & _). pose proof (Eh _ _ Hm1) as Hm1'.
      simplify_eq. by eapply F8.
Qed.

(** The map is found, or made. *)
Lemma fill_map s0 s changes new_maps n v :
  filling s0 s (filled_tx changes new_maps) -> changes !! n = None -> v = version s0 + 1 ->
  exists p c new_maps' s',
    (forall d : Deserialiser,
       (found <- gets (fun st => get_map_internal v n st.1) ;;;
        match found with
        | Some p => ret (p, new_maps)
        | None => p <- of_store (make_map n (get_security_domain n)) ;;; ret (p, <[n := p]> new_maps)
        end) (s, d) = (Ok (p, new_maps'), (s', d))) /\
    heap s' !! p ≫= create_change_set v false = Some c /\ unused c /\
    forall w, filling s0 s' (filled_tx (<[n := (p, Changes (set_cs_writes w c))]> changes) new_maps').
Proof.
  intros F Hn Hv. pose proof (fl_inv _ _ _ F) as Hs. pose proof (fl_version _ _ _ F) as Ev.
  assert (version s <= v) as Hle by lia. pose proof (get_map_later v s n Hs Hle) as Hg.
  destruct (maps s !! n) as [[cv p]|] eqn:Hp; simpl in Hg.
  - destruct (si_maps _ Hs _ _ _ Hp) as (m & Hm & Hi & Hw & _ & Ht & _).
    destruct (create_at v m) as (c & Hc & Hu & Hrc); [lia|].
    exists p, c, new_maps, s. split_and!; [|by rewrite Hm|done|].
    + intros d. unfold bind, gets. cbn [fst]. by rewrite Hg.
    + intros w. eapply (filling_add s0 s s _ new_maps _ n p c m); try done; [by left| |].
      * by eapply tracks_create.
      * left. split; [done|]. by exists cv.
  - set (m := new_map (Hook := Hook) n (get_security_domain n)).
    destruct (create_at v m) as (c & Hc & Hu & Hrc); [simpl; lia|].
    exists (fresh_ptr s), c, (<[n := fresh_ptr s]> new_maps), (with_new_map n s).
    assert (heap (with_new_map n s) !! fresh_ptr s = Some m) as Hm by apply lookup_insert_eq.
    split_and!; [|by rewrite Hm|done|].
    + intros d. unfold bind, gets. cbn [fst]. by rewrite Hg.
    + intros w. eapply (filling_add s0 s _ _ new_maps _ n (fresh_ptr s) c m); try done.
      * by right.
      * apply new_map_wf.
      * eapply tracks_create; [apply new_map_wf|done].
      * right. split_and!; [done|done|done|apply fresh_ptr_heap].
Qed.

Lemma fill_step s0 s changes new_maps b o pre extra n w rest fuel v :
  filling s0 s (filled_tx changes new_maps) -> changes !! n = None -> v = version s0 + 1 ->
  fits (name_bytes n) -> fits_writes w ->
  exists p c new_maps' s',
    fill_maps_loop (S fuel) v changes new_maps
      (s, reading b (rd pre (item_bytes (n, w) ++ rest) extra) o) =
    fill_maps_loop fuel v (<[n := (p, Changes (set_cs_writes w c))]> changes) new_maps'
      (s', reading b (rd (pre ++ item_bytes (n, w)) rest extra) o) /\
    filling s0 s' (filled_tx (<[n := (p, Changes (set_cs_writes w c))]> changes) new_maps').
Proof.
  intros F Hn Hv Hf Hw. destruct (fill_map s0 s changes new_maps n v F Hn Hv)
    as (p & c & new_maps' & s' & Hget & Hc & Hu & F'). exists p, c, new_maps', s'. split; [|done].
  cbn [fill_maps_loop]. unfold bind at 1. unfold of_reader at 1. unfold item_bytes. cbn [fst snd].
  rewrite <- app_assoc, next_map_at by done. specialize (Hget (reading b (rd (pre ++ blob (name_bytes n))
    (changes_bytes w ++ rest) extra) o)). revert Hget. unfold bind at 1 3. unfold gets at 1 2. cbn [fst].
  intros Hget. unfold bind at 1. rewrite Hget. cbn [fst snd]. rewrite Hn. simpl (bool_decide _). cbv iota.
  unfold bind at 1. unfold gets at 1. cbn [fst]. rewrite Hc. unfold bind at 1. unfold of_reader at 1.
  rewrite on_current_reading, deserialise_internal_at by (done || apply Hu).
  by rewrite <- app_assoc.
Qed.

Definition written (changes : gmap string (N * AnyChangeSet)) : gmap string Write :=
  omap (fun x => match x.2 with Changes c => Some (cs_writes c) | SnapshotChanges _ _ => None end) changes.

Definition item_ok (i : string * Write) : Prop := fits (name_bytes i.1) /\ fits_writes i.2.

Definition add_items (m : gmap string Write) (l : list (string * Write)) : gmap string Write :=
  foldl (fun m i => <[i.1 := i.2]> m) m l.

Lemma fill_items s0 b o v items fuel changes new_maps s pre extra :
  filling s0 s (filled_tx changes new_maps) -> v = version s0 + 1 -> NoDup items.*1 ->
  Forall item_ok items -> (forall n, n ∈ items.*1 -> changes !! n = None) ->
  exists changes' new_maps' s',
    fill_maps_loop (length items + fuel) v changes new_maps
      (s, reading b (rd pre (items_bytes items) extra) o) =
    fill_maps_loop fuel v changes' new_maps' (s', reading b (rd (pre ++ items_bytes items) [] extra) o) /\
    filling s0 s' (filled_tx changes' new_maps') /\
    written changes' = add_items (written changes) items /\
    forall n, n ∉ items.*1 -> changes' !! n = changes !! n.
Proof.
  intros F Hv. revert changes new_maps s pre F.
  induction items as [|[n w] items IH]; intros changes new_maps s pre F Hnd Hok Hnone.
  { exists changes, new_maps, s. split_and!; try done. by rewrite app_nil_r. }
  inversion Hnd as [|?? Hn Hnd']; subst. inversion Hok as [|?? [Hf Hw] Hok']; subst.
  destruct (fill_step s0 s changes new_maps b o pre extra n w (items_bytes items) (length items + fuel)
              (version s0 + 1) F) as (p & c & nm & s1 & Heq & F1); [apply Hnone; by left|done..|].
  destruct (IH _ _ _ (pre ++ item_bytes (n, w))%list F1 Hnd' Hok') as (ch' & nm' & s' & Heq' & F' & Hwr & Hrest).
  { intros k Hk. rewrite lookup_insert_ne by (intros ->; by apply Hn). apply Hnone. by right. }
  exists ch', nm', s'. split_and!; [|done| |].
  - change (length ((n, w) :: items) + fuel)%nat with (S (length items + fuel)).
    change (items_bytes ((n, w) :: items)) with (item_bytes (n, w) ++ items_bytes items)%list.
    rewrite Heq, Heq'. by rewrite <- app_assoc.
  - rewrite Hwr. unfold written. erewrite omap_insert_Some by done. done.
  - intros k Hk. rewrite fmap_cons, not_elem_of_cons in Hk. destruct Hk as [Hk1 Hk2].
    rewrite Hrest by done. by rewrite lookup_insert_ne by (intros ->; by apply Hk1).
Qed.

Lemma items_bytes_length items : (length items <= length (items_bytes items))%nat.
Proof.
  apply concat_length_ge. intros i. unfold item_bytes. rewrite length_app.
  pose proof (length_blob (name_bytes i.1)). lia.
Qed.

(** Both domains are read. *)
Lemma fill_domains s0 v pub priv pre extra fuel :
  store_inv s0 -> v = version s0 + 1 -> NoDup (pub ++ priv).*1 -> Forall item_ok (pub ++ priv) ->
  (length pub + length priv < fuel)%nat ->
  exists changes new_maps s' d',
    fill_maps_loop fuel v ∅ ∅ (s0, reading false (rd pre (items_bytes pub) extra) (rd [] (items_bytes priv) [])) =
      (Ok (Some (changes, new_maps)), (s', d')) /\
    end_ d' = true /\ filling s0 s' (filled_tx changes new_maps) /\
    written changes = add_items ∅ (pub ++ priv).
Proof.
  intros Hs Hv Hnd Hok Hfuel. rewrite fmap_app, NoDup_app in Hnd. destruct Hnd as (Hnd1 & Hdisj & Hnd2).
  apply Forall_app in Hok as [Hok1 Hok2].
  assert (filling s0 s0 (filled_tx ∅ ∅)) as F0.
  { by split. }
  destruct (Nat.le_exists_sub (length pub + S (length priv)) fuel) as (k & -> & _); [lia|].
  replace (k + (length pub + S (length priv)))%nat with (length pub + (length priv + S k))%nat by lia.
  destruct (fill_items s0 false (rd [] (items_bytes priv) []) v pub (length priv + S k) ∅ ∅ s0 pre extra
              F0 Hv Hnd1 Hok1) as (ch1 & nm1 & s1 & Heq1 & F1 & Hw1 & Hr1); [intros; apply lookup_empty|].
  rewrite Heq1. destruct priv as [|[n w] priv].
  - exists ch1, nm1, s1. eexists. split_and!; [|..|by rewrite app_nil_r]; try done.
    + cbn [length plus fill_maps_loop]. unfold bind at 1, of_reader at 1.
      rewrite next_map_end by done. done.
    + unfold end_. cbn. by rewrite !is_eos_rd.
  - destruct (fill_items s0 true (rd (pre ++ items_bytes pub) [] extra) v ((n, w) :: priv) (S k) ch1 nm1 s1 [] []
                F1 Hv Hnd2 Hok2) as (ch2 & nm2 & s2 & Heq2 & F2 & Hw2 & Hr2).
    { intros m Hm. rewrite Hr1; [apply lookup_empty|]. intros Hp. by apply (Hdisj m). }
    exists ch2, nm2, s2. eexists. split_and!; [|..|].
    + transitivity (fill_maps_loop (length ((n, w) :: priv) + S k) v ch1 nm1
        (s1, reading true (rd [] (items_bytes ((n, w) :: priv)) []) (rd (pre ++ items_bytes pub) [] extra))).
      { cbn [length plus fill_maps_loop]. unfold bind at 1 5, of_reader at 1 3.
        change (items_bytes ((n, w) :: priv)) with (item_bytes (n, w) ++ items_bytes priv)%list.
        unfold item_bytes at 1 2. cbn [fst snd]. rewrite <- app_assoc. by rewrite next_map_switch. }
      rewrite Heq2. cbn [fill_maps_loop]. unfold bind at 1, of_reader at 1. rewrite next_map_end by done. done.
    + unfold end_. cbn. by rewrite !is_eos_rd.
    + done.
    + rewrite Hw2, Hw1. unfold add_items. by rewrite foldl_app.
Qed.

(** ** Entries fit *)

Lemma length_concat_elem {A} (f : A -> bytes) (l : list A) x :
  x ∈ l -> (length (f x) <= length (concat (f <$> l)))%nat.
Proof.
  induction l as [|y l IH]; [by intros ?%not_elem_of_nil|]. rewrite fmap_cons. cbn [concat].
  rewrite length_app. intros [->|Hx]%elem_of_cons; [lia|]. specialize (IH Hx). lia.
Qed.

Lemma length_blob_ge b : (length b <= length (blob b))%nat.
Proof. unfold blob. rewrite length_app. lia. Qed.

Lemma fits_changes (w : Write) : N.of_nat (length (changes_bytes w)) < 2 ^ 64 -> fits_writes w.
Proof.
  unfold changes_bytes. rewrite !length_app. intros Hlen. split.
  - rewrite <- length_writes.
    assert (length (puts w) <= length (concat (put_bytes <$> puts w)))%nat.
    { apply concat_length_ge. intros x. unfold put_bytes. rewrite length_app. pose proof (length_blob x.1). lia. }
    assert (length (removes w) <= length (concat (remove_bytes <$> removes w)))%nat.
    { apply concat_length_ge. intros x. unfold remove_bytes. pose proof (length_blob x.1). lia. }
    lia.
  - intros k x Hk. unfold fits. destruct x as [x|]; simpl.
    + assert ((k, Some x) ∈ puts w) as Hin.
      { apply list_elem_of_filter. split; [by eexists|]. by rewrite in_order_permutation, elem_of_map_to_list. }
      pose proof (length_concat_elem put_bytes _ _ Hin) as Hl. unfold put_bytes at 1 in Hl.
      rewrite length_app in Hl. simpl in Hl. pose proof (length_blob_ge k). pose proof (length_blob_ge x). lia.
    + assert ((k, None) ∈ removes w) as Hin.
      { apply list_elem_of_filter. split; [done|]. by rewrite in_order_permutation, elem_of_map_to_list. }
      pose proof (length_concat_elem remove_bytes _ _ Hin) as Hl. unfold remove_bytes at 1 in Hl.
      simpl in Hl. pose proof (length_blob_ge k). lia.
Qed.

Lemma items_fit items : N.of_nat (length (items_bytes items)) < 2 ^ 64 -> Forall item_ok items.
Proof.
  intros Hlen. apply Forall_forall. intros i Hi.
  pose proof (length_concat_elem item_bytes _ _ Hi) as Hl. fold (items_bytes items) in Hl.
  unfold item_bytes in Hl. rewrite length_app in Hl. pose proof (length_blob_ge (name_bytes i.1)).
  split; [unfold fits; lia|]. apply fits_changes. lia.
Qed.

(** ** The items of a transaction *)

Lemma elem_of_domain_items dom l n w :
  (n, w) ∈ domain_items dom l <->
  exists p c, (n, (p, Changes c)) ∈ l /\ get_security_domain n = dom /\ cs_writes c <> ∅ /\ w = cs_writes c.
Proof.
  unfold domain_items. rewrite list_elem_of_omap. split.
  - intros ([n' [p a]] & Hin & Ha). destruct a as [c|]; [|done].
    destruct (bool_decide (get_security_domain n' = dom)) eqn:Hd; [|done]. apply bool_decide_eq_true in Hd.
    simpl in Ha. destruct (bool_decide (cs_writes c = ∅)) eqn:Hw; [done|]. apply bool_decide_eq_false in Hw.
    simpl in Ha. simplify_eq. by exists p, c.
  - intros (p & c & Hin & Hd & Hw & ->). exists (n, (p, Changes c)). split; [done|].
    rewrite bool_decide_eq_true_2 by done. simpl. by rewrite bool_decide_eq_false_2.
Qed.

Lemma domain_items_sublist dom l : (domain_items dom l).*1 `sublist_of` l.*1.
Proof.
  induction l as [|[n [p a]] l IH]; [done|]. cbn [domain_items omap list_omap].
  fold (domain_items dom l). destruct a as [c|]; [destruct (_ && _)|]; by constructor.
Qed.

Definition tx_all_items (t : Tx) : list (string * Write) := (tx_items PUBLIC t ++ tx_items PRIVATE t)%list.

Lemma tx_items_NoDup t : NoDup (tx_all_items t).*1.
Proof.
  unfold tx_all_items, tx_items. rewrite fmap_app. apply NoDup_app. split_and!.
  - eapply sublist_NoDup; [apply (by_name_NoDup (all_changes t))|apply domain_items_sublist].
  - intros n ([? w] & -> & Hin)%list_elem_of_fmap ([? w'] & Heq & Hin')%list_elem_of_fmap. simpl in *. subst.
    apply elem_of_domain_items in Hin as (? & ? & _ & Hd & _).
    apply elem_of_domain_items in Hin' as (? & ? & _ & Hd' & _). congruence.
  - eapply sublist_NoDup; [apply (by_name_NoDup (all_changes t))|apply domain_items_sublist].
Qed.

Lemma elem_of_tx_items t n w :
  (n, w) ∈ tx_all_items t <-> exists c, change_sets t !! n = Some c /\ cs_writes c <> ∅ /\ w = cs_writes c.
Proof.
  unfold tx_all_items, tx_items. rewrite elem_of_app, !elem_of_domain_items. split.
  - intros [(p & c & Hin & _ & Hw)|(p & c & Hin & _ & Hw)]; exists c; apply elem_of_by_name in Hin;
      unfold change_sets; by rewrite lookup_omap, Hin.
  - intros (c & Hc & Hw). apply change_sets_lookup in Hc as [p Hp]. apply elem_of_by_name in Hp.
    destruct (get_security_domain n) eqn:Hd; [left|right]; by exists p, c.
Qed.

Lemma add_items_lookup l n :
  NoDup l.*1 -> add_items ∅ l !! n = (list_to_map l : gmap string Write) !! n.
Proof.
  intros Hnd. unfold add_items. induction l as [|[k x] l IH] using rev_ind; [done|].
  rewrite fmap_app, NoDup_app in Hnd. destruct Hnd as (Hnd & Hk & _). rewrite foldl_app. cbn [foldl fst snd].
  rewrite list_to_map_snoc; [|intros Hin; by apply (Hk k Hin), list_elem_of_here].
  destruct (decide (k = n)) as [<-|Hne]; [by rewrite !lookup_insert_eq|].
  rewrite !lookup_insert_ne by done. by apply IH.
Qed.

(** A backup writes what the transaction wrote. *)
Lemma written_writes_of t changes new_maps n :
  written changes = add_items ∅ (tx_all_items t) ->
  writes_of (filled_tx changes new_maps) n = writes_of t n.
Proof.
  intros Hw. pose proof (f_equal (fun m => m !! n) Hw) as Hn. simpl in Hn.
  rewrite add_items_lookup in Hn by apply tx_items_NoDup.
  assert (writes_of (filled_tx changes new_maps) n = default ∅ (written changes !! n)) as ->.
  { unfold writes_of, change_sets, written. rewrite !lookup_omap. simpl.
    destruct (changes !! n) as [[p [c|]]|]; done. }
  rewrite Hn. unfold writes_of. destruct ((list_to_map (tx_all_items t) : gmap string Write) !! n) as [w|] eqn:Hl.
  - apply elem_of_list_to_map in Hl; [|apply tx_items_NoDup].
    apply elem_of_tx_items in Hl as (c & -> & _ & ->). done.
  - destruct (change_sets t !! n) as [c|] eqn:Hc; [|done]. simpl. symmetry.
    destruct (decide (cs_writes c = ∅)) as [|Hne]; [done|]. exfalso.
    assert ((n, cs_writes c) ∈ tx_all_items t) as Hin by (apply elem_of_tx_items; by exists c).
    apply elem_of_list_to_map in Hin; [|apply tx_items_NoDup]. congruence.
Qed.

(** ** Applying an entry *)

(** Code that returns and leaves the maps alone. *)
Definition quietly (m : M Store unit) : Prop := forall s, exists s', m s = (Ok tt, s') /\ quiet s s'.

Lemma quietly_call c : quietly (call c).
Proof. intros s. eexists. split; [done|]. by split. Qed.

Lemma quietly_when b m : quietly m -> quietly (when b m).
Proof. intros Hm s. destruct b; [apply Hm|by exists s]. Qed.

Lemma quietly_seq m m' : quietly m -> quietly m' -> quietly (m ;;; m').
Proof.
  intros H1 H2 s. destruct (H1 s) as (s1 & E1 & Q1). destruct (H2 s1) as (s2 & E2 & Q2).
  exists s2. unfold bind. rewrite E1. split; [done|by etrans].
Qed.

Lemma when_call_quiet b c (s : Store) : exists s', when b (call c) s = (Ok tt, s') /\ quiet s s'.
Proof. apply quietly_when, quietly_call. Qed.

(** A rollback to the current version changes no map. *)
Lemma rollback_noop tx_id term (s : Store) :
  version s <= TxID.seqno tx_id -> compacted s <= TxID.seqno tx_id ->
  exists s', KvStore.rollback tx_id term s = (Ok tt, s') /\ quiet s s'.
Proof.
  intros Hv Hc. unfold KvStore.rollback.
  match goal with |- context [when ?b (call ?c)] =>
    destruct (when_call_quiet b c s) as (s1 & Hw1 & Q1) end. erewrite bind_ok by exact Hw1.
  match goal with |- context [(when ?b (call ?c) ;;; _) s1] =>
    destruct (when_call_quiet b c s1) as (s2 & Hw2 & Q2) end. erewrite bind_ok by exact Hw2.
  erewrite bind_ok by done. assert (quiet s s2) as Q by by etrans.
  rewrite (q_compacted _ _ Q : compacted (id s2) = _), (q_version _ _ Q : version (id s2) = _).
  destruct (N.ltb_spec (TxID.seqno tx_id) (compacted s)); [lia|].
  erewrite bind_ok by done. erewrite bind_ok by done.
  match goal with |- context [(when ?b (call ?c) ;;; _) ?s3] =>
    destruct (when_call_quiet b c s3) as (s4 & Hw4 & Q4) end. erewrite bind_ok by exact Hw4.
  destruct (N.leb_spec (version s) (TxID.seqno tx_id)); [|lia].
  exists s4. split; [done|]. etrans; [exact Q|]. etrans; [|exact Q4]. by split.
Qed.

Lemma quiet_states (s : Store) s' n : quiet s s' -> current_state s' n = current_state s n.
Proof. intros Q. unfold current_state. by rewrite (q_heap _ _ Q), (q_maps _ _ Q). Qed.

Lemma fill_maps_entry data hdr pub priv pre extra (s : Store) :
  init encryptor data 0 None is_historical =
    Ok (Some (hdr, reading false (rd pre (items_bytes pub) extra) (rd [] (items_bytes priv) []))) ->
  store_inv s -> hdr_version hdr = version s + 1 -> hdr_version hdr < 2 ^ 64 ->
  NoDup (pub ++ priv).*1 -> Forall item_ok (pub ++ priv) ->
  exists s1 s' changes new_maps,
    fill_maps data false true s = (Ok (Some (mkFilled hdr changes new_maps)), s') /\ quiet s s1 /\
    filling s1 s' (filled_tx changes new_maps) /\ written changes = add_items ∅ (pub ++ priv).
Proof.
  intros Hi Hs Hv Hlt Hnd Hok. unfold fill_maps. cbn [restriction]. rewrite Hi. unfold lift, bind at 1.
  erewrite bind_ok by done. rewrite Hv. pose proof (si_compacted _ Hs) as Hc.
  rewrite u64_sub_exact by (rewrite <- Hv; lia). replace (version s + 1 - 1) with (version s) by lia.
  destruct (rollback_noop (TxID.mk (term_of_last_version (id s)) (version s)) (term_of_next_version (id s)) s)
    as (s1 & Hr & Q); [simpl; lia|done|].
  erewrite bind_ok by exact Hr. erewrite bind_ok by done. rewrite andb_false_r. cbn [andb].
  destruct (quiet_good _ _ Q Hs) as [Hs1 _].
  match goal with |- context [fill_maps_loop ?f] => set (fuel := f) end.
  destruct (fill_domains s1 (version s + 1) pub priv pre extra fuel) as (ch & nm & s' & d' & Heq & Hend & F & Hw);
    try done.
  { by rewrite (q_version _ _ Q). }
  { subst fuel. cbn. rewrite !length_app. pose proof (items_bytes_length pub).
    pose proof (items_bytes_length priv). lia. }
  rewrite Heq, Hend. by exists s1, s', ch, nm.
Qed.

Lemma filling_checks s0 s t : filling s0 s t -> checks_pass t s = true.
Proof.
  intros [F1 F2 F3 F4 F5 F6 F7 F8]. unfold checks_pass. apply andb_true_intro. split.
  - destruct (any_writes (all_changes t)); [|done]. unfold prepare_all. apply forallb_forall.
    intros [n [p a]] Hin%list_elem_of_In%elem_of_by_name. simpl.
    destruct (tm_changes _ _ F5 n p a Hin) as (c & m & -> & Hm & _). rewrite Hm. simpl. by eapply F8.
  - apply forallb_forall. intros [n p] Hin%list_elem_of_In%elem_of_by_name. simpl.
    apply bool_decide_eq_true_2. unfold get_map_internal. by rewrite (F7 n p Hin).
Qed.

Lemma commit_deserialised_spec s0 s changes new_maps term :
  filling s0 s (filled_tx changes new_maps) -> any_writes changes = true -> version s + 1 < 2 ^ 64 ->
  exists hooks s', commit_deserialised changes (version s + 1) term new_maps false s = (Ok (Some hooks), s') /\
    store_inv s' /\ version s' = version s + 1 /\
    forall n, current_state s' n =
      apply_writes (version s + 1) (writes_of (filled_tx changes new_maps) n) (current_state s n).
Proof.
  intros F Hw Hv. set (t := filled_tx changes new_maps) in *. pose proof (filling_checks _ _ _ F) as Hc.
  destruct F as [F1 F2 F3 F4 F5 F6 F7 F8].
  destruct (apply_changes_commits s t (fun _ => ret (version s + 1, u64_sub (version s + 1) 1)) s
              (u64_sub (version s + 1) 1) F1 F5 Hc Hw) as (hooks & s2 & Hap & _ & Hst); [done..|].
  destruct (commit_step_inv _ _ _ F1 F5 Hst) as [Hinv _].
  unfold commit_deserialised. erewrite bind_ok by exact Hap. cbv iota.
  do 3 erewrite bind_ok by done. do 2 eexists. split_and!; [done| |done|].
  - destruct Hinv as [I1 I2 I3]. split; [exact I1|exact I2|exact I3].
  - intros n. exact (commit_step_state s t _ n F1 F5 Hc F6 Hst).
Qed.

Lemma any_writes_spec changes :
  any_writes changes = true <-> exists n p a, changes !! n = Some (p, a) /\ has_writes a = true.
Proof.
  unfold any_writes. rewrite existsb_exists. split.
  - intros ([n [p a]] & Hin & Hw). rewrite <- list_elem_of_In, elem_of_by_name in Hin. by exists n, p, a.
  - intros (n & p & a & Hn & Hw). exists (n, (p, a)). by rewrite <- list_elem_of_In, elem_of_by_name.
Qed.

Lemma written_lookup (s : Store) t n w :
  tx_maps s t -> written (all_changes t) !! n = Some w <->
  exists p c, all_changes t !! n = Some (p, Changes c) /\ cs_writes c = w.
Proof.
  intros Ht. unfold written. rewrite lookup_omap. destruct (all_changes t !! n) as [[p a]|] eqn:Hn; simpl.
  - destruct (tm_changes _ _ Ht n p a Hn) as (c & _ & -> & _). naive_solver.
  - naive_solver.
Qed.

(** Every change set a backup builds writes something the transaction wrote. *)
Lemma filled_lookup (s : Store) t changes new_maps n :
  tx_maps s (filled_tx changes new_maps) -> written changes = add_items ∅ (tx_all_items t) ->
  changes !! n <> None <-> writes_of t n <> ∅.
Proof.
  intros Ht Hw. rewrite <- (written_writes_of t changes new_maps n Hw).
  assert (forall w, written changes !! n = Some w -> w <> ∅) as Hne.
  { intros w. rewrite Hw, add_items_lookup by apply tx_items_NoDup.
    intros Hl%elem_of_list_to_map; [|apply tx_items_NoDup].
    apply elem_of_tx_items in Hl as (c & _ & ? & ->). done. }
  pose proof (fun w => written_lookup s (filled_tx changes new_maps) n w Ht) as Hl. simpl in Hl.
  unfold writes_of, change_sets. rewrite lookup_omap. simpl.
  destruct (changes !! n) as [[p a]|] eqn:Hn; simpl; [|naive_solver].
  destruct (tm_changes _ _ Ht n p a Hn) as (c & _ & -> & _). split; [|done]. intros _.
  apply Hne, Hl. by exists p, c.
Qed.

(** What the backup must find: nothing in the signature tables. *)
Definition no_signature (t : Tx) : Prop :=
  writes_of t SIGNATURES = ∅ /\ writes_of t COSE_SIGNATURES = ∅.

Lemma apply_filled data hdr changes new_maps s s0 s1 t :
  fill_maps data false true s = (Ok (Some (mkFilled hdr changes new_maps)), s1) ->
  filling s0 s1 (filled_tx changes new_maps) -> written changes = add_items ∅ (tx_all_items t) ->
  (exists n, writes_of t n <> ∅) -> no_signature t ->
  hdr_version hdr = version s1 + 1 -> hdr_version hdr < 2 ^ 64 ->
  exists r s', apply data false (Some (TxID.mk (hdr_term hdr) (hdr_version hdr))) false s = (Ok r, s') /\
    (applied_result r = PASS \/ applied_result r = PASS_ENCRYPTED_PAST_LEDGER_SECRET) /\
    store_inv s' /\ version s' = hdr_version hdr /\
    forall n, current_state s' n = apply_writes (hdr_version hdr) (writes_of t n) (current_state s1 n).
Proof.
  intros Hf F Hw [k Hk] [Hsig Hcose] Hv Hlt. pose proof (fl_tx _ _ _ F) as Ht.
  assert (forall n, writes_of t n = ∅ -> written_to n changes = false) as Hnot.
  { intros n Hn. unfold written_to. apply bool_decide_eq_false_2. intros [x Hx].
    assert (writes_of t n <> ∅) as Hne; [|done].
    apply (filled_lookup s1 t changes new_maps n Ht Hw). by rewrite Hx. }
  assert (any_writes changes = true) as Hany.
  { apply any_writes_spec. destruct (changes !! k) as [[p a]|] eqn:Hc.
    - destruct (tm_changes _ _ Ht k p a Hc) as (c & _ & -> & _). exists k, p, (Changes c). split; [done|].
      rewrite <- (written_writes_of t changes new_maps k Hw) in Hk. revert Hk.
      unfold writes_of, change_sets. rewrite lookup_omap. simpl. rewrite Hc. simpl.
      intros Hk. by rewrite bool_decide_eq_false_2.
    - by apply (filled_lookup s1 t changes new_maps k Ht Hw) in Hk. }
  destruct (commit_deserialised_spec s0 s1 changes new_maps (hdr_term hdr) F Hany)
    as (hooks & s2 & Hcom & Hinv & Hv2 & Hst); [lia|].
  unfold apply. erewrite bind_ok by exact Hf. cbn [filled_header filled_changes filled_new_maps].
  cbn [TxID.view TxID.seqno]. rewrite !N.eqb_refl. cbn [negb orb]. rewrite Hv.
  erewrite bind_ok by exact Hcom. cbv iota. erewrite bind_ok by done.
  rewrite (Hnot _ Hsig), (Hnot _ Hcose). cbn [orb andb].
  match goal with |- context [(?m1 ;;; ?m2 ;;; ret ?r) s2] =>
    destruct (quietly_seq m1 m2 ltac:(repeat first [apply quietly_when|apply quietly_call|apply quietly_seq])
                ltac:(repeat first [apply quietly_when|apply quietly_call|apply quietly_seq]) s2)
      as (s3 & Heq & Q); exists r, s3; split;
      [unfold bind in Heq |- *; destruct (m1 s2) as [[[]|] s2']; [by rewrite Heq|done]|] end.
  cbn [applied_result]. split_and!.
  - destruct (written_to _ _); [by right|by left].
  - by apply (quiet_good _ _ Q).
  - by rewrite (q_version _ _ Q).
  - intros n. rewrite (quiet_states _ _ n Q), Hst. by rewrite (written_writes_of t).
Qed.

(** ** Primary and backup *)

Lemma tx_apply_spec s t hooks sp t' :
  tx_apply (s, t) = (Ok (Some hooks), (sp, t')) ->
  exists v s1, apply_tx t s = (Ok (Some v, hooks), s1) /\ quiet s1 sp /\
    all_changes t' = all_changes t /\ tx_version t' = v /\ entry_flags t' = entry_flags t.
Proof.
  unfold tx_apply, bind at 1, get_tx, gets. cbn [snd id]. unfold bind at 1, on_store at 1.
  change (apply_changes (all_changes t) next_version (created_maps t) None false None s) with (apply_tx t s).
  destruct (apply_tx t s) as [[[[v|] hs]|] s1]; [|done..]. unfold tx_applied, bind, upd_tx, modify.
  destruct (chunk_at_next_signature t && has_chunker), (snapshot_at_next_signature_tx t); simpl;
    intros [= <- <- <-]; exists v, s1; split_and!; try done; by split.
Qed.

Lemma lor_byte a b : a < 256 -> b < 256 -> N.lor a b < 256.
Proof.
  intros Ha Hb. destruct (decide (N.lor a b = 0)) as [->|Hne]; [done|].
  change 256 with (2 ^ 8) in *. apply N.log2_lt_pow2; [lia|]. rewrite N.log2_lor.
  apply N.max_lub_lt; [destruct (decide (a = 0)) as [->|]|destruct (decide (b = 0)) as [->|]];
    (done || (apply N.log2_lt_pow2; lia)).
Qed.

(** Both stores are at the same version, with the same maps in the same state. *)
Definition in_sync (s s' : Store) : Prop :=
  version s = version s' /\ forall name, current_state s name = current_state s' name.

(** An entry written for [t] at the next version of [sb]. *)
Lemma entry_applies sp t claims data digest st' sb :
  (forall n p a, all_changes t !! n = Some (p, a) ->
     exists c m, a = Changes c /\ heap sp !! p = Some m /\ ident m = ident_of n) ->
  serialise (Some claims) (sp, t) = (Ok (data, digest), st') -> data <> [] ->
  length claims = 32%nat -> length (evidence_of t) = 32%nat -> tx_flags t < 256 -> no_signature t ->
  store_inv sb -> tx_version t = version sb + 1 -> tx_version t < 2 ^ 64 ->
  exists r sb', apply data false (Some (tx_id_of t)) false sb = (Ok r, sb') /\
    (applied_result r = PASS \/ applied_result r = PASS_ENCRYPTED_PAST_LEDGER_SECRET) /\
    store_inv sb' /\ version sb' = tx_version t /\
    forall n, current_state sb' n = apply_writes (tx_version t) (writes_of t n) (current_state sb n).
Proof.
  intros Hmaps Hser Hne Hcl Hev Hfl Hns Hsb Hv Hlt.
  destruct (serialise_entry sp t claims data digest st' Hmaps Hser Hne) as (Hany & -> & Hdom).
  pose proof Hdom as Hlay. apply (serialise_domains_layout e) in Hlay as (hd & cipher & He & Hsize & _).
  apply (encrypt_decrypt (e := e)) in He as (_ & Hclen & _).
  apply (init_entry e (tx_id_of t) (tx_flags t) false is_historical 0 claims (evidence_of t)) in Hdom
    as [cipher' Hinit]; try done.
  rewrite <- Henc in Hinit. cbn [TxID.seqno TxID.view tx_id_of] in Hinit.
  assert (Forall item_ok (tx_all_items t)) as Hok.
  { rewrite !length_app in Hsize. unfold tx_all_items.
    assert (2 ^ BITS_FOR_SIZE < 2 ^ 64) by done. apply Forall_app. split; apply items_fit; lia. }
  destruct (fill_maps_entry data _ (tx_items PUBLIC t) (tx_items PRIVATE t) _ cipher' sb Hinit Hsb Hv Hlt
              (tx_items_NoDup t) Hok) as (s1 & s2 & changes & new_maps & Hf & Q & F & Hw).
  assert (version s2 = version sb) as Ev by (rewrite (fl_version _ _ _ F); apply Q).
  destruct (apply_filled data _ changes new_maps sb s1 s2 t Hf F Hw) as (r & s' & Hap & Hres & Hinv & Hv' & Hst).
  - apply any_writes_spec in Hany as (n & p & a & Hn & Ha).
    destruct (Hmaps n p a Hn) as (c & _ & -> & _). exists n. unfold writes_of, change_sets.
    rewrite lookup_omap, Hn. simpl in *. intros Hc. by rewrite bool_decide_eq_true_2 in Ha.
  - done.
  - simpl. lia.
  - done.
  - exists r, s'. split_and!; try done. intros n. rewrite Hst, (fl_states _ _ _ F). by rewrite (quiet_states _ _ n Q).
Qed.

(** C6. Replication: the entry of a committed transaction, applied by a node
    that was in sync with the primary before the commit, is accepted and leaves
    the node in sync with the primary after it: at the same version, with the
    same contents under every map name, where a map that is missing is one that
    is empty. The transaction writes no signature, and the maps it opened are
    still in the store. *)
Theorem replication_in_sync (w : World) (i : N) (x : OpenTx) (hooks : list Hook) (sp : Store) (t : Tx)
    (claims data digest : bytes) (st' : Store * Tx) (sb : Store) :
  world_reachable w -> w_txs w !! i = Some x -> version (w_store w) < int64_max ->
  maps_remain (w_store w) (open_tx x) -> entry_flags (open_tx x) < 256 -> no_signature (open_tx x) ->
  length claims = 32%nat -> (forall b, length (sha256 b) = 32%nat) ->
  tx_apply (w_store w, open_tx x) = (Ok (Some hooks), (sp, t)) ->
  serialise (Some claims) (sp, t) = (Ok (data, digest), st') -> data <> [] ->
  store_inv sb -> in_sync (w_store w) sb ->
  exists r sb', apply data false (Some (tx_id_of t)) false sb = (Ok r, sb') /\
    (applied_result r = PASS \/ applied_result r = PASS_ENCRYPTED_PAST_LEDGER_SECRET) /\
    store_inv sb' /\ in_sync sp sb'.
Proof.
  intros Hw Hi Hv Hrem Hfl Hns Hcl Hsha Hap Hser Hne Hsb [Ev Es].
  destruct (world_reachable_inv w Hw) as [Hs Ht _]. specialize (Ht i x Hi). pose proof (ti_maps _ _ Ht) as Htm.
  apply tx_apply_spec in Hap as (v & s1 & Hap & Q & Ech & Etv & Efl).
  assert (forall n, writes_of t n = writes_of (open_tx x) n) as Hwr
    by (intros n; unfold writes_of, change_sets; by rewrite Ech).
  pose proof (serialise_writes _ _ _ _ _ _ Hser Hne) as Hany. rewrite Ech in Hany.
  destruct (checks_pass (open_tx x) (w_store w)) eqn:Hc; [|by rewrite apply_tx_fails in Hap].
  destruct (apply_tx_commits _ _ Hs Htm Hv Hc Hany) as (h' & s' & Hap' & Hst).
  rewrite Hap in Hap'. injection Hap' as Ev' -> ->.
  assert (forall n p a, all_changes t !! n = Some (p, a) ->
    exists c m, a = Changes c /\ heap sp !! p = Some m /\ ident m = ident_of n) as Hmaps.
  { intros n p a. rewrite Ech, (q_heap _ _ Q). intros Hn.
    destruct (tm_changes _ _ Htm n p a Hn) as (c & m & -> & Hm & Hid & _).
    destruct (commit_step_object _ _ _ p m Hst) as (m' & Hm' & Hid' & _); [|done|].
    { intros n' q b Hb. destruct (tm_changes _ _ Htm n' q b Hb) as (c' & _ & -> & _). by exists c'. }
    exists c, m'. by rewrite Hid'. }
  destruct (entry_applies sp t claims data digest st' sb Hmaps Hser Hne Hcl (Hsha _))
    as (r & sb' & Hb & Hr & Hinv & Hvb & Hsb'); try done.
  - unfold tx_flags. rewrite Efl. destruct (chunk_before_this_tx t); [by apply lor_byte|done].
  - split; rewrite Hwr; apply Hns.
  - congruence.
  - unfold int64_max in Hv. lia.
  - exists r, sb'. split_and!; try done. split.
    + rewrite (q_version _ _ Q), (cs_version _ _ _ Hst). congruence.
    + intros n. rewrite (quiet_states _ _ n Q), Hsb', Hwr, Etv, Ev', <- Es. by apply commit_step_state.
Qed.
End replicate.

(** ** Example *)

Import KvExample.

#[export] Instance ex_laws : EncryptorLaws ex_encryptor.
Proof.
  constructor. intros plain aad txid et hint header cipher. cbn [encrypt decrypt get_header_length ex_encryptor].
  destruct (N.ltb_spec (TxID.view txid) (2 ^ 31)) as [Hv|]; [|done]. intros Heq.
  assert (header = le_split 8 (TxID.view txid)) as -> by congruence. assert (cipher = plain) as -> by congruence.
  split_and!; [done|done|]. intros _. eexists. split; [done|]. intros _. rewrite le_combine_split.
  rewrite N.mod_small; [done|]. change (256 ^ N.of_nat 8) with (2 ^ 64). lia.
Qed.

(** One transaction that writes to a new map. *)
Definition small_world : World (Hook := N) :=
  world_step (WUse 1 "m" (put_op 1 10)) (world_step (WBegin 1) ex_start).

Lemma small_world_reachable : world_reachable small_world.
Proof. do 2 (apply world_next; [|done]). apply world_init. Qed.

Definition ex_applied : Store N * Tx :=
  (tx_apply (w_store small_world, open_tx (ex_open 1 small_world))).2.
Definition ex_serialised : result (bytes * bytes) * (Store N * Tx) := serialise ex_claims ex_applied.
Definition ex_data : bytes := match ex_serialised.1 with Ok (data, _) => data | Throw _ => [] end.
Definition ex_digest : bytes := match ex_serialised.1 with Ok (_, digest) => digest | Throw _ => [] end.

Lemma ex_applied_eq :
  tx_apply (w_store small_world, open_tx (ex_open 1 small_world)) = (Ok (Some []), (ex_applied.1, ex_applied.2)).
Proof.
  unfold ex_applied. rewrite <- surjective_pairing.
  assert ((tx_apply (w_store small_world, open_tx (ex_open 1 small_world))).1 = Ok (Some [])) as H by vm_eq.
  destruct (tx_apply _). simpl in *. by rewrite H.
Qed.

Lemma ex_serialised_eq :
  serialise ex_claims (ex_applied.1, ex_applied.2) = (Ok (ex_data, ex_digest), ex_serialised.2).
Proof.
  rewrite <- surjective_pairing. change (serialise ex_claims ex_applied) with ex_serialised.
  assert (match ex_serialised.1 with Ok _ => true | Throw _ => false end = true) as H by vm_eq.
  unfold ex_data, ex_digest. destruct ex_serialised as [[[data digest]|e] st]; done.
Qed.

(** A transaction of the example world, replicated to a copy of its store. *)
Lemma replication_in_sync_witness :
  exists r sb', apply ex_data false (Some (tx_id_of ex_applied.2)) false (w_store small_world) = (Ok r, sb') /\
    in_sync ex_applied.1 sb' /\ version sb' = 1.
Proof.
  destruct (replication_in_sync (HE := ex_env) ex_encryptor eq_refl small_world 1 (ex_open 1 small_world) []
              ex_applied.1 ex_applied.2 (replicate 32 Byte.x00) ex_data ex_digest ex_serialised.2
              (w_store small_world) small_world_reachable)
    as (r & sb' & Hap & _ & _ & Hsync).
  - apply ex_open_lookup. vm_eq.
  - vm_eq.
  - apply maps_remain_check; vm_eq.
  - vm_eq.
  - split; apply (bool_decide_eq_true_1 _); vm_eq.
  - done.
  - done.
  - exact ex_applied_eq.
  - exact ex_serialised_eq.
  - apply (bool_decide_eq_false_1 _). vm_eq.
  - apply (wi_store _ (world_reachable_inv _ small_world_reachable)).
  - done.
  - exists r, sb'. split_and!; [exact Hap|exact Hsync|]. destruct Hsync as [<- _]. vm_eq.
Defined.
End KvReplicate.
