(* ===== verification/KvSnapshot.v ===== *)
(** * Key-value store: snapshots read back

    A snapshot of one store, serialised and applied to the empty store of a
    node that joins: [snapshot_unsafe_maps] and [serialise_snapshot] against
    [deserialise_snapshot]. *)

From S2P Require Import Prelude ViewHistory TxStatus LedgerEntries Champ RaftTypes KvMap KvRoll KvHandle KvIsolation.
From S2P Require Import KvSerialise KvRoundTrip KvEntry KvStore KvTx KvApply KvExample KvWorld KvCommit KvSerial KvReplicate.
From Stdlib Require Import Init.Byte Strings.Byte.

Open Scope N_scope.
Open Scope m_scope.

Module KvSnapshot.
Import Untyped MapHandle Isolation Serialise RoundTrip Entry KvStore KvTx KvApply KvWorld KvCommit KvSerial KvReplicate.

(** ** The state of a map *)

(** The bytes of an entry, and those it takes. *)
Definition entry_bytes (e : bytes * VersionV) : bytes :=
  (serialize_key e.1 ++ padding (length (serialize_key e.1)) ++
   serialize_value e.2 ++ padding (length (serialize_value e.2)))%list.
Definition state_bytes (l : list (bytes * VersionV)) : bytes := concat (entry_bytes <$> l).

(** Sizes stay within 32 bits, and versions are those of transactions. *)
Definition entry_fits (e : bytes * VersionV) : Prop :=
  key_size e.1 + value_size e.2 + 14 < 2 ^ 32 /\ vv_version e.2 < 2 ^ 63.

(** [read_version] is not written. *)
Definition forget (v : VersionV) : VersionV := mkVersionV (vv_version v) 0 (vv_value v).

Lemma get_padding_lt n : Champ.get_padding n < 8.
Proof.
  unfold Champ.get_padding. destruct (N.eqb_spec (n mod 8) 0); [done|].
  assert (n mod 8 < 8) by (by apply N.mod_lt). set (r := n mod 8) in *. lia.
Qed.

Lemma u32_small n : n < 2 ^ 32 -> Champ.u32 n = n.
Proof. intros. by apply N.mod_small. Qed.

Lemma length_padding n : N.of_nat n < 2 ^ 32 -> N.of_nat (length (padding n)) = Champ.get_padding (N.of_nat n).
Proof. intros Hn. unfold padding. rewrite length_replicate, u32_small by done. lia. Qed.

Lemma size_with_padding_eq n : n + 7 < 2 ^ 32 -> Champ.size_with_padding n = n + Champ.get_padding n.
Proof.
  intros Hn. unfold Champ.size_with_padding. pose proof (get_padding_lt n). rewrite (u32_small n) by lia.
  apply u32_small. lia.
Qed.

Lemma length_serialize_key k : N.of_nat (length (serialize_key k)) = key_size k.
Proof. unfold serialize_key, key_size. rewrite length_app, length_le_split. lia. Qed.

Lemma length_serialize_value v : N.of_nat (length (serialize_value v)) = value_size v.
Proof. unfold serialize_value, value_size. rewrite !length_app, !length_le_split. lia. Qed.

Lemma entry_size_length e : entry_fits e ->
  Champ.entry_size key_size value_size e = N.of_nat (length (entry_bytes e)).
Proof.
  intros [Hf _]. unfold Champ.entry_size, entry_bytes. rewrite !length_app, !Nat2N.inj_add.
  rewrite !length_padding, length_serialize_key, length_serialize_value by
    (rewrite ?length_serialize_key, ?length_serialize_value; lia).
  rewrite !size_with_padding_eq by lia. lia.
Qed.

Section state.
Context `{HO : !StateOrder}.

Lemma sizes_length l n : Forall entry_fits l ->
  foldl (fun n e => n + Champ.u32 (Champ.size_with_padding (key_size e.1) +
                                   Champ.size_with_padding (value_size e.2))) n l =
    n + N.of_nat (length (state_bytes l)) /\
  foldl (fun n e => n + Champ.entry_size key_size value_size e) n l = n + N.of_nat (length (state_bytes l)).
Proof.
  intros Hl. revert n. induction Hl as [|e l He Hl IH]; intros n; [simpl; lia|].
  cbn [foldl]. unfold state_bytes. cbn [fmap list_fmap concat]. fold (state_bytes l). rewrite length_app.
  pose proof (entry_size_length e He) as Hlen. unfold Champ.entry_size in Hlen at 1.
  assert (Champ.u32 (Champ.size_with_padding (key_size e.1) + Champ.size_with_padding (value_size e.2)) =
            N.of_nat (length (entry_bytes e))) as ->.
  { rewrite <- Hlen. apply u32_small. destruct He as [He _]. rewrite !size_with_padding_eq by lia.
    pose proof (get_padding_lt (key_size e.1)). pose proof (get_padding_lt (value_size e.2)). lia. }
  rewrite (entry_size_length e He). split.
  - rewrite (proj1 (IH _)). lia.
  - rewrite (proj2 (IH _)). lia.
Qed.

Lemma serialize_state_ok s : Forall entry_fits (map_to_list s) ->
  serialize_state s = Ok (state_bytes (snapshot_entries s)).
Proof.
  intros Hf. rewrite <- snapshot_entries_permutation in Hf. unfold serialize_state.
  destruct (sizes_length (snapshot_entries s) 0 Hf) as [-> ->]. rewrite N.eqb_refl. cbn [negb].
  rewrite N.add_0_l, Nat2N.id. set (parts := concat _).
  assert (concat parts = state_bytes (snapshot_entries s)) as Hp.
  { unfold parts, state_bytes. clear. induction (snapshot_entries s) as [|e l IH]; [done|].
    cbn [fmap list_fmap concat app]. rewrite IH. unfold entry_bytes. by rewrite <- !app_assoc. }
  rewrite <- Hp. apply write_parts_exact.
Qed.

Lemma append_range_app b rest : append_range (N.of_nat (length b)) (b ++ rest) = Ok (b, rest).
Proof.
  unfold append_range. rewrite length_app, Nat2N.id, take_app_length, drop_app_length.
  by destruct (N.ltb_spec (N.of_nat (length b + length rest)) (N.of_nat (length b))); [lia|].
Qed.

Lemma deserialize_key_at k rest : key_size k < 2 ^ 32 ->
  deserialize_key (serialize_key k ++ padding (length (serialize_key k)) ++ rest) = Ok (k, rest).
Proof.
  intros Hk. unfold deserialize_key, serialize_key at 1. rewrite <- app_assoc, read_block_app by (by rewrite length_le_split).
  rewrite le_combine_split, N.mod_small by (unfold key_size in Hk; change (256 ^ N.of_nat 8) with (2 ^ 64); lia).
  rewrite append_range_app. fold (key_size k). rewrite skip_app; [done|].
  by rewrite length_padding, length_serialize_key by (by rewrite length_serialize_key).
Qed.

Lemma deserialize_value_at v rest : value_size v < 2 ^ 32 -> vv_version v < 2 ^ 64 ->
  deserialize_value (serialize_value v ++ padding (length (serialize_value v)) ++ rest) = Ok (forget v, rest).
Proof.
  intros Hv Hver. unfold deserialize_value, serialize_value at 1.
  rewrite <- !app_assoc, read_block_app by (by rewrite length_le_split).
  rewrite read_block_app by (by rewrite length_le_split).
  rewrite !le_combine_split, !N.mod_small by
    (unfold value_size in Hv; change (256 ^ N.of_nat 8) with (2 ^ 64); lia || done).
  rewrite u64_sub_exact by lia. replace (8 + N.of_nat (length (vv_value v)) - 8) with (N.of_nat (length (vv_value v))) by lia.
  rewrite append_range_app. fold (value_size v). rewrite skip_app; [done|].
  by rewrite length_padding, length_serialize_value by (by rewrite length_serialize_value).
Qed.

Lemma deserialize_loop_at l fuel m : Forall entry_fits l -> (length l <= fuel)%nat ->
  deserialize_map_snapshot_loop fuel (state_bytes l) m =
  Ok (foldl (fun m e => <[e.1 := forget e.2]> m) m l).
Proof.
  intros Hl. revert fuel m. induction Hl as [|e l [He Hv] Hl IH]; intros fuel m Hf; [by destruct fuel|].
  cbn [length] in Hf. destruct fuel as [|fuel]; [lia|].
  unfold state_bytes. cbn [fmap list_fmap concat]. fold (state_bytes l).
  assert (exists b rest, entry_bytes e ++ state_bytes l = b :: rest)%list as (b & rest & Hb).
  { unfold entry_bytes, serialize_key. cbn [le_split]. by do 2 eexists. }
  rewrite Hb. cbn [deserialize_map_snapshot_loop]. rewrite <- Hb. unfold entry_bytes. rewrite <- !app_assoc.
  rewrite deserialize_key_at by lia. rewrite deserialize_value_at by lia.
  simpl vv_version. destruct (N.ltb_spec (vv_version e.2) (2 ^ 63)); [|lia]. apply IH. lia.
Qed.

(** A state is read back from what was written for it. *)
Lemma deserialize_state s : Forall entry_fits (map_to_list s) ->
  deserialize_map_snapshot (state_bytes (snapshot_entries s)) = Ok (forget <$> s).
Proof.
  intros Hf. rewrite <- snapshot_entries_permutation in Hf. unfold deserialize_map_snapshot.
  rewrite deserialize_loop_at; [|done|].
  - f_equal. rewrite <- (foldl_insert_perm (forget <$> s) (prod_map id forget <$> snapshot_entries s)).
    + clear. generalize (∅ : State). induction (snapshot_entries s) as [|e l IH]; intros m; [done|]. apply IH.
    + rewrite snapshot_entries_permutation, map_to_list_fmap. done.
  - unfold state_bytes. apply concat_length_ge. intros e. unfold entry_bytes, serialize_key.
    rewrite !length_app, length_le_split. lia.
Qed.
End state.

(** ** The maps of a snapshot *)

Section snapshot.
Context {Hook : Type} `{HE : !KvEnv Hook} `{HO : !StateOrder}.
Context (e : TxEncryptor) (Henc : encryptor = Some e) `{HL : !EncryptorLaws e}.
Abbreviation Store := (Store Hook).

(** A map in a snapshot: its name, domain, version and state. *)
Definition Item : Type := string * SecurityDomain * Version * State.
Definition item_name (i : Item) : string := i.1.1.1.
Definition item_domain (i : Item) : SecurityDomain := i.1.1.2.
Definition map_bytes (i : Item) : bytes :=
  (blob (name_bytes (item_name i)) ++ u64 i.1.2 ++ blob (state_bytes (snapshot_entries i.2)))%list.
Definition maps_bytes (l : list Item) : bytes := concat (map_bytes <$> l).
Definition of_domain (d : SecurityDomain) (l : list Item) : list Item := filter (fun i => item_domain i = d) l.

Lemma serialise_map_snapshot_emit name dom v st s :
  Forall entry_fits (map_to_list st) ->
  serialise_map_snapshot name dom v st s =
  (Ok tt, emit (map_bytes (name, dom, v, st)) (set_current_domain dom s)).
Proof.
  intros Hf. unfold serialise_map_snapshot, start_map. rewrite Henc.
  rewrite (bool_decide_eq_true_2 (is_Some (Some e))) by by eexists. rewrite andb_false_r.
  unfold bind at 1 2. unfold modify at 1 2.
  change (serialise_internal (append_blob (name_bytes name)) (set_current_domain dom s))
    with (emit (blob (name_bytes name)) (set_current_domain dom s)).
  unfold bind. rewrite serialise_u64_emit, emit_emit. unfold lift. rewrite serialize_state_ok by done.
  rewrite serialise_blob_emit, emit_emit. unfold map_bytes. cbn. by rewrite <- app_assoc.
Qed.

Lemma serialise_snapshots_writes dom l s :
  Forall (fun i : Item => Forall entry_fits (map_to_list i.2)) l ->
  exists s', serialise_snapshots dom l s = (Ok tt, s') /\
    forall d, writer d s' =
      if bool_decide (d = dom) then (writer d s ++ maps_bytes (of_domain dom l))%list else writer d s.
Proof.
  intros Hl. revert s. induction Hl as [|[[[n d0] v] st] l Hi Hl IH]; intros s.
  { exists s. split; [done|]. intros d. case_bool_decide; [|done]. cbn. by rewrite app_nil_r. }
  unfold serialise_snapshots. cbn [for_each]. unfold bind at 1. unfold of_domain. rewrite filter_cons.
  cbn [item_domain fst snd]. destruct (decide (d0 = dom)) as [->|Hd].
  2:{ rewrite bool_decide_eq_false_2 by done. apply IH. }
  rewrite bool_decide_eq_true_2 by done. cbn [when]. rewrite serialise_map_snapshot_emit by done.
  destruct (IH (emit (map_bytes (n, dom, v, st)) (set_current_domain dom s))) as (s' & Heq & Hw).
  exists s'. split; [exact Heq|]. intros d. rewrite Hw, writer_emit. case_bool_decide; [|done].
  unfold maps_bytes. cbn [fmap list_fmap concat]. by rewrite <- app_assoc.
Qed.

(** The hash and the views at the start of the public domain. *)
Definition versions_bytes (l : list Version) : bytes := concat (le_split 8 <$> l).
Definition preamble (snap : StoreSnapshot) : bytes :=
  (match hash_at_snapshot snap with Some h => blob h | None => [] end ++
   match view_history snap with Some l => blob (versions_bytes l) | None => [] end)%list.

Lemma serialise_snapshot_entry snap data :
  Forall (fun i : Item => Forall entry_fits (map_to_list i.2)) (snapshots snap) ->
  serialise_snapshot snap = Ok data ->
  serialise_domains (Some e) (TxID.mk 0 (snapshot_version snap)) Snapshot 0 true
    (snapshot_header (snapshot_version snap) ++ preamble snap ++ maps_bytes (of_domain PUBLIC (snapshots snap)))
    (maps_bytes (of_domain PRIVATE (snapshots snap))) = Ok data.
Proof.
  intros Hf. unfold serialise_snapshot. rewrite new_serialiser_snapshot. set (hdr := snapshot_header _).
  assert (forall k : M Serialiser unit,
    (match hash_at_snapshot snap with Some h => serialise_blob h | None => ret tt end ;;;
     match view_history snap with
     | Some l => modify (serialise_internal (append_versions l))
     | None => ret tt
     end ;;; k) (mkSerialiser hdr [] PUBLIC) =
    k (mkSerialiser (hdr ++ preamble snap) [] PUBLIC)) as Hp.
  { intros k. unfold bind, preamble. destruct (hash_at_snapshot snap), (view_history snap); unfold ret;
      rewrite ?serialise_blob_emit; unfold modify, emit, serialise_internal, append_versions, append_blob;
      cbn [current_domain public_writer private_writer]; unfold blob, u64; by rewrite ?app_nil_r, <- ?app_assoc. }
  rewrite Hp. unfold bind.
  destruct (serialise_snapshots_writes PUBLIC _ (mkSerialiser (hdr ++ preamble snap) [] PUBLIC) Hf) as (s1 & E1 & W1).
  destruct (serialise_snapshots_writes PRIVATE _ s1 Hf) as (s2 & E2 & W2). rewrite E1, E2.
  pose proof (W2 PUBLIC) as P1. rewrite W1 in P1. rewrite bool_decide_eq_false_2, bool_decide_eq_true_2 in P1 by done.
  pose proof (W2 PRIVATE) as P2. rewrite W1 in P2. rewrite bool_decide_eq_true_2, bool_decide_eq_false_2 in P2 by done.
  cbn [writer public_writer private_writer app] in P1, P2. rewrite P1, P2, Henc. by rewrite <- !app_assoc.
Qed.

(** ** Reading the maps into an empty store *)

(** The state of the loop after the maps [l]. *)
Record loading (s : Store) (l : list Item) (changes : gmap string (N * AnyChangeSet)) (new_maps : gmap string N)
  : Prop := mkLoading {
  ld_maps : maps s = ∅;
  ld_count : rollback_count s = 0;
  ld_changes : forall n a, (exists p, changes !! n = Some (p, a)) <->
    exists d v st, (n, d, v, st) ∈ l /\ a = SnapshotChanges (forget <$> st) v;
  ld_new : forall n p, new_maps !! n = Some p <-> exists a, changes !! n = Some (p, a);
  ld_heap : forall n p a, changes !! n = Some (p, a) ->
    heap s !! p = Some (new_map n (get_security_domain n));
}.

Definition item_fits (i : Item) : Prop :=
  fits (name_bytes (item_name i)) /\ i.1.2 < 2 ^ 64 /\ fits (state_bytes (snapshot_entries i.2)) /\
  Forall entry_fits (map_to_list i.2).

Lemma loading_none s l changes new_maps n :
  loading s l changes new_maps -> n ∉ item_name <$> l -> changes !! n = None.
Proof.
  intros L Hn. destruct (changes !! n) as [[p a]|] eqn:Hc; [|done]. exfalso. apply Hn.
  destruct (proj1 (ld_changes _ _ _ _ L n a)) as (d & v & st & Hin & _); [by eexists|].
  apply list_elem_of_fmap. by exists (n, d, v, st).
Qed.

Lemma loading_add s l changes new_maps n d v st :
  loading s l changes new_maps -> n ∉ item_name <$> l ->
  loading (with_new_map n s) (l ++ [(n, d, v, st)])
    (<[n := (fresh_ptr s, SnapshotChanges (forget <$> st) v)]> changes) (<[n := fresh_ptr s]> new_maps).
Proof.
  intros L Hn. pose proof (loading_none _ _ _ _ _ L Hn) as Hnone. destruct L as [L1 L2 L3 L4 L5].
  split; [done|done|..].
  - intros k a. split.
    + intros (p & [[<- [= <- <-]]|[Hne Hk]]%lookup_insert_Some).
      * exists d, v, st. split; [|done]. apply elem_of_app. right. by apply list_elem_of_singleton.
      * destruct (proj1 (L3 k a)) as (d' & v' & st' & Hin & ->); [by eexists|]. exists d', v', st'.
        split; [|done]. apply elem_of_app. by left.
    + intros (d' & v' & st' & [Hin|[= -> -> -> ->]%list_elem_of_singleton]%elem_of_app & ->).
      * destruct (proj2 (L3 k (SnapshotChanges (forget <$> st') v'))) as [p Hp]; [by eexists _, _, _|].
        exists p. rewrite lookup_insert_ne; [done|]. intros ->. congruence.
      * eexists. by rewrite lookup_insert_eq.
  - intros k p. destruct (decide (n = k)) as [<-|Hne].
    + rewrite !lookup_insert_eq. naive_solver.
    + by rewrite !lookup_insert_ne.
  - intros k p a [[<- [= <- _]]|[Hne Hk]]%lookup_insert_Some; cbn [with_new_map heap set_heap].
    + apply lookup_insert_eq.
    + apply with_new_map_lookup. by eapply L5.
Qed.

Lemma load_step s l changes new_maps b o pre extra i rest fuel :
  loading s l changes new_maps -> item_name i ∉ item_name <$> l -> item_fits i ->
  exists changes' new_maps' s',
    snapshot_maps_loop (S fuel) changes new_maps (s, reading b (rd pre (map_bytes i ++ rest) extra) o) =
    snapshot_maps_loop fuel changes' new_maps' (s', reading b (rd (pre ++ map_bytes i) rest extra) o) /\
    loading s' (l ++ [i]) changes' new_maps'.
Proof.
  intros L Hn (Hf & Hv & Hs & He). destruct i as [[[n d] v] st]. cbn [item_name fst snd] in *.
  do 3 eexists. split; [|by apply loading_add].
  cbn [snapshot_maps_loop]. unfold bind at 1. unfold of_reader at 1. unfold map_bytes. cbn [item_name fst snd].
  rewrite <- !app_assoc, next_map_at by done. unfold bind at 1. unfold gets at 1. cbn [fst].
  rewrite (ld_maps _ _ _ _ L), lookup_empty. unfold bind at 1 2. unfold of_store at 1.
  change (make_map n (get_security_domain n) s) with (Ok (fresh_ptr s), with_new_map n s).
  unfold ret at 1. rewrite (loading_none _ _ _ _ _ L Hn). simpl (bool_decide _). cbv iota.
  unfold bind at 1. unfold of_reader at 1. rewrite on_current_reading, read_u64_at by done.
  unfold bind at 1. unfold of_reader at 1. rewrite on_current_reading, read_blob_at by done.
  unfold bind at 1, lift at 1. rewrite deserialize_state by done. by rewrite <- !app_assoc.
Qed.

Lemma load_items b o items fuel l changes new_maps s pre extra :
  loading s l changes new_maps -> NoDup (item_name <$> (l ++ items)) -> Forall item_fits items ->
  exists changes' new_maps' s',
    snapshot_maps_loop (length items + fuel) changes new_maps
      (s, reading b (rd pre (maps_bytes items) extra) o) =
    snapshot_maps_loop fuel changes' new_maps' (s', reading b (rd (pre ++ maps_bytes items) [] extra) o) /\
    loading s' (l ++ items) changes' new_maps'.
Proof.
  revert l changes new_maps s pre. induction items as [|i items IH]; intros l changes new_maps s pre L Hnd Hok.
  { exists changes, new_maps, s. split; [|by rewrite app_nil_r]. by rewrite app_nil_r. }
  inversion Hok as [|?? Hi Hok']; subst.
  assert (item_name i ∉ item_name <$> l) as Hn.
  { rewrite fmap_app, NoDup_app in Hnd. destruct Hnd as (_ & Hd & _). intros Hin.
    apply (Hd _ Hin). rewrite fmap_cons. by left. }
  destruct (load_step s l changes new_maps b o pre extra i (maps_bytes items) (length items + fuel) L Hn Hi)
    as (ch & nm & s1 & Heq & L1).
  destruct (IH (l ++ [i])%list ch nm s1 (pre ++ map_bytes i)%list L1) as (ch' & nm' & s' & Heq' & L');
    [by rewrite <- app_assoc|done|].
  exists ch', nm', s'. split.
  - change (length (i :: items) + fuel)%nat with (S (length items + fuel)).
    change (maps_bytes (i :: items)) with (map_bytes i ++ maps_bytes items)%list.
    rewrite Heq, Heq'. by rewrite <- app_assoc.
  - by rewrite <- app_assoc in L'.
Qed.

Lemma maps_bytes_length l : (length l <= length (maps_bytes l))%nat.
Proof.
  apply concat_length_ge. intros i. unfold map_bytes. rewrite length_app.
  pose proof (length_blob (name_bytes (item_name i))). lia.
Qed.

Lemma load_domains s pub priv pre extra fuel :
  maps s = ∅ -> rollback_count s = 0 -> NoDup (item_name <$> (pub ++ priv)) -> Forall item_fits (pub ++ priv) ->
  (length pub + length priv < fuel)%nat ->
  exists changes new_maps s' d',
    snapshot_maps_loop fuel ∅ ∅ (s, reading false (rd pre (maps_bytes pub) extra) (rd [] (maps_bytes priv) [])) =
      (Ok (Some (changes, new_maps)), (s', d')) /\
    end_ d' = true /\ loading s' (pub ++ priv) changes new_maps.
Proof.
  intros Hm Hc Hnd Hok Hfuel. pose proof Hok as [Hok1 Hok2]%Forall_app.
  assert (loading s [] ∅ ∅) as L0.
  { split; [done|done|..]; intros n a; [|rewrite lookup_empty; naive_solver|by rewrite lookup_empty].
    split; [intros [p Hp]; by rewrite lookup_empty in Hp|]. by intros (d & v & st & ?%not_elem_of_nil & _). }
  destruct (Nat.le_exists_sub (length pub + S (length priv)) fuel) as (k & -> & _); [lia|].
  replace (k + (length pub + S (length priv)))%nat with (length pub + (length priv + S k))%nat by lia.
  destruct (load_items false (rd [] (maps_bytes priv) []) pub (length priv + S k) [] ∅ ∅ s pre extra L0)
    as (ch1 & nm1 & s1 & Heq1 & L1); [|done|].
  { rewrite fmap_app, NoDup_app in Hnd. apply Hnd. }
  rewrite Heq1. destruct priv as [|i priv].
  - exists ch1, nm1, s1. eexists. split_and!; [| |by rewrite app_nil_r].
    + cbn [length plus snapshot_maps_loop]. unfold bind at 1, of_reader at 1. rewrite next_map_end by done. done.
    + unfold end_. cbn. by rewrite !is_eos_rd.
  - destruct (load_items true (rd (pre ++ maps_bytes pub) [] extra) (i :: priv) (S k) pub ch1 nm1 s1 [] [] L1 Hnd Hok2)
      as (ch2 & nm2 & s2 & Heq2 & L2).
    exists ch2, nm2, s2. eexists. split_and!; [|..|done].
    + transitivity (snapshot_maps_loop (length (i :: priv) + S k) ch1 nm1
        (s1, reading true (rd [] (maps_bytes (i :: priv)) []) (rd (pre ++ maps_bytes pub) [] extra))).
      { cbn [length plus snapshot_maps_loop]. unfold bind at 1 6, of_reader at 1 4.
        change (maps_bytes (i :: priv)) with (map_bytes i ++ maps_bytes priv)%list.
        unfold map_bytes at 1 2. rewrite <- !app_assoc. by rewrite next_map_switch. }
      rewrite Heq2. cbn [snapshot_maps_loop]. unfold bind at 1, of_reader at 1. rewrite next_map_end by done. done.
    + unfold end_. cbn. by rewrite !is_eos_rd.
Qed.

(** ** Installing the maps *)

(** The state a snapshot gives a map. *)
Definition item_state (l : list Item) (name : string) : State :=
  match list_find (fun i => item_name i = name) l with Some (_, i) => i.2 | None => ∅ end.

Lemma item_state_in l n d v st : NoDup (item_name <$> l) -> (n, d, v, st) ∈ l -> item_state l n = st.
Proof.
  intros Hnd [k Hk]%list_elem_of_lookup. unfold item_state.
  assert (list_find (fun i => item_name i = n) l = Some (k, (n, d, v, st))) as ->; [|done].
  apply list_find_Some. split_and!; [done|done|]. intros j y Hy Hlt Hj.
  assert (j = k) as ->; [|lia]. apply (NoDup_lookup (item_name <$> l) j k n); [done|..].
  - by rewrite list_lookup_fmap, Hy, <- Hj.
  - rewrite list_lookup_fmap. exact (f_equal (fmap item_name) Hk).
Qed.

Lemma item_state_out l n : n ∉ item_name <$> l -> item_state l n = ∅.
Proof.
  intros Hn. unfold item_state. destruct (list_find _ l) as [[k i]|] eqn:Hf; [|done]. exfalso. apply Hn.
  apply list_find_Some in Hf as (Hk & <- & _). apply list_elem_of_fmap. exists i. split; [done|].
  by eapply list_elem_of_lookup_2.
Qed.

Lemma loading_checks s l changes new_maps :
  loading s l changes new_maps ->
  check_rollback_count 0 s = true /\ prepare_all changes s = true /\
  (forall v, forallb (fun e => bool_decide (get_map_internal v e.1 s = None)) (by_name new_maps) = true) /\
  any_writes changes = negb (bool_decide (changes = ∅)).
Proof.
  intros [L1 L2 L3 L4 L5]. split_and!.
  - unfold check_rollback_count. by rewrite L2.
  - apply forallb_forall. intros [n [p a]] Hin%list_elem_of_In%elem_of_by_name. simpl. rewrite (L5 _ _ _ Hin).
    destruct (proj1 (L3 n a)) as (d & v & st & _ & ->); [by eexists|]. done.
  - intros v. apply forallb_forall. intros x _. apply bool_decide_eq_true_2. unfold get_map_internal.
    by rewrite L1, lookup_empty.
  - case_bool_decide as He; [subst; done|]. cbn [negb]. apply any_writes_spec.
    apply map_choose in He as (n & [p a] & Hn). exists n, p, a. split; [done|].
    destruct (proj1 (L3 n a)) as (d & v & st & _ & ->); [by eexists|]. done.
Qed.

Lemma loading_pointers s l changes new_maps :
  loading s l changes new_maps -> NoDup ((fun e => e.2.1) <$> by_name changes).
Proof.
  intros L. apply NoDup_fmap_2_strong.
  - intros [n [p a]] [n' [p' a']] H1%elem_of_by_name H2%elem_of_by_name Heq. simpl in Heq. subst p'.
    pose proof (ld_heap _ _ _ _ L _ _ _ H1) as E1. pose proof (ld_heap _ _ _ _ L _ _ _ H2) as E2.
    rewrite E1 in E2. injection E2 as <-. congruence.
  - eapply NoDup_fmap_1, by_name_NoDup.
Qed.

(** The maps are added to the store with the state they were read with. *)
Lemma loading_installs s l changes new_maps :
  loading s l changes new_maps -> changes <> ∅ ->
  exists hooks s', apply_changes changes (fun _ => ret (NoVersion, NoVersion)) new_maps None false (Some 0) s =
      (Ok (Some NoVersion, hooks), s') /\
    (forall n cv p, maps s' !! n = Some (cv, p) <-> cv = NoVersion /\ new_maps !! n = Some p) /\
    (forall n p st v, changes !! n = Some (p, SnapshotChanges st v) ->
       exists m, heap s' !! p = Some m /\ lc_state (get_tail (roll m)) = st).
Proof.
  intros L Hne. destruct (loading_checks _ _ _ _ L) as (K1 & K2 & K3 & K4).
  pose proof (loading_pointers _ _ _ _ L) as Hnd. destruct L as [L1 L2 L3 L4 L5].
  rewrite bool_decide_eq_false_2 in K4 by done. cbn [negb] in K4.
  destruct (add_dynamic_maps_spec NoVersion changes (by_name new_maps) s) as (s2 & Hadd & [A1 A2 A3 A4 A5]).
  { apply by_name_NoDup. }
  { intros x _. by rewrite L1, lookup_empty. }
  assert (forall n p a, changes !! n = Some (p, a) -> is_Some (heap s2 !! p)) as Hs2.
  { intros n p a Hn. pose proof (A1 p) as Hp. rewrite (L5 _ _ _ Hn) in Hp. simpl in Hp.
    apply fmap_Some in Hp as (m' & Hm' & _). by exists m'. }
  destruct (commit_all_spec NoVersion false (by_name changes) s2 Hnd) as (out & h & Hcom & _ & Hl).
  { intros [n [p a]] Hin%elem_of_by_name. by eapply Hs2. }
  do 2 eexists. split_and!.
  - unfold apply_changes, bind, gets, id. rewrite bool_decide_eq_false_2, K1, K4, K2, K3 by done. cbn [andb].
    change (ret (NoVersion, NoVersion) s) with (Ok (NoVersion, NoVersion), s). cbv beta iota.
    rewrite Hadd, Hcom. done.
  - intros n cv p. cbn [maps set_heap]. rewrite A2, maps_added_lookup.
    2:{ intros. by rewrite L1, lookup_empty. }
    rewrite L1, lookup_empty. split; [naive_solver|]. intros [-> Hn]. right. split_and!; try done.
    unfold writes_to. apply L4 in Hn as [a Ha]. rewrite Ha.
    destruct (proj1 (L3 n a)) as (d & v & st & _ & ->); [by eexists|]. done.
  - intros n p st v Hn. cbn [heap set_heap]. destruct (Hs2 _ _ _ Hn) as [m Hm].
    eexists. split; [apply (Hl n p (SnapshotChanges st v) m); [by apply elem_of_by_name|done]|done].
Qed.

Lemma loading_commit s l changes new_maps :
  loading s l changes new_maps -> NoDup (item_name <$> l) ->
  exists hooks s', apply_changes changes (fun _ => ret (NoVersion, NoVersion)) new_maps None false (Some 0) s =
      (Ok (Some NoVersion, hooks), s') /\ forall n, current_state s' n = forget <$> item_state l n.
Proof.
  intros L Hnd. destruct (decide (changes = ∅)) as [->|Hne].
  - destruct (loading_checks _ _ _ _ L) as (K1 & K2 & K3 & K4). exists [], s. split.
    + unfold apply_changes, bind, gets, id. rewrite K4, K3. done.
    + intros n. unfold current_state. rewrite (ld_maps _ _ _ _ L), lookup_empty.
      rewrite item_state_out; [by rewrite fmap_empty|]. intros ([[[n' d] v] st] & -> & Hin)%list_elem_of_fmap.
      destruct (proj2 (ld_changes _ _ _ _ L n' (SnapshotChanges (forget <$> st) v))) as [p Hp].
      { by exists d, v, st. }
      by rewrite lookup_empty in Hp.
  - destruct (loading_installs _ _ _ _ L Hne) as (hooks & s' & Hap & Hm & Hh). exists hooks, s'.
    split; [done|]. intros n. destruct L as [L1 L2 L3 L4 L5]. unfold current_state.
    destruct (changes !! n) as [[p a]|] eqn:Hn.
    + destruct (proj1 (L3 n a)) as (d & v & st & Hin & ->); [by eexists|].
      assert (maps s' !! n = Some (NoVersion, p)) as -> by (apply Hm; split; [done|]; apply L4; by eexists).
      destruct (Hh _ _ _ _ Hn) as (m & -> & ->). by rewrite (item_state_in _ _ _ _ _ Hnd Hin).
    + destruct (maps s' !! n) as [[cv p]|] eqn:Hp.
      { apply Hm in Hp as [_ Hp]. apply L4 in Hp as [a Ha]. congruence. }
      rewrite item_state_out; [by rewrite fmap_empty|]. intros ([[[n' d] v] st] & -> & Hin)%list_elem_of_fmap.
      destruct (proj2 (L3 n' (SnapshotChanges (forget <$> st) v))) as [q Hq]; [by exists d, v, st|].
      cbn in Hn. congruence.
Qed.

(** ** The whole snapshot *)

(** The names are distinct, and in the domain their prefix gives. *)
Definition snapshot_ok (snap : StoreSnapshot) : Prop :=
  NoDup (item_name <$> snapshots snap) /\ Forall (fun i : Item => Forall entry_fits (map_to_list i.2)) (snapshots snap) /\
  Forall (fun i : Item => i.1.2 < 2 ^ 64) (snapshots snap) /\ snapshot_version snap < 2 ^ 64 /\
  bool_decide (is_Some (hash_at_snapshot snap)) = has_history /\
  bool_decide (is_Some (view_history snap)) = has_consensus.

Definition both_domains (snap : StoreSnapshot) : list Item :=
  (of_domain PUBLIC (snapshots snap) ++ of_domain PRIVATE (snapshots snap))%list.

Lemma both_domains_perm snap : both_domains snap ≡ₚ snapshots snap.
Proof.
  unfold both_domains, of_domain. induction (snapshots snap) as [|i l IH]; [done|].
  rewrite !filter_cons. destruct (item_domain i).
  - rewrite decide_True, decide_False by done. cbn [app]. by constructor.
  - rewrite decide_False, decide_True by done. rewrite <- Permutation_middle. by constructor.
Qed.

Lemma maps_bytes_fit l :
  Forall (fun i : Item => Forall entry_fits (map_to_list i.2)) l -> Forall (fun i : Item => i.1.2 < 2 ^ 64) l ->
  N.of_nat (length (maps_bytes l)) < 2 ^ 64 -> Forall item_fits l.
Proof.
  intros H1 H2 Hlen. rewrite Forall_forall in H1, H2. apply Forall_forall. intros i Hi.
  pose proof (length_concat_elem map_bytes _ _ Hi) as Hl. fold (maps_bytes l) in Hl. unfold map_bytes in Hl.
  rewrite !length_app in Hl. pose proof (length_blob_ge (name_bytes (item_name i))).
  pose proof (length_blob_ge (state_bytes (snapshot_entries i.2))).
  split_and!; [unfold fits; lia|by apply H2|unfold fits; lia|by apply H1].
Qed.

Lemma item_state_perm l l' n : l ≡ₚ l' -> NoDup (item_name <$> l) -> item_state l n = item_state l' n.
Proof.
  intros Hp Hnd. assert (NoDup (item_name <$> l')) as Hnd' by (by rewrite <- Hp).
  destruct (decide (n ∈ item_name <$> l)) as [Hin|Hout].
  - apply list_elem_of_fmap in Hin as ([[[n' d] v] st] & -> & Hin).
    change (item_name (n', d, v, st)) with n'. rewrite (item_state_in l n' d v st) by done. symmetry. apply (item_state_in l' n' d v st); [done|].
    by rewrite <- Hp.
  - rewrite !item_state_out; [done| |done]. by rewrite <- Hp.
Qed.

(** The hash and the views are read, or are not there. *)
Lemma read_preamble snap (s : Store) rest pre extra o :
  bool_decide (is_Some (hash_at_snapshot snap)) = has_history ->
  bool_decide (is_Some (view_history snap)) = has_consensus ->
  N.of_nat (length (preamble snap)) < 2 ^ 64 ->
  forall A (k : bytes -> M (Store * Deserialiser) A), exists hash,
  (hash <- (if has_history then of_reader (on_current read_blob) else ret []) ;;;
   when has_consensus (of_reader (on_current read_blob) ;;; ret tt) ;;; k hash)
    (s, reading false (rd pre (preamble snap ++ rest) extra) o) =
  k hash (s, reading false (rd (pre ++ preamble snap) rest extra) o).
Proof.
  intros Hh Hc. unfold preamble. rewrite length_app. intros Hlen A k. unfold bind at 1 2.
  rewrite <- Hh, <- Hc. clear Hh Hc. rewrite <- app_assoc.
  destruct (hash_at_snapshot snap) as [h|].
  - rewrite bool_decide_eq_true_2 by by eexists. unfold of_reader at 1. rewrite on_current_reading.
    pose proof (length_blob_ge h). rewrite read_blob_at by (unfold fits; lia). exists h.
    destruct (view_history snap) as [l|].
    + rewrite bool_decide_eq_true_2 by by eexists. cbn [when]. unfold bind, of_reader.
      rewrite on_current_reading. pose proof (length_blob_ge (versions_bytes l)).
      rewrite read_blob_at by (unfold fits; lia). unfold ret. by rewrite <- app_assoc.
    + by rewrite app_nil_r.
  - exists []. rewrite bool_decide_eq_false_2 by (by intros [? ?]). unfold ret at 1.
    destruct (view_history snap) as [l|].
    + rewrite bool_decide_eq_true_2 by by eexists. cbn [when app]. unfold bind, of_reader.
      rewrite on_current_reading. pose proof (length_blob_ge (versions_bytes l)).
      rewrite read_blob_at by (unfold fits; lia). done.
    + by rewrite !app_nil_r.
Qed.

Lemma snapshot_loads snap data (s0 : Store) :
  snapshot_ok snap -> serialise_snapshot snap = Ok data -> maps s0 = ∅ -> rollback_count s0 = 0 ->
  (has_history = true -> forall cs, history_init_from_snapshot cs = true) ->
  exists hooks s', deserialise_snapshot data false has_consensus s0 = (Ok (PASS, hooks), s') /\
    version s' = snapshot_version snap /\
    forall n, current_state s' n = forget <$> item_state (snapshots snap) n.
Proof.
  intros (Hnd & He & Hvs & Hv & Hh & Hc) Hser Hm Hr Hinit.
  apply serialise_snapshot_entry in Hser; [|done].
  pose proof Hser as Hlay. apply (serialise_domains_layout e) in Hlay as (hd & cipher & Hencr & Hsize & _).
  apply (encrypt_decrypt (e := e)) in Hencr as (_ & Hclen & _). rewrite !length_app in Hsize.
  assert (2 ^ BITS_FOR_SIZE < 2 ^ 64) as H48 by done.
  pose proof (both_domains_perm snap) as Hperm. unfold both_domains in Hperm.
  set (pub := of_domain PUBLIC (snapshots snap)) in *. set (priv := of_domain PRIVATE (snapshots snap)) in *.
  assert (Forall item_fits (pub ++ priv)) as Hok.
  { rewrite <- Hperm in He, Hvs. apply Forall_app in He as [E1 E2], Hvs as [V1 V2].
    apply Forall_app. split; apply maps_bytes_fit; try done; lia. }
  apply (init_layout e _ _ 0 true is_historical 0 _ (snapshot_version snap) None None) in Hser
    as (cipher' & term & Hi & _); [|done|done|intros; by apply read_snapshot_header].
  unfold deserialise_snapshot. cbn [restriction]. rewrite Henc, Hi. unfold lift, bind at 1.
  match goal with |- context [snapshot_maps_loop ?f] => set (fuel := f) end.
  change (mkDeserialiser ?r ?o false) with (reading false r o).
  destruct (read_preamble snap s0 (maps_bytes pub) (snapshot_header (snapshot_version snap)) cipher'
    (rd [] (maps_bytes priv) []) Hh Hc ltac:(lia) _
    (fun hash => l <- snapshot_maps_loop fuel ∅ ∅ ;;; ret (hash, l))) as [hash Hpre].
  cbv beta in Hpre. rewrite Hpre.
  destruct (load_domains s0 pub priv (snapshot_header (snapshot_version snap) ++ preamble snap) cipher' fuel Hm Hr)
    as (changes & new_maps & s1 & d' & Hloop & Hend & L); [by rewrite Hperm|done| |].
  { subst fuel. unfold readable. cbn. rewrite !length_app. pose proof (maps_bytes_length pub).
    pose proof (maps_bytes_length priv). lia. }
  unfold bind at 1. rewrite Hloop. cbn [ret]. rewrite Hend. cbn [negb].
  destruct (loading_commit _ _ _ _ L) as (hooks & s2 & Hap & Hst); [by rewrite Hperm|].
  erewrite bind_ok by exact Hap. cbv iota. do 2 erewrite bind_ok by done.
  match goal with |- context [when ?b (call ?c) ;;; _] =>
    match goal with |- context [bind _ _ ?s3] => destruct (when_call_quiet b c s3) as (s4 & Hw4 & Q4) end end.
  erewrite bind_ok by exact Hw4. erewrite bind_ok by done.
  assert (has_history && negb (history_init_from_snapshot (calls s4)) = false) as ->.
  { destruct has_history; [|done]. by rewrite Hinit. }
  exists hooks, s4. split_and!; [done|by rewrite (q_version _ _ Q4)|].
  intros n. rewrite (quiet_states _ _ n Q4), <- (item_state_perm (pub ++ priv)) by (done || by rewrite Hperm).
  rewrite <- Hst. done.
Qed.

(** ** Snapshots of a store *)

(** What a transaction that reads at [v] finds in a map. *)
Definition state_at (s : Store) (v : Version) (name : string) : State :=
  match maps s !! name with
  | Some (_, p) => match heap s !! p ≫= create_change_set v false with Some c => cs_state c | None => ∅ end
  | None => ∅
  end.

Lemma state_at_current s n : store_inv s -> state_at s (version s) n = current_state s n.
Proof.
  intros Hs. unfold state_at, current_state. destruct (maps s !! n) as [[cv p]|] eqn:Hp; [|done].
  destruct (si_maps _ Hs _ _ _ Hp) as (m & -> & _ & _ & _ & Ht & _). cbn. unfold create_change_set.
  by rewrite find_commit_tail.
Qed.

(** A commit is found at any version that was not compacted away. *)
Lemma find_commit_found v r : lc_version (roll_head r) <= v ->
  exists c, find_commit v r = Some c /\ lc_version c <= v.
Proof.
  intros Hv. unfold find_commit. destruct (List.find _ _) as [c|] eqn:Hf.
  - exists c. split; [done|]. apply find_some in Hf as [_ Hf]. by apply N.leb_le.
  - exfalso. pose proof (find_none _ _ Hf (roll_head r)) as Hn. cbv beta in Hn.
    destruct (N.leb_spec (lc_version (roll_head r)) v); [|lia]. discriminate Hn.
    rewrite <- list_elem_of_In, elem_of_reverse. unfold commits. by left.
Qed.

Definition snapshot_item (s : Store) (v : Version) (x : string * (Version * N)) : option Item :=
  (fun m => (x.1, security_domain m, (Untyped.snapshot v m).1, (Untyped.snapshot v m).2)) <$> heap s !! x.2.2.

Lemma snapshot_unsafe_maps_spec s v snap s1 :
  snapshot_unsafe_maps v s = (Ok snap, s1) ->
  s1 = s /\ compacted s <= v /\ v <= version s /\ snapshot_version snap = v /\
  snapshots snap = omap (snapshot_item s v) (by_name (maps s)) /\
  bool_decide (is_Some (hash_at_snapshot snap)) = has_history /\
  bool_decide (is_Some (view_history snap)) = has_consensus.
Proof.
  unfold snapshot_unsafe_maps, bind, gets, id. destruct (N.ltb_spec v (compacted s)); [done|].
  destruct (N.ltb_spec (version s) v); [done|]. intros [= <- <-]. cbn [snapshot_version snapshots].
  split_and!; try done.
  - apply list_omap_ext. apply Forall2_same_length_lookup_2; [done|]. intros i [n [cv p]] y H1 H2. by simplify_eq.
  - cbn. by destruct has_history.
  - cbn. by destruct has_consensus.
Qed.

Lemma snapshot_item_name s v x i : snapshot_item s v x = Some i -> item_name i = x.1.
Proof. unfold snapshot_item. by intros (m & _ & ->)%fmap_Some. Qed.

Lemma snapshot_items_NoDup s v l : NoDup l.*1 -> NoDup (item_name <$> omap (snapshot_item s v) l).
Proof.
  intros Hnd. eapply sublist_NoDup; [exact Hnd|]. clear Hnd.
  induction l as [|x l IH]; [done|]. cbn. destruct (snapshot_item s v x) as [i|] eqn:Hi; [|by constructor].
  cbn. rewrite (snapshot_item_name _ _ _ _ Hi). by constructor.
Qed.

(** The snapshot holds what a transaction at its version reads. *)
Lemma snapshot_items_state s v n :
  store_inv s -> compacted s <= v ->
  Forall (fun i : Item => i.1.2 <= v) (omap (snapshot_item s v) (by_name (maps s))) /\
  item_state (omap (snapshot_item s v) (by_name (maps s))) n = state_at s v n.
Proof.
  intros Hs Hc. set (l := omap _ _).
  assert (NoDup (item_name <$> l)) as Hnd by apply snapshot_items_NoDup, by_name_NoDup.
  assert (forall k cv p m, maps s !! k = Some (cv, p) -> heap s !! p = Some m ->
    exists c, find_commit v (roll m) = Some c /\ lc_version c <= v) as Hfound.
  { intros k cv p m Hk Hm. destruct (si_maps _ Hs _ _ _ Hk) as (m' & Hm' & _ & _ & _ & _ & Hh).
    simplify_eq. apply find_commit_found. lia. }
  split.
  - apply Forall_forall. intros i ([k [cv p]] & Hin%elem_of_by_name & Hi)%list_elem_of_omap.
    unfold snapshot_item in Hi. apply fmap_Some in Hi as (m & Hm & ->). cbn [fst snd] in *.
    destruct (Hfound _ _ _ _ Hin Hm) as (c & Hf & Hle). unfold Untyped.snapshot. by rewrite Hf.
  - unfold state_at. destruct (maps s !! n) as [[cv p]|] eqn:Hp.
    + destruct (si_maps _ Hs _ _ _ Hp) as (m & Hm & _). destruct (Hfound _ _ _ _ Hp Hm) as (c & Hf & _).
      rewrite Hm. cbn. unfold create_change_set. rewrite Hf. cbn.
      eapply item_state_in; [done|]. apply list_elem_of_omap. exists (n, (cv, p)).
      split; [by apply elem_of_by_name|]. unfold snapshot_item, Untyped.snapshot. cbn [fst snd].
      rewrite Hm. cbn [fmap option_fmap option_map]. by rewrite Hf.
    + apply item_state_out. intros (i & -> & ([k x] & Hin%elem_of_by_name & Hi)%list_elem_of_omap)%list_elem_of_fmap.
      apply snapshot_item_name in Hi. cbn in Hi. congruence.
Qed.

(** C14. A snapshot restores a store: in every reachable state of a store,
    what is written for a snapshot at a version that can still be read is
    accepted by an empty store, which ends at that version with every map as a
    transaction at that version reads it, and so, at the current version, in
    the state of the store. Only the record of who read a key is lost. *)
Theorem snapshot_restores (w : World) (v : Version) (snap : StoreSnapshot) (s1 : Store) (data : bytes) :
  world_reachable w -> version (w_store w) <= int64_max ->
  snapshot_unsafe_maps v (w_store w) = (Ok snap, s1) ->
  Forall (fun i : Item => Forall entry_fits (map_to_list i.2)) (snapshots snap) ->
  serialise_snapshot snap = Ok data ->
  (has_history = true -> forall cs, history_init_from_snapshot cs = true) ->
  exists hooks s', deserialise_snapshot data false has_consensus init_Store = (Ok (PASS, hooks), s') /\
    version s' = v /\ (forall n, current_state s' n = forget <$> state_at (w_store w) v n) /\
    (v = version (w_store w) -> forall n, current_state s' n = forget <$> current_state (w_store w) n).
Proof.
  intros Hw Hmax Hsnap Hfit Hser Hinit. pose proof (wi_store _ (world_reachable_inv w Hw)) as Hs.
  apply snapshot_unsafe_maps_spec in Hsnap as (-> & Hc & Hv & Ev & Hl & Hh & Hcon).
  destruct (snapshot_loads snap data init_Store) as (hooks & s' & Hd & Hver & Hst); try done.
  { unfold snapshot_ok. rewrite Hl in *. destruct (snapshot_items_state (w_store w) v "" Hs Hc) as [Hvs _].
    unfold int64_max in Hmax. split_and!; try done; [apply snapshot_items_NoDup, by_name_NoDup| |lia].
    eapply Forall_impl; [exact Hvs|]. cbn. intros. lia. }
  assert (forall n, current_state s' n = forget <$> state_at (w_store w) v n) as Hall.
  { intros n. rewrite Hst, Hl. by rewrite (proj2 (snapshot_items_state (w_store w) v n Hs Hc)). }
  exists hooks, s'. split_and!; [done|congruence|done|]. intros -> n. by rewrite Hall, state_at_current.
Qed.
End snapshot.

(** ** Example *)

Import KvExample.

(** The snapshot can be taken and written, and its entries fit. *)
Definition snapshot_check (s : Store N) (v : Version) : bool :=
  match snapshot_unsafe_maps v s with
  | (Ok snap, _) =>
      match serialise_snapshot snap with
      | Ok _ => forallb (fun i : Item => forallb (fun x =>
          (key_size x.1 + value_size x.2 + 14 <? 2 ^ 32) && (vv_version x.2 <? 2 ^ 63)) (map_to_list i.2))
          (snapshots snap)
      | Throw _ => false
      end
  | (Throw _, _) => false
  end.

Lemma snapshot_check_ok s v : snapshot_check s v = true -> exists snap data,
  snapshot_unsafe_maps v s = (Ok snap, s) /\ serialise_snapshot snap = Ok data /\
  Forall (fun i : Item => Forall entry_fits (map_to_list i.2)) (snapshots snap).
Proof.
  unfold snapshot_check. destruct (snapshot_unsafe_maps v s) as [[snap|] s1] eqn:Hs; [|discriminate].
  destruct (serialise_snapshot snap) as [data|] eqn:Hd; [|discriminate]. intros H. exists snap, data.
  apply snapshot_unsafe_maps_spec in Hs as [-> _]. split_and!; [done|done|].
  apply Forall_forall. intros i Hi. apply Forall_forall. intros x Hx. rewrite forallb_forall in H.
  specialize (H i (proj1 (list_elem_of_In _ _) Hi)). rewrite forallb_forall in H.
  specialize (H x (proj1 (list_elem_of_In _ _) Hx)). apply andb_prop in H as [H1 H2].
  split; by apply N.ltb_lt.
Qed.

Lemma snapshot_restores_witness : exists data hooks s',
  deserialise_snapshot data false true init_Store = (Ok (PASS, hooks), s') /\ version s' = 2.
Proof.
  destruct (snapshot_check_ok (w_store ex_world) (version (w_store ex_world))) as (snap & data & Hs & Hd & Hf); [vm_eq|].
  destruct (snapshot_restores (HE := ex_env) ex_encryptor eq_refl ex_world (version (w_store ex_world)) snap
              (w_store ex_world) data ex_world_reachable) as (hooks & s' & Hap & Hv & _);
    [apply N.leb_le; vm_eq|exact Hs|exact Hf|exact Hd|done|].
  exists data, hooks, s'. split; [exact Hap|]. rewrite Hv. vm_eq.
Defined.
End KvSnapshot.
