(* ===== verification/RingBuffer.v ===== *)
(** * Ring buffer

    The multiple-producer single-consumer ring buffer between host and enclave
    (src/ds/ring_buffer.h, src/ds/ring_buffer_types.h), and the loops that read
    from it (src/ds/messaging.h).

    A call to a writer or to the reader is a sequence of steps, each of which
    makes one access to shared memory, so that the steps of several writers and
    of the reader interleave in any order. Memory is sequentially consistent. *)

From S2P Require Import Prelude LedgerEntries.
From Stdlib Require Import Init.Byte Strings.Byte.

Open Scope N_scope.
Open Scope m_scope.

Module RingBuffer.

(** ** Headers and sizes *)

Definition pending_write_flag : N := N.shiftl 1 31.
Definition length_mask : N := 2 ^ 32 - 1 - pending_write_flag.

Definition msg_none : N := 0.
Definition msg_min : N := 1.
Definition msg_max : N := 2 ^ 32 - 2.
Definition msg_pad : N := 2 ^ 32 - 1.

Definition is_power_of_2 (n : N) : bool := negb (n =? 0) && (N.land n (u64_sub 0 n) =? n).

Definition header_size : N := 8.
Definition align_size (n : N) : N := N.land (n + (header_size - 1)) (2 ^ 64 - 1 - (header_size - 1)).
Definition entry_size (n : N) : N := align_size (n + header_size).
Definition max_size : N := 2 ^ 31 - 1 - header_size.
Definition max_reservation_size (buffer_size : N) : N := buffer_size / 2.

Definition make_header (m size : N) (pending : bool) : N :=
  N.lor (N.shiftl m 32) (N.lor (N.land size length_mask) (if pending then pending_write_flag else 0)).
Definition message (header : N) : N := N.shiftr header 32 mod 2 ^ 32.
Definition header_length (header : N) : N := N.land header (2 ^ 32 - 1).

(** ** The buffer *)

(** [BufferDef] and the [Offsets] it points to. *)
Record Buffer := mkBuffer { mem : bytes; head : N; head_cache : N; tail : N }.

Definition eta_Buffer (b : Buffer) := mkBuffer (mem b) (head b) (head_cache b) (tail b).
Definition set_mem (v : bytes) (b : Buffer) : Buffer := ltac:(set_field eta_Buffer (mem b) v b).
Definition set_head (v : N) (b : Buffer) : Buffer := ltac:(set_field eta_Buffer (head b) v b).
Definition set_head_cache (v : N) (b : Buffer) : Buffer := ltac:(set_field eta_Buffer (head_cache b) v b).
Definition set_tail (v : N) (b : Buffer) : Buffer := ltac:(set_field eta_Buffer (tail b) v b).

Definition bd_size (b : Buffer) : N := N.of_nat (length (mem b)).

(** The [n] bytes at [i], and those replaced by [b]. *)
Definition slice (i n : N) (l : bytes) : bytes := take (N.to_nat n) (drop (N.to_nat i) l).
Definition splice (i : N) (b l : bytes) : bytes :=
  (take (N.to_nat i) l ++ b ++ drop (N.to_nat i + length b) l)%list.

Definition check_access (index access_size : N) : M Buffer unit :=
  size <- gets bd_size ;;;
  if size <? index + access_size then throw (RuntimeError "Ringbuffer access out of bounds") else ret tt.

Definition read64 (index : N) : M Buffer N :=
  check_access index 8 ;;; gets (fun b => le_combine (slice index 8 (mem b))).

Definition write64 (index value : N) : M Buffer unit :=
  check_access index 8 ;;; modify (fun b => set_mem (splice index (le_split 8 value) (mem b)) b).

Definition clear_mem (index advance : N) : M Buffer unit :=
  modify (fun b => set_mem (splice index (replicate (N.to_nat advance) Byte.x00) (mem b)) b).

(** ** Reader *)

(** Where a call to [read] is. *)
Inductive Reader :=
| ReadIdle
| ReadStart (limit : N)
| Scanning (limit hd advance count : N)
| Calling (limit hd msg_index advance count m size : N)
| Clearing (hd advance : N)
| StoringHead (hd advance : N)
| ReadFailed (e : exn).

(** After the loop. *)
Definition leave_loop (hd advance : N) : Reader :=
  if 0 <? advance then Clearing hd advance else ReadIdle.

(** What a header makes the loop do. *)
Definition inspect (limit hd msg_index advance count header : N) : Reader :=
  let size := header_length header in
  if negb (N.land size pending_write_flag =? 0) then leave_loop hd advance
  else
    let m := message header in
    if m =? msg_none then leave_loop hd advance
    else if m =? msg_pad then Scanning limit hd (advance + (header_size + size)) count
    else Calling limit hd msg_index (advance + entry_size size) (count + 1) m size.

(** One step of [read]; the handler is called with what is in the buffer. *)
Definition reader_step (r : Reader) : M Buffer (Reader * option (N * bytes)) :=
  size <- gets bd_size ;;;
  let mask := size - 1 in
  match r with
  | ReadIdle => ret (ReadIdle, None)
  | ReadFailed e => ret (ReadFailed e, None)
  | ReadStart limit => hd <- gets head ;;; ret (Scanning limit hd 0 0, None)
  | Scanning limit hd advance count =>
      let hd_index := N.land hd mask in
      let block := size - hd_index in
      if (advance <? block) && (count <? limit) then
        let msg_index := hd_index + advance in
        header <- read64 msg_index ;;;
        ret (inspect limit hd msg_index advance count header, None)
      else ret (leave_loop hd advance, None)
  | Calling limit hd msg_index advance count m size =>
      check_access (N.land hd mask) advance ;;;
      data <- gets (fun b => slice (msg_index + header_size) size (mem b)) ;;;
      ret (Scanning limit hd advance count, Some (m, data))
  | Clearing hd advance =>
      check_access (N.land hd mask) advance ;;;
      clear_mem (N.land hd mask) advance ;;;
      ret (StoringHead hd advance, None)
  | StoringHead hd advance =>
      modify (set_head ((hd + advance) mod 2 ^ 64)) ;;; ret (ReadIdle, None)
  end.

(** ** Writer *)

(** The arguments of [write_multiple], serialised. *)
Record Call := mkCall { call_message : N; call_wait : bool; call_sections : list bytes }.

Definition payload (c : Call) : bytes := concat (call_sections c).
Definition total_size (c : Call) : N := foldr (fun s n => N.of_nat (length s) + n) 0 (call_sections c).
Definition call_entry_size (c : Call) : N := entry_size (total_size c).

(** The local variables of [reserve]. *)
Record Locals := mkLocals { l_hd : N; l_tl : N; l_padding : N; l_tl_index : N }.

(** Where a call to [write_multiple] is: in [prepare] and [reserve], between
    the writes of its sections, in [finish], or returned. *)
Inductive Writer :=
| Preparing (c : Call)
| LoadCache (c : Call)
| LoadTail (c : Call) (hd : N)
| LoadHead (c : Call) (l : Locals)
| StoreCache (c : Call) (l : Locals)
| LoadHeadAgain (c : Call) (l : Locals)
| StoreCacheAgain (c : Call) (l : Locals)
| Exchange (c : Call) (l : Locals)
| WritePad (c : Call) (l : Locals)
| WriteHeader (c : Call) (index : N)
| Writing (c : Call) (initial next : N) (sections : list bytes)
| LoadHeader (c : Call) (initial : N)
| StoreHeader (c : Call) (initial header : N)
| Returned (r : result bool).

Definition greater_with_wraparound (a b : N) : bool :=
  negb (a =? b) && (u64_sub a b <? (2 ^ 64 - 1) / 2).

(** From the choice of [padding] to the next access to shared memory. *)
Definition place (bd_size : N) (c : Call) (l : Locals) : Writer :=
  let size := call_entry_size c in
  let mask := bd_size - 1 in
  let tl_index := N.land (l_tl l) mask in
  let block := bd_size - tl_index in
  if block <? size then
    if N.land (l_hd l) mask <? size
    then LoadHeadAgain c (mkLocals (l_hd l) (l_tl l) 0 tl_index)
    else Exchange c (mkLocals (l_hd l) (l_tl l) block tl_index)
  else Exchange c (mkLocals (l_hd l) (l_tl l) 0 tl_index).

(** From the start of the loop body to the next access to shared memory. *)
Definition loop_body (bd_size : N) (c : Call) (l : Locals) : Writer :=
  let gap := u64_sub (l_tl l) (l_hd l) in
  let avail := u64_sub bd_size gap in
  if (bd_size <? gap) || (avail <? call_entry_size c) then LoadHead c l else place bd_size c l.

(** [reserve] has returned nothing. *)
Definition no_space (c : Call) : Writer := if call_wait c then LoadCache c else Returned (Ok false).

(** One step of [write_multiple] on a [Writer]; [spurious] makes
    [compare_exchange_weak] fail. *)
Definition writer_step (spurious : bool) (w : Writer) : M Buffer Writer :=
  bd_size <- gets bd_size ;;;
  let mask := bd_size - 1 in
  match w with
  | Preparing c =>
      let m := call_message c in
      if (m <? msg_min) || (msg_max <? m) then throw (LogicError "Cannot use a reserved message")
      else if max_size <? total_size c then throw (LogicError "Message is too long for any writer")
      else if max_reservation_size bd_size <? call_entry_size c
      then throw (LogicError "Message is too long for this writer")
      else ret (LoadCache c)
  | LoadCache c => hd <- gets head_cache ;;; ret (LoadTail c hd)
  | LoadTail c hd => tl <- gets tail ;;; ret (loop_body bd_size c (mkLocals hd tl 0 0))
  | LoadHead c l =>
      hd <- gets head ;;;
      if greater_with_wraparound hd (l_tl l)
      then ret (Exchange c (mkLocals hd (l_tl l) (l_padding l) (l_tl_index l)))
      else if u64_sub bd_size (u64_sub (l_tl l) hd) <? call_entry_size c then ret (no_space c)
      else ret (StoreCache c (mkLocals hd (l_tl l) (l_padding l) (l_tl_index l)))
  | StoreCache c l => modify (set_head_cache (l_hd l)) ;;; ret (place bd_size c l)
  | LoadHeadAgain c l =>
      hd <- gets head ;;;
      if N.land hd mask <? call_entry_size c then ret (no_space c)
      else ret (StoreCacheAgain c (mkLocals hd (l_tl l) (l_padding l) (l_tl_index l)))
  | StoreCacheAgain c l =>
      modify (set_head_cache (l_hd l)) ;;;
      ret (Exchange c (mkLocals (l_hd l) (l_tl l) (bd_size - l_tl_index l) (l_tl_index l)))
  | Exchange c l =>
      tl <- gets tail ;;;
      if (tl =? l_tl l) && negb spurious then
        modify (set_tail ((l_tl l + call_entry_size c + l_padding l) mod 2 ^ 64)) ;;;
        ret (if l_padding l =? 0 then WriteHeader c (l_tl_index l) else WritePad c l)
      else ret (loop_body bd_size c (mkLocals (l_hd l) tl (l_padding l) (l_tl_index l)))
  | WritePad c l =>
      write64 (l_tl_index l) (make_header msg_pad (l_padding l - header_size) false) ;;;
      ret (WriteHeader c 0)
  | WriteHeader c index =>
      write64 index (make_header (call_message c) (total_size c) true) ;;;
      ret (Writing c (index + header_size) (index + header_size) (call_sections c))
  | Writing c initial next (s :: sections) =>
      check_access next (N.of_nat (length s)) ;;;
      modify (fun b => set_mem (splice next s (mem b)) b) ;;;
      ret (Writing c initial (next + N.of_nat (length s)) sections)
  | Writing c initial next [] => ret (LoadHeader c initial)
  | LoadHeader c initial =>
      header <- read64 (initial - header_size) ;;; ret (StoreHeader c initial header)
  | StoreHeader c initial header =>
      write64 (initial - header_size) (make_header (message header) (header_length header) false) ;;;
      ret (Returned (Ok true))
  | Returned r => ret (Returned r)
  end.

(** ** Writers and a reader *)

(** [written] are the calls that returned [true], with the writer that made
    them, in that order; [delivered] the calls of the handler. *)
Record System := mkSystem {
  buf : Buffer;
  writers : gmap N Writer;
  reader : Reader;
  written : list (N * (N * bytes));
  delivered : list (N * bytes);
}.

Inductive Op :=
| StartWrite (i : N) (c : Call)
| StepWriter (i : N) (spurious : bool)
| StartRead (limit : N)
| StepReader.

Definition writer_of (s : System) (i : N) : Writer := default (Returned (Ok false)) (writers s !! i).

(** What a step of a writer adds to [written]. *)
Definition completes (i : N) (w : Writer) (r : result Writer) : list (N * (N * bytes)) :=
  match w, r with
  | StoreHeader c _ _, Ok _ => [(i, (call_message c, payload c))]
  | _, _ => []
  end.

Definition sys_step (op : Op) (s : System) : option System :=
  match op with
  | StartWrite i c =>
      match writer_of s i with
      | Returned _ => Some (mkSystem (buf s) (<[i := Preparing c]> (writers s)) (reader s) (written s) (delivered s))
      | _ => None
      end
  | StepWriter i spurious =>
      let w := writer_of s i in
      let '(r, b) := writer_step spurious w (buf s) in
      Some (mkSystem b (<[i := match r with Ok w' => w' | Throw e => Returned (Throw e) end]> (writers s)) (reader s)
              (written s ++ completes i w r)%list (delivered s))
  | StartRead limit =>
      match reader s with
      | ReadIdle => Some (mkSystem (buf s) (writers s) (ReadStart limit) (written s) (delivered s))
      | _ => None
      end
  | StepReader =>
      let '(r, b) := reader_step (reader s) (buf s) in
      match r with
      | Ok (r', out) => Some (mkSystem b (writers s) r' (written s) (delivered s ++ option_list out)%list)
      | Throw e => Some (mkSystem b (writers s) (ReadFailed e) (written s) (delivered s))
      end
  end.

(** A new buffer of [2 ^ k] bytes. *)
Definition new_buffer (k : N) : Buffer := mkBuffer (replicate (N.to_nat (2 ^ k)) Byte.x00) 0 0 0.
Definition new_system (k : N) : System := mkSystem (new_buffer k) ∅ ReadIdle [] [].

(** Fewer than [2 ^ 63] bytes go through the buffer: the offsets are 64-bit
    integers that do not wrap. *)
Inductive sys_reachable (k : N) : System -> Prop :=
| sys_init : sys_reachable k (new_system k)
| sys_next op s s' :
    sys_reachable k s -> sys_step op s = Some s' -> tail (buf s') < 2 ^ 63 -> sys_reachable k s'.

(** ** Calls that run alone *)

Fixpoint run_reader (fuel : nat) (r : Reader) : M Buffer (list (N * bytes)) :=
  match r, fuel with
  | ReadIdle, _ => ret []
  | _, O => throw OutOfFuel
  | _, S fuel =>
      x <- reader_step r ;;;
      rest <- run_reader fuel x.1 ;;;
      ret (option_list x.2 ++ rest)%list
  end.

(** [Reader::read]: the messages given to the handler. Each turn of the loop
    advances by 8 bytes or more. *)
Definition read (limit : N) : M Buffer (list (N * bytes)) :=
  size <- gets bd_size ;;; run_reader (N.to_nat size + 4) (ReadStart limit).

(** [BufferProcessor::read_n] while [finished] is not set: the messages
    dispatched, [max_messages] at most. [previous_read] is [None] before the
    first read. *)
Fixpoint read_n_loop (fuel : nat) (max_messages total_read : N) (previous_read : option N)
  : M Buffer (list (N * bytes)) :=
  if negb (total_read <? max_messages) then ret []
  else
    match fuel with
    | O => throw OutOfFuel
    | S fuel =>
        msgs <- read 1 ;;;
        let read := N.of_nat (length msgs) in
        if (read =? 0) && bool_decide (previous_read = Some 0) then ret msgs
        else
          rest <- read_n_loop fuel max_messages (total_read + read) (Some read) ;;;
          ret (msgs ++ rest)%list
    end.

(** Every second read at least returns a message. *)
Definition read_n (max_messages : N) : M Buffer (list (N * bytes)) :=
  read_n_loop (2 * N.to_nat max_messages + 2) max_messages 0 None.

Fixpoint read_all_loop (fuel : nat) : M Buffer (list (N * bytes)) :=
  match fuel with
  | O => throw OutOfFuel
  | S fuel =>
      msgs <- read_n 1 ;;;
      match msgs with
      | [] => ret []
      | _ => rest <- read_all_loop fuel ;;; ret (msgs ++ rest)%list
      end
  end.

(** [BufferProcessor::read_all]. The buffer holds fewer messages than bytes. *)
Definition read_all : M Buffer (list (N * bytes)) :=
  size <- gets bd_size ;;; read_all_loop (S (N.to_nat size)).
End RingBuffer.
