(* ===== verification/RingBufferInv.v ===== *)
(** * Ring buffer: what is in the buffer

    The buffer is a sequence of entries between head and tail, and zeros: the
    invariant that every step of every writer and of the reader keeps. *)

From S2P Require Import Prelude LedgerEntries RingBuffer.
From Stdlib Require Import Init.Byte Strings.Byte.

Open Scope N_scope.

Module RingBufferInv.
Import RingBuffer.

(** ** Arithmetic *)

Lemma land_mask x k : N.land x (2 ^ k - 1) = x mod 2 ^ k.
Proof. rewrite <- N.land_ones, N.ones_equiv. f_equal. lia. Qed.

Lemma lor_add a b k : b < 2 ^ k -> N.lor (N.shiftl a k) b = a * 2 ^ k + b.
Proof.
  intros Hb. rewrite N.shiftl_mul_pow2.
  assert (N.land (a * 2 ^ k) b = 0) as Hl.
  { apply N.bits_inj_0. intros n. rewrite N.land_spec. destruct (N.lt_ge_cases n k) as [Hn|Hn].
    - by rewrite N.mul_pow2_bits_low.
    - assert (N.testbit b n = false) as ->; [|apply andb_false_r].
      apply N.testbit_false. rewrite N.div_small; [done|].
      eapply N.lt_le_trans; [exact Hb|]. apply N.pow_le_mono_r; lia. }
  rewrite N.add_nocarry_lxor by done. symmetry. by apply N.lxor_lor.
Qed.

(** The bits of a header. *)
Lemma make_header_eq m size pending : size < 2 ^ 31 ->
  make_header m size pending = m * 2 ^ 32 + (size + if pending then 2 ^ 31 else 0).
Proof.
  intros Hs. unfold make_header. replace length_mask with (2 ^ 31 - 1) by done.
  rewrite land_mask, N.mod_small by done. replace pending_write_flag with (N.shiftl 1 31) by done.
  assert (N.lor size (if pending then N.shiftl 1 31 else 0) = size + if pending then 2 ^ 31 else 0) as ->.
  { destruct pending; [|by rewrite N.lor_0_r, N.add_0_r].
    rewrite N.lor_comm, lor_add by done. change (1 * 2 ^ 31) with (2 ^ 31). lia. }
  apply lor_add. change (2 ^ 32) with (2 ^ 31 + 2 ^ 31). destruct pending; lia.
Qed.

Lemma message_make_header m size pending : m < 2 ^ 32 -> size < 2 ^ 31 ->
  message (make_header m size pending) = m.
Proof.
  intros Hm Hs. rewrite make_header_eq by done. unfold message. rewrite N.shiftr_div_pow2.
  rewrite N.div_add_l by done. rewrite (N.div_small (size + _)), N.add_0_r, N.mod_small; [done..|].
  change (2 ^ 32) with (2 ^ 31 + 2 ^ 31). destruct pending; lia.
Qed.

Lemma header_length_make_header m size pending : size < 2 ^ 31 ->
  header_length (make_header m size pending) = size + if pending then 2 ^ 31 else 0.
Proof.
  intros Hs. rewrite make_header_eq by done. unfold header_length. rewrite land_mask.
  rewrite N.add_comm, N.Div0.mod_add. apply N.mod_small. change (2 ^ 32) with (2 ^ 31 + 2 ^ 31). destruct pending; lia.
Qed.

Lemma make_header_lt m size pending : m < 2 ^ 32 -> size < 2 ^ 31 -> make_header m size pending < 2 ^ 64.
Proof.
  intros Hm Hs. rewrite make_header_eq by done. change (2 ^ 64) with (2 ^ 32 * 2 ^ 32).
  change (2 ^ 32) with (2 ^ 31 + 2 ^ 31) in *. destruct pending; nia.
Qed.

(** The pending bit. *)
Lemma pending_flag size (pending : bool) : size < 2 ^ 31 ->
  N.land (size + if pending then 2 ^ 31 else 0) pending_write_flag = if pending then 2 ^ 31 else 0.
Proof.
  intros Hs. change pending_write_flag with (2 ^ 31). apply N.bits_inj. intros n.
  rewrite N.land_spec, N.pow2_bits_eqb. destruct (N.eqb_spec 31 n) as [<-|Hn].
  - rewrite andb_true_r. destruct pending.
    + rewrite N.pow2_bits_true. rewrite N.testbit_odd, N.shiftr_div_pow2.
      rewrite <- (N.mul_1_l (2 ^ 31)) at 1. rewrite N.div_add, N.div_small by done. done.
    + rewrite N.add_0_r, N.bits_0. apply N.testbit_false. by rewrite N.div_small.
  - rewrite andb_false_r. symmetry. destruct pending; [by apply N.pow2_bits_false|apply N.bits_0].
Qed.

Lemma align_size_eq n : n < 2 ^ 63 -> align_size n = (n + 7) / 8 * 8.
Proof.
  intros Hn. unfold align_size. change (header_size - 1) with 7.
  change (2 ^ 64 - 1 - 7) with (N.ldiff (N.ones 64) (N.ones 3)).
  assert (N.land (n + 7) (N.ldiff (N.ones 64) (N.ones 3)) = N.ldiff (N.land (n + 7) (N.ones 64)) (N.ones 3)) as ->.
  { apply N.bits_inj. intros i. rewrite N.land_spec, !N.ldiff_spec, N.land_spec. by rewrite andb_assoc. }
  rewrite N.land_ones, N.mod_small by (change (2 ^ 64) with (2 ^ 63 + 2 ^ 63); lia).
  rewrite N.ldiff_ones_r, N.shiftl_mul_pow2, N.shiftr_div_pow2. done.
Qed.

Lemma entry_size_spec n : n < 2 ^ 62 ->
  n + 8 <= entry_size n < n + 16 /\ entry_size n mod 8 = 0.
Proof.
  intros Hn. unfold entry_size. change header_size with 8.
  rewrite align_size_eq by (change (2 ^ 63) with (2 ^ 62 + 2 ^ 62); lia).
  rewrite N.Div0.mod_mul. split; [|done].
  pose proof (N.Div0.div_mod (n + 8 + 7) 8). pose proof (N.mod_lt (n + 8 + 7) 8 ltac:(done)).
  set (q := (n + 8 + 7) / 8) in *. set (r := (n + 8 + 7) mod 8) in *. lia.
Qed.

(** ** Slices of memory *)

Definition zeros (n : N) : bytes := replicate (N.to_nat n) Byte.x00.

Lemma length_zeros n : length (zeros n) = N.to_nat n.
Proof. apply length_replicate. Qed.

Lemma lookup_slice i n l j :
  slice i n l !! j = if bool_decide (j < N.to_nat n)%nat then l !! (N.to_nat i + j)%nat else None.
Proof.
  unfold slice. case_bool_decide; [by rewrite lookup_take_lt, lookup_drop by done|].
  apply lookup_take_ge. lia.
Qed.

Lemma length_slice i n l : i + n <= N.of_nat (length l) -> length (slice i n l) = N.to_nat n.
Proof. intros Hl. unfold slice. rewrite length_take, length_drop. lia. Qed.

Lemma length_splice i b l : i + N.of_nat (length b) <= N.of_nat (length l) -> length (splice i b l) = length l.
Proof. intros Hl. unfold splice. rewrite !length_app, length_take, length_drop. lia. Qed.

Lemma lookup_splice i b l j : i + N.of_nat (length b) <= N.of_nat (length l) ->
  splice i b l !! j =
  if bool_decide (N.to_nat i <= j < N.to_nat i + length b)%nat then b !! (j - N.to_nat i)%nat else l !! j.
Proof.
  intros Hl. unfold splice. case_bool_decide as Hj.
  - rewrite lookup_app_r by (rewrite length_take; lia). rewrite length_take.
    rewrite lookup_app_l by lia. f_equal. lia.
  - destruct (decide (j < N.to_nat i)%nat).
    + rewrite lookup_app_l by (rewrite length_take; lia). by apply lookup_take_lt.
    + rewrite lookup_app_r by (rewrite length_take; lia). rewrite length_take.
      rewrite lookup_app_r by lia. rewrite lookup_drop. f_equal. lia.
Qed.

Lemma slice_splice_out i n p b l :
  p + N.of_nat (length b) <= N.of_nat (length l) ->
  i + n <= p \/ p + N.of_nat (length b) <= i -> slice i n (splice p b l) = slice i n l.
Proof.
  intros Hl Hd. apply list_eq. intros j. rewrite !lookup_slice, lookup_splice by done.
  case_bool_decide; [|done]. case_bool_decide; [lia|done].
Qed.

Lemma slice_splice_in i n p b l :
  i <= p -> p + N.of_nat (length b) <= i + n -> i + n <= N.of_nat (length l) ->
  slice i n (splice p b l) = splice (p - i) b (slice i n l).
Proof.
  intros H1 H2 H3. apply list_eq. intros j.
  rewrite lookup_slice, !lookup_splice, lookup_slice by (rewrite ?length_slice; lia).
  repeat case_bool_decide; try lia; try done; f_equal; lia.
Qed.

Lemma slice_all i b l :
  i + N.of_nat (length b) <= N.of_nat (length l) -> slice i (N.of_nat (length b)) (splice i b l) = b.
Proof.
  intros Hl. apply list_eq. intros j. rewrite lookup_slice, lookup_splice by done.
  repeat case_bool_decide; try lia.
  - f_equal. lia.
  - symmetry. apply lookup_ge_None. lia.
Qed.

Lemma slice_slice i n j m l : j + m <= n -> slice j m (slice i n l) = slice (i + j) m l.
Proof.
  intros Hj. apply list_eq. intros x. rewrite !lookup_slice.
  repeat case_bool_decide; try lia; try done. f_equal. lia.
Qed.

Lemma slice_app_l n b b' : n <= N.of_nat (length b) -> slice 0 n (b ++ b') = slice 0 n b.
Proof. intros Hn. unfold slice. rewrite !drop_0. apply take_app_le. lia. Qed.

Lemma slice_app_exact b b' : slice 0 (N.of_nat (length b)) (b ++ b') = b.
Proof. unfold slice. by rewrite drop_0, Nat2N.id, take_app_length. Qed.

Lemma slice_app_r i n b b' : N.of_nat (length b) <= i ->
  slice i n (b ++ b') = slice (i - N.of_nat (length b)) n b'.
Proof.
  intros Hi. unfold slice. rewrite drop_app_ge by lia. f_equal. f_equal. lia.
Qed.

Lemma splice_app a x b c : length x = length b -> splice (N.of_nat (length a)) b (a ++ x ++ c) = (a ++ b ++ c)%list.
Proof.
  intros Hx. unfold splice. rewrite Nat2N.id, take_app_length. f_equal. f_equal.
  rewrite drop_app_ge by lia. replace (length a + length b - length a)%nat with (length x) by lia.
  apply drop_app_length.
Qed.

(** Two ranges of offsets less than a lap apart do not meet in memory. *)
Lemma idx_disjoint sz p n q m :
  0 < sz -> p + n <= q -> q + m <= p + sz -> p mod sz + n <= sz -> q mod sz + m <= sz ->
  p mod sz + n <= q mod sz \/ q mod sz + m <= p mod sz.
Proof.
  intros Hsz H1 H2 H3 H4. pose proof (N.mod_lt p sz ltac:(lia)) as Hp.
  destruct (N.lt_ge_cases (p mod sz + (q - p)) sz) as [Hlt|Hge].
  - left. assert (q mod sz = p mod sz + (q - p)) as ->; [|lia].
    symmetry. apply (N.mod_unique _ _ (p / sz)); [done|]. pose proof (N.Div0.div_mod p sz). lia.
  - destruct (N.eq_dec (q - p) sz) as [He|Hne]; right.
    + assert (m = 0) as -> by lia. assert (q mod sz = p mod sz) by
        (replace q with (p + 1 * sz) by lia; apply N.Div0.mod_add). lia.
    + assert (q mod sz = p mod sz + (q - p) - sz) as ->; [|lia].
      symmetry. apply (N.mod_unique _ _ (p / sz + 1)); [lia|]. pose proof (N.Div0.div_mod p sz). lia.
Qed.

Lemma mod_next sz p n : 0 < sz -> p mod sz + n < sz -> (p + n) mod sz = p mod sz + n.
Proof.
  intros Hsz Hlt. symmetry. apply (N.mod_unique _ _ (p / sz)); [done|]. pose proof (N.Div0.div_mod p sz). lia.
Qed.

(** ** Entries *)

(** What a part of the buffer between head and tail holds: padding or a
    message, whose header and data may still have to be written. *)
Inductive EState :=
| PadNew
| PadDone
| Claimed (m size : N)
| Opened (m size : N) (data : bytes)
| Closed (m : N) (data : bytes).

(** An entry at an offset, of the writer that reserved it. *)
Record Entry := mkEntry { e_pos : N; e_len : N; e_owner : N; e_state : EState }.

Definition set_state (st : EState) (e : Entry) : Entry := mkEntry (e_pos e) (e_len e) (e_owner e) st.

Definition with_header (header : N) (data : bytes) (len : N) : bytes :=
  (le_split 8 header ++ data ++ zeros (len - 8 - N.of_nat (length data)))%list.

Definition entry_bytes (e : Entry) : bytes :=
  match e_state e with
  | PadNew | Claimed _ _ => zeros (e_len e)
  | PadDone => with_header (make_header msg_pad (e_len e - 8) false) [] (e_len e)
  | Opened m size data => with_header (make_header m size true) data (e_len e)
  | Closed m data => with_header (make_header m (N.of_nat (length data)) false) data (e_len e)
  end.

Definition message_ok (m size len : N) : Prop :=
  msg_min <= m /\ m <= msg_max /\ size <= max_size /\ len = entry_size size.

(** Padding runs to the end of the buffer. *)
Definition state_ok (sz pos len : N) (st : EState) : Prop :=
  match st with
  | PadNew | PadDone => len < 2 ^ 31 + 8 /\ pos mod sz + len = sz /\ len < sz
  | Claimed m size => message_ok m size len
  | Opened m size data => message_ok m size len /\ N.of_nat (length data) <= size
  | Closed m data => message_ok m (N.of_nat (length data)) len
  end.

Record entry_ok (sz : N) (e : Entry) : Prop := mkEntryOk {
  eo_pos : e_pos e mod 8 = 0;
  eo_len : e_len e mod 8 = 0;
  eo_min : 8 <= e_len e;
  eo_fits : e_pos e mod sz + e_len e <= sz;
  eo_state : state_ok sz (e_pos e) (e_len e) (e_state e);
}.

Definition unclosed (st : EState) : bool :=
  match st with PadNew | Claimed _ _ | Opened _ _ _ => true | PadDone | Closed _ _ => false end.

(** Entries follow each other from one offset to another. *)
Fixpoint chain (p : N) (es : list Entry) (t : N) : Prop :=
  match es with
  | [] => p = t
  | e :: es => e_pos e = p /\ chain (p + e_len e) es t
  end.

Definition span (es : list Entry) : N := foldr (fun e n => e_len e + n) 0 es.

Lemma span_app es es' : span (es ++ es') = span es + span es'.
Proof. unfold span. induction es as [|e es IH]; simpl; lia. Qed.

Lemma chain_span p es t : chain p es t -> t = p + span es.
Proof.
  revert p. induction es as [|e es IH]; intros p; simpl; [lia|]. intros [_ H]. apply IH in H. lia.
Qed.

Lemma chain_app p es es' t : chain p (es ++ es') t <-> chain p es (p + span es) /\ chain (p + span es) es' t.
Proof.
  revert p. induction es as [|e es IH]; intros p; simpl.
  - rewrite N.add_0_r. tauto.
  - rewrite IH, N.add_assoc. tauto.
Qed.

Lemma chain_elem p es t e : chain p es t -> e ∈ es -> p <= e_pos e /\ e_pos e + e_len e <= t.
Proof.
  revert p. induction es as [|e' es IH]; intros p; [by intros _ ?%not_elem_of_nil|].
  intros [<- Hc] [->|He]%elem_of_cons.
  - apply chain_span in Hc. lia.
  - destruct (IH _ Hc He). lia.
Qed.

Lemma chain_set_state p l e r t st :
  chain p (l ++ e :: r) t -> chain p (l ++ set_state st e :: r) t.
Proof. rewrite !chain_app. done. Qed.

Lemma span_mod8 sz es : Forall (entry_ok sz) es -> span es mod 8 = 0.
Proof.
  induction 1 as [|e es He _ IH]; [done|]. simpl. rewrite N.Div0.add_mod, (eo_len _ _ He), IH. done.
Qed.

Lemma length_with_header header data len :
  8 + N.of_nat (length data) <= len -> N.of_nat (length (with_header header data len)) = len.
Proof. intros H. unfold with_header. rewrite !length_app, length_le_split, length_zeros. lia. Qed.

Lemma message_ok_len m size len : message_ok m size len -> size + 8 <= len /\ size < 2 ^ 31 /\ m < 2 ^ 32.
Proof.
  intros (H1 & H2 & H3 & ->). unfold max_size, header_size, msg_max in *.
  destruct (entry_size_spec size) as [[H _] _]; lia.
Qed.

Lemma length_entry_bytes sz e : entry_ok sz e -> N.of_nat (length (entry_bytes e)) = e_len e.
Proof.
  intros [_ _ Hmin _ Hst]. unfold entry_bytes. destruct (e_state e); simpl in Hst;
    rewrite ?length_zeros; try lia; apply length_with_header; simpl.
  - lia.
  - destruct Hst as [Hm ?]. apply message_ok_len in Hm. lia.
  - apply message_ok_len in Hst. lia.
Qed.

(** ** The buffer *)

(** The memory holds the entries from [start] on, and zeros elsewhere. [start]
    is the head, or where the reader will move it next. *)
Record buffer_ok (k : N) (b : Buffer) (start : N) (es : list Entry) : Prop := mkBufferOk {
  bo_k : 3 <= k <= 62;
  bo_size : bd_size b = 2 ^ k;
  bo_head : head b <= start /\ head b mod 8 = 0;
  bo_start : start mod 8 = 0;
  bo_cache : head_cache b <= head b /\ head_cache b mod 8 = 0;
  bo_chain : chain start es (tail b);
  bo_room : tail b <= head b + 2 ^ k;
  bo_tail : tail b < 2 ^ 63;
  bo_entries : Forall (entry_ok (2 ^ k)) es;
  bo_mem : forall e, e ∈ es -> slice (e_pos e mod 2 ^ k) (e_len e) (mem b) = entry_bytes e;
  bo_free : forall p, tail b <= p < start + 2 ^ k -> mem b !! N.to_nat (p mod 2 ^ k) = Some Byte.x00;
}.

Lemma size_mod8 k : 3 <= k -> 2 ^ k mod 8 = 0 /\ 8 <= 2 ^ k.
Proof.
  intros Hk. replace k with (3 + (k - 3)) by lia. rewrite N.pow_add_r. change (2 ^ 3) with 8.
  rewrite N.mul_comm, N.Div0.mod_mul. split; [done|]. pose proof (N.pow_nonzero 2 (k - 3) ltac:(done)). lia.
Qed.

Lemma mod_pow_mod8 k p : 3 <= k -> p mod 8 = 0 -> (p mod 2 ^ k) mod 8 = 0.
Proof.
  intros Hk Hp. replace k with (3 + (k - 3)) by lia. rewrite N.pow_add_r. change (2 ^ 3) with 8.
  rewrite N.Div0.mod_mul_r, N.mul_comm, N.Div0.mod_add, Hp. done.
Qed.

(** Entries of a chain less than a lap long are apart in memory. *)
Lemma entries_apart k start es1 e1 es2 e2 es3 t :
  chain start (es1 ++ e1 :: es2 ++ e2 :: es3) t -> t <= start + 2 ^ k ->
  entry_ok (2 ^ k) e1 -> entry_ok (2 ^ k) e2 ->
  e_pos e1 mod 2 ^ k + e_len e1 <= e_pos e2 mod 2 ^ k \/ e_pos e2 mod 2 ^ k + e_len e2 <= e_pos e1 mod 2 ^ k.
Proof.
  rewrite chain_app. intros [_ Hc] Ht [_ _ _ F1 _] [_ _ _ F2 _]. simpl in Hc. destruct Hc as [P1 Hc].
  rewrite chain_app in Hc. destruct Hc as [_ Hc]. simpl in Hc. destruct Hc as [P2 Hc]. apply chain_span in Hc.
  apply idx_disjoint; lia.
Qed.

(** Two positions of a list, in either order. *)
Lemma split_two {A} (l : list A) x r y : y ∈ (l ++ r)%list ->
  (exists a b, l ++ x :: r = a ++ y :: b ++ x :: r)%list \/ (exists a b, l ++ x :: r = l ++ x :: a ++ y :: b)%list.
Proof.
  intros [Hl|Hr]%elem_of_app.
  - left. apply list_elem_of_split in Hl as (a & b & ->). exists a, b. by rewrite <- app_assoc.
  - right. apply list_elem_of_split in Hr as (a & b & ->). by exists a, b.
Qed.

Lemma other_apart k start l e r e' t :
  chain start (l ++ e :: r) t -> t <= start + 2 ^ k -> Forall (entry_ok (2 ^ k)) (l ++ e :: r) -> e' ∈ (l ++ r)%list ->
  e_pos e mod 2 ^ k + e_len e <= e_pos e' mod 2 ^ k \/ e_pos e' mod 2 ^ k + e_len e' <= e_pos e mod 2 ^ k.
Proof.
  intros Hc Ht Hok He'. rewrite Forall_forall in Hok.
  destruct (split_two l e r e' He') as [(a & b & Heq)|(a & b & Heq)]; rewrite Heq in Hc, Hok.
  - destruct (entries_apart _ _ _ _ _ _ _ _ Hc Ht); [apply Hok; set_solver..|by right|by left].
  - apply (entries_apart _ _ _ _ _ _ _ _ Hc Ht); apply Hok; set_solver.
Qed.

(** Writing into an entry. *)
Lemma buffer_write k b start l e r st idx bs :
  buffer_ok k b start (l ++ e :: r) ->
  e_pos e mod 2 ^ k <= idx -> idx + N.of_nat (length bs) <= e_pos e mod 2 ^ k + e_len e ->
  state_ok (2 ^ k) (e_pos e) (e_len e) st ->
  splice (idx - e_pos e mod 2 ^ k) bs (entry_bytes e) = entry_bytes (set_state st e) ->
  buffer_ok k (set_mem (splice idx bs (mem b)) b) start (l ++ set_state st e :: r).
Proof.
  intros [Hk Hsz Hh Hst Hca Hch Hr Ht He Hm Hf] H1 H2 Hs Hb. unfold bd_size in Hsz.
  assert (entry_ok (2 ^ k) e) as Hoke by (rewrite Forall_forall in He; apply He; set_solver).
  pose proof (eo_fits _ _ Hoke) as Hfit.
  assert (idx + N.of_nat (length bs) <= N.of_nat (length (mem b))) as Hin by lia.
  split; simpl; try done.
  - unfold bd_size. simpl. by rewrite length_splice.
  - by apply chain_set_state.
  - apply Forall_app in He as [He1 He2]. inversion He2; subst. apply Forall_app. split; [done|].
    constructor; [|done]. by destruct Hoke; split.
  - intros e'. rewrite elem_of_app, elem_of_cons. intros Hin'.
    assert (e' = set_state st e \/ e' ∈ (l ++ r)%list) as [->|Hother] by (rewrite elem_of_app; tauto).
    + cbn [e_pos e_len set_state]. rewrite slice_splice_in by lia. rewrite Hm by set_solver. done.
    + assert (e' ∈ (l ++ e :: r)%list) as Hine by set_solver.
      rewrite slice_splice_out; [by apply Hm|lia|].
      destruct (other_apart k start l e r e' (tail b) Hch ltac:(lia) He Hother); lia.
  - intros p Hp. rewrite lookup_splice by done. case_bool_decide as Hc; [|by apply Hf].
    exfalso. destruct (chain_elem _ _ _ e Hch ltac:(set_solver)) as [C1 C2].
    assert (0 < 2 ^ k) as Hpos by (pose proof (N.pow_nonzero 2 k ltac:(done)); lia).
    destruct (idx_disjoint (2 ^ k) (e_pos e) (e_len e) p 1 Hpos) as [Hd|Hd]; try lia.
Qed.

Lemma mult8_le a b : a mod 8 = 0 -> b mod 8 = 0 -> a < b -> a + 8 <= b.
Proof.
  intros Ha Hb Hlt. pose proof (N.Div0.div_mod a 8) as Ea. pose proof (N.Div0.div_mod b 8) as Eb.
  rewrite Ha in Ea. rewrite Hb in Eb. set (x := a / 8) in *. set (y := b / 8) in *. lia.
Qed.

Lemma pow2_pos k : 0 < 2 ^ k.
Proof. pose proof (N.pow_nonzero 2 k ltac:(done)). lia. Qed.

(** The free part of the buffer reads as zeros. *)
Lemma free_slice k b start es p n :
  buffer_ok k b start es -> tail b <= p -> p + n <= start + 2 ^ k -> p mod 2 ^ k + n <= 2 ^ k ->
  slice (p mod 2 ^ k) n (mem b) = zeros n.
Proof.
  intros [Hk Hsz Hh Hst Hca Hch Hr Ht He Hm Hf] H1 H2 H3. unfold bd_size in Hsz. pose proof (pow2_pos k).
  apply list_eq. intros j. rewrite lookup_slice. case_bool_decide as Hj.
  - unfold zeros. rewrite lookup_replicate_2 by done.
    rewrite <- (Hf (p + N.of_nat j)) by lia. rewrite mod_next by lia. f_equal. lia.
  - symmetry. apply lookup_ge_None. rewrite length_zeros. lia.
Qed.

(** A reservation. *)
Lemma buffer_append k b start es len owner st :
  buffer_ok k b start es -> 8 <= len -> len mod 8 = 0 -> state_ok (2 ^ k) (tail b) len st ->
  (st = PadNew \/ exists m size, st = Claimed m size) ->
  tail b mod 2 ^ k + len <= 2 ^ k -> tail b + len <= head b + 2 ^ k -> tail b + len < 2 ^ 63 ->
  buffer_ok k (set_tail (tail b + len) b) start (es ++ [mkEntry (tail b) len owner st]).
Proof.
  intros Hok Hl1 Hl2 Hst Hnew Hf Hr Ht. pose proof Hok as [Hk Hsz Hh Hs Hca Hch Hr' Ht' He Hm Hfr].
  set (e := mkEntry _ _ _ _).
  assert (tail b mod 8 = 0) as Ht8.
  { rewrite (chain_span _ _ _ Hch), N.Div0.add_mod, Hs, (span_mod8 _ _ He). done. }
  split; simpl; try done.
  - rewrite chain_app. pose proof (chain_span _ _ _ Hch) as Hsp. rewrite <- Hsp. by split.
  - apply Forall_app. split; [done|]. constructor; [|done]. by split.
  - intros e' [Hin|Hin%list_elem_of_singleton]%elem_of_app; [by apply Hm|]. subst e'. cbn [e_pos e_len e].
    rewrite (free_slice k b start es) by (done || lia). by destruct Hnew as [->|(m & size & ->)].
  - intros p Hp. apply Hfr. lia.
Qed.

(** The reader clears what it has read. *)
Lemma buffer_clear k b read unread :
  buffer_ok k b (head b) (read ++ unread) -> head b mod 2 ^ k + span read <= 2 ^ k ->
  buffer_ok k (set_mem (splice (head b mod 2 ^ k) (zeros (span read)) (mem b)) b) (head b + span read) unread.
Proof.
  intros [Hk Hsz Hh Hs Hca Hch Hr Ht He Hm Hf] Hfit. unfold bd_size in Hsz. pose proof (pow2_pos k) as Hpos.
  rewrite chain_app in Hch. destruct Hch as [Hc1 Hc2]. apply Forall_app in He as [He1 He2].
  pose proof (span_mod8 _ _ He1) as H8. set (adv := span read) in *.
  assert (N.of_nat (length (zeros adv)) = adv) as Hlz by (rewrite length_zeros; lia).
  assert (head b mod 2 ^ k + N.of_nat (length (zeros adv)) <= N.of_nat (length (mem b))) as Hin by lia.
  pose proof (chain_span _ _ _ Hc2) as Htl.
  split; simpl; try done.
  - unfold bd_size. simpl. by rewrite length_splice.
  - lia.
  - rewrite N.Div0.add_mod, H8, Hs. done.
  - intros e Hin'. assert (entry_ok (2 ^ k) e) as [_ _ _ Hfe _] by (rewrite Forall_forall in He2; auto).
    destruct (chain_elem _ _ _ e Hc2 Hin') as [E1 E2]. rewrite slice_splice_out; [apply Hm; set_solver|done|].
    destruct (idx_disjoint (2 ^ k) (head b) adv (e_pos e) (e_len e)); lia.
  - intros p Hp. rewrite lookup_splice by done. case_bool_decide as Hc.
    + unfold zeros. apply lookup_replicate_2. rewrite length_zeros in Hc. lia.
    + destruct (N.lt_ge_cases p (head b + 2 ^ k)) as [Hlt|Hge]; [apply Hf; lia|]. exfalso. apply Hc.
      assert (p mod 2 ^ k = head b mod 2 ^ k + (p - 2 ^ k - head b)) as ->; [|lia].
      assert (p = (head b + (p - 2 ^ k - head b)) + 1 * 2 ^ k) as Hpe by lia.
      rewrite Hpe at 1. rewrite N.Div0.mod_add. apply mod_next; lia.
Qed.

(** What the reader finds behind what it has read. *)
Lemma read_next k b read unread :
  buffer_ok k b (head b) (read ++ unread) -> head b mod 2 ^ k + span read < 2 ^ k ->
  let idx := head b mod 2 ^ k + span read in
  idx + 8 <= 2 ^ k /\
  match unread with
  | [] => slice idx 8 (mem b) = zeros 8
  | e :: _ => e_pos e = head b + span read /\ e_pos e mod 2 ^ k = idx /\
              slice idx (e_len e) (mem b) = entry_bytes e /\ entry_ok (2 ^ k) e
  end.
Proof.
  intros Hok Hlt idx. pose proof Hok as [Hk Hsz Hh Hs Hca Hch Hr Ht He Hm Hf]. pose proof (pow2_pos k) as Hpos.
  assert (idx mod 8 = 0) as Hidx.
  { subst idx. apply Forall_app in He as [He _]. rewrite N.Div0.add_mod, (span_mod8 _ _ He), mod_pow_mod8 by tauto.
    done. }
  destruct (size_mod8 k) as [Hs8 Hs8']; [tauto|].
  assert (idx + 8 <= 2 ^ k) as H8.
  { by apply mult8_le. }
  split; [done|]. destruct unread as [|e unread].
  - rewrite app_nil_r in Hok, Hch. apply chain_span in Hch.
    assert (idx = tail b mod 2 ^ k) as Hix by (rewrite Hch; symmetry; by apply mod_next).
    assert (span read + 8 <= 2 ^ k) by (clear - H8; unfold idx in H8; set (h := head b mod 2 ^ k) in *; lia). rewrite Hix in H8 |- *.
    eapply free_slice; [exact Hok|lia..].
  - rewrite chain_app in Hch. destruct Hch as [_ [Hp _]]. assert (e_pos e mod 2 ^ k = idx) as Hix.
    { rewrite Hp. by apply mod_next. }
    split_and!; [done|done| |].
    + rewrite <- Hix. apply Hm. set_solver.
    + rewrite Forall_forall in He. apply He. set_solver.
Qed.

(** ** Headers of entries *)

Lemma le_combine_zeros n : le_combine (replicate n Byte.x00) = 0.
Proof. induction n as [|n IH]; [done|]. cbn [replicate le_combine]. by rewrite IH. Qed.

Lemma combine_with_header header data len :
  header < 2 ^ 64 -> le_combine (slice 0 8 (with_header header data len)) = header.
Proof.
  intros Hh. unfold with_header. change 8 with (N.of_nat 8) at 1.
  rewrite <- (length_le_split 8 header) at 1. rewrite slice_app_exact, le_combine_split. by apply N.mod_small.
Qed.

Definition header_of (e : Entry) : N :=
  match e_state e with
  | PadNew | Claimed _ _ => 0
  | PadDone => make_header msg_pad (e_len e - 8) false
  | Opened m size _ => make_header m size true
  | Closed m data => make_header m (N.of_nat (length data)) false
  end.

Lemma entry_header sz e : entry_ok sz e -> le_combine (slice 0 8 (entry_bytes e)) = header_of e.
Proof.
  intros [_ _ Hmin _ Hst]. unfold entry_bytes, header_of. destruct (e_state e); simpl in Hst.
  - unfold slice, zeros. rewrite drop_0, take_replicate. apply le_combine_zeros.
  - apply combine_with_header, make_header_lt; [done|lia].
  - unfold slice, zeros. rewrite drop_0, take_replicate. apply le_combine_zeros.
  - destruct Hst as [Hm _]. apply message_ok_len in Hm. apply combine_with_header, make_header_lt; lia.
  - apply message_ok_len in Hst. apply combine_with_header, make_header_lt; lia.
Qed.

(** What the reader does at an entry. *)
Lemma inspect_entry sz e limit hd msg_index advance count : entry_ok sz e ->
  inspect limit hd msg_index advance count (header_of e) =
  match e_state e with
  | PadNew | Claimed _ _ | Opened _ _ _ => leave_loop hd advance
  | PadDone => Scanning limit hd (advance + e_len e) count
  | Closed m data =>
      Calling limit hd msg_index (advance + e_len e) (count + 1) m (N.of_nat (length data))
  end.
Proof.
  intros [_ _ Hmin _ Hst]. unfold header_of, inspect. destruct (e_state e) as [| |m size|m size data|m data]; simpl in Hst.
  - done.
  - rewrite header_length_make_header, message_make_header, (pending_flag _ false) by (done || lia).
    rewrite N.eqb_refl. cbn [negb]. change (msg_pad =? msg_none) with false. rewrite N.eqb_refl. f_equal.
    change header_size with 8. lia.
  - done.
  - destruct Hst as [Hm _]. apply message_ok_len in Hm as (M1 & M2 & M3).
    by rewrite header_length_make_header, (pending_flag _ true) by done.
  - pose proof Hst as Hlen. apply message_ok_len in Hlen as (M1 & M2 & M3). destruct Hst as (Q1 & Q2 & _ & ->).
    rewrite header_length_make_header, message_make_header, (pending_flag _ false) by done. rewrite N.eqb_refl. cbn [negb].
    unfold msg_min, msg_max, msg_none, msg_pad in *.
    destruct (N.eqb_spec m 0); [lia|]. destruct (N.eqb_spec m (2 ^ 32 - 1)); [lia|]. by rewrite N.add_0_r.
Qed.

(** The data of a message. *)
Lemma closed_data e m data : e_state e = Closed m data ->
  slice 8 (N.of_nat (length data)) (entry_bytes e) = data.
Proof.
  intros Hst. unfold entry_bytes, with_header. rewrite Hst.
  rewrite slice_app_r by (by rewrite length_le_split). rewrite length_le_split. apply slice_app_exact.
Qed.

(** Writing the header of an entry. *)
Lemma splice_header h h' data len : splice 0 (le_split 8 h') (with_header h data len) = with_header h' data len.
Proof.
  unfold with_header. change 0 with (N.of_nat (length (@nil byte))).
  apply (splice_app [] (le_split 8 h) (le_split 8 h')). by rewrite !length_le_split.
Qed.

Lemma zeros_with_header len : 8 <= len -> zeros len = with_header 0 [] len.
Proof.
  intros Hl. unfold with_header, zeros. change (le_split 8 0) with (replicate 8 Byte.x00). cbn [app length].
  rewrite <- replicate_add. f_equal. lia.
Qed.

(** Writing the next part of the data. *)
Lemma splice_data h data s len : 8 + N.of_nat (length data) + N.of_nat (length s) <= len ->
  splice (8 + N.of_nat (length data)) s (with_header h data len) = with_header h (data ++ s) len.
Proof.
  intros Hl. unfold with_header.
  replace (8 + N.of_nat (length data)) with (N.of_nat (length (le_split 8 h ++ data)))
    by (rewrite length_app, length_le_split; lia).
  replace (zeros (len - 8 - N.of_nat (length data)))
    with (zeros (N.of_nat (length s)) ++ zeros (len - 8 - N.of_nat (length (data ++ s))))%list.
  - rewrite !app_assoc, <- (app_assoc (le_split 8 h ++ data)). rewrite splice_app by (rewrite length_zeros; lia).
    by rewrite <- !app_assoc.
  - unfold zeros. rewrite <- replicate_add. f_equal. rewrite length_app. lia.
Qed.
End RingBufferInv.
