(* ===== verification/RingBufferSafe.v ===== *)
(** * Ring buffer: writers and the reader

    The invariant of a buffer with any number of writers and a reader, and that
    messages arrive whole, once, and in the order of each writer. *)

From S2P Require Import Prelude LedgerEntries RingBuffer RingBufferInv.
From Stdlib Require Import Init.Byte Strings.Byte.

Open Scope N_scope.

Module RingBufferSafe.
Import RingBuffer RingBufferInv.

(** ** What a writer knows *)

(** The checks of [prepare] have passed. *)
Definition valid (sz : N) (c : Call) : Prop :=
  msg_min <= call_message c <= msg_max /\ total_size c <= max_size /\ call_entry_size c <= sz / 2.

(** The region fits between the tail and the head, and not over the end of the
    buffer. *)
Definition exchange_ok (sz hd size : N) (l : Locals) : Prop :=
  l_tl_index l = l_tl l mod sz /\
  ((l_padding l = 0 /\ l_tl_index l + size <= sz /\ l_tl l + size <= hd + sz) \/
   (l_padding l = sz - l_tl_index l /\ l_padding l < size /\ l_tl l + l_padding l + size <= hd + sz)).

Definition seen_tail (b : Buffer) (l : Locals) : Prop := l_tl l <= tail b /\ l_tl l mod 8 = 0.
Definition seen_head (b : Buffer) (l : Locals) : Prop := l_hd l <= head b /\ l_hd l mod 8 = 0.
Definition has_room (sz : N) (c : Call) (l : Locals) : Prop :=
  l_hd l <= l_tl l /\ l_tl l + call_entry_size c <= l_hd l + sz.
Definition at_end (sz : N) (c : Call) (l : Locals) : Prop :=
  l_tl_index l = l_tl l mod sz /\ sz - l_tl_index l < call_entry_size c.

(** What the local variables of a writer say of the buffer now. If the tail has
    moved since it was loaded, the exchange will fail. *)
Definition local_ok (sz : N) (b : Buffer) (w : Writer) : Prop :=
  match w with
  | Preparing _ | Returned _ => True
  | LoadTail c hd => valid sz c /\ hd <= head b /\ hd mod 8 = 0
  | LoadHead c l => valid sz c /\ seen_tail b l
  | StoreCache c l => valid sz c /\ seen_head b l /\ seen_tail b l /\ has_room sz c l
  | LoadHeadAgain c l => valid sz c /\ seen_head b l /\ seen_tail b l /\ has_room sz c l /\ at_end sz c l
  | StoreCacheAgain c l => valid sz c /\ seen_head b l /\ seen_tail b l /\ at_end sz c l /\
      (l_tl l = tail b -> l_tl l + (sz - l_tl_index l) + call_entry_size c <= head b + sz)
  | Exchange c l => valid sz c /\ seen_head b l /\ seen_tail b l /\
      (l_tl l = tail b -> exchange_ok sz (head b) (call_entry_size c) l)
  | LoadCache c | WritePad c _ | WriteHeader c _ | Writing c _ _ _ | LoadHeader c _ | StoreHeader c _ _ => valid sz c
  end.

(** Head and tail only grow, and the tail moves past what others have seen. *)
Lemma local_ok_mono sz b b' w :
  head b <= head b' -> tail b <= tail b' -> local_ok sz b w -> local_ok sz b' w.
Proof.
  intros Hh Ht. destruct w; simpl; unfold seen_head, seen_tail, exchange_ok; intuition lia.
Qed.

(** *** The decisions of [reserve] *)

Lemma valid_size sz c : valid sz c -> 8 <= call_entry_size c /\ call_entry_size c mod 8 = 0 /\ call_entry_size c <= 2 ^ 31.
Proof.
  intros (_ & Hs & _). unfold call_entry_size. unfold max_size, header_size in Hs.
  destruct (entry_size_spec (total_size c)) as [[H1 H2] H3]; [lia|]. split_and!; [lia|done|].
  pose proof (N.Div0.div_mod (entry_size (total_size c)) 8) as Hd. rewrite H3 in Hd.
  set (x := entry_size (total_size c) / 8) in *. change (2 ^ 31) with (8 * 2 ^ 28) in *. lia.
Qed.

(** Padding is needed only when the head is in the same lap as the tail. *)
Lemma same_lap sz hd tl size :
  0 < sz -> hd <= tl -> tl + size <= hd + sz -> sz - tl mod sz < size ->
  hd mod sz <= tl mod sz /\ tl - tl mod sz = hd - hd mod sz.
Proof.
  intros Hsz H1 H2 H3. pose proof (N.mod_lt tl sz ltac:(lia)) as Ht. pose proof (N.Div0.div_mod tl sz) as Et.
  set (q := tl / sz) in *. set (t := tl mod sz) in *.
  assert (sz * q < hd) as Hq by lia.
  assert (hd mod sz = hd - sz * q) as ->; [|lia].
  symmetry. apply (N.mod_unique hd sz q); lia.
Qed.

Lemma place_ok sz b c l k :
  sz = 2 ^ k -> valid sz c -> seen_head b l -> seen_tail b l -> has_room sz c l -> local_ok sz b (place sz c l).
Proof.
  intros -> Hv Hh Ht [R1 R2]. unfold place. rewrite !land_mask.
  pose proof (pow2_pos k) as Hpos. pose proof (N.mod_lt (l_tl l) (2 ^ k) ltac:(lia)) as Hlt.
  destruct (N.ltb_spec (2 ^ k - l_tl l mod 2 ^ k) (call_entry_size c)) as [Hb|Hb].
  - destruct (same_lap (2 ^ k) (l_hd l) (l_tl l) (call_entry_size c)) as [S1 S2]; try done.
    destruct (N.ltb_spec (l_hd l mod 2 ^ k) (call_entry_size c)) as [Hi|Hi]; simpl.
    + by split_and!.
    + split_and!; try done. intros _. split; [done|right]. cbn [l_padding l_tl_index l_tl].
      split_and!; [done|done|]. destruct Hh as [Hh _].
      pose proof (N.Div0.mod_le (l_tl l) (2 ^ k)). pose proof (N.Div0.mod_le (l_hd l) (2 ^ k)).
      set (t := l_tl l mod 2 ^ k) in *. set (h := l_hd l mod 2 ^ k) in *. lia.
  - simpl. split_and!; try done. intros _. split; [done|left]. cbn [l_padding l_tl_index l_tl].
    destruct Hh as [Hh _]. set (t := l_tl l mod 2 ^ k) in *. split_and!; [done|lia|lia].
Qed.

Lemma loop_body_ok sz b c l k :
  sz = 2 ^ k -> valid sz c -> seen_head b l -> seen_tail b l -> l_hd l <= l_tl l -> local_ok sz b (loop_body sz c l).
Proof.
  intros Hsz Hv Hh Ht Hle. unfold loop_body. rewrite (u64_sub_exact (l_tl l)) by done.
  destruct (N.ltb_spec sz (l_tl l - l_hd l)) as [Hg|Hg]; cbn [orb]; [by split|].
  rewrite u64_sub_exact by done. destruct (N.ltb_spec (sz - (l_tl l - l_hd l)) (call_entry_size c)); [by split|].
  eapply place_ok; try done. split; lia.
Qed.

Lemma greater_spec hd tl : hd < 2 ^ 63 -> tl < 2 ^ 63 -> hd mod 8 = 0 ->
  greater_with_wraparound hd tl = (tl <? hd).
Proof.
  intros Hh Ht H8. unfold greater_with_wraparound. change ((2 ^ 64 - 1) / 2) with (2 ^ 63 - 1).
  assert (hd + 8 <= 2 ^ 63) by (apply mult8_le; done).
  destruct (N.eqb_spec hd tl) as [->|Hne]; cbn [negb andb]; [symmetry; apply N.ltb_irrefl|].
  unfold u64_sub. destruct (N.leb_spec tl hd).
  - destruct (N.ltb_spec (hd - tl) (2 ^ 63 - 1)), (N.ltb_spec tl hd); lia.
  - destruct (N.ltb_spec (2 ^ 64 - (tl - hd)) (2 ^ 63 - 1)), (N.ltb_spec tl hd); lia || done.
Qed.

(** ** The entries of a writer *)

Definition mine (i : N) (es : list Entry) : list Entry := filter (fun e => e_owner e = i) es.
Definition open_of (i : N) (es : list Entry) : list Entry :=
  filter (fun e => e_owner e = i /\ unclosed (e_state e) = true) es.
Definition closed_of (i : N) (es : list Entry) : list Entry :=
  filter (fun e => e_owner e = i /\ unclosed (e_state e) = false) es.

(** What a writer has yet to write comes after what it has written. *)
Definition ordered (i : N) (es : list Entry) : Prop := mine i es = (closed_of i es ++ open_of i es)%list.

(** The messages that are complete, with their writer. *)
Definition entry_msg (e : Entry) : option (N * (N * bytes)) :=
  match e_state e with Closed m data => Some (e_owner e, (m, data)) | _ => None end.
Definition closed_msgs (es : list Entry) : list (N * (N * bytes)) := omap entry_msg es.
Definition of_writer (i : N) (l : list (N * (N * bytes))) : list (N * (N * bytes)) := filter (fun x => x.1 = i) l.

Lemma of_writer_app i l l' : of_writer i (l ++ l') = (of_writer i l ++ of_writer i l')%list.
Proof. apply filter_app. Qed.

Lemma closed_msgs_app es es' : closed_msgs (es ++ es') = (closed_msgs es ++ closed_msgs es')%list.
Proof. unfold closed_msgs. apply omap_app. Qed.

Lemma entry_msg_owner e x : entry_msg e = Some x -> x.1 = e_owner e.
Proof. unfold entry_msg. destruct (e_state e); try done. by intros [= <-]. Qed.

Lemma of_writer_closed i es : of_writer i (closed_msgs es) = closed_msgs (mine i es).
Proof.
  induction es as [|e es IH]; [done|]. unfold mine. rewrite filter_cons. cbn [closed_msgs omap list_omap].
  destruct (entry_msg e) as [x|] eqn:Hx.
  - apply entry_msg_owner in Hx as Ho. unfold of_writer. rewrite filter_cons.
    destruct (decide (x.1 = i)), (decide (e_owner e = i)); try congruence; [|exact IH].
    cbn [closed_msgs omap list_omap]. rewrite Hx. f_equal. exact IH.
  - destruct (decide (e_owner e = i)); [|exact IH]. cbn [closed_msgs omap list_omap]. rewrite Hx. exact IH.
Qed.

Lemma filter_split_cons {A} (P : A -> Prop) `{!forall x, Decision (P x)} l x xs :
  filter P l = x :: xs ->
  exists a b, l = (a ++ x :: b)%list /\ filter P a = [] /\ filter P b = xs /\ P x.
Proof.
  induction l as [|y l IH]; [done|]. rewrite filter_cons. destruct (decide (P y)) as [Hy|Hy].
  - intros [= -> <-]. by exists [], l.
  - intros (a & b & -> & Ha & Hb & Hx)%IH. exists (y :: a), b. split_and!; try done.
    by rewrite filter_cons, decide_False.
Qed.

Lemma mine_closed i es : open_of i es = [] -> mine i es = closed_of i es.
Proof.
  induction es as [|e es IH]; [done|]. unfold open_of, mine, closed_of. rewrite !filter_cons.
  destruct (decide (e_owner e = i)), (unclosed (e_state e)) eqn:Hu;
    repeat first [rewrite decide_True by (by split)|rewrite decide_False by (by intros [??])]; try done.
  - intros Ho. f_equal. by apply IH.
Qed.

Lemma open_of_app i es es' : open_of i (es ++ es') = (open_of i es ++ open_of i es')%list.
Proof. apply filter_app. Qed.
Lemma closed_of_app i es es' : closed_of i (es ++ es') = (closed_of i es ++ closed_of i es')%list.
Proof. apply filter_app. Qed.
Lemma mine_app i es es' : mine i (es ++ es') = (mine i es ++ mine i es')%list.
Proof. apply filter_app. Qed.

Lemma entry_cases i e es :
  (e_owner e = i /\ mine i (e :: es) = e :: mine i es /\
   ((unclosed (e_state e) = true /\ open_of i (e :: es) = e :: open_of i es /\ closed_of i (e :: es) = closed_of i es) \/
    (unclosed (e_state e) = false /\ open_of i (e :: es) = open_of i es /\ closed_of i (e :: es) = e :: closed_of i es))) \/
  (e_owner e <> i /\ mine i (e :: es) = mine i es /\ open_of i (e :: es) = open_of i es /\ closed_of i (e :: es) = closed_of i es).
Proof.
  unfold open_of, mine, closed_of. rewrite !filter_cons.
  destruct (decide (e_owner e = i)) as [Ho|Ho], (unclosed (e_state e)) eqn:Hu;
    repeat first [rewrite decide_True by (by split)|rewrite decide_False by (by intros [??])]; tauto.
Qed.

(** The first entry a writer has yet to write, and how the entries change when
    the writer writes to it. *)
Lemma open_split i es e xs :
  ordered i es -> open_of i es = e :: xs ->
  exists l r, es = (l ++ e :: r)%list /\ e_owner e = i /\ unclosed (e_state e) = true /\
    open_of i l = [] /\ mine i r = xs /\ closed_of i r = [] /\ open_of i r = xs.
Proof.
  intros Hord Hopen. apply filter_split_cons in Hopen as (l & r & -> & Hl & Hr & [Ho Hu]). fold (open_of i l) in Hl.
  exists l, r. unfold ordered in Hord. rewrite mine_app, closed_of_app, open_of_app in Hord.
  destruct (entry_cases i e r) as [(_ & -> & [(_ & Eo & Ec)|(? & _)])|(? & _)] in Hord; [|congruence|done].
  rewrite Eo, Ec, Hl, (mine_closed i l Hl) in Hord. rewrite <- app_assoc in Hord. apply app_inv_head in Hord.
  destruct (closed_of i r) as [|x cl] eqn:Hc.
  - simpl in Hord. injection Hord as Hm. split_and!; try done. by rewrite Hm.
  - exfalso. simpl in Hord. injection Hord as <- _.
    assert (e ∈ closed_of i r) as Hin by (rewrite Hc; by left).
    unfold closed_of in Hin. apply list_elem_of_filter in Hin as [[_ Hf] _]. congruence.
Qed.

Lemma open_update i l e r xs st :
  e_owner e = i -> unclosed (e_state e) = true -> open_of i l = [] -> mine i r = xs -> closed_of i r = [] -> open_of i r = xs ->
  let es := (l ++ e :: r)%list in let es' := (l ++ set_state st e :: r)%list in
  open_of i es' = (if unclosed st then set_state st e :: xs else xs) /\ ordered i es' /\
  of_writer i (closed_msgs es') = (of_writer i (closed_msgs es) ++ option_list (entry_msg (set_state st e)))%list /\
  (forall j, j <> i -> open_of j es' = open_of j es /\ (ordered j es -> ordered j es') /\
     of_writer j (closed_msgs es') = of_writer j (closed_msgs es)).
Proof.
  intros Ho Hu Hl Hm Hc Hr es es'.
  assert (entry_msg e = None) as Hmsg by (unfold entry_msg; by destruct (e_state e)).
  assert (closed_msgs xs = []) as Hxs.
  { rewrite <- Hr. unfold open_of. clear. induction r as [|y r IH]; [done|]. rewrite filter_cons.
    case_decide as Hd; [|done]. cbn [closed_msgs omap list_omap]. destruct Hd as [_ Hd].
    assert (entry_msg y = None) as ->; [|exact IH]. unfold entry_msg. by destruct (e_state y). }
  assert (e_owner (set_state st e) = i) as Ho' by done.
  assert (unclosed (e_state (set_state st e)) = unclosed st) as Hst by done.
  split_and!.
  - unfold es'. rewrite open_of_app, Hl.
    destruct (entry_cases i (set_state st e) r) as [(_ & _ & [(Hx & -> & _)|(Hx & -> & _)])|(? & _)]; [..|done];
      rewrite Hst in Hx; rewrite Hx, Hr; done.
  - unfold es', ordered. rewrite mine_app, closed_of_app, open_of_app, Hl, (mine_closed i l Hl).
    destruct (entry_cases i (set_state st e) r) as [(_ & -> & [(_ & -> & ->)|(_ & -> & ->)])|(? & _)]; [..|done];
      rewrite Hm, Hc, Hr; [by rewrite app_nil_r|by rewrite <- app_assoc].
  - unfold es, es'. rewrite !of_writer_closed, !mine_app, !closed_msgs_app.
    destruct (entry_cases i (set_state st e) r) as [(_ & -> & _)|(? & _)]; [|done].
    destruct (entry_cases i e r) as [(_ & -> & _)|(? & _)]; [|done].
    rewrite Hm. cbn [closed_msgs omap list_omap]. rewrite Hmsg. fold (closed_msgs xs). rewrite Hxs, app_nil_r.
    by destruct (entry_msg (set_state st e)).
  - intros j Hj. unfold es, es', ordered. rewrite !of_writer_closed, !mine_app, !open_of_app, !closed_of_app.
    destruct (entry_cases j (set_state st e) r) as [(? & _)|(_ & -> & -> & ->)]; [congruence|].
    destruct (entry_cases j e r) as [(? & _)|(_ & -> & -> & ->)]; [congruence|]. done.
Qed.

(** ** The system *)

Lemma total_size_length c : total_size c = N.of_nat (length (payload c)).
Proof.
  unfold total_size, payload. induction (call_sections c) as [|x l IH]; [done|]. cbn [foldr concat].
  rewrite length_app, IH. lia.
Qed.

(** The entries a writer has yet to write, by where it is. *)
Definition owns (sz : N) (w : Writer) (es : list Entry) : Prop :=
  match w with
  | WritePad c l => exists pad cl, es = [pad; cl] /\
      e_state pad = PadNew /\ e_len pad = l_padding l /\ e_pos pad mod sz = l_tl_index l /\
      e_state cl = Claimed (call_message c) (total_size c) /\ e_pos cl mod sz = 0
  | WriteHeader c index => exists e, es = [e] /\
      e_state e = Claimed (call_message c) (total_size c) /\ e_pos e mod sz = index
  | Writing c initial next sections => exists e data, es = [e] /\
      e_state e = Opened (call_message c) (total_size c) data /\
      initial = e_pos e mod sz + 8 /\ next = initial + N.of_nat (length data) /\
      (data ++ concat sections)%list = payload c
  | LoadHeader c initial => exists e, es = [e] /\
      e_state e = Opened (call_message c) (total_size c) (payload c) /\ initial = e_pos e mod sz + 8
  | StoreHeader c initial header => exists e, es = [e] /\
      e_state e = Opened (call_message c) (total_size c) (payload c) /\ initial = e_pos e mod sz + 8 /\
      header = make_header (call_message c) (total_size c) true
  | _ => es = []
  end.

(** Where the reader is: it has read [read], and [unread] comes next. *)
Definition reader_ok (sz hd : N) (r : Reader) (read unread : list Entry) : Prop :=
  match r with
  | ReadIdle | ReadStart _ => read = []
  | Scanning _ h advance _ => h = hd /\ advance = span read /\ hd mod sz + advance <= sz
  | Calling _ h msg_index advance _ m size => h = hd /\ msg_index = hd mod sz + span read /\
      exists e data rest, unread = e :: rest /\ e_state e = Closed m data /\ size = N.of_nat (length data) /\
        advance = span read + e_len e /\ hd mod sz + advance <= sz
  | Clearing h advance => h = hd /\ advance = span read /\ hd mod sz + advance <= sz
  | StoringHead h advance => h = hd /\ read = []
  | ReadFailed _ => False
  end.

Definition start_of (b : Buffer) (r : Reader) : N :=
  match r with StoringHead hd advance => hd + advance | _ => head b end.

Record sys_inv (k : N) (s : System) (read unread : list Entry) (out : list (N * (N * bytes))) : Prop := mkSysInv {
  sv_buffer : buffer_ok k (buf s) (start_of (buf s) (reader s)) (read ++ unread);
  sv_read : Forall (fun e => unclosed (e_state e) = false) read;
  sv_reader : reader_ok (2 ^ k) (head (buf s)) (reader s) read unread;
  sv_local : forall i, local_ok (2 ^ k) (buf s) (writer_of s i);
  sv_owns : forall i, owns (2 ^ k) (writer_of s i) (open_of i unread);
  sv_ordered : forall i, ordered i unread;
  sv_out : out.*2 = delivered s;
  sv_history : forall i, of_writer i (out ++ closed_msgs unread) = of_writer i (written s);
}.

Lemma writer_of_insert b ws i w r wr d j :
  writer_of (mkSystem b (<[i := w]> ws) r wr d) j = if decide (i = j) then w else default (Returned (Ok false)) (ws !! j).
Proof.
  unfold writer_of. simpl. case_decide as Hd; [subst; by rewrite lookup_insert_eq|by rewrite lookup_insert_ne].
Qed.

Lemma of_writer_own i (extra : list (N * (N * bytes))) :
  (forall x, x ∈ extra -> x.1 = i) -> of_writer i extra = extra.
Proof.
  intros Hex. unfold of_writer. induction extra as [|x l IH]; [done|]. rewrite filter_cons, decide_True.
  - f_equal. apply IH. intros y Hy. apply Hex. by right.
  - apply Hex. by left.
Qed.

Lemma of_writer_others i j (extra : list (N * (N * bytes))) :
  j <> i -> (forall x, x ∈ extra -> x.1 = i) -> of_writer j extra = [].
Proof.
  intros Hj Hex. unfold of_writer. induction extra as [|x l IH]; [done|]. rewrite filter_cons, decide_False.
  - apply IH. intros y Hy. apply Hex. by right.
  - rewrite (Hex x) by by left. congruence.
Qed.
(** A step of a writer. *)
Lemma inv_writer k s read unread out i w' b' unread' extra :
  sys_inv k s read unread out ->
  buffer_ok k b' (start_of (buf s) (reader s)) (read ++ unread') ->
  head b' = head (buf s) -> tail (buf s) <= tail b' ->
  local_ok (2 ^ k) b' w' -> owns (2 ^ k) w' (open_of i unread') -> ordered i unread' ->
  (forall j, j <> i -> open_of j unread' = open_of j unread /\ (ordered j unread -> ordered j unread') /\
     of_writer j (closed_msgs unread') = of_writer j (closed_msgs unread)) ->
  of_writer i (closed_msgs unread') = (of_writer i (closed_msgs unread) ++ extra)%list ->
  (forall e u, unread = e :: u -> unclosed (e_state e) = false -> exists u', unread' = e :: u') ->
  (forall x, x ∈ extra -> x.1 = i) ->
  sys_inv k (mkSystem b' (<[i := w']> (writers s)) (reader s) (written s ++ extra) (delivered s)) read unread' out.
Proof.
  intros [I1 I2 I3 I4 I5 I6 I7 I8] Hb Hh Ht Hl Ho Hord Hother Hi Hfirst Hex.
  split; cbn [buf reader written delivered]; try done.
  - unfold start_of in *. by rewrite Hh.
  - rewrite Hh. destruct (reader s); simpl in *; try done.
    destruct I3 as (-> & -> & e & data & rest & -> & He & Hs & Ha & Hf). split_and!; try done.
    destruct (Hfirst e rest eq_refl) as [u' ->]; [by rewrite He|]. by exists e, data, u'.
  - intros j. rewrite writer_of_insert. case_decide; [done|]. eapply local_ok_mono; [| |apply I4]; lia.
  - intros j. rewrite writer_of_insert. case_decide as Hd; [by subst|].
    destruct (Hother j ltac:(congruence)) as (-> & _ & _). apply I5.
  - intros j. destruct (decide (j = i)) as [->|Hj]; [done|]. by apply (Hother j Hj).
  - intros j. rewrite !of_writer_app, <- I8, of_writer_app. destruct (decide (j = i)) as [->|Hj].
    + by rewrite Hi, app_assoc, (of_writer_own i extra).
    + destruct (Hother j Hj) as (_ & _ & ->). by rewrite (of_writer_others i j extra), app_nil_r.
Qed.

Lemma buffer_cache k b start es hd :
  buffer_ok k b start es -> hd <= head b -> hd mod 8 = 0 -> buffer_ok k (set_head_cache hd b) start es.
Proof. intros [] H1 H2. by split. Qed.

(** A step that writes nothing to the buffer. *)
Lemma inv_local k s read unread out i w' b' :
  sys_inv k s read unread out ->
  buffer_ok k b' (start_of (buf s) (reader s)) (read ++ unread) ->
  head b' = head (buf s) -> tail b' = tail (buf s) ->
  local_ok (2 ^ k) b' w' -> owns (2 ^ k) w' (open_of i unread) ->
  sys_inv k (mkSystem b' (<[i := w']> (writers s)) (reader s) (written s ++ []) (delivered s)) read unread out.
Proof.
  intros Hi Hb Hh Ht Hl Ho. eapply inv_writer; try done.
  - by rewrite Ht.
  - apply (sv_ordered _ _ _ _ _ Hi).
  - by rewrite app_nil_r.
  - intros e u Hu _. by exists u.
  - by intros x ?%not_elem_of_nil.
Qed.

(** A step that writes to the writer's entry. *)
Lemma inv_update k s read unread out i w' e xs st idx bs :
  sys_inv k s read unread out -> open_of i unread = e :: xs ->
  e_pos e mod 2 ^ k <= idx -> idx + N.of_nat (length bs) <= e_pos e mod 2 ^ k + e_len e ->
  state_ok (2 ^ k) (e_pos e) (e_len e) st ->
  splice (idx - e_pos e mod 2 ^ k) bs (entry_bytes e) = entry_bytes (set_state st e) ->
  local_ok (2 ^ k) (set_mem (splice idx bs (mem (buf s))) (buf s)) w' ->
  owns (2 ^ k) w' (if unclosed st then set_state st e :: xs else xs) ->
  exists unread',
    sys_inv k (mkSystem (set_mem (splice idx bs (mem (buf s))) (buf s)) (<[i := w']> (writers s)) (reader s)
                 (written s ++ option_list (entry_msg (set_state st e))) (delivered s)) read unread' out.
Proof.
  intros Hi Hopen H1 H2 Hst Hb Hl Ho.
  destruct (open_split i unread e xs (sv_ordered _ _ _ _ _ Hi i) Hopen) as (l & r & -> & Hown & Hu & Q1 & Q2 & Q3 & Q4).
  destruct (open_update i l e r xs st Hown Hu Q1 Q2 Q3 Q4) as (U1 & U2 & U3 & U4).
  exists (l ++ set_state st e :: r)%list. eapply inv_writer; try done.
  - pose proof (sv_buffer _ _ _ _ _ Hi) as Hbuf. rewrite app_assoc in Hbuf |- *. by apply buffer_write.
  - by rewrite U1.
  - intros e0 u Heq Hc. destruct l as [|y l]; simpl in *; injection Heq as -> Heq; [congruence|by eexists].
  - intros x Hx. destruct (entry_msg (set_state st e)) as [y|] eqn:Hm; simpl in Hx; [|by apply not_elem_of_nil in Hx].
    apply list_elem_of_singleton in Hx as ->. by rewrite (entry_msg_owner _ _ Hm).
Qed.

Lemma open_of_new i es es' :
  open_of i es = [] -> ordered i es -> Forall (fun e => e_owner e = i /\ unclosed (e_state e) = true) es' ->
  open_of i (es ++ es') = es' /\ ordered i (es ++ es') /\
  (forall j, of_writer j (closed_msgs (es ++ es')) = of_writer j (closed_msgs es)) /\
  (forall j, j <> i -> open_of j (es ++ es') = open_of j es /\ (ordered j es -> ordered j (es ++ es'))).
Proof.
  intros Ho Hord Hnew.
  assert (open_of i es' = es' /\ mine i es' = es' /\ closed_of i es' = [] /\ closed_msgs es' = [] /\
    forall j, j <> i -> mine j es' = [] /\ open_of j es' = [] /\ closed_of j es' = []) as (N1 & N2 & N3 & N4 & N5).
  { induction Hnew as [|e es' [He Hu] _ (IH1 & IH2 & IH3 & IH4 & IH5)]; [by split_and!|].
    destruct (entry_cases i e es') as [(_ & -> & [(_ & -> & ->)|(? & _)])|(? & _)]; [|congruence|done].
    rewrite IH1, IH2, IH3. split_and!; try done.
    - cbn [closed_msgs omap list_omap]. fold (closed_msgs es'). rewrite IH4. unfold entry_msg. by destruct (e_state e).
    - intros j Hj. destruct (entry_cases j e es') as [(? & _)|(_ & -> & -> & ->)]; [congruence|auto]. }
  split_and!.
  - by rewrite open_of_app, Ho, N1.
  - unfold ordered. by rewrite mine_app, closed_of_app, open_of_app, Ho, N1, N2, N3, (mine_closed i es Ho), app_nil_r.
  - intros j. by rewrite closed_msgs_app, N4, app_nil_r.
  - intros j Hj. destruct (N5 j Hj) as (M1 & M2 & M3). unfold ordered.
    rewrite mine_app, closed_of_app, !open_of_app, M1, M2, M3, !app_nil_r. done.
Qed.

(** Entries of the writer are added at the tail. *)
Lemma inv_append k s read unread out i w' b' new :
  sys_inv k s read unread out -> open_of i unread = [] ->
  Forall (fun e => e_owner e = i /\ unclosed (e_state e) = true) new ->
  buffer_ok k b' (start_of (buf s) (reader s)) ((read ++ unread) ++ new) ->
  head b' = head (buf s) -> tail (buf s) <= tail b' -> local_ok (2 ^ k) b' w' -> owns (2 ^ k) w' new ->
  sys_inv k (mkSystem b' (<[i := w']> (writers s)) (reader s) (written s ++ []) (delivered s)) read (unread ++ new) out.
Proof.
  intros Hi Hopen Hnew Hb Hh Ht Hl Ho.
  destruct (open_of_new i unread new Hopen (sv_ordered _ _ _ _ _ Hi i) Hnew) as (U1 & U2 & U3 & U4).
  eapply inv_writer; try done.
  - by rewrite app_assoc.
  - by rewrite U1.
  - intros j Hj. destruct (U4 j Hj). by split_and!.
  - by rewrite U3, app_nil_r.
  - intros e0 u -> _. by eexists.
  - by intros x ?%not_elem_of_nil.
Qed.

(** Padding runs to the end of the buffer. *)
Lemma padding_ok k b start es padding :
  buffer_ok k b start es -> padding = 2 ^ k - tail b mod 2 ^ k ->
  8 <= padding /\ padding mod 8 = 0 /\ tail b mod 2 ^ k + padding = 2 ^ k /\ (tail b + padding) mod 2 ^ k = 0.
Proof.
  intros Hbuf ->. pose proof Hbuf as [Hk _ _ Hs _ Hch _ _ He _ _]. destruct (size_mod8 k ltac:(lia)) as [S1 S2].
  pose proof (N.mod_lt (tail b) (2 ^ k) ltac:(lia)) as Hm. pose proof (N.Div0.div_mod (tail b) (2 ^ k)) as Hd.
  assert (tail b mod 8 = 0) as T8.
  { rewrite (chain_span _ _ _ Hch), N.Div0.add_mod, Hs, (span_mod8 _ _ He). done. }
  assert ((tail b mod 2 ^ k) mod 8 = 0) as T8' by (apply mod_pow_mod8; [lia|done]).
  set (t := tail b mod 2 ^ k) in *. assert (t + 8 <= 2 ^ k) by (by apply mult8_le). split_and!; [lia| |lia|].
  - pose proof (N.Div0.div_mod t 8) as E1. pose proof (N.Div0.div_mod (2 ^ k) 8) as E2.
    rewrite T8' in E1. rewrite S1 in E2. set (x := t / 8) in *. set (y := 2 ^ k / 8) in *.
    replace (2 ^ k - t) with ((y - x) * 8) by lia. apply N.Div0.mod_mul.
  - replace (tail b + (2 ^ k - t)) with ((tail b / 2 ^ k + 1) * 2 ^ k) by lia. apply N.Div0.mod_mul.
Qed.

(** The exchange succeeds. *)
Lemma inv_exchange k s read unread out i c l :
  sys_inv k s read unread out -> open_of i unread = [] -> valid (2 ^ k) c -> l_tl l = tail (buf s) ->
  exchange_ok (2 ^ k) (head (buf s)) (call_entry_size c) l ->
  (l_tl l + call_entry_size c + l_padding l) mod 2 ^ 64 < 2 ^ 63 ->
  exists unread',
    sys_inv k (mkSystem (set_tail ((l_tl l + call_entry_size c + l_padding l) mod 2 ^ 64) (buf s))
                 (<[i := if l_padding l =? 0 then WriteHeader c (l_tl_index l) else WritePad c l]> (writers s))
                 (reader s) (written s ++ []) (delivered s)) read unread' out.
Proof.
  intros Hi Hopen Hv Htl [Hix Hcase] Hlt. destruct (valid_size _ _ Hv) as (V1 & V2 & V3).
  pose proof (sv_buffer _ _ _ _ _ Hi) as Hbuf. pose proof Hbuf as [Hk _ Hh _ _ _ Hroom Ht _ _ _].
  assert (2 ^ k <= 2 ^ 62) as Hk62 by (apply N.pow_le_mono_r; lia).
  assert (l_tl l + call_entry_size c + l_padding l < 2 ^ 64) as H64
    by (change (2 ^ 64) with (2 * 2 ^ 63); change (2 ^ 63) with (2 * 2 ^ 62) in *; destruct Hcase; lia).
  rewrite N.mod_small in * by done. rewrite Htl in *. set (size := call_entry_size c) in *.
  set (st := Claimed (call_message c) (total_size c)).
  assert (forall p, state_ok (2 ^ k) p size st) as Hst
    by (intros; destruct Hv as ([??] & ? & ?); by split_and!).
  destruct Hcase as [(-> & C2 & C3)|(C1 & C2 & C3)].
  - rewrite N.add_0_r in *. cbn [N.eqb]. exists (unread ++ [mkEntry (tail (buf s)) size i st])%list.
    eapply inv_append; try done; [by constructor| |simpl; lia|eexists; by split_and!].
    apply buffer_append; try done; [right; by do 2 eexists|lia|lia].
  - rewrite Hix in C1. destruct (padding_ok _ _ _ _ _ Hbuf C1) as (P1 & P2 & P3 & P4).
    assert (size <= 2 ^ k) as Hhalf.
    { pose proof (proj2 (proj2 Hv)) as Hh2. fold size in Hh2. pose proof (N.Div0.mul_div_le (2 ^ k) 2).
      set (h := 2 ^ k / 2) in *. lia. }
    destruct (N.eqb_spec (l_padding l) 0); [lia|]. set (pad := mkEntry (tail (buf s)) (l_padding l) i PadNew).
    set (e := mkEntry (tail (buf s) + l_padding l) size i st). exists (unread ++ [pad; e])%list.
    eapply inv_append; try done; [by repeat constructor| |simpl; lia|exists pad, e; by split_and!].
    replace (tail (buf s) + size + l_padding l) with (tail (buf s) + l_padding l + size) by lia.
    change [pad; e] with ([pad] ++ [e])%list. rewrite (app_assoc (read ++ unread)).
    apply (buffer_append k (set_tail (tail (buf s) + l_padding l) (buf s))); try done; cbn [tail set_tail head].
    + apply buffer_append; try done; [simpl; split_and!; lia|by left|lia|lia|lia].
    + right. by do 2 eexists.
    + rewrite P4. lia.
    + lia.
Qed.

(** ** Steps of a writer *)

Lemma check_access_ok b i n : i + n <= bd_size b -> check_access i n b = (Ok tt, b).
Proof. intros Hi. unfold check_access, bind, gets. by destruct (N.ltb_spec (bd_size b) (i + n)); [lia|]. Qed.

Lemma write64_ok b i v : i + 8 <= bd_size b ->
  write64 i v b = (Ok tt, set_mem (splice i (le_split 8 v) (mem b)) b).
Proof. intros Hi. unfold write64, bind. by rewrite check_access_ok. Qed.

Lemma read64_ok b i : i + 8 <= bd_size b -> read64 i b = (Ok (le_combine (slice i 8 (mem b))), b).
Proof. intros Hi. unfold read64, bind. by rewrite check_access_ok. Qed.

Lemma place_owns sz sz' c l : owns sz (place sz' c l) [].
Proof. unfold place. by repeat case_match. Qed.

Lemma loop_body_owns sz sz' c l : owns sz (loop_body sz' c l) [].
Proof. unfold loop_body. case_match; [done|apply place_owns]. Qed.

(** The steps before the exchange, and those that touch nothing. *)
Lemma step_reserve k s read unread out i spurious w' b' :
  sys_inv k s read unread out ->
  match writer_of s i with
  | Preparing _ | LoadCache _ | LoadTail _ _ | LoadHead _ _ | StoreCache _ _ | LoadHeadAgain _ _
  | StoreCacheAgain _ _ | Returned _ => True
  | _ => False
  end ->
  match writer_step spurious (writer_of s i) (buf s) with
  | (Ok w, b) => w' = w /\ b' = b
  | (Throw e, b) => w' = Returned (Throw e) /\ b' = b
  end ->
  sys_inv k (mkSystem b' (<[i := w']> (writers s)) (reader s) (written s ++ []) (delivered s)) read unread out.
Proof.
  intros Hi Hw Hstep. pose proof (sv_local _ _ _ _ _ Hi i) as Hl. pose proof (sv_owns _ _ _ _ _ Hi i) as Ho.
  pose proof (sv_buffer _ _ _ _ _ Hi) as Hbuf. pose proof Hbuf as [Hk Hsz Hh Hs Hca Hch Hroom Htl He _ _].
  assert (tail (buf s) mod 8 = 0) as Ht8.
  { rewrite (chain_span _ _ _ Hch), N.Div0.add_mod, Hs, (span_mod8 _ _ He). done. }
  assert (head (buf s) <= tail (buf s)) as Hht by (pose proof (chain_span _ _ _ Hch); lia).
  assert (open_of i unread = []) as Hop by (by destruct (writer_of s i)).
  assert (forall c, valid (2 ^ k) c -> local_ok (2 ^ k) (buf s) (no_space c) /\ owns (2 ^ k) (no_space c) []) as Hns
    by (intros c Hv; unfold no_space; by destruct (call_wait c)).
  unfold writer_step, bind, gets in Hstep. rewrite Hsz in Hstep. destruct (writer_of s i); try done; simpl in Hl.
  - cbv beta iota in Hstep. destruct ((_ <? _) || _) eqn:H1; [|destruct (N.ltb_spec max_size (total_size c)) as [|H2];
      [|destruct (N.ltb_spec (max_reservation_size (2 ^ k)) (call_entry_size c)) as [|H3]]];
      simpl in Hstep; destruct Hstep as [-> ->]; apply inv_local; try done; simpl.
    apply orb_false_iff in H1 as [H1 H1']. apply N.ltb_ge in H1, H1'. by split_and!.
  - destruct Hstep as [-> ->]. by apply inv_local.
  - destruct Hstep as [-> ->]. destruct Hl as (Hv & Hle & H8).
    apply inv_local; try done; [apply (loop_body_ok _ _ _ _ k); try done; simpl; lia|].
    rewrite Hop. apply loop_body_owns.
  - destruct Hl as (Hv & Hlt & H8). rewrite greater_spec in Hstep by (lia || tauto).
    destruct (N.ltb_spec (l_tl l) (head (buf s))) as [Hgt|Hle].
    + destruct Hstep as [-> ->]. apply inv_local; try done. simpl. split_and!; try done; [by split; [|tauto]|].
      simpl. lia.
    + rewrite !u64_sub_exact in Hstep by (rewrite ?u64_sub_exact; lia).
      destruct (N.ltb_spec (2 ^ k - (l_tl l - head (buf s))) (call_entry_size c)) as [Hn|Hn]; destruct Hstep as [-> ->].
      * destruct (Hns c Hv). apply inv_local; try done. by rewrite Hop.
      * apply inv_local; try done. simpl. split_and!; try done; [by split; [|tauto]|]. split; simpl; lia.
  - destruct Hl as (Hv & H1 & H2 & H3). destruct Hstep as [-> ->]. apply inv_local; try done.
    + apply buffer_cache; [done|apply H1..].
    + eapply place_ok; try done.
    + rewrite Hop. apply place_owns.
  - destruct Hl as (Hv & [H1 H1'] & [H2 H2'] & [H3 H3'] & [H4 H4']). rewrite land_mask in Hstep.
    destruct (N.ltb_spec (head (buf s) mod 2 ^ k) (call_entry_size c)) as [Hn|Hn]; destruct Hstep as [-> ->].
    + destruct (Hns c Hv). apply inv_local; try done. by rewrite Hop.
    + apply inv_local; try done. simpl. split_and!; try done; [by split; [|tauto]|]. cbn [l_tl l_tl_index]. intros Heq.
      destruct (same_lap (2 ^ k) (head (buf s)) (l_tl l) (call_entry_size c)) as [S1 S2]; try lia.
      pose proof (N.Div0.mod_le (l_tl l) (2 ^ k)). pose proof (N.Div0.mod_le (head (buf s)) (2 ^ k)).
      rewrite H4. pose proof (N.mod_lt (l_tl l) (2 ^ k) ltac:(lia)).
      set (t := l_tl l mod 2 ^ k) in *. set (h := head (buf s) mod 2 ^ k) in *. lia.
  - destruct Hl as (Hv & H1 & H2 & [H3 H4] & H5). destruct Hstep as [-> ->]. apply inv_local; try done.
    + apply buffer_cache; [done|apply H1..].
    + simpl. split_and!; try done. intros Heq. specialize (H5 Heq). split; [done|right]. by split_and!.
  - destruct Hstep as [-> ->]. by apply inv_local.
Qed.

(** [finish] unsets the pending bit. *)
Lemma finished_header m size : m < 2 ^ 32 -> size < 2 ^ 31 ->
  make_header (message (make_header m size true)) (header_length (make_header m size true)) false = make_header m size false.
Proof.
  intros Hm Hs. rewrite message_make_header, header_length_make_header by done. unfold make_header.
  replace length_mask with (2 ^ 31 - 1) by done. rewrite !land_mask.
  rewrite <- (N.mul_1_l (2 ^ 31)) at 1. by rewrite N.Div0.mod_add.
Qed.

Lemma step_exchange k s read unread out i spurious c l w' b' :
  sys_inv k s read unread out -> writer_of s i = Exchange c l ->
  writer_step spurious (Exchange c l) (buf s) = (Ok w', b') -> tail b' < 2 ^ 63 ->
  exists unread',
    sys_inv k (mkSystem b' (<[i := w']> (writers s)) (reader s) (written s ++ []) (delivered s)) read unread' out.
Proof.
  intros Hi Hw Hstep Hlt. pose proof (sv_local _ _ _ _ _ Hi i) as Hl. pose proof (sv_owns _ _ _ _ _ Hi i) as Hop.
  rewrite Hw in Hl, Hop. simpl in Hop. destruct Hl as (Hv & Hh & Ht & Hx).
  pose proof (sv_buffer _ _ _ _ _ Hi) as Hbuf. pose proof Hbuf as [Hk Hsz Hhd Hs _ Hch _ _ He _ _].
  unfold writer_step, bind, gets in Hstep. rewrite Hsz in Hstep.
  destruct (N.eqb_spec (tail (buf s)) (l_tl l)) as [Heq|Hne]; cbn [andb] in Hstep.
  - destruct spurious; cbn [negb] in Hstep; injection Hstep as <- <-.
    + exists unread. apply inv_local; try done; [|rewrite Hop; apply loop_body_owns].
      rewrite Heq. apply (loop_body_ok _ _ _ _ k); try done.
      simpl. destruct Hh. pose proof (chain_span _ _ _ Hch). lia.
    + eapply inv_exchange; try done. by apply Hx.
  - injection Hstep as <- <-. exists unread. apply inv_local; try done; [|rewrite Hop; apply loop_body_owns].
    pose proof (chain_span _ _ _ Hch) as Hsp. apply (loop_body_ok _ _ _ _ k); try done.
    + split; [done|]. simpl. rewrite Hsp, N.Div0.add_mod, Hs, (span_mod8 _ _ He). done.
    + simpl. destruct Hh. lia.
Qed.

(** ** Steps that write to the writer's entry *)

(** The step of writer [i] from [w] succeeds and keeps the invariant. *)
Definition fills (k : N) (s : System) (read : list Entry) (out : list (N * (N * bytes))) (i : N) (spurious : bool)
    (w : Writer) : Prop :=
  exists w' b' unread', writer_step spurious w (buf s) = (Ok w', b') /\
    sys_inv k (mkSystem b' (<[i := w']> (writers s)) (reader s) (written s ++ completes i w (Ok w')) (delivered s))
      read unread' out.

Lemma own_entry k s read unread out i e xs :
  sys_inv k s read unread out -> open_of i unread = e :: xs ->
  entry_ok (2 ^ k) e /\ e_owner e = i /\ slice (e_pos e mod 2 ^ k) (e_len e) (mem (buf s)) = entry_bytes e.
Proof.
  intros Hi Hopen. pose proof (sv_buffer _ _ _ _ _ Hi) as Hbuf.
  assert (e ∈ open_of i unread) as Hin by (rewrite Hopen; by left).
  apply list_elem_of_filter in Hin as [[Hown _] Hin]. split_and!; [|done|apply (bo_mem _ _ _ _ Hbuf); set_solver].
  pose proof (bo_entries _ _ _ _ Hbuf) as He. rewrite Forall_forall in He. apply He. set_solver.
Qed.

Section fill.
Context (k : N) (s : System) (read unread : list Entry) (out : list (N * (N * bytes))) (i : N) (spurious : bool).
Context (Hi : sys_inv k s read unread out).

Lemma buffer_size : bd_size (buf s) = 2 ^ k.
Proof. exact (bo_size _ _ _ _ (sv_buffer _ _ _ _ _ Hi)). Qed.

Lemma fill_pad c l : writer_of s i = WritePad c l -> fills k s read out i spurious (WritePad c l).
Proof.
  intros Hw. pose proof (sv_local _ _ _ _ _ Hi i) as Hl. pose proof (sv_owns _ _ _ _ _ Hi i) as Ho.
  rewrite Hw in Hl, Ho. destruct Ho as (pad & cl & Hopen & Hp & Hlen & Hix & Hcl & Hz).
  destruct (own_entry _ _ _ _ _ _ _ _ Hi Hopen) as ([_ E8 Emin Efit Est] & Eown & Emem).
  unfold fills, writer_step, bind, gets. rewrite write64_ok by (rewrite buffer_size; lia). do 2 eexists.
  edestruct (inv_update k s read unread out i (WriteHeader c 0) pad [cl] PadDone (l_tl_index l)
    (le_split 8 (make_header msg_pad (l_padding l - header_size) false)) Hi Hopen) as [unread' Hinv]; try done.
  - lia.
  - rewrite length_le_split. lia.
  - by rewrite Hp in Est.
  - rewrite Hix, N.sub_diag. unfold entry_bytes. rewrite Hp. cbn [set_state e_state e_len].
    rewrite zeros_with_header, splice_header, Hlen by done. done.
  - by exists cl.
  - exists unread'. split; [done|]. exact Hinv.
Qed.

Lemma fill_header c index : writer_of s i = WriteHeader c index -> fills k s read out i spurious (WriteHeader c index).
Proof.
  intros Hw. pose proof (sv_local _ _ _ _ _ Hi i) as Hl. pose proof (sv_owns _ _ _ _ _ Hi i) as Ho.
  rewrite Hw in Hl, Ho. destruct Ho as (e & Hopen & Hst & <-).
  destruct (own_entry _ _ _ _ _ _ _ _ Hi Hopen) as ([_ E8 Emin Efit Est] & Eown & Emem). rewrite Hst in Est.
  unfold fills, writer_step, bind, gets. rewrite write64_ok by (rewrite buffer_size; lia). do 2 eexists.
  edestruct (inv_update k s read unread out i
    (Writing c (e_pos e mod 2 ^ k + header_size) (e_pos e mod 2 ^ k + header_size) (call_sections c)) e []
    (Opened (call_message c) (total_size c) []) (e_pos e mod 2 ^ k)
    (le_split 8 (make_header (call_message c) (total_size c) true)) Hi Hopen) as [unread' Hinv]; try done.
  - rewrite length_le_split. lia.
  - split; [done|]. simpl. lia.
  - rewrite N.sub_diag. unfold entry_bytes. rewrite Hst. cbn [set_state e_state e_len].
    by rewrite zeros_with_header, splice_header.
  - eexists _, []. split_and!; try done. simpl. lia.
  - exists unread'. split; [done|]. exact Hinv.
Qed.

Lemma fill_data c initial next sections :
  writer_of s i = Writing c initial next sections -> fills k s read out i spurious (Writing c initial next sections).
Proof.
  intros Hw. pose proof (sv_local _ _ _ _ _ Hi i) as Hl. pose proof (sv_owns _ _ _ _ _ Hi i) as Ho.
  rewrite Hw in Hl, Ho. destruct Ho as (e & data & Hopen & Hst & -> & -> & Hpay). destruct sections as [|x sections].
  { do 2 eexists. exists unread. split; [done|]. cbn [completes].
    apply inv_local; try done; [apply (sv_buffer _ _ _ _ _ Hi)|]. rewrite Hopen.
    cbn [concat] in Hpay. rewrite app_nil_r in Hpay. subst data. by exists e. }
  destruct (own_entry _ _ _ _ _ _ _ _ Hi Hopen) as ([_ E8 Emin Efit Est] & Eown & Emem).
  rewrite Hst in Est. destruct Est as [Em Ed]. pose proof (message_ok_len _ _ _ Em) as (M1 & M2 & M3).
  cbn [concat] in Hpay. assert (N.of_nat (length data) + N.of_nat (length x) <= total_size c) as Hlen
    by (rewrite total_size_length, <- Hpay, !length_app; lia).
  unfold fills, writer_step, bind, gets. rewrite check_access_ok by (rewrite buffer_size; lia). do 2 eexists.
  edestruct (inv_update k s read unread out i
    (Writing c (e_pos e mod 2 ^ k + 8) (e_pos e mod 2 ^ k + 8 + N.of_nat (length data) + N.of_nat (length x)) sections)
    e [] (Opened (call_message c) (total_size c) (data ++ x)) (e_pos e mod 2 ^ k + 8 + N.of_nat (length data)) x
    Hi Hopen) as [unread' Hinv]; try done.
  - lia.
  - lia.
  - split; [done|]. rewrite length_app. lia.
  - unfold entry_bytes. rewrite Hst. cbn [set_state e_state e_len].
    replace (e_pos e mod 2 ^ k + 8 + N.of_nat (length data) - e_pos e mod 2 ^ k) with (8 + N.of_nat (length data)) by lia.
    apply splice_data. lia.
  - eexists _, _. split_and!; try done; [rewrite length_app; lia|by rewrite <- app_assoc].
  - exists unread'. split; [done|]. exact Hinv.
Qed.

Lemma fill_load c initial : writer_of s i = LoadHeader c initial -> fills k s read out i spurious (LoadHeader c initial).
Proof.
  intros Hw. pose proof (sv_local _ _ _ _ _ Hi i) as Hl. pose proof (sv_owns _ _ _ _ _ Hi i) as Ho.
  rewrite Hw in Hl, Ho. destruct Ho as (e & Hopen & Hst & ->).
  destruct (own_entry _ _ _ _ _ _ _ _ Hi Hopen) as (Eok & Eown & Emem).
  pose proof (eo_fits _ _ Eok). pose proof (eo_min _ _ Eok). unfold fills, writer_step, bind, gets.
  change header_size with 8. rewrite N.add_sub. rewrite read64_ok by (rewrite buffer_size; lia).
  do 2 eexists. exists unread. split; [done|]. cbn [completes].
  apply inv_local; try done; [apply (sv_buffer _ _ _ _ _ Hi)|]. rewrite Hopen. exists e.
  split_and!; try done. pose proof (entry_header _ _ Eok) as Hhead. unfold header_of in Hhead. rewrite Hst in Hhead.
  rewrite <- Hhead, <- Emem. by rewrite slice_slice, N.add_0_r.
Qed.

Lemma fill_close c initial header :
  writer_of s i = StoreHeader c initial header -> fills k s read out i spurious (StoreHeader c initial header).
Proof.
  intros Hw. pose proof (sv_local _ _ _ _ _ Hi i) as Hl. pose proof (sv_owns _ _ _ _ _ Hi i) as Ho.
  rewrite Hw in Hl, Ho. destruct Ho as (e & Hopen & Hst & -> & ->).
  destruct (own_entry _ _ _ _ _ _ _ _ Hi Hopen) as ([_ E8 Emin Efit Est] & Eown & Emem).
  rewrite Hst in Est. destruct Est as [Em Ed]. pose proof (message_ok_len _ _ _ Em) as (M1 & M2 & M3).
  unfold fills, writer_step, bind, gets. change header_size with 8. rewrite N.add_sub.
  rewrite write64_ok, finished_header by (rewrite ?buffer_size; lia). do 2 eexists.
  edestruct (inv_update k s read unread out i (Returned (Ok true)) e [] (Closed (call_message c) (payload c))
    (e_pos e mod 2 ^ k) (le_split 8 (make_header (call_message c) (total_size c) false)) Hi Hopen)
    as [unread' Hinv]; try done.
  - rewrite length_le_split. lia.
  - simpl. by rewrite <- total_size_length.
  - rewrite N.sub_diag. unfold entry_bytes. rewrite Hst. cbn [set_state e_state e_len].
    by rewrite splice_header, total_size_length.
  - exists unread'. split; [done|]. unfold entry_msg in Hinv. cbn [set_state e_state e_owner option_list] in Hinv.
    rewrite Eown in Hinv. exact Hinv.
Qed.
End fill.

(** Every step of a writer keeps the invariant. *)
Lemma step_writer k s s' read unread out i spurious :
  sys_inv k s read unread out -> sys_step (StepWriter i spurious) s = Some s' -> tail (buf s') < 2 ^ 63 ->
  exists unread', sys_inv k s' read unread' out.
Proof.
  intros Hi Hstep Hlt. cbn [sys_step] in Hstep.
  assert (fills k s read out i spurious (writer_of s i) -> exists unread', sys_inv k s' read unread' out) as Hfill.
  { intros (w' & b' & unread' & Heq & Hinv). rewrite Heq in Hstep. injection Hstep as <-. by exists unread'. }
  destruct (writer_of s i) as [| | | | | | |c l|c l|c index|c initial next sections|c initial|c initial header|] eqn:Hw.
  13:{ by eapply Hfill, fill_close. }
  12:{ by eapply Hfill, fill_load. }
  11:{ by eapply Hfill, fill_data. }
  10:{ by eapply Hfill, fill_header. }
  9:{ by eapply Hfill, fill_pad. }
  8:{ assert (exists w' b', writer_step spurious (Exchange c l) (buf s) = (Ok w', b')) as (w' & b' & Heq).
      { unfold writer_step, bind, gets, modify, ret. destruct (_ && _); by do 2 eexists. }
      rewrite Heq in Hstep. injection Hstep as <-. by eapply step_exchange. }
  all: destruct (writer_step spurious _ (buf s)) as [[w'|e] b'] eqn:Heq in Hstep; injection Hstep as <-;
    exists unread; eapply (step_reserve k s read unread out i spurious); by rewrite ?Hw, ?Heq.
Qed.

(** ** Steps of the reader *)

Lemma closed_entry_next i e u : ordered i (e :: u) -> unclosed (e_state e) = false ->
  ordered i u /\ open_of i (e :: u) = open_of i u.
Proof.
  intros Hord Hc. unfold ordered in *.
  destruct (entry_cases i e u) as [(_ & Em & [(? & _)|(_ & Eo & Ec)])|(_ & Em & Eo & Ec)]; [congruence|..];
    rewrite Em, Eo, Ec in Hord; split; try done. simpl in Hord. by injection Hord.
Qed.

(** The reader moves on, perhaps past an entry, and delivers its message. *)
Lemma inv_reader k s read unread out r' passed unread' :
  sys_inv k s read unread out -> unread = (passed ++ unread')%list -> (length passed <= 1)%nat ->
  Forall (fun e => unclosed (e_state e) = false) passed ->
  start_of (buf s) r' = start_of (buf s) (reader s) ->
  reader_ok (2 ^ k) (head (buf s)) r' (read ++ passed) unread' ->
  sys_inv k (mkSystem (buf s) (writers s) r' (written s) (delivered s ++ (closed_msgs passed).*2)) (read ++ passed) unread'
    (out ++ closed_msgs passed).
Proof.
  intros [I1 I2 I3 I4 I5 I6 I7 I8] -> Hlen Hp Hst Hr. split; cbn [buf reader written delivered]; try done.
  - rewrite Hst. by rewrite <- app_assoc.
  - by apply Forall_app.
  - intros i. specialize (I5 i). destruct passed as [|e [|? ?]]; [done| |simpl in Hlen; lia].
    inversion Hp; subst. by rewrite <- (proj2 (closed_entry_next i e unread' (I6 i) ltac:(done))).
  - intros i. specialize (I6 i). destruct passed as [|e [|? ?]]; [done| |simpl in Hlen; lia].
    inversion Hp; subst. by apply (closed_entry_next i e).
  - by rewrite fmap_app, I7.
  - intros i. rewrite <- I8. by rewrite closed_msgs_app, app_assoc.
Qed.

Lemma leave_ok k b start read unread rest hd :
  buffer_ok k b start (read ++ rest) -> hd mod 2 ^ k + span read <= 2 ^ k ->
  reader_ok (2 ^ k) hd (leave_loop hd (span read)) read unread.
Proof.
  intros Hb Hf. unfold leave_loop. destruct (N.ltb_spec 0 (span read)); [done|]. simpl.
  destruct read as [|e read]; [done|]. pose proof (bo_entries _ _ _ _ Hb) as He. inversion He as [|?? Hok]; subst.
  pose proof (eo_min _ _ Hok). simpl in *. lia.
Qed.

Lemma start_leave b hd advance : start_of b (leave_loop hd advance) = head b.
Proof. unfold leave_loop. by destruct (0 <? advance). Qed.

(** Looking at the next header. *)
Lemma step_scan k s s' read unread out limit hd advance count :
  sys_inv k s read unread out -> reader s = Scanning limit hd advance count -> sys_step StepReader s = Some s' ->
  exists read' unread' out', sys_inv k s' read' unread' out'.
Proof.
  intros Hi Hr Hstep. pose proof (sv_reader _ _ _ _ _ Hi) as Hro. pose proof (sv_buffer _ _ _ _ _ Hi) as Hbuf.
  rewrite Hr in Hro, Hbuf. cbn [start_of] in Hbuf. destruct Hro as (-> & -> & Hfit).
  pose proof (bo_size _ _ _ _ Hbuf) as Hsz. cbn [sys_step] in Hstep. rewrite Hr in Hstep.
  unfold reader_step, bind at 1, gets at 1 in Hstep. rewrite Hsz, land_mask in Hstep.
  assert (forall d, d = delivered s -> sys_inv k (mkSystem (buf s) (writers s) (leave_loop (head (buf s)) (span read))
    (written s) d) read unread out) as Hleave.
  { intros d ->. pose proof (inv_reader k s read unread out (leave_loop (head (buf s)) (span read)) [] unread Hi) as Hinv.
    rewrite !app_nil_r in Hinv. apply Hinv; try done; [simpl; lia|by rewrite start_leave, Hr|].
    by eapply leave_ok. }
  destruct ((span read <? 2 ^ k - head (buf s) mod 2 ^ k) && (count <? limit)) eqn:Hcond.
  2:{ injection Hstep as <-. exists read, unread, out. apply Hleave. by rewrite app_nil_r. }
  apply andb_prop in Hcond as [Hlt _]. apply N.ltb_lt in Hlt.
  destruct (read_next k (buf s) read unread Hbuf) as [H8 Hnext]; [lia|].
  set (idx := head (buf s) mod 2 ^ k + span read) in *.
  unfold bind at 1 in Hstep. rewrite read64_ok in Hstep by (rewrite Hsz; done).
  destruct unread as [|e unread].
  { rewrite Hnext in Hstep. change (le_combine (zeros 8)) with 0 in Hstep. injection Hstep as <-.
    exists read, [], out. apply Hleave. by rewrite app_nil_r. }
  destruct Hnext as (Hpos & Hix & Hmem & Hok). pose proof (entry_header _ _ Hok) as Hhead.
  rewrite <- Hmem, slice_slice, N.add_0_r in Hhead by apply (eo_min _ _ Hok).
  rewrite Hhead in Hstep. unfold ret in Hstep. rewrite (inspect_entry _ _ _ _ _ _ _ Hok), app_nil_r in Hstep. injection Hstep as <-.
  pose proof (eo_fits _ _ Hok) as Hef. rewrite Hix in Hef.
  destruct (e_state e) as [| |m size|m size data|m data] eqn:Hes; try (exists read, (e :: unread), out; by apply Hleave).
  - exists (read ++ [e])%list, unread, out. assert (closed_msgs [e] = []) as Hcm by (unfold closed_msgs, entry_msg; simpl; by rewrite Hes).
    pose proof (inv_reader k s read (e :: unread) out (Scanning limit (head (buf s)) (span read + e_len e) count)
      [e] unread Hi) as Hinv. rewrite Hcm, !app_nil_r in Hinv.
    apply Hinv; try done; [by rewrite Forall_singleton, Hes|by rewrite Hr|].
    simpl. rewrite span_app. simpl. split_and!; [done|lia|lia].
  - exists read, (e :: unread), out. pose proof (inv_reader k s read (e :: unread) out
      (Calling limit (head (buf s)) idx (span read + e_len e) (count + 1) m (N.of_nat (length data))) [] (e :: unread) Hi) as Hinv.
    rewrite !app_nil_r in Hinv. apply Hinv; try done; [simpl; lia|by rewrite Hr|].
    simpl. split_and!; try done. exists e, data, unread. split_and!; try done. lia.
Qed.

(** The handler is called with the message at the head of [unread]. *)
Lemma step_call k s s' read unread out limit hd msg_index advance count m size :
  sys_inv k s read unread out -> reader s = Calling limit hd msg_index advance count m size ->
  sys_step StepReader s = Some s' -> exists read' unread' out', sys_inv k s' read' unread' out'.
Proof.
  intros Hi Hr Hstep. pose proof (sv_reader _ _ _ _ _ Hi) as Hro. pose proof (sv_buffer _ _ _ _ _ Hi) as Hbuf.
  rewrite Hr in Hro, Hbuf. cbn [start_of] in Hbuf.
  destruct Hro as (-> & -> & e & data & rest & -> & Hes & -> & -> & Hfit). pose proof (bo_size _ _ _ _ Hbuf) as Hsz.
  pose proof (bo_entries _ _ _ _ Hbuf) as Hall. apply Forall_app in Hall as [_ Hall]. inversion Hall as [|?? Hok _]; subst.
  pose proof (eo_min _ _ Hok) as Hmin. pose proof (eo_state _ _ Hok) as Hst. rewrite Hes in Hst. simpl in Hst.
  apply message_ok_len in Hst as (M1 & M2 & M3).
  destruct (read_next k (buf s) read (e :: rest) Hbuf) as [_ (Hpos & Hix & Hmem & _)]; [lia|].
  cbn [sys_step] in Hstep. rewrite Hr in Hstep. unfold reader_step, bind at 1, gets at 1 in Hstep.
  rewrite Hsz, land_mask in Hstep. unfold bind at 1 in Hstep. rewrite check_access_ok in Hstep by (rewrite Hsz; done).
  injection Hstep as <-. change header_size with 8.
  rewrite <- (slice_slice _ (e_len e)) by lia. rewrite Hmem, (closed_data e m data Hes).
  exists (read ++ [e])%list, rest, (out ++ closed_msgs [e])%list.
  assert (closed_msgs [e] = [(e_owner e, (m, data))]) as Hcm by (unfold closed_msgs, entry_msg; simpl; by rewrite Hes).
  pose proof (inv_reader k s read (e :: rest) out (Scanning limit (head (buf s)) (span read + e_len e) count) [e] rest Hi)
    as Hinv. rewrite Hcm in Hinv |- *.
  apply Hinv; try done; [by rewrite Forall_singleton, Hes|by rewrite Hr|].
  simpl. rewrite span_app. simpl. split_and!; [done|lia|lia].
Qed.

Lemma step_reader k s s' read unread out :
  sys_inv k s read unread out -> sys_step StepReader s = Some s' ->
  exists read' unread' out', sys_inv k s' read' unread' out'.
Proof.
  intros Hi Hstep. destruct (reader s) as [|limit|limit hd advance count|limit hd msg_index advance count m size|hd advance|hd advance|e]
    eqn:Hr.
  3:{ by eapply step_scan. }
  3:{ by eapply step_call. }
  all: cbn [sys_step] in Hstep; rewrite Hr in Hstep; pose proof Hi as [I1 I2 I3 I4 I5 I6 I7 I8];
    rewrite Hr in I1, I3; simpl in I3; cbn [start_of] in I1; pose proof (bo_size _ _ _ _ I1) as Hsz;
    unfold reader_step, bind at 1, gets at 1 in Hstep; rewrite ?Hsz, ?land_mask in Hstep.
  - injection Hstep as <-. exists read, unread, out. by split; rewrite ?app_nil_r.
  - injection Hstep as <-. subst read. exists [], unread, out. split; rewrite ?app_nil_r; try done.
    simpl. split_and!; try done. pose proof (pow2_pos k). pose proof (N.mod_lt (head (buf s)) (2 ^ k)). lia.
  - destruct I3 as (-> & -> & Hfit). unfold bind at 1 in Hstep. rewrite check_access_ok in Hstep by (rewrite Hsz; done).
    injection Hstep as <-. exists [], unread, out. split; rewrite ?app_nil_r; try done.
    by apply buffer_clear.
  - destruct I3 as [-> ->]. injection Hstep as <-. exists [], unread, out.
    assert (head (buf s) + advance <= tail (buf s)) as Hle by (pose proof (chain_span _ _ _ (bo_chain _ _ _ _ I1)); lia).
    pose proof I1 as [Hk _ Hh Hs Hca Hch Hroom Ht He Hm Hf].
    rewrite N.mod_small by (change (2 ^ 64) with (2 * 2 ^ 63); lia).
    split; rewrite ?app_nil_r; try done.
    + split; simpl; try done; lia.
    + intros i. eapply local_ok_mono; [..|apply I4]; simpl; lia.
  - done.
Qed.

(** ** Every reachable state *)

Lemma sys_inv_new k : 3 <= k <= 62 -> sys_inv k (new_system k) [] [] [].
Proof.
  intros Hk. split; try done.
  - split; simpl; try done.
    + unfold bd_size. simpl. rewrite length_replicate. lia.
    + lia.
    + by intros x ?%not_elem_of_nil.
    + intros p Hp. pose proof (pow2_pos k). apply lookup_replicate_2. pose proof (N.mod_lt p (2 ^ k)). lia.
Qed.

Lemma sys_reachable_inv k s : 3 <= k <= 62 -> sys_reachable k s -> exists read unread out, sys_inv k s read unread out.
Proof.
  intros Hk. induction 1 as [|op s s' _ (read & unread & out & IH) Hstep Hlt].
  { exists [], [], []. by apply sys_inv_new. }
  destruct op as [i c|i spurious|limit|].
  - simpl in Hstep. destruct (writer_of s i) eqn:Hw; try done. injection Hstep as <-. exists read, unread, out.
    pose proof (sv_owns _ _ _ _ _ IH i) as Ho. rewrite Hw in Ho.
    pose proof (inv_local k s read unread out i (Preparing c) (buf s) IH) as Hinv. rewrite app_nil_r in Hinv.
    apply Hinv; try done. apply (sv_buffer _ _ _ _ _ IH).
  - destruct (step_writer _ _ _ _ _ _ _ _ IH Hstep Hlt) as [unread' Hinv]. by exists read, unread', out.
  - simpl in Hstep. destruct (reader s) eqn:Hr; try done. injection Hstep as <-. exists read, unread, out.
    destruct IH as [I1 I2 I3 I4 I5 I6 I7 I8]. rewrite Hr in *. by split.
  - by eapply step_reader.
Qed.

(** Only the checks of [prepare] throw. *)
Lemma writer_throws k s read unread out i spurious e b :
  sys_inv k s read unread out -> writer_step spurious (writer_of s i) (buf s) = (Throw e, b) ->
  exists c, writer_of s i = Preparing c.
Proof.
  intros Hi Hstep.
  assert (fills k s read out i spurious (writer_of s i) -> False) as Hfill.
  { intros (w' & b' & unread' & Heq & _). congruence. }
  destruct (writer_of s i) as [c| | | | | | | |c l|c index|c initial next sections|c initial|c initial header|] eqn:Hw.
  13:{ exfalso. by eapply Hfill, fill_close. }
  12:{ exfalso. by eapply Hfill, fill_load. }
  11:{ exfalso. by eapply Hfill, fill_data. }
  10:{ exfalso. by eapply Hfill, fill_header. }
  9:{ exfalso. by eapply Hfill, fill_pad. }
  1:{ by exists c. }
  all: exfalso; unfold writer_step, bind, gets, modify, ret in Hstep; repeat case_match; done.
Qed.

(** C2. The ring buffer delivers: however the steps of any number of writers
    and of the reader interleave, the calls of the handler are calls to write
    that returned, each with the message and the bytes that were written, none
    of them twice, and those of one writer in the order it made them; what was
    written and not yet delivered comes after it. No access is out of the
    buffer, and the only exceptions are those for messages that cannot be
    written at all. *)
Theorem ring_buffer_delivers (k : N) (s : System) :
  3 <= k <= 62 -> sys_reachable k s ->
  (exists out rest : list (N * (N * bytes)), out.*2 = delivered s /\
     forall i, of_writer i (out ++ rest) = of_writer i (written s)) /\
  (forall e, reader s <> ReadFailed e) /\
  (forall i spurious e b, writer_step spurious (writer_of s i) (buf s) = (Throw e, b) ->
     exists c, writer_of s i = Preparing c).
Proof.
  intros Hk Hs. destruct (sys_reachable_inv k s Hk Hs) as (read & unread & out & Hi). split_and!.
  - exists out, (closed_msgs unread). split; [apply (sv_out _ _ _ _ _ Hi)|apply (sv_history _ _ _ _ _ Hi)].
  - intros e He. pose proof (sv_reader _ _ _ _ _ Hi) as Hr. by rewrite He in Hr.
  - intros i spurious e b. by eapply writer_throws.
Qed.

(** ** Example *)

Fixpoint run_ops (ops : list Op) (s : System) : option System :=
  match ops with
  | [] => Some s
  | op :: ops =>
      match sys_step op s with
      | Some s' => if tail (buf s') <? 2 ^ 63 then run_ops ops s' else None
      | None => None
      end
  end.

Lemma run_ops_reachable k ops s s' : sys_reachable k s -> run_ops ops s = Some s' -> sys_reachable k s'.
Proof.
  revert s. induction ops as [|op ops IH]; intros s Hs; simpl; [by intros [= <-]|].
  destruct (sys_step op s) as [s1|] eqn:Hop; [|done]. destruct (N.ltb_spec (tail (buf s1)) (2 ^ 63)); [|done].
  apply IH. by eapply sys_next.
Qed.

Definition ex_call (m : N) (sections : list bytes) : Call := mkCall m true sections.

(** Two writers take turns, in a buffer of 64 bytes. *)
Definition ex_writes : list Op :=
  (StartWrite 0 (ex_call 5 [[Byte.x01]; [Byte.x02]]) :: StartWrite 1 (ex_call 7 [[Byte.x03]]) ::
   concat (replicate 14 [StepWriter 0 false; StepWriter 1 false]))%list.
Definition ex_reads : list Op := (StartRead 1 :: replicate 6 StepReader)%list.

Definition ex_run (ops : list Op) : System := default (new_system 6) (run_ops ops (new_system 6)).

Lemma ex_run_reachable ops : bool_decide (is_Some (run_ops ops (new_system 6))) = true -> sys_reachable 6 (ex_run ops).
Proof.
  intros [s Hs]%bool_decide_eq_true. unfold ex_run. rewrite Hs. eapply run_ops_reachable; [apply sys_init|exact Hs].
Qed.

Definition ex_system : System := ex_run (ex_writes ++ ex_reads).

Lemma ring_buffer_delivers_witness :
  (exists out rest : list (N * (N * bytes)), out.*2 = delivered ex_system /\
     of_writer 1 (out ++ rest) = of_writer 1 (written ex_system)) /\
  bool_decide (delivered ex_system = [(5, [Byte.x01; Byte.x02])]) = true /\ length (written ex_system) = 2%nat.
Proof.
  destruct (ring_buffer_delivers 6 ex_system) as [(out & rest & Ho & Hw) _]; [lia|apply ex_run_reachable; vm_eq|].
  split; [exists out, rest; split; [exact Ho|exact (Hw 1)]|]. split; vm_eq.
Defined.
End RingBufferSafe.
