(* ===== verification/RingBufferLive.v ===== *)
(** * Ring buffer: progress

    With no write under way, reading empties the buffer and delivers all that
    was written; in an empty buffer, every message that passes the checks of
    [prepare] can be written. *)

From S2P Require Import Prelude LedgerEntries RingBuffer RingBufferInv RingBufferSafe.
From Stdlib Require Import Init.Byte Strings.Byte.

Open Scope N_scope.
Open Scope m_scope.

Module RingBufferLive.
Import RingBuffer RingBufferInv RingBufferSafe.

(** ** Reading *)

Definition all_closed (es : list Entry) : Prop := Forall (fun e => unclosed (e_state e) = false) es.
Definition entry_out (e : Entry) : list (N * bytes) := option_list (snd <$> entry_msg e).

Lemma closed_msgs_out es : (closed_msgs es).*2 = concat (entry_out <$> es).
Proof.
  induction es as [|e es IH]; [done|]. cbn [closed_msgs omap list_omap fmap list_fmap concat].
  unfold entry_out at 1. rewrite <- IH. by destruct (entry_msg e).
Qed.

Lemma buffer_store_head k b start es :
  buffer_ok k b start es -> start <= tail b -> buffer_ok k (set_head start b) start es.
Proof. intros [Hk Hsz Hh Hs Hca Hch Hr Ht He Hm Hf] Hle. split; simpl; try done; lia. Qed.

(** The end of a call to [read]. *)
Lemma run_leave k b e es fuel :
  buffer_ok k b (head b) (e :: es) -> head b mod 2 ^ k + e_len e <= 2 ^ k ->
  exists b', run_reader (S (S fuel)) (leave_loop (head b) (e_len e)) b = (Ok [], b') /\
    buffer_ok k b' (head b') es /\ tail b' = tail b.
Proof.
  intros Hb Hfit. pose proof (bo_entries _ _ _ _ Hb) as He. inversion He as [|?? Hok _]; subst.
  pose proof (eo_min _ _ Hok) as Hmin. unfold leave_loop. destruct (N.ltb_spec 0 (e_len e)); [|lia].
  cbn [run_reader]. unfold reader_step, bind, gets. rewrite (bo_size _ _ _ _ Hb), land_mask.
  rewrite check_access_ok by (by rewrite (bo_size _ _ _ _ Hb)).
  unfold clear_mem, modify, ret. cbn [option_list app fst snd].
  assert (head b + e_len e <= tail b) as Hle.
  { pose proof (bo_chain _ _ _ _ Hb) as [_ Hc]. apply chain_span in Hc. lia. }
  pose proof (bo_tail _ _ _ _ Hb) as Ht. rewrite N.mod_small by (change (2 ^ 64) with (2 * 2 ^ 63); lia).
  eexists. split; [by destruct fuel|]. split; [|done]. cbn [head set_head]. apply buffer_store_head; [|done].
  pose proof (buffer_clear k b [e] es Hb) as Hcl. simpl in Hcl. rewrite N.add_0_r in Hcl. by apply Hcl.
Qed.

Lemma run_reader_step fuel r r' out b b' l b'' :
  r <> ReadIdle -> reader_step r b = (Ok (r', out), b') -> run_reader fuel r' b' = (Ok l, b'') ->
  run_reader (S fuel) r b = (Ok (option_list out ++ l)%list, b'').
Proof.
  intros Hr Hs Hrun.
  assert (run_reader (S fuel) r b = (x <- reader_step r ;;; rest <- run_reader fuel x.1 ;;; ret (option_list x.2 ++ rest)%list) b)
    as -> by (by destruct r).
  unfold bind. rewrite Hs. cbn [fst snd]. by rewrite Hrun.
Qed.

(** The loop is left when the limit or the end of the buffer is reached. *)
Lemma scan_stops k b es limit advance count :
  buffer_ok k b (head b) es -> 2 ^ k <= head b mod 2 ^ k + advance \/ limit <= count ->
  reader_step (Scanning limit (head b) advance count) b = (Ok (leave_loop (head b) advance, None), b).
Proof.
  intros Hb Hstop. unfold reader_step, bind, gets. rewrite (bo_size _ _ _ _ Hb), land_mask.
  assert ((advance <? 2 ^ k - head b mod 2 ^ k) && (count <? limit) = false) as ->; [|done].
  apply andb_false_iff. destruct Hstop; [left|right]; apply N.ltb_ge; lia.
Qed.

(** One call reads one entry. *)
Lemma read_one k b es : buffer_ok k b (head b) es -> all_closed es ->
  match es with
  | [] => read 1 b = (Ok [], b)
  | e :: es => exists b', read 1 b = (Ok (entry_out e), b') /\ buffer_ok k b' (head b') es /\ tail b' = tail b
  end.
Proof.
  intros Hb Hc. pose proof (bo_size _ _ _ _ Hb) as Hsz. pose proof (bo_k _ _ _ _ Hb) as Hk.
  destruct (size_mod8 k ltac:(lia)) as [_ H8]. pose proof (N.mod_lt (head b) (2 ^ k) ltac:(lia)) as Hlt.
  destruct (read_next k b [] es Hb) as [Hr Hnext]; [simpl; lia|]. cbn [span foldr] in Hr, Hnext. rewrite N.add_0_r in Hr.
  assert (exists fuel, read 1 b = run_reader (6 + fuel) (ReadStart 1) b) as [fuel Hread].
  { unfold read, bind, gets. rewrite Hsz. exists (N.to_nat (2 ^ k) - 2)%nat. f_equal. lia. }
  rewrite Hread. clear Hread. cbn [Nat.add].
  assert (reader_step (ReadStart 1) b = (Ok (Scanning 1 (head b) 0 0, None), b)) as S1 by done.
  assert (forall header, le_combine (slice (head b mod 2 ^ k) 8 (mem b)) = header ->
    reader_step (Scanning 1 (head b) 0 0) b = (Ok (inspect 1 (head b) (head b mod 2 ^ k) 0 0 header, None), b)) as S2.
  { intros header <-. unfold reader_step, bind at 1, gets at 1. rewrite Hsz, land_mask.
    assert ((0 <? 2 ^ k - head b mod 2 ^ k) && (0 <? 1) = true) as ->.
    { apply andb_true_iff. split; [apply N.ltb_lt; lia|done]. }
    unfold bind. rewrite N.add_0_r. by rewrite read64_ok by (by rewrite Hsz). }
  destruct es as [|e es]; rewrite !N.add_0_r in Hnext.
  { eapply (run_reader_step _ _ _ None); [done|exact S1|].
    eapply (run_reader_step _ _ _ None); [done|apply (S2 0); by rewrite Hnext|]. done. }
  destruct Hnext as (Hpos & Hix & Hmem & Hok). inversion Hc as [|?? Hce _]; subst.
  pose proof (entry_header _ _ Hok) as Hhead.
  rewrite <- Hmem, slice_slice, N.add_0_r in Hhead by apply (eo_min _ _ Hok).
  specialize (S2 _ Hhead). rewrite (inspect_entry _ _ _ _ _ _ _ Hok) in S2. pose proof (eo_state _ _ Hok) as Hst.
  pose proof (eo_fits _ _ Hok) as Hef. rewrite Hix in Hef.
  unfold entry_out, entry_msg. destruct (e_state e) as [| |m size|m size data|m data] eqn:Hes; try done.
  - destruct Hst as (_ & Hend & _). rewrite Hix in Hend.
    destruct (run_leave k b e es (S fuel) Hb Hef) as (b' & Hrun & Hb' & Ht'). exists b'. split_and!; try done.
    eapply (run_reader_step _ _ _ None _ _ []); [done|exact S1|].
    eapply (run_reader_step _ _ _ None _ _ []); [done|exact S2|].
    eapply (run_reader_step _ _ _ None _ _ []); [done|eapply scan_stops; [exact Hb|left; lia]|exact Hrun].
  - apply message_ok_len in Hst as (M1 & M2 & M3).
    destruct (run_leave k b e es fuel Hb Hef) as (b' & Hrun & Hb' & Ht'). exists b'. split_and!; try done.
    eapply (run_reader_step _ _ _ None _ _ [(m, data)]); [done|exact S1|].
    eapply (run_reader_step _ _ _ None _ _ [(m, data)]); [done|exact S2|].
    eapply (run_reader_step _ _ _ (Some (m, data)) _ _ []); [done| |].
    + unfold reader_step, bind, gets. rewrite Hsz, land_mask, check_access_ok by (by rewrite Hsz). unfold ret.
      change header_size with 8. rewrite <- (slice_slice _ (e_len e)) by lia. by rewrite Hmem, (closed_data e m data Hes).
    + eapply (run_reader_step _ _ _ None _ _ []); [done|eapply scan_stops; [exact Hb|right; lia]|exact Hrun].
Qed.

(** Padding is followed by a message. *)
Lemma no_two_pads k b start e e' es :
  buffer_ok k b start (e :: e' :: es) -> e_state e = PadDone -> e_state e' <> PadDone.
Proof.
  intros Hb H1 H2. pose proof (bo_chain _ _ _ _ Hb) as (P1 & P2 & _). pose proof (bo_entries _ _ _ _ Hb) as He.
  inversion He as [|?? O1 He']; subst. inversion He' as [|?? O2 _]; subst.
  pose proof (eo_state _ _ O1) as S1. pose proof (eo_state _ _ O2) as S2. rewrite H1 in S1. rewrite H2 in S2.
  destruct S1 as (_ & E1 & _), S2 as (_ & E2 & L2). rewrite P2 in E2.
  assert ((e_pos e + e_len e) mod 2 ^ k = 0) as Hz.
  { pose proof (N.Div0.div_mod (e_pos e) (2 ^ k)) as Hd.
    replace (e_pos e + e_len e) with ((e_pos e / 2 ^ k + 1) * 2 ^ k) by lia. apply N.Div0.mod_mul. }
  lia.
Qed.

(** An empty read after an empty read ends [read_n]. *)
Lemma read_n_stop fuel b b1 : read 1 b = (Ok [], b1) -> read_n_loop (S fuel) 1 0 (Some 0) b = (Ok [], b1).
Proof. intros Hr. cbn [read_n_loop]. change (negb (0 <? 1)) with false. cbv iota. unfold bind. by rewrite Hr. Qed.

Lemma read_n_message fuel prev b b1 x : read 1 b = (Ok [x], b1) -> read_n_loop (S fuel) 1 0 prev b = (Ok [x], b1).
Proof. intros Hr. cbn [read_n_loop]. change (negb (0 <? 1)) with false. cbv iota. unfold bind. rewrite Hr. by destruct fuel. Qed.

Lemma read_n_empty fuel b b1 r : read 1 b = (Ok [], b1) -> read_n_loop fuel 1 0 (Some 0) b1 = r ->
  read_n_loop (S fuel) 1 0 None b = r.
Proof.
  intros Hr <-. cbn [read_n_loop]. change (negb (0 <? 1)) with false. cbv iota. unfold bind. rewrite Hr. change (N.of_nat (length (@nil (N * bytes)))) with 0.
  cbn [N.eqb andb negb]. change (bool_decide (None = Some 0)) with false. cbv iota. change (0 + 0) with 0.
  cbv beta. by destruct (read_n_loop fuel 1 0 (Some 0) b1) as [[l|e] b2].
Qed.

(** [read_n(1)] delivers the next message, if there is one. *)
Lemma read_n_one k b es : buffer_ok k b (head b) es -> all_closed es ->
  exists msgs b' es', read_n 1 b = (Ok msgs, b') /\ buffer_ok k b' (head b') es' /\ all_closed es' /\ tail b' = tail b /\
    concat (entry_out <$> es) = (msgs ++ concat (entry_out <$> es'))%list /\
    match msgs with [] => es' = [] | _ => (length es' < length es)%nat end.
Proof.
  intros Hb Hc. pose proof (read_one k b es Hb Hc) as H1. unfold read_n. change (2 * N.to_nat 1 + 2)%nat with 4%nat.
  destruct es as [|e es].
  { exists [], b, []. split_and!; try done. by eapply read_n_empty, read_n_stop. }
  destruct H1 as (b1 & R1 & B1 & T1). inversion Hc as [|?? Hce Hc']; subst. cbn [fmap list_fmap concat].
  destruct (e_state e) as [| |m size|m size data|m data] eqn:Hes; try done.
  - assert (entry_out e = []) as Hout by (unfold entry_out, entry_msg; by rewrite Hes). rewrite Hout in *.
    pose proof (read_one k b1 es B1 Hc') as H2. destruct es as [|e' es].
    { exists [], b1, []. split_and!; try done. by eapply read_n_empty, read_n_stop. }
    destruct H2 as (b2 & R2 & B2 & T2). inversion Hc' as [|?? Hce' Hc'']; subst.
    pose proof (no_two_pads _ _ _ _ _ _ Hb Hes) as Hnp.
    destruct (e_state e') as [| |m size|m size data|m data] eqn:Hes'; try done.
    assert (entry_out e' = [(m, data)]) as Hout' by (unfold entry_out, entry_msg; by rewrite Hes').
    cbn [fmap list_fmap concat]. rewrite Hout' in *. exists [(m, data)], b2, es.
    split_and!; try done; [by eapply read_n_empty, read_n_message|congruence|simpl; lia].
  - assert (entry_out e = [(m, data)]) as Hout by (unfold entry_out, entry_msg; by rewrite Hes). rewrite Hout in *.
    exists [(m, data)], b1, es. split_and!; try done; [by eapply read_n_message|simpl; lia].
Qed.

Lemma read_all_loop_spec k fuel b es : buffer_ok k b (head b) es -> all_closed es -> (length es < fuel)%nat ->
  exists b', read_all_loop fuel b = (Ok (concat (entry_out <$> es)), b') /\ buffer_ok k b' (head b') [] /\ tail b' = tail b.
Proof.
  revert b es. induction fuel as [|fuel IH]; intros b es Hb Hc Hf; [lia|].
  destruct (read_n_one k b es Hb Hc) as (msgs & b1 & es1 & R & B1 & C1 & T1 & Heq & Hm).
  cbn [read_all_loop]. unfold bind at 1. rewrite R, Heq. destruct msgs as [|x msgs].
  - subst es1. exists b1. by split_and!.
  - destruct (IH b1 es1 B1 C1 ltac:(lia)) as (b2 & R2 & B2 & T2). exists b2. unfold bind. rewrite R2.
    split_and!; [done|done|congruence].
Qed.

(** Between the exchange and the end of [finish] a write is under way. *)
Definition settled (w : Writer) : Prop :=
  match w with WritePad _ _ | WriteHeader _ _ | Writing _ _ _ _ | LoadHeader _ _ | StoreHeader _ _ _ => False | _ => True end.

Lemma settled_closed k s read unread out :
  sys_inv k s read unread out -> (forall i, settled (writer_of s i)) -> all_closed unread.
Proof.
  intros Hi Hset. apply Forall_forall. intros e He. destruct (unclosed (e_state e)) eqn:Hu; [|done]. exfalso.
  pose proof (sv_owns _ _ _ _ _ Hi (e_owner e)) as Ho. specialize (Hset (e_owner e)).
  assert (open_of (e_owner e) unread = []) as Hnil by (by destruct (writer_of s (e_owner e))).
  assert (e ∈ open_of (e_owner e) unread) as Hin by (apply list_elem_of_filter; by split_and!).
  rewrite Hnil in Hin. by apply not_elem_of_nil in Hin.
Qed.

Lemma entries_length k b start es : buffer_ok k b start es -> N.of_nat (length es) <= tail b - start /\ start <= tail b.
Proof.
  intros Hb. pose proof (chain_span _ _ _ (bo_chain _ _ _ _ Hb)) as ->. pose proof (bo_entries _ _ _ _ Hb) as He.
  assert (N.of_nat (length es) <= span es); [|lia]. clear Hb. induction He as [|e es Hok _ IH]; [done|].
  pose proof (eo_min _ _ Hok). simpl. lia.
Qed.

(** C29. Nothing is lost: in every reachable state in which no write is under
    way and the reader is between two calls, reading to the end delivers,
    after what was delivered before, exactly the rest of what was written,
    and leaves the buffer empty. *)
Theorem read_all_delivers (k : N) (s : System) :
  3 <= k <= 62 -> sys_reachable k s -> reader s = ReadIdle -> (forall i, settled (writer_of s i)) ->
  exists (out rest : list (N * (N * bytes))) (b' : Buffer),
    out.*2 = delivered s /\ (forall i, of_writer i (out ++ rest) = of_writer i (written s)) /\
    read_all (buf s) = (Ok rest.*2, b') /\ head b' = tail b' /\ tail b' = tail (buf s).
Proof.
  intros Hk Hs Hr Hset. destruct (sys_reachable_inv k s Hk Hs) as (read & unread & out & Hi).
  pose proof (settled_closed _ _ _ _ _ Hi Hset) as Hc. pose proof (sv_reader _ _ _ _ _ Hi) as Hro.
  pose proof (sv_buffer _ _ _ _ _ Hi) as Hb. rewrite Hr in Hro, Hb. simpl in Hro. subst read. cbn [start_of app] in Hb.
  exists out, (closed_msgs unread). destruct (entries_length _ _ _ _ Hb) as [Hlen _].
  pose proof (bo_room _ _ _ _ Hb) as Hroom. pose proof (bo_size _ _ _ _ Hb) as Hsz.
  destruct (read_all_loop_spec k (S (N.to_nat (bd_size (buf s)))) (buf s) unread Hb Hc) as (b' & Hrun & Hb' & Ht).
  { rewrite Hsz. lia. }
  exists b'. split_and!; [apply (sv_out _ _ _ _ _ Hi)|apply (sv_history _ _ _ _ _ Hi)| |apply (bo_chain _ _ _ _ Hb')|done].
  unfold read_all, bind, gets. by rewrite Hrun, closed_msgs_out.
Qed.

(** ** Writing *)

(** [n] steps of one writer, with nobody else running. *)
Fixpoint run_alone (n : nat) (i : N) (s : System) : System :=
  match n with
  | O => s
  | S n => match sys_step (StepWriter i false) s with Some s' => run_alone n i s' | None => s end
  end.

(** Alone, writer [i] gets to a state in which [P] holds. *)
Definition gets_to (i : N) (s : System) (P : System -> Prop) : Prop := exists n, P (run_alone n i s).

Lemma gets_to_now i s (P : System -> Prop) : P s -> gets_to i s P.
Proof. intros H. by exists O. Qed.

Lemma gets_to_step i s w' b' (P : System -> Prop) :
  writer_step false (writer_of s i) (buf s) = (Ok w', b') ->
  gets_to i (mkSystem b' (<[i := w']> (writers s)) (reader s) (written s ++ completes i (writer_of s i) (Ok w')) (delivered s)) P ->
  gets_to i s P.
Proof. intros Hs [n H]. exists (S n). cbn [run_alone sys_step]. by rewrite Hs. Qed.

Lemma writer_of_self b ws i w r wr d : writer_of (mkSystem b (<[i := w]> ws) r wr d) i = w.
Proof. rewrite writer_of_insert. by rewrite decide_True. Qed.

Section writing.
Context (k i : N) (Hk : 3 <= k <= 62).

(** The call returns [true], and its message is among those written. *)
Definition returns (c : Call) (l : list (N * (N * bytes))) (s : System) : Prop :=
  writer_of s i = Returned (Ok true) /\ written s = (l ++ [(i, (call_message c, payload c))])%list.

(** Once the region is reserved, nothing stops the writer. *)
Lemma fill_reachable s w' b' :
  sys_reachable k s -> tail (buf s) < 2 ^ 63 ->
  writer_step false (writer_of s i) (buf s) = (Ok w', b') -> tail b' < 2 ^ 63 ->
  sys_reachable k (mkSystem b' (<[i := w']> (writers s)) (reader s) (written s ++ completes i (writer_of s i) (Ok w')) (delivered s)).
Proof.
  intros Hs Ht Hst Ht'. eapply (sys_next k (StepWriter i false) s); [done| |done]. cbn [sys_step]. by rewrite Hst.
Qed.

(** The state a writer is in after a step that writes to its entry. *)
Lemma fill_next spurious w b w' b' : writer_step spurious w b = (Ok w', b') ->
  match w with
  | WritePad c _ => w' = WriteHeader c 0 /\ tail b' = tail b
  | WriteHeader c index => w' = Writing c (index + 8) (index + 8) (call_sections c) /\ tail b' = tail b
  | Writing c initial next (x :: sections) =>
      w' = Writing c initial (next + N.of_nat (length x)) sections /\ tail b' = tail b
  | Writing c initial next [] => w' = LoadHeader c initial /\ tail b' = tail b
  | LoadHeader c initial => (exists header, w' = StoreHeader c initial header) /\ tail b' = tail b
  | StoreHeader c _ _ => w' = Returned (Ok true) /\ tail b' = tail b
  | _ => True
  end.
Proof.
  destruct w as [| | | | | | | |c l|c index|c initial next [|x sections]|c initial|c initial header|]; try done;
    unfold writer_step, write64, read64, check_access, bind, gets, modify, ret, throw; intros Hs;
    repeat case_match; simplify_eq; split; try done; by eexists.
Qed.

Lemma fill_succeeds s : sys_reachable k s -> tail (buf s) < 2 ^ 63 ->
  ~ settled (writer_of s i) ->
  exists w' b', writer_step false (writer_of s i) (buf s) = (Ok w', b').
Proof.
  intros Hs Ht Hset. destruct (sys_reachable_inv k s Hk Hs) as (read & unread & out & Hi).
  destruct (writer_step false (writer_of s i) (buf s)) as [[w'|e] b'] eqn:Hst; [by do 2 eexists|].
  apply (writer_throws _ _ _ _ _ _ _ _ _ Hi) in Hst as [c Hc]. by rewrite Hc in Hset.
Qed.

Lemma gets_to_fill s (P : System -> Prop) :
  sys_reachable k s -> tail (buf s) < 2 ^ 63 -> ~ settled (writer_of s i) ->
  (forall w' b', writer_step false (writer_of s i) (buf s) = (Ok w', b') ->
     let s' := mkSystem b' (<[i := w']> (writers s)) (reader s) (written s ++ completes i (writer_of s i) (Ok w')) (delivered s) in
     (tail b' < 2 ^ 63 -> sys_reachable k s') -> gets_to i s' P) ->
  gets_to i s P.
Proof.
  intros Hs Ht Hset Hnext. destruct (fill_succeeds s Hs Ht Hset) as (w' & b' & Hst).
  eapply gets_to_step; [exact Hst|]. apply Hnext; [done|]. intros Ht'. by apply fill_reachable.
Qed.

Lemma finish_returns s c initial :
  sys_reachable k s -> tail (buf s) < 2 ^ 63 -> writer_of s i = LoadHeader c initial -> gets_to i s (returns c (written s)).
Proof.
  intros Hs Ht Hw. apply gets_to_fill; [done|done|rewrite Hw; by intros []|]. intros w1 b1 H1 s1 Hs1.
  pose proof (fill_next _ _ _ _ _ H1) as Hn. rewrite Hw in Hn. destruct Hn as [[header ->] Ht1].
  assert (writer_of s1 i = StoreHeader c initial header) as Hw1 by apply writer_of_self.
  apply gets_to_fill; [apply Hs1; lia|simpl; lia|rewrite Hw1; by intros []|]. intros w2 b2 H2 s2 Hs2.
  pose proof (fill_next _ _ _ _ _ H2) as Hn. rewrite Hw1 in Hn. destruct Hn as [-> Ht2].
  apply gets_to_now. split; [apply writer_of_self|]. unfold s2. cbn [written]. rewrite Hw1. unfold s1. cbn [written].
  rewrite Hw. cbn [completes]. by rewrite app_nil_r.
Qed.

Lemma writing_returns s c initial next sections :
  sys_reachable k s -> tail (buf s) < 2 ^ 63 -> writer_of s i = Writing c initial next sections ->
  gets_to i s (returns c (written s)).
Proof.
  revert s next. induction sections as [|x sections IH]; intros s next Hs Ht Hw;
    (apply gets_to_fill; [done|done|rewrite Hw; by intros []|]); intros w1 b1 H1 s1 Hs1;
    pose proof (fill_next _ _ _ _ _ H1) as Hn; rewrite Hw in Hn; destruct Hn as [-> Ht1];
    assert (written s1 = written s) as <- by (unfold s1; rewrite Hw; cbn [written completes]; apply app_nil_r).
  - eapply finish_returns; [apply Hs1; lia|simpl; lia|apply writer_of_self].
  - eapply IH; [apply Hs1; lia|simpl; lia|apply writer_of_self].
Qed.

Lemma header_returns s c index :
  sys_reachable k s -> tail (buf s) < 2 ^ 63 -> writer_of s i = WriteHeader c index -> gets_to i s (returns c (written s)).
Proof.
  intros Hs Ht Hw. apply gets_to_fill; [done|done|rewrite Hw; by intros []|]. intros w1 b1 H1 s1 Hs1.
  pose proof (fill_next _ _ _ _ _ H1) as Hn. rewrite Hw in Hn. destruct Hn as [-> Ht1].
  assert (written s1 = written s) as <- by (unfold s1; rewrite Hw; cbn [written completes]; apply app_nil_r).
  eapply writing_returns; [apply Hs1; lia|simpl; lia|apply writer_of_self].
Qed.

Lemma pad_returns s c l :
  sys_reachable k s -> tail (buf s) < 2 ^ 63 -> writer_of s i = WritePad c l -> gets_to i s (returns c (written s)).
Proof.
  intros Hs Ht Hw. apply gets_to_fill; [done|done|rewrite Hw; by intros []|]. intros w1 b1 H1 s1 Hs1.
  pose proof (fill_next _ _ _ _ _ H1) as Hn. rewrite Hw in Hn. destruct Hn as [-> Ht1].
  assert (written s1 = written s) as <- by (unfold s1; rewrite Hw; cbn [written completes]; apply app_nil_r).
  eapply header_returns; [apply Hs1; lia|simpl; lia|apply writer_of_self].
Qed.

(** In an empty buffer the region is there. *)
Definition emptied (s : System) : Prop := head (buf s) = tail (buf s) /\ tail (buf s) + 2 ^ k < 2 ^ 63.

Lemma local_of s : sys_reachable k s -> local_ok (2 ^ k) (buf s) (writer_of s i) /\ bd_size (buf s) = 2 ^ k.
Proof.
  intros Hs. destruct (sys_reachable_inv k s Hk Hs) as (read & unread & out & Hi).
  split; [apply (sv_local _ _ _ _ _ Hi)|apply (bo_size _ _ _ _ (sv_buffer _ _ _ _ _ Hi))].
Qed.

(** A step that leaves the buffer as it is but for the head cache. *)
Lemma gets_to_reserve s w' b' c :
  sys_reachable k s -> emptied s -> writer_step false (writer_of s i) (buf s) = (Ok w', b') ->
  head b' = head (buf s) -> tail b' = tail (buf s) -> completes i (writer_of s i) (Ok w') = [] ->
  (forall s', sys_reachable k s' -> emptied s' -> writer_of s' i = w' -> head (buf s') = head (buf s) -> tail (buf s') = tail (buf s) ->
     gets_to i s' (returns c (written s'))) ->
  gets_to i s (returns c (written s)).
Proof.
  intros Hs [He Hlt] Hst Hh Ht Hc Hnext. eapply gets_to_step; [exact Hst|]. rewrite Hc.
  pose proof (fill_reachable s w' b' Hs) as Hr. rewrite Hc in Hr.
  specialize (Hnext (mkSystem b' (<[i := w']> (writers s)) (reader s) (written s ++ []) (delivered s))).
  cbn [written buf] in Hnext. rewrite app_nil_r in *.
  apply Hnext; [apply Hr; [lia|done|lia]| |apply writer_of_self|done|done]. split; simpl; lia.
Qed.

Lemma exchange_returns s c l : sys_reachable k s -> emptied s -> writer_of s i = Exchange c l -> l_tl l = tail (buf s) ->
  gets_to i s (returns c (written s)).
Proof.
  intros Hs [He Hlt] Hw Htl. destruct (local_of s Hs) as [Hl Hsz]. rewrite Hw in Hl.
  destruct Hl as (Hv & _ & _ & Hx). specialize (Hx Htl). unfold exchange_ok in Hx.
  assert (l_tl l + call_entry_size c + l_padding l <= head (buf s) + 2 ^ k) as Hle by (destruct Hx as [_ [Hx|Hx]]; lia).
  set (b' := set_tail (l_tl l + call_entry_size c + l_padding l) (buf s)).
  assert (writer_step false (writer_of s i) (buf s) =
    (Ok (if l_padding l =? 0 then WriteHeader c (l_tl_index l) else WritePad c l), b')) as Hst.
  { rewrite Hw. unfold writer_step, bind, gets. rewrite <- Htl, N.eqb_refl. cbn [andb negb].
    rewrite N.mod_small by (change (2 ^ 64) with (2 * 2 ^ 63); lia). done. }
  eapply gets_to_step; [exact Hst|]. pose proof (fill_reachable s _ b' Hs ltac:(lia) Hst) as Hr.
  rewrite Hw in Hr |- *. cbn [completes] in *. rewrite app_nil_r in *.
  set (s' := mkSystem _ _ _ _ _) in *. change (written s) with (written s'). assert (tail b' < 2 ^ 63) as Hb' by (simpl; lia).
  destruct (l_padding l =? 0); [eapply header_returns|eapply pad_returns]; try exact Hb'; try apply writer_of_self; by apply Hr.
Qed.

Lemma half_size c : valid (2 ^ k) c -> 2 * call_entry_size c <= 2 ^ k.
Proof.
  intros (_ & _ & Hh). pose proof (N.Div0.mul_div_le (2 ^ k) 2). set (h := 2 ^ k / 2) in *. lia.
Qed.

Lemma place_returns s c l : sys_reachable k s -> emptied s -> writer_of s i = place (2 ^ k) c l -> l_tl l = tail (buf s) ->
  gets_to i s (returns c (written s)).
Proof.
  intros Hs He Hw Htl. destruct (local_of s Hs) as [Hl Hsz]. unfold place in Hw.
  destruct (_ <? _); [|by eapply exchange_returns]. destruct (_ <? _); [|by eapply exchange_returns].
  set (l1 := mkLocals _ _ _ _) in Hw. rewrite Hw in Hl. destruct Hl as (Hv & _ & _ & _ & [Hx Hend]).
  pose proof (half_size c Hv). assert (l_tl_index l1 = head (buf s) mod 2 ^ k) as Hix by (rewrite Hx, (proj1 He), <- Htl; done).
  eapply (gets_to_reserve _ (StoreCacheAgain c (mkLocals (head (buf s)) (l_tl l1) (l_padding l1) (l_tl_index l1))) (buf s));
    try done; [|by rewrite Hw|].
  { rewrite Hw. unfold writer_step, bind, gets. rewrite Hsz, land_mask, <- Hix.
    by destruct (N.ltb_spec (l_tl_index l1) (call_entry_size c)); [lia|]. }
  intros s2 Hs2 He2 Hw2 Hh2 Ht2.
  eapply gets_to_reserve; [done|done|rewrite Hw2; unfold writer_step, bind, gets, modify, ret; reflexivity|done|done|by rewrite Hw2|].
  intros s3 Hs3 He3 Hw3 Hh3 Ht3. eapply exchange_returns; [done|done|exact Hw3|]. simpl in *. congruence.
Qed.

Lemma loop_returns s c l : sys_reachable k s -> emptied s -> writer_of s i = loop_body (2 ^ k) c l -> l_tl l = tail (buf s) ->
  gets_to i s (returns c (written s)).
Proof.
  intros Hs He Hw Htl. destruct (local_of s Hs) as [Hl Hsz]. unfold loop_body in Hw.
  destruct (_ || _); [|by eapply place_returns]. rewrite Hw in Hl. destruct Hl as [Hv _]. pose proof (half_size c Hv).
  eapply (gets_to_reserve _ (StoreCache c (mkLocals (head (buf s)) (l_tl l) (l_padding l) (l_tl_index l))) (buf s));
    try done; [|by rewrite Hw|].
  { rewrite Hw. unfold writer_step, bind, gets. rewrite Hsz, Htl, <- (proj1 He).
    unfold greater_with_wraparound. rewrite N.eqb_refl. cbn [negb andb].
    rewrite !u64_sub_exact by (rewrite ?u64_sub_exact; lia). rewrite N.sub_diag, N.sub_0_r.
    by destruct (N.ltb_spec (2 ^ k) (call_entry_size c)); [lia|]. }
  intros s2 Hs2 He2 Hw2 Hh2 Ht2. destruct (local_of s2 Hs2) as [_ Hsz2].
  eapply gets_to_reserve;
    [done|done|rewrite Hw2; unfold writer_step, bind, gets, modify, ret; rewrite Hsz2; reflexivity|done|done|by rewrite Hw2|].
  intros s3 Hs3 He3 Hw3 Hh3 Ht3. eapply place_returns; [done|done|exact Hw3|]. simpl in *. congruence.
Qed.
End writing.

(** There is always room in an empty buffer: a call that passes the checks
    of [prepare], made when the reader has caught up with the writers, returns
    [true] after some steps of its own, whatever head the writers have cached
    and wherever in the buffer the tail is. *)
Theorem write_when_empty (k i : N) (s : System) (c : Call) :
  3 <= k <= 62 -> sys_reachable k s -> head (buf s) = tail (buf s) -> tail (buf s) + 2 ^ k < 2 ^ 63 ->
  writer_of s i = Preparing c -> valid (2 ^ k) c ->
  exists n, writer_of (run_alone n i s) i = Returned (Ok true) /\
    written (run_alone n i s) = (written s ++ [(i, (call_message c, payload c))])%list.
Proof.
  intros Hk Hs He Hlt Hw Hv. assert (emptied k s) as Hem by done. destruct (local_of k i Hk s Hs) as [_ Hsz].
  enough (gets_to i s (returns i c (written s))) as [n Hn] by (by exists n).
  eapply (gets_to_reserve k i Hk s (LoadCache c) (buf s)); try done; [|by rewrite Hw|].
  { rewrite Hw. unfold writer_step, bind, gets. rewrite Hsz. destruct Hv as ((V1 & V1') & V2 & V3).
    destruct (N.ltb_spec (call_message c) msg_min); [lia|]. destruct (N.ltb_spec msg_max (call_message c)); [lia|].
    destruct (N.ltb_spec max_size (total_size c)); [lia|]. unfold max_reservation_size.
    by destruct (N.ltb_spec (2 ^ k / 2) (call_entry_size c)); [lia|]. }
  intros s1 Hs1 He1 Hw1 _ _. eapply (gets_to_reserve k i Hk); [done|done|rewrite Hw1; unfold writer_step, bind, gets, modify, ret; reflexivity|done|done|by rewrite Hw1|].
  intros s2 Hs2 He2 Hw2 _ _. destruct (local_of k i Hk s2 Hs2) as [_ Hsz2].
  eapply (gets_to_reserve k i Hk);
    [done|done|rewrite Hw2; unfold writer_step, bind, gets, ret; rewrite Hsz2; reflexivity|done|done|by rewrite Hw2|].
  intros s3 Hs3 He3 Hw3 _ Ht3. by eapply (loop_returns k i Hk).
Qed.

(** ** Examples *)

Definition settledb (w : Writer) : bool :=
  match w with WritePad _ _ | WriteHeader _ _ | Writing _ _ _ _ | LoadHeader _ _ | StoreHeader _ _ _ => false | _ => true end.

Lemma settled_check s : forallb (fun e => settledb e.2) (map_to_list (writers s)) = true -> forall i, settled (writer_of s i).
Proof.
  rewrite forallb_forall. intros H i. unfold writer_of. destruct (writers s !! i) as [w|] eqn:Hw; [|done].
  specialize (H (i, w)). rewrite <- list_elem_of_In, elem_of_map_to_list in H. specialize (H Hw). simpl in *.
  by destruct w.
Qed.

(** After one of the two messages was read. *)
Lemma read_all_delivers_witness : exists rest b',
  read_all (buf ex_system) = (Ok rest, b') /\ head b' = tail b' /\ length rest = 1%nat.
Proof.
  destruct (read_all_delivers 6 ex_system) as (out & rest & b' & Ho & Hw & Hr & Hh & _).
  - lia.
  - apply ex_run_reachable. vm_eq.
  - vm_eq.
  - apply settled_check. vm_eq.
  - exists rest.*2, b'. split_and!; [exact Hr|exact Hh|].
    assert (match read_all (buf ex_system) with (Ok l, _) => length l | _ => O end = 1%nat) as Hl by vm_eq.
    rewrite Hr in Hl. exact Hl.
Defined.

Lemma write_when_empty_witness : exists n,
  writer_of (run_alone n 0 (ex_run [StartWrite 0 (ex_call 5 [[Byte.x01]])])) 0 = Returned (Ok true).
Proof.
  destruct (write_when_empty 6 0 (ex_run [StartWrite 0 (ex_call 5 [[Byte.x01]])]) (ex_call 5 [[Byte.x01]])) as (n & Hn & _).
  - lia.
  - apply ex_run_reachable. vm_eq.
  - vm_eq.
  - vm_eq.
  - vm_eq.
  - split_and!; apply N.leb_le; vm_eq.
  - by exists n.
Defined.
End RingBufferLive.
