(* ===== verification/Writers.v ===== *)
(** * Writers of messages

    [ringbuffer::AbstractWriter] (src/ds/ring_buffer_types.h): the interface
    behind which messages are written, what its comment promises to callers,
    and [write_multiple], which writes a message through it. *)

From S2P Require Import Prelude LedgerEntries RingBuffer.

Module Writers.
Import RingBuffer.
Open Scope N_scope.

(** [prepare m size wait] returns the marker, and what it stores through the
    pointer [identifier] when it stores anything. *)
Class AbstractWriter (W : Type) := {
  prepare : N -> N -> bool -> M W (option N * option N);
  write_bytes : option N -> bytes -> M W (option N);
  finish : option N -> M W unit;
}.

Section write_multiple.
Context {W : Type} `{AbstractWriter W}.

Fixpoint write_sections (next : option N) (sections : list bytes) : M W (option N) :=
  match sections with
  | [] => ret next
  | s :: sections => next <- write_bytes next s ;;; write_sections next sections
  end.

Definition write_multiple (c : Call) : M W bool :=
  p <- prepare (call_message c) (total_size c) (call_wait c) ;;;
  match p.1 with
  | None => ret false
  | Some _ =>
      next <- write_sections p.1 (call_sections c) ;;;
      finish p.1 ;;;
      ret (bool_decide (is_Some next))
  end.
End write_multiple.

(** ** What a writer promises

    The messages prepared with a writer, in that order: [sl_data] is what has
    been written of a message of [sl_size] bytes, [sl_initial] the marker
    [prepare] returned, [sl_next] the marker of the next write. A message that
    is finished has no markers. *)
Record Slot := mkSlot {
  sl_message : N;
  sl_size : N;
  sl_data : bytes;
  sl_initial : N;
  sl_next : N;
  sl_finished : bool;
}.

Definition open_slot (m size marker : N) : Slot := mkSlot m size [] marker marker false.
Definition extend (sl : Slot) (b : bytes) (next : N) : Slot :=
  mkSlot (sl_message sl) (sl_size sl) (sl_data sl ++ b) (sl_initial sl) next (sl_finished sl).
Definition close (sl : Slot) : Slot := mkSlot (sl_message sl) (sl_size sl) (sl_data sl) 0 0 true.

(** How many messages are being written. *)
Definition open_count (l : list Slot) : nat := length (filter (fun sl => sl_finished sl = false) l).

(** What the reader receives of a message. *)
Definition frame (sl : Slot) : N * bytes := (sl_message sl, sl_data sl).

(** [represents w l]: the messages of [w] are [l]. [accepts] are the messages
    the implementation can write, [interferes] what other writers and the
    reader may do to the state. A message can be prepared while at most one
    other is being written. *)
Class WriterLaws (W : Type) `{AbstractWriter W} := {
  represents : W -> list Slot -> Prop;
  accepts : N -> N -> Prop;
  interferes : W -> W -> Prop;
  interferes_represents w w' l : represents w l -> interferes w w' -> represents w' l;
  prepare_law w l m size wait :
    represents w l -> accepts m size -> (open_count l <= 1)%nat ->
    exists marker id w', prepare m size wait w = (Ok (marker, id), w') /\
      match marker with
      | Some mk => represents w' (l ++ [open_slot m size mk])
      | None => wait = false /\ represents w' l
      end;
  write_bytes_law w l1 sl l2 b :
    represents w (l1 ++ sl :: l2) -> sl_finished sl = false ->
    N.of_nat (length (sl_data sl)) + N.of_nat (length b) <= sl_size sl ->
    exists mk w', write_bytes (Some (sl_next sl)) b w = (Ok (Some mk), w') /\
      represents w' (l1 ++ extend sl b mk :: l2);
  finish_law w l1 sl l2 :
    represents w (l1 ++ sl :: l2) -> sl_finished sl = false ->
    N.of_nat (length (sl_data sl)) = sl_size sl ->
    exists w', finish (Some (sl_initial sl)) w = (Ok tt, w') /\
      represents w' (l1 ++ close sl :: l2);
}.

(** Markers are at most [bound]: for a ring buffer, they are indices of it. *)
Class BoundedMarkers (W : Type) (bound : N) `{WriterLaws W} :=
  represents_bound w l sl :
    represents w l -> sl ∈ l -> sl_finished sl = false -> sl_initial sl <= bound /\ sl_next sl <= bound.

Lemma extend_extend sl b1 mk1 b2 mk2 : extend (extend sl b1 mk1) b2 mk2 = extend sl (b1 ++ b2) mk2.
Proof. unfold extend. simpl. by rewrite app_assoc. Qed.

Lemma length_payload c : N.of_nat (length (payload c)) = total_size c.
Proof.
  unfold payload, total_size. induction (call_sections c) as [|s l IH]; [done|].
  simpl. rewrite length_app. lia.
Qed.

Lemma open_count_app l1 l2 : open_count (l1 ++ l2) = (open_count l1 + open_count l2)%nat.
Proof. unfold open_count. by rewrite filter_app, length_app. Qed.

Lemma open_count_finished l : Forall (fun sl => sl_finished sl = true) l -> open_count l = O.
Proof. intros Hl. unfold open_count. rewrite filter_none; [done|]. eapply Forall_impl; [exact Hl|]. intros sl Hsl. simpl in *. by rewrite Hsl. Qed.

Lemma open_count_two l s1 s2 : s1 ∈ l -> s2 ∈ l -> s1 <> s2 -> sl_finished s1 = false -> sl_finished s2 = false ->
  (1 < open_count l)%nat.
Proof.
  intros H1 H2 Hne Hf1 Hf2. unfold open_count. set (f := filter _ l).
  assert (s1 ∈ f) as E1 by (by apply list_elem_of_filter). assert (s2 ∈ f) as E2 by (by apply list_elem_of_filter).
  destruct f as [|x [|y f]]; [by apply not_elem_of_nil in E1| |simpl; lia].
  apply list_elem_of_singleton in E1, E2. congruence.
Qed.

Section laws.
Context {W : Type} `{WriterLaws W}.

Lemma write_sections_spec sections : forall w l1 sl l2,
  represents w (l1 ++ sl :: l2) -> sl_finished sl = false ->
  N.of_nat (length (sl_data sl)) + N.of_nat (length (concat sections)) <= sl_size sl ->
  exists mk w', write_sections (Some (sl_next sl)) sections w = (Ok (Some mk), w') /\
    represents w' (l1 ++ extend sl (concat sections) mk :: l2).
Proof.
  induction sections as [|s sections IH]; intros w l1 sl l2 Hw Hf Hlen.
  - exists (sl_next sl), w. split; [done|]. unfold extend. cbn [concat]. rewrite app_nil_r. by destruct sl.
  - simpl in Hlen. rewrite length_app in Hlen.
    destruct (write_bytes_law w l1 sl l2 s Hw Hf) as (mk & w' & Hr & Hw'); [lia|].
    destruct (IH w' l1 (extend sl s mk) l2 Hw' Hf) as (mk' & w'' & Hr' & Hw'').
    { simpl. rewrite length_app. lia. }
    exists mk', w''. cbn [write_sections concat]. unfold bind. rewrite Hr. split; [done|].
    by rewrite <- extend_extend with (mk1 := mk).
Qed.

(** Once [prepare] has returned a marker, the message is written whole. *)
Lemma write_multiple_prepared w l c mk id w1 :
  prepare (call_message c) (total_size c) (call_wait c) w = (Ok (Some mk, id), w1) ->
  represents w1 (l ++ [open_slot (call_message c) (total_size c) mk]) ->
  exists sl w', write_multiple c w = (Ok true, w') /\ represents w' (l ++ [sl]) /\
    sl_finished sl = true /\ frame sl = (call_message c, payload c).
Proof.
  intros Hp Hr. unfold write_multiple, bind. rewrite Hp. simpl.
  destruct (write_sections_spec (call_sections c) w1 l (open_slot (call_message c) (total_size c) mk) [] Hr) as (mk' & w2 & Hs & Hw2);
    [done|simpl; fold (payload c); rewrite length_payload; lia|].
  simpl in Hs. rewrite Hs. simpl in Hw2.
  destruct (finish_law w2 l _ [] Hw2) as (w3 & Hf & Hw3); [done|simpl; fold (payload c); by rewrite length_payload|].
  simpl in Hf. rewrite Hf. eexists _, w3. split; [by rewrite bool_decide_true|]. done.
Qed.
End laws.

(** Generic lemmas on pairs in the order of a list. *)

Lemma ordpairs_app_inv {A} (R : A -> A -> Prop) l1 x l2 :
  ForallOrdPairs R (l1 ++ x :: l2) -> Forall (fun y => R y x) l1.
Proof.
  induction l1 as [|y l1 IH]; intros Hr; [done|]. inversion Hr as [|? ? Hy Hr']; subst. constructor; [|auto].
  by apply Forall_app in Hy as [_ Hy]; inversion Hy.
Qed.

Lemma ordpairs_replace {A} (R : A -> A -> Prop) l1 x x' l2 :
  (forall y, R y x -> R y x') -> (forall y, R x y -> R x' y) ->
  ForallOrdPairs R (l1 ++ x :: l2) -> ForallOrdPairs R (l1 ++ x' :: l2).
Proof.
  intros H1 H2. induction l1 as [|y l1 IH]; simpl; intros Hr; inversion Hr as [|? ? Hy Hr']; subst.
  - constructor; [|done]. eapply Forall_impl; [exact Hy|done].
  - constructor; [|auto]. apply Forall_app in Hy as [Ha Hb]. inversion Hb; subst.
    apply Forall_app. split; [done|]. constructor; auto.
Qed.

Lemma ordpairs_snoc {A} (R : A -> A -> Prop) l x :
  ForallOrdPairs R l -> Forall (fun y => R y x) l -> ForallOrdPairs R (l ++ [x]).
Proof.
  induction 1 as [|y l Hy _ IH]; simpl; intros Hx; [repeat constructor|].
  inversion Hx; subst. constructor; [|auto]. apply Forall_app. split; [done|by constructor].
Qed.

Lemma in_middle {A} (x : A) l1 l2 : x ∈ (l1 ++ x :: l2)%list.
Proof. apply elem_of_app. right. apply list_elem_of_here. Qed.

(** ** A concrete writer

    A writer over a list of messages, with which the definitions evaluate. A
    caller that does not wait is refused when [mb_room] is used up. *)
Record Mailbox := mkMailbox { mb_slots : list Slot; mb_room : nat }.

Definition mb_span : N := 2 ^ 40.

Definition is_open (sl : Slot) : bool := negb (sl_finished sl).

Definition mb_update (find : Slot -> bool) (f : Slot -> Slot) : list Slot -> list Slot :=
  fix go l :=
    match l with
    | [] => []
    | sl :: l => if is_open sl && find sl then f sl :: l else sl :: go l
    end.

Definition mb_marker (l : list Slot) : N :=
  if existsb (fun sl => is_open sl && (sl_initial sl =? 0)) l then mb_span else 0.

Definition mb_prepare (m size : N) (wait : bool) : M Mailbox (option N * option N) := fun b =>
  let mk := mb_marker (mb_slots b) in
  if wait || (0 <? mb_room b)%nat
  then (Ok (Some mk, Some (N.of_nat (length (mb_slots b)))),
        mkMailbox (mb_slots b ++ [open_slot m size mk])%list (mb_room b - 1))
  else (Ok (None, None), b).

Definition mb_write_bytes (marker : option N) (bs : bytes) : M Mailbox (option N) := fun b =>
  match marker with
  | Some mk =>
      let next := mk + N.of_nat (length bs) in
      (Ok (Some next), mkMailbox (mb_update (fun sl => sl_next sl =? mk) (fun sl => extend sl bs next) (mb_slots b)) (mb_room b))
  | None => (Ok None, b)
  end.

Definition mb_finish (marker : option N) : M Mailbox unit := fun b =>
  match marker with
  | Some mk => (Ok tt, mkMailbox (mb_update (fun sl => sl_initial sl =? mk) close (mb_slots b)) (mb_room b))
  | None => (Ok tt, b)
  end.

#[export] Instance Mailbox_writer : AbstractWriter Mailbox :=
  { prepare := mb_prepare; write_bytes := mb_write_bytes; finish := mb_finish }.

(** Two messages that are being written have different markers. *)
Definition mb_apart (s1 s2 : Slot) : Prop := is_open s1 = true -> is_open s2 = true -> sl_initial s1 <> sl_initial s2.

Record mb_ok (l : list Slot) : Prop := {
  mo_slots : Forall (fun sl => is_open sl = true ->
    (sl_initial sl = 0 \/ sl_initial sl = mb_span) /\ sl_size sl < mb_span /\
    sl_next sl = sl_initial sl + N.of_nat (length (sl_data sl)) /\ N.of_nat (length (sl_data sl)) <= sl_size sl) l;
  mo_apart : ForallOrdPairs mb_apart l;
}.

Definition mb_represents (b : Mailbox) (l : list Slot) : Prop := mb_slots b = l /\ mb_ok l.

Lemma mb_update_hit find f l1 sl l2 :
  is_open sl = true -> find sl = true -> Forall (fun s => is_open s = true -> find s = false) l1 ->
  mb_update find f (l1 ++ sl :: l2) = (l1 ++ f sl :: l2)%list.
Proof.
  intros Ho Hf. induction 1 as [|s l1 Hs _ IH]; simpl; [by rewrite Ho, Hf|].
  destruct (is_open s); [rewrite Hs by done|]; by rewrite IH.
Qed.

(** In a good state, no earlier message is taken for one that is being written. *)
Lemma mb_before l1 sl l2 : mb_ok (l1 ++ sl :: l2) -> is_open sl = true ->
  Forall (fun s => is_open s = true -> (sl_initial s =? sl_initial sl) = false /\ (sl_next s =? sl_next sl) = false) l1.
Proof.
  intros [Hs Ha] Ho. apply ordpairs_app_inv in Ha. apply Forall_app in Hs as [Hs1 Hs2]. inversion Hs2 as [|? ? Hsl _]; subst.
  specialize (Hsl Ho). apply Forall_forall. intros s Hin Hos.
  pose proof (proj1 (Forall_forall _ _) Hs1 s Hin Hos) as Hs. pose proof (proj1 (Forall_forall _ _) Ha s Hin Hos Ho) as Hne.
  rewrite !N.eqb_neq. simpl in *. unfold mb_span in *. lia.
Qed.

Lemma mb_replace l1 sl sl' l2 :
  mb_ok (l1 ++ sl :: l2) -> is_open sl = true ->
  (is_open sl' = true -> sl_initial sl' = sl_initial sl /\ sl_size sl' = sl_size sl /\
     sl_next sl' = sl_initial sl + N.of_nat (length (sl_data sl')) /\ N.of_nat (length (sl_data sl')) <= sl_size sl) ->
  mb_ok (l1 ++ sl' :: l2).
Proof.
  intros [Hs Ha] Ho Hsl'. apply Forall_app in Hs as [Hs1 Hs2]. inversion Hs2 as [|? ? Hsl Hs2']; subst. specialize (Hsl Ho). split.
  - apply Forall_app. split; [done|]. constructor; [|done]. intros Ho'. destruct (Hsl' Ho') as (-> & -> & -> & ?). simpl in *. lia.
  - revert Ha. apply ordpairs_replace; unfold mb_apart; intros y Hy H1 H2.
    + destruct (Hsl' H2) as (-> & _). by apply Hy.
    + destruct (Hsl' H1) as (-> & _). by apply Hy.
Qed.

Lemma mb_prepare_law b l m size wait :
  mb_represents b l -> size < mb_span -> (open_count l <= 1)%nat ->
  exists marker id b', mb_prepare m size wait b = (Ok (marker, id), b') /\
    match marker with
    | Some mk => mb_represents b' (l ++ [open_slot m size mk])
    | None => wait = false /\ mb_represents b' l
    end.
Proof.
  intros [<- [Hs Ha]] Hsize Ho. unfold mb_prepare. destruct (wait || (0 <? mb_room b)%nat) eqn:Hw.
  2: { apply orb_false_iff in Hw as [-> _]. by exists None, None, b. }
  eexists (Some _), _, _. split; [done|]. split; [done|]. split.
  - apply Forall_app. split; [done|]. constructor; [|done]. intros _. simpl. unfold mb_marker. destruct (existsb _ _); split_and!; auto; lia.
  - apply ordpairs_snoc; [done|]. apply Forall_forall. intros s Hin Hos _. simpl. unfold mb_marker.
    destruct (existsb _ _) eqn:He.
    + apply existsb_exists in He as (s0 & Hs0 & Hz%andb_prop). destruct Hz as [Hos0 Hz%N.eqb_eq]. apply list_elem_of_In in Hs0.
      intros Hsp. assert (s <> s0) as Hne by (intros ->; unfold mb_span in *; lia). 
      assert (1 < open_count (mb_slots b))%nat; [|lia]. apply (open_count_two _ s s0); auto; by apply negb_true_iff.
    + intros Hz. assert (existsb (fun sl => is_open sl && (sl_initial sl =? 0)) (mb_slots b) = true) as He'; [|congruence].
      apply existsb_exists. exists s. by rewrite <- list_elem_of_In, Hos, Hz.
Qed.

Lemma mb_write_bytes_law b l1 sl l2 bs :
  mb_represents b (l1 ++ sl :: l2) -> sl_finished sl = false ->
  N.of_nat (length (sl_data sl)) + N.of_nat (length bs) <= sl_size sl ->
  exists mk b', mb_write_bytes (Some (sl_next sl)) bs b = (Ok (Some mk), b') /\ mb_represents b' (l1 ++ extend sl bs mk :: l2).
Proof.
  intros [Hb Hok] Hf Hlen. assert (is_open sl = true) as Ho by (unfold is_open; by rewrite Hf).
  pose proof (mb_before _ _ _ Hok Ho) as Hbef. unfold mb_write_bytes. eexists _, _. split; [done|]. split; simpl.
  - rewrite Hb. apply mb_update_hit; [done|apply N.eqb_refl|]. eapply Forall_impl; [exact Hbef|]. intros s Hs Hos. by apply Hs.
  - eapply mb_replace; [exact Hok|done|]. intros _. simpl. pose proof (mo_slots _ Hok) as Hs. apply Forall_app in Hs as [_ Hs].
    inversion Hs as [|? ? Hsl _]; subst. specialize (Hsl Ho). simpl in Hsl. rewrite length_app. split_and!; try done; lia.
Qed.

Lemma mb_finish_law b l1 sl l2 :
  mb_represents b (l1 ++ sl :: l2) -> sl_finished sl = false -> N.of_nat (length (sl_data sl)) = sl_size sl ->
  exists b', mb_finish (Some (sl_initial sl)) b = (Ok tt, b') /\ mb_represents b' (l1 ++ close sl :: l2).
Proof.
  intros [Hb Hok] Hf Hlen. assert (is_open sl = true) as Ho by (unfold is_open; by rewrite Hf).
  pose proof (mb_before _ _ _ Hok Ho) as Hbef. unfold mb_finish. eexists. split; [done|]. split; simpl.
  - rewrite Hb. apply mb_update_hit; [done|apply N.eqb_refl|]. eapply Forall_impl; [exact Hbef|]. intros s Hs Hos. by apply Hs.
  - eapply mb_replace; [exact Hok|done|]. done.
Qed.

Lemma mb_bound b l sl : mb_represents b l -> sl ∈ l -> sl_finished sl = false ->
  sl_initial sl <= 2 * mb_span /\ sl_next sl <= 2 * mb_span.
Proof.
  intros [_ [Hs _]] Hin Hf. assert (is_open sl = true) as Ho by (unfold is_open; by rewrite Hf).
  pose proof (proj1 (Forall_forall _ _) Hs sl Hin Ho). simpl in *. unfold mb_span in *. lia.
Qed.

Lemma mb_interferes b b' l : mb_represents b l -> mb_slots b' = mb_slots b -> mb_represents b' l.
Proof. intros [<- Hok] Hs. by split. Qed.

#[export] Instance Mailbox_laws : WriterLaws Mailbox := {|
  represents := mb_represents;
  accepts := fun _ size => size < mb_span;
  interferes := fun b b' => mb_slots b' = mb_slots b;
  interferes_represents := mb_interferes;
  prepare_law := mb_prepare_law;
  write_bytes_law := mb_write_bytes_law;
  finish_law := mb_finish_law;
|}.

#[export] Instance Mailbox_bounded : BoundedMarkers Mailbox (2 * mb_span) := mb_bound.
End Writers.
