(* ===== verification/NonBlocking.v ===== *)
(** * Writers that do not block

    [ringbuffer::NonBlockingWriter] and the flushing of
    [NonBlockingWriterFactory] (src/ds/non_blocking.h). The host wraps every
    writer to the enclave in one: a message that does not fit is queued, and
    the queue is flushed later. The wrapper keeps the promises of the writer it
    wraps, never refuses a message, and keeps messages that are not empty in
    order. *)

From S2P Require Import Prelude LedgerEntries RingBuffer RingBufferInv Writers.

Module NonBlocking.
Import RingBuffer RingBufferInv Writers.
Open Scope N_scope.

(** The address of a new block of a size, given the blocks that are live: what
    [std::vector<uint8_t>(size).data()] is. *)
Class Allocator := alloc : list (N * N) -> N -> N.

Record PendingMessage := mkPending {
  pm_m : N;
  pm_marker : N;
  pm_finished : bool;
  pm_addr : N;     (* buffer.data() *)
  pm_buffer : bytes;
}.

Definition pm_size (p : PendingMessage) : N := N.of_nat (length (pm_buffer p)).
Definition block_of (p : PendingMessage) : N * N := (pm_addr p, pm_size p).

Record NonBlockingWriter (W : Type) := mkNonBlocking { underlying_writer : W; pending : list PendingMessage }.
Arguments mkNonBlocking {_}.
Arguments underlying_writer {_}.
Arguments pending {_}.

Section writer.
Context {W : Type} `{AbstractWriter W} `{Allocator}.

Definition set_pending (l : list PendingMessage) (n : NonBlockingWriter W) : NonBlockingWriter W :=
  mkNonBlocking (underlying_writer n) l.

(** A call to the underlying writer. *)
Definition underlying {A} (m : M W A) : M (NonBlockingWriter W) A := fun n =>
  let '(r, w) := m (underlying_writer n) in (r, mkNonBlocking w (pending n)).

Definition enqueue (m total_size : N) : M (NonBlockingWriter W) (option N * option N) :=
  l <- gets pending ;;;
  let addr := alloc (block_of <$> l) total_size in
  modify (set_pending (l ++ [mkPending m addr false addr (replicate (N.to_nat total_size) Byte.x00)])%list) ;;;
  ret (Some addr, None).

Definition nb_prepare (m total_size : N) (_ : bool) : M (NonBlockingWriter W) (option N * option N) :=
  l <- gets pending ;;;
  match l with
  | [] =>
      p <- underlying (prepare m total_size false) ;;;
      match p.1 with
      | Some _ => ret p
      | None => enqueue m total_size
      end
  | _ => enqueue m total_size
  end.

(** The first pending message that starts at the marker. *)
Fixpoint finish_pending (marker : N) (l : list PendingMessage) : option (list PendingMessage) :=
  match l with
  | [] => None
  | p :: l =>
      if pm_addr p =? marker
      then Some (mkPending (pm_m p) (pm_marker p) true (pm_addr p) (pm_buffer p) :: l)
      else cons p <$> finish_pending marker l
  end.

Definition nb_finish (marker : option N) : M (NonBlockingWriter W) unit :=
  l <- gets pending ;;;
  match marker with
  | Some mk =>
      match finish_pending mk l with
      | Some l' => modify (set_pending l')
      | None => underlying (finish marker)
      end
  | None => underlying (finish marker)
  end.

(** The first unfinished message whose next write is at the marker; [None]
    when there is none. *)
Fixpoint write_pending (marker : N) (b : bytes) (l : list PendingMessage)
  : option (result (N * list PendingMessage)) :=
  match l with
  | [] => None
  | p :: l =>
      if negb (pm_finished p) && (pm_marker p =? marker) then
        Some
          (if marker <? pm_addr p
           then Throw (RuntimeError "Invalid pending marker - writing before buffer")
           else if pm_addr p + pm_size p <? marker + N.of_nat (length b)
           then Throw (RuntimeError "Invalid pending marker - write extends beyond buffer")
           else
             let next := marker + N.of_nat (length b) in
             Ok (next, mkPending (pm_m p) next (pm_finished p) (pm_addr p)
                         (splice (marker - pm_addr p) b (pm_buffer p)) :: l))
      else
        match write_pending marker b l with
        | Some (Ok (next, l')) => Some (Ok (next, p :: l'))
        | r => r
        end
  end.

Definition nb_write_bytes (marker : option N) (b : bytes) : M (NonBlockingWriter W) (option N) :=
  l <- gets pending ;;;
  match marker with
  | Some mk =>
      match write_pending mk b l with
      | Some (Ok (next, l')) => modify (set_pending l') ;;; ret (Some next)
      | Some (Throw e) => throw e
      | None => underlying (write_bytes marker b)
      end
  | None => underlying (write_bytes marker b)
  end.

(** The loop ends when the queue is empty, so its length bounds it. *)
Fixpoint flush_loop (fuel : nat) : M (NonBlockingWriter W) unit :=
  match fuel with
  | O => ret tt
  | S fuel =>
      l <- gets pending ;;;
      match l with
      | [] => ret tt
      | next :: rest =>
          if negb (pm_finished next) then ret tt
          else
            p <- underlying (prepare (pm_m next) (pm_size next) false) ;;;
            match p.1 with
            | None => ret tt
            | Some _ =>
                underlying (write_bytes p.1 (pm_buffer next)) ;;;
                underlying (finish p.1) ;;;
                modify (set_pending rest) ;;;
                flush_loop fuel
            end
      end
  end.

Definition try_flush_pending : M (NonBlockingWriter W) bool :=
  l <- gets pending ;;;
  flush_loop (length l) ;;;
  gets (fun n => bool_decide (pending n = [])).

#[export] Instance NonBlocking_writer : AbstractWriter (NonBlockingWriter W) := {
  prepare := nb_prepare;
  write_bytes := nb_write_bytes;
  finish := nb_finish;
}.
End writer.

(** ** The promises of a writer are kept *)

(** Blocks are above the markers of the underlying writer and do not touch. An
    empty vector has no block. *)
Class AllocatorLaws (bound : N) `{Allocator} := {
  alloc_above live size : 0 < size -> bound < alloc live size;
  alloc_apart live size a n :
    0 < size -> (a, n) ∈ live -> alloc live size + size < a \/ a + n < alloc live size;
  alloc_empty live : alloc live 0 = 0;
}.

(** The message a queued message stands for. *)
Definition slot_of (p : PendingMessage) : Slot :=
  let sl := mkSlot (pm_m p) (pm_size p) (take (N.to_nat (pm_marker p - pm_addr p)) (pm_buffer p))
              (pm_addr p) (pm_marker p) false in
  if pm_finished p then close sl else sl.

Record pending_ok (bound : N) (p : PendingMessage) : Prop := {
  po_nonempty : 0 < pm_size p;
  po_above : bound < pm_addr p;
  po_marker : pm_addr p <= pm_marker p <= pm_addr p + pm_size p;
  po_full : pm_finished p = true -> pm_marker p = pm_addr p + pm_size p;
}.

(** Two blocks do not touch. *)
Definition apart (p q : PendingMessage) : Prop :=
  pm_addr p + pm_size p < pm_addr q \/ pm_addr q + pm_size q < pm_addr p.

Lemma slot_of_unfinished p : sl_finished (slot_of p) = false ->
  pm_finished p = false /\
  slot_of p = mkSlot (pm_m p) (pm_size p) (take (N.to_nat (pm_marker p - pm_addr p)) (pm_buffer p)) (pm_addr p) (pm_marker p) false.
Proof. unfold slot_of. by destruct (pm_finished p). Qed.

Lemma take_splice i b l : i + N.of_nat (length b) <= N.of_nat (length l) ->
  take (N.to_nat (i + N.of_nat (length b))) (splice i b l) = (take (N.to_nat i) l ++ b)%list.
Proof.
  intros Hi. unfold splice. rewrite app_assoc, take_app_length'; [done|]. rewrite length_app, length_take. lia.
Qed.

Lemma finish_pending_skip bound mk l : Forall (pending_ok bound) l -> mk <= bound -> finish_pending mk l = None.
Proof.
  induction 1 as [|p l Hp _ IH]; intros Hmk; [done|]. simpl. pose proof (po_above _ _ Hp).
  destruct (N.eqb_spec (pm_addr p) mk); [lia|]. by rewrite IH.
Qed.

Lemma write_pending_skip bound mk b l : Forall (pending_ok bound) l -> mk <= bound -> write_pending mk b l = None.
Proof.
  induction 1 as [|p l Hp _ IH]; intros Hmk; [done|]. simpl. pose proof (po_above _ _ Hp). pose proof (po_marker _ _ Hp).
  destruct (N.eqb_spec (pm_marker p) mk); [lia|]. by rewrite andb_false_r, IH.
Qed.

Definition finished_pending (p : PendingMessage) : PendingMessage :=
  mkPending (pm_m p) (pm_marker p) true (pm_addr p) (pm_buffer p).
Definition written_pending (p : PendingMessage) (b : bytes) : PendingMessage :=
  mkPending (pm_m p) (pm_marker p + N.of_nat (length b)) (pm_finished p) (pm_addr p)
    (splice (pm_marker p - pm_addr p) b (pm_buffer p)).

Lemma finish_pending_hit l1 p l2 :
  Forall (fun q => apart q p) l1 -> finish_pending (pm_addr p) (l1 ++ p :: l2) = Some (l1 ++ finished_pending p :: l2)%list.
Proof.
  induction 1 as [|q l1 Hq _ IH]; simpl; [by rewrite N.eqb_refl|].
  destruct (N.eqb_spec (pm_addr q) (pm_addr p)); [destruct Hq; lia|]. by rewrite IH.
Qed.

Lemma write_pending_hit bound b l1 p l2 :
  Forall (pending_ok bound) l1 -> pending_ok bound p -> Forall (fun q => apart q p) l1 -> pm_finished p = false ->
  pm_marker p + N.of_nat (length b) <= pm_addr p + pm_size p ->
  write_pending (pm_marker p) b (l1 ++ p :: l2) =
    Some (Ok (pm_marker p + N.of_nat (length b), l1 ++ written_pending p b :: l2)%list).
Proof.
  intros H1 Hp Ha Hf Hb. pose proof (po_marker _ _ Hp) as Hm. induction Ha as [|q l1 Hq _ IH]; simpl.
  - rewrite Hf, N.eqb_refl. simpl. destruct (N.ltb_spec (pm_marker p) (pm_addr p)); [lia|].
    destruct (N.ltb_spec (pm_addr p + pm_size p) (pm_marker p + N.of_nat (length b))); [lia|].
    unfold written_pending. by rewrite Hf.
  - inversion H1 as [|? ? Hqo H1']; subst. pose proof (po_marker _ _ Hqo).
    destruct (N.eqb_spec (pm_marker q) (pm_marker p)); [destruct Hq; lia|]. by rewrite andb_false_r, IH.
Qed.

Section proofs.
Context {W : Type} (bound : N) `{HL : BoundedMarkers W bound} `{HA : !Allocator} `{!AllocatorLaws bound}.

(** The messages are those of the underlying writer, then those queued. *)
Record nb_represents (n : NonBlockingWriter W) (l : list Slot) : Prop := {
  nr_split : exists lu, l = (lu ++ (slot_of <$> pending n))%list /\ represents (underlying_writer n) lu;
  nr_pending : Forall (pending_ok bound) (pending n);
  nr_apart : ForallOrdPairs apart (pending n);
  nr_accepts : Forall (fun p => accepts (pm_m p) (pm_size p)) (pending n);
}.

(** A message that is not finished is either with the underlying writer or in
    the queue. *)
Lemma nb_locate n l1 sl l2 :
  nb_represents n (l1 ++ sl :: l2) -> sl_finished sl = false ->
  (exists k, l2 = (k ++ (slot_of <$> pending n))%list /\ represents (underlying_writer n) (l1 ++ sl :: k)) \/
  (exists lu q1 p q2, pending n = (q1 ++ p :: q2)%list /\ l1 = (lu ++ (slot_of <$> q1))%list /\ sl = slot_of p /\
     l2 = slot_of <$> q2 /\ represents (underlying_writer n) lu /\ Forall (fun q => apart q p) q1).
Proof.
  intros Hn Hf. destruct (nr_split _ _ Hn) as (lu & Hl & Hu).
  apply app_eq_inv in Hl as [(k & Hl1 & Hl2)|(k & Hl1 & Hl2)].
  - right. apply fmap_app_inv in Hl2 as (q1 & q2 & -> & Hq2 & Hp).
    destruct q2 as [|p q2]; [done|]. simplify_eq/=. exists lu, q1, p, q2. split_and!; try done.
    pose proof (nr_apart _ _ Hn) as Ha. rewrite Hp in Ha. by apply ordpairs_app_inv in Ha.
  - destruct k as [|sl' k]; simplify_eq/=.
    + right. rewrite app_nil_r in Hu. destruct (pending n) as [|p q2] eqn:Hp; [done|]. simplify_eq/=.
      exists l1, [], p, q2. by rewrite app_nil_r.
    + left. by exists k.
Qed.

(** One queued message is replaced by another over the same block. *)
Lemma nb_replace w q1 p p' q2 lu :
  nb_represents (mkNonBlocking w (q1 ++ p :: q2)) (lu ++ (slot_of <$> q1 ++ p :: q2)) -> represents w lu ->
  block_of p' = block_of p -> pm_m p' = pm_m p -> pending_ok bound p' ->
  nb_represents (mkNonBlocking w (q1 ++ p' :: q2)) ((lu ++ (slot_of <$> q1)) ++ slot_of p' :: (slot_of <$> q2)).
Proof.
  intros [_ Hp Ha Hc] Hu Hb Hm Hok. simpl in *. injection Hb as Hb1 Hb2. constructor; simpl.
  - exists lu. split; [|done]. by rewrite fmap_app, fmap_cons, <- app_assoc.
  - apply Forall_app in Hp as [H1 H2]. inversion H2; subst. apply Forall_app. split; [done|by constructor].
  - revert Ha. apply ordpairs_replace; unfold apart; intros y; rewrite Hb1, Hb2; done.
  - apply Forall_app in Hc as [H1 H2]. inversion H2; subst. apply Forall_app. split; [done|].
    constructor; [by rewrite Hm, Hb2|done].
Qed.

Lemma nb_write_bytes_law n l1 sl l2 b :
  nb_represents n (l1 ++ sl :: l2) -> sl_finished sl = false ->
  N.of_nat (length (sl_data sl)) + N.of_nat (length b) <= sl_size sl ->
  exists mk n', nb_write_bytes (Some (sl_next sl)) b n = (Ok (Some mk), n') /\ nb_represents n' (l1 ++ extend sl b mk :: l2).
Proof.
  intros Hn Hf Hb. pose proof (nr_pending _ _ Hn) as Hok. unfold nb_write_bytes, bind, gets.
  destruct (nb_locate _ _ _ _ Hn Hf) as [(k & -> & Hu)|(lu & q1 & p & q2 & Hp & -> & -> & -> & Hu & Ha)].
  - destruct (represents_bound _ _ _ Hu (in_middle _ _ _) Hf) as [_ Hmk].
    rewrite (write_pending_skip _ _ _ _ Hok Hmk). destruct (write_bytes_law _ _ _ _ b Hu Hf Hb) as (mk & w' & Hr & Hw).
    unfold underlying. rewrite Hr. exists mk, (mkNonBlocking w' (pending n)). split; [done|]. destruct Hn as [_ H1 H2 H3].
    constructor; simpl; [|done..]. exists (l1 ++ extend sl b mk :: k). by rewrite <- app_assoc.
  - destruct (slot_of_unfinished p Hf) as [Hfp Hsl]. rewrite Hsl in Hb |- *. simpl in Hb. cbn [sl_next].
    destruct n as [w pend]. simpl in *. subst pend. apply Forall_app in Hok as [Hok1 Hok2]. inversion Hok2 as [|? ? Hpo _]; subst.
    pose proof (po_marker _ _ Hpo) as Hmk. rewrite length_take in Hb. unfold pm_size in *.
    rewrite (write_pending_hit bound) by (done || unfold pm_size; lia). unfold modify, ret. simpl.
    eexists _, _. split; [done|].
    assert (extend (slot_of p) b (pm_marker p + N.of_nat (length b)) = slot_of (written_pending p b)) as Hext.
    { rewrite Hsl. unfold slot_of, written_pending, extend, pm_size. rewrite Hfp. simpl.
      rewrite length_splice by lia. f_equal. rewrite <- take_splice by lia. f_equal. lia. }
    rewrite <- Hsl, Hext. apply (nb_replace w q1 p); [|done| | |].
    + revert Hn. by rewrite fmap_app, fmap_cons, <- app_assoc.
    + unfold block_of, pm_size. simpl. by rewrite length_splice by lia.
    + done.
    + destruct Hpo as [E1 E2 E3 E4]. split; unfold pm_size in *; simpl; rewrite ?length_splice by lia; try lia. by rewrite Hfp.
Qed.

Lemma nb_finish_law n l1 sl l2 :
  nb_represents n (l1 ++ sl :: l2) -> sl_finished sl = false -> N.of_nat (length (sl_data sl)) = sl_size sl ->
  exists n', nb_finish (Some (sl_initial sl)) n = (Ok tt, n') /\ nb_represents n' (l1 ++ close sl :: l2).
Proof.
  intros Hn Hf Hb. pose proof (nr_pending _ _ Hn) as Hok. unfold nb_finish, bind, gets.
  destruct (nb_locate _ _ _ _ Hn Hf) as [(k & -> & Hu)|(lu & q1 & p & q2 & Hp & -> & -> & -> & Hu & Ha)].
  - destruct (represents_bound _ _ _ Hu (in_middle _ _ _) Hf) as [Hmk _].
    rewrite (finish_pending_skip _ _ _ Hok Hmk). destruct (finish_law _ _ _ _ Hu Hf Hb) as (w' & Hr & Hw).
    unfold underlying. rewrite Hr. exists (mkNonBlocking w' (pending n)). split; [done|]. destruct Hn as [_ H1 H2 H3].
    constructor; simpl; [|done..]. exists (l1 ++ close sl :: k). by rewrite <- app_assoc.
  - destruct (slot_of_unfinished p Hf) as [Hfp Hsl]. rewrite Hsl in Hb |- *. simpl in Hb. cbn [sl_initial].
    destruct n as [w pend]. simpl in *. subst pend. apply Forall_app in Hok as [Hok1 Hok2]. inversion Hok2 as [|? ? Hpo _]; subst.
    pose proof (po_marker _ _ Hpo) as Hmk. rewrite length_take in Hb. unfold pm_size in *.
    rewrite finish_pending_hit by done. unfold modify. eexists. split; [done|].
    assert (close (slot_of p) = slot_of (finished_pending p)) as Hcl by (rewrite Hsl; done).
    rewrite <- Hsl, Hcl. apply (nb_replace w q1 p); [|done|done|done|].
    + revert Hn. by rewrite fmap_app, fmap_cons, <- app_assoc.
    + destruct Hpo as [E1 E2 E3 E4]. split; unfold pm_size in *; simpl; try lia.
Qed.

Lemma enqueue_spec n l m size :
  nb_represents n l -> 0 < size -> accepts m size ->
  exists mk n', enqueue m size n = (Ok (Some mk, None), n') /\ nb_represents n' (l ++ [open_slot m size mk]).
Proof.
  intros [(lu & -> & Hu) Hp Ha Hc] Hs Hacc. unfold enqueue, bind, gets, modify, ret, set_pending.
  set (a := alloc (block_of <$> pending n) size). eexists a, _. split; [done|].
  assert (pm_size (mkPending m a false a (replicate (N.to_nat size) Byte.x00)) = size) as Hsz
    by (unfold pm_size; simpl; rewrite length_replicate; lia).
  assert (bd := alloc_above (block_of <$> pending n) size Hs). fold a in bd. constructor; simpl.
  - exists lu. split; [|done]. rewrite fmap_app, app_assoc. simpl. unfold slot_of, open_slot. simpl.
    by rewrite Hsz, N.sub_diag.
  - apply Forall_app. split; [done|]. constructor; [|done]. split; rewrite ?Hsz; simpl; lia || done.
  - apply ordpairs_snoc; [done|]. apply Forall_forall. intros p Hpin. unfold apart. rewrite Hsz. simpl.
    destruct (alloc_apart (block_of <$> pending n) size (pm_addr p) (pm_size p) Hs) as [H1|H1].
    + apply list_elem_of_fmap. by exists p.
    + right. exact H1.
    + left. exact H1.
  - apply Forall_app. split; [done|]. constructor; [|done]. by rewrite Hsz.
Qed.

Lemma nb_prepare_spec n l m size wait :
  nb_represents n l -> 0 < size -> accepts m size -> (open_count l <= 1)%nat ->
  exists mk id n', nb_prepare m size wait n = (Ok (Some mk, id), n') /\ nb_represents n' (l ++ [open_slot m size mk]).
Proof.
  intros Hn Hs Hacc Ho. unfold nb_prepare, bind, gets. destruct (pending n) as [|p q] eqn:Hp.
  - destruct (nr_split _ _ Hn) as (lu & Hl & Hu). rewrite Hp, app_nil_r in Hl. subst lu.
    destruct (prepare_law _ _ m size false Hu Hacc Ho) as (marker & id & w' & Hr & Hw). unfold underlying. rewrite Hr, Hp. simpl.
    assert (forall l', represents w' l' -> nb_represents (mkNonBlocking w' []) l') as Hrep.
    { intros l' Hl'. constructor; simpl; try constructor. exists l'. by rewrite app_nil_r. }
    destruct marker as [mk|].
    + eexists _, _, _. split; [done|]. by apply Hrep.
    + destruct Hw as [_ Hw]. destruct (enqueue_spec _ l m size (Hrep _ Hw) Hs Hacc) as (mk & n' & He & Hn'). by eexists _, _, _.
  - destruct (enqueue_spec _ l m size Hn Hs Hacc) as (mk & n' & He & Hn'). by eexists _, _, _.
Qed.

(** The underlying writer has room for every message. *)
Definition has_room : Prop := forall w l m size,
  represents w l -> accepts m size -> (open_count l <= 1)%nat ->
  exists mk id w', prepare m size false w = (Ok (Some mk, id), w').

(** A queued message that is finished moves to the underlying writer. *)
Lemma flush_loop_spec fuel : forall n l, nb_represents n l -> (open_count l <= 1)%nat ->
  exists n', flush_loop fuel n = (Ok tt, n') /\ nb_represents n' l /\
    (has_room -> Forall (fun p => pm_finished p = true) (pending n) -> (length (pending n) <= fuel)%nat -> pending n' = []).
Proof.
  induction fuel as [|fuel IH]; intros n l Hn Ho.
  { exists n. split_and!; [done|done|]. intros _ _ Hlen. by apply nil_length_inv; lia. }
  cbn [flush_loop]. unfold bind, gets.
  destruct (pending n) as [|p q] eqn:Hp; [by exists n; rewrite Hp|]. destruct (pm_finished p) eqn:Hf.
  2: { exists n. split_and!; [done|done|]. intros _ Hall. inversion Hall. congruence. }
 
  destruct n as [w pend]. simpl in Hp. subst pend. destruct Hn as [(lu & -> & Hu) Hok Ha Hc]. simpl in *.
  inversion Hok as [|? ? Hpo Hok']; subst. inversion Hc as [|? ? Hpc Hc']; subst. inversion Ha as [|? ? _ Ha']; subst.
  destruct (prepare_law _ _ _ _ false Hu Hpc) as (marker & id & w1 & Hr & Hw1).
  { rewrite open_count_app in Ho. lia. }
  unfold underlying at 1. simpl. rewrite Hr. simpl.
  destruct marker as [mk|].
  2: { destruct Hw1 as [_ Hw1]. exists (mkNonBlocking w1 (p :: q)). split_and!; [done| |].
       - constructor; simpl; try done. by exists lu.
       - intros Hroom. destruct (Hroom _ _ _ _ Hu Hpc) as (? & ? & ? & Hsome); [|congruence].
         rewrite open_count_app in Ho. lia. }
  destruct (write_bytes_law w1 lu _ [] (pm_buffer p) Hw1) as (mk' & w2 & Hr2 & Hw2); [done|simpl; unfold pm_size; lia|].
  unfold underlying at 1. simpl in *. rewrite Hr2.
  destruct (finish_law w2 lu _ [] Hw2) as (w3 & Hr3 & Hw3); [done|simpl; unfold pm_size; lia|].
  unfold underlying at 1. simpl in *. rewrite Hr3. unfold modify, set_pending. simpl.
  destruct (IH (mkNonBlocking w3 q) (lu ++ slot_of p :: (slot_of <$> q))%list) as (n' & Hrun & Hn' & Hlen).
  { constructor; simpl; try done. eexists. split; [|exact Hw3]. rewrite <- app_assoc. simpl. do 2 f_equal.
    unfold slot_of, close. rewrite Hf. simpl. f_equal. rewrite (po_full _ _ Hpo Hf).
    replace (N.to_nat _) with (length (pm_buffer p)) by (unfold pm_size; lia). apply take_ge. lia. }
  { exact Ho. }
  exists n'. split; [exact Hrun|]. split; [exact Hn'|]. intros Hroom Hall Hl. inversion Hall; subst.
  apply Hlen; [done|done|simpl in *; lia].
Qed.

Lemma nb_interferes n n' l :
  nb_represents n l -> interferes (underlying_writer n) (underlying_writer n') /\ pending n' = pending n -> nb_represents n' l.
Proof.
  intros [(lu & -> & Hu) Hp Ha Hc] [Hi Hq]. constructor; rewrite Hq; try done.
  exists lu. split; [done|]. by eapply interferes_represents.
Qed.

Lemma nb_prepare_law n l m size wait :
  nb_represents n l -> 0 < size /\ accepts m size -> (open_count l <= 1)%nat ->
  exists marker id n', nb_prepare m size wait n = (Ok (marker, id), n') /\
    match marker with
    | Some mk => nb_represents n' (l ++ [open_slot m size mk])
    | None => wait = false /\ nb_represents n' l
    end.
Proof.
  intros Hn [Hs Hacc] Ho. destruct (nb_prepare_spec n l m size wait Hn Hs Hacc Ho) as (mk & id & n' & Hr & Hn').
  by exists (Some mk), id, n'.
Qed.

#[export] Instance NonBlocking_laws : WriterLaws (NonBlockingWriter W) := {|
  represents := nb_represents;
  accepts := fun m size => 0 < size /\ accepts m size;
  interferes := fun n n' => interferes (underlying_writer n) (underlying_writer n') /\ pending n' = pending n;
    interferes_represents := nb_interferes;
  prepare_law := nb_prepare_law;
  write_bytes_law := nb_write_bytes_law;
  finish_law := nb_finish_law;
|}.

(** ** Use of a writer that does not block

    A writer is called, flushed, and interfered with by the reader and by other
    writers, in any order. *)
Inductive nb_run : NonBlockingWriter W -> list (N * bytes) -> NonBlockingWriter W -> Prop :=
| run_start n : nb_run n [] n
| run_write n l n1 c n2 r :
    nb_run n l n1 -> 0 < total_size c -> accepts (call_message c) (total_size c) ->
    write_multiple c n1 = (r, n2) -> nb_run n (l ++ [(call_message c, payload c)]) n2
| run_flush n l n1 n2 r : nb_run n l n1 -> try_flush_pending n1 = (r, n2) -> nb_run n l n2
| run_interfere n l n1 n2 : nb_run n l n1 -> interferes n1 n2 -> nb_run n l n2.

Lemma nb_write_spec n l c :
  nb_represents n l -> 0 < total_size c -> accepts (call_message c) (total_size c) -> (open_count l <= 1)%nat ->
  exists sl n', write_multiple c n = (Ok true, n') /\ nb_represents n' (l ++ [sl]) /\
    sl_finished sl = true /\ frame sl = (call_message c, payload c).
Proof.
  intros Hn Hs Ha Ho. destruct (nb_prepare_spec n l (call_message c) (total_size c) (call_wait c) Hn Hs Ha Ho) as (mk & id & n1 & Hp & Hn1).
  exact (@write_multiple_prepared _ NonBlocking_writer NonBlocking_laws n l c mk id n1 Hp Hn1).
Qed.

Definition queued (p : PendingMessage) : N * bytes := (pm_m p, pm_buffer p).

Lemma frame_slot_of p : pending_ok bound p -> sl_finished (slot_of p) = true ->
  frame (slot_of p) = queued p /\ pm_finished p = true.
Proof.
  intros Hok. unfold slot_of. destruct (pm_finished p) eqn:Hf; [|done]. intros _. split; [|done].
  unfold frame, queued, close. simpl. f_equal. rewrite (po_full _ _ Hok Hf). apply take_ge. unfold pm_size. lia.
Qed.

Lemma nb_run_represents w ms n :
  represents w [] -> nb_run (mkNonBlocking w []) ms n ->
  exists l, nb_represents n l /\ frame <$> l = ms /\ Forall (fun sl => sl_finished sl = true) l.
Proof.
  intros Hw Hrun. remember (mkNonBlocking w []) as n0 eqn:Hn0. induction Hrun as [|n0 ms n1 c n2 r Hrun IHHrun Hs Ha Hc|n0 ms n1 n2 r Hrun IHHrun Hc|n0 ms n1 n2 Hrun IHHrun Hc]; subst.
  - exists []. split_and!; [|done|done]. constructor; simpl; try constructor. by exists [].
  - destruct (IHHrun eq_refl) as (sls & Hr & <- & Hfin).
    destruct (nb_write_spec n1 sls c Hr) as (sl & n' & Hwr & Hn' & Hf & Hfr); [done|done|rewrite open_count_finished; [lia|done]|].
    assert (n2 = n') as -> by congruence. exists (sls ++ [sl])%list. split_and!; [done| |].
    + rewrite fmap_app. simpl. by rewrite Hfr.
    + apply Forall_app. split; [done|by constructor].
  - destruct (IHHrun eq_refl) as (sls & Hr & Hms & Hfin). exists sls. split_and!; try done.
    revert Hc. unfold try_flush_pending, bind, gets.
    destruct (flush_loop_spec (length (pending n1)) n1 sls Hr) as (n' & Hfl & Hn' & _); [rewrite open_count_finished; [lia|done]|].
    rewrite Hfl. intros [= _ <-]. exact Hn'.
  - destruct (IHHrun eq_refl) as (sls & Hr & Hms & Hfin). exists sls. split_and!; try done. by eapply nb_interferes.
Qed.

(** ** Empty messages *)

(** What is queued behind a message that is not finished is not flushed. *)
Definition ends_unfinished (n : NonBlockingWriter W) : Prop :=
  exists q p, pending n = (q ++ [p])%list /\ pm_finished p = false.

Lemma flush_loop_unfinished fuel n : ends_unfinished n -> ends_unfinished (flush_loop fuel n).2.
Proof.
  revert n. induction fuel as [|fuel IH]; intros n Hn; [done|]. cbn [flush_loop]. unfold bind, gets.
  pose proof Hn as (q & p & Hq & Hp). rewrite Hq. destruct q as [|p0 q]; cbn [app]; [by rewrite Hp|].
  destruct (pm_finished p0); [|done]. cbn [negb]. unfold underlying.
  repeat match goal with
  | |- ends_unfinished (_, _).2 => cbn [snd]
  | |- ends_unfinished (mkNonBlocking _ _) => by exists (p0 :: q), p
  | |- context [let '(r, w) := ?m in (r, mkNonBlocking w _)] => destruct m as [[?|?] ?]
  | |- context [match ?r.1 with Some _ => _ | None => _ end] => destruct r.1
  end.
  - apply (IH (mkNonBlocking w1 (q ++ [p])%list)). by exists q, p.
  - by exists (p0 :: q), p.
Qed.

Lemma flush_unfinished n : ends_unfinished n -> (try_flush_pending n).1 <> Ok true.
Proof.
  intros Hn. unfold try_flush_pending, bind, gets.
  pose proof (flush_loop_unfinished (length (pending n)) n Hn) as Hn'.
  destruct (flush_loop _ n) as [[u|e] n']; [|done]. simpl in *. destruct Hn' as (q & p & -> & _).
  rewrite bool_decide_false; [done|]. by destruct q.
Qed.

(** A message without sections. *)
Definition empty_message (m : N) (finished : bool) : PendingMessage := mkPending m 0 finished 0 [].

Lemma finish_pending_app mk l1 l2 :
  finish_pending mk l1 = None -> finish_pending mk (l1 ++ l2) = app l1 <$> finish_pending mk l2.
Proof.
  induction l1 as [|p l1 IH]; simpl; [by destruct (finish_pending mk l2)|].
  destruct (_ =? _); [done|]. destruct (finish_pending mk l1); [done|]. intros _. rewrite IH by done.
  by destruct (finish_pending mk l2).
Qed.

Lemma write_empty n c l :
  pending n <> [] -> call_sections c = [] ->
  finish_pending 0 (pending n ++ [empty_message (call_message c) false]) = Some l ->
  write_multiple c n = (Ok true, set_pending l n).
Proof.
  intros Hne Hc Hl. unfold write_multiple, total_size. rewrite Hc. cbn [fmap list_fmap sum_list foldr write_sections].
  unfold prepare, NonBlocking_writer, nb_prepare, bind, gets.
  destruct (pending n) as [|p0 q] eqn:Hp; [done|]. unfold enqueue, bind, gets, modify, ret. rewrite Hp.
  assert (alloc (block_of <$> p0 :: q) 0 = 0) as Ha by apply alloc_empty. simpl in *. rewrite Ha.
  unfold finish, nb_finish, bind, gets, set_pending. simpl. unfold empty_message in Hl. cbn in Hl. rewrite Hl. done.
Qed.

(** Two empty messages in a queue: the second is never finished. *)
Lemma empty_messages_stall n c c' :
  Forall (pending_ok bound) (pending n) -> pending n <> [] -> call_sections c = [] -> call_sections c' = [] ->
  exists n1 n2, write_multiple c n = (Ok true, n1) /\ write_multiple c' n1 = (Ok true, n2) /\
    (try_flush_pending n2).1 <> Ok true.
Proof.
  intros Hok Hne Hc Hc'. pose proof (finish_pending_skip bound 0 _ Hok (N.le_0_l _)) as Hskip.
  set (e := empty_message (call_message c)). set (e' := empty_message (call_message c') false).
  assert (write_multiple c n = (Ok true, set_pending (pending n ++ [e true]) n)) as H1.
  { apply write_empty; [done..|]. by rewrite finish_pending_app. }
  assert (write_multiple c' (set_pending (pending n ++ [e true]) n) = (Ok true, set_pending (pending n ++ [e true; e']) n)) as H2.
  { refine (write_empty (set_pending (pending n ++ [e true]) n) c' (pending n ++ [e true; e'])%list _ Hc' _); cbn [pending set_pending].
    - by destruct (pending n).
    - by rewrite <-app_assoc, finish_pending_app. }
  eexists _, _. split; [exact H1|]. split; [exact H2|]. apply flush_unfinished.
  exists (pending n ++ [e true])%list, e'. by rewrite <-app_assoc.
Qed.

(** C32. A writer that does not block keeps every message that is not empty, and
    their order. However its calls, its flushes, the reader and other writers
    are interleaved, what the underlying writer has received followed by the
    queue is exactly what was written, in that order; a further message is
    always taken; a flush moves the queue on, reports whether it is empty, and
    empties it when the underlying writer has room. Empty messages are the
    exception: of two that are queued one after the other, both reported as
    written, the second is not finished, since both have the null pointer for
    a marker, and no flush empties the queue. *)
Theorem non_blocking_fifo w ms n :
  represents w [] -> nb_run (mkNonBlocking w []) ms n ->
  (exists lu, represents (underlying_writer n) lu /\ Forall (fun sl => sl_finished sl = true) lu /\
     ms = ((frame <$> lu) ++ (queued <$> pending n))%list) /\
  (forall c, 0 < total_size c -> accepts (call_message c) (total_size c) ->
     exists n', write_multiple c n = (Ok true, n')) /\
  (exists b n', try_flush_pending n = (Ok b, n') /\ (b = true <-> pending n' = []) /\ (has_room -> b = true)) /\
  (forall c c', pending n <> [] -> call_sections c = [] -> call_sections c' = [] ->
     exists n1 n2, write_multiple c n = (Ok true, n1) /\ write_multiple c' n1 = (Ok true, n2) /\
       (try_flush_pending n2).1 <> Ok true).
Proof.
  intros Hw Hrun. destruct (nb_run_represents w ms n Hw Hrun) as (l & Hr & Hms & Hfin).
  assert (open_count l <= 1)%nat as Ho by (rewrite open_count_finished; [lia|done]).
  assert (Forall (fun p => frame (slot_of p) = queued p /\ pm_finished p = true) (pending n)) as Hq.
  { destruct (nr_split _ _ Hr) as (lu & -> & _). apply Forall_app in Hfin as [_ Hfin]. rewrite Forall_fmap in Hfin.
    apply Forall_forall. intros p Hp. apply frame_slot_of.
    - by apply (proj1 (Forall_forall _ _) (nr_pending _ _ Hr)).
    - by apply (proj1 (Forall_forall _ _) Hfin). }
  split_and!.
  - destruct (nr_split _ _ Hr) as (lu & -> & Hu). exists lu. apply Forall_app in Hfin as [Hfin _]. split_and!; try done.
    rewrite <- Hms, fmap_app, <- list_fmap_compose. f_equal. apply list_fmap_ext. intros i p Hp. simpl.
    by apply (proj1 (Forall_forall _ _) Hq p), list_elem_of_lookup_2 with i.
  - intros c Hs Ha. destruct (nb_write_spec n l c Hr Hs Ha Ho) as (sl & n' & Hwr & _). by exists n'.
  - destruct (flush_loop_spec (length (pending n)) n l Hr Ho) as (n' & Hfl & Hn' & Hroom).
    unfold try_flush_pending, bind, gets. rewrite Hfl. eexists _, n'. split_and!; [done|apply bool_decide_eq_true|].
    intros Hro. apply bool_decide_eq_true, Hroom; [done| |done]. eapply Forall_impl; [exact Hq|]. by intros p [_ Hp].
  - intros c c' Hne Hc Hc'. by apply (empty_messages_stall n c c' (nr_pending _ _ Hr)).
Qed.
End proofs.

(** ** Example *)

(** Blocks are allocated upwards, with a gap after each. *)
#[export] Instance ex_alloc : Allocator := fun live size =>
  if size =? 0 then 0 else 1 + foldr (fun b top => N.max (b.1 + b.2) top) (2 * mb_span) live.

#[export] Instance ex_alloc_laws : AllocatorLaws (2 * mb_span).
Proof.
  split; unfold alloc, ex_alloc; [intros live size Hs|intros live size a n Hs Hin|done].
  - destruct (N.eqb_spec size 0); [lia|]. clear. induction live as [|[a n] live IH]; simpl in *; lia.
  - destruct (N.eqb_spec size 0); [lia|]. right. clear -Hin.
    induction live as [|b live IH]; [by apply not_elem_of_nil in Hin|]. simpl.
    apply elem_of_cons in Hin as [<-|Hin]; [simpl; lia|]. specialize (IH Hin). lia.
Qed.

Definition ex_nb_first : Call := mkCall 5 true [[Byte.x01]; [Byte.x02; Byte.x03]].
Definition ex_nb_second : Call := mkCall 6 true [[Byte.x04]].
Definition ex_nb_start : NonBlockingWriter Mailbox := mkNonBlocking (mkMailbox [] 1) [].
Definition ex_nb_one : NonBlockingWriter Mailbox := (write_multiple ex_nb_first ex_nb_start).2.
Definition ex_nb_two : NonBlockingWriter Mailbox := (write_multiple ex_nb_second ex_nb_one).2.

Lemma ex_nb_run : nb_run (2 * mb_span) ex_nb_start
  [(call_message ex_nb_first, payload ex_nb_first); (call_message ex_nb_second, payload ex_nb_second)] ex_nb_two.
Proof.
  apply (run_write _ _ [(call_message ex_nb_first, payload ex_nb_first)] ex_nb_one ex_nb_second _ (write_multiple ex_nb_second ex_nb_one).1);
    [|done|done|apply surjective_pairing].
  apply (run_write _ _ [] ex_nb_start ex_nb_first _ (write_multiple ex_nb_first ex_nb_start).1);
    [apply run_start|done|done|apply surjective_pairing].
Qed.

Lemma non_blocking_fifo_witness :
  (exists lu, represents (underlying_writer ex_nb_two) lu /\ Forall (fun sl => sl_finished sl = true) lu /\
     [(5, [Byte.x01; Byte.x02; Byte.x03]); (6, [Byte.x04])] = ((frame <$> lu) ++ (queued <$> pending ex_nb_two))%list) /\
  length (pending ex_nb_two) = 1%nat.
Proof.
  destruct (non_blocking_fifo (2 * mb_span) (mkMailbox [] 1)
    [(call_message ex_nb_first, payload ex_nb_first); (call_message ex_nb_second, payload ex_nb_second)] ex_nb_two) as [Hms _]; [|exact ex_nb_run|].
  - split; [done|]. split; constructor.
  - split; [exact Hms|vm_eq].
Defined.
End NonBlocking.
