(* ===== verification/Oversized.v ===== *)
(** * Messages larger than the ring buffer takes

    [oversized::Writer] and [oversized::FragmentReconstructor]
    (src/ds/oversized.h): a message larger than a limit is written as several
    fragments that carry an identifier, and put together again by the reader,
    whose dispatcher is that of src/ds/messaging.h. *)

From S2P Require Import Prelude LedgerEntries RingBuffer Writers.

Module Oversized.
Import RingBuffer Writers.
Open Scope N_scope.

(** ** Definitions *)

(** [ccf::ds::fnv_1a<uint32_t>] *)
Definition fnv_1a (s : string) : N :=
  foldl (fun hash c => (N.lxor hash (Byte.to_N c) * 16777619) mod 2 ^ 32) 2166136261 (String.list_byte_of_string s).

Definition fragment : N := Eval vm_compute in fnv_1a "fragment".

(** [InitialFragmentHeader], packed. *)
Definition initial_header (identifier contained total_size : N) : bytes :=
  (le_split 8 identifier ++ le_split 4 contained ++ le_split 8 total_size)%list.
Definition initial_header_size : N := 20.

Record FragmentProgress := mkProgress { fp_marker : option N; fp_identifier : N; fp_remainder : N }.

Record Writer (W : Type) := mkWriter {
  underlying_writer : W;
  max_fragment_size : N;
  max_total_size : N;
  fragment_progress : option FragmentProgress;
}.
Arguments mkWriter {_}.
Arguments underlying_writer {_}.
Arguments max_fragment_size {_}.
Arguments max_total_size {_}.
Arguments fragment_progress {_}.

(** The constructor. *)
Definition new_writer {W} (writer : W) (f t : N) : result (Writer W) :=
  if t <=? f then Throw (LogicError "Fragment sizes must be smaller than total max")
  else if f <=? initial_header_size then Throw (LogicError "Fragment size must be large enough to contain the header")
  else Ok (mkWriter writer f t None).

Section writer.
Context {W : Type} `{AbstractWriter W}.

Definition underlying {A} (m : M W A) : M (Writer W) A := fun o =>
  let '(r, w) := m (underlying_writer o) in
  (r, mkWriter w (max_fragment_size o) (max_total_size o) (fragment_progress o)).

Definition set_progress (p : option FragmentProgress) (o : Writer W) : Writer W :=
  mkWriter (underlying_writer o) (max_fragment_size o) (max_total_size o) p.

Definition ov_prepare (m total_size : N) (wait : bool) : M (Writer W) (option N * option N) :=
  o <- gets id ;;;
  match fragment_progress o with
  | Some _ => throw (LogicError "This Writer is already preparing a message")
  | None =>
      if total_size <=? max_fragment_size o then underlying (prepare m total_size wait)
      else if max_total_size o <? total_size then throw (LogicError "Requested a write of more bytes than allowed")
      else if negb wait then throw (LogicError "caller must wait for fragments to complete")
      else
        p <- underlying (prepare fragment (max_fragment_size o) wait) ;;;
        match p.1 with
        | None => ret (None, None)
        | Some _ =>
            let outer_id := default 0 p.2 in
            next <- underlying (write_bytes p.1 (initial_header outer_id m total_size)) ;;;
            modify (set_progress (Some (mkProgress p.1 outer_id (max_fragment_size o - initial_header_size)))) ;;;
            ret (next, Some outer_id)
        end
  end.

Definition ov_finish (marker : option N) : M (Writer W) unit :=
  p <- gets fragment_progress ;;;
  match p with
  | Some fp =>
      if negb (fp_remainder fp =? 0)
      then throw (LogicError "Attempting to finish an oversized message before the entire payload has been written")
      else underlying (finish (fp_marker fp)) ;;; modify (set_progress None)
  | None => underlying (finish marker)
  end.

(** [fragment_progress->remainder -= write_size] *)
Definition advance (write_size : N) (o : Writer W) : Writer W :=
  match fragment_progress o with
  | Some fp => set_progress (Some (mkProgress (fp_marker fp) (fp_identifier fp) (fp_remainder fp - write_size))) o
  | None => o
  end.

(** The loop over further fragments, of which each takes at least a byte. *)
Fixpoint fragment_loop (fuel : nat) (id : N) (next : option N) (b : bytes) : M (Writer W) (option N) :=
  match b, fuel with
  | [], _ => ret next
  | _, O => throw OutOfFuel
  | _, S fuel =>
      o <- gets (fun o => o) ;;;
      let frag_size := N.min (N.of_nat (length b) + 8) (max_fragment_size o) in
      p <- underlying (prepare fragment frag_size true) ;;;
      match p.1 with
      | None => throw (LogicError "Failed to create fragment for oversized message")
      | Some _ =>
          underlying (finish (fragment_progress o ≫= fp_marker)) ;;;
          let write_size := frag_size - 8 in
          modify (set_progress (Some (mkProgress p.1 id write_size))) ;;;
          next <- underlying (write_bytes p.1 (le_split 8 id)) ;;;
          next <- underlying (write_bytes next (take (N.to_nat write_size) b)) ;;;
          modify (advance write_size) ;;;
          fragment_loop fuel id next (drop (N.to_nat write_size) b)
      end
  end.

Definition ov_write_bytes (marker : option N) (b : bytes) : M (Writer W) (option N) :=
  match marker with
  | None => ret None
  | Some _ =>
      p <- gets fragment_progress ;;;
      match p with
      | None => underlying (write_bytes marker b)
      | Some fp =>
          let write_size := N.min (N.of_nat (length b)) (fp_remainder fp) in
          next <- underlying (write_bytes marker (take (N.to_nat write_size) b)) ;;;
          modify (advance write_size) ;;;
          let rest := drop (N.to_nat write_size) b in
          fragment_loop (length rest) (fp_identifier fp) next rest
      end
  end.

#[export] Instance Oversized_writer : AbstractWriter (Writer W) := {
  prepare := ov_prepare;
  write_bytes := ov_write_bytes;
  finish := ov_finish;
}.
End writer.

(** *** Reader *)

(** [partial.received] is the number of bytes of [partial_data]. *)
Record PartialMessage := mkPartial { partial_m : N; partial_total_size : N; partial_data : bytes }.

(** The dispatcher of messages: the reconstructor's messages, and the calls of
    the other handlers. *)
Record Dispatcher := mkDispatcher {
  handlers : gset N;
  partial_messages : gmap N PartialMessage;
  handled : list (N * bytes);
}.

Definition set_partial_messages (v : gmap N PartialMessage) (d : Dispatcher) : Dispatcher :=
  mkDispatcher (handlers d) v (handled d).

(** The handler the constructor of [FragmentReconstructor] registers: its last
    part, when the partial message is known, and the whole. *)
Definition add_fragment (dispatch : N -> bytes -> M Dispatcher unit) (message_id : N) (partial : PartialMessage)
    (data : bytes) : M Dispatcher unit :=
  if partial_total_size partial <? N.of_nat (length data) + N.of_nat (length (partial_data partial))
  then throw (LogicError "Too much data for oversized fragmented message")
  else
    let partial := mkPartial (partial_m partial) (partial_total_size partial) (partial_data partial ++ data) in
    modify (fun d => set_partial_messages (<[message_id := partial]> (partial_messages d)) d) ;;;
    if N.of_nat (length (partial_data partial)) =? partial_total_size partial
    then dispatch (partial_m partial) (partial_data partial) ;;;
         modify (fun d => set_partial_messages (delete message_id (partial_messages d)) d)
    else ret tt.

Definition on_fragment (dispatch : N -> bytes -> M Dispatcher unit) (data : bytes) : M Dispatcher unit :=
  r <- lift (read_int 8 data) ;;;
  let message_id := r.1 in
  pms <- gets partial_messages ;;;
  match pms !! message_id with
  | Some partial => add_fragment dispatch message_id partial r.2
  | None =>
      r <- lift (read_int 4 r.2) ;;;
      let m := r.1 in
      r <- lift (read_int 8 r.2) ;;;
      let partial := mkPartial m r.1 [] in
      modify (set_partial_messages (<[message_id := partial]> pms)) ;;;
      add_fragment dispatch message_id partial r.2
  end.

(** A call of a handler other than that of fragments. *)
Definition log (m : N) (data : bytes) (d : Dispatcher) : Dispatcher :=
  mkDispatcher (handlers d) (partial_messages d) (handled d ++ [(m, data)])%list.

(** [Dispatcher::dispatch]. The handler of [fragment] is that of the
    reconstructor; messages within messages are dispatched to [fuel] levels. *)
Fixpoint dispatch (fuel : nat) (m : N) (data : bytes) : M Dispatcher unit :=
  d <- gets (fun d => d) ;;;
  if negb (bool_decide (m ∈ handlers d)) then throw (LogicError "No handler for this message")
  else if negb (m =? fragment) then modify (log m data)
  else
    match fuel with
    | O => throw OutOfFuel
    | S fuel => on_fragment (dispatch fuel) data
    end.

(** What is read from the ring buffer, message by message. *)
Definition dispatch_all (l : list (N * bytes)) : M Dispatcher unit :=
  for_each (fun '(m, data) => dispatch 1 m data) l.
End Oversized.
