(* ===== verification/OversizedSpec.v ===== *)
(** * Messages larger than the ring buffer takes: proofs

    What [oversized::Writer] hands to the writer it wraps, whatever that writer
    is, and that the reconstructor restores from it the messages of any number
    of writers. *)

From S2P Require Import Prelude LedgerEntries RingBuffer RingBufferInv RingBufferSafe Writers NonBlocking Oversized.
From stdpp Require Import functions.

Module OversizedSpec.
Import RingBuffer Writers Oversized.
Import RingBufferSafe(of_writer, of_writer_app).
Open Scope N_scope.

#[local] Opaque le_split.

(** ** Fragments *)

Definition more (id : N) (p : bytes) : N * bytes := (fragment, le_split 8 id ++ p)%list.

(** The frames of an oversized message of which [P] has been written: a first
    fragment with the header, and fragments that are not empty. *)
Definition framed (id : N) (header : bytes) (frames : list (N * bytes)) (P : bytes) : Prop :=
  exists p0 ps, frames = (fragment, header ++ p0)%list :: (more id <$> ps) /\
    (p0 ++ concat ps)%list = P /\ Forall (fun p => p <> []) ps.

Lemma framed_extend id header frames d P b :
  framed id header (frames ++ [(fragment, d)]) P -> framed id header (frames ++ [(fragment, d ++ b)]) (P ++ b).
Proof.
  intros (p0 & ps & Hf & <- & Hne). destruct ps as [|p ps _] using rev_ind.
  - destruct frames as [|x [|y frames]]; simplify_eq/=. exists (p0 ++ b)%list, []. simpl. by rewrite !app_nil_r, app_assoc.
  - rewrite fmap_app, app_comm_cons in Hf. apply app_inj_tail in Hf as [-> [= ->]].
    exists p0, (ps ++ [p ++ b])%list. split_and!.
    + rewrite fmap_app, <- app_comm_cons, <- app_assoc. done.
    + rewrite !concat_app. simpl. by rewrite !app_nil_r, !app_assoc.
    + apply Forall_app in Hne as [H1 H2]. apply Forall_app. split; [done|]. constructor; [|done].
      inversion H2; subst. by destruct p.
Qed.

Lemma framed_more id header frames P b :
  framed id header frames P -> b <> [] -> framed id header (frames ++ [more id b]) (P ++ b).
Proof.
  intros (p0 & ps & -> & <- & Hne) Hb. exists p0, (ps ++ [b])%list. split_and!.
  - by rewrite fmap_app.
  - rewrite concat_app. simpl. by rewrite app_nil_r, app_assoc.
  - apply Forall_app. split; [done|by constructor].
Qed.

(** ** The writer *)

Section writer.
Context {W : Type} `{HL : WriterLaws W}.

(** An oversized message is being written: its finished fragments are [fin],
    the fragment in progress is [cur]. *)
Record writing (o : Writer W) (l fin : list Slot) (cur : Slot) (id : N) : Prop := {
  wr_represents : represents (underlying_writer o) ((l ++ fin) ++ [cur]);
  wr_finished : Forall (fun sl => sl_finished sl = true) (l ++ fin);
  wr_open : sl_finished cur = false;
  wr_fragment : sl_message cur = fragment;
  wr_room : N.of_nat (length (sl_data cur)) <= sl_size cur;
  wr_progress : fragment_progress o =
    Some (mkProgress (Some (sl_initial cur)) id (sl_size cur - N.of_nat (length (sl_data cur))));
}.

Definition frames_of (fin : list Slot) (cur : Slot) : list (N * bytes) := (frame <$> fin ++ [cur]).

(** A piece that fits in the fragment in progress. *)
Lemma write_piece o l fin cur id header P b :
  writing o l fin cur id -> framed id header (frames_of fin cur) P ->
  N.of_nat (length (sl_data cur)) + N.of_nat (length b) <= sl_size cur ->
  exists mk w', underlying (write_bytes (Some (sl_next cur)) b) o = (Ok (Some mk), mkWriter w' (max_fragment_size o) (max_total_size o) (fragment_progress o)) /\
    writing (advance (N.of_nat (length b)) (mkWriter w' (max_fragment_size o) (max_total_size o) (fragment_progress o))) l fin (extend cur b mk) id /\
    framed id header (frames_of fin (extend cur b mk)) (P ++ b).
Proof.
  intros [Hr Hf Ho Hm Hroom Hp] Hfr Hb.
  destruct (write_bytes_law _ _ _ _ b Hr Ho Hb) as (mk & w' & Hw & Hr'). exists mk, w'. split_and!.
  - unfold underlying. by rewrite Hw.
  - unfold advance. simpl. rewrite Hp. constructor; simpl; try done; rewrite length_app; [lia|]. by rewrite Nat2N.inj_add, N.sub_add_distr.
  - unfold frames_of in *. rewrite fmap_app in *. simpl in *. unfold frame at 2. simpl. rewrite Hm.
    apply framed_extend. revert Hfr. unfold frame at 2. by rewrite Hm.
Qed.

Context (F : N) (HF : initial_header_size < F) (Hacc : forall size, 8 < size <= F -> accepts fragment size).

Definition full (sl : Slot) : Prop := N.of_nat (length (sl_data sl)) = sl_size sl.

(** A further fragment with a piece of the message. *)
Lemma next_fragment w l fin cur id b :
  represents w ((l ++ fin) ++ [cur]) -> Forall (fun sl => sl_finished sl = true) (l ++ fin) -> sl_finished cur = false ->
  full cur -> 8 < N.of_nat (length b) + 8 <= F ->
  exists mk oid w1 w2 mk3 w3 mk4 w4,
    prepare fragment (N.of_nat (length b) + 8) true w = (Ok (Some mk, oid), w1) /\
    finish (Some (sl_initial cur)) w1 = (Ok tt, w2) /\
    write_bytes (Some mk) (le_split 8 id) w2 = (Ok (Some mk3), w3) /\
    write_bytes (Some mk3) b w3 = (Ok (Some mk4), w4) /\
    let new := mkSlot fragment (N.of_nat (length b) + 8) (le_split 8 id ++ b) mk mk4 false in
    represents w4 ((l ++ fin ++ [close cur]) ++ [new]).
Proof.
  intros Hr Hf Ho Hfull Hb. set (size := N.of_nat (length b) + 8) in *.
  destruct (prepare_law w _ fragment size true Hr) as (marker & oid & w1 & Hp & Hr1); [apply Hacc; lia| |].
  { rewrite open_count_app, open_count_finished by done. unfold open_count. rewrite filter_cons, filter_nil.
    destruct (decide _); simpl; lia. }
  destruct marker as [mk|]; [|by destruct Hr1]. rewrite <- app_assoc in Hr1. cbn [app] in Hr1.
  destruct (finish_law w1 _ _ _ Hr1 Ho Hfull) as (w2 & Hfin & Hr2).
  assert (represents w2 ((l ++ fin ++ [close cur]) ++ [open_slot fragment size mk])) as Hr2'.
  { revert Hr2. by rewrite <- !app_assoc. }
  destruct (write_bytes_law w2 _ _ _ (le_split 8 id) Hr2') as (mk3 & w3 & Hw3 & Hr3); [done|rewrite length_le_split; simpl; unfold size; lia|].
  destruct (write_bytes_law w3 _ _ _ b Hr3) as (mk4 & w4 & Hw4 & Hr4);
    [done|simpl; rewrite length_le_split; unfold size; lia|].
  exists mk, oid, w1, w2, mk3, w3, mk4, w4. split_and!; try done.
Qed.

(** One round of the loop. *)
Lemma fragment_loop_step fuel id next b o ws mk mk0 oid w1 w2 mk3 w3 mk4 w4 r :
  b <> [] -> N.min (N.of_nat (length b) + 8) (max_fragment_size o) = ws + 8 ->
  fragment_progress o = Some (mkProgress (Some mk0) id r) ->
  prepare fragment (ws + 8) true (underlying_writer o) = (Ok (Some mk, oid), w1) ->
  finish (Some mk0) w1 = (Ok tt, w2) ->
  write_bytes (Some mk) (le_split 8 id) w2 = (Ok (Some mk3), w3) ->
  write_bytes (Some mk3) (take (N.to_nat ws) b) w3 = (Ok (Some mk4), w4) ->
  fragment_loop (S fuel) id next b o =
    fragment_loop fuel id (Some mk4) (drop (N.to_nat ws) b)
      (mkWriter w4 (max_fragment_size o) (max_total_size o) (Some (mkProgress (Some mk) id 0))).
Proof.
  intros Hb Hmin Hp E1 E2 E3 E4. destruct b as [|c b']; [done|]. cbn [fragment_loop].
  unfold bind, gets, modify, underlying. cbn zeta. rewrite Hmin, E1. cbn [fst underlying_writer]. rewrite Hp. cbn [mbind option_bind fp_marker].
  rewrite E2. cbn [set_progress underlying_writer]. rewrite E3. cbn [underlying_writer]. rewrite N.add_sub, E4.
  unfold advance, set_progress. simpl. by rewrite N.sub_diag.
Qed.

Lemma fragment_loop_spec fuel : forall b o l fin cur id header P,
  writing o l fin cur id -> framed id header (frames_of fin cur) P -> full cur -> max_fragment_size o = F ->
  (length b <= fuel)%nat ->
  exists fin' cur' o', fragment_loop fuel id (Some (sl_next cur)) b o = (Ok (Some (sl_next cur')), o') /\
    writing o' l fin' cur' id /\ framed id header (frames_of fin' cur') (P ++ b) /\
    full cur' /\ max_fragment_size o' = F /\ max_total_size o' = max_total_size o.
Proof.
  induction fuel as [|fuel IH]; intros b o l fin cur id header P Hw Hfr Hfull HFo Hlen.
  { destruct b; [|simpl in Hlen; lia]. exists fin, cur, o. by rewrite app_nil_r. }
  destruct (decide (b = [])) as [->|Hb]; [exists fin, cur, o; by rewrite app_nil_r|].
  set (ws := N.min (N.of_nat (length b) + 8) F - 8). assert (0 < N.of_nat (length b)) as Hpos by (destruct b; [done|simpl; lia]).
  assert (20 < F) as HF20 by exact HF. assert (0 < ws <= N.of_nat (length b)) as Hws by (unfold ws; lia).
  assert (length (take (N.to_nat ws) b) = N.to_nat ws) as Hlt by (rewrite length_take; lia).
  destruct Hw as [Hr Hf Ho Hm Hroom Hp].
  destruct (next_fragment _ _ _ _ id (take (N.to_nat ws) b) Hr Hf Ho Hfull) as (mk & oid & w1 & w2 & mk3 & w3 & mk4 & w4 & E1 & E2 & E3 & E4 & Hr4).
  { rewrite Hlt. unfold ws. lia. }
  rewrite Hlt, N2Nat.id in E1, Hr4. set (new := mkSlot _ _ _ _ _ _) in Hr4. simpl in Hr4.
  assert (N.min (N.of_nat (length b) + 8) F = ws + 8) as Hmin by (unfold ws; lia).
  set (o' := mkWriter w4 F (max_total_size o) (Some (mkProgress (Some mk) id 0))).
  destruct (IH (drop (N.to_nat ws) b) o' l (fin ++ [close cur])%list new id header (P ++ take (N.to_nat ws) b)%list) as (fin' & cur' & o'' & Hrun & Hw'' & Hfr'' & Hfull'' & HF'' & HT'').
  - constructor; simpl; try done.
    + apply Forall_app in Hf as [H1 H2]. rewrite !Forall_app. split_and!; [done|done|by constructor].
    + rewrite length_app, length_le_split, Hlt. lia.
    + unfold o'. simpl. do 3 f_equal. rewrite length_app, length_le_split, Hlt. lia.
  - unfold frames_of in *. rewrite !fmap_app in *. simpl in *. apply framed_more; [|intros Hnil; rewrite Hnil in Hlt; simpl in Hlt; lia]. exact Hfr.
  - unfold full, new. simpl. rewrite length_app, length_le_split, Hlt. lia.
  - done.
  - rewrite length_drop. lia.
  - exists fin', cur', o''. split_and!; try done.
    + rewrite (fragment_loop_step _ _ _ _ _ ws mk (sl_initial cur) oid w1 w2 mk3 w3 mk4 w4 _ Hb) by (done || by rewrite HFo).
      rewrite HFo. exact Hrun.
    + by rewrite <- app_assoc, take_drop in Hfr''.
Qed.

(** The fragment in progress is full unless it is the first. *)
Definition sized (fin : list Slot) (cur : Slot) (P : bytes) : Prop :=
  full cur \/ (fin = [] /\ sl_size cur = F /\ N.of_nat (length (sl_data cur)) = initial_header_size + N.of_nat (length P)).

Lemma ov_write_bytes_spec o l fin cur id header P b :
  writing o l fin cur id -> framed id header (frames_of fin cur) P -> sized fin cur P -> max_fragment_size o = F ->
  exists fin' cur' o', ov_write_bytes (Some (sl_next cur)) b o = (Ok (Some (sl_next cur')), o') /\
    writing o' l fin' cur' id /\ framed id header (frames_of fin' cur') (P ++ b) /\ sized fin' cur' (P ++ b) /\
    max_fragment_size o' = F.
Proof.
  intros Hw Hfr Hs HFo. pose proof (wr_progress _ _ _ _ _ Hw) as Hp. pose proof (wr_room _ _ _ _ _ Hw) as Hroom.
  set (rem := sl_size cur - N.of_nat (length (sl_data cur))) in *. set (n := N.to_nat (N.min (N.of_nat (length b)) rem)).
  assert (length (take n b) = n) as Hlt by (rewrite length_take; lia).
  destruct (write_piece o l fin cur id header P (take n b) Hw Hfr) as (mk & w' & Hrun & Hw' & Hfr'); [rewrite Hlt; unfold n, rem in *; lia|].
  unfold ov_write_bytes, bind, gets, modify. rewrite Hp. cbn [fp_remainder fp_identifier]. fold n. rewrite Hrun.
  assert (N.of_nat (length (take n b)) = N.min (N.of_nat (length b)) rem) as Hn by (rewrite Hlt; unfold n; lia). rewrite Hn in Hw'.
  set (o1 := advance _ _) in *. assert (max_fragment_size o1 = F) as HF1 by (unfold o1, advance; simpl; rewrite Hp; exact HFo).
  destruct (decide (drop n b = [])) as [Hd|Hd].
  - rewrite Hd. exists fin, (extend cur (take n b) mk), o1. assert (take n b = b) as Hall by (rewrite <- (take_drop n b) at 2; by rewrite Hd, app_nil_r).
    rewrite Hall in *. split_and!; try done. destruct Hs as [Hs|(-> & H2 & H3)].
    + left. unfold full in *. simpl. rewrite length_app. unfold n, rem in *. lia.
    + right. simpl. rewrite !length_app. split_and!; [done|done|lia].
  - destruct (fragment_loop_spec (length (drop n b)) (drop n b) o1 l fin (extend cur (take n b) mk) id header (P ++ take n b))
      as (fin' & cur' & o' & Hrun' & Hw2 & Hfr2 & Hfull & HF2 & _); try done.
    + unfold full. simpl. rewrite length_app, Hlt. assert (length (drop n b) <> O) by (by intros ?%nil_length_inv).
      rewrite length_drop in *. unfold n, rem in *. lia.
    + exists fin', cur', o'. rewrite <- app_assoc, take_drop in Hfr2. split_and!; try done. by left.
Qed.

Lemma ov_write_sections_spec sections : forall o l fin cur id header P,
  writing o l fin cur id -> framed id header (frames_of fin cur) P -> sized fin cur P -> max_fragment_size o = F ->
  exists fin' cur' o', write_sections (Some (sl_next cur)) sections o = (Ok (Some (sl_next cur')), o') /\
    writing o' l fin' cur' id /\ framed id header (frames_of fin' cur') (P ++ concat sections) /\
    sized fin' cur' (P ++ concat sections) /\ max_fragment_size o' = F.
Proof.
  induction sections as [|b sections IH]; intros o l fin cur id header P Hw Hfr Hs HFo.
  { exists fin, cur, o. simpl. by rewrite app_nil_r. }
  destruct (ov_write_bytes_spec o l fin cur id header P b Hw Hfr Hs HFo) as (fin1 & cur1 & o1 & Hr1 & Hw1 & Hfr1 & Hs1 & HF1).
  destruct (IH o1 l fin1 cur1 id header _ Hw1 Hfr1 Hs1 HF1) as (fin2 & cur2 & o2 & Hr2 & Hw2 & Hfr2 & Hs2 & HF2).
  exists fin2, cur2, o2. cbn [write_sections concat]. unfold bind. cbn [write_bytes Oversized_writer]. rewrite Hr1, Hr2.
  by rewrite <- app_assoc in Hfr2, Hs2.
Qed.

(** The frames a message is sent as. *)
Definition sent_as (id : N) (c : Call) (frames : list (N * bytes)) : Prop :=
  if total_size c <=? F then frames = [(call_message c, payload c)]
  else framed id (initial_header id (call_message c) (total_size c)) frames (payload c).

Lemma length_initial_header id m n : length (initial_header id m n) = 20%nat.
Proof. unfold initial_header. by rewrite !length_app, !length_le_split. Qed.

(** A message larger than a fragment. *)
Lemma ov_write_large o l c :
  represents (underlying_writer o) l -> Forall (fun sl => sl_finished sl = true) l -> fragment_progress o = None ->
  max_fragment_size o = F -> F < total_size c -> total_size c <= max_total_size o -> call_wait c = true ->
  exists mk oid w1 sls o', prepare fragment F true (underlying_writer o) = (Ok (Some mk, oid), w1) /\
    write_multiple c o = (Ok true, o') /\ represents (underlying_writer o') (l ++ sls) /\
    Forall (fun sl => sl_finished sl = true) sls /\
    framed (default 0 oid) (initial_header (default 0 oid) (call_message c) (total_size c)) (frame <$> sls) (payload c) /\
    fragment_progress o' = None /\ max_fragment_size o' = F.
Proof.
  intros Hr Hf Hp HFo Hbig Hmax Hwait. assert (20 < F) as HF20 by exact HF.
  destruct (prepare_law _ l fragment F true Hr) as (marker & oid & w1 & Hpr & Hr1); [apply Hacc; lia|rewrite open_count_finished by done; lia|].
  destruct marker as [mk|]; [|by destruct Hr1]. set (id := default 0 oid). set (header := initial_header id (call_message c) (total_size c)).
  destruct (write_bytes_law w1 _ _ _ header Hr1) as (mk2 & w2 & Hw2 & Hr2); [done|unfold header; rewrite length_initial_header; simpl; lia|].
  simpl in Hw2. set (o2 := mkWriter w2 F (max_total_size o) (Some (mkProgress (Some mk) id (F - initial_header_size)))).
  assert (prepare (call_message c) (total_size c) (call_wait c) o = (Ok (Some mk2, Some id), o2)) as Hprep.
  { cbn [prepare Oversized_writer]. unfold ov_prepare, bind, gets, underlying, modify. simpl. rewrite Hp, HFo, Hwait.
    destruct (N.leb_spec (total_size c) F); [lia|]. destruct (N.ltb_spec (max_total_size o) (total_size c)); [lia|]. simpl.
    rewrite Hpr. cbn [fst snd underlying_writer]. fold id header. rewrite Hw2. unfold set_progress, o2. simpl. by rewrite ?HFo. }
  destruct (ov_write_sections_spec (call_sections c) o2 l [] (extend (open_slot fragment F mk) header mk2) id header [])
    as (fin & cur & o3 & Hrun & Hw & Hfr & Hs & HF3).
  - constructor; simpl; rewrite ?app_nil_r; try done.
    unfold header. rewrite length_initial_header. lia.
  - exists [], []. unfold frames_of. simpl. by rewrite app_nil_r.
  - right. simpl. unfold header. by rewrite length_initial_header.
  - done.
  - simpl in Hrun, Hfr, Hs. fold (payload c) in Hfr, Hs. destruct Hw as [Wr Wf Wo Wm Wroom Wp].
    assert (full cur) as Hfull.
    { destruct Hs as [|(_ & H2 & H3)]; [done|]. pose proof (length_payload c). unfold initial_header_size in *. lia. }
    destruct (finish_law _ _ _ _ Wr Wo Hfull) as (w4 & Hfin & Hr4). unfold full in Hfull.
    exists mk, oid, w1, (fin ++ [close cur])%list, (mkWriter w4 F (max_total_size o3) None). split_and!; try done.
    + unfold write_multiple, bind. rewrite Hprep. cbn [fst]. rewrite Hrun. cbn [finish Oversized_writer].
      unfold ov_finish, bind, gets, underlying, modify. rewrite Wp. cbn [fp_remainder fp_marker].
      rewrite Hfull, N.sub_diag. simpl. rewrite Hfin. unfold ret, set_progress. simpl. by rewrite HF3.
    + simpl. by rewrite app_assoc.
    + apply Forall_app in Wf as [_ Wf]. apply Forall_app. split; [done|by constructor].
    + unfold frames_of in Hfr. rewrite fmap_app in *. exact Hfr.
Qed.

(** A message that fits in a fragment goes to the underlying writer as it is. *)
Definition with_writer (w : W) (o : Writer W) : Writer W :=
  mkWriter w (max_fragment_size o) (max_total_size o) (fragment_progress o).

Lemma ov_write_sections_small sections : forall o l sl,
  represents (underlying_writer o) (l ++ [sl]) -> sl_finished sl = false -> fragment_progress o = None ->
  N.of_nat (length (sl_data sl)) + N.of_nat (length (concat sections)) <= sl_size sl ->
  exists mk w', write_sections (Some (sl_next sl)) sections o = (Ok (Some mk), with_writer w' o) /\
    represents w' (l ++ [extend sl (concat sections) mk]).
Proof.
  induction sections as [|b sections IH]; intros o l sl Hr Ho Hp Hlen.
  - exists (sl_next sl), (underlying_writer o). split; [by destruct o|]. unfold extend. cbn [concat]. rewrite app_nil_r. by destruct sl.
  - simpl in Hlen. rewrite length_app in Hlen.
    destruct (write_bytes_law _ _ _ _ b Hr Ho) as (mk & w1 & Hw & Hr1); [lia|].
    destruct (IH (with_writer w1 o) l (extend sl b mk) Hr1 Ho Hp) as (mk' & w2 & Hw2 & Hr2); [simpl; rewrite length_app; lia|].
    exists mk', w2. split; [|cbn [concat]; by rewrite <- extend_extend with (mk1 := mk)]. cbn [write_sections]. unfold bind. cbn [write_bytes Oversized_writer].
    unfold ov_write_bytes, bind, gets, underlying. rewrite Hp, Hw. unfold with_writer in *. rewrite Hp in *. exact Hw2.
Qed.

Lemma ov_write_small o l c :
  represents (underlying_writer o) l -> Forall (fun sl => sl_finished sl = true) l -> fragment_progress o = None ->
  max_fragment_size o = F -> total_size c <= F -> accepts (call_message c) (total_size c) ->
  exists r o', write_multiple c o = (Ok r, o') /\ fragment_progress o' = None /\ max_fragment_size o' = F /\
    if r then exists sl, represents (underlying_writer o') (l ++ [sl]) /\ sl_finished sl = true /\ frame sl = (call_message c, payload c)
    else call_wait c = false /\ represents (underlying_writer o') l.
Proof.
  intros Hr Hf Hp HFo Hsmall Ha.
  destruct (prepare_law _ l (call_message c) (total_size c) (call_wait c) Hr Ha) as (marker & oid & w1 & Hpr & Hr1); [rewrite open_count_finished by done; lia|].
  assert (prepare (call_message c) (total_size c) (call_wait c) o = (Ok (marker, oid), with_writer w1 o)) as Hprep.
  { cbn [prepare Oversized_writer]. unfold ov_prepare, bind, gets, underlying. simpl. rewrite Hp, HFo.
    destruct (N.leb_spec (total_size c) F); [|lia]. rewrite Hpr. unfold with_writer. by rewrite Hp, HFo. }
  unfold write_multiple, bind. rewrite Hprep. cbn [fst]. destruct marker as [mk|]; [|by exists false, (with_writer w1 o)].
  destruct (ov_write_sections_small (call_sections c) (with_writer w1 o) l (open_slot (call_message c) (total_size c) mk) Hr1)
    as (mk' & w2 & Hw2 & Hr2); [done|done|simpl; fold (payload c); rewrite length_payload; lia|].
  simpl in Hw2, Hr2. rewrite Hw2. fold (payload c) in Hr2.
  destruct (finish_law w2 l _ [] Hr2) as (w3 & Hw3 & Hr3); [done|simpl; by rewrite length_payload|].
  cbn [finish Oversized_writer]. unfold ov_finish, bind, gets, underlying, with_writer. simpl. rewrite Hp. simpl in Hw3 |- *. rewrite Hw3. unfold ret.
  exists true, (mkWriter w3 F (max_total_size o) None). rewrite HFo. split_and!; try done. by eexists.
Qed.

(** Whatever writer is underneath, an oversized writer hands it a message as
    one frame when it fits in a fragment and as fragments otherwise, all of them
    finished, and then takes the next message. The fragments carry the
    identifier that [prepare] of the first of them returned. *)
Theorem oversized_frames o l c :
  represents (underlying_writer o) l -> Forall (fun sl => sl_finished sl = true) l -> fragment_progress o = None ->
  max_fragment_size o = F -> total_size c <= max_total_size o -> call_wait c = true ->
  (total_size c <= F -> accepts (call_message c) (total_size c)) ->
  exists id sls o', write_multiple c o = (Ok true, o') /\ fragment_progress o' = None /\ max_fragment_size o' = F /\
    represents (underlying_writer o') (l ++ sls) /\ Forall (fun sl => sl_finished sl = true) sls /\
    sent_as id c (frame <$> sls) /\
    (F < total_size c ->
       exists mk oid w, prepare fragment F true (underlying_writer o) = (Ok (Some mk, oid), w) /\ id = default 0 oid).
Proof.
  intros Hr Hf Hp HFo Hmax Hwait Ha. unfold sent_as. destruct (N.leb_spec (total_size c) F) as [Hle|Hlt].
  - destruct (ov_write_small o l c Hr Hf Hp HFo Hle (Ha Hle)) as (r & o' & Hrun & Hp' & HF' & Hpost).
    destruct r; [|destruct Hpost; congruence]. destruct Hpost as (sl & Hr' & Hfin & Hfr). exists 0, [sl], o'.
    simpl. rewrite Hfr. split_and!; try done; [by constructor|lia].
  - destruct (ov_write_large o l c Hr Hf Hp HFo Hlt Hmax Hwait) as (mk & oid & w1 & sls & o' & H1 & H2 & H3 & H4 & H5 & H6 & H7).
    exists (default 0 oid), sls, o'. split_and!; try done. intros _. by exists mk, oid, w1.
Qed.
End writer.

(** ** The reconstructor *)

(** What the reader has of an oversized message: its identifier, type, payload
    and the bytes received. *)
Definition Received : Type := N * N * bytes * bytes.

(** [parses st frames msgs ids]: when the reader has [st] of a message, the
    frames of one writer hold the messages [msgs], with identifiers [ids] for
    those that are yet to start. *)
Inductive parses : option Received -> list (N * bytes) -> list (N * bytes) -> list N -> Prop :=
| parses_nil : parses None [] [] []
| parses_small m b R Q I : m <> fragment -> parses None R Q I -> parses None ((m, b) :: R) ((m, b) :: Q) I
| parses_first id m P p0 ps R Q I :
    m <> fragment -> id < 2 ^ 64 -> m < 2 ^ 32 -> N.of_nat (length P) < 2 ^ 64 ->
    P = (p0 ++ ps)%list -> ps <> [] -> parses (Some (id, m, P, p0)) R Q I ->
    parses None ((fragment, initial_header id m (N.of_nat (length P)) ++ p0)%list :: R) Q (id :: I)
| parses_whole id m P R Q I :
    m <> fragment -> id < 2 ^ 64 -> m < 2 ^ 32 -> N.of_nat (length P) < 2 ^ 64 -> parses None R Q I ->
    parses None ((fragment, initial_header id m (N.of_nat (length P)) ++ P)%list :: R) ((m, P) :: Q) (id :: I)
| parses_more id m P got p ps R Q I :
    m <> fragment -> id < 2 ^ 64 -> P = (got ++ p ++ ps)%list -> ps <> [] -> parses (Some (id, m, P, got ++ p)%list) R Q I ->
    parses (Some (id, m, P, got)) (more id p :: R) Q I
| parses_last id m P got p R Q I :
    m <> fragment -> id < 2 ^ 64 -> P = (got ++ p)%list -> parses None R Q I ->
    parses (Some (id, m, P, got)) (more id p :: R) ((m, P) :: Q) I.

(** The frames of one message, then those of the following ones. *)
Lemma parses_rest id m P ps : forall got R Q I,
  m <> fragment -> id < 2 ^ 64 -> ps <> [] -> Forall (fun p => p <> []) ps -> P = (got ++ concat ps)%list ->
  parses None R Q I -> parses (Some (id, m, P, got)) ((more id <$> ps) ++ R) ((m, P) :: Q) I.
Proof.
  induction ps as [|p ps IH]; intros got R Q I Hm Hid Hne Hall HP HR; [done|]. inversion Hall as [|? ? Hp Hall']; subst.
  destruct (decide (ps = [])) as [->|Hps]; simpl.
  - apply parses_last; try done. simpl. by rewrite app_nil_r.
  - eapply (parses_more _ _ _ _ _ (concat ps)); try done.
    + destruct ps as [|p' ps]; [done|]. inversion Hall'; subst. simpl. by destruct p'.
    + apply IH; try done. simpl. by rewrite app_assoc.
Qed.

Lemma parses_framed id m P frames R Q I :
  framed id (initial_header id m (N.of_nat (length P))) frames P ->
  m <> fragment -> id < 2 ^ 64 -> m < 2 ^ 32 -> N.of_nat (length P) < 2 ^ 64 -> parses None R Q I ->
  parses None (frames ++ R) ((m, P) :: Q) (id :: I).
Proof.
  intros (p0 & ps & -> & HP & Hall) Hm Hid Hm32 Hlen HR. simpl. destruct (decide (ps = [])) as [->|Hne].
  - simpl in *. rewrite app_nil_r in HP. subst p0. by apply parses_whole.
  - eapply (parses_first _ _ _ _ (concat ps)); try done.
    + destruct ps as [|p' ps]; [done|]. inversion Hall; subst. simpl. by destruct p'.
    + by apply parses_rest.
Qed.

Section dispatch.
Context (d : Dispatcher) (Hh : fragment ∈ handlers d).

Lemma dispatch_small fuel m b : m ∈ handlers d -> m <> fragment -> dispatch fuel m b d = (Ok tt, log m b d).
Proof.
  intros Hm Hne. destruct fuel; cbn [dispatch]; unfold bind, gets; rewrite bool_decide_true by done; simpl;
    by destruct (N.eqb_spec m fragment).
Qed.

Lemma dispatch_fragment fuel b : dispatch (S fuel) fragment b d = on_fragment (dispatch fuel) b d.
Proof. cbn [dispatch]. unfold bind at 1, gets. by rewrite bool_decide_true, N.eqb_refl. Qed.
End dispatch.

(** The part of [P] that has been received is [got], and [p] comes next. *)
Lemma add_fragment_spec fuel d id m P got p ps :
  P = (got ++ p ++ ps)%list -> m <> fragment -> m ∈ handlers d ->
  add_fragment (dispatch fuel) id (mkPartial m (N.of_nat (length P)) got) p d =
    (Ok tt, if decide (ps = []) then set_partial_messages (delete id (partial_messages d)) (log m P d)
            else set_partial_messages (<[id := mkPartial m (N.of_nat (length P)) (got ++ p)]> (partial_messages d)) d).
Proof.
  intros HP Hne Hm. unfold add_fragment. cbn [partial_m partial_total_size partial_data].
  assert (length P = (length got + length p + length ps)%nat) as HL by (subst P; rewrite !length_app; lia).
  destruct (N.ltb_spec (N.of_nat (length P)) (N.of_nat (length p) + N.of_nat (length got))); [lia|].
  unfold bind at 1, modify. rewrite length_app. destruct (decide (ps = [])) as [->|Hps].
  - rewrite app_nil_r in HP. rewrite <- HP. simpl in HL. destruct (N.eqb_spec (N.of_nat (length got + length p)) (N.of_nat (length P))); [|lia].
    unfold bind. rewrite dispatch_small by done. unfold set_partial_messages, log. simpl. by rewrite delete_insert_eq.
  - destruct (N.eqb_spec (N.of_nat (length got + length p)) (N.of_nat (length P))); [|done].
    destruct ps; [done|simpl in HL; lia].
Qed.

Lemma dispatch_first d id m P p0 ps : fragment ∈ handlers d -> partial_messages d !! id = None ->
  id < 2 ^ 64 -> m < 2 ^ 32 -> N.of_nat (length P) < 2 ^ 64 -> P = (p0 ++ ps)%list -> m <> fragment -> m ∈ handlers d ->
  dispatch 1 fragment (initial_header id m (N.of_nat (length P)) ++ p0) d =
    (Ok tt, if decide (ps = []) then log m P d
            else set_partial_messages (<[id := mkPartial m (N.of_nat (length P)) p0]> (partial_messages d)) d).
Proof.
  intros Hh Hn Hid Hm HP HPs Hmf Hmh. rewrite dispatch_fragment by done. unfold on_fragment, initial_header. rewrite <- !app_assoc.
  unfold bind at 1, lift. rewrite read_int_app by done. cbn [fst snd]. unfold bind at 1, gets. rewrite Hn.
  unfold bind at 1. rewrite read_int_app by done. cbn [fst snd]. unfold bind at 1. rewrite read_int_app by done. cbn [fst snd].
  unfold bind, modify. rewrite (add_fragment_spec 0 _ id m P [] p0 ps) by done. unfold set_partial_messages, log. simpl. f_equal.
  destruct (decide (ps = [])); [|by rewrite insert_insert_eq]. rewrite delete_insert_id by done. by destruct d.
Qed.

Lemma dispatch_more d id m P got p ps : fragment ∈ handlers d ->
  partial_messages d !! id = Some (mkPartial m (N.of_nat (length P)) got) ->
  id < 2 ^ 64 -> P = (got ++ p ++ ps)%list -> m <> fragment -> m ∈ handlers d ->
  dispatch 1 fragment (le_split 8 id ++ p) d =
    (Ok tt, if decide (ps = []) then set_partial_messages (delete id (partial_messages d)) (log m P d)
            else set_partial_messages (<[id := mkPartial m (N.of_nat (length P)) (got ++ p)]> (partial_messages d)) d).
Proof.
  intros Hh Hs Hid HP Hmf Hmh. rewrite dispatch_fragment by done. unfold on_fragment.
  unfold bind at 1, lift. rewrite read_int_app by done. cbn [fst snd]. unfold bind at 1, gets. rewrite Hs.
  by apply add_fragment_spec.
Qed.

(** ** Several writers *)

(** The partial messages are those of the writers. *)
Definition tracks (pms : gmap N PartialMessage) (st : N -> option Received) : Prop := forall id p,
  pms !! id = Some p <->
  exists i m P got, st i = Some (id, m, P, got) /\ p = mkPartial m (N.of_nat (length P)) got.

Definition current (st : option Received) : option N := match st with Some (id, _, _, _) => Some id | None => None end.

Lemma tracks_set pms (st : N -> option Received) i id m (P got : bytes) :
  tracks pms st -> current (st i) = None \/ current (st i) = Some id -> (forall j, j <> i -> current (st j) <> Some id) ->
  tracks (<[id := mkPartial m (N.of_nat (length P)) got]> pms) (<[i := Some (id, m, P, got) : option Received]> st).
Proof.
  intros Ht Hi Hj id' p. destruct (decide (id' = id)) as [->|Hne].
  - rewrite lookup_insert_eq. split.
    + intros [= <-]. exists i, m, P, got. by rewrite fn_lookup_insert.
    + intros (j & m' & P' & got' & Hs & ->). destruct (decide (j = i)) as [->|Hne].
      * rewrite fn_lookup_insert in Hs. by simplify_eq.
      * rewrite fn_lookup_insert_ne in Hs by done. exfalso. apply (Hj j Hne). by rewrite Hs.
  - rewrite lookup_insert_ne, (Ht id' p) by done. split; intros (j & m' & P' & got' & Hs & ->); exists j, m', P', got'; (split; [|done]).
    + destruct (decide (j = i)) as [->|]; [|by rewrite fn_lookup_insert_ne]. rewrite Hs in Hi. destruct Hi; simplify_eq/=.
    + destruct (decide (j = i)) as [->|]; [rewrite fn_lookup_insert in Hs; by simplify_eq|by rewrite fn_lookup_insert_ne in Hs].
Qed.

Lemma tracks_clear pms st i id :
  tracks pms st -> current (st i) = Some id -> (forall j, j <> i -> current (st j) <> Some id) ->
  tracks (delete id pms) (<[i := None]> st).
Proof.
  intros Ht Hi Hj id' p. destruct (decide (id' = id)) as [->|Hne].
  - rewrite lookup_delete_eq. split; [done|]. intros (j & m' & P' & got' & Hs & _). destruct (decide (j = i)) as [->|Hne].
    + by rewrite fn_lookup_insert in Hs.
    + rewrite fn_lookup_insert_ne in Hs by done. exfalso. apply (Hj j Hne). by rewrite Hs.
  - rewrite lookup_delete_ne, (Ht id' p) by done. split; intros (j & m' & P' & got' & Hs & ->); exists j, m', P', got'; (split; [|done]).
    + destruct (decide (j = i)) as [->|]; [|by rewrite fn_lookup_insert_ne]. rewrite Hs in Hi. by simplify_eq/=.
    + destruct (decide (j = i)) as [->|]; [by rewrite fn_lookup_insert in Hs|by rewrite fn_lookup_insert_ne in Hs].
Qed.

Lemma tracks_same pms st i : tracks pms st -> st i = None -> tracks pms (<[i := None]> st).
Proof.
  intros Ht Hi id p. rewrite (Ht id p). split; intros (j & m & P & got & Hs & ->); exists j, m, P, got; (split; [|done]).
  - destruct (decide (j = i)) as [->|]; [congruence|by rewrite fn_lookup_insert_ne].
  - destruct (decide (j = i)) as [->|]; [by rewrite fn_lookup_insert in Hs|by rewrite fn_lookup_insert_ne in Hs].
Qed.

Lemma tracks_fresh pms st id : tracks pms st -> (forall j, current (st j) <> Some id) -> pms !! id = None.
Proof.
  intros Ht Hj. destruct (pms !! id) as [p|] eqn:Hp; [|done]. apply Ht in Hp as (i & m & P & got & Hs & _).
  exfalso. apply (Hj i). by rewrite Hs.
Qed.

(** The message in progress is among those that are held. *)
Lemma parses_handler H id m P got R Q I :
  parses (Some (id, m, P, got)) R Q I -> Forall (fun q : N * bytes => q.1 ∈ (H : gset N)) Q -> m ∈ H.
Proof.
  intros Hp. remember (Some (id, m, P, got)) as st eqn:Hst. revert got Hst.
  induction Hp; intros got' Hst HQ; simplify_eq.
  - by eapply IHHp.
  - by inversion HQ.
Qed.

(** A frame of writer [i] is dispatched. *)
Lemma dispatch_frame d st i f R Q I :
  fragment ∈ handlers d -> Forall (fun q => q.1 ∈ handlers d) Q -> parses (st i) (f :: R) Q I ->
  tracks (partial_messages d) st ->
  (forall j id, j <> i -> current (st i) = Some id \/ id ∈ I -> current (st j) <> Some id) ->
  exists d' x D Q' I', dispatch 1 f.1 f.2 d = (Ok tt, d') /\ parses x R Q' I' /\ Q = (D ++ Q')%list /\
    handled d' = (handled d ++ D)%list /\ handlers d' = handlers d /\ tracks (partial_messages d') (<[i := x]> st) /\
    (forall id, current x = Some id \/ id ∈ I' -> current (st i) = Some id \/ id ∈ I).
Proof.
  intros Hh HQ Hp Ht Hj. inversion Hp as [|m b R' Q' I' Hm HR|id m P p0 ps R' Q' I' Hm Hid Hm32 HP HPs Hps HR
    |id m P R' Q' I' Hm Hid Hm32 HP HR|id m P got p ps R' Q' I' Hm Hid HPs Hps HR|id m P got p R' Q' I' Hm Hid HPs HR]; subst; cbn [fst snd more].
  - inversion HQ as [|? ? Hmh _]; subst. exists (log m b d), None, [(m, b)], Q', I. split_and!; try done.
    + by apply dispatch_small.
    + by apply tracks_same.
  - assert (m ∈ handlers d) as Hmh by (by eapply parses_handler).
    assert (forall j, current (st j) <> Some id) as Hfresh.
    { intros j. destruct (decide (j = i)) as [->|Hne]; [by rewrite <- H|]. apply Hj; [done|]. right. apply list_elem_of_here. }
    exists (set_partial_messages (<[id := mkPartial m (N.of_nat (length (p0 ++ ps))) p0]> (partial_messages d)) d), (Some (id, m, p0 ++ ps, p0)%list), [], Q, I'. split_and!; try done.
    + rewrite (dispatch_first d id m (p0 ++ ps) p0 ps) by (done || exact (tracks_fresh _ _ _ Ht Hfresh)). by destruct (decide (ps = [])).
    + by rewrite app_nil_r.
    + apply tracks_set; [done|left; by rewrite <- H|done].
    + simpl. intros id' [[= ->]|?]; right; [apply list_elem_of_here|by apply list_elem_of_further].
  - inversion HQ as [|? ? Hmh _]; subst. simpl in Hmh.
    assert (forall j, current (st j) <> Some id) as Hfresh.
    { intros j. destruct (decide (j = i)) as [->|Hne]; [by rewrite <- H|]. apply Hj; [done|]. right. apply list_elem_of_here. }
    exists (log m P d), None, [(m, P)], Q', I'. split_and!; try done.
    + rewrite (dispatch_first d id m P P []) by (done || exact (tracks_fresh _ _ _ Ht Hfresh) || by rewrite app_nil_r). by rewrite decide_True.
    + by apply tracks_same.
    + intros id' [?|?]; [done|]. right. by apply list_elem_of_further.
  - assert (m ∈ handlers d) as Hmh by (by eapply parses_handler).
    exists (set_partial_messages (<[id := mkPartial m (N.of_nat (length (got ++ p ++ ps))) (got ++ p)]> (partial_messages d)) d),
      (Some (id, m, got ++ p ++ ps, got ++ p)%list), [], Q, I. split_and!; try done.
    + rewrite (dispatch_more d id m (got ++ p ++ ps) got p ps); try done; [by destruct (decide (ps = []))|].
      apply Ht. by exists i, m, (got ++ p ++ ps)%list, got.
    + by rewrite app_nil_r.
    + apply tracks_set; [done|right; by rewrite <- H|]. intros j Hne. apply Hj; [done|]. left. by rewrite <- H.
  - inversion HQ as [|? ? Hmh _]; subst. simpl in Hmh.
    exists (set_partial_messages (delete id (partial_messages d)) (log m (got ++ p) d)), None, [(m, got ++ p)%list], Q', I. split_and!; try done.
    + rewrite (dispatch_more d id m (got ++ p) got p []); try done; [|by rewrite app_nil_r].
      apply Ht. by exists i, m, (got ++ p)%list, got.
    + simpl. apply tracks_clear; [done|by rewrite <- H|]. intros j Hne. apply Hj; [done|]. left. by rewrite <- H.
    + intros id' [?|?]; [done|by right].
Qed.

Definition uses (st : option Received) (I : list N) (id : N) : Prop := current st = Some id \/ id ∈ I.

Lemma of_writer_cons i (j : N) (f : N * bytes) out :
  of_writer i ((j, f) :: out) = if decide (j = i) then (j, f) :: of_writer i out else of_writer i out.
Proof. unfold of_writer. by rewrite filter_cons. Qed.

Lemma of_writer_tag i j (D : list (N * bytes)) :
  (of_writer j ((fun q => (i, q)) <$> D)).*2 = if decide (j = i) then D else [].
Proof.
  unfold of_writer. destruct (decide (j = i)) as [->|Hne].
  - rewrite filter_all; [|by apply Forall_fmap, Forall_forall]. rewrite <- list_fmap_compose. apply list_fmap_id.
  - rewrite filter_none; [done|]. apply Forall_fmap, Forall_forall. simpl. congruence.
Qed.

Lemma dispatch_stream out : forall d (st : N -> option Received) (R Q : N -> list (N * bytes)) (I : N -> list N),
  fragment ∈ handlers d -> (forall i, Forall (fun q => q.1 ∈ handlers d) (Q i)) ->
  (forall i, parses (st i) (R i) (Q i) (I i)) -> tracks (partial_messages d) st ->
  (forall i j id, i <> j -> uses (st i) (I i) id -> ~ uses (st j) (I j) id) ->
  (forall i, (of_writer i out).*2 `prefix_of` R i) ->
  exists d' D, dispatch_all out.*2 d = (Ok tt, d') /\ handled d' = (handled d ++ D.*2)%list /\
    forall i, exists rest, Q i = ((of_writer i D).*2 ++ rest)%list /\ ((of_writer i out).*2 = R i -> rest = []).
Proof.
  induction out as [|[i f] out IH]; intros d st R Q I Hh HQ Hp Ht Hdis Hpre.
  { exists d, []. split_and!; [done|by rewrite app_nil_r|]. intros i. exists (Q i). split; [done|]. simpl. intros HR.
    specialize (Hp i). rewrite <- HR in Hp. by inversion Hp. }
  destruct (Hpre i) as [R' HRi]. rewrite of_writer_cons, decide_True in HRi by done. simpl in HRi. set (Ri := ((of_writer i out).*2 ++ R')%list).
  assert (parses (st i) (f :: Ri) (Q i) (I i)) as Hpi by (pose proof (Hp i) as Hpi; by rewrite HRi in Hpi).
  destruct (dispatch_frame d st i f Ri (Q i) (I i) Hh (HQ i) Hpi Ht) as (d1 & x & D0 & Q' & I' & Hrun & Hp' & HQi & Hhd & Hhs & Ht' & Huse).
  { intros j id Hne Hu Hc. apply (Hdis i j id); [done|done|by left]. }
  destruct (IH d1 (<[i := x]> st) (<[i := Ri]> R) (<[i := Q']> Q) (<[i := I']> I)) as (d2 & D & Hrun2 & Hhd2 & Hres).
  - by rewrite Hhs.
  - intros j. rewrite Hhs. destruct (decide (j = i)) as [->|]; [rewrite fn_lookup_insert|by rewrite fn_lookup_insert_ne].
    specialize (HQ i). rewrite HQi in HQ. by apply Forall_app in HQ as [_ HQ].
  - intros j. destruct (decide (j = i)) as [->|]; [by rewrite !fn_lookup_insert|by rewrite !fn_lookup_insert_ne].
  - done.
  - intros j1 j2 id Hne. destruct (decide (j1 = i)) as [->|H1].
    + rewrite !fn_lookup_insert, !fn_lookup_insert_ne by done. intros Hu. apply (Hdis i j2 id); [done|exact (Huse id Hu)].
    + rewrite !(fn_lookup_insert_ne _ _ j1) by done. destruct (decide (j2 = i)) as [->|H2].
      * rewrite !fn_lookup_insert. intros Hu1 Hu2. apply (Hdis j1 i id); [done|done|exact (Huse id Hu2)].
      * rewrite !fn_lookup_insert_ne by done. by apply (Hdis j1 j2).
  - intros j. destruct (decide (j = i)) as [->|Hne]; [rewrite fn_lookup_insert; by exists R'|rewrite fn_lookup_insert_ne by done].
    specialize (Hpre j). by rewrite of_writer_cons, decide_False in Hpre.
  - exists d2, (((fun q => (i, q)) <$> D0) ++ D)%list. split_and!.
    + unfold dispatch_all in *. destruct f as [m b]. cbn [fmap list_fmap for_each]. unfold bind. simpl in Hrun |- *. by rewrite Hrun.
    + rewrite Hhd2, Hhd, fmap_app, <- list_fmap_compose, <- app_assoc. f_equal. f_equal. symmetry. apply list_fmap_id.
    + intros j. destruct (Hres j) as (rest & HQj & Hfull). exists rest. rewrite of_writer_app, fmap_app, of_writer_cons, of_writer_tag.
      destruct (decide (j = i)) as [->|Hne].
      * rewrite fn_lookup_insert in HQj, Hfull. rewrite decide_True by done. split; [by rewrite HQi, HQj, app_assoc|].
        simpl. rewrite HRi. intros HR. apply Hfull. by simplify_eq/=.
      * rewrite fn_lookup_insert_ne in HQj, Hfull by done. by rewrite decide_False.
Qed.

(** The frames of the messages a writer sends, each with its identifier. *)
Inductive sent_all (F : N) : list (N * Call) -> list (N * bytes) -> Prop :=
| sent_nil : sent_all F [] []
| sent_cons id c fs l frames :
    sent_as F id c fs -> sent_all F l frames -> sent_all F ((id, c) :: l) (fs ++ frames).

Definition sendable (H : gset N) (x : N * Call) : Prop :=
  x.1 < 2 ^ 64 /\ call_message x.2 < 2 ^ 32 /\ total_size x.2 < 2 ^ 64 /\ call_message x.2 <> fragment /\ call_message x.2 ∈ H.

(** The identifiers of the messages that are sent as fragments. *)
Definition large_ids (F : N) (l : list (N * Call)) : list N := (filter (fun x => F < total_size x.2) l).*1.

Definition contents (l : list (N * Call)) : list (N * bytes) := (fun x => (call_message x.2, payload x.2)) <$> l.

Lemma parses_sent F H l frames : sent_all F l frames -> Forall (sendable H) l ->
  parses None frames (contents l) (large_ids F l).
Proof.
  induction 1 as [|id c fs l frames Hs Hall IH]; intros Hl; [constructor|]. inversion Hl as [|? ? (Hid & Hm & Ht & Hne & _) Hl']; subst. simpl in *.
  specialize (IH Hl'). unfold sent_as in Hs. unfold large_ids. rewrite filter_cons. cbn [snd].
  destruct (N.leb_spec (total_size c) F) as [Hle|Hlt].
  - subst fs. rewrite decide_False by lia. simpl. by apply parses_small.
  - rewrite decide_True by lia. apply (parses_framed id (call_message c) (payload c)); rewrite ?length_payload; done.
Qed.

(** C31. The reconstructor restores what was sent. Any number of writers send
    messages of any size, and their frames arrive interleaved in any way that
    keeps the order of each writer. If no two writers use the same identifier,
    every frame is accepted and the handlers are called with messages that were
    sent, whole, once, and in the order of each writer; with all of them, once
    all frames of the writer have arrived. *)
Theorem oversized_delivers F (H : gset N) (sent : N -> list (N * Call)) (frames : N -> list (N * bytes)) (out : list (N * (N * bytes))) :
  fragment ∈ H -> (forall i, sent_all F (sent i) (frames i)) -> (forall i, Forall (sendable H) (sent i)) ->
  (forall i j id, i <> j -> id ∈ large_ids F (sent i) -> id ∉ large_ids F (sent j)) ->
  (forall i, (of_writer i out).*2 `prefix_of` frames i) ->
  exists d D, dispatch_all out.*2 (mkDispatcher H ∅ []) = (Ok tt, d) /\ handled d = D.*2 /\
    forall i, (of_writer i D).*2 `prefix_of` contents (sent i) /\
      ((of_writer i out).*2 = frames i -> (of_writer i D).*2 = contents (sent i)).
Proof.
  intros Hf Hsent Hok Hdis Hpre.
  destruct (dispatch_stream out (mkDispatcher H ∅ []) (fun _ => None) frames (fun i => contents (sent i)) (fun i => large_ids F (sent i)))
    as (d & D & Hrun & Hhd & Hres); try done.
  - intros i. apply Forall_fmap. eapply Forall_impl; [|exact (Hok i)]. by intros x (_ & _ & _ & _ & Hx).
  - intros i. by eapply parses_sent.
  - intros id p. cbn [partial_messages]. rewrite lookup_empty. split; [done|]. by intros (? & ? & ? & ? & ? & _).
  - intros i j id Hne [?|Hi] [?|Hj]; try done. exact (Hdis i j id Hne Hi Hj).
  - exists d, D. split_and!; try done. intros i. destruct (Hres i) as (rest & HQ & Hfull). rewrite HQ. split; [by exists rest|].
    intros Hall. by rewrite (Hfull Hall), app_nil_r.
Qed.

(** ** Examples *)

#[local] Transparent le_split.

Definition ex_payload (b : Byte.byte) (n : nat) : bytes := replicate n b.
Definition ex_large (m : N) (b : Byte.byte) : Call := mkCall m true [ex_payload b 4; ex_payload b 32].
Definition ex_writer : Writer Mailbox := mkWriter (mkMailbox [] 0) 24 100 None.
Lemma ex_accepts size : 8 < size <= 24 -> @accepts Mailbox _ _ fragment size.
Proof. intros Hs. simpl. unfold mb_span. lia. Qed.

Lemma oversized_frames_witness :
  exists id sls o', write_multiple (ex_large 5 Byte.x01) ex_writer = (Ok true, o') /\
    represents (underlying_writer o') sls /\ sent_as 24 id (ex_large 5 Byte.x01) (frame <$> sls).
Proof.
  destruct (oversized_frames 24 eq_refl ex_accepts ex_writer [] (ex_large 5 Byte.x01))
    as (id & sls & o' & H1 & _ & _ & H2 & _ & H3 & _).
  - split; [done|]. split; constructor.
  - constructor.
  - done.
  - done.
  - done.
  - done.
  - done.
  - exists id, sls, o'. split; [exact H1|]. split; [exact H2|exact H3].
Defined.

(** The frames of two messages with identifiers 3 and 4. *)
Definition ex_pieces (id m : N) (b : Byte.byte) : list (N * bytes) :=
  (fragment, initial_header id m 36 ++ replicate 4 b)%list :: (more id <$> [replicate 16 b; replicate 16 b]).

Lemma ex_sent_as id m b : sent_all 24 [(id, ex_large m b)] (ex_pieces id m b).
Proof.
  rewrite <- (app_nil_r (ex_pieces id m b)). constructor; [|constructor].
  exists (replicate 4 b), [replicate 16 b; replicate 16 b]. split_and!; [done|done|by repeat constructor].
Qed.

Definition ex_senders (i : N) : list (N * Call) :=
  if i =? 0 then [(3, ex_large 5 Byte.x01)] else if i =? 1 then [(4, ex_large 6 Byte.x02)] else [].
Definition ex_frames (i : N) : list (N * bytes) :=
  if i =? 0 then ex_pieces 3 5 Byte.x01 else if i =? 1 then ex_pieces 4 6 Byte.x02 else [].
(** The first message is whole, the second lacks a fragment. *)
Definition ex_stream : list (N * (N * bytes)) :=
  match ex_pieces 3 5 Byte.x01, ex_pieces 4 6 Byte.x02 with
  | [a1; a2; a3], b1 :: b2 :: _ => [(0, a1); (1, b1); (0, a2); (1, b2); (0, a3)]
  | _, _ => []
  end.

Lemma oversized_delivers_witness :
  exists d D, dispatch_all ex_stream.*2 (mkDispatcher {[fragment; 5; 6]} ∅ []) = (Ok tt, d) /\ handled d = D.*2 /\
    (of_writer 0 D).*2 = [(5, replicate 36 Byte.x01)].
Proof.
  destruct (oversized_delivers 24 {[fragment; 5; 6]} ex_senders ex_frames ex_stream) as (d & D & H1 & H2 & H3).
  - set_solver.
  - intros i. unfold ex_senders, ex_frames. destruct (N.eqb_spec i 0); [apply ex_sent_as|].
    destruct (N.eqb_spec i 1); [apply ex_sent_as|constructor].
  - intros i. unfold ex_senders. destruct (N.eqb_spec i 0); [|destruct (N.eqb_spec i 1)]; repeat constructor; simpl; set_solver.
  - intros i j id Hne. unfold ex_senders. destruct (N.eqb_spec i 0), (N.eqb_spec j 0); try lia; destruct (N.eqb_spec i 1), (N.eqb_spec j 1); try lia;
      unfold large_ids; simpl; set_solver.
  - intros i. unfold ex_frames. destruct (N.eqb_spec i 0) as [->|]; [by exists []|]. destruct (N.eqb_spec i 1) as [->|]; [by eexists [_]|].
    unfold of_writer. rewrite filter_none; [done|]. repeat (constructor; [simpl; lia|]). constructor.
  - exists d, D. split; [exact H1|]. split; [exact H2|]. destruct (H3 0) as [_ H0]. rewrite H0; [vm_eq|vm_eq].
Defined.

(** ** Identifiers on the host

    The host's oversized writers write through writers that do not block, which
    return no identifier for a message that is queued. *)
#[local] Existing Instances NonBlocking.NonBlocking_writer NonBlocking.ex_alloc.

Definition ex_host_writer : Writer (NonBlocking.NonBlockingWriter Mailbox) :=
  mkWriter (NonBlocking.mkNonBlocking (mkMailbox [] 0) []) 24 100 None.

(** What a writer queues when the ring buffer is full. *)
Definition ex_queue (m : N) (b : Byte.byte) : list (N * bytes) :=
  NonBlocking.queued <$> NonBlocking.pending (underlying_writer (write_multiple (ex_large m b) ex_host_writer).2).

Definition ex_mixed : list (N * bytes) :=
  match ex_queue 5 Byte.x01, ex_queue 6 Byte.x02 with
  | a1 :: a2 :: _, b1 :: _ => [a1; b1; a2]
  | _, _ => []
  end.

Definition ex_mixed_handled : list (N * bytes) :=
  match dispatch_all ex_mixed (mkDispatcher {[fragment; 5; 6]} ∅ []) with
  | (Ok _, d) => handled d
  | _ => []
  end.

(** Two oversized writers of the host that write while the ring buffer is full
    give their messages the same identifier, 0. When their fragments reach the
    reader interleaved, each writer's in order, the reader puts fragments of
    both messages together and hands the result to the handler as a message
    that nobody sent. *)
Theorem identifiers_collide :
  exists m x, ex_mixed_handled = [(m, x)] /\ length (ex_queue 5 Byte.x01) = 3%nat /\ length (ex_queue 6 Byte.x02) = 3%nat /\
    x <> payload (ex_large 5 Byte.x01) /\ x <> payload (ex_large 6 Byte.x02).
Proof.
  assert (ex_mixed_handled = [(5, replicate 4 Byte.x01 ++ le_split 4 6 ++ le_split 8 36 ++ replicate 4 Byte.x02 ++ replicate 16 Byte.x01)%list]) as Hh by vm_eq.
  eexists _, _. split; [exact Hh|]. split; [vm_eq|]. split; [vm_eq|]. split; discriminate.
Qed.
End OversizedSpec.
