(* ===== verification/LedgerFile.v ===== *)
(** * Ledger files of the host

    The names of ledger files (src/host/ledger_filenames.h) and
    [asynchost::LedgerFile] (src/host/ledger.h) over a file system: a directory
    maps names to files, and an open file stays the same file when it is
    renamed or removed. Input and output do not fail, and the time-bound log
    lines are left out. *)

From S2P Require Import Prelude LedgerEntries ViewHistory TxStatus.
From Stdlib Require Import Init.Byte Strings.Byte Ascii.

Module LedgerFile.
Open Scope N_scope.
Open Scope m_scope.

(** ** ledger_filenames.h *)

Definition ledger_committed_suffix : string := ".committed".
Definition ledger_start_idx_delimiter : ascii := "_"%char.
Definition ledger_last_idx_delimiter : ascii := "-"%char.
Definition ledger_recovery_file_suffix : string := ".recovery".
Definition ledger_ignored_file_suffix : string := ".ignored".

(** What follows the first occurrence of a character. *)
Fixpoint after (c : ascii) (s : string) : option string :=
  match s with
  | String.EmptyString => None
  | String.String c' s => if Ascii.eqb c c' then Some s else after c s
  end.

(** [std::stoull]: white space, a sign, and digits. *)
Definition is_space (c : ascii) : bool :=
  let n := N_of_ascii c in (n =? 32) || ((9 <=? n) && (n <=? 13)).

Fixpoint skip_space (s : string) : string :=
  match s with
  | String.String c s' => if is_space c then skip_space s' else s
  | String.EmptyString => s
  end.

Definition stoull_digits (s : string) : result N :=
  match from_chars s with
  | (_, errc_ok, v) => Ok v
  | (_, invalid_argument, _) => Throw (LogicError "stoull")
  | (_, result_out_of_range, _) => Throw OutOfRange
  end.

Definition stoull (s : string) : result N :=
  match skip_space s with
  | String.String c s' =>
      if Ascii.eqb c "+"%char then stoull_digits s'
      else if Ascii.eqb c "-"%char then v <~ stoull_digits s' ;;; Ok (u64_sub 0 v)
      else stoull_digits (String.String c s')
  | String.EmptyString => Throw (LogicError "stoull")
  end.

Definition get_start_idx_from_file_name (file_name : string) : result N :=
  match after ledger_start_idx_delimiter file_name with
  | None => Throw (LogicError "Ledger file name does not contain a start seqno")
  | Some s => stoull s
  end.

Definition get_last_idx_from_file_name (file_name : string) : result (option N) :=
  match after ledger_last_idx_delimiter file_name with
  | None => Ok None
  | Some s => v <~ stoull s ;;; Ok (Some v)
  end.

(** [ends_with]; [remove_suffix] gives the rest. *)
Fixpoint strip_suffix (suffix s : string) : option string :=
  if String.eqb s suffix then Some String.EmptyString
  else
    match s with
    | String.EmptyString => None
    | String.String c s => String.String c <$> strip_suffix suffix s
    end.
Definition ends_with (suffix s : string) : bool := bool_decide (is_Some (strip_suffix suffix s)).

Definition is_ledger_file_name_committed (s : string) : bool := ends_with ledger_committed_suffix s.
Definition is_ledger_file_name_recovery (s : string) : bool := ends_with ledger_recovery_file_suffix s.
Definition is_ledger_file_name_ignored (s : string) : bool := ends_with ledger_ignored_file_suffix s.
Definition is_ledger_file_ignored (s : string) : bool :=
  is_ledger_file_name_recovery s || is_ledger_file_name_ignored s.
Definition remove_suffix (s suffix : string) : string := default s (strip_suffix suffix s).
Definition remove_recovery_suffix (s : string) : string := remove_suffix s ledger_recovery_file_suffix.

(** ** Files *)

Definition Directory : Type := gmap string N.

Record Disk := mkDisk { contents : gmap N bytes; next_file : N; ledger_dir : Directory }.

Definition content (file : N) (d : Disk) : bytes := default [] (contents d !! file).
Definition set_content (file : N) (b : bytes) (d : Disk) : Disk :=
  mkDisk (<[file := b]> (contents d)) (next_file d) (ledger_dir d).
Definition set_ledger_dir (v : Directory) (d : Disk) : Disk := mkDisk (contents d) (next_file d) v.

(** [fseeko] and [fwrite]: a gap is filled with zeros. *)
Definition pad (len : N) (b : bytes) : bytes := (b ++ replicate (N.to_nat len - length b) x00)%list.
Definition pwrite (pos : N) (data b : bytes) : bytes :=
  (take (N.to_nat pos) (pad pos b) ++ data ++ drop (N.to_nat pos + length data) b)%list.
(** [fseeko] and [fread] of one item. *)
Definition pread (pos size : N) (b : bytes) : option bytes :=
  if (0 <? size) && (pos + size <=? N.of_nat (length b))
  then Some (take (N.to_nat size) (drop (N.to_nat pos) b)) else None.
Definition ftruncate (len : N) (b : bytes) : bytes := take (N.to_nat len) (pad len b).

Definition write_file (file pos : N) (data : bytes) : M Disk unit :=
  modify (fun d => set_content file (pwrite pos data (content file d)) d).

(** ** LedgerFile *)

Record t := mk {
  file_name : string;
  file : N;
  start_idx : N;
  total_len : N;
  positions : list N;
  completed : bool;
  committed : bool;
  recovery : bool;
  from_existing_file : bool;
}.

Definition eta_t (f : t) :=
  mk (file_name f) (file f) (start_idx f) (total_len f) (positions f) (completed f) (committed f) (recovery f) (from_existing_file f).
Definition set_file_name (v : string) (f : t) : t := ltac:(set_field eta_t (file_name f) v f).
Definition set_total_len (v : N) (f : t) : t := ltac:(set_field eta_t (total_len f) v f).
Definition set_positions (v : list N) (f : t) : t := ltac:(set_field eta_t (positions f) v f).
Definition set_completed (v : bool) (f : t) : t := ltac:(set_field eta_t (completed f) v f).
Definition set_committed (v : bool) (f : t) : t := ltac:(set_field eta_t (committed f) v f).
Definition set_recovery (v : bool) (f : t) : t := ltac:(set_field eta_t (recovery f) v f).
Definition set_from_existing_file (v : bool) (f : t) : t := ltac:(set_field eta_t (from_existing_file f) v f).

Definition positions_offset_header_size : N := 8.
(** [positions] is a vector of [uint32_t]. *)
Definition u32 (n : N) : N := n mod 2 ^ 32.
Definition position_size : N := 4.

Definition get_last_idx (f : t) : N := u64_sub (start_idx f + N.of_nat (length (positions f))) 1.
Definition position_at (i : N) (f : t) : result N :=
  match positions f !! N.to_nat i with Some p => Ok p | None => Throw OutOfRange end.

(** The constructor that creates a file. *)
Definition new_name (start_idx : N) (recovery : bool) : string :=
  let name := String.append "ledger" (String.append "_" (to_string start_idx)) in
  if recovery then String.append name ledger_recovery_file_suffix else name.

Definition new_ledger_file (start_idx : N) (recovery : bool) : M Disk t :=
  let name := new_name start_idx recovery in
  d <- gets (fun d => d) ;;;
  match ledger_dir d !! name with
  | Some _ => throw (LogicError "Cannot create new ledger file as it already exists")
  | None =>
      let file := next_file d in
      modify (fun d => mkDisk (<[file := []]> (contents d)) (file + 1) (<[name := file]> (ledger_dir d))) ;;;
      ret (mk name file start_idx positions_offset_header_size [] false false recovery false)
  end.

(** The loop over the entries of a file that was not completed: [pos] is
    [total_len], [len] what is left. Each round reads at least a header. *)
Fixpoint recover_entries (fuel : nat) (b : bytes) (pos len : N) (positions : list N) : list N * N :=
  match fuel with
  | O => (positions, pos)
  | S fuel =>
      if len <? serialised_entry_header_size then (positions, pos)
      else
        match pread pos serialised_entry_header_size b with
        | None => (positions, pos)
        | Some h =>
            let len := len - serialised_entry_header_size in
            let entry_size := header_size (decode_header h) in
            if len <? entry_size then (positions, pos)
            else recover_entries fuel b (pos + (serialised_entry_header_size + entry_size)) (len - entry_size)
                   (positions ++ [u32 pos])
        end
  end.

(** The table of positions that follows [table_offset]. *)
Fixpoint read_table (n : nat) (b : bytes) : list N :=
  match n with
  | O => []
  | S n => le_combine (take 4 b) :: read_table n (drop 4 b)
  end.

(** The constructor that recovers a file of directory [dir]. *)
Definition open_ledger_file (dir : Directory) (name : string) (from_existing : bool) : M Disk t :=
  let committed := is_ledger_file_name_committed name in
  start_idx <- lift (get_start_idx_from_file_name name) ;;;
  match dir !! name with
  | None => throw (LogicError "Unable to open ledger file")
  | Some file =>
      b <- gets (content file) ;;;
      let total_file_size := N.of_nat (length b) in
      match pread 0 positions_offset_header_size b with
      | None => throw (LogicError "Failed to read positions offset from ledger file")
      | Some h =>
          let table_offset := le_combine h in
          if committed && (table_offset =? 0)
          then throw (LogicError "Committed ledger file cannot be read: invalid table offset (0)")
          else if from_existing
          then ret (mk name file start_idx positions_offset_header_size [] false committed false true)
          else if negb (table_offset =? 0) then
            if total_file_size <? table_offset then throw (LogicError "Invalid table offset greater than total file size")
            else
              let n := (total_file_size - table_offset) / position_size in
              ret (mk name file start_idx table_offset (read_table (N.to_nat n) (drop (N.to_nat table_offset) b))
                     true committed false false)
          else
            let '(ps, len) := recover_entries (length b) b positions_offset_header_size
                                (u64_sub total_file_size positions_offset_header_size) [] in
            ret (mk name file start_idx len ps false committed false false)
      end
  end.

(** [truncate]: also returns whether the file was removed. *)
Definition truncate (idx : N) (remove_file_if_empty : bool) (f : t) : M Disk (t * bool) :=
  if committed f || (idx <? u64_sub (start_idx f) 1) || (completed f && (get_last_idx f <=? idx))
  then ret (f, false)
  else if remove_file_if_empty && (idx =? u64_sub (start_idx f) 1)
  then
    dir <- gets ledger_dir ;;;
    match dir !! file_name f with
    | None => throw (LogicError "Could not remove file")
    | Some _ =>
        modify (set_ledger_dir (delete (file_name f) dir)) ;;;
        ret (f, true)
    end
  else
    write_file (file f) 0 (le_split 8 0) ;;;
    let f := set_completed false f in
    f <- (if negb (idx =? get_last_idx f) then
            p <- lift (position_at (idx + 1 - start_idx f) f) ;;;
            ret (set_positions (take (N.to_nat (idx + 1 - start_idx f)) (positions f)) (set_total_len p f))
          else ret f) ;;;
    modify (fun d => set_content (file f) (ftruncate (total_len f) (content (file f) d)) d) ;;;
    ret (f, false).

(** [fwrite] to a file; a committed file is open for reading only. *)
Definition fwrite (pos : N) (data : bytes) (f : t) : M Disk unit :=
  if committed f || (length data =? 0)%nat then throw (LogicError "Failed to write entry to ledger")
  else write_file (file f) pos data.

(** [write_entry]: the file, the index of the entry, and whether the file was
    truncated first. *)
Definition write_entry (data : bytes) (f : t) : M Disk (t * N * bool) :=
  r <- (if from_existing_file f then
          b <- gets (content (file f)) ;;;
          if bool_decide (pread (total_len f) (N.of_nat (length data)) b = Some data) then ret (f, false, false)
          else
            r <- truncate (get_last_idx f) false f ;;;
            ret (set_from_existing_file false r.1, true, true)
        else ret (f, true, false)) ;;;
  let '(f, should_write, has_truncated) := r in
  (if should_write then fwrite (total_len f) data f else ret tt) ;;;
  let f := set_total_len (total_len f + N.of_nat (length data))
             (set_positions (positions f ++ [u32 (total_len f)]) f) in
  ret (f, get_last_idx f, has_truncated).

(** The loop halves the range until it fits. *)
Fixpoint entries_size_loop (fuel : nat) (from to : N) (max_size : option N) (f : t) : result (N * N) :=
  match fuel with
  | O => Throw OutOfFuel
  | S fuel =>
      position_to <~ (if to =? get_last_idx f then Ok (total_len f) else position_at (to + 1 - start_idx f) f) ;;;
      p <~ position_at (from - start_idx f) f ;;;
      let size := u64_sub position_to p in
      match max_size with
      | None => Ok (size, to)
      | Some max =>
          if size <=? max then Ok (size, to)
          else if from =? to then Ok (0, 0)
          else entries_size_loop fuel from (from + (to - from) / 2) max_size f
      end
  end.

Definition entries_size (from to : N) (max_size : option N) (f : t) : result (N * N) :=
  if (from <? start_idx f) || (to <? from) || (get_last_idx f <? to) then Ok (0, 0)
  else entries_size_loop (S (N.to_nat (to - from))) from to max_size f.

Record LedgerReadResult := mkReadResult { data : bytes; end_idx : N }.

Definition read_entries (from to : N) (max_size : option N) (f : t) : M Disk (option LedgerReadResult) :=
  if (from <? start_idx f) || (get_last_idx f <? to) || (to <? from) then ret None
  else
    r <- lift (entries_size from to max_size f) ;;;
    let '(size, to_) := r in
    if size =? 0 then ret None
    else
      p <- lift (position_at (from - start_idx f) f) ;;;
      b <- gets (content (file f)) ;;;
      match pread p size b with
      | None => throw (LogicError "Failed to read entry range from file")
      | Some entries => ret (Some (mkReadResult entries to_))
      end.

Definition write_table (ps : list N) : bytes := concat (le_split 4 <$> ps).

Definition complete (f : t) : M Disk t :=
  if completed f then ret f
  else
    f <- (if from_existing_file f then r <- truncate (get_last_idx f) false f ;;; ret r.1 else ret f) ;;;
    write_file (file f) (total_len f) (write_table (positions f)) ;;;
    write_file (file f) 0 (le_split 8 (total_len f)) ;;;
    ret (set_completed true f).

(** The exception of [files::rename] is caught. *)
Definition rename (new_file_name : string) (f : t) : M Disk t :=
  modify (fun d =>
    match ledger_dir d !! file_name f with
    | Some i => set_ledger_dir (<[new_file_name := i]> (delete (file_name f) (ledger_dir d))) d
    | None => d
    end) ;;;
  ret (set_file_name new_file_name f).

(** [open()] *)
Definition open_recovered (f : t) : M Disk t :=
  f <- rename (remove_recovery_suffix (file_name f)) f ;;;
  ret (set_recovery false f).

Definition committed_name (start_idx last_idx : N) (recovery : bool) : string :=
  let name :=
    String.append "ledger" (String.append "_" (String.append (to_string start_idx)
      (String.append "-" (String.append (to_string last_idx) ledger_committed_suffix)))) in
  if recovery then String.append name ledger_recovery_file_suffix else name.

Definition commit (idx : N) (f : t) : M Disk (t * bool) :=
  if negb (completed f) || committed f || negb (idx =? get_last_idx f) then ret (f, false)
  else
    f <- rename (committed_name (start_idx f) (get_last_idx f) (recovery f)) f ;;;
    ret (set_committed true f, negb (recovery f)).
End LedgerFile.
