(* ===== verification/LedgerFileSpec.v ===== *)
(** * Ledger files of the host: proofs

    A ledger file holds a sequence of entries: what it contains, the positions
    it keeps, and what every operation does to them. *)

From S2P Require Import Prelude LedgerEntries TxStatus LedgerFile.
From Stdlib Require Import Init.Byte Strings.Byte.

Module LedgerFileSpec.
Import LedgerFile.
Open Scope N_scope.
Open Scope m_scope.

(** The first entry is written after eight zeros. *)
Lemma pwrite_new e : pwrite 8 e [] = (le_split 8 0 ++ e)%list.
Proof. unfold pwrite. rewrite drop_nil, app_nil_r. done. Qed.

Lemma le_combine_split_zero n : le_combine (le_split n 0) = 0.
Proof. rewrite le_combine_split. apply N.Div0.mod_0_l. Qed.

#[local] Opaque le_split.

(** ** Bytes *)

Definition size (b : bytes) : N := N.of_nat (length b).
(** The size of a sequence of entries. *)
Definition sizes (es : list bytes) : N := size (concat es).

Lemma size_app a b : size (a ++ b) = size a + size b.
Proof. unfold size. rewrite length_app. lia. Qed.

Lemma sizes_app a b : sizes (a ++ b) = sizes a + sizes b.
Proof. unfold sizes. by rewrite concat_app, size_app. Qed.

Lemma sizes_cons e es : sizes (e :: es) = size e + sizes es.
Proof. unfold sizes. simpl. apply size_app. Qed.

Lemma pread_app a b c n : 0 < n -> size b = n -> pread (size a) n (a ++ b ++ c) = Some b.
Proof.
  intros Hn Hb. unfold pread, size in *. rewrite !length_app. destruct (N.ltb_spec 0 n); [|lia].
  destruct (N.leb_spec (N.of_nat (length a) + n) (N.of_nat (length a + (length b + length c)))); [|lia]. simpl. f_equal.
  rewrite Nat2N.id, drop_app_length. apply take_app_length'. lia.
Qed.

Lemma pad_id n b : n <= size b -> pad n b = b.
Proof. intros Hn. unfold pad, size in *. replace (N.to_nat n - length b)%nat with O by lia. simpl. by rewrite app_nil_r. Qed.

(** Writing at the end. *)
Lemma pwrite_end data b : pwrite (size b) data b = (b ++ data)%list.
Proof.
  unfold pwrite. rewrite pad_id by lia. unfold size. rewrite Nat2N.id, firstn_all, drop_ge by lia. by rewrite app_nil_r.
Qed.

(** Overwriting the front. *)
Lemma pwrite_front data a b : size a = size data -> pwrite 0 data (a ++ b) = (data ++ b)%list.
Proof.
  intros Ha. unfold pwrite. simpl. f_equal. rewrite drop_app_length'; [done|]. unfold size in Ha. lia.
Qed.

Lemma ftruncate_app a b : ftruncate (size a) (a ++ b) = a.
Proof.
  unfold ftruncate. rewrite pad_id by (rewrite size_app; lia). unfold size. rewrite Nat2N.id. apply take_app_length.
Qed.

(** ** Positions *)

Fixpoint offsets (pos : N) (es : list bytes) : list N :=
  match es with
  | [] => []
  | e :: es => pos :: offsets (pos + size e) es
  end.

Lemma length_offsets pos es : length (offsets pos es) = length es.
Proof. revert pos. induction es; intros; simpl; auto. Qed.

Lemma offsets_app pos es1 es2 : offsets pos (es1 ++ es2) = (offsets pos es1 ++ offsets (pos + sizes es1) es2)%list.
Proof.
  revert pos. induction es1 as [|e es1 IH]; intros pos; simpl.
  - f_equal. unfold sizes, size. simpl. lia.
  - rewrite IH, sizes_cons. do 3 f_equal. lia.
Qed.

Lemma offsets_take pos es n : take n (offsets pos es) = offsets pos (take n es).
Proof. revert pos n. induction es as [|e es IH]; intros pos [|n]; simpl; [done..|]. by rewrite IH. Qed.

Lemma offsets_lookup pos es i : (i < length es)%nat -> offsets pos es !! i = Some (pos + sizes (take i es)).
Proof.
  revert pos i. induction es as [|e es IH]; intros pos [|i] Hi; simpl in *; [lia|lia| |].
  - f_equal. unfold sizes, size. simpl. lia.
  - rewrite IH by lia. f_equal. rewrite sizes_cons. lia.
Qed.

(** ** A file and its entries *)

Definition header_bytes (f : t) : bytes := le_split 8 (if completed f then total_len f else 0).
Definition table_bytes (f : t) : bytes := if completed f then write_table (positions f) else [].

(** The entries [es] of a file. A file to which nothing has been written yet
    is empty. *)
Record file_ok (d : Disk) (f : t) (es : list bytes) : Prop := {
  fo_start : 1 <= start_idx f;
  fo_positions : positions f = offsets 8 es;
  fo_total : total_len f = 8 + sizes es;
  fo_small : total_len f < 2 ^ 32;
  fo_content : content (file f) d = (header_bytes f ++ concat es ++ table_bytes f)%list \/
    (es = [] /\ completed f = false /\ content (file f) d = []);
  fo_nonempty : Forall (fun e => e <> []) es;
  fo_existing : from_existing_file f = false;
}.

Lemma size_header_bytes f : size (header_bytes f) = 8.
Proof. unfold size, header_bytes. by rewrite length_le_split. Qed.

Lemma get_last_idx_ok d f es : file_ok d f es -> get_last_idx f = start_idx f + N.of_nat (length es) - 1.
Proof.
  intros Hf. unfold get_last_idx. rewrite (fo_positions _ _ _ Hf), length_offsets. pose proof (fo_start _ _ _ Hf).
  apply u64_sub_exact. lia.
Qed.

(** Only the contents of one file change. *)
Definition only_file (i : N) (d d' : Disk) : Prop :=
  (forall j, j <> i -> content j d' = content j d) /\ ledger_dir d' = ledger_dir d /\ next_file d' = next_file d.

Lemma content_set i b d : content i (set_content i b d) = b.
Proof. unfold content, set_content. simpl. by rewrite lookup_insert_eq. Qed.

Lemma only_file_set i b d : only_file i d (set_content i b d).
Proof. split; [|done]. intros j Hj. unfold content, set_content. simpl. by rewrite lookup_insert_ne by done. Qed.

Lemma only_file_refl i d : only_file i d d.
Proof. by split_and!. Qed.

Lemma only_file_trans i d1 d2 d3 : only_file i d1 d2 -> only_file i d2 d3 -> only_file i d1 d3.
Proof. intros (H1 & H2 & H3) (H4 & H5 & H6). split_and!; [|congruence..]. intros j Hj. by rewrite H4, H1. Qed.

Lemma write_entry_ok d f es e :
  file_ok d f es -> completed f = false -> committed f = false -> e <> [] -> total_len f + size e < 2 ^ 32 ->
  exists f' d', write_entry e f d = (Ok (f', start_idx f + N.of_nat (length es), false), d') /\
    file_ok d' f' (es ++ [e]) /\ only_file (file f) d d' /\
    f' = set_total_len (total_len f + size e) (set_positions (positions f ++ [total_len f]) f).
Proof.
  intros [Hs Hp Ht Hsm Hc Hn He] Hcomp Hcom Hne Hlt. unfold write_entry, bind, gets, ret. rewrite He.
  unfold fwrite. rewrite Hcom. assert ((length e =? 0)%nat = false) as -> by (destruct e; done). cbn [orb].
  unfold write_file, modify. unfold u32. rewrite N.mod_small by done.
  eexists _, _. split.
  { f_equal. do 4 f_equal. unfold get_last_idx. cbn [set_total_len set_positions positions start_idx].
    rewrite length_app, Hp, length_offsets. simpl. rewrite u64_sub_exact by lia. lia. }
  split; [|split; [apply only_file_set|done]].
  constructor; cbn [set_total_len set_positions positions start_idx total_len from_existing_file file completed]; try done.
  - rewrite Hp, offsets_app. simpl. by rewrite Ht.
  - rewrite Ht, sizes_app. unfold sizes at 3. simpl. rewrite app_nil_r. unfold size. lia.
  - left. rewrite content_set. unfold header_bytes, table_bytes in *. cbn [set_total_len set_positions completed total_len positions].
    rewrite Hcomp in *. rewrite concat_app. cbn [concat]. rewrite !app_nil_r. destruct Hc as [Hc|(-> & _ & Hc)]; rewrite Hc.
    + replace (total_len f) with (size (le_split 8 0 ++ concat es)).
      { rewrite app_nil_r, pwrite_end. by rewrite <- app_assoc. }
      rewrite size_app, Ht. unfold size at 1. by rewrite length_le_split.
    + assert (total_len f = 8) as -> by (rewrite Ht; done). apply pwrite_new.
  - apply Forall_app. split; [done|]. by constructor.
Qed.

Lemma file_ok_total d f es : file_ok d f es -> size (header_bytes f ++ concat es) = total_len f.
Proof. intros Hf. rewrite size_app, size_header_bytes. symmetry. apply (fo_total _ _ _ Hf). Qed.

Lemma complete_ok d f es :
  file_ok d f es -> es <> [] ->
  exists d', complete f d = (Ok (set_completed true f), d') /\ file_ok d' (set_completed true f) es /\ only_file (file f) d d'.
Proof.
  intros Hf Hne. pose proof (file_ok_total _ _ _ Hf) as Htot. pose proof Hf as [Hs Hp Ht Hsm Hc Hn He].
  unfold complete, ret. destruct (completed f) eqn:Hcomp.
  - exists d. assert (set_completed true f = f) as -> by (unfold set_completed; destruct f; simpl in *; by subst). split_and!; [done|done|apply only_file_refl].
  - unfold bind. rewrite He. unfold write_file, modify. rewrite content_set.
    destruct Hc as [Hc|(-> & _)]; [|done]. unfold header_bytes, table_bytes in Hc, Htot. rewrite Hcomp in *. rewrite app_nil_r in Hc.
    eexists. split; [done|]. split.
    + constructor; simpl; try done. left. rewrite content_set, Hc. unfold header_bytes, table_bytes. simpl.
      pose proof (pwrite_end (write_table (positions f)) (le_split 8 0 ++ concat es)) as Hend. rewrite Htot in Hend.
      rewrite Hend, <- app_assoc. apply pwrite_front. unfold size. by rewrite !length_le_split.
    + eapply only_file_trans; apply only_file_set.
Qed.

(** Entries [from] to [to], counted from the first of the file. *)
Definition range (from to : nat) (es : list bytes) : list bytes := take (S to - from) (drop from es).

Lemma sizes_take_S es i e : es !! i = Some e -> sizes (take (S i) es) = sizes (take i es) + size e.
Proof. intros He. rewrite (take_S_r _ _ _ He), sizes_app. unfold sizes at 2. simpl. by rewrite app_nil_r. Qed.

Lemma sizes_range from to es : (from <= S to)%nat -> sizes (take from es) + sizes (range from to es) = sizes (take (S to) es).
Proof.
  intros Hle. unfold range. rewrite <- sizes_app. f_equal. replace (S to) with (from + (S to - from))%nat at 2 by lia.
  rewrite take_take_drop. done.
Qed.

(** The positions around a range of entries. *)
Lemma position_ok d f es i : file_ok d f es -> (i < length es)%nat -> position_at (N.of_nat i) f = Ok (8 + sizes (take i es)).
Proof.
  intros Hf Hi. unfold position_at. rewrite (fo_positions _ _ _ Hf), Nat2N.id, offsets_lookup by done. done.
Qed.

Lemma position_end_ok d f es i : file_ok d f es -> (i < length es)%nat ->
  (if start_idx f + N.of_nat i =? get_last_idx f then Ok (total_len f) else position_at (start_idx f + N.of_nat i + 1 - start_idx f) f) =
  Ok (8 + sizes (take (S i) es)).
Proof.
  intros Hf Hi. rewrite (get_last_idx_ok _ _ _ Hf). pose proof (fo_start _ _ _ Hf).
  destruct (N.eqb_spec (start_idx f + N.of_nat i) (start_idx f + N.of_nat (length es) - 1)) as [Heq|Hne].
  - rewrite take_ge by lia. by rewrite (fo_total _ _ _ Hf).
  - replace (start_idx f + N.of_nat i + 1 - start_idx f) with (N.of_nat (S i)) by lia. apply (position_ok d); [done|lia].
Qed.

(** What is returned for entries [i] to [j] of the file: all of them when there
    is no limit, and otherwise some that fit, or none if the first does not. *)
Definition fits (max_size : option N) (n : N) : Prop := match max_size with Some m => n <= m | None => True end.

Definition size_result (f : t) (es : list bytes) (i j : nat) (max_size : option N) (r : N * N) : Prop :=
  (exists k, (i <= k <= j)%nat /\ (max_size = None -> k = j) /\ fits max_size (sizes (range i k es)) /\
     r = (sizes (range i k es), start_idx f + N.of_nat k)) \/
  (r = (0, 0) /\ ~ fits max_size (sizes (range i i es))).

Lemma entries_size_loop_ok d f es i max_size : file_ok d f es ->
  forall fuel j, (i <= j < length es)%nat -> (j - i < fuel)%nat ->
  exists r, entries_size_loop fuel (start_idx f + N.of_nat i) (start_idx f + N.of_nat j) max_size f = Ok r /\
    size_result f es i j max_size r.
Proof.
  intros Hf. induction fuel as [|fuel IH]; intros j Hj Hfuel; [lia|]. cbn [entries_size_loop].
  rewrite (position_end_ok d _ es) by (done || lia). cbn [rbind].
  replace (start_idx f + N.of_nat i - start_idx f) with (N.of_nat i) by lia.
  rewrite (position_ok d _ es) by (done || lia). cbn [rbind].
  assert (u64_sub (8 + sizes (take (S j) es)) (8 + sizes (take i es)) = sizes (range i j es)) as ->.
  { pose proof (sizes_range i j es). rewrite u64_sub_exact; lia. }
  destruct max_size as [m|]; [|eexists; split; [done|]; left; exists j; split_and!; done || lia].
  destruct (N.leb_spec (sizes (range i j es)) m) as [Hle|Hgt]; [eexists; split; [done|]; left; exists j; split_and!; done || lia|].
  destruct (N.eqb_spec (start_idx f + N.of_nat i) (start_idx f + N.of_nat j)) as [Heq|Hne].
  { assert (i = j) as -> by lia. eexists. split; [done|]. right. split; [done|]. simpl. lia. }
  assert ((start_idx f + N.of_nat j - (start_idx f + N.of_nat i)) / 2 = N.of_nat ((j - i) / 2)) as ->.
  { rewrite Nat2N.inj_div. f_equal. lia. }
  rewrite <- N.add_assoc, <- Nat2N.inj_add. assert ((j - i) / 2 < j - i)%nat as Hhalf by (apply Nat.div_lt; lia).
  destruct (IH (i + (j - i) / 2)%nat) as (r & Hr & Hres); [lia|lia|]. exists r. split; [done|].
  destruct Hres as [(k & Hk & _ & Hfit & ->)|Hnone]; [|by right]. left. exists k. split_and!; done || lia.
Qed.

Lemma range_nonempty i k (es : list bytes) : (i <= k)%nat -> (i < length es)%nat -> Forall (fun e => e <> []) es -> 0 < sizes (range i k es).
Proof.
  intros Hk Hi Hne. destruct (lookup_lt_is_Some_2 es i Hi) as [e He]. unfold range. rewrite (drop_S _ _ _ He).
  replace (S k - i)%nat with (S (k - i)) by lia. cbn [take]. rewrite sizes_cons.
  pose proof (proj1 (Forall_forall _ _) Hne e (list_elem_of_lookup_2 _ _ _ He)) as Hee. destruct e; [done|]. unfold size. simpl. lia.
Qed.

(** Whether [read_entries] returns what it should for entries [i] to [j]. *)
Definition read_result (f : t) (es : list bytes) (i j : nat) (max_size : option N) (r : option LedgerReadResult) : Prop :=
  match r with
  | Some rr => exists k, (i <= k <= j)%nat /\ (max_size = None -> k = j) /\ fits max_size (size (data rr)) /\
      rr = mkReadResult (concat (range i k es)) (start_idx f + N.of_nat k)
  | None => ~ fits max_size (sizes (range i i es))
  end.

Lemma content_range d f es i k : file_ok d f es -> (i <= k < length es)%nat ->
  pread (8 + sizes (take i es)) (sizes (range i k es)) (content (file f) d) = Some (concat (range i k es)).
Proof.
  intros Hf Hk. pose proof (range_nonempty i k es ltac:(lia) ltac:(lia) (fo_nonempty _ _ _ Hf)) as Hpos.
  destruct (fo_content _ _ _ Hf) as [Hc|(-> & _)]; [|simpl in Hk; lia].
  assert (es = (take i es ++ range i k es ++ drop (S k) es)%list) as Hes.
  { unfold range. rewrite <- (take_drop i es) at 1. f_equal. rewrite <- (take_drop (S k - i) (drop i es)) at 1. f_equal.
    rewrite drop_drop. f_equal. lia. }
  rewrite Hc. rewrite Hes at 3. rewrite !concat_app, <- !app_assoc, (app_assoc (header_bytes f)).
  replace (8 + sizes (take i es)) with (size (header_bytes f ++ concat (take i es))) by (rewrite size_app, size_header_bytes; done).
  by apply pread_app.
Qed.

Lemma read_entries_ok d f es i j max_size : file_ok d f es -> (i <= j < length es)%nat ->
  exists r, read_entries (start_idx f + N.of_nat i) (start_idx f + N.of_nat j) max_size f d = (Ok r, d) /\ read_result f es i j max_size r.
Proof.
  intros Hf Hj. unfold read_entries, entries_size. rewrite (get_last_idx_ok _ _ _ Hf).
  destruct (N.ltb_spec (start_idx f + N.of_nat i) (start_idx f)); [lia|].
  destruct (N.ltb_spec (start_idx f + N.of_nat (length es) - 1) (start_idx f + N.of_nat j)); [lia|].
  destruct (N.ltb_spec (start_idx f + N.of_nat j) (start_idx f + N.of_nat i)); [lia|]. cbn [orb].
  destruct (entries_size_loop_ok d f es i max_size Hf (S (N.to_nat (start_idx f + N.of_nat j - (start_idx f + N.of_nat i)))) j) as (r & Hr & Hres);
    [done|lia|]. unfold bind, lift, gets, ret. rewrite Hr.
  destruct Hres as [(k & Hk & Hall & Hfit & ->)|[-> Hno]].
  - pose proof (range_nonempty i k es ltac:(lia) ltac:(lia) (fo_nonempty _ _ _ Hf)) as Hpos.
    destruct (N.eqb_spec (sizes (range i k es)) 0); [lia|].
    replace (start_idx f + N.of_nat i - start_idx f) with (N.of_nat i) by lia. rewrite (position_ok d _ es) by (done || lia).
    rewrite (content_range d) by (done || lia). eexists. split; [done|]. simpl. by exists k.
  - simpl. by exists None.
Qed.

(** *** Truncation *)

(** A file whose entries may be followed by anything. *)
Record file_loose (d : Disk) (f : t) (es : list bytes) : Prop := {
  fl_start : 1 <= start_idx f;
  fl_positions : positions f = offsets 8 es;
  fl_total : total_len f = 8 + sizes es;
  fl_small : total_len f < 2 ^ 32;
  fl_content : exists h rest, size h = 8 /\ content (file f) d = (h ++ concat es ++ rest)%list;
  fl_nonempty : Forall (fun e => e <> []) es;
  fl_existing : from_existing_file f = false;
}.

Lemma file_ok_loose d f es : file_ok d f es -> es <> [] -> file_loose d f es.
Proof.
  intros [H1 H2 H3 H4 H5 H6 H7] Hne. constructor; try done. destruct H5 as [Hc|(-> & _)]; [|done].
  exists (header_bytes f), (table_bytes f). by rewrite size_header_bytes.
Qed.

(** What [truncate] makes of a file. *)
Definition truncated (i : nat) (es : list bytes) (f : t) : t :=
  set_positions (offsets 8 (take (S i) es)) (set_total_len (8 + sizes (take (S i) es)) (set_completed false f)).

Lemma truncate_spec d f es i :
  file_loose d f es -> committed f = false -> (i < length es)%nat -> completed f = false \/ (S i < length es)%nat ->
  exists d', truncate (start_idx f + N.of_nat i) true f d = (Ok (truncated i es f, false), d') /\
    file_ok d' (truncated i es f) (take (S i) es) /\ only_file (file f) d d'.
Proof.
  intros [Hs Hp Ht Hsm (h & rest & Hh & Hc) Hn He] Hcom Hi Hcomp. unfold truncate.
  assert (get_last_idx f = start_idx f + N.of_nat (length es) - 1) as Hlast.
  { unfold get_last_idx. rewrite Hp, length_offsets. apply u64_sub_exact. lia. }
  rewrite Hcom, Hlast, u64_sub_exact by done.
  destruct (N.ltb_spec (start_idx f + N.of_nat i) (start_idx f - 1)); [lia|].
  assert (completed f && (start_idx f + N.of_nat (length es) - 1 <=? start_idx f + N.of_nat i) = false) as ->.
  { destruct Hcomp as [->|?]; [done|]. apply andb_false_iff. right. apply N.leb_gt. lia. }
  destruct (N.eqb_spec (start_idx f + N.of_nat i) (start_idx f - 1)); [lia|]. cbn [orb andb].
  assert ((if negb (start_idx f + N.of_nat i =? get_last_idx (set_completed false f)) then
     p <- lift (position_at (start_idx f + N.of_nat i + 1 - start_idx (set_completed false f)) (set_completed false f)) ;;;
     ret (set_positions (take (N.to_nat (start_idx f + N.of_nat i + 1 - start_idx (set_completed false f))) (positions (set_completed false f)))
       (set_total_len p (set_completed false f)))
    else ret (set_completed false f)) = (ret (truncated i es f) : M Disk t)) as Hbody.
  { change (get_last_idx (set_completed false f)) with (get_last_idx f). rewrite Hlast. cbn [set_completed start_idx positions].
    destruct (N.eqb_spec (start_idx f + N.of_nat i) (start_idx f + N.of_nat (length es) - 1)) as [Heq|Hne]; cbn [negb].
    - unfold truncated. rewrite (take_ge es) by lia. rewrite <- Hp, <- Ht. by destruct f.
    - replace (start_idx f + N.of_nat i + 1 - start_idx f) with (N.of_nat (S i)) by lia.
      unfold position_at. cbn [set_completed positions]. rewrite Hp, Nat2N.id, offsets_lookup, offsets_take by lia. done. }
  unfold bind at 1, write_file, modify. unfold bind at 1. cbv zeta. rewrite Hbody. unfold ret, bind.
  eexists. split; [done|]. split.
  - constructor; cbn [truncated set_positions set_total_len set_completed positions total_len start_idx completed file from_existing_file]; try done.
    + pose proof (sizes_app (take (S i) es) (drop (S i) es)) as Hsz. rewrite take_drop in Hsz. lia.
    + left. rewrite content_set. unfold header_bytes, table_bytes. cbn. rewrite app_nil_r.
      rewrite content_set, Hc, pwrite_front by (rewrite Hh; unfold size; by rewrite length_le_split).
      rewrite <- (take_drop (S i) es) at 2. rewrite concat_app, <- app_assoc, app_assoc.
      replace (8 + sizes (take (S i) es)) with (size (le_split 8 0 ++ concat (take (S i) es))).
      { apply ftruncate_app. }
      rewrite size_app. unfold size at 1. by rewrite length_le_split.
    + by apply Forall_take.
  - eapply only_file_trans; apply only_file_set.
Qed.

Lemma truncate_remove d f es :
  1 <= start_idx f -> positions f = offsets 8 es -> committed f = false -> completed f = false \/ es <> [] -> is_Some (ledger_dir d !! file_name f) ->
  truncate (start_idx f - 1) true f d = (Ok (f, true), set_ledger_dir (delete (file_name f) (ledger_dir d)) d).
Proof.
  intros Hs Hp Hcom Hne [x Hx]. unfold truncate, get_last_idx. rewrite Hp, length_offsets, Hcom, !u64_sub_exact by lia.
  rewrite N.ltb_irrefl, N.eqb_refl. cbn [orb andb].
  assert (completed f && (start_idx f + N.of_nat (length es) - 1 <=? start_idx f - 1) = false) as ->.
  { destruct Hne as [->|Hne]; [done|]. apply andb_false_iff. right. apply N.leb_gt. destruct es; [done|simpl]. lia. }
  unfold bind, gets, modify, ret. by rewrite Hx.
Qed.

Lemma truncate_noop d f : committed f = true \/ completed f = true -> truncate (get_last_idx f) true f d = (Ok (f, false), d).
Proof.
  intros Hc. unfold truncate. destruct Hc as [->| ->]; [done|]. rewrite N.leb_refl. cbn [andb]. by rewrite orb_true_r.
Qed.

(** *** Recovery *)

(** An entry starts with a header that holds its size. *)
Definition framed (e : bytes) : Prop := 8 <= size e /\ size e = 8 + header_size (decode_header (take 8 e)).

(** Bytes that do not start with a whole entry. *)
Definition torn (b : bytes) : Prop := size b < 8 \/ size b < 8 + header_size (decode_header (take 8 b)).

Lemma take_header e rest : 8 <= size e -> take 8 (e ++ rest) = take 8 e.
Proof. intros He. unfold size in He. apply take_app_le. lia. Qed.

Lemma recover_entries_ok es rest : Forall framed es -> torn rest ->
  forall fuel pre acc, (length es < fuel)%nat -> size pre + sizes es < 2 ^ 32 ->
  recover_entries fuel (pre ++ concat es ++ rest) (size pre) (size (concat es ++ rest)) acc =
    (acc ++ offsets (size pre) es, size pre + sizes es)%list.
Proof.
  intros Hes Hrest. induction Hes as [|e es [He8 He] _ IH]; intros fuel pre acc Hfuel Hsmall.
  - destruct fuel as [|fuel]; [simpl in Hfuel; lia|]. cbn [concat app recover_entries offsets]. rewrite app_nil_r.
    assert (sizes ([] : list bytes) = 0) as -> by done. rewrite N.add_0_r. unfold serialised_entry_header_size.
    destruct (N.ltb_spec (size rest) 8) as [|Hge]; [done|]. destruct Hrest as [?|Ht]; [lia|].
    assert (pread (size pre) 8 (pre ++ rest) = Some (take 8 rest)) as ->.
    { rewrite <- (take_drop 8 rest) at 1. apply pread_app; [done|]. unfold size in *. rewrite length_take. lia. }
    destruct (N.ltb_spec (size rest - 8) (header_size (decode_header (take 8 rest)))); [done|lia].
  - destruct fuel as [|fuel]; [simpl in Hfuel; lia|]. cbn [concat recover_entries offsets]. unfold serialised_entry_header_size.
    rewrite <- app_assoc, size_app. destruct (N.ltb_spec (size e + size (concat es ++ rest)) 8); [lia|].
    assert (pread (size pre) 8 (pre ++ e ++ concat es ++ rest) = Some (take 8 e)) as ->.
    { rewrite <- (take_drop 8 e) at 1. rewrite <- app_assoc. apply pread_app; [done|]. unfold size in *. rewrite length_take. lia. }
    destruct (N.ltb_spec (size e + size (concat es ++ rest) - 8) (header_size (decode_header (take 8 e)))); [lia|].
    rewrite sizes_cons in *. unfold u32. rewrite N.mod_small by lia.
    replace (size pre + (8 + header_size (decode_header (take 8 e)))) with (size (pre ++ e)) by (rewrite size_app; lia).
    replace (size e + size (concat es ++ rest) - 8 - header_size (decode_header (take 8 e))) with (size (concat es ++ rest)) by lia.
    rewrite app_assoc, IH by (rewrite ?size_app; simpl in Hfuel; lia). rewrite size_app, <- app_assoc. f_equal. lia.
Qed.

Lemma read_write_table ps : Forall (fun p => p < 2 ^ 32) ps -> read_table (length ps) (write_table ps) = ps.
Proof.
  unfold write_table. induction 1 as [|p ps Hp _ IH]; [done|]. cbn [fmap list_fmap concat length read_table].
  rewrite take_app_length', drop_app_length' by (by rewrite length_le_split). rewrite le_combine_split, IH, N.mod_small by done. done.
Qed.

Lemma length_write_table ps : length (write_table ps) = (4 * length ps)%nat.
Proof.
  unfold write_table. induction ps as [|p ps IH]; [done|]. cbn [fmap list_fmap concat length]. rewrite length_app, length_le_split, IH. lia.
Qed.

Lemma offsets_small pos es : pos + sizes es < 2 ^ 32 -> Forall (fun p => p < 2 ^ 32) (offsets pos es).
Proof.
  revert pos. induction es as [|e es IH]; intros pos Hlt; simpl; [constructor|]. rewrite sizes_cons in Hlt.
  constructor; [lia|]. apply IH. lia.
Qed.

Lemma pread_header h rest n : size h = 8 -> h = le_split 8 n -> n < 2 ^ 64 ->
  pread 0 positions_offset_header_size (h ++ rest) = Some h /\ le_combine h = n.
Proof.
  intros Hh -> Hn. split.
  - apply (pread_app [] (le_split 8 n) rest 8); [done|]. done.
  - rewrite le_combine_split. by apply N.mod_small.
Qed.

(** The bytes of a completed file. *)
Definition complete_bytes (es : list bytes) : bytes :=
  (le_split 8 (8 + sizes es) ++ concat es ++ write_table (offsets 8 es))%list.

Lemma open_completed dir d name i s es :
  get_start_idx_from_file_name name = Ok s -> dir !! name = Some i -> content i d = complete_bytes es -> 8 + sizes es < 2 ^ 32 ->
  open_ledger_file dir name false d =
    (Ok (mk name i s (8 + sizes es) (offsets 8 es) true (is_ledger_file_name_committed name) false false), d).
Proof.
  intros Hs Hi Hc Hsm. unfold open_ledger_file, bind, lift, gets. rewrite Hs, Hi, Hc. unfold complete_bytes.
  destruct (pread_header (le_split 8 (8 + sizes es)) (concat es ++ write_table (offsets 8 es)) (8 + sizes es)) as [-> ->].
  { unfold size. by rewrite length_le_split. }
  { done. }
  { lia. }
  destruct (N.eqb_spec (8 + sizes es) 0); [lia|]. rewrite andb_false_r. cbn [negb].
  rewrite !length_app, length_le_split, length_write_table, length_offsets.
  assert (N.of_nat (length (concat es)) = sizes es) as Hl by done.
  destruct (N.ltb_spec (N.of_nat (8 + (length (concat es) + 4 * length es))) (8 + sizes es)); [lia|].
  replace (N.of_nat (8 + (length (concat es) + 4 * length es)) - (8 + sizes es)) with (N.of_nat (length es) * position_size)
    by (unfold position_size; lia).
  rewrite N.div_mul by done. rewrite Nat2N.id. unfold ret.
  rewrite app_assoc, drop_app_length' by (rewrite length_app, length_le_split; lia).
  rewrite <- (length_offsets 8 es) at 1. rewrite read_write_table; [done|]. by apply offsets_small.
Qed.

Lemma open_incomplete dir d name i s es rest :
  get_start_idx_from_file_name name = Ok s -> is_ledger_file_name_committed name = false -> dir !! name = Some i ->
  content i d = (le_split 8 0 ++ concat es ++ rest)%list -> Forall framed es -> torn rest -> 8 + sizes es < 2 ^ 32 ->
  open_ledger_file dir name false d = (Ok (mk name i s (8 + sizes es) (offsets 8 es) false false false false), d).
Proof.
  intros Hs Hn Hi Hc Hes Hrest Hsm. unfold open_ledger_file, bind, lift, gets. rewrite Hs, Hi, Hc, Hn.
  destruct (pread_header (le_split 8 0) (concat es ++ rest) 0) as [-> ->]; [unfold size; by rewrite length_le_split|done|lia|].
  cbn [andb negb N.eqb]. assert (size (le_split 8 0) = 8) as H8 by (unfold size; by rewrite length_le_split).
  assert (N.of_nat (length (le_split 8 0 ++ concat es ++ rest)) = 8 + size (concat es ++ rest)) as Hlen.
  { fold (size (le_split 8 0 ++ concat es ++ rest)). rewrite size_app, H8. done. }
  rewrite Hlen, u64_sub_exact by (unfold positions_offset_header_size; lia). unfold positions_offset_header_size.
  replace (8 + size (concat es ++ rest) - 8) with (size (concat es ++ rest)) by lia.
  pose proof (recover_entries_ok es rest Hes Hrest (length (le_split 8 0 ++ concat es ++ rest)) (le_split 8 0) []) as Hrec.
  rewrite H8 in Hrec. rewrite Hrec; [done| |done].
  assert (forall l, Forall framed l -> (length l <= length (concat l))%nat) as Hcount.
  { induction 1 as [|e l [H1 _] _ IH]; [done|]. simpl. rewrite length_app. unfold size in H1. lia. }
  specialize (Hcount es Hes). rewrite !length_app, length_le_split. lia.
Qed.

Lemma open_short dir d name i s b :
  get_start_idx_from_file_name name = Ok s -> dir !! name = Some i -> content i d = b -> size b < 8 ->
  exists e, open_ledger_file dir name false d = (Throw e, d).
Proof.
  intros Hs Hi Hc Hb. unfold open_ledger_file, bind, lift, gets. rewrite Hs, Hi, Hc. unfold pread, positions_offset_header_size, size in *.
  destruct (N.leb_spec (0 + 8) (N.of_nat (length b))); [lia|]. by eexists.
Qed.

(** A sequence of entries that is cut anywhere is some of them, and a torn
    entry. *)
Lemma cut_entries es n : Forall framed es -> exists k rest,
  take n (concat es) = (concat (take k es) ++ rest)%list /\ torn rest /\ (k <= length es)%nat /\
  (forall j, (j <= length es)%nat -> (length (concat (take j es)) <= n)%nat -> (j <= k)%nat).
Proof.
  intros Hes. revert n. induction Hes as [|e es [H8 He] _ IH]; intros n.
  - exists O, []. cbn [concat]. rewrite !take_nil. split_and!; [done|left; unfold size; simpl; lia|simpl; lia|]. intros j Hj _. simpl in Hj. lia.
  - destruct (decide (length e <= n)%nat) as [Hle|Hgt].
    + destruct (IH (n - length e)%nat) as (k & rest & Hcut & Htorn & Hk & Hmax). exists (S k), rest. split_and!.
      * cbn [concat take]. rewrite take_app_ge by done. by rewrite Hcut, app_assoc.
      * done.
      * simpl. lia.
      * intros [|j] Hj Hlen; [lia|]. simpl in Hj, Hlen. rewrite length_app in Hlen. specialize (Hmax j). lia.
    + exists O, (take n e). split_and!.
      * cbn [concat take app]. rewrite take_app_le by lia. done.
      * unfold torn, size in *. rewrite length_take. destruct (decide (n < 8)%nat); [left; lia|]. right.
        rewrite take_take. replace (8 `min` n)%nat with 8%nat by lia. lia.
      * lia.
      * intros [|j] Hj Hlen; [lia|]. simpl in Hlen. rewrite length_app in Hlen. lia.
Qed.
End LedgerFileSpec.
