(* ===== verification/LedgerNames.v ===== *)
(** * Names of ledger files

    The names the ledger gives to its files are parsed back to the indices they
    were made from, and are told apart. *)

From S2P Require Import Prelude LedgerEntries TxStatus LedgerFile.
From Stdlib Require Import Ascii String.

Module LedgerNames.
Import LedgerFile.
Open Scope N_scope.

(** ** Strings *)

Fixpoint occurs (c : ascii) (s : string) : bool :=
  match s with
  | EmptyString => false
  | String c' s => Ascii.eqb c c' || occurs c s
  end.

Lemma append_cons c s t : String.append (String c s) t = String c (String.append s t).
Proof. done. Qed.

Lemma length_append s t : String.length (String.append s t) = (String.length s + String.length t)%nat.
Proof. induction s as [|c s IH]; [done|]. rewrite append_cons. simpl. by rewrite IH. Qed.

Lemma append_empty s : String.append s EmptyString = s.
Proof. induction s as [|c s IH]; [done|]. by rewrite append_cons, IH. Qed.

Lemma occurs_append c s1 s2 : occurs c (String.append s1 s2) = occurs c s1 || occurs c s2.
Proof. induction s1 as [|c' s1 IH]; simpl; [done|]. by rewrite IH, orb_assoc. Qed.

Lemma after_none c s : occurs c s = false -> after c s = None.
Proof. induction s as [|c' s IH]; simpl; [done|]. intros [-> Hs]%orb_false_iff. by apply IH. Qed.

Lemma after_append c s1 s2 : occurs c s1 = false -> after c (String.append s1 (String c s2)) = Some s2.
Proof.
  induction s1 as [|c' s1 IH]; simpl; [by rewrite Ascii.eqb_refl|]. intros [-> Hs]%orb_false_iff. by apply IH.
Qed.

Lemma append_assoc s1 s2 s3 : String.append (String.append s1 s2) s3 = String.append s1 (String.append s2 s3).
Proof. induction s1 as [|c s1 IH]; [done|]. by rewrite !append_cons, IH. Qed.

(** ** Numbers *)

Lemma to_string_aux_append fuel n acc rest :
  String.append (to_string_aux fuel n acc) rest = to_string_aux fuel n (String.append acc rest).
Proof.
  revert n acc. induction fuel as [|fuel IH]; intros n acc; [done|]. cbn [to_string_aux].
  destruct (n <? 10); [done|]. by rewrite IH.
Qed.

Lemma to_string_append n rest : String.append (to_string n) rest = to_string_aux 20 n rest.
Proof. apply to_string_aux_append. Qed.

(** A character that is not a digit does not occur in a number. *)
Lemma occurs_to_string_aux c fuel n acc : digit_value c = None -> occurs c (to_string_aux fuel n acc) = occurs c acc.
Proof.
  intros Hc. revert n acc. induction fuel as [|fuel IH]; intros n acc; [done|]. cbn [to_string_aux].
  assert (Ascii.eqb c (digit (n mod 10)) = false) as Hne.
  { apply Ascii.eqb_neq. intros ->. rewrite TxID.digit_value_digit in Hc; [done|]. by apply N.mod_lt. }
  destruct (n <? 10); [|rewrite IH]; simpl; by rewrite Hne.
Qed.

Lemma occurs_to_string c n : digit_value c = None -> occurs c (to_string n) = false.
Proof. intros Hc. unfold to_string. by rewrite occurs_to_string_aux. Qed.

Lemma is_space_digit d : d < 10 -> is_space (digit d) = false.
Proof.
  intros Hd. unfold is_space, digit. rewrite N_ascii_embedding by lia.
  destruct (N.eqb_spec (48 + d) 32); [lia|]. destruct (N.leb_spec (48 + d) 13); [lia|]. by rewrite andb_false_r.
Qed.

Lemma digit_not c d : d < 10 -> digit_value c = None -> Ascii.eqb (digit d) c = false.
Proof. intros Hd Hc. apply Ascii.eqb_neq. intros <-. by rewrite TxID.digit_value_digit in Hc. Qed.

(** What follows a number does not start with a digit. *)
Definition no_digit (s : string) : Prop := match s with EmptyString => True | String c _ => digit_value c = None end.

Lemma stoull_to_string n rest : n < 2 ^ 64 -> no_digit rest -> stoull (String.append (to_string n) rest) = Ok n.
Proof.
  intros Hn Hrest. rewrite to_string_append. destruct (TxID.to_string_aux_head 19 n rest) as (d & s & Hs & Hd).
  assert (from_chars (to_string_aux 20 n rest) = (rest, errc_ok, n)) as Hfc.
  { assert (n < 10 ^ N.of_nat 20) as H20 by (eapply N.lt_le_trans; [exact Hn|by vm_compute]).
    pose proof (TxID.from_chars_aux_to_string 20 n rest H20 Hn) as Haux. unfold from_chars. rewrite Hs in Haux |- *.
    rewrite TxID.digit_value_digit by done. rewrite Haux.
    destruct rest as [|c rest]; [done|]. simpl in Hrest |- *. by rewrite Hrest. }
  unfold stoull. rewrite Hs in *. cbn [skip_space]. rewrite is_space_digit by done.
  rewrite !digit_not by done. unfold stoull_digits. by rewrite Hfc.
Qed.

(** ** Suffixes *)

Lemma strip_suffix_sound suffix s p : strip_suffix suffix s = Some p -> s = String.append p suffix.
Proof.
  revert p. induction s as [|c s IH]; intros p; cbn [strip_suffix].
  - destruct (String.eqb_spec EmptyString suffix) as [<-|_]; [by intros [= <-]|done].
  - destruct (String.eqb_spec (String c s) suffix) as [<-|_]; [by intros [= <-]|].
    destruct (strip_suffix suffix s) as [p'|]; [|done]. intros [= <-]. rewrite append_cons. f_equal. by apply IH.
Qed.

Lemma strip_suffix_append suffix x t : (String.length suffix <= String.length t)%nat ->
  strip_suffix suffix (String.append x t) = String.append x <$> strip_suffix suffix t.
Proof.
  intros Hlen. induction x as [|c x IH]; [change (String.append EmptyString t) with t; by destruct (strip_suffix suffix t)|]. rewrite append_cons. cbn [strip_suffix].
  destruct (String.eqb_spec (String c (String.append x t)) suffix) as [Heq|_].
  - rewrite <- Heq in Hlen. simpl in Hlen. rewrite length_append in Hlen. lia.
  - rewrite IH. by destruct (strip_suffix suffix t).
Qed.

Lemma ends_with_append suffix x t : (String.length suffix <= String.length t)%nat ->
  ends_with suffix (String.append x t) = ends_with suffix t.
Proof. intros Hlen. unfold ends_with. rewrite strip_suffix_append by done. apply bool_decide_ext. by rewrite fmap_is_Some. Qed.

Lemma ends_with_occurs suffix s c : occurs c suffix = true -> occurs c s = false -> ends_with suffix s = false.
Proof.
  intros Hc Hs. apply bool_decide_eq_false. intros [p ->%strip_suffix_sound]. rewrite occurs_append, Hc, orb_true_r in Hs. done.
Qed.

(** ** The names of files *)

Section names.
Context (s e : N) (Hs : s < 2 ^ 64) (He : e < 2 ^ 64).

Lemma new_name_start : get_start_idx_from_file_name (new_name s false) = Ok s.
Proof.
  unfold get_start_idx_from_file_name, new_name, ledger_start_idx_delimiter.
  change (String.append "_" (to_string s)) with (String "_"%char (to_string s)). rewrite after_append by done.
  rewrite <- (append_empty (to_string s)). by apply stoull_to_string.
Qed.

Lemma new_name_last : get_last_idx_from_file_name (new_name s false) = Ok None.
Proof.
  unfold get_last_idx_from_file_name, new_name. rewrite after_none; [done|]. rewrite !occurs_append.
  by rewrite occurs_to_string.
Qed.

Lemma new_name_suffix suffix : occurs "." suffix = true -> ends_with suffix (new_name s false) = false.
Proof.
  intros Hc. apply (ends_with_occurs _ _ "."); [done|]. unfold new_name. rewrite !occurs_append. by rewrite occurs_to_string.
Qed.

(** The name of a committed file, its parts to the right. *)
Lemma committed_name_eq : committed_name s e false =
  String.append "ledger" (String "_" (String.append (to_string s) (String "-" (String.append (to_string e) ledger_committed_suffix)))).
Proof. done. Qed.

Lemma committed_name_start : get_start_idx_from_file_name (committed_name s e false) = Ok s.
Proof.
  rewrite committed_name_eq. unfold get_start_idx_from_file_name, ledger_start_idx_delimiter. rewrite after_append by done.
  by apply stoull_to_string.
Qed.

Lemma committed_name_last : get_last_idx_from_file_name (committed_name s e false) = Ok (Some e).
Proof.
  assert (committed_name s e false = String.append (String.append "ledger" (String "_" (to_string s)))
    (String "-" (String.append (to_string e) ledger_committed_suffix))) as -> by (by rewrite append_assoc, append_cons).
  unfold get_last_idx_from_file_name, ledger_last_idx_delimiter. rewrite after_append.
  - unfold rbind. by rewrite stoull_to_string.
  - rewrite occurs_append. simpl. by rewrite occurs_to_string.
Qed.

Lemma committed_name_suffix suffix : (String.length suffix <= 10)%nat ->
  ends_with suffix (committed_name s e false) = ends_with suffix ledger_committed_suffix.
Proof.
  intros Hlen.
  assert (committed_name s e false = String.append (String.append (String.append "ledger" (String "_" (to_string s)))
    (String "-" (to_string e))) ledger_committed_suffix) as -> by (by rewrite !append_assoc, !append_cons).
  by apply ends_with_append.
Qed.
End names.
End LedgerNames.
