(* ===== verification/HostLedger.v ===== *)
(** * The ledger of the host

    [asynchost::Ledger] (src/host/ledger.h): the files a node's ledger is made
    of, written, truncated and committed as the enclave asks, and read back.
    The order in which a directory is listed is a parameter. *)

From S2P Require Import Prelude LedgerEntries TxStatus LedgerFile.

Module HostLedger.
Import LedgerFile.
Open Scope N_scope.
Open Scope m_scope.

(** [fs::directory_iterator]: the names of a directory, in an order that is not
    specified. *)
Class DirectoryOrder := listing : Directory -> list string.
Class DirectoryOrderLaws `{DirectoryOrder} := listing_permutation d : listing d ≡ₚ (map_to_list d).*1.

Record Ledger := mkLedger {
  disk : Disk;
  read_ledger_dirs : list Directory;
  files : list LedgerFile.t;
  max_read_cache_files : N;
  files_read_cache : list LedgerFile.t;
  last_idx : N;
  committed_idx : N;
  end_of_committed_files_idx : N;
  use_existing_files : bool;
  last_idx_on_init : option N;
  init_idx : N;
  recovery_start_idx : option N;
}.

Definition eta_Ledger (l : Ledger) :=
  mkLedger (disk l) (read_ledger_dirs l) (files l) (max_read_cache_files l) (files_read_cache l) (last_idx l)
    (committed_idx l) (end_of_committed_files_idx l) (use_existing_files l) (last_idx_on_init l) (init_idx l) (recovery_start_idx l).
Definition set_disk (v : Disk) (l : Ledger) : Ledger := ltac:(set_field eta_Ledger (disk l) v l).
Definition set_files (v : list LedgerFile.t) (l : Ledger) : Ledger := ltac:(set_field eta_Ledger (files l) v l).
Definition set_files_read_cache (v : list LedgerFile.t) (l : Ledger) : Ledger := ltac:(set_field eta_Ledger (files_read_cache l) v l).
Definition set_last_idx (v : N) (l : Ledger) : Ledger := ltac:(set_field eta_Ledger (last_idx l) v l).
Definition set_committed_idx (v : N) (l : Ledger) : Ledger := ltac:(set_field eta_Ledger (committed_idx l) v l).
Definition set_end_of_committed_files_idx (v : N) (l : Ledger) : Ledger := ltac:(set_field eta_Ledger (end_of_committed_files_idx l) v l).
Definition set_use_existing_files (v : bool) (l : Ledger) : Ledger := ltac:(set_field eta_Ledger (use_existing_files l) v l).
Definition set_last_idx_on_init (v : option N) (l : Ledger) : Ledger := ltac:(set_field eta_Ledger (last_idx_on_init l) v l).
Definition set_init_idx (v : N) (l : Ledger) : Ledger := ltac:(set_field eta_Ledger (init_idx l) v l).
Definition set_recovery_start_idx (v : option N) (l : Ledger) : Ledger := ltac:(set_field eta_Ledger (recovery_start_idx l) v l).

Section ledger.
Context `{DirectoryOrder}.

(** An operation of a file. *)
Definition on_disk {A} (m : M Disk A) : M Ledger A := fun l =>
  let '(r, d) := m (disk l) in (r, set_disk d l).

Definition get_file_name_with_idx (dir : Directory) (idx : N) (allow_recovery_files : bool) : option string :=
  list_find (fun f_name =>
    negb (is_ledger_file_name_ignored f_name || (negb allow_recovery_files && is_ledger_file_name_recovery f_name)) &&
    match get_start_idx_from_file_name f_name, get_last_idx_from_file_name f_name with
    | Ok start_idx, Ok (Some last_idx) => (start_idx <=? idx) && (idx <=? last_idx)
    | _, _ => false
    end = true) (listing dir) ≫= fun p => Some p.2.

(** [std::upper_bound] over files in increasing order: the first file that ends
    at [idx] or later. *)
Definition contains (idx : N) (f : LedgerFile.t) : bool := idx <=? get_last_idx f.
Definition get_it_contains_idx (idx : N) (files : list LedgerFile.t) : nat :=
  if idx =? 0 then length files
  else match list_find (fun f => contains idx f = true) files with Some (i, _) => i | None => length files end.

Definition get_file_from_cache (idx : N) : M Ledger (option LedgerFile.t) :=
  l <- gets (fun l => l) ;;;
  if idx =? 0 then ret None
  else
    match list_find (fun f => start_idx f <= idx <= get_last_idx f) (files_read_cache l) with
    | Some (_, f) => ret (Some f)
    | None =>
        let match_ :=
          match get_file_name_with_idx (ledger_dir (disk l)) idx true with
          | Some name => Some (ledger_dir (disk l), name)
          | None =>
              foldr (fun dir rest =>
                match get_file_name_with_idx dir idx false with
                | Some name => Some (dir, name)
                | None => rest
                end) None (read_ledger_dirs l)
          end in
        match match_ with
        | None => ret None
        | Some (dir, name) =>
            fun l =>
              match open_ledger_file dir name false (disk l) with
              | (Throw _, d) => (Ok None, set_disk d l)
              | (Ok f, d) =>
                  let cache := (files_read_cache l ++ [f])%list in
                  (Ok (Some f),
                   set_files_read_cache
                     (if max_read_cache_files l <? N.of_nat (length cache) then drop 1 cache else cache) (set_disk d l))
              end
        end
    end.

Definition get_file_from_idx (idx : N) (read_cache_only : bool) : M Ledger (option LedgerFile.t) :=
  l <- gets (fun l => l) ;;;
  if idx =? 0 then ret None
  else
    match (if read_cache_only then None else list_find (fun f => start_idx f <= idx) (reverse (files l))) with
    | Some (_, f) => ret (Some f)
    | None => get_file_from_cache idx
    end.

Definition get_latest_file (incomplete_only : bool) (l : Ledger) : option LedgerFile.t :=
  match last (files l) with
  | None => None
  | Some f => if incomplete_only && completed f then None else Some f
  end.

(** The loop of [read_entries_range]; every round but the last moves [idx] on. *)
Fixpoint read_loop (fuel : nat) (idx to : N) (read_cache_only : bool) (max_entries_size : option N)
    (rr : LedgerReadResult) : M Ledger (option LedgerReadResult) :=
  let finish (rr : LedgerReadResult) := ret (match data rr with [] => None | _ => Some rr end) in
  if to <? idx then finish rr
  else
    match fuel with
    | O => throw OutOfFuel
    | S fuel =>
        f_from <- get_file_from_idx idx read_cache_only ;;;
        match f_from with
        | None => ret None
        | Some f =>
            let to_ := N.min (get_last_idx f) to in
            let max_size := (fun m => u64_sub m (N.of_nat (length (data rr)))) <$> max_entries_size in
            v <- on_disk (LedgerFile.read_entries idx to_ max_size f) ;;;
            match v with
            | None => finish rr
            | Some v =>
                let rr := mkReadResult (data rr ++ data v)%list (end_idx v) in
                if negb (end_idx v =? to_) then finish rr
                else read_loop fuel (to_ + 1) to read_cache_only max_entries_size rr
            end
        end
    end.

Definition read_entries_range (from to : N) (read_cache_only : bool) (max_entries_size : option N)
  : M Ledger (option LedgerReadResult) :=
  if (from =? 0) || (to <? from) then ret None
  else
    last <- gets last_idx ;;;
    let to := N.min to last in
    read_loop (S (N.to_nat (to - from))) from to read_cache_only max_entries_size (mkReadResult [] to).

Definition read_entry (idx : N) : M Ledger (option LedgerReadResult) := read_entries_range idx idx false None.
Definition read_entries (from to : N) (max_entries_size : option N) : M Ledger (option LedgerReadResult) :=
  read_entries_range from to false max_entries_size.

(** ** Writing *)

Definition rename_file (from to : string) : M Ledger unit := fun l =>
  match ledger_dir (disk l) !! from with
  | Some i => (Ok tt, set_disk (set_ledger_dir (<[to := i]> (delete from (ledger_dir (disk l)))) (disk l)) l)
  | None => (Throw (LogicError "Could not rename file"), l)
  end.

Definition ignore_ledger_file (name : string) : M Ledger unit :=
  if is_ledger_file_name_ignored name then ret tt
  else rename_file name (String.append name ledger_ignored_file_suffix).

Definition delete_ledger_files_after_idx (idx : N) : M Ledger unit :=
  names <- gets (fun l => listing (ledger_dir (disk l))) ;;;
  for_each (fun name =>
    start_idx <- lift (get_start_idx_from_file_name name) ;;;
    when (idx <? start_idx)
      (modify (fun l => set_disk (set_ledger_dir (delete name (ledger_dir (disk l))) (disk l)) l))) names.

(** The first file of the directory that starts at [idx]. *)
Fixpoint find_existing (idx : N) (names : list string) : result (option string) :=
  match names with
  | [] => Ok None
  | name :: names =>
      start_idx <~ get_start_idx_from_file_name name ;;;
      if (idx =? start_idx) && negb (is_ledger_file_ignored name) then Ok (Some name) else find_existing idx names
  end.

Definition get_existing_ledger_file_for_idx (idx : N) : M Ledger (option LedgerFile.t) :=
  l <- gets (fun l => l) ;;;
  if negb (use_existing_files l) then ret None
  else
    r <- lift (find_existing idx (listing (ledger_dir (disk l)))) ;;;
    match r with
    | None => ret None
    | Some name => f <- on_disk (open_ledger_file (ledger_dir (disk l)) name true) ;;; ret (Some f)
    end.

(** The last file is changed in place. *)
Definition set_last_file (f : LedgerFile.t) (l : Ledger) : Ledger :=
  set_files (take (length (files l) - 1) (files l) ++ [f])%list l.

Definition complete_latest (f : LedgerFile.t) : M Ledger unit :=
  f <- on_disk (complete f) ;;; modify (set_last_file f).

(** The file that is open for writing; a new one is appended to [files]. *)
Definition file_for_writing : M Ledger LedgerFile.t :=
  l <- gets (fun l => l) ;;;
  match get_latest_file true l with
  | Some f => ret f
  | None =>
      let start_idx := last_idx l + 1 in
      existing <- get_existing_ledger_file_for_idx start_idx ;;;
      f <- match existing with
           | Some f => ret f
           | None =>
               let is_recovery := match recovery_start_idx l with Some r => r <? start_idx | None => false end in
               on_disk (new_ledger_file start_idx is_recovery)
           end ;;;
      modify (fun l => set_files (files l ++ [f])%list l) ;;;
      ret f
  end.

Definition write_entry (data : bytes) (committable : bool) : M Ledger N :=
  header <- lift (peek_header data) ;;;
  (if negb (N.land (header_flags header) FORCE_LEDGER_CHUNK_BEFORE =? 0) then
     l <- gets (fun l => l) ;;;
     match get_latest_file true l with
     | Some f => complete_latest f
     | None => ret tt
     end
   else ret tt) ;;;
  let force_chunk_after := negb (N.land (header_flags header) FORCE_LEDGER_CHUNK_AFTER =? 0) in
  if force_chunk_after && negb committable
  then throw (LogicError "Ledger chunks cannot end in a non-committable transaction")
  else
    f <- file_for_writing ;;;
    r <- on_disk (LedgerFile.write_entry data f) ;;;
    let '(f, idx, has_truncated) := r in
    modify (set_last_file f) ;;;
    modify (set_last_idx idx) ;;;
    (if has_truncated
     then delete_ledger_files_after_idx idx ;;; modify (set_use_existing_files false)
     else ret tt) ;;;
    modify (fun l =>
      match last_idx_on_init l with
      | Some i => if use_existing_files l && (i <? last_idx l) then set_use_existing_files false l else l
      | None => l
      end) ;;;
    (if committable && force_chunk_after then complete_latest f else ret tt) ;;;
    ret idx.

(** The loop of [truncate] over the files it concerns: those that are kept. *)
Fixpoint truncate_files (idx : N) (first : bool) (fs : list LedgerFile.t) : M Ledger (list LedgerFile.t) :=
  match fs with
  | [] => ret []
  | f :: fs =>
      r <- on_disk (LedgerFile.truncate (if first then idx else u64_sub (start_idx f) 1) true f) ;;;
      rest <- truncate_files idx false fs ;;;
      ret (if r.2 then rest else r.1 :: rest)
  end.

(** [f_end] is the file after [f_to]. The code takes the successor of the end
    iterator when no file contains [last_idx]; the model has an exception for
    it unless there are no files. *)
Definition truncate (idx : N) : M Ledger unit :=
  l <- gets (fun l => l) ;;;
  if negb (last_idx l =? 0) && ((last_idx l <=? idx) || (idx <? committed_idx l)) then ret tt
  else
    let f_from := get_it_contains_idx (idx + 1) (files l) in
    let f_to := get_it_contains_idx (last_idx l) (files l) in
    if (f_to =? length (files l))%nat && negb (length (files l) =? 0)%nat then throw OutOfBounds
    else
      kept <- truncate_files idx true (take (S f_to - f_from) (drop f_from (files l))) ;;;
      modify (set_files (take f_from (files l) ++ kept ++ drop (S f_to) (files l))%list) ;;;
      modify (set_last_idx idx).

(** The loop of [commit]: those that stay in [files]. [is_to] says whether the
    last of the files is reached. *)
Fixpoint commit_files (idx : N) (fs : list LedgerFile.t) : M Ledger (list LedgerFile.t) :=
  match fs with
  | [] => ret []
  | f :: fs =>
      let is_to := match fs with [] => true | _ => false end in
      let last_idx_in_file := get_last_idx f in
      let commit_idx := if is_to then idx else last_idx_in_file in
      r <- on_disk (LedgerFile.commit commit_idx f) ;;;
      let erase := r.2 && (negb is_to || (idx =? last_idx_in_file)) in
      when erase (modify (set_end_of_committed_files_idx last_idx_in_file)) ;;;
      rest <- commit_files idx fs ;;;
      ret (if erase then rest else r.1 :: rest)
  end.

Definition commit (idx : N) : M Ledger unit :=
  l <- gets (fun l => l) ;;;
  if (idx <=? committed_idx l) || (last_idx l <? idx) then ret tt
  else
    let f_from := get_it_contains_idx (if committed_idx l =? 0 then 1 else committed_idx l) (files l) in
    let f_to := get_it_contains_idx idx (files l) in
    if (f_to =? length (files l))%nat then throw OutOfBounds
    else
      kept <- commit_files idx (take (S f_to - f_from) (drop f_from (files l))) ;;;
      modify (set_files (take f_from (files l) ++ kept ++ drop (S f_to) (files l))%list) ;;;
      modify (set_committed_idx idx).

Definition is_in_committed_file (idx : N) (l : Ledger) : bool := idx <=? end_of_committed_files_idx l.

Definition committed_ledger_path_with_idx (idx : N) (l : Ledger) : option string :=
  if end_of_committed_files_idx l <? idx then None
  else get_file_name_with_idx (ledger_dir (disk l)) idx false.

(** ** Recovery *)

(** The loop of the constructor over the names of one read-only directory. *)
Definition recover_read_only (name : string) : M Ledger unit :=
  last_idx_ <- lift (get_last_idx_from_file_name name) ;;;
  match last_idx_ with
  | Some i =>
      if negb (is_ledger_file_name_committed name) || is_ledger_file_name_ignored name then ret tt
      else
        modify (fun l =>
          if last_idx l <? i
          then set_end_of_committed_files_idx i (set_committed_idx i (set_last_idx i l)) else l)
  | None => ret tt
  end.

(** A file that can be read is truncated to its last entry and kept. *)
Definition recover_writeable (name : string) : M Ledger unit := fun l =>
  let '(r, d) :=
    (f <- open_ledger_file (ledger_dir (disk l)) name false ;;;
     LedgerFile.truncate (get_last_idx f) true f) (disk l) in
  match r with
  | Ok (f, true) => (Ok tt, set_disk d l)
  | Ok (f, false) => (Ok tt, set_files (files l ++ [f])%list (set_disk d l))
  | Throw _ => ignore_ledger_file name (set_disk d l)
  end.

(** The loop of the constructor over the names of the main directory. *)
Definition recover_file (name : string) : M Ledger unit :=
  if is_ledger_file_ignored name then ignore_ledger_file name
  else
    file_end_idx <- lift (get_last_idx_from_file_name name) ;;;
    if is_ledger_file_name_committed name then
      match file_end_idx with
      | Some i => modify (fun l =>
          if committed_idx l <? i then set_end_of_committed_files_idx i (set_committed_idx i l) else l)
      | None => ret tt
      end
    else
      c <- gets committed_idx ;;;
      if match file_end_idx with Some i => i <=? c | None => false end then ignore_ledger_file name
      else recover_writeable name.

Definition last_idx_le (f g : LedgerFile.t) : Prop := get_last_idx f <= get_last_idx g.
#[global] Instance last_idx_le_dec : RelDecision last_idx_le.
Proof. intros f g. unfold last_idx_le. apply _. Defined.

(** The constructor over an existing main directory. *)
Definition recover : M Ledger unit :=
  l <- gets (fun l => l) ;;;
  for_each (fun dir => for_each recover_read_only (listing dir)) (read_ledger_dirs l) ;;;
  names <- gets (fun l => listing (ledger_dir (disk l))) ;;;
  for_each recover_file names ;;;
  modify (fun l =>
    match merge_sort last_idx_le (files l) with
    | [] => set_last_idx (committed_idx l) l
    | fs =>
        let main_last := match last fs with Some f => get_last_idx f | None => 0 end in
        set_last_idx (N.max (last_idx l) main_last) (set_files fs l)
    end).

Definition new_ledger (d : Disk) (read_dirs : list Directory) (max_cache : N) : Ledger :=
  mkLedger d read_dirs [] max_cache [] 0 0 0 false None 0 None.

(** Committed files after [idx] lose their suffix. *)
Definition uncommit_file (idx : N) (name : string) : M Ledger unit :=
  if negb (is_ledger_file_name_committed name) then ret tt
  else
    start_idx <- lift (get_start_idx_from_file_name name) ;;;
    if start_idx <=? idx then ret tt
    else
      last_idx_file <- lift (get_last_idx_from_file_name name) ;;;
      match last_idx_file with
      | None => throw (LogicError "Committed ledger file does not include last idx in file name")
      | Some i =>
          rename_file name
            (remove_suffix name (String.append "-" (String.append (TxStatus.to_string i) ledger_committed_suffix)))
      end.

Definition init (idx recovery_start_idx_ : N) : M Ledger unit :=
  modify (set_init_idx idx) ;;;
  names <- gets (fun l => listing (ledger_dir (disk l))) ;;;
  for_each (uncommit_file idx) names ;;;
  modify (set_files []) ;;;
  modify (set_use_existing_files true) ;;;
  modify (fun l => set_last_idx_on_init (Some (last_idx l)) l) ;;;
  modify (set_last_idx idx) ;;;
  modify (set_committed_idx idx) ;;;
  when (0 <? recovery_start_idx_) (modify (set_recovery_start_idx (Some recovery_start_idx_))).

Fixpoint complete_recovery_files (fs : list LedgerFile.t) : M Ledger (list LedgerFile.t) :=
  match fs with
  | [] => ret []
  | f :: fs =>
      if recovery f then
        f <- on_disk (open_recovered f) ;;;
        rest <- complete_recovery_files fs ;;;
        ret (if committed f then rest else f :: rest)
      else
        rest <- complete_recovery_files fs ;;; ret (f :: rest)
  end.

Definition complete_recovery : M Ledger unit :=
  l <- gets (fun l => l) ;;;
  fs <- complete_recovery_files (files l) ;;;
  modify (set_files fs) ;;;
  modify (set_recovery_start_idx None).

(** ** Messages from the enclave *)

(** [register_message_handlers]: the messages, with their fields read. *)
Inductive LedgerMessage :=
| ledger_init (idx recovery_start_index : N)
| ledger_append (committable : bool) (data : bytes)
| ledger_truncate (idx : N) (recovery_mode : bool)
| ledger_commit (idx : N)
| ledger_open
| ledger_get_range (from_idx to_idx purpose : N).

(** [AsyncLedgerGet] *)
Record LedgerJob := mkJob { job_from : N; job_to : N; job_max_size : N; job_purpose : N }.

(** What is sent to the enclave. *)
Inductive LedgerResponse :=
| ledger_entry_range (from_idx end_idx purpose : N) (data : bytes)
| ledger_no_entry_range (from_idx to_idx purpose : N).

Inductive Reaction := Handled | Queued (job : LedgerJob) | Respond (r : LedgerResponse).

Definition write_ledger_get_range_response (from_idx to_idx : N) (read_result : option LedgerReadResult) (purpose : N) : LedgerResponse :=
  match read_result with
  | Some rr => ledger_entry_range from_idx (end_idx rr) purpose (data rr)
  | None => ledger_no_entry_range from_idx to_idx purpose
  end.

Definition on_ledger_get_async (job : LedgerJob) : M Ledger LedgerResponse :=
  r <- read_entries_range (job_from job) (job_to job) true (Some (job_max_size job)) ;;;
  ret (write_ledger_get_range_response (job_from job) (job_to job) r (job_purpose job)).

Definition write_ledger_range_response_metadata_size : N := 2048.

Definition handle (max_message_size : N) (msg : LedgerMessage) : M Ledger Reaction :=
  match msg with
  | ledger_init idx recovery_start_index => init idx recovery_start_index ;;; ret Handled
  | ledger_append committable data => write_entry data committable ;;; ret Handled
  | ledger_truncate idx recovery_mode =>
      truncate idx ;;;
      when recovery_mode (modify (set_recovery_start_idx (Some idx))) ;;;
      ret Handled
  | ledger_commit idx => commit idx ;;; ret Handled
  | ledger_open => complete_recovery ;;; ret Handled
  | ledger_get_range from_idx to_idx purpose =>
      let max_entries_size := u64_sub max_message_size write_ledger_range_response_metadata_size in
      l <- gets (fun l => l) ;;;
      if is_in_committed_file to_idx l
      then ret (Queued (mkJob from_idx to_idx max_entries_size purpose))
      else
        r <- read_entries from_idx to_idx (Some max_entries_size) ;;;
        ret (Respond (write_ledger_get_range_response from_idx to_idx r purpose))
  end.
End ledger.
End HostLedger.
