(* ===== verification/HostLedgerSpec.v ===== *)
(** * The ledger of the host: proofs

    The ledger holds a log: a sequence of entries, cut into chunks. A chunk is
    a file, which is committed or open. Writing, truncating and committing do
    to the log what they should, whatever the chunks are. *)

From S2P Require Import Prelude LedgerEntries TxStatus LedgerFile LedgerFileSpec LedgerNames HostLedger.

Module HostLedgerSpec.
Import LedgerFile LedgerFileSpec LedgerNames HostLedger.
Open Scope N_scope.
#[local] Arguments new_name : simpl never.
#[local] Arguments committed_name : simpl never.
Open Scope m_scope.

(** ** Chunks *)

Definition count {A} (l : list A) : N := N.of_nat (length l).

Lemma count_app {A} (l k : list A) : count (l ++ k) = count l + count k.
Proof. unfold count. rewrite length_app. lia. Qed.

(** The chunks with the index of their first entry, when [base] entries come
    before them. *)
Fixpoint starts (base : N) (cs : list (list bytes)) : list (N * list bytes) :=
  match cs with
  | [] => []
  | c :: cs => (base + 1, c) :: starts (base + count c) cs
  end.

(** The last index of a chunk. *)
Definition last_of (x : N * list bytes) : N := x.1 + count x.2 - 1.

Lemma starts_app base a b : starts base (a ++ b) = (starts base a ++ starts (base + count (concat a)) b)%list.
Proof.
  revert base. induction a as [|c a IH]; intros base; simpl; [by rewrite N.add_0_r|].
  rewrite IH, count_app. do 3 f_equal. lia.
Qed.

Lemma length_starts base cs : length (starts base cs) = length cs.
Proof. revert base. induction cs; intros; simpl; auto. Qed.

Lemma starts_bounds base cs x : x ∈ starts base cs ->
  base < x.1 /\ x.1 + count x.2 <= base + count (concat cs) + 1 /\ x.2 ∈ cs.
Proof.
  revert base. induction cs as [|c cs IH]; intros base Hx; [by apply not_elem_of_nil in Hx|].
  simpl in Hx |- *. rewrite count_app. apply elem_of_cons in Hx as [->|Hx]; simpl.
  - split_and!; [lia|lia|]. apply list_elem_of_here.
  - destruct (IH _ Hx) as (H1 & H2 & H3). split_and!; [lia|lia|]. by apply list_elem_of_further.
Qed.

(** An index of the log is in one chunk. *)
Lemma starts_find base cs idx : base < idx <= base + count (concat cs) ->
  exists x, x ∈ starts base cs /\ x.1 <= idx <= last_of x /\ idx < x.1 + count x.2.
Proof.
  revert base. induction cs as [|c cs IH]; intros base Hidx; simpl in *; [unfold count in Hidx; simpl in Hidx; lia|].
  rewrite count_app in Hidx. destruct (N.le_gt_cases idx (base + count c)) as [Hle|Hgt].
  - exists (base + 1, c). unfold last_of. simpl. split_and!; [apply list_elem_of_here|lia|lia|lia].
  - destruct (IH (base + count c)) as (x & Hx & Hin & Hlt); [lia|]. exists x. split; [by apply list_elem_of_further|done].
Qed.

(** Chunks that share an index are the same. *)
Lemma starts_disjoint base cs x y idx : x ∈ starts base cs -> y ∈ starts base cs ->
  x.1 <= idx < x.1 + count x.2 -> y.1 <= idx < y.1 + count y.2 -> x = y.
Proof.
  revert base. induction cs as [|c cs IH]; intros base Hx Hy Hix Hiy; [by apply not_elem_of_nil in Hx|]. simpl in Hx, Hy.
  apply elem_of_cons in Hx as [->|Hx], Hy as [->|Hy].
  - done.
  - apply starts_bounds in Hy as (Hb & _). simpl in *. lia.
  - apply starts_bounds in Hx as (Hb & _). simpl in *. lia.
  - by eapply IH.
Qed.

(** ** The invariant *)

Definition chunk_ok (c : list bytes) : Prop := Forall framed c /\ 8 + sizes c < 2 ^ 32.

Definition committed_at (d : Disk) (x : N * list bytes) : Prop := exists i,
  ledger_dir d !! committed_name x.1 (last_of x) false = Some i /\ content i d = complete_bytes x.2.

Record open_at (d : Disk) (f : LedgerFile.t) (x : N * list bytes) : Prop := {
  oa_start : start_idx f = x.1;
  oa_file : file_ok d f x.2;
  oa_name : file_name f = new_name x.1 false;
  oa_dir : ledger_dir d !! new_name x.1 false = Some (file f);
  oa_committed : committed f = false;
  oa_recovery : recovery f = false;
}.

(** A file of the read cache is a committed file. *)
Definition cached_at (d : Disk) (xs : list (N * list bytes)) (f : LedgerFile.t) : Prop := exists x i,
  x ∈ xs /\ ledger_dir d !! committed_name x.1 (last_of x) false = Some i /\ content i d = complete_bytes x.2 /\
  f = LedgerFile.mk (committed_name x.1 (last_of x) false) i x.1 (8 + sizes x.2) (offsets 8 x.2) true true false false.

(** What the directory may hold. *)
Definition known_name (cs fs : list (list bytes)) (name : string) : Prop :=
  is_ledger_file_name_ignored name = true \/
  (exists x, x ∈ starts 0 cs /\ name = committed_name x.1 (last_of x) false) \/
  (exists x, x ∈ starts (count (concat cs)) fs /\ name = new_name x.1 false).

(** The ledger's chunks are [cs], committed, and then [fs], open. *)
Record inv (l : Ledger) (cs fs : list (list bytes)) : Prop := {
  iv_committed : Forall (committed_at (disk l)) (starts 0 cs);
  iv_open : Forall2 (open_at (disk l)) (files l) (starts (count (concat cs)) fs);
  iv_chunks : Forall chunk_ok (cs ++ fs);
  iv_nonempty : Forall (fun c => c <> []) cs;
  iv_open_nonempty : forall i c, fs !! i = Some c -> (S i < length fs)%nat -> c <> [];
  iv_complete : forall i f, files l !! i = Some f -> (S i < length (files l))%nat -> completed f = true;
  iv_names : forall name i, ledger_dir (disk l) !! name = Some i -> known_name cs fs name;
  iv_files : forall n1 n2 i, ledger_dir (disk l) !! n1 = Some i -> ledger_dir (disk l) !! n2 = Some i -> n1 = n2;
  iv_fresh : forall name i, ledger_dir (disk l) !! name = Some i -> i < next_file (disk l);
  iv_cache : Forall (cached_at (disk l) (starts 0 cs)) (files_read_cache l);
  iv_end : end_of_committed_files_idx l = count (concat cs);
  iv_existing : use_existing_files l = false;
  iv_read_dirs : read_ledger_dirs l = [];
  iv_recovery : recovery_start_idx l = None;
  iv_bound : count (concat (cs ++ fs)) < 2 ^ 64 - 1;
}.

Lemma committed_not_new s e s' : committed_name s e false <> new_name s' false.
Proof.
  intros Heq. assert (ends_with ledger_committed_suffix (committed_name s e false) = true) as Hc by (rewrite committed_name_suffix; [done|simpl; lia]).
  rewrite Heq, new_name_suffix in Hc; done.
Qed.

Lemma new_name_inj s s' : s < 2 ^ 64 -> s' < 2 ^ 64 -> new_name s false = new_name s' false -> s = s'.
Proof. intros Hs Hs' Heq. pose proof (new_name_start s Hs) as H1. rewrite Heq, new_name_start in H1 by done. by simplify_eq. Qed.

Lemma new_name_not_ignored s : is_ledger_file_name_ignored (new_name s false) = false.
Proof. by apply new_name_suffix. Qed.

Lemma committed_name_not_ignored s e : is_ledger_file_name_ignored (committed_name s e false) = false.
Proof. unfold is_ledger_file_name_ignored. rewrite committed_name_suffix; [done|simpl; lia]. Qed.

(** Chunks that follow one another start one after the other. *)
Lemma starts_increasing base cs i j x y :
  (forall k c, cs !! k = Some c -> (S k < length cs)%nat -> c <> []) ->
  starts base cs !! i = Some x -> starts base cs !! j = Some y -> (i < j)%nat -> x.1 < y.1.
Proof.
  revert base i j. induction cs as [|c cs IH]; intros base i j Hne Hx Hy Hij; [done|]. destruct j as [|j]; [lia|]. simpl in Hy.
  assert ((0 < length cs)%nat) as Hlen by (apply lookup_lt_Some in Hy; rewrite length_starts in Hy; lia).
  destruct i as [|i]; simpl in Hx.
  - simplify_eq/=. apply list_elem_of_lookup_2, starts_bounds in Hy as (Hb & _).
    assert (c <> []) as Hc by (apply (Hne O c); [done|simpl; lia]). destruct c; [done|]. unfold count in Hb. simpl in Hb. lia.
  - apply (IH (base + count c) i j); try done; [|lia]. intros k c' Hk Hk'. apply (Hne (S k)); [done|simpl; lia].
Qed.

Section invariant.
Context (l : Ledger) (cs fs : list (list bytes)) (Hinv : inv l cs fs).

Lemma start_bound x : x ∈ starts (count (concat cs)) fs -> x.1 < 2 ^ 64.
Proof.
  intros (_ & Hb & _)%starts_bounds. pose proof (iv_bound _ _ _ Hinv) as Hbound. rewrite concat_app, count_app in Hbound. lia.
Qed.

Lemma committed_bound x : x ∈ starts 0 cs -> x.1 < 2 ^ 64 /\ last_of x < 2 ^ 64.
Proof.
  intros (_ & Hb & _)%starts_bounds. pose proof (iv_bound _ _ _ Hinv) as Hbound. rewrite concat_app, count_app in Hbound.
  unfold last_of. lia.
Qed.

(** The files of the ledger are different files. *)
Lemma open_files_differ i j f g x y :
  files l !! i = Some f -> files l !! j = Some g -> starts (count (concat cs)) fs !! i = Some x ->
  starts (count (concat cs)) fs !! j = Some y -> i <> j -> new_name x.1 false <> new_name y.1 false /\ file f <> file g.
Proof.
  intros Hf Hg Hx Hy Hij. pose proof (Forall2_lookup_lr _ _ _ _ _ _ (iv_open _ _ _ Hinv) Hf Hx) as Hof.
  pose proof (Forall2_lookup_lr _ _ _ _ _ _ (iv_open _ _ _ Hinv) Hg Hy) as Hog.
  assert (x.1 <> y.1) as Hne.
  { destruct (decide (i < j)%nat) as [Hlt|].
    - pose proof (starts_increasing _ _ _ _ _ _ (iv_open_nonempty _ _ _ Hinv) Hx Hy Hlt). lia.
    - pose proof (starts_increasing _ _ _ _ _ _ (iv_open_nonempty _ _ _ Hinv) Hy Hx). lia. }
  assert (new_name x.1 false <> new_name y.1 false) as Hnn.
  { intros Heq. apply Hne, new_name_inj; try done; apply start_bound; by eapply list_elem_of_lookup_2. }
  split; [done|]. intros Heq. apply Hnn. eapply (iv_files _ _ _ Hinv); [apply (oa_dir _ _ _ Hof)|]. rewrite Heq. apply (oa_dir _ _ _ Hog).
Qed.

(** A committed file is not an open one. *)
Lemma committed_file_differs f x y i : 
  f ∈ files l -> open_at (disk l) f x -> ledger_dir (disk l) !! committed_name y.1 (last_of y) false = Some i -> i <> file f.
Proof.
  intros _ Hof Hi ->. apply (committed_not_new y.1 (last_of y) x.1). eapply (iv_files _ _ _ Hinv); [exact Hi|apply (oa_dir _ _ _ Hof)].
Qed.
End invariant.

Lemma file_ok_frame d d' f es : content (file f) d' = content (file f) d -> file_ok d f es -> file_ok d' f es.
Proof. intros Hc [H1 H2 H3 H4 H5 H6 H7]. constructor; try done. by rewrite Hc. Qed.

Lemma open_at_frame d d' f x :
  content (file f) d' = content (file f) d -> ledger_dir d' !! new_name x.1 false = ledger_dir d !! new_name x.1 false ->
  open_at d f x -> open_at d' f x.
Proof. intros Hc Hd [H1 H2 H3 H4 H5 H6]. constructor; try done; [by eapply file_ok_frame|congruence]. Qed.

Lemma lookup_middle {A} (l1 : list A) x l2 : (l1 ++ x :: l2)%list !! length l1 = Some x.
Proof. rewrite lookup_app_r by done. by rewrite Nat.sub_diag. Qed.

(** Names are removed from the directory. *)
Definition without (names : list string) (d d' : Disk) : Prop :=
  next_file d' = next_file d /\
  forall n, ledger_dir d' !! n = if decide (n ∈ names) then None else ledger_dir d !! n.

Lemma without_sub names d d' n i : without names d d' -> ledger_dir d' !! n = Some i -> ledger_dir d !! n = Some i.
Proof. intros [_ Hw] Hn. rewrite Hw in Hn. by destruct (decide (n ∈ names)). Qed.

(** An open file is changed and the later ones are removed. *)
Section update.
Context (l : Ledger) (cs fs1 fs2 : list (list bytes)) (c : list bytes) (gs hs : list LedgerFile.t) (f : LedgerFile.t).
Context (Hinv : inv l cs (fs1 ++ c :: fs2)) (Hfiles : files l = (gs ++ f :: hs)%list) (Hlen : length gs = length fs1).
Let base : N := count (concat cs).
Let x : N * list bytes := (base + count (concat fs1) + 1, c).

Lemma update_split :
  Forall2 (open_at (disk l)) gs (starts base fs1) /\ open_at (disk l) f x /\
  Forall2 (open_at (disk l)) hs (starts (base + count (concat fs1) + count c) fs2).
Proof.
  pose proof (iv_open _ _ _ Hinv) as Ho. rewrite Hfiles, starts_app in Ho. cbn [starts] in Ho.
  apply Forall2_app_inv in Ho as [H1 H2]; [|by rewrite length_starts]. inversion H2; subst. done.
Qed.

Lemma starts_here : starts base (fs1 ++ c :: fs2) !! length fs1 = Some x.
Proof. rewrite starts_app. cbn [starts]. rewrite <- (length_starts base fs1). apply lookup_middle. Qed.

(** The files before [f] are not [f], and their names stay. *)
Lemma before_kept (d' : Disk) :
  (forall j, j <> file f -> content j d' = content j (disk l)) -> without (file_name <$> hs) (disk l) d' \/ without (file_name <$> f :: hs) (disk l) d' ->
  Forall2 (open_at d') gs (starts base fs1).
Proof.
  intros Hc Hw. destruct update_split as (Hgs & Hf & Hhs). apply Forall2_same_length_lookup_2; [by rewrite length_starts|].
  intros i g y Hg Hy. pose proof (Forall2_lookup_lr _ _ _ _ _ _ Hgs Hg Hy) as Hog.
  assert (files l !! i = Some g) as Hgl by (rewrite Hfiles; by apply lookup_app_l_Some).
  assert (starts base (fs1 ++ c :: fs2) !! i = Some y) as Hyl by (rewrite starts_app; by apply lookup_app_l_Some).
  assert (i < length gs)%nat as Hi by (by eapply lookup_lt_Some).
  assert (forall j h z, (i < j)%nat -> files l !! j = Some h -> starts base (fs1 ++ c :: fs2) !! j = Some z -> new_name y.1 false <> new_name z.1 false /\ file g <> file h) as Hdiff.
  { intros j h z Hj Hh Hz. eapply open_files_differ; [exact Hinv|exact Hgl|exact Hh|exact Hyl|exact Hz|lia]. }
  assert (files l !! length gs = Some f) as Hfl by (rewrite Hfiles; apply lookup_middle).
  destruct (Hdiff (length gs) f x Hi Hfl) as [Hnf Hff]; [rewrite Hlen; apply starts_here|].
  assert (new_name y.1 false ∉ file_name <$> f :: hs) as Hnot.
  { intros [h [Heq Hh]]%list_elem_of_fmap. apply list_elem_of_lookup_1 in Hh as [k Hk].
    assert (files l !! (length gs + k)%nat = Some h) as Hhl.
    { rewrite Hfiles, lookup_app_r by lia. by replace (length gs + k - length gs)%nat with k by lia. }
    destruct (Forall2_lookup_l _ _ _ _ _ (iv_open _ _ _ Hinv) Hhl) as (z & Hz & Hoz).
    destruct (Hdiff (length gs + k)%nat h z ltac:(lia) Hhl Hz) as [Hnz _]. apply Hnz. rewrite Heq. apply (oa_name _ _ _ Hoz). }
  eapply open_at_frame; [| |exact Hog].
  - by apply Hc.
  - destruct Hw as [[_ Hw]|[_ Hw]]; rewrite Hw, decide_False; try done. rewrite fmap_cons in Hnot. set_solver.
Qed.

Lemma removed_names n : n ∈ file_name <$> f :: hs -> exists s, n = new_name s false.
Proof.
  intros [h [-> Hh]]%list_elem_of_fmap. assert (h ∈ files l) as Hl by (rewrite Hfiles; set_solver).
  apply list_elem_of_lookup_1 in Hl as [k Hk]. destruct (Forall2_lookup_l _ _ _ _ _ (iv_open _ _ _ Hinv) Hk) as (z & _ & Hoz).
  exists z.1. apply (oa_name _ _ _ Hoz).
Qed.

Lemma committed_kept (d' : Disk) y i :
  (forall j, j <> file f -> content j d' = content j (disk l)) -> without (file_name <$> hs) (disk l) d' \/ without (file_name <$> f :: hs) (disk l) d' ->
  ledger_dir (disk l) !! committed_name y.1 (last_of y) false = Some i ->
  ledger_dir d' !! committed_name y.1 (last_of y) false = Some i /\ content i d' = content i (disk l).
Proof.
  intros Hc Hw Hi. destruct update_split as (_ & Hf & _). split.
  - assert (committed_name y.1 (last_of y) false ∉ file_name <$> f :: hs) as Hnot.
    { intros [s Hs]%removed_names. by apply committed_not_new in Hs. }
    destruct Hw as [[_ Hw]|[_ Hw]]; rewrite Hw, decide_False; try done. rewrite fmap_cons in Hnot. set_solver.
  - apply Hc. eapply committed_file_differs; [exact Hinv| |exact Hf|exact Hi]. rewrite Hfiles. set_solver.
Qed.

(** The names that are left are known. *)
Lemma names_kept (d' : Disk) fs' n i :
  without (file_name <$> hs) (disk l) d' \/ without (file_name <$> f :: hs) (disk l) d' -> ledger_dir d' !! n = Some i ->
  (forall y, y ∈ starts base fs1 -> y ∈ starts base fs') ->
  (n = new_name x.1 false -> without (file_name <$> hs) (disk l) d' -> exists y, y ∈ starts base fs' /\ y.1 = x.1) ->
  known_name cs fs' n.
Proof.
  intros Hw Hn Hsub Hx. assert (ledger_dir (disk l) !! n = Some i) as Hn' by (destruct Hw; by eapply without_sub).
  destruct (iv_names _ _ _ Hinv n i Hn') as [?|[?|(y & Hy & ->)]]; [by left|by right; left|]. right. right.
  rewrite starts_app in Hy. cbn [starts] in Hy. apply elem_of_app in Hy as [Hy|Hy]; [exists y; split; [by apply Hsub|done]|].
  destruct update_split as (_ & Hf & Hhs). fold base in Hy.
  apply elem_of_cons in Hy as [->|Hy].
  - destruct Hw as [Hw|[_ Hw]].
    + destruct (Hx eq_refl Hw) as (y & Hy & Heq). exists y. by rewrite Heq.
    + rewrite Hw, decide_True in Hn; [done|]. rewrite fmap_cons, (oa_name _ _ _ Hf). apply list_elem_of_here.
  - exfalso. apply list_elem_of_lookup_1 in Hy as [k Hk]. destruct (Forall2_lookup_r _ _ _ _ _ Hhs Hk) as (h & Hh & Hoh).
    assert (new_name y.1 false ∈ file_name <$> hs) as Hin.
    { apply list_elem_of_fmap. exists h. split; [by rewrite (oa_name _ _ _ Hoh)|by eapply list_elem_of_lookup_2]. }
    destruct Hw as [[_ Hw]|[_ Hw]]; rewrite Hw, decide_True in Hn; try done. rewrite fmap_cons. set_solver.
Qed.

Lemma inv_chunk_update n (d' : Disk) f' c' :
  (forall j, j <> file f -> content j d' = content j (disk l)) -> without (file_name <$> hs) (disk l) d' ->
  start_idx f' = start_idx f -> file_name f' = file_name f -> file f' = file f -> committed f' = false -> recovery f' = false ->
  file_ok d' f' c' -> chunk_ok c' -> count (concat (cs ++ fs1 ++ [c'])) < 2 ^ 64 - 1 ->
  inv (set_last_idx n (set_files (gs ++ [f']) (set_disk d' l))) cs (fs1 ++ [c']).
Proof.
  intros Hc Hw E1 E2 E3 E4 E5 Hok Hck Hb. destruct update_split as (Hgs & Hf & Hhs).
  pose proof (before_kept d' Hc (or_introl Hw)) as Hgs'. pose proof (fun y i => committed_kept d' y i Hc (or_introl Hw)) as Hcom.
  assert (new_name x.1 false ∉ file_name <$> hs) as Hnot.
  { intros [h [Heq Hh]]%list_elem_of_fmap. apply list_elem_of_lookup_1 in Hh as [k Hk].
    destruct (Forall2_lookup_l _ _ _ _ _ Hhs Hk) as (z & Hz & Hoz).
    pose proof (open_files_differ l cs _ Hinv (length gs) (length gs + S k)%nat f h x z) as Hdiff.
    destruct Hdiff as [Hd _]; [by rewrite Hfiles, lookup_middle|rewrite Hfiles, lookup_app_r by lia; by replace (length gs + S k - length gs)%nat with (S k) by lia
      |rewrite Hlen; apply starts_here| |lia|].
    - rewrite starts_app, lookup_app_r by (rewrite length_starts; lia). rewrite length_starts, Hlen.
      replace (length fs1 + S k - length fs1)%nat with (S k) by lia. exact Hz.
    - apply Hd. rewrite Heq. apply (oa_name _ _ _ Hoz). }
  constructor; cbn [set_last_idx set_files set_disk disk files files_read_cache end_of_committed_files_idx use_existing_files read_ledger_dirs recovery_start_idx].
  - apply Forall_forall. intros y Hy. destruct (proj1 (Forall_forall _ _) (iv_committed _ _ _ Hinv) y Hy) as (i & Hi & Hci).
    destruct (Hcom y i Hi) as [H1 H2]. exists i. split; [done|congruence].
  - rewrite starts_app. apply Forall2_app; [exact Hgs'|]. cbn [starts]. constructor; [|constructor]. constructor; simpl; try done.
    + rewrite E1. apply (oa_start _ _ _ Hf).
    + rewrite E2. apply (oa_name _ _ _ Hf).
    + destruct Hw as [_ Hw]. rewrite Hw, decide_False by exact Hnot. rewrite E3. apply (oa_dir _ _ _ Hf).
  - pose proof (iv_chunks _ _ _ Hinv) as Hch. rewrite !Forall_app in *. destruct Hch as (H1 & H2 & _). split_and!; try done. by constructor.
  - apply (iv_nonempty _ _ _ Hinv).
  - intros i c0 Hi Hlt. rewrite length_app in Hlt. simpl in Hlt. rewrite lookup_app_l in Hi by lia.
    apply (iv_open_nonempty _ _ _ Hinv i c0); [by apply lookup_app_l_Some|rewrite length_app; simpl; lia].
  - intros i g Hi Hlt. rewrite length_app in Hlt. simpl in Hlt. rewrite lookup_app_l in Hi by lia.
    apply (iv_complete _ _ _ Hinv i g); rewrite Hfiles; [by apply lookup_app_l_Some|rewrite length_app; simpl; lia].
  - intros m i Hm. eapply (names_kept d' (fs1 ++ [c'])); [by left|exact Hm| |].
    + intros y Hy. rewrite starts_app. set_solver.
    + intros _ _. exists (base + count (concat fs1) + 1, c'). rewrite starts_app. simpl. set_solver.
  - intros n1 n2 i H1 H2. eapply (iv_files _ _ _ Hinv); by eapply without_sub.
  - intros m i Hm. rewrite (proj1 Hw). eapply (iv_fresh _ _ _ Hinv). by eapply without_sub.
  - eapply Forall_impl; [exact (iv_cache _ _ _ Hinv)|]. intros g (y & i & Hy & Hi & Hci & ->). exists y, i.
    destruct (Hcom y i Hi) as [H1 H2]. split_and!; try done. congruence.
  - apply (iv_end _ _ _ Hinv).
  - apply (iv_existing _ _ _ Hinv).
  - apply (iv_read_dirs _ _ _ Hinv).
  - apply (iv_recovery _ _ _ Hinv).
  - done.
Qed.

(** An open file and the later ones are removed. *)
Lemma inv_drop n (d' : Disk) :
  (forall j, j <> file f -> content j d' = content j (disk l)) -> without (file_name <$> f :: hs) (disk l) d' ->
  inv (set_last_idx n (set_files gs (set_disk d' l))) cs fs1.
Proof.
  intros Hc Hw. pose proof (before_kept d' Hc (or_intror Hw)) as Hgs'.
  pose proof (fun y i => committed_kept d' y i Hc (or_intror Hw)) as Hcom.
  constructor; cbn [set_last_idx set_files set_disk disk files files_read_cache end_of_committed_files_idx use_existing_files read_ledger_dirs recovery_start_idx].
  - apply Forall_forall. intros y Hy. destruct (proj1 (Forall_forall _ _) (iv_committed _ _ _ Hinv) y Hy) as (i & Hi & Hci).
    destruct (Hcom y i Hi) as [H1 H2]. exists i. split; [done|congruence].
  - exact Hgs'.
  - pose proof (iv_chunks _ _ _ Hinv) as Hch. rewrite !Forall_app in *. destruct Hch as (H1 & H2 & _). by split.
  - apply (iv_nonempty _ _ _ Hinv).
  - intros i c0 Hi Hlt. apply (iv_open_nonempty _ _ _ Hinv i c0); [by apply lookup_app_l_Some|rewrite length_app; simpl; lia].
  - intros i g Hi Hlt. apply (iv_complete _ _ _ Hinv i g); rewrite Hfiles; [by apply lookup_app_l_Some|rewrite length_app; simpl; lia].
  - intros m i Hm. eapply (names_kept d' fs1); [by right|exact Hm|done|].
    intros -> [_ Hw1]. exfalso. destruct update_split as (_ & Hf & _). destruct Hw as [_ Hw].
    rewrite Hw, decide_True in Hm; [done|]. rewrite fmap_cons, (oa_name _ _ _ Hf). apply list_elem_of_here.
  - intros n1 n2 i H1 H2. eapply (iv_files _ _ _ Hinv); by eapply without_sub.
  - intros m i Hm. rewrite (proj1 Hw). eapply (iv_fresh _ _ _ Hinv). by eapply without_sub.
  - eapply Forall_impl; [exact (iv_cache _ _ _ Hinv)|]. intros g (y & i & Hy & Hi & Hci & ->). exists y, i.
    destruct (Hcom y i Hi) as [H1 H2]. split_and!; try done. congruence.
  - apply (iv_end _ _ _ Hinv).
  - apply (iv_existing _ _ _ Hinv).
  - apply (iv_read_dirs _ _ _ Hinv).
  - apply (iv_recovery _ _ _ Hinv).
  - pose proof (iv_bound _ _ _ Hinv) as Hb. rewrite !concat_app, !count_app in *. lia.
Qed.
End update.

(** A file is kept under a name that is ignored. *)
Lemma inv_ignore l cs fs n i :
  inv l cs fs -> is_ledger_file_name_ignored n = true -> i < next_file (disk l) -> (forall m, ledger_dir (disk l) !! m <> Some i) ->
  inv (set_disk (set_ledger_dir (<[n := i]> (ledger_dir (disk l))) (disk l)) l) cs fs.
Proof.
  intros Hinv Hn Hi Hfree. set (d' := set_ledger_dir (<[n := i]> (ledger_dir (disk l))) (disk l)).
  assert (forall m j, is_ledger_file_name_ignored m = false -> ledger_dir (disk l) !! m = Some j -> ledger_dir d' !! m = Some j) as Hold.
  { intros m j Hm Hj. unfold d'. cbn [set_ledger_dir ledger_dir]. rewrite (lookup_insert_ne (ledger_dir (disk l))); [done|congruence]. }
  assert (forall m j, ledger_dir d' !! m = Some j -> (m = n /\ j = i) \/ ledger_dir (disk l) !! m = Some j) as Hnew.
  { intros m j. unfold d'. cbn [set_ledger_dir ledger_dir]. destruct (decide (m = n)) as [->|Hm].
    - rewrite (lookup_insert_eq (ledger_dir (disk l))). intros [= <-]. by left.
    - rewrite (lookup_insert_ne (ledger_dir (disk l))) by done. by right. }
  constructor; cbn [set_disk disk files files_read_cache end_of_committed_files_idx use_existing_files read_ledger_dirs recovery_start_idx]; try apply Hinv.
  - eapply Forall_impl; [exact (iv_committed _ _ _ Hinv)|]. intros y (j & Hj & Hc). exists j. split; [|done]. apply Hold; [apply committed_name_not_ignored|done].
  - eapply Forall2_impl; [exact (iv_open _ _ _ Hinv)|]. intros g y Hg. apply (open_at_frame (disk l)); [reflexivity| |exact Hg].
    rewrite (oa_dir _ _ _ Hg). apply Hold; [apply new_name_not_ignored|apply (oa_dir _ _ _ Hg)].
  - intros m j [[-> ->]|Hm]%Hnew; [by left|by eapply (iv_names _ _ _ Hinv)].
  - intros m1 m2 j [[-> ->]|H1]%Hnew [[-> Hj]|H2]%Hnew; try done; [by apply Hfree in H2|subst; by apply Hfree in H1|by eapply (iv_files _ _ _ Hinv)].
  - intros m j [[-> ->]|Hm]%Hnew; [done|by eapply (iv_fresh _ _ _ Hinv)].
  - eapply Forall_impl; [exact (iv_cache _ _ _ Hinv)|]. intros g (y & j & Hy & Hj & Hcj & ->). exists y, j. split_and!; try done.
    apply Hold; [apply committed_name_not_ignored|done].
Qed.

(** A new file is created after files that are all complete. *)
Lemma inv_new l cs fs :
  inv l cs fs -> Forall (fun f => completed f = true) (files l) -> Forall (fun c => c <> []) fs ->
  exists f d', new_ledger_file (count (concat (cs ++ fs)) + 1) false (disk l) = (Ok f, d') /\
    inv (set_files (files l ++ [f]) (set_disk d' l)) cs (fs ++ [[]]) /\ completed f = false.
Proof.
  intros Hinv Hcomp Hne. set (s := count (concat (cs ++ fs)) + 1). set (d := disk l).
  assert (s < 2 ^ 64) as Hs64 by (pose proof (iv_bound _ _ _ Hinv); unfold s; lia).
  assert (s = count (concat cs) + count (concat fs) + 1) as Hs by (unfold s; by rewrite concat_app, count_app).
  assert (ledger_dir d !! new_name s false = None) as Hnone.
  { destruct (ledger_dir d !! new_name s false) as [i|] eqn:Hi; [|done]. exfalso.
    destruct (iv_names _ _ _ Hinv _ _ Hi) as [Hig|[(y & _ & Hy)|(y & Hy & Heq)]].
    - by rewrite new_name_not_ignored in Hig.
    - by apply (committed_not_new y.1 (last_of y) s).
    - pose proof (start_bound _ _ _ Hinv y Hy). apply new_name_inj in Heq; [|done|done].
      apply starts_bounds in Hy as (_ & Hb & Hin). pose proof (proj1 (Forall_forall _ _) Hne y.2 Hin) as Hy2.
      destruct y as [y1 y2]. simpl in *. destruct y2; [done|]. unfold count in Hb at 1. simpl in Hb. lia. }
  set (i := next_file d). set (d' := mkDisk (<[i := []]> (contents d)) (i + 1) (<[new_name s false := i]> (ledger_dir d))).
  set (f := LedgerFile.mk (new_name s false) i s positions_offset_header_size [] false false false false).
  assert (forall n j, ledger_dir d !! n = Some j -> ledger_dir d' !! n = Some j /\ content j d' = content j d) as Hold.
  { intros n j Hn. assert (n <> new_name s false) by congruence. pose proof (iv_fresh _ _ _ Hinv n j Hn) as Hj.
    unfold d', content. simpl. rewrite (lookup_insert_ne (ledger_dir d)) by done. rewrite lookup_insert_ne; [done|unfold i, d in *; lia]. }
  assert (forall n j, ledger_dir d' !! n = Some j -> (n = new_name s false /\ j = i) \/ (n <> new_name s false /\ ledger_dir (disk l) !! n = Some j)) as Hnew.
  { intros n j. unfold d'. cbn [ledger_dir]. destruct (decide (n = new_name s false)) as [->|Hnn].
    - rewrite (lookup_insert_eq (ledger_dir d)). intros [= <-]. by left.
    - rewrite (lookup_insert_ne (ledger_dir d)) by done. by right. }
  exists f, d'. split; [|split; [|done]].
  { unfold new_ledger_file, bind, gets. fold d. by rewrite Hnone. }
  constructor; cbn [set_files set_disk disk files files_read_cache end_of_committed_files_idx use_existing_files read_ledger_dirs recovery_start_idx].
  - eapply Forall_impl; [exact (iv_committed _ _ _ Hinv)|]. intros y (j & Hj & Hc). destruct (Hold _ _ Hj) as [H1 H2]. exists j. split; [done|by rewrite H2].
  - rewrite starts_app. apply Forall2_app.
    + eapply Forall2_impl; [exact (iv_open _ _ _ Hinv)|]. intros g y Hg. destruct (Hold _ _ (oa_dir _ _ _ Hg)) as [H1 H2].
      eapply open_at_frame; [exact H2| |exact Hg]. rewrite H1. symmetry. apply (oa_dir _ _ _ Hg).
    + cbn [starts]. constructor; [|constructor]. rewrite <- Hs. constructor; simpl; try done.
      * constructor; simpl; try done; [lia|]. right. unfold content. simpl. by rewrite lookup_insert_eq.
      * exact (lookup_insert_eq (ledger_dir d) (new_name s false) i).
  - pose proof (iv_chunks _ _ _ Hinv) as Hch. rewrite app_assoc, Forall_app. split; [done|]. by repeat constructor.
  - apply (iv_nonempty _ _ _ Hinv).
  - intros k c0 Hk Hlt. rewrite length_app in Hlt. simpl in Hlt. rewrite lookup_app_l in Hk by lia.
    by eapply (proj1 (Forall_lookup _ _) Hne).
  - intros k g Hk Hlt. rewrite length_app in Hlt. simpl in Hlt. rewrite lookup_app_l in Hk by lia.
    by eapply (proj1 (Forall_lookup _ _) Hcomp).
  - intros n j [[-> ->]|[_ Hn]]%Hnew.
    + right. right. exists (s, []). rewrite starts_app. cbn [starts]. rewrite <- Hs. split; [set_solver|done].
    + destruct (iv_names _ _ _ Hinv n j Hn) as [?|[?|(y & Hy & ->)]]; [by left|by right; left|].
      right. right. exists y. rewrite starts_app. split; [set_solver|done].
  - intros n1 n2 j [[-> ->]|[N1 H1]]%Hnew [[-> Hij]|[N2 H2]]%Hnew; try done.
    + pose proof (iv_fresh _ _ _ Hinv _ _ H2). unfold i, d in *. lia.
    + pose proof (iv_fresh _ _ _ Hinv _ _ H1). unfold i, d in *. lia.
    + by eapply (iv_files _ _ _ Hinv).
  - intros n j [[-> ->]|[_ Hn]]%Hnew; [simpl; lia|]. pose proof (iv_fresh _ _ _ Hinv _ _ Hn). unfold d', i, d in *. simpl. lia.
  - eapply Forall_impl; [exact (iv_cache _ _ _ Hinv)|]. intros g (y & j & Hy & Hj & Hcj & ->). exists y, j.
    destruct (Hold _ _ Hj) as [H1 H2]. split_and!; try done. by rewrite H2.
  - apply (iv_end _ _ _ Hinv).
  - apply (iv_existing _ _ _ Hinv).
  - apply (iv_read_dirs _ _ _ Hinv).
  - apply (iv_recovery _ _ _ Hinv).
  - pose proof (iv_bound _ _ _ Hinv) as Hb. rewrite !concat_app, !count_app in *. simpl. unfold count at 3. simpl. lia.
Qed.

(** The first of the open files, complete, becomes a committed one. *)
Section commit.
Context (l : Ledger) (cs fs : list (list bytes)) (c : list bytes) (gs : list LedgerFile.t) (f : LedgerFile.t).
Context (Hinv : inv l cs (c :: fs)) (Hfiles : files l = f :: gs) (Hcomp : completed f = true) (Hne : c <> []).
Let base : N := count (concat cs).
Let s : N := base + 1.
Let e : N := base + count c.
Let d' : Disk :=
  set_ledger_dir (<[committed_name s e false := file f]> (delete (new_name s false) (ledger_dir (disk l)))) (disk l).

Lemma commit_open : open_at (disk l) f (s, c) /\ Forall2 (open_at (disk l)) gs (starts e fs).
Proof. pose proof (iv_open _ _ _ Hinv) as Ho. rewrite Hfiles in Ho. cbn [starts] in Ho. by inversion Ho; subst. Qed.

Lemma commit_bound : s < 2 ^ 64 /\ e < 2 ^ 64.
Proof. pose proof (iv_bound _ _ _ Hinv) as Hb. rewrite concat_app in Hb. cbn [concat] in Hb. rewrite !count_app in Hb. fold base in Hb. unfold s, e. lia. Qed.

Lemma commit_name_fresh : ledger_dir (disk l) !! committed_name s e false = None.
Proof.
  destruct (ledger_dir (disk l) !! committed_name s e false) as [i|] eqn:Hi; [exfalso|done]. destruct commit_bound.
  destruct (iv_names _ _ _ Hinv _ _ Hi) as [Hig|[(y & Hy & Heq)|(y & _ & Heq)]].
  - by rewrite committed_name_not_ignored in Hig.
  - destruct (committed_bound _ _ _ Hinv y Hy). apply (f_equal get_start_idx_from_file_name) in Heq.
    rewrite !committed_name_start in Heq by done. apply starts_bounds in Hy as (_ & Hb & Hin).
    pose proof (proj1 (Forall_forall _ _) (iv_nonempty _ _ _ Hinv) _ Hin) as Hy2. destruct y as [y1 y2]. simpl in *. injection Heq as Heq.
    fold base in Hb. rewrite <- Heq in Hb. destruct y2; [done|]. unfold count in Hb at 1. simpl in Hb. unfold s in Hb. lia.
  - by apply committed_not_new in Heq.
Qed.

(** The other names keep their files. *)
Lemma commit_lookup n i : ledger_dir d' !! n = Some i <->
  (n = committed_name s e false /\ i = file f) \/
  (n <> committed_name s e false /\ n <> new_name s false /\ ledger_dir (disk l) !! n = Some i).
Proof.
  unfold d'. cbn [set_ledger_dir ledger_dir]. destruct (decide (n = committed_name s e false)) as [->|Hn].
  - rewrite (lookup_insert_eq (delete _ (ledger_dir _))). naive_solver.
  - rewrite (lookup_insert_ne (delete _ (ledger_dir _))) by done. destruct (decide (n = new_name s false)) as [->|Hn'].
    + rewrite (lookup_delete_eq (ledger_dir _)). naive_solver.
    + rewrite (lookup_delete_ne (ledger_dir _)) by done. naive_solver.
Qed.

Lemma commit_kept n i : n <> new_name s false -> ledger_dir (disk l) !! n = Some i -> ledger_dir d' !! n = Some i.
Proof.
  intros Hn Hi. apply commit_lookup. right. split_and!; [|done|done]. intros ->. by rewrite commit_name_fresh in Hi.
Qed.

Lemma inv_commit :
  inv (set_files gs (set_end_of_committed_files_idx e (set_disk d' l))) (cs ++ [c]) fs.
Proof.
  destruct commit_open as [Hf Hgs]. assert (file_ok (disk l) f c) as Hok by apply (oa_file _ _ _ Hf).
  assert (content (file f) (disk l) = complete_bytes c) as Hc.
  { destruct (fo_content _ _ _ Hok) as [Hc|(-> & _)]; [|done]. rewrite Hc. unfold header_bytes, table_bytes. rewrite Hcomp.
    by rewrite (fo_total _ _ _ Hok), (fo_positions _ _ _ Hok). }
  assert (starts 0 (cs ++ [c]) = (starts 0 cs ++ [(s, c)])%list) as Hst by (rewrite starts_app; done).
  assert (last_of (s, c) = e) as Hlast by (unfold last_of, s, e; simpl; lia).
  assert (count (concat (cs ++ [c])) = e) as He by (rewrite concat_app, count_app; simpl; by rewrite app_nil_r).
  constructor; cbn [set_files set_end_of_committed_files_idx set_disk disk files files_read_cache end_of_committed_files_idx use_existing_files read_ledger_dirs recovery_start_idx].
  - rewrite Hst, Forall_app. split.
    + eapply Forall_impl; [exact (iv_committed _ _ _ Hinv)|]. intros y (i & Hi & Hci). exists i. split; [|done].
      apply commit_kept; [by apply committed_not_new|done].
    + constructor; [|constructor]. exists (file f). rewrite Hlast. split; [|done]. apply commit_lookup. by left.
  - rewrite He. apply Forall2_same_length_lookup_2; [by eapply Forall2_length|]. intros i g y Hg Hy.
    pose proof (Forall2_lookup_lr _ _ _ _ _ _ Hgs Hg Hy) as Hog. apply (open_at_frame (disk l)); [done| |exact Hog].
    rewrite (oa_dir _ _ _ Hog). apply commit_kept; [|apply (oa_dir _ _ _ Hog)]. intros Heq. apply list_elem_of_lookup_2 in Hy.
    destruct commit_bound. apply new_name_inj in Heq; [|eapply (start_bound _ _ _ Hinv); apply list_elem_of_further; exact Hy|done].
    apply starts_bounds in Hy as (Hb & _). destruct c; [done|]. unfold e, s, count in *. simpl in *. lia.
  - pose proof (iv_chunks _ _ _ Hinv) as Hch. by rewrite <- app_assoc.
  - apply Forall_app. split; [apply (iv_nonempty _ _ _ Hinv)|]. by constructor.
  - intros i c0 Hi Hlt. apply (iv_open_nonempty _ _ _ Hinv (S i) c0); [done|simpl; lia].
  - intros i g Hi Hlt. apply (iv_complete _ _ _ Hinv (S i) g); rewrite Hfiles; [done|simpl; lia].
  - intros n i [[-> ->]|(_ & Hn & Hi)]%commit_lookup.
    + right. left. exists (s, c). rewrite Hst, Hlast. split; [set_solver|done].
    + destruct (iv_names _ _ _ Hinv n i Hi) as [?|[(y & Hy & ->)|(y & Hy & ->)]]; [by left| |].
      * right. left. exists y. rewrite Hst. split; [set_solver|done].
      * right. right. exists y. rewrite He. cbn [starts] in Hy. apply elem_of_cons in Hy as [->|Hy]; done.
  - intros n1 n2 i [[-> ->]|(H1 & N1 & E1)]%commit_lookup [[-> Hi]|(H2 & N2 & E2)]%commit_lookup; try done.
    + exfalso. apply N2. eapply (iv_files _ _ _ Hinv); [exact E2|apply (oa_dir _ _ _ Hf)].
    + exfalso. subst i. apply N1. eapply (iv_files _ _ _ Hinv); [exact E1|apply (oa_dir _ _ _ Hf)].
    + by eapply (iv_files _ _ _ Hinv).
  - intros n i [[-> ->]|(_ & _ & Hi)]%commit_lookup; eapply (iv_fresh _ _ _ Hinv); [apply (oa_dir _ _ _ Hf)|exact Hi].
  - eapply Forall_impl; [exact (iv_cache _ _ _ Hinv)|]. intros g (y & i & Hy & Hi & Hci & ->). exists y, i.
    rewrite Hst. split_and!; try done; [set_solver|]. apply commit_kept; [by apply committed_not_new|done].
  - by rewrite He.
  - apply (iv_existing _ _ _ Hinv).
  - apply (iv_read_dirs _ _ _ Hinv).
  - apply (iv_recovery _ _ _ Hinv).
  - pose proof (iv_bound _ _ _ Hinv) as Hb. by rewrite <- app_assoc.
Qed.
End commit.
End HostLedgerSpec.
