(* ===== verification/HostLedgerOps.v ===== *)
(** * The ledger of the host: operations

    Each operation of the ledger, on a ledger that holds a log: what it returns
    and the log that the ledger holds afterwards. *)

From S2P Require Import Prelude LedgerEntries TxStatus LedgerFile LedgerFileSpec LedgerNames HostLedger HostLedgerSpec.

Module HostLedgerOps.
Import LedgerFile LedgerFileSpec LedgerNames HostLedger HostLedgerSpec.
Open Scope N_scope.
Open Scope m_scope.
#[local] Arguments new_name : simpl never.
#[local] Arguments committed_name : simpl never.

(** The log a ledger holds. *)
Record Log := mkLog { entries : list bytes; commit_point : N }.

(** The ledger holds log [a], in chunks [cs], committed, and [fs], open. *)
Record good (l : Ledger) (cs fs : list (list bytes)) (a : Log) : Prop := {
  gd_inv : inv l cs fs;
  gd_entries : entries a = concat (cs ++ fs);
  gd_commit : commit_point a = committed_idx l;
  gd_last : last_idx l = count (concat (cs ++ fs));
  gd_open_nonempty : Forall (fun c => c <> []) fs;
  gd_committed : count (concat cs) <= committed_idx l <= last_idx l;
  gd_open : Forall (fun x => committed_idx l <= last_of x) (starts (count (concat cs)) fs);
}.

Definition holds (l : Ledger) (a : Log) : Prop := exists cs fs, good l cs fs a.

Lemma count_pos {A} (l : list A) : l <> [] -> 0 < count l.
Proof. destruct l; [done|]. intros _. unfold count. simpl. lia. Qed.

Lemma get_last_idx_open d f x : open_at d f x -> get_last_idx f = last_of x.
Proof. intros Hf. rewrite (get_last_idx_ok _ _ _ (oa_file _ _ _ Hf)), (oa_start _ _ _ Hf). done. Qed.

Lemma length_files l cs fs : inv l cs fs -> length (files l) = length fs.
Proof. intros Hinv. rewrite (Forall2_length _ _ _ (iv_open _ _ _ Hinv)). apply length_starts. Qed.

(** The last file and its entries. *)
Lemma last_chunk l cs fs gs f : inv l cs fs -> files l = (gs ++ [f])%list ->
  exists fs1 c, fs = (fs1 ++ [c])%list /\ length gs = length fs1 /\
    open_at (disk l) f (count (concat cs) + count (concat fs1) + 1, c).
Proof.
  intros Hinv Hfiles. pose proof (length_files _ _ _ Hinv) as Hlen. rewrite Hfiles, length_app in Hlen. simpl in Hlen.
  destruct fs as [|c fs1 _] using rev_ind; [simpl in Hlen; lia|]. exists fs1, c. rewrite length_app in Hlen. simpl in Hlen.
  split_and!; [done|lia|]. destruct (update_split l cs fs1 [] c gs [] f Hinv Hfiles ltac:(lia)) as (_ & Hf & _). exact Hf.
Qed.

Lemma latest_split l f : get_latest_file true l = Some f -> exists gs, files l = (gs ++ [f])%list /\ completed f = false.
Proof.
  unfold get_latest_file. destruct (files l) as [|g gs _] using rev_ind; [done|]. rewrite last_snoc.
  destruct (completed g) eqn:Hc; [done|]. intros [= <-]. by exists gs.
Qed.

Lemma latest_none l cs fs : inv l cs fs -> get_latest_file true l = None -> Forall (fun f => completed f = true) (files l).
Proof.
  intros Hinv. unfold get_latest_file. pose proof (iv_complete _ _ _ Hinv) as Hcomp.
  destruct (files l) as [|g gs _] using rev_ind; [constructor|]. rewrite last_snoc. destruct (completed g) eqn:Hc; [intros _|done].
  apply Forall_lookup. intros i f Hi. destruct (decide (S i < length (gs ++ [g]))%nat) as [Hlt|Hge]; [by eapply Hcomp|].
  assert (i = length gs) as -> by (apply lookup_lt_Some in Hi; rewrite length_app in *; simpl in *; lia).
  rewrite lookup_middle in Hi. by simplify_eq.
Qed.

Lemma set_last_file_snoc l gs f f' : files l = (gs ++ [f])%list -> set_last_file f' l = set_files (gs ++ [f']) l.
Proof. intros Hf. unfold set_last_file. rewrite Hf, length_app. simpl. by rewrite Nat.add_sub, take_app_length. Qed.

(** A file that is the last is changed. *)
Lemma inv_last l cs fs1 c gs f n d' f' c' :
  inv l cs (fs1 ++ [c]) -> files l = (gs ++ [f])%list -> length gs = length fs1 -> only_file (file f) (disk l) d' ->
  start_idx f' = start_idx f -> file_name f' = file_name f -> file f' = file f -> committed f' = false -> recovery f' = false ->
  file_ok d' f' c' -> chunk_ok c' -> count (concat (cs ++ fs1 ++ [c'])) < 2 ^ 64 - 1 ->
  inv (set_last_idx n (set_files (gs ++ [f']) (set_disk d' l))) cs (fs1 ++ [c']).
Proof.
  intros Hinv Hfiles Hlen (Hc & Hdir & Hnext) E1 E2 E3 E4 E5 Hok Hck Hb.
  eapply (inv_chunk_update l cs fs1 [] c gs [] f Hinv Hfiles Hlen n d' f' c' Hc); try done.
  split; [done|]. intros m. rewrite decide_False by (apply not_elem_of_nil). by rewrite Hdir.
Qed.

Lemma inv_chunk l cs fs c : inv l cs fs -> c ∈ cs ++ fs -> chunk_ok c.
Proof. intros Hinv Hc. exact (proj1 (Forall_forall _ _) (iv_chunks _ _ _ Hinv) c Hc). Qed.

Lemma complete_latest_ok l cs fs gs f :
  inv l cs fs -> files l = (gs ++ [f])%list -> Forall (fun c => c <> []) fs ->
  exists d', complete_latest f l = (Ok tt, set_files (gs ++ [set_completed true f]) (set_disk d' l)) /\
    inv (set_files (gs ++ [set_completed true f]) (set_disk d' l)) cs fs.
Proof.
  intros Hinv Hfiles Hne. destruct (last_chunk _ _ _ _ _ Hinv Hfiles) as (fs1 & c & -> & Hlen & Hf).
  apply Forall_app in Hne as [_ Hne]. inversion Hne as [|? ? Hc _]; subst.
  destruct (complete_ok _ _ _ (oa_file _ _ _ Hf) Hc) as (d' & Hrun & Hok & Honly). exists d'. split.
  - unfold complete_latest, bind, on_disk, modify. rewrite Hrun. by rewrite (set_last_file_snoc (set_disk d' l) gs f).
  - assert (set_files (gs ++ [set_completed true f]) (set_disk d' l) =
      set_last_idx (last_idx l) (set_files (gs ++ [set_completed true f]) (set_disk d' l))) as -> by (by destruct l).
    eapply inv_last; try done.
    + apply (oa_committed _ _ _ Hf).
    + apply (oa_recovery _ _ _ Hf).
    + eapply inv_chunk; [exact Hinv|]. set_solver.
    + apply (iv_bound _ _ _ Hinv).
Qed.

Section operations.
Context `{DirectoryOrder}.

(** The file that is written to is the last one, and not complete. *)
Lemma file_for_writing_ok l cs fs :
  inv l cs fs -> Forall (fun c => c <> []) fs -> last_idx l = count (concat (cs ++ fs)) ->
  exists f l', file_for_writing l = (Ok f, l') /\ completed f = false /\
    exists gs fs1 c, inv l' cs (fs1 ++ [c]) /\ files l' = (gs ++ [f])%list /\ length gs = length fs1 /\
      concat (fs1 ++ [c]) = concat fs /\ Forall (fun c => c <> []) fs1 /\
      (get_latest_file true l = Some f /\ l' = l /\ fs = (fs1 ++ [c])%list \/
       get_latest_file true l = None /\ c = [] /\ fs1 = fs /\ l' = set_files (files l ++ [f]) (set_disk (disk l') l)).
Proof.
  intros Hinv Hne Hlast. unfold file_for_writing, bind, gets. destruct (get_latest_file true l) as [f|] eqn:Hl.
  - destruct (latest_split _ _ Hl) as (gs & Hfiles & Hcomp). exists f, l. split; [done|]. split; [done|].
    destruct (last_chunk _ _ _ _ _ Hinv Hfiles) as (fs1 & c & -> & Hlen & Hf). exists gs, fs1, c.
    apply Forall_app in Hne as [Hne _]. split_and!; try done. by left.
  - unfold get_existing_ledger_file_for_idx, bind, gets. rewrite (iv_existing _ _ _ Hinv), (iv_recovery _ _ _ Hinv). cbn [negb ret].
    destruct (inv_new l cs fs Hinv (latest_none _ _ _ Hinv Hl) Hne) as (f & d' & Hrun & Hinv' & Hcomp).
    rewrite Hlast. unfold on_disk, modify. rewrite Hrun. eexists f, _. split; [done|]. split; [done|].
    exists (files l), fs, []. split_and!; try done.
    + by rewrite (length_files _ _ _ Hinv).
    + by rewrite concat_app, app_nil_r.
    + right. by destruct l.
Qed.

(** *** The file that contains an index *)

Lemma find_open d idx fls base fs :
  Forall2 (open_at d) fls (starts base fs) -> base < idx <= base + count (concat fs) ->
  exists gs f hs fs1 c fs2, fls = (gs ++ f :: hs)%list /\ fs = (fs1 ++ c :: fs2)%list /\ length gs = length fs1 /\
    list_find (fun f => contains idx f = true) fls = Some (length gs, f) /\
    base + count (concat fs1) < idx <= base + count (concat fs1) + count c.
Proof.
  revert fls base. induction fs as [|c fs IH]; intros fls base Ho Hidx; [unfold count in Hidx; simpl in Hidx; lia|].
  cbn [starts] in Ho. inversion Ho as [|f ? hs ? Hf Hhs]; subst. cbn [concat] in Hidx. rewrite count_app in Hidx.
  assert (get_last_idx f = base + count c) as Hlast by (rewrite (get_last_idx_open _ _ _ Hf); unfold last_of; simpl; lia).
  destruct (N.le_gt_cases idx (base + count c)) as [Hle|Hgt].
  - exists [], f, hs, [], c, fs. split_and!; try done.
    + cbn [list_find]. rewrite decide_True; [done|]. unfold contains. rewrite Hlast. by apply N.leb_le.
    + simpl. unfold count at 1. simpl. lia.
    + simpl. unfold count at 1. simpl. lia.
  - destruct (IH hs (base + count c) Hhs) as (gs & g & hs' & fs1 & c' & fs2 & -> & -> & Hlen & Hfind & Hb); [lia|].
    exists (f :: gs), g, hs', (c :: fs1), c', fs2. cbn [concat length]. rewrite count_app. split_and!; try done; [simpl; lia| |lia|lia].
    cbn [list_find]. rewrite decide_False.
    + by rewrite Hfind.
    + unfold contains. rewrite Hlast. intros Hc%N.leb_le. lia.
Qed.

(** The last file contains the last index. *)
Lemma find_last d fls base fs : Forall2 (open_at d) fls (starts base fs) -> Forall (fun c => c <> []) fs -> fs <> [] ->
  get_it_contains_idx (base + count (concat fs)) fls = (length fls - 1)%nat.
Proof.
  intros Ho Hne Hfs. assert (base + count (concat fs) <> 0 /\ count (concat fs) <> 0) as [Hz Hz'].
  { destruct fs as [|[|e c] fs]; [done|by inversion Hne|]. cbn [concat app]. unfold count. simpl. lia. }
  destruct (find_open d (base + count (concat fs)) fls base fs Ho) as (gs & f & hs & fs1 & c & fs2 & -> & -> & Hlen & Hfind & Hb); [lia|].
  unfold get_it_contains_idx. destruct (N.eqb_spec (base + count (concat (fs1 ++ c :: fs2))) 0); [lia|]. rewrite Hfind.
  destruct fs2 as [|c2 fs2].
  - apply Forall2_length in Ho. rewrite length_starts, !length_app in Ho. simpl in Ho. rewrite length_app. simpl. lia.
  - exfalso. rewrite concat_app in Hb. cbn [concat] in Hb. rewrite !count_app in Hb. apply Forall_app in Hne as [_ Hne].
    inversion Hne as [|? ? _ Hne']; subst. inversion Hne' as [|? ? Hc2 _]; subst. apply count_pos in Hc2. lia.
Qed.

(** *** Writing *)

Definition forces_before (e : bytes) : bool := negb (N.land (header_flags (decode_header (take 8 e))) FORCE_LEDGER_CHUNK_BEFORE =? 0).
Definition forces_after (e : bytes) : bool := negb (N.land (header_flags (decode_header (take 8 e))) FORCE_LEDGER_CHUNK_AFTER =? 0).

(** The offsets of a chunk fit 32 bits, and indices fit 64. *)
Definition room (e : bytes) (l : Ledger) : bool :=
  (8 + size e <? 2 ^ 32) && (last_idx l + 2 <? 2 ^ 64) &&
  match get_latest_file true l with Some f => total_len f + size e <? 2 ^ 32 | None => true end.

Lemma good_same l l' cs fs a :
  good l cs fs a -> inv l' cs fs -> last_idx l' = last_idx l -> committed_idx l' = committed_idx l -> good l' cs fs a.
Proof. intros [H1 H2 H3 H4 H5 H6 H7] Hinv E1 E2. constructor; try done; rewrite ?E1, ?E2; done. Qed.

(** A chunk is ended before the entry if it asks for it. *)
Definition end_chunk (b : bool) : M Ledger unit :=
  if b then l <- gets (fun l => l) ;;; match get_latest_file true l with Some f => complete_latest f | None => ret tt end else ret tt.

Lemma latest_completed l gs f : files l = (gs ++ [set_completed true f])%list -> get_latest_file true l = None.
Proof. intros Hf. unfold get_latest_file. by rewrite Hf, last_snoc. Qed.

Lemma end_chunk_ok b e l cs fs a : good l cs fs a -> room e l = true ->
  exists l', end_chunk b l = (Ok tt, l') /\ good l' cs fs a /\ room e l' = true.
Proof.
  intros Hg Hroom. destruct b; [|by exists l]. unfold end_chunk, bind, gets.
  destruct (get_latest_file true l) as [f|] eqn:Hl; [|by exists l]. destruct (latest_split _ _ Hl) as (gs & Hfiles & _).
  destruct (complete_latest_ok l cs fs gs f (gd_inv _ _ _ _ Hg) Hfiles (gd_open_nonempty _ _ _ _ Hg)) as (d' & Hrun & Hinv).
  eexists. split; [exact Hrun|]. split; [by eapply good_same|]. revert Hroom. unfold room.
  rewrite (latest_completed (set_files (gs ++ [set_completed true f]) (set_disk d' l)) gs f) by done. rewrite !andb_true_iff. cbn [set_files set_disk last_idx]. naive_solver.
Qed.

(** The entry is added to the last file. *)
Lemma append_ok e l cs fs a : good l cs fs a -> room e l = true -> framed e ->
  exists f l1 f' d' fs1 c gs, file_for_writing l = (Ok f, l1) /\
    LedgerFile.write_entry e f (disk l1) = (Ok (f', count (entries a) + 1, false), d') /\
    files l1 = (gs ++ [f])%list /\
    good (set_last_idx (count (entries a) + 1) (set_files (gs ++ [f']) (set_disk d' l1))) cs (fs1 ++ [c ++ [e]])
      (mkLog (entries a ++ [e]) (commit_point a)).
Proof.
  intros Hg Hroom Hfr. pose proof (gd_inv _ _ _ _ Hg) as Hinv.
  destruct (file_for_writing_ok l cs fs Hinv (gd_open_nonempty _ _ _ _ Hg) (gd_last _ _ _ _ Hg))
    as (f & l1 & Hrun & Hcomp & gs & fs1 & c & Hinv1 & Hfiles & Hlen & Hconc & Hne & Hcase).
  destruct (update_split l1 cs fs1 [] c gs [] f Hinv1 Hfiles Hlen) as (_ & Hf & _).
  assert (file_ok (disk l1) f c) as Hok by apply (oa_file _ _ _ Hf).
  assert (start_idx f = count (concat cs) + count (concat fs1) + 1) as Hstart by apply (oa_start _ _ _ Hf).
  assert (entries a = concat (cs ++ fs1 ++ [c])) as Hent by (rewrite (gd_entries _ _ _ _ Hg), !(concat_app cs), Hconc; done).
  unfold room in Hroom. apply andb_true_iff in Hroom as [[Hr1%N.ltb_lt Hr2%N.ltb_lt]%andb_true_iff Hr3].
  assert (total_len f + size e < 2 ^ 32) as Hsmall.
  { destruct Hcase as [(Hl & _)|(Hl & -> & _)]; rewrite Hl in Hr3; [by apply N.ltb_lt in Hr3|].
    rewrite (fo_total _ _ _ Hok). unfold sizes, size at 1. simpl. done. }
  destruct (write_entry_ok (disk l1) f c e Hok Hcomp (oa_committed _ _ _ Hf)) as (f' & d' & Hw & Hok' & Honly & Hf').
  { destruct Hfr as [H8 _]. intros ->. unfold size in H8. simpl in H8. lia. }
  { done. }
  assert (start_idx f + N.of_nat (length c) = count (entries a) + 1) as Hidx.
  { rewrite Hent, !concat_app, !count_app, Hstart. simpl. rewrite app_nil_r. fold (count c). lia. }
  rewrite Hidx in Hw. exists f, l1, f', d', fs1, c, gs. split_and!; try done.
  assert (concat (cs ++ fs1 ++ [c ++ [e]]) = (entries a ++ [e])%list) as Hent'.
  { rewrite Hent, !concat_app. simpl. by rewrite !app_nil_r, !app_assoc. }
  assert (committed_idx l1 = committed_idx l) as Hcidx by (destruct Hcase as [(_ & -> & _)|(_ & _ & _ & ->)]; done).
  assert (count (entries a) = last_idx l) as Hcount by (rewrite (gd_entries _ _ _ _ Hg); symmetry; apply (gd_last _ _ _ _ Hg)).
  constructor; cbn [set_last_idx set_files set_disk entries commit_point last_idx committed_idx].
  - eapply inv_last; try done; rewrite ?Hf'; try done.
    + apply (oa_committed _ _ _ Hf).
    + apply (oa_recovery _ _ _ Hf).
    + destruct (inv_chunk _ _ _ c Hinv1) as [Hc1 Hc2]; [set_solver|]. split; [apply Forall_app; split; [done|by constructor]|].
      rewrite (fo_total _ _ _ Hok) in Hsmall. rewrite sizes_app. unfold sizes at 2. simpl. rewrite app_nil_r. unfold size in *. lia.
    + rewrite Hent', count_app, Hcount. unfold count. simpl. lia.
  - done.
  - rewrite (gd_commit _ _ _ _ Hg). done.
  - rewrite Hent', count_app. done.
  - apply Forall_app. split; [done|]. constructor; [|constructor]. by destruct c.
  - pose proof (gd_committed _ _ _ _ Hg). lia.
  - rewrite Hcidx, starts_app. apply Forall_app. split.
    + pose proof (gd_open _ _ _ _ Hg) as Ho. destruct Hcase as [(_ & _ & ->)|(_ & _ & <- & _)]; [|done].
      rewrite starts_app, Forall_app in Ho. apply Ho.
    + constructor; [|constructor]. unfold last_of. cbn [fst snd]. pose proof (gd_committed _ _ _ _ Hg) as Hcm.
      rewrite <- Hcount, Hent, !concat_app, !count_app in Hcm. simpl in Hcm. rewrite app_nil_r in Hcm. rewrite count_app. lia.
Qed.


(** What [write_entry] answers, and the log afterwards. *)
Definition written (e : bytes) (committable : bool) (a : Log) : result N * Log :=
  if forces_after e && negb committable
  then (Throw (LogicError "Ledger chunks cannot end in a non-committable transaction"), a)
  else (Ok (count (entries a) + 1), mkLog (entries a ++ [e]) (commit_point a)).

Lemma write_ok e committable l a : holds l a -> room e l = true -> framed e ->
  exists l', write_entry e committable l = ((written e committable a).1, l') /\ holds l' (written e committable a).2.
Proof.
  intros (cs & fs & Hg) Hroom Hfr. unfold write_entry.
  assert (peek_header e = Ok (decode_header (take 8 e))) as Hpeek.
  { unfold peek_header, serialised_entry_header_size. destruct Hfr as [H8 _]. unfold size in H8.
    destruct (N.ltb_spec (N.of_nat (length e)) 8); [lia|done]. }
  rewrite Hpeek. rewrite (bind_ok (lift _) _ l (decode_header (take 8 e)) l) by done.
  fold (forces_before e) (forces_after e). fold (end_chunk (forces_before e)).
  destruct (end_chunk_ok (forces_before e) e l cs fs a Hg Hroom) as (l1 & Hend & Hg1 & Hroom1).
  rewrite (bind_ok _ _ _ _ _ Hend). cbv zeta. unfold written.
  destruct (forces_after e && negb committable) eqn:Hthrow; [exists l1; split; [done|]; by exists cs, fs|].
  destruct (append_ok e l1 cs fs a Hg1 Hroom1 Hfr) as (f & l2 & f' & d' & fs1 & c & gs & Hfw & Hw & Hfiles & Hg2).
  rewrite (bind_ok _ _ _ _ _ Hfw).
  rewrite (bind_ok _ _ l2 (f', count (entries a) + 1, false) (set_disk d' l2)) by (unfold on_disk; by rewrite Hw).
  set (l3 := set_last_idx (count (entries a) + 1) (set_files (gs ++ [f']) (set_disk d' l2))) in *.
  rewrite (bind_ok _ _ _ tt (set_files (gs ++ [f']) (set_disk d' l2))) by (unfold modify; by rewrite (set_last_file_snoc (set_disk d' l2) gs f)).
  rewrite (bind_ok _ _ _ tt l3) by done. rewrite (bind_ok (ret tt) _ _ tt l3) by done.
  rewrite (bind_ok _ _ l3 tt l3).
  2:{ unfold modify. rewrite (iv_existing _ _ _ (gd_inv _ _ _ _ Hg2)). by destruct (last_idx_on_init l3). }
  destruct (committable && forces_after e); [|exists l3; split; [done|]; by exists cs, (fs1 ++ [c ++ [e]])].
  destruct (complete_latest_ok l3 cs _ gs f' (gd_inv _ _ _ _ Hg2) eq_refl (gd_open_nonempty _ _ _ _ Hg2)) as (d3 & Hc & Hinv3).
  rewrite (bind_ok _ _ _ _ _ Hc). eexists. split; [done|]. exists cs, (fs1 ++ [c ++ [e]]). by eapply good_same.
Qed.

(** *** Truncating *)

(** The files after the first one are removed. *)
Lemma truncate_rest idx hs l :
  Forall (fun g => exists x, x.2 <> [] /\ open_at (disk l) g x) hs -> NoDup (file_name <$> hs) ->
  exists d', truncate_files idx false hs l = (Ok [], set_disk d' l) /\ contents d' = contents (disk l) /\
    without (file_name <$> hs) (disk l) d'.
Proof.
  revert l. induction hs as [|g hs IH]; intros l Hhs Hnd.
  - exists (disk l). split_and!; [by destruct l|done|]. split; [done|]. intros n. by rewrite decide_False by (apply not_elem_of_nil).
  - inversion Hhs as [|? ? (x & Hx & Hg) Hhs']; subst. cbn [fmap list_fmap] in Hnd. apply NoDup_cons in Hnd as [Hnot Hnd].
    assert (file_ok (disk l) g x.2) as Hok by apply (oa_file _ _ _ Hg).
    pose proof (truncate_remove (disk l) g x.2 (fo_start _ _ _ Hok) (fo_positions _ _ _ Hok) (oa_committed _ _ _ Hg) (or_intror Hx)) as Hrem.
    destruct (IH (set_disk (set_ledger_dir (delete (file_name g) (ledger_dir (disk l))) (disk l)) l)) as (d' & Hrun & Hcont & Hw).
    { apply Forall_forall. intros h Hh. destruct (proj1 (Forall_forall _ _) Hhs' h Hh) as (y & Hy & Hoh). exists y. split; [done|].
      apply (open_at_frame (disk l)); [reflexivity| |exact Hoh]. apply (lookup_delete_ne (ledger_dir (disk l))). rewrite <- (oa_name _ _ _ Hoh).
      intros Heq. apply Hnot. rewrite Heq. by apply list_elem_of_fmap_2. }
    { done. }
    exists d'. cbn [truncate_files]. rewrite u64_sub_exact by apply (fo_start _ _ _ Hok). split_and!.
    + unfold bind at 1, on_disk. rewrite Hrem by (rewrite (oa_name _ _ _ Hg), (oa_dir _ _ _ Hg); by eexists).
      unfold bind. rewrite Hrun. by destruct l.
    + done.
    + split; [apply Hw|]. intros n. destruct Hw as [_ Hw]. rewrite Hw. cbn [set_disk disk set_ledger_dir ledger_dir fmap list_fmap].
      destruct (decide (n = file_name g)) as [->|Hn].
      * rewrite (decide_True (P := file_name g ∈ file_name g :: _)) by apply list_elem_of_here.
        rewrite (lookup_delete_eq (ledger_dir (disk l))). by case_decide.
      * rewrite (lookup_delete_ne (ledger_dir (disk l))) by done. repeat case_decide; set_solver.
Qed.

Lemma open_names_nodup l cs fs : inv l cs fs -> NoDup (file_name <$> files l).
Proof.
  intros Hinv. apply NoDup_alt. intros i j n Hi Hj. apply list_lookup_fmap_Some in Hi as (f & -> & Hf). apply list_lookup_fmap_Some in Hj as (g & Heq & Hg).
  destruct (decide (i = j)) as [|Hij]; [done|exfalso].
  destruct (Forall2_lookup_l _ _ _ _ _ (iv_open _ _ _ Hinv) Hf) as (x & Hx & Hof), (Forall2_lookup_l _ _ _ _ _ (iv_open _ _ _ Hinv) Hg) as (y & Hy & Hog).
  destruct (open_files_differ _ _ _ Hinv i j f g x y Hf Hg Hx Hy Hij) as [Hnn _].
  apply Hnn. by rewrite <- (oa_name _ _ _ Hof), <- (oa_name _ _ _ Hog).
Qed.

(** The open files as the loops of [truncate] and [commit] see them. *)
Lemma rest_open l cs fs1 c fs2 gs f hs :
  inv l cs (fs1 ++ c :: fs2) -> files l = (gs ++ f :: hs)%list -> length gs = length fs1 -> Forall (fun c => c <> []) fs2 ->
  Forall (fun g => exists x, x.2 <> [] /\ open_at (disk l) g x) hs /\ NoDup (file_name <$> f :: hs) /\
  forall g, g ∈ hs -> file g <> file f.
Proof.
  intros Hinv Hfiles Hlen Hne. destruct (update_split l cs fs1 fs2 c gs hs f Hinv Hfiles Hlen) as (_ & Hf & Hhs). split_and!.
  - apply Forall_lookup. intros i g Hg. destruct (Forall2_lookup_l _ _ _ _ _ Hhs Hg) as (x & Hx & Hog). exists x. split; [|done].
    apply list_elem_of_lookup_2, starts_bounds in Hx as (_ & _ & Hx). exact (proj1 (Forall_forall _ _) Hne _ Hx).
  - pose proof (open_names_nodup _ _ _ Hinv) as Hnd. rewrite Hfiles, fmap_app, NoDup_app in Hnd. apply Hnd.
  - intros g [k Hg]%list_elem_of_lookup_1. destruct (Forall2_lookup_l _ _ _ _ _ Hhs Hg) as (x & _ & Hog). intros Heq.
    pose proof (open_names_nodup _ _ _ Hinv) as Hnd. rewrite Hfiles, fmap_app, fmap_cons, NoDup_app in Hnd. destruct Hnd as (_ & _ & Hnd).
    apply NoDup_cons in Hnd as [Hnot _]. apply Hnot. replace (file_name f) with (file_name g); [by eapply list_elem_of_fmap_2, list_elem_of_lookup_2|].
    rewrite (oa_name _ _ _ Hog), (oa_name _ _ _ Hf). eapply (iv_files _ _ _ Hinv); [apply (oa_dir _ _ _ Hog)|]. rewrite Heq. apply (oa_dir _ _ _ Hf).
Qed.

(** What is left of the file that contains the index. *)
Definition kept_chunk (n : nat) (c : list bytes) : list (list bytes) := match n with O => [] | _ => [take n c] end.

Lemma truncate_files_ok l cs fs1 c fs2 gs f hs n idx :
  inv l cs (fs1 ++ c :: fs2) -> files l = (gs ++ f :: hs)%list -> length gs = length fs1 -> Forall (fun c => c <> []) (c :: fs2) ->
  (n < length c)%nat -> idx = count (concat cs) + count (concat fs1) + N.of_nat n ->
  exists kept d', truncate_files idx true (f :: hs) l = (Ok kept, set_disk d' l) /\
    inv (set_last_idx idx (set_files (gs ++ kept) (set_disk d' l))) cs (fs1 ++ kept_chunk n c).
Proof.
  intros Hinv Hfiles Hlen Hne Hn Hidx. inversion Hne as [|? ? Hc Hne2]; subst.
  destruct (update_split l cs fs1 fs2 c gs hs f Hinv Hfiles Hlen) as (_ & Hf & _).
  destruct (rest_open l cs fs1 c fs2 gs f hs Hinv Hfiles Hlen Hne2) as (Hrest & Hnd & Hdiff).
  assert (file_ok (disk l) f c) as Hok by apply (oa_file _ _ _ Hf).
  assert (start_idx f = count (concat cs) + count (concat fs1) + 1) as Hstart by apply (oa_start _ _ _ Hf). destruct n as [|n].
  - destruct (truncate_rest (start_idx f - 1) (f :: hs) l) as (d' & Hrun & Hcont & Hw).
    { constructor; [|done]. by eexists (_, c). }
    { done. }
    exists [], d'. replace (count (concat cs) + count (concat fs1) + N.of_nat 0) with (start_idx f - 1) by lia. split.
    + rewrite <- Hrun. cbn [truncate_files]. by rewrite u64_sub_exact by apply (fo_start _ _ _ Hok).
    + cbn [kept_chunk]. rewrite !app_nil_r. eapply inv_drop; try done. intros j _. unfold content. by rewrite Hcont.
  - destruct (truncate_spec (disk l) f c n (file_ok_loose _ _ _ Hok Hc) (oa_committed _ _ _ Hf)) as (d1 & Ht & Hok1 & Honly); [lia|by right|].
    pose proof Honly as (Hc1 & Hdir1 & Hnext1).
    destruct (truncate_rest (start_idx f + N.of_nat n) hs (set_disk d1 l)) as (d' & Hrun & Hcont & Hw).
    { apply Forall_forall. intros g Hg. destruct (proj1 (Forall_forall _ _) Hrest g Hg) as (y & Hy & Hog). exists y. split; [done|].
      apply (open_at_frame (disk l)); [by apply Hc1, Hdiff|by cbn [set_disk disk]; rewrite Hdir1|done]. }
    { rewrite fmap_cons, NoDup_cons in Hnd. apply Hnd. }
    exists [truncated n c f], d'. replace (count (concat cs) + count (concat fs1) + N.of_nat (S n)) with (start_idx f + N.of_nat n) by lia. split.
    + cbn [truncate_files]. unfold bind at 1, on_disk. rewrite Ht. rewrite (bind_ok _ _ _ _ _ Hrun). by destruct l.
    + cbn [set_disk disk] in Hcont, Hw. assert (forall j, content j d' = content j d1) as Hcd by (intros j; unfold content; by rewrite Hcont).
      eapply inv_chunk_update; try done.
      * intros j Hj. by rewrite Hcd, Hc1.
      * split; [by rewrite (proj1 Hw)|]. intros m. by rewrite (proj2 Hw), Hdir1.
      * apply (oa_committed _ _ _ Hf).
      * apply (oa_recovery _ _ _ Hf).
      * by apply (file_ok_frame d1).
      * destruct (inv_chunk _ _ _ c Hinv) as [Hfr Hsz]; [set_solver|]. split; [by apply Forall_take|].
        pose proof (sizes_app (take (S n) c) (drop (S n) c)) as Hsa. rewrite take_drop in Hsa. lia.
      * pose proof (iv_bound _ _ _ Hinv) as Hb. rewrite !concat_app, !count_app in *. cbn [concat] in *. rewrite app_nil_r, count_app in *.
        assert (count (take (S n) c) <= count c) by (unfold count; rewrite length_take; lia). lia.
Qed.

(** The log after [truncate]. *)
Definition truncated_log (idx : N) (a : Log) : Log :=
  if (count (entries a) <=? idx) || (idx <? commit_point a) then a else mkLog (take (N.to_nat idx) (entries a)) (commit_point a).

Lemma kept_concat n c : concat (kept_chunk n c) = take n c.
Proof. destruct n; [done|]. simpl. by rewrite app_nil_r. Qed.

Lemma starts_sub base fs1 n c y : y ∈ starts base (fs1 ++ kept_chunk n c) -> (n <= length c)%nat ->
  y ∈ starts base fs1 \/ last_of y = base + count (concat fs1) + N.of_nat n.
Proof.
  rewrite starts_app. intros [Hy|Hy]%elem_of_app Hn; [by left|]. right. destruct n as [|n]; [by apply not_elem_of_nil in Hy|].
  cbn [kept_chunk starts] in Hy. apply list_elem_of_singleton in Hy as ->. unfold last_of, count. cbn [fst snd]. rewrite length_take. lia.
Qed.

(** The ledger holds the entries up to [idx]. *)
Lemma good_truncated l l' cs fs1 c fs2 n idx a :
  good l cs (fs1 ++ c :: fs2) a -> inv l' cs (fs1 ++ kept_chunk n c) -> (n < length c)%nat ->
  idx = count (concat cs) + count (concat fs1) + N.of_nat n -> committed_idx l <= idx ->
  last_idx l' = idx -> committed_idx l' = committed_idx l ->
  good l' cs (fs1 ++ kept_chunk n c) (mkLog (take (N.to_nat idx) (entries a)) (commit_point a)).
Proof.
  intros Hg Hinv Hn Hidx Hge E1 E2. pose proof (gd_open_nonempty _ _ _ _ Hg) as Hne. apply Forall_app in Hne as [Hne _].
  assert (count (take n c) = N.of_nat n) as Htake by (unfold count; rewrite length_take; lia).
  constructor; cbn [entries commit_point]; try done.
  - rewrite (gd_entries _ _ _ _ Hg), !concat_app, kept_concat. cbn [concat].
    replace (N.to_nat idx) with (length (concat cs) + (length (concat fs1) + n))%nat by (unfold count in *; lia).
    rewrite !take_app_add. by rewrite take_app_le by lia.
  - rewrite E2. apply (gd_commit _ _ _ _ Hg).
  - rewrite E1, !concat_app, !count_app, kept_concat. lia.
  - apply Forall_app. split; [done|]. destruct n as [|n]; [constructor|]. constructor; [|constructor]. destruct c; done.
  - pose proof (gd_committed _ _ _ _ Hg). lia.
  - apply Forall_forall. intros y Hy. rewrite E2. destruct (starts_sub _ _ _ _ _ Hy) as [Hy'|Hy']; [lia| |lia].
    pose proof (gd_open _ _ _ _ Hg) as Ho. rewrite starts_app, Forall_app in Ho. by apply (proj1 (Forall_forall _ _) (proj1 Ho)).
Qed.

(** The files that [truncate] and [commit] pick out. *)
Lemma pick {A} (gs : list A) f hs : take (S (length (gs ++ f :: hs) - 1) - length gs) (drop (length gs) (gs ++ f :: hs)) = f :: hs /\
  drop (S (length (gs ++ f :: hs) - 1)) (gs ++ f :: hs) = [].
Proof.
  rewrite drop_app_length, length_app. cbn [length]. split; [apply take_ge; simpl; lia|]. apply drop_ge. rewrite length_app. simpl. lia.
Qed.

Lemma truncate_ok idx l a : holds l a -> entries a <> [] ->
  exists l', truncate idx l = (Ok tt, l') /\ holds l' (truncated_log idx a).
Proof.
  intros (cs & fs & Hg) Hne. pose proof (gd_inv _ _ _ _ Hg) as Hinv. pose proof (gd_committed _ _ _ _ Hg) as Hcm.
  assert (count (entries a) = last_idx l) as Hcount by (rewrite (gd_entries _ _ _ _ Hg); symmetry; apply (gd_last _ _ _ _ Hg)).
  apply count_pos in Hne. unfold truncate, truncated_log. unfold bind at 1, gets. rewrite Hcount, (gd_commit _ _ _ _ Hg).
  destruct (N.eqb_spec (last_idx l) 0) as [|_]; [lia|]. cbn [negb andb].
  destruct ((last_idx l <=? idx) || (idx <? committed_idx l)) eqn:Hnoop; [exists l; split; [done|]; by exists cs, fs|].
  apply orb_false_iff in Hnoop as [Hlt%N.leb_gt Hge%N.ltb_ge].
  assert (last_idx l = count (concat cs) + count (concat fs)) as Hlast by (rewrite (gd_last _ _ _ _ Hg), concat_app, count_app; done).
  destruct (find_open (disk l) (idx + 1) (files l) (count (concat cs)) fs (iv_open _ _ _ Hinv)) as
    (gs & f & hs & fs1 & c & fs2 & Hfiles & -> & Hlen & Hfind & Hb); [lia|].
  pose proof (gd_open_nonempty _ _ _ _ Hg) as Hnonempty.
  rewrite Hlast, (find_last (disk l) _ _ (fs1 ++ c :: fs2) (iv_open _ _ _ Hinv) Hnonempty) by (by destruct fs1).
  assert (get_it_contains_idx (idx + 1) (files l) = length gs) as ->.
  { unfold get_it_contains_idx. destruct (N.eqb_spec (idx + 1) 0); [lia|]. by rewrite Hfind. }
  rewrite Hfiles. destruct (pick gs f hs) as [-> ->]. rewrite take_app_length.
  destruct (Nat.eqb_spec (length (gs ++ f :: hs) - 1) (length (gs ++ f :: hs))) as [He|_]; [rewrite length_app in He; simpl in He; lia|].
  cbn [andb]. set (n := N.to_nat (idx - (count (concat cs) + count (concat fs1)))).
  apply Forall_app in Hnonempty as [_ Hne2]. assert ((n < length c)%nat) as Hn by (unfold n, count in *; lia).
  assert (idx = count (concat cs) + count (concat fs1) + N.of_nat n) as Hidx by (unfold n; lia).
  destruct (truncate_files_ok l cs fs1 c fs2 gs f hs n idx Hinv Hfiles Hlen Hne2 Hn Hidx) as (kept & d' & Hrun & Hinv').
  rewrite (bind_ok _ _ _ _ _ Hrun), app_nil_r. eexists. split; [done|]. exists cs, (fs1 ++ kept_chunk n c).
  rewrite <- (gd_commit _ _ _ _ Hg). by eapply good_truncated.
Qed.

(** *** Committing *)

(** A complete file is renamed, and dropped from the open ones. *)
Lemma commit_first l cs c fs f gs :
  inv l cs (c :: fs) -> files l = f :: gs -> completed f = true -> c <> [] ->
  exists f' d', LedgerFile.commit (get_last_idx f) f (disk l) = (Ok (f', true), d') /\
    get_last_idx f = count (concat cs) + count c /\
    inv (set_files gs (set_end_of_committed_files_idx (get_last_idx f) (set_disk d' l))) (cs ++ [c]) fs.
Proof.
  intros Hinv Hfiles Hcomp Hne. destruct (commit_open l cs fs c gs f Hinv Hfiles) as [Hf _].
  assert (get_last_idx f = count (concat cs) + count c) as Hlast by (rewrite (get_last_idx_open _ _ _ Hf); unfold last_of; simpl; lia).
  unfold LedgerFile.commit. rewrite Hcomp, N.eqb_refl, (oa_committed _ _ _ Hf), (oa_recovery _ _ _ Hf). cbn [negb orb].
  unfold bind, rename, modify, ret, bind. rewrite (oa_name _ _ _ Hf), (oa_dir _ _ _ Hf), (oa_start _ _ _ Hf), Hlast.
  cbn [set_file_name recovery]. rewrite (oa_recovery _ _ _ Hf). cbn [negb].
  eexists _, _. split; [done|]. split; [done|]. by apply inv_commit.
Qed.

Lemma commit_files_ok idx l cs fs0 c fs2 gs0 f hs :
  inv (set_files ((gs0 ++ [f]) ++ hs) l) cs ((fs0 ++ [c]) ++ fs2) -> length gs0 = length fs0 ->
  Forall (fun c => c <> []) (fs0 ++ [c]) ->
  count (concat cs) + count (concat fs0) < idx <= count (concat cs) + count (concat fs0) + count c ->
  exists kept l' cs' fs', commit_files idx (gs0 ++ [f]) l = (Ok kept, l') /\
    inv (set_files (kept ++ hs) l') cs' (fs' ++ fs2) /\
    concat (cs' ++ fs') = concat (cs ++ fs0 ++ [c]) /\ count (concat cs') <= idx /\
    (fs' = [c] \/ fs' = []) /\ last_idx l' = last_idx l /\ files l' = files l.
Proof.
  revert l cs fs0. induction gs0 as [|g gs0 IH]; intros l cs fs0 Hinv Hlen Hne Hidx.
  - destruct fs0; [|done]. cbn [app] in *. inversion Hne as [|? ? Hc _]; subst. unfold count in Hidx at 2 4. cbn [concat length] in Hidx.
    cbn [commit_files]. destruct (completed f && (idx =? get_last_idx f)) eqn:Hcase.
    + apply andb_true_iff in Hcase as [Hcomp ->%N.eqb_eq].
      destruct (commit_first _ cs c fs2 f hs Hinv eq_refl Hcomp Hc) as (f' & d' & Hrun & Hlast & Hinv').
      unfold bind at 1, on_disk. cbn [set_files disk] in Hrun. rewrite Hrun. cbn [fst snd]. rewrite N.eqb_refl. cbn [andb negb orb when].
      eexists [], _, (cs ++ [c]), []. split; [done|]. cbn [app]. split_and!; try done.
      * by rewrite app_nil_r.
      * rewrite concat_app, count_app. simpl. rewrite app_nil_r. lia.
      * by right.
    + assert (LedgerFile.commit idx f (disk l) = (Ok (f, false), disk l)) as Hrun.
      { unfold LedgerFile.commit. destruct (completed f), (committed f), (idx =? get_last_idx f); done. }
      unfold bind at 1, on_disk. rewrite Hrun. cbn [fst snd andb when]. eexists [f], _, cs, [c]. split; [done|].
      split_and!; try done; [lia|by left].
  - destruct fs0 as [|c0 fs0]; [done|]. cbn [app] in *. inversion Hne as [|? ? Hc0 Hne']; subst. injection Hlen as Hlen.
    assert (completed g = true) as Hcomp.
    { apply (iv_complete _ _ _ Hinv O g); [done|]. cbn [set_files files length]. rewrite !length_app. simpl. lia. }
    destruct (commit_first _ cs c0 _ g _ Hinv eq_refl Hcomp Hc0) as (f' & d' & Hrun & Hlast & Hinv').
    cbn [commit_files]. assert (match gs0 ++ [f] with [] => true | _ => false end = false) as -> by (by destruct gs0).
    unfold bind at 1, on_disk. cbn [set_files disk] in Hrun. rewrite Hrun. cbn [fst snd andb negb orb when].
    set (l1 := set_end_of_committed_files_idx (get_last_idx g) (set_disk d' l)).
    destruct (IH l1 (cs ++ [c0]) fs0) as (kept & l' & cs' & fs' & Hk & Hi & Hconc & Hcnt & Hfs & E1 & E2).
    + exact Hinv'.
    + done.
    + done.
    + cbn [concat] in Hidx. rewrite concat_app, !count_app in *. cbn [concat]. rewrite app_nil_r. lia.
    + exists kept, l', cs', fs'. rewrite (bind_ok _ _ _ tt l1) by done. rewrite (bind_ok _ _ _ _ _ Hk). split_and!; try done.
      by rewrite Hconc, <- app_assoc.
Qed.

(** The log after [commit]. *)
Definition committed_log (idx : N) (a : Log) : Log :=
  if (idx <=? commit_point a) || (count (entries a) <? idx) then a else mkLog (entries a) idx.

Lemma inv_committed_idx n l cs fs : inv l cs fs -> inv (set_committed_idx n l) cs fs.
Proof. intros []. by constructor. Qed.

(** No open file ends before the commit point, so that [commit] starts at the
    first one. *)
Lemma find_first l cs fs a : good l cs fs a -> fs <> [] ->
  get_it_contains_idx (if committed_idx l =? 0 then 1 else committed_idx l) (files l) = O.
Proof.
  intros Hg Hfs. pose proof (iv_open _ _ _ (gd_inv _ _ _ _ Hg)) as Ho. pose proof (gd_open _ _ _ _ Hg) as Hc.
  pose proof (gd_open_nonempty _ _ _ _ Hg) as Hne. destruct fs as [|c fs]; [done|]. cbn [starts] in *.
  inversion Ho as [|f ? hs ? Hf _ Hfiles]; subst. inversion Hc as [|? ? Hc1 _]; subst. inversion Hne as [|? ? Hne1 _]; subst.
  apply count_pos in Hne1. unfold get_it_contains_idx.
  assert (get_last_idx f = count (concat cs) + count c) as Hlast by (rewrite (get_last_idx_open _ _ _ Hf); unfold last_of; simpl; lia).
  unfold last_of in Hc1. cbn [fst snd] in Hc1. cbn [list_find]. destruct (N.eqb_spec (committed_idx l) 0) as [Hz|Hz].
  - cbn [N.eqb]. rewrite decide_True; [done|]. unfold contains. rewrite Hlast. apply N.leb_le. lia.
  - destruct (N.eqb_spec (committed_idx l) 0); [done|]. rewrite decide_True; [done|]. unfold contains. rewrite Hlast. apply N.leb_le. lia.
Qed.

Lemma last_of_lower base fs y : y ∈ starts base fs -> base <= last_of y.
Proof. intros (Hb & _)%starts_bounds. unfold last_of. lia. Qed.

(** The ledger after the files up to [idx] are committed. *)
Lemma good_committed l l' cs fs0 c fs2 cs' fs' idx a :
  good l cs (fs0 ++ c :: fs2) a -> inv l' cs' (fs' ++ fs2) -> concat (cs' ++ fs') = concat (cs ++ fs0 ++ [c]) ->
  count (concat cs') <= idx <= count (concat cs) + count (concat fs0) + count c -> fs' = [c] \/ fs' = [] ->
  last_idx l' = last_idx l -> good (set_committed_idx idx l') cs' (fs' ++ fs2) (mkLog (entries a) idx).
Proof.
  intros Hg Hinv Hconc Hidx Hfs E1. pose proof (gd_open_nonempty _ _ _ _ Hg) as Hne. rewrite Forall_app, Forall_cons in Hne.
  assert (concat (cs ++ fs0 ++ c :: fs2) = concat (cs' ++ fs' ++ fs2)) as Hall.
  { rewrite (app_assoc cs'), (concat_app (cs' ++ fs')), Hconc, <- concat_app, <- !app_assoc. done. }
  assert (count (concat cs') + count (concat fs') = count (concat cs) + count (concat fs0) + count c) as Hcnt.
  { apply (f_equal count) in Hconc. rewrite !concat_app, !count_app in Hconc. simpl in Hconc. rewrite app_nil_r in Hconc. lia. }
  constructor; cbn [entries commit_point set_committed_idx committed_idx last_idx].
  - by apply inv_committed_idx.
  - by rewrite (gd_entries _ _ _ _ Hg).
  - done.
  - by rewrite E1, (gd_last _ _ _ _ Hg), Hall.
  - apply Forall_app. split; [|apply Hne]. destruct Hfs as [-> | ->]; [|constructor]. constructor; [apply Hne|constructor].
  - split; [lia|]. rewrite E1, (gd_last _ _ _ _ Hg), concat_app, count_app, concat_app, count_app. cbn [concat]. rewrite count_app. lia.
  - rewrite starts_app. apply Forall_app. split.
    + destruct Hfs as [-> | ->]; [|constructor]. constructor; [|constructor]. unfold last_of. cbn [fst snd].
      cbn [concat] in Hcnt. rewrite app_nil_r in Hcnt. lia.
    + apply Forall_forall. intros y Hy%last_of_lower. lia.
Qed.

Lemma commit_ok idx l a : holds l a -> exists l', commit idx l = (Ok tt, l') /\ holds l' (committed_log idx a).
Proof.
  intros (cs & fs & Hg). pose proof (gd_inv _ _ _ _ Hg) as Hinv. pose proof (gd_committed _ _ _ _ Hg) as Hcm.
  assert (count (entries a) = last_idx l) as Hcount by (rewrite (gd_entries _ _ _ _ Hg); symmetry; apply (gd_last _ _ _ _ Hg)).
  unfold commit, committed_log. unfold bind at 1, gets. rewrite Hcount, (gd_commit _ _ _ _ Hg).
  destruct ((idx <=? committed_idx l) || (last_idx l <? idx)) eqn:Hnoop; [exists l; split; [done|]; by exists cs, fs|].
  apply orb_false_iff in Hnoop as [Hlt%N.leb_gt Hge%N.ltb_ge].
  assert (last_idx l = count (concat cs) + count (concat fs)) as Hlast by (rewrite (gd_last _ _ _ _ Hg), concat_app, count_app; done).
  destruct (find_open (disk l) idx (files l) (count (concat cs)) fs (iv_open _ _ _ Hinv)) as
    (gs & f & hs & fs1 & c & fs2 & Hfiles & -> & Hlen & Hfind & Hb); [lia|].
  rewrite (find_first _ _ _ _ Hg) by (by destruct fs1).
  assert (get_it_contains_idx idx (files l) = length gs) as ->.
  { unfold get_it_contains_idx. destruct (N.eqb_spec idx 0); [lia|]. by rewrite Hfind. }
  rewrite Hfiles. destruct (Nat.eqb_spec (length gs) (length (gs ++ f :: hs))) as [He|_]; [rewrite length_app in He; simpl in He; lia|].
  assert ((gs ++ f :: hs)%list = ((gs ++ [f]) ++ hs)%list) as Hsplit by (by rewrite <- app_assoc).
  assert ((fs1 ++ c :: fs2)%list = ((fs1 ++ [c]) ++ fs2)%list) as Hsplit' by (by rewrite <- app_assoc).
  assert (length (gs ++ [f]) = S (length gs)) as Hl by (rewrite length_app; simpl; lia).
  rewrite Hsplit, drop_0, take_0, Nat.sub_0_r, <- Hl, take_app_length, drop_app_length. cbn [app].
  destruct (commit_files_ok idx l cs fs1 c fs2 gs f hs) as (kept & l' & cs' & fs' & Hrun & Hinv' & Hconc & Hcnt & Hfs & E1 & E2).
  - rewrite <- Hsplit, <- Hfiles, <- Hsplit'. by destruct l.
  - done.
  - pose proof (gd_open_nonempty _ _ _ _ Hg) as Hne. rewrite Hsplit', Forall_app in Hne. apply Hne.
  - lia.
  - rewrite (bind_ok _ _ _ _ _ Hrun). eexists. split; [done|]. exists cs', (fs' ++ fs2).
    apply (good_committed l (set_files (kept ++ hs) l') cs fs1 c fs2); try done; lia.
Qed.
End operations.
End HostLedgerOps.
