(* ===== verification/HostLedgerRead.v ===== *)
(** * The ledger of the host: reading

    A ledger that holds a log returns the entries of the log, whichever files
    they are in and whether or not the files have been read before. *)

From S2P Require Import Prelude LedgerEntries TxStatus LedgerFile LedgerFileSpec LedgerNames HostLedger HostLedgerSpec HostLedgerOps.

Module HostLedgerRead.
Import LedgerFile LedgerFileSpec LedgerNames HostLedger HostLedgerSpec HostLedgerOps.
Open Scope N_scope.
Open Scope m_scope.
#[local] Arguments new_name : simpl never.
#[local] Arguments committed_name : simpl never.

(** Entries [i] (included) to [j] (excluded) of a log, counted from zero. *)
Definition segment (i j : nat) (log : list bytes) : list bytes := take (j - i) (drop i log).

Lemma segment_app i j k log : (i <= j <= k)%nat -> segment i k log = (segment i j log ++ segment j k log)%list.
Proof.
  intros Hij. unfold segment. replace (k - i)%nat with ((j - i) + (k - j))%nat by lia. rewrite <- take_take_drop, drop_drop. do 3 f_equal. lia.
Qed.

Lemma segment_chunk (A c B : list bytes) i k : (i <= k < length c)%nat ->
  segment (length A + i) (length A + S k) (A ++ c ++ B) = range i k c.
Proof.
  intros Hk. unfold segment, range. rewrite drop_app_add, drop_app_le by lia. rewrite take_app_le by (rewrite length_drop; lia). f_equal. lia.
Qed.

Lemma starts_split base cs x : x ∈ starts base cs ->
  exists A B, concat cs = (A ++ x.2 ++ B)%list /\ base + count A + 1 = x.1.
Proof.
  revert base. induction cs as [|c cs IH]; intros base Hx; [by apply not_elem_of_nil in Hx|]. cbn [starts] in Hx. apply elem_of_cons in Hx as [->|Hx].
  - exists [], (concat cs). split; [done|]. unfold count. simpl. lia.
  - destruct (IH _ Hx) as (A & B & Hc & Hb). exists (c ++ A)%list, B. cbn [concat]. rewrite Hc, count_app, <- app_assoc. split; [done|lia].
Qed.

Section read.
Context `{DirectoryOrderLaws}.

(** A file and the chunk it holds. *)
Record chunk_file (l : Ledger) (cs fs : list (list bytes)) (f : LedgerFile.t) (x : N * list bytes) : Prop := {
  cf_chunk : x ∈ starts 0 (cs ++ fs);
  cf_start : start_idx f = x.1;
  cf_file : file_ok (disk l) f x.2;
}.

Lemma open_chunk_file l cs fs f x : f ∈ files l -> x ∈ starts (count (concat cs)) fs -> open_at (disk l) f x -> chunk_file l cs fs f x.
Proof. intros _ Hx Hf. constructor; [|apply Hf|apply Hf]. rewrite starts_app, N.add_0_l. set_solver. Qed.

Lemma list_elem_of_files_split {A} (gs hs : list A) f : f ∈ (gs ++ f :: hs)%list.
Proof. set_solver. Qed.

(** The open file that contains an index is the last one that starts before it. *)
Lemma find_start l cs fs idx : inv l cs fs -> count (concat cs) < idx <= count (concat cs) + count (concat fs) ->
  exists i f x, list_find (fun f => start_idx f <= idx) (reverse (files l)) = Some (i, f) /\
    chunk_file l cs fs f x /\ x.1 <= idx < x.1 + count x.2.
Proof.
  intros Hinv Hidx. destruct (find_open (disk l) idx (files l) (count (concat cs)) fs (iv_open _ _ _ Hinv) Hidx)
    as (gs & f & hs & fs1 & c & fs2 & Hfiles & -> & Hlen & _ & Hb).
  destruct (update_split l cs fs1 fs2 c gs hs f Hinv Hfiles Hlen) as (_ & Hf & Hhs).
  exists (length hs), f, (count (concat cs) + count (concat fs1) + 1, c). split_and!.
  - rewrite Hfiles, reverse_app, reverse_cons, <- app_assoc, list_find_app_r.
    + cbn [app list_find]. rewrite decide_True; [|rewrite (oa_start _ _ _ Hf); cbn [fst]; lia]. simpl. by rewrite length_reverse.
    + apply list_find_None. apply Forall_reverse. apply Forall_lookup. intros j g Hg. destruct (Forall2_lookup_l _ _ _ _ _ Hhs Hg) as (y & Hy & Hog).
      rewrite (oa_start _ _ _ Hog). apply list_elem_of_lookup_2, starts_bounds in Hy as (Hy & _). lia.
  - apply open_chunk_file; [rewrite Hfiles; set_solver| |done]. rewrite starts_app. cbn [starts]. set_solver.
  - cbn [fst]. lia.
  - cbn [fst snd]. lia.
Qed.

Lemma find_start_none l cs fs idx : inv l cs fs -> idx <= count (concat cs) ->
  list_find (fun f => start_idx f <= idx) (reverse (files l)) = None.
Proof.
  intros Hinv Hidx. apply list_find_None, Forall_reverse, Forall_lookup. intros j g Hg.
  destruct (Forall2_lookup_l _ _ _ _ _ (iv_open _ _ _ Hinv) Hg) as (y & Hy & Hog).
  rewrite (oa_start _ _ _ Hog). apply list_elem_of_lookup_2, starts_bounds in Hy as (Hy & _). lia.
Qed.

(** What a committed file is opened as. *)
Definition committed_file (i : N) (x : N * list bytes) : LedgerFile.t :=
  LedgerFile.mk (committed_name x.1 (last_of x) false) i x.1 (8 + sizes x.2) (offsets 8 x.2) true true false false.

Lemma committed_chunk_file l cs fs i x : inv l cs fs -> x ∈ starts 0 cs -> content i (disk l) = complete_bytes x.2 ->
  chunk_file l cs fs (committed_file i x) x /\ get_last_idx (committed_file i x) = last_of x.
Proof.
  intros Hinv Hx Hc. pose proof (starts_bounds _ _ _ Hx) as (H1 & _ & Hin). destruct (inv_chunk _ _ _ x.2 Hinv) as [Hfr Hsz]; [set_solver|].
  assert (file_ok (disk l) (committed_file i x) x.2) as Hok.
  { constructor; try done; [simpl; lia|by left|]. eapply Forall_impl; [exact Hfr|]. intros e [He _] ->. unfold size in He. simpl in He. lia. }
  split; [|by rewrite (get_last_idx_ok _ _ _ Hok)]. constructor; [|done|done]. rewrite starts_app. set_solver.
Qed.

Lemma listing_elem (d : Directory) n : n ∈ listing d <-> is_Some (d !! n).
Proof.
  rewrite (listing_permutation d). split.
  - intros [[m i] [-> Hm]]%list_elem_of_fmap. exists i. by apply elem_of_map_to_list.
  - intros [i Hi]. apply list_elem_of_fmap. exists (n, i). split; [done|]. by apply elem_of_map_to_list.
Qed.

(** The committed file of an index is found by its name. *)
Lemma get_file_name_ok l cs fs idx x : inv l cs fs -> x ∈ starts 0 cs -> x.1 <= idx < x.1 + count x.2 ->
  get_file_name_with_idx (ledger_dir (disk l)) idx true = Some (committed_name x.1 (last_of x) false).
Proof.
  intros Hinv Hx Hidx. unfold get_file_name_with_idx.
  assert (forall y, y ∈ starts 0 cs -> y.1 < 2 ^ 64 /\ last_of y < 2 ^ 64) as Hbound by (intros y; by apply (committed_bound l cs fs)).
  destruct (list_find _ _) as [[k name]|] eqn:Hfind; revert Hfind.
  2:{ intros Hnone%list_find_None. exfalso. destruct (proj1 (Forall_forall _ _) (iv_committed _ _ _ Hinv) x Hx) as (i & Hi & _).
      destruct (Hbound x Hx). apply (proj1 (Forall_forall _ _) Hnone (committed_name x.1 (last_of x) false)).
      - apply listing_elem. by eexists.
      - rewrite committed_name_not_ignored, committed_name_start, committed_name_last by done. cbn [negb orb andb].
        unfold last_of. apply andb_true_iff. split; apply N.leb_le; lia. }
  intros (Hk & Hp & _)%list_find_Some. apply list_elem_of_lookup_2, listing_elem in Hk as [i Hi].
  apply andb_true_iff in Hp as [Hig Hp]. cbn [negb andb] in Hig. rewrite orb_false_r, negb_true_iff in Hig. cbn [mbind option_bind snd]. f_equal.
  destruct (iv_names _ _ _ Hinv name i Hi) as [?|[(y & Hy & ->)|(y & Hy & ->)]]; [congruence| |].
  - destruct (Hbound y Hy). rewrite committed_name_start, committed_name_last in Hp by done. apply andb_true_iff in Hp as [Hp1%N.leb_le Hp2%N.leb_le].
    assert (y = x) as ->; [|done]. apply (starts_disjoint 0 cs y x idx); try done. unfold last_of in Hp2.
    assert (0 < count y.2); [|lia]. apply count_pos. apply starts_bounds in Hy as (_ & _ & Hin). exact (proj1 (Forall_forall _ _) (iv_nonempty _ _ _ Hinv) _ Hin).
  - pose proof (start_bound _ _ _ Hinv y Hy). by rewrite new_name_start, new_name_last in Hp.
Qed.

Lemma inv_cache_set l cs fs cache : inv l cs fs -> Forall (cached_at (disk l) (starts 0 cs)) cache -> inv (set_files_read_cache cache l) cs fs.
Proof. intros [] Hc. by constructor. Qed.

(** A committed file is found, and then kept in the cache. *)
Lemma get_file_from_cache_ok l cs fs idx : inv l cs fs -> 0 < idx <= count (concat cs) ->
  exists f l' x, get_file_from_cache idx l = (Ok (Some f), l') /\ inv l' cs fs /\ chunk_file l' cs fs f x /\ x.1 <= idx < x.1 + count x.2 /\
    last_idx l' = last_idx l /\ committed_idx l' = committed_idx l.
Proof.
  intros Hinv Hidx. unfold get_file_from_cache, bind, gets. destruct (N.eqb_spec idx 0) as [|_]; [lia|].
  destruct (list_find _ _) as [[k f]|] eqn:Hfind.
  - apply list_find_Some in Hfind as (Hk & Hp & _). apply list_elem_of_lookup_2 in Hk.
    destruct (proj1 (Forall_forall _ _) (iv_cache _ _ _ Hinv) f Hk) as (x & i & Hx & _ & Hc & ->).
    destruct (committed_chunk_file l cs fs i x Hinv Hx Hc) as [Hcf Hlast]. fold (committed_file i x) in Hp. rewrite Hlast in Hp.
    exists (committed_file i x), l, x. split_and!; try done; [apply Hp|]. unfold last_of in Hp. cbn in Hp. lia.
  - clear Hfind. destruct (starts_find 0 cs idx) as (x & Hx & Hin & Hlt); [lia|].
    destruct (proj1 (Forall_forall _ _) (iv_committed _ _ _ Hinv) x Hx) as (i & Hi & Hc).
    destruct (committed_bound _ _ _ Hinv x Hx). destruct (inv_chunk _ _ _ x.2 Hinv) as [_ Hsz].
    { apply starts_bounds in Hx as (_ & _ & Hx). set_solver. }
    rewrite (get_file_name_ok l cs fs idx x Hinv Hx) by lia.
    rewrite (open_completed _ (disk l) _ i x.1 x.2) by (done || by apply committed_name_start).
    unfold is_ledger_file_name_committed. rewrite committed_name_suffix by (simpl; lia). change (ends_with ledger_committed_suffix ledger_committed_suffix) with true.
    fold (committed_file i x). eexists (committed_file i x), _, x. split; [done|].
    assert (Forall (cached_at (disk l) (starts 0 cs)) (files_read_cache l ++ [committed_file i x])) as Hall.
    { apply Forall_app. split; [apply (iv_cache _ _ _ Hinv)|]. constructor; [|constructor]. by exists x, i. }
    destruct (committed_chunk_file l cs fs i x Hinv Hx Hc) as [[Hcf1 Hcf2 Hcf3] _].
    split_and!; try done; [|lia]. replace (set_disk (disk l) l) with l by (by destruct l). apply inv_cache_set; [done|].
    case_match; [by apply Forall_drop|done].
Qed.

(** Only committed files are looked at if [cache_only]. *)
Lemma get_file_from_idx_ok l cs fs a idx (cache_only : bool) :
  good l cs fs a -> 0 < idx <= last_idx l -> (cache_only = true -> idx <= count (concat cs)) ->
  exists f l' x, get_file_from_idx idx cache_only l = (Ok (Some f), l') /\ good l' cs fs a /\ chunk_file l' cs fs f x /\ x.1 <= idx < x.1 + count x.2.
Proof.
  intros Hg Hidx Hcache. pose proof (gd_inv _ _ _ _ Hg) as Hinv. rewrite (gd_last _ _ _ _ Hg), concat_app, count_app in Hidx.
  unfold get_file_from_idx, bind, gets. destruct (N.eqb_spec idx 0) as [|_]; [lia|].
  destruct (N.le_gt_cases idx (count (concat cs))) as [Hle|Hgt].
  - rewrite (find_start_none _ _ _ _ Hinv Hle).
    assert ((if cache_only then None else None) = (None : option (nat * LedgerFile.t))) as -> by (by destruct cache_only).
    destruct (get_file_from_cache_ok l cs fs idx Hinv) as (f & l' & x & Hrun & Hinv' & Hcf & Hx & E1 & E2); [lia|].
    exists f, l', x. split_and!; try done; [by eapply good_same|lia|lia].
  - destruct cache_only; [specialize (Hcache eq_refl); lia|]. destruct (find_start l cs fs idx Hinv) as (i & f & x & -> & Hcf & Hx); [lia|]. by exists f, l, x.
Qed.

(** What reading entries [i] to [n] of a log returns: all of them if there is
    no limit on their size, and otherwise some of them, unless the first one
    is over the limit. *)
Definition log_read (log : list bytes) (i n : nat) (max_size : option N) (r : option LedgerReadResult) : Prop :=
  match r with
  | Some rr => exists k, (i < k <= n)%nat /\ (max_size = None -> k = n) /\ fits max_size (size (data rr)) /\
      rr = mkReadResult (concat (segment i k log)) (N.of_nat k)
  | None => (n <= i)%nat \/ exists e, log !! i = Some e /\ ~ fits max_size (size e)
  end.

Definition finished (rr : LedgerReadResult) : option LedgerReadResult := match data rr with [] => None | _ => Some rr end.

(** What has been read when [k] is the next entry. *)
Record partial (log : list bytes) (i k : nat) (max_size : option N) (rr : LedgerReadResult) : Prop := {
  pt_le : (i <= k)%nat;
  pt_data : data rr = concat (segment i k log);
  pt_fits : fits max_size (size (data rr));
  pt_end : (i < k)%nat -> end_idx rr = N.of_nat k;
}.

Lemma segment_nonempty log i k : Forall (fun e : bytes => e <> []) log -> (i < k)%nat -> (i < length log)%nat -> concat (segment i k log) <> [].
Proof.
  intros Hne Hk Hi. unfold segment. destruct (lookup_lt_is_Some_2 log i Hi) as [e He]. rewrite (drop_S _ _ _ He).
  replace (k - i)%nat with (S (k - i - 1)) by lia. cbn [take concat]. pose proof (proj1 (Forall_lookup _ _) Hne i e He). by destruct e.
Qed.

Lemma finished_some log i k n max_size rr : Forall (fun e : bytes => e <> []) log -> partial log i k max_size rr -> (i < k <= n)%nat -> (n <= length log)%nat ->
  (max_size = None -> k = n) -> log_read log i n max_size (finished rr).
Proof.
  intros Hne [Hle Hd Hf He] Hk Hn Hmax. pose proof (segment_nonempty log i k Hne ltac:(lia) ltac:(lia)) as Hnn. rewrite <- Hd in Hnn.
  unfold finished. destruct rr as [d e]. cbn [data end_idx] in *. destruct d; [done|]. exists k. split_and!; try done; [lia..|].
  f_equal; [done|]. apply He. lia.
Qed.

Lemma finished_none log i n max_size rr : partial log i i max_size rr ->
  (n <= i)%nat \/ (exists e, log !! i = Some e /\ ~ fits max_size (size e)) -> log_read log i n max_size (finished rr).
Proof. intros [_ Hd _ _] Hor. unfold finished, segment in *. rewrite Nat.sub_diag in Hd. cbn in Hd. by rewrite Hd. Qed.

(** A part is added. *)
Lemma partial_snoc log i p k max_size rr n :
  partial log i p max_size rr -> (p <= k)%nat -> (max_size = None \/ exists m, max_size = Some m /\ size (data rr) + size (concat (segment p k log)) <= m) ->
  n = N.of_nat k -> partial log i k max_size (mkReadResult (data rr ++ concat (segment p k log)) n).
Proof.
  intros [Hle Hd Hf He] Hk Hfit ->. constructor; cbn [data end_idx]; [lia| |..].
  - by rewrite Hd, <- concat_app, <- segment_app by lia.
  - destruct Hfit as [-> |(m & -> & Hm)]; [done|]. simpl. by rewrite size_app.
  - done.
Qed.

Lemma log_nonempty l cs fs a : good l cs fs a -> Forall (fun e : bytes => e <> []) (entries a).
Proof.
  intros Hg. rewrite (gd_entries _ _ _ _ Hg). apply Forall_concat. eapply Forall_impl; [exact (iv_chunks _ _ _ (gd_inv _ _ _ _ Hg))|].
  intros c [Hc _]. eapply Forall_impl; [exact Hc|]. intros e [He _] ->. unfold size in He. simpl in He. lia.
Qed.

(** What is left of the limit. *)
Definition left_over (max_size : option N) (rr : LedgerReadResult) : option N :=
  (fun m => u64_sub m (N.of_nat (length (data rr)))) <$> max_size.

Lemma left_over_fits max_size rr n : fits max_size (size (data rr)) ->
  fits (left_over max_size rr) n <-> fits max_size (size (data rr) + n).
Proof. destruct max_size as [m|]; [|done]. simpl. intros Hm. fold (size (data rr)). rewrite u64_sub_exact by done. lia. Qed.

(** The part of one file. *)
Lemma read_chunk l cs fs a p n (cache_only : bool) max_size : good l cs fs a -> (p < n)%nat -> (n <= length (entries a))%nat ->
  (cache_only = true -> N.of_nat n <= count (concat cs)) ->
  exists f l' to_ r, get_file_from_idx (N.of_nat p + 1) cache_only l = (Ok (Some f), l') /\ good l' cs fs a /\
    to_ = N.min (get_last_idx f) (N.of_nat n) /\ (p < N.to_nat to_ <= n)%nat /\
    LedgerFile.read_entries (N.of_nat p + 1) to_ max_size f (disk l') = (Ok r, disk l') /\
    match r with
    | Some v => exists k, (p < k <= N.to_nat to_)%nat /\ (max_size = None -> k = N.to_nat to_) /\ fits max_size (size (data v)) /\
        v = mkReadResult (concat (segment p k (entries a))) (N.of_nat k)
    | None => exists e, entries a !! p = Some e /\ ~ fits max_size (size e)
    end.
Proof.
  intros Hg Hp Hn Hcache.
  assert (last_idx l = count (entries a)) as Hcount by (rewrite (gd_entries _ _ _ _ Hg); apply (gd_last _ _ _ _ Hg)).
  destruct (get_file_from_idx_ok l cs fs a (N.of_nat p + 1) cache_only Hg) as (f & l' & x & Hrun & Hg' & [Hx Hstart Hok] & Hidx);
    [unfold count in *; lia|intros Hc; specialize (Hcache Hc); lia|].
  destruct (starts_split _ _ _ Hx) as (A & B & Hent & HA). rewrite <- (gd_entries _ _ _ _ Hg) in Hent.
  set (to_ := N.min (get_last_idx f) (N.of_nat n)). pose proof (get_last_idx_ok _ _ _ Hok) as Hlast. fold (count x.2) in Hlast. rewrite Hstart in Hlast.
  set (i := (p - length A)%nat). set (j := (N.to_nat to_ - length A - 1)%nat).
  assert (i <= j < length x.2)%nat as Hij by (unfold i, j, to_, count in *; lia).
  destruct (read_entries_ok (disk l') f x.2 i j max_size Hok Hij) as (r & Hread & Hres).
  replace (start_idx f + N.of_nat i) with (N.of_nat p + 1) in Hread by (unfold i, count in *; lia).
  replace (start_idx f + N.of_nat j) with to_ in Hread by (unfold j, to_, count in *; lia).
  assert (forall k, (i <= k < length x.2)%nat -> segment p (length A + S k) (entries a) = range i k x.2) as Hseg.
  { intros k Hk. rewrite Hent. replace p with (length A + i)%nat by (unfold i, count in *; lia). by apply segment_chunk. }
  exists f, l', to_, r. split_and!; try done; [unfold to_, count in *; lia..|]. destruct r as [v|].
  - destruct Hres as (k & Hk & Hall & Hfit & Hv). exists (length A + S k)%nat. rewrite Hseg by lia. split_and!; try done.
    + unfold i, count in *. lia.
    + unfold j, count in *. lia.
    + intros Hnone. specialize (Hall Hnone). unfold j, to_, count in *. lia.
    + rewrite Hv. f_equal. rewrite Hstart. unfold count in *. lia.
  - destruct (lookup_lt_is_Some_2 (entries a) p) as [e He]; [lia|]. exists e. split; [done|]. cbn [read_result] in Hres.
    assert (range i i x.2 = [e]) as Hr; [|rewrite Hr in Hres; unfold sizes in Hres; simpl in Hres; by rewrite app_nil_r in Hres].
    rewrite <- Hseg by lia. unfold segment. rewrite (drop_S _ _ _ He). replace (length A + S i - p)%nat with 1%nat by (unfold i, count in *; lia). done.
Qed.

Lemma read_loop_ok cs fs a i n (cache_only : bool) max_size :
  (n <= length (entries a))%nat -> (cache_only = true -> N.of_nat n <= count (concat cs)) -> forall fuel p l rr,
  good l cs fs a -> partial (entries a) i p max_size rr -> (p <= n)%nat -> (i < n)%nat -> (n - p <= fuel)%nat ->
  exists r l', read_loop fuel (N.of_nat p + 1) (N.of_nat n) cache_only max_size rr l = (Ok r, l') /\ good l' cs fs a /\ log_read (entries a) i n max_size r.
Proof.
  intros Hn Hcache. induction fuel as [|fuel IH]; intros p l rr Hg Hpart Hp Hi Hfuel.
  - assert (p = n) as -> by lia. cbn [read_loop]. destruct (N.ltb_spec (N.of_nat n) (N.of_nat n + 1)); [|lia].
    eexists (finished rr), l. split; [done|]. split; [done|]. eapply finished_some; [by eapply log_nonempty|exact Hpart|lia|lia|done].
  - cbn [read_loop]. destruct (N.ltb_spec (N.of_nat n) (N.of_nat p + 1)) as [Hlt|Hge].
    { assert (p = n) as -> by lia. eexists (finished rr), l. split; [done|]. split; [done|].
      eapply finished_some; [by eapply log_nonempty|exact Hpart|lia|lia|done]. }
    fold (left_over max_size rr).
    destruct (read_chunk l cs fs a p n cache_only (left_over max_size rr) Hg) as (f & l' & to_ & r & Hget & Hg' & Hto & Hb & Hread & Hres);
      [lia|done|done|].
    rewrite (bind_ok _ _ _ _ _ Hget). rewrite <- Hto.
    rewrite (bind_ok _ _ l' r l') by (unfold on_disk; rewrite Hread; by destruct l'). pose proof (pt_fits _ _ _ _ _ Hpart) as Hfit0.
    destruct r as [v|].
    + destruct Hres as (k & Hk & Hall & Hfit & ->). cbn [data end_idx] in *. apply (left_over_fits _ _ _ Hfit0) in Hfit.
      pose proof (partial_snoc _ _ _ k _ _ (N.of_nat k) Hpart ltac:(lia)) as Hpart'.
      assert (partial (entries a) i k max_size (mkReadResult (data rr ++ concat (segment p k (entries a))) (N.of_nat k))) as Hp'.
      { apply Hpart'; [|done]. destruct max_size as [m|]; [right; by exists m|by left]. }
      pose proof (pt_le _ _ _ _ _ Hpart). destruct (N.eqb_spec (N.of_nat k) to_) as [<-|Hne]; cbn [negb].
      * apply IH; [done|done|lia|done|lia].
      * exists (finished (mkReadResult (data rr ++ concat (segment p k (entries a))) (N.of_nat k))), l'. split; [done|]. split; [done|]. eapply finished_some; [by eapply log_nonempty|exact Hp'|lia|lia|].
        intros ->. specialize (Hall eq_refl). lia.
    + destruct Hres as (e & He & Hno). eexists (finished rr), l'. split; [done|]. split; [done|].
      destruct (decide (i = p)) as [->|Hip].
      * apply finished_none; [done|]. right. exists e. split; [done|]. intros Hf. apply Hno, (left_over_fits _ _ _ Hfit0).
        assert (size (data rr) = 0) as ->; [|done]. rewrite (pt_data _ _ _ _ _ Hpart). unfold segment. by rewrite Nat.sub_diag.
      * pose proof (pt_le _ _ _ _ _ Hpart). eapply finished_some; [by eapply log_nonempty|exact Hpart|lia|lia|]. intros ->. exfalso. by apply Hno.
Qed.

(** [read_entries_range] on a ledger that holds a log; only committed files can
    be read if [cache_only]. *)
Lemma read_range_ok from to cache_only max_size l a : holds l a -> (cache_only = true -> to <= end_of_committed_files_idx l) ->
  exists r l', read_entries_range from to cache_only max_size l = (Ok r, l') /\ holds l' a /\
    if (from =? 0) || (to <? from) then r = None
    else log_read (entries a) (N.to_nat from - 1) (N.to_nat (N.min to (count (entries a)))) max_size r.
Proof.
  intros (cs & fs & Hg) Hcache. unfold read_entries_range. rewrite (iv_end _ _ _ (gd_inv _ _ _ _ Hg)) in Hcache.
  destruct ((from =? 0) || (to <? from)) eqn:Hbad; [exists None, l; split_and!; try done; by exists cs, fs|].
  apply orb_false_iff in Hbad as [Hz%N.eqb_neq Hle%N.ltb_ge]. unfold bind at 1, gets.
  assert (last_idx l = count (entries a)) as Hcount by (rewrite (gd_entries _ _ _ _ Hg); apply (gd_last _ _ _ _ Hg)).
  rewrite Hcount. set (n := N.min to (count (entries a))).
  destruct (N.le_gt_cases from n) as [Hfn|Hfn].
  - destruct (read_loop_ok cs fs a (N.to_nat from - 1) (N.to_nat n) cache_only max_size ltac:(unfold n, count; lia)
      ltac:(intros Hc; specialize (Hcache Hc); unfold n; lia) (S (N.to_nat (n - from))) (N.to_nat from - 1) l (mkReadResult [] n) Hg)
      as (r & l' & Hrun & Hg' & Hr); [|lia..|].
    { constructor; cbn [data]; [lia| |destruct max_size; simpl; [unfold size; simpl; lia|done]|lia]. unfold segment. by rewrite Nat.sub_diag. }
    replace (N.of_nat (N.to_nat from - 1) + 1) with from in Hrun by lia. rewrite N2Nat.id in Hrun. exists r, l'. split_and!; try done. by exists cs, fs.
  - exists None, l. split_and!; [|by exists cs, fs|left; lia]. replace (n - from) with 0 by lia. cbn [N.to_nat read_loop].
    destruct (N.ltb_spec n from); [done|lia].
Qed.
End read.
End HostLedgerRead.
