(* ===== verification/HostLedgerRecover.v ===== *)
(** * The ledger of the host: recovery

    A node that stops may lose the end of the file it was writing to. The
    ledger that the next node makes of the directory holds the entries whose
    bytes are all there. *)

From S2P Require Import Prelude LedgerEntries TxStatus LedgerFile LedgerFileSpec LedgerNames HostLedger HostLedgerSpec HostLedgerOps HostLedgerRead.
From stdpp Require Import sorting.

Module HostLedgerRecover.
Import LedgerFile LedgerFileSpec LedgerNames HostLedger HostLedgerSpec HostLedgerOps HostLedgerRead.
Open Scope N_scope.
Open Scope m_scope.
#[local] Arguments new_name : simpl never.
#[local] Arguments committed_name : simpl never.

(** ** Names that recovery only reads *)

Inductive settled (d : Disk) : string -> Prop :=
| settled_ignored name : is_ledger_file_name_ignored name = true -> settled d name
| settled_committed s e : s < 2 ^ 64 -> e < 2 ^ 64 -> settled d (committed_name s e false)
| settled_complete s c i : s < 2 ^ 64 -> ledger_dir d !! new_name s false = Some i -> content i d = complete_bytes c ->
    8 + sizes c < 2 ^ 32 -> settled d (new_name s false).

(** The file that recovery makes of a name, and the index it commits. *)
Definition recovered (d : Disk) (name : string) : list LedgerFile.t :=
  if is_ledger_file_name_ignored name || is_ledger_file_name_committed name then []
  else match open_ledger_file (ledger_dir d) name false d with (Ok f, _) => [f] | _ => [] end.
Definition committed_end (name : string) : N :=
  if is_ledger_file_name_ignored name then 0
  else match get_last_idx_from_file_name name with Ok (Some i) => i | _ => 0 end.

(** What the recovery of names adds to a ledger. *)
Record advanced (names : list string) (l l' : Ledger) : Prop := {
  ad_disk : disk l' = disk l;
  ad_files : files l' = (files l ++ (names ≫= recovered (disk l)))%list;
  ad_committed : committed_idx l' = foldl N.max (committed_idx l) (committed_end <$> names);
  ad_end : end_of_committed_files_idx l = committed_idx l -> end_of_committed_files_idx l' = committed_idx l';
  ad_rest : (read_ledger_dirs l', files_read_cache l', last_idx l', use_existing_files l', recovery_start_idx l') =
    (read_ledger_dirs l, files_read_cache l, last_idx l, use_existing_files l, recovery_start_idx l);
}.

Lemma advanced_app n1 n2 l1 l2 l3 : advanced n1 l1 l2 -> advanced n2 l2 l3 -> advanced (n1 ++ n2) l1 l3.
Proof.
  intros [A1 A2 A3 A4 A5] [B1 B2 B3 B4 B5]. constructor.
  - congruence.
  - by rewrite B2, A2, A1, bind_app, app_assoc.
  - by rewrite B3, A3, fmap_app, foldl_app.
  - auto.
  - congruence.
Qed.

Lemma recovered_complete d s c i : s < 2 ^ 64 -> ledger_dir d !! new_name s false = Some i -> content i d = complete_bytes c ->
  8 + sizes c < 2 ^ 32 ->
  open_ledger_file (ledger_dir d) (new_name s false) false d =
    (Ok (LedgerFile.mk (new_name s false) i s (8 + sizes c) (offsets 8 c) true false false false), d).
Proof.
  intros Hs Hi Hc Hsz. rewrite (open_completed _ d _ i s c) by (done || by apply new_name_start).
  unfold is_ledger_file_name_committed. by rewrite new_name_suffix.
Qed.

(** ** A file that is cut *)

(** Where the entries of a file end. *)
Fixpoint ends (pos : N) (c : list bytes) : list N :=
  match c with [] => [] | e :: c => pos + size e :: ends (pos + size e) c end.

(** How many entries there are in the first [n] bytes of a file. *)
Definition surviving (n : nat) (c : list bytes) : nat := length (filter (fun p => p <= N.of_nat n) (ends 8 c)).

Lemma ends_above pos c n : n < pos -> filter (fun p => p <= n) (ends pos c) = [].
Proof.
  revert pos. induction c as [|e c IH]; intros pos Hn; [done|]. cbn [ends]. rewrite filter_cons_False by lia. apply IH. lia.
Qed.

Lemma count_ends pos c n k : (k <= length c)%nat -> pos + sizes (take k c) <= n ->
  (forall j, (j <= length c)%nat -> pos + sizes (take j c) <= n -> (j <= k)%nat) -> length (filter (fun p => p <= n) (ends pos c)) = k.
Proof.
  revert pos k. induction c as [|e c IH]; intros pos k Hk Hle Hmax; [simpl in *; lia|]. cbn [ends].
  destruct (decide (pos + size e <= n)) as [Hin|Hout].
  - rewrite filter_cons_True by done. cbn [length]. destruct k as [|k].
    { specialize (Hmax 1%nat). cbn [take] in Hmax. rewrite sizes_cons in Hmax. unfold sizes in Hmax. simpl in Hmax.
      unfold size at 2 in Hmax. simpl in Hmax. lia. }
    f_equal. cbn [take] in Hle. rewrite sizes_cons in Hle. simpl in Hk. apply IH; [lia|lia|].
    intros j Hj Hlej. specialize (Hmax (S j)). cbn [take length] in Hmax. rewrite sizes_cons in Hmax. lia.
  - rewrite filter_cons_False by done. rewrite ends_above by lia. destruct k as [|k]; [done|]. exfalso. cbn [take] in Hle. rewrite sizes_cons in Hle. lia.
Qed.

Lemma cut_file n c : Forall framed c -> (8 <= n)%nat -> exists rest,
  take n (le_split 8 0 ++ concat c) = (le_split 8 0 ++ concat (take (surviving n c) c) ++ rest)%list /\ torn rest /\ (surviving n c <= length c)%nat.
Proof.
  intros Hc Hn. destruct (cut_entries c (n - 8) Hc) as (k & rest & Hcut & Htorn & Hk & Hmax).
  assert (surviving n c = k) as Hs.
  { apply count_ends; [done| |].
    - apply (f_equal length) in Hcut. rewrite length_app, length_take in Hcut. unfold sizes, size. lia.
    - intros j Hj Hle. apply Hmax; [done|]. unfold sizes, size in Hle. lia. }
  rewrite Hs. exists rest. split; [|done]. rewrite take_app_ge by (rewrite length_le_split; lia). by rewrite length_le_split, Hcut.
Qed.

Lemma surviving_short n c : (n < 8)%nat -> surviving n c = O.
Proof. intros Hn. unfold surviving. by rewrite ends_above by lia. Qed.

Section recover.
Context `{DirectoryOrderLaws}.

Lemma new_name_recover s l : s < 2 ^ 64 -> recover_file (new_name s false) l = recover_writeable (new_name s false) l.
Proof.
  intros Hs. unfold recover_file, is_ledger_file_ignored, is_ledger_file_name_recovery, is_ledger_file_name_ignored, is_ledger_file_name_committed.
  rewrite !new_name_suffix by done. cbn [orb]. unfold bind, lift, gets. by rewrite new_name_last.
Qed.

Lemma recover_settled name l : settled (disk l) name -> exists l', recover_file name l = (Ok tt, l') /\ advanced [name] l l'.
Proof.
  intros Hs. destruct Hs as [name Hig|s e Hs He|s c i Hs Hi Hc Hsz].
  - exists l. unfold recover_file, is_ledger_file_ignored. rewrite Hig, orb_true_r. unfold ignore_ledger_file. rewrite Hig. split; [done|].
    constructor; try done; cbn [mbind list_bind app fmap list_fmap foldl]; unfold recovered, committed_end; rewrite Hig; cbn [orb].
    + by rewrite app_nil_r.
    + lia.
  - assert (is_ledger_file_name_committed (committed_name s e false) = true) as Hc.
    { unfold is_ledger_file_name_committed. rewrite committed_name_suffix by (simpl; lia). done. }
    assert (is_ledger_file_name_recovery (committed_name s e false) = false) as Hr.
    { unfold is_ledger_file_name_recovery. rewrite committed_name_suffix by (simpl; lia). done. }
    unfold recover_file, is_ledger_file_ignored. rewrite committed_name_not_ignored, Hr, Hc. unfold bind, lift. rewrite committed_name_last by done.
    cbn [orb]. unfold modify. eexists. split; [done|].
    assert (recovered (disk l) (committed_name s e false) = [] /\ committed_end (committed_name s e false) = e) as [Hrec Hend].
    { unfold recovered, committed_end. by rewrite committed_name_not_ignored, Hc, committed_name_last. }
    constructor; cbn [mbind list_bind app fmap list_fmap foldl]; rewrite ?Hrec, ?Hend, ?app_nil_r; destruct (N.ltb_spec (committed_idx l) e); try done; simpl; lia.
  - rewrite new_name_recover by done. unfold recover_writeable, bind. rewrite (recovered_complete _ s c i) by done.
    rewrite truncate_noop by (by right). eexists. split; [done|].
    assert (recovered (disk l) (new_name s false) = [LedgerFile.mk (new_name s false) i s (8 + sizes c) (offsets 8 c) true false false false]) as Hrec.
    { unfold recovered, is_ledger_file_name_ignored, is_ledger_file_name_committed. rewrite !new_name_suffix by done. cbn [orb]. by rewrite (recovered_complete _ s c i). }
    assert (committed_end (new_name s false) = 0) as Hend by (unfold committed_end; by rewrite new_name_not_ignored, new_name_last).
    constructor; cbn [mbind list_bind app fmap list_fmap foldl]; rewrite ?Hrec, ?Hend, ?app_nil_r; try done. simpl. lia.
Qed.

Lemma recover_all names l : Forall (settled (disk l)) names -> exists l', for_each recover_file names l = (Ok tt, l') /\ advanced names l l'.
Proof.
  revert l. induction names as [|name names IH]; intros l Hn.
  - exists l. split; [done|]. constructor; try done. by rewrite app_nil_r.
  - inversion Hn as [|? ? H1 H2]; subst. destruct (recover_settled name l H1) as (l1 & Hrun1 & Ha1).
    destruct (IH l1) as (l2 & Hrun2 & Ha2); [by rewrite (ad_disk _ _ _ Ha1)|]. exists l2. split.
    + cbn [for_each]. by rewrite (bind_ok _ _ _ _ _ Hrun1).
    + by apply (advanced_app [name] names l l1 l2).
Qed.

(** The file of a chunk that is being written. *)
Definition open_file (s i : N) (c : list bytes) : LedgerFile.t :=
  LedgerFile.mk (new_name s false) i s (8 + sizes c) (offsets 8 c) false false false false.

(** The recovery of a file that was cut: what is left of it, if anything. *)
Record cut_result (i s : N) (c : list bytes) (k : nat) (d d' : Disk) (kept : list LedgerFile.t) : Prop := {
  cr_contents : forall j, j <> i -> content j d' = content j d;
  cr_next : next_file d' = next_file d;
  cr_kept : match k with
    | O => kept = [] /\ (ledger_dir d' = delete (new_name s false) (ledger_dir d) \/
        exists n, is_ledger_file_name_ignored n = true /\ ledger_dir d' = <[n := i]> (delete (new_name s false) (ledger_dir d)))
    | _ => kept = [open_file s i (take k c)] /\ file_ok d' (open_file s i (take k c)) (take k c) /\ ledger_dir d' = ledger_dir d
    end;
}.

Lemma ignored_name s : is_ledger_file_name_ignored (String.append (new_name s false) ledger_ignored_file_suffix) = true.
Proof. unfold is_ledger_file_name_ignored. rewrite ends_with_append by done. done. Qed.

Lemma recover_cut l s i c n : 1 <= s < 2 ^ 64 -> ledger_dir (disk l) !! new_name s false = Some i ->
  content i (disk l) = take n (le_split 8 0 ++ concat c) -> chunk_ok c ->
  exists d' kept, recover_file (new_name s false) l = (Ok tt, set_files (files l ++ kept) (set_disk d' l)) /\
    cut_result i s c (surviving n c) (disk l) d' kept.
Proof.
  intros Hs Hi Hcut [Hfr Hsz]. rewrite new_name_recover by lia. unfold recover_writeable. destruct (decide (n < 8)%nat) as [Hlt|Hge].
  - destruct (open_short (ledger_dir (disk l)) (disk l) (new_name s false) i s _ (new_name_start s ltac:(lia)) Hi Hcut) as [e He].
    { unfold size. rewrite length_take, length_app, length_le_split. lia. }
    unfold bind at 1. rewrite He. unfold ignore_ledger_file. rewrite new_name_not_ignored. unfold rename_file. cbn [set_disk disk]. rewrite Hi.
    exists (set_ledger_dir (<[String.append (new_name s false) ledger_ignored_file_suffix := i]> (delete (new_name s false) (ledger_dir (disk l)))) (disk l)), [].
    split; [by rewrite app_nil_r|]. rewrite surviving_short by done. constructor; try done.
    split; [done|]. right. eexists. split; [apply ignored_name|done].
  - destruct (cut_file n c Hfr ltac:(lia)) as (rest & Htake & Htorn & Hk). rewrite Htake in Hcut. set (k := surviving n c) in *.
    assert (8 + sizes (take k c) < 2 ^ 32) as Hsz'.
    { pose proof (sizes_app (take k c) (drop k c)) as Hsa. rewrite take_drop in Hsa. lia. }
    unfold bind at 1. rewrite (open_incomplete _ (disk l) _ i s (take k c) rest);
      [|apply new_name_start; lia|by apply new_name_suffix|done|done|by apply Forall_take|done|done].
    fold (open_file s i (take k c)). assert (get_last_idx (open_file s i (take k c)) = s + N.of_nat k - 1) as Hlast.
    { unfold get_last_idx, open_file. cbn [start_idx positions]. rewrite length_offsets, length_take, u64_sub_exact by lia. f_equal. lia. }
    rewrite Hlast. destruct k as [|k].
    + replace (s + N.of_nat 0 - 1) with (start_idx (open_file s i (take 0 c)) - 1) by (simpl; lia).
      rewrite (truncate_remove _ _ []); [|simpl; lia|done|done|by left|simpl; by eexists].
      eexists _, []. split; [by rewrite app_nil_r|]. constructor; try done. split; [done|]. by left.
    + replace (s + N.of_nat (S k) - 1) with (start_idx (open_file s i (take (S k) c)) + N.of_nat k) by (simpl; lia).
      destruct (truncate_spec (disk l) (open_file s i (take (S k) c)) (take (S k) c) k) as (d' & Hrun & Hok & Hc & Hd & Hnx);
        [|done|rewrite length_take; lia|by left|].
      { constructor; try done; [simpl; lia|exists (le_split 8 0), rest; split; [unfold size; by rewrite length_le_split|done]|].
        apply Forall_take. eapply Forall_impl; [exact Hfr|]. intros e [He _] ->. unfold size in He. simpl in He. lia. }
      rewrite Hrun. assert (truncated k (take (S k) c) (open_file s i (take (S k) c)) = open_file s i (take (S k) c)) as Htr.
      { unfold truncated, open_file. rewrite take_take, Nat.min_id. done. }
      rewrite Htr in *. rewrite take_take, Nat.min_id in Hok. exists d', [open_file s i (take (S k) c)]. split; [done|]. by constructor.
Qed.

(** ** All of the names *)

(** The names other than those of the open files [gs]. *)
Definition others (cs : list (list bytes)) (name : string) : Prop :=
  is_ledger_file_name_ignored name = true \/ exists x, x ∈ starts 0 cs /\ name = committed_name x.1 (last_of x) false.

Lemma others_none d cs name : others cs name -> recovered d name = [].
Proof.
  intros [Hig|(x & _ & ->)]; unfold recovered; [by rewrite Hig|]. unfold is_ledger_file_name_committed. rewrite committed_name_suffix by (simpl; lia).
  by rewrite orb_true_r.
Qed.

(** A complete file is recovered as it was. *)
Lemma recovered_open l cs fs d f x : inv l cs fs -> open_at (disk l) f x -> x ∈ starts (count (concat cs)) fs -> completed f = true -> x.2 <> [] ->
  ledger_dir d !! file_name f = Some (file f) -> content (file f) d = content (file f) (disk l) ->
  recovered d (file_name f) = [f] /\ settled d (file_name f).
Proof.
  intros Hinv Hf Hx Hcomp Hne Hd Hcont. pose proof (start_bound _ _ _ Hinv x Hx) as Hs.
  assert (file_ok (disk l) f x.2) as Hok by apply (oa_file _ _ _ Hf). pose proof (oa_name _ _ _ Hf) as Hn. rewrite Hn in *.
  destruct (inv_chunk _ _ _ x.2 Hinv) as [_ Hsz]; [apply starts_bounds in Hx as (_ & _ & Hx); set_solver|].
  assert (content (file f) d = complete_bytes x.2) as Hc.
  { rewrite Hcont. destruct (fo_content _ _ _ Hok) as [Hc|(Hnil & _)]; [|done]. rewrite Hc. unfold header_bytes, table_bytes. rewrite Hcomp.
    by rewrite (fo_total _ _ _ Hok), (fo_positions _ _ _ Hok). }
  split; [|by apply (settled_complete d x.1 x.2 (file f))].
  unfold recovered, is_ledger_file_name_ignored, is_ledger_file_name_committed. rewrite !new_name_suffix by done. cbn [orb].
  rewrite (recovered_complete d x.1 x.2 (file f)) by done. f_equal. destruct f. destruct Hf, Hok. cbn in *. by subst.
Qed.

Lemma bind_names d (gs : list LedgerFile.t) : Forall (fun g => recovered d (file_name g) = [g]) gs -> (file_name <$> gs) ≫= recovered d = gs.
Proof. induction 1 as [|g gs Hg _ IH]; [done|]. cbn [fmap list_fmap mbind list_bind]. rewrite Hg. cbn [app]. f_equal. exact IH. Qed.

Lemma bind_none d names : Forall (fun n => recovered d n = []) names -> names ≫= recovered d = [].
Proof. induction 1 as [|n names Hn _ IH]; [done|]. cbn [mbind list_bind]. rewrite Hn. exact IH. Qed.

Lemma files_perm d cs gs names : NoDup names -> NoDup (file_name <$> gs) -> Forall (fun g => recovered d (file_name g) = [g]) gs ->
  (forall g, g ∈ gs -> file_name g ∈ names) -> (forall n, n ∈ names -> n ∈ file_name <$> gs \/ others cs n) ->
  names ≫= recovered d ≡ₚ gs.
Proof.
  intros Hnd Hndg Hrec Hin Hcase. rewrite <- (filter_app_complement (fun n => n ∈ file_name <$> gs) names), bind_app.
  rewrite (bind_none d (filter (fun n => ~ n ∈ file_name <$> gs) names)).
  2:{ apply Forall_forall. intros n [Hn1 Hn2]%list_elem_of_filter. destruct (Hcase n Hn2) as [?|Ho]; [done|by eapply others_none]. }
  rewrite app_nil_r. assert (filter (fun n => n ∈ file_name <$> gs) names ≡ₚ file_name <$> gs) as ->; [|by rewrite bind_names].
  apply NoDup_Permutation; [by apply NoDup_filter|done|]. intros n. rewrite list_elem_of_filter. split; [by intros []|]. intros Hn. split; [done|].
  apply list_elem_of_fmap in Hn as (g & -> & Hg). by apply Hin.
Qed.

(** *** The commit point *)

Lemma foldl_max_bound ns n b : n <= b -> Forall (fun m => m <= b) ns -> foldl N.max n ns <= b.
Proof. intros Hn Hns. revert n Hn. induction Hns as [|m ns Hm _ IH]; intros n Hn; simpl; [done|]. apply IH. lia. Qed.

Lemma foldl_max_ge ns n : n <= foldl N.max n ns /\ forall m, m ∈ ns -> m <= foldl N.max n ns.
Proof.
  revert n. induction ns as [|k ns IH]; intros n; simpl; [split; [lia|by intros m ?%not_elem_of_nil]|].
  destruct (IH (N.max n k)) as [H1 H2]. split; [lia|]. intros m [-> |Hm]%elem_of_cons; [lia|by apply H2].
Qed.

Lemma starts_last cs : cs <> [] -> exists x, x ∈ starts 0 cs /\ last_of x = count (concat cs).
Proof.
  intros Hcs. destruct cs as [|c cs _] using rev_ind; [done|]. exists (count (concat cs) + 1, c). rewrite starts_app, concat_app, count_app. split.
  - cbn [starts]. rewrite N.add_0_l. set_solver.
  - unfold last_of. cbn [fst snd concat]. rewrite app_nil_r. lia.
Qed.

Lemma commit_max l cs fs names : inv l cs fs -> (forall x, x ∈ starts 0 cs -> committed_name x.1 (last_of x) false ∈ names) ->
  (forall n, n ∈ names -> known_name cs fs n) -> foldl N.max 0 (committed_end <$> names) = count (concat cs).
Proof.
  intros Hinv Hin Hknown.
  assert (forall x, x ∈ starts 0 cs -> committed_end (committed_name x.1 (last_of x) false) = last_of x) as Hend.
  { intros x Hx. destruct (committed_bound _ _ _ Hinv x Hx). unfold committed_end. by rewrite committed_name_not_ignored, committed_name_last. }
  apply N.le_antisymm.
  - apply foldl_max_bound; [lia|]. apply Forall_fmap, Forall_forall. intros n Hn. cbn. destruct (Hknown n Hn) as [Hig|[(x & Hx & ->)|(x & Hx & ->)]].
    + unfold committed_end. rewrite Hig. lia.
    + rewrite Hend by done. apply starts_bounds in Hx as (_ & Hb & _). unfold last_of. lia.
    + pose proof (start_bound _ _ _ Hinv x Hx). unfold committed_end. rewrite new_name_not_ignored, new_name_last by done. lia.
  - destruct (decide (cs = [])) as [-> |Hcs]; [simpl; unfold count; simpl; lia|]. destruct (starts_last cs Hcs) as (x & Hx & <-).
    apply foldl_max_ge. apply list_elem_of_fmap. eexists. split; [|by apply Hin]. by rewrite Hend.
Qed.

(** *** The order of the files *)

Lemma starts_sorted d base fls fs : Forall2 (open_at d) fls (starts base fs) -> Forall (fun c => c <> []) fs ->
  StronglySorted (fun f g => get_last_idx f < get_last_idx g) fls.
Proof.
  revert base fls. induction fs as [|c fs IH]; intros base fls Ho Hne; cbn [starts] in Ho; inversion Ho as [|f ? hs ? Hf Hhs]; subst; [constructor|].
  inversion Hne as [|? ? Hc Hne']; subst. constructor; [by eapply IH|]. apply Forall_lookup. intros i g Hg.
  destruct (Forall2_lookup_l _ _ _ _ _ Hhs Hg) as (y & Hy & Hog). rewrite (get_last_idx_open _ _ _ Hf), (get_last_idx_open _ _ _ Hog).
  apply list_elem_of_lookup_2, starts_bounds in Hy as (Hb & _ & Hin). pose proof (proj1 (Forall_forall _ _) Hne' _ Hin) as Hy2. apply count_pos in Hy2.
  unfold last_of. cbn [fst snd]. lia.
Qed.

Lemma sorted_inj (fls : list LedgerFile.t) f g : StronglySorted (fun f g => get_last_idx f < get_last_idx g) fls -> f ∈ fls -> g ∈ fls ->
  get_last_idx f = get_last_idx g -> f = g.
Proof.
  induction 1 as [|h fls _ IH Hh]; [by intros ?%not_elem_of_nil|]. intros [-> |Hf]%elem_of_cons [-> |Hg]%elem_of_cons Heq; [done| | |by apply IH].
  - pose proof (proj1 (Forall_forall _ _) Hh g Hg). simpl in *. lia.
  - pose proof (proj1 (Forall_forall _ _) Hh f Hf). simpl in *. lia.
Qed.

Lemma sort_files fls hs : StronglySorted (fun f g => get_last_idx f < get_last_idx g) fls -> hs ≡ₚ fls -> merge_sort last_idx_le hs = fls.
Proof.
  intros Hs Hp. assert (Total last_idx_le) by (intros f g; unfold last_idx_le; lia).
  assert (Transitive last_idx_le) by (intros f g h; unfold last_idx_le; lia).
  apply (StronglySorted_unique_strong last_idx_le).
  - intros f g Hf Hg Hle1 Hle2. rewrite merge_sort_Permutation, Hp in Hf. apply (sorted_inj fls); try done. unfold last_idx_le in *. lia.
  - by apply Sorted_StronglySorted, Sorted_merge_sort.
  - clear -Hs. induction Hs as [|f fls _ IH Hf]; constructor; [done|]. eapply Forall_impl; [exact Hf|]. intros g. unfold last_idx_le. simpl. lia.
  - by rewrite merge_sort_Permutation.
Qed.

(** *** The names of a ledger *)

(** The files [gs], which are complete, are on the disk as they were. *)
Definition intact (l : Ledger) (gs : list LedgerFile.t) (d : Disk) : Prop :=
  forall g, g ∈ gs -> ledger_dir d !! file_name g = Some (file g) /\ content (file g) d = content (file g) (disk l).

Section names.
Context (l : Ledger) (cs fs fs1 : list (list bytes)) (gs : list LedgerFile.t).
Context (Hinv : inv l cs fs) (Hgs : Forall2 (open_at (disk l)) gs (starts (count (concat cs)) fs1)).
Context (Hsub : forall y, y ∈ starts (count (concat cs)) fs1 -> y ∈ starts (count (concat cs)) fs).
Context (Hcomp : Forall (fun g => completed g = true) gs) (Hne : Forall (fun c => c <> []) fs1).

Lemma intact_file d g : intact l gs d -> g ∈ gs -> recovered d (file_name g) = [g] /\ settled d (file_name g).
Proof.
  intros Hd Hg. destruct (Hd g Hg) as [H1' H2']. apply list_elem_of_lookup_1 in Hg as [k Hk]. destruct (Forall2_lookup_l _ _ _ _ _ Hgs Hk) as (x & Hx & Hog).
  apply list_elem_of_lookup_2 in Hx. eapply recovered_open; try done; [by apply Hsub|by eapply (proj1 (Forall_lookup _ _) Hcomp)|].
  apply starts_bounds in Hx as (_ & _ & Hx). exact (proj1 (Forall_forall _ _) Hne _ Hx).
Qed.

Lemma others_settled d n : others cs n -> settled d n.
Proof.
  intros [Hig|(x & Hx & ->)]; [by apply settled_ignored|]. destruct (committed_bound _ _ _ Hinv x Hx). by apply settled_committed.
Qed.

(** Names that are those of [gs] or other ones are only read. *)
Lemma names_settled d names : intact l gs d -> (forall n, n ∈ names -> n ∈ file_name <$> gs \/ others cs n) -> Forall (settled d) names.
Proof.
  intros Hd Hn. apply Forall_forall. intros n Hin. destruct (Hn n Hin) as [(g & -> & Hg)%list_elem_of_fmap|Ho]; [by apply intact_file|by apply others_settled].
Qed.

Lemma names_recovered d d' names : intact l gs d -> intact l gs d' -> (forall n, n ∈ names -> n ∈ file_name <$> gs \/ others cs n) ->
  names ≫= recovered d = names ≫= recovered d'.
Proof.
  intros Hd Hd' Hn. induction names as [|n names IH]; [done|]. cbn [mbind list_bind].
  assert (recovered d n = recovered d' n) as ->.
  { destruct (Hn n (list_elem_of_here _ _)) as [(g & -> & Hg)%list_elem_of_fmap|Ho].
    - destruct (intact_file d g Hd Hg) as [-> _], (intact_file d' g Hd' Hg) as [-> _]. done.
    - by rewrite !(others_none _ cs). }
  f_equal. apply IH. intros m Hm. apply Hn. by apply list_elem_of_further.
Qed.
End names.

Lemma for_each_app {A} (n1 n2 : list A) (h : A -> M Ledger unit) l1 l2 : for_each h n1 l1 = (Ok tt, l2) -> for_each h (n1 ++ n2) l1 = for_each h n2 l2.
Proof.
  revert l1. induction n1 as [|n n1 IH]; intros l1 Hrun; [by injection Hrun as ->|]. cbn [app for_each] in *. unfold bind in *.
  destruct (h n l1) as [[[]|e] l1']; [by apply IH|done].
Qed.

Lemma listing_nodup (d : Directory) : NoDup (listing d).
Proof. rewrite (listing_permutation d). apply NoDup_fst_map_to_list. Qed.

(** *** The ledger that is made *)

Lemma recover_run d m l1 fls :
  for_each recover_file (listing (ledger_dir d)) (new_ledger d [] m) = (Ok tt, l1) -> last_idx l1 = 0 ->
  files l1 ≡ₚ fls -> StronglySorted (fun f g => get_last_idx f < get_last_idx g) fls ->
  recover (new_ledger d [] m) =
    (Ok tt, set_last_idx (match last fls with Some f => get_last_idx f | None => committed_idx l1 end) (set_files fls l1)).
Proof.
  intros Hrun Hz Hp Hs. unfold recover. unfold bind at 1, gets. cbn [new_ledger read_ledger_dirs for_each]. unfold bind at 1, ret.
  unfold bind at 1. cbn [disk]. fold (new_ledger d [] m). rewrite (bind_ok _ _ _ _ _ Hrun). unfold modify. f_equal.
  rewrite (sort_files fls (files l1) Hs Hp). destruct fls as [|f fls].
  - apply Permutation_nil_r in Hp. destruct l1. cbn in *. by subst.
  - assert (is_Some (last (f :: fls))) as [g ->] by (by apply last_is_Some). by rewrite Hz, N.max_0_l.
Qed.

Lemma inv_fields l l' cs fs : inv l cs fs -> disk l' = disk l -> files l' = files l -> end_of_committed_files_idx l' = count (concat cs) ->
  (read_ledger_dirs l', files_read_cache l', use_existing_files l', recovery_start_idx l') = ([], [], false, None) -> inv l' cs fs.
Proof. intros [] E1 E2 E3 [= E4 E5 E6 E7]. constructor; rewrite ?E1, ?E2, ?E3, ?E4, ?E5, ?E6, ?E7; done. Qed.

(** The ledger that holds what the files hold. *)
Lemma good_recovered l l' cs fs : inv l cs fs -> Forall (fun c => c <> []) fs -> disk l' = disk l -> files l' = files l ->
  committed_idx l' = count (concat cs) -> end_of_committed_files_idx l' = count (concat cs) ->
  (read_ledger_dirs l', files_read_cache l', use_existing_files l', recovery_start_idx l') = ([], [], false, None) ->
  last_idx l' = match last (files l) with Some f => get_last_idx f | None => count (concat cs) end ->
  good l' cs fs (mkLog (concat (cs ++ fs)) (count (concat cs))).
Proof.
  intros Hinv Hne E1 E2 E3 E4 E5 E6.
  assert (last_idx l' = count (concat (cs ++ fs))) as Hlast.
  { rewrite E6. destruct (last (files l)) as [f|] eqn:Hl.
    - apply last_Some in Hl as [gs Hfiles]. destruct (last_chunk _ _ _ _ _ Hinv Hfiles) as (fs1 & c & -> & _ & Hf).
      rewrite (get_last_idx_open _ _ _ Hf), !concat_app, !count_app. unfold last_of. cbn [fst snd concat]. rewrite app_nil_r. lia.
    - apply last_None in Hl. pose proof (length_files _ _ _ Hinv) as Hlen. rewrite Hl in Hlen. destruct fs; [by rewrite app_nil_r|done]. }
  constructor; cbn [entries commit_point]; try done.
  - by eapply inv_fields.
  - rewrite E3, Hlast, concat_app, count_app. lia.
  - apply Forall_forall. intros y Hy%last_of_lower. by rewrite E3.
Qed.

(** ** Crash and recovery *)

(** A node stops: the first [n] bytes of the file that was being written to
    are left. *)
Definition crashed (n : nat) (l : Ledger) : Disk :=
  match get_latest_file true l with
  | Some f => set_content (file f) (take n (content (file f) (disk l))) (disk l)
  | None => disk l
  end.

(** The number of entries of the ledger that end there, or before. *)
Definition survivors (n : nat) (l : Ledger) : nat :=
  match get_latest_file true l with
  | Some f => N.to_nat (start_idx f) - 1 + length (filter (fun p => p <= N.of_nat n) (drop 1 (positions f) ++ [total_len f]))
  | None => N.to_nat (last_idx l)
  end.

Lemma ends_positions pos c : c <> [] -> (drop 1 (offsets pos c) ++ [pos + sizes c])%list = ends pos c.
Proof.
  intros Hc. destruct c as [|e c]; [done|]. cbn [offsets drop ends]. rewrite sizes_cons. clear Hc. revert pos e.
  induction c as [|e' c IH]; intros pos e; cbn [offsets app ends].
  - unfold sizes, size at 2. simpl. by rewrite N.add_0_r.
  - rewrite <- (IH (pos + size e) e'). cbn [drop app]. do 3 f_equal. rewrite sizes_cons. lia.
Qed.

(** Every file was complete: nothing is lost. *)
Lemma recover_complete l cs fs a m : good l cs fs a -> get_latest_file true l = None ->
  exists l', recover (new_ledger (disk l) [] m) = (Ok tt, l') /\ good l' cs fs (mkLog (entries a) (count (concat cs))).
Proof.
  intros Hg Hl. pose proof (gd_inv _ _ _ _ Hg) as Hinv. pose proof (gd_open_nonempty _ _ _ _ Hg) as Hne.
  pose proof (iv_open _ _ _ Hinv) as Ho. pose proof (latest_none _ _ _ Hinv Hl) as Hcomp. set (names := listing (ledger_dir (disk l))).
  assert (intact l (files l) (disk l)) as Hint.
  { intros g [k Hg']%list_elem_of_lookup_1. destruct (Forall2_lookup_l _ _ _ _ _ Ho Hg') as (x & _ & Hog). split; [|done].
    rewrite (oa_name _ _ _ Hog). apply (oa_dir _ _ _ Hog). }
  assert (forall n, n ∈ names -> known_name cs fs n) as Hknown by (intros n [i Hi]%listing_elem; by eapply (iv_names _ _ _ Hinv)).
  assert (forall n, n ∈ names -> n ∈ file_name <$> files l \/ others cs n) as Hcase.
  { intros n Hn. destruct (Hknown n Hn) as [?|[?|(y & Hy & ->)]]; [by right; left|by right; right|]. left.
    apply list_elem_of_lookup_1 in Hy as [k Hk]. destruct (Forall2_lookup_r _ _ _ _ _ Ho Hk) as (g & Hg' & Hog).
    rewrite <- (oa_name _ _ _ Hog). by eapply list_elem_of_fmap_2, list_elem_of_lookup_2. }
  destruct (recover_all names (new_ledger (disk l) [] m)) as (l1 & Hrun & [A1 A2 A3 A4 A5]).
  { eapply (names_settled l cs fs fs (files l)); try done. }
  cbn [new_ledger disk files app committed_idx end_of_committed_files_idx last_idx read_ledger_dirs files_read_cache use_existing_files recovery_start_idx] in *.
  injection A5 as B1 B2 B3 B4 B5. rewrite (commit_max l cs fs) in A3; [|done| |done].
  2:{ intros x Hx. apply listing_elem. destruct (proj1 (Forall_forall _ _) (iv_committed _ _ _ Hinv) x Hx) as (i & Hi & _). by eexists. }
  eexists. split.
  { apply (recover_run _ _ _ (files l) Hrun B3); [|by eapply starts_sorted]. rewrite A2. apply (files_perm _ cs); [apply listing_nodup|by eapply open_names_nodup| | |done].
    - apply Forall_forall. intros g Hg'. by eapply (intact_file l cs fs fs (files l)).
    - intros g Hg'. apply listing_elem. destruct (Hint g Hg') as [Hd _]. by eexists. }
  rewrite (gd_entries _ _ _ _ Hg). eapply (good_recovered l); try done; cbn [set_last_idx set_files committed_idx end_of_committed_files_idx last_idx].
  - by rewrite A4, A3.
  - cbn. congruence.
  - by rewrite A3.
Qed.

(** The last file was being written to. *)
Section cut.
Context (l : Ledger) (cs fs1 : list (list bytes)) (c : list bytes) (gs : list LedgerFile.t) (f : LedgerFile.t) (d : Disk).
Context (Hinv : inv l cs (fs1 ++ [c])) (Hfiles : files l = (gs ++ [f])%list) (Hlen : length gs = length fs1).
Context (Hne : Forall (fun c => c <> []) (fs1 ++ [c])).
Context (Hcont : forall j, j <> file f -> content j d = content j (disk l)).
Context (Hdir : ledger_dir d = ledger_dir (disk l)) (Hnext : next_file d = next_file (disk l)).
Let base : N := count (concat cs).
Let s : N := base + count (concat fs1) + 1.
Let name : string := new_name s false.

Lemma cut_open : Forall2 (open_at (disk l)) gs (starts base fs1) /\ open_at (disk l) f (s, c).
Proof. destruct (update_split l cs fs1 [] c gs [] f Hinv Hfiles Hlen) as (H1' & H2' & _). done. Qed.

Lemma cut_drop d' : (forall j, j <> file f -> content j d' = content j d) -> next_file d' = next_file d -> ledger_dir d' = delete name (ledger_dir d) ->
  inv (set_files gs (set_disk d' l)) cs fs1.
Proof.
  intros Hc Hn Hd. destruct cut_open as [_ Hf].
  assert (set_files gs (set_disk d' l) = set_last_idx (last_idx l) (set_files gs (set_disk d' l))) as -> by done.
  eapply inv_drop; try done.
  - intros j Hj. by rewrite Hc, Hcont.
  - split; [by rewrite Hn|]. intros n. rewrite Hd, Hdir. cbn [fmap list_fmap]. rewrite (oa_name _ _ _ Hf). cbn [fst]. fold name. case_decide as Hdec.
    + apply list_elem_of_singleton in Hdec as ->. apply (lookup_delete_eq (ledger_dir (disk l))).
    + apply (lookup_delete_ne (ledger_dir (disk l))). intros Heq. apply Hdec. rewrite <- Heq. apply list_elem_of_here.
Qed.

Lemma inv_cut k d' kept : (k <= length c)%nat -> cut_result (file f) s c k d d' kept ->
  inv (set_files (gs ++ kept) (set_disk d' l)) cs (fs1 ++ kept_chunk k c).
Proof.
  intros Hk [Hc Hn Hkept]. destruct cut_open as [_ Hf]. destruct k as [|k].
  - destruct Hkept as [-> Hd]. cbn [kept_chunk]. rewrite !app_nil_r. destruct Hd as [Hd|(n & Hig & Hd)]; [by apply cut_drop|].
    set (d1 := set_ledger_dir (delete name (ledger_dir d)) d').
    pose proof (cut_drop d1 Hc Hn eq_refl) as Hinv1.
    assert (set_files gs (set_disk d' l) = set_disk (set_ledger_dir (<[n := file f]> (ledger_dir d1)) d1) (set_files gs (set_disk d1 l))) as ->.
    { unfold set_files, set_disk. cbn [disk read_ledger_dirs files max_read_cache_files files_read_cache last_idx committed_idx end_of_committed_files_idx use_existing_files last_idx_on_init init_idx recovery_start_idx].
      f_equal. unfold d1, set_ledger_dir. cbn [ledger_dir contents next_file]. fold name in Hd. rewrite <- Hd. by destruct d'. }
    apply (inv_ignore _ _ _ n (file f) Hinv1 Hig); cbn [set_files set_disk disk].
    + unfold d1. cbn [set_ledger_dir next_file]. rewrite Hn, Hnext. eapply (iv_fresh _ _ _ Hinv), (oa_dir _ _ _ Hf).
    + intros m Hm. unfold d1 in Hm. cbn [set_ledger_dir ledger_dir] in Hm. destruct (decide (m = name)) as [->|Hmn].
      * by rewrite (lookup_delete_eq (ledger_dir d)) in Hm.
      * rewrite (lookup_delete_ne (ledger_dir d)), Hdir in Hm by done. apply Hmn. eapply (iv_files _ _ _ Hinv); [exact Hm|apply (oa_dir _ _ _ Hf)].
  - destruct Hkept as (-> & Hok & Hd). cbn [kept_chunk].
    assert (set_files (gs ++ [open_file s (file f) (take (S k) c)]) (set_disk d' l) =
      set_last_idx (last_idx l) (set_files (gs ++ [open_file s (file f) (take (S k) c)]) (set_disk d' l))) as -> by done.
    destruct (inv_chunk _ _ _ c Hinv) as [Hfr Hsz]; [set_solver|].
    eapply inv_last; try done.
    + split_and!; [intros j Hj; by rewrite Hc, Hcont|by rewrite Hd|by rewrite Hn].
    + by rewrite (oa_start _ _ _ Hf).
    + by rewrite (oa_name _ _ _ Hf).
    + split; [by apply Forall_take|]. pose proof (sizes_app (take (S k) c) (drop (S k) c)) as Hsa. rewrite take_drop in Hsa. lia.
    + pose proof (iv_bound _ _ _ Hinv) as Hb. rewrite !concat_app, !count_app in *. cbn [concat] in *. rewrite app_nil_r in *.
      assert (count (take (S k) c) <= count c) by (unfold count; rewrite length_take; lia). lia.
Qed.

Lemma cut_file_name g : g ∈ gs -> exists y, y ∈ starts base fs1 /\ open_at (disk l) g y /\ file_name g <> name /\ file g <> file f.
Proof.
  intros [k Hk]%list_elem_of_lookup_1. destruct cut_open as [Hgs Hf]. destruct (Forall2_lookup_l _ _ _ _ _ Hgs Hk) as (y & Hy & Hog).
  exists y. split; [by eapply list_elem_of_lookup_2|]. split; [done|].
  pose proof (open_files_differ l cs _ Hinv k (length gs) g f y (s, c)) as Hdiff. rewrite (oa_name _ _ _ Hog).
  pose proof (lookup_lt_Some _ _ _ Hk). apply Hdiff; [rewrite Hfiles; by apply lookup_app_l_Some|rewrite Hfiles; apply lookup_middle| |rewrite Hlen; apply starts_here|lia].
  rewrite starts_app. by apply lookup_app_l_Some.
Qed.

Lemma cut_intact k d' kept : cut_result (file f) s c k d d' kept -> intact l gs d'.
Proof.
  intros [Hc _ Hkept] g Hg. destruct (cut_file_name g Hg) as (y & Hy & Hog & Hgn & Hgf).
  split; [|by rewrite Hc, Hcont]. assert (ledger_dir d !! file_name g = Some (file g)) as Hd by (rewrite Hdir, (oa_name _ _ _ Hog); apply (oa_dir _ _ _ Hog)).
  destruct k; destruct Hkept as [_ Hkept]; [|destruct Hkept as [_ ->]; done]. destruct Hkept as [->|(n & Hig & ->)].
  - by rewrite (lookup_delete_ne (ledger_dir d)).
  - rewrite (lookup_insert_ne (delete _ (ledger_dir d))); [by rewrite (lookup_delete_ne (ledger_dir d))|]. intros ->.
    by rewrite (oa_name _ _ _ Hog), new_name_not_ignored in Hig.
Qed.

Lemma intact_before : intact l gs d.
Proof.
  intros g Hg. destruct (cut_file_name g Hg) as (y & Hy & Hog & Hgn & Hgf). split; [|by apply Hcont]. rewrite Hdir, (oa_name _ _ _ Hog). apply (oa_dir _ _ _ Hog).
Qed.

Lemma cut_known n : n ∈ listing (ledger_dir d) -> known_name cs (fs1 ++ [c]) n.
Proof. rewrite Hdir. intros [i Hi]%listing_elem. by eapply (iv_names _ _ _ Hinv). Qed.

Lemma cut_names n : n ∈ listing (ledger_dir d) -> n <> name -> n ∈ file_name <$> gs \/ others cs n.
Proof.
  intros Hn Hnn. destruct cut_open as [Hgs _]. destruct (cut_known n Hn) as [?|[?|(y & Hy & ->)]]; [by right; left|by right; right|]. left.
  rewrite starts_app in Hy. apply elem_of_app in Hy as [Hy|Hy].
  - apply list_elem_of_lookup_1 in Hy as [k Hk]. destruct (Forall2_lookup_r _ _ _ _ _ Hgs Hk) as (g & Hg & Hog).
    rewrite <- (oa_name _ _ _ Hog). by eapply list_elem_of_fmap_2, list_elem_of_lookup_2.
  - cbn [starts] in Hy. apply list_elem_of_singleton in Hy as ->. done.
Qed.

(** All of the names, the one of the file that was cut among them. *)
Lemma recover_cut_all n l0 : disk l0 = d -> content (file f) d = take n (le_split 8 0 ++ concat c) ->
  files l0 = [] -> committed_idx l0 = 0 -> end_of_committed_files_idx l0 = 0 ->
  exists d' kept l', cut_result (file f) s c (surviving n c) d d' kept /\ for_each recover_file (listing (ledger_dir d)) l0 = (Ok tt, l') /\
    disk l' = d' /\ files l' ≡ₚ (gs ++ kept)%list /\ committed_idx l' = base /\ end_of_committed_files_idx l' = base /\
    (read_ledger_dirs l', files_read_cache l', last_idx l', use_existing_files l', recovery_start_idx l') =
    (read_ledger_dirs l0, files_read_cache l0, last_idx l0, use_existing_files l0, recovery_start_idx l0).
Proof.
  intros Hd0 Hbytes Hf0 Hc0 He0. destruct cut_open as [Hgs Hf].
  assert (ledger_dir d !! name = Some (file f)) as Hname by (rewrite Hdir; apply (oa_dir _ _ _ Hf)).
  assert (name ∈ listing (ledger_dir d)) as Hin by (apply listing_elem; by eexists).
  pose proof (listing_nodup (ledger_dir d)) as Hnd. apply list_elem_of_split in Hin as (n1 & n2 & Hsplit). rewrite Hsplit in Hnd.
  assert (NoDup (n1 ++ n2) /\ name ∉ n1 ++ n2) as [Hnd' Hnot].
  { rewrite <- Permutation_middle in Hnd. by apply NoDup_cons in Hnd as [? ?]. }
  assert (forall m, m ∈ n1 ++ n2 -> m ∈ file_name <$> gs \/ others cs m) as Hcase.
  { intros m Hm. apply cut_names; [rewrite Hsplit; set_solver|]. intros ->. done. }
  assert (Forall (fun g => completed g = true) gs) as Hcomp.
  { apply Forall_lookup. intros k g Hk. pose proof (lookup_lt_Some _ _ _ Hk). apply (iv_complete _ _ _ Hinv k g); rewrite Hfiles; [by apply lookup_app_l_Some|rewrite length_app; simpl; lia]. }
  assert (Forall (fun c => c <> []) fs1) as Hne1 by (by apply Forall_app in Hne as [? _]).
  assert (forall y, y ∈ starts base fs1 -> y ∈ starts base (fs1 ++ [c])) as Hsub by (intros y Hy; rewrite starts_app; set_solver).
  pose proof (names_settled l cs (fs1 ++ [c]) fs1 gs Hinv Hgs Hsub Hcomp Hne1) as Hset.
  destruct (recover_all n1 l0) as (l1 & Hrun1 & [A1 A2 A3 A4 A5]).
  { rewrite Hd0. apply Hset; [apply intact_before|]. intros m Hm. apply Hcase. set_solver. }
  pose proof (start_bound _ _ _ Hinv (s, c) ltac:(rewrite starts_app; cbn [starts]; set_solver)) as Hs.
  destruct (recover_cut l1 s (file f) c n) as (d' & kept & Hrun2 & Hcut).
  { cbn in Hs. unfold s in *. lia. }
  { by rewrite A1, Hd0. }
  { by rewrite A1, Hd0. }
  { eapply inv_chunk; [exact Hinv|]. set_solver. }
  rewrite A1, Hd0 in Hcut. pose proof (cut_intact _ _ _ Hcut) as Hint'. set (l2 := set_files (files l1 ++ kept) (set_disk d' l1)) in *.
  destruct (recover_all n2 l2) as (l3 & Hrun3 & [B1 B2 B3 B4 B5]).
  { apply Hset; [exact Hint'|]. intros m Hm. apply Hcase. set_solver. }
  exists d', kept, l3. split; [done|]. split.
  { rewrite Hsplit, (for_each_app n1 (name :: n2) _ _ _ Hrun1). cbn [for_each]. by rewrite (bind_ok _ _ _ _ _ Hrun2). }
  cbn [set_files set_disk disk files committed_idx end_of_committed_files_idx] in *.
  assert (committed_idx l3 = base) as Hcommit.
  { rewrite B3. unfold l2. cbn [set_files set_disk committed_idx]. rewrite A3, Hc0, <- foldl_app, <- fmap_app. apply (commit_max l cs (fs1 ++ [c])); [done| |].
    - intros x Hx. destruct (proj1 (Forall_forall _ _) (iv_committed _ _ _ Hinv) x Hx) as (i & Hi & _).
      assert (committed_name x.1 (last_of x) false ∈ listing (ledger_dir d)) as Hl by (rewrite Hdir; apply listing_elem; by eexists).
      rewrite Hsplit in Hl. apply elem_of_app in Hl as [Hl|[Hl|Hl]%elem_of_cons]; [set_solver| |set_solver]. by apply committed_not_new in Hl.
    - intros m Hm. apply cut_known. rewrite Hsplit. set_solver. }
  split_and!; [done| |done| |by rewrite B5].
  - rewrite B2. unfold l2. cbn [set_files set_disk disk files]. rewrite A2, Hf0, Hd0. cbn [app].
    rewrite <- (names_recovered l cs (fs1 ++ [c]) fs1 gs Hinv Hgs Hsub Hcomp Hne1 d d' n2) by (try apply intact_before; try done; intros m Hm; apply Hcase; set_solver).
    assert ((n1 ++ n2) ≫= recovered d ≡ₚ gs) as Hp.
    { apply (files_perm d cs); [done| | | |done].
      - pose proof (open_names_nodup _ _ _ Hinv) as Hnn. rewrite Hfiles, fmap_app in Hnn. by apply NoDup_app in Hnn as [? _].
      - apply Forall_forall. intros g Hg. by apply (intact_file l cs (fs1 ++ [c]) fs1 gs Hinv Hgs Hsub Hcomp Hne1 d g intact_before).
      - intros g Hg. destruct (cut_file_name g Hg) as (y & _ & Hog & Hgn & _). destruct (intact_before g Hg) as [Hl _].
        assert (file_name g ∈ listing (ledger_dir d)) as Hl' by (apply listing_elem; by eexists). rewrite Hsplit in Hl'. set_solver. }
    rewrite bind_app in Hp. rewrite <- Hp, <- !app_assoc. f_equiv. apply Permutation_app_comm.
  - rewrite B4; [done|]. unfold l2. cbn [set_files set_disk committed_idx end_of_committed_files_idx]. apply A4. congruence.
Qed.
End cut.

Lemma surviving_bound n c : (surviving n c <= length c)%nat.
Proof.
  unfold surviving. etrans; [apply length_filter|]. generalize 8. induction c as [|e c IH]; intros pos; [done|]. cbn [ends length]. specialize (IH (pos + size e)). lia.
Qed.

Lemma take_kept cs fs1 c k : (k <= length c)%nat ->
  concat (cs ++ fs1 ++ kept_chunk k c) = take (length (concat cs) + (length (concat fs1) + k)) (concat (cs ++ fs1 ++ [c])).
Proof.
  intros Hk. rewrite !concat_app, kept_concat, !take_app_add. cbn [concat]. by rewrite app_nil_r.
Qed.

Lemma recover_partial l cs fs a f n m : good l cs fs a -> get_latest_file true l = Some f ->
  exists l' fs', recover (new_ledger (crashed n l) [] m) = (Ok tt, l') /\
    good l' cs fs' (mkLog (take (survivors n l) (entries a)) (count (concat cs))).
Proof.
  intros Hg Hl. pose proof (gd_inv _ _ _ _ Hg) as Hinv. pose proof (gd_open_nonempty _ _ _ _ Hg) as Hne.
  destruct (latest_split _ _ Hl) as (gs & Hfiles & Hcomp). destruct (last_chunk _ _ _ _ _ Hinv Hfiles) as (fs1 & c & -> & Hlen & Hf).
  assert (file_ok (disk l) f c) as Hok by apply (oa_file _ _ _ Hf). pose proof (oa_start _ _ _ Hf) as Hstart. cbn [fst] in Hstart.
  assert (c <> []) as Hc by (apply Forall_app in Hne as [_ Hne']; by inversion Hne').
  assert (content (file f) (disk l) = (le_split 8 0 ++ concat c)%list) as Hbytes.
  { destruct (fo_content _ _ _ Hok) as [Hb|(-> & _)]; [|done]. rewrite Hb. unfold header_bytes, table_bytes. by rewrite Hcomp, app_nil_r. }
  unfold crashed, survivors. rewrite Hl, (fo_positions _ _ _ Hok), (fo_total _ _ _ Hok), ends_positions, Hbytes by done. fold (surviving n c).
  set (k := surviving n c). set (d := set_content (file f) (take n (le_split 8 0 ++ concat c)) (disk l)).
  destruct (only_file_set (file f) (take n (le_split 8 0 ++ concat c)) (disk l)) as (Hcont & Hdir & Hnext).
  destruct (recover_cut_all l cs fs1 c gs f d Hinv Hfiles Hlen Hne Hcont Hdir Hnext n (new_ledger d [] m))
    as (d' & kept & l1 & Hcut & Hrun & Ed & Ep & Ec & Ee & Er); try done; [apply content_set|].
  pose proof (inv_cut l cs fs1 c gs f d Hinv Hfiles Hlen Hne Hcont Hdir Hnext k d' kept (surviving_bound n c) Hcut) as Hinv'.
  assert (Forall (fun c => c <> []) (fs1 ++ kept_chunk k c)) as Hne'.
  { apply Forall_app in Hne as [Hne1 _]. apply Forall_app. split; [done|]. destruct k; repeat constructor. by destruct c. }
  cbn [new_ledger read_ledger_dirs files_read_cache last_idx use_existing_files recovery_start_idx] in Er. injection Er as R1 R2 R3 R4 R5.
  eexists _, (fs1 ++ kept_chunk k c). split.
  { apply (recover_run _ _ _ (gs ++ kept) Hrun R3 Ep). eapply (starts_sorted d'); [exact (iv_open _ _ _ Hinv')|done]. }
  replace (take _ (entries a)) with (concat (cs ++ fs1 ++ kept_chunk k c)).
  - eapply (good_recovered _ _ _ _ Hinv'); try done; cbn; [congruence|by rewrite Ec].
  - rewrite take_kept by apply surviving_bound. rewrite (gd_entries _ _ _ _ Hg). f_equal. rewrite Hstart. unfold k, count. lia.
Qed.

Lemma recover_ok l a n m : holds l a ->
  exists l', recover (new_ledger (crashed n l) [] m) = (Ok tt, l') /\
    holds l' (mkLog (take (survivors n l) (entries a)) (end_of_committed_files_idx l)).
Proof.
  intros (cs & fs & Hg). rewrite (iv_end _ _ _ (gd_inv _ _ _ _ Hg)). destruct (get_latest_file true l) as [f|] eqn:Hl.
  - destruct (recover_partial l cs fs a f n m Hg Hl) as (l' & fs' & Hrun & Hg'). exists l'. split; [done|]. by exists cs, fs'.
  - destruct (recover_complete l cs fs a m Hg Hl) as (l' & Hrun & Hg'). unfold crashed, survivors. rewrite Hl. exists l'. split; [done|]. exists cs, fs.
    rewrite take_ge; [done|]. rewrite (gd_last _ _ _ _ Hg), (gd_entries _ _ _ _ Hg). unfold count. lia.
Qed.
End recover.
End HostLedgerRecover.
