(* ===== verification/HostLedgerLog.v ===== *)
(** * The ledger of the host: the log it is

    The operations of the ledger, in any order, are those of a log: a sequence
    of entries and a commit point. A node that stops loses the end of the file
    it was writing to, and recovery gives the log of what is left. *)

From S2P Require Import Prelude LedgerEntries TxStatus LedgerFile LedgerFileSpec LedgerNames HostLedger HostLedgerSpec HostLedgerOps HostLedgerRead HostLedgerRecover.

Module HostLedgerLog.
Import LedgerFile LedgerFileSpec LedgerNames HostLedger HostLedgerSpec HostLedgerOps HostLedgerRead HostLedgerRecover.
Open Scope N_scope.
Open Scope m_scope.

(** ** Operations *)

(** A message from the enclave, a job that was queued, or a crash that leaves
    the first bytes of the file that was being written to. *)
Inductive Op :=
| Message (msg : LedgerMessage)
| RunJob (job : LedgerJob)
| Crash (bytes_left : nat) (max_cache : N).

Inductive Answer :=
| Reacted (r : result Reaction)
| Answered (r : result LedgerResponse)
| Restarted (r : result unit).

Definition framedb (e : bytes) : bool := (8 <=? size e) && (size e =? 8 + header_size (decode_header (take 8 e))).

Lemma framedb_ok e : framedb e = true -> framed e.
Proof. intros [H1%N.leb_le H2%N.eqb_eq]%andb_true_iff. done. Qed.

(** Entries have a header that holds their size, and chunks and indices are
    not too large. A ledger that is empty is not truncated. The ledger does not
    start from a snapshot, and the service is not in recovery. *)
Definition allowed (op : Op) (l : Ledger) : bool :=
  match op with
  | Message (ledger_init _ _) => false
  | Message (ledger_append _ e) => framedb e && room e l
  | Message (ledger_truncate _ recovery_mode) => negb (last_idx l =? 0) && negb recovery_mode
  | Message (ledger_commit _) | Message ledger_open | Message (ledger_get_range _ _ _) => true
  | RunJob job => is_in_committed_file (job_to job) l
  | Crash _ _ => true
  end.

(** Reading a range of a log. *)
Definition range_read (from to : N) (max_size : option N) (a : Log) (r : option LedgerReadResult) : Prop :=
  if (from =? 0) || (to <? from) then r = None
  else log_read (entries a) (N.to_nat from - 1) (N.to_nat (N.min to (count (entries a)))) max_size r.

Definition appended (r : result N) : result Reaction := match r with Ok _ => Ok Handled | Throw e => Throw e end.

(** The same operations on a log. *)
Inductive log_step (max_message_size : N) (a : Log) : Op -> Answer -> Log -> Prop :=
| log_append c e : log_step max_message_size a (Message (ledger_append c e)) (Reacted (appended (written e c a).1)) (written e c a).2
| log_truncate idx : log_step max_message_size a (Message (ledger_truncate idx false)) (Reacted (Ok Handled)) (truncated_log idx a)
| log_commit idx : log_step max_message_size a (Message (ledger_commit idx)) (Reacted (Ok Handled)) (committed_log idx a)
| log_open : log_step max_message_size a (Message ledger_open) (Reacted (Ok Handled)) a
| log_queue from to purpose : to <= commit_point a ->
    log_step max_message_size a (Message (ledger_get_range from to purpose))
      (Reacted (Ok (Queued (mkJob from to (u64_sub max_message_size write_ledger_range_response_metadata_size) purpose)))) a
| log_respond from to purpose r :
    range_read from to (Some (u64_sub max_message_size write_ledger_range_response_metadata_size)) a r ->
    log_step max_message_size a (Message (ledger_get_range from to purpose))
      (Reacted (Ok (Respond (write_ledger_get_range_response from to r purpose)))) a
| log_job job r : range_read (job_from job) (job_to job) (Some (job_max_size job)) a r ->
    log_step max_message_size a (RunJob job) (Answered (Ok (write_ledger_get_range_response (job_from job) (job_to job) r (job_purpose job)))) a
| log_crash n m k c : (k <= length (entries a))%nat -> c <= commit_point a -> c <= N.of_nat k ->
    log_step max_message_size a (Crash n m) (Restarted (Ok tt)) (mkLog (take k (entries a)) c).

Inductive log_run (max_message_size : N) : Log -> list Op -> list Answer -> Log -> Prop :=
| log_run_nil a : log_run max_message_size a [] [] a
| log_run_cons a op ans a1 ops answers a2 : log_step max_message_size a op ans a1 -> log_run max_message_size a1 ops answers a2 ->
    log_run max_message_size a (op :: ops) (ans :: answers) a2.

Section log.
Context `{DirectoryOrder} (max_message_size : N).

Definition exec (op : Op) (l : Ledger) : Answer * Ledger :=
  match op with
  | Message msg => let '(r, l) := handle max_message_size msg l in (Reacted r, l)
  | RunJob job => let '(r, l) := on_ledger_get_async job l in (Answered r, l)
  | Crash n m => let '(r, l) := recover (new_ledger (crashed n l) [] m) in (Restarted r, l)
  end.

Fixpoint exec_all (ops : list Op) (l : Ledger) : list Answer * Ledger :=
  match ops with
  | [] => ([], l)
  | op :: ops => let '(a, l) := exec op l in let '(answers, l) := exec_all ops l in (a :: answers, l)
  end.

Fixpoint allowed_all (ops : list Op) (l : Ledger) : bool :=
  match ops with
  | [] => true
  | op :: ops => allowed op l && allowed_all ops (exec op l).2
  end.

Definition empty_ledger (max_cache : N) : Ledger := new_ledger (mkDisk ∅ 0 ∅) [] max_cache.

Lemma empty_holds m : holds (empty_ledger m) (mkLog [] 0).
Proof. exists [], []. by constructor. Qed.
End log.

Section refinement.
Context `{DirectoryOrderLaws} (max_message_size : N).

Lemma holds_commit l a : holds l a -> commit_point a <= count (entries a) /\ end_of_committed_files_idx l <= commit_point a /\ last_idx l = count (entries a).
Proof.
  intros (cs & fs & Hg). pose proof (gd_committed _ _ _ _ Hg). rewrite (gd_entries _ _ _ _ Hg), (gd_commit _ _ _ _ Hg), <- (gd_last _ _ _ _ Hg).
  rewrite (iv_end _ _ _ (gd_inv _ _ _ _ Hg)). lia.
Qed.

(** No file is a recovery file. *)
Lemma complete_recovery_ok l a : holds l a -> exists l', complete_recovery l = (Ok tt, l') /\ holds l' a.
Proof.
  intros (cs & fs & Hg). pose proof (gd_inv _ _ _ _ Hg) as Hinv.
  assert (Forall (fun f => recovery f = false) (files l)) as Hrec.
  { apply Forall_lookup. intros i f Hi. destruct (Forall2_lookup_l _ _ _ _ _ (iv_open _ _ _ Hinv) Hi) as (x & _ & Hf). apply (oa_recovery _ _ _ Hf). }
  assert (forall gs l0, Forall (fun f => recovery f = false) gs -> complete_recovery_files gs l0 = (Ok gs, l0)) as Hfiles.
  { intros gs l0. induction 1 as [|g gs Hgr _ IH]; [done|]. cbn [complete_recovery_files]. rewrite Hgr. unfold bind. by rewrite IH. }
  unfold complete_recovery, bind, gets. rewrite Hfiles by done. eexists. split; [done|]. exists cs, fs.
  eapply good_same; [exact Hg| |done|done]. destruct Hinv. by constructor.
Qed.

Lemma get_range_ok from to purpose l a : holds l a ->
  exists a', log_step max_message_size a (Message (ledger_get_range from to purpose)) (exec max_message_size (Message (ledger_get_range from to purpose)) l).1 a' /\
    holds (exec max_message_size (Message (ledger_get_range from to purpose)) l).2 a'.
Proof.
  intros Hl. pose proof (holds_commit _ _ Hl) as (_ & Hend & _). exists a. cbn [exec handle]. unfold bind at 1 3, gets, is_in_committed_file.
  destruct (N.leb_spec to (end_of_committed_files_idx l)) as [Hle|_].
  - split; [|done]. apply log_queue. lia.
  - destruct (read_range_ok from to false (Some (u64_sub max_message_size write_ledger_range_response_metadata_size)) l a Hl) as (r & l' & Hrun & Hl' & Hr); [done|].
    unfold HostLedger.read_entries. rewrite (bind_ok _ _ _ _ _ Hrun). split; [|done]. by apply log_respond.
Qed.

Lemma exec_ok op l a : holds l a -> allowed op l = true ->
  exists a', log_step max_message_size a op (exec max_message_size op l).1 a' /\ holds (exec max_message_size op l).2 a'.
Proof.
  intros Hl Hal. pose proof (holds_commit _ _ Hl) as (_ & Hend & Hlast).
  destruct op as [[idx r|c e|idx r|idx| |from to purpose]|job|n m]; [done|..]; [| | | |by apply get_range_ok| |]; unfold exec, handle.
  - cbn [allowed] in Hal. apply andb_true_iff in Hal as [He%framedb_ok Hroom]. destruct (write_ok e c l a Hl Hroom He) as (l' & Hrun & Hl').
    exists (written e c a).2. pose proof (log_append max_message_size a c e) as Hstep. unfold bind. rewrite Hrun. by destruct (written e c a) as [[i|ex] a'].
  - cbn [allowed] in Hal. apply andb_true_iff in Hal as [Hz%negb_true_iff Hr%negb_true_iff]. apply N.eqb_neq in Hz. subst r.
    destruct (truncate_ok idx l a Hl) as (l' & Hrun & Hl'); [intros Heq; rewrite Heq in Hlast; done|].
    rewrite (bind_ok _ _ _ _ _ Hrun). eexists. split; [apply log_truncate|done].
  - destruct (commit_ok idx l a Hl) as (l' & Hrun & Hl'). rewrite (bind_ok _ _ _ _ _ Hrun). eexists. split; [apply log_commit|done].
  - destruct (complete_recovery_ok l a Hl) as (l' & Hrun & Hl'). rewrite (bind_ok _ _ _ _ _ Hrun). eexists. split; [apply log_open|done].
  - cbn [allowed] in Hal. apply N.leb_le in Hal. destruct (read_range_ok (job_from job) (job_to job) true (Some (job_max_size job)) l a Hl) as (r & l' & Hrun & Hl' & Hr); [done|].
    unfold on_ledger_get_async. rewrite (bind_ok _ _ _ _ _ Hrun). exists a. split; [by apply log_job|done].
  - destruct (recover_ok l a n m Hl) as (l' & -> & Hl'). eexists. split; [|exact Hl']. destruct (holds_commit _ _ Hl') as (Hc & _ & _). cbn [entries commit_point] in Hc.
    unfold count in Hc. rewrite length_take in Hc.
    replace (take (survivors n l) (entries a)) with (take (survivors n l `min` length (entries a)) (entries a)) in *.
    + apply log_crash; [lia|done|lia].
    + destruct (decide (survivors n l <= length (entries a))%nat); [by rewrite Nat.min_l|]. rewrite Nat.min_r by lia. by rewrite !take_ge by lia.
Qed.

Lemma exec_all_ok ops l a : holds l a -> allowed_all max_message_size ops l = true ->
  exists a', log_run max_message_size a ops (exec_all max_message_size ops l).1 a' /\ holds (exec_all max_message_size ops l).2 a'.
Proof.
  revert l a. induction ops as [|op ops IH]; intros l a Hl Hal; [exists a; split; [constructor|done]|].
  cbn [allowed_all exec_all] in *. apply andb_true_iff in Hal as [Hal1 Hal2]. destruct (exec_ok op l a Hl Hal1) as (a1 & Hstep & Hl1).
  destruct (exec max_message_size op l) as [ans l1]. cbn [fst snd] in *. destruct (IH l1 a1 Hl1 Hal2) as (a2 & Hrun & Hl2). exists a2.
  destruct (exec_all max_message_size ops l1) as [answers l2]. split; [by econstructor|done].
Qed.

(** C3. The host's ledger is a log. For the enclave's messages to append,
    truncate, commit and read, for reads that are queued and run later, and for
    crashes followed by recovery, in any order from an empty directory, every
    answer is the one a log gives, whichever chunk files the entries are in:
    an entry is appended, a truncation keeps the entries up to its index and
    never goes below the commit point, a read returns the bytes of the range
    (or of a part within the size limit), and recovery gives a prefix. Left out
    are truncations in recovery mode and of an empty ledger, entries that are not
    framed by their header, and chunks of more than 4 GB. *)
Theorem ledger_refines_log m ops : allowed_all max_message_size ops (empty_ledger m) = true ->
  exists a, log_run max_message_size (mkLog [] 0) ops (exec_all max_message_size ops (empty_ledger m)).1 a.
Proof. intros Hal. destruct (exec_all_ok ops _ _ (empty_holds m) Hal) as (a & Hrun & _). by exists a. Qed.

(** Reading one entry. *)
Lemma read_entry_ok l a i e : holds l a -> entries a !! i = Some e -> (read_entry (N.of_nat i + 1) l).1 = Ok (Some (mkReadResult e (N.of_nat i + 1))).
Proof.
  intros Hl He. pose proof (lookup_lt_Some _ _ _ He) as Hi.
  destruct (read_range_ok (N.of_nat i + 1) (N.of_nat i + 1) false None l a Hl) as (r & l' & Hrun & _ & Hr); [done|]. unfold read_entry. rewrite Hrun.
  cbn [fst]. destruct (N.eqb_spec (N.of_nat i + 1) 0); [lia|]. rewrite N.ltb_irrefl in Hr. cbn [orb] in Hr.
  replace (N.to_nat (N.of_nat i + 1) - 1)%nat with i in Hr by lia.
  replace (N.to_nat (N.min (N.of_nat i + 1) (count (entries a)))) with (S i) in Hr by (unfold count; lia).
  destruct r as [rr|]; cbn [log_read] in Hr; [|destruct Hr as [?|(? & _ & Hno)]; [lia|by destruct Hno]].
  destruct Hr as (k & Hk & _ & _ & ->). assert (k = S i) as -> by lia. do 3 f_equal; [|lia].
  unfold segment. rewrite (drop_S _ _ _ He). replace (S i - i)%nat with 1%nat by lia. cbn. apply app_nil_r.
Qed.

(** C13. Crash and recovery lose only what was not written out. After any
    operations, if the file that was being written to is left with its first
    [n] bytes, recovery succeeds, the ledger ends at the last entry that is
    within those bytes, each entry up to there is read back as it was, and what
    is in committed files is committed. *)
Theorem recovery_keeps_entries m ops n m' : allowed_all max_message_size ops (empty_ledger m) = true ->
  let l := (exec_all max_message_size ops (empty_ledger m)).2 in
  exists a l', log_run max_message_size (mkLog [] 0) ops (exec_all max_message_size ops (empty_ledger m)).1 a /\
    recover (new_ledger (crashed n l) [] m') = (Ok tt, l') /\
    last_idx l' = N.of_nat (survivors n l `min` length (entries a)) /\ committed_idx l' = end_of_committed_files_idx l /\
    forall i e, (i < survivors n l)%nat -> entries a !! i = Some e ->
      (read_entry (N.of_nat i + 1) l').1 = Ok (Some (mkReadResult e (N.of_nat i + 1))).
Proof.
  intros Hal l. destruct (exec_all_ok ops _ _ (empty_holds m) Hal) as (a & Hrun & Hl). fold l in Hl.
  destruct (recover_ok l a n m' Hl) as (l' & Hrec & Hl'). exists a, l'. split_and!; [done|done| | |].
  - destruct (holds_commit _ _ Hl') as (_ & _ & ->). cbn [entries]. unfold count. by rewrite length_take.
  - destruct Hl' as (cs & fs & Hg). by rewrite <- (gd_commit _ _ _ _ Hg).
  - intros i e Hi He. apply (read_entry_ok _ _ _ _ Hl'). cbn [entries]. by rewrite lookup_take_lt.
Qed.
End refinement.

(** ** Examples *)

#[local] Instance sorted_listing : DirectoryOrder := fun d => (map_to_list d).*1.
#[local] Instance sorted_listing_laws : DirectoryOrderLaws.
Proof. by intros d. Qed.

Definition sample (flags : N) (body : bytes) : bytes := (encode_header (mkHeader 1 flags (N.of_nat (length body))) ++ body)%list.

(** Two chunks are completed and one of them is committed; the node stops with
    the last entry half written. *)
Definition sample_ops : list Op :=
  [Message (ledger_append true (sample 0 [Byte.x01])); Message (ledger_append true (sample 1 [Byte.x02; Byte.x03]));
   Message (ledger_append true (sample 0 [Byte.x04])); Message (ledger_append false (sample 2 [])); Message (ledger_commit 2);
   Message (ledger_get_range 1 2 0); RunJob (mkJob 1 2 100 0); Message (ledger_truncate 3 false);
   Message (ledger_append true (sample 0 [Byte.x05])); Message (ledger_append false (sample 0 [Byte.x06]))].

Lemma ledger_refines_log_witness :
  allowed_all 4096 (sample_ops ++ [Crash 20 5; Message (ledger_get_range 2 9 0)]) (empty_ledger 5) = true /\
  exists a, log_run 4096 (mkLog [] 0) (sample_ops ++ [Crash 20 5; Message (ledger_get_range 2 9 0)])
    (exec_all 4096 (sample_ops ++ [Crash 20 5; Message (ledger_get_range 2 9 0)]) (empty_ledger 5)).1 a.
Proof.
  assert (allowed_all 4096 (sample_ops ++ [Crash 20 5; Message (ledger_get_range 2 9 0)]) (empty_ledger 5) = true) as Hal by vm_eq.
  split; [exact Hal|]. apply (ledger_refines_log 4096 5 _ Hal).
Defined.

Lemma recovery_keeps_entries_witness : survivors 20 (exec_all 4096 sample_ops (empty_ledger 5)).2 = 4%nat /\
  exists a l', log_run 4096 (mkLog [] 0) sample_ops (exec_all 4096 sample_ops (empty_ledger 5)).1 a /\
    recover (new_ledger (crashed 20 (exec_all 4096 sample_ops (empty_ledger 5)).2) [] 5) = (Ok tt, l').
Proof.
  split; [vm_eq|]. assert (allowed_all 4096 sample_ops (empty_ledger 5) = true) as Hal by vm_eq.
  destruct (recovery_keeps_entries 4096 5 sample_ops 20 5 Hal) as (a & l' & H1 & H2 & _). exists a, l'. split; [exact H1|exact H2].
Defined.
End HostLedgerLog.
