(* ===== verification/Channels.v ===== *)
(** * Channels between nodes

    [ccf::Channel] (src/node/channels.h) with [tls::KeyExchangeContext]
    (src/crypto/key_exchange.h): the key exchange between two nodes, and the
    messages they protect with the keys. Elliptic curves, signatures,
    certificates, key derivation and AES-GCM are a parameter, as are entropy
    and time. *)

From S2P Require Import Prelude LedgerEntries.
From Stdlib Require Strings.String Strings.Byte.

Module Channels.
Open Scope N_scope.
Open Scope m_scope.

(** The cryptography the channel calls. A key pair and a salt are drawn with the
    number of the draw; a public key is its raw point, a verifier is its
    certificate. *)
Class ChannelCrypto := {
  public_key_raw : N -> bytes;
  key_from_raw_ec_point : bytes -> option bytes;
  derive_shared_secret : N -> bytes -> bytes;
  random_salt : N -> bytes;
  hkdf : bytes -> bytes -> bytes -> bytes;
  gcm_encrypt : bytes -> bytes -> bytes -> bytes -> bytes * bytes;
  gcm_decrypt : bytes -> bytes -> bytes -> bytes -> bytes -> option bytes;
  sign : N -> bytes -> bytes;
  make_verifier : bytes -> result bytes;
  verify_certificate : bytes -> bytes -> bool;
  verify_signature : bytes -> bytes -> bytes -> bool;
}.

Inductive ChannelStatus := INACTIVE | INITIATED | WAITING_FOR_FINAL | ESTABLISHED.
#[global] Instance ChannelStatus_eq_dec : EqDecision ChannelStatus.
Proof. solve_decision. Defined.

Inductive NodeMsgType := channel_msg | consensus_msg | forwarded_msg.
Definition key_exchange_init : N := 0.
Definition key_exchange_response : N := 1.
Definition key_exchange_final : N := 2.

Record OutgoingMsg := mkOutgoing { msg_type : NodeMsgType; raw_aad : bytes; raw_plain : bytes }.

(** What is written to the host. *)
Inductive Outbound :=
| node_outbound (to : string) (type : NodeMsgType) (from : string) (payload : bytes)
| close_node_outbound (to : string)
| associate_node_address (peer hostname service : string).

Record KeyExchangeContext := mkKex { own_key : option N; peer_key : option bytes; shared_secret : bytes }.
Definition new_kex : KeyExchangeContext := mkKex None None [].

Record Channel := mkChannel {
  self : string;
  service_cert : bytes;
  node_kp : N;
  node_cert : bytes;
  peer_cv : option bytes;
  peer_cert : bytes;
  peer_id : string;
  kex_ctx : KeyExchangeContext;
  status : ChannelStatus;
  last_initiation_time : N;
  hkdf_salt : bytes;
  message_limit : N;
  recv_key : option bytes;
  send_key : option bytes;
  send_nonce : N;
  outgoing_consensus_msg : option OutgoingMsg;
  outgoing_forwarding_msgs : list OutgoingMsg;
  local_recv_nonce : N;
}.

Definition eta_Channel (c : Channel) :=
  mkChannel (self c) (service_cert c) (node_kp c) (node_cert c) (peer_cv c) (peer_cert c) (peer_id c) (kex_ctx c) (status c)
    (last_initiation_time c) (hkdf_salt c) (message_limit c) (recv_key c) (send_key c) (send_nonce c)
    (outgoing_consensus_msg c) (outgoing_forwarding_msgs c) (local_recv_nonce c).
Definition set_node_cert (v : bytes) (c : Channel) : Channel := ltac:(set_field eta_Channel (node_cert c) v c).
Definition set_peer_cv (v : option bytes) (c : Channel) : Channel := ltac:(set_field eta_Channel (peer_cv c) v c).
Definition set_peer_cert (v : bytes) (c : Channel) : Channel := ltac:(set_field eta_Channel (peer_cert c) v c).
Definition set_kex_ctx (v : KeyExchangeContext) (c : Channel) : Channel := ltac:(set_field eta_Channel (kex_ctx c) v c).
Definition set_status (v : ChannelStatus) (c : Channel) : Channel := ltac:(set_field eta_Channel (status c) v c).
Definition set_last_initiation_time (v : N) (c : Channel) : Channel := ltac:(set_field eta_Channel (last_initiation_time c) v c).
Definition set_hkdf_salt (v : bytes) (c : Channel) : Channel := ltac:(set_field eta_Channel (hkdf_salt c) v c).
Definition set_recv_key (v : option bytes) (c : Channel) : Channel := ltac:(set_field eta_Channel (recv_key c) v c).
Definition set_send_key (v : option bytes) (c : Channel) : Channel := ltac:(set_field eta_Channel (send_key c) v c).
Definition set_send_nonce (v : N) (c : Channel) : Channel := ltac:(set_field eta_Channel (send_nonce c) v c).
Definition set_outgoing_consensus_msg (v : option OutgoingMsg) (c : Channel) : Channel := ltac:(set_field eta_Channel (outgoing_consensus_msg c) v c).
Definition set_outgoing_forwarding_msgs (v : list OutgoingMsg) (c : Channel) : Channel := ltac:(set_field eta_Channel (outgoing_forwarding_msgs c) v c).
Definition set_local_recv_nonce (v : N) (c : Channel) : Channel := ltac:(set_field eta_Channel (local_recv_nonce c) v c).

(** A channel with what its node shares with it: the messages to the host, the
    number of draws from the entropy source, and the time in milliseconds. *)
Record World := mkWorld { chan : Channel; to_host : list Outbound; draws : N; clock : N }.

Definition upd (f : Channel -> Channel) : M World unit := modify (fun w => mkWorld (f (chan w)) (to_host w) (draws w) (clock w)).
Definition write_message (m : Outbound) : M World unit := modify (fun w => mkWorld (chan w) (to_host w ++ [m])%list (draws w) (clock w)).
Definition draw : M World N := fun w => (Ok (draws w), mkWorld (chan w) (to_host w) (draws w + 1) (clock w)).
Definition this : M World Channel := gets chan.

(** [WireNonce]: a zero byte and 56 bits. *)
Definition wire_nonce (nonce : N) : bytes := Byte.x00 :: le_split 7 nonce.
Definition get_wire_nonce (iv : bytes) : N := le_combine (drop 1 iv).

Definition append_value (v : N) (target : bytes) : bytes := (target ++ le_split 8 v)%list.
Definition append_buffer (src target : bytes) : bytes := (target ++ le_split 8 (N.of_nat (length src)) ++ src)%list.

(** [GcmHdr], with an IV of the size of a nonce. *)
Definition GCM_SIZE_TAG : N := 16.
Definition IV_SIZE : N := 8.
Record GcmHdr := mkGcmHdr { tag : bytes; iv : bytes }.
Definition gcm_serialised_size : N := GCM_SIZE_TAG + IV_SIZE.
Definition gcm_serialise (h : GcmHdr) : bytes := (tag h ++ iv h)%list.
Definition gcm_deserialise (data : bytes) : result (GcmHdr * bytes) :=
  r <~ read_block GCM_SIZE_TAG data ;;;
  r' <~ read_block IV_SIZE r.2 ;;;
  Ok (mkGcmHdr r.1 r'.1, r'.2).

Definition protocol_version : N := 1.
Definition outgoing_forwarding_queue_size : nat := 10.
Definition min_gap_between_initiation_attempts : N := 2000.

Definition extract_span (data : bytes) : result (bytes * bytes) :=
  match data with
  | [] => Ok ([], [])
  | _ =>
      r <~ read_int 8 data ;;;
      if N.of_nat (length r.2) <? r.1 then Ok ([], r.2)
      else Ok (take (N.to_nat r.1) r.2, drop (N.to_nat r.1) r.2)
  end.

Definition bytes_of (s : string) : bytes := String.list_byte_of_string s.

Section channel.
Context `{ChannelCrypto}.

(** ** KeyExchangeContext *)

Definition reset_kex : M World unit := upd (set_kex_ctx new_kex).

(** A raw point with its size in front. *)
Definition key_share (raw : bytes) : bytes := byte_of (N.of_nat (length raw)) :: raw.

(** [own_key], made if it is missing. *)
Definition get_own_key : M World N :=
  c <- this ;;;
  match own_key (kex_ctx c) with
  | Some k => ret k
  | None =>
      k <- draw ;;;
      upd (set_kex_ctx (mkKex (Some k) (peer_key (kex_ctx c)) [])) ;;;
      ret k
  end.

Definition get_own_key_share : M World bytes := k <- get_own_key ;;; ret (key_share (public_key_raw k)).

Definition get_peer_key_share : M World bytes :=
  c <- this ;;;
  match peer_key (kex_ctx c) with
  | None => throw (RuntimeError "Cannot get peer key - missing peer key")
  | Some k => ret (key_share k)
  end.

Definition load_peer_key_share (ks : bytes) : M World unit :=
  match ks with
  | [] => throw (RuntimeError "Provided peer key share is empty")
  | _ :: raw =>
      match key_from_raw_ec_point raw with
      | None => throw (RuntimeError "Failed to parse peer key share")
      | Some k => upd (fun c => set_kex_ctx (mkKex (own_key (kex_ctx c)) (Some k) []) c)
      end
  end.

Definition get_shared_secret : M World bytes :=
  c <- this ;;;
  match shared_secret (kex_ctx c) with
  | [] =>
      k <- get_own_key ;;;
      match peer_key (kex_ctx c) with
      | None => throw (LogicError "Cannot compute shared secret - missing peer key")
      | Some p =>
          let secret := derive_shared_secret k p in
          upd (fun c => set_kex_ctx (mkKex (own_key (kex_ctx c)) (peer_key (kex_ctx c)) secret) c) ;;;
          ret secret
      end
  | secret => ret secret
  end.

(** ** Key exchange: sending *)

Definition send_channel_msg (payload : bytes) : M World unit :=
  c <- this ;;; write_message (node_outbound (peer_id c) channel_msg (self c) payload).

Definition send_key_exchange_init : M World unit :=
  ks <- get_own_key_share ;;;
  c <- this ;;;
  send_channel_msg (append_buffer (hkdf_salt c) (append_buffer (node_cert c) (append_buffer (sign (node_kp c) ks)
    (append_buffer ks (append_value protocol_version (append_value key_exchange_init [])))))).

Definition send_key_exchange_response : M World unit :=
  ks <- get_own_key_share ;;;
  peer_ks <- get_peer_key_share ;;;
  c <- this ;;;
  let signature := sign (node_kp c) (ks ++ peer_ks)%list in
  send_channel_msg (append_buffer (node_cert c) (append_buffer signature
    (append_buffer ks (append_value protocol_version (append_value key_exchange_response []))))).

Definition send_key_exchange_final : M World unit :=
  peer_ks <- get_peer_key_share ;;;
  c <- this ;;;
  send_channel_msg (append_buffer (sign (node_kp c) peer_ks) (append_value key_exchange_final [])).

(** [get_entropy()->random(salt_len)] *)
Definition new_salt : M World unit := n <- draw ;;; upd (set_hkdf_salt (random_salt n)).

Definition forget_peer : M World unit := upd (set_peer_cert []) ;;; upd (set_peer_cv None).

Definition initiate : M World unit :=
  reset_kex ;;;
  forget_peer ;;;
  new_salt ;;;
  upd (set_status INITIATED) ;;;
  t <- gets clock ;;;
  upd (set_last_initiation_time t) ;;;
  send_key_exchange_init.

Definition reset_key_exchange : M World unit :=
  upd (set_status INACTIVE) ;;;
  reset_kex ;;;
  forget_peer ;;;
  new_salt.

Definition advance_connection_attempt : M World unit :=
  w <- gets (fun w => w) ;;;
  match status (chan w) with
  | INACTIVE => initiate
  | INITIATED =>
      if (Z.of_N min_gap_between_initiation_attempts <=? Z.of_N (clock w) - Z.of_N (last_initiation_time (chan w)))%Z
      then initiate else ret tt
  | _ => ret tt
  end.

Definition check_message_limit : M World unit :=
  c <- this ;;;
  let lower_limit := message_limit c / 2 in
  let num_messages := (send_nonce c + local_recv_nonce c) mod 2 ^ 64 in
  if (lower_limit <=? num_messages) && bool_decide (status c = ESTABLISHED) then
    reset_key_exchange ;;; initiate
  else if message_limit c <=? num_messages then
    upd (set_send_key None) ;;;
    upd (set_send_nonce 0) ;;;
    upd (set_recv_key None) ;;;
    upd (set_local_recv_nonce 0) ;;;
    reset_key_exchange ;;;
    initiate
  else ret tt.

(** ** Keys *)

Definition derive_key (label : string) : M World bytes :=
  secret <- get_shared_secret ;;;
  c <- this ;;;
  ret (hkdf secret (hkdf_salt c) (bytes_of label)).

Definition update_send_key : M World unit :=
  c <- this ;;;
  k <- derive_key (String.append (self c) (peer_id c)) ;;;
  upd (set_send_key (Some k)) ;;;
  upd (set_send_nonce 1).

Definition update_recv_key : M World unit :=
  c <- this ;;;
  k <- derive_key (String.append (peer_id c) (self c)) ;;;
  upd (set_recv_key (Some k)) ;;;
  upd (set_local_recv_nonce 0).

Definition establish : M World unit :=
  upd (set_status ESTABLISHED) ;;;
  reset_kex ;;;
  c <- this ;;;
  _ <- lift (make_verifier (node_cert c)) ;;;
  ret tt.

(** ** Sending *)

(** A message that cannot be sent yet is kept. *)
Definition queue_message (type : NodeMsgType) (aad plain : bytes) : M World bool :=
  match type with
  | consensus_msg => upd (set_outgoing_consensus_msg (Some (mkOutgoing type aad plain))) ;;; ret true
  | forwarded_msg =>
      c <- this ;;;
      if (length (outgoing_forwarding_msgs c) <? outgoing_forwarding_queue_size)%nat
      then upd (set_outgoing_forwarding_msgs (outgoing_forwarding_msgs c ++ [mkOutgoing type aad plain])%list) ;;; ret true
      else ret false
  | channel_msg => ret false
  end.

Definition send_unsafe (type : NodeMsgType) (aad plain : bytes) : M World bool :=
  c <- this ;;;
  match send_key c with
  | None => advance_connection_attempt ;;; queue_message type aad plain
  | Some key =>
      let nonce := send_nonce c in
      upd (set_send_nonce ((nonce + 1) mod 2 ^ 64)) ;;;
      let hdr_iv := wire_nonce nonce in
      let '(cipher, hdr_tag) := gcm_encrypt key hdr_iv plain aad in
      write_message (node_outbound (peer_id c) type (self c) (aad ++ gcm_serialise (mkGcmHdr hdr_tag hdr_iv) ++ cipher)%list) ;;;
      check_message_limit ;;;
      ret true
  end.

Definition send_again (m : OutgoingMsg) : M World unit := send_unsafe (msg_type m) (raw_aad m) (raw_plain m) ;;; ret tt.

(** The loop goes over the messages there are when it starts. *)
Definition flush_pending_outgoing : M World unit :=
  c <- this ;;;
  match outgoing_consensus_msg c with
  | Some m => send_again m ;;; upd (set_outgoing_consensus_msg None)
  | None => ret tt
  end ;;;
  c <- this ;;;
  for_each send_again (outgoing_forwarding_msgs c) ;;;
  upd (set_outgoing_forwarding_msgs []).

(** ** Key exchange: receiving *)

Definition verify_peer_certificate (pc : bytes) : M World (option bytes) :=
  match pc with
  | [] => ret None
  | _ =>
      verifier <- lift (make_verifier pc) ;;;
      c <- this ;;;
      if verify_certificate (service_cert c) verifier then ret (Some verifier) else ret None
  end.

Definition verify_peer_signature (msg sig : bytes) (verifier : option bytes) : bool :=
  match verifier with Some v => verify_signature v msg sig | None => false end.

(** The fields of a message, each of which must not be empty; nothing may
    follow them. *)
Fixpoint extract_fields (n : nat) (data : bytes) : result (option (list bytes * bytes)) :=
  match n with
  | O => Ok (Some ([], data))
  | S n =>
      r <~ extract_span data ;;;
      match r.1 with
      | [] => Ok None
      | field =>
          rest <~ extract_fields n r.2 ;;;
          Ok ((fun p => (field :: p.1, p.2)) <$> rest)
      end
  end.

Definition accept_init (cert verifier ks salt : bytes) : M World bool :=
  c <- this ;;;
  when (bool_decide (status c = ESTABLISHED)) reset_kex ;;;
  upd (set_peer_cert cert) ;;;
  upd (set_peer_cv (Some verifier)) ;;;
  upd (set_hkdf_salt salt) ;;;
  load_peer_key_share ks ;;;
  update_send_key ;;;
  upd (set_status WAITING_FOR_FINAL) ;;;
  send_key_exchange_response ;;;
  flush_pending_outgoing ;;;
  ret true.

Definition recv_key_exchange_init (data : bytes) (they_have_priority : bool) : M World bool :=
  r <- lift (read_int 8 data) ;;;
  if negb (r.1 =? protocol_version) then ret false
  else
    f <- lift (extract_fields 4 r.2) ;;;
    match f with
    | Some ([ks; sig; pc; salt], []) =>
        verifier <- verify_peer_certificate pc ;;;
        match verifier with
        | None => ret false
        | Some v =>
            if negb (verify_peer_signature ks sig verifier) then ret false
            else
              c <- this ;;;
              if bool_decide (status c = INITIATED) && negb they_have_priority then ret true
              else accept_init pc v ks salt
        end
    | _ => ret false
    end.

Definition accept_response (cert verifier ks : bytes) : M World bool :=
  upd (set_peer_cert cert) ;;;
  upd (set_peer_cv (Some verifier)) ;;;
  load_peer_key_share ks ;;;
  update_send_key ;;;
  send_key_exchange_final ;;;
  flush_pending_outgoing ;;;
  update_recv_key ;;;
  establish ;;;
  ret true.

Definition recv_key_exchange_response (data : bytes) : M World bool :=
  c <- this ;;;
  if negb (bool_decide (status c = INITIATED)) then ret false
  else
    r <- lift (read_int 8 data) ;;;
    if negb (r.1 =? protocol_version) then ret false
    else
      f <- lift (extract_fields 3 r.2) ;;;
      match f with
      | Some ([ks; sig; pc], []) =>
          verifier <- verify_peer_certificate pc ;;;
          match verifier with
          | None => ret false
          | Some v =>
              oks <- get_own_key_share ;;;
              if negb (verify_peer_signature (ks ++ oks)%list sig verifier) then ret false
              else accept_response pc v ks
          end
      | _ => ret false
      end.

Definition recv_key_exchange_final (data : bytes) : M World bool :=
  c <- this ;;;
  if negb (bool_decide (status c = WAITING_FOR_FINAL)) then ret false
  else
    r <- lift (extract_span data) ;;;
    match r.1 with
    | [] => ret false
    | sig =>
        oks <- get_own_key_share ;;;
        c <- this ;;;
        if negb (verify_peer_signature oks sig (peer_cv c)) then ret false
        else update_recv_key ;;; establish ;;; ret true
    end.

(** Any exception is caught. *)
Definition recv_key_exchange_message (data : bytes) : M World bool := fun w =>
  match
    (r <- lift (read_int 8 data) ;;;
     c <- this ;;;
     if r.1 =? key_exchange_init then recv_key_exchange_init r.2 (String.ltb (self c) (peer_id c))
     else if r.1 =? key_exchange_response then recv_key_exchange_response r.2
     else if r.1 =? key_exchange_final then recv_key_exchange_final r.2
     else throw (RuntimeError "not recognised as a key exchange message")) w
  with
  | (Throw _, w) => (Ok false, w)
  | r => r
  end.

(** ** Receiving *)

Definition decrypt (header : GcmHdr) (aad cipher : bytes) : M World (option bytes) :=
  c <- this ;;;
  match recv_key c with
  | None => throw (LogicError "Tried to decrypt, but have no receive key")
  | Some key =>
      let recv_nonce := get_wire_nonce (iv header) in
      if recv_nonce <=? local_recv_nonce c then ret None
      else
        let plain := gcm_decrypt key (iv header) (tag header) cipher aad in
        when (bool_decide (is_Some plain)) (upd (set_local_recv_nonce recv_nonce)) ;;;
        check_message_limit ;;;
        ret plain
  end.

(** Without a receive key nothing is received, and an attempt is made to
    connect. *)
Definition with_recv_key {A} (none : A) (m : M World A) : M World A :=
  c <- this ;;;
  match recv_key c with
  | None => advance_connection_attempt ;;; ret none
  | Some _ => m
  end.

(** [verify], and the data that is left. *)
Definition recv_authenticated (aad data : bytes) : M World (option bytes) :=
  with_recv_key None
    (r <- lift (gcm_deserialise data) ;;;
     p <- decrypt r.1 aad [] ;;;
     ret (match p with Some _ => Some r.2 | None => None end)).

Definition recv_authenticated_with_load (data : bytes) : M World (option bytes) :=
  with_recv_key None
    (rest <- lift (skip (u64_sub (N.of_nat (length data)) gcm_serialised_size) data) ;;;
     r <- lift (gcm_deserialise rest) ;;;
     let aad := take (length data - N.to_nat gcm_serialised_size) data in
     p <- decrypt r.1 aad [] ;;;
     ret (match p with Some _ => Some aad | None => None end)).

Definition recv_encrypted (aad data : bytes) : M World (option bytes) :=
  with_recv_key None
    (r <- lift (gcm_deserialise data) ;;;
     decrypt r.1 aad r.2).

Definition channel_open (c : Channel) : bool := bool_decide (is_Some (recv_key c)) && bool_decide (is_Some (send_key c)).

Definition close_channel : M World unit :=
  c <- this ;;;
  write_message (close_node_outbound (peer_id c)) ;;;
  reset_key_exchange ;;;
  upd (set_outgoing_consensus_msg None) ;;;
  upd (set_recv_key None) ;;;
  upd (set_send_key None).

(** The constructor, with the number of the draw for its salt. *)
Definition new_channel (service_cert_ : bytes) (node_kp_ : N) (node_cert_ : bytes) (self_ peer_id_ : string) (message_limit_ : N) (salt : N) : Channel :=
  mkChannel self_ service_cert_ node_kp_ node_cert_ None [] peer_id_ new_kex INACTIVE 0 (random_salt salt) message_limit_
    None None 1 None [] 0.
End channel.
End Channels.
