(* ===== verification/ChannelsSpec.v ===== *)
(** * Channels between nodes: proofs

    The key exchange ends with both nodes holding the same two keys, and the
    messages one node accepts under a key are, in order and each at most once,
    those the other has sent. A replayed first message of the key exchange
    makes a node use a key and nonce again. *)

From S2P Require Import Prelude LedgerEntries Channels.
From Stdlib Require Strings.String Strings.Byte.

Module ChannelsSpec.
Import Channels.
Open Scope N_scope.
Open Scope m_scope.

#[local] Arguments le_split : simpl never.
#[local] Arguments append_buffer : simpl never.
#[local] Arguments append_value : simpl never.
#[local] Arguments key_share : simpl never.
#[local] Arguments wire_nonce : simpl never.

(** What the code relies on. *)
Class ChannelCryptoLaws `{ChannelCrypto} := {
  parse_point k : key_from_raw_ec_point (public_key_raw k) = Some (public_key_raw k);
  point_size k : N.of_nat (length (public_key_raw k)) + 1 < 2 ^ 64;
  shared_secret_agrees a b : derive_shared_secret a (public_key_raw b) = derive_shared_secret b (public_key_raw a);
  salt_size n : 0 < N.of_nat (length (random_salt n)) < 2 ^ 64;
  tag_size k iv plain aad : N.of_nat (length (gcm_encrypt k iv plain aad).2) = GCM_SIZE_TAG;
  decrypt_encrypt k iv plain aad : gcm_decrypt k iv (gcm_encrypt k iv plain aad).2 (gcm_encrypt k iv plain aad).1 aad = Some plain;
}.

Lemma wire_nonce_get n : n < 2 ^ 56 -> get_wire_nonce (wire_nonce n) = n.
Proof. intros Hn. unfold get_wire_nonce, wire_nonce.
  assert (drop 1 (Byte.x00 :: le_split 7 n) = le_split 7 n) as -> by done. rewrite le_combine_split. by apply N.mod_small. Qed.

(** ** Fields of a message *)

Definition field (b : bytes) : bytes := (le_split 8 (N.of_nat (length b)) ++ b)%list.
Definition small (b : bytes) : Prop := 0 < N.of_nat (length b) < 2 ^ 64.

Lemma extract_span_field b rest : small b -> extract_span (field b ++ rest) = Ok (b, rest).
Proof.
  intros [H1 H2]. unfold extract_span, field. rewrite <- app_assoc.
  destruct (le_split 8 (N.of_nat (length b)) ++ b ++ rest) eqn:Heq.
  { apply (f_equal length) in Heq. rewrite length_app, length_le_split in Heq. simpl in Heq. lia. }
  rewrite <- Heq. rewrite read_int_app by done. cbn [rbind fst snd]. rewrite length_app.
  destruct (N.ltb_spec (N.of_nat (length b + length rest)) (N.of_nat (length b))); [lia|].
  by rewrite Nat2N.id, take_app_length, drop_app_length.
Qed.

Lemma extract_fields_app fs rest : Forall small fs ->
  extract_fields (length fs) (concat (field <$> fs) ++ rest) = Ok (Some (fs, rest)).
Proof.
  induction 1 as [|b fs Hb _ IH]; [done|]. cbn [length extract_fields fmap list_fmap concat]. rewrite <- app_assoc, extract_span_field by done.
  cbn [rbind fst snd]. destruct b as [|x b]; [destruct Hb; simpl in *; lia|]. rewrite IH. done.
Qed.

Lemma extract_fields_all fs : Forall small fs -> extract_fields (length fs) (concat (field <$> fs)) = Ok (Some (fs, [])).
Proof. intros Hs. rewrite <- (app_nil_r (concat (field <$> fs))). by apply extract_fields_app. Qed.

Definition init_payload (ks sig cert salt : bytes) : bytes :=
  (le_split 8 key_exchange_init ++ le_split 8 protocol_version ++ concat (field <$> [ks; sig; cert; salt]))%list.
Definition response_payload (ks sig cert : bytes) : bytes :=
  (le_split 8 key_exchange_response ++ le_split 8 protocol_version ++ concat (field <$> [ks; sig; cert]))%list.
Definition final_payload (sig : bytes) : bytes := (le_split 8 key_exchange_final ++ field sig)%list.

Lemma init_appended ks sig cert salt :
  append_buffer salt (append_buffer cert (append_buffer sig (append_buffer ks (append_value protocol_version (append_value key_exchange_init []))))) =
  init_payload ks sig cert salt.
Proof. unfold init_payload, append_buffer, append_value, field. cbn [fmap list_fmap concat app]. by rewrite app_nil_r, <- !app_assoc. Qed.

Lemma response_appended ks sig cert :
  append_buffer cert (append_buffer sig (append_buffer ks (append_value protocol_version (append_value key_exchange_response [])))) =
  response_payload ks sig cert.
Proof. unfold response_payload, append_buffer, append_value, field. cbn [fmap list_fmap concat app]. by rewrite app_nil_r, <- !app_assoc. Qed.

Section spec.
Context `{ChannelCryptoLaws}.

(** ** Sending *)

(** A message under a key and a nonce. *)
Definition sealed (key : bytes) (nonce : N) (c : Channel) (m : OutgoingMsg) : Outbound :=
  let r := gcm_encrypt key (wire_nonce nonce) (raw_plain m) (raw_aad m) in
  node_outbound (peer_id c) (msg_type m) (self c) (raw_aad m ++ gcm_serialise (mkGcmHdr r.2 (wire_nonce nonce)) ++ r.1)%list.

Definition emit (ms : list Outbound) (w : World) : World := mkWorld (chan w) (to_host w ++ ms)%list (draws w) (clock w).
Definition with_chan (f : Channel -> Channel) (w : World) : World := mkWorld (f (chan w)) (to_host w) (draws w) (clock w).

Definition drawn (w : World) : World := mkWorld (chan w) (to_host w) (draws w + 1) (clock w).

(** *** Running code *)

Lemma bind_bind {A B C} (m : M World A) (f : A -> M World B) (k : B -> M World C) w : bind (bind m f) k w = bind m (fun x => bind (f x) k) w.
Proof. unfold bind. by destruct (m w) as [[]]. Qed.

Lemma bind_ret {A B} (a : A) (k : A -> M World B) w : bind (ret a) k w = k a w.
Proof. done. Qed.

Lemma bind_upd {B} f (k : unit -> M World B) w : bind (upd f) k w = k tt (with_chan f w).
Proof. done. Qed.

Lemma bind_write {B} m (k : unit -> M World B) w : bind (write_message m) k w = k tt (emit [m] w).
Proof. done. Qed.

Lemma bind_draw {B} (k : N -> M World B) w : bind draw k w = k (draws w) (drawn w).
Proof. done. Qed.

Lemma bind_this {B} (k : Channel -> M World B) w : bind this k w = k (chan w) w.
Proof. done. Qed.

Lemma bind_gets {A B} (f : World -> A) (k : A -> M World B) w : bind (gets f) k w = k (f w) w.
Proof. done. Qed.

Lemma bind_pure {A B} (a : A) (k : A -> M World B) w : bind (fun s => (Ok a, s)) k w = k a w.
Proof. done. Qed.

Lemma upd_eq f w : upd f w = (Ok tt, with_chan f w).
Proof. done. Qed.

Lemma write_eq m w : write_message m w = (Ok tt, emit [m] w).
Proof. done. Qed.

Lemma with_chan_with_chan f g w : with_chan f (with_chan g w) = with_chan (fun c => f (g c)) w.
Proof. done. Qed.

Ltac run := repeat (first
  [ rewrite bind_bind | rewrite bind_ret | rewrite bind_upd | rewrite bind_write | rewrite bind_draw | rewrite bind_this | rewrite bind_gets ]; cbv beta).

(** The limits are not reached by [n] more messages. *)
Definition below_limit (n : N) (c : Channel) : Prop :=
  send_nonce c + local_recv_nonce c + n < message_limit c /\ message_limit c < 2 ^ 64 /\
  (status c = ESTABLISHED -> send_nonce c + local_recv_nonce c + n < message_limit c / 2).

Lemma check_message_limit_ok w : below_limit 0 (chan w) -> check_message_limit w = (Ok tt, w).
Proof.
  intros (H1 & H2 & H3). unfold check_message_limit, bind, this, gets. rewrite N.mod_small by lia.
  destruct (N.leb_spec (message_limit (chan w)) (send_nonce (chan w) + local_recv_nonce (chan w))); [lia|].
  destruct (N.leb_spec (message_limit (chan w) / 2) (send_nonce (chan w) + local_recv_nonce (chan w))); [|done].
  case_bool_decide as He; [specialize (H3 He); lia|done].
Qed.

Lemma send_ok w key type aad plain : send_key (chan w) = Some key -> below_limit 1 (chan w) ->
  send_unsafe type aad plain w =
    (Ok true, emit [sealed key (send_nonce (chan w)) (chan w) (mkOutgoing type aad plain)]
                (with_chan (set_send_nonce (send_nonce (chan w) + 1)) w)).
Proof.
  intros Hk (H1 & H2 & H3). unfold send_unsafe, bind at 1, this, gets. rewrite Hk. unfold sealed. cbn [raw_plain raw_aad msg_type].
  destruct (gcm_encrypt key (wire_nonce (send_nonce (chan w))) plain aad) as [cipher hdr_tag].
  unfold bind at 1, upd, modify. unfold bind at 1, write_message, modify. cbn [chan to_host draws clock].
  rewrite N.mod_small by lia. unfold bind at 1. rewrite check_message_limit_ok; [done|].
  split_and!; cbn [chan set_send_nonce send_nonce local_recv_nonce message_limit status]; [lia|lia|]. intros He. specialize (H3 He). lia.
Qed.

(** What is waiting to be sent, and what is sent of it. *)
Definition pending (c : Channel) : list OutgoingMsg := (match outgoing_consensus_msg c with Some m => [m] | None => [] end ++ outgoing_forwarding_msgs c)%list.
Fixpoint sealed_all (key : bytes) (nonce : N) (c : Channel) (ms : list OutgoingMsg) : list Outbound :=
  match ms with
  | [] => []
  | m :: ms => sealed key nonce c m :: sealed_all key (nonce + 1) c ms
  end.

Lemma sealed_all_app key nonce c ms1 ms2 :
  sealed_all key nonce c (ms1 ++ ms2) = (sealed_all key nonce c ms1 ++ sealed_all key (nonce + N.of_nat (length ms1)) c ms2)%list.
Proof.
  revert nonce. induction ms1 as [|m ms1 IH]; intros nonce; cbn [app sealed_all length]; [by rewrite N.add_0_r|]. rewrite IH. do 3 f_equal. lia.
Qed.

Lemma sealed_same key nonce c c' m : peer_id c' = peer_id c -> self c' = self c -> sealed key nonce c' m = sealed key nonce c m.
Proof. intros E1 E2. unfold sealed. by rewrite E1, E2. Qed.

Lemma sealed_all_same key nonce c c' ms : peer_id c' = peer_id c -> self c' = self c -> sealed_all key nonce c' ms = sealed_all key nonce c ms.
Proof. intros E1 E2. revert nonce. induction ms as [|m ms IH]; intros nonce; cbn [sealed_all]; [done|]. rewrite IH. by rewrite (sealed_same key nonce c c' m). Qed.

Lemma emit_app ms1 ms2 w : emit ms2 (emit ms1 w) = emit (ms1 ++ ms2) w.
Proof. unfold emit. cbn. by rewrite app_assoc. Qed.

Lemma send_all_ok key ms w : send_key (chan w) = Some key -> below_limit (N.of_nat (length ms)) (chan w) ->
  for_each send_again ms w =
    (Ok tt, emit (sealed_all key (send_nonce (chan w)) (chan w) ms) (with_chan (set_send_nonce (send_nonce (chan w) + N.of_nat (length ms))) w)).
Proof.
  revert w. induction ms as [|m ms IH]; intros w Hk Hlim.
  - cbn [for_each sealed_all length]. rewrite N.add_0_r. unfold emit, with_chan. rewrite app_nil_r. destruct w as [c h d t]. by destruct c.
  - cbn [for_each]. unfold send_again at 1. destruct Hlim as (L1 & L2 & L3). cbn [length] in *.
    rewrite (bind_ok _ _ w tt (emit [sealed key (send_nonce (chan w)) (chan w) m] (with_chan (set_send_nonce (send_nonce (chan w) + 1)) w))).
    + rewrite IH; [|done|].
      * f_equal. cbn [sealed_all]. unfold emit, with_chan. cbn [chan to_host draws clock set_send_nonce send_nonce]. rewrite <- app_assoc. f_equal.
        -- unfold set_send_nonce. cbn. f_equal. lia.
        -- cbn [app]. do 2 f_equal. by apply sealed_all_same.
      * split_and!; cbn [emit with_chan chan set_send_nonce send_nonce local_recv_nonce message_limit status]; [lia|lia|]. intros He. specialize (L3 He). lia.
    + unfold bind. rewrite (send_ok w key) by (done || (split_and!; [lia|lia|intros He; specialize (L3 He); lia])). by destruct m.
Qed.

Definition flushed (c : Channel) : Channel :=
  set_outgoing_forwarding_msgs [] (set_outgoing_consensus_msg None (set_send_nonce (send_nonce c + N.of_nat (length (pending c))) c)).

Lemma flush_ok key w : send_key (chan w) = Some key -> below_limit (N.of_nat (length (pending (chan w)))) (chan w) ->
  flush_pending_outgoing w = (Ok tt, emit (sealed_all key (send_nonce (chan w)) (chan w) (pending (chan w))) (with_chan flushed w)).
Proof.
  intros Hk Hlim. unfold flush_pending_outgoing, pending in *. unfold bind at 1, this, gets.
  destruct (outgoing_consensus_msg (chan w)) as [m|] eqn:Hm; cbn [app length] in *.
  - destruct Hlim as (L1 & L2 & L3).
    set (w1 := emit [sealed key (send_nonce (chan w)) (chan w) m] (with_chan (fun c => set_outgoing_consensus_msg None (set_send_nonce (send_nonce (chan w) + 1) c)) w)).
    rewrite (bind_ok _ _ w tt w1).
    2:{ unfold bind. unfold send_again, bind. rewrite (send_ok w key) by (done || (split_and!; [lia|lia|intros He; specialize (L3 He); lia])). by destruct m. }
    unfold bind at 1. cbn [chan w1 emit with_chan set_outgoing_consensus_msg set_send_nonce outgoing_forwarding_msgs].
    rewrite (bind_ok _ _ _ _ _ (send_all_ok key (outgoing_forwarding_msgs (chan w)) w1 Hk
      ltac:(split_and!; cbn; [lia|lia|intros He; specialize (L3 He); lia]))).
    unfold upd, modify. f_equal. unfold w1, emit, with_chan, flushed, pending. rewrite Hm.
    cbn [chan to_host draws clock send_nonce set_send_nonce set_outgoing_consensus_msg app length sealed_all]. rewrite <- app_assoc. cbn [app]. f_equal.
    + unfold set_outgoing_forwarding_msgs, set_outgoing_consensus_msg, set_send_nonce. cbn. f_equal. lia.
    + do 2 f_equal. by apply sealed_all_same.
  - rewrite (bind_ok _ _ w tt w) by done. unfold bind at 1. rewrite (bind_ok _ _ _ _ _ (send_all_ok key _ w Hk Hlim)).
    unfold upd, modify. f_equal. unfold emit, with_chan, flushed, pending. rewrite Hm. cbn. destruct (chan w). cbn in *. by subst.
Qed.

(** ** The key exchange *)

(** *** Keys *)

Definition own_share (k : N) : bytes := key_share (public_key_raw k).
Definition session_key (k ka : N) (salt : bytes) (label : string) : bytes :=
  hkdf (derive_shared_secret k (public_key_raw ka)) salt (bytes_of label).

(** The key exchange is between own key [k] and peer key [ka]. *)
Definition kex_between (k ka : N) (x : KeyExchangeContext) : Prop :=
  own_key x = Some k /\ peer_key x = Some (public_key_raw ka) /\
  (shared_secret x = [] \/ shared_secret x = derive_shared_secret k (public_key_raw ka)).
Definition kex_done (k ka : N) : KeyExchangeContext :=
  mkKex (Some k) (Some (public_key_raw ka)) (derive_shared_secret k (public_key_raw ka)).

Lemma kex_done_between k ka : kex_between k ka (kex_done k ka).
Proof. split_and!; [done|done|by right]. Qed.

Lemma own_key_ok k w : own_key (kex_ctx (chan w)) = Some k -> get_own_key w = (Ok k, w).
Proof. intros Hk. unfold get_own_key, bind, this, gets. by rewrite Hk. Qed.

Lemma own_share_ok k w : own_key (kex_ctx (chan w)) = Some k -> get_own_key_share w = (Ok (own_share k), w).
Proof. intros Hk. unfold get_own_key_share. by rewrite (bind_ok _ _ _ _ _ (own_key_ok k w Hk)). Qed.

Lemma peer_share_ok ka w : peer_key (kex_ctx (chan w)) = Some (public_key_raw ka) -> get_peer_key_share w = (Ok (own_share ka), w).
Proof. intros Hk. unfold get_peer_key_share, bind, this, gets. by rewrite Hk. Qed.

Lemma derive_key_ok k ka label w : kex_between k ka (kex_ctx (chan w)) ->
  derive_key label w = (Ok (session_key k ka (hkdf_salt (chan w)) label), with_chan (set_kex_ctx (kex_done k ka)) w).
Proof.
  intros (Hk & Hp & Hs). unfold derive_key, get_shared_secret, bind, this, gets.
  assert (forall w', w' = w -> get_own_key w' = (Ok k, w)) as Hown by (intros w' ->; by apply own_key_ok).
  unfold session_key. destruct (kex_ctx (chan w)) as [ok pk ss] eqn:Hkex. cbn [own_key peer_key shared_secret] in *. subst ok pk.
  destruct ss as [|b ss].
  - rewrite Hown by done. unfold upd, modify, with_chan, kex_done. cbn [chan]. rewrite Hkex. done.
  - destruct Hs as [?|Hs]; [done|]. unfold with_chan, kex_done, ret. rewrite Hs. f_equal. destruct w as [c h d t]. cbn in *. rewrite <- Hs, <- Hkex. by destruct c.
Qed.

Lemma update_send_key_ok k ka w : kex_between k ka (kex_ctx (chan w)) ->
  update_send_key w = (Ok tt, with_chan (fun c => set_send_nonce 1 (set_send_key
    (Some (session_key k ka (hkdf_salt c) (String.append (self c) (peer_id c)))) (set_kex_ctx (kex_done k ka) c))) w).
Proof.
  intros Hk. unfold update_send_key, bind at 1, this, gets. by rewrite (bind_ok _ _ _ _ _ (derive_key_ok k ka _ w Hk)).
Qed.

Lemma update_recv_key_ok k ka w : kex_between k ka (kex_ctx (chan w)) ->
  update_recv_key w = (Ok tt, with_chan (fun c => set_local_recv_nonce 0 (set_recv_key
    (Some (session_key k ka (hkdf_salt c) (String.append (peer_id c) (self c)))) (set_kex_ctx (kex_done k ka) c))) w).
Proof.
  intros Hk. unfold update_recv_key, bind at 1, this, gets. by rewrite (bind_ok _ _ _ _ _ (derive_key_ok k ka _ w Hk)).
Qed.

Lemma load_ok ka w : load_peer_key_share (own_share ka) w =
  (Ok tt, with_chan (fun c => set_kex_ctx (mkKex (own_key (kex_ctx c)) (Some (public_key_raw ka)) []) c) w).
Proof. unfold load_peer_key_share, own_share, key_share. by rewrite parse_point. Qed.

(** *** Initiating *)

Definition initiated (n t : N) (c : Channel) : Channel :=
  set_kex_ctx (mkKex (Some (n + 1)) None []) (set_last_initiation_time t (set_status INITIATED (set_hkdf_salt (random_salt n)
    (set_peer_cv None (set_peer_cert [] (set_kex_ctx new_kex c)))))).

Definition init_message (n : N) (c : Channel) : bytes :=
  init_payload (own_share (n + 1)) (sign (node_kp c) (own_share (n + 1))) (node_cert c) (random_salt n).

Lemma initiate_ok w : initiate w =
  (Ok tt, emit [node_outbound (peer_id (chan w)) channel_msg (self (chan w)) (init_message (draws w) (chan w))]
            (with_chan (initiated (draws w) (clock w)) (drawn (drawn w)))).
Proof.
  unfold initiate, reset_kex, forget_peer, new_salt, send_key_exchange_init, get_own_key_share, get_own_key, send_channel_msg. run.
  cbn [with_chan drawn chan set_last_initiation_time kex_ctx set_status set_hkdf_salt set_peer_cv set_peer_cert set_kex_ctx new_kex own_key peer_key]. run.
  rewrite write_eq, init_appended. reflexivity.
Qed.

(** *** Responding *)

(** A node key with a certificate that the service has endorsed. *)
Record certified (service : bytes) (kp : N) (cert v : bytes) : Prop := {
  ce_parse : make_verifier cert = Ok v;
  ce_trusted : verify_certificate service v = true;
  ce_sign : forall m, verify_signature v m (sign kp m) = true;
  ce_small : small cert;
  ce_sign_small : forall m, small (sign kp m);
}.

Lemma share_small k : small (own_share k).
Proof. pose proof (point_size k). unfold small, own_share, key_share. cbn [length]. lia. Qed.

Lemma peer_certificate_ok service kp cert v w : certified service kp cert v -> service_cert (chan w) = service ->
  verify_peer_certificate cert w = (Ok (Some v), w).
Proof.
  intros [Hp Ht _ [Hs _] _] <-. unfold verify_peer_certificate. destruct cert as [|b cert]; [simpl in Hs; lia|].
  unfold lift, bind, this, gets. by rewrite Hp, Ht.
Qed.

(** The key of the responder, made if it is missing, and the world then. *)
Definition responder_key (w : World) : N * World :=
  match (if bool_decide (status (chan w) = ESTABLISHED) then None else own_key (kex_ctx (chan w))) with
  | Some k => (k, w)
  | None => (draws w, drawn w)
  end.

Definition responded (k ka : N) (salt cert v : bytes) (c : Channel) : Channel :=
  set_status WAITING_FOR_FINAL (set_send_nonce 1 (set_send_key (Some (session_key k ka salt (String.append (self c) (peer_id c))))
    (set_kex_ctx (kex_done k ka) (set_hkdf_salt salt (set_peer_cv (Some v) (set_peer_cert cert c)))))).

Definition response_message (k ka : N) (c : Channel) : bytes :=
  response_payload (own_share k) (sign (node_kp c) (own_share k ++ own_share ka)) (node_cert c).

(** The key exchange when the peer's share is in, and the own key may have to
    be made. *)
Lemma derive_key_fresh ka label w : own_key (kex_ctx (chan w)) = None -> peer_key (kex_ctx (chan w)) = Some (public_key_raw ka) ->
  shared_secret (kex_ctx (chan w)) = [] ->
  derive_key label w = (Ok (session_key (draws w) ka (hkdf_salt (chan w)) label), with_chan (set_kex_ctx (kex_done (draws w) ka)) (drawn w)).
Proof.
  intros Ho Hp Hs. unfold derive_key, get_shared_secret, get_own_key. run. rewrite Hs. run. rewrite Ho. run. rewrite Hp. run. done.
Qed.

(** The own key, made if it is missing. *)
Definition own_or_new (w : World) : N * World :=
  match own_key (kex_ctx (chan w)) with Some k => (k, w) | None => (draws w, drawn w) end.

Lemma update_send_key_new ka w : peer_key (kex_ctx (chan w)) = Some (public_key_raw ka) -> shared_secret (kex_ctx (chan w)) = [] ->
  update_send_key w = (Ok tt, with_chan (fun c => set_send_nonce 1 (set_send_key
    (Some (session_key (own_or_new w).1 ka (hkdf_salt c) (String.append (self c) (peer_id c)))) (set_kex_ctx (kex_done (own_or_new w).1 ka) c))) (own_or_new w).2).
Proof.
  intros Hp Hs. unfold own_or_new. destruct (own_key (kex_ctx (chan w))) as [k|] eqn:Ho.
  - apply update_send_key_ok. split_and!; [done|done|by left].
  - unfold update_send_key. run. by rewrite (bind_ok _ _ _ _ _ (derive_key_fresh ka _ w Ho Hp Hs)).
Qed.

Lemma send_response_ok k ka w : kex_ctx (chan w) = kex_done k ka ->
  send_key_exchange_response w = (Ok tt, emit [node_outbound (peer_id (chan w)) channel_msg (self (chan w)) (response_message k ka (chan w))] w).
Proof.
  intros Hk. unfold send_key_exchange_response, send_channel_msg. rewrite (bind_ok _ _ _ _ _ (own_share_ok k w ltac:(by rewrite Hk))).
  rewrite (bind_ok _ _ _ _ _ (peer_share_ok ka w ltac:(by rewrite Hk))). run. by rewrite write_eq, response_appended.
Qed.

Lemma response_message_same k ka c c' : node_kp c' = node_kp c -> node_cert c' = node_cert c -> response_message k ka c' = response_message k ka c.
Proof. intros E1 E2. unfold response_message. by rewrite E1, E2. Qed.

Lemma respond_ok k ka salt cert v c w : chan w = responded k ka salt cert v c ->
  let key := session_key k ka salt (String.append (self c) (peer_id c)) in
  1 + local_recv_nonce c + N.of_nat (length (pending c)) < message_limit c < 2 ^ 64 ->
  bind send_key_exchange_response (fun _ => bind flush_pending_outgoing (fun _ => ret true)) w =
    (Ok true, emit (node_outbound (peer_id c) channel_msg (self c) (response_message k ka c) :: sealed_all key 1 c (pending c)) (with_chan flushed w)).
Proof.
  intros Hc key Hlim. rewrite (bind_ok _ _ _ _ _ (send_response_ok k ka w ltac:(by rewrite Hc))).
  assert (pending (chan w) = pending c /\ send_nonce (chan w) = 1 /\ peer_id (chan w) = peer_id c /\ self (chan w) = self c /\ node_kp (chan w) = node_kp c /\
    node_cert (chan w) = node_cert c) as (E1 & E2 & E3 & E4 & E5 & E6) by by rewrite Hc.
  rewrite E3, E4, (response_message_same k ka c (chan w) E5 E6). erewrite (bind_ok _ _ (emit _ w)); [|apply (flush_ok key); cbn [emit chan]].
  - cbn [emit chan]. rewrite E1, E2, (sealed_all_same key 1 c (chan w) (pending c) E3 E4). unfold ret. f_equal. unfold emit, with_chan. cbn [chan to_host draws clock].
    by rewrite <- app_assoc.
  - by rewrite Hc.
  - rewrite E1. split_and!; rewrite Hc; cbn [responded set_status set_send_nonce set_send_key set_kex_ctx set_hkdf_salt set_peer_cv set_peer_cert
      send_nonce local_recv_nonce message_limit status]; [lia|lia|done].
Qed.

(** The world in which the init has been read, and the shares. *)
Definition taken (salt cert v : bytes) (ka : N) (c : Channel) : Channel :=
  set_kex_ctx (mkKex (if bool_decide (status c = ESTABLISHED) then None else own_key (kex_ctx c)) (Some (public_key_raw ka)) [])
    (set_hkdf_salt salt (set_peer_cv (Some v) (set_peer_cert cert c))).

Lemma accept_keys w cert v ka salt :
  accept_init cert v (own_share ka) salt w =
    bind update_send_key (fun _ => bind (upd (set_status WAITING_FOR_FINAL)) (fun _ =>
      bind send_key_exchange_response (fun _ => bind flush_pending_outgoing (fun _ => ret true)))) (with_chan (taken salt cert v ka) w).
Proof.
  unfold accept_init, taken. run. destruct (bool_decide (status (chan w) = ESTABLISHED)) eqn:Hs; cbn [when]; unfold reset_kex; run;
    rewrite (bind_ok _ _ _ _ _ (load_ok ka _)), ?with_chan_with_chan; f_equal; unfold with_chan; rewrite Hs; f_equal; by destruct (chan w).
Qed.

Lemma accept_init_ok w cert v ka salt :
  let k := (responder_key w).1 in
  let key := session_key k ka salt (String.append (self (chan w)) (peer_id (chan w))) in
  1 + local_recv_nonce (chan w) + N.of_nat (length (pending (chan w))) < message_limit (chan w) < 2 ^ 64 ->
  accept_init cert v (own_share ka) salt w =
    (Ok true, emit (node_outbound (peer_id (chan w)) channel_msg (self (chan w)) (response_message k ka (chan w)) :: sealed_all key 1 (chan w) (pending (chan w)))
                (with_chan (fun c => flushed (responded k ka salt cert v c)) (responder_key w).2)).
Proof.
  intros k key Hlim. rewrite accept_keys. set (w3 := with_chan _ w).
  assert (own_or_new w3 = (k, with_chan (fun _ => chan w3) (responder_key w).2) /\ chan (responder_key w).2 = chan w) as [Hown Hsame].
  { unfold k, own_or_new, responder_key. change (own_key (kex_ctx (chan w3))) with (if bool_decide (status (chan w) = ESTABLISHED) then None else own_key (kex_ctx (chan w))).
    by destruct (if bool_decide _ then None else _). }
  rewrite (bind_ok _ _ _ _ _ (update_send_key_new ka w3 eq_refl eq_refl)), Hown. cbn [fst snd]. rewrite bind_upd, !with_chan_with_chan.
  rewrite (respond_ok k ka salt cert v (chan w)); [|done|done]. f_equal. rewrite with_chan_with_chan. unfold with_chan. by rewrite Hsame.
Qed.

(** A message read by its type. *)
Lemma recv_typed t data w : t < 2 ^ 64 ->
  recv_key_exchange_message (le_split 8 t ++ data) w =
    match (if t =? key_exchange_init then recv_key_exchange_init data (String.ltb (self (chan w)) (peer_id (chan w)))
           else if t =? key_exchange_response then recv_key_exchange_response data
           else if t =? key_exchange_final then recv_key_exchange_final data
           else throw (RuntimeError "not recognised as a key exchange message")) w with
    | (Throw _, w) => (Ok false, w)
    | r => r
    end.
Proof. intros Ht. unfold recv_key_exchange_message, lift. rewrite read_int_app by done. run. done. Qed.

(** An init with a good signature is answered, unless this node has sent one
    and does not yield. *)
Lemma recv_init_read w kp cert v ka salt : certified (service_cert (chan w)) kp cert v -> small salt ->
  recv_key_exchange_message (init_payload (own_share ka) (sign kp (own_share ka)) cert salt) w =
    match (if bool_decide (status (chan w) = INITIATED) && negb (String.ltb (self (chan w)) (peer_id (chan w))) then ret true
           else accept_init cert v (own_share ka) salt) w with
    | (Throw _, w) => (Ok false, w)
    | r => r
    end.
Proof.
  intros Hcert Hsalt. unfold init_payload. rewrite recv_typed by done. change (key_exchange_init =? key_exchange_init) with true. cbn iota.
  unfold recv_key_exchange_init, lift. rewrite read_int_app by done. rewrite bind_pure. cbn [fst snd].
  change (negb (protocol_version =? protocol_version)) with false. cbn iota.
  rewrite (extract_fields_all [own_share ka; sign kp (own_share ka); cert; salt])
    by (repeat constructor; apply share_small || apply (ce_sign_small _ _ _ _ Hcert) || apply (ce_small _ _ _ _ Hcert) || apply Hsalt).
  rewrite bind_pure. cbn iota. rewrite (bind_ok _ _ _ _ _ (peer_certificate_ok _ _ _ _ w Hcert eq_refl)).
  unfold verify_peer_signature. rewrite (ce_sign _ _ _ _ Hcert). cbn [negb]. by rewrite bind_this.
Qed.

Lemma recv_init_ok w kp cert v ka salt : certified (service_cert (chan w)) kp cert v -> small salt ->
  (status (chan w) = INITIATED -> String.ltb (self (chan w)) (peer_id (chan w)) = true) ->
  let k := (responder_key w).1 in
  let key := session_key k ka salt (String.append (self (chan w)) (peer_id (chan w))) in
  1 + local_recv_nonce (chan w) + N.of_nat (length (pending (chan w))) < message_limit (chan w) < 2 ^ 64 ->
  recv_key_exchange_message (init_payload (own_share ka) (sign kp (own_share ka)) cert salt) w =
    (Ok true, emit (node_outbound (peer_id (chan w)) channel_msg (self (chan w)) (response_message k ka (chan w)) :: sealed_all key 1 (chan w) (pending (chan w)))
                (with_chan (fun c => flushed (responded k ka salt cert v c)) (responder_key w).2)).
Proof.
  intros Hcert Hsalt Hprio k key Hlim. rewrite (recv_init_read w kp cert v ka salt Hcert Hsalt).
  assert (bool_decide (status (chan w) = INITIATED) && negb (String.ltb (self (chan w)) (peer_id (chan w))) = false) as ->.
  { case_bool_decide; [|done]. by rewrite Hprio. }
  by rewrite (accept_init_ok w cert v ka salt Hlim).
Qed.

(** *** The response and the final message *)

Definition confirmed (k kb : N) (cert v : bytes) (c : Channel) : Channel :=
  set_send_nonce 1 (set_send_key (Some (session_key k kb (hkdf_salt c) (String.append (self c) (peer_id c))))
    (set_kex_ctx (kex_done k kb) (set_peer_cv (Some v) (set_peer_cert cert c)))).

Definition established (k ka : N) (c : Channel) : Channel :=
  set_kex_ctx new_kex (set_status ESTABLISHED (set_local_recv_nonce 0 (set_recv_key
    (Some (session_key k ka (hkdf_salt c) (String.append (peer_id c) (self c)))) c))).

Definition final_message (kb : N) (c : Channel) : bytes := final_payload (sign (node_kp c) (own_share kb)).

Lemma establish_ok k ka v w : kex_between k ka (kex_ctx (chan w)) -> make_verifier (node_cert (chan w)) = Ok v ->
  bind update_recv_key (fun _ => bind establish (fun _ => ret true)) w = (Ok true, with_chan (established k ka) w).
Proof.
  intros Hk Hv. rewrite (bind_ok _ _ _ _ _ (update_recv_key_ok k ka w Hk)). unfold establish, reset_kex, lift. run.
  cbn [with_chan chan set_kex_ctx set_status set_local_recv_nonce set_recv_key node_cert]. rewrite Hv. run. rewrite bind_pure. done.
Qed.

Lemma send_final_ok kb w : peer_key (kex_ctx (chan w)) = Some (public_key_raw kb) ->
  send_key_exchange_final w = (Ok tt, emit [node_outbound (peer_id (chan w)) channel_msg (self (chan w)) (final_message kb (chan w))] w).
Proof.
  intros Hk. unfold send_key_exchange_final, send_channel_msg. rewrite (bind_ok _ _ _ _ _ (peer_share_ok kb w Hk)). run. by rewrite write_eq.
Qed.

Lemma accept_response_keys k kb cert v w : own_key (kex_ctx (chan w)) = Some k ->
  accept_response cert v (own_share kb) w =
    bind send_key_exchange_final (fun _ => bind flush_pending_outgoing (fun _ => bind update_recv_key (fun _ => bind establish (fun _ => ret true))))
      (with_chan (confirmed k kb cert v) w).
Proof.
  intros Hk. unfold accept_response. run. rewrite (bind_ok _ _ _ _ _ (load_ok kb _)).
  set (w1 := with_chan _ _). assert (kex_between k kb (kex_ctx (chan w1))) as Hb by (split_and!; [exact Hk|done|by left]).
  by rewrite (bind_ok _ _ _ _ _ (update_send_key_ok k kb w1 Hb)).
Qed.

Lemma confirm_ok k kb cert v c own w : chan w = confirmed k kb cert v c -> status c = INITIATED -> make_verifier (node_cert c) = Ok own ->
  let key := session_key k kb (hkdf_salt c) (String.append (self c) (peer_id c)) in
  1 + local_recv_nonce c + N.of_nat (length (pending c)) < message_limit c < 2 ^ 64 ->
  bind send_key_exchange_final (fun _ => bind flush_pending_outgoing (fun _ => bind update_recv_key (fun _ => bind establish (fun _ => ret true)))) w =
    (Ok true, emit (node_outbound (peer_id c) channel_msg (self c) (final_message kb c) :: sealed_all key 1 c (pending c))
                (with_chan (fun c => established k kb (flushed c)) w)).
Proof.
  intros Hc Hst Hown key Hlim. rewrite (bind_ok _ _ _ _ _ (send_final_ok kb w ltac:(by rewrite Hc))).
  assert (pending (chan w) = pending c /\ send_nonce (chan w) = 1 /\ peer_id (chan w) = peer_id c /\ self (chan w) = self c /\ node_kp (chan w) = node_kp c)
    as (E1 & E2 & E3 & E4 & E5) by by rewrite Hc.
  assert (final_message kb (chan w) = final_message kb c) as -> by (unfold final_message; by rewrite E5). rewrite E3, E4.
  erewrite (bind_ok _ _ (emit _ w)); [|apply (flush_ok key); cbn [emit chan]].
  - cbn [emit chan]. rewrite E1, E2, (sealed_all_same key 1 c (chan w) (pending c) E3 E4). rewrite (establish_ok k kb own).
    + f_equal. unfold emit, with_chan. cbn [chan to_host draws clock]. by rewrite <- app_assoc.
    + cbn [emit with_chan chan]. rewrite Hc. apply kex_done_between.
    + cbn [emit with_chan chan]. by rewrite Hc.
  - by rewrite Hc.
  - rewrite E1. split_and!; rewrite Hc; cbn [confirmed set_send_nonce set_send_key set_kex_ctx set_peer_cv set_peer_cert
      send_nonce local_recv_nonce message_limit status]; [lia|lia|by rewrite Hst].
Qed.

Lemma recv_response_ok w kp cert v k kb own : certified (service_cert (chan w)) kp cert v -> make_verifier (node_cert (chan w)) = Ok own ->
  status (chan w) = INITIATED -> own_key (kex_ctx (chan w)) = Some k ->
  let key := session_key k kb (hkdf_salt (chan w)) (String.append (self (chan w)) (peer_id (chan w))) in
  1 + local_recv_nonce (chan w) + N.of_nat (length (pending (chan w))) < message_limit (chan w) < 2 ^ 64 ->
  recv_key_exchange_message (response_payload (own_share kb) (sign kp (own_share kb ++ own_share k)) cert) w =
    (Ok true, emit (node_outbound (peer_id (chan w)) channel_msg (self (chan w)) (final_message kb (chan w)) :: sealed_all key 1 (chan w) (pending (chan w)))
                (with_chan (fun c => established k kb (flushed (confirmed k kb cert v c))) w)).
Proof.
  intros Hcert Hown Hst Hk key Hlim. unfold response_payload. rewrite recv_typed by done.
  change (key_exchange_response =? key_exchange_init) with false. change (key_exchange_response =? key_exchange_response) with true. cbn iota.
  unfold recv_key_exchange_response. rewrite bind_this, Hst, bool_decide_eq_true_2 by done. cbn [negb].
  unfold lift. rewrite read_int_app by done. rewrite bind_pure. cbn [fst snd].
  change (negb (protocol_version =? protocol_version)) with false. cbn iota.
  rewrite (extract_fields_all [own_share kb; sign kp (own_share kb ++ own_share k); cert])
    by (repeat constructor; apply share_small || apply (ce_sign_small _ _ _ _ Hcert) || apply (ce_small _ _ _ _ Hcert)).
  rewrite bind_pure. cbn iota. rewrite (bind_ok _ _ _ _ _ (peer_certificate_ok _ _ _ _ w Hcert eq_refl)).
  rewrite (bind_ok _ _ _ _ _ (own_share_ok k w Hk)). unfold verify_peer_signature. rewrite (ce_sign _ _ _ _ Hcert). cbn [negb].
  rewrite (accept_response_keys k kb cert v w Hk). by rewrite (confirm_ok k kb cert v (chan w) own (with_chan (confirmed k kb cert v) w) eq_refl Hst Hown Hlim).
Qed.

Lemma recv_final_ok w service kp cert v k ka own : certified service kp cert v -> make_verifier (node_cert (chan w)) = Ok own -> peer_cv (chan w) = Some v ->
  status (chan w) = WAITING_FOR_FINAL -> kex_ctx (chan w) = kex_done k ka ->
  recv_key_exchange_message (final_payload (sign kp (own_share k))) w = (Ok true, with_chan (established k ka) w).
Proof.
  intros Hcert Hown Hv Hst Hk. unfold final_payload. rewrite recv_typed by done.
  change (key_exchange_final =? key_exchange_init) with false. change (key_exchange_final =? key_exchange_response) with false.
  change (key_exchange_final =? key_exchange_final) with true. cbn iota.
  unfold recv_key_exchange_final. rewrite bind_this, Hst, bool_decide_eq_true_2 by done. cbn [negb].
  rewrite <- (app_nil_r (field _)). pose proof (ce_sign_small _ _ _ _ Hcert (own_share k)) as Hs. unfold lift. rewrite (extract_span_field _ _ Hs), bind_pure. cbn [fst].
  pose proof (ce_sign _ _ _ _ Hcert (own_share k)) as Hverify.
  destruct (sign kp (own_share k)) as [|b sig] eqn:Hsig; [destruct Hs as [Hs _]; simpl in Hs; lia|].
  rewrite (bind_ok _ _ _ _ _ (own_share_ok k w ltac:(by rewrite Hk))), bind_this, Hv. unfold verify_peer_signature. rewrite Hverify. cbn [negb].
  rewrite (establish_ok k ka own); [done| |done]. rewrite Hk. apply kex_done_between.
Qed.
End spec.
End ChannelsSpec.
