(* ===== verification/ChannelsAgree.v ===== *)
(** * Channels between nodes: the key exchange

    Two nodes that run the key exchange end with the same two keys, and what
    waited to be sent is sent. A node that receives the first message of the
    key exchange again, before the last one, seals two messages with the same
    key and nonce. *)

From S2P Require Import Prelude LedgerEntries Channels ChannelsSpec.
From Stdlib Require Strings.String Strings.Byte.

Module ChannelsAgree.
Import Channels ChannelsSpec.
Open Scope N_scope.
Open Scope m_scope.

Section agree.
Context `{ChannelCryptoLaws}.

(** The two ends of a channel, with certificates endorsed by their service. *)
Record ends (a b : Channel) : Prop := {
  ends_peer : peer_id a = self b;
  ends_self : self a = peer_id b;
  ends_service : service_cert a = service_cert b;
}.
Definition endorsed (c : Channel) (v : bytes) : Prop := certified (service_cert c) (node_kp c) (node_cert c) v.

(** There is room for what waits to be sent. *)
Definition room (c : Channel) : Prop := 1 + local_recv_nonce c + N.of_nat (length (pending c)) < message_limit c < 2 ^ 64.

(** A node that has sent an init of its own and gets one answers it only if its
    identifier is the smaller. *)
Definition yields (c : Channel) : Prop := status c = INITIATED -> String.ltb (self c) (peer_id c) = true.

Definition to_peer (c : Channel) (payload : bytes) : Outbound := node_outbound (peer_id c) channel_msg (self c) payload.

(** The keys of the exchange that [wa] starts and [wb] answers. *)
Definition exchanged_key (wa wb : World) (label : string) : bytes :=
  session_key (draws wa + 1) (responder_key wb).1 (random_salt (draws wa)) label.

Lemma session_key_sym k ka salt label : session_key k ka salt label = session_key ka k salt label.
Proof. unfold session_key. by rewrite shared_secret_agrees. Qed.

Lemma responder_same w : chan (responder_key w).2 = chan w /\ to_host (responder_key w).2 = to_host w.
Proof. unfold responder_key. by case_match. Qed.

(** A channel is open with the given keys, nothing waits, and [n] messages have
    been sent. *)
Definition open_with (send recv : bytes) (n : N) (c : Channel) : Prop :=
  status c = ESTABLISHED /\ send_key c = Some send /\ recv_key c = Some recv /\ pending c = [] /\ send_nonce c = 1 + n /\ local_recv_nonce c = 0.

Lemma initiator_open ka kb cert v n t c :
  open_with (session_key ka kb (random_salt n) (String.append (self c) (peer_id c))) (session_key ka kb (random_salt n) (String.append (peer_id c) (self c)))
    (N.of_nat (length (pending c))) (established ka kb (flushed (confirmed ka kb cert v (initiated n t c)))).
Proof. split_and!; reflexivity. Qed.

Lemma responder_open kb ka salt cert v c :
  open_with (session_key kb ka salt (String.append (self c) (peer_id c))) (session_key kb ka salt (String.append (peer_id c) (self c)))
    (N.of_nat (length (pending c))) (established kb ka (flushed (responded kb ka salt cert v c))).
Proof. split_and!; reflexivity. Qed.

(** C22. Two nodes whose certificates their service has endorsed agree on the
    keys: when one initiates and the three messages are delivered, every step
    succeeds, both channels are established, the send key of each is the
    receive key of the other, the messages that waited have been sealed with
    the new key and sent in order, and the counts of messages start anew. The
    messages that wait are fewer than the limit of a key, and the node that
    receives the first message gives way to it. *)
Theorem handshake_agrees wa wb va vb : ends (chan wa) (chan wb) -> endorsed (chan wa) va -> endorsed (chan wb) vb ->
  room (chan wa) -> room (chan wb) -> yields (chan wb) ->
  let kab := exchanged_key wa wb (String.append (self (chan wa)) (self (chan wb))) in
  let kba := exchanged_key wa wb (String.append (self (chan wb)) (self (chan wa))) in
  exists init response final wa1 wb1 wa2 wb2,
    initiate wa = (Ok tt, wa1) /\ to_host wa1 = (to_host wa ++ [to_peer (chan wa) init])%list /\
    recv_key_exchange_message init wb = (Ok true, wb1) /\
      to_host wb1 = (to_host wb ++ to_peer (chan wb) response :: sealed_all kba 1 (chan wb) (pending (chan wb)))%list /\
    recv_key_exchange_message response wa1 = (Ok true, wa2) /\
      to_host wa2 = (to_host wa1 ++ to_peer (chan wa) final :: sealed_all kab 1 (chan wa) (pending (chan wa)))%list /\
    recv_key_exchange_message final wb1 = (Ok true, wb2) /\ to_host wb2 = to_host wb1 /\
    open_with kab kba (N.of_nat (length (pending (chan wa)))) (chan wa2) /\ open_with kba kab (N.of_nat (length (pending (chan wb)))) (chan wb2).
Proof.
  intros [Ep Es Esv] Ha Hb Hra Hrb Hy kab kba. set (ka := draws wa + 1). set (kb := (responder_key wb).1). set (salt := random_salt (draws wa)).
  destruct (responder_same wb) as [Hsame Hhost].
  set (wa1 := emit [to_peer (chan wa) (init_message (draws wa) (chan wa))] (with_chan (initiated (draws wa) (clock wa)) (drawn (drawn wa)))).
  set (wb1 := emit (to_peer (chan wb) (response_message kb ka (chan wb)) :: sealed_all kba 1 (chan wb) (pending (chan wb)))
    (with_chan (fun c => flushed (responded kb ka salt (node_cert (chan wa)) va c)) (responder_key wb).2)).
  set (wa2 := emit (to_peer (chan wa) (final_message kb (chan wa)) :: sealed_all kab 1 (chan wa) (pending (chan wa)))
    (with_chan (fun c => established ka kb (flushed (confirmed ka kb (node_cert (chan wb)) vb c))) wa1)).
  exists (init_message (draws wa) (chan wa)), (response_message kb ka (chan wb)), (final_message kb (chan wa)), wa1, wb1, wa2, (with_chan (established kb ka) wb1).
  split; [apply initiate_ok|]. split; [reflexivity|]. split.
  { unfold endorsed in Ha. rewrite Esv in Ha.
    eapply eq_trans; [exact (recv_init_ok wb _ _ va ka salt Ha (salt_size _) Hy Hrb)|]. unfold wb1, to_peer.
    unfold kba, exchanged_key. rewrite (session_key_sym (draws wa + 1)), Es. reflexivity. }
  split; [cbn [wb1 emit with_chan to_host]; by rewrite Hhost|]. split.
  { unfold endorsed in Hb. rewrite <- Esv in Hb.
    eapply eq_trans; [exact (recv_response_ok wa1 _ _ vb ka kb va Hb (ce_parse _ _ _ _ Ha) eq_refl eq_refl Hra)|]. unfold wa2, kab, exchanged_key. rewrite <- Ep, (sealed_all_same _ _ (chan wa) (chan wa1)) by reflexivity. reflexivity. }
  split; [reflexivity|]. split.
  { unfold final_message. apply (recv_final_ok wb1 _ _ _ va kb ka vb Ha); cbn [wb1 emit with_chan chan]; rewrite ?Hsame; try done. exact (ce_parse _ _ _ _ Hb). }
  split; [reflexivity|]. split.
  - pose proof (initiator_open ka kb (node_cert (chan wb)) vb (draws wa) (clock wa) (chan wa)) as Ho. rewrite Ep in Ho. exact Ho.
  - pose proof (responder_open kb ka salt (node_cert (chan wa)) va (chan wb)) as Ho. rewrite <- Es, !(session_key_sym kb) in Ho.
    cbn [wb1 emit with_chan chan]. rewrite Hsame. exact Ho.
Qed.

(** *** The first message again *)

Lemma with_chan_const f w c : chan w = c -> with_chan f w = with_chan (fun _ => f c) w.
Proof. intros <-. done. Qed.

(** A node that waits for the last message and receives an init derives its
    keys from the own key it has. *)
Lemma responder_key_kept k w : status (chan w) = WAITING_FOR_FINAL -> own_key (kex_ctx (chan w)) = Some k -> responder_key w = (k, w).
Proof. intros Hs Hk. unfold responder_key. rewrite bool_decide_eq_false_2 by (rewrite Hs; done). by rewrite Hk. Qed.

Lemma pending_responded k ka salt cert v c : pending (responded k ka salt cert v c) = pending c.
Proof. reflexivity. Qed.

Lemma answered_state k ka salt cert v c : pending c = [] -> 2 + local_recv_nonce c < message_limit c < 2 ^ 64 ->
  let c' := flushed (responded k ka salt cert v c) in
  send_key c' = Some (session_key k ka salt (String.append (self c) (peer_id c))) /\ send_nonce c' = 1 /\ self c' = self c /\ peer_id c' = peer_id c /\ below_limit 1 c'.
Proof.
  intros Hp Hlim. unfold flushed, below_limit. rewrite (pending_responded k ka salt cert v c), Hp.
  split_and!; cbn [responded set_outgoing_forwarding_msgs set_outgoing_consensus_msg set_status set_send_nonce set_send_key set_kex_ctx set_hkdf_salt set_peer_cv
    set_peer_cert send_key send_nonce self peer_id local_recv_nonce message_limit status length N.of_nat]; done || lia.
Qed.

(** One round: an init is answered, and a message sent under the new key. *)
Lemma answer_and_send w kp cert v ka salt t aad plain : certified (service_cert (chan w)) kp cert v -> small salt -> yields (chan w) ->
  pending (chan w) = [] -> 2 + local_recv_nonce (chan w) < message_limit (chan w) < 2 ^ 64 ->
  let k := (responder_key w).1 in
  let key := session_key k ka salt (String.append (self (chan w)) (peer_id (chan w))) in
  bind (recv_key_exchange_message (init_payload (own_share ka) (sign kp (own_share ka)) cert salt)) (fun _ => send_unsafe t aad plain) w =
    (Ok true, emit [to_peer (chan w) (response_message k ka (chan w)); sealed key 1 (chan w) (mkOutgoing t aad plain)]
      (with_chan (fun c => set_send_nonce 2 (flushed (responded k ka salt cert v c))) (responder_key w).2)).
Proof.
  intros Hcert Hsalt Hy Hp Hlim k key.
  rewrite (bind_ok _ _ _ _ _ (recv_init_ok w kp cert v ka salt Hcert Hsalt Hy ltac:(rewrite Hp; cbn [length]; lia))). rewrite Hp. cbn [sealed_all].
  set (w1 := emit _ _). destruct (responder_same w) as [Hsame Hhost].
  assert (send_key (chan w1) = Some key /\ send_nonce (chan w1) = 1 /\ self (chan w1) = self (chan w) /\ peer_id (chan w1) = peer_id (chan w) /\
    below_limit 1 (chan w1)) as (E1 & E2 & E3 & E4 & E5).
  { unfold w1. cbn [emit with_chan chan]. rewrite Hsame. by apply answered_state. }
  rewrite (send_ok w1 key t aad plain E1 E5), E2. rewrite (sealed_same key 1 (chan w) (chan w1) _ E4 E3).
  unfold w1, emit, with_chan. cbn [chan to_host draws clock]. rewrite <- app_assoc. reflexivity.
Qed.

Lemma to_host_emit ms f w : to_host (emit ms (with_chan f w)) = (to_host w ++ ms)%list.
Proof. reflexivity. Qed.

Lemma answered_fields k ka salt cert v c (c1 := set_send_nonce 2 (flushed (responded k ka salt cert v c))) :
  (self c1 = self c /\ peer_id c1 = peer_id c /\ node_kp c1 = node_kp c /\ node_cert c1 = node_cert c /\ service_cert c1 = service_cert c) /\
  status c1 = WAITING_FOR_FINAL /\ own_key (kex_ctx c1) = Some k /\ pending c1 = [] /\ local_recv_nonce c1 = local_recv_nonce c /\ message_limit c1 = message_limit c.
Proof. split_and!; reflexivity. Qed.

(** C28. A node that answers an init and sends a message, receives the same init
    again and sends another message, has sealed both messages with the same key
    and the same nonce. *)
Theorem replayed_init_reuses_nonce w kp cert v ka salt t1 aad1 plain1 t2 aad2 plain2 :
  certified (service_cert (chan w)) kp cert v -> small salt -> yields (chan w) ->
  pending (chan w) = [] -> 2 + local_recv_nonce (chan w) < message_limit (chan w) < 2 ^ 64 ->
  let init := init_payload (own_share ka) (sign kp (own_share ka)) cert salt in
  exists key response w',
    bind (recv_key_exchange_message init) (fun _ => bind (send_unsafe t1 aad1 plain1) (fun _ =>
      bind (recv_key_exchange_message init) (fun _ => send_unsafe t2 aad2 plain2))) w = (Ok true, w') /\
    to_host w' = (to_host w ++ [to_peer (chan w) response; sealed key 1 (chan w) (mkOutgoing t1 aad1 plain1);
                                to_peer (chan w) response; sealed key 1 (chan w) (mkOutgoing t2 aad2 plain2)])%list.
Proof.
  intros Hcert Hsalt Hy Hp Hlim init. set (k := (responder_key w).1).
  set (key := session_key k ka salt (String.append (self (chan w)) (peer_id (chan w)))).
  pose proof (answer_and_send w kp cert v ka salt t1 aad1 plain1 Hcert Hsalt Hy Hp Hlim) as H1. cbv zeta in H1. fold k key in H1.
  destruct (responder_same w) as [Hsame Hhost].
  set (w1 := emit _ _) in H1. assert (chan w1 = set_send_nonce 2 (flushed (responded k ka salt cert v (chan w)))) as Hc.
  { unfold w1. cbn [emit with_chan chan]. by rewrite Hsame. }
  assert (to_host w1 = (to_host w ++ [to_peer (chan w) (response_message k ka (chan w)); sealed key 1 (chan w) (mkOutgoing t1 aad1 plain1)])%list) as Hh1.
  { unfold w1. cbn [emit with_chan to_host]. by rewrite Hhost. }
  pose proof (answered_fields k ka salt cert v (chan w)) as Hf. cbv zeta in Hf. rewrite <- Hc in Hf. clearbody w1. clear Hc.
  destruct Hf as ((E1 & E2 & E3 & E4 & E5) & E6 & E7 & E8 & E9 & E10). pose proof (responder_key_kept k w1 E6 E7) as Hk.
  rewrite <- E5 in Hcert. rewrite <- E9, <- E10 in Hlim. assert (yields (chan w1)) as Hy1 by (intros E; by rewrite E6 in E).
  pose proof (answer_and_send w1 kp cert v ka salt t2 aad2 plain2 Hcert Hsalt Hy1 E8 Hlim) as H2.
  cbv zeta in H2. rewrite Hk in H2. cbn [fst snd] in H2.
  exists key, (response_message k ka (chan w)). eexists. split.
  - rewrite <- bind_bind. rewrite (bind_ok _ _ _ _ _ H1). exact H2.
  - rewrite to_host_emit, Hh1, <- app_assoc. unfold to_peer.
    by rewrite (response_message_same k ka (chan w) (chan w1) E3 E4), E1, E2, (sealed_same _ 1 (chan w) (chan w1) _ E2 E1).
Qed.
End agree.

(** ** An example *)

#[local] Instance example_crypto : ChannelCrypto := {|
  public_key_raw n := le_split 8 n;
  key_from_raw_ec_point b := Some b;
  derive_shared_secret n p := le_split 8 ((n + le_combine p) mod 256 ^ N.of_nat 8);
  random_salt n := [byte_of n];
  hkdf s salt label := (s ++ salt ++ label)%list;
  gcm_encrypt _ _ plain _ := (plain, repeat Byte.x00 16);
  gcm_decrypt _ _ _ cipher _ := Some cipher;
  sign _ _ := [Byte.x01];
  make_verifier c := Ok c;
  verify_certificate _ _ := true;
  verify_signature _ _ _ := true;
|}.

#[local] Instance example_laws : ChannelCryptoLaws.
Proof.
  split; try done.
  intros a b. unfold derive_shared_secret, public_key_raw, example_crypto. rewrite !le_combine_split.
  f_equal. rewrite !N.Div0.add_mod_idemp_r. f_equal. lia.
Qed.

Definition example_world (self_ peer_ : string) (pending_ : list OutgoingMsg) : World :=
  mkWorld (mkChannel self_ [Byte.x53] 7 [Byte.x43] None [] peer_ new_kex INACTIVE 0 [] 1000 None None 1 None pending_ 0) [] 5 0.
Definition example_message : OutgoingMsg := mkOutgoing forwarded_msg [Byte.x41] [Byte.x42].

Lemma example_endorsed self_ peer_ pending_ : endorsed (chan (example_world self_ peer_ pending_)) [Byte.x43].
Proof. by split. Qed.

Lemma handshake_agrees_witness : exists wa2 wb2, status (chan wa2) = ESTABLISHED /\ status (chan wb2) = ESTABLISHED /\
  send_key (chan wa2) = recv_key (chan wb2) /\ send_key (chan wb2) = recv_key (chan wa2).
Proof.
  destruct (handshake_agrees (example_world "a" "b" [example_message]) (example_world "b" "a" []) [Byte.x43] [Byte.x43]) as
    (_ & _ & _ & _ & _ & wa2 & wb2 & _ & _ & _ & _ & _ & _ & _ & _ & Ha & Hb).
  - split; reflexivity.
  - apply example_endorsed.
  - apply example_endorsed.
  - split; reflexivity.
  - split; reflexivity.
  - intros E. discriminate E.
  - destruct Ha as (E1 & E2 & E3 & _). destruct Hb as (E4 & E5 & E6 & _). exists wa2, wb2. split_and!; [exact E1|exact E4| |].
    + etrans; [exact E2|symmetry; exact E6].
    + etrans; [exact E5|symmetry; exact E3].
Defined.

Lemma replayed_init_reuses_nonce_witness : exists key response w',
  to_host w' = [to_peer (chan (example_world "b" "a" [])) response; sealed key 1 (chan (example_world "b" "a" [])) (mkOutgoing consensus_msg [Byte.x41] []);
                to_peer (chan (example_world "b" "a" [])) response; sealed key 1 (chan (example_world "b" "a" [])) (mkOutgoing consensus_msg [Byte.x42] [])].
Proof.
  destruct (replayed_init_reuses_nonce (example_world "b" "a" []) 7 [Byte.x43] [Byte.x43] 3 [Byte.x01] consensus_msg [Byte.x41] [] consensus_msg [Byte.x42] [])
    as (key & response & w' & _ & Hw).
  - apply example_endorsed.
  - split; reflexivity.
  - intros E. discriminate E.
  - reflexivity.
  - split; reflexivity.
  - exists key, response, w'. exact Hw.
Defined.
End ChannelsAgree.
