(* ===== verification/ChannelsDeliver.v ===== *)
(** * Channels between nodes: delivery

    What a node accepts under a key is, in order and each at most once, what
    the other node has sealed with it, whatever the network delivers. *)

From S2P Require Import Prelude LedgerEntries Channels ChannelsSpec.
From Stdlib Require Strings.String Strings.Byte.

Module ChannelsDeliver.
Import Channels ChannelsSpec.
Open Scope N_scope.
Open Scope m_scope.

(** The calls of a channel, and time that passes. *)
Inductive ChannelOp :=
| Send (type : NodeMsgType) (aad plain : bytes)
| RecvAuthenticated (aad data : bytes)
| RecvAuthenticatedWithLoad (data : bytes)
| RecvEncrypted (aad data : bytes)
| KeyExchange (data : bytes)
| Close
| Wait (ms : N).

Create HintDb extends.

Section deliver.
Context `{ChannelCrypto}.

Definition exec (op : ChannelOp) : M World unit :=
  match op with
  | Send type aad plain => send_unsafe type aad plain ;;; ret tt
  | RecvAuthenticated aad data => recv_authenticated aad data ;;; ret tt
  | RecvAuthenticatedWithLoad data => recv_authenticated_with_load data ;;; ret tt
  | RecvEncrypted aad data => recv_encrypted aad data ;;; ret tt
  | KeyExchange data => recv_key_exchange_message data ;;; ret tt
  | Close => close_channel
  | Wait ms => modify (fun w => mkWorld (chan w) (to_host w) (draws w) (clock w + ms))
  end.
Definition step (op : ChannelOp) (w : World) : World := (exec op w).2.

Variable k : bytes.

(** What a call seals with the key [k]: the nonce and the message. *)
Definition sealing (op : ChannelOp) (w : World) : list (N * OutgoingMsg) :=
  match op with
  | Send type aad plain => if decide (send_key (chan w) = Some k) then [(send_nonce (chan w), mkOutgoing type aad plain)] else []
  | _ => []
  end.
Fixpoint sealed_log (ops : list ChannelOp) (w : World) : list (N * OutgoingMsg) :=
  match ops with
  | [] => []
  | op :: ops => (sealing op w ++ sealed_log ops (step op w))%list
  end.

(** What a call tries to open: the header, the authenticated data and the
    ciphertext. *)
Definition incoming (op : ChannelOp) : option (GcmHdr * bytes * bytes) :=
  match op with
  | RecvAuthenticated aad data => match gcm_deserialise data with Ok r => Some (r.1, aad, []) | _ => None end
  | RecvAuthenticatedWithLoad data =>
      match rbind (skip (u64_sub (N.of_nat (length data)) gcm_serialised_size) data) gcm_deserialise with
      | Ok r => Some (r.1, take (length data - N.to_nat gcm_serialised_size) data, [])
      | _ => None
      end
  | RecvEncrypted aad data => match gcm_deserialise data with Ok r => Some (r.1, aad, r.2) | _ => None end
  | _ => None
  end.

(** What a call delivers to its caller under the key [k]: the nonce, the
    authenticated data and the plaintext. *)
Definition receive (op : ChannelOp) : M World (option bytes) :=
  match op with
  | RecvAuthenticated aad data => recv_authenticated aad data
  | RecvAuthenticatedWithLoad data => recv_authenticated_with_load data
  | RecvEncrypted aad data => recv_encrypted aad data
  | _ => ret None
  end.
Definition returned (op : ChannelOp) (w : World) : bool := match (receive op w).1 with Ok (Some _) => true | _ => false end.
Definition accepting (op : ChannelOp) (w : World) : list (N * bytes * bytes) :=
  if decide (recv_key (chan w) = Some k) then
    match incoming op with
    | Some (h, aad, cipher) =>
        if returned op w then [(get_wire_nonce (iv h), aad, default [] (gcm_decrypt k (iv h) (tag h) cipher aad))] else []
    | None => []
    end
  else [].
Fixpoint accepted_log (ops : list ChannelOp) (w : World) : list (N * bytes * bytes) :=
  match ops with
  | [] => []
  | op :: ops => (accepting op w ++ accepted_log ops (step op w))%list
  end.

(** A key and the count of the messages under it are as they were, or the key
    is no longer in use. *)
Definition same_send (w w' : World) : Prop :=
  send_key (chan w') = Some k -> send_key (chan w) = Some k /\ send_nonce (chan w') = send_nonce (chan w).
Definition same_recv (w w' : World) : Prop :=
  recv_key (chan w') = Some k -> recv_key (chan w) = Some k /\ local_recv_nonce (chan w') = local_recv_nonce (chan w).

(** No key exchange of the run brings [k] back. *)
Fixpoint exchanges_fresh (R : World -> World -> Prop) (ops : list ChannelOp) (w : World) : Prop :=
  match ops with
  | [] => True
  | op :: ops => match op with KeyExchange _ => R w (step op w) | _ => True end /\ exchanges_fresh R ops (step op w)
  end.

#[local] Instance same_send_preorder : PreOrder same_send.
Proof.
  split; [by intros w ?|]. intros w1 w2 w3 H1 H2 E. destruct (H2 E) as [E2 N2]. destruct (H1 E2) as [E1 N1]. split; congruence.
Qed.

#[local] Instance same_recv_preorder : PreOrder same_recv.
Proof.
  split; [by intros w ?|]. intros w1 w2 w3 H1 H2 E. destruct (H2 E) as [E2 N2]. destruct (H1 E2) as [E1 N1]. split; congruence.
Qed.

(** Both keys, for the code that touches neither. *)
Definition same_keys (w w' : World) : Prop := same_send w w' /\ same_recv w w'.
#[local] Instance same_keys_preorder : PreOrder same_keys.
Proof. split; [by intros w|]. intros w1 w2 w3 [H1 H1'] [H2 H2']. split; by etrans. Qed.

Lemma keeps_upd R f : (forall w, R w (with_chan f w)) -> keeps R (upd f).
Proof. intros Hf. by apply keeps_modify. Qed.

(** Two updates in a row are one. *)
Lemma keeps_upd_upd {A} R f g (m : unit -> M World A) : keeps R (bind (upd (fun c => g (f c))) m) -> keeps R (bind (upd f) (fun _ => bind (upd g) m)).
Proof. intros Hm w. exact (Hm w). Qed.

Ltac framed := try done; unfold upd, write_message, this in *; keeps_auto; try (refine (keeps_modify _ _ _); intros w; split; intros E; try discriminate; done).

Lemma keeps_draw : keeps same_keys draw.
Proof. intros w. split; by intros. Qed.
#[local] Hint Resolve keeps_draw : ccf.

Lemma keeps_reset_kex : keeps same_keys reset_kex.
Proof. unfold reset_kex. framed. Qed.
#[local] Hint Resolve keeps_reset_kex : ccf.

Lemma keeps_forget_peer : keeps same_keys forget_peer.
Proof. unfold forget_peer. framed. Qed.
#[local] Hint Resolve keeps_forget_peer : ccf.

Lemma keeps_new_salt : keeps same_keys new_salt.
Proof. unfold new_salt. framed. Qed.
#[local] Hint Resolve keeps_new_salt : ccf.

Lemma keeps_initiate : keeps same_keys initiate.
Proof. unfold initiate, send_key_exchange_init, send_channel_msg, get_own_key_share, get_own_key. framed. Qed.
#[local] Hint Resolve keeps_initiate : ccf.

Lemma keeps_reset_key_exchange : keeps same_keys reset_key_exchange.
Proof. unfold reset_key_exchange. framed. Qed.
#[local] Hint Resolve keeps_reset_key_exchange : ccf.

Lemma keeps_advance : keeps same_keys advance_connection_attempt.
Proof. unfold advance_connection_attempt. framed. Qed.
#[local] Hint Resolve keeps_advance : ccf.

Lemma keeps_check_message_limit : keeps same_keys check_message_limit.
Proof. unfold check_message_limit. keeps_step; [framed|]. cbv zeta. keeps_step; [framed|]. keeps_step; [|framed]. do 3 apply keeps_upd_upd. framed. Qed.
#[local] Hint Resolve keeps_check_message_limit : ccf.

Lemma keeps_close : keeps same_keys close_channel.
Proof. unfold close_channel. framed. Qed.

Lemma keeps_queue t aad plain : keeps same_keys (queue_message t aad plain).
Proof. unfold queue_message. framed. Qed.
#[local] Hint Resolve keeps_queue : ccf.

(** ** Sending *)

Lemma send_step t aad plain w (w' := step (Send t aad plain) w) :
  same_recv w w' /\
  (send_key (chan w) <> Some k -> same_send w w') /\
  (send_key (chan w) = Some k -> send_key (chan w') = Some k -> send_nonce (chan w') = (send_nonce (chan w) + 1) mod 2 ^ 64).
Proof.
  unfold w', step, exec, send_unsafe. destruct (send_key (chan w)) as [key|] eqn:Hk.
  - rewrite bind_bind, bind_this, Hk. destruct (gcm_encrypt key _ plain aad) as [cipher hdr_tag]. rewrite !bind_bind, bind_upd, bind_bind, bind_write, bind_bind.
    set (w1 := emit _ _). pose proof (keeps_check_message_limit w1) as Hlim. unfold bind. destruct (check_message_limit w1) as [[]w2]; cbn [snd ret] in *.
    all: destruct Hlim as [Hs Hr].
    all: split_and!; [exact Hr|intros E E2; destruct (Hs E2) as [E3 _]; cbn in E3; congruence|intros _ E2; by destruct (Hs E2)].
  - assert (same_keys w w') as [Hs Hr]; [|split_and!; [done|done|by intros ?%eq_sym]].
    assert (keeps same_keys (bind advance_connection_attempt (fun _ => queue_message t aad plain))) as Hkeep by framed.
    specialize (Hkeep w). unfold w', step, exec, send_unsafe. rewrite bind_bind, bind_this, Hk. unfold bind at 1.
    destruct (bind advance_connection_attempt _ w) as [[]w2]; exact Hkeep.
Qed.

(** ** Receiving *)

Lemma check_message_limit_returns w : (check_message_limit w).1 = Ok tt.
Proof.
  assert (forall w, (bind reset_key_exchange (fun _ => initiate) w).1 = Ok tt) as Hreset.
  { intros w'. unfold reset_key_exchange, reset_kex, forget_peer, new_salt. rewrite !bind_bind, bind_upd, !bind_bind, bind_upd, !bind_bind, bind_upd, bind_upd, !bind_bind, bind_draw, bind_upd.
    by rewrite initiate_ok. }
  unfold check_message_limit. rewrite bind_this. cbv zeta. destruct (_ && _); [apply Hreset|]. destruct (_ <=? _); [|done].
  rewrite !bind_upd. apply Hreset.
Qed.

(** A message that is opened has a nonce above the last one, which becomes the
    last one. *)
Lemma decrypt_spec h aad cipher key w : recv_key (chan w) = Some key ->
  exists r w', decrypt h aad cipher w = (Ok r, w') /\ same_send w w' /\
    match r with
    | None => same_recv w w'
    | Some plain => local_recv_nonce (chan w) < get_wire_nonce (iv h) /\ gcm_decrypt key (iv h) (tag h) cipher aad = Some plain /\
        (recv_key (chan w') = Some k -> key = k /\ local_recv_nonce (chan w') = get_wire_nonce (iv h))
    end.
Proof.
  intros Hk. unfold decrypt. rewrite bind_this, Hk. destruct (N.leb_spec (get_wire_nonce (iv h)) (local_recv_nonce (chan w))) as [Hle|Hlt]; [by exists None, w|].
  destruct (gcm_decrypt key (iv h) (tag h) cipher aad) as [plain|] eqn:Hd.
  - rewrite bool_decide_eq_true_2 by done. cbn [when]. rewrite bind_upd. set (w1 := with_chan _ w).
    pose proof (keeps_check_message_limit w1) as [Hs Hr]. pose proof (check_message_limit_returns w1) as Hret. unfold bind.
    destruct (check_message_limit w1) as [r w2]. cbn [fst snd] in *. subst r. exists (Some plain), w2. split_and!; [done|exact Hs|done|done|].
    intros E. destruct (Hr E) as [E1 E2]. cbn in E1, E2. split; congruence.
  - rewrite bool_decide_eq_false_2 by (by intros []). cbn [when]. rewrite bind_ret.
    pose proof (keeps_check_message_limit w) as [Hs Hr]. pose proof (check_message_limit_returns w) as Hret. unfold bind.
    destruct (check_message_limit w) as [r w2]. cbn [fst snd] in *. subst r. by exists None, w2.
Qed.

(** The calls that receive, in one form. *)
Definition receives (op : ChannelOp) : Prop := match op with RecvAuthenticated _ _ | RecvAuthenticatedWithLoad _ | RecvEncrypted _ _ => True | _ => False end.

Lemma discard {A} (m : M World A) w : (bind m (fun _ => ret tt) w).2 = (m w).2.
Proof. unfold bind. by destruct (m w) as [[]]. Qed.

Lemma exec_receive op w : receives op -> step op w = (receive op w).2.
Proof. destruct op; try done; intros _; apply discard. Qed.

Lemma receive_form op : receives op ->
  match incoming op with
  | Some (h, aad, cipher) => exists post : option bytes -> option bytes, (forall p, is_Some (post p) <-> is_Some p) /\
      forall w, receive op w = with_recv_key None (bind (decrypt h aad cipher) (fun p => ret (post p))) w
  | None => exists e, forall w, receive op w = with_recv_key None (throw e) w
  end.
Proof.
  destruct op as [|aad data|data|aad data| | |]; try done; intros _; unfold incoming, receive, recv_authenticated, recv_authenticated_with_load, recv_encrypted, lift.
  - destruct (gcm_deserialise data) as [[h rest]|e] eqn:Hd; [|by exists e].
    exists (fun p => match p with Some _ => Some rest | None => None end). split; [by intros []|]. done.
  - destruct (skip _ data) as [rest|e]; cbn [rbind]; [|by exists e]. destruct (gcm_deserialise rest) as [[h rest']|e] eqn:Hd.
    + exists (fun p => match p with Some _ => Some (take (length data - N.to_nat gcm_serialised_size) data) | None => None end). split; [by intros []|]. intros w. unfold with_recv_key. rewrite !bind_this.
      destruct (recv_key (chan w)); [|done]. rewrite bind_pure, Hd. reflexivity.
    + exists e. intros w. unfold with_recv_key. rewrite !bind_this. destruct (recv_key (chan w)); [|done]. by rewrite bind_pure, Hd.
  - destruct (gcm_deserialise data) as [[h rest]|e] eqn:Hd; [|by exists e]. exists id. split; [done|]. intros w. unfold with_recv_key. rewrite !bind_this.
    destruct (recv_key (chan w)); [|done]. rewrite bind_pure. unfold bind. by destruct (decrypt _ _ _ w) as [[]].
Qed.

(** The data that arrived with the call [op] open as [e]. *)
Definition opens_as (op : ChannelOp) (e : N * bytes * bytes) : Prop :=
  exists h cipher, incoming op = Some (h, e.1.2, cipher) /\ e.1.1 = get_wire_nonce (iv h) /\
    gcm_decrypt k (iv h) (tag h) cipher e.1.2 = Some e.2.
(** Something that has been delivered: its nonce is new, and it opens. *)
Definition fresh_entry (op : ChannelOp) (w : World) (e : N * bytes * bytes) : Prop :=
  local_recv_nonce (chan w) < e.1.1 /\ opens_as op e.

Lemma receive_step op w : receives op ->
  same_send w (step op w) /\
  ((accepting op w = [] /\ same_recv w (step op w)) \/
   exists e, accepting op w = [e] /\ fresh_entry op w e /\ (recv_key (chan (step op w)) = Some k -> local_recv_nonce (chan (step op w)) = e.1.1)).
Proof.
  intros Hop. rewrite (exec_receive op w Hop). pose proof (receive_form op Hop) as Hform. unfold accepting, returned.
  destruct (recv_key (chan w)) as [key|] eqn:Hk.
  - destruct (incoming op) as [[[h aad] cipher]|] eqn:Hin.
    + destruct Hform as (post & Hpost & Hw). destruct (decrypt_spec h aad cipher key w Hk) as (r & w' & Hd & Hs & Hr).
      rewrite Hw. unfold with_recv_key. rewrite bind_this, Hk, (bind_ok _ _ _ _ _ Hd). cbn [ret fst snd]. split; [done|].
      pose proof (Hpost r) as Hpr. destruct r as [plain|].
      * destruct Hr as (Hn & Hplain & Hlast). destruct (post (Some plain)) as [b|]; [|by destruct Hpr as [_ []]; [done|]].
        case_decide as E; [|left; split; [done|intros E2; destruct (Hlast E2); congruence]]. right. simplify_eq. eexists. split; [done|].
        split; [split; [done|]|by intros E2; destruct (Hlast E2)]. exists h, cipher. by rewrite Hplain.
      * left. split; [|done]. destruct (post None); [by destruct Hpr as [[] _]|]. by case_decide.
    + destruct Hform as [e Hw]. rewrite Hw. unfold with_recv_key. rewrite bind_this, Hk. cbn. split; [by intros ?|]. left. split; [by case_decide|by intros ?].
  - assert (same_keys w (receive op w).2) as [Hs Hr].
    { assert (receive op w = bind advance_connection_attempt (fun _ => ret None) w) as ->.
      { destruct (incoming op) as [[[h aad] cipher]|]; [destruct Hform as (post & _ & Hw)|destruct Hform as [e Hw]];
          rewrite Hw; unfold with_recv_key; by rewrite bind_this, Hk. }
      assert (keeps same_keys (bind advance_connection_attempt (fun _ => ret (@None bytes)))) as Hkeep by framed. apply Hkeep. }
    split; [done|]. left. split; [|done]. case_decide; congruence.
Qed.

Lemma other_step op w : match op with Close | Wait _ => True | _ => False end -> same_keys w (step op w).
Proof.
  destruct op; done.
Qed.

(** ** Logs *)

(** The nonces grow. *)
Fixpoint ascending {A} (nonce : A -> N) (n : N) (l : list A) : Prop :=
  match l with
  | [] => True
  | x :: l => n < nonce x /\ ascending nonce (nonce x) l
  end.

Lemma ascending_weaken {A} (nonce : A -> N) n n' l : ascending nonce n l -> n' <= n -> ascending nonce n' l.
Proof. destruct l; [done|]. intros [H1 H2] Hn. split; [lia|done]. Qed.

Lemma ascending_elem {A} (nonce : A -> N) n l x : ascending nonce n l -> x ∈ l -> n < nonce x.
Proof.
  revert n. induction l as [|y l IH]; intros n Ha Hx; [by apply elem_of_nil in Hx|]. destruct Ha as [Hy Ha].
  apply elem_of_cons in Hx as [->|Hx]; [done|]. specialize (IH _ Ha Hx). lia.
Qed.

Lemma ascending_fmap {A B} (f : A -> B) (nonce : B -> N) n l : ascending (fun x => nonce (f x)) n l -> ascending nonce n (f <$> l).
Proof. revert n. induction l as [|x l IH]; intros n; [done|]. intros [H1 H2]. split; [done|]. by apply IH. Qed.

Lemma ascending_nodup {A} (nonce : A -> N) n l : ascending nonce n l -> NoDup (nonce <$> l).
Proof.
  revert n. induction l as [|x l IH]; intros n; [constructor|]. intros [H1 H2]. cbn. constructor; [|by eapply IH].
  intros (y & Hy & Hin)%list_elem_of_fmap. pose proof (ascending_elem nonce _ _ _ H2 Hin). lia.
Qed.

(** Of two lists with growing nonces, one whose elements are in the other is
    the other with elements left out. *)
Lemma ascending_sublist {A} (nonce : A -> N) n n' (l1 l2 : list A) : ascending nonce n l1 -> ascending nonce n' l2 -> (forall x, x ∈ l1 -> x ∈ l2) -> sublist l1 l2.
Proof.
  revert n n' l1. induction l2 as [|y l2 IH]; intros n n' l1 H1 H2 Hin.
  { destruct l1 as [|x l1]; [constructor|]. exfalso. eapply not_elem_of_nil, Hin. left. }
  destruct H2 as [Hy H2]. destruct l1 as [|x l1]; [apply sublist_nil_l|]. destruct H1 as [Hx H1].
  assert (forall z, z ∈ l1 -> nonce x < nonce z) as Hlt by (intros z Hz; by apply (ascending_elem nonce _ l1)).
  pose proof (Hin x ltac:(left)) as [->|Hx2]%elem_of_cons.
  - apply sublist_skip. apply (IH _ _ _ H1 H2). intros z Hz. pose proof (Hin z ltac:(by right)) as [->|?]%elem_of_cons; [|done]. specialize (Hlt _ Hz). lia.
  - pose proof (ascending_elem nonce _ l2 x H2 Hx2) as Hyx. apply sublist_cons. apply (IH n (nonce y) (x :: l1)); [by split|done|].
    intros z Hz. pose proof (Hin z Hz) as [->|?]%elem_of_cons; [|done]. exfalso.
    apply elem_of_cons in Hz as [->|Hz]; [lia|]. specialize (Hlt _ Hz). lia.
Qed.

(** Under the key, nothing is sealed twice with a nonce. *)
Lemma sealed_log_ascending ops w n : exchanges_fresh same_send ops w ->
  (send_key (chan w) = Some k -> n < send_nonce (chan w) /\ send_nonce (chan w) + N.of_nat (length ops) < 2 ^ 56) ->
  ascending fst n (sealed_log ops w) /\ Forall (fun e => e.1 < 2 ^ 56) (sealed_log ops w).
Proof.
  revert w n. induction ops as [|op ops IH]; intros w n Hf Hn; [done|]. destruct Hf as [Hop Hf]. cbn [sealed_log].
  assert (sealing op w = [] /\ same_send w (step op w) \/
    exists m, sealing op w = [(send_nonce (chan w), m)] /\ send_key (chan w) = Some k /\
      (send_key (chan (step op w)) = Some k -> send_nonce (chan (step op w)) = (send_nonce (chan w) + 1) mod 2 ^ 64)) as [[-> Hs]|(m & -> & Hk & Hs)].
  { destruct op as [t aad plain| | | | | |]; cbn [sealing].
    - destruct (send_step t aad plain w) as (_ & H1 & H2). case_decide; [right|left]; eauto.
    - left. split; [done|]. by apply (receive_step (RecvAuthenticated _ _)).
    - left. split; [done|]. by apply (receive_step (RecvAuthenticatedWithLoad _)).
    - left. split; [done|]. by apply (receive_step (RecvEncrypted _ _)).
    - by left.
    - left. split; [done|]. by apply other_step.
    - left. split; [done|]. by apply other_step. }
  - apply IH; [done|]. intros E. destruct (Hs E) as [E1 ->]. specialize (Hn E1). cbn [length] in Hn. lia.
  - destruct (Hn Hk) as [H1 H2]. cbn [length] in H2. destruct (IH (step op w) (send_nonce (chan w)) Hf) as [IH1 IH2].
    { intros E. rewrite (Hs E), N.mod_small by lia. lia. }
    split; [by split|]. constructor; [cbn; lia|done].
Qed.

Lemma accepted_log_ascending ops w n : exchanges_fresh same_recv ops w -> (recv_key (chan w) = Some k -> n <= local_recv_nonce (chan w)) ->
  ascending (fun e => e.1.1) n (accepted_log ops w) /\
  Forall (fun e => exists op, op ∈ ops /\ opens_as op e) (accepted_log ops w).
Proof.
  revert w n. induction ops as [|op ops IH]; intros w n Hf Hn; [done|]. destruct Hf as [Hop Hf]. cbn [accepted_log].
  assert (accepting op w = [] /\ same_recv w (step op w) \/
    exists e, accepting op w = [e] /\ recv_key (chan w) = Some k /\ fresh_entry op w e /\
      (recv_key (chan (step op w)) = Some k -> local_recv_nonce (chan (step op w)) = e.1.1)) as [[-> Hs]|(e & -> & Hk & He & Hs)].
  { assert (receives op \/ (forall w, accepting op w = []) /\ ~ receives op) as [Hr|[Ha Hr]].
    { destruct op; try (by left); right; (split; [|by intros []]); intros w'; unfold accepting; by case_match. }
    - destruct (receive_step op w Hr) as [_ [?|(e & He & ?)]]; [by left|]. right. exists e. split_and!; try tauto.
      revert He. unfold accepting. by destruct (decide (recv_key (chan w) = Some k)).
    - left. split; [done|]. destruct op as [t aad plain| | | | | |]; try done; by apply send_step. }
  - destruct (IH (step op w) n Hf) as [IH1 IH2]. { intros E. destruct (Hs E) as [E1 ->]. by apply Hn. }
    split; [exact IH1|]. eapply Forall_impl; [exact IH2|]. intros e (o & Ho & He). exists o. split; [by right|done].
  - destruct He as [H1 H2]. destruct (IH (step op w) e.1.1 Hf) as [IH1 IH2]. { intros E. rewrite (Hs E). lia. }
    split; [split; [|done]; specialize (Hn Hk); lia|]. constructor; [exists op; split; [left|done]|].
    eapply Forall_impl; [exact IH2|]. intros e' (o & Ho & He'). exists o. split; [by right|done].
Qed.

(** ** Messages in the log have been handed to the host *)

Fixpoint run (ops : list ChannelOp) (w : World) : World :=
  match ops with
  | [] => w
  | op :: ops => run ops (step op w)
  end.

Section addressed.
(** The identifiers of a channel with peer [p] on node [self_] stay, and what it
    writes is addressed to [p]. *)
Variables (p self_ : string).
Definition ids (c : Channel) : Prop := peer_id c = p /\ self c = self_.
Definition addressed (m : Outbound) : Prop :=
  match m with
  | node_outbound to _ from _ => to = p /\ from = self_
  | close_node_outbound to => to = p
  | associate_node_address _ _ _ => False
  end.
Definition extends (w w' : World) : Prop :=
  ids (chan w) -> ids (chan w') /\ exists ms, to_host w' = (to_host w ++ ms)%list /\ Forall addressed ms.
#[local] Instance extends_preorder : PreOrder extends.
Proof.
  split; [intros w Hw; split; [done|exists []; by rewrite app_nil_r]|]. intros w1 w2 w3 H1 H2 Hw.
  destruct (H1 Hw) as [Hw2 (ms & E & Hms)]. destruct (H2 Hw2) as [Hw3 (ms' & E' & Hms')]. split; [done|]. exists (ms ++ ms')%list.
  split; [by rewrite E', E, app_assoc|]. by apply Forall_app.
Qed.

Lemma extends_upd f : (forall c, self (f c) = self c /\ peer_id (f c) = peer_id c) -> keeps extends (upd f).
Proof. intros Hf. apply keeps_modify. intros w [Hp Hs]. destruct (Hf (chan w)) as [E1 E2]. split; [split; cbn; congruence|exists []; by rewrite app_nil_r]. Qed.

Lemma extends_write m : addressed m -> keeps extends (write_message m).
Proof. intros Hm. apply keeps_modify. intros w Hw. split; [done|]. exists [m]. by repeat constructor. Qed.

Lemma extends_this {A} (f : Channel -> M World A) : (forall c, ids c -> keeps extends (f c)) -> keeps extends (bind this f).
Proof. intros Hf w Hw. exact (Hf (chan w) Hw w Hw). Qed.

Lemma extends_draw : keeps extends draw.
Proof. intros w Hw. split; [done|exists []; by rewrite app_nil_r]. Qed.
#[local] Hint Resolve extends_draw : extends.

Ltac grown := repeat
  match goal with
  | |- keeps _ (bind this _) => refine (extends_this _ _); intros ? []
  | |- keeps _ (upd _) => by apply extends_upd
  | |- keeps _ (write_message _) => by apply extends_write
  | _ => first [keeps_step | solve [auto 1 with extends]]
  end.

Lemma extends_get_own_key_share : keeps extends get_own_key_share.
Proof. unfold get_own_key_share, get_own_key. grown. Qed.
#[local] Hint Resolve extends_get_own_key_share : extends.

Lemma extends_initiate : keeps extends initiate.
Proof. unfold initiate, reset_kex, forget_peer, new_salt, send_key_exchange_init, send_channel_msg. grown. Qed.
#[local] Hint Resolve extends_initiate : extends.

Lemma extends_reset_key_exchange : keeps extends reset_key_exchange.
Proof. unfold reset_key_exchange, reset_kex, forget_peer, new_salt. grown. Qed.
#[local] Hint Resolve extends_reset_key_exchange : extends.

Lemma extends_check_message_limit : keeps extends check_message_limit.
Proof. unfold check_message_limit. grown. Qed.
#[local] Hint Resolve extends_check_message_limit : extends.

Lemma extends_advance : keeps extends advance_connection_attempt.
Proof. unfold advance_connection_attempt. grown. Qed.
#[local] Hint Resolve extends_advance : extends.

Lemma extends_send t aad plain : keeps extends (send_unsafe t aad plain).
Proof. unfold send_unsafe, queue_message. grown. Qed.
#[local] Hint Resolve extends_send : extends.

Lemma extends_derive_key label : keeps extends (derive_key label).
Proof. unfold derive_key, get_shared_secret, get_own_key. grown. Qed.
#[local] Hint Resolve extends_derive_key : extends.

Lemma extends_update_keys : keeps extends update_send_key /\ keeps extends update_recv_key /\ keeps extends establish.
Proof. unfold update_send_key, update_recv_key, establish, reset_kex. split_and!; grown. Qed.

Lemma extends_flush : keeps extends flush_pending_outgoing.
Proof. unfold flush_pending_outgoing, send_again. grown. Qed.
#[local] Hint Resolve extends_flush : extends.

Lemma extends_key_exchange data : keeps extends (recv_key_exchange_message data).
Proof.
  destruct extends_update_keys as (? & ? & ?). intros w. unfold recv_key_exchange_message. set (m := bind _ _).
  assert (keeps extends m) as Hm; [|specialize (Hm w); by destruct (m w) as [[]]].
  unfold m, recv_key_exchange_init, recv_key_exchange_response, recv_key_exchange_final, accept_init, accept_response, reset_kex, load_peer_key_share,
    send_key_exchange_response, send_key_exchange_final, send_channel_msg, get_peer_key_share, verify_peer_certificate.
  grown.
Qed.

Lemma extends_exec op : keeps extends (exec op).
Proof.
  destruct op; unfold exec, recv_authenticated, recv_authenticated_with_load, recv_encrypted, with_recv_key, decrypt, close_channel.
  all: pose proof extends_key_exchange; grown.
Qed.

Lemma extends_run ops w : extends w (run ops w).
Proof. revert w. induction ops as [|op ops IH]; intros w; [done|]. cbn [run]. etrans; [apply (extends_exec op)|apply IH]. Qed.
End addressed.

Lemma sealing_sent op w e : e ∈ sealing op w -> sealed k e.1 (chan w) e.2 ∈ to_host (step op w).
Proof.
  destruct op as [t aad plain| | | | | |]; cbn [sealing]; try (by intros ?%elem_of_nil). case_decide as Hk; [|by intros ?%elem_of_nil].
  intros ->%list_elem_of_singleton. cbn [fst snd]. unfold step, exec. rewrite discard. unfold send_unsafe. rewrite bind_this, Hk. unfold sealed. cbn [raw_plain raw_aad msg_type].
  destruct (gcm_encrypt k _ plain aad) as [cipher hdr_tag]. cbn [fst snd]. rewrite bind_upd, bind_write. set (w1 := emit _ _).
  pose proof (extends_check_message_limit (peer_id (chan w1)) (self (chan w1)) w1) as Hkeep. unfold bind.
  destruct (check_message_limit w1) as [[]w2]; destruct (Hkeep (conj eq_refl eq_refl)) as [_ (ms & E & _)]; cbn [snd ret] in *; rewrite E;
    apply elem_of_app; left; apply elem_of_app; right; by apply list_elem_of_singleton.
Qed.

Lemma sealed_log_sent ops w e : e ∈ sealed_log ops w -> sealed k e.1 (chan w) e.2 ∈ to_host (run ops w).
Proof.
  revert w. induction ops as [|op ops IH]; intros w; cbn [sealed_log run]; [by intros ?%elem_of_nil|].
  intros [Hin|Hin]%elem_of_app.
  - destruct (extends_run _ _ ops (step op w) (conj eq_refl eq_refl)) as [_ (ms & -> & _)]. apply elem_of_app. left. by apply sealing_sent.
  - specialize (IH _ Hin). destruct (extends_exec _ _ op w (conj eq_refl eq_refl)) as [[E1 E2] _].
    by rewrite (sealed_same k _ (chan w) (chan (step op w)) _ E1 E2) in IH.
Qed.

Definition entry (e : N * OutgoingMsg) : N * bytes * bytes := (e.1, raw_aad e.2, raw_plain e.2).

(** Nobody forges a message under [k] in these runs: of the data that arrive at
    the second node, those that open under [k] are, with nonce, tag, ciphertext
    and authenticated data, an output of the cipher for a message the first
    node has sealed. *)
Definition no_forgery (opsA : list ChannelOp) (wa : World) (opsB : list ChannelOp) : Prop :=
  forall op h aad cipher, op ∈ opsB -> incoming op = Some (h, aad, cipher) ->
    is_Some (gcm_decrypt k (iv h) (tag h) cipher aad) ->
    exists n m, (n, m) ∈ sealed_log opsA wa /\ iv h = wire_nonce n /\ aad = raw_aad m /\
      gcm_encrypt k (iv h) (raw_plain m) aad = (cipher, tag h).

(** C23. Let two nodes run any calls of their channels, with any data arriving,
    in which no key exchange brings the key [k] back, and let nobody forge a
    message under [k]. Then what the second node accepts under [k] is, in order
    and without repetition, part of what the first has sealed, with the
    authenticated data and plaintext it was sealed with; each message has its
    own nonce, and all that was sealed has been handed to the host for
    sending. *)
Theorem channel_delivers `{!ChannelCryptoLaws} opsA opsB wa wb :
  exchanges_fresh same_send opsA wa -> exchanges_fresh same_recv opsB wb ->
  0 < send_nonce (chan wa) -> send_nonce (chan wa) + N.of_nat (length opsA) < 2 ^ 56 ->
  no_forgery opsA wa opsB ->
  accepted_log opsB wb `sublist_of` (entry <$> sealed_log opsA wa) /\
  NoDup (fst <$> sealed_log opsA wa) /\
  (forall n m, (n, m) ∈ sealed_log opsA wa -> sealed k n (chan wa) m ∈ to_host (run opsA wa)).
Proof.
  intros HfA HfB Hpos H56 Hauth.
  destruct (sealed_log_ascending opsA wa 0 HfA) as [HA Hbound]; [lia|]. destruct (accepted_log_ascending opsB wb 0 HfB) as [HB Hopen]; [lia|].
  rewrite Forall_forall in Hbound. rewrite Forall_forall in Hopen. split_and!.
  - apply (ascending_sublist (fun e => e.1.1) 0 0); [done|by apply ascending_fmap|]. intros [[n aad] plain] He.
    destruct (Hopen _ He) as (op & Hop & h & cipher & Hin & Hn & Hd). cbn [fst snd] in *.
    destruct (Hauth op h aad cipher Hop Hin) as (n' & m & Hm & Hiv & -> & Henc); [by rewrite Hd|].
    pose proof (decrypt_encrypt k (iv h) (raw_plain m) (raw_aad m)) as Hde. rewrite Henc in Hde. cbn [fst snd] in Hde.
    assert (plain = raw_plain m) as -> by congruence.
    specialize (Hbound _ Hm). cbn [fst] in Hbound. rewrite Hiv, wire_nonce_get in Hn by done. subst n'.
    apply list_elem_of_fmap. by exists (n, m).
  - by apply (ascending_nodup fst 0).
  - intros n m. apply (sealed_log_sent opsA wa (n, m)).
Qed.
End deliver.

(** ** An example *)

Definition zeros (n : nat) : bytes := repeat Byte.x00 n.
Definition example_aad : bytes := [Byte.x41].
Definition example_plain : bytes := [Byte.x42].
Definition example_key : bytes := [Byte.x4b].

(** A cipher that does not hide its plaintext, whose tag is the start of what
    it authenticates. *)
Definition example_tag (key iv cipher aad : bytes) : bytes := take 16 (key ++ iv ++ cipher ++ aad ++ zeros 16)%list.
Definition tagged_crypto : ChannelCrypto := {|
  public_key_raw n := le_split 8 n;
  key_from_raw_ec_point b := Some b;
  derive_shared_secret n p := le_split 8 ((n + le_combine p) mod 256 ^ N.of_nat 8);
  random_salt n := [Byte.x01];
  hkdf s salt label := s;
  gcm_encrypt key iv plain aad := (plain, example_tag key iv plain aad);
  gcm_decrypt key iv tag cipher aad := if decide (tag = example_tag key iv cipher aad) then Some cipher else None;
  sign _ _ := [Byte.x01];
  make_verifier c := Ok c;
  verify_certificate _ _ := true;
  verify_signature _ _ _ := true;
|}.

Lemma tagged_laws : @ChannelCryptoLaws tagged_crypto.
Proof.
  split; try done.
  - intros a b. cbn [derive_shared_secret public_key_raw tagged_crypto]. rewrite !le_combine_split.
    f_equal. rewrite !N.Div0.add_mod_idemp_r. f_equal. lia.
  - intros key iv plain aad. cbn [gcm_encrypt tagged_crypto snd]. unfold example_tag.
    rewrite length_take, !length_app. unfold zeros. rewrite repeat_length. unfold GCM_SIZE_TAG. lia.
  - intros key iv plain aad. cbn [gcm_encrypt gcm_decrypt tagged_crypto fst snd]. by rewrite decide_True.
Qed.

Definition example_channel (self_ peer_ : string) (send recv : option bytes) : Channel :=
  mkChannel self_ [] 0 [] None [] peer_ new_kex ESTABLISHED 0 [] 1000 recv send 1 None [] 0.
Definition example_a : World := mkWorld (example_channel "a" "b" (Some example_key) None) [] 0 0.
Definition example_b : World := mkWorld (example_channel "b" "a" None (Some example_key)) [] 0 0.
Definition example_sends : list ChannelOp := [Send consensus_msg example_aad example_plain].
Definition example_data (plain : bytes) : bytes :=
  (example_tag example_key (wire_nonce 1) example_plain example_aad ++ wire_nonce 1 ++ plain)%list.
(** The message arrives altered, and then twice as it was sent. *)
Definition example_receives : list ChannelOp :=
  [RecvEncrypted example_aad (example_data [Byte.x43]); RecvEncrypted example_aad (example_data example_plain);
   RecvEncrypted example_aad (example_data example_plain)].

Lemma example_no_forgery : @no_forgery tagged_crypto example_key example_sends example_a example_receives.
Proof.
  intros op h aad cipher Hop Hin [plain Hd].
  assert (op = RecvEncrypted example_aad (example_data [Byte.x43]) \/ op = RecvEncrypted example_aad (example_data example_plain)) as [->| ->].
  { unfold example_receives in Hop. rewrite !elem_of_cons, elem_of_nil in Hop. tauto. }
  - exfalso. vm_compute in Hin. injection Hin as <- <- <-. vm_compute in Hd. discriminate Hd.
  - exists 1, (mkOutgoing consensus_msg example_aad example_plain). vm_compute in Hin. injection Hin as <- <- <-.
    split_and!; [apply list_elem_of_singleton; reflexivity|vm_compute; reflexivity..].
Qed.

Lemma channel_delivers_witness :
  @accepted_log tagged_crypto example_key example_receives example_b = [(1, example_aad, example_plain)] /\
  @accepted_log tagged_crypto example_key example_receives example_b `sublist_of`
    (entry <$> @sealed_log tagged_crypto example_key example_sends example_a).
Proof.
  split; [vm_compute; reflexivity|].
  refine (proj1 (@channel_delivers tagged_crypto example_key tagged_laws example_sends example_receives example_a example_b _ _ _ _ _)).
  - split; exact I.
  - split; [exact I|split; [exact I|split; exact I]].
  - reflexivity.
  - reflexivity.
  - exact example_no_forgery.
Defined.
End ChannelsDeliver.
