(* ===== verification/ChannelManager.v ===== *)
(** * The channels of a node

    [ccf::NodeToNodeChannelManager] (src/node/node_to_node_channel_manager.h)
    over the channels of [Channels]: one channel per peer, made when it is
    first used and closed when it has been idle. A call for a peer changes no
    other channel and sends to no other peer. *)

From S2P Require Import Prelude LedgerEntries Channels ChannelsSpec ChannelsDeliver.
From Stdlib Require Strings.String Strings.Byte.

Module ChannelManager.
Import Channels ChannelsSpec ChannelsDeliver.
Open Scope N_scope.
Open Scope m_scope.

Record ThisNode := mkThisNode {
  node_id : string;
  tn_service_cert : bytes;
  tn_node_kp : N;
  endorsed_node_cert : option bytes;
}.

Record ChannelInfo := mkInfo { channel : Channel; idle_time : N }.

(** The manager, with the messages to the host, the draws from the entropy
    source and the time. *)
Record Manager := mkManager {
  channels : gmap string ChannelInfo;
  this_node : option ThisNode;
  n2n_message_limit : option N;
  idle_timeout : option N;
  outbound : list Outbound;
  m_draws : N;
  m_clock : N;
}.
Definition eta_Manager (s : Manager) :=
  mkManager (channels s) (this_node s) (n2n_message_limit s) (idle_timeout s) (outbound s) (m_draws s) (m_clock s).
Definition set_channels (v : gmap string ChannelInfo) (s : Manager) : Manager := ltac:(set_field eta_Manager (channels s) v s).
Definition set_this_node (v : option ThisNode) (s : Manager) : Manager := ltac:(set_field eta_Manager (this_node s) v s).
Definition set_n2n_message_limit (v : option N) (s : Manager) : Manager := ltac:(set_field eta_Manager (n2n_message_limit s) v s).
Definition set_n2n_idle_timeout (v : option N) (s : Manager) : Manager := ltac:(set_field eta_Manager (idle_timeout s) v s).
Definition set_m_draws (v : N) (s : Manager) : Manager := ltac:(set_field eta_Manager (m_draws s) v s).

Definition set_outbound (v : list Outbound) (s : Manager) : Manager := ltac:(set_field eta_Manager (outbound s) v s).

Definition new_manager (draws_ clock_ : N) : Manager := mkManager ∅ None None None [] draws_ clock_.

Section manager.
Context `{ChannelCrypto}.
(** [Verifier::is_self_signed] *)
Variable is_self_signed : bytes -> bool.

Definition on (s : Manager) (c : Channel) : World := mkWorld c (outbound s) (m_draws s) (m_clock s).
(** The channel of a peer, as a call on it leaves it. *)
Definition off (peer : string) (idle : N) (w : World) (s : Manager) : Manager :=
  mkManager (<[peer := mkInfo (chan w) idle]> (channels s)) (this_node s) (n2n_message_limit s) (idle_timeout s) (to_host w) (draws w) (clock w).

Definition get_channel (peer : string) : M Manager Channel :=
  s <- gets (fun s => s) ;;;
  match n2n_message_limit s with
  | None => throw (RuntimeError "Node-to-node message limit has not yet been set")
  | Some limit =>
      match channels s !! peer with
      | Some info => modify (set_channels (<[peer := mkInfo (channel info) 0]> (channels s))) ;;; ret (channel info)
      | None =>
          match this_node s with
          | None => throw (RuntimeError "Endorsed node certificate has not yet been set")
          | Some node =>
              match endorsed_node_cert node with
              | None => throw (RuntimeError "Cannot create node-to-node channel without endorsed node certificate")
              | Some cert =>
                  let c := new_channel (tn_service_cert node) (tn_node_kp node) cert (node_id node) peer limit (m_draws s) in
                  modify (set_m_draws (m_draws s + 1)) ;;;
                  modify (set_channels (<[peer := mkInfo c 0]> (channels s))) ;;;
                  ret c
              end
          end
      end
  end.

(** A call on the channel of a peer. *)
Definition call {A} (peer : string) (m : M World A) : M Manager A :=
  c <- get_channel peer ;;;
  (fun s => let '(r, w) := m (on s c) in (r, off peer 0 w s)).

Definition initialize (self_id : string) (service_cert_ : bytes) (node_kp_ : N) (node_cert_ : option bytes) : M Manager unit :=
  refused <- match node_cert_ with
             | Some cert => _ <- lift (make_verifier cert) ;;; ret (is_self_signed cert)
             | None => ret false
             end ;;;
  if refused then ret tt else modify (set_this_node (Some (mkThisNode self_id service_cert_ node_kp_ node_cert_))).

(** The channels hold references to the certificate, so they see the new one. *)
Definition set_endorsed_node_cert (cert : bytes) : M Manager unit :=
  modify (fun s => set_channels ((fun info => mkInfo (set_node_cert cert (channel info)) (idle_time info)) <$> channels s)
    (set_this_node ((fun n => mkThisNode (node_id n) (tn_service_cert n) (tn_node_kp n) (Some cert)) <$> this_node s) s)).
Definition set_message_limit (limit : N) : M Manager unit := modify (set_n2n_message_limit (Some limit)).
Definition set_idle_timeout (ms : N) : M Manager unit := modify (set_n2n_idle_timeout (Some ms)).

(** [close_channel] of a channel, and its removal. *)
Definition close_and_erase (peer : string) (c : Channel) : M Manager unit := fun s =>
  let '(r, w) := Channels.close_channel (on s c) in
  (r, mkManager (delete peer (channels s)) (this_node s) (n2n_message_limit s) (idle_timeout s) (to_host w) (draws w) (clock w)).

Definition tick_channel (elapsed timeout : N) (peer : string) : M Manager unit :=
  s <- gets (fun s => s) ;;;
  match channels s !! peer with
  | None => ret tt
  | Some info =>
      let idle := idle_time info + elapsed in
      if idle <? timeout then modify (set_channels (<[peer := mkInfo (channel info) idle]> (channels s)))
      else close_and_erase peer (channel info)
  end.
(** [order] is the order in which the hash table is walked. *)
Definition tick (order : gmap string ChannelInfo -> list string) (elapsed : N) : M Manager unit :=
  s <- gets (fun s => s) ;;;
  match idle_timeout s with
  | None => ret tt
  | Some timeout => for_each (tick_channel elapsed timeout) (order (channels s))
  end.

Definition associate_node_address (peer hostname service : string) : M Manager unit :=
  modify (fun s => set_outbound (outbound s ++ [Channels.associate_node_address peer hostname service])%list s).

Definition have_channel (peer : string) (s : Manager) : bool := bool_decide (is_Some (channels s !! peer)).

Definition send_authenticated (to : string) (type : NodeMsgType) (data : bytes) : M Manager bool := call to (send_unsafe type data []).
Definition send_encrypted (to : string) (type : NodeMsgType) (header data : bytes) : M Manager bool := call to (send_unsafe type header data).
Definition recv_authenticated (from : string) (header data : bytes) : M Manager (option bytes) := call from (Channels.recv_authenticated header data).
Definition recv_authenticated_with_load (from : string) (data : bytes) : M Manager (option bytes) := call from (Channels.recv_authenticated_with_load data).
Definition recv_encrypted (from : string) (header data : bytes) : M Manager bytes :=
  plain <- call from (Channels.recv_encrypted header data) ;;;
  match plain with
  | None => throw DroppedMessage
  | Some p => ret p
  end.
Definition recv_channel_message (from : string) (data : bytes) : M Manager bool := call from (recv_key_exchange_message data).

Definition close_channel (peer : string) : M Manager unit :=
  s <- gets (fun s => s) ;;;
  match channels s !! peer with
  | Some info => close_and_erase peer (channel info)
  | None => ret tt
  end.

Definition channel_open (peer : string) : M Manager bool := c <- get_channel peer ;;; ret (Channels.channel_open c).

(** ** Runs *)

(** The order in which the table is walked is some order of its keys. *)
Variable order : gmap string ChannelInfo -> list string.
Hypothesis order_keys : forall m, order m ≡ₚ (map_to_list m).*1.

Inductive ManagerOp :=
| Initialize (self_id : string) (service_cert_ : bytes) (node_kp_ : N) (node_cert_ : option bytes)
| SetEndorsedNodeCert (cert : bytes)
| SetMessageLimit (limit : N)
| SetIdleTimeout (ms : N)
| Tick (elapsed : N)
| AssociateNodeAddress (peer hostname service : string)
| SendAuthenticated (to : string) (type : NodeMsgType) (data : bytes)
| SendEncrypted (to : string) (type : NodeMsgType) (header data : bytes)
| ReceiveAuthenticated (from : string) (header data : bytes)
| ReceiveAuthenticatedWithLoad (from : string) (data : bytes)
| ReceiveEncrypted (from : string) (header data : bytes)
| ReceiveChannelMessage (from : string) (data : bytes)
| CloseChannel (peer : string)
| ChannelOpen (peer : string).

Definition mexec (op : ManagerOp) : M Manager unit :=
  match op with
  | Initialize i sc kp cert => initialize i sc kp cert
  | SetEndorsedNodeCert cert => set_endorsed_node_cert cert
  | SetMessageLimit limit => set_message_limit limit
  | SetIdleTimeout ms => set_idle_timeout ms
  | Tick elapsed => tick order elapsed
  | AssociateNodeAddress peer hostname service => associate_node_address peer hostname service
  | SendAuthenticated to type data => send_authenticated to type data ;;; ret tt
  | SendEncrypted to type header data => send_encrypted to type header data ;;; ret tt
  | ReceiveAuthenticated from header data => recv_authenticated from header data ;;; ret tt
  | ReceiveAuthenticatedWithLoad from data => recv_authenticated_with_load from data ;;; ret tt
  | ReceiveEncrypted from header data => recv_encrypted from header data ;;; ret tt
  | ReceiveChannelMessage from data => recv_channel_message from data ;;; ret tt
  | CloseChannel peer => close_channel peer
  | ChannelOpen peer => channel_open peer ;;; ret tt
  end.
Definition mstep (op : ManagerOp) (s : Manager) : Manager := (mexec op s).2.
Definition mrun (ops : list ManagerOp) (s : Manager) : Manager := fold_left (fun s op => mstep op s) ops s.

(** The peer a call is for. *)
Definition concerns (op : ManagerOp) : option string :=
  match op with
  | AssociateNodeAddress p _ _ | SendAuthenticated p _ _ | SendEncrypted p _ _ _ | ReceiveAuthenticated p _ _
  | ReceiveAuthenticatedWithLoad p _ | ReceiveEncrypted p _ _ | ReceiveChannelMessage p _ | CloseChannel p | ChannelOpen p => Some p
  | _ => None
  end.
Definition destination (m : Outbound) : string :=
  match m with node_outbound to _ _ _ => to | close_node_outbound to => to | Channels.associate_node_address peer _ _ => peer end.

Definition manager_wf (s : Manager) : Prop := map_Forall (fun p info => peer_id (channel info) = p) (channels s).

(** A call for [peer] keeps the other channels and sends to [peer] only. *)
Definition local_to (peer : string) (s s' : Manager) : Prop :=
  manager_wf s -> manager_wf s' /\ (forall q, q <> peer -> channels s' !! q = channels s !! q) /\
    exists ms, outbound s' = (outbound s ++ ms)%list /\ Forall (fun m => destination m = peer) ms.

#[local] Instance local_to_preorder peer : PreOrder (local_to peer).
Proof.
  split; [intros s Hs; split_and!; [done|done|exists []; by rewrite app_nil_r]|]. intros s1 s2 s3 H1 H2 Hw.
  destruct (H1 Hw) as (Hw2 & Hq & ms & E & Hms). destruct (H2 Hw2) as (Hw3 & Hq' & ms' & E' & Hms'). split_and!; [done| |].
  - intros q Hne. by rewrite Hq', Hq.
  - exists (ms ++ ms')%list. split; [by rewrite E', E, app_assoc|]. by apply Forall_app.
Qed.

Lemma put_local peer c idle s s' : peer_id c = peer -> channels s' = <[peer := mkInfo c idle]> (channels s) ->
  (exists ms, outbound s' = (outbound s ++ ms)%list /\ Forall (fun m => destination m = peer) ms) -> local_to peer s s'.
Proof.
  intros Hp Hc Hms Hw. split_and!; [|intros q Hq; by rewrite Hc, lookup_insert_ne|done]. unfold manager_wf. rewrite Hc. by apply map_Forall_insert_2.
Qed.

Lemma delete_local peer s s' : channels s' = delete peer (channels s) ->
  (exists ms, outbound s' = (outbound s ++ ms)%list /\ Forall (fun m => destination m = peer) ms) -> local_to peer s s'.
Proof.
  intros Hc Hms Hw. split_and!; [|intros q Hq; by rewrite Hc, lookup_delete_ne|done]. unfold manager_wf. rewrite Hc. by apply map_Forall_delete.
Qed.

Lemma no_messages peer (s s' : Manager) : outbound s' = outbound s -> exists ms, outbound s' = (outbound s ++ ms)%list /\ Forall (fun m => destination m = peer) ms.
Proof. intros ->. exists []. by rewrite app_nil_r. Qed.

Lemma get_channel_local peer s : local_to peer s (get_channel peer s).2 /\
  (manager_wf s -> forall c, (get_channel peer s).1 = Ok c -> peer_id c = peer).
Proof.
  unfold get_channel, bind, gets. destruct (n2n_message_limit s) as [limit|]; [|by split].
  destruct (channels s !! peer) as [info|] eqn:Hc; cbn.
  - split; [|intros Hw c [= <-]; exact (Hw peer info Hc)]. intros Hw. eapply put_local; [exact (Hw peer info Hc)|done|by apply no_messages|done].
  - destruct (this_node s) as [node|]; [|by split]. destruct (endorsed_node_cert node) as [cert|]; [|by split]. cbn.
    split; [|by intros _ c [= <-]]. eapply put_local; [|done|by apply no_messages]. done.
Qed.

Lemma addressed_destination p q ms : Forall (addressed p q) ms -> Forall (fun m => destination m = p) ms.
Proof. intros Hms. refine (Forall_impl _ _ _ Hms _). intros []; cbn; naive_solver. Qed.

Lemma call_local {A} peer (m : M World A) : (forall p q, keeps (extends p q) m) -> keeps (local_to peer) (call peer m).
Proof.
  intros Hm s. unfold call, bind. destruct (get_channel_local peer s) as [Hl Hid]. destruct (get_channel peer s) as [[c|e] s1]; [|done]. cbn [fst snd] in *.
  specialize (Hm (peer_id c) (self c) (on s1 c) (conj eq_refl eq_refl)). destruct (m (on s1 c)) as [r w]. cbn [snd] in *.
  destruct Hm as [[E1 E2] (ms & E & Hms)]. intros Hw. destruct (Hl Hw) as (Hw1 & _). specialize (Hid Hw c eq_refl). revert Hw. fold (local_to peer s (off peer 0 w s1)).
  etrans; [exact Hl|]. eapply put_local; [|done|]; [congruence|]. exists ms. split; [done|]. apply addressed_destination in Hms. by rewrite Hid in Hms.
Qed.

Lemma close_writes c s : exists w, Channels.close_channel (on s c) = (Ok tt, w) /\ to_host w = (outbound s ++ [close_node_outbound (peer_id c)])%list /\ draws w = m_draws s + 1 /\ clock w = m_clock s.
Proof.
  unfold Channels.close_channel, reset_key_exchange, reset_kex, forget_peer, new_salt.
  rewrite bind_this, bind_write, bind_bind, bind_upd, !bind_bind, bind_upd, !bind_bind, bind_upd, bind_upd, !bind_bind, bind_draw, bind_upd, !bind_upd, upd_eq.
  eexists. split_and!; reflexivity.
Qed.

Lemma step_local op peer s : concerns op = Some peer -> local_to peer s (mstep op s).
Proof.
  destruct op; try done; intros [= ->]; unfold mstep, mexec.
  1: { intros Hw. split_and!; [done|done|]. eexists. split; [done|]. by repeat constructor. }
  all: unfold send_authenticated, send_encrypted, recv_authenticated, recv_authenticated_with_load, recv_encrypted, recv_channel_message.
  1-6: assert (forall B (m : M Manager B), keeps (local_to peer) m -> local_to peer s (bind m (fun _ => ret tt) s).2) as Hd
    by (intros B m Hm; specialize (Hm s); unfold bind; by destruct (m s) as [[]]); apply Hd.
  - apply call_local. intros p q. apply extends_send.
  - apply call_local. intros p q. apply extends_send.
  - apply call_local. intros p q w. specialize (extends_exec p q (RecvAuthenticated header data) w). unfold exec. by rewrite discard.
  - apply call_local. intros p q w. specialize (extends_exec p q (RecvAuthenticatedWithLoad data) w). unfold exec. by rewrite discard.
  - apply keeps_bind; [apply _| |intros []; keeps_auto].
    apply call_local. intros p q w. specialize (extends_exec p q (RecvEncrypted header data) w). unfold exec. by rewrite discard.
  - apply call_local. intros p q. apply extends_key_exchange.
  - unfold close_channel, bind, gets. destruct (channels s !! peer) as [info|] eqn:Hc; [|done]. intros Hw. unfold close_and_erase.
    destruct (close_writes (channel info) s) as (w & -> & Hh & _). eapply delete_local; [done| |done]. exists [close_node_outbound peer]. cbn. rewrite Hh, (Hw peer info Hc). by repeat constructor.
  - unfold channel_open. destruct (get_channel_local peer s) as [Hl _]. unfold bind. by destruct (get_channel peer s) as [[]].
Qed.

(** *** Time *)

Definition ticked (elapsed timeout : N) (info : ChannelInfo) : option ChannelInfo :=
  if idle_time info + elapsed <? timeout then Some (mkInfo (channel info) (idle_time info + elapsed)) else None.

Lemma tick_channel_ok elapsed timeout peer s info : manager_wf s -> channels s !! peer = Some info ->
  exists s', tick_channel elapsed timeout peer s = (Ok tt, s') /\ manager_wf s' /\
    channels s' = partial_alter (fun _ => ticked elapsed timeout info) peer (channels s) /\
    outbound s' = (outbound s ++ (if idle_time info + elapsed <? timeout then [] else [close_node_outbound peer]))%list.
Proof.
  intros Hw Hc. unfold tick_channel, bind, gets. rewrite Hc. unfold ticked. destruct (_ <? _).
  - eexists. split_and!; [done| |done|by rewrite app_nil_r]. apply map_Forall_insert_2; [exact (Hw peer info Hc)|done].
  - unfold close_and_erase. destruct (close_writes (channel info) s) as (w & -> & Hh & _). eexists. split_and!; [done| |done|].
    + by apply map_Forall_delete.
    + cbn [outbound]. by rewrite Hh, (Hw peer info Hc).
Qed.

(** The channels that have been idle for too long, in the order of the walk. *)
Definition idle_peers (elapsed timeout : N) (chs : gmap string ChannelInfo) (ps : list string) : list string :=
  filter (fun p => chs !! p ≫= ticked elapsed timeout = None) ps.

Lemma idle_peers_same elapsed timeout chs chs' ps : (forall p, p ∈ ps -> chs' !! p = chs !! p) -> idle_peers elapsed timeout chs' ps = idle_peers elapsed timeout chs ps.
Proof.
  intros Hs. unfold idle_peers. induction ps as [|p ps IH]; [done|]. rewrite !filter_cons, IH by (intros; apply Hs; by right). by rewrite (Hs p) by left.
Qed.

Lemma tick_walk elapsed timeout ps s : NoDup ps -> manager_wf s -> (forall p, p ∈ ps -> is_Some (channels s !! p)) ->
  exists s', for_each (tick_channel elapsed timeout) ps s = (Ok tt, s') /\ manager_wf s' /\
    (forall q, channels s' !! q = if decide (q ∈ ps) then channels s !! q ≫= ticked elapsed timeout else channels s !! q) /\
    outbound s' = (outbound s ++ (close_node_outbound <$> idle_peers elapsed timeout (channels s) ps))%list.
Proof.
  revert s. induction ps as [|p ps IH]; intros s Hnd Hw Hin; [exists s; split_and!; [done|done| |by rewrite app_nil_r]|].
  { intros q. by rewrite decide_False by apply not_elem_of_nil. }
  apply NoDup_cons in Hnd as [Hp Hnd]. destruct (Hin p ltac:(left)) as [info Hc].
  destruct (tick_channel_ok elapsed timeout p s info Hw Hc) as (s1 & H1 & Hw1 & Hc1 & Ho1).
  assert (forall q, q ∈ ps -> channels s1 !! q = channels s !! q) as Hsame by (intros q Hq; rewrite Hc1; apply lookup_partial_alter_ne; by intros ->).
  destruct (IH s1 Hnd Hw1) as (s2 & H2 & Hw2 & Hc2 & Ho2). { intros q Hq. rewrite Hsame by done. apply Hin. by right. }
  exists s2. cbn [for_each]. rewrite (bind_ok _ _ _ _ _ H1). split_and!; [done|done| |].
  - intros q. rewrite Hc2. destruct (decide (q = p)) as [->|Hne].
    + rewrite decide_False by done. rewrite decide_True by left. rewrite Hc1, Hc. apply lookup_partial_alter_eq.
    + rewrite Hc1, lookup_partial_alter_ne by done. destruct (decide (q ∈ ps)) as [Hq|Hq].
      * by rewrite decide_True by by right.
      * rewrite decide_False; [done|]. by intros [->|?]%elem_of_cons.
  - rewrite Ho2, Ho1, (idle_peers_same _ _ (channels s) (channels s1) ps Hsame). unfold idle_peers at 2. rewrite filter_cons. rewrite Hc. cbn [mbind option_bind].
    rewrite <- app_assoc. case_decide as E; revert E; unfold ticked; by destruct (_ <? _).
Qed.

Lemma tick_ok elapsed timeout s : manager_wf s -> idle_timeout s = Some timeout ->
  exists s', tick order elapsed s = (Ok tt, s') /\ manager_wf s' /\ (forall q, channels s' !! q = channels s !! q ≫= ticked elapsed timeout) /\
    outbound s' = (outbound s ++ (close_node_outbound <$> idle_peers elapsed timeout (channels s) (order (channels s))))%list.
Proof.
  intros Hw Ht. unfold tick, bind, gets. rewrite Ht.
  assert (forall q, q ∈ order (channels s) <-> is_Some (channels s !! q)) as Hq.
  { intros q. rewrite order_keys, list_elem_of_fmap. split.
    - intros ([q' info] & -> & Hin). apply elem_of_map_to_list in Hin. by exists info.
    - intros [info Hi]. exists (q, info). by rewrite elem_of_map_to_list. }
  destruct (tick_walk elapsed timeout (order (channels s)) s) as (s' & H1 & H2 & H3 & H4); [|done|by intros p Hp; apply Hq|].
  { rewrite order_keys. apply NoDup_fst_map_to_list. }
  exists s'. split_and!; [done|done| |done]. intros q. rewrite H3. case_decide as Hin; [done|]. destruct (channels s !! q) eqn:E; [|done]. destruct Hin. apply Hq. by rewrite E.
Qed.

Lemma mstep_wf op s : manager_wf s -> manager_wf (mstep op s).
Proof.
  intros Hw. destruct (concerns op) as [peer|] eqn:Hc; [by apply (step_local op peer s Hc)|].
  destruct op; try done; unfold mstep, mexec.
  - unfold initialize. destruct node_cert_ as [cert|]; [|done]. unfold lift, bind. destruct (make_verifier cert); [|done]. cbn. by destruct (is_self_signed cert).
  - by apply map_Forall_fmap.
  - destruct (idle_timeout s) as [timeout|] eqn:Ht.
    + by destruct (tick_ok elapsed timeout s Hw Ht) as (s' & -> & ? & _).
    + unfold tick, bind, gets. by rewrite Ht.
Qed.

(** In every state a manager reaches, a call for one peer leaves the channels
    of all others as they are and writes only messages addressed to that peer;
    and when time passes exactly the channels that have been idle for the
    timeout are closed and dropped, and the others only grow older. *)
Theorem channels_isolated d t ops (s := mrun ops (new_manager d t)) :
  (forall op peer, concerns op = Some peer ->
     (forall q, q <> peer -> channels (mstep op s) !! q = channels s !! q) /\
     exists ms, outbound (mstep op s) = (outbound s ++ ms)%list /\ Forall (fun m => destination m = peer) ms) /\
  (forall elapsed timeout, idle_timeout s = Some timeout ->
     (forall q, channels (mstep (Tick elapsed) s) !! q = channels s !! q ≫= ticked elapsed timeout) /\
     outbound (mstep (Tick elapsed) s) = (outbound s ++ (close_node_outbound <$> idle_peers elapsed timeout (channels s) (order (channels s))))%list).
Proof.
  assert (manager_wf s) as Hw.
  { unfold s, mrun. assert (forall s0, manager_wf s0 -> manager_wf (fold_left (fun s op => mstep op s) ops s0)) as Hrun; [|apply Hrun; done].
    induction ops as [|op ops IH]; intros s0 H0; [done|]. cbn [fold_left]. apply IH. by apply mstep_wf. }
  clearbody s. split.
  - intros op peer Hc. by destruct (step_local op peer s Hc Hw) as (_ & ? & ?).
  - intros elapsed timeout Ht. unfold mstep, mexec. destruct (tick_ok elapsed timeout s Hw Ht) as (s' & -> & _ & ? & ?). done.
Qed.
End manager.

(** A node with a channel to "b" sends to "c". *)
Definition example_order (m : gmap string ChannelInfo) : list string := (map_to_list m).*1.
Definition example_ops : list ManagerOp :=
  [SetMessageLimit 1000; Initialize "a" [] 0 (Some [Byte.x43]); SendAuthenticated "b" consensus_msg [Byte.x41]].

Lemma channels_isolated_witness :
  let s := @mrun tagged_crypto (fun _ => false) example_order example_ops (new_manager 0 0) in
  channels (@mstep tagged_crypto (fun _ => false) example_order (SendAuthenticated "c" consensus_msg [Byte.x41]) s) !! "b" = channels s !! "b".
Proof.
  intros s.
  refine (proj1 (proj1 (@channels_isolated tagged_crypto (fun _ => false) example_order _ 0 0 example_ops)
    (SendAuthenticated "c" consensus_msg [Byte.x41]) "c" eq_refl) "b" _).
  - intros m. reflexivity.
  - discriminate.
Defined.
End ChannelManager.
