(* ===== verification/PrimeField.v ===== *)
(** * Arithmetic modulo a prime

    Congruence as a setoid, Fermat's little theorem, the prime 2^31 - 1, and
    interpolation at 0. *)

From Stdlib Require Import ZArith Zdivisibility.
From S2P Require Import Prelude.

Module PrimeField.
Open Scope Z_scope.

(** ** Congruence *)

Section congruence.
Variable p : Z.
Definition eqm (a b : Z) : Prop := (p | a - b).

#[global] Instance eqm_equiv : Equivalence eqm.
Proof.
  split.
  - intros a. exists 0. ring.
  - intros a b [k Hk]. exists (- k). lia.
  - intros a b c [k Hk] [j Hj]. exists (k + j). lia.
Qed.

#[global] Instance eqm_add : Proper (eqm ==> eqm ==> eqm) Z.add.
Proof. intros a a' [k Hk] b b' [j Hj]. exists (k + j). lia. Qed.

#[global] Instance eqm_sub : Proper (eqm ==> eqm ==> eqm) Z.sub.
Proof. intros a a' [k Hk] b b' [j Hj]. exists (k - j). lia. Qed.

#[global] Instance eqm_opp : Proper (eqm ==> eqm) Z.opp.
Proof. intros a a' [k Hk]. exists (- k). lia. Qed.

#[global] Instance eqm_mul : Proper (eqm ==> eqm ==> eqm) Z.mul.
Proof. intros a a' [k Hk] b b' [j Hj]. exists (k * b + a' * j). replace (a * b - a' * b') with ((a - a') * b + a' * (b - b')) by ring. rewrite Hk, Hj. ring. Qed.

Lemma eqm_pow a b n : eqm a b -> eqm (a ^ n) (b ^ n).
Proof.
  intros E. destruct (Z.neg_nonneg_cases n) as [Hn|Hn]; [by rewrite !Z.pow_neg_r|].
  revert n Hn. apply (natlike_ind (fun n => eqm (a ^ n) (b ^ n))); [reflexivity|]. intros n Hn IH. rewrite !Z.pow_succ_r by done. by apply eqm_mul.
Qed.

Lemma eqm_of_eq a b : a = b -> eqm a b.
Proof. intros ->. reflexivity. Qed.

Lemma eqm_mod_iff a b : p <> 0 -> eqm a b <-> a mod p = b mod p.
Proof.
  intros Hp. unfold eqm. split.
  - intros [k Hk]. replace a with (b + k * p) by lia. by apply Z.mod_add.
  - intros E. exists (a / p - b / p). pose proof (Z.div_mod a p Hp). pose proof (Z.div_mod b p Hp). lia.
Qed.

Lemma eqm_mod a : p <> 0 -> eqm (a mod p) a.
Proof. intros Hp. apply eqm_mod_iff; [done|]. by apply Z.mod_mod. Qed.
End congruence.

(** ** Fermat's little theorem *)

Section fermat.
Variables (p : Z) (Hp : Z.prime p).

Lemma prime_pos : 1 < p.
Proof. by destruct Hp. Qed.

(** A factor that is not 0 cancels. *)
Lemma eqm_cancel a b c : ~ (p | a) -> eqm p (a * b) (a * c) -> eqm p b c.
Proof.
  intros Ha Hab. unfold eqm in *. replace (a * b - a * c) with (a * (b - c)) in Hab by ring.
  apply Z.divide_prime_mul in Hab; [|done]. tauto.
Qed.

Definition prod (l : list Z) : Z := foldr Z.mul 1 l.
Definition residues : list Z := seqZ 1 (p - 1).

Lemma prod_perm l l' : l ≡ₚ l' -> prod l = prod l'.
Proof. intros E. unfold prod. induction E; cbn [foldr]; [done|congruence|ring|congruence]. Qed.

Lemma prod_not_divided l : Forall (fun x => ~ (p | x)) l -> ~ (p | prod l).
Proof.
  induction 1 as [|x l Hx Hl IH]; cbn [prod foldr].
  - intros Hd%Z.divide_1_r_nonneg; pose proof prime_pos; lia.
  - rewrite Z.divide_prime_mul by done. tauto.
Qed.

Lemma residue_not_divided x : x ∈ residues -> ~ (p | x).
Proof. unfold residues. rewrite elem_of_seqZ. intros Hx Hd%Z.divide_pos_le; lia. Qed.

(** Multiplying the residues by [a] permutes them. *)
Lemma residues_permuted a : ~ (p | a) -> (fun x => a * x mod p) <$> residues ≡ₚ residues.
Proof.
  intros Ha. pose proof prime_pos as Hp1. apply submseteq_length_Permutation; [|by rewrite length_fmap].
  apply NoDup_submseteq.
  - apply NoDup_fmap_2_strong; [|apply NoDup_seqZ]. intros x y Hx Hy Exy. unfold residues in Hx, Hy. rewrite elem_of_seqZ in Hx, Hy.
    assert (eqm p x y) as [k Hk] by (apply (eqm_cancel a); [done|]; by apply eqm_mod_iff; [lia|]). destruct (Z.lt_trichotomy k 0) as [?|[->|?]]; nia.
  - intros y (x & -> & Hx)%list_elem_of_fmap. unfold residues. rewrite elem_of_seqZ. pose proof (Z.mod_pos_bound (a * x) p).
    assert (a * x mod p <> 0); [|lia]. intros E%Z.mod_divide; [|lia]. apply Z.divide_prime_mul in E as [?|?]; [done| |done]. by apply (residue_not_divided x).
Qed.

Lemma prod_fmap a l : eqm p (prod ((fun x => a * x mod p) <$> l)) (a ^ Z.of_nat (length l) * prod l).
Proof.
  pose proof prime_pos. induction l as [|x l IH]; [reflexivity|]. cbn [fmap list_fmap prod foldr length]. fold (prod l). fold (prod ((fun x => a * x mod p) <$> l)).
  rewrite IH, (eqm_mod p (a * x)) by lia. apply eqm_of_eq. rewrite Nat2Z.inj_succ, Z.pow_succ_r by lia. ring.
Qed.

Lemma fermat a : ~ (p | a) -> eqm p (a ^ (p - 1)) 1.
Proof.
  intros Ha. pose proof prime_pos. apply (eqm_cancel (prod residues)).
  - apply prod_not_divided. apply Forall_forall. intros x. apply residue_not_divided.
  - pose proof (prod_fmap a residues) as E. rewrite (prod_perm _ _ (residues_permuted a Ha)) in E. unfold residues in E at 2. rewrite length_seqZ, Z2Nat.id in E by lia.
    rewrite Z.mul_comm, <- E. apply eqm_of_eq. ring.
Qed.
End fermat.

(** ** Polynomials *)

(** The value of a polynomial, given by its coefficients. *)
Fixpoint peval (q : list Z) (x : Z) : Z :=
  match q with
  | [] => 0
  | c :: q => c + x * peval q x
  end.

(** Division by [x - a]. *)
Lemma peval_divide q a : exists q', length q' = pred (length q) /\ forall x, peval q x = peval q a + (x - a) * peval q' x.
Proof.
  induction q as [|c q (q' & Hl & IH)]; [exists []; split; [done|]; intros x; cbn; ring|]. destruct q as [|c' q].
  - exists []. split; [done|]. intros x. cbn. ring.
  - exists (peval (c' :: q) a :: q'). split; [cbn [length pred] in *; lia|]. intros x. cbn [peval] in *. rewrite (IH x) at 1. ring.
Qed.

Definition sum (l : list Z) : Z := foldr Z.add 0 l.

Lemma sum_perm l l' : l ≡ₚ l' -> sum l = sum l'.
Proof. intros E. unfold sum. induction E; cbn [foldr]; [done|congruence|ring|congruence]. Qed.

Section interpolation.
Variables (p : Z) (Hp : Z.prime p) (inv : Z -> Z).
Hypothesis inv_ok : forall d, ~ (p | d) -> eqm p (inv d * d) 1.

Lemma sum_eqm {A} (f g : A -> Z) l : (forall x, x ∈ l -> eqm p (f x) (g x)) -> eqm p (sum (f <$> l)) (sum (g <$> l)).
Proof.
  induction l as [|x l IH]; intros Hfg; [reflexivity|]. cbn [fmap list_fmap sum foldr]. fold (sum (f <$> l)). fold (sum (g <$> l)).
  rewrite (Hfg x), IH by (intros; (apply Hfg; by right) || left). reflexivity.
Qed.

Lemma sum_scale {A} (c : Z) (f : A -> Z) l : sum ((fun x => c * f x) <$> l) = c * sum (f <$> l).
Proof. unfold sum. induction l as [|x l IH]; cbn; [ring|]. cbn in IH. rewrite IH. ring. Qed.

Lemma sum_add {A} (f g : A -> Z) l : sum ((fun x => f x + g x) <$> l) = sum (f <$> l) + sum (g <$> l).
Proof. unfold sum. induction l as [|x l IH]; cbn; [ring|]. cbn in IH. rewrite IH. ring. Qed.

(** The points other than [x]. *)
Definition others (x : Z) (xs : list Z) : list Z := filter (fun y => y <> x) xs.

(** The weight of [x] among the points when a polynomial is interpolated at 0. *)
Definition weight (x : Z) (o : list Z) : Z := prod o * inv (prod ((fun y => y - x) <$> o)).

Definition interpolated (xs : list Z) (f : Z -> Z) : Z := sum ((fun x => weight x (others x xs) * f x) <$> xs).

(** The points are distinct residues. *)
Definition points (xs : list Z) : Prop := NoDup xs /\ Forall (fun x => 0 <= x < p) xs.

Lemma points_cons a xs : points (a :: xs) -> points xs /\ (a ∉ xs) /\ 0 <= a < p.
Proof. intros [[Ha Hn]%NoDup_cons [Hr Hf]%Forall_cons]. split_and!; [by split|done|lia|lia]. Qed.

Lemma points_perm xs ys : xs ≡ₚ ys -> points xs -> points ys.
Proof. intros E [Hn Hf]. split; by rewrite <- E. Qed.

Lemma apart x y : 0 <= x < p -> 0 <= y < p -> x <> y -> ~ (p | y - x).
Proof. intros Hx Hy Hne [k Hk]. destruct (Z.lt_trichotomy k 0) as [?|[->|?]]; nia. Qed.

Lemma others_cons x a xs : x <> a -> others x (a :: xs) = a :: others x xs.
Proof. intros Hne. unfold others. by rewrite filter_cons_True. Qed.

Lemma others_out x xs : x ∉ xs -> others x xs = xs.
Proof.
  unfold others. induction xs as [|y xs IH]; [done|]. intros [Hne Hx]%not_elem_of_cons. rewrite filter_cons_True by done. by rewrite IH.
Qed.

Lemma others_same a xs : a ∉ xs -> others a (a :: xs) = xs.
Proof. intros Ha. unfold others. rewrite filter_cons_False by (by intros []). by apply others_out. Qed.

Lemma weight_perm x o o' : o ≡ₚ o' -> weight x o = weight x o'.
Proof. intros E. unfold weight. rewrite (prod_perm o o' E). do 2 f_equal. apply prod_perm. by rewrite E. Qed.

Lemma differences x o : 0 <= x < p -> Forall (fun y => 0 <= y < p /\ y <> x) o -> ~ (p | prod ((fun y => y - x) <$> o)).
Proof. intros Hx Ho. apply prod_not_divided; [done|]. apply Forall_fmap. eapply Forall_impl; [exact Ho|]. intros y [Hy Hne]. by apply apart. Qed.

(** A point more among the others. *)
Lemma weight_cons x y o : 0 <= x < p -> Forall (fun y => 0 <= y < p /\ y <> x) (y :: o) ->
  eqm p (weight x (y :: o) * (y - x)) (y * weight x o).
Proof.
  intros Hx Ho. pose proof (differences x (y :: o) Hx Ho) as Hd. apply Forall_cons in Ho as [[Hy Hne] Ho]. pose proof (differences x o Hx Ho) as HD.
  unfold weight in *. cbn [fmap list_fmap prod foldr] in *. fold (prod o) in *. change (list_fmap Z Z) with (@fmap list _ Z Z) in *. fold (prod ((fun y => y - x) <$> o)) in *.
  set (D := prod ((fun y => y - x) <$> o)) in *. apply (eqm_cancel p Hp D _ _ HD).
  pose proof (inv_ok _ Hd) as H1. pose proof (inv_ok _ HD) as H2.
  transitivity (y * prod o * (inv ((y - x) * D) * ((y - x) * D))); [apply eqm_of_eq; ring|]. rewrite H1, <- H2. apply eqm_of_eq. ring.
Qed.

Lemma interpolated_cons a xs f : a ∉ xs ->
  interpolated (a :: xs) f = weight a xs * f a + sum ((fun x => weight x (a :: others x xs) * f x) <$> xs).
Proof.
  intros Ha. unfold interpolated. cbn [fmap list_fmap sum foldr]. rewrite others_same by done. f_equal. unfold sum. f_equal.
  apply list_fmap_ext. intros i x Hx. rewrite others_cons; [done|]. intros ->. by apply Ha, list_elem_of_lookup; exists i.
Qed.

Lemma others_points x xs : points xs -> Forall (fun y => 0 <= y < p /\ y <> x) (others x xs).
Proof. intros [_ Hf]. apply Forall_forall. intros y [Hne Hy]%list_elem_of_filter. rewrite Forall_forall in Hf. auto. Qed.

(** A polynomial with a factor [x - a] needs the point [a] no more. *)
Lemma interpolated_factor a xs g : points (a :: xs) -> eqm p (interpolated (a :: xs) (fun x => (x - a) * g x)) (- a * interpolated xs g).
Proof.
  intros Hpts. destruct (points_cons a xs Hpts) as (Hxs & Ha & Hra). rewrite interpolated_cons by done. replace (weight a xs * ((a - a) * g a)) with 0 by ring.
  rewrite Z.add_0_l. unfold interpolated. rewrite <- sum_scale. apply sum_eqm. intros x Hx.
  assert (0 <= x < p) as Hrx by (destruct Hxs as [_ Hf]; rewrite Forall_forall in Hf; auto). assert (a <> x) as Hne by (intros ->; done).
  pose proof (weight_cons x a (others x xs) Hrx) as Hw.
  transitivity (- (weight x (a :: others x xs) * (a - x)) * g x); [apply eqm_of_eq; ring|].
  rewrite Hw by (constructor; [done|by apply others_points]). apply eqm_of_eq. ring.
Qed.

Lemma interpolated_perm xs ys f : xs ≡ₚ ys -> interpolated xs f = interpolated ys f.
Proof.
  intros E. unfold interpolated. rewrite (sum_perm _ ((fun x => weight x (others x xs) * f x) <$> ys)) by by rewrite E. unfold sum. f_equal.
  apply list_fmap_ext. intros i x _. f_equal. apply weight_perm. unfold others. by rewrite E.
Qed.

Lemma interpolated_sub xs f g : interpolated xs (fun x => f x - g x) = interpolated xs f - interpolated xs g.
Proof.
  assert (forall w l, sum ((fun x => w x * (f x - g x)) <$> l) = sum ((fun x => w x * f x) <$> l) - sum ((fun x => w x * g x) <$> l)) as E; [|apply (E (fun x => weight x (others x xs)))].
  intros w l. unfold sum. induction l as [|x l IH]; cbn; [ring|]. cbn in IH. rewrite IH. ring.
Qed.

Lemma interpolated_scale c xs f : interpolated xs (fun x => c * f x) = c * interpolated xs f.
Proof. unfold interpolated. rewrite <- sum_scale. unfold sum. f_equal. apply list_fmap_ext. intros. ring. Qed.

Lemma interpolated_ext xs f g : (forall x, f x = g x) -> interpolated xs f = interpolated xs g.
Proof. intros E. unfold interpolated, sum. f_equal. apply list_fmap_ext. intros. by rewrite E. Qed.

(** The weights sum to 1. *)
Lemma interpolated_one a xs : points (a :: xs) -> eqm p (interpolated (a :: xs) (fun _ => 1)) 1.
Proof.
  remember (length xs) as n eqn:Hn. revert a xs Hn. induction n as [|n IH]; intros a [|b xs] Hn Hpts; try discriminate.
  - rewrite interpolated_cons by apply not_elem_of_nil. unfold weight, sum, prod. cbn [fmap list_fmap foldr].
    pose proof (inv_ok 1) as H1. rewrite Z.mul_1_r in H1. rewrite !Z.mul_1_r, Z.add_0_r, Z.mul_1_l. apply H1.
    intros Hd%Z.divide_1_r_nonneg; pose proof (prime_pos p Hp); lia.
  - injection Hn as Hn. assert (a :: b :: xs ≡ₚ b :: a :: xs) as Hswap by constructor. pose proof (points_perm _ _ Hswap Hpts) as Hpts'.
    destruct (points_cons _ _ Hpts) as (Hbxs & Ha & Hra). destruct (points_cons _ _ Hpts') as (Haxs & Hb & Hrb).
    apply (eqm_cancel p Hp (b - a)); [apply apart; [done|done|]; intros ->; apply Ha; left|].
    rewrite <- interpolated_scale.
    rewrite (interpolated_ext _ _ (fun x => (x - a) * 1 - (x - b) * 1)) by (intros; ring).
    rewrite interpolated_sub, (interpolated_factor a) by done. rewrite (interpolated_perm _ _ _ Hswap), (interpolated_factor b) by done.
    rewrite !IH by done. apply eqm_of_eq. ring.
Qed.

(** Interpolating a polynomial at as many points as it has coefficients gives
    its value at 0. *)
Theorem interpolation xs q : points xs -> (length q <= length xs)%nat -> eqm p (interpolated xs (peval q)) (peval q 0).
Proof.
  revert q. induction xs as [|a xs IH]; intros q Hpts Hq.
  - destruct q; [reflexivity|cbn in Hq; lia].
  - destruct (peval_divide q a) as (q' & Hq' & Hdiv). destruct (points_cons _ _ Hpts) as (Hxs & _).
    rewrite (interpolated_ext _ _ (fun x => peval q a * 1 - (x - a) * - peval q' x)) by (intros x; rewrite (Hdiv x); ring).
    rewrite interpolated_sub, interpolated_scale, interpolated_one, interpolated_factor by done.
    rewrite (interpolated_ext _ _ (fun x => -1 * peval q' x)) by (intros; ring). rewrite interpolated_scale, IH by (done || (cbn in Hq; lia)).
    rewrite (Hdiv 0). apply eqm_of_eq. ring.
Qed.

(** Through any values at distinct points there is a polynomial. *)
Definition scale (c : Z) (q : list Z) : list Z := Z.mul c <$> q.
Fixpoint padd (q q' : list Z) : list Z :=
  match q, q' with
  | [], _ => q'
  | _, [] => q
  | c :: q, c' :: q' => (c + c') :: padd q q'
  end.
(** The product of the [x - a]. *)
Fixpoint root_poly (xs : list Z) : list Z :=
  match xs with
  | [] => [1]
  | a :: xs => padd (0 :: root_poly xs) (scale (- a) (root_poly xs))
  end.

Lemma peval_scale c q x : peval (scale c q) x = c * peval q x.
Proof. unfold scale. induction q as [|d q IH]; cbn; [ring|]. cbn in IH. rewrite IH. ring. Qed.

Lemma peval_padd q q' x : peval (padd q q') x = peval q x + peval q' x.
Proof. revert q'. induction q as [|c q IH]; intros [|c' q']; cbn; [ring..|]. rewrite IH. ring. Qed.

Lemma length_padd q q' : length (padd q q') = Nat.max (length q) (length q').
Proof. revert q'. induction q as [|c q IH]; intros [|c' q']; cbn; [done..|]. by rewrite IH. Qed.

Lemma peval_root_poly xs x : peval (root_poly xs) x = prod ((fun a => x - a) <$> xs).
Proof.
  induction xs as [|a xs IH]; [cbn; ring|]. cbn [root_poly fmap list_fmap prod foldr]. rewrite peval_padd, peval_scale. cbn [peval]. rewrite IH. unfold prod. ring.
Qed.

Lemma length_root_poly xs : length (root_poly xs) = S (length xs).
Proof. induction xs as [|a xs IH]; [done|]. cbn [root_poly]. rewrite length_padd. unfold scale. rewrite length_fmap. cbn [length]. lia. Qed.

Theorem interpolant xs (f : Z -> Z) : points xs -> exists q, length q = length xs /\ forall x, x ∈ xs -> eqm p (peval q x) (f x).
Proof.
  induction xs as [|a xs IH]; intros Hpts; [exists []; split; [done|]; by intros x ?%elem_of_nil|].
  destruct (points_cons _ _ Hpts) as (Hxs & Ha & Hra). destruct (IH Hxs) as (q & Hl & Hq).
  set (d := prod ((fun y => a - y) <$> xs)). set (c := (f a - peval q a) * inv d).
  exists (padd q (scale c (root_poly xs))). split; [rewrite length_padd; unfold scale; rewrite length_fmap, length_root_poly; cbn; lia|].
  intros x Hx. rewrite peval_padd, peval_scale, peval_root_poly. apply elem_of_cons in Hx as [->|Hx].
  - fold d. unfold c. assert (~ (p | d)) as Hd.
    { apply prod_not_divided; [done|]. apply Forall_fmap. destruct Hxs as [_ Hf]. apply Forall_forall. intros y Hy. rewrite Forall_forall in Hf. apply apart; [auto|done|]. intros ->. done. }
    transitivity (peval q a + (f a - peval q a) * (inv d * d)); [apply eqm_of_eq; ring|]. rewrite (inv_ok d Hd). apply eqm_of_eq. ring.
  - assert (prod ((fun y => x - y) <$> xs) = 0) as ->.
    { clear -Hx. induction xs as [|y xs IH]; [by apply elem_of_nil in Hx|]. cbn [fmap list_fmap prod foldr]. fold (prod ((fun y => x - y) <$> xs)) in *.
      apply elem_of_cons in Hx as [->|Hx]; [ring|]. specialize (IH Hx). cbn in IH. cbn. unfold prod in *. rewrite IH. ring. }
    rewrite Z.mul_0_r, Z.add_0_r. by apply Hq.
Qed.
End interpolation.

(** ** The prime 2^31 - 1 *)

(** None of [d], [d + 2], ... divides [p]. *)
Fixpoint trial (n : nat) (d p : Z) : bool :=
  match n with
  | O => true
  | S n => if p mod d =? 0 then false else trial n (d + 2) p
  end.

Lemma trial_spec n d p k : trial n d p = true -> 0 < d -> 0 <= k < Z.of_nat n -> ~ (d + 2 * k | p).
Proof.
  revert d k. induction n as [|n IH]; intros d k; cbn [trial]; [lia|]. destruct (Z.eqb_spec (p mod d) 0) as [E|E]; [done|]. intros Ht Hd Hk.
  destruct (decide (k = 0)) as [->|Hk0].
  - replace (d + 2 * 0) with d by lia. rewrite <- Z.mod_divide by lia. done.
  - replace (d + 2 * k) with (d + 2 + 2 * (k - 1)) by lia. apply IH; [done|lia|lia].
Qed.

Definition mersenne31 : Z := 2147483647.

Lemma mersenne31_trial : trial (Z.to_nat 23170) 3 mersenne31 = true.
Proof. vm_compute. reflexivity. Qed.

(** A number up to the square root of the prime does not divide it. *)
Lemma mersenne31_small d : 1 < d < 46341 -> ~ (d | mersenne31).
Proof.
  intros Hd Hdiv. destruct (Z.Even_or_Odd d) as [[k ->]|[k ->]].
  - destruct Hdiv as [j Hj]. unfold mersenne31 in Hj. lia.
  - apply (trial_spec (Z.to_nat 23170) 3 mersenne31 (k - 1) mersenne31_trial); [lia|rewrite Z2Nat.id; lia|]. by replace (3 + 2 * (k - 1)) with (2 * k + 1) by lia.
Qed.

Lemma mersenne31_prime : Z.prime mersenne31.
Proof.
  split; [done|]. intros n Hn [m Hm]. destruct (decide (n < 46341)).
  - apply (mersenne31_small n); [lia|by exists m].
  - apply (mersenne31_small m); [unfold mersenne31 in *; nia|exists n; lia].
Qed.
End PrimeField.
