(* ===== verification/Sharing.v ===== *)
(** * Secret sharing

    Shamir's secret sharing (src/crypto/sharing.h, sharing.cpp): the field of
    2^31 - 1 elements in 64-bit arithmetic, polynomials and their
    interpolation, and shares with their bytes. The entropy source is a
    sequence of 64-bit numbers. *)

From S2P Require Import Prelude LedgerEntries.
From Stdlib Require Strings.Byte.

Module Sharing.
Open Scope N_scope.
Open Scope m_scope.

(** ** The field *)

Definition u64 (n : N) : N := n mod 2 ^ 64.
Definition SHIFT_OFFSET : N := 31.
Definition prime : N := 2 ^ 31 - 1.

Definition ct_reduce (x : N) : N :=
  let d := N.shiftr x SHIFT_OFFSET in
  let x := u64_sub x (u64 (d * prime)) in
  let d := N.shiftr x SHIFT_OFFSET in
  let x := u64_sub x (u64 (d * prime)) in
  let d := N.shiftr (u64 (x + 1)) SHIFT_OFFSET in
  u64_sub x (u64 (d * prime)).

Definition mul (x y : N) : N := ct_reduce (u64 (x * y)).
Definition add (x y : N) : N := ct_reduce (u64 (x + y)).
Definition sub (x y : N) : N := ct_reduce (u64_sub (u64 (prime + x)) y).

(** The loop goes over the bits of the exponent, from the lowest. *)
Fixpoint exp_loop (x : N) (n : positive) (y : N) : N :=
  match n with
  | xH => mul y x
  | xO n => exp_loop (mul x x) n y
  | xI n => exp_loop (mul x x) n (mul y x)
  end.
Definition exp (x n : N) : N := match n with 0 => 1 | Npos n => exp_loop x n 1 end.

(** [std::invalid_argument] is a [std::logic_error]. *)
Definition inv (x : N) : result N :=
  if x =? 0 then Throw (LogicError "division by zero") else Ok (exp x (prime - 2)).

(** ** Polynomials *)

Section entropy.
(** [random64()]: the number drawn when [n] have been drawn before. *)
Variable random64 : N -> N.

Definition draw : M N N := fun n => (Ok (random64 n), n + 1).

(** Draws until the lower bits are not all set, [tries] times at most. *)
Fixpoint sample (tries : nat) : M N N :=
  match tries with
  | O => throw OutOfFuel
  | S tries =>
      r <- draw ;;;
      let res := N.land r prime in
      if res =? prime then sample tries else ret res
  end.

(** [count] coefficients: one more than the degree. *)
Fixpoint sample_polynomial (tries count : nat) : M N (list N) :=
  match count with
  | O => ret []
  | S count => c <- sample tries ;;; p <- sample_polynomial tries count ;;; ret (c :: p)
  end.

Fixpoint eval_loop (p : list N) (x y x_i : N) : N :=
  match p with
  | [] => y
  | c :: p => eval_loop p x (add y (mul c x_i)) (mul x x_i)
  end.
Definition eval (p : list N) (x : N) : N := eval_loop p x 0 1.

(** ** Shares *)

Definition LIMBS : nat := 10.
Record Share := mkShare { sh_x : N; sh_y : list N }.
Definition u32 (n : N) : N := n mod 2 ^ 32.

(** One limb: the secret, and the values at the given points. *)
Fixpoint sample_limbs (tries limbs threshold : nat) (xs : list N) : M N (list (N * list N)) :=
  match limbs with
  | O => ret []
  | S limbs =>
      p <- sample_polynomial tries threshold ;;;
      rest <- sample_limbs tries limbs threshold xs ;;;
      ret ((u32 (nth 0 p 0), (fun x => u32 (eval p x)) <$> xs) :: rest)
  end.

Definition sample_secret_and_shares (tries : nat) (n threshold : N) : M N (Share * list Share) :=
  if n =? 0 then throw (LogicError "insufficient number of shares")
  else if (threshold <? 1) || (n <? threshold) then throw (LogicError "invalid threshold")
  else
    let xs := (fun s => u32 (N.of_nat s + 1)) <$> seq 0 (N.to_nat n) in
    limbs <- sample_limbs tries LIMBS (N.to_nat threshold) xs ;;;
    ret (mkShare 0 (fst <$> limbs), imap (fun i x => mkShare x ((fun l => nth i (snd l) 0) <$> limbs)) xs).
End entropy.

(** The numerator and the denominator of a Lagrange coefficient. *)
Definition lagrange_step (x_i : N) (i : nat) (shares : list Share) (nd : N * N) (j : nat) : N * N :=
  if (i =? j)%nat then nd
  else
    let x_j := match shares !! j with Some s => sh_x s | None => 0 end in
    (mul nd.1 (ct_reduce x_j), mul nd.2 (sub (ct_reduce x_j) (ct_reduce x_i))).

Definition lagrange_at (shares : list Share) (count i : nat) : result N :=
  let x_i := match shares !! i with Some s => sh_x s | None => 0 end in
  let nd := fold_left (lagrange_step x_i i shares) (seq 0 count) (1, 1) in
  if nd.2 =? 0 then Throw (LogicError "duplicate input share")
  else d <~ inv nd.2 ;;; Ok (mul nd.1 d).

Fixpoint lagrange_all (shares : list Share) (count : nat) (idxs : list nat) : result (list N) :=
  match idxs with
  | [] => Ok []
  | i :: idxs => c <~ lagrange_at shares count i ;;; cs <~ lagrange_all shares count idxs ;;; Ok (c :: cs)
  end.

Definition interpolate_limb (shares : list Share) (lagrange : list N) (limb : nat) : N :=
  fold_left (fun y p => add y (mul p.1 (ct_reduce (nth limb (sh_y p.2) 0)))) (zip lagrange shares) 0.

(** With a threshold of 0 the loops of the source run past the array. *)
Definition recover_unauthenticated_secret (shares : list Share) (threshold : N) : result Share :=
  if N.of_nat (length shares) <? threshold then Throw (LogicError "insufficient input shares")
  else if threshold =? 0 then Throw OutOfBounds
  else
    lagrange <~ lagrange_all shares (N.to_nat threshold) (seq 0 (N.to_nat threshold)) ;;;
    Ok (mkShare 0 ((fun limb => u32 (interpolate_limb shares lagrange limb)) <$> seq 0 LIMBS)).

(** ** Bytes *)

Definition serialised_size : N := 4 + 4 * N.of_nat LIMBS.

Definition serialise (s : Share) (size : N) : result bytes :=
  if negb (size =? serialised_size) then Throw (LogicError "Invalid serialised share size")
  else Ok (le_split 4 (sh_x s) ++ concat (le_split 4 <$> sh_y s))%list.

Fixpoint read_limbs (n : nat) (data : bytes) : result (list N * bytes) :=
  match n with
  | O => Ok ([], data)
  | S n => r <~ read_int 4 data ;;; rest <~ read_limbs n r.2 ;;; Ok (r.1 :: rest.1, rest.2)
  end.

Definition deserialise (serialised : bytes) : result Share :=
  if negb (N.of_nat (length serialised) =? serialised_size) then Throw (LogicError "Invalid serialised share size")
  else r <~ read_int 4 serialised ;;; ys <~ read_limbs LIMBS r.2 ;;; Ok (mkShare r.1 ys.1).

(** The key of a full share, with a key derivation function of input keying
    material and label. *)
Definition key (hkdf : N -> bytes -> bytes -> bytes -> bytes) (key_size : N) (s : Share) : result bytes :=
  if negb (sh_x s =? 0) then Throw (LogicError "Cannot derive a key from a partial share")
  else let ikm := concat (le_split 4 <$> sh_y s) in Ok (hkdf key_size ikm [] ikm).
End Sharing.
