(* ===== verification/SharingSpec.v ===== *)
(** * Secret sharing: proofs

    The arithmetic is that of the field of 2^31 - 1 elements; any [threshold]
    of the shares give the secret back; fewer are consistent with every
    secret. *)

From Stdlib Require Import ZArith Zdivisibility.
From S2P Require Import Prelude LedgerEntries PrimeField Sharing.

Module SharingSpec.
Import PrimeField Sharing.
Open Scope N_scope.

(** ** The field *)

Lemma prime_mersenne : Z.of_N prime = mersenne31.
Proof. done. Qed.

Lemma reduce_step x : x < 2 ^ 64 -> u64_sub x (u64 (N.shiftr x SHIFT_OFFSET * prime)) = x mod 2 ^ 31 + x / 2 ^ 31.
Proof.
  intros Hx. unfold SHIFT_OFFSET. rewrite N.shiftr_div_pow2. pose proof (N.div_mod x (2 ^ 31) ltac:(done)) as E.
  set (d := x / 2 ^ 31) in *. set (r := x mod 2 ^ 31) in *. unfold u64. rewrite N.mod_small by (unfold prime; lia). rewrite u64_sub_exact by (unfold prime; lia). unfold prime. lia.
Qed.

Lemma ct_reduce_mod x : x < 2 ^ 64 -> ct_reduce x = x mod prime.
Proof.
  intros Hx. unfold ct_reduce. rewrite (reduce_step x Hx). pose proof (N.div_mod x (2 ^ 31) ltac:(done)) as E. pose proof (N.mod_lt x (2 ^ 31) ltac:(done)) as Hr.
  set (d := x / 2 ^ 31) in *. set (r := x mod 2 ^ 31) in *. assert (r + d < 2 ^ 64) as Hx1 by lia. rewrite (reduce_step (r + d) Hx1).
  pose proof (N.div_mod (r + d) (2 ^ 31) ltac:(done)) as E1. pose proof (N.mod_lt (r + d) (2 ^ 31) ltac:(done)) as Hr1.
  set (d1 := (r + d) / 2 ^ 31) in *. set (r1 := (r + d) mod 2 ^ 31) in *. assert (r1 + d1 <= prime + 3) as Hx2 by (unfold prime; lia).
  unfold u64 at 2. rewrite (N.mod_small (r1 + d1 + 1)) by (unfold prime in *; lia). unfold SHIFT_OFFSET. rewrite N.shiftr_div_pow2.
  destruct (N.lt_ge_cases (r1 + d1) prime) as [Hlt|Hge].
  - rewrite (N.div_small (r1 + d1 + 1)) by (unfold prime in *; lia). change (u64 (0 * prime)) with 0. rewrite u64_sub_exact by lia.
    rewrite N.sub_0_r. apply (N.mod_unique x prime (d + d1)); [done|]. unfold prime in *. lia.
  - assert ((r1 + d1 + 1) / 2 ^ 31 = 1) as -> by (symmetry; apply (N.div_unique _ _ 1 (r1 + d1 + 1 - 2 ^ 31)); unfold prime in *; lia).
    change (u64 (1 * prime)) with prime. rewrite u64_sub_exact by lia. apply (N.mod_unique x prime (d + d1 + 1)); unfold prime in *; lia.
Qed.

(** Elements of the field, and their numbers. *)
Definition elem (x : N) : Prop := x < prime.
#[local] Abbreviation num := Z.of_N.
#[local] Abbreviation eqp := (eqm mersenne31).

Lemma mod_elem x : elem (x mod prime).
Proof. by apply N.mod_lt. Qed.

Lemma elem_eq x y : elem x -> elem y -> eqp (num x) (num y) -> x = y.
Proof. unfold elem, prime. intros Hx Hy [k Hk]. unfold mersenne31 in Hk. lia. Qed.

Lemma eqm_mod_prime x : eqp (num (x mod prime)) (num x).
Proof. rewrite N2Z.inj_mod, prime_mersenne. by apply eqm_mod. Qed.

Lemma mul_mod x y : x < 2 ^ 32 -> y < 2 ^ 32 -> mul x y = (x * y) mod prime.
Proof. intros Hx Hy. unfold mul, u64. rewrite N.mod_small by nia. apply ct_reduce_mod. nia. Qed.

Lemma add_mod x y : x < 2 ^ 32 -> y < 2 ^ 32 -> add x y = (x + y) mod prime.
Proof. intros Hx Hy. unfold add, u64. rewrite N.mod_small by lia. apply ct_reduce_mod. lia. Qed.

Lemma sub_mod x y : elem x -> elem y -> sub x y = (prime + x - y) mod prime.
Proof.
  unfold elem. intros Hx Hy. unfold sub, u64. rewrite N.mod_small by (unfold prime in *; lia). rewrite u64_sub_exact by lia. apply ct_reduce_mod. unfold prime in *; lia.
Qed.

Lemma mul_eqm x y : x < 2 ^ 32 -> y < 2 ^ 32 -> elem (mul x y) /\ eqp (num (mul x y)) (num x * num y)%Z.
Proof. intros Hx Hy. rewrite mul_mod by done. split; [apply mod_elem|]. rewrite eqm_mod_prime. apply eqm_of_eq. lia. Qed.

Lemma add_eqm x y : x < 2 ^ 32 -> y < 2 ^ 32 -> elem (add x y) /\ eqp (num (add x y)) (num x + num y)%Z.
Proof. intros Hx Hy. rewrite add_mod by done. split; [apply mod_elem|]. rewrite eqm_mod_prime. apply eqm_of_eq. lia. Qed.

Lemma sub_eqm x y : elem x -> elem y -> elem (sub x y) /\ eqp (num (sub x y)) (num x - num y)%Z.
Proof.
  intros Hx Hy. rewrite sub_mod by done. split; [apply mod_elem|]. rewrite eqm_mod_prime. exists 1%Z. unfold elem, prime, mersenne31 in *. lia.
Qed.

Lemma elem_32 x : elem x -> x < 2 ^ 32.
Proof. unfold elem, prime. lia. Qed.
#[local] Hint Resolve elem_32 : core.

Lemma exp_loop_eqm n x y : elem x -> elem y ->
  elem (exp_loop x n y) /\ eqp (num (exp_loop x n y)) (num y * num x ^ Zpos n)%Z.
Proof.
  revert x y. induction n as [n IH|n IH|]; intros x y Hx Hy; cbn [exp_loop].
  - destruct (mul_eqm x x) as [Hxx Exx]; [auto..|]. destruct (mul_eqm y x) as [Hyx Eyx]; [auto..|]. destruct (IH _ _ Hxx Hyx) as [He E]. split; [done|].
    rewrite E, Eyx. transitivity (num y * num x * (num x * num x) ^ Zpos n)%Z.
    + apply eqm_mul; [reflexivity|]. apply eqm_pow. exact Exx.
    + apply eqm_of_eq. rewrite Pos2Z.inj_xI, Z.pow_add_r, Z.pow_mul_r, Z.pow_2_r by lia. ring.
  - destruct (mul_eqm x x) as [Hxx Exx]; [auto..|]. destruct (IH _ _ Hxx Hy) as [He E]. split; [done|]. rewrite E.
    transitivity (num y * (num x * num x) ^ Zpos n)%Z.
    + apply eqm_mul; [reflexivity|]. apply eqm_pow. exact Exx.
    + apply eqm_of_eq. rewrite Pos2Z.inj_xO, Z.pow_mul_r, Z.pow_2_r by lia. ring.
  - destruct (mul_eqm y x) as [Hyx Eyx]; [auto..|]. split; [done|]. rewrite Eyx. apply eqm_of_eq. rewrite Z.pow_1_r. ring.
Qed.

(** The inverse, as a power. *)
Definition invZ (d : Z) : Z := (d ^ (mersenne31 - 2))%Z.

Lemma invZ_ok d : ~ (mersenne31 | d)%Z -> eqp (invZ d * d)%Z 1%Z.
Proof.
  intros Hd. rewrite <- (fermat mersenne31 mersenne31_prime d Hd). apply eqm_of_eq. unfold invZ.
  rewrite Z.mul_comm, <- Z.pow_succ_r by done. f_equal.
Qed.

Lemma exp_eqm x : elem x -> elem (exp x (prime - 2)) /\ eqp (num (exp x (prime - 2))) (invZ (num x)).
Proof.
  intros Hx. destruct (exp_loop_eqm 2147483645 x 1 Hx ltac:(done)) as [He E]. split; [exact He|]. unfold exp. change (prime - 2) with (Npos 2147483645). rewrite E.
  apply eqm_of_eq. unfold invZ. rewrite Z.mul_1_l. done.
Qed.

Lemma inv_eqm x : elem x -> x <> 0 -> exists i, inv x = Ok i /\ elem i /\ eqp (num i) (invZ (num x)).
Proof. intros Hx H0. unfold inv. destruct (N.eqb_spec x 0) as [?|_]; [done|]. eexists. split; [reflexivity|by apply exp_eqm]. Qed.

(** ** Evaluation *)

Lemma eval_loop_eqm p x y xi : Forall elem p -> x < 2 ^ 32 -> elem y -> elem xi ->
  elem (eval_loop p x y xi) /\ eqp (num (eval_loop p x y xi)) (num y + num xi * peval (num <$> p) (num x))%Z.
Proof.
  intros Hp Hx. revert y xi. induction Hp as [|c p Hc Hp IH]; intros y xi Hy Hxi; cbn [eval_loop fmap list_fmap peval].
  - split; [done|]. apply eqm_of_eq. ring.
  - destruct (mul_eqm c xi) as [Hm Em]; [auto..|]. destruct (add_eqm y (mul c xi)) as [Ha Ea]; [auto..|]. destruct (mul_eqm x xi) as [Hm' Em']; [auto..|].
    destruct (IH _ _ Ha Hm') as [He E]. split; [done|]. rewrite E, Ea, Em, Em'. apply eqm_of_eq. ring.
Qed.

Lemma eval_eqm p x : Forall elem p -> x < 2 ^ 32 -> elem (eval p x) /\ eqp (num (eval p x)) (peval (num <$> p) (num x)).
Proof.
  intros Hp Hx. destruct (eval_loop_eqm p x 0 1 Hp Hx) as [He E]; [done..|]. split; [done|]. unfold eval. rewrite E. apply eqm_of_eq. change (num 0) with 0%Z. change (num 1) with 1%Z. ring.
Qed.

(** ** Sampling *)

Section sampling.
Variables (random64 : N -> N) (tries : nat).
(** Among any [tries] numbers drawn one does not have its lower bits all set. *)
Hypothesis entropy_ok : forall n, exists i, (i < tries)%nat /\ N.land (random64 (n + N.of_nat i)) prime <> prime.

Lemma land_elem r : N.land r prime <> prime -> elem (N.land r prime).
Proof.
  unfold elem. change prime with (N.ones 31). rewrite N.land_ones. intros Hne. pose proof (N.mod_lt r (2 ^ 31) ltac:(done)). change (N.ones 31) with (2 ^ 31 - 1) in *. lia.
Qed.

Lemma sample_ok n : exists c n', sample random64 tries n = (Ok c, n') /\ elem c.
Proof.
  destruct (entropy_ok n) as (i & Hi & Hr). clear entropy_ok. revert n i Hi Hr. induction tries as [|t IH]; intros n i Hi Hr; [lia|]. cbn [sample]. unfold bind, draw.
  destruct (N.eqb_spec (N.land (random64 n) prime) prime) as [E|E].
  - destruct i as [|i]; [by rewrite N.add_0_r in Hr|]. apply (IH (n + 1) i); [lia|]. by replace (n + 1 + N.of_nat i) with (n + N.of_nat (S i)) by lia.
  - eexists _, _. split; [done|]. by apply land_elem.
Qed.

Lemma sample_polynomial_ok count n : exists p n', sample_polynomial random64 tries count n = (Ok p, n') /\ length p = count /\ Forall elem p.
Proof.
  revert n. induction count as [|count IH]; intros n; cbn [sample_polynomial]; [by eexists [], n|].
  destruct (sample_ok n) as (c & n1 & H1 & Hc). destruct (IH n1) as (p & n2 & H2 & Hl & Hp). rewrite (bind_ok _ _ _ _ _ H1), (bind_ok _ _ _ _ _ H2).
  eexists (c :: p), n2. split_and!; [done|cbn; lia|by constructor].
Qed.

Lemma sample_limbs_ok limbs threshold xs n : exists ps n', sample_limbs random64 tries limbs threshold xs n =
    (Ok ((fun p => (u32 (nth 0 p 0), (fun x => u32 (eval p x)) <$> xs)) <$> ps), n') /\
  length ps = limbs /\ Forall (fun p => length p = threshold /\ Forall elem p) ps.
Proof.
  revert n. induction limbs as [|limbs IH]; intros n; cbn [sample_limbs]; [by eexists [], n|].
  destruct (sample_polynomial_ok threshold n) as (p & n1 & H1 & Hl & Hp). destruct (IH n1) as (ps & n2 & H2 & Hls & Hps).
  rewrite (bind_ok _ _ _ _ _ H1), (bind_ok _ _ _ _ _ H2). eexists (p :: ps), n2. split_and!; [done|cbn; lia|by constructor].
Qed.

(** The share at [x] of the secret the polynomials have. *)
Definition share_of (ps : list (list N)) (x : N) : Share := mkShare x ((fun p => eval p x) <$> ps).
Definition secret_of (ps : list (list N)) : Share := mkShare 0 ((fun p => nth 0 p 0) <$> ps).

Lemma u32_elem x : elem x -> u32 x = x.
Proof. intros Hx. apply N.mod_small. auto. Qed.

Lemma nth_elem (p : list N) i : Forall elem p -> elem (nth i p 0).
Proof. intros Hp. revert i. induction Hp as [|c p Hc Hp IH]; intros [|i]; cbn; done || auto. Qed.

Lemma shares_made n threshold d : 1 <= threshold <= n -> n < prime ->
  exists ps d', sample_secret_and_shares random64 tries n threshold d = (Ok (secret_of ps, share_of ps <$> (N.of_nat <$> seq 1 (N.to_nat n))), d') /\
    length ps = LIMBS /\ Forall (fun p => length p = N.to_nat threshold /\ Forall elem p) ps.
Proof.
  intros Ht Hn. unfold sample_secret_and_shares. destruct (N.eqb_spec n 0); [lia|]. destruct (N.ltb_spec threshold 1); [lia|]. destruct (N.ltb_spec n threshold); [lia|]. cbn [orb].
  set (xs := _ <$> seq 0 (N.to_nat n)). assert (xs = N.of_nat <$> seq 1 (N.to_nat n)) as Hxs.
  { unfold xs. rewrite <- fmap_S_seq, <- list_fmap_compose. apply list_fmap_ext. intros i x Hx%lookup_seq. cbn. unfold u32, prime in *. rewrite N.mod_small; lia. }
  clearbody xs. subst xs. set (xs := N.of_nat <$> seq 1 (N.to_nat n)).
  destruct (sample_limbs_ok LIMBS (N.to_nat threshold) xs d) as (ps & d' & H1 & Hl & Hps). rewrite (bind_ok _ _ _ _ _ H1). exists ps, d'. split_and!; [|done|done].
  unfold ret. do 3 f_equal.
  - unfold secret_of. f_equal. rewrite <- list_fmap_compose. apply list_fmap_ext. intros i p Hp. cbn. apply u32_elem. apply nth_elem.
    rewrite Forall_forall in Hps. apply (Hps p). by eapply list_elem_of_lookup_2.
  - apply list_eq. intros i. rewrite list_lookup_imap, list_lookup_fmap. destruct (xs !! i) as [x|] eqn:Hx; [|done]. cbn. f_equal. unfold share_of. f_equal.
    rewrite <- list_fmap_compose. apply list_fmap_ext. intros j p Hp. cbn. rewrite Forall_forall in Hps. destruct (Hps p) as [_ Hel]; [by eapply list_elem_of_lookup_2|].
    rewrite (nth_lookup_Some _ i 0 (u32 (eval p x))); [|by rewrite list_lookup_fmap, Hx]. apply u32_elem. apply eval_eqm; [done|].
    unfold xs in Hx. rewrite list_lookup_fmap, fmap_Some in Hx. destruct Hx as (k & Hk%lookup_seq & ->). unfold prime in *. lia.
Qed.
End sampling.

(** ** Recovery *)

Section recovery.
Variables (shares : list Share) (count : nat).
Hypothesis enough : (count <= length shares)%nat.
Hypothesis distinct : NoDup (sh_x <$> shares).
Hypothesis elems : Forall (fun s => elem (sh_x s)) shares.

(** The point of a share. *)
Definition point (j : nat) : N := match shares !! j with Some s => sh_x s | None => 0 end.
Definition all_points : list Z := (fun j => num (point j)) <$> seq 0 count.

Lemma point_elem j : elem (point j).
Proof. unfold point. destruct (shares !! j) as [s|] eqn:E; [|done]. rewrite Forall_forall in elems. apply elems. by eapply list_elem_of_lookup_2. Qed.

Lemma point_inj i j : (i < count)%nat -> (j < count)%nat -> point i = point j -> i = j.
Proof.
  intros Hi Hj. unfold point. destruct (lookup_lt_is_Some_2 shares i ltac:(lia)) as [si Hsi]. destruct (lookup_lt_is_Some_2 shares j ltac:(lia)) as [sj Hsj].
  rewrite Hsi, Hsj. intros E. eapply (NoDup_lookup (sh_x <$> shares)); [done|by rewrite list_lookup_fmap, Hsi|by rewrite list_lookup_fmap, Hsj, E].
Qed.

Lemma all_points_ok : points mersenne31 all_points.
Proof.
  unfold all_points. split.
  - apply NoDup_fmap_2_strong; [|apply NoDup_seq]. intros i j Hi%elem_of_seq Hj%elem_of_seq E. apply point_inj; lia.
  - apply Forall_fmap, Forall_forall. intros j _. pose proof (point_elem j) as Hj. unfold elem, prime, mersenne31 in *. cbn. lia.
Qed.

Lemma ct_reduce_elem x : elem x -> ct_reduce x = x.
Proof. intros Hx. rewrite ct_reduce_mod by (unfold elem, prime in *; lia). by apply N.mod_small. Qed.

(** The loop over the other shares. *)
Lemma lagrange_loop i js nd : elem nd.1 -> elem nd.2 ->
  let r := fold_left (lagrange_step (point i) i shares) js nd in
  let o := (fun j => num (point j)) <$> filter (fun j => j <> i) js in
  elem r.1 /\ elem r.2 /\ eqp (num r.1) (num nd.1 * prod o) /\ eqp (num r.2) (num nd.2 * prod ((fun y => y - num (point i)) <$> o))%Z.
Proof.
  revert nd. induction js as [|j js IH]; intros nd H1 H2; cbn [fold_left].
  - rewrite filter_nil. split_and!; [done|done| |]; apply eqm_of_eq; cbn; ring.
  - unfold lagrange_step at 2 4 6 8. fold (point j). rewrite !(ct_reduce_elem _ (point_elem _)). rewrite filter_cons. destruct (Nat.eqb_spec i j) as [->|Hne].
    + rewrite decide_False by (by intros []). by apply IH.
    + rewrite decide_True by done. destruct (mul_eqm nd.1 (point j)) as [Hm Em]; [auto using point_elem..|].
      destruct (sub_eqm (point j) (point i)) as [Hs Es]; [auto using point_elem..|]. destruct (mul_eqm nd.2 (sub (point j) (point i))) as [Hm' Em']; [auto..|].
      destruct (IH (mul nd.1 (point j), mul nd.2 (sub (point j) (point i))) Hm Hm') as (R1 & R2 & R3 & R4). split_and!; [done|done| |].
      * rewrite R3. cbn [fst snd]. rewrite Em, !fmap_cons. unfold prod. cbn [foldr]. apply eqm_of_eq. ring.
      * rewrite R4. cbn [fst snd]. rewrite Em', Es, !fmap_cons. unfold prod. cbn [foldr]. apply eqm_of_eq. ring.
Qed.

Lemma others_seq i : (i < count)%nat -> (fun j => num (point j)) <$> filter (fun j => j <> i) (seq 0 count) = others (num (point i)) all_points.
Proof.
  intros Hi. unfold all_points, others. assert (forall j, j ∈ seq 0 count -> (j < count)%nat) as Hlt by (intros j Hj%elem_of_seq; lia).
  induction (seq 0 count) as [|j js IH]; [done|]. rewrite fmap_cons, !filter_cons. rewrite <- IH by (intros; apply Hlt; by right).
  destruct (decide (j <> i)) as [Hne|Heq].
  - rewrite decide_True; [done|]. intros E. apply Hne, point_inj; [apply Hlt; left|done|lia].
  - rewrite decide_False; [done|]. destruct (decide (j = i)) as [->|]; [by intros []|done].
Qed.

Lemma lagrange_at_ok i : (i < count)%nat -> exists c, lagrange_at shares count i = Ok c /\ elem c /\
  eqp (num c) (weight invZ (num (point i)) (others (num (point i)) all_points)).
Proof.
  intros Hi. unfold lagrange_at. fold (point i). destruct (lagrange_loop i (seq 0 count) (1, 1)) as (R1 & R2 & R3 & R4); [done..|].
  set (nd := fold_left _ _ _) in *. rewrite others_seq in R3, R4 by done. set (o := others _ _) in *. cbn [fst snd] in *. change (num 1) with 1%Z in *. rewrite Z.mul_1_l in R3, R4.
  assert (~ (mersenne31 | prod ((fun y => y - num (point i)) <$> o))%Z) as Hd.
  { apply differences; [apply mersenne31_prime|pose proof (point_elem i); unfold elem, prime, mersenne31 in *; lia|]. apply others_points, all_points_ok. }
  assert (nd.2 <> 0) as H0. { intros E. rewrite E in R4. destruct R4 as [k Hk]. apply Hd. exists (- k)%Z. change (num 0) with 0%Z in Hk. lia. }
  destruct (N.eqb_spec nd.2 0); [done|]. destruct (inv_eqm nd.2 R2 H0) as (d & -> & Hd' & Ed). cbn [rbind]. destruct (mul_eqm nd.1 d) as [Hm Em]; [auto..|].
  eexists. split_and!; [done|done|]. rewrite Em, R3, Ed. unfold weight. apply eqm_mul; [reflexivity|]. unfold invZ. apply eqm_pow. exact R4.
Qed.

Lemma lagrange_all_ok js : Forall (fun i => (i < count)%nat) js -> exists cs, lagrange_all shares count js = Ok cs /\
  Forall2 (fun i c => elem c /\ eqp (num c) (weight invZ (num (point i)) (others (num (point i)) all_points))) js cs.
Proof.
  induction 1 as [|i js Hi Hjs (cs & IH & Hcs)]; cbn [lagrange_all]; [by exists []|]. destruct (lagrange_at_ok i Hi) as (c & -> & Hc). cbn [rbind]. rewrite IH. cbn [rbind].
  exists (c :: cs). split; [done|]. by constructor.
Qed.

Lemma limb_sum limb (l : list (N * Share)) y : elem y -> Forall (fun p => elem p.1 /\ elem (nth limb (sh_y p.2) 0)) l ->
  let r := fold_left (fun y p => add y (mul p.1 (ct_reduce (nth limb (sh_y p.2) 0)))) l y in
  elem r /\ eqp (num r) (num y + sum ((fun p => num p.1 * num (nth limb (sh_y p.2) 0%N)) <$> l))%Z.
Proof.
  intros Hy Hl. revert y Hy. induction Hl as [|[c s] l [Hc Hs] Hl IH]; intros y Hy; cbn [fold_left fst snd] in *.
  - split; [done|]. apply eqm_of_eq. cbn. ring.
  - rewrite (ct_reduce_elem _ Hs). destruct (mul_eqm c (nth limb (sh_y s) 0)) as [Hm Em]; [auto..|]. destruct (add_eqm y (mul c (nth limb (sh_y s) 0))) as [Ha Ea]; [auto..|].
    destruct (IH _ Ha) as [Hr Er]. split; [done|]. rewrite Er, Ea, Em, fmap_cons. unfold sum. cbn [foldr fst snd]. apply eqm_of_eq. ring.
Qed.

Lemma sum_forall2 {A A'} (f : A -> Z) (g : A' -> Z) l l' : Forall2 (fun a b => eqp (f a) (g b)) l l' -> eqp (sum (f <$> l)) (sum (g <$> l')).
Proof. induction 1 as [|a b l l' Hab _ IH]; [reflexivity|]. rewrite !fmap_cons. unfold sum in *. cbn [foldr]. by rewrite Hab, IH. Qed.

(** The shares are those of the polynomials. *)
Variable ps : list (list N).
Hypothesis polys : Forall (fun p => length p = count /\ Forall elem p) ps.
Hypothesis are_shares : Forall (fun s => sh_y s = (fun p => eval p (sh_x s)) <$> ps) shares.

Lemma share_limb limb p s : ps !! limb = Some p -> s ∈ shares -> nth limb (sh_y s) 0 = eval p (sh_x s).
Proof. intros Hp Hs. rewrite Forall_forall in are_shares. rewrite (are_shares s Hs). apply nth_lookup_Some. by rewrite list_lookup_fmap, Hp. Qed.

Lemma interpolated_limb limb p cs : ps !! limb = Some p ->
  Forall2 (fun i c => elem c /\ eqp (num c) (weight invZ (num (point i)) (others (num (point i)) all_points))) (seq 0 count) cs ->
  interpolate_limb shares cs limb = nth 0 p 0.
Proof.
  intros Hp Hcs. rewrite Forall_forall in polys. destruct (polys p) as [Hlen Hel]; [by eapply list_elem_of_lookup_2|].
  assert (forall j c s, cs !! j = Some c -> shares !! j = Some s -> (j < count)%nat /\ point j = sh_x s /\ elem c /\
    eqp (num c) (weight invZ (num (point j)) (others (num (point j)) all_points)) /\ nth limb (sh_y s) 0 = eval p (sh_x s) /\ elem (sh_x s)) as Hj.
  { intros j c s Hc Hs. destruct (Forall2_lookup_r _ _ _ _ _ Hcs Hc) as (i & [-> Hi]%lookup_seq & He & Ew). cbn in *. split_and!; try done.
    - unfold point. by rewrite Hs.
    - apply share_limb; [done|]. by eapply list_elem_of_lookup_2.
    - rewrite Forall_forall in elems. apply elems. by eapply list_elem_of_lookup_2. }
  assert (Forall2 (fun q j => exists c s, q = (c, s) /\ cs !! j = Some c /\ shares !! j = Some s) (zip cs shares) (seq 0 count)) as Hzip.
  { pose proof (Forall2_length _ _ _ Hcs) as Hl. rewrite length_seq in Hl. apply Forall2_same_length_lookup. rewrite length_zip_with, length_seq. split; [lia|].
    intros j q i Hq%lookup_zip_with_Some [-> Hi]%lookup_seq. destruct Hq as (c & s & -> & Hc & Hs). by exists c, s. }
  destruct (limb_sum limb (zip cs shares) 0) as [Hr Er]; [done| |].
  { eapply Forall2_Forall_l; [exact Hzip|]. apply Forall_forall. intros j _ q (c & s & -> & Hc & Hs). destruct (Hj j c s Hc Hs) as (_ & _ & He & _ & Ey & Hx). cbn [fst snd].
    rewrite Ey. split; [done|]. apply eval_eqm; auto. }
  apply elem_eq; [exact Hr|by apply nth_elem|]. unfold interpolate_limb. rewrite Er. change (num 0) with 0%Z. rewrite Z.add_0_l.
  transitivity (interpolated invZ all_points (peval (num <$> p))).
  - unfold interpolated. unfold all_points at 2. rewrite <- list_fmap_compose. apply sum_forall2. eapply Forall2_impl; [exact Hzip|].
    intros q j (c & s & -> & Hc & Hs). destruct (Hj j c s Hc Hs) as (_ & Epx & He & Ew & Ey & Hx). cbn [fst snd compose].
    rewrite Ey. destruct (eval_eqm p (sh_x s) Hel ltac:(auto)) as [_ Ee]. rewrite Ee, Ew, Epx. reflexivity.
  - rewrite (interpolation mersenne31 mersenne31_prime invZ invZ_ok all_points (num <$> p)); [|apply all_points_ok|unfold all_points; rewrite !length_fmap, length_seq; lia].
    apply eqm_of_eq. destruct p as [|c p]; cbn; [done|]. ring.
Qed.

Lemma recover_secret_ok : (0 < count)%nat -> length ps = LIMBS -> recover_unauthenticated_secret shares (N.of_nat count) = Ok (secret_of ps).
Proof.
  intros H0 Hps. unfold recover_unauthenticated_secret. destruct (N.ltb_spec (N.of_nat (length shares)) (N.of_nat count)); [lia|]. destruct (N.eqb_spec (N.of_nat count) 0); [lia|].
  rewrite Nat2N.id. destruct (lagrange_all_ok (seq 0 count)) as (cs & -> & Hcs); [apply Forall_forall; intros j Hj%elem_of_seq; lia|]. cbn [rbind].
  unfold secret_of. do 2 f_equal. apply list_eq. intros limb. rewrite !list_lookup_fmap. destruct (ps !! limb) as [p|] eqn:Hp.
  - pose proof (lookup_lt_Some _ _ _ Hp) as Hlt. rewrite lookup_seq_lt by lia. cbn. f_equal. rewrite (interpolated_limb limb p cs Hp Hcs). apply u32_elem, nth_elem.
    rewrite Forall_forall in polys. apply (polys p). by eapply list_elem_of_lookup_2.
  - apply lookup_ge_None in Hp. rewrite lookup_seq_ge by lia. done.
Qed.
End recovery.

(** Any [threshold] shares of the polynomials give the secret. *)
Lemma chosen_recover ps n threshold chosen : length ps = LIMBS -> Forall (fun p => length p = N.to_nat threshold /\ Forall elem p) ps -> 1 <= threshold -> n < prime ->
  NoDup chosen -> (forall s, s ∈ chosen -> exists x, s = share_of ps x /\ 1 <= x <= n) -> threshold <= N.of_nat (length chosen) ->
  recover_unauthenticated_secret chosen threshold = Ok (secret_of ps).
Proof.
  intros Hlen Hps Ht Hn Hnd Hin Hlt. assert (forall s, s ∈ chosen -> elem (sh_x s) /\ s = share_of ps (sh_x s)) as Hch.
  { intros s Hs. destruct (Hin s Hs) as (x & -> & Hx). split; [|done]. unfold elem. cbn. lia. }
  replace threshold with (N.of_nat (N.to_nat threshold)) by lia. apply recover_secret_ok; [lia| | |exact Hps| |lia|done].
  - apply NoDup_fmap_2_strong; [|done]. intros s s' Hs Hs' E. destruct (Hch s Hs) as [_ ->]. destruct (Hch s' Hs') as [_ ->]. by rewrite E.
  - apply Forall_forall. intros s Hs. by apply Hch.
  - apply Forall_forall. intros s Hs. destruct (Hch s Hs) as [_ Es]. by rewrite Es at 1.
Qed.

(** ** Bytes *)

Definition share_ok (s : Share) : Prop := sh_x s < 2 ^ 32 /\ length (sh_y s) = LIMBS /\ Forall (fun y => y < 2 ^ 32) (sh_y s).

Lemma read_limbs_app ys rest : Forall (fun y => y < 2 ^ 32) ys -> read_limbs (length ys) (concat (le_split 4 <$> ys) ++ rest) = Ok (ys, rest).
Proof.
  induction 1 as [|y ys Hy Hys IH]; [done|]. rewrite fmap_cons. cbn [concat length read_limbs]. rewrite <- app_assoc, read_int_app by exact Hy. cbn [rbind fst snd].
  rewrite IH. done.
Qed.

Lemma length_limbs ys : length (concat (le_split 4 <$> ys)) = (4 * length ys)%nat.
Proof. induction ys as [|y ys IH]; [done|]. rewrite fmap_cons. cbn [concat length]. rewrite length_app, length_le_split, IH. lia. Qed.

Lemma serialise_round_trip s : share_ok s -> exists b, serialise s serialised_size = Ok b /\ N.of_nat (length b) = serialised_size /\ deserialise b = Ok s.
Proof.
  intros (Hx & Hl & Hy). unfold serialise. rewrite N.eqb_refl. cbn [negb]. eexists. split; [done|]. assert (N.of_nat (length (le_split 4 (sh_x s) ++ concat (le_split 4 <$> sh_y s))) = serialised_size) as Hlen.
  { rewrite length_app, length_le_split, length_limbs, Hl. done. }
  split; [done|]. unfold deserialise. rewrite Hlen, N.eqb_refl. cbn [negb]. rewrite read_int_app by exact Hx. cbn [rbind fst snd].
  rewrite <- (app_nil_r (concat _)), <- Hl, read_limbs_app by done. by destruct s.
Qed.

Lemma share_of_ok ps x : length ps = LIMBS -> Forall (Forall elem) ps -> x < 2 ^ 32 -> share_ok (share_of ps x).
Proof.
  intros Hl Hps Hx. split_and!; [done|by cbn; rewrite length_fmap|]. cbn. apply Forall_fmap. eapply Forall_impl; [exact Hps|]. intros p Hp. cbn. apply elem_32, eval_eqm; done.
Qed.

Lemma secret_of_ok ps : length ps = LIMBS -> Forall (Forall elem) ps -> share_ok (secret_of ps).
Proof.
  intros Hl Hps. split_and!; [done|by cbn; rewrite length_fmap|]. cbn. apply Forall_fmap. eapply Forall_impl; [exact Hps|]. intros p Hp. cbn. by apply elem_32, nth_elem.
Qed.

(** ** Fewer shares *)

Lemma peval_add (q q' : list N) x : Forall elem q -> Forall elem q' -> length q = length q' ->
  Forall elem (zip_with add q q') /\ eqp (peval (num <$> zip_with add q q') x) (peval (num <$> q) x + peval (num <$> q') x).
Proof.
  intros Hq. revert q'. induction Hq as [|c q Hc Hq IH]; intros q' Hq' Hl; destruct Hq' as [|c' q' Hc' Hq']; try discriminate.
  - split; [constructor|reflexivity].
  - injection Hl as Hl. destruct (IH q' Hq' Hl) as [He E]. destruct (add_eqm c c') as [Ha Ea]; [auto..|]. cbn [zip_with]. split; [by constructor|].
    rewrite !fmap_cons. cbn [peval]. rewrite E, Ea. apply eqm_of_eq. ring.
Qed.

(** The coefficients, reduced and with as many 0 after them as it takes. *)
Definition coefficients (n : nat) (q : list Z) : list N := (Z.to_N ∘ (fun c => c mod mersenne31)%Z <$> q) ++ replicate (n - length q) 0.

Lemma coefficients_ok n q : (length q <= n)%nat -> length (coefficients n q) = n /\ Forall elem (coefficients n q).
Proof.
  intros Hl. unfold coefficients. split; [rewrite length_app, length_fmap, length_replicate; lia|]. apply Forall_app. split.
  - apply Forall_fmap, Forall_forall. intros c _. cbn. pose proof (Z.mod_pos_bound c mersenne31 ltac:(done)). unfold elem, prime, mersenne31 in *. lia.
  - by apply Forall_replicate.
Qed.

Lemma peval_coefficients n q x : eqp (peval (num <$> coefficients n q) x) (peval q x).
Proof.
  unfold coefficients. rewrite fmap_app. set (k := (n - length q)%nat). clearbody k. induction q as [|c q IH].
  - cbn [fmap list_fmap app peval]. apply eqm_of_eq. induction k as [|k IH]; cbn; [done|]. cbn in IH. rewrite IH. ring.
  - rewrite !fmap_cons. cbn [app peval compose]. rewrite IH. rewrite Z2N.id by (apply Z.mod_pos_bound; done). rewrite (eqm_mod mersenne31 c) by done. reflexivity.
Qed.

(** A polynomial that is 0 at the points and has a given value at 0. *)
Lemma vanishing xs v n : NoDup xs -> Forall (fun x => 0 < x /\ elem x) xs -> (length xs < n)%nat ->
  exists q, length q = n /\ Forall elem q /\ eqp (peval (num <$> q) 0) v /\ forall x, x ∈ xs -> eqp (peval (num <$> q) (num x)) 0.
Proof.
  intros Hnd Hxs Hl. assert (points mersenne31 (0%Z :: (num <$> xs))) as Hpts.
  { rewrite Forall_forall in Hxs. split.
    - apply NoDup_cons. split; [|apply NoDup_fmap_2; [intros ???; lia|done]]. intros (x & Hx & Hin)%list_elem_of_fmap. destruct (Hxs x Hin). lia.
    - apply Forall_cons. split; [done|]. apply Forall_fmap, Forall_forall. intros x [? Hx]%Hxs. unfold elem, prime, mersenne31 in *. cbn. lia. }
  destruct (interpolant mersenne31 mersenne31_prime invZ invZ_ok _ (fun z => if (z =? 0)%Z then v else 0%Z) Hpts) as (q & Hlq & Hq).
  cbn [length] in Hlq. rewrite length_fmap in Hlq. destruct (coefficients_ok n q) as [H1 H2]; [lia|]. exists (coefficients n q). split_and!; [done|done| |].
  - rewrite peval_coefficients. apply (Hq 0%Z). left.
  - intros x Hx. rewrite peval_coefficients, (Hq (num x)) by (right; by apply list_elem_of_fmap_2).
    rewrite Forall_forall in Hxs. destruct (Hxs x Hx). destruct (Z.eqb_spec (num x) 0); [lia|reflexivity].
Qed.

Lemma peval_0 (q : list N) : peval (num <$> q) 0 = num (nth 0 q 0).
Proof. destruct q as [|c q]; [done|]. rewrite fmap_cons. cbn [peval nth]. ring. Qed.

Definition neg (q : list N) : list N := sub 0 <$> q.

Lemma add_neg c k : elem c -> elem k -> add (add c k) (sub 0 k) = c.
Proof.
  intros Hc Hk. destruct (add_eqm c k) as [H1 E1]; [auto..|]. destruct (sub_eqm 0 k) as [H2 E2]; [done..|]. destruct (add_eqm (add c k) (sub 0 k)) as [H3 E3]; [auto..|].
  apply elem_eq; [done|done|]. rewrite E3, E1, E2. apply eqm_of_eq. change (num 0) with 0%Z. ring.
Qed.

Lemma neg_neg q : Forall elem q -> neg (neg q) = q.
Proof.
  unfold neg. induction 1 as [|k q Hk Hq IH]; [done|]. cbn [fmap list_fmap]. f_equal; [|exact IH]. destruct (sub_eqm 0 k) as [H1 E1]; [done..|].
  destruct (sub_eqm 0 (sub 0 k)) as [H2 E2]; [done..|]. apply elem_eq; [done|done|]. rewrite E2, E1. apply eqm_of_eq. change (num 0) with 0%Z. ring.
Qed.

Lemma neg_ok q x : Forall elem q -> length (neg q) = length q /\ Forall elem (neg q) /\ eqp (peval (num <$> neg q) x) (- peval (num <$> q) x).
Proof.
  unfold neg. induction 1 as [|k q Hk Hq (IH1 & IH2 & IH3)]; [by split_and!; [..|reflexivity]|]. destruct (sub_eqm 0 k) as [H1 E1]; [done..|].
  rewrite !fmap_cons. split_and!; [cbn [length]; lia|by constructor|]. cbn [peval]. rewrite IH3, E1. apply eqm_of_eq. change (num 0) with 0%Z. ring.
Qed.

Lemma shift_back p q : Forall elem p -> Forall elem q -> length p = length q -> zip_with add (zip_with add p q) (neg q) = p.
Proof.
  intros Hp. revert q. induction Hp as [|c p Hc Hp IH]; intros q Hq Hl; destruct Hq as [|k q Hk Hq]; try discriminate; [done|].
  injection Hl as Hl. unfold neg. rewrite fmap_cons. cbn [zip_with]. f_equal; [by apply add_neg|]. by apply IH.
Qed.

(** The polynomials of a secret. *)
Definition polynomial (n : nat) (s : N) (p : list N) : Prop := length p = n /\ Forall elem p /\ nth 0 p 0 = s.

(** Adding a polynomial that is 0 at the points changes the secret alone. *)
Lemma shift_ok n s s' xs p q : s < prime -> s' < prime -> Forall (fun x => 0 < x /\ elem x) xs -> polynomial n s p -> length q = n -> Forall elem q ->
  eqp (peval (num <$> q) 0) (num s' - num s) -> (forall x, x ∈ xs -> eqp (peval (num <$> q) (num x)) 0) ->
  polynomial n s' (zip_with add p q) /\ zip_with add (zip_with add p q) (neg q) = p /\ forall x, x ∈ xs -> eval (zip_with add p q) x = eval p x.
Proof.
  intros Hs Hs' Hxs (Hl & Hp & H0) Hlq Hq Hv Hz. assert (length p = length q) as Hlpq by congruence. destruct (peval_add p q 0 Hp Hq Hlpq) as [He E0]. split_and!.
  - split_and!; [rewrite length_zip_with; lia|done|]. apply elem_eq; [by apply nth_elem|done|]. rewrite <- peval_0, E0, peval_0, H0, Hv. apply eqm_of_eq. ring.
  - by apply shift_back.
  - intros x Hx. rewrite Forall_forall in Hxs. destruct (Hxs x Hx) as [_ Hex]. destruct (eval_eqm (zip_with add p q) x He ltac:(auto)) as [H1 E1].
    destruct (eval_eqm p x Hp ltac:(auto)) as [H2 E2]. apply elem_eq; [done|done|]. destruct (peval_add p q (num x) Hp Hq Hlpq) as [_ E3].
    rewrite E1, E2, E3, (Hz x Hx). apply eqm_of_eq. ring.
Qed.

(** C27. Addition, subtraction, multiplication and inversion in 64-bit
    arithmetic, with the reduction that takes constant time, are those of the
    integers modulo the prime 2^31 - 1, and the reduction gives the remainder of
    every 64-bit number. *)
Theorem field_operations x y : (x < 2 ^ 64 -> ct_reduce x = x mod prime) /\
  (x < prime -> y < prime -> add x y = (x + y) mod prime /\ sub x y = (x + (prime - y)) mod prime /\ mul x y = (x * y) mod prime /\
    (inv x = if x =? 0 then Throw (LogicError "division by zero") else Ok (exp x (prime - 2))) /\ (x <> 0 -> mul (exp x (prime - 2)) x = 1)).
Proof.
  split; [apply ct_reduce_mod|]. intros Hx Hy. split_and!.
  - apply add_mod; by apply elem_32.
  - rewrite sub_mod by done. f_equal. unfold elem in *. lia.
  - apply mul_mod; by apply elem_32.
  - reflexivity.
  - intros H0. destruct (exp_eqm x Hx) as [He Ei]. set (i := exp x (prime - 2)) in *. clearbody i.
    destruct (mul_eqm i x) as [Hm Em]; [by apply elem_32..|]. apply elem_eq; [done|done|]. rewrite Em, Ei. apply (invZ_ok (num x)).
    intros [k Hk]. unfold mersenne31, elem, prime in *. lia.
Qed.

Lemma field_operations_witness : mul (exp 7 (prime - 2)) 7 = 1.
Proof. refine (proj2 (proj2 (proj2 (proj2 (proj2 (field_operations 7 1) _ _)))) _); [reflexivity|reflexivity|discriminate]. Defined.

(** C7. Any [threshold] of the shares, in any order and with any more of them
    after, give the secret back, for any number of shares below the prime and
    any entropy that does not keep giving the number that is not an element. *)
Theorem shares_recover_secret random64 tries n threshold d :
  (forall k, exists i, (i < tries)%nat /\ N.land (random64 (k + N.of_nat i)) prime <> prime) ->
  1 <= threshold <= n -> n < prime ->
  exists secret shares d', sample_secret_and_shares random64 tries n threshold d = (Ok (secret, shares), d') /\ N.of_nat (length shares) = n /\
    forall chosen, NoDup chosen -> (forall s, s ∈ chosen -> s ∈ shares) -> threshold <= N.of_nat (length chosen) ->
      recover_unauthenticated_secret chosen threshold = Ok secret.
Proof.
  intros Hent Ht Hn. destruct (shares_made random64 tries Hent n threshold d Ht Hn) as (ps & d' & Hmade & Hlen & Hps).
  eexists _, _, d'. split; [exact Hmade|]. split; [rewrite !length_fmap, length_seq; lia|]. intros chosen Hnd Hin Hlt. apply (chosen_recover ps n); try done; [lia|].
  intros s Hs. apply Hin in Hs. apply list_elem_of_fmap in Hs as (x & -> & Hx). apply list_elem_of_fmap in Hx as (j & -> & Hj%elem_of_seq). exists (N.of_nat j). split; [done|lia].
Qed.

Lemma shares_recover_secret_witness : exists secret shares d',
  sample_secret_and_shares (fun n => if N.even n then 5 else prime) 2 3 2 0 = (Ok (secret, shares), d') /\ N.of_nat (length shares) = 3 /\
  forall chosen, NoDup chosen -> (forall s, s ∈ chosen -> s ∈ shares) -> 2 <= N.of_nat (length chosen) -> recover_unauthenticated_secret chosen 2 = Ok secret.
Proof.
  apply shares_recover_secret.
  - intros k. destruct (N.even k) eqn:E; [exists 0%nat|exists 1%nat]; (split; [lia|]).
    + rewrite N.add_0_r, E. discriminate.
    + change (N.of_nat 1) with 1. rewrite N.even_add, E. discriminate.
  - done.
  - done.
Defined.

(** C20. Fewer shares than the threshold say nothing of the secret: for any two
    secrets, the polynomials of the one are in a one-to-one correspondence with
    those of the other that keeps the share at each of the points. (That they
    are sampled evenly is not part of this.) *)
Theorem fewer_shares_hide_secret (xs : list N) (threshold : nat) (secret secret' : N) :
  NoDup xs -> Forall (fun x => 0 < x /\ x < prime) xs -> (length xs < threshold)%nat -> secret < prime -> secret' < prime ->
  exists f g, forall p p', polynomial threshold secret p -> polynomial threshold secret' p' ->
    (polynomial threshold secret' (f p) /\ g (f p) = p /\ forall x, x ∈ xs -> eval (f p) x = eval p x) /\
    (polynomial threshold secret (g p') /\ f (g p') = p' /\ forall x, x ∈ xs -> eval (g p') x = eval p' x).
Proof.
  intros Hnd Hxs Hl Hs Hs'. destruct (vanishing xs (num secret' - num secret) threshold Hnd Hxs Hl) as (q & Hlq & Hq & Hv & Hz).
  exists (fun p => zip_with add p q), (fun p => zip_with add p (neg q)). intros p p' Hp Hp'. split; [by apply (shift_ok threshold secret secret')|].
  destruct (neg_ok q 0 Hq) as (Hln & Hqn & Hvn). pose proof (shift_ok threshold secret' secret xs p' (neg q)) as Hback. rewrite (neg_neg q Hq) in Hback. apply Hback; try done; [congruence| |].
  - rewrite Hvn, Hv. apply eqm_of_eq. ring.
  - intros x Hx. destruct (neg_ok q (num x) Hq) as (_ & _ & ->). rewrite (Hz x Hx). reflexivity.
Qed.

Lemma fewer_shares_hide_secret_witness : exists f, forall p, polynomial 2 3 p -> polynomial 2 4 (f p) /\ eval (f p) 1 = eval p 1.
Proof.
  refine (let '(ex_intro _ f (ex_intro _ g H)) := fewer_shares_hide_secret [1] 2 3 4 _ _ _ _ _ in _).
  - apply NoDup_singleton.
  - by repeat constructor.
  - cbn. lia.
  - reflexivity.
  - reflexivity.
  - exists f. intros p Hp. destruct (H p [4; 0] Hp) as [(H1 & _ & H3) _]; [by repeat constructor|]. split; [done|]. apply H3. left.
Defined.
End SharingSpec.
