(* ===== verification/LedgerSecrets.v ===== *)
(** * Ledger secrets

    The secrets that encrypt the ledger, by the version they apply from
    (src/node/ledger_secrets.h), and the choice of the secret of a version: by
    search, or in constant time from the one used last. The secrets are kept in a
    [std::map] with integer keys: the list of its elements in the order of the
    keys, and the lookup of the last element at or below a key ([OrderedMap]). *)

From S2P Require Import Prelude.

(** ** Ordered maps *)

Module OrderedMap.
Open Scope N_scope.

Section ordered_map.
Context {A : Type}.
Implicit Types m : list (N * A).

(** [emplace]: nothing happens when the key is there. *)
Fixpoint emplace (k : N) (x : A) m : list (N * A) :=
  match m with
  | [] => [(k, x)]
  | p :: m' => if k <? p.1 then (k, x) :: m else if p.1 <? k then p :: emplace k x m' else m
  end.

Fixpoint find (k : N) m : option A :=
  match m with
  | [] => None
  | p :: m => if p.1 =? k then Some p.2 else find k m
  end.

Definition erase (k : N) m : list (N * A) := filter (fun p => p.1 <> k) m.

(** [merge]: the elements of [m'] whose keys are not in [m]. *)
Definition merge m m' : list (N * A) := fold_left (fun m p => emplace p.1 p.2 m) m' m.

(** [std::next] of the iterator to the element with key [k]. *)
Definition next (k : N) m : option (N * A) := head (filter (fun p => k < p.1) m).

Definition rbegin m : option (N * A) := last m.

(** The element in force at a version: the last at or below it. *)
Definition at_or_below (v : N) m : option (N * A) := last (filter (fun p => p.1 <= v) m).

(** The keys increase. *)
Definition ordered m : Prop := ssorted m.*1.

Lemma ordered_cons p m : ordered (p :: m) <-> Forall (fun q => p.1 < q.1) m /\ ordered m.
Proof.
  unfold ordered. rewrite fmap_cons. split.
  - intros H. inversion H as [|?? Hs Hall]; subst. split; [|done]. apply (Forall_fmap fst) in Hall. exact Hall.
  - intros [Hall Hs]. constructor; [done|]. apply (Forall_fmap fst). exact Hall.
Qed.

Lemma ordered_filter (P : N * A -> Prop) `{!forall p, Decision (P p)} m : ordered m -> ordered (filter P m).
Proof.
  induction m as [|p m IH]; [done|]. rewrite ordered_cons, filter_cons. intros [Hall Hs]. case_decide; [|by apply IH].
  apply ordered_cons. split; [|by apply IH]. apply Forall_forall. intros q [_ Hq]%list_elem_of_filter. rewrite Forall_forall in Hall. by apply Hall.
Qed.

Lemma elem_of_emplace k x m p : p ∈ emplace k x m -> p ∈ m \/ p = (k, x).
Proof.
  induction m as [|q m IH]; cbn [emplace].
  - intros ->%list_elem_of_singleton. by right.
  - destruct (k <? q.1); [rewrite !elem_of_cons; tauto|]. destruct (q.1 <? k); [|tauto]. rewrite !elem_of_cons. tauto.
Qed.

Lemma emplace_ordered k x m : ordered m -> ordered (emplace k x m).
Proof.
  induction m as [|p m IH]; cbn [emplace]; intros Hs; [by repeat constructor|]. destruct (N.ltb_spec k p.1) as [Hk|Hk].
  - apply ordered_cons. split; [|done]. apply ordered_cons in Hs as [Hall Hs]. constructor; [done|]. eapply Forall_impl; [exact Hall|]. cbn. intros q Hq. lia.
  - destruct (N.ltb_spec p.1 k) as [Hp|Hp]; [|done]. apply ordered_cons in Hs as [Hall Hs]. apply ordered_cons. split; [|by apply IH].
    apply Forall_forall. intros q [Hq| ->]%elem_of_emplace; [|done]. rewrite Forall_forall in Hall. by apply Hall.
Qed.

Lemma merge_ordered m' m : ordered m -> ordered (merge m m').
Proof. revert m. induction m' as [|p m' IH]; intros m Hs; [done|]. by apply IH, emplace_ordered. Qed.

(** The elements at or below a key are not affected by one above it. *)
Lemma filter_emplace_above v k x m : v < k -> filter (fun p => p.1 <= v) (emplace k x m) = filter (fun p => p.1 <= v) m.
Proof.
  intros Hv. induction m as [|p m IH]; cbn [emplace].
  - rewrite filter_cons_False; [done|]. cbn. lia.
  - repeat case_match; [|by rewrite !filter_cons, IH|done]. rewrite filter_cons_False; [done|]. cbn. lia.
Qed.

Lemma find_elem k m x : find k m = Some x -> (k, x) ∈ m.
Proof.
  induction m as [|[k' x'] m IH]; cbn [find fst snd]; [done|]. destruct (N.eqb_spec k' k) as [->|]; [|intros; right; auto]. intros E. injection E as ->. left.
Qed.

Lemma elem_find k m x : ordered m -> (k, x) ∈ m -> find k m = Some x.
Proof.
  induction m as [|[k' x'] m IH]; intros Hs Hin; [by apply elem_of_nil in Hin|]. apply ordered_cons in Hs as [Hall Hs]. cbn [find fst snd].
  apply elem_of_cons in Hin as [[= -> ->]|Hin]; [by rewrite N.eqb_refl|]. rewrite Forall_forall in Hall. specialize (Hall _ Hin). cbn in Hall.
  destruct (N.eqb_spec k' k); [lia|]. by apply IH.
Qed.

Lemma find_None k m : find k m = None <-> Forall (fun p => p.1 <> k) m.
Proof.
  induction m as [|[k' x'] m IH]; cbn [find fst snd]; [done|]. rewrite Forall_cons. cbn [fst]. destruct (N.eqb_spec k' k); [|tauto]. split; [done|]. tauto.
Qed.

(** [std::upper_bound], and the element before it. *)
Lemma upper_bound_filter v m : ordered m -> take (upper_bound v m.*1) m = filter (fun p => p.1 <= v) m.
Proof.
  induction m as [|p m IH]; [done|]. intros [Hall Hs]%ordered_cons. rewrite fmap_cons. cbn [upper_bound]. rewrite filter_cons.
  destruct (N.ltb_spec v p.1) as [Hv|Hv].
  - rewrite decide_False by lia. cbn [take]. rewrite filter_none; [done|]. eapply Forall_impl; [exact Hall|]. cbn. intros; lia.
  - rewrite decide_True by lia. cbn [take]. by rewrite <- IH.
Qed.

Lemma upper_bound_prev v m : ordered m -> upper_bound v m.*1 <> 0%nat -> m !! (upper_bound v m.*1 - 1)%nat = at_or_below v m.
Proof.
  intros Hs H0. unfold at_or_below. rewrite <- (upper_bound_filter v m Hs). pose proof (upper_bound_le_length v m.*1) as Hle. rewrite length_fmap in Hle.
  rewrite last_lookup, length_take, lookup_take_lt by lia. f_equal. lia.
Qed.

Lemma upper_bound_none v m : ordered m -> upper_bound v m.*1 = 0%nat -> at_or_below v m = None.
Proof. intros Hs H0. unfold at_or_below. by rewrite <- (upper_bound_filter v m Hs), H0. Qed.

(** Between two versions with no key in between the element is the same. *)
Lemma filter_upto_split u v m : ordered m -> u <= v -> filter (fun p => p.1 <= v) m = filter (fun p => p.1 <= u) m ++ filter (fun p => u < p.1 /\ p.1 <= v) m.
Proof.
  intros Hs Huv. induction m as [|p m IH]; [done|]. apply ordered_cons in Hs as [Hall Hs]. rewrite !filter_cons. destruct (decide (p.1 <= u)) as [Hp|Hp].
  - destruct (decide (p.1 <= v)) as [Hv|Hv]; [|lia]. rewrite decide_False by lia. cbn. by rewrite <- IH.
  - assert (filter (fun q : N * A => q.1 <= u) m = []) as E. { apply filter_none. eapply Forall_impl; [exact Hall|]. cbn. intros; lia. }
    rewrite IH, E by done. cbn. destruct (decide (p.1 <= v)) as [Hv|Hv]; [by rewrite decide_True by lia|]. by rewrite decide_False by lia.
Qed.

Lemma emplace_last k x m : Forall (fun p => p.1 < k) m -> emplace k x m = m ++ [(k, x)].
Proof.
  induction 1 as [|p m Hp Hm IH]; [done|]. cbn [emplace]. destruct (N.ltb_spec k p.1); [lia|]. destruct (N.ltb_spec p.1 k); [|lia]. by rewrite IH.
Qed.

Lemma ordered_snoc m k x : ordered m -> Forall (fun p => p.1 < k) m -> ordered (m ++ [(k, x)]).
Proof. intros Hm Hk. rewrite <- emplace_last by done. by apply emplace_ordered. Qed.

Lemma emplace_between k x m m' : Forall (fun p => p.1 < k) m -> Forall (fun p => k < p.1) m' -> emplace k x (m ++ m') = m ++ (k, x) :: m'.
Proof.
  intros Hm Hm'. induction Hm as [|p m Hp Hm IH]; cbn [app emplace].
  - destruct Hm' as [|q m' Hq Hm']; [done|]. cbn [emplace]. by destruct (N.ltb_spec k q.1); [|lia].
  - destruct (N.ltb_spec k p.1); [lia|]. destruct (N.ltb_spec p.1 k); [|lia]. by rewrite IH.
Qed.

Lemma ordered_app m m' : ordered (m ++ m') <-> ordered m /\ ordered m' /\ forall p q, p ∈ m -> q ∈ m' -> p.1 < q.1.
Proof.
  unfold ordered. rewrite fmap_app, ssorted_app. split; intros (H1 & H2 & H3); split_and!; try done.
  - intros p q Hp Hq. apply H3; by apply list_elem_of_fmap_2.
  - intros x y (p & -> & Hp)%list_elem_of_fmap (q & -> & Hq)%list_elem_of_fmap. by apply H3.
Qed.

(** Merging what is all before. *)
Lemma merge_before m' m : ordered (m' ++ m) -> merge m m' = m' ++ m.
Proof.
  induction m' as [|[k x] m' IH] using rev_ind; [done|]. rewrite <- app_assoc. intros Hs. unfold merge in *. rewrite fold_left_app. cbn [fold_left fst snd].
  apply ordered_app in Hs as (H1 & H2 & H3). cbn [app] in H2. apply ordered_cons in H2 as [H2 H4]. rewrite IH.
  - rewrite emplace_between; [done| |done]. apply Forall_forall. intros p Hp. apply (H3 p (k, x)); [done|left].
  - apply ordered_app. split_and!; [done|done|]. intros p q Hp Hq. apply H3; [done|by right].
Qed.
End ordered_map.
End OrderedMap.

(** ** The secrets *)

Module LedgerSecrets.
Import OrderedMap.
Open Scope N_scope.
Open Scope m_scope.

(** [LedgerSecret]; its [key] and [commit_secret] are functions of [raw_key]. *)
Record LedgerSecret := mkLedgerSecret { raw_key : bytes; previous_secret_stored_version : option N }.
#[global] Instance LedgerSecret_eq_dec : EqDecision LedgerSecret.
Proof. solve_decision. Defined.

Abbreviation LedgerSecretsMap := (list (N * LedgerSecret)) (only parsing).

(** [last_used_secret_it] is the key of the element it points to. *)
Record State := mkState {
  ledger_secrets : LedgerSecretsMap;
  initial_latest_ledger_secret_version : N;
  last_used_secret_it : option N;
}.
Definition eta_State (s : State) : State := mkState (ledger_secrets s) (initial_latest_ledger_secret_version s) (last_used_secret_it s).
Definition set_ledger_secrets (m : LedgerSecretsMap) (s : State) : State := ltac:(set_field eta_State (ledger_secrets s) m s).
Definition set_initial (v : N) (s : State) : State := ltac:(set_field eta_State (initial_latest_ledger_secret_version s) v s).
Definition set_last_used (it : option N) (s : State) : State := ltac:(set_field eta_State (last_used_secret_it s) it s).

Definition empty_state : State := mkState [] 0 None.

(** The fast path, from the element the iterator points to. *)
Definition fast_path (version k : N) : M State (option LedgerSecret) :=
  s <- gets id ;;;
  let k' := match next k (ledger_secrets s) with Some p => if p.1 <=? version then p.1 else k | None => k end in
  modify (set_last_used (Some k')) ;;;
  match find k' (ledger_secrets s) with
  | Some secret => ret (Some secret)
  | None => throw OutOfBounds
  end.

(** The slow path, by binary search. *)
Definition slow_path (version : N) (historical_hint : bool) : M State (option LedgerSecret) :=
  s <- gets id ;;;
  let search := upper_bound version (ledger_secrets s).*1 in
  if (search =? 0)%nat then ret None
  else
    match ledger_secrets s !! (search - 1)%nat with
    | Some p => when (negb historical_hint) (modify (set_last_used (Some p.1))) ;;; ret (Some p.2)
    | None => throw OutOfBounds
    end.

Definition get_secret_for_version (version : N) (historical_hint : bool) : M State (option LedgerSecret) :=
  s <- gets id ;;;
  match ledger_secrets s with
  | [] => ret None
  | _ =>
      match last_used_secret_it s with
      | Some k => if historical_hint then slow_path version historical_hint else fast_path version k
      | None => slow_path version historical_hint
      end
  end.

Definition get_secret_for := get_secret_for_version.
Definition get_encryption_key_for (version : N) (historical_hint : bool) : M State (option bytes) :=
  ls <- get_secret_for_version version historical_hint ;;; ret (raw_key <$> ls).

(** The secret drawn is an argument. *)
Definition init (initial_version : N) (fresh : LedgerSecret) : M State unit :=
  modify (fun s => set_initial initial_version (set_ledger_secrets (emplace initial_version fresh (ledger_secrets s)) s)).

Definition init_from_map (m : LedgerSecretsMap) : M State unit :=
  s <- gets id ;;;
  match ledger_secrets s with
  | [] =>
      match rbegin m with
      | Some p => modify (fun s => set_initial p.1 (set_ledger_secrets m s))
      | None => modify (set_ledger_secrets m) ;;; throw OutOfBounds
      end
  | _ => throw AssertionFailure
  end.

Definition adjust_last (version : N) (m : LedgerSecretsMap) : LedgerSecretsMap :=
  match reverse m with
  | [] => []
  | p :: r => reverse r ++ [(p.1, mkLedgerSecret (raw_key p.2) (Some version))]
  end.
Definition adjust_previous_secret_stored_version (version : N) : M State unit :=
  s <- gets id ;;;
  match ledger_secrets s with
  | [] => throw (LogicError "There should be at least one ledger secret to adjust")
  | m => modify (set_ledger_secrets (adjust_last version m))
  end.

Definition is_empty : M State bool := gets (fun s => match ledger_secrets s with [] => true | _ => false end).

Definition get_first : M State (N * LedgerSecret) :=
  s <- gets id ;;;
  match ledger_secrets s with
  | [] => throw (LogicError "Could not retrieve first ledger secret: no secret set")
  | p :: _ => ret p
  end.

Definition get_latest : M State (N * LedgerSecret) :=
  s <- gets id ;;;
  match rbegin (ledger_secrets s) with
  | None => throw (LogicError "Could not retrieve latest ledger secret: no secret set")
  | Some p => ret p
  end.

Definition get_latest_and_penultimate : M State ((N * LedgerSecret) * option (N * LedgerSecret)) :=
  s <- gets id ;;;
  match reverse (ledger_secrets s) with
  | [] => throw (LogicError "Could not retrieve latest ledger secret: no secret set")
  | [latest] => ret (latest, None)
  | latest :: penultimate :: _ => ret (latest, Some penultimate)
  end.

(** The message of the error prints [up_to.has_value()], not the version. *)
Definition get (up_to : option N) : M State LedgerSecretsMap :=
  s <- gets id ;;;
  match up_to with
  | None => ret (ledger_secrets s)
  | Some v =>
      match find v (ledger_secrets s) with
      | None => throw (LogicError "No ledger secrets at true")
      | Some _ => ret (take (upper_bound v (ledger_secrets s).*1) (ledger_secrets s))
      end
  end.

Definition restore_historical (restored : LedgerSecretsMap) : M State unit :=
  s <- gets id ;;;
  match ledger_secrets s, rbegin restored with
  | first :: _, Some l => if first.1 <=? l.1 then throw (LogicError "Last restored version is greater than first existing version")
                          else modify (set_ledger_secrets (merge (ledger_secrets s) restored))
  | _, _ => modify (set_ledger_secrets (merge (ledger_secrets s) restored))
  end.

Definition set_secret (version : N) (secret : LedgerSecret) : M State unit :=
  s <- gets id ;;;
  match find version (ledger_secrets s) with
  | Some _ => throw AssertionFailure
  | None => modify (set_ledger_secrets (emplace version secret (ledger_secrets s)))
  end.

(** At most as many rounds as there are secrets. *)
Fixpoint rollback_loop (fuel : nat) (version initial : N) (m : LedgerSecretsMap) : LedgerSecretsMap :=
  match fuel with
  | O => m
  | S fuel =>
      if (1 <? length m)%nat then
        match rbegin m with
        | None => m
        | Some k => if (k.1 <=? version) || (k.1 <=? initial) then m else rollback_loop fuel version initial (erase k.1 m)
        end
      else m
  end.

Definition rollback (version : N) : M State unit :=
  s <- gets id ;;;
  match ledger_secrets s with
  | [] => ret tt
  | first :: _ =>
      if version <? first.1 then ret tt
      else
        modify (fun s => set_last_used None
          (set_ledger_secrets (rollback_loop (length (ledger_secrets s)) version (initial_latest_ledger_secret_version s) (ledger_secrets s)) s))
  end.
End LedgerSecrets.
