(* ===== verification/LedgerSecretsSpec.v ===== *)
(** * Ledger secrets: proofs

    The secret found in constant time is the one a search finds, as long as
    versions are used in order and no secret is skipped. *)

From S2P Require Import Prelude LedgerSecrets.

Module LedgerSecretsSpec.
Import OrderedMap LedgerSecrets.
Open Scope N_scope.

(** ** Lookups *)

Section lookups.
Implicit Types m : list (N * LedgerSecret).

Lemma last_greatest m q p : ordered m -> last m = Some q -> p ∈ m -> p.1 <= q.1.
Proof.
  induction m as [|r m IH]; [done|]. intros [Hall Hs]%ordered_cons Hl Hp. destruct m as [|r' m].
  - apply list_elem_of_singleton in Hp. cbn in Hl. by simplify_eq.
  - change (last (r' :: m) = Some q) in Hl. apply elem_of_cons in Hp as [->|Hp]; [|by apply IH].
    rewrite Forall_forall in Hall. specialize (Hall q). assert (q ∈ r' :: m) as Hq by (by apply last_Some_elem_of). specialize (Hall Hq). lia.
Qed.

Lemma at_or_below_elem v m p : at_or_below v m = Some p -> p ∈ m /\ p.1 <= v.
Proof. intros H%last_Some_elem_of. apply list_elem_of_filter in H. tauto. Qed.

(** What is after the element in force is after the version. *)
Lemma after_last v m k x p : ordered m -> at_or_below v m = Some (k, x) -> p ∈ m -> k < p.1 <-> v < p.1.
Proof.
  intros Hs Hl Hp. pose proof (at_or_below_elem v m _ Hl) as [_ Hkv]. cbn in Hkv. split; [|lia]. intros Hk. destruct (N.lt_ge_cases v p.1) as [|Hv]; [done|].
  assert (p.1 <= k); [|lia]. apply (last_greatest (filter (fun p => p.1 <= v) m) (k, x) p); [by apply ordered_filter|done|]. by apply list_elem_of_filter.
Qed.

Lemma filter_same (P Q : N * LedgerSecret -> Prop) `{!forall p, Decision (P p)} `{!forall p, Decision (Q p)} m :
  (forall p, p ∈ m -> P p <-> Q p) -> filter P m = filter Q m.
Proof.
  induction m as [|p m IH]; intros HPQ; [done|]. rewrite !filter_cons. rewrite IH by (intros; apply HPQ; by right).
  pose proof (HPQ p (list_elem_of_here p m)) as Hp. repeat case_decide; tauto.
Qed.

Lemma above_split u v m : ordered m -> u <= v -> filter (fun p => u < p.1) m = filter (fun p => u < p.1 /\ p.1 <= v) m ++ filter (fun p => v < p.1) m.
Proof.
  intros Hs Huv. induction m as [|p m IH]; [done|]. apply ordered_cons in Hs as [Hall Hs]. rewrite !filter_cons. destruct (decide (v < p.1)) as [Hv|Hv].
  - rewrite decide_True by lia. rewrite decide_False by lia. assert (filter (fun q : N * LedgerSecret => u < q.1 /\ q.1 <= v) m = []) as E.
    { apply filter_none. eapply Forall_impl; [exact Hall|]. cbn. intros; lia. }
    rewrite IH, E by done. done.
  - rewrite IH by done. destruct (decide (u < p.1)); [by rewrite decide_True by lia|]. by rewrite decide_False by lia.
Qed.

(** Where the fast path goes from the element in force at [u]. *)
Lemma fast_path_key u v m k x : ordered m -> at_or_below u m = Some (k, x) -> u <= v ->
  (length (filter (fun p => (u < p.1)%N /\ (p.1 <= v)%N) m) <= 1)%nat ->
  exists x', at_or_below v m = Some (match next k m with Some p => if p.1 <=? v then p.1 else k | None => k end, x').
Proof.
  intros Hs Hk Huv Hone. unfold next. rewrite (filter_same (fun p => k < p.1) (fun p => u < p.1)) by (intros; by eapply after_last).
  rewrite (above_split u v) by done. pose proof (filter_upto_split u v m Hs Huv) as Hv. unfold at_or_below in *. rewrite Hv. clear Hv.
  destruct (filter (fun p => u < p.1 /\ p.1 <= v) m) as [|p [|]] eqn:E; [| |cbn in Hone; lia].
  - rewrite app_nil_r, Hk. cbn [app]. exists x. destruct (filter (fun p => v < p.1) m) as [|q l] eqn:El; [done|]. cbn [head].
    assert (q ∈ filter (fun p => v < p.1) m) as [Hq _]%list_elem_of_filter by (rewrite El; left). destruct (N.leb_spec q.1 v); [lia|done].
  - cbn [app head]. assert (p ∈ filter (fun p => u < p.1 /\ p.1 <= v) m) as [Hp _]%list_elem_of_filter by (rewrite E; left).
    destruct (N.leb_spec p.1 v); [|lia]. exists p.2. rewrite last_snoc. by destruct p.
Qed.

Lemma at_or_below_find v m k x : ordered m -> at_or_below v m = Some (k, x) -> find k m = Some x.
Proof. intros Hs [Hin _]%at_or_below_elem. by apply elem_find. Qed.

(** ** Changes that leave the element in force alone *)

Lemma filter_emplace_below v k x m : k <= v -> ordered m -> filter (fun p => p.1 <= v) (emplace k x m) = emplace k x (filter (fun p => p.1 <= v) m).
Proof.
  intros Hv. induction m as [|p m IH]; cbn [emplace]; intros Hs; [by rewrite filter_cons_True|]. apply ordered_cons in Hs as [Hall Hs].
  rewrite (filter_cons _ p m). destruct (N.ltb_spec k p.1).
  - rewrite filter_cons_True, filter_cons by done. case_decide; cbn [emplace]; [by destruct (N.ltb_spec k p.1); [|lia]|].
    rewrite filter_none; [done|]. eapply Forall_impl; [exact Hall|]. cbn. intros; lia.
  - rewrite (decide_True (P := p.1 <= v)) by lia. cbn [emplace]. destruct (N.ltb_spec k p.1); [lia|]. destruct (N.ltb_spec p.1 k).
    + rewrite filter_cons_True by lia. by rewrite IH.
    + by rewrite filter_cons_True by lia.
Qed.

Lemma last_emplace k x m q : last m = Some q -> k < q.1 -> last (emplace k x m) = Some q.
Proof.
  induction m as [|p m IH]; [done|]. cbn [emplace]. intros Hl Hk. destruct (N.ltb_spec k p.1); [exact Hl|]. destruct (N.ltb_spec p.1 k); [|exact Hl].
  destruct m as [|p' m]; [cbn in Hl; simplify_eq; lia|]. specialize (IH Hl Hk). destruct (emplace k x (p' :: m)) eqn:E; [done|exact IH].
Qed.

Lemma at_or_below_emplace v k x m q : ordered m -> at_or_below v m = Some q -> k < q.1 \/ v < k -> at_or_below v (emplace k x m) = Some q.
Proof.
  intros Hs Hq [Hk|Hk]; unfold at_or_below in *; [|by rewrite filter_emplace_above]. rewrite filter_emplace_below; [by apply last_emplace| |done].
  destruct (at_or_below_elem v m q Hq). lia.
Qed.

Lemma at_or_below_merge v m' m q : ordered m -> at_or_below v m = Some q -> Forall (fun p => p.1 < q.1) m' -> at_or_below v (merge m m') = Some q.
Proof.
  intros Hs Hq Hm'. revert m Hs Hq. induction Hm' as [|p m' Hp Hm' IH]; intros m Hs Hq; [done|]. apply IH; [by apply emplace_ordered|].
  apply at_or_below_emplace; [done|done|by left].
Qed.

Lemma adjust_last_snoc v m p : adjust_last v (m ++ [p]) = m ++ [(p.1, mkLedgerSecret (raw_key p.2) (Some v))].
Proof. unfold adjust_last. by rewrite reverse_snoc, reverse_involutive. Qed.

Lemma adjust_last_keys v m : (adjust_last v m).*1 = m.*1.
Proof. destruct m as [|p m _] using rev_ind; [done|]. by rewrite adjust_last_snoc, !fmap_app. Qed.

Lemma at_or_below_adjust u v m k x : at_or_below u m = Some (k, x) -> exists x', at_or_below u (adjust_last v m) = Some (k, x').
Proof.
  destruct m as [|p m _] using rev_ind; [done|]. rewrite adjust_last_snoc. unfold at_or_below. rewrite !filter_app, !filter_cons, !filter_nil. cbn [fst].
  case_decide; [|rewrite !app_nil_r; eauto]. rewrite !last_snoc. intros [= ->]. eauto.
Qed.

(** ** Rollback *)

Lemma rollback_loop_filter fuel v i first m : (length m <= fuel)%nat -> ordered (first :: m) -> first.1 <= v ->
  rollback_loop (S fuel) v i (first :: m) = first :: filter (fun p => p.1 <= v \/ p.1 <= i) m.
Proof.
  revert m. induction fuel as [|fuel IH]; intros m Hl Hs Hf; [destruct m; [done|cbn in Hl; lia]|]. destruct m as [|p m _] using rev_ind; [done|].
  rewrite length_app in Hl. cbn [length] in Hl. remember (S fuel) as n. cbn [rollback_loop]. rewrite app_comm_cons, length_app. cbn [length].
  destruct (Nat.ltb_spec 1 (S (length m) + 1)); [|lia]. unfold rbegin. rewrite last_snoc. subst n.
  assert (Forall (fun q => q.1 < p.1) (first :: m)) as Hbelow.
  { unfold ordered in Hs. rewrite app_comm_cons, fmap_app in Hs. apply ssorted_app in Hs as (_ & _ & Hs). apply Forall_forall. intros q Hq.
    apply Hs; [by apply list_elem_of_fmap_2|by left]. }
  destruct ((p.1 <=? v) || (p.1 <=? i)) eqn:E.
  - rewrite <- app_comm_cons. f_equal. symmetry. apply filter_all. apply Forall_app. apply Forall_cons in Hbelow as [_ Hbelow]. split.
    + eapply Forall_impl; [exact Hbelow|]. cbn. intros q Hq. apply orb_true_iff in E as [E%N.leb_le|E%N.leb_le]; lia.
    + constructor; [|done]. apply orb_true_iff in E as [E%N.leb_le|E%N.leb_le]; lia.
  - apply orb_false_iff in E as [E1%N.leb_gt E2%N.leb_gt]. assert (erase p.1 ((first :: m) ++ [p]) = first :: m) as ->.
    { unfold erase. rewrite filter_app, (filter_none _ [p]), app_nil_r; [|constructor; [tauto|done]]. apply filter_all. eapply Forall_impl; [exact Hbelow|]. cbn. intros; lia. }
    rewrite IH; [|lia| |done].
    + rewrite filter_app, (filter_none _ [p]), app_nil_r; [done|]. constructor; [lia|done].
    + unfold ordered in *. rewrite app_comm_cons, fmap_app in Hs. by apply ssorted_app in Hs as (? & _).
Qed.
End lookups.

(** ** Runs *)

(** What is asked of the ledger secrets. *)
Inductive Op :=
| Use (version : N)          (* to encrypt or decrypt a transaction of the ledger *)
| Historical (version : N)   (* for a historical query *)
| SetSecret (version : N) (secret : LedgerSecret)
| Rollback (version : N)
| RestoreHistorical (restored : list (N * LedgerSecret))
| Adjust (version : N).

Definition none {S} (m : M S unit) : M S (option LedgerSecret) := bind m (fun _ => ret None).
Definition do_op (o : Op) : M State (option LedgerSecret) :=
  match o with
  | Use v => get_secret_for v false
  | Historical v => get_secret_for v true
  | SetSecret v secret => none (set_secret v secret)
  | Rollback v => none (rollback v)
  | RestoreHistorical restored => none (restore_historical restored)
  | Adjust v => none (adjust_previous_secret_stored_version v)
  end.

(** The same with nothing but the map: the secret of a version is the last one
    that applies from at or below it. *)
Definition spec_op (initial : N) (o : Op) (m : list (N * LedgerSecret)) : result (option LedgerSecret) * list (N * LedgerSecret) :=
  match o with
  | Use v | Historical v => (Ok (snd <$> at_or_below v m), m)
  | SetSecret v secret => match find v m with Some _ => (Throw AssertionFailure, m) | None => (Ok None, emplace v secret m) end
  | Rollback v => (Ok None, if match m with first :: _ => v <? first.1 | [] => true end then m else filter (fun p => p.1 <= v \/ p.1 <= initial) m)
  | RestoreHistorical restored =>
      match m, last restored with
      | first :: _, Some l => if first.1 <=? l.1 then (Throw (LogicError "Last restored version is greater than first existing version"), m) else (Ok None, merge m restored)
      | _, _ => (Ok None, merge m restored)
      end
  | Adjust v => match m with [] => (Throw (LogicError "There should be at least one ledger secret to adjust"), m) | _ => (Ok None, adjust_last v m) end
  end.

(** The order in which the ledger is written: after version [c], versions are
    used in order without skipping a secret, secrets are added after it, until
    a rollback. *)
Definition op_in_order (c : option N) (m : list (N * LedgerSecret)) (o : Op) : Prop :=
  match o with
  | Use v => forall u, c = Some u -> u <= v /\ (length (filter (fun p => (u < p.1)%N /\ (p.1 <= v)%N) m) <= 1)%nat
  | SetSecret v _ => forall u, c = Some u -> u < v
  | Rollback v => forall first, head m = Some first -> first.1 <= v
  | RestoreHistorical restored => ordered restored
  | Historical _ | Adjust _ => True
  end.
Definition next_version (c : option N) (m : list (N * LedgerSecret)) (o : Op) : option N :=
  match o with
  | Use v => match at_or_below v m with Some _ => Some v | None => c end
  | Rollback _ => None
  | _ => c
  end.

(** The iterator points to the element in force at the version last used. *)
Definition iterator_ok (c : option N) (s : State) : Prop :=
  ordered (ledger_secrets s) /\
  match last_used_secret_it s with
  | None => True
  | Some k => exists u x, c = Some u /\ at_or_below u (ledger_secrets s) = Some (k, x)
  end.

Lemma slow_path_ok c v hint s : iterator_ok c s -> last_used_secret_it s = None \/ hint = true ->
  exists s', slow_path v hint s = (Ok (snd <$> at_or_below v (ledger_secrets s)), s') /\ ledger_secrets s' = ledger_secrets s /\
    initial_latest_ledger_secret_version s' = initial_latest_ledger_secret_version s /\
    iterator_ok (if hint then c else match at_or_below v (ledger_secrets s) with Some _ => Some v | None => c end) s'.
Proof.
  intros [Hs Hit] Hhint. unfold slow_path, bind, gets, id, when, modify, ret. destruct (Nat.eqb_spec (upper_bound v (ledger_secrets s).*1) 0) as [E|E].
  - rewrite (upper_bound_none v _ Hs E). exists s. split_and!; [done..|]. destruct hint; by split.
  - rewrite (upper_bound_prev v _ Hs E). destruct (at_or_below v (ledger_secrets s)) as [[k x]|] eqn:Ek.
    + destruct hint; cbn; (eexists; split_and!; [done|done|done|]); [by split|]. split; [done|]. cbn. by exists v, x.
    + exfalso. unfold at_or_below in Ek. rewrite <- (upper_bound_filter v _ Hs) in Ek. apply last_None in Ek.
      apply (f_equal length) in Ek. rewrite length_take in Ek. pose proof (upper_bound_le_length v (ledger_secrets s).*1) as Hle. rewrite length_fmap in Hle. cbn in Ek. lia.
Qed.

Lemma fast_path_ok c v k s : iterator_ok c s -> last_used_secret_it s = Some k -> op_in_order c (ledger_secrets s) (Use v) ->
  exists s', fast_path v k s = (Ok (snd <$> at_or_below v (ledger_secrets s)), s') /\ ledger_secrets s' = ledger_secrets s /\
    initial_latest_ledger_secret_version s' = initial_latest_ledger_secret_version s /\ iterator_ok (next_version c (ledger_secrets s) (Use v)) s'.
Proof.
  intros [Hs Hit] Hk Hord. rewrite Hk in Hit. destruct Hit as (u & x & -> & Hu). destruct (Hord u eq_refl) as [Huv Hone].
  destruct (fast_path_key u v _ k x Hs Hu Huv Hone) as [x' Hv]. unfold fast_path, bind, gets, id, modify, ret, throw. cbn [next_version]. rewrite Hv.
  set (k' := match next k _ with Some p => _ | None => k end) in *. rewrite (at_or_below_find v _ k' x' Hs Hv). eexists. split_and!; [done|done|done|].
  split; [done|]. cbn. by exists v, x'.
Qed.

Lemma lookup_ok c v hint s : iterator_ok c s -> (hint = false -> op_in_order c (ledger_secrets s) (Use v)) ->
  exists s', get_secret_for v hint s = (Ok (snd <$> at_or_below v (ledger_secrets s)), s') /\ ledger_secrets s' = ledger_secrets s /\
    initial_latest_ledger_secret_version s' = initial_latest_ledger_secret_version s /\
    iterator_ok (if hint then c else next_version c (ledger_secrets s) (Use v)) s'.
Proof.
  intros HI Hord. unfold get_secret_for, get_secret_for_version. unfold bind at 1, gets, id. destruct (ledger_secrets s) as [|p m] eqn:Em.
  - exists s. split_and!; [done|done|done|]. by destruct hint.
  - rewrite <- Em in *. destruct (last_used_secret_it s) as [k|] eqn:Ek.
    + destruct hint; [apply (slow_path_ok c v true s HI); by right|]. apply fast_path_ok; auto.
    + apply (slow_path_ok c v hint s HI). by left.
Qed.

(** A state that differs in the secrets alone. *)
Lemma iterator_changed c s m' : iterator_ok c s -> ordered m' ->
  (forall u k x, c = Some u -> at_or_below u (ledger_secrets s) = Some (k, x) -> exists x', at_or_below u m' = Some (k, x')) ->
  iterator_ok c (set_ledger_secrets m' s).
Proof.
  intros [Hs Hit] Hs' Hkeep. split; [done|]. cbn. destruct (last_used_secret_it s) as [k|]; [|done]. destruct Hit as (u & x & -> & Hu).
  destruct (Hkeep u k x eq_refl Hu) as [x' Hx']. by exists u, x'.
Qed.

Definition agrees (c : option N) (o : Op) (s : State) : Prop :=
  exists s', do_op o s = ((spec_op (initial_latest_ledger_secret_version s) o (ledger_secrets s)).1, s') /\
    ledger_secrets s' = (spec_op (initial_latest_ledger_secret_version s) o (ledger_secrets s)).2 /\
    initial_latest_ledger_secret_version s' = initial_latest_ledger_secret_version s /\ iterator_ok (next_version c (ledger_secrets s) o) s'.

Lemma set_secret_ok c v secret s : iterator_ok c s -> op_in_order c (ledger_secrets s) (SetSecret v secret) -> agrees c (SetSecret v secret) s.
Proof.
  intros HI Hord. unfold agrees, do_op, spec_op, none, set_secret, bind, gets, id, modify, throw, ret. destruct (find v (ledger_secrets s)); eexists; split_and!; try done.
  apply (iterator_changed c); [done|apply emplace_ordered, HI|]. intros u k x -> Hu. exists x. apply at_or_below_emplace; [apply HI|done|right; by apply Hord].
Qed.

Lemma rollback_ok c v s : iterator_ok c s -> op_in_order c (ledger_secrets s) (Rollback v) -> agrees c (Rollback v) s.
Proof.
  intros [Hs Hit] Hord. unfold agrees, do_op, spec_op, none, rollback, bind, gets, id, modify, throw, ret.
  destruct s as [[|first m] initial it]; cbn [ledger_secrets initial_latest_ledger_secret_version last_used_secret_it] in *.
  - eexists. split_and!; [done..|]. split; [done|]. destruct it; [|done]. destruct Hit as (u & x & _ & Hu). discriminate.
  - specialize (Hord first eq_refl). destruct (N.ltb_spec v first.1); [lia|]. eexists. split_and!; [done| |done|].
    + cbn [ledger_secrets set_last_used set_ledger_secrets]. cbn [length]. rewrite rollback_loop_filter by done. by rewrite filter_cons_True by (by left).
    + split; [|done]. cbn [ledger_secrets set_last_used set_ledger_secrets length]. rewrite rollback_loop_filter by done.
      apply ordered_cons in Hs as [Hall Hs]. apply ordered_cons. split; [|by apply ordered_filter].
      apply Forall_forall. intros q [_ Hq]%list_elem_of_filter. rewrite Forall_forall in Hall. by apply Hall.
Qed.

Lemma restore_ok c restored s : iterator_ok c s -> ordered restored -> agrees c (RestoreHistorical restored) s.
Proof.
  intros HI Hr. unfold agrees, do_op, spec_op, none, restore_historical, bind, gets, id, modify, throw, ret, rbegin.
  assert (forall p, last restored = Some p -> match ledger_secrets s with first :: _ => p.1 < first.1 | [] => True end -> iterator_ok c (set_ledger_secrets (merge (ledger_secrets s) restored) s)) as Hmerge.
  { intros p Hp Hfirst. apply (iterator_changed c); [done|apply merge_ordered, HI|]. intros u k x -> Hu. exists x. apply at_or_below_merge; [apply HI|done|].
    destruct (at_or_below_elem _ _ _ Hu) as [Hin _]. apply Forall_forall. intros q Hq. pose proof (last_greatest restored p q Hr Hp Hq) as Hqp.
    destruct HI as [Hs _]. destruct (ledger_secrets s) as [|first m]; [by apply elem_of_nil in Hin|]. apply ordered_cons in Hs as [Hall _]. rewrite Forall_forall in Hall.
    apply elem_of_cons in Hin as [<-|Hin]; [cbn in *; lia|]. specialize (Hall _ Hin). lia. }
  destruct (last restored) as [p|] eqn:Hp.
  - destruct (ledger_secrets s) as [|first m] eqn:Em; [eexists; split_and!; [done..|by eapply Hmerge]|].
    destruct (N.leb_spec first.1 p.1); eexists; split_and!; try done. by eapply Hmerge.
  - apply last_None in Hp as ->. assert (iterator_ok c (set_ledger_secrets (merge (ledger_secrets s) []) s)) as Hnone by (apply (iterator_changed c); [done|apply HI|eauto]).
    destruct (ledger_secrets s) as [|first m]; eexists; split_and!; done.
Qed.

Lemma adjust_ok c v s : iterator_ok c s -> agrees c (Adjust v) s.
Proof.
  intros HI. unfold agrees, do_op, spec_op, none, adjust_previous_secret_stored_version, bind, gets, id, modify, throw, ret.
  destruct (ledger_secrets s) as [|first m] eqn:Em; [eexists; split_and!; done|]. eexists. split_and!; [done..|]. rewrite <- Em.
  apply (iterator_changed c); [done|unfold ordered; rewrite adjust_last_keys; apply HI|]. intros. by eapply at_or_below_adjust.
Qed.

Lemma op_ok c o s : iterator_ok c s -> op_in_order c (ledger_secrets s) o -> agrees c o s.
Proof.
  intros HI Hord. destruct o as [v|v|v secret|v|restored|v].
  - by apply (lookup_ok c v false s).
  - by apply (lookup_ok c v true s).
  - by apply set_secret_ok.
  - by apply rollback_ok.
  - by apply restore_ok.
  - by apply adjust_ok.
Qed.
End LedgerSecretsSpec.
