(* ===== verification/Encryptor.v ===== *)
(** * Encryption of ledger entries

    AES-GCM keys and headers (src/crypto/symmetric_key.cpp, openssl/symmetric_key.cpp),
    the header of a transaction (src/node/encryptor.h) and the encryptor of the
    store (src/kv/encryptor.h) over the ledger secrets. The cipher itself is a
    parameter. *)

From S2P Require Import Prelude ViewHistory TxStatus LedgerEntries KvMap KvSerialise KvEntry LedgerSecrets.
From Stdlib Require Import Init.Byte Strings.Byte.

(** The cipher of OpenSSL: key, IV, additional data and plain text to cipher and
    tag, and back. *)
Class AesGcm := {
  seal : bytes -> bytes -> bytes -> bytes -> bytes * bytes;
  unseal : bytes -> bytes -> bytes -> bytes -> bytes -> option bytes;
}.
Class AesGcmLaws `{AesGcm} : Prop := {
  unseal_seal key iv aad plain : unseal key iv (seal key iv aad plain).2 aad (seal key iv aad plain).1 = Some plain;
  length_cipher key iv aad plain : length (seal key iv aad plain).1 = length plain;
  length_tag key iv aad plain : length (seal key iv aad plain).2 = 16%nat;
}.

Module Encryptor.
Import OrderedMap LedgerSecrets.
Open Scope N_scope.
Open Scope m_scope.

Definition GCM_DEFAULT_KEY_SIZE : N := 32.
Definition GCM_SIZE_TAG : N := 16.
Definition iv_size : N := 12.

(** ** Keys *)

Section keys.
Context `{AesGcm}.

(** [make_key_aes_gcm]: the bytes the chosen cipher takes of the key. *)
Definition make_key_aes_gcm (rawKey : bytes) : result bytes :=
  let n := N.of_nat (length rawKey) * 8 in
  if 256 <=? n then Ok (take 32 rawKey)
  else if 192 <=? n then Ok (take 24 rawKey)
  else if 128 <=? n then Ok (take 16 rawKey)
  else Throw (LogicError "Need at least 128 bits").

(** [encrypt], with the cipher it leaves in place when there is no plain text:
    the vectors of the callers are empty. *)
Definition key_encrypt (key iv plain aad : bytes) : result (bytes * bytes) :=
  if bool_decide (aad = []) && bool_decide (plain = []) then Throw (LogicError "aad and plain cannot both be empty")
  else let r := seal key iv aad plain in Ok (if bool_decide (plain = []) then [] else r.1, r.2).
Definition key_decrypt (key iv tag cipher aad : bytes) : option bytes :=
  plain ← unseal key iv tag aad cipher; Some (if bool_decide (cipher = []) then [] else plain).
End keys.

(** ** GcmHeader, GcmCipher *)

Record GcmHeader := mkGcmHeader { tag : bytes; iv : bytes }.
Definition new_header : GcmHeader := mkGcmHeader (replicate 16 Byte.x00) (replicate 12 Byte.x00).
Definition serialised_size : N := GCM_SIZE_TAG + iv_size.
Definition hdr_serialise (h : GcmHeader) : bytes := (tag h ++ iv h)%list.
Definition hdr_deserialise (data : bytes) : result (GcmHeader * bytes) :=
  t <~ read_block GCM_SIZE_TAG data ;;;
  i <~ read_block iv_size t.2 ;;;
  Ok (mkGcmHeader t.1 i.1, i.2).

Record GcmCipher := mkGcmCipher { hdr : GcmHeader; cipher : bytes }.
Definition cipher_serialise (c : GcmCipher) : bytes := (tag (hdr c) ++ iv (hdr c) ++ cipher c)%list.
Definition cipher_deserialise (serial : bytes) : result GcmCipher :=
  r <~ hdr_deserialise serial ;;; Ok (mkGcmCipher r.1 r.2).

(** ** TxGcmHeader *)

Definition IV_DELIMITER : nat := 8.
Definition set_iv_seq (seq : N) (iv : bytes) : bytes := (le_split 8 seq ++ drop 8 iv)%list.
Definition set_iv_term (term : N) (iv : bytes) : result bytes :=
  if 0x7FFFFFFF <? term then Throw (LogicError "term should fit in 31 bits of IV")
  else Ok (take IV_DELIMITER iv ++ le_split 4 term ++ drop (IV_DELIMITER + 4) iv)%list.
Definition header_term (iv : bytes) : N := le_combine (take 4 (drop IV_DELIMITER iv)).
Definition set_iv_is_snapshot (iv : bytes) : result bytes :=
  match last iv with
  | None => Throw OutOfBounds
  | Some b => Ok (take (length iv - 1) iv ++ [byte_of (N.lor (Byte.to_N b) (N.shiftl 1 7))])%list
  end.

(** ** TxEncryptor *)

Definition set_iv (tx_id : TxID.t) (entry_type : EntryType) (iv : bytes) : result bytes :=
  let iv := set_iv_seq (TxID.seqno tx_id) iv in
  iv <~ set_iv_term (TxID.view tx_id) iv ;;;
  if match entry_type with Snapshot => true | _ => false end then set_iv_is_snapshot iv else Ok iv.

Definition encryptor_get_term (data : bytes) : result N :=
  r <~ hdr_deserialise data ;;; Ok (header_term (iv r.1)).

Section encryptor.
Context `{AesGcm}.

(** With the secret of the version, [None] when there is none. *)
Definition encrypt_with (raw : option bytes) (plain additional_data iv : bytes) : result (option (bytes * bytes)) :=
  match raw with
  | None => Ok None
  | Some raw =>
      key <~ make_key_aes_gcm raw ;;;
      r <~ key_encrypt key iv plain additional_data ;;;
      Ok (Some (hdr_serialise (mkGcmHeader r.2 iv), r.1))
  end.
Definition decrypt_with (raw : option bytes) (cipher additional_data : bytes) (h : GcmHeader) : result (option bytes) :=
  match raw with
  | None => Ok None
  | Some raw => key <~ make_key_aes_gcm raw ;;; Ok (key_decrypt key (iv h) (tag h) cipher additional_data)
  end.

Definition encrypt (plain additional_data : bytes) (tx_id : TxID.t) (entry_type : EntryType) (historical_hint : bool) : M State (option (bytes * bytes)) :=
  iv <- lift (set_iv tx_id entry_type (iv new_header)) ;;;
  raw <- get_encryption_key_for (TxID.seqno tx_id) historical_hint ;;;
  lift (encrypt_with raw plain additional_data iv).

Definition decrypt (cipher additional_data serialised_header : bytes) (version : N) (historical_hint : bool) : M State (option bytes * N) :=
  h <- lift (r <~ hdr_deserialise serialised_header ;;; Ok r.1) ;;;
  raw <- get_encryption_key_for version historical_hint ;;;
  plain <- lift (decrypt_with raw cipher additional_data h) ;;;
  ret (plain, header_term (iv h)).

Definition get_commit_nonce (hmac : bytes -> bytes -> bytes) (commit_secret_label : bytes) (tx_id : TxID.t) (historical_hint : bool) : M State bytes :=
  secret <- get_secret_for (TxID.seqno tx_id) historical_hint ;;;
  match secret with
  | None => throw (LogicError "Failed to get encryption key")
  | Some secret => ret (hmac (hmac (raw_key secret) commit_secret_label) (byte_of ∘ Ascii.N_of_ascii <$> String.list_ascii_of_string (TxID.to_str tx_id)))
  end.

Definition encryptor_rollback (version : N) : M State unit := rollback version.

End encryptor.
End Encryptor.
