(* ===== verification/EncryptorSpec.v ===== *)
(** * Encryption of ledger entries: proofs

    An IV is not used for two entries, what is encrypted is decrypted, and the
    encryptor keeps the promises the store relies on. *)

From S2P Require Import Prelude ViewHistory TxStatus LedgerEntries KvMap KvSerialise KvEntry LedgerSecrets LedgerSecretsSpec Encryptor.
From Stdlib Require Import Init.Byte Strings.Byte.

Module EncryptorSpec.
Import OrderedMap LedgerSecrets LedgerSecretsSpec Encryptor.
Open Scope N_scope.
Open Scope m_scope.

(** ** The IV *)

Definition is_snapshot (et : EntryType) : bool := match et with Snapshot => true | _ => false end.

(** The four bytes of the term, with the bit of a snapshot. *)
Definition term_bits (term : N) (et : EntryType) : N := if is_snapshot et then term + 2 ^ 31 else term.

Lemma byte_of_add b : b < 128 -> byte_of (N.lor (Byte.to_N (byte_of b)) (N.shiftl 1 7)) = byte_of (b + 128).
Proof.
  intros Hb. f_equal. rewrite byte_of_to_N, N.mod_small by lia. rewrite <- N.lxor_lor, <- N.add_nocarry_lxor; [done|..];
    apply N.bits_inj; intros i; rewrite N.land_spec, N.bits_0; change (N.shiftl 1 7) with (2 ^ 7); rewrite N.pow2_bits_eqb;
    destruct (N.eqb_spec 7 i) as [<-|]; rewrite ?andb_false_r; try done; rewrite andb_true_r; rewrite N.testbit_eqb, N.div_small; done || lia.
Qed.

Lemma byte_of_mod b k : byte_of (b + 256 * k) = byte_of b.
Proof. unfold byte_of. by rewrite (N.mul_comm 256), N.Div0.mod_add. Qed.

Lemma div_add_256 t k : (t + 256 * k) / 256 = t / 256 + k.
Proof. by rewrite (N.mul_comm 256), N.div_add. Qed.

Lemma snapshot_bit (l : bytes) t : t < 2 ^ 31 -> set_iv_is_snapshot (l ++ le_split 4 t) = Ok (l ++ le_split 4 (t + 2 ^ 31))%list.
Proof.
  intros Ht. cbn [le_split]. change (2 ^ 31) with (256 * (256 * (256 * 128))). rewrite !div_add_256, !byte_of_mod.
  rewrite <- byte_of_add by (rewrite !N.Div0.div_div; apply N.Div0.div_lt_upper_bound; change (256 * 256 * 256 * 128) with (2 ^ 31); lia).
  set (b0 := byte_of t). set (b1 := byte_of (t / 256)). set (b2 := byte_of (t / 256 / 256)). set (b3 := byte_of (t / 256 / 256 / 256)).
  unfold set_iv_is_snapshot. change [b0; b1; b2; b3] with ([b0; b1; b2] ++ [b3])%list. rewrite app_assoc, last_snoc. rewrite length_app. cbn [length].
  rewrite Nat.add_sub, take_app_length. by rewrite <- app_assoc.
Qed.

Lemma set_iv_value txid et : TxID.view txid < 2 ^ 31 ->
  set_iv txid et (iv new_header) = Ok (le_split 8 (TxID.seqno txid) ++ le_split 4 (term_bits (TxID.view txid) et))%list.
Proof.
  intros Hv. unfold set_iv, set_iv_seq, set_iv_term. destruct (N.ltb_spec 0x7FFFFFFF (TxID.view txid)) as [|_]; [lia|]. cbn [rbind].
  unfold IV_DELIMITER. rewrite take_app_length' by (by rewrite length_le_split). rewrite drop_app, length_le_split. rewrite (drop_ge (le_split 8 _)) by (rewrite length_le_split; lia).
  change (drop (8 + 4 - 8) (drop 8 (iv new_header))) with (@nil Byte.byte). rewrite !app_nil_r.
  unfold term_bits. fold (is_snapshot et). destruct (is_snapshot et); [|done]. by apply snapshot_bit.
Qed.

Lemma set_iv_ok txid et i : set_iv txid et (iv new_header) = Ok i ->
  TxID.view txid < 2 ^ 31 /\ i = (le_split 8 (TxID.seqno txid) ++ le_split 4 (term_bits (TxID.view txid) et))%list.
Proof.
  intros Hi. assert (TxID.view txid < 2 ^ 31) as Hv.
  { revert Hi. unfold set_iv, set_iv_term. destruct (N.ltb_spec 0x7FFFFFFF (TxID.view txid)); [done|]. lia. }
  split; [done|]. rewrite set_iv_value in Hi by done. congruence.
Qed.

Lemma term_bits_bound txid et : TxID.view txid < 2 ^ 31 -> term_bits (TxID.view txid) et < 256 ^ N.of_nat 4.
Proof. unfold term_bits. change (256 ^ N.of_nat 4) with (2 ^ 32). destruct (is_snapshot et); lia. Qed.

Lemma le_split_inj n a b : a < 256 ^ N.of_nat n -> b < 256 ^ N.of_nat n -> le_split n a = le_split n b -> a = b.
Proof. intros Ha Hb E. apply (f_equal le_combine) in E. by rewrite !le_combine_split, !N.mod_small in E. Qed.

Lemma length_iv txid et i : set_iv txid et (iv new_header) = Ok i -> length i = 12%nat.
Proof. intros [_ ->]%set_iv_ok. by rewrite length_app, !length_le_split. Qed.

Lemma iv_term txid et i : set_iv txid et (iv new_header) = Ok i -> header_term i = term_bits (TxID.view txid) et.
Proof.
  intros [Hv ->]%set_iv_ok. unfold header_term, IV_DELIMITER. rewrite drop_app_length' by (by rewrite length_le_split). rewrite take_ge by (by rewrite length_le_split).
  rewrite le_combine_split. apply N.mod_small. by apply term_bits_bound.
Qed.

(** ** Headers and ciphers *)

Lemma hdr_round_trip h rest : length (tag h) = 16%nat -> length (iv h) = 12%nat -> hdr_deserialise (hdr_serialise h ++ rest) = Ok (h, rest).
Proof.
  intros Ht Hi. unfold hdr_deserialise, hdr_serialise. rewrite <- app_assoc. rewrite (Entry.read_block_app _ (tag h)) by (rewrite Ht; done). cbn [rbind fst snd].
  rewrite (Entry.read_block_app _ (iv h)) by (rewrite Hi; done). by destruct h.
Qed.

Lemma cipher_round_trip c : length (tag (hdr c)) = 16%nat -> length (iv (hdr c)) = 12%nat -> cipher_deserialise (cipher_serialise c) = Ok c.
Proof.
  intros Ht Hi. unfold cipher_deserialise, cipher_serialise. rewrite app_assoc. change (tag (hdr c) ++ iv (hdr c))%list with (hdr_serialise (hdr c)).
  rewrite hdr_round_trip by done. by destruct c.
Qed.

Section laws.
Context `{AesGcmLaws}.

Lemma key_round_trip key i plain aad c t : key_encrypt key i plain aad = Ok (c, t) ->
  length c = length plain /\ length t = 16%nat /\ key_decrypt key i t c aad = Some plain.
Proof.
  unfold key_encrypt. destruct (bool_decide (aad = []) && bool_decide (plain = [])); [done|]. intros E. injection E as <- <-.
  rewrite length_tag. unfold key_decrypt. destruct (bool_decide_reflect (plain = [])) as [->|Hp].
  - pose proof (length_cipher key i aad []) as Hl. apply nil_length_inv in Hl. pose proof (unseal_seal key i aad []) as Hu. rewrite Hl in Hu. rewrite Hu. by split_and!.
  - rewrite length_cipher, unseal_seal. split_and!; [done..|]. cbn. destruct (bool_decide_reflect ((seal key i aad plain).1 = [])) as [E|]; [|done].
    pose proof (length_cipher key i aad plain) as Hl. rewrite E in Hl. by destruct plain.
Qed.

Lemma encrypt_with_round_trip raw plain aad i header c : length i = 12%nat -> encrypt_with raw plain aad i = Ok (Some (header, c)) ->
  length c = length plain /\ length header = 28%nat /\
  exists h, hdr_deserialise header = Ok (h, []) /\ iv h = i /\ decrypt_with raw c aad h = Ok (Some plain).
Proof.
  intros Hi. unfold encrypt_with, decrypt_with. destruct raw as [raw|]; [|done]. destruct (make_key_aes_gcm raw) as [key|]; [|done]. cbn [rbind].
  destruct (key_encrypt key i plain aad) as [[c' t]|] eqn:Hk; [|done]. cbn [rbind fst snd]. intros E. injection E as <- <-.
  destruct (key_round_trip _ _ _ _ _ _ Hk) as (Hc & Ht & Hd). split_and!; [done|unfold hdr_serialise; cbn; rewrite length_app; lia|].
  exists (mkGcmHeader t i). split_and!; [|done|cbn; by rewrite Hd]. rewrite <- (app_nil_r (hdr_serialise _)). by apply hdr_round_trip.
Qed.
End laws.

(** ** The secrets as they change *)

(** The secret in force at a version. *)
Definition secret_at (m : list (N * LedgerSecret)) (version : N) : option bytes := raw_key ∘ snd <$> at_or_below version m.

(** A specification of the encryptor: one without state, that searches the
    secrets there are, as the store relies on it. *)
Definition searching_encryptor `{AesGcm} (m : list (N * LedgerSecret)) : TxEncryptor := {|
  get_header_length := serialised_size;
  KvSerialise.encrypt plain aad tx_id entry_type hint :=
    iv <~ set_iv tx_id entry_type (iv new_header) ;;; encrypt_with (secret_at m (TxID.seqno tx_id)) plain aad iv;
  KvSerialise.decrypt cipher aad header version hint :=
    h <~ hdr_deserialise header ;;; plain <~ decrypt_with (secret_at m version) cipher aad h.1 ;;; Ok (plain, header_term (iv h.1));
  get_term := encryptor_get_term;
|}.

(** A request for the secret of a version, whatever the secret is used for. *)
Lemma key_for_ok c v hint s : iterator_ok c s -> (hint = false -> op_in_order c (ledger_secrets s) (Use v)) ->
  exists s', get_encryption_key_for v hint s = (Ok (secret_at (ledger_secrets s) v), s') /\ ledger_secrets s' = ledger_secrets s /\
    initial_latest_ledger_secret_version s' = initial_latest_ledger_secret_version s /\ iterator_ok (if hint then c else next_version c (ledger_secrets s) (Use v)) s'.
Proof.
  intros HI Hord. destruct (lookup_ok c v hint s HI Hord) as (s' & E & Em & Ei & HI'). exists s'. split_and!; [|done|done|done].
  unfold get_encryption_key_for. unfold get_secret_for in E. rewrite (bind_ok _ _ _ _ _ E). unfold ret, secret_at. do 2 f_equal. by destruct (at_or_below v (ledger_secrets s)).
Qed.

(** C24. An IV is not used for two entries: when the encryptor gives two entries
    the same IV, they have the same view and sequence number and both are
    snapshots or neither is. A view of more than 31 bits is refused. *)
Theorem iv_unique txid et txid' et' i : TxID.seqno txid < 2 ^ 64 -> TxID.seqno txid' < 2 ^ 64 ->
  set_iv txid et (iv new_header) = Ok i -> set_iv txid' et' (iv new_header) = Ok i -> txid = txid' /\ (et = Snapshot <-> et' = Snapshot).
Proof.
  intros Hs Hs' [Hv Hi]%set_iv_ok [Hv' Hi']%set_iv_ok. rewrite Hi in Hi'. apply app_inj_1 in Hi' as [E1 E2]; [|by rewrite !length_le_split].
  apply le_split_inj in E1; [|done|done]. apply le_split_inj in E2; [|by apply term_bits_bound..]. destruct txid as [v q], txid' as [v' q']. cbn in *. subst q'.
  unfold term_bits in E2. destruct et, et'; cbn [is_snapshot] in E2; first [lia | split; [f_equal; lia|done]].
Qed.

Lemma iv_unique_witness : TxID.mk 2 7 = TxID.mk 2 7 /\ (Snapshot = Snapshot <-> Snapshot = Snapshot).
Proof. apply (iv_unique (TxID.mk 2 7) Snapshot (TxID.mk 2 7) Snapshot (le_split 8 7 ++ le_split 4 (2 + 2 ^ 31))%list); reflexivity. Defined.

(** The specification keeps what the store relies on, with any secrets. *)
Theorem searching_encryptor_laws `{AesGcmLaws} (m : list (N * LedgerSecret)) : EncryptorLaws (searching_encryptor m).
Proof.
  constructor. intros plain aad txid et hint header c. cbn [KvSerialise.encrypt KvSerialise.decrypt get_header_length searching_encryptor].
  destruct (set_iv txid et (iv new_header)) as [i|] eqn:Hi; [|done]. cbn [rbind]. intros E.
  destruct (encrypt_with_round_trip _ _ _ _ _ _ (length_iv _ _ _ Hi) E) as (Hc & Hh & h & Hd & Hiv & Hdec). split_and!; [by rewrite Hh|done|].
  intros hint'. rewrite Hd. cbn [rbind fst]. rewrite Hdec. cbn [rbind]. rewrite Hiv, (iv_term _ _ _ Hi). eexists. split; [done|].
  intros Het. unfold term_bits. by destruct et.
Qed.

(** A cipher that adds nothing and a tag of zeros. *)
#[local] Instance plain_gcm : AesGcm := {| seal _ _ _ plain := (plain, replicate 16 Byte.x00); unseal _ _ _ _ c := Some c |}.
#[local] Instance plain_gcm_laws : AesGcmLaws.
Proof. by split. Qed.

(** A run of an encryptor over the ledger secrets, that changes them and encrypts. *)
Inductive Call :=
| Encrypt (plain aad : bytes) (txid : TxID.t) (et : EntryType) (historical_hint : bool)
| Decrypt (cipher aad header : bytes) (version : N) (historical_hint : bool)
| Change (o : Op).
Inductive Answer :=
| Encrypted (r : result (option (bytes * bytes)))
| Decrypted (r : result (option bytes * N))
| Changed (r : result (option LedgerSecret)).

Section runs.
Context `{AesGcm}.

Definition do_call (x : Call) (s : State) : Answer * State :=
  match x with
  | Encrypt plain aad txid et hint => let r := encrypt plain aad txid et hint s in (Encrypted r.1, r.2)
  | Decrypt c aad header version hint => let r := decrypt c aad header version hint s in (Decrypted r.1, r.2)
  | Change o => let r := do_op o s in (Changed r.1, r.2)
  end.
Fixpoint do_calls (l : list Call) (s : State) : list Answer * State :=
  match l with
  | [] => ([], s)
  | x :: l => let r := do_call x s in let rest := do_calls l r.2 in (r.1 :: rest.1, rest.2)
  end.

(** The same with the encryptor that searches the secrets there are. *)
Definition spec_call (initial : N) (x : Call) (m : list (N * LedgerSecret)) : Answer * list (N * LedgerSecret) :=
  match x with
  | Encrypt plain aad txid et hint => (Encrypted (@KvSerialise.encrypt (searching_encryptor m) plain aad txid et hint), m)
  | Decrypt c aad header version hint => (Decrypted (@KvSerialise.decrypt (searching_encryptor m) c aad header version hint), m)
  | Change o => let r := spec_op initial o m in (Changed r.1, r.2)
  end.
Fixpoint spec_calls (initial : N) (l : list Call) (m : list (N * LedgerSecret)) : list Answer * list (N * LedgerSecret) :=
  match l with
  | [] => ([], m)
  | x :: l => let r := spec_call initial x m in let rest := spec_calls initial l r.2 in (r.1 :: rest.1, rest.2)
  end.

(** The version a call uses, when it gets as far as asking for its secret. *)
Definition used (x : Call) : option Op :=
  match x with
  | Encrypt _ _ txid et hint => match set_iv txid et (iv new_header) with Ok _ => Some (if hint then Historical (TxID.seqno txid) else Use (TxID.seqno txid)) | Throw _ => None end
  | Decrypt _ _ header version hint => match hdr_deserialise header with Ok _ => Some (if hint then Historical version else Use version) | Throw _ => None end
  | Change o => Some o
  end.
Fixpoint calls_in_order (initial : N) (c : option N) (m : list (N * LedgerSecret)) (l : list Call) : Prop :=
  match l with
  | [] => True
  | x :: l =>
      match used x with
      | Some o => op_in_order c m o /\ calls_in_order initial (next_version c m o) (spec_call initial x m).2 l
      | None => calls_in_order initial c m l
      end
  end.

Definition call_in_order (c : option N) (m : list (N * LedgerSecret)) (x : Call) : Prop := match used x with Some o => op_in_order c m o | None => True end.
Definition version_after (c : option N) (m : list (N * LedgerSecret)) (x : Call) : option N := match used x with Some o => next_version c m o | None => c end.
Definition call_agrees (c : option N) (x : Call) (s : State) : Prop :=
  exists s', do_call x s = ((spec_call (initial_latest_ledger_secret_version s) x (ledger_secrets s)).1, s') /\
    ledger_secrets s' = (spec_call (initial_latest_ledger_secret_version s) x (ledger_secrets s)).2 /\
    initial_latest_ledger_secret_version s' = initial_latest_ledger_secret_version s /\ iterator_ok (version_after c (ledger_secrets s) x) s'.


Lemma encrypt_ok c s plain aad txid et hint : iterator_ok c s -> call_in_order c (ledger_secrets s) (Encrypt plain aad txid et hint) -> call_agrees c (Encrypt plain aad txid et hint) s.
Proof.
  intros HI. unfold call_in_order, call_agrees, version_after. cbn [do_call spec_call used fst snd]. unfold encrypt. cbn [KvSerialise.encrypt searching_encryptor].
  destruct (set_iv txid et (iv new_header)) as [i|e]; intros Hord; [|by exists s]. rewrite (bind_ok _ _ s i s) by done.
  destruct (key_for_ok c (TxID.seqno txid) hint s HI) as (s' & E & Em & Ei & HI'); [by destruct hint|]. rewrite (bind_ok _ _ _ _ _ E). exists s'. split_and!; [done..|]. by destruct hint.
Qed.

Lemma decrypt_ok c s ci aad header v hint : iterator_ok c s -> call_in_order c (ledger_secrets s) (Decrypt ci aad header v hint) -> call_agrees c (Decrypt ci aad header v hint) s.
Proof.
  intros HI. unfold call_in_order, call_agrees, version_after. cbn [do_call spec_call used fst snd]. unfold decrypt. cbn [KvSerialise.decrypt searching_encryptor].
  destruct (hdr_deserialise header) as [h|e]; intros Hord; [|by exists s]. rewrite (bind_ok _ _ s h.1 s) by done.
  destruct (key_for_ok c v hint s HI) as (s' & E & Em & Ei & HI'); [by destruct hint|]. rewrite (bind_ok _ _ _ _ _ E). cbn [rbind]. exists s'.
  split_and!; [|done|done|by destruct hint]. unfold bind, lift, ret. by destruct (decrypt_with (secret_at (ledger_secrets s) v) ci aad h.1).
Qed.

Lemma call_ok c x s : iterator_ok c s -> call_in_order c (ledger_secrets s) x -> call_agrees c x s.
Proof.
  intros HI Hord. destruct x as [plain aad txid et hint|ci aad header v hint|o]; [by apply encrypt_ok|by apply decrypt_ok|].
  destruct (op_ok c o s HI Hord) as (s' & E & Em & Ei & HI'). exists s'. split_and!; [|done..]. cbn [do_call]. by rewrite E.
Qed.

Lemma calls_ok l c s : iterator_ok c s -> calls_in_order (initial_latest_ledger_secret_version s) c (ledger_secrets s) l ->
  let r := do_calls l s in let r' := spec_calls (initial_latest_ledger_secret_version s) l (ledger_secrets s) in
  r.1 = r'.1 /\ ledger_secrets r.2 = r'.2.
Proof.
  revert c s. induction l as [|x l IH]; intros c s HI Hord; cbn [do_calls spec_calls calls_in_order] in *; [done|].
  assert (call_in_order c (ledger_secrets s) x) as Hx by (unfold call_in_order; by destruct (used x); [destruct Hord|]).
  destruct (call_ok c x s HI Hx) as (s' & E & Em & Ei & HI'). rewrite E. cbn [fst snd]. rewrite <- Em, <- Ei in *.
  destruct (IH (version_after c (ledger_secrets s) x) s' HI') as (H1 & H2); [|by rewrite H1].
  unfold version_after. destruct (used x) as [o|] eqn:Hu; [apply Hord|]. destruct x; try done; cbn [spec_call snd] in Em; by rewrite Em.
Qed.
End runs.

(** Where a run in order leaves the encryptor, for one more use of the secrets. *)
Lemma calls_state `{AesGcm} l o c s : iterator_ok c s ->
  calls_in_order (initial_latest_ledger_secret_version s) c (ledger_secrets s) (l ++ [Change o]) ->
  exists c', iterator_ok c' (do_calls l s).2 /\ op_in_order c' (ledger_secrets (do_calls l s).2) o.
Proof.
  revert c s. induction l as [|x l IH]; intros c s HI Hord; cbn [do_calls app calls_in_order used] in *; [by exists c; destruct Hord|].
  assert (call_in_order c (ledger_secrets s) x) as Hx by (unfold call_in_order; by destruct (used x); [destruct Hord|]).
  destruct (call_ok c x s HI Hx) as (s' & E & Em & Ei & HI'). rewrite E. cbn [fst snd]. rewrite <- Em, <- Ei in *.
  apply (IH (version_after c (ledger_secrets s) x) s' HI').
  unfold version_after. destruct (used x) as [o'|] eqn:Hu; [apply Hord|]. destruct x; try done; cbn [spec_call snd] in Em; by rewrite Em.
Qed.

(** The use of the secrets that [encrypt] and [decrypt] make. *)
Definition key_use (v : N) (historical_hint : bool) : Op := if historical_hint then Historical v else Use v.

Lemma run_key_for `{AesGcm} initial m l v hint :
  ordered m -> calls_in_order initial None m (l ++ [Change (key_use v hint)]) ->
  exists s', get_encryption_key_for v hint (do_calls l (mkState m initial None)).2 =
    (Ok (secret_at (ledger_secrets (do_calls l (mkState m initial None)).2) v), s').
Proof.
  intros Hm Hl. destruct (calls_state l (key_use v hint) None (mkState m initial None)) as (c & HI & Hord); [done|done|].
  destruct (key_for_ok c v hint _ HI) as (s' & E & _); [intros ->; exact Hord|]. by exists s'.
Qed.

Lemma encrypt_with_ok `{AesGcm} raw plain aad i : (16 <= length raw)%nat -> (plain <> [] \/ aad <> []) ->
  exists header c, encrypt_with (Some raw) plain aad i = Ok (Some (header, c)).
Proof.
  intros Hraw Hne. unfold encrypt_with, make_key_aes_gcm, key_encrypt.
  assert (bool_decide (aad = []) && bool_decide (plain = []) = false) as ->.
  { apply andb_false_iff. rewrite !bool_decide_eq_false. tauto. }
  destruct (N.leb_spec 256 (N.of_nat (length raw) * 8)); [by eexists _, _|].
  destruct (N.leb_spec 192 (N.of_nat (length raw) * 8)); [by eexists _, _|].
  destruct (N.leb_spec 128 (N.of_nat (length raw) * 8)); [by eexists _, _|lia].
Qed.

(** C25. What one node encrypts, another decrypts: two nodes run their encryptors,
    each with calls in order, and come to hold the same secret at the version
    of a transaction, of at least 128 bits. Encrypting then succeeds, with a
    header of 28 bytes and a cipher of the length of the plain text, and the
    other node, given both and the same additional data, gets the plain text
    and the view of the transaction, to which a snapshot adds 2^31. Views are
    of 31 bits, and there is plain text or additional data. *)
Theorem encrypt_decrypt `{AesGcmLaws} initial m l initial' m' l' plain aad txid et hint hint' raw
  (s := (do_calls l (mkState m initial None)).2) (s' := (do_calls l' (mkState m' initial' None)).2) :
  ordered m -> calls_in_order initial None m (l ++ [Change (key_use (TxID.seqno txid) hint)]) ->
  ordered m' -> calls_in_order initial' None m' (l' ++ [Change (key_use (TxID.seqno txid) hint')]) ->
  secret_at (ledger_secrets s) (TxID.seqno txid) = Some raw ->
  secret_at (ledger_secrets s') (TxID.seqno txid) = Some raw ->
  (16 <= length raw)%nat -> TxID.view txid < 2 ^ 31 -> (plain <> [] \/ aad <> []) ->
  exists header c, (encrypt plain aad txid et hint s).1 = Ok (Some (header, c)) /\
    N.of_nat (length header) = serialised_size /\ length c = length plain /\
    (decrypt c aad header (TxID.seqno txid) hint' s').1 =
      Ok (Some plain, if is_snapshot et then TxID.view txid + 2 ^ 31 else TxID.view txid).
Proof.
  intros Hm Hl Hm' Hl' Hs Hs' Hraw Hv Hne.
  destruct (run_key_for _ _ _ _ _ Hm Hl) as (s1 & E1). destruct (run_key_for _ _ _ _ _ Hm' Hl') as (s2 & E2).
  fold s in E1. fold s' in E2. rewrite Hs in E1. rewrite Hs' in E2.
  destruct (set_iv txid et (iv new_header)) as [i|] eqn:Hi; [|by rewrite set_iv_value in Hi].
  destruct (encrypt_with_ok raw plain aad i Hraw Hne) as (header & c & Hc).
  destruct (encrypt_with_round_trip _ _ _ _ _ _ (length_iv _ _ _ Hi) Hc) as (Hlc & Hlh & h & Hd & Hiv & Hdec).
  exists header, c. split_and!; [|by rewrite Hlh|done|].
  - unfold encrypt. rewrite Hi, (bind_ok _ _ s i s) by done. rewrite (bind_ok _ _ _ _ _ E1). unfold lift. by rewrite Hc.
  - unfold decrypt. rewrite Hd. cbn [rbind fst]. rewrite (bind_ok _ _ s' h s') by done. rewrite (bind_ok _ _ _ _ _ E2).
    unfold bind, lift, ret. rewrite Hdec. cbn [fst]. rewrite Hiv, (iv_term _ _ _ Hi). done.
Qed.

(** C19. The encryptor with its ledger secrets, which finds a secret from the one
    used last, does what an encryptor does that searches the secrets: through
    any encryptions and decryptions, new secrets, rollbacks and restored
    secrets, when versions are used in order, at most one secret further at a
    time, and rollbacks are not to before the first secret. *)
Theorem encryptor_agrees `{AesGcm} initial (m : list (N * LedgerSecret)) (l : list Call) : ordered m -> calls_in_order initial None m l ->
  let r := do_calls l (mkState m initial None) in r.1 = (spec_calls initial l m).1 /\ ledger_secrets r.2 = (spec_calls initial l m).2.
Proof. intros Hm Hl. by apply (calls_ok l None (mkState m initial None)). Qed.

(** A secret from version 2, one from version 5, and a rollback that removes it. *)
Definition ex_secret (b : Byte.byte) : LedgerSecret := mkLedgerSecret (replicate 32 b) None.
Definition ex_calls : list Call :=
  [Encrypt [Byte.x61] [] (TxID.mk 1 4) WriteSet false; Change (SetSecret 5 (ex_secret Byte.x02)); Encrypt [Byte.x62] [] (TxID.mk 1 5) WriteSet false;
   Change (Historical 4); Change (RestoreHistorical [(1, ex_secret Byte.x03)]); Change (Use 6); Change (Rollback 4); Change (Use 4); Change (Use 5)].

Lemma encryptor_agrees_witness : (do_calls ex_calls (mkState [(2, ex_secret Byte.x01)] 2 None)).1 = (spec_calls 2 ex_calls [(2, ex_secret Byte.x01)]).1.
Proof.
  refine (proj1 (encryptor_agrees 2 [(2, ex_secret Byte.x01)] ex_calls _ _)).
  - by repeat constructor.
  - cbn [calls_in_order ex_calls used]. rewrite !set_iv_value by reflexivity. split_and!; try exact I; try (intros u Hu; vm_compute in Hu; first [discriminate Hu | injection Hu as <-]; try split; vm_compute; first [discriminate | reflexivity | lia]).
    by repeat constructor.
Defined.
(** One node has rekeyed at 5 and then encrypts the snapshot at 4, looking at old
    secrets; the other holds the first secret only. *)
Lemma encrypt_decrypt_witness : exists header c,
  (encrypt [Byte.x61] [] (TxID.mk 1 4) Snapshot true
    (do_calls [Change (SetSecret 5 (ex_secret Byte.x02))] (mkState [(2, ex_secret Byte.x01)] 2 None)).2).1 = Ok (Some (header, c)) /\
  N.of_nat (length header) = serialised_size /\ length c = length [Byte.x61] /\
  (decrypt c [] header 4 false (mkState [(2, ex_secret Byte.x01)] 2 None)).1 = Ok (Some [Byte.x61], 1 + 2 ^ 31).
Proof.
  apply (encrypt_decrypt 2 [(2, ex_secret Byte.x01)] [Change (SetSecret 5 (ex_secret Byte.x02))] 2 [(2, ex_secret Byte.x01)] []
    [Byte.x61] [] (TxID.mk 1 4) Snapshot true false (replicate 32 Byte.x01)).
  - by repeat constructor.
  - cbn [calls_in_order app used key_use]. split_and!; try exact I; try (intros u Hu; vm_compute in Hu; first [discriminate Hu | injection Hu as <-]; vm_compute; first [discriminate|reflexivity|lia]).
  - by repeat constructor.
  - cbn [calls_in_order app used key_use]. split_and!; try exact I; try (intros u Hu; vm_compute in Hu; first [discriminate Hu | injection Hu as <-]; vm_compute; first [discriminate|reflexivity|lia]).
  - reflexivity.
  - reflexivity.
  - cbn. lia.
  - reflexivity.
  - left. discriminate.
Defined.
End EncryptorSpec.
