(* ===== verification/GovTables.v ===== *)
(** * Governance tables

    The members, users and nodes of a service, its status and its configuration
    in the tables of the store, and the operations of
    src/service/internal_tables_access.h on them. A transaction is the content
    of the tables; certificates and keys are their text. *)

From S2P Require Import Prelude ViewHistory TxStatus.

Module GovTables.
Open Scope N_scope.
Open Scope m_scope.

Abbreviation Pem := string (only parsing).
Abbreviation MemberId := string (only parsing).

Inductive MemberStatus := ACCEPTED | ACTIVE.
Inductive MemberRecoveryRole := NonParticipant | Participant | Owner.
Inductive NodeStatus := PENDING | TRUSTED | RETIRED.
Inductive ServiceStatus := OPENING | OPEN | WAITING_FOR_RECOVERY_SHARES | RECOVERING.
#[global] Instance MemberStatus_eq_dec : EqDecision MemberStatus.
Proof. solve_decision. Defined.
#[global] Instance MemberRecoveryRole_eq_dec : EqDecision MemberRecoveryRole.
Proof. solve_decision. Defined.
#[global] Instance NodeStatus_eq_dec : EqDecision NodeStatus.
Proof. solve_decision. Defined.
#[global] Instance ServiceStatus_eq_dec : EqDecision ServiceStatus.
Proof. solve_decision. Defined.

Record MemberDetails := mkMember { status : MemberStatus; member_data : string; recovery_role : option MemberRecoveryRole }.
Record NewMember := mkNewMember { nm_cert : Pem; encryption_pub_key : option Pem; nm_data : string; nm_recovery_role : option MemberRecoveryRole }.
Record NewUser := mkNewUser { nu_cert : Pem; user_data : option string }.
(** The other fields of a node are [node_rest]. *)
Record NodeInfo := mkNode { node_status : NodeStatus; node_encryption_pub_key : Pem; ledger_secret_seqno : option N; retired_committed : bool; node_rest : string }.
Record ServiceInfo := mkService {
  cert : Pem;
  service_status : ServiceStatus;
  previous_service_identity_version : option N;
  recovery_count : option N;
  service_data : string;
  current_service_create_txid : option TxID.t;
}.
Inductive ConsensusType := CFT | BFT.
Inductive ReconfigurationType := ONE_TRANSACTION | TWO_TRANSACTION.
#[global] Instance ConsensusType_eq_dec : EqDecision ConsensusType.
Proof. solve_decision. Defined.
#[global] Instance ReconfigurationType_eq_dec : EqDecision ReconfigurationType.
Proof. solve_decision. Defined.
Record ServiceConfiguration := mkConfiguration {
  recovery_threshold : N;
  consensus : ConsensusType;
  maximum_node_certificate_validity_days : option N;
  maximum_service_certificate_validity_days : option N;
  reconfiguration_type : option ReconfigurationType;
  recent_cose_proposals_window_size : option N;
}.
(** [operator==], that does not look at every field. *)
Definition configuration_eqb (a b : ServiceConfiguration) : bool :=
  bool_decide (recovery_threshold a = recovery_threshold b) && bool_decide (consensus a = consensus b) && bool_decide (reconfiguration_type a = reconfiguration_type b) &&
  bool_decide (maximum_node_certificate_validity_days a = maximum_node_certificate_validity_days b) && bool_decide (recent_cose_proposals_window_size a = recent_cose_proposals_window_size b).

Record Tables := mkTables {
  member_certs : gmap string Pem;
  member_info : gmap string MemberDetails;
  member_encryption_public_keys : gmap string Pem;
  member_acks : gmap string string;
  gov_history : gmap string string;
  user_certs : gmap string Pem;
  user_info : gmap string string;
  nodes : gmap string NodeInfo;
  nodes_committed : gmap string NodeInfo;   (* [get_globally_committed] *)
  service : option ServiceInfo;
  previous_service_identity : option Pem;
  last_signed_root : option string;
  config : option ServiceConfiguration;
  constitution : option string;
  serialised_merkle_tree : option string;
  signed_root : option string;              (* the root in the last signature *)
}.
Definition eta_Tables (t : Tables) : Tables :=
  mkTables (member_certs t) (member_info t) (member_encryption_public_keys t) (member_acks t) (gov_history t) (user_certs t) (user_info t) (nodes t) (nodes_committed t)
    (service t) (previous_service_identity t) (last_signed_root t) (config t) (constitution t) (serialised_merkle_tree t) (signed_root t).
Definition set_member_certs (f : gmap string Pem -> gmap string Pem) (t : Tables) : Tables := ltac:(set_field eta_Tables (member_certs t) (f (member_certs t)) t).
Definition set_member_info (f : gmap string MemberDetails -> gmap string MemberDetails) (t : Tables) : Tables := ltac:(set_field eta_Tables (member_info t) (f (member_info t)) t).
Definition set_member_keys (f : gmap string Pem -> gmap string Pem) (t : Tables) : Tables := ltac:(set_field eta_Tables (member_encryption_public_keys t) (f (member_encryption_public_keys t)) t).
Definition set_member_acks (f : gmap string string -> gmap string string) (t : Tables) : Tables := ltac:(set_field eta_Tables (member_acks t) (f (member_acks t)) t).
Definition set_gov_history (f : gmap string string -> gmap string string) (t : Tables) : Tables := ltac:(set_field eta_Tables (gov_history t) (f (gov_history t)) t).
Definition set_user_certs (f : gmap string Pem -> gmap string Pem) (t : Tables) : Tables := ltac:(set_field eta_Tables (user_certs t) (f (user_certs t)) t).
Definition set_user_info (f : gmap string string -> gmap string string) (t : Tables) : Tables := ltac:(set_field eta_Tables (user_info t) (f (user_info t)) t).
Definition set_nodes (f : gmap string NodeInfo -> gmap string NodeInfo) (t : Tables) : Tables := ltac:(set_field eta_Tables (nodes t) (f (nodes t)) t).
Definition set_nodes_committed (v : gmap string NodeInfo) (t : Tables) : Tables := ltac:(set_field eta_Tables (nodes_committed t) v t).
Definition set_service (v : option ServiceInfo) (t : Tables) : Tables := ltac:(set_field eta_Tables (service t) v t).
Definition set_previous_service_identity (v : option Pem) (t : Tables) : Tables := ltac:(set_field eta_Tables (previous_service_identity t) v t).
Definition set_last_signed_root (v : option string) (t : Tables) : Tables := ltac:(set_field eta_Tables (last_signed_root t) v t).
Definition set_config (v : option ServiceConfiguration) (t : Tables) : Tables := ltac:(set_field eta_Tables (config t) v t).
Definition set_constitution_table (v : option string) (t : Tables) : Tables := ltac:(set_field eta_Tables (constitution t) v t).

(** ** Nodes *)

Definition retire (n : NodeInfo) : NodeInfo := mkNode RETIRED (node_encryption_pub_key n) (ledger_secret_seqno n) (retired_committed n) (node_rest n).
Definition retire_active_nodes : M Tables unit :=
  modify (set_nodes (fmap (fun ni => if decide (node_status ni = RETIRED) then ni else retire ni))).

Definition add_node (id : string) (ni : NodeInfo) : M Tables unit := modify (set_nodes <[id := ni]>).

(** A retired node counts until its retirement is known to be committed. *)
Definition get_trusted_nodes (t : Tables) : gmap string NodeInfo :=
  map_imap (fun nid ni =>
    match node_status ni with
    | TRUSTED => Some ni
    | RETIRED => match nodes_committed t !! nid with Some cni => if retired_committed cni then None else Some ni | None => None end
    | PENDING => None
    end) (nodes t).

Definition trust_node (node_id : string) (latest_ledger_secret_seqno : N) : M Tables unit :=
  t <- gets id ;;;
  match nodes t !! node_id with
  | None => throw (LogicError "Node does not exist")
  | Some ni =>
      if decide (node_status ni = RETIRED) then throw (LogicError "Node is retired")
      else modify (set_nodes <[node_id := mkNode TRUSTED (node_encryption_pub_key ni) (Some latest_ledger_secret_seqno) (retired_committed ni) (node_rest ni)]>)
  end.

(** ** Members *)

Definition is_recovery_participant_or_owner (member_id : MemberId) (t : Tables) : bool :=
  bool_decide (is_Some (member_encryption_public_keys t !! member_id)).
Definition is_recovery_owner (member_id : MemberId) (t : Tables) : bool :=
  match member_info t !! member_id with
  | None => false
  | Some mi => bool_decide (recovery_role mi = Some Owner)
  end.
Definition is_recovery_participant (member_id : MemberId) (t : Tables) : bool :=
  is_recovery_participant_or_owner member_id t && negb (is_recovery_owner member_id t).
Definition is_active_member (member_id : MemberId) (t : Tables) : bool :=
  match member_info t !! member_id with
  | None => false
  | Some mi => bool_decide (status mi = ACTIVE)
  end.

(** The loop over the encryption keys. *)
Fixpoint active_in_role (role : MemberRecoveryRole) (info : gmap string MemberDetails) (keys : list (string * Pem)) (acc : gmap string Pem) : result (gmap string Pem) :=
  match keys with
  | [] => Ok acc
  | (mid, pem) :: keys =>
      match info !! mid with
      | None => Throw (LogicError "Recovery member has no member info")
      | Some d =>
          active_in_role role info keys
            (if decide (status d = ACTIVE /\ default Participant (recovery_role d) = role) then <[mid := pem]> acc else acc)
      end
  end.
Definition get_active_recovery_participants (t : Tables) : result (gmap string Pem) :=
  active_in_role Participant (member_info t) (map_to_list (member_encryption_public_keys t)) ∅.
Definition get_active_recovery_owners (t : Tables) : result (gmap string Pem) :=
  active_in_role Owner (member_info t) (map_to_list (member_encryption_public_keys t)) ∅.

Definition get_recovery_threshold (t : Tables) : result N :=
  match config t with
  | None => Throw (LogicError "Failed to get recovery threshold: No active configuration found")
  | Some c => Ok (recovery_threshold c)
  end.

Section ids.
(** The identifier of a certificate (the hash of its DER encoding), or the
    exception of a certificate that cannot be read; the root of a serialised
    Merkle tree. *)
Variable cert_id : Pem -> result string.
Variable tree_root : string -> result string.

(** The recovery role must agree with the presence of an encryption key. *)
Definition check_recovery_role (m : NewMember) : result unit :=
  match nm_recovery_role m, encryption_pub_key m with
  | None, _ => Ok tt
  | Some r, None => if decide (r = NonParticipant) then Ok tt else Throw (LogicError "Member cannot be added as recovery_role has a value set but no encryption public key is specified")
  | Some r, Some _ => if decide (r <> Participant /\ r <> Owner) then Throw (LogicError "Recovery member cannot be added with recovery role") else Ok tt
  end.

Definition add_member (m : NewMember) : M Tables string :=
  t <- gets id ;;;
  id <- lift (cert_id (nm_cert m)) ;;;
  if decide (is_Some (member_certs t !! id)) then ret id
  else
    lift (check_recovery_role m) ;;;
    modify (set_member_certs <[id := nm_cert m]>) ;;;
    modify (set_member_info <[id := mkMember ACCEPTED (nm_data m) (nm_recovery_role m)]>) ;;;
    match encryption_pub_key m with
    | Some pem => modify (set_member_keys <[id := pem]>)
    | None => ret tt
    end ;;;
    match serialised_merkle_tree t with
    | None => modify (set_member_acks <[id := ""%string]>)
    | Some tree => root <- lift (tree_root tree) ;;; modify (set_member_acks <[id := root]>)
    end ;;;
    ret id.

Definition activate_member (member_id : MemberId) : M Tables bool :=
  t <- gets id ;;;
  match member_info t !! member_id with
  | None => throw (LogicError "Member cannot be activated as they do not exist")
  | Some member =>
      modify (set_member_info <[member_id := mkMember ACTIVE (member_data member) (recovery_role member)]>) ;;;
      ret (bool_decide (status member <> ACTIVE))
  end.

(** Whether the members left are enough for recovery. *)
Definition may_remove (member_id : MemberId) (member : MemberDetails) (t : Tables) : result bool :=
  if decide (status member = ACTIVE) then
    if is_recovery_participant member_id t then
      participants <~ get_active_recovery_participants t ;;;
      let active_recovery_participants_count_after := u64_sub (N.of_nat (size participants)) 1 in
      recovery_threshold <~ get_recovery_threshold t ;;;
      owners <~ get_active_recovery_owners t ;;;
      if (active_recovery_participants_count_after =? 0) && (0 <? N.of_nat (size owners)) && (recovery_threshold =? 1) then Ok true
      else Ok (negb (active_recovery_participants_count_after <? recovery_threshold))
    else if is_recovery_owner member_id t then
      owners <~ get_active_recovery_owners t ;;;
      let active_recovery_owners_count_after := u64_sub (N.of_nat (size owners)) 1 in
      recovery_threshold <~ get_recovery_threshold t ;;;
      participants <~ get_active_recovery_participants t ;;;
      if active_recovery_owners_count_after =? 0 then Ok (0 <? N.of_nat (size participants)) else Ok true
    else Ok true
  else Ok true.

Definition remove_member (member_id : MemberId) : M Tables bool :=
  t <- gets id ;;;
  match member_info t !! member_id with
  | None => ret true
  | Some member =>
      allowed <- lift (may_remove member_id member t) ;;;
      if negb allowed then ret false
      else
        modify (set_member_info (delete member_id)) ;;;
        modify (set_member_keys (delete member_id)) ;;;
        modify (set_member_certs (delete member_id)) ;;;
        modify (set_member_acks (delete member_id)) ;;;
        modify (set_gov_history (delete member_id)) ;;;
        ret true
  end.

(** ** Users *)

Definition add_user (u : NewUser) : M Tables string :=
  t <- gets id ;;;
  id <- lift (cert_id (nu_cert u)) ;;;
  if decide (is_Some (user_certs t !! id)) then throw (LogicError "Certificate already exists for user")
  else
    modify (set_user_certs <[id := nu_cert u]>) ;;;
    match user_data u with
    | None => ret tt
    | Some d => if decide (is_Some (user_info t !! id)) then throw (LogicError "User data already exists for user") else modify (set_user_info <[id := d]>)
    end ;;;
    ret id.

Definition remove_user (user_id : string) : M Tables unit :=
  modify (set_user_certs (delete user_id)) ;;; modify (set_user_info (delete user_id)).

(** ** The service *)

Definition create_service (service_cert : Pem) (create_txid : TxID.t) (data : string) (recovering : bool) : M Tables unit :=
  t <- gets id ;;;
  prev <- match service t with
          | None => ret (None, 0)
          | Some prev =>
              match current_service_create_txid prev with
              | None => throw (LogicError "Starting TX for the previous service doesn't have current_service_create_txid recorded")
              | Some txid =>
                  modify (set_previous_service_identity (Some (cert prev))) ;;;
                  match serialised_merkle_tree t with
                  | None => throw (LogicError "Previous service doesn't have a serialised merkle tree")
                  | Some tree =>
                      root <- lift (tree_root tree) ;;;
                      modify (set_last_signed_root (Some root)) ;;;
                      ret (Some (TxID.seqno txid), default 0 (recovery_count prev) + 1)
                  end
              end
          end ;;;
  modify (set_service (Some (mkService service_cert (if recovering : bool then RECOVERING else OPENING) prev.1 (Some prev.2) data (Some create_txid)))).
End ids.

Definition is_service_created (expected_service_cert : Pem) (t : Tables) : bool :=
  match service t with Some s => bool_decide (cert s = expected_service_cert) | None => false end.

Definition with_status (st : ServiceStatus) (s : ServiceInfo) : ServiceInfo :=
  mkService (cert s) st (previous_service_identity_version s) (recovery_count s) (service_data s) (current_service_create_txid s).

(** The threshold of a service with owners alone is checked and logged, and the
    service is opened all the same. *)
Definition open_service : M Tables bool :=
  t <- gets id ;;;
  participants <- lift (get_active_recovery_participants t) ;;;
  owners <- lift (get_active_recovery_owners t) ;;;
  threshold <- lift (get_recovery_threshold t) ;;;
  let only_owners := (N.of_nat (size participants) =? 0) && negb (N.of_nat (size owners) =? 0) in
  if negb only_owners && (N.of_nat (size participants) <? threshold) then ret false
  else
    match service t with
    | None => ret false
    | Some active_service =>
        match service_status active_service with
        | OPEN => ret true
        | OPENING | WAITING_FOR_RECOVERY_SHARES => modify (set_service (Some (with_status OPEN active_service))) ;;; ret true
        | RECOVERING => ret false
        end
    end.

Definition get_service_status (t : Tables) : option ServiceStatus := service_status <$> service t.

Definition set_constitution (c : string) : M Tables unit := modify (set_constitution_table (Some c)).

Definition init_configuration (configuration : ServiceConfiguration) : M Tables unit :=
  t <- gets id ;;;
  match config t with
  | Some _ => throw (LogicError "Cannot initialise service configuration: configuration already exists")
  | None => modify (set_config (Some configuration))
  end.

Definition with_threshold (threshold : N) (c : ServiceConfiguration) : ServiceConfiguration :=
  mkConfiguration threshold (consensus c) (maximum_node_certificate_validity_days c) (maximum_service_certificate_validity_days c) (reconfiguration_type c) (recent_cose_proposals_window_size c).

(** Whether the active members are enough for a threshold. *)
Definition threshold_allowed (threshold : N) (t : Tables) : result bool :=
  participants <~ get_active_recovery_participants t ;;;
  owners <~ get_active_recovery_owners t ;;;
  if negb (N.of_nat (size owners) =? 0) && (N.of_nat (size participants) =? 0) then Ok (negb (1 <? threshold))
  else Ok (negb (N.of_nat (size participants) <? threshold)).

Definition set_recovery_threshold (threshold : N) : M Tables bool :=
  t <- gets id ;;;
  if threshold =? 0 then ret false
  else
    match get_service_status t with
    | None => ret false
    | Some WAITING_FOR_RECOVERY_SHARES => ret false
    | Some st =>
        allowed <- lift (if decide (st = OPEN) then threshold_allowed threshold t else Ok true) ;;;
        if negb allowed then ret false
        else
          match config t with
          | None => throw (LogicError "Configuration should already be set")
          | Some c => modify (set_config (Some (with_threshold threshold c))) ;;; ret true
          end
    end.
End GovTables.
