(* ===== verification/GovTablesSpec.v ===== *)
(** * Governance tables: proofs

    The members that hold recovery shares, and that the operations on members
    and on the threshold keep recovery possible. *)

From S2P Require Import Prelude ViewHistory TxStatus GovTables.

Module GovTablesSpec.
Import GovTables.
Open Scope N_scope.

(** ** Members in a role *)

Definition has_role (role : MemberRecoveryRole) (info : gmap string MemberDetails) (id : string) : Prop :=
  exists d, info !! id = Some d /\ status d = ACTIVE /\ default Participant (recovery_role d) = role.
#[global] Instance has_role_dec role info id : Decision (has_role role info id).
Proof.
  unfold has_role. destruct (info !! id) as [d|] eqn:E; [|by right; intros (d & [=] & _)].
  destruct (decide (status d = ACTIVE /\ default Participant (recovery_role d) = role)) as [H|H]; [left; exists d; tauto|right].
  intros (d' & [= <-] & H'). tauto.
Defined.

(** The keys of the active members in a role. *)
Definition in_role (role : MemberRecoveryRole) (t : Tables) : gmap string string :=
  filter (fun p => has_role role (member_info t) p.1) (member_encryption_public_keys t).
Abbreviation participants := (in_role Participant).
Abbreviation owners := (in_role Owner).

Definition keys_have_info (t : Tables) : Prop := forall id, is_Some (member_encryption_public_keys t !! id) -> is_Some (member_info t !! id).

Lemma active_in_role_ok role info l acc : NoDup l.*1 -> Forall (fun p => is_Some (info !! p.1)) l ->
  active_in_role role info l acc = Ok (list_to_map (filter (fun p => has_role role info p.1) l) ∪ acc).
Proof.
  intros Hnd Hinfo. revert acc. induction Hinfo as [|[id pem] l [d Hd] Hinfo IH]; intros acc; cbn [active_in_role].
  - rewrite filter_nil, list_to_map_nil. by rewrite map_empty_union.
  - cbn in Hd. rewrite Hd. rewrite fmap_cons in Hnd. apply NoDup_cons in Hnd as [Hid Hnd]. rewrite IH by done. f_equal. rewrite filter_cons. cbn [fst].
    destruct (decide (status d = ACTIVE /\ default Participant (recovery_role d) = role)) as [Hr|Hr].
    + rewrite decide_True by (exists d; tauto). cbn. rewrite <- insert_union_l. rewrite <- insert_union_r; [done|].
      apply not_elem_of_list_to_map_1. intros Hin. apply Hid. apply list_elem_of_fmap in Hin as (p & Hp1 & [_ Hp]%list_elem_of_filter). apply list_elem_of_fmap. by exists p.
    + rewrite decide_False; [done|]. intros (d' & Hd' & H'). rewrite Hd in Hd'. simplify_eq. tauto.
Qed.

Lemma get_active_ok role t : keys_have_info t ->
  active_in_role role (member_info t) (map_to_list (member_encryption_public_keys t)) ∅ = Ok (in_role role t).
Proof.
  intros Hk. rewrite active_in_role_ok.
  - rewrite map_union_empty. f_equal. unfold in_role. by rewrite map_filter_alt.
  - apply NoDup_fst_map_to_list.
  - apply Forall_forall. intros [id pem] Hin%elem_of_map_to_list. apply Hk. by eexists.
Qed.

Lemma in_role_lookup role t id pem :
  in_role role t !! id = Some pem <-> member_encryption_public_keys t !! id = Some pem /\ has_role role (member_info t) id.
Proof. unfold in_role. by rewrite map_lookup_filter_Some. Qed.

Lemma in_role_lookup_None role t id : in_role role t !! id = None <-> member_encryption_public_keys t !! id = None \/ ~ has_role role (member_info t) id.
Proof.
  unfold in_role. rewrite map_lookup_filter_None. split; [|naive_solver]. intros [?|H]; [by left|]. destruct (member_encryption_public_keys t !! id) as [pem|] eqn:E; [right; by apply (H pem)|by left].
Qed.

Lemma roles_disjoint t : participants t ##ₘ owners t.
Proof.
  apply map_disjoint_spec. intros id p o (_ & d & Hd & _ & Hp)%in_role_lookup (_ & d' & Hd' & _ & Ho)%in_role_lookup. congruence.
Qed.

(** ** What keeps recovery possible *)

(** Members have certificates and details, holders of keys are members, and
    the role of a member agrees with the presence of a key. *)
Definition members_ok (t : Tables) : Prop :=
  keys_have_info t /\
  (forall id, is_Some (member_info t !! id) -> is_Some (member_certs t !! id)) /\
  (forall id d, member_info t !! id = Some d ->
    match member_encryption_public_keys t !! id with
    | Some _ => recovery_role d <> Some NonParticipant
    | None => recovery_role d <> Some Participant /\ recovery_role d <> Some Owner
    end).

(** Shares can be issued: the participants reach the threshold, or there are
    owners alone and the threshold is 1. *)
Definition enough (p o : gmap string string) (threshold : N) : Prop :=
  1 <= threshold /\ (p <> ∅ /\ threshold <= N.of_nat (size p) \/ p = ∅ /\ o <> ∅ /\ threshold = 1).
Definition recoverable (t : Tables) : Prop := exists c, config t = Some c /\ enough (participants t) (owners t) (recovery_threshold c).

(** The service is not open without its shares. *)
Definition gov_ok (t : Tables) : Prop := members_ok t /\ (get_service_status t = Some OPEN -> recoverable t).

Lemma participants_ok t : keys_have_info t -> get_active_recovery_participants t = Ok (participants t).
Proof. apply get_active_ok. Qed.
Lemma owners_ok t : keys_have_info t -> get_active_recovery_owners t = Ok (owners t).
Proof. apply get_active_ok. Qed.

Lemma size_zero (m : gmap string string) : (N.of_nat (size m) =? 0) = bool_decide (m = ∅).
Proof.
  destruct (N.eqb_spec (N.of_nat (size m)) 0) as [E|E]; symmetry; [apply bool_decide_eq_true|apply bool_decide_eq_false].
  - apply map_size_empty_iff. lia.
  - intros ->. by rewrite map_size_empty in E.
Qed.

(** Nothing that concerns the roles changes. *)
Lemma recoverable_ext t t' : recoverable t -> config t' = config t -> participants t' = participants t -> owners t' = owners t -> recoverable t'.
Proof. intros (c & Hc & H) E1 E2 E3. exists c. by rewrite E1, E2, E3. Qed.

(** ** Adding a member *)

Lemma in_role_ext role t t' :
  (forall id pem, member_encryption_public_keys t' !! id = Some pem -> has_role role (member_info t') id -> member_encryption_public_keys t !! id = Some pem /\ has_role role (member_info t) id) ->
  (forall id pem, member_encryption_public_keys t !! id = Some pem -> has_role role (member_info t) id -> member_encryption_public_keys t' !! id = Some pem /\ has_role role (member_info t') id) ->
  in_role role t' = in_role role t.
Proof. intros H1 H2. apply map_eq. intros id. apply option_eq. intros pem. rewrite !in_role_lookup. naive_solver. Qed.

Definition added (id : string) (m : NewMember) (t : Tables) : Tables :=
  set_member_info <[id := mkMember ACCEPTED (nm_data m) (nm_recovery_role m)]> (set_member_certs <[id := nm_cert m]> (match encryption_pub_key m with Some pem => set_member_keys <[id := pem]> t | None => t end)).

Lemma added_in_role role id m t : members_ok t -> member_info t !! id = None -> in_role role (added id m t) = in_role role t.
Proof.
  intros (Hk & _) Hid. assert (member_encryption_public_keys t !! id = None) as Hkey.
  { destruct (member_encryption_public_keys t !! id) eqn:E; [|done]. destruct (Hk id) as [d Hd]; [by eexists|congruence]. }
  assert (forall id', has_role role (member_info (added id m t)) id' <-> has_role role (member_info t) id') as Hrole.
  { intros id'. unfold has_role, added. destruct (encryption_pub_key m); cbn; (destruct (decide (id' = id)) as [->|Hne]; [rewrite lookup_insert_eq, Hid|by rewrite lookup_insert_ne]); naive_solver. }
  assert (forall id', id' <> id -> member_encryption_public_keys (added id m t) !! id' = member_encryption_public_keys t !! id') as Hkeys.
  { intros id' Hne. unfold added. destruct (encryption_pub_key m); cbn; [by rewrite lookup_insert_ne|done]. }
  apply in_role_ext; intros id' pem H1 H2.
  - destruct (decide (id' = id)) as [->|Hne]; [|rewrite Hkeys in H1 by done; by rewrite <- Hrole]. apply Hrole in H2 as (d & Hd & _). congruence.
  - destruct (decide (id' = id)) as [->|Hne]; [congruence|]. rewrite Hkeys by done. by rewrite Hrole.
Qed.

Lemma added_members_ok id m t : members_ok t -> member_info t !! id = None -> check_recovery_role m = Ok tt -> members_ok (added id m t).
Proof.
  intros (Hk & Hc & Hr) Hid Hchk. assert (member_encryption_public_keys t !! id = None) as Hkey.
  { destruct (member_encryption_public_keys t !! id) eqn:E; [|done]. destruct (Hk id) as [d Hd]; [by eexists|congruence]. }
  unfold added. split_and!.
  - intros id'. destruct (encryption_pub_key m); cbn; rewrite !lookup_insert; case_decide; eauto.
  - intros id'. destruct (encryption_pub_key m); cbn; rewrite !lookup_insert; case_decide; eauto.
  - intros id' d. unfold check_recovery_role in Hchk. destruct (encryption_pub_key m) as [pem|]; cbn; rewrite !lookup_insert; case_decide; subst; try apply Hr.
    + intros E. injection E as <-. cbn. by destruct (nm_recovery_role m) as [[]|].
    + intros E. injection E as <-. rewrite Hkey. cbn. by destruct (nm_recovery_role m) as [[]|].
Qed.

(** What adding a member does: nothing, or the member is new. *)
Lemma add_member_result cert_id tree_root m t r t' : members_ok t -> add_member cert_id tree_root m t = (Ok r, t') ->
  t' = t \/ exists mid acks, t' = set_member_acks acks (added mid m t) /\ member_info t !! mid = None /\ check_recovery_role m = Ok tt.
Proof.
  intros Hm. unfold add_member, bind, gets, id, lift, modify, ret. destruct (cert_id (nm_cert m)) as [mid|]; [|done].
  case_decide as Hcert; [intros E; injection E as <- <-; by left|]. destruct (check_recovery_role m) as [[]|] eqn:Hchk; [|done].
  assert (member_info t !! mid = None) as Hid. { destruct (member_info t !! mid) eqn:E; [|done]. destruct Hcert. apply Hm. by eexists. }
  intros E. right. exists mid. unfold added. destruct (encryption_pub_key m) as [pem|], (serialised_merkle_tree t) as [tree|];
    try destruct (tree_root tree); try discriminate; injection E as <- <-; eexists (fun _ => _); split_and!; done.
Qed.

Lemma add_member_roles cert_id tree_root m t r t' role : members_ok t -> add_member cert_id tree_root m t = (Ok r, t') -> in_role role t' = in_role role t /\ config t' = config t /\ service t' = service t.
Proof.
  intros Hm [->|(mid & acks & -> & Hid & Hchk)]%add_member_result; [done| |done]. split; [exact (added_in_role role mid m t Hm Hid)|]. unfold added. by destruct (encryption_pub_key m).
Qed.

Lemma add_member_ok cert_id tree_root m t r t' : gov_ok t -> add_member cert_id tree_root m t = (Ok r, t') -> gov_ok t'.
Proof.
  intros Hg Hadd. pose proof Hg as [Hm Hopen]. destruct (add_member_roles _ _ _ _ _ _ Participant Hm Hadd) as (HP & Hc & Hs). destruct (add_member_roles _ _ _ _ _ _ Owner Hm Hadd) as (HO & _).
  apply add_member_result in Hadd as [->|(mid & acks & -> & Hid & Hchk)]; [done| |done]. split; [exact (added_members_ok mid m t Hm Hid Hchk)|].
  intros Ho. apply (recoverable_ext t); [|done..]. apply Hopen. revert Ho. unfold get_service_status. by rewrite Hs.
Qed.

(** ** Activating a member *)

Definition activated (id : string) (d : MemberDetails) (t : Tables) : Tables := set_member_info <[id := mkMember ACTIVE (member_data d) (recovery_role d)]> t.

Lemma activated_has_role role id d t id' : member_info t !! id = Some d ->
  has_role role (member_info (activated id d t)) id' <-> has_role role (member_info t) id' \/ id' = id /\ default Participant (recovery_role d) = role.
Proof.
  intros Hd. unfold has_role, activated. cbn. destruct (decide (id' = id)) as [->|Hne].
  - rewrite lookup_insert_eq, Hd. split.
    + intros (d' & E & Hs & Hr). injection E as <-. right. done.
    + intros [(d' & E & Hs & Hr)|[_ Hr]]; [injection E as <-|]; (eexists; split; [done|]); done.
  - rewrite lookup_insert_ne by done. naive_solver.
Qed.

Lemma activated_in_role role id d t : member_info t !! id = Some d ->
  in_role role (activated id d t) = in_role role t \/ exists pem, in_role role (activated id d t) = <[id := pem]> (in_role role t).
Proof.
  intros Hd. destruct (member_encryption_public_keys t !! id) as [pem|] eqn:Hk.
  - destruct (decide (default Participant (recovery_role d) = role)) as [Hr|Hr].
    + right. exists pem. apply map_eq. intros id'. apply option_eq. intros pem'. rewrite in_role_lookup, activated_has_role, lookup_insert by done. cbn.
      case_decide as E; [subst id'; rewrite Hk; naive_solver|]. rewrite in_role_lookup. naive_solver.
    + left. apply map_eq. intros id'. apply option_eq. intros pem'. rewrite !in_role_lookup, activated_has_role by done. cbn. naive_solver.
  - left. apply map_eq. intros id'. apply option_eq. intros pem'. rewrite !in_role_lookup, activated_has_role by done. cbn. naive_solver congruence.
Qed.

Lemma enough_more p o thr p' o' : enough p o thr -> (p' = p \/ exists id pem, p' = <[id := pem]> p) -> (o' = o \/ exists id pem, o' = <[id := pem]> o) -> enough p' o' thr.
Proof.
  intros [H1 H2] Hp Ho. split; [done|]. assert (o <> ∅ -> o' <> ∅) as Ho'. { intros Hne. destruct Ho as [->|(id & pem & ->)]; [done|]. apply insert_non_empty. }
  destruct Hp as [->|(id & pem & ->)]; [naive_solver|]. left. split; [apply insert_non_empty|]. destruct H2 as [[_ H2]|(-> & _ & ->)]; rewrite map_size_insert; [case_match; unfold Datatypes.id; lia|]. by rewrite lookup_empty, map_size_empty.
Qed.

Lemma activate_member_ok id t r t' : gov_ok t -> activate_member id t = (Ok r, t') -> gov_ok t'.
Proof.
  intros [(Hk & Hc & Hr) Hopen]. unfold activate_member, bind, gets, modify, ret. cbn [Datatypes.id]. destruct (member_info t !! id) as [d|] eqn:Hd; [|done].
  intros E. injection E as <- <-. fold (activated id d t). split.
  - unfold members_ok, keys_have_info. split_and!; cbn.
    + intros id' [pem Hp]. rewrite lookup_insert. case_decide; [done|]. apply Hk. by eexists.
    + intros id'. rewrite lookup_insert. case_decide as E; [subst id'; intros _; apply Hc; by eexists|apply Hc].
    + intros id' d'. rewrite lookup_insert. case_decide as E; [|apply Hr]. subst id'. intros E. injection E as <-. cbn. by apply Hr.
  - intros Ho. destruct (Hopen Ho) as (c & Hcfg & He). exists c. split; [done|]. eapply enough_more; [exact He|..];
      match goal with |- in_role ?r _ = _ \/ _ => destruct (activated_in_role r id d t Hd) as [->|[pem ->]]; [by left|right; by exists id, pem] end.
Qed.

(** ** Removing a member *)

Definition removed (id : string) (t : Tables) : Tables := set_member_keys (delete id) (set_member_info (delete id) t).

Lemma removed_in_role role id t : in_role role (removed id t) = delete id (in_role role t).
Proof.
  apply map_eq. intros id'. apply option_eq. intros pem. rewrite lookup_delete_Some, !in_role_lookup. unfold has_role, removed. cbn. rewrite !lookup_delete_Some.
  split; [intros [[? ?] (d & [? ?]%lookup_delete_Some & ?)]; naive_solver|]. intros (Hne & Hk & d & Hd & Hs). split; [done|]. exists d. by rewrite lookup_delete_ne.
Qed.

Lemma size_delete_N (m : gmap string string) id pem : m !! id = Some pem -> N.of_nat (size (delete id m)) = u64_sub (N.of_nat (size m)) 1.
Proof.
  intros Hm. pose proof (map_size_delete_Some id m ltac:(by eexists)) as Hd. assert (size m <> 0%nat). { intros E%map_size_empty_inv. by rewrite E in Hm. }
  rewrite u64_sub_exact by lia. lia.
Qed.

(** What [may_remove] lets through leaves enough. *)
Lemma may_remove_enough id d t c : members_ok t -> member_info t !! id = Some d -> config t = Some c -> enough (participants t) (owners t) (recovery_threshold c) ->
  may_remove id d t = Ok true -> enough (participants (removed id t)) (owners (removed id t)) (recovery_threshold c).
Proof.
  intros (Hk & _ & Hr) Hd Hc [H1 H2]. rewrite !removed_in_role. unfold may_remove, is_recovery_participant, is_recovery_participant_or_owner, is_recovery_owner, get_recovery_threshold.
  rewrite participants_ok, owners_ok, Hd, Hc by done. cbn [rbind].
  assert (forall role, ~ has_role role (member_info t) id -> delete id (in_role role t) = in_role role t) as Hnot.
  { intros role Hn. apply delete_id, in_role_lookup_None. by right. }
  assert (forall role, has_role role (member_info t) id -> status d = ACTIVE /\ default Participant (recovery_role d) = role) as Hrole.
  { intros role (d' & Hd' & Hx). rewrite Hd in Hd'. by injection Hd' as <-. }
  destruct (decide (status d = ACTIVE)) as [Ha|Ha]; [|intros _; rewrite !Hnot by (intros Hx%Hrole; tauto); done].
  specialize (Hr id d Hd). destruct (member_encryption_public_keys t !! id) as [pem|] eqn:Hpem.
  - rewrite bool_decide_true by (by eexists). cbn [andb]. destruct (bool_decide_reflect (recovery_role d = Some Owner)) as [Ho|Ho]; cbn [negb].
    + assert (owners t !! id = Some pem) as Hin by (apply in_role_lookup; split; [done|]; exists d; by rewrite Ho).
      rewrite (Hnot Participant) by (intros [_ Hx]%Hrole; rewrite Ho in Hx; done). rewrite <- (size_delete_N (owners t) id pem Hin), size_zero.
      destruct (bool_decide_reflect (delete id (owners t) = ∅)) as [E|E]; intros Hok; (split; [done|]); [|naive_solver].
      injection Hok as Hok%N.ltb_lt. left. split; [intros E0; by rewrite E0, map_size_empty in Hok|]. destruct H2 as [[_ H2]|(H2 & _)]; [done|]. rewrite H2, map_size_empty in Hok. lia.
    + assert (default Participant (recovery_role d) = Participant) as Hp by (by destruct (recovery_role d) as [[]|]).
      assert (participants t !! id = Some pem) as Hin by (apply in_role_lookup; split; [done|]; by exists d).
      rewrite (Hnot Owner) by (intros [_ Hx]%Hrole; congruence). rewrite <- (size_delete_N (participants t) id pem Hin), size_zero.
      assert (recovery_threshold c <= N.of_nat (size (participants t))) as Hthr by (destruct H2 as [[_ H2]|(H2 & _)]; [done|by rewrite H2 in Hin]).
      destruct (bool_decide_reflect (delete id (participants t) = ∅)) as [E|E]; cbn [andb].
      * destruct (N.ltb_spec 0 (N.of_nat (size (owners t)))) as [Hs|Hs]; cbn [andb].
        -- destruct (N.eqb_spec (recovery_threshold c) 1) as [E1|E1]; intros Hok; (split; [done|]).
           ++ right. split_and!; [done| |done]. intros Eo. by rewrite Eo, map_size_empty in Hs.
           ++ injection Hok as Hok%negb_true_iff%N.ltb_ge. rewrite E, map_size_empty in Hok. lia.
        -- intros Hok. injection Hok as Hok%negb_true_iff%N.ltb_ge. rewrite E, map_size_empty in Hok. lia.
      * intros Hok. injection Hok as Hok%negb_true_iff%N.ltb_ge. split; [done|]. by left.
  - rewrite bool_decide_false by (by intros [? ?]). cbn [andb]. rewrite bool_decide_false by tauto. intros _.
    rewrite !delete_id by (apply in_role_lookup_None; by left). done.
Qed.

Lemma remove_member_ok id t r t' : gov_ok t -> remove_member id t = (Ok r, t') -> gov_ok t'.
Proof.
  intros [Hm Hopen]. unfold remove_member, bind, gets, lift, modify, ret. cbn [Datatypes.id]. destruct (member_info t !! id) as [d|] eqn:Hd; [|by intros E; injection E as <- <-].
  destruct (may_remove id d t) as [[|]|] eqn:Hmay; [|by intros E; injection E as <- <-|done]. cbn [negb]. intros E. injection E as <- <-. pose proof Hm as (Hk & Hc & Hr). split.
  - unfold members_ok, keys_have_info. split_and!; cbn.
    + intros id' [pem [Hne Hp]%lookup_delete_Some]. rewrite lookup_delete_ne by done. apply Hk. by eexists.
    + intros id' [x [Hne Hx]%lookup_delete_Some]. rewrite lookup_delete_ne by done. apply Hc. by eexists.
    + intros id' x [Hne Hx]%lookup_delete_Some. rewrite lookup_delete_ne by done. by apply Hr.
  - intros Ho. destruct (Hopen Ho) as (c & Hcfg & He). exists c. split; [done|]. exact (may_remove_enough id d t c Hm Hd Hcfg He Hmay).
Qed.

(** ** The threshold *)

Lemma threshold_allowed_enough threshold t : keys_have_info t -> 1 <= threshold -> threshold_allowed threshold t = Ok true -> enough (participants t) (owners t) threshold.
Proof.
  intros Hk H1. unfold threshold_allowed. rewrite participants_ok, owners_ok by done. cbn [rbind]. rewrite !size_zero. intros Hok. split; [done|].
  destruct (bool_decide_reflect (owners t = ∅)) as [Eo|Eo], (bool_decide_reflect (participants t = ∅)) as [Ep|Ep]; cbn [negb andb] in Hok; injection Hok as Hok%negb_true_iff%N.ltb_ge.
  - rewrite Ep, map_size_empty in Hok. lia.
  - by left.
  - right. split_and!; [done|done|lia].
  - by left.
Qed.

Lemma set_recovery_threshold_ok threshold t r t' : gov_ok t -> set_recovery_threshold threshold t = (Ok r, t') -> gov_ok t'.
Proof.
  intros Hg. pose proof (proj1 Hg) as Hm. unfold set_recovery_threshold. unfold bind at 1, gets, id. destruct (N.eqb_spec threshold 0) as [|H0]; [by intros E; injection E as <- <-|].
  destruct (get_service_status t) as [st|] eqn:Hst; [|by intros E; injection E as <- <-].
  assert (forall r' t1, (bind (lift (if decide (st = OPEN) then threshold_allowed threshold t else Ok true)) (fun allowed => if negb allowed then ret false else
    match config t with None => throw (LogicError "Configuration should already be set") | Some c => bind (modify (set_config (Some (with_threshold threshold c)))) (fun _ => ret true) end)) t = (Ok r', t1) -> gov_ok t1) as Hcase.
  { intros r' t1. unfold bind, lift, ret, modify, throw. destruct (if decide (st = OPEN) then threshold_allowed threshold t else Ok true) as [[|]|] eqn:Hall; [|by intros E; injection E as <- <-|done]. cbn [negb].
    destruct (config t) as [c|] eqn:Hc; [|done]. intros E. injection E as <- <-. split; [exact Hm|]. intros Ho. change (get_service_status t = Some OPEN) in Ho. rewrite Ho in Hst. injection Hst as <-.
    rewrite decide_True in Hall by done. exists (with_threshold threshold c). split; [done|]. apply (threshold_allowed_enough threshold t); [apply Hm|lia|done]. }
  destruct st; try exact (Hcase _ _); by intros E; injection E as <- <-.
Qed.
(** ** Any operations *)

Inductive GovOp :=
| op_add (m : NewMember) | op_activate (id : string) | op_remove (id : string) | op_threshold (threshold : N).
Definition do_gov (cert_id tree_root : string -> result string) (op : GovOp) : M Tables unit :=
  match op with
  | op_add m => add_member cert_id tree_root m ;;; ret tt
  | op_activate id => activate_member id ;;; ret tt
  | op_remove id => remove_member id ;;; ret tt
  | op_threshold n => set_recovery_threshold n ;;; ret tt
  end.

Lemma do_gov_ok cert_id tree_root op t u t' : gov_ok t -> do_gov cert_id tree_root op t = (Ok u, t') -> gov_ok t'.
Proof.
  intros Hg. destruct op as [m|id|id|n]; unfold do_gov, bind, ret.
  - destruct (add_member cert_id tree_root m t) as [[r|] t1] eqn:E; [|done]. intros [= <- <-]. by eapply add_member_ok.
  - destruct (activate_member id t) as [[r|] t1] eqn:E; [|done]. intros [= <- <-]. by eapply activate_member_ok.
  - destruct (remove_member id t) as [[r|] t1] eqn:E; [|done]. intros [= <- <-]. by eapply remove_member_ok.
  - destruct (set_recovery_threshold n t) as [[r|] t1] eqn:E; [|done]. intros [= <- <-]. by eapply set_recovery_threshold_ok.
Qed.

(** C21. Members are added, activated and removed and the threshold is set, in any
    order, accepted or refused but without an exception, from tables of which this
    holds: every encryption key and every member has
    its certificate and details, and while the service is open its active recovery
    participants are at least as many as the threshold, or there are none and it is
    1 with an owner active. *)
Theorem governance_keeps_recoverable cert_id tree_root ops t u t' : gov_ok t -> for_each (do_gov cert_id tree_root) ops t = (Ok u, t') -> gov_ok t'.
Proof.
  revert t. induction ops as [|op ops IH]; intros t Hg; cbn [for_each]; [by intros [= <- <-]|]. unfold bind. destruct (do_gov cert_id tree_root op t) as [[r|] t1] eqn:E; [|done]. apply IH. by eapply do_gov_ok.
Qed.

Definition ex_gov : Tables :=
  mkTables {["m" := "cert of m"]} {["m" := mkMember ACTIVE "" (Some Participant)]} {["m" := "key of m"]} ∅ ∅ ∅ ∅ ∅ ∅
    (Some (mkService "service" OPEN None None "" None)) None None (Some (mkConfiguration 1 CFT None None None None)) None (Some "tree") None.

Lemma ex_gov_ok : gov_ok ex_gov.
Proof.
  split; [split_and!|].
  - intros id [k Hk]. cbn in Hk. apply lookup_singleton_Some in Hk as [<- _]. by eexists.
  - intros id [d Hd]. cbn in Hd. apply lookup_singleton_Some in Hd as [<- _]. by eexists.
  - intros id d Hd. cbn in Hd. apply lookup_singleton_Some in Hd as [<- <-]. cbn. by rewrite lookup_singleton_eq.
  - intros _. eexists. split; [done|]. assert (participants ex_gov = {["m" := "key of m"]}) as -> by (apply map_filter_singleton_True; exists (mkMember ACTIVE "" (Some Participant)); cbn; by rewrite lookup_singleton_eq).
    split; [done|]. left. rewrite map_size_singleton. split; [by apply map_non_empty_singleton|done].
Qed.

Definition ex_ops : list GovOp := [op_add (mkNewMember "m2" (Some "key of m2") "" None); op_activate "m2"; op_threshold 2; op_remove "m"].
Lemma governance_keeps_recoverable_witness : (for_each (do_gov Ok Ok) ex_ops ex_gov).1 = Ok tt /\ gov_ok (for_each (do_gov Ok Ok) ex_ops ex_gov).2.
Proof.
  assert ((for_each (do_gov Ok Ok) ex_ops ex_gov).1 = Ok tt) as E by (vm_compute; reflexivity). split; [exact E|].
  apply (governance_keeps_recoverable Ok Ok ex_ops ex_gov tt _ ex_gov_ok). rewrite <- E. apply surjective_pairing.
Defined.
End GovTablesSpec.
