(* ===== verification/ShareManager.v ===== *)
(** * Recovery shares

    The wrapping of the latest ledger secret, the recovery shares of members and
    the sealed shares of nodes, and the restoration of the ledger secrets
    (src/node/share_manager.h and src/node/local_sealing.cpp). *)

From S2P Require Import Prelude ViewHistory TxStatus LedgerEntries LedgerSecrets Sharing Encryptor GovTables.
From Stdlib Require Import Init.Byte Strings.Byte.

(** What is called of RSA, key derivation, entropy and signatures. A draw is given
    the number of draws before it, a key pair is named by its public key. *)
Class ShareCrypto := {
  share_gcm :: AesGcm;
  share_hkdf : N -> bytes -> bytes -> bytes -> bytes;
  random64 : N -> N;
  random_iv : N -> bytes;
  random_key : N -> bytes;
  rsa_oaep_wrap : N -> string -> bytes -> result bytes;
  rsa_oaep_unwrap : string -> bytes -> option bytes;
  new_rsa_key_pair : N -> string;
  private_key_pem : string -> bytes;
  rsa_key_pair_of : bytes -> result string;
  snp_derived_key : N -> bytes;
  cose_sign_endorsement : N -> bytes -> string -> string -> string -> bytes -> option bytes;
}.

Module ShareManager.
Import OrderedMap LedgerSecrets Sharing Encryptor GovTables.
Open Scope N_scope.
Open Scope m_scope.

(** ** Tables *)

Record RecoverySharesInfo := mkSharesInfo {
  wrapped_latest_ledger_secret : bytes;
  encrypted_shares : gmap string bytes;
  info_previous_secret_stored_version : option N;
}.
Record PreviousLedgerSecretInfo := mkPrevious {
  encrypted_data : bytes;
  prev_version : N;
  prev_stored_version : option N;
}.
Record EncryptedLedgerSecretInfo := mkEncryptedInfo {
  previous_ledger_secret : option PreviousLedgerSecretInfo;
  next_version : option N;
}.

(** A ledger secret encrypted for a node. *)
Record EncryptedLedgerSecret := mkEncryptedSecret {
  es_version : option N;
  encrypted_secret : bytes;
  es_stored_version : option N;
}.
Abbreviation LedgerSecretsForNodes := (gmap string (list EncryptedLedgerSecret)) (only parsing).
(** The endorsement of the identity of the service before. *)
Record CoseEndorsement := mkEndorsement {
  endorsement : bytes;
  endorsing_key : bytes;
  endorsement_epoch_begin : TxID.t;
  endorsement_epoch_end : option TxID.t;
  previous_version : option N;
}.
(** The recovery key of a node, sealed to its platform. [SNP_v1] is the one
    algorithm; [tcb_version] is the raw number. *)
Record SealedRecoveryKey := mkSealedKey { ciphertext : bytes; pubkey : string; tcb_version : N }.
Inductive RecoveryType := RECOVERY_SHARES | LOCAL_UNSEALING.
Inductive TxFlag := LEDGER_CHUNK_AT_NEXT_SIGNATURE | SNAPSHOT_AT_NEXT_SIGNATURE | LEDGER_CHUNK_BEFORE_THIS_TX.
Inductive NodeStartupState := uninitialized | initialized | pending | partOfPublicNetwork | partOfNetwork | readingPublicLedger | readingPrivateLedger.
#[global] Instance NodeStartupState_eq_dec : EqDecision NodeStartupState.
Proof. solve_decision. Defined.

(** The recovery of the private ledger: where it ends, with which root, and how
    far the store it is read into has come. *)
Record PrivateRecovery := mkPrivate { recovery_v : N; recovery_root : string; store_version : N }.

(** What the store holds, what the transaction has written, and the node. *)
Record World := mkWorld {
  secrets : State;
  tables : Tables;
  recovery_shares : option RecoverySharesInfo;
  encrypted_past : option EncryptedLedgerSecretInfo;    (* written by the transaction *)
  past_written_at : option N;                           (* [get_version_of_previous_write] of that table *)
  submitted_shares : gmap string bytes;
  sealed_shares : option RecoverySharesInfo;
  sealed_recovery_keys : gmap string SealedRecoveryKey;
  sealing_recovery_names : gmap string string;
  node_secrets : option LedgerSecretsForNodes;          (* written by the transaction *)
  identity_endorsement : option (N * CoseEndorsement);  (* with the version of its write *)
  new_endorsement : option CoseEndorsement;             (* written by the transaction *)
  last_recovery_type : option RecoveryType;
  tx_flags : list TxFlag;                               (* of the transaction *)
  sm : NodeStartupState;
  recovered_encrypted_ledger_secrets : list EncryptedLedgerSecretInfo;
  sealing_recovery : option string;                     (* the name in the configuration of the node *)
  cached_sealed_recovery_data : option (string * bytes * SealedRecoveryKey);
  private_recovery : option PrivateRecovery;
  history_root : N -> string;                           (* [get_replicated_state_root] at a version *)
  self : string;
  node_encrypt_kp : string;
  service_key : bytes;
  drawn : N;
}.
Definition eta_World (w : World) : World :=
  mkWorld (secrets w) (tables w) (recovery_shares w) (encrypted_past w) (past_written_at w) (submitted_shares w) (sealed_shares w) (sealed_recovery_keys w) (sealing_recovery_names w)
    (node_secrets w) (identity_endorsement w) (new_endorsement w) (last_recovery_type w) (tx_flags w)
    (sm w) (recovered_encrypted_ledger_secrets w) (sealing_recovery w) (cached_sealed_recovery_data w) (private_recovery w) (history_root w) (self w) (node_encrypt_kp w) (service_key w) (drawn w).
Definition set_secrets (v : State) (w : World) : World := ltac:(set_field eta_World (secrets w) v w).
Definition set_tables (v : Tables) (w : World) : World := ltac:(set_field eta_World (tables w) v w).
Definition set_recovery_shares (v : option RecoverySharesInfo) (w : World) : World := ltac:(set_field eta_World (recovery_shares w) v w).
Definition set_encrypted_past (v : option EncryptedLedgerSecretInfo) (w : World) : World := ltac:(set_field eta_World (encrypted_past w) v w).
Definition set_past_written_at (v : option N) (w : World) : World := ltac:(set_field eta_World (past_written_at w) v w).
Definition set_submitted_shares (v : gmap string bytes) (w : World) : World := ltac:(set_field eta_World (submitted_shares w) v w).
Definition set_sealed_shares (v : option RecoverySharesInfo) (w : World) : World := ltac:(set_field eta_World (sealed_shares w) v w).
Definition set_sealed_recovery_keys (v : gmap string SealedRecoveryKey) (w : World) : World := ltac:(set_field eta_World (sealed_recovery_keys w) v w).
Definition set_sealing_recovery_names (v : gmap string string) (w : World) : World := ltac:(set_field eta_World (sealing_recovery_names w) v w).
Definition set_node_secrets (v : option LedgerSecretsForNodes) (w : World) : World := ltac:(set_field eta_World (node_secrets w) v w).
Definition set_identity_endorsement (v : option (N * CoseEndorsement)) (w : World) : World := ltac:(set_field eta_World (identity_endorsement w) v w).
Definition set_new_endorsement (v : option CoseEndorsement) (w : World) : World := ltac:(set_field eta_World (new_endorsement w) v w).
Definition set_last_recovery_type (v : option RecoveryType) (w : World) : World := ltac:(set_field eta_World (last_recovery_type w) v w).
Definition set_tx_flags (v : list TxFlag) (w : World) : World := ltac:(set_field eta_World (tx_flags w) v w).
Definition set_sm (v : NodeStartupState) (w : World) : World := ltac:(set_field eta_World (sm w) v w).
Definition set_recovered (v : list EncryptedLedgerSecretInfo) (w : World) : World := ltac:(set_field eta_World (recovered_encrypted_ledger_secrets w) v w).
Definition set_cached_sealed (v : option (string * bytes * SealedRecoveryKey)) (w : World) : World := ltac:(set_field eta_World (cached_sealed_recovery_data w) v w).
Definition set_private_recovery (v : option PrivateRecovery) (w : World) : World := ltac:(set_field eta_World (private_recovery w) v w).
Definition set_drawn (v : N) (w : World) : World := ltac:(set_field eta_World (drawn w) v w).

(** Calls on a part of the state. *)
Definition on_secrets {A} (m : M State A) : M World A := fun w => let r := m (secrets w) in (r.1, set_secrets r.2 w).
Definition on_tables {A} (m : M Tables A) : M World A := fun w => let r := m (tables w) in (r.1, set_tables r.2 w).
Definition on_drawn {A} (m : M N A) : M World A := fun w => let r := m (drawn w) in (r.1, set_drawn r.2 w).

Definition KZ_KEY_SIZE : N := GCM_DEFAULT_KEY_SIZE.

Section share_manager.
Context `{ShareCrypto}.

(** The numbers drawn before one is an element of the field. *)
Variable tries : nat.

(** A key or an IV, or the randomness of an encryption. *)
Definition draw_with {A} (f : N -> A) : M World A := w <- gets id ;;; modify (set_drawn (drawn w + 1)) ;;; ret (f (drawn w)).

(** The constructor of [LedgerSecret] makes the key. *)
Definition make_secret (raw : bytes) (stored : option N) : result LedgerSecret :=
  key <~ make_key_aes_gcm raw ;;; Ok (mkLedgerSecret raw stored).
Definition make_ledger_secret : M World LedgerSecret := raw <- draw_with random_key ;;; lift (make_secret raw None).

Definition decrypt_previous_ledger_secret_raw (ls : LedgerSecret) (encrypted : bytes) : result bytes :=
  c <~ cipher_deserialise encrypted ;;;
  key <~ make_key_aes_gcm (raw_key ls) ;;;
  match key_decrypt key (iv (hdr c)) (tag (hdr c)) (cipher c) [] with
  | None => Throw (LogicError "Decryption of previous ledger secret failed")
  | Some raw => Ok raw
  end.

(** ** SharedLedgerSecretWrappingKey *)

Record WrappingKey := mkWrappingKey { has_wrapped : bool; num_shares : N; wk_threshold : N; wk_secret : Share; wk_shares : list Share }.

Definition new_wrapping_key (n threshold : N) : M World WrappingKey :=
  r <- on_drawn (sample_secret_and_shares random64 tries n threshold) ;;; ret (mkWrappingKey false n threshold r.1 r.2).

Fixpoint serialise_all (l : list Share) : result (list bytes) :=
  match l with
  | [] => Ok []
  | s :: l => b <~ serialise s Sharing.serialised_size ;;; bs <~ serialise_all l ;;; Ok (b :: bs)
  end.
Definition get_shares (wk : WrappingKey) : result (list bytes) := serialise_all (wk_shares wk).
Definition get_full_share_serialised (wk : WrappingKey) : result bytes := serialise (wk_secret wk) Sharing.serialised_size.

(** The IV is that of a new header: zeros. *)
Definition wrap (wk : WrappingKey) (ledger_secret : LedgerSecret) : result (bytes * WrappingKey) :=
  if has_wrapped wk then Throw (LogicError "Ledger secret wrapping key has already wrapped once")
  else
    data <~ key share_hkdf KZ_KEY_SIZE (wk_secret wk) ;;;
    k <~ make_key_aes_gcm data ;;;
    r <~ key_encrypt k (iv new_header) (raw_key ledger_secret) [] ;;;
    Ok (cipher_serialise (mkGcmCipher (mkGcmHeader r.2 (iv new_header)) r.1),
        mkWrappingKey true (num_shares wk) (wk_threshold wk) (wk_secret wk) (wk_shares wk)).

(** ** ReconstructedLedgerSecretWrappingKey *)

Definition unwrap (secret : Share) (wrapped : bytes) : result LedgerSecret :=
  c <~ cipher_deserialise wrapped ;;;
  data <~ key share_hkdf KZ_KEY_SIZE secret ;;;
  k <~ make_key_aes_gcm data ;;;
  match key_decrypt k (iv (hdr c)) (tag (hdr c)) (cipher c) [] with
  | None => Throw (LogicError "Unwrapping latest ledger secret failed")
  | Some raw => make_secret raw None
  end.

(** ** Issuing shares *)

(** One share for each participant, in the order of their identifiers. *)
Fixpoint wrap_shares (members : list (string * Pem)) (shares : list bytes) (acc : gmap string bytes) : M World (gmap string bytes) :=
  match members with
  | [] => ret acc
  | (member_id, enc_pub_key) :: members =>
      match shares with
      | [] => throw OutOfBounds
      | raw_share :: shares =>
          e <- draw_with (fun n => rsa_oaep_wrap n enc_pub_key raw_share) ;;;
          e <- lift e ;;;
          wrap_shares members shares (<[member_id := e]> acc)
      end
  end.
(** The same bytes for each. *)
Fixpoint wrap_for_all (ids : list (string * Pem)) (raw : bytes) (acc : gmap string bytes) : M World (gmap string bytes) :=
  match ids with
  | [] => ret acc
  | (id, enc_pub_key) :: ids =>
      e <- draw_with (fun n => rsa_oaep_wrap n enc_pub_key raw) ;;;
      e <- lift e ;;;
      wrap_for_all ids raw (<[id := e]> acc)
  end.

Definition compute_encrypted_shares (wk : WrappingKey) : M World (gmap string bytes) :=
  shares <- lift (get_shares wk) ;;;
  w <- gets id ;;;
  participants <- lift (get_active_recovery_participants (tables w)) ;;;
  encrypted_shares <- wrap_shares (by_name participants) shares ∅ ;;;
  owners <- lift (get_active_recovery_owners (tables w)) ;;;
  if decide (owners = ∅) then ret encrypted_shares
  else
    full <- lift (get_full_share_serialised wk) ;;;
    wrap_for_all (by_name owners) full encrypted_shares.

(** How many shares there are to be, or why there can be none. *)
Definition shares_to_issue (participants owners : gmap string Pem) (recovery_threshold : N) : result N :=
  if decide (participants = ∅ /\ owners = ∅) then Throw (LogicError "There should be at least one active recovery member to issue recovery shares")
  else if recovery_threshold =? 0 then Throw (LogicError "Recovery threshold should be set before recovery shares are computed")
  else if decide (participants <> ∅) then
    if N.of_nat (size participants) <? recovery_threshold then Throw (LogicError "Recovery threshold should be equal to or less than the number of active recovery members")
    else Ok (N.of_nat (size participants))
  else if 1 <? recovery_threshold then Throw (LogicError "Recovery threshold cannot be greater than 1 when the consortium consists of only active recovery owner members")
  else Ok 1.

Definition shuffle_recovery_shares_of (latest_ledger_secret : LedgerSecret) : M World unit :=
  w <- gets id ;;;
  participants <- lift (get_active_recovery_participants (tables w)) ;;;
  owners <- lift (get_active_recovery_owners (tables w)) ;;;
  recovery_threshold <- lift (get_recovery_threshold (tables w)) ;;;
  n <- lift (shares_to_issue participants owners recovery_threshold) ;;;
  wk <- new_wrapping_key n recovery_threshold ;;;
  wrapped <- lift (wrap wk latest_ledger_secret) ;;;
  encrypted <- compute_encrypted_shares wrapped.2 ;;;
  modify (set_recovery_shares (Some (mkSharesInfo wrapped.1 encrypted (previous_secret_stored_version latest_ledger_secret)))).

(** ** Sealed shares *)

Definition check_supported_aes_key_size (num_bits : N) : result unit :=
  if (num_bits =? 128) || (num_bits =? 192) || (num_bits =? 256) then Ok tt else Throw (LogicError "Unsupported key size").

Definition aes_gcm_sealing (raw plain aad : bytes) : M World GcmCipher :=
  lift (check_supported_aes_key_size (N.of_nat (length raw) * 8)) ;;;
  k <- lift (make_key_aes_gcm raw) ;;;
  i <- draw_with random_iv ;;;
  r <- lift (key_encrypt k i plain aad) ;;;
  ret (mkGcmCipher (mkGcmHeader r.2 i) r.1).

Definition aes_gcm_unsealing (raw sealed_text aad : bytes) : result bytes :=
  _ <~ check_supported_aes_key_size (N.of_nat (length raw) * 8) ;;;
  k <~ make_key_aes_gcm raw ;;;
  c <~ cipher_deserialise sealed_text ;;;
  match key_decrypt k (iv (hdr c)) (tag (hdr c)) (cipher c) aad with
  | None => Throw (LogicError "Failed to decrypt sealed data")
  | Some plain => Ok plain
  end.

Definition LOCAL_SEALING_LABEL : string := "CCF AMD Local Sealing Key".
Definition derive_snp_sealing_key (tcb : N) : bytes := share_hkdf 32 (snp_derived_key tcb) [] (String.list_byte_of_string LOCAL_SEALING_LABEL).

Definition get_snp_sealed_recovery_key (tcb : N) : M World SealedRecoveryKey :=
  recovery_pubkey <- draw_with new_rsa_key_pair ;;;
  sealed_key <- aes_gcm_sealing (derive_snp_sealing_key tcb) (private_key_pem recovery_pubkey) (String.list_byte_of_string recovery_pubkey) ;;;
  ret (mkSealedKey (cipher_serialise sealed_key) recovery_pubkey tcb).

Definition compute_encrypted_sealed_shares (wk : WrappingKey) : M World (gmap string bytes) :=
  w <- gets id ;;;
  full <- lift (get_full_share_serialised wk) ;;;
  wrap_for_all (omap (fun '(id, _) => (fun k => (id, pubkey k)) <$> sealed_recovery_keys w !! id) (by_name (get_trusted_nodes (tables w)))) full ∅.

Definition shuffle_sealed_shares (latest_ledger_secret : LedgerSecret) : M World unit :=
  wk <- new_wrapping_key 1 1 ;;;
  wrapped <- lift (wrap wk latest_ledger_secret) ;;;
  encrypted <- compute_encrypted_sealed_shares wrapped.2 ;;;
  modify (set_sealed_shares (Some (mkSharesInfo wrapped.1 encrypted (previous_secret_stored_version latest_ledger_secret)))).

Definition unseal_recovery_key (derived_key : bytes) (sealed_key : SealedRecoveryKey) : result string :=
  plain <~ aes_gcm_unsealing derived_key (ciphertext sealed_key) (String.list_byte_of_string (pubkey sealed_key)) ;;;
  rsa_key_pair_of plain.

Definition unseal_share (sealed_wrapping_key : bytes) (sealed_recovery_key : SealedRecoveryKey) (w : World) : result (option LedgerSecret) :=
  match sealed_shares w with
  | None => Ok None
  | Some info =>
      recovery_key_pair <~ unseal_recovery_key (derive_snp_sealing_key (tcb_version sealed_recovery_key)) sealed_recovery_key ;;;
      match rsa_oaep_unwrap recovery_key_pair sealed_wrapping_key with
      | None => Throw (LogicError "Could not unwrap")
      | Some decrypted_share =>
          share <~ deserialise decrypted_share ;;;
          if sh_x share =? 0 then ls <~ unwrap share (wrapped_latest_ledger_secret info) ;;; Ok (Some ls)
          else Throw AssertionFailure
      end
  end.

(** ** Past secrets *)

(** Encryption with the key of a ledger secret and a random IV. *)
Definition seal_with (ls : LedgerSecret) (plain : bytes) : M World bytes :=
  i <- draw_with random_iv ;;;
  k <- lift (make_key_aes_gcm (raw_key ls)) ;;;
  r <- lift (key_encrypt k i plain []) ;;;
  ret (cipher_serialise (mkGcmCipher (mkGcmHeader r.2 i) r.1)).

Definition set_recovery_shares_info (latest : LedgerSecret) (previous : option (N * LedgerSecret)) (latest_ls_version : option N) : M World unit :=
  shuffle_recovery_shares_of latest ;;;
  shuffle_sealed_shares latest ;;;
  match previous with
  | Some previous =>
      encrypted <- seal_with latest (raw_key previous.2) ;;;
      w <- gets id ;;;
      modify (set_encrypted_past (Some (mkEncryptedInfo (Some (mkPrevious encrypted previous.1 (past_written_at w))) latest_ls_version)))
  | None => modify (set_encrypted_past (Some (mkEncryptedInfo None latest_ls_version)))
  end.

Definition issue_recovery_shares : M World unit :=
  r <- on_secrets get_latest_and_penultimate ;;;
  set_recovery_shares_info (snd r.1) r.2 (Some (fst r.1)).
Definition issue_recovery_shares_of (new_ledger_secret : LedgerSecret) : M World unit :=
  current <- on_secrets get_latest ;;;
  set_recovery_shares_info new_ledger_secret (Some current) None.
Definition shuffle_recovery_shares : M World unit :=
  current <- on_secrets get_latest ;;; shuffle_recovery_shares_of current.2.

Definition get_encrypted_share (member_id : string) (w : World) : result (option bytes) :=
  match recovery_shares w with
  | None => Throw (LogicError "Failed to retrieve current recovery shares info")
  | Some info => Ok (encrypted_shares info !! member_id)
  end.

(** ** Submitting and combining shares *)

Definition submit_recovery_share (member_id : string) (share : bytes) : M World N :=
  w <- gets id ;;;
  match service (tables w) with
  | None => throw (LogicError "Failed to get active service")
  | Some _ =>
      current <- on_secrets get_latest ;;;
      e <- seal_with current.2 share ;;;
      w <- gets id ;;;
      modify (set_submitted_shares (<[member_id := e]> (submitted_shares w))) ;;;
      w <- gets id ;;;
      ret (N.of_nat (size (submitted_shares w)))
  end.

Definition clear_submitted_recovery_shares : M World unit := modify (set_submitted_shares ∅).

Definition is_full_key (submitted : bytes) : result bool :=
  if N.of_nat (length submitted) =? Sharing.serialised_size
  then s <~ deserialise submitted ;;; Ok (sh_x s =? 0)
  else Ok false.

Definition decrypt_submitted_share (encrypted : bytes) (current : LedgerSecret) : result bytes :=
  c <~ cipher_deserialise encrypted ;;;
  k <~ make_key_aes_gcm (raw_key current) ;;;
  match key_decrypt k (iv (hdr c)) (tag (hdr c)) (cipher c) [] with
  | None => Throw (LogicError "Decrypting submitted shares failed")
  | Some share => Ok share
  end.

(** The loop over the submitted shares, that ends at a full share. *)
Fixpoint collect_shares (l : list (string * bytes)) (new_shares : list Share) : M World (Share + list Share) :=
  match l with
  | [] => ret (inr new_shares)
  | (_, encrypted) :: l =>
      current <- on_secrets get_latest ;;;
      decrypted <- lift (decrypt_submitted_share encrypted current.2) ;;;
      if N.of_nat (length decrypted) =? Sharing.serialised_size then
        s <- lift (deserialise decrypted) ;;;
        if sh_x s =? 0 then ret (inl s) else collect_shares l (new_shares ++ [s])%list
      else throw (LogicError "Error combining recovery shares: decrypted share is not a new-style share")
  end.

(** The order in which the store goes over the submitted shares. *)
Variable store_order : gmap string bytes -> list (string * bytes).

Definition combine_from_encrypted_submitted_shares : M World Share :=
  w <- gets id ;;;
  r <- collect_shares (store_order (submitted_shares w)) [] ;;;
  match r with
  | inl full => ret full
  | inr new_shares =>
      match config (tables w) with
      | None => throw (LogicError "Configuration is not set")
      | Some c =>
          if N.of_nat (length new_shares) <? recovery_threshold c
          then throw (LogicError "Error combining recovery shares: too few recovery shares were submitted")
          else lift (recover_unauthenticated_secret new_shares (recovery_threshold c))
      end
  end.

(** ** Restoring the ledger secrets *)

(** The loop over what was recovered, from the last. *)
Fixpoint restore_past (l : list EncryptedLedgerSecretInfo) (latest : LedgerSecret) (restored : list (N * LedgerSecret)) : result (list (N * LedgerSecret)) :=
  match l with
  | [] => Ok restored
  | e :: l =>
      match previous_ledger_secret e with
      | None => Ok restored
      | Some prev =>
          match find (prev_version prev) restored with
          | Some _ => restore_past l latest restored
          | None =>
              raw <~ decrypt_previous_ledger_secret_raw latest (encrypted_data prev) ;;;
              ls <~ make_secret raw (prev_stored_version prev) ;;;
              restore_past l ls (emplace (prev_version prev) ls restored)
          end
      end
  end.

Definition restore_ledger_secrets_map (recovered : list EncryptedLedgerSecretInfo) (restored_ls : LedgerSecret) : M World (list (N * LedgerSecret)) :=
  w <- gets id ;;;
  match reverse recovered with
  | [] => throw (LogicError "No recovery ledger secrets")
  | e :: _ =>
      match next_version e with
      | None => throw (LogicError "Current ledger secret version should be set")
      | Some v =>
          lift (ls <~ make_secret (raw_key restored_ls) (past_written_at w) ;;; restore_past (reverse recovered) ls [(v, ls)])
      end
  end.

Definition restore_recovery_shares_info (recovered : list EncryptedLedgerSecretInfo) : M World (list (N * LedgerSecret)) :=
  w <- gets id ;;;
  match recovery_shares w with
  | None => throw (LogicError "Failed to retrieve current recovery shares info")
  | Some info =>
      secret <- combine_from_encrypted_submitted_shares ;;;
      ls <- lift (unwrap secret (wrapped_latest_ledger_secret info)) ;;;
      restore_ledger_secrets_map recovered ls
  end.
End share_manager.
End ShareManager.
