(* ===== verification/NodeRecovery.v ===== *)
(** * Rekey, opening and recovery

    The broadcast of ledger secrets to nodes, the hooks that receive them, and
    the transactions that open, rekey and recover a service
    (src/node/node_state.h, src/node/secret_broadcast.h,
    src/service/internal_tables_access.h, src/node/gov/handlers and the creation
    of a service in src/node/rpc/node_frontend.h), the reading of the private
    ledger, and the nodes that ask to join. An error response is an
    exception: the writes of its transaction are not applied. *)

From S2P Require Import Prelude ViewHistory TxStatus RaftTypes LedgerEntries LedgerSecrets Sharing Encryptor GovTables ShareManager.
From Stdlib Require Import Init.Byte Strings.Byte.

Module NodeRecovery.
Import OrderedMap LedgerSecrets Sharing Encryptor GovTables ShareManager.
Open Scope N_scope.
Open Scope m_scope.

(** Fields of a node that [node_rest] stands for, and the endorsement of its
    certificate for a number of days. *)
Class NodeRest := {
  public_key : string -> string;
  published_address : string -> string;
  certificate_signing_request : string -> option string;
  generateEndorsedCertificate : string -> string -> N -> result string;
}.

Section node.
Context `{ShareCrypto} `{NodeRest}.
Variable tries : nat.
Variable store_order : gmap string bytes -> list (string * bytes).

Definition is_part_of_network (w : World) : bool := bool_decide (sm w = partOfNetwork).
Definition is_part_of_public_network (w : World) : bool := bool_decide (sm w = partOfPublicNetwork).
Definition is_reading_private_ledger (w : World) : bool := bool_decide (sm w = readingPrivateLedger).
(** [sm.expect] *)
Definition expect (state : NodeStartupState) : M World unit :=
  w <- gets id ;;; if decide (sm w = state) then ret tt else throw (LogicError "Node is in wrong state").

Definition set_tx_flag (f : TxFlag) : M World unit := modify (fun w => set_tx_flags (f :: tx_flags w) w).
Definition trigger_ledger_chunk : M World unit := set_tx_flag LEDGER_CHUNK_AT_NEXT_SIGNATURE.
Definition trigger_snapshot : M World unit := set_tx_flag SNAPSHOT_AT_NEXT_SIGNATURE.

(** ** Broadcast of ledger secrets *)

Fixpoint wrap_secrets (ni : NodeInfo) (l : list (option N * LedgerSecret)) : M World (list EncryptedLedgerSecret) :=
  match l with
  | [] => ret []
  | (version, ls) :: l =>
      e <- draw_with (fun n => rsa_oaep_wrap n (node_encryption_pub_key ni) (raw_key ls)) ;;;
      e <- lift e ;;;
      es <- wrap_secrets ni l ;;;
      ret (mkEncryptedSecret version e (previous_secret_stored_version ls) :: es)
  end.
Fixpoint wrap_for_nodes (nodes : list (string * NodeInfo)) (l : list (option N * LedgerSecret)) (acc : LedgerSecretsForNodes) : M World LedgerSecretsForNodes :=
  match nodes with
  | [] => ret acc
  | (nid, ni) :: nodes => es <- wrap_secrets ni l ;;; wrap_for_nodes nodes l (<[nid := es]> acc)
  end.
Definition broadcast_some (nodes : gmap string NodeInfo) (some_ledger_secrets : list (N * LedgerSecret)) : M World unit :=
  secrets_for_nodes <- wrap_for_nodes (by_name nodes) ((fun p => (Some p.1, p.2)) <$> some_ledger_secrets) ∅ ;;;
  modify (set_node_secrets (Some secrets_for_nodes)).
Definition broadcast_new (nodes : gmap string NodeInfo) (new_ledger_secret : LedgerSecret) : M World unit :=
  secrets_for_nodes <- wrap_for_nodes (by_name nodes) [(None, new_ledger_secret)] ∅ ;;;
  modify (set_node_secrets (Some secrets_for_nodes)).
Definition decrypt_secret (kp : string) (c : bytes) : result bytes :=
  match rsa_oaep_unwrap kp c with None => Throw (LogicError "Could not unwrap") | Some raw => Ok raw end.

(** ** Hooks on the table of secrets *)

(** The local hook, that rekeys the ledger from the next version. *)
Definition secrets_hook (hook_version : N) : M World unit :=
  w <- gets id ;;;
  if negb (is_part_of_network w) then ret tt
  else
    match node_secrets w ≫= (.!! self w) with
    | None => ret tt
    | Some l =>
        for_each (fun e =>
          raw <- lift (decrypt_secret (node_encrypt_kp w) (encrypted_secret e)) ;;;
          ls <- lift (make_secret raw (Some hook_version)) ;;;
          on_secrets (set_secret (hook_version + 1) ls)) l
    end.

Fixpoint restored_for (kp : string) (l : list EncryptedLedgerSecret) (restored : list (N * LedgerSecret)) : result (list (N * LedgerSecret)) :=
  match l with
  | [] => Ok restored
  | e :: l =>
      match es_version e with
      | None => Throw (LogicError "Commit hook: no version for encrypted ledger secret")
      | Some v =>
          raw <~ decrypt_secret kp (encrypted_secret e) ;;;
          ls <~ make_secret raw (es_stored_version e) ;;;
          restored_for kp l (emplace v ls restored)
      end
  end.
(** The version and the root of the store are those the private ledger has to
    reach; it is read from its start into a store that is empty. *)
Definition setup_private_recovery_store (current_version : N) : M World unit :=
  modify (fun w => set_private_recovery (Some (mkPrivate current_version (history_root w current_version) 0)) w).
Definition begin_private_recovery (current_version : N) : M World unit :=
  expect partOfPublicNetwork ;;;
  setup_private_recovery_store current_version ;;;
  modify (set_sm readingPrivateLedger).
(** The global hook, that starts the private recovery. *)
Definition secrets_global_hook (current_version : N) : M World unit :=
  w <- gets id ;;;
  if negb (is_part_of_public_network w) then ret tt
  else
    match node_secrets w ≫= (.!! self w) with
    | None => ret tt
    | Some l =>
        restored <- lift (restored_for (node_encrypt_kp w) l []) ;;;
        match restored with
        | [] => ret tt
        | _ => on_secrets (restore_historical restored) ;;; begin_private_recovery current_version
        end
    end.

(** The recovery hook: the version of the next secret, when it is not set, is
    the one after the write. *)
Definition recovery_hook (version : N) (e : EncryptedLedgerSecretInfo) : EncryptedLedgerSecretInfo :=
  mkEncryptedInfo (previous_ledger_secret e) (Some (default (version + 1) (next_version e))).

(** ** Endorsement of the identity of the service *)

Definition previous_tx_if_recovery (txid : TxID.t) : TxID.t := TxID.mk (u64_sub (TxID.view txid) starting_view_change) (u64_sub (TxID.seqno txid) 1).
Definition next_tx_if_recovery (txid : TxID.t) : TxID.t := TxID.mk (TxID.view txid + starting_view_change) (TxID.seqno txid + 1).

(** The signature is made of the current time, here the number of the draw. *)
Definition sign_endorsement (e : CoseEndorsement) (key_to_endorse : bytes) (previous_root : string) : M World bool :=
  w <- gets id ;;;
  signed <- draw_with (fun n => cose_sign_endorsement n (service_key w) (TxID.to_str (endorsement_epoch_begin e))
    (match endorsement_epoch_end e with Some t => TxID.to_str t | None => "" end) previous_root key_to_endorse) ;;;
  match signed with
  | None => ret false
  | Some b => modify (set_new_endorsement (Some (mkEndorsement b (endorsing_key e) (endorsement_epoch_begin e) (endorsement_epoch_end e) (previous_version e)))) ;;; ret true
  end.

Definition endorse_previous_identity : M World bool :=
  w <- gets id ;;;
  match identity_endorsement w with
  | Some (written_at, prev) =>
      match service (tables w) ≫= current_service_create_txid with
      | None => throw (LogicError "Active service or current_service_create_txid is not set")
      | Some create_txid =>
          let epoch_begin := match endorsement_epoch_end prev with Some t => next_tx_if_recovery t | None => endorsement_epoch_begin prev end in
          match last_signed_root (tables w) with
          | None => ret false
          | Some root => sign_endorsement (mkEndorsement [] (service_key w) epoch_begin (Some (previous_tx_if_recovery create_txid)) (Some written_at)) (endorsing_key prev) root
          end
      end
  | None =>
      match service (tables w) ≫= current_service_create_txid with
      | None => throw (LogicError "Active service or current_service_create_txid is not set")
      | Some create_txid => sign_endorsement (mkEndorsement [] (service_key w) create_txid None None) (service_key w) ""
      end
  end.
(** ** Private recovery *)

Definition initiate_private_recovery_unsafe (recovered_ledger_secrets : list (N * LedgerSecret)) : M World unit :=
  w <- gets id ;;; broadcast_some (get_trusted_nodes (tables w)) recovered_ledger_secrets.
Definition initiate_private_recovery : M World unit :=
  expect partOfPublicNetwork ;;;
  w <- gets id ;;;
  restored <- restore_recovery_shares_info store_order (recovered_encrypted_ledger_secrets w) ;;;
  initiate_private_recovery_unsafe restored.
Definition initiate_private_recovery_unsealing_unsafe (unsealed : LedgerSecret) : M World unit :=
  expect partOfPublicNetwork ;;;
  w <- gets id ;;;
  restored <- restore_ledger_secrets_map (recovered_encrypted_ledger_secrets w) unsealed ;;;
  initiate_private_recovery_unsafe restored.

(** ** Opening *)

(** What a proposal to open a service says of identities. *)
Definition check_identities (s : ServiceInfo) (previous : option Pem) (next : Pem) (t : Tables) : result unit :=
  _ <~ (if decide (service_status s = RECOVERING) then
          match previous_service_identity t, previous with
          | Some ident, Some from_proposal => if decide (ident = from_proposal) then Ok tt else Throw (LogicError "Previous service identity does not match")
          | _, _ => Throw (LogicError "Recovery with service certificates requires both, a previous service identity written to the KV during recovery genesis and a transition_service_to_open proposal that contains previous and next service certificates")
          end
        else Ok tt) ;;;
  if decide (next = cert s) then Ok tt else Throw (LogicError "Service identity mismatch").

(** A node with the configuration to unseal its ledger secret does so at once. *)
Definition unseal_or_wait : M World unit :=
  w <- gets id ;;;
  if decide (default "" (sealing_recovery w) <> "") then
    match cached_sealed_recovery_data w with
    | None => throw (LogicError "Missing cached sealed recovery key for private recovery")
    | Some (_, wrapping_key, recovery_key) =>
        unsealed <- lift (unseal_share wrapping_key recovery_key w) ;;;
        match unsealed with
        | None => throw (LogicError "Failed to unseal ledger secret for private recovery")
        | Some ls => modify (set_last_recovery_type (Some LOCAL_UNSEALING)) ;;; initiate_private_recovery_unsealing_unsafe ls
        end
    end
  else modify (set_last_recovery_type (Some RECOVERY_SHARES)).

Definition transition_service_to_open (previous : option Pem) (next : Pem) : M World unit :=
  w <- gets id ;;;
  match service (tables w) with
  | None => throw (LogicError "Service information cannot be found to transition service to open")
  | Some s =>
      if decide (service_status s = WAITING_FOR_RECOVERY_SHARES \/ service_status s = OPEN) then ret tt
      else
        lift (check_identities s previous next (tables w)) ;;;
        if is_part_of_public_network w then
          clear_submitted_recovery_shares ;;;
          on_tables (modify (set_service (Some (with_status WAITING_FOR_RECOVERY_SHARES s)))) ;;;
          unseal_or_wait
        else if is_part_of_network w then
          issue_recovery_shares tries ;;;
          on_tables open_service ;;;
          endorse_previous_identity ;;;
          trigger_snapshot
        else throw (LogicError "Node cannot open service")
  end.

Definition trigger_recovery_shares_refresh : M World unit := shuffle_recovery_shares tries.
Definition node_shuffle_sealed_shares : M World unit :=
  w <- gets id ;;;
  if negb (is_part_of_network w) then ret tt
  else latest <- on_secrets get_latest ;;; shuffle_sealed_shares tries latest.2.

(** ** Rekey *)

Definition rekey_ledger : M World bool :=
  expect partOfNetwork ;;;
  w <- gets id ;;;
  if decide (get_service_status (tables w) = Some OPEN) then
    new_ledger_secret <- make_ledger_secret ;;;
    issue_recovery_shares_of tries new_ledger_secret ;;;
    w <- gets id ;;;
    broadcast_new (get_trusted_nodes (tables w)) new_ledger_secret ;;;
    ret true
  else ret false.

(** ** The private ledger *)

(** What deserialising and applying an entry to the recovery store does, with the
    key its encryptor is given for it: a success, a failure or an exception. *)
Variable apply_entry : N -> option bytes -> result bool.
(** The root of the recovery store when it has read up to a version. *)
Variable store_root : N -> string.

(** The entries are read in order, each with the secret for its version among the
    historical ones, until the recovery ends or one cannot be read. The batches the
    host sends them in are not part of the model. *)
Fixpoint recover_private_ledger_entries (fuel : nat) : M World unit :=
  match fuel with
  | O => ret tt
  | S fuel =>
      w <- gets id ;;;
      match private_recovery w with
      | Some p =>
          if negb (is_reading_private_ledger w) || (store_version p =? recovery_v p) then ret tt
          else
            let last_recovered_idx := store_version p + 1 in
            key <- on_secrets (get_encryption_key_for last_recovered_idx true) ;;;
            match apply_entry last_recovered_idx key with
            | Ok true =>
                modify (set_private_recovery (Some (mkPrivate (recovery_v p) (recovery_root p) last_recovered_idx))) ;;;
                recover_private_ledger_entries fuel
            | _ => ret tt
            end
      | None => ret tt
      end
  end.

(** The same ledger has been read, to the same version. *)
Definition check_private_ledger (w : World) : result unit :=
  match private_recovery w with
  | None => Throw (LogicError "No recovery store")
  | Some p =>
      if negb (recovery_v p =? store_version p) then Throw (LogicError "Private recovery did not reach public ledger seqno")
      else if decide (store_root (store_version p) = recovery_root p) then Ok tt
      else Throw (LogicError "Root of public store does not match root of private store")
  end.

(** ** The end of a recovery *)

(** The transaction at the end of the private ledger, of a node that can replicate;
    the private maps that are swapped in are not part of the model. *)
Definition recover_private_ledger_end : M World unit :=
  expect readingPrivateLedger ;;;
  w <- gets id ;;;
  lift (check_private_ledger w) ;;;
  match service (tables w) with
  | None => throw (LogicError "Error in recover_private_ledger_end: no value in table")
  | Some s =>
      if decide (service_status s <> WAITING_FOR_RECOVERY_SHARES) then throw (LogicError "Error in recover_private_ledger_end: current service status")
      else
        clear_submitted_recovery_shares ;;;
        issue_recovery_shares tries ;;;
        opened <- on_tables open_service ;;;
        endorsed <- (if opened : bool then endorse_previous_identity else ret false) ;;;
        if endorsed : bool then trigger_snapshot else throw (LogicError "Service could not be opened")
  end.
(** What it does when the transaction has been committed. *)
Definition recovery_ended (w : World) : World := set_sm partOfNetwork (set_recovered [] (set_private_recovery None w)).
(** The hook that fires once, at that transaction. *)
Definition one_off_secret_hook (version : N) : M World unit := on_secrets (adjust_previous_secret_stored_version version).

(** ** The start of a service *)

(** At the end of the public ledger: a new ledger secret from the version after
    the last signature, and the data sealed for this node. *)
Definition find_sealed_recovery_data (w : World) : result (option (string * bytes * SealedRecoveryKey)) :=
  match sealing_recovery w with
  | None => Ok None
  | Some name =>
      match (nid ← sealing_recovery_names w !! name; info ← sealed_shares w; e ← encrypted_shares info !! nid; k ← sealed_recovery_keys w !! nid; Some (nid, e, k)) with
      | None => Throw (LogicError "Failed to find sealed recovery data")
      | Some d => Ok (Some d)
      end
  end.
Definition recover_public_ledger_end (last_recovered_signed_idx : N) (fresh : LedgerSecret) : M World unit :=
  expect readingPublicLedger ;;;
  on_secrets (init (last_recovered_signed_idx + 1) fresh) ;;;
  w <- gets id ;;;
  cached <- lift (find_sealed_recovery_data w) ;;;
  match cached with Some _ => modify (set_cached_sealed cached) | None => ret tt end.

Record Genesis := mkGenesis { members : list NewMember; service_configuration : ServiceConfiguration; genesis_constitution : string }.
Record CreateIn := mkCreateIn {
  service_cert : Pem;
  create_txid : TxID.t;
  in_service_data : string;
  genesis_info : option Genesis;
  node_id : string;
  public_encryption_key : Pem;
  node_info_rest : string;
  sealing_recovery_data : option (SealedRecoveryKey * string);
}.
Variables (cert_id tree_root : string -> result string).

(** The creation of a service; attestation, node certificates and the decision
    protocol of recovery are not part of the model. *)
Definition create (i : CreateIn) : M World unit :=
  w <- gets id ;;;
  let recovering := bool_decide (sm w = readingPublicLedger) in
  if negb (bool_decide (sm w = initialized)) && negb recovering then throw (LogicError "Node is not in initial state.")
  else if is_service_created (service_cert i) (tables w) then throw (LogicError "Service is already created.")
  else
    on_tables (create_service tree_root (service_cert i) (create_txid i) (in_service_data i) recovering) ;;;
    on_tables retire_active_nodes ;;;
    match genesis_info i with
    | Some g =>
        on_tables (for_each (fun m => add_member cert_id tree_root m ;;; ret tt) (members g)) ;;;
        on_tables (init_configuration (service_configuration g)) ;;;
        on_tables (set_constitution (genesis_constitution g))
    | None => set_tx_flag LEDGER_CHUNK_BEFORE_THIS_TX
    end ;;;
    on_tables (add_node (node_id i) (mkNode TRUSTED (public_encryption_key i) None false (node_info_rest i))) ;;;
    match sealing_recovery_data i with
    | Some (key, name) => modify (fun w => set_sealing_recovery_names (<[name := node_id i]> (sealing_recovery_names w)) (set_sealed_recovery_keys (<[node_id i := key]> (sealed_recovery_keys w)) w))
    | None => ret tt
    end ;;;
    node_shuffle_sealed_shares.

(** ** Nodes that join and retire *)

(** A node that asks to join: its identifier and public key are those of its
    certificate, and [join_checks] is what verifying its quote, its signing mode
    and the key of its certificate request comes to. *)
Record JoinIn := mkJoinIn {
  joining_node_id : string;
  client_public_key : string;
  join_published_address : string;
  join_public_encryption_key : Pem;
  join_rest : string;
  join_startup_seqno : option N;
  join_checks : result unit;
  join_sealing_recovery_data : option (SealedRecoveryKey * string);
}.

(** A node with this public key, and this status when there is one. *)
Definition check_node_exists (pk : string) (st : option NodeStatus) (t : Tables) : option (string * NodeInfo) :=
  head (filter (fun p => public_key (node_rest p.2) = pk /\ (st = None \/ st = Some (node_status p.2))) (map_to_list (nodes t))).
(** A node at this address that is not retired. *)
Definition check_conflicting_node_network (address : string) (t : Tables) : option (string * NodeInfo) :=
  head (filter (fun p => published_address (node_rest p.2) = address /\ node_status p.2 <> RETIRED) (map_to_list (nodes t))).

(** Endorsed certificates are not part of the model. *)
Definition add_joining_node (i : JoinIn) (st : NodeStatus) : M World NodeStatus :=
  w <- gets id ;;;
  match check_conflicting_node_network (join_published_address i) (tables w) with
  | Some _ => throw (LogicError "A node with the same published node address already exists")
  | None =>
      lift (join_checks i) ;;;
      seqno <- (if decide (st = TRUSTED) then latest <- on_secrets get_latest ;;; ret (Some latest.1) else ret None) ;;;
      on_tables (add_node (joining_node_id i) (mkNode st (join_public_encryption_key i) seqno false (join_rest i))) ;;;
      match join_sealing_recovery_data i with
      | Some (key, name) => modify (fun w => set_sealing_recovery_names (<[name := joining_node_id i]> (sealing_recovery_names w)) (set_sealed_recovery_keys (<[joining_node_id i := key]> (sealed_recovery_keys w)) w))
      | None => ret tt
      end ;;;
      when (bool_decide (st = TRUSTED)) node_shuffle_sealed_shares ;;;
      ret st
  end.

(** The request to join, at the primary: the status the node has got. Nodes are
    trusted at once until the service is open. *)
Definition join (this_startup_seqno : N) (i : JoinIn) : M World NodeStatus :=
  w <- gets id ;;;
  if negb (is_part_of_network w) && negb (is_part_of_public_network w) && negb (is_reading_private_ledger w) then throw (LogicError "Target node should be part of network to accept new nodes.")
  else if (match join_startup_seqno i with Some s => s <? this_startup_seqno | None => false end) then throw (LogicError "Node requested to join from seqno which is older than this node startup seqno")
  else
    match service (tables w) with
    | None => throw (LogicError "No service is available to accept new node.")
    | Some s =>
        if decide (service_status s = OPENING \/ service_status s = RECOVERING) then
          match check_node_exists (client_public_key i) (Some TRUSTED) (tables w) with
          | Some (_, ni) => on_secrets (get (ledger_secret_seqno ni)) ;;; ret TRUSTED
          | None => add_joining_node i TRUSTED
          end
        else
          match check_node_exists (client_public_key i) None (tables w) with
          | Some (_, ni) =>
              match node_status ni with
              | TRUSTED => on_secrets (get (ledger_secret_seqno ni)) ;;; ret TRUSTED
              | PENDING => ret PENDING
              | RETIRED => throw (LogicError "Joining node is not in expected state")
              end
          | None => add_joining_node i PENDING
          end
    end.

(** Nodes whose retirement is committed are marked. *)
Definition mark_retired (committed : option NodeInfo) (ni : NodeInfo) : NodeInfo :=
  match committed with
  | Some c => if bool_decide (node_status c = RETIRED) && negb (retired_committed ni) then mkNode (node_status ni) (node_encryption_pub_key ni) (ledger_secret_seqno ni) true (node_rest ni) else ni
  | None => ni
  end.
Definition set_retired_committed : M World unit :=
  on_tables (modify (fun t => set_nodes (map_imap (fun nid ni => Some (mark_retired (nodes_committed t !! nid) ni))) t)).

(** ** Endpoints for members *)

(** A member acknowledges the state digest: they are active from then on. *)
Definition ack_state_digest (member_id actual_digest : string) : M World unit :=
  w <- gets id ;;;
  match member_acks (tables w) !! member_id with
  | None => throw (LogicError "No ACK record exists for member")
  | Some expected_digest =>
      if decide (expected_digest <> actual_digest) then throw (LogicError "Submitted state digest is not valid.")
      else
        newly_active <- on_tables (activate_member member_id) ;;;
        w <- gets id ;;;
        if newly_active && is_recovery_participant_or_owner member_id (tables w) then
          match get_service_status (tables w) with
          | None => throw (LogicError "No service currently available.")
          | Some st => when (bool_decide (st = OPEN)) (shuffle_recovery_shares tries)
          end
        else ret tt
  end.

(** A member submits a recovery share; true when it starts the private recovery.
    Shares that cannot be combined are cleared. *)
Definition submit_share (member_id : string) (raw_recovery_share : bytes) : M World bool :=
  w <- gets id ;;;
  if decide (get_service_status (tables w) <> Some WAITING_FOR_RECOVERY_SHARES) then throw (LogicError "Service is not waiting for recovery shares.")
  else if is_reading_private_ledger w then throw (LogicError "Node is already recovering private ledger.")
  else
    submitted_shares_count <- submit_recovery_share member_id raw_recovery_share ;;;
    full_key_submitted <- lift (is_full_key raw_recovery_share) ;;;
    w <- gets id ;;;
    threshold <- lift (get_recovery_threshold (tables w)) ;;;
    if (threshold <=? submitted_shares_count) || full_key_submitted then
      fun w =>
        match initiate_private_recovery w with
        | (Ok _, w') => (Ok true, w')
        | (Throw _, w') => (clear_submitted_recovery_shares ;;; ret false) w'
        end
    else ret false.
End node.
End NodeRecovery.
