(* ===== verification/Constitution.v ===== *)
(** * The default constitution

    The actions of a proposal on members, users, nodes, the configuration and
    the opening of a service (samples/constitutions/default). An action is checked
    when it is proposed and applied when the proposal is accepted; a proposal is
    applied in one transaction, that an exception aborts. A field that is
    undefined is [None]. *)

From S2P Require Import Prelude ViewHistory TxStatus LedgerEntries LedgerSecrets Sharing Encryptor GovTables ShareManager NodeRecovery.
From Stdlib Require Import Init.Byte Strings.Byte.

Module Constitution.
Import GovTables ShareManager NodeRecovery.
Open Scope N_scope.
Open Scope m_scope.

Record ConfigArgs := mkConfigArgs {
  new_reconfiguration_type : option ReconfigurationType;
  new_recovery_threshold : option N;
  new_recent_cose_proposals_window_size : option N;
}.

Inductive Action :=
| set_member (m : NewMember)
| remove_member (id : string)
| set_member_data (id data : string)
| set_user (u : NewUser)
| remove_user (id : string)
| set_user_data (id : string) (data : option string)
| set_recovery_threshold (threshold : N)
| trigger_recovery_shares_refresh
| trigger_ledger_rekey
| transition_service_to_open (previous : option string) (next : string)
| set_service_configuration (args : ConfigArgs)
| trigger_ledger_chunk
| trigger_snapshot
| assert_service_identity (identity : string)
| transition_node_to_trusted (node_id valid_from : string) (validity_period_days : option N)
| remove_node (node_id : string).

(** ** Checks *)

Definition error {A} (e : string) : result A := Throw (LogicError e).

Definition checkBounds (value : option N) (low high : N) : result unit :=
  match value with
  | None => Ok tt
  | Some v => if v <? low then error "must be greater" else if high <? v then error "must be lower" else Ok tt
  end.

Definition is_hex (c : Ascii.ascii) : bool :=
  let n := Ascii.N_of_ascii c in (48 <=? n) && (n <=? 57) || (65 <=? n) && (n <=? 70) || (97 <=? n) && (n <=? 102).
Definition checkEntityId (value : string) : result unit :=
  if negb (String.length value =? 64)%nat then error "must contain exactly 64 characters"
  else if forallb is_hex (String.list_ascii_of_string value) then Ok tt
  else error "contains non-hexadecimal character".

(** The number of active members with an encryption key. *)
Fixpoint count_active (info : gmap string MemberDetails) (keys : list (string * Pem)) (n : N) : result N :=
  match keys with
  | [] => Ok n
  | (k, _) :: keys =>
      match info !! k with
      | None => error "Recovery member has no information"
      | Some d => count_active info keys (if decide (status d = ACTIVE) then n + 1 else n)
      end
  end.
Definition getActiveRecoveryMembersCount (t : Tables) : result N := count_active (member_info t) (map_to_list (member_encryption_public_keys t)) 0.

Definition checkRecoveryThreshold (c : ServiceConfiguration) (args : ConfigArgs) (t : Tables) : result unit :=
  match new_recovery_threshold args with
  | None => Ok tt
  | Some to =>
      if to =? recovery_threshold c then Ok tt
      else
        match service t with
        | None => error "Service information could not be found"
        | Some s =>
            match service_status s with
            | WAITING_FOR_RECOVERY_SHARES => error "Cannot set recovery threshold if service is WaitingForRecoveryShares"
            | OPEN => n <~ getActiveRecoveryMembersCount t ;;; if n <? to then error "Cannot set recovery threshold" else Ok tt
            | _ => Ok tt
            end
        end
  end.

Definition checkReconfigurationType (c : ServiceConfiguration) (args : ConfigArgs) : result unit :=
  match new_reconfiguration_type args with
  | None => Ok tt
  | Some to =>
      if decide (reconfiguration_type c = Some to) then Ok tt
      else if decide (reconfiguration_type c <> Some TWO_TRANSACTION /\ to = TWO_TRANSACTION) then Ok tt
      else error "Cannot change reconfiguration type"
  end.

Section constitution.
Context `{ShareCrypto} `{NodeRest}.
Variable tries : nat.
Variable store_order : gmap string bytes -> list (string * bytes).
(** The bindings to certificates: [pemToId] and [isValidX509CertBundle]. *)
Variable pemToId : string -> result string.
Variable isValidX509CertBundle : string -> bool.

Definition checkX509CertBundle (value : string) : result unit :=
  if isValidX509CertBundle value then Ok tt else error "must be a valid X509 certificate (bundle) in PEM format".

Definition validate_action (a : Action) (t : Tables) : result unit :=
  match a with
  | set_member m =>
      _ <~ checkX509CertBundle (nm_cert m) ;;;
      match encryption_pub_key m, nm_recovery_role m with
      | None, Some _ => error "Cannot specify a recovery_role value when encryption_pub_key is not specified"
      | _, _ => Ok tt
      end
  | remove_member id | set_member_data id _ => checkEntityId id
  | set_user u => checkX509CertBundle (nu_cert u)
  | remove_user id | set_user_data id _ => checkEntityId id
  | set_recovery_threshold threshold => checkBounds (Some threshold) 1 254
  | trigger_recovery_shares_refresh | trigger_ledger_rekey | trigger_ledger_chunk | trigger_snapshot => Ok tt
  | transition_service_to_open previous next =>
      _ <~ checkX509CertBundle next ;;;
      match previous with None => Ok tt | Some p => checkX509CertBundle p end
  | set_service_configuration args =>
      _ <~ checkBounds (new_recovery_threshold args) 1 254 ;;;
      checkBounds (new_recent_cose_proposals_window_size args) 1 10000
  | assert_service_identity identity =>
      _ <~ checkX509CertBundle identity ;;;
      match service t with
      | None => error "Service information could not be found"
      | Some s => if decide (cert s <> identity) then error "Service identity certificate mismatch" else Ok tt
      end
  | transition_node_to_trusted node_id _ validity_period_days =>
      _ <~ checkEntityId node_id ;;;
      match validity_period_days with Some d => if d <? 1 then error "must be greater" else Ok tt | None => Ok tt end
  | remove_node node_id => checkEntityId node_id
  end.

(** ** Applying an action *)

(** [ccf.node.triggerLedgerRekey] *)
Definition triggerLedgerRekey : M World unit :=
  ok <- rekey_ledger tries ;;; if ok : bool then ret tt else throw (LogicError "Could not rekey ledger").

Definition updateServiceConfig (args : ConfigArgs) : M World unit :=
  w <- gets id ;;;
  match config (tables w) with
  | None => throw (LogicError "Service configuration could not be found")
  | Some c =>
      lift (checkReconfigurationType c args) ;;;
      lift (checkRecoveryThreshold c args (tables w)) ;;;
      let threshold := default (recovery_threshold c) (new_recovery_threshold args) in
      let c' := mkConfiguration threshold (consensus c) (maximum_node_certificate_validity_days c) (maximum_service_certificate_validity_days c)
        (match new_reconfiguration_type args with Some r => Some r | None => reconfiguration_type c end)
        (match new_recent_cose_proposals_window_size args with Some n => Some n | None => recent_cose_proposals_window_size c end) in
      on_tables (modify (set_config (Some c'))) ;;;
      when (negb (threshold =? recovery_threshold c)) (NodeRecovery.trigger_recovery_shares_refresh tries)
  end.

(** [set] of a table with a key and no value is refused. *)
Definition set_ack (id : string) (t : Tables) : M Tables unit :=
  match signed_root t with
  | None => throw (LogicError "Passed 1 arguments, but expected 2")
  | Some root => modify (set_member_acks <[id := root]>)
  end.

(** A member that is there already is overwritten. *)
Definition apply_set_member (m : NewMember) : M World unit :=
  w <- gets id ;;;
  id <- lift (pemToId (nm_cert m)) ;;;
  on_tables (modify (set_member_certs <[id := nm_cert m]>)) ;;;
  on_tables (modify (set_member_keys (match encryption_pub_key m with None => delete id | Some pem => <[id := pem]> end))) ;;;
  on_tables (modify (set_member_info <[id := mkMember ACCEPTED (nm_data m) (nm_recovery_role m)]>)) ;;;
  on_tables (set_ack id (tables w)).

(** The members that are left after one is removed are enough. *)
Definition check_remaining (t : Tables) : result unit :=
  match config t with
  | None => error "Service configuration could not be found"
  | Some c => n <~ getActiveRecoveryMembersCount t ;;; if n <? recovery_threshold c + 1 then error "Number of active recovery members would be less than recovery threshold" else Ok tt
  end.
Definition delete_member (id : string) (t : Tables) : Tables :=
  set_gov_history (delete id) (set_member_acks (delete id) (set_member_certs (delete id) (set_member_keys (delete id) (set_member_info (delete id) t)))).

Definition apply_remove_member (id : string) : M World unit :=
  w <- gets Datatypes.id ;;;
  match member_info (tables w) !! id with
  | None => ret tt
  | Some d =>
      let recovery := bool_decide (status d = ACTIVE) && bool_decide (is_Some (member_encryption_public_keys (tables w) !! id)) in
      lift (if recovery then check_remaining (tables w) else Ok tt) ;;;
      on_tables (modify (delete_member id)) ;;;
      when recovery triggerLedgerRekey
  end.

Definition apply_transition (previous : option string) (next : string) : M World unit :=
  w <- gets id ;;;
  match service (tables w) with
  | None => throw (LogicError "Service information could not be found")
  | Some s =>
      if decide (service_status s = RECOVERING /\ previous = None) then throw (LogicError "Opening a recovering network requires both, the previous and the next service identity")
      else NodeRecovery.transition_service_to_open tries previous next
  end.

(** The certificate of a node that is trusted is endorsed; the table it is written
    to is not part of the model. *)
Definition endorse_node (c : ServiceConfiguration) (valid_from : string) (validity_period_days : option N) (ni : NodeInfo) : result unit :=
  match certificate_signing_request (node_rest ni) with
  | None => Ok tt
  | Some csr =>
      let max_allowed_cert_validity_period_days := default 365 (maximum_node_certificate_validity_days c) in
      if (match validity_period_days with Some d => max_allowed_cert_validity_period_days <? d | None => false end) then error "Validity period is not allowed"
      else _ <~ generateEndorsedCertificate csr valid_from (default max_allowed_cert_validity_period_days validity_period_days) ;;; Ok tt
  end.
Definition apply_trust_node (node_id valid_from : string) (validity_period_days : option N) : M World unit :=
  w <- gets id ;;;
  match config (tables w), nodes (tables w) !! node_id with
  | None, _ => throw (LogicError "Service configuration could not be found")
  | Some _, None => throw (LogicError "No such node")
  | Some c, Some ni =>
      if decide (node_status ni = PENDING) then
        latest <- on_secrets LedgerSecrets.get_latest ;;;
        on_tables (add_node node_id (mkNode TRUSTED (node_encryption_pub_key ni) (Some latest.1) (retired_committed ni) (node_rest ni))) ;;;
        node_shuffle_sealed_shares tries ;;;
        lift (endorse_node c valid_from validity_period_days ni)
      else ret tt
  end.
(** A node that is pending is forgotten, another is retired. *)
Definition apply_remove_node (node_id : string) : M World unit :=
  w <- gets id ;;;
  match config (tables w), nodes (tables w) !! node_id with
  | None, _ => throw (LogicError "Service configuration could not be found")
  | Some _, None => ret tt
  | Some _, Some ni => on_tables (modify (set_nodes (if decide (node_status ni = PENDING) then delete node_id else <[node_id := retire ni]>)))
  end.

Definition apply_action (a : Action) : M World unit :=
  match a with
  | set_member m => apply_set_member m
  | remove_member id => apply_remove_member id
  | set_member_data id data =>
      w <- gets Datatypes.id ;;;
      match member_info (tables w) !! id with
      | None => throw (LogicError "Member does not exist")
      | Some d => on_tables (modify (set_member_info <[id := mkMember (status d) data (recovery_role d)]>))
      end
  | set_user u =>
      id <- lift (pemToId (nu_cert u)) ;;;
      on_tables (modify (set_user_certs <[id := nu_cert u]>)) ;;;
      on_tables (modify (set_user_info (match user_data u with None => delete id | Some d => <[id := d]> end)))
  | remove_user id => on_tables (modify (set_user_certs (delete id))) ;;; on_tables (modify (set_user_info (delete id)))
  | set_user_data id data => on_tables (modify (set_user_info (match data with None => delete id | Some d => <[id := d]> end)))
  | set_recovery_threshold threshold => updateServiceConfig (mkConfigArgs None (Some threshold) None)
  | trigger_recovery_shares_refresh => NodeRecovery.trigger_recovery_shares_refresh tries
  | trigger_ledger_rekey => triggerLedgerRekey
  | transition_service_to_open previous next => apply_transition previous next
  | set_service_configuration args => updateServiceConfig args
  | trigger_ledger_chunk => NodeRecovery.trigger_ledger_chunk
  | trigger_snapshot => NodeRecovery.trigger_snapshot
  | assert_service_identity _ => ret tt
  | transition_node_to_trusted node_id valid_from validity_period_days => apply_trust_node node_id valid_from validity_period_days
  | remove_node node_id => apply_remove_node node_id
  end.

(** ** Proposals *)

(** Whether every action of a proposal is valid. *)
Definition validate (proposal : list Action) (t : Tables) : bool :=
  forallb (fun a => match validate_action a t with Ok _ => true | Throw _ => false end) proposal.
Definition apply (proposal : list Action) : M World unit := for_each apply_action proposal.

(** A majority of the active members accepts a proposal. *)
Inductive ProposalState := Accepted | Open.
Definition resolve (votes : list bool) (t : Tables) : ProposalState :=
  let memberVoteCount := N.of_nat (length (filter Is_true votes)) in
  let activeMemberCount := N.of_nat (size (filter (fun p => status p.2 = ACTIVE) (member_info t))) in
  if activeMemberCount / 2 <? memberVoteCount then Accepted else Open.
End constitution.
End Constitution.
