(* ===== verification/ShareManagerSpec.v ===== *)
(** * Recovery shares: proofs

    What the shares that have been issued are good for. *)

From S2P Require Import Prelude ViewHistory TxStatus LedgerEntries LedgerSecrets Sharing SharingSpec Encryptor EncryptorSpec GovTables GovTablesSpec ShareManager.
From Stdlib Require Import Init.Byte Strings.Byte.

Module ShareManagerSpec.
Import OrderedMap LedgerSecrets Encryptor EncryptorSpec Sharing SharingSpec GovTables GovTablesSpec ShareManager.
Open Scope N_scope.

(** What is relied on of the cryptography: keys and IVs have the length asked
    for, of any [tries] numbers drawn one is an element of the field, RSA keys (of
    2048 bits) encrypt up to 190 bytes, the private key decrypts it and can be
    written and read, and the service can sign. *)
Class ShareCryptoLaws `{ShareCrypto} (tries : nat) (rsa_key : string -> Prop) : Prop := {
  share_gcm_laws :: AesGcmLaws;
  length_hkdf n ikm salt info : length (share_hkdf n ikm salt info) = N.to_nat n;
  length_random_iv n : length (random_iv n) = 12%nat;
  length_random_key n : length (random_key n) = 32%nat;
  entropy n : exists i, (i < tries)%nat /\ N.land (random64 (n + N.of_nat i)) prime <> prime;
  rsa_wraps n pub b : rsa_key pub -> (length b <= 190)%nat -> exists e, rsa_oaep_wrap n pub b = Ok e;
  rsa_unwraps n pub b e : rsa_key pub -> rsa_oaep_wrap n pub b = Ok e -> rsa_oaep_unwrap pub e = Some b;
  new_rsa_key n : rsa_key (new_rsa_key_pair n);
  rsa_of_private pub : rsa_key pub -> rsa_key_pair_of (private_key_pem pub) = Ok pub;
  private_pem_nonempty pub : rsa_key pub -> private_key_pem pub <> [];
  cose_signs n k from to root key : is_Some (cose_sign_endorsement n k from to root key);
}.

Section spec.
Context `{SC : ShareCrypto} (tries : nat) (rsa_key : string -> Prop).
Context `{SL : !ShareCryptoLaws tries rsa_key}.

Lemma rsa_wraps_share n pub b : rsa_key pub -> N.of_nat (length b) = Sharing.serialised_size -> exists e, rsa_oaep_wrap n pub b = Ok e.
Proof. intros Hp Hb. apply rsa_wraps; [done|]. change (N.of_nat (length b) = 44) in Hb. lia. Qed.

(** ** Keys *)

(** A key of the length all keys are made with. *)
Definition key_ok (raw : bytes) : Prop := length raw = 32%nat.

Lemma make_key_ok raw : key_ok raw -> exists k, make_key_aes_gcm raw = Ok k.
Proof.
  unfold key_ok, make_key_aes_gcm. intros Hl. destruct (N.leb_spec 256 (N.of_nat (length raw) * 8)); [by eexists|].
  destruct (N.leb_spec 192 (N.of_nat (length raw) * 8)); [by eexists|]. destruct (N.leb_spec 128 (N.of_nat (length raw) * 8)); [by eexists|lia].
Qed.

Lemma make_secret_ok raw stored : key_ok raw -> make_secret raw stored = Ok (mkLedgerSecret raw stored).
Proof. intros Hk. unfold make_secret. by destruct (make_key_ok raw Hk) as [k ->]. Qed.

(** Encrypted with a key and serialised, and back. *)
Lemma seal_round_trip k i plain c t : length i = 12%nat -> key_encrypt k i plain [] = Ok (c, t) ->
  cipher_deserialise (cipher_serialise (mkGcmCipher (mkGcmHeader t i) c)) = Ok (mkGcmCipher (mkGcmHeader t i) c) /\ key_decrypt k i t c [] = Some plain.
Proof. intros Hi He. destruct (key_round_trip _ _ _ _ _ _ He) as (_ & Ht & Hd). split; [|done]. by apply cipher_round_trip. Qed.

Lemma key_encrypt_ok k i plain : plain <> [] -> exists c t, key_encrypt k i plain [] = Ok (c, t).
Proof. intros Hp. unfold key_encrypt. rewrite (bool_decide_false (plain = [])) by done. rewrite andb_false_r. by eexists _, _. Qed.

Lemma key_ok_nonempty raw : key_ok raw -> raw <> [].
Proof. unfold key_ok. intros Hk ->. cbn in Hk. lia. Qed.

Lemma seal_with_ok ls plain w : key_ok (raw_key ls) -> plain <> [] -> exists b, seal_with ls plain w = (Ok b, set_drawn (drawn w + 1) w) /\
  decrypt_previous_ledger_secret_raw ls b = Ok plain /\ decrypt_submitted_share b ls = Ok plain.
Proof.
  intros Hk Hp. destruct (make_key_ok _ Hk) as [k Ek]. destruct (key_encrypt_ok k (random_iv (drawn w)) plain Hp) as (c & t & E).
  destruct (seal_round_trip _ _ _ _ _ (length_random_iv (drawn w)) E) as [H1 H2].
  unfold seal_with, draw_with, decrypt_previous_ledger_secret_raw, decrypt_submitted_share, bind, gets, id, modify, ret, lift. rewrite Ek, E. cbn [fst snd].
  eexists. split; [done|]. rewrite H1. cbn [rbind hdr iv tag cipher]. by rewrite H2.
Qed.

(** ** Wrapping *)

Lemma wrap_ok wk ls : has_wrapped wk = false -> sh_x (wk_secret wk) = 0 -> key_ok (raw_key ls) ->
  exists b wk', wrap wk ls = Ok (b, wk') /\ wk_secret wk' = wk_secret wk /\ wk_shares wk' = wk_shares wk /\
    unwrap (wk_secret wk) b = Ok (mkLedgerSecret (raw_key ls) None).
Proof.
  intros Hw Hx Hk. unfold wrap, unwrap, key. rewrite Hw, Hx. cbn [negb N.eqb rbind].
  set (ikm := concat _). destruct (make_key_ok (share_hkdf KZ_KEY_SIZE ikm [] ikm)) as [k Ek]; [unfold key_ok; rewrite length_hkdf; vm_compute; lia|].
  destruct (key_encrypt_ok k (iv new_header) (raw_key ls) (key_ok_nonempty _ Hk)) as (c & t & E). rewrite Ek. cbn [rbind]. rewrite E. cbn [rbind fst snd].
  destruct (seal_round_trip k (iv new_header) (raw_key ls) c t eq_refl E) as [H1 H2]. eexists _, _. split_and!; [done|done|done|]. rewrite H1. cbn [rbind hdr iv tag cipher].
  rewrite H2. by apply make_secret_ok.
Qed.

(** ** Wrapping keys *)

(** The polynomials of a wrapping key. *)
Definition polynomials (threshold : N) (ps : list (list N)) : Prop :=
  length ps = LIMBS /\ Forall (fun p => length p = N.to_nat threshold /\ Forall elem p) ps.

Lemma polynomials_elems threshold ps : polynomials threshold ps -> length ps = LIMBS /\ Forall (Forall elem) ps.
Proof. intros [Hl Hp]. split; [done|]. eapply Forall_impl; [exact Hp|]. by intros p [_ ?]. Qed.

(** The points of the shares. *)
Definition indices (n : nat) : list N := N.of_nat <$> seq 1 n.

Lemma new_wrapping_key_ok n threshold w : 1 <= threshold <= n -> n < prime ->
  exists ps d, new_wrapping_key tries n threshold w = (Ok (mkWrappingKey false n threshold (secret_of ps) (share_of ps <$> indices (N.to_nat n))), set_drawn d w) /\ polynomials threshold ps.
Proof.
  intros Ht Hn. destruct (shares_made random64 tries entropy n threshold (drawn w) Ht Hn) as (ps & d & E & Hl & Hp). exists ps, d. split; [|by split].
  unfold new_wrapping_key, bind, on_drawn. rewrite E. done.
Qed.

(** The bytes of a share. *)
Definition share_bytes (s : Share) : bytes := (le_split 4 (sh_x s) ++ concat (le_split 4 <$> sh_y s))%list.

Lemma serialise_bytes s : serialise s Sharing.serialised_size = Ok (share_bytes s).
Proof. done. Qed.

Lemma share_bytes_ok s : share_ok s -> N.of_nat (length (share_bytes s)) = Sharing.serialised_size /\ deserialise (share_bytes s) = Ok s.
Proof. intros Hs. destruct (serialise_round_trip s Hs) as (b & E & H1 & H2). rewrite serialise_bytes in E. by injection E as <-. Qed.

Lemma serialise_all_ok l : serialise_all l = Ok (share_bytes <$> l).
Proof. induction l as [|s l IH]; [done|]. cbn [serialise_all]. rewrite serialise_bytes, IH. done. Qed.

(** ** Encrypted shares *)

(** The holder of a key finds [b] at their identifier. *)
Definition finds (m : gmap string bytes) (id pem : string) (b : bytes) : Prop := exists e, m !! id = Some e /\ rsa_oaep_unwrap pem e = Some b.

Lemma wrap_shares_ok members shares acc w : NoDup members.*1 -> (length members <= length shares)%nat -> Forall (fun p => rsa_key p.2) members ->
  Forall (fun b => N.of_nat (length b) = Sharing.serialised_size) shares ->
  exists m d, wrap_shares members shares acc w = (Ok m, set_drawn d w) /\
    (forall i id pem b, members !! i = Some (id, pem) -> shares !! i = Some b -> finds m id pem b) /\ (forall id, id ∉ members.*1 -> m !! id = acc !! id).
Proof.
  revert shares acc w. induction members as [|[id pem] members IH]; intros shares acc w Hnd Hlen Hkeys Hshares; cbn [wrap_shares].
  - exists acc, (drawn w). split_and!; [by destruct w|done|done].
  - destruct shares as [|b shares]; [cbn in Hlen; lia|]. rewrite fmap_cons in Hnd. apply NoDup_cons in Hnd as [Hid Hnd]. apply Forall_cons in Hkeys as [Hkey Hkeys], Hshares as [Hb Hshares]. cbn in Hid, Hkey, Hlen.
    destruct (rsa_wraps_share (drawn w) pem b Hkey Hb) as [c Hc]. unfold draw_with, bind at 1 2 3 4, gets, Datatypes.id, modify, ret, lift. rewrite Hc. cbn [fst snd].
    destruct (IH shares (<[id := c]> acc) (set_drawn (drawn w + 1) w) Hnd ltac:(lia) Hkeys Hshares) as (m & d & E & H1 & H2). exists m, d. split_and!; [exact E| |].
    + intros [|i] id' pem' b' Hi Hs; cbn in Hi, Hs.
      * injection Hi as <- <-. injection Hs as <-. exists c. rewrite H2, lookup_insert_eq by done. split; [done|]. by eapply rsa_unwraps.
      * by apply (H1 i).
    + intros id' Hn. rewrite fmap_cons, not_elem_of_cons in Hn. destruct Hn as [Hne Hn]. rewrite H2 by done. by rewrite lookup_insert_ne.
Qed.

Lemma wrap_for_all_ok ids b acc w : NoDup ids.*1 -> Forall (fun p => rsa_key p.2) ids -> N.of_nat (length b) = Sharing.serialised_size ->
  exists m d, wrap_for_all ids b acc w = (Ok m, set_drawn d w) /\ (forall id pem, (id, pem) ∈ ids -> finds m id pem b) /\ (forall id, id ∉ ids.*1 -> m !! id = acc !! id).
Proof.
  revert acc w. induction ids as [|[id pem] ids IH]; intros acc w Hnd Hkeys Hb; cbn [wrap_for_all].
  - exists acc, (drawn w). split_and!; [by destruct w|by intros ?? ?%elem_of_nil|done].
  - rewrite fmap_cons in Hnd. apply NoDup_cons in Hnd as [Hid Hnd]. apply Forall_cons in Hkeys as [Hkey Hkeys]. cbn in Hid, Hkey.
    destruct (rsa_wraps_share (drawn w) pem b Hkey Hb) as [c Hc]. unfold draw_with, bind at 1 2 3 4, gets, Datatypes.id, modify, ret, lift. rewrite Hc. cbn [fst snd].
    destruct (IH (<[id := c]> acc) (set_drawn (drawn w + 1) w) Hnd Hkeys Hb) as (m & d & E & H1 & H2). exists m, d. split_and!; [exact E| |].
    + intros id' pem' [[= -> ->]|Hin]%elem_of_cons; [|by apply H1]. exists c. rewrite H2, lookup_insert_eq by done. split; [done|]. by eapply rsa_unwraps.
    + intros id' Hn. rewrite fmap_cons, not_elem_of_cons in Hn. destruct Hn as [Hne Hn]. rewrite H2 by done. by rewrite lookup_insert_ne.
Qed.

(** Each participant has the share of their position, each owner the secret. *)
Definition holds_shares (ps : list (list N)) (p o : gmap string string) (m : gmap string bytes) : Prop :=
  (forall i id pem, by_name p !! i = Some (id, pem) -> finds m id pem (share_bytes (share_of ps (N.of_nat (S i))))) /\
  (forall id pem, o !! id = Some pem -> finds m id pem (share_bytes (secret_of ps))).

Lemma by_name_keys (m : gmap string string) : NoDup (by_name m).*1.
Proof. rewrite by_name_permutation. apply NoDup_fst_map_to_list. Qed.

Lemma length_by_name (m : gmap string string) : length (by_name m) = size m.
Proof. by rewrite by_name_permutation, length_map_to_list. Qed.

(** The keys of recovery members are RSA keys. *)
Definition keys_usable (t : Tables) : Prop := forall id pem, member_encryption_public_keys t !! id = Some pem -> rsa_key pem.

Lemma usable_in_role role t : keys_usable t -> Forall (fun p => rsa_key p.2) (by_name (in_role role t)).
Proof. intros Hu. apply Forall_forall. intros [id pem] [Hk _]%elem_of_by_name%in_role_lookup. by eapply Hu. Qed.

Lemma compute_encrypted_shares_ok wk threshold ps w n : keys_have_info (tables w) -> keys_usable (tables w) -> polynomials threshold ps ->
  wk_secret wk = secret_of ps -> wk_shares wk = share_of ps <$> indices n -> (size (participants (tables w)) <= n)%nat -> N.of_nat n < prime ->
  exists m d, compute_encrypted_shares wk w = (Ok m, set_drawn d w) /\ holds_shares ps (participants (tables w)) (owners (tables w)) m.
Proof.
  intros Hk Hu Hps Hsec Hsh Hn Hp. destruct (polynomials_elems _ _ Hps) as [Hl He]. set (P := participants (tables w)) in *. set (O := owners (tables w)).
  unfold compute_encrypted_shares, get_shares. rewrite serialise_all_ok, Hsh. unfold bind at 1, lift at 1. unfold bind at 1, gets, id. rewrite participants_ok by done. unfold bind at 1, lift at 1. fold P.
  assert (forall x, x ∈ indices n -> x < 2 ^ 32) as Hidx. { intros x (j & -> & Hj%elem_of_seq)%list_elem_of_fmap. unfold prime in *. lia. }
  destruct (wrap_shares_ok (by_name P) (share_bytes <$> (share_of ps <$> indices n)) ∅ w) as (m & d & E & H1 & H2).
  { apply by_name_keys. }
  { rewrite length_by_name. unfold indices. rewrite !length_fmap, length_seq. done. }
  { by apply usable_in_role. }
  { apply Forall_fmap, Forall_fmap, Forall_forall. intros x Hx. apply (share_bytes_ok (share_of ps x)), share_of_ok; auto. }
  rewrite (bind_ok _ _ _ _ _ E). rewrite owners_ok by done. unfold bind at 1, lift at 1. fold O.
  assert (forall i id pem, by_name P !! i = Some (id, pem) -> finds m id pem (share_bytes (share_of ps (N.of_nat (S i))))) as H1'.
  { intros i id' pem Hi. apply (H1 i _ _ _ Hi). rewrite !list_lookup_fmap. unfold indices. rewrite list_lookup_fmap, lookup_seq_lt; [done|]. apply lookup_lt_Some in Hi. rewrite length_by_name in Hi. lia. }
  destruct (decide (O = ∅)) as [Ho|Ho].
  - exists m, d. split; [done|]. split; [done|]. intros id' pem Hin. by rewrite Ho in Hin.
  - unfold get_full_share_serialised. rewrite Hsec, serialise_bytes. unfold bind at 1, lift at 1.
    destruct (wrap_for_all_ok (by_name O) (share_bytes (secret_of ps)) m (set_drawn d w)) as (m' & d' & E' & H3 & H4).
    { apply by_name_keys. } { by apply usable_in_role. } { by apply share_bytes_ok, secret_of_ok. }
    exists m', d'. split; [exact E'|]. split; [|intros id' pem Hin; by apply H3, elem_of_by_name].
    intros i id' pem Hi. destruct (H1' i id' pem Hi) as (c & Hc & Hun). exists c. split; [|done]. rewrite H4; [done|].
    intros ([id'' pem'] & -> & Hin%elem_of_by_name)%list_elem_of_fmap. apply list_elem_of_lookup_2 in Hi. apply elem_of_by_name in Hi. by apply (map_disjoint_spec P O) with id'' pem pem'; [apply roles_disjoint|..].
Qed.

(** ** Issuing *)

(** What shares are good for: their holders can get back the ledger secret. *)
Definition good_shares (ls : LedgerSecret) (threshold : N) (p o : gmap string string) (info : RecoverySharesInfo) : Prop :=
  exists ps, polynomials threshold ps /\ unwrap (secret_of ps) (wrapped_latest_ledger_secret info) = Ok (mkLedgerSecret (raw_key ls) None) /\ holds_shares ps p o (encrypted_shares info).

(** There are fewer recovery members than points. *)
Definition few_members (t : Tables) : Prop := N.of_nat (size (participants t)) < prime.

Lemma shares_to_issue_ok p o threshold : enough p o threshold -> exists n, shares_to_issue p o threshold = Ok n /\ threshold <= n /\ N.of_nat (size p) <= n /\ (n = 1 \/ n = N.of_nat (size p)).
Proof.
  intros [H1 H2]. unfold shares_to_issue. rewrite decide_False by naive_solver. destruct (N.eqb_spec threshold 0); [lia|]. destruct H2 as [[Hp H2]|(-> & Ho & ->)].
  - rewrite decide_True by done. destruct (N.ltb_spec (N.of_nat (size p)) threshold); [lia|]. eexists. split_and!; [done|done|done|by right].
  - rewrite decide_False by tauto. cbn. eexists. split_and!; [done|done|done|by left].
Qed.

Lemma shuffle_ok ls w : keys_have_info (tables w) -> keys_usable (tables w) -> few_members (tables w) -> recoverable (tables w) -> key_ok (raw_key ls) ->
  exists info d c, shuffle_recovery_shares_of tries ls w = (Ok tt, set_recovery_shares (Some info) (set_drawn d w)) /\
    config (tables w) = Some c /\ good_shares ls (recovery_threshold c) (participants (tables w)) (owners (tables w)) info.
Proof.
  intros Hk Hu Hf (c & Hc & He) Hls. unfold shuffle_recovery_shares_of. unfold bind at 1, gets at 1, id. rewrite participants_ok, owners_ok by done. unfold bind at 1, lift at 1. unfold bind at 1, lift at 1.
  unfold get_recovery_threshold. rewrite Hc. unfold bind at 1, lift at 1. destruct (shares_to_issue_ok _ _ _ He) as (n & Hn & Htn & Hpn & Hcase). rewrite Hn. unfold bind at 1, lift at 1.
  assert (n < prime) as Hlt by (destruct Hcase as [->|Hcase]; [done|unfold few_members in Hf; lia]). pose proof (proj1 He) as H1.
  destruct (new_wrapping_key_ok n (recovery_threshold c) w) as (ps & d & E & Hps); [lia|done|]. rewrite (bind_ok _ _ _ _ _ E).
  destruct (wrap_ok (mkWrappingKey false n (recovery_threshold c) (secret_of ps) (share_of ps <$> indices (N.to_nat n))) ls) as (b & wk & Ew & Hs & Hsh & Hun); [done|done|done|].
  rewrite Ew. unfold bind at 1, lift at 1. cbn [fst snd].
  destruct (compute_encrypted_shares_ok wk (recovery_threshold c) ps (set_drawn d w) (N.to_nat n)) as (m & d' & Em & Hm); [done|done|done|done|done|change (tables (set_drawn d w)) with (tables w); lia|lia|].
  rewrite (bind_ok _ _ _ _ _ Em). eexists (mkSharesInfo b m _), d', c. split_and!; [done|done|]. by exists ps.
Qed.

(** The nodes that seal have RSA keys. *)
Definition sealing_usable (w : World) : Prop := forall id k, sealed_recovery_keys w !! id = Some k -> rsa_key (pubkey k).

(** What sealed shares are good for: a trusted node that seals can get back the ledger secret. *)
Definition good_sealed (ls : LedgerSecret) (t : Tables) (keys : gmap string SealedRecoveryKey) (info : RecoverySharesInfo) : Prop :=
  exists ps, polynomials 1 ps /\ unwrap (secret_of ps) (wrapped_latest_ledger_secret info) = Ok (mkLedgerSecret (raw_key ls) None) /\
    forall id ni k, get_trusted_nodes t !! id = Some ni -> keys !! id = Some k -> finds (encrypted_shares info) id (pubkey k) (share_bytes (secret_of ps)).

Lemma omap_keys {A} (f : string -> option string) (l : list (string * A)) : NoDup l.*1 -> NoDup (omap (fun '(id, _) => (fun k => (id, k)) <$> f id) l).*1.
Proof.
  induction l as [|[id a] l IH]; intros Hnd; [constructor|]. rewrite fmap_cons in Hnd. apply NoDup_cons in Hnd as [Hid Hnd]. cbn [omap list_omap]. destruct (f id) as [k|]; cbn; [|by apply IH].
  apply NoDup_cons. split; [|by apply IH]. intros (p & Hp & Hin)%list_elem_of_fmap. apply list_elem_of_omap in Hin as ([id' a'] & Hin & Hf). destruct (f id'); [|done]. cbn in Hf. injection Hf as <-. cbn in Hp. subst id'.
  apply Hid. apply list_elem_of_fmap. by exists (id, a').
Qed.

(** The nodes the secret is sealed for. *)
Definition sealers (w : World) : list (string * string) :=
  omap (fun '(id, _) => (fun k => (id, pubkey k)) <$> sealed_recovery_keys w !! id) (by_name (get_trusted_nodes (tables w))).

Lemma sealers_ok w : sealing_usable w -> NoDup (sealers w).*1 /\ Forall (fun p => rsa_key p.2) (sealers w) /\
  forall id ni k, get_trusted_nodes (tables w) !! id = Some ni -> sealed_recovery_keys w !! id = Some k -> (id, pubkey k) ∈ sealers w.
Proof.
  intros Hu. assert (sealers w = omap (fun '(id, _) => (fun k => (id, k)) <$> (pubkey <$> sealed_recovery_keys w !! id)) (by_name (get_trusted_nodes (tables w)))) as E.
  { unfold sealers. induction (by_name _) as [|[id ni] l IH]; [done|]. cbn [omap list_omap]. rewrite IH. by destruct (sealed_recovery_keys w !! id). }
  split_and!.
  - rewrite E. apply (omap_keys (fun id => pubkey <$> sealed_recovery_keys w !! id)). rewrite by_name_permutation. apply NoDup_fst_map_to_list.
  - apply Forall_forall. intros p ([id' a] & _ & Hf)%list_elem_of_omap. destruct (sealed_recovery_keys w !! id') as [k|] eqn:Hk; [|done]. cbn in Hf. injection Hf as <-. by eapply Hu.
  - intros id' ni k Hni Hk. apply list_elem_of_omap. exists (id', ni). split; [by apply elem_of_by_name|]. by rewrite Hk.
Qed.

Lemma sealed_ok ls w : sealing_usable w -> key_ok (raw_key ls) ->
  exists info d, shuffle_sealed_shares tries ls w = (Ok tt, set_sealed_shares (Some info) (set_drawn d w)) /\ good_sealed ls (tables w) (sealed_recovery_keys w) info.
Proof.
  intros Hu Hls. unfold shuffle_sealed_shares. destruct (new_wrapping_key_ok 1 1 w) as (ps & d & E & Hps); [lia|done|]. rewrite (bind_ok _ _ _ _ _ E).
  destruct (wrap_ok (mkWrappingKey false 1 1 (secret_of ps) (share_of ps <$> indices (N.to_nat 1))) ls) as (b & wk & Ew & Hs & Hsh & Hun); [done|done|done|].
  rewrite Ew. unfold bind at 1, lift at 1. cbn [fst snd]. cbn [wk_secret] in Hs. destruct (sealers_ok w Hu) as (H1 & H2 & H3).
  destruct (polynomials_elems _ _ Hps) as [Hl He]. destruct (wrap_for_all_ok (sealers w) (share_bytes (secret_of ps)) ∅ (set_drawn d w) H1 H2) as (m & d' & Em & Hm & _); [by apply share_bytes_ok, secret_of_ok|].
  assert (compute_encrypted_sealed_shares wk (set_drawn d w) = (Ok m, set_drawn d' w)) as Ec.
  { unfold compute_encrypted_sealed_shares. unfold bind at 1, gets, id. unfold get_full_share_serialised. rewrite Hs, serialise_bytes. unfold bind at 1, lift at 1. exact Em. }
  rewrite (bind_ok _ _ _ _ _ Ec). eexists (mkSharesInfo b m _), d'. split; [done|]. exists ps. split_and!; [done|done|]. intros id' ni k Hni Hk. by apply Hm, (H3 id' ni).
Qed.
End spec.
End ShareManagerSpec.
