(* ===== verification/RecoverySpec.v ===== *)
(** * Disaster recovery: proofs

    The past ledger secrets form a chain in the ledger, each encrypted with the
    next; enough shares, submitted by members, give all of them back. *)

From S2P Require Import Prelude ViewHistory TxStatus LedgerEntries LedgerSecrets LedgerSecretsSpec Sharing SharingSpec Encryptor EncryptorSpec GovTables GovTablesSpec ShareManager ShareManagerSpec.
From Stdlib Require Import Init.Byte Strings.Byte.

Module RecoverySpec.
Import OrderedMap LedgerSecrets Encryptor EncryptorSpec Sharing SharingSpec GovTables GovTablesSpec ShareManager ShareManagerSpec.
Open Scope N_scope.

Section recovery.
Context `{SC : ShareCrypto} (tries : nat) (rsa_key : string -> Prop).
Context `{SL : !ShareCryptoLaws tries rsa_key}.

(** ** The chain of past secrets *)

(** The entry holds the secret of version [v], encrypted with [latest]. *)
Definition encrypts (latest prev : LedgerSecret) (v : N) (e : EncryptedLedgerSecretInfo) : Prop :=
  exists p, previous_ledger_secret e = Some p /\ prev_version p = v /\ decrypt_previous_ledger_secret_raw latest (encrypted_data p) = Ok (raw_key prev).

(** The entries a recovery collects, for the secrets of the service: the first
    secret has no past, a new secret encrypts the one before, and shares may be
    issued again for the latest secret. *)
Inductive chain : list EncryptedLedgerSecretInfo -> list (N * LedgerSecret) -> Prop :=
| chain_first e v ls : previous_ledger_secret e = None -> next_version e = Some v -> chain [e] [(v, ls)]
| chain_first_again log e v ls : chain log [(v, ls)] -> previous_ledger_secret e = None -> next_version e = Some v -> chain (log ++ [e]) [(v, ls)]
| chain_next log e l v0 l0 v ls : chain log (l ++ [(v0, l0)]) -> encrypts ls l0 v0 e -> next_version e = Some v -> chain (log ++ [e]) (l ++ [(v0, l0); (v, ls)])
| chain_again log e l v0 l0 v ls : chain log (l ++ [(v0, l0); (v, ls)]) -> encrypts ls l0 v0 e -> next_version e = Some v -> chain (log ++ [e]) (l ++ [(v0, l0); (v, ls)]).

Lemma chain_last log s : chain log s -> exists log' e l v ls, log = (log' ++ [e])%list /\ s = (l ++ [(v, ls)])%list /\ next_version e = Some v.
Proof.
  destruct 1 as [e v ls|log e v ls|log e l v0 l0 v ls|log e l v0 l0 v ls].
  - by exists [], e, [], v, ls.
  - by exists log, e, [], v, ls.
  - exists log, e, (l ++ [(v0, l0)])%list, v, ls. by rewrite <- app_assoc.
  - exists log, e, (l ++ [(v0, l0)])%list, v, ls. by rewrite <- app_assoc.
Qed.

(** Versions and keys. *)
Definition plain (s : list (N * LedgerSecret)) : list (N * bytes) := (fun p => (p.1, raw_key p.2)) <$> s.

Lemma plain_keys s : (plain s).*1 = s.*1.
Proof. unfold plain. rewrite <- list_fmap_compose. by apply list_fmap_ext. Qed.

(** The secrets from [v] on have been restored; [extra] come after them. *)
Definition restored_from (v : N) (s : list (N * LedgerSecret)) (extra : list N) (ls' : LedgerSecret) (r : list (N * LedgerSecret)) : Prop :=
  exists r', r = (v, ls') :: r' /\ r'.*1 = (s.*1 ++ extra)%list.

Lemma find_restored v s extra ls' r u : ordered r -> restored_from v s extra ls' r -> u = v \/ u ∈ s.*1 -> exists x, find u r = Some x.
Proof.
  intros Hr (r' & -> & Hk) [->|Hu].
  - exists ls'. apply elem_find; [done|left].
  - assert (u ∈ r'.*1) as Hin by (rewrite Hk; apply elem_of_app; by left). apply list_elem_of_fmap in Hin as ([u' x] & -> & Hin). exists x. apply elem_find; [done|by right].
Qed.

Lemma restore_one ls' l0 v0 v e log s extra r : restored_from v s extra ls' r -> ordered r -> v0 < v -> encrypts ls' l0 v0 e -> key_ok (raw_key l0) ->
  exists l0', raw_key l0' = raw_key l0 /\ restore_past (e :: log) ls' r = restore_past log l0' ((v0, l0') :: r) /\ ordered ((v0, l0') :: r).
Proof.
  intros (r' & -> & Hk) Hr Hlt (p & Hp & Hv & Hd) Hkey. cbn [restore_past]. rewrite Hp, Hv. pose proof (proj1 (ordered_cons _ _) Hr) as [Hall Hr'].
  assert (Forall (fun q => v0 < q.1) ((v, ls') :: r')) as Hbelow by (constructor; [done|]; eapply Forall_impl; [exact Hall|]; cbn; intros; lia).
  assert (find v0 ((v, ls') :: r') = None) as -> by (apply find_None; eapply Forall_impl; [exact Hbelow|]; cbn; intros; lia).
  rewrite Hd. cbn [rbind]. rewrite make_secret_ok by done. cbn [rbind]. exists (mkLedgerSecret (raw_key l0) (prev_stored_version p)). split_and!; [done| |by apply ordered_cons].
  f_equal. cbn [emplace fst]. destruct (N.ltb_spec v0 v); [done|lia].
Qed.

Lemma encrypts_ext ls ls' l0 v0 e : raw_key ls' = raw_key ls -> encrypts ls l0 v0 e -> encrypts ls' l0 v0 e.
Proof. intros E (p & H1 & H2 & H3). exists p. split_and!; [done|done|]. unfold decrypt_previous_ledger_secret_raw in *. by rewrite E. Qed.

Lemma snoc_split {A} (l1 : list A) a b l c s : (l1 ++ [a; b] = l ++ c :: s)%list -> s = [] /\ c = b /\ l = (l1 ++ [a])%list \/ exists s', s = (s' ++ [b])%list /\ (l1 ++ [a] = l ++ c :: s')%list.
Proof.
  destruct s as [|x s _] using rev_ind; intros E.
  - left. change [a; b] with ([a] ++ [b])%list in E. rewrite app_assoc in E. apply app_inj_tail in E as [-> ->]. done.
  - right. exists s. change [a; b] with ([a] ++ [b])%list in E. rewrite app_comm_cons, !app_assoc in E. apply app_inj_tail in E as [E ->]. done.
Qed.

(** The secret before the last one. *)
Lemma before_last l v0 l0 v1 ls1 : ordered (l ++ [(v0, l0); (v1, ls1)]) -> Forall (fun p => key_ok (raw_key p.2)) (l ++ [(v0, l0); (v1, ls1)]) ->
  ordered (l ++ [(v0, l0)]) /\ Forall (fun p => key_ok (raw_key p.2)) (l ++ [(v0, l0)]) /\ v0 < v1 /\ key_ok (raw_key l0).
Proof.
  change [(v0, l0); (v1, ls1)] with ([(v0, l0)] ++ [(v1, ls1)])%list. rewrite app_assoc. unfold ordered. rewrite fmap_app. intros (Ho & _ & Hlt)%ssorted_app [Hkeys _]%Forall_app.
  split_and!; [done|done| |].
  - apply Hlt; [rewrite fmap_app; apply elem_of_app; right; left|left].
  - apply Forall_app in Hkeys as [_ Hkeys]. rewrite Forall_singleton in Hkeys. exact Hkeys.
Qed.

(** It has been restored when it is not the next one to be. *)
Lemma found_before l1 v0 l0 l v ls s' p extra ls' r : ordered r -> restored_from v (s' ++ [p]) extra ls' r -> (l1 ++ [(v0, l0)] = l ++ (v, ls) :: s')%list -> exists x, find v0 r = Some x.
Proof.
  intros Hor Hr Hsec. apply (find_restored v (s' ++ [p]) extra ls' r v0 Hor Hr). destruct s' as [|y s' _] using rev_ind.
  - apply app_inj_tail in Hsec as [_ E]. left. congruence.
  - right. rewrite app_comm_cons, app_assoc in Hsec. apply app_inj_tail in Hsec as [_ <-]. rewrite !fmap_app. apply elem_of_app. left. apply elem_of_app. right. left.
Qed.

(** The rest of the log restores what is left. *)
Definition restores (log : list EncryptedLedgerSecretInfo) (l : list (N * LedgerSecret)) (ls' : LedgerSecret) (r : list (N * LedgerSecret)) : Prop :=
  exists l', restore_past (reverse log) ls' r = Ok (l' ++ r)%list /\ plain l' = plain l.

Lemma restores_skip log e v0 l0 ls1 x l ls' r : encrypts ls1 l0 v0 e -> find v0 r = Some x -> restores log l ls' r -> restores (log ++ [e]) l ls' r.
Proof. intros (p & Hp & Hv & _) Hx. unfold restores. rewrite reverse_snoc. cbn [restore_past]. by rewrite Hp, Hv, Hx. Qed.

Lemma restores_step log e v0 l0 v1 s extra l1 ls' r : restored_from v1 s extra ls' r -> ordered r -> v0 < v1 -> encrypts ls' l0 v0 e -> key_ok (raw_key l0) ->
  (forall l0', raw_key l0' = raw_key l0 -> ordered ((v0, l0') :: r) -> restores log l1 l0' ((v0, l0') :: r)) -> restores (log ++ [e]) (l1 ++ [(v0, l0)]) ls' r.
Proof.
  intros Hr Hor Hlt He Hk Hrest. unfold restores. rewrite reverse_snoc. destruct (restore_one ls' l0 v0 v1 e (reverse log) s extra r Hr Hor Hlt He Hk) as (l0' & Hraw0 & E & Hor').
  rewrite E. destruct (Hrest l0' Hraw0 Hor') as (l' & El & Hl). exists (l' ++ [(v0, l0')])%list. split; [by rewrite El, <- app_assoc|]. unfold plain in *. rewrite !fmap_app, Hl. cbn. by rewrite Hraw0.
Qed.

Lemma restored_cons v0 l0' v s extra ls' r : restored_from v s extra ls' r -> restored_from v0 [] (v :: s.*1 ++ extra) l0' ((v0, l0') :: r).
Proof. intros (r' & -> & Hk). eexists. split; [done|]. by rewrite fmap_cons, Hk. Qed.

Lemma restore_chain log sec : chain log sec -> ordered sec -> Forall (fun p => key_ok (raw_key p.2)) sec ->
  forall l v ls s extra ls' r, sec = (l ++ (v, ls) :: s)%list -> raw_key ls' = raw_key ls -> restored_from v s extra ls' r -> ordered r -> restores log l ls' r.
Proof.
  induction 1 as [e v1 ls1 Hp Hn|log e v1 ls1 Hc IH Hp Hn|log e l1 v0 l0 v1 ls1 Hc IH He Hn|log e l1 v0 l0 v1 ls1 Hc IH He Hn];
    intros Hord Hkeys l v ls s extra ls' r Hsec Hraw Hr Hor.
  - destruct l as [|? [|]]; [|done|done]. exists []. split; [|done]. rewrite reverse_singleton. cbn [restore_past]. by rewrite Hp.
  - destruct l as [|? [|]]; [|done|done]. exists []. split; [|done]. rewrite reverse_snoc. cbn [restore_past]. by rewrite Hp.
  - destruct (before_last _ _ _ _ _ Hord Hkeys) as (Hord' & Hkeys' & Hlt & Hk0). apply snoc_split in Hsec as [(-> & E & ->)|(s' & -> & Hsec)].
    + injection E as -> ->. apply (restores_step log e v0 l0 v1 [] extra l1 ls' r Hr Hor Hlt); [by eapply encrypts_ext|done|]. intros l0' Hraw0 Hor'.
      apply (IH Hord' Hkeys' l1 v0 l0 [] (v1 :: extra) l0'); [done|done| |done]. by apply (restored_cons v0 l0' v1 [] extra ls').
    + destruct (found_before _ _ _ _ _ _ _ _ _ _ _ Hor Hr Hsec) as [x Hx]. apply (restores_skip _ _ _ _ _ _ _ _ _ He Hx).
      apply (IH Hord' Hkeys' l v ls s' (v1 :: extra)); [done|done| |done]. destruct Hr as (r' & -> & Hk). exists r'. split; [done|]. rewrite Hk, fmap_app, <- app_assoc. done.
  - destruct (before_last _ _ _ _ _ Hord Hkeys) as (_ & _ & Hlt & Hk0). pose proof Hsec as Hsec0. apply snoc_split in Hsec as [(-> & E & ->)|(s' & -> & Hsec)].
    + injection E as -> ->. apply (restores_step log e v0 l0 v1 [] extra l1 ls' r Hr Hor Hlt); [by eapply encrypts_ext|done|]. intros l0' Hraw0 Hor'.
      apply (IH Hord Hkeys l1 v0 l0 [(v1, ls1)] extra l0'); [done|done| |done]. by destruct Hr as (r' & -> & Hk); eexists; split; [done|]; rewrite fmap_cons, Hk.
    + destruct (found_before _ _ _ _ _ _ _ _ _ _ _ Hor Hr Hsec) as [x Hx]. apply (restores_skip _ _ _ _ _ _ _ _ _ He Hx).
      by apply (IH Hord Hkeys l v ls (s' ++ [(v1, ls1)])%list extra).
Qed.

(** All the secrets, from the latest. *)
Lemma restore_map_ok log sec v ls w : chain log sec -> ordered sec -> Forall (fun p => key_ok (raw_key p.2)) sec -> last sec = Some (v, ls) ->
  exists m, restore_ledger_secrets_map log (mkLedgerSecret (raw_key ls) None) w = (Ok m, w) /\ plain m = plain sec.
Proof.
  intros Hc Hord Hkeys Hlast. destruct (chain_last log sec Hc) as (log' & e & l & v' & ls' & -> & -> & Hn). rewrite last_snoc in Hlast. injection Hlast as -> ->.
  unfold restore_ledger_secrets_map. unfold bind at 1, gets, id. rewrite reverse_snoc, Hn. assert (key_ok (raw_key ls)) as Hk.
  { apply Forall_app in Hkeys as [_ Hkeys]. rewrite Forall_singleton in Hkeys. exact Hkeys. }
  cbn [raw_key]. rewrite make_secret_ok by done. cbn [rbind]. set (l1 := mkLedgerSecret (raw_key ls) (past_written_at w)).
  destruct (restore_chain _ _ Hc Hord Hkeys l v ls [] [] l1 [(v, l1)]) as (m & Em & Hm); [done|done|by exists []|by repeat constructor|].
  exists (m ++ [(v, l1)])%list. split; [rewrite reverse_snoc in Em; unfold lift; by rewrite Em|]. unfold plain in *. by rewrite !fmap_app, Hm.
Qed.

(** ** Submitting shares *)

Lemma latest_ok w v ls : last (ledger_secrets (secrets w)) = Some (v, ls) -> on_secrets get_latest w = (Ok (v, ls), w).
Proof. intros H. unfold on_secrets, get_latest, bind, gets, id, rbegin. rewrite H. by destruct w. Qed.

Lemma submit_ok mid b w v ls : is_Some (service (tables w)) -> last (ledger_secrets (secrets w)) = Some (v, ls) -> key_ok (raw_key ls) -> b <> [] ->
  exists e, submit_recovery_share mid b w = (Ok (N.of_nat (size (<[mid := e]> (submitted_shares w)))), set_submitted_shares (<[mid := e]> (submitted_shares w)) (set_drawn (drawn w + 1) w)) /\ decrypt_submitted_share e ls = Ok b.
Proof.
  intros [sv Hs] Hl Hk Hb. unfold submit_recovery_share. unfold bind at 1, gets at 1, id at 1. rewrite Hs. rewrite (bind_ok _ _ _ _ _ (latest_ok w v ls Hl)).
  destruct (seal_with_ok tries rsa_key ls b w Hk Hb) as (e & E & _ & Hd). cbn [snd]. rewrite (bind_ok _ _ _ _ _ E). by exists e.
Qed.

(** The table of submitted shares after some submissions. *)
Definition holds_submitted (ls : LedgerSecret) (subs : list (string * bytes)) (m : gmap string bytes) : Prop :=
  (forall id e, m !! id = Some e -> exists b, (id, b) ∈ subs /\ decrypt_submitted_share e ls = Ok b) /\ size m = length subs /\ (forall id, id ∈ subs.*1 -> is_Some (m !! id)).

Lemma holds_none ls : holds_submitted ls [] ∅.
Proof. split_and!; [by intros ?? ?|done|by intros ? ?%elem_of_nil]. Qed.

Lemma holds_one_more ls subs m id b e : holds_submitted ls subs m -> id ∉ subs.*1 -> decrypt_submitted_share e ls = Ok b -> holds_submitted ls (subs ++ [(id, b)]) (<[id := e]> m).
Proof.
  intros (H1 & H2 & H3) Hid Hd. assert (m !! id = None) as Hn. { destruct (m !! id) as [x|] eqn:E; [|done]. destruct (H1 id x E) as (b' & Hin & _). destruct Hid. apply list_elem_of_fmap. by exists (id, b'). }
  split_and!.
  - intros id' e' [[<- <-]|[Hne He]]%lookup_insert_Some; [exists b; split; [apply elem_of_app; right; by left|done]|]. destruct (H1 id' e' He) as (b' & Hin & Hd'). exists b'. split; [apply elem_of_app; by left|done].
  - rewrite map_size_insert, Hn, H2, length_app. cbn. lia.
  - intros id'. rewrite fmap_app, elem_of_app. rewrite lookup_insert. case_decide; [done|]. intros [Hin|[->|[]%elem_of_nil]%elem_of_cons]; [by apply H3|done].
Qed.

(** ** Combining shares *)

Lemma collect_shares_ok (Q : string -> Share -> Prop) (L : list (string * bytes)) acc w v ls : last (ledger_secrets (secrets w)) = Some (v, ls) ->
  Forall (fun p => exists s, decrypt_submitted_share p.2 ls = Ok (share_bytes s) /\ share_ok s /\ Q p.1 s) L ->
  exists r, collect_shares L acc w = (Ok r, w) /\
    match r with
    | inl s => sh_x s = 0 /\ exists p, p ∈ L /\ Q p.1 s
    | inr ss => exists ss', ss = (acc ++ ss')%list /\ Forall2 (fun p s => Q p.1 s /\ sh_x s <> 0) L ss'
    end.
Proof.
  intros Hl HL. revert acc. induction HL as [|[mid e] L (s & Hd & Hs & HQ) HL IH]; intros acc; cbn [collect_shares].
  - eexists. split; [done|]. exists []. by rewrite app_nil_r.
  - rewrite (bind_ok _ _ _ _ _ (latest_ok w v ls Hl)). cbn [snd fst] in *. rewrite Hd. unfold bind at 1, lift at 1. destruct (share_bytes_ok s Hs) as [Hlen Hds]. rewrite Hlen, N.eqb_refl, Hds.
    unfold bind at 1, lift at 1. destruct (N.eqb_spec (sh_x s) 0) as [E|E].
    + eexists. split; [done|]. split; [done|]. exists (mid, e). split; [left|done].
    + destruct (IH (acc ++ [s])%list) as (r & Er & Hr). exists r. split; [done|]. destruct r as [s'|ss].
      * destruct Hr as (H0 & p & Hp & HQp). split; [done|]. exists p. split; [by right|done].
      * destruct Hr as (ss' & -> & HF). exists (s :: ss'). split; [by rewrite <- app_assoc|]. by constructor.
Qed.

(** The share of a member. *)
Definition share_at (ps : list (list N)) (p o : gmap string string) (id : string) (s : Share) : Prop :=
  is_Some (o !! id) /\ s = secret_of ps \/ exists i pem, by_name p !! i = Some (id, pem) /\ s = share_of ps (N.of_nat (S i)).

Lemma chosen_distinct ps p o (L : list (string * bytes)) ss : NoDup L.*1 -> Forall2 (fun q s => share_at ps p o q.1 s /\ sh_x s <> 0) L ss -> NoDup ss.
Proof.
  intros Hnd HF. revert Hnd. induction HF as [|q s L ss [Hq Hx] HF IH]; intros Hnd; [constructor|]. rewrite fmap_cons in Hnd. apply NoDup_cons in Hnd as [Hid Hnd].
  apply NoDup_cons. split; [|by apply IH]. intros Hin. apply Hid. apply list_elem_of_lookup in Hin as [j Hj]. destruct (Forall2_lookup_r _ _ _ _ _ HF Hj) as (q' & Hq' & [Hs' _]).
  apply list_elem_of_fmap. exists q'. split; [|by eapply list_elem_of_lookup_2]. destruct Hq as [[_ ->]|(i & pem & Hi & ->)]; [by destruct Hx|]. destruct Hs' as [[_ E]|(i' & pem' & Hi' & E)]; [by apply (f_equal sh_x) in E|].
  apply (f_equal sh_x) in E. cbn in E. assert (i = i') as -> by lia. congruence.
Qed.

(** Shares whose holders have submitted them. *)
Definition submitted (ps : list (list N)) (p o : gmap string string) (ls : LedgerSecret) (m : gmap string bytes) : Prop :=
  forall id e, m !! id = Some e -> exists s, decrypt_submitted_share e ls = Ok (share_bytes s) /\ share_ok s /\ share_at ps p o id s.

Section order.
Variable store_order : gmap string bytes -> list (string * bytes).
Hypothesis store_order_ok : forall m, store_order m ≡ₚ map_to_list m.

Lemma combine_ok w v ls c ps p o : last (ledger_secrets (secrets w)) = Some (v, ls) -> config (tables w) = Some c -> polynomials (recovery_threshold c) ps -> 1 <= recovery_threshold c ->
  p ##ₘ o -> N.of_nat (size p) < prime -> submitted ps p o ls (submitted_shares w) ->
  recovery_threshold c <= N.of_nat (size (submitted_shares w)) \/ (exists id, is_Some (o !! id) /\ is_Some (submitted_shares w !! id)) ->
  combine_from_encrypted_submitted_shares store_order w = (Ok (secret_of ps), w).
Proof.
  intros Hl Hc Hps H1 Hdisj Hsz Hsub Hen. unfold combine_from_encrypted_submitted_shares. unfold bind at 1, gets, id.
  destruct (collect_shares_ok (share_at ps p o) (store_order (submitted_shares w)) [] w v ls Hl) as (r & Er & Hr).
  { apply Forall_forall. intros [mid e] Hin. rewrite store_order_ok in Hin. apply elem_of_map_to_list in Hin. by apply Hsub. }
  rewrite (bind_ok _ _ _ _ _ Er). destruct r as [s|ss].
  - destruct Hr as (H0 & q & Hq & [[_ ->]|(i & pem & _ & ->)]); [done|]. cbn in H0. lia.
  - destruct Hr as (ss' & -> & HF). cbn [app]. rewrite Hc.
    assert (NoDup (store_order (submitted_shares w)).*1) as Hnd by (rewrite store_order_ok; apply NoDup_fst_map_to_list).
    assert (length ss' = size (submitted_shares w)) as Hlen by (rewrite <- (Forall2_length _ _ _ HF), store_order_ok; apply length_map_to_list).
    assert (recovery_threshold c <= N.of_nat (length ss')) as Hthr.
    { destruct Hen as [Hen|(mid & [pem Ho] & [e He])]; [by rewrite Hlen|]. exfalso. assert ((mid, e) ∈ store_order (submitted_shares w)) as Hin by (rewrite store_order_ok; by apply elem_of_map_to_list).
      apply list_elem_of_lookup in Hin as [j Hj]. destruct (Forall2_lookup_l _ _ _ _ _ HF Hj) as (s & _ & [[[_ ->]|(i & pem' & Hi & _)] Hx]); [done|].
      apply list_elem_of_lookup_2, elem_of_by_name in Hi. cbn in Hi. by apply (map_disjoint_spec p o) with mid pem' pem. }
    destruct (N.ltb_spec (N.of_nat (length ss')) (recovery_threshold c)); [lia|]. unfold lift. rewrite (chosen_recover ps (N.of_nat (size p)) (recovery_threshold c) ss'); [done|apply Hps|apply Hps|done|done|by eapply chosen_distinct| |done].
    intros s Hs. apply list_elem_of_lookup in Hs as [j Hj]. destruct (Forall2_lookup_r _ _ _ _ _ HF Hj) as (q & _ & [[[_ ->]|(i & pem & Hi & ->)] Hx]); [done|].
    eexists. split; [done|]. apply lookup_lt_Some in Hi. rewrite length_by_name in Hi. lia.
Qed.

(** What a member submits: the share they decrypt with their key. *)
Definition own_share (info : RecoverySharesInfo) (p o : gmap string string) (q : string * bytes) : Prop :=
  exists pem e, (p ∪ o) !! q.1 = Some pem /\ encrypted_shares info !! q.1 = Some e /\ rsa_oaep_unwrap pem e = Some q.2.

Lemma own_share_at ps p o info q threshold : polynomials threshold ps -> p ##ₘ o -> N.of_nat (size p) < prime -> holds_shares ps p o (encrypted_shares info) -> own_share info p o q ->
  exists s, q.2 = share_bytes s /\ share_ok s /\ share_at ps p o q.1 s.
Proof.
  intros Hps Hdisj Hsz [Hp Ho] (pem & e & Hq & He & Hb). destruct (polynomials_elems _ _ Hps) as [Hl Hel]. apply lookup_union_Some in Hq as [Hq|Hq]; [| |done].
  - pose proof (proj2 (elem_of_by_name p q.1 pem) Hq) as Hin. apply list_elem_of_lookup in Hin as [i Hi]. destruct (Hp i q.1 pem Hi) as (e' & He' & Hb'). rewrite He in He'. injection He' as <-. rewrite Hb in Hb'. injection Hb' as ->.
    eexists. split_and!; [done| |right; by exists i, pem]. apply share_of_ok; [done|done|]. apply lookup_lt_Some in Hi. rewrite length_by_name in Hi. unfold prime in Hsz. lia.
  - destruct (Ho q.1 pem Hq) as (e' & He' & Hb'). rewrite He in He'. injection He' as <-. rewrite Hb in Hb'. injection Hb' as ->.
    eexists. split_and!; [done|by apply secret_of_ok|]. left. split; [by eexists|done].
Qed.

(** Enough members, or one owner. *)
Definition quorum (threshold : N) (o : gmap string string) (subs : list (string * bytes)) : Prop :=
  threshold <= N.of_nat (length subs) \/ exists id, is_Some (o !! id) /\ id ∈ subs.*1.

(** The shares a quorum submitted, the secret that was wrapped and the chain in
    the ledger give the ledger secrets back. *)
Lemma restore_from_shares r vr lr info c p o subs log sec v ls : last (ledger_secrets (secrets r)) = Some (vr, lr) -> recovery_shares r = Some info ->
  config (tables r) = Some c -> 1 <= recovery_threshold c -> good_shares ls (recovery_threshold c) p o info -> p ##ₘ o -> N.of_nat (size p) < prime ->
  holds_submitted lr subs (submitted_shares r) -> Forall (own_share info p o) subs -> quorum (recovery_threshold c) o subs ->
  chain log sec -> ordered sec -> Forall (fun q => key_ok (raw_key q.2)) sec -> last sec = Some (v, ls) ->
  exists m, restore_recovery_shares_info store_order log r = (Ok m, r) /\ plain m = plain sec.
Proof.
  intros Hl Hi Hc H1 (ps & Hps & Hun & Hh) Hdisj Hsz (Hm1 & Hm2 & Hm3) Hown Hq Hch Hord Hkeys Hlast.
  assert (combine_from_encrypted_submitted_shares store_order r = (Ok (secret_of ps), r)) as Hcomb.
  { apply (combine_ok r vr lr c ps p o Hl Hc Hps H1 Hdisj Hsz).
    - intros mid e He. destruct (Hm1 mid e He) as (b & Hin & Hd). rewrite Forall_forall in Hown. destruct (own_share_at ps p o info (mid, b) _ Hps Hdisj Hsz Hh (Hown _ Hin)) as (s & Eb & Hs & Hat). cbn in Eb. subst b. by exists s.
    - destruct Hq as [Hq|(mid & Ho & Hin)]; [left; by rewrite Hm2|right]. exists mid. split; [done|by apply Hm3]. }
  destruct (restore_map_ok log sec v ls r Hch Hord Hkeys Hlast) as (res & Hres & Hplain). exists res. split; [|done].
  unfold restore_recovery_shares_info. unfold bind at 1, gets, id. rewrite Hi, (bind_ok _ _ _ _ _ Hcomb), Hun. unfold bind at 1, lift. exact Hres.
Qed.
End order.
End recovery.
End RecoverySpec.
