(* ===== verification/NodeRecoverySpec.v ===== *)
(** * Rekey, opening and recovery: proofs

    Ledger secrets reach the nodes they are broadcast to, and what endorsing an
    identity changes. *)

From S2P Require Import Prelude ViewHistory TxStatus LedgerEntries LedgerSecrets LedgerSecretsSpec Sharing SharingSpec Encryptor EncryptorSpec GovTables GovTablesSpec ShareManager ShareManagerSpec NodeRecovery.
From Stdlib Require Import Init.Byte Strings.Byte.

Module NodeRecoverySpec.
Import OrderedMap LedgerSecrets Encryptor EncryptorSpec Sharing SharingSpec GovTables GovTablesSpec ShareManager ShareManagerSpec NodeRecovery.
Open Scope N_scope.
Open Scope m_scope.

(** ** Results of the monad *)

Lemma bind_inv {S A B} (m : M S A) (k : A -> M S B) s b s'' : bind m k s = (Ok b, s'') -> exists a s', m s = (Ok a, s') /\ k a s' = (Ok b, s'').
Proof. unfold bind. destruct (m s) as [[a|e] s']; [|done]. by exists a, s'. Qed.

Lemma lift_inv {S A} (r : result A) (s : S) a s' : lift r s = (Ok a, s') -> r = Ok a /\ s' = s.
Proof. unfold lift. intros E. by injection E as -> ->. Qed.

Lemma on_tables_inv {A} (m : M Tables A) w a w' : on_tables m w = (Ok a, w') -> exists t', m (tables w) = (Ok a, t') /\ w' = set_tables t' w.
Proof. unfold on_tables. destruct (m (tables w)) as [r t']. cbn. intros E. injection E as -> <-. by exists t'. Qed.

Lemma keeps_result {S A} (R : S -> S -> Prop) (m : M S A) s r s' : keeps R m -> m s = (r, s') -> R s s'.
Proof. intros Hk E. specialize (Hk s). by rewrite E in Hk. Qed.

Section spec.
Context `{SC : ShareCrypto} (tries : nat) (rsa_key : string -> Prop).
Context `{SL : !ShareCryptoLaws tries rsa_key}.

(** ** Broadcast *)

(** The secrets as the holder of a key finds them. *)
Definition opens_to (pem : string) (es : list EncryptedLedgerSecret) (l : list (option N * LedgerSecret)) : Prop :=
  Forall2 (fun e p => es_version e = p.1 /\ rsa_oaep_unwrap pem (encrypted_secret e) = Some (raw_key p.2) /\ es_stored_version e = previous_secret_stored_version p.2) es l.

Lemma wrap_secrets_ok ni l w : rsa_key (node_encryption_pub_key ni) -> Forall (fun p => key_ok (raw_key p.2)) l ->
  exists es d, wrap_secrets ni l w = (Ok es, set_drawn d w) /\ opens_to (node_encryption_pub_key ni) es l.
Proof.
  intros Hk Hl. revert w. induction Hl as [|[v ls] l Hls Hl IH]; intros w; cbn [wrap_secrets].
  - exists [], (drawn w). split; [by destruct w|constructor].
  - destruct (rsa_wraps (drawn w) (node_encryption_pub_key ni) (raw_key ls) Hk) as [c Hc]; [cbn in Hls; unfold key_ok in Hls; lia|].
    unfold draw_with, bind at 1 2 3 4, gets, Datatypes.id, modify, ret, lift. rewrite Hc. cbn [fst snd].
    destruct (IH (set_drawn (drawn w + 1) w)) as (es & d & E & Hes). rewrite (bind_ok _ _ _ _ _ E). eexists _, d. split; [done|]. constructor; [|done]. cbn. split_and!; [done|by eapply rsa_unwraps|done].
Qed.

Lemma wrap_for_nodes_ok nodes l acc w : NoDup nodes.*1 -> Forall (fun p => rsa_key (node_encryption_pub_key p.2)) nodes -> Forall (fun p => key_ok (raw_key p.2)) l ->
  exists m d, wrap_for_nodes nodes l acc w = (Ok m, set_drawn d w) /\
    (forall nid ni, (nid, ni) ∈ nodes -> exists es, m !! nid = Some es /\ opens_to (node_encryption_pub_key ni) es l) /\ (forall nid, nid ∉ nodes.*1 -> m !! nid = acc !! nid).
Proof.
  intros Hnd Hk Hl. revert acc w Hnd. induction Hk as [|[nid ni] nodes Hni Hk IH]; intros acc w Hnd; cbn [wrap_for_nodes].
  - exists acc, (drawn w). split_and!; [by destruct w|by intros ?? ?%elem_of_nil|done].
  - rewrite fmap_cons in Hnd. apply NoDup_cons in Hnd as [Hid Hnd]. cbn in Hni, Hid. destruct (wrap_secrets_ok ni l w Hni Hl) as (es & d & E & Hes). rewrite (bind_ok _ _ _ _ _ E).
    destruct (IH (<[nid := es]> acc) (set_drawn d w) Hnd) as (m & d' & E' & H1 & H2). exists m, d'. split_and!; [exact E'| |].
    + intros nid' ni' [[= -> ->]|Hin]%elem_of_cons; [|by apply H1]. exists es. rewrite H2, lookup_insert_eq by done. done.
    + intros nid' [Hne Hn]%not_elem_of_cons. rewrite H2 by done. by rewrite lookup_insert_ne.
Qed.

(** Nodes have RSA keys, and this node is trusted. *)
Definition nodes_usable (t : Tables) : Prop := forall nid ni, nodes t !! nid = Some ni -> rsa_key (node_encryption_pub_key ni).
Definition self_trusted (w : World) : Prop := exists ni, get_trusted_nodes (tables w) !! self w = Some ni /\ node_encryption_pub_key ni = node_encrypt_kp w.

Lemma trusted_node t nid ni : get_trusted_nodes t !! nid = Some ni -> nodes t !! nid = Some ni.
Proof. unfold get_trusted_nodes. rewrite map_lookup_imap. destruct (nodes t !! nid) as [x|]; [|done]. cbn. destruct (node_status x); [done|by intros [= ->]|]. destruct (nodes_committed t !! nid) as [c|]; [|done]. destruct (retired_committed c); [done|]. by intros [= ->]. Qed.

Lemma trusted_lookup t nid ni : get_trusted_nodes t !! nid = Some ni <-> nodes t !! nid = Some ni /\
  (node_status ni = TRUSTED \/ node_status ni = RETIRED /\ exists c, nodes_committed t !! nid = Some c /\ retired_committed c = false).
Proof.
  unfold get_trusted_nodes. rewrite map_lookup_imap. destruct (nodes t !! nid) as [x|]; [|split; [done|by intros [? _]]]. cbn. destruct (node_status x) eqn:Hx.
  - split; [done|]. intros [[= ->] [?|[? _]]]; congruence.
  - split; [intros [= ->]; auto|]. by intros [[= ->] _].
  - destruct (nodes_committed t !! nid) as [c|]; [|split; [done|]; intros [[= ->] [?|(_ & ? & ? & _)]]; congruence]. destruct (retired_committed c) eqn:Hc; [split; [done|]; intros [[= ->] [?|(_ & ? & [= <-] & ?)]]; congruence|]. split; [intros [= ->]; eauto 6|]. by intros [[= ->] _].
Qed.

(** What is committed of the nodes: each is there, none is marked as retired that
    was not, and this one is not marked. *)
Definition nodes_known (w : World) : Prop :=
  forall nid ni, nodes (tables w) !! nid = Some ni -> (exists c, nodes_committed (tables w) !! nid = Some c /\ (retired_committed ni = false -> retired_committed c = false)) /\
    (nid = self w -> retired_committed ni = false).

(** The nodes as they are when the transaction is committed. *)
Definition commit_nodes (w : World) : World := set_tables (set_nodes_committed (nodes (tables w)) (tables w)) w.

Lemma commit_nodes_known w : (forall ni, nodes (tables w) !! self w = Some ni -> retired_committed ni = false) -> nodes_known (commit_nodes w).
Proof. intros Hs nid ni Hni. cbn in *. split; [by exists ni|]. intros ->. by apply Hs. Qed.

(** A node that is trusted once the transaction is committed is so before. *)
Lemma commit_nodes_trusted w nid ni : nodes_known w -> get_trusted_nodes (tables (commit_nodes w)) !! nid = Some ni -> get_trusted_nodes (tables w) !! nid = Some ni.
Proof.
  intros Hk. rewrite !trusted_lookup. cbn. intros [Hni [Ht|[Hr (c & Hc & Hrc)]]]; [auto|]. split; [done|]. right. split; [done|]. rewrite Hni in Hc. injection Hc as <-. destruct (Hk nid ni Hni) as [(c & Hc & Hx) _]. exists c. auto.
Qed.

Lemma commit_nodes_self w : nodes_known w -> self_trusted w -> self_trusted (commit_nodes w).
Proof.
  intros Hk (ni & Hni & He). exists ni. split; [|done]. rewrite trusted_lookup in *. cbn. destruct Hni as [Hni [Ht|[Hr _]]]; [auto|]. split; [done|]. right. split; [done|]. exists ni. split; [done|]. by apply (Hk (self w) ni).
Qed.

(** What this node finds in the secrets that have been broadcast. *)
Definition received (w : World) (l : list (option N * LedgerSecret)) : Prop :=
  exists m es, node_secrets w = Some m /\ m !! self w = Some es /\ opens_to (node_encrypt_kp w) es l.

Lemma for_nodes_ok l w : nodes_usable (tables w) -> self_trusted w -> Forall (fun p => key_ok (raw_key p.2)) l ->
  exists m d, bind (wrap_for_nodes (by_name (get_trusted_nodes (tables w))) l ∅) (fun m => modify (set_node_secrets (Some m))) w = (Ok tt, set_node_secrets (Some m) (set_drawn d w)) /\
    received (set_node_secrets (Some m) (set_drawn d w)) l.
Proof.
  intros Hu (ni & Hni & Hkp) Hl. destruct (wrap_for_nodes_ok (by_name (get_trusted_nodes (tables w))) l ∅ w) as (m & d & E & H1 & _).
  - rewrite by_name_permutation. apply NoDup_fst_map_to_list.
  - apply Forall_forall. intros [nid ni'] Hin%elem_of_by_name%trusted_node. by eapply Hu.
  - done.
  - rewrite (bind_ok _ _ _ _ _ E). exists m, d. split; [done|]. destruct (H1 (self w) ni) as (es & Hes & Ho); [by apply elem_of_by_name|]. exists m, es. rewrite Hkp in Ho. done.
Qed.

Lemma broadcast_new_ok ls w : nodes_usable (tables w) -> self_trusted w -> key_ok (raw_key ls) ->
  exists m d, broadcast_new (get_trusted_nodes (tables w)) ls w = (Ok tt, set_node_secrets (Some m) (set_drawn d w)) /\ received (set_node_secrets (Some m) (set_drawn d w)) [(None, ls)].
Proof. intros Hu Hs Hk. apply for_nodes_ok; [done|done|by repeat constructor]. Qed.

Lemma broadcast_some_ok l w : nodes_usable (tables w) -> self_trusted w -> Forall (fun p => key_ok (raw_key p.2)) l ->
  exists m d, broadcast_some (get_trusted_nodes (tables w)) l w = (Ok tt, set_node_secrets (Some m) (set_drawn d w)) /\
    received (set_node_secrets (Some m) (set_drawn d w)) ((fun p => (Some p.1, p.2)) <$> l).
Proof. intros Hu Hs Hk. apply for_nodes_ok; [done|done|by apply Forall_fmap]. Qed.

(** ** Hooks *)

Lemma secrets_hook_ok v ls w : sm w = partOfNetwork -> received w [(None, ls)] -> key_ok (raw_key ls) -> Forall (fun p => p.1 <= v) (ledger_secrets (secrets w)) ->
  exists s, secrets_hook v w = (Ok tt, set_secrets s w) /\ ledger_secrets s = (ledger_secrets (secrets w) ++ [((v + 1)%N, mkLedgerSecret (raw_key ls) (Some v))])%list.
Proof.
  intros Hsm (m & es & Hm & Hes & Ho) Hk Hv. assert (Forall (fun p => p.1 < v + 1) (ledger_secrets (secrets w))) as Hlt by (eapply Forall_impl; [exact Hv|]; cbn; intros; lia).
  assert (find (v + 1) (ledger_secrets (secrets w)) = None) as Hf by (apply find_None; eapply Forall_impl; [exact Hlt|]; cbn; intros; lia).
  unfold secrets_hook, is_part_of_network. unfold bind at 1, gets, Datatypes.id. rewrite bool_decide_true by done. cbn [negb]. rewrite Hm. cbn [mbind option_bind]. rewrite Hes.
  apply Forall2_cons_inv_r in Ho as (e & es' & (_ & He & _) & Hnil & ->). apply Forall2_nil_inv_r in Hnil as ->. cbn in He. cbn [for_each].
  unfold decrypt_secret. rewrite He. unfold bind at 1, lift at 1. unfold bind at 1, lift at 1. rewrite make_secret_ok by done.
  set (s := set_ledger_secrets (emplace (v + 1) (mkLedgerSecret (raw_key ls) (Some v)) (ledger_secrets (secrets w))) (secrets w)).
  assert (on_secrets (set_secret (v + 1) (mkLedgerSecret (raw_key ls) (Some v))) w = (Ok tt, set_secrets s w)) as E by (unfold on_secrets, set_secret, bind, gets, Datatypes.id; by rewrite Hf).
  exists s. split; [|cbn; by rewrite emplace_last]. unfold bind at 1. by rewrite E.
Qed.

Lemma secrets_hook_none v w : node_secrets w = None -> secrets_hook v w = (Ok tt, w).
Proof. intros Hn. unfold secrets_hook, bind, gets, Datatypes.id. rewrite Hn. by destruct (negb (is_part_of_network w)). Qed.
Lemma secrets_hook_other v w : sm w <> partOfNetwork -> secrets_hook v w = (Ok tt, w).
Proof. intros Hn. unfold secrets_hook, is_part_of_network, bind, gets, Datatypes.id. by rewrite bool_decide_false. Qed.
Lemma global_hook_other v w : sm w <> partOfPublicNetwork -> secrets_global_hook v w = (Ok tt, w).
Proof. intros Hn. unfold secrets_global_hook, is_part_of_public_network, bind, gets, Datatypes.id. by rewrite bool_decide_false. Qed.
Lemma global_hook_none v w : node_secrets w = None -> secrets_global_hook v w = (Ok tt, w).
Proof. intros Hn. unfold secrets_global_hook, bind, gets, Datatypes.id. rewrite Hn. by destruct (negb (is_part_of_public_network w)). Qed.

Lemma restored_for_ok kp es l r : opens_to kp es ((fun p => (Some p.1, p.2)) <$> l) -> Forall (fun p => key_ok (raw_key p.2)) l -> ordered (r ++ l) ->
  restored_for kp es r = Ok (r ++ l)%list.
Proof.
  intros Ho Hl. revert es r Ho. induction Hl as [|[v [raw stored]] l Hls Hl IH]; intros es r Ho Hord.
  - apply Forall2_nil_inv_r in Ho as ->. by rewrite app_nil_r.
  - apply Forall2_cons_inv_r in Ho as (e & es' & (Hv & He & Hst) & Ho & ->). cbn in Hv, He, Hst, Hls. cbn [restored_for]. rewrite Hv. unfold decrypt_secret. rewrite He. cbn [rbind]. rewrite make_secret_ok by done. cbn [rbind]. rewrite Hst.
    assert (emplace v (mkLedgerSecret raw stored) r = r ++ [(v, mkLedgerSecret raw stored)])%list as ->.
    { apply emplace_last. apply ordered_app in Hord as (_ & _ & Hlt). apply Forall_forall. intros p Hp. apply (Hlt p (v, mkLedgerSecret raw stored) Hp). left. }
    rewrite (IH es' _ Ho); rewrite <- app_assoc; done.
Qed.

(** ** Endorsements *)

Lemma sign_result e k root w b w' : sign_endorsement e k root w = (Ok b, w') -> exists x d, w' = set_new_endorsement x (set_drawn d w).
Proof.
  unfold sign_endorsement, draw_with, bind, gets, Datatypes.id, modify, ret. destruct (cose_sign_endorsement _ _ _ _ _ _); intros E; injection E as _ <-; [by eexists _, _|]. exists (new_endorsement w), (drawn w + 1). by destruct w.
Qed.

Lemma endorse_result w b w' : endorse_previous_identity w = (Ok b, w') -> exists x d, w' = set_new_endorsement x (set_drawn d w).
Proof.
  unfold endorse_previous_identity. unfold bind at 1, gets, Datatypes.id. destruct (identity_endorsement w) as [[at_ prev]|]; (destruct (service (tables w) ≫= current_service_create_txid) as [txid|]; [|done]).
  - destruct (last_signed_root (tables w)); [apply sign_result|]. intros E. injection E as _ <-. exists (new_endorsement w), (drawn w). by destruct w.
  - apply sign_result.
Qed.

Lemma sign_ok e k root w : exists x d, sign_endorsement e k root w = (Ok true, set_new_endorsement (Some x) (set_drawn d w)).
Proof.
  unfold sign_endorsement, draw_with, bind, gets, Datatypes.id, modify, ret.
  destruct (cose_signs (drawn w) (service_key w) (TxID.to_str (endorsement_epoch_begin e)) (match endorsement_epoch_end e with Some t => TxID.to_str t | None => "" end) root k) as [b Hb]. rewrite Hb. by eexists _, _.
Qed.

Lemma endorse_ok w s txid : service (tables w) = Some s -> current_service_create_txid s = Some txid -> identity_endorsement w = None \/ is_Some (last_signed_root (tables w)) ->
  exists x d, endorse_previous_identity w = (Ok true, set_new_endorsement (Some x) (set_drawn d w)).
Proof.
  intros Hs Ht Hr. unfold endorse_previous_identity. unfold bind at 1, gets, Datatypes.id. rewrite Hs. cbn [mbind option_bind]. rewrite Ht. destruct (identity_endorsement w) as [[at_ prev]|]; [|apply sign_ok].
  destruct Hr as [?|[root Hroot]]; [done|]. rewrite Hroot. apply sign_ok.
Qed.

(** ** Sealing *)

(** The key pair was sealed on a platform with this version. *)
Definition sealed_key_ok (k : SealedRecoveryKey) : Prop :=
  rsa_key (pubkey k) /\ unseal_recovery_key (derive_snp_sealing_key (tcb_version k)) k = Ok (pubkey k).

Lemma get_sealed_key_ok tcb w : exists k d, get_snp_sealed_recovery_key tcb w = (Ok k, set_drawn d w) /\ sealed_key_ok k /\ tcb_version k = tcb.
Proof.
  set (pub := new_rsa_key_pair (drawn w)). pose proof (new_rsa_key (drawn w)) as Hpub. set (dk := derive_snp_sealing_key tcb). assert (length dk = 32%nat) as Hdk by apply length_hkdf.
  assert (check_supported_aes_key_size (N.of_nat (length dk) * 8) = Ok tt) as Hsz by (by rewrite Hdk). destruct (make_key_ok dk Hdk) as [k Ek]. set (i := random_iv (drawn w + 1)).
  destruct (key_encrypt k i (private_key_pem pub) (String.list_byte_of_string pub)) as [[c t]|] eqn:Ec.
  2: { unfold key_encrypt in Ec. rewrite (bool_decide_false (private_key_pem pub = [])), andb_false_r in Ec by (by apply private_pem_nonempty). done. }
  exists (mkSealedKey (cipher_serialise (mkGcmCipher (mkGcmHeader t i) c)) pub tcb), (drawn w + 1 + 1). split_and!; [|split; [done|]|done].
  - unfold get_snp_sealed_recovery_key, aes_gcm_sealing, draw_with, bind, gets, Datatypes.id, modify, ret, lift. fold pub dk. rewrite Hsz, Ek. change (drawn (set_drawn (drawn w + 1) w)) with (drawn w + 1). fold i. by rewrite Ec.
  - unfold unseal_recovery_key, aes_gcm_unsealing. cbn [tcb_version ciphertext pubkey]. fold dk. rewrite Hsz, Ek. cbn [rbind]. destruct (key_round_trip _ _ _ _ _ _ Ec) as (_ & Ht & Hd).
    rewrite cipher_round_trip by (done || apply length_random_iv). cbn [rbind hdr iv tag cipher]. rewrite Hd. cbn [rbind]. by apply rsa_of_private.
Qed.

(** A trusted node that sealed its key unseals the ledger secret. *)
Lemma unseal_ok ls w info nid ni k : sealed_shares w = Some info -> good_sealed ls (tables w) (sealed_recovery_keys w) info ->
  get_trusted_nodes (tables w) !! nid = Some ni -> sealed_recovery_keys w !! nid = Some k -> sealed_key_ok k ->
  exists e, encrypted_shares info !! nid = Some e /\ forall w', sealed_shares w' = Some info -> unseal_share e k w' = Ok (Some (mkLedgerSecret (raw_key ls) None)).
Proof.
  intros Hi (ps & Hps & Hun & Hf) Hni Hk [Hrsa Huk]. destruct (Hf nid ni k Hni Hk) as (e & He & Hw). exists e. split; [done|]. intros w' Hw'. unfold unseal_share. rewrite Hw', Huk. cbn [rbind]. rewrite Hw.
  destruct (polynomials_elems _ _ Hps) as [Hl Hel]. destruct (share_bytes_ok (secret_of ps)) as [_ Hd]; [by apply secret_of_ok|]. rewrite Hd. cbn [rbind]. cbn [secret_of sh_x]. fold (secret_of ps). by rewrite Hun.
Qed.
End spec.
End NodeRecoverySpec.
