(* ===== verification/RecoveryRun.v ===== *)
(** * A service over its life

    Transactions of a service: proposals are applied, members acknowledge the
    state, the service is opened and the ledger rekeyed. What lets the recovery
    members recover the service is kept. *)

From S2P Require Import Prelude ViewHistory TxStatus LedgerEntries LedgerSecrets LedgerSecretsSpec Sharing SharingSpec Encryptor EncryptorSpec GovTables GovTablesSpec ShareManager ShareManagerSpec NodeRecovery Constitution RecoverySpec NodeRecoverySpec.
From Stdlib Require Import Init.Byte Strings.Byte.

Module RecoveryRun.
Import OrderedMap LedgerSecrets Encryptor EncryptorSpec Sharing SharingSpec GovTables GovTablesSpec ShareManager ShareManagerSpec NodeRecovery RecoverySpec NodeRecoverySpec.
Open Scope N_scope.
Open Scope m_scope.

(** ** Transactions *)

(** A node, the version of its last transaction, and what the recovery hook
    would collect from the ledger. *)
Record Service := mkSvc { sv_world : World; sv_version : N; sv_log : list EncryptedLedgerSecretInfo }.

Section tx.
Context `{SC : ShareCrypto}.

Definition begin_tx (w : World) : World := set_encrypted_past None (set_node_secrets None (set_new_endorsement None (set_tx_flags [] w))).

(** The hooks of a transaction, that is committed at once. *)
Definition hooks (v : N) : M World unit :=
  secrets_hook v ;;;
  w <- gets id ;;;
  when (is_reading_private_ledger w && bool_decide (is_Some (encrypted_past w))) (one_off_secret_hook v) ;;;
  secrets_global_hook v.

(** The nodes as they are committed, and the versions of the writes of two tables. *)
Definition settle (v : N) (w : World) : World :=
  let w := commit_nodes w in
  let w := match encrypted_past w with Some _ => set_past_written_at (Some v) w | None => w end in
  match new_endorsement w with Some e => set_identity_endorsement (Some (v, e)) w | None => w end.

Definition log_after (v : N) (w : World) (log : list EncryptedLedgerSecretInfo) : list EncryptedLedgerSecretInfo :=
  match encrypted_past w with Some e => log ++ [recovery_hook v e] | None => log end.

Definition run_tx {A} (m : M World A) (sv : Service) : result (A * Service) :=
  match m (begin_tx (sv_world sv)) with
  | (Throw e, _) => Throw e
  | (Ok a, w) =>
      let v := sv_version sv + 1 in
      match hooks v w with
      | (Throw e, _) => Throw e
      | (Ok _, w') => Ok (a, mkSvc (settle v w') v (log_after v w (sv_log sv)))
      end
  end.
End tx.

Definition sec (sv : Service) : list (N * LedgerSecret) := ledger_secrets (secrets (sv_world sv)).
Definition status_of (sv : Service) : option ServiceStatus := get_service_status (tables (sv_world sv)).

(** ** What a service keeps *)

Section run.
Context `{SC : ShareCrypto} (tries : nat) (rsa_key : string -> Prop).
Context `{SL : !ShareCryptoLaws tries rsa_key}.

Definition usable (w : World) : Prop :=
  keys_usable rsa_key (tables w) /\ few_members (tables w) /\ sealing_usable rsa_key w /\ nodes_usable rsa_key (tables w) /\ self_trusted w /\ nodes_known w.

Definition sec_ok (s : list (N * LedgerSecret)) (version : N) : Prop :=
  ordered s /\ Forall (fun p => key_ok (raw_key p.2)) s /\ s <> [] /\ Forall (fun p => p.1 <= version + 1) s.

(** The shares of members and of nodes are good for a ledger secret. *)
Definition issued (ls : LedgerSecret) (w : World) : Prop :=
  (exists info c, recovery_shares w = Some info /\ config (tables w) = Some c /\ good_shares ls (recovery_threshold c) (participants (tables w)) (owners (tables w)) info) /\
  (exists info, sealed_shares w = Some info /\ good_sealed ls (tables w) (sealed_recovery_keys w) info).

Definition service_ok (sv : Service) : Prop :=
  sm (sv_world sv) = partOfNetwork /\ keys_have_info (tables (sv_world sv)) /\ usable (sv_world sv) /\ sec_ok (sec sv) (sv_version sv) /\
  (chain (sv_log sv) (sec sv) \/ sv_log sv = [] /\ (exists p, sec sv = [p]) /\ status_of sv <> Some OPEN) /\
  (status_of sv = Some OPEN -> recoverable (tables (sv_world sv)) /\ exists v ls, last (sec sv) = Some (v, ls) /\ issued ls (sv_world sv)).

(** What these depend on. *)
Definition same_core (w w' : World) : Prop :=
  secrets w' = secrets w /\ tables w' = tables w /\ recovery_shares w' = recovery_shares w /\ sealed_shares w' = sealed_shares w /\ sealed_recovery_keys w' = sealed_recovery_keys w /\
  sm w' = sm w /\ self w' = self w /\ node_encrypt_kp w' = node_encrypt_kp w.

Lemma usable_core w w' : same_core w w' -> usable w -> usable w'.
Proof. intros (_ & Et & _ & _ & Ek & _ & Es & En) (H1 & H2 & H3 & H4 & H5). unfold usable, sealing_usable, self_trusted, nodes_known in *. by rewrite Et, Ek, Es, En. Qed.
Lemma issued_core ls w w' : same_core w w' -> issued ls w -> issued ls w'.
Proof. intros (_ & Et & Er & Es & Ek & _) [H1 H2]. unfold issued. by rewrite Et, Er, Es, Ek. Qed.

Lemma begin_core w : same_core w (begin_tx w).
Proof. done. Qed.
Lemma settle_core v w : same_core (commit_nodes w) (settle v w).
Proof. unfold settle. cbn zeta. destruct (encrypted_past (commit_nodes w)); cbn; by destruct (new_endorsement w). Qed.

Lemma usable_commit w : usable w -> usable (commit_nodes w).
Proof. intros (H1 & H2 & H3 & H4 & H5 & H6). split_and!; [done|done|done|done|by apply commit_nodes_self|]. apply commit_nodes_known. intros ni Hni. by apply (H6 (self w) ni). Qed.
Lemma issued_commit ls w : nodes_known w -> issued ls w -> issued ls (commit_nodes w).
Proof.
  intros Hk [H1 (info & Hi & ps & Hp & Hun & Hs)]. split; [exact H1|]. exists info. split; [done|]. exists ps. split_and!; [done|done|]. intros id ni k Hni. apply (Hs id ni). by apply commit_nodes_trusted.
Qed.
Lemma usable_settle v w : usable w -> usable (settle v w).
Proof. intros Hu. apply (usable_core (commit_nodes w)); [apply settle_core|by apply usable_commit]. Qed.
Lemma issued_settle ls v w : nodes_known w -> issued ls w -> issued ls (settle v w).
Proof. intros Hk Hi. apply (issued_core ls (commit_nodes w)); [apply settle_core|by apply issued_commit]. Qed.

Lemma last_sec s version : sec_ok s version -> exists v ls, last s = Some (v, ls) /\ key_ok (raw_key ls).
Proof.
  intros (_ & Hk & Hne & _). destruct s as [|[v ls] s _] using rev_ind; [done|]. exists v, ls. rewrite last_snoc. split; [done|]. apply Forall_app in Hk as [_ Hk]. rewrite Forall_singleton in Hk. exact Hk.
Qed.
Lemma sec_ok_later s version : sec_ok s version -> sec_ok s (version + 1).
Proof. intros (H1 & H2 & H3 & H4). split_and!; [done|done|done|]. eapply Forall_impl; [exact H4|]. cbn. intros; lia. Qed.

(** ** Issuing shares *)

Lemma issued_enough p o threshold n : shares_to_issue p o threshold = Ok n -> enough p o threshold.
Proof.
  unfold shares_to_issue. case_decide as H0; [done|]. destruct (N.eqb_spec threshold 0); [done|]. case_decide as Hp.
  - destruct (N.ltb_spec (N.of_nat (size p)) threshold); [done|]. intros _. split; [lia|]. by left.
  - destruct (N.ltb_spec 1 threshold); [done|]. intros _. split; [lia|]. right. assert (p = ∅) as -> by (destruct (decide (p = ∅)); tauto). split_and!; [done|naive_solver|lia].
Qed.

Lemma shuffle_needs_enough ls w u w' : keys_have_info (tables w) -> shuffle_recovery_shares_of tries ls w = (Ok u, w') -> recoverable (tables w).
Proof.
  intros Hk. unfold shuffle_recovery_shares_of. unfold bind at 1, gets at 1, id. rewrite participants_ok, owners_ok by done. unfold bind at 1, lift at 1. unfold bind at 1, lift at 1. unfold get_recovery_threshold.
  destruct (config (tables w)) as [c|] eqn:Hc; [|done]. unfold bind at 1, lift at 1. intros (n & w1 & [Hn _]%lift_inv & _)%bind_inv. exists c. split; [done|]. by eapply issued_enough.
Qed.

(** What a transaction that issues shares writes. *)
Definition issued_entry (latest : LedgerSecret) (previous : option (N * LedgerSecret)) (version : option N) (e : EncryptedLedgerSecretInfo) : Prop :=
  next_version e = version /\ match previous with None => previous_ledger_secret e = None | Some p => encrypts latest p.2 p.1 e end.

Lemma set_info_ok latest previous version w : keys_have_info (tables w) -> usable w -> recoverable (tables w) -> key_ok (raw_key latest) ->
  match previous with Some p => key_ok (raw_key p.2) | None => True end ->
  exists info sealed e d, set_recovery_shares_info tries latest previous version w = (Ok tt, set_encrypted_past (Some e) (set_sealed_shares (Some sealed) (set_recovery_shares (Some info) (set_drawn d w)))) /\
    issued_entry latest previous version e /\ issued latest (set_sealed_shares (Some sealed) (set_recovery_shares (Some info) w)).
Proof.
  intros Hk (Hu & Hf & Hse & _) Hrec Hl Hp. unfold set_recovery_shares_info. destruct (shuffle_ok tries rsa_key latest w Hk Hu Hf Hrec Hl) as (info & d & c & E & Hc & Hg). rewrite (bind_ok _ _ _ _ _ E).
  destruct (sealed_ok tries rsa_key latest (set_recovery_shares (Some info) (set_drawn d w)) Hse Hl) as (sealed & d' & E' & Hgs). rewrite (bind_ok _ _ _ _ _ E'). set (w1 := set_sealed_shares _ _).
  assert (issued latest (set_sealed_shares (Some sealed) (set_recovery_shares (Some info) w))) as Hi by (split; [by exists info, c|by exists sealed]).
  destruct previous as [[v0 p]|].
  - destruct (seal_with_ok tries rsa_key latest (raw_key p) w1 Hl (key_ok_nonempty _ Hp)) as (b & Eb & Hd & _). cbn [snd fst]. rewrite (bind_ok _ _ _ _ _ Eb).
    eexists info, sealed, _, _. split_and!; [done| |done]. split; [done|]. by eexists.
  - eexists info, sealed, _, d'. split_and!; [done| |done]. by split.
Qed.

(** The latest secret and the one before. *)
Definition latest_two (s : list (N * LedgerSecret)) (v : N) (latest : LedgerSecret) (previous : option (N * LedgerSecret)) : Prop :=
  s = [(v, latest)] /\ previous = None \/ exists l p0, s = (l ++ [p0; (v, latest)])%list /\ previous = Some p0.
(** An entry that shares for the latest of the secrets come with. *)
Definition entry_for (s : list (N * LedgerSecret)) (e : EncryptedLedgerSecretInfo) : Prop :=
  exists v latest previous, latest_two s v latest previous /\ issued_entry latest previous (Some v) e.

Lemma latest_and_penultimate w version : sec_ok (ledger_secrets (secrets w)) version -> exists v latest previous,
  on_secrets get_latest_and_penultimate w = (Ok ((v, latest), previous), w) /\ last (ledger_secrets (secrets w)) = Some (v, latest) /\ key_ok (raw_key latest) /\ match previous with Some p => key_ok (raw_key p.2) | None => True end /\
  latest_two (ledger_secrets (secrets w)) v latest previous.
Proof.
  intros (_ & Hk & Hne & _). unfold on_secrets, get_latest_and_penultimate, bind, gets, id. assert (set_secrets (secrets w) w = w) as Hw by (by destruct w). destruct (secrets w) as [s i it]. cbn [ledger_secrets] in *.
  destruct s as [|[v ls] s _] using rev_ind; [done|]. apply Forall_app in Hk as [Hk Hk1]. rewrite Forall_singleton in Hk1. rewrite reverse_snoc, last_snoc. destruct s as [|p0 s _] using rev_ind.
  - exists v, ls, None. split_and!; [by rewrite <- Hw at 2|done|exact Hk1|done|by left].
  - rewrite reverse_snoc. apply Forall_app in Hk as [_ Hk0]. rewrite Forall_singleton in Hk0. exists v, ls, (Some p0). split_and!; [by rewrite <- Hw at 2|done|exact Hk1|exact Hk0|]. right. exists s, p0. by rewrite <- app_assoc.
Qed.

(** Shares for the latest secret. *)
Lemma issue_ok w version : keys_have_info (tables w) -> usable w -> recoverable (tables w) -> sec_ok (ledger_secrets (secrets w)) version ->
  exists info sealed e d v ls, issue_recovery_shares tries w = (Ok tt, set_encrypted_past (Some e) (set_sealed_shares (Some sealed) (set_recovery_shares (Some info) (set_drawn d w)))) /\
    entry_for (ledger_secrets (secrets w)) e /\ last (ledger_secrets (secrets w)) = Some (v, ls) /\ issued ls (set_sealed_shares (Some sealed) (set_recovery_shares (Some info) w)).
Proof.
  intros Hk Hu Hrec Hsec. destruct (latest_and_penultimate w version Hsec) as (v & latest & previous & E & Hl & Hkl & Hkp & Hs). unfold issue_recovery_shares. rewrite (bind_ok _ _ _ _ _ E). cbn [fst snd].
  destruct (set_info_ok latest previous (Some v) w Hk Hu Hrec Hkl Hkp) as (info & sealed & e & d & Ei & He & Hi). exists info, sealed, e, d, v, latest. split_and!; [exact Ei| |done|done]. by exists v, latest, previous.
Qed.

Lemma issue_needs_enough w u w' : keys_have_info (tables w) -> issue_recovery_shares tries w = (Ok u, w') -> recoverable (tables w).
Proof.
  intros Hk. unfold issue_recovery_shares. intros (r & w1 & E & Ei)%bind_inv. assert (tables w1 = tables w) as Ht by (unfold on_secrets in E; by injection E as _ <-).
  unfold set_recovery_shares_info in Ei. apply bind_inv in Ei as ([] & w2 & Es & _). rewrite <- Ht. eapply shuffle_needs_enough; [by rewrite Ht|exact Es].
Qed.

(** The log to which an entry for the latest secret is added. *)
Definition log_ok (log : list EncryptedLedgerSecretInfo) (s : list (N * LedgerSecret)) : Prop := chain log s \/ log = [] /\ exists p, s = [p].

Lemma chain_issued log s e at_version : log_ok log s -> entry_for s e -> chain (log ++ [recovery_hook at_version e]) s.
Proof.
  intros Hlog (v & latest & previous & Hs & Hn & He). assert (next_version (recovery_hook at_version e) = Some v) as Hn' by (cbn; by rewrite Hn). destruct Hs as [[-> ->]|(l & [v0 p0] & -> & ->)].
  - destruct Hlog as [Hlog|[-> _]]; [by apply chain_first_again|by apply chain_first].
  - destruct Hlog as [Hlog|[_ [p Hp]]]; [by apply chain_again|]. by destruct l as [|? [|]].
Qed.

(** ** A transaction *)

(** What stays while a transaction runs. *)
Definition base_ok (sv : Service) (w : World) : Prop :=
  sm w = partOfNetwork /\ secrets w = secrets (sv_world sv) /\ get_service_status (tables w) = status_of sv /\ keys_have_info (tables w) /\ usable w.

(** The state of a transaction that has made a new ledger secret, or none. *)
Definition tx_ok (sv : Service) (rekeyed : option LedgerSecret) (w : World) : Prop :=
  base_ok sv w /\
  (status_of sv = Some OPEN -> recoverable (tables w) /\ exists v ls, last (sec sv) = Some (v, ls) /\ issued (default ls rekeyed) w) /\
  match rekeyed with
  | None => encrypted_past w = None /\ node_secrets w = None
  | Some ls => status_of sv = Some OPEN /\ key_ok (raw_key ls) /\ received w [(None, ls)] /\
      exists v l0 e, last (sec sv) = Some (v, l0) /\ encrypted_past w = Some e /\ issued_entry ls (Some (v, l0)) None e
  end.

Lemma begin_ok sv : service_ok sv -> tx_ok sv None (begin_tx (sv_world sv)).
Proof. intros (H1 & H2 & H3 & H4 & _ & H6). split; [by split_and!|]. split; [|done]. exact H6. Qed.

Lemma hooks_none v w : sm w = partOfNetwork -> node_secrets w = None -> hooks v w = (Ok tt, w).
Proof.
  intros Hsm Hn. unfold hooks. rewrite (bind_ok _ _ _ _ _ (secrets_hook_none v w Hn)). unfold bind at 1, gets, id. unfold is_reading_private_ledger. rewrite bool_decide_false by (by rewrite Hsm). cbn [andb when]. unfold bind, ret. by rewrite global_hook_none.
Qed.

Lemma issued_raw ls ls' w : raw_key ls' = raw_key ls -> issued ls w -> issued ls' w.
Proof. intros E [(info & c & H1 & H2 & ps & H3) (info' & H4 & ps' & H5)]. split; [exists info, c; split_and!; [done|done|exists ps; by rewrite E]|exists info'; split; [done|exists ps'; by rewrite E]]. Qed.

(** A transaction without a rekey is committed. *)
Lemma commit_plain sv w : service_ok sv -> tx_ok sv None w -> hooks (sv_version sv + 1) w = (Ok tt, w) /\ service_ok (mkSvc (settle (sv_version sv + 1) w) (sv_version sv + 1) (log_after (sv_version sv + 1) w (sv_log sv))).
Proof.
  intros (_ & _ & _ & Hsec & Hlog & _) ((Hsm & Hse & Hst & Hk & Hu) & Hopen & He & Hn). split; [by apply hooks_none|]. set (v := sv_version sv + 1). destruct (settle_core v w) as (Es & Et & _ & _ & _ & Esm & _).
  unfold log_after. rewrite He. unfold service_ok, sec, status_of. cbn [sv_world sv_version sv_log]. rewrite Es, Et, Esm. cbn [secrets sm commit_nodes set_tables]. rewrite Hse. change (get_service_status (tables (commit_nodes w))) with (get_service_status (tables w)). rewrite Hst. fold (sec sv). split_and!; [done|done|by apply usable_settle|by apply sec_ok_later|done|].
  intros Ho. destruct (Hopen Ho) as (Hr & v0 & ls & Hl & Hi). split; [done|]. exists v0, ls. split; [done|]. apply issued_settle; [apply Hu|done].
Qed.

(** The hook of the nodes' secrets adds the new one. *)
Lemma hooks_rekeyed v ls w : sm w = partOfNetwork -> received w [(None, ls)] -> key_ok (raw_key ls) -> Forall (fun p => p.1 <= v) (ledger_secrets (secrets w)) ->
  exists s, hooks v w = (Ok tt, set_secrets s w) /\ ledger_secrets s = (ledger_secrets (secrets w) ++ [((v + 1)%N, mkLedgerSecret (raw_key ls) (Some v))])%list.
Proof.
  intros Hsm Hrcv Hls Hver. destruct (secrets_hook_ok v ls w Hsm Hrcv Hls Hver) as (s & E & Hs). exists s. split; [|done].
  unfold hooks. rewrite (bind_ok _ _ _ _ _ E). unfold bind at 1, gets, id. unfold is_reading_private_ledger. rewrite bool_decide_false by (cbn; by rewrite Hsm). cbn [andb when]. unfold bind, ret. rewrite global_hook_other; [done|]. cbn. by rewrite Hsm.
Qed.

(** A transaction with a rekey. *)
Lemma commit_rekeyed sv ls w : service_ok sv -> tx_ok sv (Some ls) w ->
  exists w', hooks (sv_version sv + 1) w = (Ok tt, w') /\ service_ok (mkSvc (settle (sv_version sv + 1) w') (sv_version sv + 1) (log_after (sv_version sv + 1) w (sv_log sv))).
Proof.
  intros (_ & _ & _ & Hsec & Hlog & _) ((Hsm & Hse & Hst & Hk & Hu) & Hopen & Ho & Hls & Hrcv & v0 & l0 & e & Hl & He & Hn & Henc). set (v := sv_version sv + 1). pose proof Hsec as (Hord & Hkeys & Hne & Hver).
  destruct (hooks_rekeyed v ls w Hsm Hrcv Hls) as (s & Eh & Hs); [by rewrite Hse|]. rewrite Hse in Hs. fold (sec sv) in Hs.
  exists (set_secrets s w). split; [done|]. destruct (settle_core v (set_secrets s w)) as (Es & Et & Er & Ess & Ek & Esm & Esf & Ekp). cbn in Es, Et, Er, Ess, Ek, Esm, Esf, Ekp.
  assert (Forall (fun p => p.1 < v + 1) (sec sv)) as Hlt by (eapply Forall_impl; [exact Hver|]; cbn; intros; unfold v; lia).
  unfold log_after. rewrite He. unfold service_ok. unfold sec at 1 2 3 4, status_of. cbn [sv_world sv_version sv_log]. rewrite Es, Et, Esm, Hs. split_and!; [done|done| | | |].
  - apply usable_settle. exact Hu.
  - split_and!; [by apply ordered_snoc|by apply Forall_app; split; [|constructor]|by destruct (sec sv)|]. apply Forall_app. split; [eapply Forall_impl; [exact Hver|]; cbn; intros; unfold v; lia|]. by constructor.
  - left. destruct Hlog as [Hlog|(_ & _ & Hx)]; [|done]. destruct (sec sv) as [|q s' _] using rev_ind; [done|]. rewrite last_snoc in Hl. injection Hl as ->. rewrite <- app_assoc.
    apply chain_next; [done| |cbn; by rewrite Hn]. cbn in Henc. destruct Henc as (p & Hp & Hv & Hd). by exists p.
  - intros _. destruct (Hopen Ho) as (Hr & v1 & l1 & Hl1 & Hi). split; [done|]. eexists _, _. rewrite last_snoc. split; [done|]. apply issued_settle; [apply Hu|]. by apply (issued_raw ls).
Qed.

(** Whatever a transaction did. *)
Lemma run_tx_ok {A} (m : M World A) sv a w rekeyed : service_ok sv -> m (begin_tx (sv_world sv)) = (Ok a, w) -> tx_ok sv rekeyed w -> exists sv', run_tx m sv = Ok (a, sv') /\ service_ok sv'.
Proof.
  intros Hok E Htx. unfold run_tx. rewrite E. destruct rekeyed as [ls|].
  - destruct (commit_rekeyed sv ls w Hok Htx) as (w' & -> & H). by eexists.
  - destruct (commit_plain sv w Hok Htx) as (-> & H). by eexists.
Qed.

(** ** Refresh and rekey *)

Lemma refresh_tx sv w u w' : service_ok sv -> base_ok sv w -> encrypted_past w = None -> node_secrets w = None ->
  (status_of sv = Some OPEN -> exists v ls info, last (sec sv) = Some (v, ls) /\ sealed_shares w = Some info /\ good_sealed ls (tables w) (sealed_recovery_keys w) info) ->
  shuffle_recovery_shares tries w = (Ok u, w') -> tx_ok sv None w'.
Proof.
  intros (_ & _ & _ & Hsec & _) Hb He Hn Hse E. pose proof Hb as (Hsm & Hs & Hst & Hk & Hu). destruct (last_sec _ _ Hsec) as (v & ls & Hl & Hls).
  assert (last (ledger_secrets (secrets w)) = Some (v, ls)) as Hl' by (by rewrite Hs). unfold shuffle_recovery_shares in E. rewrite (bind_ok _ _ _ _ _ (latest_ok w v ls Hl')) in E. cbn [snd] in E.
  pose proof (shuffle_needs_enough ls w u w' Hk E) as Hrec. destruct Hu as (Hu1 & Hu2 & Hu3). destruct (shuffle_ok tries rsa_key ls w Hk Hu1 Hu2 Hrec Hls) as (info & d & c & E' & Hc & Hg). rewrite E in E'. injection E' as _ ->.
  split; [done|]. split; [|done]. intros Ho. split; [done|]. destruct (Hse Ho) as (v' & ls' & sinfo & Hl2 & Hsi & Hgs). rewrite Hl in Hl2. injection Hl2 as <- <-. exists v, ls. split; [done|]. split; [by exists info, c|by exists sinfo].
Qed.

Lemma rekey_tx sv w : service_ok sv -> base_ok sv w -> status_of sv = Some OPEN -> recoverable (tables w) ->
  exists ls w', rekey_ledger tries w = (Ok true, w') /\ tx_ok sv (Some ls) w'.
Proof.
  intros (_ & _ & _ & Hsec & _) Hb Ho Hrec. pose proof Hb as (Hsm & Hs & Hst & Hk & Hu). destruct (last_sec _ _ Hsec) as (v0 & l0 & Hl & Hk0).
  set (ls := mkLedgerSecret (random_key (drawn w)) None). assert (key_ok (raw_key ls)) as Hls by apply length_random_key. set (w1 := set_drawn (drawn w + 1) w).
  assert (make_ledger_secret w = (Ok ls, w1)) as E1. { unfold make_ledger_secret, draw_with, bind, gets, modify, ret, lift, id. by rewrite make_secret_ok. }
  destruct (set_info_ok ls (Some (v0, l0)) None w1 Hk Hu Hrec Hls Hk0) as (info & sealed & e & d & Ei & He & Hi).
  set (w2 := set_encrypted_past (Some e) (set_sealed_shares (Some sealed) (set_recovery_shares (Some info) (set_drawn d w1)))) in *.
  assert (last (ledger_secrets (secrets w1)) = Some (v0, l0)) as Hl' by (change (secrets w1) with (secrets w); by rewrite Hs).
  assert (issue_recovery_shares_of tries ls w1 = (Ok tt, w2)) as E2. { unfold issue_recovery_shares_of. by rewrite (bind_ok _ _ _ _ _ (latest_ok w1 v0 l0 Hl')). }
  destruct Hu as (Hu1 & Hu2 & Hu3 & Hu4 & Hu5 & Hu6). destruct (broadcast_new_ok tries rsa_key ls w2 Hu4 Hu5 Hls) as (m & d' & E3 & Hrcv).
  exists ls, (set_node_secrets (Some m) (set_drawn d' w2)). split.
  - unfold rekey_ledger, expect. unfold bind at 1. unfold bind at 1, gets, id. rewrite decide_True by done. unfold ret at 1. unfold bind at 1. rewrite decide_True by (by rewrite Hst). rewrite (bind_ok _ _ _ _ _ E1), (bind_ok _ _ _ _ _ E2). unfold bind at 1. by rewrite (bind_ok _ _ _ _ _ E3).
  - split; [done|]. split; [intros _; split; [done|]; exists v0, l0; split; [done|exact Hi]|]. split_and!; [done|done|done|]. by exists v0, l0, e.
Qed.

(** The ledger is rekeyed only when the service is open and the members are enough. *)
Lemma rekey_needs w u w' : keys_have_info (tables w) -> Constitution.triggerLedgerRekey tries w = (Ok u, w') -> get_service_status (tables w) = Some OPEN /\ recoverable (tables w).
Proof.
  intros Hk (b & w1 & E & Er)%bind_inv. destruct b; [|done]. injection Er as _ <-. unfold rekey_ledger in E. apply bind_inv in E as (u1 & w2 & E1 & E). assert (w2 = w) as ->. { unfold expect, bind, gets, id in E1. case_decide; [|done]. by injection E1 as _ <-. }
  unfold bind at 1, gets, id in E. case_decide as Ho; [|done]. split; [exact Ho|]. apply bind_inv in E as (ls & w3 & E1' & E). apply bind_inv in E as (u3 & w4 & E2 & _).
  assert (tables w3 = tables w) as Ht by (unfold make_ledger_secret, draw_with, bind, gets, modify, ret, lift, id in E1'; by injection E1' as _ <-).
  unfold issue_recovery_shares_of in E2. apply bind_inv in E2 as (cur & w5 & E3 & E2). assert (tables w5 = tables w) as Ht5 by (rewrite <- Ht; unfold on_secrets in E3; by injection E3 as _ <-).
  unfold set_recovery_shares_info in E2. apply bind_inv in E2 as ([] & w6 & E4 & _). rewrite <- Ht5. eapply shuffle_needs_enough; [by rewrite Ht5|exact E4].
Qed.

Lemma rekey_result sv w u w' : service_ok sv -> base_ok sv w -> Constitution.triggerLedgerRekey tries w = (Ok u, w') -> exists ls, tx_ok sv (Some ls) w'.
Proof.
  intros Hok Hb E. pose proof Hb as (_ & _ & Hst & Hk & _). destruct (rekey_needs w u w' Hk E) as [Ho Hrec]. rewrite Hst in Ho. destruct (rekey_tx sv w Hok Hb Ho Hrec) as (ls & w2 & E2 & Htx). exists ls.
  unfold Constitution.triggerLedgerRekey in E. rewrite (bind_ok _ _ _ _ _ E2) in E. by injection E as _ <-.
Qed.
End run.
End RecoveryRun.
