(* ===== verification/GovernanceRun.v ===== *)
(** * Governance of a running service

    Careful proposals, nodes that join and retire, and acknowledgements keep what
    recovery needs. *)

From S2P Require Import Prelude ViewHistory TxStatus LedgerEntries LedgerSecrets LedgerSecretsSpec Sharing SharingSpec Encryptor EncryptorSpec GovTables GovTablesSpec ShareManager ShareManagerSpec NodeRecovery Constitution RecoverySpec NodeRecoverySpec RecoveryRun.
From Stdlib Require Import Init.Byte Strings.Byte.

Module GovernanceRun.
Import OrderedMap LedgerSecrets Encryptor EncryptorSpec Sharing SharingSpec GovTables GovTablesSpec ShareManager ShareManagerSpec NodeRecovery RecoverySpec NodeRecoverySpec RecoveryRun.
Open Scope N_scope.
Open Scope m_scope.

(** ** Changes that do not concern recovery *)

(** The members keep their roles, and no node becomes trusted. *)
Definition gov_same (t t' : Tables) : Prop :=
  recovery_threshold <$> config t' = recovery_threshold <$> config t /\ (forall role, in_role role t' = in_role role t) /\
  (forall nid, is_Some (get_trusted_nodes t' !! nid) -> is_Some (get_trusted_nodes t !! nid)) /\ service t' = service t.
Definition same_nodes (t t' : Tables) : Prop := nodes t' = nodes t /\ nodes_committed t' = nodes_committed t.

Lemma gov_same_config t t' c : gov_same t t' -> config t = Some c -> exists c', config t' = Some c' /\ recovery_threshold c' = recovery_threshold c.
Proof. intros (E & _) Hc. rewrite Hc in E. destruct (config t') as [c'|]; [|done]. injection E as E. by exists c'. Qed.

Lemma gov_same_recoverable t t' : gov_same t t' -> recoverable t -> recoverable t'.
Proof. intros Hg (c & Hc & He). destruct (gov_same_config t t' c Hg Hc) as (c' & Hc' & Ht). exists c'. destruct Hg as (_ & Hr & _). by rewrite Ht, !Hr. Qed.

Lemma same_nodes_trusted t t' : same_nodes t t' -> get_trusted_nodes t' = get_trusted_nodes t.
Proof. intros [E1 E2]. unfold get_trusted_nodes. by rewrite E1, E2. Qed.

Lemma same_nodes_gov t t' : same_nodes t t' -> recovery_threshold <$> config t' = recovery_threshold <$> config t -> (forall role, in_role role t' = in_role role t) -> service t' = service t -> gov_same t t'.
Proof. intros Hn Hc Hr Hs. split_and!; [done|done| |done]. intros nid. by rewrite (same_nodes_trusted _ _ Hn). Qed.

(** A member that is set again has no role. *)
Lemma reset_member_roles role id d t t' : status d = ACCEPTED -> member_info t' = <[id := d]> (member_info t) ->
  (forall id', id' <> id -> member_encryption_public_keys t' !! id' = member_encryption_public_keys t !! id') -> in_role role t' = delete id (in_role role t).
Proof.
  intros Hd Hi Hkeys. apply map_eq. intros id'. apply option_eq. intros pem. rewrite lookup_delete_Some, !in_role_lookup. unfold has_role. rewrite Hi. destruct (decide (id' = id)) as [->|Hne].
  - rewrite lookup_insert_eq. split; [intros (_ & x & E & Hx & _); injection E as <-; congruence|by intros [? _]].
  - rewrite lookup_insert_ne, Hkeys by done. naive_solver.
Qed.

(** The tables when a member has been set. *)
Definition reset_tables (m : NewMember) (id root : string) (t : Tables) : Tables :=
  set_member_acks <[id := root]> (set_member_info <[id := mkMember ACCEPTED (nm_data m) (nm_recovery_role m)]>
    (set_member_keys (match encryption_pub_key m with None => delete id | Some pem => <[id := pem]> end) (set_member_certs <[id := nm_cert m]> t))).

Lemma reset_keys m id root t id' : id' <> id -> member_encryption_public_keys (reset_tables m id root t) !! id' = member_encryption_public_keys t !! id'.
Proof. intros Hne. cbn. destruct (encryption_pub_key m); [by apply lookup_insert_ne|by apply lookup_delete_ne]. Qed.
Lemma reset_roles m id root t role : in_role role (reset_tables m id root t) = delete id (in_role role t).
Proof. apply (reset_member_roles role id (mkMember ACCEPTED (nm_data m) (nm_recovery_role m))); [done|done|]. intros id'. apply reset_keys. Qed.
Lemma reset_info m id root t : keys_have_info t -> keys_have_info (reset_tables m id root t).
Proof. intros Hk id' Hx. cbn. destruct (decide (id' = id)) as [->|Hn]; [rewrite lookup_insert_eq; by eexists|]. rewrite lookup_insert_ne by done. apply Hk. by rewrite <- (reset_keys m id root). Qed.

(** The details of a member that keep their status and role. *)
Lemma same_details_roles role id d d' t t' : member_info t !! id = Some d -> status d' = status d -> recovery_role d' = recovery_role d ->
  member_info t' = <[id := d']> (member_info t) -> member_encryption_public_keys t' = member_encryption_public_keys t -> in_role role t' = in_role role t.
Proof.
  intros Hd Hs Hr Hi Hk. assert (forall id', has_role role (member_info t') id' <-> has_role role (member_info t) id') as Hrole.
  { intros id'. unfold has_role. rewrite Hi. destruct (decide (id' = id)) as [->|Hne]; [rewrite lookup_insert_eq, Hd|by rewrite lookup_insert_ne].
    split; intros (x & E & Hx); injection E as <-; eexists; (split; [done|]); [by rewrite <- Hs, <- Hr|by rewrite Hs, Hr]. }
  apply in_role_ext; intros id' pem; rewrite Hk, Hrole; done.
Qed.

Section gov.
Context `{SC : ShareCrypto} `{NR : NodeRest} (tries : nat) (rsa_key : string -> Prop).
Context `{SL : !ShareCryptoLaws tries rsa_key}.

#[local] Abbreviation usable := (usable rsa_key).
#[local] Abbreviation service_ok := (service_ok rsa_key).
#[local] Abbreviation base_ok := (base_ok rsa_key).
#[local] Abbreviation tx_ok := (tx_ok rsa_key).

(** The nodes are the same. *)
Lemma usable_same w t' : usable w -> same_nodes (tables w) t' -> keys_usable rsa_key t' -> few_members t' -> usable (set_tables t' w).
Proof.
  intros (_ & _ & H3 & H4 & H5 & H6) Hn Hk Hf. pose proof (same_nodes_trusted _ _ Hn) as Ht. destruct Hn as [En Ec]. unfold RecoveryRun.usable, nodes_usable, self_trusted, nodes_known in *. cbn. rewrite Ht, En, Ec. done.
Qed.
Lemma few_same t t' : (forall role, in_role role t' = in_role role t) -> few_members t -> few_members t'.
Proof. intros Hr. unfold few_members. by rewrite Hr. Qed.

Lemma base_same sv w t' : base_ok sv w -> service t' = service (tables w) -> keys_have_info t' -> usable (set_tables t' w) -> base_ok sv (set_tables t' w).
Proof. intros (H1 & H2 & H3 & _ & _) Hs Hk Hu. split_and!; [done|done| |done|done]. cbn. unfold get_service_status. by rewrite Hs. Qed.

Lemma issued_same ls w t' : issued ls w -> gov_same (tables w) t' -> issued ls (set_tables t' w).
Proof.
  intros [(info & c & H1 & H2 & H3) (sinfo & H4 & ps & H5 & H6 & H7)] Hg. destruct (gov_same_config _ _ c Hg H2) as (c' & Hc' & Ht). destruct Hg as (_ & Hr & Hn & _). split.
  - exists info, c'. cbn. by rewrite Ht, !Hr.
  - exists sinfo. split; [done|]. exists ps. split_and!; [done|done|]. intros id ni k Hni. destruct (Hn id) as [ni' Hni']; [by eexists|]. by apply (H7 id ni').
Qed.

Lemma tables_tx sv rekeyed w t' : tx_ok sv rekeyed w -> gov_same (tables w) t' -> keys_have_info t' -> usable (set_tables t' w) -> tx_ok sv rekeyed (set_tables t' w).
Proof.
  intros (Hb & Hopen & Hrk) Hg Hk Hu. split; [apply base_same; [done|apply Hg|done|done]|]. split; [|by destruct rekeyed].
  intros Ho. destruct (Hopen Ho) as (Hr & v & ls & Hl & Hi). split; [by apply (gov_same_recoverable (tables w))|]. exists v, ls. split; [done|]. by apply issued_same.
Qed.
(** The members and the nodes are the same. *)
Lemma members_tx sv rekeyed w t' : tx_ok sv rekeyed w -> recovery_threshold <$> config t' = recovery_threshold <$> config (tables w) -> (forall role, in_role role t' = in_role role (tables w)) ->
  same_nodes (tables w) t' -> service t' = service (tables w) -> keys_have_info t' -> keys_usable rsa_key t' -> tx_ok sv rekeyed (set_tables t' w).
Proof.
  intros Htx Hc Hr Hn Hs Hk Hu. pose proof Htx as ((_ & _ & _ & _ & Huse) & _). apply tables_tx; [done|by apply same_nodes_gov|done|]. apply usable_same; [done|done|done|]. apply (few_same (tables w)); [done|apply Huse].
Qed.

(** ** Actions *)

Variables (pemToId : string -> result string).
#[local] Abbreviation apply_action := (Constitution.apply_action tries pemToId).

Lemma set_member_applied m w id root : pemToId (nm_cert m) = Ok id -> signed_root (tables w) = Some root ->
  apply_action (Constitution.set_member m) w = (Ok tt, set_tables (reset_tables m id root (tables w)) w).
Proof.
  intros Hid Hroot. cbn [Constitution.apply_action]. unfold Constitution.apply_set_member. unfold bind at 1, gets. change (Datatypes.id w) with w. rewrite Hid. unfold bind at 1, lift. unfold Constitution.set_ack. rewrite Hroot. reflexivity.
Qed.

Lemma set_member_inv m w u w' : apply_action (Constitution.set_member m) w = (Ok u, w') ->
  exists id root, pemToId (nm_cert m) = Ok id /\ w' = set_tables (reset_tables m id root (tables w)) w.
Proof.
  destruct (pemToId (nm_cert m)) as [id|] eqn:Hid; [destruct (signed_root (tables w)) as [root|] eqn:Hroot|].
  - rewrite (set_member_applied m w id root Hid Hroot). intros E. injection E as _ <-. by exists id, root.
  - cbn [Constitution.apply_action]. unfold Constitution.apply_set_member. unfold bind at 1, gets. change (Datatypes.id w) with w. rewrite Hid. unfold bind at 1, lift. unfold Constitution.set_ack. by rewrite Hroot.
  - cbn [Constitution.apply_action]. unfold Constitution.apply_set_member. unfold bind at 1, gets. change (Datatypes.id w) with w. by rewrite Hid.
Qed.

Definition changes_threshold (threshold : option N) (w : World) : Prop :=
  exists c, config (tables w) = Some c /\ default (recovery_threshold c) threshold <> recovery_threshold c.

(** What a careful proposal does not do: while the service is open it does not set
    a member who has a share; it sets members with RSA keys; once the ledger has
    been rekeyed in its transaction it does not issue shares again, to members or
    to nodes; it does not remove the node itself; and it opens the service only
    when it is open, an opening being a proposal of its own. *)
Definition careful_action (a : Constitution.Action) (w : World) : Prop :=
  match a with
  | Constitution.set_member m =>
      (get_service_status (tables w) = Some OPEN -> forall id role, pemToId (nm_cert m) = Ok id -> in_role role (tables w) !! id = None) /\
      (forall pem, encryption_pub_key m = Some pem -> rsa_key pem)
  | Constitution.set_recovery_threshold threshold => changes_threshold (Some threshold) w -> node_secrets w = None
  | Constitution.set_service_configuration args => changes_threshold (Constitution.new_recovery_threshold args) w -> node_secrets w = None
  | Constitution.transition_node_to_trusted id _ _ => (exists ni, nodes (tables w) !! id = Some ni /\ node_status ni = PENDING) -> node_secrets w = None
  | Constitution.trigger_recovery_shares_refresh => node_secrets w = None
  | Constitution.remove_node id => id <> self w
  | Constitution.transition_service_to_open _ _ => get_service_status (tables w) = Some OPEN
  | _ => True
  end.

Lemma reset_base sv m id root w : base_ok sv w -> (forall pem, encryption_pub_key m = Some pem -> rsa_key pem) -> base_ok sv (set_tables (reset_tables m id root (tables w)) w).
Proof.
  intros Hb Hrsa. pose proof Hb as (_ & _ & _ & Hk & Hu). apply base_same; [done|done|by apply reset_info|]. apply usable_same; [done|done| |].
  - intros id' pem. cbn. destruct Hu as (Hu & _). destruct (encryption_pub_key m) as [p|]; [|intros [_ Hp]%lookup_delete_Some; by eapply Hu]. intros [[<- <-]|[_ Hp]]%lookup_insert_Some; [by apply Hrsa|by eapply Hu].
  - unfold few_members. rewrite reset_roles. destruct Hu as (_ & Hf & _). unfold few_members in Hf. assert (size (delete id (participants (tables w))) <= size (participants (tables w)))%nat by (rewrite map_size_delete; case_match; unfold Datatypes.id; lia). lia.
Qed.

Lemma set_member_tx sv rekeyed m w u w' : tx_ok sv rekeyed w -> careful_action (Constitution.set_member m) w -> apply_action (Constitution.set_member m) w = (Ok u, w') -> tx_ok sv rekeyed w'.
Proof.
  intros Htx [Hnew Hrsa] (id & root & Hid & ->)%set_member_inv. pose proof Htx as (Hb & Hopen & Hrk). pose proof (reset_base sv m id root w Hb Hrsa) as Hb'. pose proof Hb as (_ & _ & Hst & _). destruct (decide (status_of sv = Some OPEN)) as [Ho|Ho].
  - rewrite Hst in Hnew. apply tables_tx; [done| |by destruct Hb' as (_ & _ & _ & Hk' & _)|by destruct Hb' as (_ & _ & _ & _ & Hu')]. apply same_nodes_gov; [done|done| |done]. intros role. rewrite reset_roles. apply delete_id. by apply Hnew.
  - split; [done|]. split; [done|]. by destruct rekeyed.
Qed.

Lemma not_in_role_delete role id d t : member_info t !! id = Some d -> bool_decide (status d = ACTIVE) && bool_decide (is_Some (member_encryption_public_keys t !! id)) = false ->
  delete id (in_role role t) = in_role role t.
Proof.
  intros Hd Hn. apply delete_id, in_role_lookup_None. destruct (member_encryption_public_keys t !! id) as [pem|] eqn:E; [right|by left]. intros (d' & Hd' & Ha & _). rewrite Hd in Hd'. injection Hd' as <-.
  rewrite !bool_decide_true in Hn; [done|by eexists|done].
Qed.

Lemma deleted_base sv id w : base_ok sv w -> base_ok sv (set_tables (Constitution.delete_member id (tables w)) w).
Proof.
  intros (H1 & H2 & H3 & H4 & (H5 & H6 & H7)). split_and!; [done|done|done| |].
  - intros id'. cbn. intros [pem [Hne Hp]%lookup_delete_Some]. rewrite lookup_delete_ne by done. apply H4. by eexists.
  - apply usable_same; [done|done| |].
    + intros id' pem. cbn. intros [_ Hp]%lookup_delete_Some. by eapply H5.
    + unfold few_members in *. change (in_role Participant (Constitution.delete_member id (tables w))) with (in_role Participant (removed id (tables w))). rewrite removed_in_role.
      assert (size (delete id (participants (tables w))) <= size (participants (tables w)))%nat by (rewrite map_size_delete; case_match; unfold Datatypes.id; lia). lia.
Qed.

Lemma remove_member_tx sv rekeyed id w u w' : service_ok sv -> tx_ok sv rekeyed w -> Constitution.apply_remove_member tries id w = (Ok u, w') -> exists rekeyed', tx_ok sv rekeyed' w'.
Proof.
  intros Hok Htx. unfold Constitution.apply_remove_member. unfold bind at 1, gets, Datatypes.id. destruct (member_info (tables w) !! id) as [d|] eqn:Hd; [|intros E; injection E as _ <-; by exists rekeyed].
  set (r := bool_decide (status d = ACTIVE) && _) in *. intros (u1 & w1 & [_ ->]%lift_inv & E)%bind_inv. apply bind_inv in E as (u2 & w1 & E1 & E). injection E1 as _ <-. change (set_tables _ w) with (set_tables (Constitution.delete_member id (tables w)) w) in E.
  pose proof Htx as (Hb & _). pose proof (deleted_base sv id w Hb) as Hb'. unfold when in E. destruct r eqn:Hr.
  - destruct (rekey_result tries rsa_key sv _ u w' Hok Hb' E) as [ls Hls]. by exists (Some ls).
  - injection E as _ <-. exists rekeyed. pose proof Hb' as (_ & _ & _ & Hk & (Hu & _)). apply members_tx; [done|done| |done|done|done|done].
    intros role. change (in_role role (removed id (tables w)) = in_role role (tables w)). rewrite removed_in_role. by apply (not_in_role_delete role id d).
Qed.

(** The ledger has not been rekeyed when no secret has been broadcast. *)
Lemma tx_not_rekeyed sv rekeyed w : tx_ok sv rekeyed w -> node_secrets w = None -> rekeyed = None.
Proof. intros (_ & _ & Hrk) Hn. destruct rekeyed as [ls|]; [|done]. destruct Hrk as (_ & _ & (m & es & Hm & _) & _). congruence. Qed.

Lemma tx_refresh sv w u w' : service_ok sv -> tx_ok sv None w -> shuffle_recovery_shares tries w = (Ok u, w') -> tx_ok sv None w'.
Proof.
  intros Hok (Hb & Hopen & He & Hn) E. apply (refresh_tx tries rsa_key sv w u w' Hok Hb He Hn); [|exact E]. intros Ho. destruct (Hopen Ho) as (_ & v & ls & Hl & _ & sinfo & Hs & Hg). by exists v, ls, sinfo.
Qed.

Lemma set_config_tx sv rekeyed args w u w' : service_ok sv -> tx_ok sv rekeyed w -> (changes_threshold (Constitution.new_recovery_threshold args) w -> node_secrets w = None) -> Constitution.updateServiceConfig tries args w = (Ok u, w') -> tx_ok sv rekeyed w'.
Proof.
  intros Hok Htx Hch. unfold Constitution.updateServiceConfig. unfold bind at 1, gets. change (Datatypes.id w) with w. destruct (config (tables w)) as [c|] eqn:Hc; [|done].
  intros (u1 & w1 & [_ ->]%lift_inv & E)%bind_inv. apply bind_inv in E as (u2 & w1 & [_ ->]%lift_inv & E). apply bind_inv in E as (u3 & w1 & E1 & E). injection E1 as _ <-.
  set (c' := mkConfiguration _ _ _ _ _ _) in E. set (thr := default (recovery_threshold c) (Constitution.new_recovery_threshold args)) in *. change (set_tables _ w) with (set_tables (set_config (Some c') (tables w)) w) in E.
  pose proof Htx as ((_ & _ & _ & Hk & Hu) & _). unfold when in E. destruct (N.eqb_spec thr (recovery_threshold c)) as [Et|Et]; cbn [negb] in E.
  - injection E as _ <-. apply members_tx; [done| |done|done|done|done|apply Hu]. cbn. by rewrite Hc, Et.
  - assert (rekeyed = None) as -> by (apply (tx_not_rekeyed sv rekeyed w Htx), Hch; by exists c). pose proof Htx as ((Hb1 & Hb2 & Hb3 & Hb4 & _) & Hopen & He & Hn).
    apply (refresh_tx tries rsa_key sv (set_tables (set_config (Some c') (tables w)) w) u w' Hok); [by split_and!|done|done| |exact E]. intros Ho. destruct (Hopen Ho) as (_ & v & ls & Hl & _ & sinfo & Hs & Hg). by exists v, ls, sinfo.
Qed.

Lemma set_member_data_tx sv rekeyed id data w u w' : tx_ok sv rekeyed w -> apply_action (Constitution.set_member_data id data) w = (Ok u, w') -> tx_ok sv rekeyed w'.
Proof.
  intros Htx. cbn. unfold bind, gets, Datatypes.id. destruct (member_info (tables w) !! id) as [d|] eqn:Hd; [|done]. intros E. injection E as _ <-. match goal with |- tx_ok _ _ (set_tables ?t _) => set (t' := t) end.
  pose proof Htx as ((_ & _ & _ & Hk & (Hu & _)) & _). apply members_tx; [done|done| |done|done| |done].
  - intros role. by apply (same_details_roles role id d (mkMember (status d) data (recovery_role d))).
  - intros id' Hp. cbn. destruct (decide (id' = id)) as [->|Hne]; [rewrite lookup_insert_eq; by eexists|]. rewrite lookup_insert_ne by done. by apply Hk.
Qed.

(** The tables that do not concern members. *)
Lemma other_tables_tx sv rekeyed w t' : tx_ok sv rekeyed w -> member_info t' = member_info (tables w) -> member_encryption_public_keys t' = member_encryption_public_keys (tables w) ->
  config t' = config (tables w) -> nodes t' = nodes (tables w) -> nodes_committed t' = nodes_committed (tables w) -> service t' = service (tables w) -> tx_ok sv rekeyed (set_tables t' w).
Proof.
  intros Htx E1 E2 E3 E4 E5 E6. pose proof Htx as ((_ & _ & _ & Hk & (Hu & _)) & _). apply members_tx; [done|by rewrite E3| |done|done| |].
  - intros role. unfold in_role. by rewrite E1, E2.
  - unfold keys_have_info. by rewrite E1, E2.
  - unfold keys_usable. by rewrite E2.
Qed.

(** ** Nodes *)

(** A node that is removed is not trusted more than before. *)
Lemma remove_node_tx sv rekeyed id w u w' : tx_ok sv rekeyed w -> id <> self w -> Constitution.apply_remove_node id w = (Ok u, w') -> tx_ok sv rekeyed w'.
Proof.
  intros Htx Hne. unfold Constitution.apply_remove_node. unfold bind, gets. change (Datatypes.id w) with w. destruct (config (tables w)); [|done]. destruct (nodes (tables w) !! id) as [ni|] eqn:Hni; [|intros E; by injection E as _ <-].
  intros (t' & E & ->)%on_tables_inv. injection E as _ <-. pose proof Htx as ((_ & _ & _ & Hk & (H1 & H2 & H3 & H4 & (nis & Hs & Hkp) & H6)) & _). set (f := if decide _ then _ else _). 
  assert (forall nid x, f (nodes (tables w)) !! nid = Some x -> exists y, nodes (tables w) !! nid = Some y /\ node_encryption_pub_key x = node_encryption_pub_key y /\ retired_committed x = retired_committed y /\
    (node_status x = node_status y \/ node_status x = RETIRED /\ node_status y <> PENDING)) as Hf.
  { intros nid x. subst f. case_decide; [intros [_ Hx]%lookup_delete_Some; exists x; auto|]. intros [[<- <-]|[_ Hx]]%lookup_insert_Some; [exists ni; auto 6|exists x; auto]. }
  apply tables_tx; [done| |done|].
  - split_and!; [done|done| |done]. intros nid [x Hx]. apply trusted_lookup in Hx as [Hx Hst]. cbn in Hx. destruct (Hf nid x Hx) as (y & Hy & _ & _ & Hs'). exists y. apply trusted_lookup. split; [done|].
    destruct (node_status y) eqn:Ey; [naive_solver congruence|by left|]. destruct Hst as [?|[_ Hst]]; [naive_solver congruence|]. by right.
  - split_and!; [done|done|done| | |].
    + intros nid x Hx. destruct (Hf nid x Hx) as (y & Hy & -> & _). by eapply H4.
    + exists nis. split; [|done]. apply trusted_lookup in Hs as [Hs Hst]. apply trusted_lookup. split; [|done]. cbn. subst f. case_decide; [by rewrite lookup_delete_ne|by rewrite lookup_insert_ne].
    + intros nid x Hx. destruct (Hf nid x Hx) as (y & Hy & _ & -> & _). by apply H6.
Qed.

(** The nodes of a transaction that trusts a node. *)
Lemma trusted_base sv id ni seqno w : base_ok sv w -> nodes (tables w) !! id = Some ni -> node_status ni = PENDING ->
  base_ok sv (set_tables (set_nodes <[id := mkNode TRUSTED (node_encryption_pub_key ni) seqno (retired_committed ni) (node_rest ni)]> (tables w)) w).
Proof.
  intros Hb Hni Hp. pose proof Hb as (_ & _ & _ & Hk & (H1 & H2 & H3 & H4 & (nis & Hs & Hkp) & H6)). apply base_same; [done|done|done|]. apply trusted_lookup in Hs as [Hs Hst].
  assert (id <> self w) as Hne by (intros ->; naive_solver congruence). split_and!; [done|done|done| | |].
  - intros nid x. cbn. intros [[<- <-]|[_ Hx]]%lookup_insert_Some; [exact (H4 id ni Hni)|exact (H4 nid x Hx)].
  - exists nis. split; [|done]. apply trusted_lookup. split; [cbn; by rewrite lookup_insert_ne|done].
  - intros nid x. cbn. intros [[<- <-]|[_ Hx]]%lookup_insert_Some; [by apply (H6 id ni)|by apply H6].
Qed.

(** The shares of nodes are issued anew, for the latest secret. *)
Lemma shuffle_sealed_tx sv w u w' : service_ok sv -> base_ok sv w -> encrypted_past w = None -> node_secrets w = None ->
  (status_of sv = Some OPEN -> recoverable (tables w) /\ exists v ls info c, last (sec sv) = Some (v, ls) /\ recovery_shares w = Some info /\ config (tables w) = Some c /\ good_shares ls (recovery_threshold c) (participants (tables w)) (owners (tables w)) info) ->
  node_shuffle_sealed_shares tries w = (Ok u, w') -> tx_ok sv None w'.
Proof.
  intros (_ & _ & _ & Hsec & _) Hb He Hn Hopen. pose proof Hb as (Hsm & Hs & _ & _ & (_ & _ & Hse & _)). destruct (last_sec _ _ Hsec) as (v & ls & Hl & Hls). unfold node_shuffle_sealed_shares. unfold bind at 1, gets. change (Datatypes.id w) with w.
  unfold is_part_of_network. rewrite bool_decide_true by done. cbn [negb]. rewrite (bind_ok _ _ _ _ _ (latest_ok w v ls ltac:(by rewrite Hs))). destruct (sealed_ok tries rsa_key ls w Hse Hls) as (info & d & E & Hg). cbn [snd]. rewrite E. intros E'. injection E' as _ <-.
  split; [done|]. split; [|done]. intros Ho. destruct (Hopen Ho) as (Hr & v' & ls' & i & c & Hl' & Hi). rewrite Hl in Hl'. injection Hl' as <- <-. split; [done|]. exists v, ls. split; [done|]. split; [by exists i, c|by exists info].
Qed.

Lemma trust_node_tx sv rekeyed id from days w u w' : service_ok sv -> tx_ok sv rekeyed w -> careful_action (Constitution.transition_node_to_trusted id from days) w -> Constitution.apply_trust_node tries id from days w = (Ok u, w') -> tx_ok sv rekeyed w'.
Proof.
  intros Hok Htx Hc. unfold Constitution.apply_trust_node. unfold bind at 1, gets. change (Datatypes.id w) with w. destruct (config (tables w)) as [c|] eqn:Hcfg; [|done]. destruct (nodes (tables w) !! id) as [ni|] eqn:Hni; [|done].
  case_decide as Hp; [|intros E; by injection E as _ <-]. assert (rekeyed = None) as -> by (apply (tx_not_rekeyed sv rekeyed w Htx), Hc; by exists ni). pose proof Htx as (Hb & Hopen & He & Hn). pose proof Hok as (_ & _ & _ & Hsec & _).
  destruct (last_sec _ _ Hsec) as (v & ls & Hl & Hls). rewrite (bind_ok _ _ _ _ _ (latest_ok w v ls ltac:(by destruct Hb as (_ & -> & _)))). intros (u1 & w1 & E1 & E)%bind_inv. injection E1 as _ <-.
  apply bind_inv in E as (u2 & w2 & E2 & E). apply lift_inv in E as [_ ->]. eapply shuffle_sealed_tx; [exact Hok|by apply trusted_base|done|done| |exact E2]. intros Ho. destruct (Hopen Ho) as (Hr & v' & ls' & Hl' & (info & c' & Hi) & _). split; [done|]. by exists v', ls', info, c'.
Qed.

Lemma action_tx sv rekeyed a w u w' : service_ok sv -> tx_ok sv rekeyed w -> careful_action a w -> apply_action a w = (Ok u, w') -> exists rekeyed', tx_ok sv rekeyed' w'.
Proof.
  intros Hok Htx Hc E. assert (forall t', w' = set_tables t' w -> member_info t' = member_info (tables w) -> member_encryption_public_keys t' = member_encryption_public_keys (tables w) ->
    config t' = config (tables w) -> nodes t' = nodes (tables w) -> nodes_committed t' = nodes_committed (tables w) -> service t' = service (tables w) -> exists rekeyed', tx_ok sv rekeyed' w') as Hother.
  { intros t' -> H1 H2 H3 H4 H5 H6. exists rekeyed. by apply other_tables_tx. }
  destruct a as [m|id|id data|u0|id|id data|n| | |p n|args| | |i|id from days|id]; try (by exists rekeyed; eapply set_member_tx); cbn [Constitution.apply_action careful_action] in *.
  - exact (remove_member_tx sv rekeyed id w u w' Hok Htx E).
  - exists rekeyed. by eapply set_member_data_tx.
  - apply bind_inv in E as (id & w1 & [_ ->]%lift_inv & E). apply bind_inv in E as (u1 & w1 & E1 & E). injection E1 as _ <-. injection E as _ <-. by eapply Hother.
  - apply bind_inv in E as (u1 & w1 & E1 & E). injection E1 as _ <-. injection E as _ <-. by eapply Hother.
  - injection E as _ <-. by eapply Hother.
  - exists rekeyed. exact (set_config_tx sv rekeyed (Constitution.mkConfigArgs None (Some n) None) w u w' Hok Htx Hc E).
  - pose proof (tx_not_rekeyed sv rekeyed w Htx Hc) as ->. exists None. exact (tx_refresh sv w u w' Hok Htx E).
  - pose proof Htx as (Hb & _). destruct (rekey_result tries rsa_key sv w u w' Hok Hb E) as [ls Hls]. by exists (Some ls).
  - exists rekeyed. unfold Constitution.apply_transition, bind at 1, gets in E. change (Datatypes.id w) with w in E. unfold get_service_status in Hc. destruct (service (tables w)) as [s|] eqn:Hs; [|done]. injection Hc as Hc. rewrite decide_False in E by (rewrite Hc; by intros [? _]).
    unfold transition_service_to_open, bind at 1, gets in E. change (Datatypes.id w) with w in E. rewrite Hs, decide_True in E by auto. by injection E as _ <-.
  - exists rekeyed. exact (set_config_tx sv rekeyed args w u w' Hok Htx Hc E).
  - injection E as _ <-. by exists rekeyed.
  - injection E as _ <-. by exists rekeyed.
  - injection E as _ <-. by exists rekeyed.
  - exists rekeyed. exact (trust_node_tx sv rekeyed id from days w u w' Hok Htx Hc E).
  - exists rekeyed. exact (remove_node_tx sv rekeyed id w u w' Htx Hc E).
Qed.

(** ** Proposals *)

(** Every action of a proposal is careful where it is applied. *)
Fixpoint careful (l : list Constitution.Action) (w : World) : Prop :=
  match l with
  | [] => True
  | a :: l => careful_action a w /\ forall w', apply_action a w = (Ok tt, w') -> careful l w'
  end.

Lemma proposal_tx sv l : service_ok sv -> forall rekeyed w u w', tx_ok sv rekeyed w -> careful l w -> Constitution.apply tries pemToId l w = (Ok u, w') -> exists rekeyed', tx_ok sv rekeyed' w'.
Proof.
  intros Hok. induction l as [|a l IH]; intros rekeyed w u w' Htx Hl E; unfold Constitution.apply in E; cbn [for_each] in E; [injection E as _ <-; by exists rekeyed|].
  apply bind_inv in E as ([] & w1 & E1 & E). destruct Hl as (Hc & Hl). destruct (action_tx sv rekeyed a w tt w1 Hok Htx Hc E1) as (rk1 & Htx1). apply (IH rk1 w1 u w' Htx1); [by apply Hl|exact E].
Qed.

Lemma tx_proposal_ok l sv u sv' : service_ok sv -> careful l (begin_tx (sv_world sv)) -> run_tx (Constitution.apply tries pemToId l) sv = Ok (u, sv') -> service_ok sv'.
Proof.
  intros Hok Hl E. destruct (Constitution.apply tries pemToId l (begin_tx (sv_world sv))) as [[u1|] w] eqn:E1; [|unfold run_tx in E; by rewrite E1 in E].
  destruct (proposal_tx sv l Hok None _ u1 w (begin_ok rsa_key sv Hok) Hl E1) as [rk Htx]. destruct (run_tx_ok rsa_key _ sv u1 w rk Hok E1 Htx) as (sv1 & E2 & Hok1). rewrite E in E2. by injection E2 as _ <-.
Qed.

(** ** Nodes that join and retire *)

Lemma commit_tx sv w : tx_ok sv None w -> tx_ok sv None (commit_nodes w).
Proof.
  intros ((H1 & H2 & H3 & H4 & Hu) & Hopen & He). split; [|split; [|done]].
  - split_and!; [done|done|done|done|by apply usable_commit].
  - intros Ho. destruct (Hopen Ho) as (Hr & v & ls & Hl & Hi). split; [done|]. exists v, ls. split; [done|]. by apply issued_commit; [apply Hu|].
Qed.

(** Another node asks to join, with RSA keys. *)
Definition joins (i : JoinIn) (w : World) : Prop :=
  joining_node_id i <> self w /\ rsa_key (join_public_encryption_key i) /\ (forall k name, join_sealing_recovery_data i = Some (k, name) -> rsa_key (pubkey k)).

(** The world with a node that has joined. *)
Definition joined (i : JoinIn) (ni : NodeInfo) (w : World) : World :=
  let w := set_tables (set_nodes <[joining_node_id i := ni]> (tables w)) w in
  match join_sealing_recovery_data i with
  | Some (key, name) => set_sealing_recovery_names (<[name := joining_node_id i]> (sealing_recovery_names w)) (set_sealed_recovery_keys (<[joining_node_id i := key]> (sealed_recovery_keys w)) w)
  | None => w
  end.

Lemma joined_fields i ni w : secrets (joined i ni w) = secrets w /\ tables (joined i ni w) = set_nodes <[joining_node_id i := ni]> (tables w) /\ sm (joined i ni w) = sm w /\ self (joined i ni w) = self w /\ node_encrypt_kp (joined i ni w) = node_encrypt_kp w /\
  encrypted_past (joined i ni w) = encrypted_past w /\ node_secrets (joined i ni w) = node_secrets w /\ recovery_shares (joined i ni w) = recovery_shares w /\ sealed_shares (joined i ni w) = sealed_shares w /\
  (forall nid, nid <> joining_node_id i -> sealed_recovery_keys (joined i ni w) !! nid = sealed_recovery_keys w !! nid).
Proof. unfold joined. destruct (join_sealing_recovery_data i) as [[k name]|]; [|done]. split_and!; try done. intros nid Hne. cbn. by rewrite lookup_insert_ne. Qed.

Lemma joined_sealing i ni w : sealing_usable rsa_key w -> joins i w -> sealing_usable rsa_key (joined i ni w).
Proof. intros Hu (_ & _ & Hk). unfold joined. destruct (join_sealing_recovery_data i) as [[k name]|]; [|done]. intros id k'. cbn. intros [[_ <-]|[_ Hl]]%lookup_insert_Some; [by eapply Hk|by eapply Hu]. Qed.

Lemma joined_base sv i ni w : base_ok sv w -> joins i w -> node_encryption_pub_key ni = join_public_encryption_key i -> base_ok sv (commit_nodes (joined i ni w)).
Proof.
  intros (Hsm & Hs & Hst & Hk & (H1 & H2 & H3 & H4 & H5 & H6)) Hj Hkey. pose proof (joined_sealing i ni w H3 Hj) as H3'. destruct Hj as (Hne & Hrsa & _). destruct (joined_fields i ni w) as (Es & Et & Esm & Esf & Ekp & _).
  split_and!; cbn; rewrite ?Es, ?Esm, ?Et; [done|done|done|done|]. apply commit_nodes_self in H5 as (nis & Hnis & Hkp); [|done]. split_and!.
  - unfold keys_usable. cbn. by rewrite Et.
  - unfold few_members. cbn. by rewrite Et.
  - exact H3'.
  - intros nid x. cbn. rewrite Et. cbn. intros [[_ <-]|[_ Hx]]%lookup_insert_Some; [by rewrite Hkey|exact (H4 nid x Hx)].
  - exists nis. cbn. rewrite Esf, Ekp. split; [|done]. rewrite trusted_lookup in *. cbn in *. rewrite Et. cbn. by rewrite lookup_insert_ne.
  - apply commit_nodes_known. intros x. rewrite Esf, Et. cbn. rewrite lookup_insert_ne by done. intros Hx. by apply (H6 (self w) x).
Qed.

(** A node that joins an open service is not trusted yet. *)
Lemma joined_pending sv i ni w : tx_ok sv None w -> joins i w -> node_encryption_pub_key ni = join_public_encryption_key i ->
  (status_of sv = Some OPEN -> node_status ni = PENDING) -> tx_ok sv None (commit_nodes (joined i ni w)).
Proof.
  intros (Hb & Hopen & He & Hn) Hj Hkey Hp. pose proof Hb as (_ & _ & _ & _ & (_ & _ & _ & _ & _ & H6)). destruct (joined_fields i ni w) as (_ & Et & _ & _ & _ & Eep & Ens & Er & Ess & Ek). split; [by apply joined_base|]. split; [|cbn; by rewrite Eep, Ens].
  intros Ho. destruct (Hopen Ho) as (Hr & v & ls & Hl & (info & c & Hi & Hc & Hg) & (sinfo & Hsi & ps & Hps & Hun & Hf)). cbn. rewrite Et. split; [done|]. exists v, ls. split; [done|]. split.
  - exists info, c. cbn. by rewrite Er, Et.
  - exists sinfo. cbn. rewrite Ess. split; [done|]. exists ps. split_and!; [done|done|]. intros nid x k Hx Hk. assert (nid <> joining_node_id i) as Hne.
    { intros ->. apply trusted_lookup in Hx as [Hx Hst]. cbn in Hx. rewrite Et in Hx. cbn in Hx. rewrite lookup_insert_eq in Hx. injection Hx as <-. specialize (Hp Ho). naive_solver congruence. }
    rewrite Ek in Hk by done. apply (Hf nid x k); [|done]. apply commit_nodes_trusted; [done|]. rewrite trusted_lookup in *. cbn in *. rewrite Et in Hx. cbn in Hx. by rewrite lookup_insert_ne in Hx.
Qed.

Lemma add_joining_tx sv i st w st' w' : service_ok sv -> tx_ok sv None w -> joins i w -> (status_of sv = Some OPEN -> st = PENDING) -> add_joining_node tries i st w = (Ok st', w') ->
  sm w' = partOfNetwork /\ node_secrets w' = None /\ tx_ok sv None (commit_nodes w').
Proof.
  intros Hok Htx Hj Hp. pose proof Htx as (Hb & _ & He & Hn). pose proof Hb as (Hsm & Hs & _ & _ & (_ & _ & Hse & _)). pose proof Hok as (_ & _ & _ & Hsec & _). destruct (last_sec _ _ Hsec) as (v & ls & Hl & Hls).
  unfold add_joining_node. unfold bind at 1, gets. change (Datatypes.id w) with w. destruct (check_conflicting_node_network _ _); [done|]. intros (u1 & w1 & [_ ->]%lift_inv & E)%bind_inv. apply bind_inv in E as (seqno & w1 & E1 & E).
  assert (w1 = w) as ->. { case_decide; [|by injection E1 as _ <-]. rewrite (bind_ok _ _ _ _ _ (latest_ok w v ls ltac:(by rewrite Hs))) in E1. by injection E1 as _ <-. }
  apply bind_inv in E as (u2 & w1 & E2 & E). injection E2 as _ <-. apply bind_inv in E as (u3 & w2 & E3 & E). set (ni := mkNode st (join_public_encryption_key i) seqno false (join_rest i)) in *.
  assert (w2 = joined i ni w) as ->. { unfold joined. destruct (join_sealing_recovery_data i) as [[k name]|]; by injection E3 as _ <-. }
  destruct (joined_fields i ni w) as (Es & Et & Esm & _ & _ & Eep & Ens & _). apply bind_inv in E as (u4 & w3 & E4 & E). injection E as _ <-. unfold when in E4. case_bool_decide as Hst; [|injection E4 as _ <-; rewrite Esm, Ens; split_and!; [done|done|by apply joined_pending]].
  unfold node_shuffle_sealed_shares in E4. unfold bind at 1, gets in E4. change (Datatypes.id (joined i ni w)) with (joined i ni w) in E4. unfold is_part_of_network in E4. rewrite bool_decide_true in E4 by (by rewrite Esm). cbn [negb] in E4.
  rewrite (bind_ok _ _ _ _ _ (latest_ok (joined i ni w) v ls ltac:(by rewrite Es, Hs))) in E4. destruct (sealed_ok tries rsa_key ls (joined i ni w) (joined_sealing i ni w Hse Hj) Hls) as (info & d & E5 & _). cbn [snd] in E4. rewrite E5 in E4. injection E4 as _ <-.
  cbn. rewrite Esm, Ens. split_and!; [done|done|]. split; [exact (joined_base sv i ni w Hb Hj eq_refl)|]. split; [|cbn; by rewrite Eep, Ens]. intros Ho. specialize (Hp Ho). congruence.
Qed.

Lemma known_secrets_inv seqno (w : World) (st st' : NodeStatus) w' : bind (on_secrets (LedgerSecrets.get seqno)) (fun _ => ret st) w = (Ok st', w') -> w' = w.
Proof.
  intros (l & w1 & E & Er)%bind_inv. injection Er as _ <-. unfold on_secrets in E. injection E as E <-. destruct w. cbn. f_equal. unfold LedgerSecrets.get, bind, gets. cbn. destruct seqno as [v|]; [|done]. by destruct (find v _).
Qed.

Lemma join_tx sv seqno i w st w' : service_ok sv -> tx_ok sv None w -> joins i w -> join tries seqno i w = (Ok st, w') -> sm w' = partOfNetwork /\ node_secrets w' = None /\ tx_ok sv None (commit_nodes w').
Proof.
  intros Hok Htx Hj. pose proof Htx as ((Hsm & _ & Hst & _) & _ & _ & Hn). assert (w' = w -> sm w' = partOfNetwork /\ node_secrets w' = None /\ tx_ok sv None (commit_nodes w')) as Hsame by (intros ->; split_and!; [done|done|by apply commit_tx]).
  unfold join. unfold bind at 1, gets. change (Datatypes.id w) with w. destruct (negb _ && _ && _); [done|]. destruct (match join_startup_seqno i with Some _ => _ | None => _ end); [done|]. unfold get_service_status in Hst. destruct (service (tables w)) as [s|]; [|done]. cbn in Hst.
  case_decide as Hop.
  - destruct (check_node_exists _ _ _) as [[nid ni]|]; [intros E; by apply Hsame, (known_secrets_inv _ _ _ _ _ E)|]. intros E. apply (add_joining_tx sv i TRUSTED w st w' Hok Htx Hj); [|done]. rewrite <- Hst. intros [= Ho]. rewrite Ho in Hop. by destruct Hop.
  - destruct (check_node_exists _ _ _) as [[nid ni]|]; [|intros E; by apply (add_joining_tx sv i PENDING w st w' Hok Htx Hj)]. destruct (node_status ni); [intros E; injection E as _ <-; by apply Hsame|intros E; by apply Hsame, (known_secrets_inv _ _ _ _ _ E)|done].
Qed.

Lemma tx_join_ok seqno i sv st sv' : service_ok sv -> joins i (sv_world sv) -> run_tx (join tries seqno i) sv = Ok (st, sv') -> service_ok sv'.
Proof.
  intros Hok Hj E. unfold run_tx in E. destruct (join tries seqno i (begin_tx (sv_world sv))) as [[u1|] w] eqn:E1; [|done]. destruct (join_tx sv seqno i _ u1 w Hok (begin_ok rsa_key sv Hok) Hj E1) as (Hsm & Hn & Htx).
  rewrite hooks_none in E by done. injection E as _ <-. exact (proj2 (commit_plain rsa_key sv (commit_nodes w) Hok Htx)).
Qed.

(** Nodes other than this one are marked as retired. *)
Lemma set_retired_tx sv w u w' : tx_ok sv None w -> (forall c, nodes_committed (tables w) !! self w = Some c -> node_status c <> RETIRED) -> set_retired_committed w = (Ok u, w') -> tx_ok sv None w'.
Proof.
  intros Htx Hself (t' & E & ->)%on_tables_inv. injection E as _ <-. pose proof Htx as ((_ & _ & _ & Hk & (H1 & H2 & H3 & H4 & (nis & Hs & Hkp) & H6)) & _). set (f := map_imap _).
  assert (forall nid x, f (nodes (tables w)) !! nid = Some x -> exists y, nodes (tables w) !! nid = Some y /\ x = mark_retired (nodes_committed (tables w) !! nid) y) as Hf.
  { intros nid x. subst f. rewrite map_lookup_imap. destruct (nodes (tables w) !! nid) as [y|]; [|done]. cbn. intros [= <-]. by exists y. }
  assert (forall c y, node_status (mark_retired c y) = node_status y /\ node_encryption_pub_key (mark_retired c y) = node_encryption_pub_key y /\ (retired_committed (mark_retired c y) = false -> retired_committed y = false)) as Hm.
  { intros [c|] y; [|done]. unfold mark_retired. by destruct (bool_decide _ && _). }
  apply tables_tx; [done| |done|].
  - split_and!; [done|done| |done]. intros nid [x Hx]. apply trusted_lookup in Hx as [Hx Hst]. cbn in Hx. destruct (Hf nid x Hx) as (y & Hy & ->). exists y. apply trusted_lookup. split; [done|]. destruct (Hm (nodes_committed (tables w) !! nid) y) as (Hs1 & _). by rewrite Hs1 in Hst.
  - apply trusted_lookup in Hs as [Hs Hst]. assert (mark_retired (nodes_committed (tables w) !! self w) nis = nis) as Hsame.
    { destruct (nodes_committed (tables w) !! self w) as [c|] eqn:Hc; [|done]. cbn. rewrite bool_decide_false by (by apply Hself). done. }
    assert (f (nodes (tables w)) !! self w = Some nis) as Hs' by (subst f; rewrite map_lookup_imap, Hs; cbn; by rewrite Hsame).
    split_and!; [done|done|done| |by exists nis; split; [apply trusted_lookup|]|].
    + intros nid x Hx. destruct (Hf nid x Hx) as (y & Hy & ->). destruct (Hm (nodes_committed (tables w) !! nid) y) as (_ & -> & _). exact (H4 nid y Hy).
    + intros nid x Hx. destruct (Hf nid x Hx) as (y & Hy & Ex). destruct (Hm (nodes_committed (tables w) !! nid) y) as (_ & _ & Hrc). destruct (H6 nid y Hy) as [(c & Hc & Hcr) Hsf]. split; [exists c; split; [done|]; rewrite Ex; auto|].
      intros ->. cbn in Hx. rewrite Hs' in Hx. injection Hx as <-. apply (H6 (self w) nis Hs). done.
Qed.

(** ** Acknowledgements *)

Lemma no_key_roles role id d d' t t' : member_info t !! id = Some d -> member_encryption_public_keys t !! id = None -> member_info t' = <[id := d']> (member_info t) ->
  member_encryption_public_keys t' = member_encryption_public_keys t -> in_role role t' = in_role role t.
Proof.
  intros Hd Hk Hi Hks. apply in_role_ext; intros id' pem; rewrite Hks; intros H1 (x & Hx & Hr); (split; [done|]); exists x; (split; [|done]); assert (id' <> id) as Hne by (intros ->; congruence).
  - by rewrite Hi, lookup_insert_ne in Hx.
  - by rewrite Hi, lookup_insert_ne.
Qed.

Lemma activated_base sv id d w : base_ok sv w -> member_info (tables w) !! id = Some d -> few_members (activated id d (tables w)) -> base_ok sv (set_tables (activated id d (tables w)) w).
Proof.
  intros (H1 & H2 & H3 & H4 & (H5 & H6 & H7)) Hd Hf. split_and!; [done|done|done| |by apply usable_same]. intros id' Hp. cbn. destruct (decide (id' = id)) as [->|Hne]; [rewrite lookup_insert_eq; by eexists|]. rewrite lookup_insert_ne by done. by apply H4.
Qed.

Lemma ack_tx sv id digest w u w' : service_ok sv -> tx_ok sv None w -> (forall d, member_info (tables w) !! id = Some d -> few_members (activated id d (tables w))) ->
  ack_state_digest tries id digest w = (Ok u, w') -> tx_ok sv None w'.
Proof.
  intros Hok Htx Hf. unfold ack_state_digest. unfold bind at 1, gets, Datatypes.id. destruct (member_acks (tables w) !! id) as [dg|]; [|done]. case_decide; [done|].
  intros (b & w1 & (t1 & E1 & ->)%on_tables_inv & E)%bind_inv. unfold activate_member, bind at 1, gets, Datatypes.id in E1. destruct (member_info (tables w) !! id) as [d|] eqn:Hd; [|done]. injection E1 as <- <-. fold (activated id d (tables w)) in *.
  pose proof Htx as (Hb & Hopen & He & Hn). pose proof (activated_base sv id d w Hb Hd (Hf d eq_refl)) as Hb1. unfold bind at 1, gets, Datatypes.id in E. set (w1 := set_tables (activated id d (tables w)) w) in *.
  assert ((forall role, in_role role (activated id d (tables w)) = in_role role (tables w)) -> tx_ok sv None w1) as Hsame.
  { intros Hr. pose proof Hb1 as (_ & _ & _ & Hk1 & (Hu1 & _)). by apply members_tx. }
  destruct (bool_decide_reflect (status d <> ACTIVE)) as [Ha|Ha]; cbn [andb] in E.
  - unfold is_recovery_participant_or_owner in E. destruct (bool_decide_reflect (is_Some (member_encryption_public_keys (tables w1) !! id))) as [Hkey|Hkey].
    + destruct Hb1 as (Hsm & Hse & Hst & Hk & Hu). rewrite Hst in E. destruct (status_of sv) as [st|] eqn:Es; [|done]. unfold when in E. destruct (bool_decide_reflect (st = OPEN)) as [->|Ho].
      * apply (refresh_tx tries rsa_key sv w1 u w' Hok); [split_and!; [done|done|by rewrite Es|done|done]|done|done| |exact E]. intros _. destruct Hopen as (_ & v & ls & Hl & _ & sinfo & Hs & Hg); [done|]. by exists v, ls, sinfo.
      * injection E as _ <-. split; [split_and!; [done|done|by rewrite Es|done|done]|]. split; [|done]. rewrite Es. by intros [= ->].
    + injection E as _ <-. apply Hsame. intros role. apply (no_key_roles role id d (mkMember ACTIVE (member_data d) (recovery_role d)) (tables w)); [done| |done|done]. change (member_encryption_public_keys (tables w1)) with (member_encryption_public_keys (tables w)) in Hkey. by apply eq_None_not_Some.
  - injection E as _ <-. apply Hsame. intros role. apply (same_details_roles role id d (mkMember ACTIVE (member_data d) (recovery_role d)) (tables w)); [done| |done|done|done]. cbn. destruct (decide (status d = ACTIVE)); [done|]. by destruct Ha.
Qed.
End gov.
End GovernanceRun.
