(* ===== verification/DisasterRecovery.v ===== *)
(** * Opening and disaster recovery

    A service is opened ([RecoveryLife]). A service that is lost is recovered from
    its ledger: a node reads the public ledger and creates the service anew,
    members submit their shares or the node unseals its own, the ledger secrets are
    restored, the private ledger is read with them and the service is opened. *)

From S2P Require Import Prelude ViewHistory TxStatus LedgerEntries LedgerSecrets LedgerSecretsSpec Sharing SharingSpec Encryptor EncryptorSpec GovTables GovTablesSpec ShareManager ShareManagerSpec NodeRecovery Constitution RecoverySpec NodeRecoverySpec RecoveryRun.
From Stdlib Require Import Init.Byte Strings.Byte.

(** ** Opening *)

Module RecoveryLife.
Import OrderedMap LedgerSecrets Encryptor EncryptorSpec Sharing SharingSpec GovTables GovTablesSpec ShareManager ShareManagerSpec NodeRecovery RecoverySpec NodeRecoverySpec RecoveryRun.
Open Scope N_scope.
Open Scope m_scope.

Section life.
Context `{SC : ShareCrypto} `{NR : NodeRest} (tries : nat) (rsa_key : string -> Prop).
Context `{SL : !ShareCryptoLaws tries rsa_key}.
Variable store_order : gmap string bytes -> list (string * bytes).
Hypothesis store_order_ok : forall m, store_order m ≡ₚ map_to_list m.
Variables (cert_id tree_root : string -> result string).

#[local] Abbreviation usable := (usable rsa_key).
#[local] Abbreviation service_ok := (service_ok rsa_key).

(** ** Opening *)

Lemma open_service_result t b t' : open_service t = (Ok b, t') -> t' = t \/ exists s, t' = set_service (Some (with_status OPEN s)) t.
Proof.
  unfold open_service. intros (t0 & t1 & E0 & E)%bind_inv. injection E0 as <- <-. apply bind_inv in E as (p & t1 & [_ ->]%lift_inv & E). apply bind_inv in E as (o & t1 & [_ ->]%lift_inv & E).
  apply bind_inv in E as (n & t1 & [_ ->]%lift_inv & E). cbn [Datatypes.id] in E. revert E. destruct (negb _ && _); [intros E; injection E as _ <-; by left|].
  destruct (service t) as [s|]; [|intros E; injection E as _ <-; by left]. destruct (service_status s); intros E; injection E as _ <-; eauto.
Qed.

(** A service with members enough to hold its shares can be opened. *)
Lemma open_service_ok t s : keys_have_info t -> recoverable t -> service t = Some s -> service_status s <> RECOVERING ->
  open_service t = (Ok true, set_service (Some (with_status OPEN s)) t).
Proof.
  intros Hk (c & Hc & H1 & He) Hs Hst. unfold open_service. unfold bind at 1, gets, Datatypes.id. rewrite participants_ok, owners_ok by done. unfold bind at 1, lift. unfold bind at 1. unfold bind at 1. unfold get_recovery_threshold. rewrite Hc, Hs.
  assert (negb ((N.of_nat (size (participants t)) =? 0) && negb (N.of_nat (size (owners t)) =? 0)) && (N.of_nat (size (participants t)) <? recovery_threshold c) = false) as ->.
  { destruct He as [[Hp He]|(Hp & Ho & He)].
    - apply andb_false_intro2, N.ltb_ge. lia.
    - apply andb_false_intro1. rewrite Hp, map_size_empty. destruct (N.eqb_spec (N.of_nat (size (owners t))) 0) as [E|E]; [|done]. destruct Ho. apply map_size_empty_inv. lia. }
  destruct (service_status s) eqn:E; [done| |done|done]. destruct t, s; cbn in *. by subst.
Qed.

(** The state of a node that issued shares and opened, and endorsed the identity. *)
Lemma opened_ok sv w : service_ok sv -> sm w = partOfNetwork -> secrets w = secrets (sv_world sv) -> keys_have_info (tables w) -> usable w -> recoverable (tables w) -> node_secrets w = None ->
  (exists v ls, last (sec sv) = Some (v, ls) /\ issued ls w) -> (exists e, encrypted_past w = Some e /\ entry_for (sec sv) e) ->
  hooks (sv_version sv + 1) w = (Ok tt, w) /\ service_ok (mkSvc (settle (sv_version sv + 1) w) (sv_version sv + 1) (log_after (sv_version sv + 1) w (sv_log sv))).
Proof.
  intros (_ & _ & _ & Hsec & Hlog & _) Hsm Hse Hk Hu Hrec Hn (v0 & ls & Hl & Hi) (e & He & Hent). split; [by apply hooks_none|]. set (v := sv_version sv + 1). destruct (settle_core v w) as (Es & Et & _ & _ & _ & Esm & _).
  unfold log_after. rewrite He. unfold RecoveryRun.service_ok. unfold sec at 1 2 3 4, status_of. cbn [sv_world sv_version sv_log]. rewrite Es, Et, Esm. cbn [secrets sm commit_nodes set_tables]. rewrite Hse. fold (sec sv). split_and!; [done|done|by apply usable_settle|by apply sec_ok_later| |].
  - left. apply chain_issued; [|done]. destruct Hlog as [Hlog|(-> & Hp & _)]; [by left|by right].
  - intros _. split; [done|]. exists v0, ls. split; [done|]. apply issued_settle; [apply Hu|done].
Qed.

Lemma trigger_snapshot_inv w u w' : trigger_snapshot w = (Ok u, w') -> w' = set_tx_flags (SNAPSHOT_AT_NEXT_SIGNATURE :: tx_flags w) w.
Proof. intros E. by injection E as _ <-. Qed.

Definition propose_open (previous : option string) (next : string) : M World unit := Constitution.apply tries cert_id [Constitution.transition_service_to_open previous next].

Lemma propose_inv previous next w u w' : propose_open previous next w = (Ok u, w') -> transition_service_to_open tries previous next w = (Ok tt, w').
Proof.
  unfold propose_open, Constitution.apply. cbn [for_each Constitution.apply_action]. intros ([] & w1 & E & Er)%bind_inv. injection Er as _ <-. unfold Constitution.apply_transition in E. unfold bind at 1, gets, Datatypes.id in E.
  destruct (service (tables w)) as [s|]; [|done]. case_decide; [done|]. exact E.
Qed.

Lemma tx_open_ok previous next sv u sv' : service_ok sv -> run_tx (propose_open previous next) sv = Ok (u, sv') -> service_ok sv'.
Proof.
  intros Hok E. unfold run_tx in E. destruct (propose_open previous next (begin_tx (sv_world sv))) as [[u1|] w] eqn:E1; [|done]. apply propose_inv in E1. pose proof Hok as (Hsm & Hk & Hu & Hsec & _).
  unfold transition_service_to_open in E1. unfold bind at 1, gets, Datatypes.id in E1. change (tables (begin_tx (sv_world sv))) with (tables (sv_world sv)) in E1. set (w0 := begin_tx (sv_world sv)) in *.
  destruct (service (tables (sv_world sv))) as [s|] eqn:Hs; [|done]. case_decide as Hst.
  - injection E1 as <-. destruct (commit_plain rsa_key sv w0 Hok (begin_ok rsa_key sv Hok)) as [Eh Hok']. rewrite Eh in E. by injection E as _ <-.
  - apply bind_inv in E1 as ([] & w1 & [_ ->]%lift_inv & E1). unfold is_part_of_public_network, is_part_of_network in E1. rewrite bool_decide_false, bool_decide_true in E1 by (cbn; by rewrite Hsm).
    apply bind_inv in E1 as (u2 & w1 & E2 & E1). pose proof (issue_needs_enough tries w0 u2 w1 Hk E2) as Hrec. destruct (issue_ok tries rsa_key w0 (sv_version sv) Hk Hu Hrec Hsec) as (info & sealed & e & d & v & ls & Ei & Hent & Hl & Hi). rewrite E2 in Ei. injection Ei as _ ->.
    apply bind_inv in E1 as (b & w2 & (t2 & Eo & ->)%on_tables_inv & E1). apply bind_inv in E1 as (b2 & w3 & (x & d3 & ->)%endorse_result & ->%trigger_snapshot_inv).
    match type of E with context [hooks _ ?x] => set (w' := x) in E end. destruct (opened_ok sv w') as [Eh Hok']; try done; [..|rewrite Eh in E; by injection E as _ <-].
    + apply open_service_result in Eo as [->|[s' ->]]; exact Hk.
    + apply open_service_result in Eo as [->|[s' ->]]; exact Hu.
    + apply open_service_result in Eo as [->|[s' ->]]; exact Hrec.
    + exists v, ls. split; [done|]. apply open_service_result in Eo as [->|[s' ->]]; exact Hi.
    + by exists e.
Qed.
End life.
End RecoveryLife.

(** ** Recovery *)

Module DisasterRecovery.
Import OrderedMap LedgerSecrets Encryptor EncryptorSpec Sharing SharingSpec GovTables GovTablesSpec ShareManager ShareManagerSpec NodeRecovery RecoverySpec NodeRecoverySpec RecoveryRun RecoveryLife.
Open Scope N_scope.
Open Scope m_scope.

(** ** The procedure *)

(** What the operators and members bring. *)
Record Recovery := mkRecovery {
  r_fresh : LedgerSecret;
  r_service_key : bytes;
  r_sealing : option string;
  r_create : CreateIn;
  r_previous : option string;
  r_shares : list (string * bytes);
  r_entries : N -> option bytes -> result bool;   (* reading an entry of the ledger into the recovery store *)
  r_history_root : N -> string;                   (* the roots of the two stores *)
  r_store_root : N -> string;
}.

(** The node that starts in recovery has the tables of the public ledger, and has
    collected the past ledger secrets. *)
Definition restart (r : Recovery) (sv : Service) : World :=
  let w := sv_world sv in
  mkWorld empty_state (tables w) (recovery_shares w) None (past_written_at w) (submitted_shares w) (sealed_shares w) (sealed_recovery_keys w) (sealing_recovery_names w)
    None (identity_endorsement w) None (last_recovery_type w) [] readingPublicLedger (sv_log sv) (r_sealing r) None None (r_history_root r)
    (node_id (r_create r)) (public_encryption_key (r_create r)) (r_service_key r) (drawn w).

Definition on_world (f : World -> World) (sv : Service) : Service := mkSvc (f (sv_world sv)) (sv_version sv) (sv_log sv).

Section procedure.
Context `{SC : ShareCrypto} `{NR : NodeRest} (tries : nat).
Variable store_order : gmap string bytes -> list (string * bytes).
Variables (cert_id tree_root : string -> result string).

(** Members submit shares until the private recovery starts. *)
Fixpoint submit_all (shares : list (string * bytes)) (sv : Service) : result Service :=
  match shares with
  | [] => Ok sv
  | (member_id, share) :: shares =>
      if is_reading_private_ledger (sv_world sv) then Ok sv
      else r <~ run_tx (submit_share store_order member_id share) sv ;;; submit_all shares r.2
  end.

(** The service is created anew and its opening proposed. *)
Definition start (r : Recovery) (sv : Service) : result Service :=
  match recover_public_ledger_end (sv_version sv) (r_fresh r) (restart r sv) with
  | (Throw e, _) => Throw e
  | (Ok _, w) =>
      created <~ run_tx (create tries cert_id tree_root (r_create r)) (mkSvc w (sv_version sv) (sv_log sv)) ;;;
      proposed <~ run_tx (propose_open tries cert_id (r_previous r) (service_cert (r_create r))) (on_world (set_sm partOfPublicNetwork) created.2) ;;;
      Ok proposed.2
  end.
(** The private ledger is read; there are as many entries as versions. *)
Definition read_private (r : Recovery) (sv : Service) : result Service :=
  match recover_private_ledger_entries (r_entries r) (N.to_nat (sv_version sv)) (sv_world sv) with
  | (Throw e, _) => Throw e
  | (Ok _, w) => Ok (mkSvc w (sv_version sv) (sv_log sv))
  end.
Definition recover (r : Recovery) (sv : Service) : result Service :=
  started <~ start r sv ;;;
  submitted <~ submit_all (r_shares r) started ;;;
  read <~ read_private r submitted ;;;
  ended <~ run_tx (recover_private_ledger_end tries (r_store_root r)) read ;;;
  Ok (on_world recovery_ended ended.2).
End procedure.

(** ** The members of the service *)

Definition same_members (t t' : Tables) : Prop :=
  member_info t' = member_info t /\ member_encryption_public_keys t' = member_encryption_public_keys t /\ config t' = config t.
#[local] Instance same_members_order : PreOrder same_members.
Proof. split; [done|]. intros t1 t2 t3 (?&?&?) (?&?&?). unfold same_members. split_and!; congruence. Qed.

Lemma same_members_roles t t' role : same_members t t' -> in_role role t' = in_role role t.
Proof. intros (E1 & E2 & _). unfold in_role. by rewrite E1, E2. Qed.
Lemma same_members_info t t' : same_members t t' -> keys_have_info t -> keys_have_info t'.
Proof. intros (E1 & E2 & _). unfold keys_have_info. by rewrite E1, E2. Qed.
Lemma same_members_recoverable t t' : same_members t t' -> recoverable t -> recoverable t'.
Proof. intros Hsame (c & Hc & He). exists c. rewrite !(same_members_roles _ _ _ Hsame). pose proof Hsame as (_ & _ & ->). done. Qed.

Section recovery.
Context `{SC : ShareCrypto} `{NR : NodeRest} (tries : nat) (rsa_key : string -> Prop).
Context `{SL : !ShareCryptoLaws tries rsa_key}.
Variable store_order : gmap string bytes -> list (string * bytes).
Hypothesis store_order_ok : forall m, store_order m ≡ₚ map_to_list m.
Variables (cert_id tree_root : string -> result string).

#[local] Abbreviation usable := (usable rsa_key).
#[local] Abbreviation service_ok := (service_ok rsa_key).

Lemma usable_members w w' : same_members (tables w) (tables w') -> usable w -> sealing_usable rsa_key w' -> nodes_usable rsa_key (tables w') -> self_trusted w' -> nodes_known w' -> usable w'.
Proof.
  intros Hsame (H1 & H2 & _) H3 H4 H5 H6. split_and!; [|unfold few_members; by rewrite (same_members_roles _ _ _ Hsame)|done|done|done|done]. unfold keys_usable. by destruct Hsame as (_ & -> & _).
Qed.

(** ** The stages of a recovery *)

(** The service waits for shares; it has been lost at [sv0]. *)
Definition waits (sv0 sv : Service) : Prop :=
  let w := sv_world sv in
  same_members (tables (sv_world sv0)) (tables w) /\ recovery_shares w = recovery_shares (sv_world sv0) /\ usable w /\
  (exists s txid, service (tables w) = Some s /\ service_status s = WAITING_FOR_RECOVERY_SHARES /\ current_service_create_txid s = Some txid) /\ is_Some (last_signed_root (tables w)) /\
  sv_log sv = sv_log sv0 /\ sv_version sv0 <= sv_version sv.
Definition waiting (sv0 : Service) (fresh : LedgerSecret) (root : N -> string) (sv : Service) : Prop :=
  waits sv0 sv /\ sm (sv_world sv) = partOfPublicNetwork /\ sec sv = [(sv_version sv0 + 1, fresh)] /\ recovered_encrypted_ledger_secrets (sv_world sv) = sv_log sv0 /\ history_root (sv_world sv) = root.
(** The secrets are restored, and the private ledger has been read up to a version. *)
Definition restored (sv0 : Service) (fresh : LedgerSecret) (root : N -> string) (read : N) (sv : Service) : Prop :=
  waits sv0 sv /\ sm (sv_world sv) = readingPrivateLedger /\ (exists m, plain m = plain (sec sv0) /\ sec sv = (m ++ [(sv_version sv0 + 1, fresh)])%list) /\
  private_recovery (sv_world sv) = Some (mkPrivate (sv_version sv) (root (sv_version sv)) read).

Lemma settle_quiet v w : encrypted_past w = None -> new_endorsement w = None -> settle v w = commit_nodes w.
Proof. intros He Hn. unfold settle. cbn zeta. change (encrypted_past (commit_nodes w)) with (encrypted_past w). rewrite He. change (new_endorsement (commit_nodes w)) with (new_endorsement w). by rewrite Hn. Qed.
Lemma waits_commit sv0 w v log : waits sv0 (mkSvc w v log) -> waits sv0 (mkSvc (commit_nodes w) v log).
Proof. intros (H1 & H2 & H3 & H4 & H5 & H6 & H7). split_and!; [done|done|by apply usable_commit|done|done|done|done]. Qed.

(** What the invariant says of the secrets is said of their versions and keys. *)
Lemma plain_sec_ok m s v x version : plain m = plain s -> ordered s -> Forall (fun p => key_ok (raw_key p.2)) s -> Forall (fun p => p.1 < v) s -> key_ok (raw_key x) -> v <= version + 1 ->
  ordered m /\ Forall (fun p => p.1 < v) m /\ Forall (fun p => key_ok (raw_key p.2)) m /\ sec_ok (m ++ [(v, x)]) version.
Proof.
  intros E Ho Hk Hv Hx Hver. assert (m.*1 = s.*1) as E1 by (by rewrite <- !plain_keys, E).
  assert (ordered m) as Hom by (unfold ordered; by rewrite E1). assert (Forall (fun p => p.1 < v) m) as Hvm by (apply (Forall_fmap fst (fun k => k < v) m); rewrite E1; by apply Forall_fmap).
  assert (Forall (fun p => key_ok (raw_key p.2)) m) as Hkm by (apply (Forall_fmap (fun p : N * LedgerSecret => (p.1, raw_key p.2)) (fun q : N * bytes => key_ok q.2) m); change (Forall (fun q : N * bytes => key_ok q.2) (plain m)); rewrite E; by apply Forall_fmap).
  split_and!; [done|done|done|]. split_and!; [by apply ordered_snoc|by apply Forall_app; split; [|constructor]|by destruct m|]. apply Forall_app. split; [|by constructor]. eapply Forall_impl; [exact Hvm|]. cbn. intros; lia.
Qed.

Lemma restore_historical_ok m k x s : ledger_secrets s = [(k, x)] -> ordered m -> Forall (fun p => p.1 < k) m ->
  restore_historical m s = (Ok tt, set_ledger_secrets (m ++ [(k, x)]) s).
Proof.
  intros Hs Hm Hk. assert (merge [(k, x)] m = (m ++ [(k, x)])%list) as Hmerge by (apply merge_before; by apply ordered_snoc).
  unfold restore_historical, bind, gets, id, modify, rbegin. rewrite Hs. destruct (last m) as [l|] eqn:Hl; [|by rewrite Hmerge].
  apply last_Some_elem_of in Hl. rewrite Forall_forall in Hk. pose proof (Hk l Hl) as Hlk. cbn [fst]. destruct (N.leb_spec k l.1); [lia|]. by rewrite Hmerge.
Qed.

(** The hook of the transaction that broadcasts the restored secrets. *)
Lemma initiated_hooks v w m k x : sm w = partOfPublicNetwork -> received w ((fun p => (Some p.1, p.2)) <$> m) -> m <> [] -> ordered m -> Forall (fun p => key_ok (raw_key p.2)) m ->
  ledger_secrets (secrets w) = [(k, x)] -> Forall (fun p => p.1 < k) m ->
  exists s, hooks v w = (Ok tt, set_sm readingPrivateLedger (set_private_recovery (Some (mkPrivate v (history_root w v) 0)) (set_secrets s w))) /\ ledger_secrets s = (m ++ [(k, x)])%list.
Proof.
  intros Hsm (nm & es & Hnm & Hes & Ho) Hne Hom Hkm Hse Hlt. exists (set_ledger_secrets (m ++ [(k, x)]) (secrets w)). split; [|done].
  unfold hooks. rewrite (bind_ok _ _ _ _ _ (secrets_hook_other v w ltac:(by rewrite Hsm))). unfold bind at 1, gets, id. unfold is_reading_private_ledger. rewrite bool_decide_false by (by rewrite Hsm). cbn [andb when]. unfold bind at 1, ret.
  unfold secrets_global_hook, is_part_of_public_network. unfold bind at 1, gets, id. rewrite bool_decide_true by done. cbn [negb]. rewrite Hnm. cbn [mbind option_bind]. rewrite Hes.
  rewrite (restored_for_ok (node_encrypt_kp w) es m [] Ho Hkm Hom). unfold bind at 1, lift. cbn [app]. destruct m as [|p m]; [done|]. set (mm := p :: m) in *.
  unfold bind at 1, on_secrets. rewrite (restore_historical_ok mm k x (secrets w) Hse Hom Hlt). unfold begin_private_recovery, setup_private_recovery_store, expect, bind, gets, id. cbn [fst snd sm set_secrets]. rewrite decide_True by done. done.
Qed.

(** ** Submissions *)

(** The service that was lost. *)
Definition lost (sv0 : Service) (info : RecoverySharesInfo) (c : ServiceConfiguration) (v : N) (ls : LedgerSecret) : Prop :=
  service_ok sv0 /\ status_of sv0 = Some OPEN /\ Forall (fun p => p.1 <= sv_version sv0) (sec sv0) /\ recovery_shares (sv_world sv0) = Some info /\ config (tables (sv_world sv0)) = Some c /\
  last (sec sv0) = Some (v, ls) /\ good_shares ls (recovery_threshold c) (participants (tables (sv_world sv0))) (owners (tables (sv_world sv0))) info.

Lemma open_is_lost sv0 : service_ok sv0 -> status_of sv0 = Some OPEN -> Forall (fun p => p.1 <= sv_version sv0) (sec sv0) -> exists info c v ls, lost sv0 info c v ls.
Proof. intros Hok Ho Hv. pose proof Hok as (_ & _ & _ & _ & _ & Hopen). destruct (Hopen Ho) as (_ & v & ls & Hl & (info & c & Hi & Hc & Hg) & _). by exists info, c, v, ls. Qed.

Lemma lost_facts sv0 info c v ls : lost sv0 info c v ls ->
  chain (sv_log sv0) (sec sv0) /\ ordered (sec sv0) /\ Forall (fun p => key_ok (raw_key p.2)) (sec sv0) /\ Forall (fun p => p.1 < sv_version sv0 + 1) (sec sv0) /\ sec sv0 <> [] /\
  1 <= recovery_threshold c /\ N.of_nat (size (participants (tables (sv_world sv0)))) < prime /\ recoverable (tables (sv_world sv0)) /\ keys_have_info (tables (sv_world sv0)).
Proof.
  intros (Hok & Ho & Hv & Hi & Hc & Hl & Hg). pose proof Hok as (_ & Hk & (_ & Hf & _) & (Hord & Hkeys & Hne & _) & Hlog & Hopen). destruct (Hopen Ho) as (Hrec & _). pose proof Hrec as (c' & Hc' & H1 & _). rewrite Hc in Hc'. injection Hc' as <-.
  split_and!; [by destruct Hlog as [Hlog|(_ & _ & Hx)]|done|done| |done|done|done|done|done]. eapply Forall_impl; [exact Hv|]. cbn. intros; lia.
Qed.

Lemma is_full_key_share s : share_ok s -> is_full_key (share_bytes s) = Ok (sh_x s =? 0).
Proof. intros Hs. destruct (share_bytes_ok s Hs) as [Hlen Hd]. unfold is_full_key. by rewrite Hlen, N.eqb_refl, Hd. Qed.

#[local] Abbreviation own sv0 info := (own_share info (participants (tables (sv_world sv0))) (owners (tables (sv_world sv0)))).

(** A share is that of an owner when it is the secret itself. *)
Lemma own_share_full sv0 info c v ls q : lost sv0 info c v ls -> own sv0 info q -> q.2 <> [] /\ exists full, is_full_key q.2 = Ok full /\ (full = true <-> is_Some (owners (tables (sv_world sv0)) !! q.1)).
Proof.
  intros Hlost Hown. pose proof (lost_facts _ _ _ _ _ Hlost) as (_ & _ & _ & _ & _ & _ & Hf & _). destruct Hlost as (_ & _ & _ & _ & _ & _ & ps & Hps & _ & Hh).
  destruct (own_share_at ps _ _ info q _ Hps (roles_disjoint _) Hf Hh Hown) as (s & Eb & Hs & Hat). rewrite Eb. split; [done|]. exists (sh_x s =? 0). split; [by apply is_full_key_share|]. rewrite N.eqb_eq.
  destruct Hat as [[Ho ->]|(i & pem & Hi & ->)]; [done|]. cbn. split; [intros ?; lia|]. intros [pem' Ho]. apply list_elem_of_lookup_2, elem_of_by_name in Hi. cbn in Hi. destruct (proj1 (map_disjoint_spec _ _) (roles_disjoint (tables (sv_world sv0))) q.1 pem pem' Hi Ho).
Qed.

Lemma waits_ext sv0 sv w' v : waits sv0 sv -> same_core (sv_world sv) (set_sm (sm (sv_world sv)) (set_secrets (secrets (sv_world sv)) w')) -> sv_version sv <= v -> waits sv0 (mkSvc w' v (sv_log sv)).
Proof.
  intros (H1 & H2 & H3 & H4 & H5 & H6 & H7) (_ & Et & Er & Es & Ek & _ & Esf & Ekp) Hv. cbn in *. unfold waits. cbn [sv_world sv_version sv_log]. rewrite Et, Er. split_and!; [done|done| |done|done|done|lia].
  destruct H3 as (U1 & U2 & U3 & U4 & U5). unfold RecoveryRun.usable, sealing_usable, self_trusted, nodes_known in *. rewrite Et, Ek, Esf, Ekp. done.
Qed.

Lemma restore_started sv0 info c v ls fresh w subs : lost sv0 info c v ls -> same_members (tables (sv_world sv0)) (tables w) -> recovery_shares w = recovery_shares (sv_world sv0) -> usable w ->
  ledger_secrets (secrets w) = [(sv_version sv0 + 1, fresh)] -> recovered_encrypted_ledger_secrets w = sv_log sv0 -> sm w = partOfPublicNetwork ->
  holds_submitted fresh subs (submitted_shares w) -> Forall (own sv0 info) subs -> quorum (recovery_threshold c) (owners (tables (sv_world sv0))) subs ->
  exists m nm d, initiate_private_recovery store_order w = (Ok tt, set_node_secrets (Some nm) (set_drawn d w)) /\ plain m = plain (sec sv0) /\
    received (set_node_secrets (Some nm) (set_drawn d w)) ((fun p => (Some p.1, p.2)) <$> m).
Proof.
  intros Hlost Hsame Hrs Hu Hse Hre Hsm Hsub Hown Hq. pose proof (lost_facts _ _ _ _ _ Hlost) as (Hch & Hord & Hkeys & Hlt & Hne & H1 & Hf & _). destruct Hlost as (_ & _ & _ & Hi & Hc & Hl & Hg).
  destruct (restore_from_shares store_order store_order_ok w (sv_version sv0 + 1) fresh info c (participants (tables (sv_world sv0))) (owners (tables (sv_world sv0))) subs (sv_log sv0) (sec sv0) v ls) as (m & Em & Hm); try done.
  - by rewrite Hse.
  - by rewrite Hrs.
  - destruct Hsame as (_ & _ & ->). done.
  - apply roles_disjoint.
  - destruct (plain_sec_ok m (sec sv0) (sv_version sv0 + 1) (mkLedgerSecret (random_key 0) None) (sv_version sv0) Hm Hord Hkeys Hlt) as (_ & _ & Hkm & _); [apply length_random_key|done|].
    destruct Hu as (_ & _ & _ & Hn & Hst & _). destruct (broadcast_some_ok tries rsa_key m w Hn Hst Hkm) as (nm & d & Eb & Hrcv). exists m, nm, d. split_and!; [|done|done].
    unfold initiate_private_recovery, expect. unfold bind at 1. unfold bind at 1, gets, id. rewrite decide_True by done. unfold ret at 1. unfold bind at 1. rewrite Hre, (bind_ok _ _ _ _ _ Em). exact Eb.
Qed.

(** A transaction of the recovery that does not write what the hooks look at. *)
Lemma quiet_hooks v w : sm w <> partOfNetwork -> node_secrets w = None -> encrypted_past w = None -> hooks v w = (Ok tt, w).
Proof.
  intros Hsm Hn He. unfold hooks. rewrite (bind_ok _ _ _ _ _ (secrets_hook_other v w Hsm)). unfold bind at 1, gets, id. rewrite He, (bool_decide_false (is_Some None)) by (by intros [? ?]). rewrite andb_false_r. cbn [when]. unfold bind, ret. by rewrite global_hook_none.
Qed.

(** What a share does: it is counted, or it starts the private recovery. *)
Lemma submit_share_result sv0 info c v ls fresh w subs id b : lost sv0 info c v ls -> key_ok (raw_key fresh) -> same_members (tables (sv_world sv0)) (tables w) -> recovery_shares w = recovery_shares (sv_world sv0) -> usable w ->
  ledger_secrets (secrets w) = [(sv_version sv0 + 1, fresh)] -> recovered_encrypted_ledger_secrets w = sv_log sv0 -> sm w = partOfPublicNetwork -> get_service_status (tables w) = Some WAITING_FOR_RECOVERY_SHARES ->
  holds_submitted fresh subs (submitted_shares w) -> id ∉ subs.*1 -> Forall (own sv0 info) (subs ++ [(id, b)]) ->
  exists e d, let w1 := set_submitted_shares (<[id := e]> (submitted_shares w)) (set_drawn d w) in holds_submitted fresh (subs ++ [(id, b)]) (submitted_shares w1) /\
    (quorum (recovery_threshold c) (owners (tables (sv_world sv0))) (subs ++ [(id, b)]) /\
       (exists m nm d', submit_share store_order id b w = (Ok true, set_node_secrets (Some nm) (set_drawn d' w1)) /\ plain m = plain (sec sv0) /\ received (set_node_secrets (Some nm) (set_drawn d' w1)) ((fun p => (Some p.1, p.2)) <$> m)) \/
     N.of_nat (length (subs ++ [(id, b)])) < recovery_threshold c /\ ~ is_Some (owners (tables (sv_world sv0)) !! id) /\ submit_share store_order id b w = (Ok false, w1)).
Proof.
  intros Hlost Hk Hsame Hrs Hu Hse Hre Hsm Hst Hsub Hid Hown. pose proof Hown as Hown1. apply Forall_app in Hown1 as [_ Hq]. rewrite Forall_singleton in Hq. destruct (own_share_full _ _ _ _ _ _ Hlost Hq) as (Hb & full & Efull & Hfull). cbn [fst snd] in *.
  assert (is_Some (service (tables w))) as Hsv by (unfold get_service_status in Hst; destruct (service (tables w)); [by eexists|done]).
  destruct (submit_ok tries rsa_key id b w (sv_version sv0 + 1) fresh Hsv) as (e & Es & Hd); [by rewrite Hse|done|done|]. exists e, (drawn w + 1). cbn zeta. set (w1 := set_submitted_shares _ _) in *.
  pose proof (holds_one_more fresh subs (submitted_shares w) id b e Hsub Hid Hd) as Hsub1. change (<[id := e]> (submitted_shares w)) with (submitted_shares w1) in Hsub1. split; [done|].
  pose proof Hlost as (_ & _ & _ & _ & Hc & _). assert (config (tables w1) = Some c) as Hc1 by (destruct Hsame as (_ & _ & Hcfg); by rewrite <- Hc).
  assert (submit_share store_order id b w = (if (recovery_threshold c <=? N.of_nat (length (subs ++ [(id, b)]))) || full then
    fun w => match initiate_private_recovery store_order w with (Ok _, w') => (Ok true, w') | (Throw _, w') => (clear_submitted_recovery_shares ;;; ret false) w' end else ret false) w1) as E.
  { unfold submit_share. unfold bind at 1, gets at 1. change (Datatypes.id w) with w. rewrite decide_False by (rewrite Hst; tauto). unfold is_reading_private_ledger. rewrite bool_decide_false by (by rewrite Hsm). rewrite (bind_ok _ _ _ _ _ Es). rewrite Efull. unfold bind at 1, lift at 1. unfold bind at 1, gets at 1. change (Datatypes.id w1) with w1.
    unfold get_recovery_threshold. rewrite Hc1. unfold bind at 1, lift at 1. change (<[id := e]> (submitted_shares w)) with (submitted_shares w1). destruct Hsub1 as (_ & -> & _). done. }
  rewrite E. destruct ((recovery_threshold c <=? N.of_nat (length (subs ++ [(id, b)]))) || full) eqn:Et.
  - left. assert (quorum (recovery_threshold c) (owners (tables (sv_world sv0))) (subs ++ [(id, b)])) as Hquo.
    { apply orb_true_iff in Et as [Et%N.leb_le|Et]; [by left|right]. exists id. split; [by apply Hfull|]. rewrite fmap_app. apply elem_of_app. right. by left. }
    split; [done|]. destruct (restore_started sv0 info c v ls fresh w1 (subs ++ [(id, b)])) as (m & nm & d & Ei & Hm & Hrcv); try done. exists m, nm, d. split_and!; [by rewrite Ei|done|done].
  - right. apply orb_false_iff in Et as [Et%N.leb_gt Ef]. split_and!; [done| |done]. intros Ho. apply Hfull in Ho. congruence.
Qed.

Lemma submit_tx sv0 info c v ls fresh root sv subs id b : lost sv0 info c v ls -> key_ok (raw_key fresh) -> waiting sv0 fresh root sv -> holds_submitted fresh subs (submitted_shares (sv_world sv)) -> id ∉ subs.*1 -> Forall (own sv0 info) (subs ++ [(id, b)]) ->
  exists started sv', run_tx (submit_share store_order id b) sv = Ok (started, sv') /\
    (restored sv0 fresh root 0 sv' \/ waiting sv0 fresh root sv' /\ holds_submitted fresh (subs ++ [(id, b)]) (submitted_shares (sv_world sv')) /\ ~ quorum (recovery_threshold c) (owners (tables (sv_world sv0))) [(id, b)] /\ N.of_nat (length (subs ++ [(id, b)])) < recovery_threshold c).
Proof.
  intros Hlost Hk (Hw & Hsm & Hse & Hre & Hroot0) Hsub Hid Hown. pose proof Hw as (Hsame & Hrs & Hu & (s & txid & Hs & Hst & Htx) & Hroot & Hlog & Hver). set (w := begin_tx (sv_world sv)).
  destruct (submit_share_result sv0 info c v ls fresh w subs id b Hlost Hk Hsame Hrs Hu Hse Hre Hsm) as (e & d & Hsub1 & Hres); [unfold get_service_status; change (tables w) with (tables (sv_world sv)); rewrite Hs; cbn; by rewrite Hst|done|done|done|].
  unfold run_tx. fold w. set (w1 := set_submitted_shares _ _) in *. destruct Hres as [[Hq (m & nm & d' & E & Hm & Hrcv)]|(Hlt & Ho & E)]; rewrite E.
  - pose proof (lost_facts _ _ _ _ _ Hlost) as (_ & Hord & Hkeys & Hlts & Hne & _). destruct (plain_sec_ok m (sec sv0) (sv_version sv0 + 1) fresh (sv_version sv0) Hm Hord Hkeys Hlts Hk) as (Hom & Hvm & Hkm & _); [done|].
    set (w2 := set_node_secrets (Some nm) (set_drawn d' w1)) in *. destruct (initiated_hooks (sv_version sv + 1) w2 m (sv_version sv0 + 1) fresh Hsm Hrcv) as (st & Eh & Hst'); [|done|done|done|done|].
    { intros ->. by destruct (sec sv0). }
    rewrite Eh. eexists _, _. split; [done|]. left. rewrite settle_quiet by done. split_and!; [apply waits_commit, (waits_ext sv0 sv); [done|done|lia]|done|by exists m|by rewrite <- Hroot0].
  - rewrite (quiet_hooks _ w1); [|cbn; by rewrite Hsm|done|done]. eexists _, _. split; [done|]. right. rewrite settle_quiet by done. split_and!; [|done| |done].
    + split_and!; [|done|done|done|done]. apply waits_commit, (waits_ext sv0 sv); [done|done|lia].
    + intros [Hq|(id' & Ho' & Hin)]; [cbn in Hq; rewrite length_app in Hlt; cbn in Hlt; lia|]. apply list_elem_of_singleton in Hin. cbn in Hin. by subst id'.
Qed.

Lemma restored_submits shares sv0 fresh root n sv : restored sv0 fresh root n sv -> submit_all store_order shares sv = Ok sv.
Proof. intros (_ & Hsm & _). destruct shares as [|[id b] shares]; [done|]. cbn [submit_all]. unfold is_reading_private_ledger. by rewrite bool_decide_true. Qed.

(** A quorum restores the ledger secrets. *)
Lemma submit_all_ok sv0 info c v ls fresh root subs : lost sv0 info c v ls -> key_ok (raw_key fresh) -> forall sub_before sv, waiting sv0 fresh root sv -> holds_submitted fresh sub_before (submitted_shares (sv_world sv)) ->
  NoDup (sub_before ++ subs).*1 -> Forall (own sv0 info) (sub_before ++ subs) -> quorum (recovery_threshold c) (owners (tables (sv_world sv0))) (sub_before ++ subs) ->
  N.of_nat (length sub_before) < recovery_threshold c -> (forall id, id ∈ sub_before.*1 -> ~ is_Some (owners (tables (sv_world sv0)) !! id)) ->
  exists sv', submit_all store_order subs sv = Ok sv' /\ restored sv0 fresh root 0 sv'.
Proof.
  intros Hlost Hk. induction subs as [|[id b] subs IH]; intros before sv Hw Hh Hnd Hown Hq Hlen Hno.
  - rewrite app_nil_r in Hq. destruct Hq as [Hq|(id & Ho & Hin)]; [lia|]. by destruct (Hno id Hin).
  - assert (before ++ (id, b) :: subs = (before ++ [(id, b)]) ++ subs)%list as Eapp by (by rewrite <- app_assoc). rewrite Eapp in Hnd, Hown, Hq.
    assert (id ∉ before.*1) as Hid. { rewrite !fmap_app in Hnd. apply NoDup_app in Hnd as [Hnd _]. apply NoDup_app in Hnd as (_ & Hnd & _). intros Hin. apply (Hnd id Hin). by left. }
    pose proof Hown as Hown1. apply Forall_app in Hown1 as [Hown1 _].
    destruct (submit_tx sv0 info c v ls fresh root sv before id b Hlost Hk Hw Hh Hid Hown1) as (started & sv1 & E & Hres). cbn [submit_all]. pose proof Hw as (_ & Hsm & _). unfold is_reading_private_ledger. rewrite bool_decide_false by (by rewrite Hsm). rewrite E. cbn [rbind snd].
    destruct Hres as [Hr|(Hw1 & Hh1 & Hnq & Hlt)]; [exists sv1; split; [by eapply restored_submits|done]|]. apply (IH (before ++ [(id, b)])%list sv1); try done.
    intros id'. rewrite fmap_app, elem_of_app. intros [Hin|Hin%list_elem_of_singleton]; [by apply Hno|]. cbn in Hin. subst id'. intros Ho. apply Hnq. right. exists id. split; [done|by left].
Qed.

(** ** The private ledger *)

(** A secret is found for what its version and key are. *)
Lemma secret_at_plain m m' v : plain m = plain m' -> secret_at m v = secret_at m' v.
Proof.
  assert (forall l, secret_at l v = snd <$> last (filter (fun p => p.1 <= v) (plain l))) as Hp; [|intros E; by rewrite !Hp, E]. intros l. unfold secret_at, at_or_below.
  assert (filter (fun p => p.1 <= v) (plain l) = plain (filter (fun p => p.1 <= v) l)) as ->. { unfold plain. induction l as [|p l IH]; [done|]. rewrite fmap_cons, !filter_cons. cbn [fst]. case_decide; by rewrite IH. }
  unfold plain. rewrite fmap_last. by destruct (last _).
Qed.

(** Historical secrets are searched. *)
Lemma historical_key v s : ordered (ledger_secrets s) -> get_encryption_key_for v true s = (Ok (secret_at (ledger_secrets s) v), s).
Proof.
  intros Ho. unfold get_encryption_key_for, get_secret_for_version. assert (bind (slow_path v true) (fun ls => ret (raw_key <$> ls)) s = (Ok (secret_at (ledger_secrets s) v), s)) as E.
  { unfold slow_path, bind, gets, id. destruct (Nat.eqb_spec (upper_bound v (ledger_secrets s).*1) 0) as [E|E]; [unfold secret_at; by rewrite upper_bound_none|]. pose proof (upper_bound_prev v _ Ho E) as Hp. unfold secret_at. rewrite <- Hp.
    pose proof (upper_bound_le_length v (ledger_secrets s).*1) as Hle. rewrite length_fmap in Hle. destruct (lookup_lt_is_Some_2 (ledger_secrets s) (upper_bound v (ledger_secrets s).*1 - 1)) as [p Hx]; [lia|]. by rewrite Hx. }
  destruct (ledger_secrets s) as [|p l] eqn:El; unfold bind at 1 2, gets, id; rewrite El; [done|]. destruct (last_used_secret_it s); exact E.
Qed.

(** Every entry can be read with the secret in force at its version. *)
Definition entries_read (entries : N -> option bytes -> result bool) (s : list (N * LedgerSecret)) : Prop :=
  forall v, 1 <= v -> exists raw, secret_at s v = Some raw /\ entries v (Some raw) = Ok true.

Lemma entries_ok entries root v : forall fuel w n, sm w = readingPrivateLedger -> private_recovery w = Some (mkPrivate v root n) -> ordered (ledger_secrets (secrets w)) -> entries_read entries (ledger_secrets (secrets w)) ->
  n <= v -> (N.to_nat (v - n) <= fuel)%nat -> recover_private_ledger_entries entries fuel w = (Ok tt, set_private_recovery (Some (mkPrivate v root v)) w).
Proof.
  assert (forall w, private_recovery w = Some (mkPrivate v root v) -> w = set_private_recovery (Some (mkPrivate v root v)) w) as Hsame by (intros w <-; by destruct w).
  induction fuel as [|fuel IH]; intros w n Hsm Hp Ho Hr Hle Hf; cbn [recover_private_ledger_entries].
  - assert (n = v) as -> by lia. unfold ret. f_equal. by apply Hsame.
  - unfold bind at 1, gets. change (Datatypes.id w) with w. rewrite Hp. cbn [store_version recovery_v recovery_root]. unfold is_reading_private_ledger. rewrite bool_decide_true by done. cbn [negb orb]. destruct (N.eqb_spec n v) as [->|Hne]; [unfold ret; f_equal; by apply Hsame|].
    destruct (Hr (n + 1)) as (raw & Hraw & He); [lia|]. assert (on_secrets (get_encryption_key_for (n + 1) true) w = (Ok (Some raw), w)) as E. { unfold on_secrets. rewrite (historical_key _ _ Ho), Hraw. cbn. by destruct w. }
    rewrite (bind_ok _ _ _ _ _ E), He. unfold bind at 1, modify. rewrite (IH _ (n + 1)); [done|done|done|done|done|lia|lia].
Qed.

(** The operators bring the ledger of the lost service: its entries can be read
    with the secrets it has, and those after with the new one. *)
Definition same_ledger (r : Recovery) (sv : Service) : Prop :=
  entries_read (r_entries r) (sec sv ++ [(sv_version sv + 1, r_fresh r)]) /\ forall v, r_store_root r v = r_history_root r v.

Lemma read_private_ok r sv0 info c v ls sv : lost sv0 info c v ls -> key_ok (raw_key (r_fresh r)) -> same_ledger r sv0 -> restored sv0 (r_fresh r) (r_history_root r) 0 sv ->
  exists sv', read_private r sv = Ok sv' /\ restored sv0 (r_fresh r) (r_history_root r) (sv_version sv') sv'.
Proof.
  intros Hlost Hk [Hr _] (Hw & Hsm & (m & Hm & Hse) & Hp). pose proof (lost_facts _ _ _ _ _ Hlost) as (_ & Hord & Hkeys & Hlts & _). destruct (plain_sec_ok m (sec sv0) (sv_version sv0 + 1) (r_fresh r) (sv_version sv0) Hm Hord Hkeys Hlts Hk) as (_ & _ & _ & Ho & _); [lia|].
  unfold read_private. unfold sec in Hse. rewrite (entries_ok _ _ _ _ _ _ Hsm Hp); [|by rewrite Hse| |lia|lia].
  - eexists. split; [done|]. split_and!; [apply (waits_ext sv0 sv); [done|done|lia]|done|by exists m|done].
  - rewrite Hse. intros i Hi. destruct (Hr i Hi) as (raw & Hraw & He). exists raw. split; [|done]. rewrite <- Hraw. apply secret_at_plain. unfold plain in *. by rewrite !fmap_app, Hm.
Qed.

(** ** The end *)

Lemma plain_snoc (s : list (N * LedgerSecret)) l v ls : plain s = plain (l ++ [(v, ls)]) -> exists s' ls', s = (s' ++ [(v, ls')])%list /\ plain s' = plain l /\ raw_key ls' = raw_key ls.
Proof.
  destruct s as [|[v' ls'] s _] using rev_ind; unfold plain; rewrite fmap_app; [by destruct (_ <$> l)|]. rewrite fmap_app. cbn. intros [E1 E2]%app_inj_tail. injection E2 as -> Er. by exists s, ls'.
Qed.

Lemma encrypts_prev latest l0 l0' v0 e : raw_key l0' = raw_key l0 -> encrypts latest l0 v0 e -> encrypts latest l0' v0 e.
Proof. intros E (p & H1 & H2 & H3). exists p. by rewrite E. Qed.

(** The chain is about versions and keys alone. *)
Lemma chain_ext log s s' : chain log s -> plain s' = plain s -> chain log s'.
Proof.
  intros Hc. revert s'. induction Hc as [e v ls Hp Hn|log e v ls Hc IH Hp Hn|log e l v0 l0 v ls Hc IH He Hn|log e l v0 l0 v ls Hc IH He Hn]; intros s' Es.
  - destruct (plain_snoc s' [] v ls Es) as (s1 & ls' & -> & E1 & _). apply fmap_nil_inv in E1 as ->. by apply chain_first.
  - pose proof (IH s' Es) as Hc'. destruct (plain_snoc s' [] v ls Es) as (s1 & ls' & -> & E1 & _). apply fmap_nil_inv in E1 as ->. by apply chain_first_again.
  - change [(v0, l0); (v, ls)] with ([(v0, l0)] ++ [(v, ls)])%list in Es. rewrite app_assoc in Es. destruct (plain_snoc s' _ v ls Es) as (s1 & ls' & -> & E1 & Er). pose proof (IH s1 E1) as Hc'.
    destruct (plain_snoc s1 _ v0 l0 E1) as (s2 & l0' & -> & E2 & Er0). rewrite <- app_assoc. apply chain_next; [done| |done]. eapply encrypts_ext; [exact Er|]. by eapply encrypts_prev.
  - pose proof (IH s' Es) as Hc'. change [(v0, l0); (v, ls)] with ([(v0, l0)] ++ [(v, ls)])%list in Es. rewrite app_assoc in Es. destruct (plain_snoc s' _ v ls Es) as (s1 & ls' & -> & E1 & Er).
    destruct (plain_snoc s1 _ v0 l0 E1) as (s2 & l0' & -> & E2 & Er0). rewrite <- app_assoc in *. apply chain_again; [done| |done]. eapply encrypts_ext; [exact Er|]. by eapply encrypts_prev.
Qed.

(** The first entry of a recovered service continues the chain. *)
Lemma chain_recovered log s v ls e at_version : chain log s -> entry_for (s ++ [(v, ls)]) e -> chain (log ++ [recovery_hook at_version e]) (s ++ [(v, ls)]).
Proof.
  intros Hc (v' & latest & previous & Hs & Hn & He). assert (s <> []) as Hne by (destruct Hc; (done || by destruct l)). destruct Hs as [[Es ->]|(l & [v0 p0] & Es & ->)].
  - change [(v', latest)] with ([] ++ [(v', latest)])%list in Es. apply app_inj_tail in Es as [-> _]. done.
  - change [(v0, p0); (v', latest)] with ([(v0, p0)] ++ [(v', latest)])%list in Es. rewrite app_assoc in Es. apply app_inj_tail in Es as [-> E]. injection E as -> ->. rewrite <- app_assoc. apply chain_next; [done|done|cbn; by rewrite Hn].
Qed.

Lemma adjust_end_ok v s l k x : ledger_secrets s = (l ++ [(k, x)])%list -> adjust_previous_secret_stored_version v s = (Ok tt, set_ledger_secrets (l ++ [(k, mkLedgerSecret (raw_key x) (Some v))]) s).
Proof.
  intros Hs. unfold adjust_previous_secret_stored_version, bind, gets, id, modify. rewrite Hs. assert (adjust_last v (l ++ [(k, x)]) = l ++ [(k, mkLedgerSecret (raw_key x) (Some v))])%list as Ea.
  { unfold adjust_last. by rewrite reverse_snoc, reverse_involutive. }
  destruct (l ++ [(k, x)])%list eqn:E; [by destruct l|]. by rewrite Ea.
Qed.

Lemma end_recovery_ok sv0 info c v ls fresh root store_root sv : lost sv0 info c v ls -> key_ok (raw_key fresh) -> restored sv0 fresh root (sv_version sv) sv -> (forall n, store_root n = root n) ->
  exists sv', run_tx (recover_private_ledger_end tries store_root) sv = Ok (tt, sv') /\ service_ok (on_world recovery_ended sv') /\ status_of sv' = Some OPEN /\ plain (sec sv') = (plain (sec sv0) ++ [((sv_version sv0 + 1)%N, raw_key fresh)])%list.
Proof.
  intros Hlost Hk ((Hsame & Hrs & Hu & (s & txid & Hs & Hst & Htx) & Hroot & Hlog & Hver) & Hsm & (m & Hm & Hse) & Hpr) Hsr. pose proof (lost_facts _ _ _ _ _ Hlost) as (Hch & Hord & Hkeys & Hlts & Hne & _ & _ & Hrec & Hinfo).
  destruct (plain_sec_ok m (sec sv0) (sv_version sv0 + 1) fresh (sv_version sv) Hm Hord Hkeys Hlts Hk) as (Hom & Hvm & Hkm & Hsec); [lia|]. set (k := sv_version sv0 + 1) in *. set (v' := sv_version sv + 1).
  pose proof (same_members_info _ _ Hsame Hinfo) as Hinfo'. pose proof (same_members_recoverable _ _ Hsame Hrec) as Hrec'. set (w := begin_tx (sv_world sv)). set (w1 := set_submitted_shares ∅ w).
  assert (ledger_secrets (secrets w1) = (m ++ [(k, fresh)])%list) as Hse1 by exact Hse.
  destruct (issue_ok tries rsa_key w1 (sv_version sv) Hinfo' Hu Hrec') as (i1 & sealed & e & d & v1 & ls1 & E1 & Hent & Hl1 & Hi); [by rewrite Hse1|]. rewrite Hse1 in Hent, Hl1. rewrite last_snoc in Hl1. injection Hl1 as <- <-.
  set (w2 := set_encrypted_past _ _) in E1. pose proof (open_service_ok (tables (sv_world sv)) s Hinfo' Hrec' Hs ltac:(by rewrite Hst)) as Eo. set (t2 := set_service (Some (with_status OPEN s)) (tables (sv_world sv))) in *.
  set (w3 := set_tables t2 w2). assert (on_tables open_service w2 = (Ok true, w3)) as E2 by (unfold on_tables; change (tables w2) with (tables (sv_world sv)); by rewrite Eo).
  destruct (endorse_ok tries rsa_key w3 (with_status OPEN s) txid eq_refl Htx (or_intror Hroot)) as (x & d3 & E3). set (w4 := set_new_endorsement (Some x) (set_drawn d3 w3)) in *. set (w5 := set_tx_flags (SNAPSHOT_AT_NEXT_SIGNATURE :: tx_flags w4) w4).
  assert (check_private_ledger store_root w = Ok tt) as Ecp by (unfold check_private_ledger; change (private_recovery w) with (private_recovery (sv_world sv)); rewrite Hpr; cbn; rewrite N.eqb_refl; cbn; by rewrite decide_True).
  assert (recover_private_ledger_end tries store_root w = (Ok tt, w5)) as E.
  { unfold recover_private_ledger_end, expect. unfold bind at 1. unfold bind at 1, gets at 1, Datatypes.id at 1. rewrite decide_True by done. unfold ret at 1. unfold bind at 1, gets at 1. change (Datatypes.id w) with w. assert (lift (check_private_ledger store_root w) w = (Ok tt, w)) as Ecl by (unfold lift; by rewrite Ecp). rewrite (bind_ok _ _ _ _ _ Ecl). change (service (tables w)) with (service (tables (sv_world sv))).
    rewrite Hs, decide_False by (rewrite Hst; tauto). assert (clear_submitted_recovery_shares w = (Ok tt, w1)) as E0 by done. rewrite (bind_ok _ _ _ _ _ E0), (bind_ok _ _ _ _ _ E1), (bind_ok _ _ _ _ _ E2), (bind_ok _ _ _ _ _ E3). done. }
  unfold run_tx. fold w. rewrite E. fold v'. set (sec' := (m ++ [(k, mkLedgerSecret (raw_key fresh) (Some v'))])%list). set (st' := set_ledger_secrets sec' (secrets w5)).
  assert (hooks v' w5 = (Ok tt, set_secrets st' w5)) as Eh.
  { unfold hooks. rewrite (bind_ok _ _ _ _ _ (secrets_hook_other v' w5 ltac:(cbn; by rewrite Hsm))). unfold bind at 1, gets, Datatypes.id. unfold is_reading_private_ledger. rewrite bool_decide_true by exact Hsm. rewrite bool_decide_true by (by eexists). cbn [andb when].
    unfold bind at 1, one_off_secret_hook, on_secrets. change (secrets w5) with (secrets w1). rewrite (adjust_end_ok v' (secrets w1) m k fresh Hse1). cbn [fst snd]. rewrite global_hook_other; [done|]. cbn. by rewrite Hsm. }
  rewrite Eh. eexists. split; [done|]. assert (plain sec' = plain (sec sv0) ++ [(k, raw_key fresh)])%list as Hp by (unfold sec', plain in *; by rewrite fmap_app, Hm). split_and!; [|done|exact Hp].
  assert (usable (set_secrets st' w5)) as Hu' by exact Hu. unfold RecoveryRun.service_ok, on_world. cbn [sv_world sv_version sv_log]. split_and!; [done|exact Hinfo'| | | |].
  - exact (usable_settle rsa_key v' _ Hu').
  - unfold sec. cbn [sv_world]. change (ledger_secrets _) with sec'. destruct (plain_sec_ok m (sec sv0) k (mkLedgerSecret (raw_key fresh) (Some v')) v' Hm Hord Hkeys Hlts Hk) as (_ & _ & _ & Hsec'); [unfold v', k; lia|done].
  - left. unfold sec. cbn [sv_world]. change (ledger_secrets _) with sec'. unfold log_after. change (encrypted_past w5) with (Some e). rewrite Hlog. apply (chain_ext _ (m ++ [(k, fresh)])); [|unfold sec', plain; by rewrite !fmap_app].
    apply chain_recovered; [|done]. by eapply chain_ext.
  - intros _. split; [exact Hrec'|]. exists k, (mkLedgerSecret (raw_key fresh) (Some v')). unfold sec. cbn [sv_world]. change (ledger_secrets _) with sec'. split; [unfold sec'; by rewrite last_snoc|]. apply (issued_raw fresh); [done|]. refine (issued_settle fresh v' (set_secrets st' w5) _ Hi). apply Hu'.
Qed.

(** ** The start *)

(** What the creation of the service leaves in the tables. *)
Definition created (i : CreateIn) (s : ServiceInfo) (t t1 : Tables) : Prop :=
  same_members t t1 /\ (exists s1, service t1 = Some s1 /\ service_status s1 = RECOVERING /\ cert s1 = service_cert i /\ current_service_create_txid s1 = Some (create_txid i)) /\
  previous_service_identity t1 = Some (cert s) /\ is_Some (last_signed_root t1) /\ (nodes_usable rsa_key t -> rsa_key (public_encryption_key i) -> nodes_usable rsa_key t1) /\
  exists ni, nodes t1 !! node_id i = Some ni /\ node_status ni = TRUSTED /\ retired_committed ni = false /\ node_encryption_pub_key ni = public_encryption_key i.

Definition with_sealing (i : CreateIn) (w : World) : World :=
  match sealing_recovery_data i with
  | Some (key, name) => set_sealing_recovery_names (<[name := node_id i]> (sealing_recovery_names w)) (set_sealed_recovery_keys (<[node_id i := key]> (sealed_recovery_keys w)) w)
  | None => w
  end.

(** The ledger of a service that can be created anew. *)
Definition recreatable (i : CreateIn) (s : ServiceInfo) (t : Tables) : Prop :=
  service t = Some s /\ cert s <> service_cert i /\ is_Some (current_service_create_txid s) /\ (exists tree root, serialised_merkle_tree t = Some tree /\ tree_root tree = Ok root) /\ genesis_info i = None.

Lemma create_ok i s w : sm w = readingPublicLedger -> recreatable i s (tables w) ->
  exists t1, create tries cert_id tree_root i w = (Ok tt, with_sealing i (set_tables t1 (set_tx_flags (LEDGER_CHUNK_BEFORE_THIS_TX :: tx_flags w) w))) /\ created i s (tables w) t1.
Proof.
  intros Hsm (Hs & Hcert & [txid Htxid] & (tree & root & Htree & Hroot) & Hg). unfold create. unfold bind at 1, gets at 1. change (Datatypes.id w) with w. rewrite !(bool_decide_true (sm w = readingPublicLedger)) by done. cbn [negb]. rewrite andb_false_r.
  unfold is_service_created. rewrite Hs, (bool_decide_false (cert s = service_cert i)) by done. set (s1 := mkService (service_cert i) RECOVERING (Some (TxID.seqno txid)) (Some (default 0 (recovery_count s) + 1)) (in_service_data i) (Some (create_txid i))).
  set (t1 := set_service (Some s1) (set_last_signed_root (Some root) (set_previous_service_identity (Some (cert s)) (tables w)))).
  assert (on_tables (create_service tree_root (service_cert i) (create_txid i) (in_service_data i) true) w = (Ok tt, set_tables t1 w)) as E1.
  { unfold on_tables, create_service, bind, gets. change (Datatypes.id (tables w)) with (tables w). rewrite Hs, Htxid, Htree. unfold modify, lift, ret. rewrite Hroot. done. }
  rewrite (bind_ok _ _ _ _ _ E1). set (t2 := set_nodes (fmap (fun ni => if decide (node_status ni = RETIRED) then ni else retire ni)) t1).
  assert (on_tables retire_active_nodes (set_tables t1 w) = (Ok tt, set_tables t2 w)) as E2 by done. rewrite (bind_ok _ _ _ _ _ E2), Hg. unfold bind at 1, set_tx_flag at 1, modify at 1.
  set (t3 := set_nodes <[node_id i := mkNode TRUSTED (public_encryption_key i) None false (node_info_rest i)]> t2). set (w3 := set_tables t3 (set_tx_flags (LEDGER_CHUNK_BEFORE_THIS_TX :: tx_flags w) w)).
  assert (on_tables (add_node (node_id i) (mkNode TRUSTED (public_encryption_key i) None false (node_info_rest i))) (set_tx_flags (LEDGER_CHUNK_BEFORE_THIS_TX :: tx_flags (set_tables t2 w)) (set_tables t2 w)) = (Ok tt, w3)) as E3 by done. rewrite (bind_ok _ _ _ _ _ E3).
  exists t3. split.
  - unfold with_sealing. fold w3. unfold node_shuffle_sealed_shares, is_part_of_network. destruct (sealing_recovery_data i) as [[key name]|]; unfold bind, modify, ret, gets, Datatypes.id; rewrite bool_decide_false by (cbn; by rewrite Hsm); done.
  - split_and!; [done|by exists s1|done|by eexists| |].
    + intros Hn Hk nid ni. cbn. intros [[<- <-]|[Hne Hl]]%lookup_insert_Some; [done|]. rewrite lookup_fmap in Hl. destruct (nodes (tables w) !! nid) as [x|] eqn:Hx; [|done]. cbn in Hl. injection Hl as <-. specialize (Hn nid x Hx). by case_decide.
    + eexists. cbn. rewrite lookup_insert_eq. by split_and!.
Qed.

(** The service that is created waits for shares when its opening is proposed. *)
Lemma propose_ok i s t w : created i s t (tables w) -> sm w = partOfPublicNetwork ->
  exists s2, service_status s2 = WAITING_FOR_RECOVERY_SHARES /\ current_service_create_txid s2 = Some (create_txid i) /\
    propose_open tries cert_id (Some (cert s)) (service_cert i) w = unseal_or_wait (set_submitted_shares ∅ (set_tables (set_service (Some s2) (tables w)) w)).
Proof.
  intros (_ & (s1 & Hs & Hst & Hcert & Htxid) & Hprev & _) Hsm. exists (with_status WAITING_FOR_RECOVERY_SHARES s1). split_and!; [done|done|]. unfold propose_open, Constitution.apply. cbn [for_each Constitution.apply_action]. unfold Constitution.apply_transition.
  assert (forall m : M World unit, bind m (fun _ => ret tt) w = m w) as Hret by (intros m; unfold bind, ret; destruct (m w) as [[[]|] ?]; done). rewrite Hret. unfold bind at 1, gets. change (Datatypes.id w) with w. rewrite Hs, decide_False by (by intros [? ?]).
  unfold transition_service_to_open. unfold bind at 1, gets. change (Datatypes.id w) with w. rewrite Hs, decide_False by (rewrite Hst; by intros [?|?]). unfold check_identities. rewrite Hprev, decide_True by done. rewrite decide_True by done. cbn [rbind]. rewrite decide_True by done.
  unfold is_part_of_public_network. rewrite (bool_decide_true (sm w = partOfPublicNetwork)) by done. unfold bind at 1, lift. unfold bind at 1, clear_submitted_recovery_shares, modify at 1. done.
Qed.

(** What the operators bring. *)
Definition can_start (r : Recovery) (sv : Service) : Prop :=
  (exists s, recreatable (r_create r) s (tables (sv_world sv)) /\ r_previous r = Some (cert s)) /\ key_ok (raw_key (r_fresh r)) /\ rsa_key (public_encryption_key (r_create r)) /\
  (forall k name, sealing_recovery_data (r_create r) = Some (k, name) -> rsa_key (pubkey k)).

Lemma with_sealing_usable i w : sealing_usable rsa_key w -> (forall k name, sealing_recovery_data i = Some (k, name) -> rsa_key (pubkey k)) -> sealing_usable rsa_key (with_sealing i w).
Proof. intros Hu Hk. unfold with_sealing. destruct (sealing_recovery_data i) as [[k name]|] eqn:E; [|done]. intros id k'. cbn. intros [[<- <-]|[_ Hl]]%lookup_insert_Some; [by eapply Hk|by eapply Hu]. Qed.

(** The world after the creation of the service. *)
Lemma created_world r sv0 w0 : service_ok sv0 -> can_start r sv0 -> same_core (restart r sv0) (set_secrets empty_state w0) ->
  exists s t1 w1, create tries cert_id tree_root (r_create r) (begin_tx w0) = (Ok tt, w1) /\ r_previous r = Some (cert s) /\ tables w1 = t1 /\ created (r_create r) s (tables (sv_world sv0)) t1 /\
    sealing_usable rsa_key w1 /\ w1 = set_tables t1 (set_tx_flags (tx_flags w1) (set_sealing_recovery_names (sealing_recovery_names w1) (set_sealed_recovery_keys (sealed_recovery_keys w1) (begin_tx w0)))).
Proof.
  intros (_ & _ & (_ & _ & Hsu & _) & _) ((s & Hre & Hprev) & Hk & Hpub & Hsk) (_ & Et & Er & Ess & Ek & Esm & Esf & Ekp). cbn in Et, Er, Ess, Ek, Esm, Esf, Ekp.
  destruct (create_ok (r_create r) s (begin_tx w0)) as (t1 & Ec & Hcr); [done|cbn; by rewrite Et|]. change (tables (begin_tx w0)) with (tables w0) in Hcr. rewrite Et in Hcr.
  eexists s, t1, _. split_and!; [exact Ec|done| |done| |].
  - unfold with_sealing. by destruct (sealing_recovery_data (r_create r)) as [[key name]|].
  - apply with_sealing_usable; [|done]. unfold sealing_usable. cbn. rewrite Ek. exact Hsu.
  - unfold with_sealing. by destruct (sealing_recovery_data (r_create r)) as [[key name]|].
Qed.

(** The transactions before the recovery proper. *)
Lemma start_stages r sv0 w0 : service_ok sv0 -> can_start r sv0 -> recover_public_ledger_end (sv_version sv0) (r_fresh r) (restart r sv0) = (Ok tt, w0) ->
  same_core (restart r sv0) (set_secrets empty_state w0) -> ledger_secrets (secrets w0) = [(sv_version sv0 + 1, r_fresh r)] -> recovered_encrypted_ledger_secrets w0 = sv_log sv0 -> history_root w0 = r_history_root r ->
  exists w2, (forall w3 w4, unseal_or_wait w2 = (Ok tt, w3) -> encrypted_past w3 = None -> hooks (sv_version sv0 + 1 + 1) w3 = (Ok tt, w4) ->
      start tries cert_id tree_root r sv0 = Ok (mkSvc (settle (sv_version sv0 + 1 + 1) w4) (sv_version sv0 + 1 + 1) (sv_log sv0))) /\
    waiting sv0 (r_fresh r) (r_history_root r) (mkSvc w2 (sv_version sv0 + 1 + 1) (sv_log sv0)) /\ submitted_shares w2 = ∅ /\ node_secrets w2 = None /\ encrypted_past w2 = None /\ new_endorsement w2 = None /\
    sealing_recovery w2 = sealing_recovery w0 /\ cached_sealed_recovery_data w2 = cached_sealed_recovery_data w0 /\ sealed_shares w2 = sealed_shares w0.
Proof.
  intros Hok Hcan E0 Hcore Hse Hrec Hhr. destruct (created_world r sv0 w0 Hok Hcan Hcore) as (s & t1 & w1 & Ec & Hprev & Ht1 & Hcr & Hsu & Ew1). destruct Hcore as (_ & Et & Er & Ess & Ek & Esm & Esf & Ekp). cbn in Et, Er, Ess, Ek, Esm, Esf, Ekp.
  set (v := sv_version sv0 + 1) in *. assert (node_secrets w1 = None /\ encrypted_past w1 = None /\ new_endorsement w1 = None /\ sm w1 = readingPublicLedger) as (W1 & W2 & W3 & W4) by (rewrite Ew1; split_and!; [done|done|done|exact Esm]).
  assert (run_tx (create tries cert_id tree_root (r_create r)) (mkSvc w0 (sv_version sv0) (sv_log sv0)) = Ok (tt, mkSvc (commit_nodes w1) v (sv_log sv0))) as E1.
  { unfold run_tx. cbn [sv_world sv_version sv_log]. rewrite Ec. fold v. rewrite quiet_hooks by (done || by rewrite W4). rewrite settle_quiet by done. unfold log_after. by rewrite W2. }
  set (w1' := begin_tx (set_sm partOfPublicNetwork (commit_nodes w1))). destruct (propose_ok (r_create r) s (tables (sv_world sv0)) w1') as (s2 & Hst & Htx & E2); [cbn; by rewrite Ht1|done|]. set (w2 := set_submitted_shares ∅ _) in E2. exists w2. split.
  { intros w3 w4 Eu He Eh. unfold start. rewrite E0, E1. cbn [rbind snd]. unfold on_world. cbn [sv_world sv_version sv_log]. unfold run_tx. cbn [sv_world sv_version sv_log]. fold w1'. rewrite Hprev, E2, Eu, Eh. unfold log_after. by rewrite He. }
  assert (recovery_shares w1 = recovery_shares w0 /\ self w1 = self w0 /\ node_encrypt_kp w1 = node_encrypt_kp w0 /\ secrets w1 = secrets w0 /\ recovered_encrypted_ledger_secrets w1 = recovered_encrypted_ledger_secrets w0 /\
    sealing_recovery w1 = sealing_recovery w0 /\ cached_sealed_recovery_data w1 = cached_sealed_recovery_data w0 /\ sealed_shares w1 = sealed_shares w0 /\ history_root w1 = history_root w0) as (V1 & V2 & V3 & V4 & V5 & V6 & V7 & V8 & V9) by (rewrite Ew1; done).
  destruct Hcr as (Hsame & _ & _ & Hroot & Hnu & ni & Hni & Hnt & Hnr & Hkp). destruct Hcan as (_ & Hk & Hpub & _).
  assert (tables w2 = set_service (Some s2) (set_nodes_committed (nodes t1) t1)) as Ht2 by (cbn; by rewrite Ht1).
  split_and!; [|done|done|done|done|exact V6|exact V7|exact V8]. split_and!; [|done|by unfold sec; cbn [sv_world]; change (secrets w2) with (secrets w1); rewrite V4|cbn [sv_world]; change (recovered_encrypted_ledger_secrets w2) with (recovered_encrypted_ledger_secrets w1); by rewrite V5|cbn [sv_world]; change (history_root w2) with (history_root w1); by rewrite V9].
  unfold waits. cbn [sv_world sv_version sv_log]. rewrite Ht2. split_and!; [exact Hsame|change (recovery_shares w2) with (recovery_shares w1); by rewrite V1, Er| |by exists s2, (create_txid (r_create r))|exact Hroot|done|unfold v; lia].
  apply (usable_members (sv_world sv0)); [by rewrite Ht2|by destruct Hok as (_ & _ & Hu & _)|exact Hsu| | |].
  - rewrite Ht2. apply Hnu; [|done]. by destruct Hok as (_ & _ & (_ & _ & _ & Hn & _) & _).
  - exists ni. rewrite Ht2. change (self w2) with (self w1). change (node_encrypt_kp w2) with (node_encrypt_kp w1). rewrite V2, V3, Esf, Ekp. split; [|exact Hkp]. apply trusted_lookup. split; [exact Hni|by left].
  - intros nid x. rewrite Ht2. cbn [nodes nodes_committed set_service set_nodes_committed]. change (self w2) with (self w1). rewrite V2, Esf. intros Hx. split; [by exists x|]. intros ->. rewrite Hni in Hx. by injection Hx as <-.
Qed.

(** A node that does not seal waits for shares. *)
Lemma start_waiting r sv0 : service_ok sv0 -> can_start r sv0 -> r_sealing r = None ->
  exists sv1, start tries cert_id tree_root r sv0 = Ok sv1 /\ waiting sv0 (r_fresh r) (r_history_root r) sv1 /\ submitted_shares (sv_world sv1) = ∅.
Proof.
  intros Hok Hcan Hsl. set (w0 := set_secrets (init (sv_version sv0 + 1) (r_fresh r) empty_state).2 (restart r sv0)).
  assert (recover_public_ledger_end (sv_version sv0) (r_fresh r) (restart r sv0) = (Ok tt, w0)) as E0.
  { unfold recover_public_ledger_end, expect. unfold bind at 1. unfold bind at 1, gets at 1. unfold Datatypes.id. rewrite decide_True by done. unfold ret at 1. unfold bind at 1, on_secrets. unfold bind at 1, gets. unfold Datatypes.id. unfold find_sealed_recovery_data. cbn [sealing_recovery set_secrets restart]. by rewrite Hsl. }
  destruct (start_stages r sv0 w0 Hok Hcan E0) as (w2 & Hst & Hw & Hsub & H1 & H2 & H3 & H4 & _ & _); [done|done|done|done|].
  assert (unseal_or_wait w2 = (Ok tt, set_last_recovery_type (Some RECOVERY_SHARES) w2)) as Eu. { unfold unseal_or_wait, bind, gets, Datatypes.id. rewrite H4. cbn [sealing_recovery]. change (sealing_recovery w0) with (r_sealing r). rewrite Hsl. cbn. by rewrite decide_False by tauto. }
  set (w3 := set_last_recovery_type _ _) in Eu. destruct Hw as (Hw & Hsm & Hse & Hre & Hhr). pose proof (Hst w3 w3 Eu H2) as E. rewrite quiet_hooks in E; [|change (sm w3) with (sm w2); cbn in Hsm; by rewrite Hsm|done|done]. eexists. split; [by apply E|].
  rewrite settle_quiet by done. split; [|exact Hsub]. split_and!; [apply (waits_commit sv0 w3); exact Hw|done..].
Qed.

(** The node that restarts under a name it has sealed. *)
Definition seals (r : Recovery) (sv : Service) : Prop :=
  exists name nid ni k, r_sealing r = Some name /\ name <> "" /\ sealing_recovery_names (sv_world sv) !! name = Some nid /\ get_trusted_nodes (tables (sv_world sv)) !! nid = Some ni /\
    sealed_recovery_keys (sv_world sv) !! nid = Some k /\ sealed_key_ok rsa_key k.

(** The share such a node finds is good for the latest ledger secret. *)
Lemma find_sealed_ok r sv0 ls : issued ls (sv_world sv0) -> seals r sv0 ->
  exists nid e k, recover_public_ledger_end (sv_version sv0) (r_fresh r) (restart r sv0) = (Ok tt, set_cached_sealed (Some (nid, e, k)) (set_secrets (init (sv_version sv0 + 1) (r_fresh r) empty_state).2 (restart r sv0))) /\
    forall w, sealed_shares w = sealed_shares (sv_world sv0) -> unseal_share e k w = Ok (Some (mkLedgerSecret (raw_key ls) None)).
Proof.
  intros [_ (info & Hi & Hg)] (name & nid & ni & k & Hsl & Hne & Hn & Hni & Hk & Hko). destruct (unseal_ok rsa_key ls (sv_world sv0) info nid ni k Hi Hg Hni Hk Hko) as (e & He & Hu). exists nid, e, k. split; [|intros w Hw; apply Hu; by rewrite Hw].
  unfold recover_public_ledger_end, expect. unfold bind at 1. unfold bind at 1, gets at 1. unfold Datatypes.id. rewrite decide_True by done. unfold ret at 1. unfold bind at 1, on_secrets. unfold bind at 1, gets. unfold Datatypes.id. unfold find_sealed_recovery_data. cbn [sealing_recovery set_secrets restart]. rewrite Hsl.
  set (w := set_secrets _ _). change (sealing_recovery_names w) with (sealing_recovery_names (sv_world sv0)). change (sealed_shares w) with (sealed_shares (sv_world sv0)). change (sealed_recovery_keys w) with (sealed_recovery_keys (sv_world sv0)). rewrite Hn. cbn [mbind option_bind]. rewrite Hi. cbn [mbind option_bind]. rewrite He. cbn [mbind option_bind]. by rewrite Hk.
Qed.

(** Such a node restores the ledger secrets by itself. *)
Lemma start_unsealed r sv0 info c v ls : lost sv0 info c v ls -> can_start r sv0 -> seals r sv0 ->
  exists sv1, start tries cert_id tree_root r sv0 = Ok sv1 /\ restored sv0 (r_fresh r) (r_history_root r) 0 sv1.
Proof.
  intros Hlost Hcan Hseal. pose proof (lost_facts _ _ _ _ _ Hlost) as (Hch & Hord & Hkeys & Hlt & Hne & _). destruct Hlost as (Hok & Ho & _ & _ & _ & Hl & _).
  assert (issued ls (sv_world sv0)) as Hiss. { destruct Hok as (_ & _ & _ & _ & _ & Hopen). destruct (Hopen Ho) as (_ & v' & ls' & Hl' & Hiss). rewrite Hl in Hl'. by injection Hl' as <- <-. }
  destruct (find_sealed_ok r sv0 ls Hiss Hseal) as (nid & e & k & E0 & Hun). set (w0 := set_cached_sealed _ _) in E0.
  destruct (start_stages r sv0 w0 Hok Hcan E0) as (w2 & Hst & (Hw & Hsm & Hse & Hre & Hhr) & _ & _ & H2 & H3 & H4 & H5 & H6); [done|done|done|done|]. cbn [sv_world] in Hsm, Hre.
  set (w2' := set_last_recovery_type (Some LOCAL_UNSEALING) w2). destruct (restore_map_ok (sv_log sv0) (sec sv0) v ls w2' Hch Hord Hkeys Hl) as (m & Em & Hm).
  destruct (plain_sec_ok m (sec sv0) (sv_version sv0 + 1) (r_fresh r) (sv_version sv0 + 1 + 1) Hm Hord Hkeys Hlt) as (Hom & Hvm & Hkm & _); [by destruct Hcan as (_ & ? & _)|lia|].
  pose proof Hw as (_ & _ & Hu & _). destruct Hu as (_ & _ & _ & Hn & Hst' & _). destruct (broadcast_some_ok tries rsa_key m w2' Hn Hst' Hkm) as (nm & d & Eb & Hrcv). set (w3 := set_node_secrets (Some nm) (set_drawn d w2')) in *.
  assert (unseal_or_wait w2 = (Ok tt, w3)) as Eu.
  { destruct Hseal as (name & _ & _ & _ & Hsl & Hname & _). unfold unseal_or_wait. unfold bind at 1, gets. unfold Datatypes.id. rewrite H4, H5. change (sealing_recovery w0) with (r_sealing r). rewrite Hsl. cbn [default from_option]. unfold default. rewrite decide_True by done.
    change (cached_sealed_recovery_data w0) with (Some (nid, e, k)). cbn beta iota. rewrite (Hun w2) by (by rewrite H6). unfold bind at 1, lift. unfold bind at 1, modify. fold w2'. unfold initiate_private_recovery_unsealing_unsafe, expect.
    unfold bind at 1. unfold bind at 1, gets at 1. unfold Datatypes.id. rewrite decide_True by done. unfold ret at 1. unfold bind at 1, gets. change (recovered_encrypted_ledger_secrets w2') with (recovered_encrypted_ledger_secrets w2). rewrite Hre, (bind_ok _ _ _ _ _ Em). exact Eb. }
  destruct (initiated_hooks (sv_version sv0 + 1 + 1) w3 m (sv_version sv0 + 1) (r_fresh r) Hsm Hrcv) as (s & Eh & Hs); [|done|done|exact Hse|done|].
  { intros ->. by destruct (sec sv0). }
  eexists. split; [exact (Hst w3 _ Eu H2 Eh)|]. set (w4 := set_sm readingPrivateLedger _). rewrite settle_quiet by done.
  split_and!; [apply waits_commit, (waits_ext sv0 (mkSvc w2 (sv_version sv0 + 1 + 1) (sv_log sv0)) w4 _ Hw); [done|cbn; lia]|done|by exists m|]. cbn. by rewrite <- Hhr.
Qed.

(** ** Recovery succeeds *)

Lemma recover_ends r sv0 sv1 info c v ls : lost sv0 info c v ls -> key_ok (raw_key (r_fresh r)) -> same_ledger r sv0 -> start tries cert_id tree_root r sv0 = Ok sv1 ->
  (exists sv2, submit_all store_order (r_shares r) sv1 = Ok sv2 /\ restored sv0 (r_fresh r) (r_history_root r) 0 sv2) ->
  exists sv, recover tries store_order cert_id tree_root r sv0 = Ok sv /\ service_ok sv /\ status_of sv = Some OPEN /\ plain (sec sv) = (plain (sec sv0) ++ [((sv_version sv0 + 1)%N, raw_key (r_fresh r))])%list.
Proof.
  intros Hlost Hk Hsame E1 (sv2 & E2 & Hr). destruct (read_private_ok r sv0 info c v ls sv2 Hlost Hk Hsame Hr) as (sv2' & E2' & Hr').
  destruct (end_recovery_ok sv0 info c v ls (r_fresh r) (r_history_root r) (r_store_root r) sv2' Hlost Hk Hr') as (sv3 & E3 & Hok & Ho & Hp); [apply Hsame|].
  exists (on_world recovery_ended sv3). split_and!; [|done|exact Ho|exact Hp]. unfold recover. rewrite E1. cbn [rbind]. rewrite E2. cbn [rbind]. rewrite E2'. cbn [rbind]. by rewrite E3.
Qed.

End recovery.
End DisasterRecovery.
