(* ===== verification/ServiceLife.v ===== *)
(** * The life of a service

    Proposals are applied to a service, nodes join it and retire, it is opened,
    lost and recovered. When the proposals are careful its members can recover it
    from its ledger, and so can a node that sealed its ledger secret; what happens
    when they are not is shown after. *)

From S2P Require Import Prelude ViewHistory TxStatus LedgerEntries LedgerSecrets LedgerSecretsSpec Sharing SharingSpec Encryptor EncryptorSpec GovTables GovTablesSpec ShareManager ShareManagerSpec NodeRecovery Constitution RecoverySpec NodeRecoverySpec RecoveryRun GovernanceRun DisasterRecovery.
From Stdlib Require Import Init.Byte Strings.Byte.

Module ServiceLife.
Import OrderedMap LedgerSecrets Encryptor EncryptorSpec Sharing SharingSpec GovTables GovTablesSpec ShareManager ShareManagerSpec NodeRecovery RecoverySpec NodeRecoverySpec RecoveryRun GovernanceRun RecoveryLife DisasterRecovery.
Open Scope N_scope.
Open Scope m_scope.

Section life.
Context `{SC : ShareCrypto} `{NR : NodeRest} (tries : nat) (rsa_key : string -> Prop).
Context `{SL : !ShareCryptoLaws tries rsa_key}.
Variable store_order : gmap string bytes -> list (string * bytes).
Hypothesis store_order_ok : forall m, store_order m ≡ₚ map_to_list m.
Variables (cert_id tree_root : string -> result string).

#[local] Abbreviation service_ok := (service_ok rsa_key).
#[local] Abbreviation usable := (usable rsa_key).
#[local] Abbreviation careful := (careful tries rsa_key cert_id).

(** ** Runs *)

(** A service that has just started is not open, and has one ledger secret. *)
Definition initial (sv : Service) : Prop :=
  sm (sv_world sv) = partOfNetwork /\ keys_have_info (tables (sv_world sv)) /\ usable (sv_world sv) /\ status_of sv <> Some OPEN /\ sv_log sv = [] /\
  exists v ls, sec sv = [(v, ls)] /\ key_ok (raw_key ls) /\ v <= sv_version sv + 1.

(** Enough members bring the share that they decrypt with their own key. *)
Definition members_recover (r : Recovery) (sv : Service) : Prop :=
  r_sealing r = None /\ NoDup (r_shares r).*1 /\ exists info c, recovery_shares (sv_world sv) = Some info /\ config (tables (sv_world sv)) = Some c /\
    Forall (own_share info (participants (tables (sv_world sv))) (owners (tables (sv_world sv)))) (r_shares r) /\ quorum (recovery_threshold c) (owners (tables (sv_world sv))) (r_shares r).

(** An open service is lost after a transaction that its latest ledger secret
    encrypts. What is recovered ends with a signature, that comes after the
    transaction that rekeys the ledger. *)
Definition lost_open (sv : Service) : Prop := status_of sv = Some OPEN /\ Forall (fun p => p.1 <= sv_version sv) (sec sv).

(** What happens to a service, where proposals are [allowed]: they are applied, the
    opening of the service among them, members acknowledge the state, other nodes
    join and are marked as retired, there are other transactions, and the service is
    lost and recovered. *)
Inductive step (allowed : list Constitution.Action -> World -> Prop) (sv sv' : Service) : Prop :=
| step_propose u actions : allowed actions (begin_tx (sv_world sv)) -> run_tx (Constitution.apply tries cert_id actions) sv = Ok (u, sv') -> step allowed sv sv'
| step_open u previous next : run_tx (propose_open tries cert_id previous next) sv = Ok (u, sv') -> step allowed sv sv'
| step_ack u id digest : (forall d, member_info (tables (sv_world sv)) !! id = Some d -> few_members (activated id d (tables (sv_world sv)))) -> run_tx (ack_state_digest tries id digest) sv = Ok (u, sv') -> step allowed sv sv'
| step_join st seqno i : joins rsa_key i (sv_world sv) -> run_tx (join tries seqno i) sv = Ok (st, sv') -> step allowed sv sv'
| step_retired u : (forall c, nodes_committed (tables (sv_world sv)) !! self (sv_world sv) = Some c -> node_status c <> RETIRED) -> run_tx set_retired_committed sv = Ok (u, sv') -> step allowed sv sv'
| step_other (u : unit) : run_tx (ret u) sv = Ok (u, sv') -> step allowed sv sv'   (* of a signature, or of an application *)
| step_recover r : lost_open sv -> can_start rsa_key tree_root r sv -> same_ledger r sv -> members_recover r sv \/ seals rsa_key r sv -> recover tries store_order cert_id tree_root r sv = Ok sv' -> step allowed sv sv'.

Definition reachable (allowed : list Constitution.Action -> World -> Prop) (sv : Service) : Prop := exists sv0, initial sv0 /\ rtc (step allowed) sv0 sv.

Lemma reach_initial allowed sv : initial sv -> reachable allowed sv.
Proof. intros Hi. by exists sv. Qed.
Lemma reach_step allowed sv sv' : reachable allowed sv -> step allowed sv sv' -> reachable allowed sv'.
Proof. intros (sv0 & Hi & Hr) Hs. exists sv0. split; [done|]. by eapply rtc_r. Qed.

Lemma initial_ok sv : initial sv -> service_ok sv.
Proof.
  intros (Hsm & Hk & Hu & Hst & Hlog & v & ls & Hs & Hls & Hv). split_and!; [done|done|done| |right; split_and!; [done|by eexists|done]|done]. rewrite Hs. split_and!; [by repeat constructor|by repeat constructor|done|by repeat constructor].
Qed.

(** ** Recovery *)

Lemma recovers r sv : service_ok sv -> lost_open sv -> can_start rsa_key tree_root r sv -> same_ledger r sv -> members_recover r sv \/ seals rsa_key r sv ->
  exists sv', recover tries store_order cert_id tree_root r sv = Ok sv' /\ service_ok sv' /\ status_of sv' = Some OPEN /\ plain (sec sv') = (plain (sec sv) ++ [((sv_version sv + 1)%N, raw_key (r_fresh r))])%list.
Proof.
  intros Hok [Ho Hv] Hcan Hsame Hhow. destruct (open_is_lost rsa_key sv Hok Ho Hv) as (info & c & v & ls & Hlost). pose proof Hcan as (_ & Hk & _). destruct Hhow as [(Hsl & Hnd & info' & c' & Hi & Hc & Hown & Hq)|Hseal].
  - destruct (start_waiting tries rsa_key cert_id tree_root r sv Hok Hcan Hsl) as (sv1 & E & Hw & Hs). pose proof Hlost as (_ & _ & _ & Hi' & Hc' & _). rewrite Hi in Hi'. injection Hi' as <-. rewrite Hc in Hc'. injection Hc' as <-.
    pose proof (lost_facts rsa_key _ _ _ _ _ Hlost) as (_ & _ & _ & _ & _ & H1 & _). apply (recover_ends tries rsa_key store_order cert_id tree_root r sv sv1 info' c' v ls Hlost Hk Hsame E).
    apply (submit_all_ok tries rsa_key store_order store_order_ok cert_id tree_root sv info' c' v ls (r_fresh r) (r_history_root r) (r_shares r) Hlost Hk [] sv1 Hw); [rewrite Hs; apply holds_none|done|done|done|cbn; lia|]. intros id Hid. by apply not_elem_of_nil in Hid.
  - destruct (start_unsealed tries rsa_key cert_id tree_root r sv info c v ls Hlost Hcan Hseal) as (sv1 & E & Hr). apply (recover_ends tries rsa_key store_order cert_id tree_root r sv sv1 info c v ls Hlost Hk Hsame E). exists sv1. split; [by eapply restored_submits|done].
Qed.

(** A transaction that has not rekeyed the ledger. *)
Lemma tx_plain_ok {A} (m : M World A) sv u sv' : service_ok sv -> (forall a w, m (begin_tx (sv_world sv)) = (Ok a, w) -> tx_ok rsa_key sv None w) -> run_tx m sv = Ok (u, sv') -> service_ok sv'.
Proof.
  intros Hok Hm E. destruct (m (begin_tx (sv_world sv))) as [[a|] w] eqn:E1; [|unfold run_tx in E; by rewrite E1 in E]. destruct (run_tx_ok rsa_key m sv a w None Hok E1 (Hm a w eq_refl)) as (sv1 & E2 & Hok1). rewrite E in E2. by injection E2 as _ <-.
Qed.

Lemma step_ok sv sv' : service_ok sv -> step careful sv sv' -> service_ok sv'.
Proof.
  intros Hok Hs. pose proof (begin_ok rsa_key sv Hok) as Hb. destruct Hs as [u l Hl E|u p n E|u id dg Hf E|st seqno i Hj E|u Hs E|u E|r Hlo Hcan Hsame Hhow E].
  - exact (tx_proposal_ok tries rsa_key cert_id l sv u sv' Hok Hl E).
  - exact (tx_open_ok tries rsa_key cert_id p n sv u sv' Hok E).
  - refine (tx_plain_ok _ sv u sv' Hok _ E). intros a w E1. exact (ack_tx tries rsa_key sv id dg _ a w Hok Hb Hf E1).
  - exact (tx_join_ok tries rsa_key seqno i sv st sv' Hok Hj E).
  - refine (tx_plain_ok _ sv u sv' Hok _ E). intros a w E1. exact (set_retired_tx rsa_key sv _ a w Hb Hs E1).
  - refine (tx_plain_ok _ sv u sv' Hok _ E). intros a w E1. by injection E1 as _ <-.
  - destruct (recovers r sv Hok Hlo Hcan Hsame Hhow) as (sv1 & E2 & Hok1 & _). rewrite E in E2. by injection E2 as <-.
Qed.

Lemma reachable_ok sv : reachable careful sv -> service_ok sv.
Proof. intros (sv0 & Hi & Hr). apply initial_ok in Hi. induction Hr as [|sv1 sv2 sv3 Hs _ IH]; [done|]. by apply IH, (step_ok sv1). Qed.

(** C4. A service is lost while open, after a transaction that its latest ledger
    secret encrypts, in a run with careful proposals (while the service is open
    they do not set a member again who has a share; after a rekey they do not
    issue shares again in the same transaction, to members, by a new threshold or
    to nodes that become trusted; they do not remove the node that is followed;
    an opening is a proposal of its own; encryption keys are RSA keys, and
    participants fewer than the prime of the field). Members, thresholds and
    nodes may have changed, the ledger have been rekeyed and the service
    recovered before. If each of enough participants, or one owner, submits the
    share they decrypt with their own key, and the ledger that is read is that
    of the lost service, each entry readable with the secret in force at its
    version, then the recovery runs to its end: the private ledger is read to
    the end with the restored secrets, the service is open again, and the node
    holds every ledger secret the lost service had, at its version, with the new
    one after them. The recovered service can be lost and recovered in turn. *)
Theorem recovery_succeeds r sv : reachable careful sv -> lost_open sv -> can_start rsa_key tree_root r sv -> same_ledger r sv -> members_recover r sv ->
  exists sv', recover tries store_order cert_id tree_root r sv = Ok sv' /\ reachable careful sv' /\ status_of sv' = Some OPEN /\
    plain (sec sv') = (plain (sec sv) ++ [((sv_version sv + 1)%N, raw_key (r_fresh r))])%list.
Proof.
  intros Hr Hlo Hcan Hsame Hm. destruct (recovers r sv (reachable_ok sv Hr) Hlo Hcan Hsame (or_introl Hm)) as (sv' & E & _ & Ho & Hp). exists sv'. split_and!; [done| |done|done].
  apply (reach_step careful sv sv' Hr). by apply (step_recover _ _ _ r); [| | |left|].
Qed.

(** C9. A service that is lost while open, after a run with careful proposals and a
    transaction that its latest ledger secret encrypts, is recovered without any
    share of a member by a node that restarts under a name whose recovery key was
    sealed by a node that the lost service trusted, when the ledger that is read
    is that of the lost service. *)
Theorem sealed_recovery_succeeds r sv : reachable careful sv -> lost_open sv -> can_start rsa_key tree_root r sv -> same_ledger r sv -> seals rsa_key r sv ->
  exists sv', recover tries store_order cert_id tree_root r sv = Ok sv' /\ reachable careful sv' /\ status_of sv' = Some OPEN /\
    plain (sec sv') = (plain (sec sv) ++ [((sv_version sv + 1)%N, raw_key (r_fresh r))])%list.
Proof.
  intros Hr Hlo Hcan Hsame Hm. destruct (recovers r sv (reachable_ok sv Hr) Hlo Hcan Hsame (or_intror Hm)) as (sv' & E & _ & Ho & Hp). exists sv'. split_and!; [done| |done|done].
  apply (reach_step careful sv sv' Hr). by apply (step_recover _ _ _ r); [| | |right|].
Qed.

(** ** Open services *)

(** A member can decrypt their share. *)
Lemma own_shares ls w id pem role : issued ls w -> role <> NonParticipant -> in_role role (tables w) !! id = Some pem ->
  exists info e b, recovery_shares w = Some info /\ encrypted_shares info !! id = Some e /\ rsa_oaep_unwrap pem e = Some b /\ own_share info (participants (tables w)) (owners (tables w)) (id, b).
Proof.
  intros [(info & c & Hi & Hc & ps & Hps & _ & Hp & Ho) _] Hrole Hin. pose proof (roles_disjoint (tables w)) as Hd.
  assert (exists e b, encrypted_shares info !! id = Some e /\ rsa_oaep_unwrap pem e = Some b) as (e & b & He & Hb).
  { destruct role; [done| |by destruct (Ho id pem Hin) as (e & ? & ?); eauto].
    pose proof (proj2 (elem_of_by_name _ id pem) Hin) as Hx. apply list_elem_of_lookup in Hx as [i Hx]. destruct (Hp i id pem Hx) as (e & ? & ?). eauto. }
  exists info, e, b. split_and!; [done|done|done|]. exists pem, e. split_and!; [|done|done]. apply lookup_union_Some; [done|]. destruct role; [done|auto..].
Qed.

Lemma apply_one a w w' : Constitution.apply_action tries cert_id a w = (Ok tt, w') -> Constitution.apply tries cert_id [a] w = (Ok tt, w').
Proof. intros E. unfold Constitution.apply. cbn [for_each]. by rewrite (bind_ok _ _ _ _ _ E). Qed.

(** A transaction that no hook looks at. *)
Lemma quiet_tx {A} (m : M World A) sv a w : m (begin_tx (sv_world sv)) = (Ok a, w) -> hooks (sv_version sv + 1) w = (Ok tt, w) -> encrypted_past w = None -> new_endorsement w = None ->
  run_tx m sv = Ok (a, mkSvc (commit_nodes w) (sv_version sv + 1) (sv_log sv)).
Proof. intros E Eh He Hn. unfold run_tx. rewrite E, Eh, settle_quiet by done. unfold log_after. by rewrite He. Qed.

(** The shares are issued anew, for the latest secret of the node. *)
Lemma refresh_runs w v ls : keys_have_info (tables w) -> usable w -> recoverable (tables w) -> last (ledger_secrets (secrets w)) = Some (v, ls) -> key_ok (raw_key ls) ->
  exists info d c, Constitution.apply_action tries cert_id Constitution.trigger_recovery_shares_refresh w = (Ok tt, set_recovery_shares (Some info) (set_drawn d w)) /\
    config (tables w) = Some c /\ good_shares ls (recovery_threshold c) (participants (tables w)) (owners (tables w)) info.
Proof.
  intros Hk (Hu1 & Hu2 & _) Hrec Hl Hls. destruct (shuffle_ok tries rsa_key ls w Hk Hu1 Hu2 Hrec Hls) as (info & d & c & E & H). exists info, d, c. split; [|done].
  cbn [Constitution.apply_action]. unfold trigger_recovery_shares_refresh, shuffle_recovery_shares. by rewrite (bind_ok _ _ _ _ _ (latest_ok w v ls Hl)).
Qed.

Lemma rekey_runs sv w : service_ok sv -> base_ok rsa_key sv w -> status_of sv = Some OPEN -> recoverable (tables w) ->
  exists ls w', Constitution.apply_action tries cert_id Constitution.trigger_ledger_rekey w = (Ok tt, w') /\ tx_ok rsa_key sv (Some ls) w'.
Proof.
  intros Hok Hb Ho Hrec. destruct (rekey_tx tries rsa_key sv w Hok Hb Ho Hrec) as (ls & w' & E & Htx). exists ls, w'. split; [|done]. cbn [Constitution.apply_action]. unfold Constitution.triggerLedgerRekey. by rewrite (bind_ok _ _ _ _ _ E).
Qed.

(** C8. While a service is open, after a run with careful proposals, its shares
    follow its members: every active participant and owner has a share in the
    ledger that their key decrypts, and neither a proposal that issues the shares
    again nor one that rekeys the ledger can fail. *)
Theorem open_service_keeps_shares sv : reachable careful sv -> status_of sv = Some OPEN ->
  (forall role id pem, in_role role (tables (sv_world sv)) !! id = Some pem -> role <> NonParticipant ->
     exists info e b, recovery_shares (sv_world sv) = Some info /\ encrypted_shares info !! id = Some e /\ rsa_oaep_unwrap pem e = Some b) /\
  (exists sv', run_tx (Constitution.apply tries cert_id [Constitution.trigger_recovery_shares_refresh]) sv = Ok (tt, sv') /\ reachable careful sv') /\
  (exists sv', run_tx (Constitution.apply tries cert_id [Constitution.trigger_ledger_rekey]) sv = Ok (tt, sv') /\ reachable careful sv').
Proof.
  intros Hr Hst. pose proof (reachable_ok sv Hr) as Hok. pose proof Hok as (Hsm & Hk & Hu & Hsec & _ & Hopen). destruct (Hopen Hst) as (Hrec & v & ls & Hl & Hiss). destruct (last_sec _ _ Hsec) as (v' & ls' & Hl' & Hls). rewrite Hl in Hl'. injection Hl' as <- <-.
  pose proof (begin_ok rsa_key sv Hok) as Hb. split_and!.
  - intros role id pem Hin Hrole. destruct (own_shares ls (sv_world sv) id pem role Hiss Hrole Hin) as (info & e & b & H1 & H2 & H3 & _). by exists info, e, b.
  - destruct (refresh_runs (begin_tx (sv_world sv)) v ls Hk Hu Hrec Hl Hls) as (info & d & c & E & _). apply apply_one in E.
    destruct (proposal_tx tries rsa_key cert_id sv [Constitution.trigger_recovery_shares_refresh] Hok None _ tt _ Hb ltac:(done) E) as [rk Htx].
    destruct (run_tx_ok rsa_key _ sv tt _ rk Hok E Htx) as (sv1 & E2 & _). exists sv1. split; [done|]. apply (reach_step careful sv sv1 Hr). by apply (step_propose _ _ _ tt [Constitution.trigger_recovery_shares_refresh]).
  - destruct (rekey_runs sv _ Hok (proj1 Hb) Hst Hrec) as (ls1 & w1 & E & Htx). apply apply_one in E. destruct (run_tx_ok rsa_key _ sv tt _ _ Hok E Htx) as (sv1 & E2 & _). exists sv1. split; [done|].
    apply (reach_step careful sv sv1 Hr). by apply (step_propose _ _ _ tt [Constitution.trigger_ledger_rekey]).
Qed.

(** ** Where the shares are lost *)

(** A service all of whose recovery members are owners and whose threshold is
    more than 1 is opened by [open_service], though no shares can be issued for it. *)
Theorem owners_only_opens t s c : keys_have_info t -> participants t = ∅ -> owners t <> ∅ -> config t = Some c -> 1 < recovery_threshold c -> service t = Some s -> service_status s = OPENING ->
  open_service t = (Ok true, set_service (Some (with_status OPEN s)) t) /\
  forall ls w, tables w = t -> exists e, shuffle_recovery_shares_of tries ls w = (Throw e, w).
Proof.
  intros Hk Hp Ho Hc H1 Hs Hst. split.
  - unfold open_service. unfold bind at 1, gets, Datatypes.id. rewrite participants_ok, owners_ok by done. unfold bind at 1, lift. unfold bind at 1. unfold bind at 1. unfold get_recovery_threshold. rewrite Hc, Hs, Hst, Hp, map_size_empty.
    destruct (N.eqb_spec (N.of_nat (size (owners t))) 0) as [E|E]; [|done]. destruct Ho. apply map_size_empty_inv. lia.
  - intros ls w <-. unfold shuffle_recovery_shares_of. unfold bind at 1, gets, Datatypes.id. rewrite participants_ok, owners_ok by done. unfold bind at 1, lift. unfold bind at 1. unfold bind at 1. unfold get_recovery_threshold. rewrite Hc.
    unfold shares_to_issue. rewrite Hp, decide_False by tauto. destruct (N.eqb_spec (recovery_threshold c) 0); [lia|]. rewrite decide_False by tauto. rewrite (proj2 (N.ltb_lt 1 _) H1). by eexists.
Qed.

(** C39. A proposal that rekeys the ledger and then refreshes the shares is applied,
    but the shares it leaves are good for the ledger secret from before: the new one,
    that the ledger is encrypted with from then on and that encrypts the one before
    it in the ledger, is in no share. *)
Theorem rekey_then_refresh_is_stale sv : reachable careful sv -> status_of sv = Some OPEN ->
  exists sv' v ls ls' e info c, run_tx (Constitution.apply tries cert_id [Constitution.trigger_ledger_rekey; Constitution.trigger_recovery_shares_refresh]) sv = Ok (tt, sv') /\
    last (sec sv) = Some (v, ls) /\ sec sv' = (sec sv ++ [((sv_version sv' + 1)%N, ls')])%list /\ last (sv_log sv') = Some e /\ encrypts ls' ls v e /\
    recovery_shares (sv_world sv') = Some info /\ config (tables (sv_world sv')) = Some c /\ good_shares ls (recovery_threshold c) (participants (tables (sv_world sv'))) (owners (tables (sv_world sv'))) info.
Proof.
  intros Hr Hst. pose proof (reachable_ok sv Hr) as Hok. pose proof Hok as (_ & _ & _ & Hsec & _ & Hopen). destruct (Hopen Hst) as (Hrec & v & ls & Hl & _). destruct (last_sec _ _ Hsec) as (v' & ls0 & Hl' & Hls). rewrite Hl in Hl'. injection Hl' as <- <-.
  destruct (rekey_runs sv _ Hok (proj1 (begin_ok rsa_key sv Hok)) Hst Hrec) as (ls' & w1 & E1 & (Hsm & Hse & _ & Hk & Hu) & Hop & _ & Hls' & Hrcv & v1 & l1 & e & Hl1 & He & Hn & Henc). rewrite Hl in Hl1. injection Hl1 as <- <-.
  destruct (refresh_runs w1 v ls Hk Hu (proj1 (Hop Hst))) as (info & d & c & E2 & Hc & Hg); [by rewrite Hse|done|]. set (w2 := set_recovery_shares (Some info) (set_drawn d w1)) in *.
  assert (Constitution.apply tries cert_id [Constitution.trigger_ledger_rekey; Constitution.trigger_recovery_shares_refresh] (begin_tx (sv_world sv)) = (Ok tt, w2)) as E. { unfold Constitution.apply. cbn [for_each]. rewrite (bind_ok _ _ _ _ _ E1). by rewrite (bind_ok _ _ _ _ _ E2). }
  set (v2 := sv_version sv + 1). destruct (hooks_rekeyed v2 ls' w2 Hsm Hrcv Hls') as (s & Eh & Hs). { change (secrets w2) with (secrets w1). rewrite Hse. by destruct Hsec as (_ & _ & _ & Hv). }
  change (secrets w2) with (secrets w1) in Hs. rewrite Hse in Hs. destruct (settle_core v2 (set_secrets s w2)) as (Es & Et & Er & _).
  eexists (mkSvc (settle v2 (set_secrets s w2)) v2 _), v, ls, (mkLedgerSecret (raw_key ls') (Some v2)), (recovery_hook v2 e), info, c. unfold sec. cbn [sv_world sv_version sv_log]. rewrite Es, Et, Er.
  split_and!; [unfold run_tx; rewrite E; fold v2; rewrite Eh; reflexivity|exact Hl|exact Hs| |exact Henc|reflexivity|exact Hc|exact Hg]. unfold log_after. change (encrypted_past w2) with (encrypted_past w1). by rewrite He, last_snoc.
Qed.

(** C40. While a recovered service waits for shares, a proposal to refresh them is
    applied: the shares of the lost service are overwritten with shares that are
    good for the fresh ledger secret only. *)
Theorem refresh_while_waiting_overwrites r sv : reachable careful sv -> lost_open sv -> can_start rsa_key tree_root r sv -> r_sealing r = None ->
  exists sv1 sv2 info c, start tries cert_id tree_root r sv = Ok sv1 /\ recovery_shares (sv_world sv1) = recovery_shares (sv_world sv) /\
    run_tx (Constitution.apply tries cert_id [Constitution.trigger_recovery_shares_refresh]) sv1 = Ok (tt, sv2) /\ status_of sv2 = Some WAITING_FOR_RECOVERY_SHARES /\
    recovery_shares (sv_world sv2) = Some info /\ config (tables (sv_world sv)) = Some c /\
    good_shares (r_fresh r) (recovery_threshold c) (participants (tables (sv_world sv))) (owners (tables (sv_world sv))) info.
Proof.
  intros Hr [Ho Hv] Hcan Hsl. pose proof (reachable_ok sv Hr) as Hok. pose proof Hok as (_ & Hk & _ & _ & _ & Hopen). destruct (Hopen Ho) as (Hrec & _).
  destruct (start_waiting tries rsa_key cert_id tree_root r sv Hok Hcan Hsl) as (sv1 & E1 & ((Hsame & Hrs & Hu & (s & txid & Hs & Hst & _) & _) & Hsm & Hse & _) & _).
  destruct (refresh_runs (begin_tx (sv_world sv1)) (sv_version sv + 1) (r_fresh r) (same_members_info _ _ Hsame Hk) Hu (same_members_recoverable _ _ Hsame Hrec)) as (info & d & c & E2 & Hc & Hg); [unfold sec in Hse; cbn; by rewrite Hse|by destruct Hcan as (_ & ? & _)|].
  apply apply_one in E2. change (tables (begin_tx (sv_world sv1))) with (tables (sv_world sv1)) in Hc, Hg. rewrite !(same_members_roles _ _ _ Hsame) in Hg. pose proof Hsame as (_ & _ & Hcfg). rewrite Hcfg in Hc. set (w2 := set_recovery_shares (Some info) _) in E2.
  exists sv1, (mkSvc (commit_nodes w2) (sv_version sv1 + 1) (sv_log sv1)), info, c. split_and!; [done|done| |unfold status_of, get_service_status; cbn; by rewrite Hs; cbn; rewrite Hst|done|done|done].
  apply quiet_tx; [exact E2| |reflexivity|reflexivity]. apply quiet_hooks; [change (sm w2) with (sm (sv_world sv1)); by rewrite Hsm|reflexivity|reflexivity].
Qed.

Lemma rekey_run_needs sv u sv' : keys_have_info (tables (sv_world sv)) -> run_tx (Constitution.apply tries cert_id [Constitution.trigger_ledger_rekey]) sv = Ok (u, sv') -> recoverable (tables (sv_world sv)).
Proof.
  intros Hk E. unfold run_tx in E. destruct (Constitution.apply _ _ _ _) as [[u1|] w1] eqn:E1; [|done]. clear E. unfold Constitution.apply in E1. cbn [for_each Constitution.apply_action] in E1. apply bind_inv in E1 as ([] & w2 & E1 & _).
  by destruct (rekey_needs tries (begin_tx (sv_world sv)) tt w2 Hk E1) as (_ & Hrec).
Qed.

(** A proposal that sets a member who is there already is applied to an open
    service without a look at the threshold: the member is no longer active, the
    shares are not issued again, and when the other members are not enough the ledger
    can no longer be rekeyed. *)
Theorem set_member_deactivates m sv id root c : reachable careful sv -> status_of sv = Some OPEN -> config (tables (sv_world sv)) = Some c ->
  cert_id (nm_cert m) = Ok id -> is_Some (member_info (tables (sv_world sv)) !! id) -> signed_root (tables (sv_world sv)) = Some root ->
  exists sv', run_tx (Constitution.apply tries cert_id [Constitution.set_member m]) sv = Ok (tt, sv') /\ status_of sv' = Some OPEN /\
    participants (tables (sv_world sv')) = delete id (participants (tables (sv_world sv))) /\ owners (tables (sv_world sv')) = delete id (owners (tables (sv_world sv))) /\
    recovery_shares (sv_world sv') = recovery_shares (sv_world sv) /\
    (~ enough (delete id (participants (tables (sv_world sv)))) (delete id (owners (tables (sv_world sv)))) (recovery_threshold c) ->
      forall u sv'', run_tx (Constitution.apply tries cert_id [Constitution.trigger_ledger_rekey]) sv' <> Ok (u, sv'')).
Proof.
  intros Hr Ho Hc Hid _ Hroot. pose proof (reachable_ok sv Hr) as (Hsm & Hk & _). pose proof (apply_one _ _ _ (set_member_applied tries cert_id m (begin_tx (sv_world sv)) id root Hid Hroot)) as E. change (tables (begin_tx (sv_world sv))) with (tables (sv_world sv)) in E.
  set (t' := reset_tables m id root (tables (sv_world sv))) in E. set (w' := set_tables t' (begin_tx (sv_world sv))) in E. exists (mkSvc (commit_nodes w') (sv_version sv + 1) (sv_log sv)).
  split_and!; [|exact Ho|apply reset_roles|apply reset_roles|reflexivity|].
  - apply quiet_tx; [exact E| |reflexivity|reflexivity]. apply hooks_none; [exact Hsm|reflexivity].
  - intros Hne u sv'' E2. apply Hne. destruct (rekey_run_needs (mkSvc (commit_nodes w') (sv_version sv + 1) (sv_log sv)) u sv'' (reset_info m id root _ Hk) E2) as (c' & Hc' & He). change (config (tables (sv_world sv)) = Some c') in Hc'. rewrite Hc in Hc'. injection Hc' as <-. rewrite <- !(reset_roles m id root). exact He.
Qed.

(** ** A run *)

(** A new service with members enough is opened. *)
Lemma open_runs sv s : service_ok sv -> recoverable (tables (sv_world sv)) -> service (tables (sv_world sv)) = Some s -> service_status s = OPENING -> is_Some (current_service_create_txid s) -> identity_endorsement (sv_world sv) = None ->
  exists sv', run_tx (propose_open tries cert_id None (cert s)) sv = Ok (tt, sv') /\ sec sv' = sec sv /\ sv_version sv' = sv_version sv + 1 /\ tables (sv_world sv') = set_nodes_committed (nodes (tables (sv_world sv))) (set_service (Some (with_status OPEN s)) (tables (sv_world sv))) /\
    sealed_recovery_keys (sv_world sv') = sealed_recovery_keys (sv_world sv) /\ sealing_recovery_names (sv_world sv') = sealing_recovery_names (sv_world sv).
Proof.
  intros Hok Hrec Hs Hst [txid Htx] Hie. pose proof Hok as (Hsm & Hk & Hu & Hsec & _). set (w0 := begin_tx (sv_world sv)). destruct (issue_ok tries rsa_key w0 (sv_version sv) Hk Hu Hrec Hsec) as (info & sealed & e & d & v & ls & E1 & Hent & Hl & Hi). set (w1 := set_encrypted_past _ _) in E1.
  set (t' := set_service (Some (with_status OPEN s)) (tables (sv_world sv))). set (w2 := set_tables t' w1).
  assert (on_tables open_service w1 = (Ok true, w2)) as E2. { unfold on_tables. change (tables w1) with (tables (sv_world sv)). rewrite (open_service_ok (tables (sv_world sv)) s Hk Hrec Hs) by (by rewrite Hst). done. }
  destruct (endorse_ok tries rsa_key w2 (with_status OPEN s) txid eq_refl Htx (or_introl Hie)) as (x & d' & E3). set (w3 := set_new_endorsement _ _) in E3. set (w4 := set_tx_flags (SNAPSHOT_AT_NEXT_SIGNATURE :: tx_flags w3) w3).
  assert (propose_open tries cert_id None (cert s) w0 = (Ok tt, w4)) as E.
  { unfold propose_open. apply apply_one. cbn [Constitution.apply_action]. unfold Constitution.apply_transition. unfold bind at 1, gets at 1. change (Datatypes.id w0) with w0. change (tables w0) with (tables (sv_world sv)). rewrite Hs, decide_False by (rewrite Hst; by intros [? _]).
    unfold transition_service_to_open. unfold bind at 1, gets at 1. change (Datatypes.id w0) with w0. change (tables w0) with (tables (sv_world sv)). rewrite Hs, decide_False by (rewrite Hst; by intros [?|?]). unfold check_identities. rewrite decide_False by (by rewrite Hst). cbn [rbind]. rewrite decide_True by done.
    unfold bind at 1, lift. unfold is_part_of_public_network, is_part_of_network. rewrite bool_decide_false, bool_decide_true by (cbn; by rewrite Hsm). rewrite (bind_ok _ _ _ _ _ E1), (bind_ok _ _ _ _ _ E2), (bind_ok _ _ _ _ _ E3). reflexivity. }
  eexists. split; [unfold run_tx; fold w0; rewrite E, hooks_none by (exact Hsm || reflexivity); reflexivity|]. by split_and!.
Qed.
End life.

(** Randomness that is not random, and keys that keep nothing secret. *)
#[local] Instance plain_crypto : ShareCrypto := {|
  share_gcm := {| seal _ _ _ plain := (plain, replicate 16 Byte.x00); unseal _ _ _ _ c := Some c |};
  share_hkdf n _ _ _ := replicate (N.to_nat n) Byte.x01; random64 _ := 5; random_iv _ := replicate 12 Byte.x02; random_key _ := replicate 32 Byte.x03;
  rsa_oaep_wrap _ _ b := Ok b; rsa_oaep_unwrap _ b := Some b; new_rsa_key_pair _ := "pair"; private_key_pem pub := Byte.x00 :: String.list_byte_of_string pub;
  rsa_key_pair_of b := Ok (String.string_of_list_byte (tail b)); snp_derived_key _ := []; cose_sign_endorsement _ _ _ _ _ _ := Some [] |}.
#[local] Instance plain_crypto_laws : ShareCryptoLaws 1 (fun _ => True).
Proof.
  split; [by split|intros; apply length_replicate|done|done| | | |done| |done|by eexists].
  - intros n. exists 0%nat. split; [lia|done].
  - intros n pub b _ _. by exists b.
  - intros n pub b e _ E. cbn in E. by injection E as ->.
  - intros pub _. unfold rsa_key_pair_of, private_key_pem, plain_crypto. by rewrite <- (String.string_of_list_byte_of_string pub) at 2.
Qed.

#[local] Instance plain_rest : NodeRest := {| public_key r := r; published_address r := r; certificate_signing_request _ := None; generateEndorsedCertificate _ _ _ := Ok "" |}.

(** One member, in one role, and one node, that has sealed a recovery key. *)
Definition ex_tables (role : MemberRecoveryRole) (threshold : N) : Tables :=
  mkTables {["m" := "cert of m"]} {["m" := mkMember ACTIVE "" (Some role)]} {["m" := "key of m"]} ∅ ∅ ∅ ∅ {["n" := mkNode TRUSTED "key of n" None false ""]} {["n" := mkNode TRUSTED "key of n" None false ""]}
    (Some (mkService "service" OPENING None None "" (Some (TxID.mk 2 1)))) None None (Some (mkConfiguration threshold CFT None None None None)) None (Some "tree") (Some "root").
Definition ex_world (keys : gmap string SealedRecoveryKey) : World :=
  mkWorld (mkState [(1, mkLedgerSecret (replicate 32 Byte.x04) None)] 1 None) (ex_tables Participant 1) None None None ∅ None keys {["place" := "n"]} None None None None [] partOfNetwork [] None None None (fun _ => "") "n" "key of n" [] 0.
Definition ex_sealed : SealedRecoveryKey := match get_snp_sealed_recovery_key 7 (ex_world ∅) with (Ok k, _) => k | _ => mkSealedKey [] "" 0 end.
Definition ex_service : Service := mkSvc (ex_world {["n" := ex_sealed]}) 1 [].
Abbreviation ex_reachable := (reachable 1 (fun _ => True) map_to_list Ok Ok (careful 1 (fun _ => True) Ok)).

Lemma ex_sealed_ok : sealed_key_ok (fun _ => True) ex_sealed.
Proof. unfold ex_sealed. destruct (get_sealed_key_ok 1 (fun _ => True) 7 (ex_world ∅)) as (k & d & E & Hk & _). by rewrite E. Qed.

Lemma ex_keys_have_info role threshold : keys_have_info (ex_tables role threshold).
Proof. intros id [k Hk]. cbn in Hk. apply lookup_singleton_Some in Hk as [<- _]. by eexists. Qed.
Lemma ex_role role threshold : in_role role (ex_tables role threshold) = {["m" := "key of m"]}.
Proof. apply map_filter_singleton_True. exists (mkMember ACTIVE "" (Some role)). cbn. by rewrite lookup_singleton_eq. Qed.
Lemma ex_no_role role role' threshold : role' <> role -> in_role role' (ex_tables role threshold) = ∅.
Proof. intros Hne. apply map_filter_singleton_False. intros (d & Hd & _ & Hr). cbn in Hd. rewrite lookup_singleton_eq in Hd. injection Hd as <-. cbn in Hr. congruence. Qed.
Lemma ex_trusted role threshold : get_trusted_nodes (ex_tables role threshold) !! "n" = Some (mkNode TRUSTED "key of n" None false "").
Proof. unfold get_trusted_nodes. rewrite map_lookup_imap. cbn. by rewrite lookup_singleton_eq. Qed.

Lemma ex_initial : initial (fun _ => True) ex_service.
Proof.
  split_and!; [done|apply ex_keys_have_info| |done|done|exists 1, (mkLedgerSecret (replicate 32 Byte.x04) None); by split_and!].
  split_and!; [by intros ??|unfold few_members; cbn [sv_world ex_service ex_world tables]; by rewrite ex_role, map_size_singleton|by intros ??|by intros ??| |].
  - eexists. split; [apply ex_trusted|done].
  - intros nid ni. cbn. intros [<- <-]%lookup_singleton_Some. split; [|done]. eexists. by rewrite lookup_singleton_eq.
Qed.
Lemma ex_recoverable : recoverable (ex_tables Participant 1).
Proof. eexists. split; [done|]. rewrite ex_role. split; [done|]. left. rewrite map_size_singleton. split; [|done]. by apply map_non_empty_singleton. Qed.

(** The service is opened. *)
Definition ex_opened (sv : Service) : Prop :=
  ex_reachable sv /\ sec sv = sec ex_service /\ sv_version sv = 2 /\ tables (sv_world sv) = set_service (Some (mkService "service" OPEN None None "" (Some (TxID.mk 2 1)))) (ex_tables Participant 1) /\
  sealed_recovery_keys (sv_world sv) = {["n" := ex_sealed]} /\ sealing_recovery_names (sv_world sv) = {["place" := "n"]}.
Lemma ex_open : exists sv, ex_opened sv.
Proof.
  destruct (open_runs 1 (fun _ => True) Ok ex_service _ (initial_ok _ _ ex_initial) ex_recoverable eq_refl eq_refl) as (sv & E & H1 & H2 & H3 & H4 & H5); [by eexists|done|].
  exists sv. split_and!; [|exact H1|exact H2|exact H3|exact H4|exact H5]. eapply reach_step; [apply reach_initial, ex_initial|by eapply step_open].
Qed.

(** It is lost, and recovered on another node. *)
Definition ex_create : CreateIn := mkCreateIn "new service" (TxID.mk 4 3) "" None "n2" "key of n2" "" None.
(** Entries are read with the key they are encrypted with: the first secret up to
    the last transaction of the lost service, the new one after. *)
Definition ex_entries (v : N) (key : option bytes) : result bool := Ok (bool_decide (key = Some (replicate 32 (if v <? 3 then Byte.x04 else Byte.x05)))).
Definition ex_recovery (sealing : option string) (shares : list (string * bytes)) : Recovery :=
  mkRecovery (mkLedgerSecret (replicate 32 Byte.x05) None) [] sealing ex_create (Some "service") shares ex_entries (fun _ => "root") (fun _ => "root").

Lemma ex_open_status sv : ex_opened sv -> status_of sv = Some OPEN.
Proof. intros (_ & _ & _ & Ht & _). unfold status_of. by rewrite Ht. Qed.
Lemma ex_lost_open sv : ex_opened sv -> lost_open sv.
Proof. intros H. split; [by apply ex_open_status|]. destruct H as (_ & Hs & Hv & _). rewrite Hs, Hv. by repeat constructor. Qed.
Lemma ex_can_start sealing shares sv : ex_opened sv -> can_start (fun _ => True) Ok (ex_recovery sealing shares) sv.
Proof. intros (_ & _ & _ & Ht & _). split_and!; [|done|done|by intros ??]. exists (mkService "service" OPEN None None "" (Some (TxID.mk 2 1))). split; [|done]. unfold recreatable. rewrite Ht. split_and!; [done|done|by eexists|by exists "tree", "tree"|done]. Qed.

Lemma ex_same_ledger sealing shares sv : ex_opened sv -> same_ledger (ex_recovery sealing shares) sv.
Proof.
  intros (_ & Hs & Hv & _). split; [|done]. rewrite Hs, Hv. intros v Hv1. unfold secret_at, at_or_below, ex_recovery, ex_entries. cbn [r_entries r_fresh]. change (sec ex_service) with [(1, mkLedgerSecret (replicate 32 Byte.x04) None)]. cbn [app]. rewrite !filter_cons. cbn [fst].
  rewrite decide_True by done. destruct (N.ltb_spec v 3) as [Hlt|Hge].
  - rewrite decide_False by lia. eexists. split; [reflexivity|]. by rewrite bool_decide_true.
  - rewrite decide_True by lia. eexists. split; [reflexivity|]. by rewrite bool_decide_true.
Qed.

Lemma ex_members_recover sv : ex_opened sv -> exists b, members_recover (ex_recovery None [("m", b)]) sv.
Proof.
  intros Hsv. pose proof (ex_open_status sv Hsv) as Ho. destruct Hsv as (Hr & Hs & Hv & Ht & _). assert (participants (tables (sv_world sv)) = {["m" := "key of m"]}) as Hp by (rewrite Ht; exact (ex_role Participant 1)).
  pose proof (reachable_ok 1 (fun _ => True) map_to_list (fun m => reflexivity _) Ok Ok sv Hr) as (_ & _ & _ & _ & _ & Hopen). destruct (Hopen Ho) as (_ & v & ls & _ & Hi).
  destruct (own_shares ls _ "m" "key of m" Participant Hi) as (info & e & b & Hinfo & _ & _ & Hown); [done|by rewrite Hp, lookup_singleton_eq|].
  exists b. split_and!; [done|by apply NoDup_singleton|]. eexists info, _. split_and!; [done|by rewrite Ht|by repeat constructor|by left].
Qed.
Lemma ex_seals sv : ex_opened sv -> seals (fun _ => True) (ex_recovery (Some "place") []) sv.
Proof.
  intros (_ & _ & _ & Ht & Hk & Hn). exists "place", "n", (mkNode TRUSTED "key of n" None false ""), ex_sealed. rewrite Hk, Hn, Ht. split_and!; [done|done|by rewrite lookup_singleton_eq|exact (ex_trusted Participant 1)|by rewrite lookup_singleton_eq|apply ex_sealed_ok].
Qed.

Lemma recovery_succeeds_witness : exists sv b sv', ex_opened sv /\ recover 1 map_to_list Ok Ok (ex_recovery None [("m", b)]) sv = Ok sv' /\ status_of sv' = Some OPEN /\ plain (sec sv') = [(1, replicate 32 Byte.x04); (3, replicate 32 Byte.x05)].
Proof.
  destruct ex_open as [sv Hsv]. destruct (ex_members_recover sv Hsv) as [b Hb]. pose proof Hsv as (Hr & Hs & Hv & _).
  destruct (recovery_succeeds 1 (fun _ => True) map_to_list (fun m => reflexivity _) Ok Ok (ex_recovery None [("m", b)]) sv Hr (ex_lost_open sv Hsv) (ex_can_start _ _ sv Hsv) (ex_same_ledger _ _ sv Hsv) Hb) as (sv' & E & _ & Ho & Hp).
  exists sv, b, sv'. split_and!; [exact Hsv|exact E|exact Ho|]. rewrite Hp, Hs, Hv. reflexivity.
Defined.

Lemma sealed_recovery_succeeds_witness : exists sv sv', ex_opened sv /\ recover 1 map_to_list Ok Ok (ex_recovery (Some "place") []) sv = Ok sv' /\ status_of sv' = Some OPEN /\ plain (sec sv') = [(1, replicate 32 Byte.x04); (3, replicate 32 Byte.x05)].
Proof.
  destruct ex_open as [sv Hsv]. pose proof Hsv as (Hr & Hs & Hv & _).
  destruct (sealed_recovery_succeeds 1 (fun _ => True) map_to_list (fun m => reflexivity _) Ok Ok (ex_recovery (Some "place") []) sv Hr (ex_lost_open sv Hsv) (ex_can_start _ _ sv Hsv) (ex_same_ledger _ _ sv Hsv) (ex_seals sv Hsv)) as (sv' & E & _ & Ho & Hp).
  exists sv, sv'. split_and!; [exact Hsv|exact E|exact Ho|]. rewrite Hp, Hs, Hv. reflexivity.
Defined.

Lemma open_service_keeps_shares_witness : exists sv sv', ex_opened sv /\ run_tx (Constitution.apply 1 Ok [Constitution.trigger_ledger_rekey]) sv = Ok (tt, sv') /\ ex_reachable sv'.
Proof.
  destruct ex_open as [sv Hsv]. exists sv. destruct (proj2 (proj2 (open_service_keeps_shares 1 (fun _ => True) map_to_list (fun m => reflexivity _) Ok Ok sv (proj1 Hsv) (ex_open_status sv Hsv)))) as (sv' & E & Hr'). exists sv'. split_and!; [exact Hsv|exact E|exact Hr'].
Defined.

Lemma owners_only_opens_witness : exists t, open_service (ex_tables Owner 2) = (Ok true, t) /\ get_service_status t = Some OPEN.
Proof.
  eexists. split; [refine (proj1 (owners_only_opens 1 (ex_tables Owner 2) _ _ (ex_keys_have_info _ _) (ex_no_role Owner Participant 2 ltac:(discriminate)) _ eq_refl _ eq_refl eq_refl))|reflexivity].
  - rewrite ex_role. apply map_non_empty_singleton.
  - reflexivity.
Defined.

Lemma rekey_then_refresh_is_stale_witness : exists sv sv' info c, ex_opened sv /\ run_tx (Constitution.apply 1 Ok [Constitution.trigger_ledger_rekey; Constitution.trigger_recovery_shares_refresh]) sv = Ok (tt, sv') /\
  (sec sv').*1 = [1; sv_version sv' + 1] /\ recovery_shares (sv_world sv') = Some info /\ good_shares (mkLedgerSecret (replicate 32 Byte.x04) None) (recovery_threshold c) (participants (tables (sv_world sv'))) (owners (tables (sv_world sv'))) info.
Proof.
  destruct ex_open as [sv Hsv]. pose proof Hsv as (Hr & Hs & _).
  destruct (rekey_then_refresh_is_stale 1 (fun _ => True) map_to_list (fun m => reflexivity _) Ok Ok sv Hr (ex_open_status sv Hsv)) as (sv' & v & ls & ls' & e & info & c & E & Hl & Hs' & _ & _ & Hi & _ & Hg).
  exists sv, sv', info, c. rewrite Hs in Hl. injection Hl as <- <-. split_and!; [exact Hsv|exact E|rewrite Hs', Hs; reflexivity|exact Hi|exact Hg].
Defined.

Lemma refresh_while_waiting_overwrites_witness : exists sv sv1 sv2, ex_opened sv /\ start 1 Ok Ok (ex_recovery None []) sv = Ok sv1 /\
  run_tx (Constitution.apply 1 Ok [Constitution.trigger_recovery_shares_refresh]) sv1 = Ok (tt, sv2) /\ status_of sv2 = Some WAITING_FOR_RECOVERY_SHARES.
Proof.
  destruct ex_open as [sv Hsv]. destruct (refresh_while_waiting_overwrites 1 (fun _ => True) map_to_list (fun m => reflexivity _) Ok Ok (ex_recovery None []) sv (proj1 Hsv) (ex_lost_open sv Hsv) (ex_can_start _ _ sv Hsv) eq_refl) as (sv1 & sv2 & info & c & E1 & _ & E2 & Hst & _).
  exists sv, sv1, sv2. split_and!; [exact Hsv|exact E1|exact E2|exact Hst].
Defined.

(** The only member is set again. *)
Lemma set_member_deactivates_witness : exists sv sv', ex_opened sv /\ run_tx (Constitution.apply 1 Ok [Constitution.set_member (mkNewMember "m" (Some "new key") "" None)]) sv = Ok (tt, sv') /\ status_of sv' = Some OPEN /\
  forall u sv'', run_tx (Constitution.apply 1 Ok [Constitution.trigger_ledger_rekey]) sv' <> Ok (u, sv'').
Proof.
  destruct ex_open as [sv Hsv]. pose proof Hsv as (Hr & _ & _ & Ht & _).
  assert (participants (tables (sv_world sv)) = {["m" := "key of m"]} /\ owners (tables (sv_world sv)) = ∅) as [Hp Ho] by (rewrite Ht; split; [exact (ex_role Participant 1)|exact (ex_no_role Participant Owner 1 ltac:(discriminate))]).
  destruct (set_member_deactivates 1 (fun _ => True) map_to_list (fun m => reflexivity _) Ok Ok (mkNewMember "m" (Some "new key") "" None) sv "m" "root" (mkConfiguration 1 CFT None None None None) Hr (ex_open_status sv Hsv)) as (sv' & E & Hst & _ & _ & _ & Hno);
    [rewrite Ht; reflexivity|reflexivity|rewrite Ht; eexists; reflexivity|rewrite Ht; reflexivity|].
  exists sv, sv'. split_and!; [exact Hsv|exact E|exact Hst|apply Hno]. rewrite Hp, Ho, delete_singleton_eq. intros (_ & [[Hx _]|(_ & Hx & _)]); [by apply Hx|apply Hx, delete_empty].
Defined.
End ServiceLife.
